(* ===== verification/_CoqProject ===== *)
-Q . S2P
Prelude.v
Order.v
Version.v
Range.v
Encoding.v
StrBytes.v
Package.v
Nuspec.v
BTree.v
Resolver.v
ResolverEx.v
ResolverThm.v
ResolverWalk.v
ResolverSettle.v
ResolverSound.v
ResolverClosure.v
Ty.v
Unify.v
MatchReach.v
MatchReachThm.v
IfExpr.v
Escaping.v
Properties.v
PropExpr.v
PropScanThm.v
PropExprThm.v
PropPathThm.v
Condition.v
ConditionThm.v
ConditionEvalThm.v
ConditionReadsThm.v
ConditionNumThm.v
ConditionRenderThm.v
ConditionValueThm.v
Glob.v
GlobThm.v
GlobResolver.v
GlobResolverThm.v
Position.v
Lexer.v
Interp.v
Directive.v
DirectiveThm.v
Driver.v
DriverThm.v
Cursor.v
Signature.v
SignatureThm.v
Metadata.v
Tables.v
Manifest.v
TableFormat.v
TablesThm.v
MetadataThm.v
ImageModel.v
TypeDefs.v
Members.v
MethodImpls.v
Image.v
ImageInv.v
Attributes.v
AttributesThm.v
MembersThm.v
MethodImplsThm.v
ImageThm.v
TargetFramework.v
TargetFrameworkThm.v
TargetFrameworkCompat.v
FrameworkGroups.v
