(* ===== verification/Prelude.v ===== *)
(** * A verification development for Borzoi

    Borzoi is an F# language server written in Rust.  Its crates, under
    [src/crates/], are: [cst] (lexer, conditional compilation, offside filter,
    parser), [sema] (name resolution and type inference), [assembly] (readers
    of .NET assemblies, F# signature data and PDBs), [msbuild] (evaluation of
    project files), [nuget] (versions, frameworks, packages and the offline
    package resolver), [lsp] (the server), and test tools ([corpus-diff],
    [oracle-harness], [spawn]).  The server evaluates a project with [msbuild],
    finds its packages with [nuget], reads the assemblies with [assembly],
    parses sources with [cst] and answers queries with [sema], translating byte
    offsets to editor positions.

    This development models the parts whose answers the rest depends on and
    which are decided by pure computation.

    ** Files

    - [Prelude] (this file): results, text as lists of scalar values with the
      [str] methods the code calls, decimal printing and parsing, tactics, the
      hint database [text].
    - [Order]: the laws of Rust's [Ord] ([TotalCmp]) and the combinators of
      comparison functions.
    - [Encoding]: UTF-8 and UTF-16, as the standard library encodes and decodes.
    - [StrBytes]: a [str] seen as its bytes: lengths, boundaries, checked slices,
      and the [while] loop over an increasing index.
    - [BTree]: Rust's [BTreeMap] as its sorted list of entries.
    - [Version] ([nuget/src/version.rs]), [Range] ([nuget/src/range.rs]),
      [Package] and [Nuspec] ([nuget/src/package.rs]): the package data.
    - [Resolver] ([nuget/src/resolver.rs]): every function of the offline
      resolver.  [ResolverEx] runs it on small package folders; [ResolverThm],
      [ResolverWalk], [ResolverSettle] and [ResolverSound] hold its invariants,
      [ResolverClosure] the theorems about [resolve_offline].
    - [TargetFramework] ([nuget/src/framework.rs]): names, parsing, rendering,
      compatibility and the nearest-framework reducer, with all their tables.
      [TargetFrameworkThm] is about parsing and the reducer,
      [TargetFrameworkCompat] about compatibility and the nearest candidate;
      [FrameworkGroups] is the composition with the packages and the resolver.
    - [Ty] ([sema/src/ty.rs]) and [Unify] ([sema/src/unify.rs]): types and the
      unifier of type inference.
    - [MatchReach] ([sema/src/match_reach.rs]): the usefulness check on match
      clauses; [MatchReachThm]: typed values and what reachability means.
    - [Lexer] ([cst/src/lexer/mod.rs], [callbacks.rs]): tokens and the hand-written
      callbacks of the lexer; [Interp] ([cst/src/lexer/interp.rs]): the wrapper
      that lexes interpolated strings.
    - [IfExpr] ([cst/src/directives/expr.rs]): [#if] expressions.
    - [Directive] ([cst/src/directives/line.rs], [line_store.rs]): the recogniser
      of directive lines and the store of [#line] directives; [DirectiveThm] its
      theorems.
    - [Driver] ([cst/src/directives/driver.rs]): the conditional-compilation
      driver in its two modes, over the lexer, the recogniser and the [#if]
      expressions; [DriverThm] its theorems.
    - [Escaping] ([msbuild/src/properties/escaping.rs]): escaped values.
    - [Properties] ([msbuild/src/properties/mod.rs], [path_fixup.rs]): the table of
      properties, paths, the upward search for a file, framework inference and
      versions; [PropExpr] ([properties/expr.rs] and the substitution of [mod.rs]):
      property expressions.  [PropScanThm] is about their scanners and the names
      they report, [PropExprThm] about evaluation and substitution, [PropPathThm]
      about the table and paths.
    - [Condition] ([msbuild/src/condition.rs]): conditions over [PropExpr].
      [ConditionThm] is about the parser and its grammar, [ConditionEvalThm] about
      what is committed, [ConditionReadsThm] about what is read, [ConditionNumThm]
      about the comparisons, [ConditionRenderThm] about the way from the text of a
      tree to the comparison of its texts, [ConditionValueThm] from there to the
      values that the texts stand for.
    - [Glob] ([msbuild/src/glob.rs]): compiled glob patterns, item fragments and
      the selection; [GlobThm] its theorems.  [GlobResolver]
      ([msbuild/src/glob_resolver.rs]): the directory walk and the expansion of a
      request; [GlobResolverThm] its theorems.
    - [Position] ([lsp/src/position.rs]): offsets and editor positions.
    - [Cursor] ([assembly/src/reader/cursor.rs]): byte cursor and compressed
      integers.  [Signature] ([assembly/src/reader/signature.rs]): the decoder of
      signature blobs over the cursor, with the encoder of its tests;
      [SignatureThm] its theorems.
    - [Metadata] ([assembly/src/reader/metadata.rs] and the errors of
      [reader/mod.rs]): the PE container, the metadata root and the heaps.
      [Tables] ([reader/tables.rs]): the schema of the tables, their layout, rows
      and coded indices.  [Manifest] ([reader/manifest.rs]): assembly identities,
      references, forwarders and resources.  [TableFormat] writes down the format
      of the tables as ECMA-335 gives it, with its own sizes, places and writer,
      apart from the schema of the code; [TablesThm] relates the reader to it, and
      [MetadataThm] is about the container and the manifest.
    - [ImageModel] ([reader/model.rs], [reader/ids.rs]): types, members and
      attributes as plain data.  [TypeDefs] ([reader/typedefs.rs]): the lookups of
      the type walk.  [Members] ([reader/members.rs]): the index of attributes,
      references, generic parameters, constants, accessors and members.
      [MethodImpls]: the pass of [members.rs] over explicit implementations.
      [Image] ([read_types] of [typedefs.rs], [reader/image.rs]): the whole reader.
      [ImageInv] states what an image promises; [MembersThm], [MethodImplsThm] and
      [ImageThm] prove it.
    - [Attributes] ([reader/attributes.rs]): the decoder of attribute blobs, with
      the encoder of its tests; [AttributesThm] its theorems.

    A definition has the name of the function it translates, prefixed by its
    type where two types share a method name ([NuGetVersion_cmp],
    [VersionRange_parse]).  The body of a loop that is long enough to be read on
    its own is a definition too ([scan_sections], [walk_loop], [unescape_loop]).

    ** Modelling

    Text is [list N] of Unicode scalar values.  Where the code counts bytes and
    the count shows (positions, tokenizer offsets, nuspec bytes) the bytes are
    those of [encode_utf8]; where it only compares or slices at ASCII characters
    the model slices scalar values.  Version components keep the bound of their
    [u32] ([u32::MAX] checked in the parser); [usize] sizes are bounded where
    overflow is observable.  A [Result] is [result]; a panic (a failed index,
    slice, [expect] or [assert!]) is a value of its own, so that its absence is
    a theorem.  The host of [msbuild] is Unix ([cfg!(windows)] is false), numbers
    of conditions are the doubles of [SpecFloat], and property expressions and
    conditions run in the monad [run] of [Properties]: a result with the issues
    found so far, a declined expression, or [Stuck] for a panic or the end of the
    fuel.  Bytes of an assembly are [Z] below 256 in a file of at most
    [isize::MAX] bytes ([in_memory]), and its reader runs in the monad [reading]:
    [Got] a value, [Refused] with the error of the code, or [Panicked].  Sums and
    differences of [u32] that the code leaves unchecked are a panic when they leave
    the type.  The index of attributes, which positions are taken out of as they are
    built, is the state of the monad [draining] over [reading]; the decoder of
    attributes is a state monad over its cursor with the errors of the code.  The
    resolver runs in the monad [M] of [Resolver]: it threads the
    package cache and ends in [Ret], [Decline], [Panic] or [OutOfFuel].

    Fuel.  The resolver's tree walk has [MAX_NODES] steps because the code
    itself declines past that many nodes; its climbs to an ancestor have the
    node's index, which parents decrease; its conflict passes have the number of
    nodes, each visited once; its rounds have the code's [MAX_ROUNDS].
    [resolve_offline_answers] shows that none runs out.  The unifier's recursion
    has no bound in the code, so its theorems say that some fuel is enough and
    that more does not change the answer.  The [#if] parser has six units for
    each character, and [unescape] one; their theorems include that this is
    enough.  The parser of framework names has one unit for each dash; [useful]
    has the weight of its matrix; [decode] has the code's [MAX_DEPTH]; the glob
    loop has one unit for each pair of a pattern item and a retry of its star.
    A scan over bytes ([while_lt]) has the bytes that are left, and the driver
    six turns for each byte: [driver_drains] shows that both of its iterators
    reach their end.  A property expression has the length of its text, because an
    interior is shorter than what it is in; the upward search has the length of
    its path; the condition parser has five calls for each token.
    [substitute_answers] and [evaluate_condition_answers] show that none runs out.
    The directory walk has the levels that the code's [max_depth] leaves it.
    The name of a metadata stream has nine chunks of four bytes, because the code
    refuses a name of more than 32.  The walk over the interfaces of a type has the
    code's [MAX_CLOSURE_FRAMES], comparisons and instantiations of signatures its
    [EQUIV_MAX_DEPTH], the types of named arguments its [MAX_ARRAY_DEPTH]; there the
    code itself stops, with the answer that the model gives.  [parse_safe] covers
    the end of all of them.

    ** Interfaces

    - [TotalCmp] ([Order]): what a map or a sort needs of a comparison; versions,
      package ids and cache entries discharge it.
    - [FileSystem] ([Nuspec]): the calls of [std::fs] the package code makes,
      with no law: every theorem holds for any answers, errors included.
    - [parse_xml] ([Nuspec]): the XML parser is the crate [roxmltree]; the model
      starts from its tree.
    - [Framework] ([Package]): the part of [framework.rs] the package code calls,
      with two laws: [any] parses, and the reducer answers with the position of
      a candidate.  [FrameworkGroups.nuget_framework] discharges it with
      [TargetFramework].
    - [Universe] ([MatchReachThm]): the unions of a program and the canonical
      spellings of its constants; [small_universe] is an instance.
    - [Logos] and [LogosLaws] ([Interp]): the automaton that the crate [logos]
      generates from the token patterns, and its documented behaviour (a token is
      a non-empty prefix that ends at a character boundary; only the end of the
      input has none; a right-brace token starts with one).  [char_logos] is an
      instance.
    - [Host] ([Properties]): the operating system and the files of the machine, with
      no law.  [Disk] ([GlobResolver]): the calls of [std::fs] of the directory walk,
      with no law.
    - [Parts] ([ImageInv]): the references and attributes that a value of the image
      model holds; every structure of the model is an instance.
    - [UnificationTable] and [LawfulTable] ([Unify]): the union-find table of the
      crate [ena] and its documented behaviour, with the choice of
      representatives left open and the laws of commit and rollback given for an
      open snapshot ([ut_after]).  [Unify.LogTable] is a concrete table that has
      these laws.

    ** Theorems

    - Versions: the comparer is a total order, identity refines it, the hash agrees
      with it, and parsing inverts printing.
    - Ranges: parsed ranges are well formed; [satisfies] is interval membership;
      parsing inverts printing.
    - Packages: ids follow their grammar; equality, order, hash and folder agree; no
      id or version text that is accepted names a folder outside the root; the
      nuspec decoding, lookup, projection and the listing of versions do what they
      say.
    - Resolver: it always answers, and a closure it returns is exactly what is
      reachable: the packages of the requirements, closed under the dependencies of
      its own packages, and nothing else; with one package per id, read from
      committed folders, within the ranges of the requirements and without
      downgrades.
    - Unifier: it terminates, succeeds exactly on unifiable types, and computes a
      most general unifier; [unify_atomic] is all or nothing; no reachable table
      holds an infinite type; [resolve] gives the normal form.
    - Frameworks: the nearest framework is a candidate the project is compatible
      with, and exists exactly when there is one; compatibility is reflexive and
      monotone in the version; the dependencies that the resolver reads are those of
      a compatible group.
    - Match reachability: the check returns; a clause it calls reachable is reached
      by a value that no earlier clause takes; on canonical constants it is exact.
    - Lexer: every callback stops at a character boundary inside the text, a block
      comment ends at its own closing mark, the fragment after a fill follows the
      rules of its string, and the tokens of the wrapper tile the text.
    - Directives: the recogniser is total and agrees with a grammar on characters;
      it inverts printing; a query of the [#line] store finds the governing
      directive.
    - Driver: both iterators drain without a panic; the full-trivia items tile the
      source, and without their markers are the swallowing ones; the stack of frames
      selects the arms that nested conditionals select; recorded [#line] directives
      are at the lines [Position] gives.
    - [#if] expressions: the parser is the grammar, and inverts printing.
    - Globs: the loop with one remembered star is the naive matcher; a selection
      holds exactly the matches of its fragments, whatever the listing order.
    - Glob resolver: an answer is exactly the files on disk that match, with the
      backslashes of their names read as separators, at any depth and in whatever
      order directories list them; the walk answers on every tree that is shallow
      enough and has no cycle of links.
    - Signatures: decoding inverts encoding up to the depth limit; whatever the
      bytes, a decoded type is well formed, shallow and no larger than the blob.
    - Escaping: the scan is the plain decoding, and inverts escaping.
    - Properties: every text has an expansion; it reads only the properties that
      [property_references] reports (and two reserved ones); plain references are
      replaced by their values; allowing the file system only adds answers;
      splitting arguments inverts joining them; paths are normalised once and for
      all; the upward search finds the nearest directory.
    - Conditions: every text has an answer; the parser is its grammar; a committed
      answer holds whatever the parts that were skipped or not understood stand for,
      and depends only on the reported properties (with the exceptions below); a
      written-out tree of comparisons of integers, versions, truth values and words
      is evaluated to what it means, whatever the blanks; the comparisons are
      consistent with each other.
    - Positions: offset to position and back is the identity up to the documented
      rounding; nothing panics or overflows.
    - Cursor: reads are in bounds and invert the encoders.
    - Assembly container and tables: no file makes the reader panic; in a layout it
      accepts, rows and columns are at the places the standard gives, in bounds and
      disjoint, and read as the values there; the tables, heap entries and coded
      indices that a writer lays out are read back.
    - Assembly images: no file makes the parser panic; every handle of an image, at
      whatever position, leads to an entry, accessors are methods of their type, an
      enclosing type lists what it encloses, the top level is what nothing encloses,
      and the methods of the types are consecutive rows; the owner of a method row
      is found exactly; the attributes of a type are the rows with that parent.
    - Attributes: decoding inverts encoding and leaves no byte; on a parsed image no
      attribute makes it panic.

    Hypotheses that are not obvious.  [uniform], in two closure theorems of the
    resolver, says that written lower bounds of one package that compare equal name
    the same folder.  [unsigned_uniform] shows it for parsed ranges whose labels do
    not start with a minus sign; 1.0.0--1 and 1.0.0--01 are equal and differ.
    [bounded], in the theorem on downgrades, says that the dependencies of the
    closure's packages have lower bounds.  [implicit_names] are the two reserved
    properties that functions of expressions read without naming them, and
    [odd_name] the texts that a condition looks up although they are no name: the
    scan for references reports neither, and [implicit_names_needed] and
    [odd_names_needed] show that the theorems on what is read need them.  A nested
    type may be listed by a second type, when the table of nested classes has two
    rows for it: [image_ok] gives the direction that the code keeps.

    ** Not modelled

    [Display] and [Error] implementations other than those that print versions,
    ranges and frameworks, and the texts of diagnostics; [Ty::render_fsharp],
    which needs the alias tables of [assembly]; the automaton that [logos]
    generates (a parameter, above); the event parser and the syntax tree; the
    walk of [msbuild/src/evaluator.rs] over project files, and the Windows branches
    of its path functions; the F# signature data of [assembly] and the projection of
    an image to the model that [sema] queries; the server loop, external processes
    and the test tools, which are I/O.

    ** Plan

    Next: the projection of images, and the reader of F# signature data over
    [Cursor]; overload resolution over [Ty]; the offside filter over [Driver]. *)

From Stdlib Require Import String Ascii.
From Stdlib Require Export NArith ZArith Lia.
From stdpp Require Export base numbers option sets list.

#[export] Set Default Goal Selector "!".
Export StringSyntax AsciiSyntax.

Declare Scope rust_scope.
Delimit Scope rust_scope with rust.
Open Scope rust_scope.

(** ** Fallible code: [Result], and code that may panic *)

Inductive result (A E : Type) : Type :=
| Ok (a : A)
| Err (e : E).
Arguments Ok {A E} _.
Arguments Err {A E} _.

Definition rbind {A B E} (m : result A E) (k : A -> result B E) : result B E :=
  match m with Ok a => k a | Err e => Err e end.

Definition map_err {A E F} (f : E -> F) (m : result A E) : result A F :=
  match m with Ok a => Ok a | Err e => Err (f e) end.

Definition ok_or {A E} (o : option A) (e : E) : result A E :=
  match o with Some a => Ok a | None => Err e end.

(** The [?] operator of Rust. *)
Notation "'let?' x := m 'in' k" := (rbind m (fun x => k))
  (at level 10, x pattern, m at level 100, k at level 200) : rust_scope.

(** [.expect(..)] on a value the code knows to be [Ok]/[Some]: [d] stands for
    the panic, and each use has a lemma that it is not reached. *)
Definition expect {A E} (d : A) (m : result A E) : A :=
  match m with Ok a => a | Err _ => d end.

(** [collect::<Result<Vec<_>, _>>()]: the first error wins. *)
Fixpoint rmapM {A B E} (f : A -> result B E) (l : list A) : result (list B) E :=
  match l with
  | [] => Ok []
  | a :: l' =>
      match f a with
      | Err e => Err e
      | Ok b => match rmapM f l' with Ok bs => Ok (b :: bs) | Err e => Err e end
      end
  end.

(** [iter().any(..)] for a test that may fail. *)
Fixpoint anyM {A} (f : A -> option bool) (l : list A) : option bool :=
  match l with
  | [] => Some false
  | x :: l' => b ← f x; if b : bool then Some true else anyM f l'
  end.

(** ** Text

    A Rust [&str] is the list of its Unicode scalar values.  Positions into
    it are counted in scalar values where the code only slices at positions
    it found itself; where a byte offset is observable it is computed with
    [len_utf8]. *)

Notation char := N (only parsing).
Notation str := (list N) (only parsing).

Definition lit (s : string) : str := map N_of_ascii (list_ascii_of_string s).
Definition ch (a : ascii) : char := N_of_ascii a.
Arguments lit : simpl never.
Arguments ch : simpl never.
Notation "# s" := (lit s%string) (at level 1, format "# s") : rust_scope.
Notation "#c a" := (ch a%char) (at level 1, format "#c a") : rust_scope.

Definition char_eqb (a b : char) : bool := N.eqb a b.
Definition in_range (lo hi c : N) : bool := (N.leb lo c && N.leb c hi)%bool.

Definition is_ascii_digit (c : char) : bool := in_range 48 57 c.
Definition is_ascii_upper (c : char) : bool := in_range 65 90 c.
Definition is_ascii_lower (c : char) : bool := in_range 97 122 c.
Definition is_ascii_alphabetic (c : char) : bool := (is_ascii_upper c || is_ascii_lower c)%bool.
Definition is_ascii_alphanumeric (c : char) : bool := (is_ascii_alphabetic c || is_ascii_digit c)%bool.
Definition to_ascii_lowercase (c : char) : char := if is_ascii_upper c then (c + 32)%N else c.
Definition lower (s : str) : str := map to_ascii_lowercase s.

(** [char::is_whitespace]: the Unicode [White_Space] property. *)
Definition is_whitespace (c : char) : bool :=
  (in_range 9 13 c || N.eqb c 32 || N.eqb c 133 || N.eqb c 160 || N.eqb c 5760
   || in_range 8192 8202 c || N.eqb c 8232 || N.eqb c 8233 || N.eqb c 8239
   || N.eqb c 8287 || N.eqb c 12288)%bool.

Definition len_utf8 (c : char) : N :=
  if N.ltb c 128 then 1 else if N.ltb c 2048 then 2 else if N.ltb c 65536 then 3 else 4.
Definition len_utf16 (c : char) : N := if N.ltb c 65536 then 1 else 2.

(** Equality of texts as a boolean, and up to ASCII case. *)
Fixpoint str_eqb (a b : str) : bool :=
  match a, b with
  | [], [] => true
  | x :: a', y :: b' => (N.eqb x y && str_eqb a' b')%bool
  | _, _ => false
  end.
Definition eq_ignore_ascii_case (a b : str) : bool := str_eqb (lower a) (lower b).

Fixpoint drop_while (p : char -> bool) (s : str) : str :=
  match s with
  | [] => []
  | c :: s' => if p c then drop_while p s' else s
  end.
Definition trim_start_matches (p : char -> bool) (s : str) : str := drop_while p s.
Definition trim_end_matches (p : char -> bool) (s : str) : str := rev (drop_while p (rev s)).
Definition trim_matches (p : char -> bool) (s : str) : str := trim_end_matches p (trim_start_matches p s).
Definition trim (s : str) : str := trim_matches is_whitespace s.

(** [Option::is_some], [Option::is_none]. *)
Definition is_some {A} (o : option A) : bool := match o with Some _ => true | None => false end.
Definition is_none {A} (o : option A) : bool := negb (is_some o).

Definition contains_char (c : char) (s : str) : bool := existsb (N.eqb c) s.
Definition count_char (c : char) (s : str) : nat := length (List.filter (N.eqb c) s).
Definition is_empty {A} (l : list A) : bool := match l with [] => true | _ => false end.

Definition starts_with_char (c : char) (s : str) : bool :=
  match s with [] => false | x :: _ => N.eqb x c end.
Definition ends_with_char (c : char) (s : str) : bool := starts_with_char c (rev s).
(** [s.strip_prefix(c).unwrap_or(s)]. *)
Definition strip_prefix_or (c : char) (s : str) : str :=
  match s with x :: s' => if N.eqb x c then s' else s | [] => [] end.

(** [bytes().take_while(..)]. *)
Fixpoint take_while (p : char -> bool) (s : str) : str :=
  match s with c :: s' => if p c then c :: take_while p s' else [] | [] => [] end.

(** [Iterator::position]. *)
Fixpoint position {A} (p : A -> bool) (l : list A) : option nat :=
  match l with
  | [] => None
  | a :: l' => if p a then Some 0 else S <$> position p l'
  end.

Fixpoint strip_prefix (p s : str) : option str :=
  match p, s with
  | [], _ => Some s
  | a :: p', b :: s' => if N.eqb a b then strip_prefix p' s' else None
  | _ :: _, [] => None
  end.
Definition strip_suffix (p s : str) : option str := (fun t => rev t) <$> strip_prefix (rev p) (rev s).

(** [str::find] and [str::contains] on a text. *)
Fixpoint find_str (p s : str) : option nat :=
  match strip_prefix p s with
  | Some _ => Some 0
  | None => match s with [] => None | _ :: s' => S <$> find_str p s' end
  end.
Definition contains_str (p s : str) : bool := match find_str p s with Some _ => true | None => false end.

(** [str::find] on one character, as the texts before and after it. *)
Fixpoint split_once (sep : char) (s : str) : option (str * str) :=
  match s with
  | [] => None
  | c :: s' =>
      if N.eqb c sep then Some ([], s')
      else match split_once sep s' with Some (a, b) => Some (c :: a, b) | None => None end
  end.

(** [str::split] on one character: always at least one piece. *)
Fixpoint split (sep : char) (s : str) : list str :=
  match s with
  | [] => [[]]
  | c :: s' =>
      if N.eqb c sep then [] :: split sep s'
      else match split sep s' with [] => [[c]] | p :: ps => (c :: p) :: ps end
  end.

(** [str::split] on the characters of a set. *)
Fixpoint split_by (sep : char -> bool) (s : str) : list str :=
  match s with
  | [] => [[]]
  | c :: s' =>
      if sep c then [] :: split_by sep s'
      else match split_by sep s' with [] => [[c]] | p :: ps => (c :: p) :: ps end
  end.

Definition replace_char (a b : char) (s : str) : str := map (fun c => if N.eqb c a then b else c) s.

(** [[String]::join]. *)
Fixpoint join (sep : str) (ps : list str) : str :=
  match ps with
  | [] => []
  | [p] => p
  | p :: ps' => p ++ sep ++ join sep ps'
  end.

(** ** Decimal numbers *)

Definition digit_val (c : char) : N := (c - 48)%N.
Definition dec_val (s : str) : N := fold_left (fun acc c => 10 * acc + digit_val c)%N s 0%N.

(** [u64::from_str] and its relatives: an optional ['+'], then one or more
    digits, the value below [bound]. *)
Definition parse_unsigned (bound : N) (s : str) : option N :=
  let t := strip_prefix_or (#c"+") s in
  if (is_empty t || negb (forallb is_ascii_digit t))%bool then None
  else if N.ltb (dec_val t) bound then Some (dec_val t) else None.

(** [u32::to_string]. *)
Fixpoint show_N_aux (fuel : nat) (n : N) (acc : str) : str :=
  match fuel with
  | O => acc
  | S fuel' =>
      let acc' := (48 + n mod 10)%N :: acc in
      if N.ltb n 10 then acc' else show_N_aux fuel' (n / 10)%N acc'
  end.
Definition show_N (n : N) : str := show_N_aux (S (N.to_nat (N.size n))) n [].

Definition i32_max : N := 2147483647.
Definition u32_bound : N := 4294967296.
Definition u64_bound : N := 18446744073709551616.

(** ** Proof automation

    [rsimp] normalises the [result]/[option] plumbing and boolean tests that
    every translated function is made of. *)

Ltac bool_hyps :=
  repeat match goal with
  | H : (_ && _)%bool = true |- _ => apply andb_prop in H; destruct H
  | H : (_ || _)%bool = false |- _ => apply orb_false_elim in H; destruct H
  | H : negb _ = true |- _ => apply negb_true_iff in H
  | H : negb _ = false |- _ => apply negb_false_iff in H
  end.

Ltac rsimp :=
  repeat (progress (simpl in *; simplify_eq; bool_hyps)).

(** Case analysis on the innermost scrutinee of a hypothesis or the goal. *)
Ltac inner_match t :=
  match t with
  | context [match ?x with _ => _ end] => inner_match x
  | context [if ?x then _ else _] => inner_match x
  | _ => t
  end.
Ltac dmatch :=
  match goal with
  | |- context [match ?x with _ => _ end] =>
      let y := inner_match x in let E := fresh "E" in destruct y eqn:E
  end.
Ltac dmatch_in H :=
  match type of H with
  | context [match ?x with _ => _ end] =>
      let y := inner_match x in let E := fresh "E" in destruct y eqn:E
  end.

(** Replace character literals by their code points, for [lia]. *)
Ltac chars :=
  repeat match goal with
  | |- context [ch ?a] => let v := eval vm_compute in (ch a) in change (ch a) with v
  | H : context [ch ?a] |- _ => let v := eval vm_compute in (ch a) in change (ch a) with v in H
  end.

Create HintDb text discriminated.

(** ** Lemmas on text *)

(** For [apply (inj Ok)], which leaves the contents unreduced. *)
#[export] Instance Ok_inj {A E} : Inj (=) (=) (@Ok A E).
Proof. by intros a b [= ->]. Qed.

Lemma rbind_ok {A B E} (m : result A E) (k : A -> result B E) b :
  rbind m k = Ok b <-> exists a, m = Ok a /\ k a = Ok b.
Proof. destruct m; simpl; naive_solver. Qed.

Lemma rmapM_ok {A B E} (f : A -> result B E) l bs :
  rmapM f l = Ok bs <-> Forall2 (fun a b => f a = Ok b) l bs.
Proof.
  revert bs. induction l as [|a l IH]; intros bs; simpl.
  - split; [intros [= <-]; constructor|by inversion 1].
  - split.
    + intros H. destruct (f a) eqn:Ea; [|done]. destruct (rmapM f l) eqn:El; [|done].
      simplify_eq. constructor; [done|by apply IH].
    + inversion 1 as [|? ? ? ? Ha Hl]; subst. rewrite Ha. apply IH in Hl. by rewrite Hl.
Qed.

Lemma anyM_true {A} (f : A -> option bool) l : anyM f l = Some true -> exists x, x ∈ l /\ f x = Some true.
Proof.
  induction l as [|x l IH]; simpl; [done|]. destruct (f x) as [[]|] eqn:E; simpl; [|intros H|done].
  - intros _. exists x. split; [left|done].
  - destruct (IH H) as (y & Hy & E'). exists y. split; [by right|done].
Qed.

Lemma anyM_false {A} (f : A -> option bool) l x : anyM f l = Some false -> x ∈ l -> f x = Some false.
Proof.
  induction l as [|y l IH]; simpl; [by intros _ ?%not_elem_of_nil|]. destruct (f y) as [[]|] eqn:E; simpl; [done| |done].
  intros H [->|Hx]%elem_of_cons; auto.
Qed.

Lemma anyM_is_some {A} (f : A -> option bool) l : (forall y, y ∈ l -> is_Some (f y)) -> is_Some (anyM f l).
Proof.
  intros Hl. induction l as [|y l IH]; simpl; [done|]. destruct (Hl y) as [b Hb]; [left|]. rewrite Hb. simpl.
  destruct b; [done|]. apply IH. intros z Hz. apply Hl. by right.
Qed.

Lemma forallb_Forall {A} (p : A -> bool) l : forallb p l = true <-> Forall (fun x => p x = true) l.
Proof.
  induction l as [|x l IH]; simpl; [by split|]. rewrite andb_true_iff, Forall_cons, IH. done.
Qed.

Lemma in_range_spec lo hi c : in_range lo hi c = true <-> (lo <= c <= hi)%N.
Proof. unfold in_range. rewrite andb_true_iff, !N.leb_le. done. Qed.

Lemma in_range_false lo hi c : in_range lo hi c = false <-> (c < lo \/ hi < c)%N.
Proof. unfold in_range. rewrite andb_false_iff, !N.leb_gt. done. Qed.

Lemma str_eqb_eq a b : str_eqb a b = true <-> a = b.
Proof.
  revert b; induction a as [|x a IH]; intros [|y b]; simpl; try naive_solver.
  rewrite andb_true_iff, N.eqb_eq, IH. naive_solver.
Qed.

Lemma eq_ignore_ascii_case_spec a b : eq_ignore_ascii_case a b = true <-> lower a = lower b.
Proof. apply str_eqb_eq. Qed.

Lemma str_eqb_sym (a b : str) : str_eqb a b = str_eqb b a.
Proof. apply eq_true_iff_eq. rewrite !str_eqb_eq. done. Qed.

Lemma eq_ignore_ascii_case_sym a b : eq_ignore_ascii_case a b = eq_ignore_ascii_case b a.
Proof. apply str_eqb_sym. Qed.

Lemma to_ascii_lowercase_idem c : to_ascii_lowercase (to_ascii_lowercase c) = to_ascii_lowercase c.
Proof.
  unfold to_ascii_lowercase, is_ascii_upper.
  destruct (in_range 65 90 c) eqn:E; [|by rewrite E].
  destruct (in_range 65 90 (c + 32)) eqn:F; [|done].
  apply in_range_spec in E, F. lia.
Qed.

Lemma lower_app a b : lower (a ++ b) = lower a ++ lower b.
Proof. apply map_app. Qed.

Lemma lower_idem s : lower (lower s) = lower s.
Proof. unfold lower. rewrite map_map. apply map_ext, to_ascii_lowercase_idem. Qed.

Lemma lower_length s : length (lower s) = length s.
Proof. apply length_map. Qed.

Lemma digit_lower c : is_ascii_digit c = true -> to_ascii_lowercase c = c.
Proof.
  unfold is_ascii_digit, to_ascii_lowercase, is_ascii_upper. intros H.
  apply in_range_spec in H. destruct (in_range 65 90 c) eqn:E; [|done].
  apply in_range_spec in E. lia.
Qed.

Lemma lower_digit_iff c : is_ascii_digit (to_ascii_lowercase c) = is_ascii_digit c.
Proof.
  unfold to_ascii_lowercase, is_ascii_upper, is_ascii_digit.
  destruct (in_range 65 90 c) eqn:E; [|done].
  apply in_range_spec in E. transitivity false; [|symmetry]; apply in_range_false; lia.
Qed.

Lemma digit_not_ws c : is_ascii_digit c = true -> is_whitespace c = false.
Proof.
  unfold is_ascii_digit. intros H%in_range_spec. unfold is_whitespace.
  repeat (apply orb_false_intro); try (apply in_range_false; lia); apply N.eqb_neq; lia.
Qed.

Lemma drop_while_none p s : (forall c, hd_error s = Some c -> p c = false) -> drop_while p s = s.
Proof. destruct s as [|c s]; simpl; [done|]. intros H. by rewrite (H c). Qed.

Lemma drop_while_all p s : forallb p s = true -> drop_while p s = [].
Proof. induction s as [|c s IH]; simpl; [done|]. intros [-> H]%andb_prop. auto. Qed.

Lemma drop_while_head p s c r : drop_while p s = c :: r -> p c = false.
Proof. induction s as [|x s IH]; cbn; [done|]. destruct (p x) eqn:E; [done|]. by intros [= <- <-]. Qed.

Lemma drop_while_suffix p s : exists a, s = a ++ drop_while p s /\ forallb p a = true.
Proof.
  induction s as [|c s (a & E & F)]; [by exists []|]. simpl.
  destruct (p c) eqn:P; [|by exists []].
  exists (c :: a). simpl. by rewrite P, F, <- E.
Qed.

(** Trimming leaves a text alone when neither end is trimmable. *)
Lemma trim_matches_id p s :
  (forall c, hd_error s = Some c -> p c = false) ->
  (forall c, hd_error (rev s) = Some c -> p c = false) -> trim_matches p s = s.
Proof.
  intros Hh Hl. unfold trim_matches, trim_start_matches, trim_end_matches.
  rewrite (drop_while_none p s) by done.
  rewrite drop_while_none by done. apply rev_involutive.
Qed.

Lemma trim_id_ends s c d s' s'' :
  s = c :: s' -> s = s'' ++ [d] -> is_whitespace c = false -> is_whitespace d = false ->
  trim s = s.
Proof.
  intros Hc Hd Wc Wd. apply trim_matches_id; intros x Hx.
  - rewrite Hc in Hx. rsimp. done.
  - rewrite Hd, rev_app_distr in Hx. rsimp. done.
Qed.

Lemma trim_no_ws s : Forall (fun c => is_whitespace c = false) s -> trim s = s.
Proof.
  intros H. apply trim_matches_id; intros c Hc.
  - destruct s; simplify_eq/=. by apply Forall_cons in H as [? _].
  - apply Forall_rev in H. destruct (rev s); simplify_eq/=. by apply Forall_cons in H as [? _].
Qed.

Lemma trim_empty_iff s : trim s = [] <-> Forall (fun c => is_whitespace c = true) s.
Proof.
  unfold trim, trim_matches, trim_end_matches, trim_start_matches. split.
  - intros E. apply (f_equal (@rev _)) in E. rewrite rev_involutive in E. simpl in E.
    destruct (drop_while_suffix is_whitespace (rev (drop_while is_whitespace s))) as (a & Ha & Hws).
    rewrite E, app_nil_r in Ha. destruct (drop_while is_whitespace s) as [|c t] eqn:Es.
    + destruct (drop_while_suffix is_whitespace s) as (b & Hb & Hbw).
      rewrite Es, app_nil_r in Hb. subst b. by apply forallb_Forall.
    + exfalso. assert (is_whitespace c = false) as Hc.
      { clear -Es. induction s as [|x s IH]; simpl in Es; [done|].
        destruct (is_whitespace x) eqn:Ex; [auto|congruence]. }
      rewrite <- Ha in Hws. simpl in Hws. rewrite forallb_app in Hws.
      apply andb_prop in Hws as [_ Hws]. simpl in Hws. by rewrite Hc in Hws.
  - intros H. rewrite drop_while_all; [done|]. induction H as [|x l Hx _ IH]; simpl; [done|].
    by rewrite Hx, IH.
Qed.

Lemma strip_prefix_some p s r : strip_prefix p s = Some r <-> s = p ++ r.
Proof.
  revert s. induction p as [|a p IH]; intros s; cbn [strip_prefix]; [naive_solver|].
  destruct s as [|b s]; [naive_solver|]. destruct (N.eqb_spec a b) as [->|Hne]; [rewrite IH|]; naive_solver.
Qed.

Lemma take_while_all q a k : Forall (fun b => q b = true) a -> take_while q (a ++ k) = a ++ take_while q k.
Proof. induction 1 as [|x a Hx _ IH]; cbn; [done|]. by rewrite Hx, IH. Qed.

Lemma take_drop_while q s : take_while q s ++ drop_while q s = s.
Proof. induction s as [|c s IH]; cbn; [done|]. destruct (q c); cbn; [by rewrite IH|done]. Qed.

Lemma take_while_Forall q s : Forall (fun c => q c = true) (take_while q s).
Proof. induction s as [|c s IH]; cbn; [constructor|]. destruct (q c) eqn:E; by constructor. Qed.

Lemma take_while_length q s : take (length (take_while q s)) s = take_while q s.
Proof. induction s as [|c s IH]; cbn; [done|]. destruct (q c); cbn; [by rewrite IH|done]. Qed.

(** The first place of a text in another. *)
Lemma strip_suffix_some p s t : strip_suffix p s = Some t -> s = t ++ p.
Proof.
  unfold strip_suffix. destruct (strip_prefix (rev p) (rev s)) as [u|] eqn:E; [|done]. apply strip_prefix_some in E.
  intros [= <-]. by rewrite <- (rev_involutive s), E, rev_app_distr, rev_involutive.
Qed.

Lemma find_str_some p s n : find_str p s = Some n -> exists a b, s = a ++ p ++ b /\ length a = n.
Proof.
  revert n. induction s as [|c s IH]; intros n; cbn [find_str].
  - destruct (strip_prefix p []) as [r|] eqn:E; [|done]. apply strip_prefix_some in E. intros [= <-]. by exists [], r.
  - destruct (strip_prefix p (c :: s)) as [r|] eqn:E; [apply strip_prefix_some in E; intros [= <-]; by exists [], r|].
    destruct (find_str p s) as [m|]; [|done]. intros [= <-]. destruct (IH m) as (a & b & -> & <-); [done|]. by exists (c :: a), b.
Qed.

Lemma find_str_occurs p a b : exists n, find_str p (a ++ p ++ b) = Some n /\ n <= length a.
Proof.
  induction a as [|c a (n & IH & Hn)]; cbn [app].
  - exists 0. split; [|done]. assert (E : strip_prefix p (p ++ b) = Some b) by (by apply strip_prefix_some).
    destruct (p ++ b); cbn [find_str]; by rewrite E.
  - cbn [find_str length]. destruct (strip_prefix p (c :: a ++ p ++ b)); [exists 0; split; [done|lia]|].
    rewrite IH. exists (S n). split; [done|lia].
Qed.

Lemma contains_char_false c s : contains_char c s = false <-> Forall (fun x => x <> c) s.
Proof.
  unfold contains_char. induction s as [|x s IH]; simpl; [by split|].
  rewrite orb_false_iff, N.eqb_neq, Forall_cons, IH. naive_solver.
Qed.

Lemma split_nonnil sep s : split sep s <> [].
Proof. destruct s as [|c s]; simpl; [done|]. destruct (N.eqb c sep); [done|]. by destruct (split sep s). Qed.

Lemma split_no_sep sep s : Forall (fun x => x <> sep) s -> split sep s = [s].
Proof.
  induction 1 as [|c s Hc _ IH]; [done|]. simpl.
  apply N.eqb_neq in Hc. by rewrite Hc, IH.
Qed.

Lemma split_app_sep sep p s :
  Forall (fun x => x <> sep) p -> split sep (p ++ sep :: s) = p :: split sep s.
Proof.
  induction 1 as [|c p Hc _ IH]; simpl.
  - by rewrite N.eqb_refl.
  - apply N.eqb_neq in Hc. by rewrite Hc, IH.
Qed.

Lemma split_join sep ps :
  ps <> [] -> Forall (Forall (fun x => x <> sep)) ps -> split sep (join [sep] ps) = ps.
Proof.
  intros Hne. induction 1 as [|p ps Hp Hps IH]; [done|].
  destruct ps as [|q ps]; [by apply split_no_sep|].
  cbn [join app]. rewrite split_app_sep by done. f_equal. by apply IH.
Qed.

Lemma join_split sep s : join [sep] (split sep s) = s.
Proof.
  induction s as [|c s IH]; [done|]. simpl.
  pose proof (split_nonnil sep s) as Hne.
  destruct (N.eqb_spec c sep) as [->|Hc]; destruct (split sep s) as [|p ps] eqn:E; try done.
  - cbn [join app] in *. by rewrite <- IH.
  - cbn [join app] in *. destruct ps; simpl in *; by rewrite <- IH.
Qed.

Lemma split_pieces_no_sep sep s : Forall (Forall (fun x => x <> sep)) (split sep s).
Proof.
  induction s as [|c s IH]; simpl; [repeat constructor|].
  destruct (N.eqb_spec c sep) as [->|Hc]; [by constructor|].
  destruct (split sep s); [repeat constructor; done|].
  apply Forall_cons in IH as [IH1 IH2]. constructor; [by constructor|done].
Qed.

(** ** Lemmas on decimal numbers *)

Lemma dec_val_snoc s c : dec_val (s ++ [c]) = (10 * dec_val s + digit_val c)%N.
Proof. unfold dec_val. by rewrite fold_left_app. Qed.

Lemma dec_val_cons0 s : dec_val (48%N :: s) = dec_val s.
Proof. done. Qed.

Lemma dec_val_trim_zeros s : dec_val (trim_start_matches (N.eqb 48) s) = dec_val s.
Proof.
  unfold trim_start_matches. induction s as [|c s IH]; [done|]. cbn [drop_while].
  destruct (N.eqb_spec 48 c) as [<-|]; [|done]. by rewrite dec_val_cons0.
Qed.

Lemma dec_val_bound s :
  forallb is_ascii_digit s = true -> (dec_val s < 10 ^ N.of_nat (length s))%N.
Proof.
  induction s as [|c s IH] using rev_ind; [done|].
  rewrite forallb_app, dec_val_snoc, length_app. simpl. intros [Hs Hc]%andb_prop.
  rewrite andb_true_r in Hc. apply in_range_spec in Hc. specialize (IH Hs).
  replace (N.of_nat (length s + 1)) with (N.succ (N.of_nat (length s))) by lia.
  rewrite N.pow_succ_r'. unfold digit_val. lia.
Qed.

Lemma dec_val_lower_bound c s :
  c <> 48%N -> forallb is_ascii_digit (c :: s) = true ->
  (10 ^ N.of_nat (length s) <= dec_val (c :: s))%N.
Proof.
  intros Hc. induction s as [|d s IH] using rev_ind; intros Hd.
  - simpl in *. apply andb_prop in Hd as [Hd _]. apply in_range_spec in Hd.
    unfold dec_val, digit_val. simpl. lia.
  - rewrite app_comm_cons in Hd |- *. rewrite forallb_app in Hd. apply andb_prop in Hd as [Hd _].
    specialize (IH Hd). rewrite dec_val_snoc, length_app. simpl length.
    rewrite Nat.add_1_r, Nat2N.inj_succ, N.pow_succ_r'. lia.
Qed.

(** The digits [show_N_aux] prints, in one statement: what is prepended to
    the accumulator reads back as the number, has no superfluous leading
    zero, and is no longer than any bound on the number allows. *)
Lemma show_N_aux_spec fuel n acc :
  (n < 2 ^ N.of_nat fuel)%N ->
  exists ds, show_N_aux (S fuel) n acc = ds ++ acc /\ ds <> []
    /\ forallb is_ascii_digit ds = true /\ dec_val ds = n
    /\ (hd_error ds = Some 48%N -> ds = [48%N])
    /\ (forall k, (n < 10 ^ N.of_nat (S k))%N -> length ds <= S k).
Proof.
  revert n acc; induction fuel as [|fuel IH]; intros n acc Hn.
  - exists [48%N]. assert (n = 0)%N as -> by (simpl in Hn; lia). simpl. repeat split; try done; lia.
  - cbn [show_N_aux]. destruct (N.ltb_spec n 10) as [Hlt|Hge].
    { exists [(48 + n mod 10)%N]. rewrite N.mod_small by done. repeat split; try done.
      - simpl. rewrite andb_true_r. apply in_range_spec. lia.
      - unfold dec_val, digit_val. simpl. lia.
      - simpl. congruence.
      - simpl. lia. }
    assert (Hd : (n = 10 * (n / 10) + n mod 10)%N) by (apply N.div_mod; lia).
    assert (Hm : (n mod 10 < 10)%N) by (apply N.mod_lt; lia).
    destruct (IH (n / 10)%N ((48 + n mod 10)%N :: acc)) as (ds & E & Hne & Hdig & Hval & Hz & Hlen).
    { rewrite Nat2N.inj_succ, N.pow_succ_r' in Hn. revert Hn Hd Hm. generalize (2 ^ N.of_nat fuel)%N (n / 10)%N (n mod 10)%N. lia. }
    exists (ds ++ [(48 + n mod 10)%N]). cbn [show_N_aux] in E. rewrite E, <- app_assoc. repeat split.
    + by destruct ds.
    + rewrite forallb_app, Hdig. simpl. rewrite andb_true_r. apply in_range_spec. revert Hm. generalize (n mod 10)%N. lia.
    + rewrite dec_val_snoc, Hval. unfold digit_val. revert Hd Hm. generalize (n / 10)%N (n mod 10)%N. lia.
    + intros Hh. exfalso. destruct ds as [|d ds]; [done|]. simpl in Hh. simplify_eq.
      specialize (Hz eq_refl) as Hz'. simplify_eq. unfold dec_val, digit_val in Hval. simpl in Hval. lia.
    + intros k Hk. rewrite length_app. simpl. destruct k as [|k].
      { simpl in Hk. lia. }
      enough (length ds <= S k) by lia. apply Hlen. rewrite Nat2N.inj_succ, N.pow_succ_r' in Hk.
      revert Hk Hd Hm. generalize (10 ^ N.of_nat (S k))%N (n / 10)%N (n mod 10)%N. lia.
Qed.

Lemma show_N_spec n :
  show_N n <> [] /\ forallb is_ascii_digit (show_N n) = true /\ dec_val (show_N n) = n
  /\ (hd_error (show_N n) = Some 48%N -> show_N n = [48%N])
  /\ (forall k, (n < 10 ^ N.of_nat (S k))%N -> length (show_N n) <= S k).
Proof.
  unfold show_N. destruct (show_N_aux_spec (N.to_nat (N.size n)) n []) as (ds & -> & ?).
  - rewrite N2Nat.id. apply N.size_gt.
  - rewrite app_nil_r. naive_solver.
Qed.

Lemma show_N_inj n m : show_N n = show_N m -> n = m.
Proof.
  intros E. destruct (show_N_spec n) as (_ & _ & <- & _), (show_N_spec m) as (_ & _ & <- & _).
  by rewrite E.
Qed.

Lemma strip_prefix_or_digits c s :
  is_ascii_digit c = false -> forallb is_ascii_digit s = true -> strip_prefix_or c s = s.
Proof.
  intros Hc. destruct s as [|x s]; simpl; [done|]. intros [Hx _]%andb_prop.
  destruct (N.eqb_spec x c) as [->|]; [congruence|done].
Qed.

Lemma parse_unsigned_digits b s :
  s <> [] -> forallb is_ascii_digit s = true -> (dec_val s < b)%N ->
  parse_unsigned b s = Some (dec_val s).
Proof.
  intros Hne Hd Hb%N.ltb_lt. unfold parse_unsigned.
  rewrite strip_prefix_or_digits by done. rewrite Hd, Hb. by destruct s.
Qed.

Lemma digits_forall_ne c s :
  is_ascii_digit c = false -> forallb is_ascii_digit s = true -> Forall (fun x => x <> c) s.
Proof.
  intros Hc. induction s as [|x s IH]; simpl; [constructor|].
  intros [Hx Hs]%andb_prop. constructor; [congruence|auto].
Qed.

#[export] Hint Resolve digit_not_ws lower_idem split_nonnil split_pieces_no_sep : text.
