(* ===== verification/Order.v ===== *)
(** * Total comparison functions

    Rust's [Ord] asks for one function [cmp : A -> A -> Ordering] that is a
    total order {i up to} the equality it induces ([a == b] iff
    [cmp a b == Equal]), which for NuGet versions and package ids is coarser
    than structural equality.  [TotalCmp] states those laws for a comparison
    function; the combinators below build the orders of the code
    (lexicographic tuples, [Iterator::cmp] on lists, [Option], comparison of
    a key) and carry the laws along, as instances. *)

From Stdlib Require Export Sorted.
From S2P Require Import Prelude.

Class TotalCmp {A} (cmp : A -> A -> comparison) : Prop := {
  cmp_refl a : cmp a a = Eq;
  cmp_opp a b : cmp b a = CompOpp (cmp a b);
  cmp_le_trans a b c : cmp a b <> Gt -> cmp b c <> Gt -> cmp a c <> Gt }.

Arguments cmp_refl {A} cmp {_} a.
Arguments cmp_opp {A} cmp {_} a b.
Arguments cmp_le_trans {A} cmp {_} a b c _ _.

(** [Ordering::then]: the second comparison breaks the ties of the first. *)
Definition then_cmp (c d : comparison) : comparison :=
  match c with Eq => d | Lt | Gt => c end.

(** Comparison of a key ([sort_by_key], or a derived order). *)
Definition cmp_on {A B} (f : A -> B) (cmp : B -> B -> comparison) (a b : A) : comparison :=
  cmp (f a) (f b).

(** [Iterator::cmp]: lexicographic, a proper prefix is smaller. *)
Fixpoint list_cmp {A} (cmp : A -> A -> comparison) (l m : list A) : comparison :=
  match l, m with
  | [], [] => Eq
  | [], _ :: _ => Lt
  | _ :: _, [] => Gt
  | a :: l', b :: m' => then_cmp (cmp a b) (list_cmp cmp l' m')
  end.

(** [Option]'s order: [None] is smallest. *)
Definition option_cmp {A} (cmp : A -> A -> comparison) (a b : option A) : comparison :=
  match a, b with
  | None, None => Eq
  | None, Some _ => Lt
  | Some _, None => Gt
  | Some x, Some y => cmp x y
  end.

(** The operators [==], [<=], [<] and [>=] that [PartialOrd] derives. *)
Definition cmp_eqb {A} (cmp : A -> A -> comparison) (a b : A) : bool :=
  match cmp a b with Eq => true | Lt | Gt => false end.
Definition cmp_leb {A} (cmp : A -> A -> comparison) (a b : A) : bool :=
  match cmp a b with Gt => false | Eq | Lt => true end.
Definition cmp_ltb {A} (cmp : A -> A -> comparison) (a b : A) : bool :=
  match cmp a b with Lt => true | Eq | Gt => false end.

(** [slice::sort_by], which is stable. *)
Fixpoint sort_insert {A} (cmp : A -> A -> comparison) (x : A) (l : list A) : list A :=
  match l with
  | [] => [x]
  | y :: l' => match cmp x y with Gt => y :: sort_insert cmp x l' | Eq | Lt => x :: l end
  end.
Definition sort_by {A} (cmp : A -> A -> comparison) (l : list A) : list A :=
  fold_right (sort_insert cmp) [] l.

Section laws.
Context {A} (cmp : A -> A -> comparison) `{!TotalCmp cmp}.

Lemma cmp_gt_lt a b : cmp a b = Gt <-> cmp b a = Lt.
Proof. rewrite (cmp_opp cmp a b). destruct (cmp a b); naive_solver. Qed.

Lemma cmp_eq_sym a b : cmp a b = Eq -> cmp b a = Eq.
Proof. intros H. by rewrite (cmp_opp cmp a b), H. Qed.

Lemma cmp_eq_iff a b : cmp a b = Eq <-> cmp a b <> Gt /\ cmp b a <> Gt.
Proof. rewrite (cmp_opp cmp a b). destruct (cmp a b); naive_solver. Qed.

Lemma cmp_eq_trans a b c : cmp a b = Eq -> cmp b c = Eq -> cmp a c = Eq.
Proof. rewrite !cmp_eq_iff. intros [? ?] [? ?]. split; eapply (cmp_le_trans cmp); eassumption. Qed.

(** Equal elements compare alike with everything. *)
Lemma cmp_eq_l a b c : cmp a b = Eq -> cmp a c = cmp b c.
Proof.
  rewrite cmp_eq_iff. intros [Hab Hba].
  pose proof (cmp_le_trans cmp a b c) as T1. pose proof (cmp_le_trans cmp b a c) as T2.
  pose proof (cmp_le_trans cmp c a b) as T3. pose proof (cmp_le_trans cmp c b a) as T4.
  rewrite (cmp_opp cmp a c), (cmp_opp cmp b c) in T3, T4.
  destruct (cmp a c), (cmp b c); naive_solver.
Qed.

Lemma cmp_eq_r a b c : cmp a b = Eq -> cmp c a = cmp c b.
Proof. intros H. by rewrite (cmp_opp cmp a c), (cmp_opp cmp b c), (cmp_eq_l a b c H). Qed.

Lemma cmp_lt_le_trans a b c : cmp a b = Lt -> cmp b c <> Gt -> cmp a c = Lt.
Proof.
  intros Hab Hbc. destruct (cmp a c) eqn:E; [|done|].
  - exfalso. apply cmp_eq_sym in E. apply Hbc, cmp_gt_lt. by rewrite (cmp_eq_l c a b E).
  - exfalso. eapply (cmp_le_trans cmp a b c); congruence.
Qed.

Lemma cmp_le_lt_trans a b c : cmp a b <> Gt -> cmp b c = Lt -> cmp a c = Lt.
Proof.
  intros Hab Hbc. destruct (cmp a c) eqn:E; [|done|].
  - exfalso. apply Hab, cmp_gt_lt. by rewrite (cmp_eq_r a c b E).
  - exfalso. eapply (cmp_le_trans cmp a b c); congruence.
Qed.

Lemma cmp_lt_trans a b c : cmp a b = Lt -> cmp b c = Lt -> cmp a c = Lt.
Proof. intros ? H. eapply cmp_lt_le_trans; [done|]. by rewrite H. Qed.

Lemma cmp_lt_irrefl a : cmp a a <> Lt.
Proof. by rewrite (cmp_refl cmp). Qed.

#[global] Instance cmp_eq_equivalence : Equivalence (fun a b => cmp a b = Eq).
Proof.
  split; [exact (cmp_refl cmp)|exact cmp_eq_sym|exact cmp_eq_trans].
Qed.

Lemma cmp_leb_spec a b : cmp_leb cmp a b = true <-> cmp a b <> Gt.
Proof. unfold cmp_leb. destruct (cmp a b); naive_solver. Qed.

Lemma cmp_eqb_spec a b : cmp_eqb cmp a b = true <-> cmp a b = Eq.
Proof. unfold cmp_eqb. destruct (cmp a b); naive_solver. Qed.

Lemma cmp_ltb_spec a b : cmp_ltb cmp a b = true <-> cmp a b = Lt.
Proof. unfold cmp_ltb. destruct (cmp a b); naive_solver. Qed.
End laws.

(** ** Instances *)

#[export] Instance N_compare_total : TotalCmp N.compare.
Proof.
  split.
  - apply N.compare_refl.
  - intros a b. apply N.compare_antisym.
  - intros a b c. rewrite !N.compare_gt_iff. lia.
Qed.

#[export] Instance Z_compare_total : TotalCmp Z.compare.
Proof.
  split.
  - apply Z.compare_refl.
  - intros a b. apply Z.compare_antisym.
  - intros a b c. rewrite !Z.compare_gt_iff. lia.
Qed.

#[export] Instance nat_compare_total : TotalCmp Nat.compare.
Proof.
  split.
  - apply Nat.compare_refl.
  - intros a b. apply Nat.compare_antisym.
  - intros a b c. rewrite !Nat.compare_gt_iff. lia.
Qed.

#[export] Instance cmp_on_total {A B} (f : A -> B) cmp : TotalCmp cmp -> TotalCmp (cmp_on f cmp).
Proof.
  intros T. unfold cmp_on. split; intros.
  - apply (cmp_refl cmp).
  - apply (cmp_opp cmp).
  - eapply (cmp_le_trans cmp); eauto.
Qed.

#[export] Instance then_cmp_total {A} (c d : A -> A -> comparison) :
  TotalCmp c -> TotalCmp d -> TotalCmp (fun a b => then_cmp (c a b) (d a b)).
Proof.
  intros Tc Td. split.
  - intros a. by rewrite (cmp_refl c), (cmp_refl d).
  - intros a b. rewrite (cmp_opp c a b), (cmp_opp d a b). by destruct (c a b), (d a b).
  - intros x y z Hxy Hyz.
    destruct (c x y) eqn:Exy, (c y z) eqn:Eyz; simpl in *; try done.
    + rewrite (cmp_eq_trans c x y z); [|done..]. by apply (cmp_le_trans d x y z).
    + by rewrite (cmp_eq_l c x y z), Eyz.
    + by rewrite <- (cmp_eq_r c y z x), Exy.
    + by rewrite (cmp_lt_trans c x y z).
Qed.

#[export] Instance option_cmp_total {A} (cmp : A -> A -> comparison) :
  TotalCmp cmp -> TotalCmp (option_cmp cmp).
Proof.
  intros T. split.
  - intros [a|]; [apply (cmp_refl cmp)|done].
  - intros [a|] [b|]; try done. apply (cmp_opp cmp).
  - intros [a|] [b|] [c|]; simpl; try done. apply (cmp_le_trans cmp).
Qed.

#[export] Instance list_cmp_total {A} (cmp : A -> A -> comparison) :
  TotalCmp cmp -> TotalCmp (list_cmp cmp).
Proof.
  intros T. split.
  - intros l. induction l as [|a l IH]; simpl; [done|]. by rewrite (cmp_refl cmp).
  - intros l. induction l as [|a l IH]; intros [|b m]; simpl; try done.
    rewrite (cmp_opp cmp a b), (IH m). by destruct (cmp a b).
  - intros l. induction l as [|a l IH]; intros [|b m] [|c n]; simpl; try done.
    intros H1 H2. destruct (cmp a b) eqn:E1, (cmp b c) eqn:E2; simpl in *; try done.
    + rewrite (cmp_eq_trans cmp a b c) by done. simpl. eauto.
    + by rewrite (cmp_eq_l cmp a b c), E2.
    + by rewrite <- (cmp_eq_r cmp b c a), E1.
    + by rewrite (cmp_lt_trans cmp a b c).
Qed.

(** Equality under the list order is pointwise equality. *)
Lemma list_cmp_eq {A} (cmp : A -> A -> comparison) l m :
  list_cmp cmp l m = Eq <-> Forall2 (fun a b => cmp a b = Eq) l m.
Proof.
  revert m. induction l as [|a l IH]; intros [|b m]; simpl.
  - split; [constructor|done].
  - split; [done|intros H; inversion H].
  - split; [done|intros H; inversion H].
  - rewrite Forall2_cons, <- IH. destruct (cmp a b); naive_solver.
Qed.

Lemma list_cmp_N_eq (l m : list N) : list_cmp N.compare l m = Eq <-> l = m.
Proof.
  rewrite list_cmp_eq. split.
  - induction 1 as [|x y l m H _ IH]; [done|]. apply N.compare_eq in H. congruence.
  - intros ->. apply Forall2_same_length_lookup_2; [done|].
    intros i x y Hx Hy. simplify_eq. apply N.compare_refl.
Qed.

(** The laws only depend on the comparison pointwise. *)
Lemma TotalCmp_ext {A} (c d : A -> A -> comparison) :
  (forall a b, c a b = d a b) -> TotalCmp d -> TotalCmp c.
Proof.
  intros E T. split; intros; rewrite !E in *.
  - apply (cmp_refl d).
  - apply (cmp_opp d).
  - eapply (cmp_le_trans d); eauto.
Qed.

(** ** Sorting *)

Section sorting.
Context {A} (cmp : A -> A -> comparison) `{!TotalCmp cmp}.

Lemma sort_insert_perm x l : sort_insert cmp x l ≡ₚ x :: l.
Proof.
  induction l as [|y l IH]; [done|]. simpl. destruct (cmp x y); [done..|]. rewrite IH. apply Permutation_swap.
Qed.

Lemma sort_by_perm l : sort_by cmp l ≡ₚ l.
Proof. induction l as [|x l IH]; [done|]. simpl. rewrite sort_insert_perm. by f_equiv. Qed.

Lemma sort_insert_sorted x l : StronglySorted (fun a b => cmp a b <> Gt) l ->
  StronglySorted (fun a b => cmp a b <> Gt) (sort_insert cmp x l).
Proof.
  induction 1 as [|y l Hl IH Hy]; [repeat constructor|]. simpl. destruct (cmp x y) eqn:E.
  1, 2: constructor; [by constructor|]; constructor; [congruence|]; eapply Forall_impl; [exact Hy|];
    intros z Hz; eapply (cmp_le_trans cmp); [|exact Hz]; congruence.
  constructor; [done|]. apply Forall_forall. intros z Hz. rewrite sort_insert_perm in Hz.
  rewrite Forall_forall in Hy. apply elem_of_cons in Hz as [->|Hz]; [|auto].
  apply (cmp_gt_lt cmp) in E. congruence.
Qed.

Lemma sort_by_sorted l : StronglySorted (fun a b => cmp a b <> Gt) (sort_by cmp l).
Proof. induction l as [|x l IH]; [constructor|]. by apply sort_insert_sorted. Qed.
End sorting.
