(* ===== verification/Version.v ===== *)
(** * NuGet versions ([crates/nuget/src/version.rs])

    The record, the parser, the two equalities (comparer equality and
    identity), the order and the hash of [NuGetVersion].  The theorems: the
    comparer is a lawful total order although labels mix numeric and
    alphanumeric comparison; identity refines it; the hash agrees with it
    exactly; what the parser accepts is well formed; printing and parsing are
    inverse on well-formed versions. *)

From S2P Require Import Prelude Order.

Record NuGetVersion := {
  major : N;
  minor : N;
  patch : N;
  revision : N;
  release_labels : list str;
  metadata : option str }.

Inductive VersionParseError :=
| Version_Empty
| BadNumericPart
| WrongPartCount
| BadReleaseLabel
| BadMetadata.

Definition VersionParseError_fmt (e : VersionParseError) : str :=
  match e with
  | Version_Empty => #"empty version string"
  | BadNumericPart => #"numeric version component is empty, non-numeric, or exceeds Int32"
  | WrongPartCount => #"more than four numeric version components"
  | BadReleaseLabel => #"empty or invalid release label"
  | BadMetadata => #"empty or invalid build metadata"
  end.

Definition is_part_byte (b : char) : bool := (is_ascii_alphanumeric b || N.eqb b (#c"-"))%bool.

Definition parse_component (component : str) : result N VersionParseError :=
  let t := trim_matches is_whitespace component in
  let t := strip_prefix_or (#c"+") t in
  if (is_empty t || negb (forallb is_ascii_digit t))%bool then Err BadNumericPart
  else
    let significant := trim_start_matches (N.eqb (#c"0")) t in
    if Nat.ltb 10 (length significant) then Err BadNumericPart
    else
      let? value :=
        if is_empty significant then Ok 0%N
        else ok_or (parse_unsigned u64_bound significant) BadNumericPart in
      if N.ltb i32_max value then Err BadNumericPart else Ok value.

(** The loop of [NuGetVersion::parse] over [char_indices]: the index of the
    first ['-'] not preceded by a ['+'], and of the first ['+']. *)
Fixpoint scan_sections (i : nat) (dash plus : option nat) (s : str) : option nat * option nat :=
  match s with
  | [] => (dash, plus)
  | c :: s' =>
      if (N.eqb c (#c"-") && bool_decide (dash = None) && bool_decide (plus = None))%bool
      then scan_sections (S i) (Some i) plus s'
      else if (N.eqb c (#c"+") && bool_decide (plus = None))%bool
      then scan_sections (S i) dash (Some i) s'
      else scan_sections (S i) dash plus s'
  end.

(** [&s[a..b]]. *)
Definition slice (a b : nat) (s : str) : str := take (b - a) (drop a s).

Definition parse_label (label : str) : result str VersionParseError :=
  if (is_empty label || negb (forallb is_part_byte label))%bool then Err BadReleaseLabel
  else if (Nat.ltb 1 (length label) && starts_with_char (#c"0") label
           && forallb is_ascii_digit label)%bool then Err BadReleaseLabel
  else Ok label.

Definition parse_metadata (m : str) : result str VersionParseError :=
  if (is_empty m || existsb (fun p => (is_empty p || negb (forallb is_part_byte p))%bool)
                      (split (#c".") m))%bool
  then Err BadMetadata else Ok m.

Definition opt_parse {A E} (f : str -> result A E) (o : option str) : result (option A) E :=
  match o with
  | None => Ok None
  | Some s => let? a := f s in Ok (Some a)
  end.

(** What [NuGetVersion::parse] does with the three sections. *)
Definition parse_parts (version_part : str) (release_part metadata_part : option str)
    : result NuGetVersion VersionParseError :=
  if is_empty version_part then Err BadNumericPart
  else
    let effective :=
      if contains_char (#c".") version_part then version_part else version_part ++ #".0" in
    let components := split (#c".") effective in
    if Nat.ltb 4 (length components) then Err WrongPartCount
    else
      let? nums := rmapM parse_component components in
      let? labels := opt_parse (fun release => rmapM parse_label (split (#c".") release)) release_part in
      let? meta := opt_parse parse_metadata metadata_part in
      Ok {| major := nth 0 nums 0%N;
            minor := nth 1 nums 0%N;
            patch := nth 2 nums 0%N;
            revision := nth 3 nums 0%N;
            release_labels := default [] labels;
            metadata := meta |}.

Definition NuGetVersion_parse (input : str) : result NuGetVersion VersionParseError :=
  let trimmed := trim input in
  if is_empty trimmed then Err Version_Empty
  else
    let '(dash, plus) := scan_sections 0 None None trimmed in
    let len := length trimmed in
    parse_parts
      (slice 0 (default (default len plus) dash) trimmed)
      ((fun d => slice (d + 1) (default len plus) trimmed) <$> dash)
      ((fun p => slice (p + 1) len trimmed) <$> plus).

Definition is_prerelease (v : NuGetVersion) : bool := negb (is_empty (release_labels v)).

(** [NuGetVersion::eq_strict]: NuGet's identity. *)
Definition eq_strict (a b : NuGetVersion) : bool :=
  (N.eqb (major a) (major b) && N.eqb (minor a) (minor b)
   && N.eqb (patch a) (patch b) && N.eqb (revision a) (revision b)
   && Nat.eqb (length (release_labels a)) (length (release_labels b))
   && forallb (fun '(x, y) => eq_ignore_ascii_case x y)
        (zip (release_labels a) (release_labels b)))%bool.

Definition NuGetVersion_to_normalized_string (v : NuGetVersion) : str :=
  let s := show_N (major v) ++ #"." ++ show_N (minor v) ++ #"." ++ show_N (patch v) in
  let s := if N.eqb (revision v) 0 then s else s ++ #"." ++ show_N (revision v) in
  if is_empty (release_labels v) then s else s ++ #"-" ++ join (#".") (release_labels v).

Definition to_full_string (v : NuGetVersion) : str :=
  let s := NuGetVersion_to_normalized_string v in
  match metadata v with None => s | Some m => s ++ #"+" ++ m end.

Inductive LabelKey :=
| Numeric (n : Z)
| Alpha (s : str).

(** [int.TryParse] on a label. *)
Definition label_numeric (label : str) : option Z :=
  let '(negative, digits) :=
    match label with
    | c :: rest => if N.eqb c (#c"-") then (true, rest) else (false, label)
    | [] => (false, label)
    end in
  if (is_empty digits || negb (forallb is_ascii_digit digits))%bool then None
  else
    let significant := trim_start_matches (N.eqb (#c"0")) digits in
    if Nat.ltb 10 (length significant) then None
    else
      magnitude ← (if is_empty significant then Some 0%N
                   else parse_unsigned 9223372036854775808 significant);
      let value := if negative : bool then (- Z.of_N magnitude)%Z else Z.of_N magnitude in
      if (Z.leb (-2147483648) value && Z.leb value 2147483647)%bool then Some value else None.

Definition label_key (label : str) : LabelKey :=
  match label_numeric label with Some n => Numeric n | None => Alpha label end.

Definition compare_labels (a b : str) : comparison :=
  match label_key a, label_key b with
  | Numeric x, Numeric y => Z.compare x y
  | Numeric _, Alpha _ => Lt
  | Alpha _, Numeric _ => Gt
  | Alpha x, Alpha y => list_cmp N.compare (lower x) (lower y)
  end.

(** The loop over the zipped label lists; the longer list breaks the tie. *)
Fixpoint compare_label_lists (la lb : list str) (xs : list (str * str)) : comparison :=
  match xs with
  | [] => Nat.compare (length la) (length lb)
  | (a, b) :: xs' =>
      match compare_labels a b with
      | Eq => compare_label_lists la lb xs'
      | Lt => Lt
      | Gt => Gt
      end
  end.

Definition NuGetVersion_cmp (a b : NuGetVersion) : comparison :=
  let nums :=
    then_cmp (N.compare (major a) (major b))
      (then_cmp (N.compare (minor a) (minor b))
        (then_cmp (N.compare (patch a) (patch b)) (N.compare (revision a) (revision b)))) in
  match nums with
  | Lt => Lt
  | Gt => Gt
  | Eq =>
      match is_prerelease a, is_prerelease b with
      | false, false => Eq
      | false, true => Gt
      | true, false => Lt
      | true, true =>
          compare_label_lists (release_labels a) (release_labels b)
            (zip (release_labels a) (release_labels b))
      end
  end.

Definition NuGetVersion_eqb (a b : NuGetVersion) : bool := cmp_eqb NuGetVersion_cmp a b.

(** What [Hash::hash] feeds to the hasher, in order. *)
Inductive hash_write :=
| write_u32 (n : N)
| write_usize (n : nat)
| write_u8 (n : N)
| write_i32 (n : Z).

Definition hash_label (label : str) : list hash_write :=
  match label_key label with
  | Numeric n => [write_u8 0; write_i32 n]
  | Alpha a => write_u8 1 :: map (fun b => write_u8 (to_ascii_lowercase b)) a ++ [write_u8 255]
  end.

Definition NuGetVersion_hash (v : NuGetVersion) : list hash_write :=
  [write_u32 (major v); write_u32 (minor v); write_u32 (patch v); write_u32 (revision v);
   write_usize (length (release_labels v))]
  ++ concat (map hash_label (release_labels v)).

(** Well-formedness of a version, the type invariant the parser establishes:
    components fit an [Int32], labels and metadata parts are non-empty and in
    the label charset, and an all-digit label has no leading zero. *)
Definition label_wf (label : str) : bool :=
  (negb (is_empty label) && forallb is_part_byte label
   && negb (Nat.ltb 1 (length label) && starts_with_char (#c"0") label
            && forallb is_ascii_digit label))%bool.

Definition metadata_wf (m : str) : bool :=
  (negb (is_empty m)
   && forallb (fun p => (negb (is_empty p) && forallb is_part_byte p)%bool) (split (#c".") m))%bool.

Definition version_wf (v : NuGetVersion) : bool :=
  (N.leb (major v) i32_max && N.leb (minor v) i32_max
   && N.leb (patch v) i32_max && N.leb (revision v) i32_max
   && forallb label_wf (release_labels v)
   && match metadata v with None => true | Some m => metadata_wf m end)%bool.

Example parse_ex1 : NuGetVersion_parse (#" 1. 2.3-beta.11+git.abc ") =
  Ok {| major := 1; minor := 2; patch := 3; revision := 0;
        release_labels := [#"beta"; #"11"]; metadata := Some (#"git.abc") |}.
Proof. reflexivity. Qed.
Example parse_ex2 : NuGetVersion_parse (#"1.0-01") = Err BadReleaseLabel.
Proof. reflexivity. Qed.

(** ** The comparer is a total order *)

Definition LabelKey_cmp (a b : LabelKey) : comparison :=
  match a, b with
  | Numeric x, Numeric y => Z.compare x y
  | Numeric _, Alpha _ => Lt
  | Alpha _, Numeric _ => Gt
  | Alpha x, Alpha y => list_cmp N.compare (lower x) (lower y)
  end.

#[export] Instance LabelKey_cmp_total : TotalCmp LabelKey_cmp.
Proof.
  split.
  - intros [n|s]; simpl; [apply Z.compare_refl|apply (cmp_refl (list_cmp N.compare))].
  - intros [n|s] [m|t]; simpl; try done; [apply Z.compare_antisym|apply (cmp_opp (list_cmp N.compare))].
  - intros [n|s] [m|t] [k|u]; simpl; try done;
      [apply (cmp_le_trans Z.compare)|apply (cmp_le_trans (list_cmp N.compare))].
Qed.

#[export] Instance compare_labels_total : TotalCmp compare_labels.
Proof. by apply (TotalCmp_ext _ (cmp_on label_key LabelKey_cmp)); [|apply _]. Qed.

Lemma compare_label_lists_zip la lb l m p q :
  la = p ++ l -> lb = q ++ m -> length p = length q ->
  compare_label_lists la lb (zip l m) = list_cmp compare_labels l m.
Proof.
  revert m p q. induction l as [|a l IH]; intros m p q Ha Hb Hpq.
  - subst. simpl. rewrite !length_app, Hpq. destruct m; simpl.
    + apply Nat.compare_refl.
    + apply Nat.compare_lt_iff. lia.
  - destruct m as [|b m]; simpl.
    + subst. rewrite !length_app, Hpq. simpl. apply Nat.compare_gt_iff. lia.
    + destruct (compare_labels a b); [|done..]. simpl.
      apply (IH m (p ++ [a]) (q ++ [b])); rewrite ?length_app, <- ?app_assoc; simpl; [done..|lia].
Qed.

Definition prerelease_rank (v : NuGetVersion) : N := if is_prerelease v then 0 else 1.

(** The order as one lexicographic comparison of keys. *)
Definition version_key_cmp (a b : NuGetVersion) : comparison :=
  then_cmp (cmp_on major N.compare a b)
    (then_cmp (cmp_on minor N.compare a b)
      (then_cmp (cmp_on patch N.compare a b)
        (then_cmp (cmp_on revision N.compare a b)
          (then_cmp (cmp_on prerelease_rank N.compare a b)
            (cmp_on release_labels (list_cmp compare_labels) a b))))).

Lemma NuGetVersion_cmp_key a b : NuGetVersion_cmp a b = version_key_cmp a b.
Proof.
  unfold NuGetVersion_cmp, version_key_cmp, cmp_on.
  destruct (N.compare (major a) (major b)); try done; simpl.
  destruct (N.compare (minor a) (minor b)); try done; simpl.
  destruct (N.compare (patch a) (patch b)); try done; simpl.
  destruct (N.compare (revision a) (revision b)); try done; simpl.
  unfold prerelease_rank, is_prerelease.
  destruct (release_labels a) as [|x l] eqn:Ea, (release_labels b) as [|y m] eqn:Eb; try done.
  cbn [is_empty negb N.compare then_cmp].
  by apply compare_label_lists_zip with (p := []) (q := []).
Qed.

#[export] Instance version_key_cmp_total : TotalCmp version_key_cmp.
Proof. unfold version_key_cmp. apply _. Qed.

#[export] Instance NuGetVersion_cmp_laws : TotalCmp NuGetVersion_cmp.
Proof. apply (TotalCmp_ext _ _ NuGetVersion_cmp_key), _. Qed.

Lemma then_cmp_eq c d : then_cmp c d = Eq <-> c = Eq /\ d = Eq.
Proof. destruct c; naive_solver. Qed.

(** Comparer equality, spelled out. *)
Lemma NuGetVersion_cmp_eq a b :
  NuGetVersion_cmp a b = Eq <->
  major a = major b /\ minor a = minor b /\ patch a = patch b /\ revision a = revision b
  /\ Forall2 (fun x y => compare_labels x y = Eq) (release_labels a) (release_labels b).
Proof.
  rewrite NuGetVersion_cmp_key. unfold version_key_cmp, cmp_on.
  rewrite !then_cmp_eq, !N.compare_eq_iff, list_cmp_eq. split; [naive_solver|].
  intros (? & ? & ? & ? & H). repeat split; try done.
  unfold prerelease_rank, is_prerelease. by destruct H.
Qed.

(** Labels equal up to case compare as equal. *)
Lemma label_numeric_lower l : label_numeric (lower l) = label_numeric l.
Proof.
  assert (D : forall s, forallb is_ascii_digit (lower s) = forallb is_ascii_digit s).
  { induction s as [|c s IH]; simpl; [done|]. by rewrite lower_digit_iff, IH. }
  assert (I : forall s, forallb is_ascii_digit s = true -> lower s = s).
  { induction s as [|c s IH]; simpl; [done|]. intros [? ?]%andb_prop.
    f_equal; [by apply digit_lower|auto]. }
  destruct l as [|c l]; [done|]. unfold label_numeric. cbn [lower map].
  assert (C : N.eqb (to_ascii_lowercase c) (#c"-") = N.eqb c (#c"-")).
  { unfold to_ascii_lowercase, is_ascii_upper. destruct (in_range 65 90 c) eqn:E; [|done].
    apply in_range_spec in E. unfold ch. simpl.
    transitivity false; [|symmetry]; apply N.eqb_neq; lia. }
  rewrite C. fold (lower l). destruct (N.eqb c (#c"-")).
  - rewrite D. destruct (forallb is_ascii_digit l) eqn:E; [by rewrite I|by rewrite !orb_true_r].
  - change (to_ascii_lowercase c :: lower l) with (lower (c :: l)). rewrite D.
    destruct (forallb is_ascii_digit (c :: l)) eqn:E; [by rewrite I|by rewrite !orb_true_r].
Qed.

Lemma compare_labels_lower x y : lower x = lower y -> compare_labels x y = Eq.
Proof.
  intros E. unfold compare_labels, label_key.
  rewrite <- (label_numeric_lower x), <- (label_numeric_lower y), E.
  destruct (label_numeric (lower y)); [apply Z.compare_refl|].
  rewrite E. apply (cmp_refl (list_cmp N.compare)).
Qed.

(** C39: [Ord for NuGetVersion] is a lawful total order on all versions, in
    particular transitive across the numeric/alphanumeric label split:
    comparison is reflexive, reversing the operands reverses the answer, and
    both [<=] and [==] are transitive. *)
Theorem NuGetVersion_cmp_total_order :
  (forall a, NuGetVersion_cmp a a = Eq)
  /\ (forall a b, NuGetVersion_cmp b a = CompOpp (NuGetVersion_cmp a b))
  /\ (forall a b c, NuGetVersion_cmp a b <> Gt -> NuGetVersion_cmp b c <> Gt ->
        NuGetVersion_cmp a c <> Gt)
  /\ (forall a b c, NuGetVersion_cmp a b = Eq -> NuGetVersion_cmp a c = NuGetVersion_cmp b c).
Proof.
  split_and!.
  - apply (cmp_refl NuGetVersion_cmp).
  - apply (cmp_opp NuGetVersion_cmp).
  - apply (cmp_le_trans NuGetVersion_cmp).
  - apply (cmp_eq_l NuGetVersion_cmp).
Qed.

Lemma eq_strict_spec a b :
  eq_strict a b = true <->
  major a = major b /\ minor a = minor b /\ patch a = patch b /\ revision a = revision b
  /\ map lower (release_labels a) = map lower (release_labels b).
Proof.
  unfold eq_strict. rewrite !andb_true_iff, !N.eqb_eq, Nat.eqb_eq.
  assert (L : forall l m, (length l = length m /\
            forallb (fun '(x, y) => eq_ignore_ascii_case x y) (zip l m) = true)
            <-> map lower l = map lower m).
  { induction l as [|x l IH]; intros [|y m]; simpl; try naive_solver.
    rewrite andb_true_iff, eq_ignore_ascii_case_spec. specialize (IH m).
    split; [intros [? [? ?]]; f_equal; [done|apply IH; lia || naive_solver]|].
    intros [= ? ?%IH]. naive_solver. }
  specialize (L (release_labels a) (release_labels b)). naive_solver.
Qed.

(** [eq_strict] (NuGet's identity, the dictionary key) is an equivalence
    relation, blind to build metadata, and refines comparer equality:
    [eq_strict a b] implies [a == b]. *)
Theorem eq_strict_refines_eq :
  (forall a, eq_strict a a = true)
  /\ (forall a b, eq_strict a b = eq_strict b a)
  /\ (forall a b c, eq_strict a b = true -> eq_strict b c = true -> eq_strict a c = true)
  /\ (forall a b, eq_strict a b = true -> NuGetVersion_eqb a b = true)
  /\ (forall a m, eq_strict a {| major := major a; minor := minor a; patch := patch a;
         revision := revision a; release_labels := release_labels a; metadata := m |} = true).
Proof.
  split_and!.
  - intros a. by apply eq_strict_spec.
  - intros a b. apply eq_true_iff_eq. rewrite !eq_strict_spec. naive_solver.
  - intros a b c. rewrite !eq_strict_spec. intros. intuition congruence.
  - intros a b (? & ? & ? & ? & HL)%eq_strict_spec. unfold NuGetVersion_eqb.
    apply cmp_eqb_spec, NuGetVersion_cmp_eq. repeat split; try done.
    revert HL. generalize (release_labels a) (release_labels b).
    induction l as [|x l IH]; intros [|y l']; simpl; try done.
    intros [= ? ?]. constructor; [by apply compare_labels_lower|auto].
  - intros a m. by apply eq_strict_spec.
Qed.

(** The converse fails: [1.0--0] and [1.0-0] compare equal (both labels are
    the integer zero) but are different identities. *)
Example eq_not_eq_strict :
  exists a b, NuGetVersion_parse (#"1.0--0") = Ok a /\ NuGetVersion_parse (#"1.0-0") = Ok b
    /\ NuGetVersion_eqb a b = true /\ eq_strict a b = false.
Proof. eexists _, _. repeat split; vm_compute; reflexivity. Qed.

(** ** The hash *)

Lemma map_write_u8_app_inj (l m : list N) xs ys :
  Forall (fun c => c <> 255%N) l -> Forall (fun c => c <> 255%N) m ->
  map write_u8 l ++ write_u8 255 :: xs = map write_u8 m ++ write_u8 255 :: ys -> l = m /\ xs = ys.
Proof.
  intros Hl. revert m. induction Hl as [|c l Hc _ IH]; intros [|d m] Hm; simpl; intros E;
    simplify_eq; try done; try (by inversion Hm).
  apply Forall_cons in Hm as [_ Hm]. by destruct (IH m) as [-> ->].
Qed.

Lemma part_byte_lower_ne255 s :
  forallb is_part_byte s = true -> Forall (fun c => c <> 255%N) (lower s).
Proof.
  induction s as [|c s IH]; simpl; [constructor|]. intros [H Hs]%andb_prop. constructor; [|auto].
  unfold to_ascii_lowercase, is_ascii_upper. destruct (in_range 65 90 c) eqn:E.
  - apply in_range_spec in E. lia.
  - intros ->. vm_compute in H. done.
Qed.

Lemma hash_label_inj x y xs ys :
  forallb is_part_byte x = true -> forallb is_part_byte y = true ->
  hash_label x ++ xs = hash_label y ++ ys -> compare_labels x y = Eq /\ xs = ys.
Proof.
  intros Hx Hy. unfold hash_label, compare_labels, label_key.
  destruct (label_numeric x), (label_numeric y); simpl; intros E; simplify_eq.
  - split; [apply Z.compare_refl|done].
  - rewrite <- !app_assoc in E. simpl in E.
    rewrite <- (map_map to_ascii_lowercase write_u8 x), <- (map_map to_ascii_lowercase write_u8 y) in E.
    apply map_write_u8_app_inj in E as [E ->]; [|by apply part_byte_lower_ne255..].
    split; [by apply list_cmp_N_eq|done].
Qed.

Lemma hash_label_eq x y : compare_labels x y = Eq -> hash_label x = hash_label y.
Proof.
  unfold hash_label, compare_labels, label_key.
  destruct (label_numeric x), (label_numeric y); try done.
  - by intros ->%Z.compare_eq.
  - intros E%list_cmp_N_eq. unfold lower in E.
    by rewrite <- (map_map to_ascii_lowercase write_u8 x), E, map_map.
Qed.

(** [Hash] agrees with [Eq]: versions that compare equal feed the hasher
    the same bytes (so equal keys land in one bucket), and for versions with
    valid labels the hashed bytes determine the version up to [==]. *)
Theorem NuGetVersion_hash_iff a b :
  forallb (forallb is_part_byte) (release_labels a) = true ->
  forallb (forallb is_part_byte) (release_labels b) = true ->
  (NuGetVersion_hash a = NuGetVersion_hash b <-> NuGetVersion_cmp a b = Eq).
Proof.
  rewrite NuGetVersion_cmp_eq. unfold NuGetVersion_hash. intros Ha Hb. split.
  - intros [= ? ? ? ? Hlen Hc]. repeat split; try done.
    revert Ha Hb Hlen Hc. generalize (release_labels a) (release_labels b).
    induction l as [|x l IH]; intros [|y l']; simpl; try done.
    intros [? ?]%andb_prop [? ?]%andb_prop [= ?] E.
    apply hash_label_inj in E as [? ?]; [|done..]. constructor; auto.
  - intros (-> & -> & -> & -> & H). f_equal.
    + by rewrite (Forall2_length _ _ _ H).
    + clear Ha Hb. induction H as [|x y l l' Hxy _ IH]; [done|]. simpl. by rewrite IH, (hash_label_eq x y).
Qed.

Lemma NuGetVersion_hash_iff_witness :
  exists a b, NuGetVersion_parse (#"1.0-rc.-0") = Ok a /\ NuGetVersion_parse (#"1.0.0.0-RC.0") = Ok b
    /\ NuGetVersion_hash a = NuGetVersion_hash b.
Proof.
  eexists _, _. split; [vm_compute; reflexivity|]. split; [vm_compute; reflexivity|].
  apply NuGetVersion_hash_iff; reflexivity.
Defined.

(** ** What the parser accepts is well formed *)

Lemma parse_component_bound c n : parse_component c = Ok n -> (n <= i32_max)%N.
Proof.
  unfold parse_component. set (t := strip_prefix_or _ _). destruct (_ || _)%bool; [done|].
  destruct (Nat.ltb 10 _); [done|]. intros H. apply rbind_ok in H as (value & _ & H).
  destruct (N.ltb_spec i32_max value); [done|]. by simplify_eq.
Qed.

Lemma parse_label_ok l l' : parse_label l = Ok l' <-> l' = l /\ label_wf l = true.
Proof.
  unfold parse_label, label_wf. destruct (is_empty l); cbn [orb negb andb]; [intuition congruence|].
  destruct (forallb is_part_byte l); cbn [orb negb andb]; [|intuition congruence].
  destruct (_ && _)%bool; cbn [orb negb andb]; intuition congruence.
Qed.

Lemma parse_metadata_ok m m' : parse_metadata m = Ok m' <-> m' = m /\ metadata_wf m = true.
Proof.
  unfold parse_metadata, metadata_wf. destruct (is_empty m); cbn [orb negb andb]; [intuition congruence|].
  assert (E : forallb (fun p => (negb (is_empty p) && forallb is_part_byte p)%bool) (split (#c".") m)
            = negb (existsb (fun p => (is_empty p || negb (forallb is_part_byte p))%bool) (split (#c".") m))).
  { induction (split (#c".") m) as [|p ps IH]; simpl; [done|].
    by rewrite IH, !negb_orb, negb_involutive. }
  rewrite E. destruct (existsb _ _); cbn [orb negb andb]; intuition congruence.
Qed.

Lemma rmapM_parse_label ls ls' :
  rmapM parse_label ls = Ok ls' <-> ls' = ls /\ forallb label_wf ls = true.
Proof.
  rewrite rmapM_ok. split.
  - induction 1 as [|l l' ls ls' H _ [-> IH]]; [done|]. apply parse_label_ok in H as [-> H].
    simpl. by rewrite H, IH.
  - intros [-> H]. induction ls as [|l ls IH]; constructor; simpl in H; apply andb_prop in H as [? ?].
    + by apply parse_label_ok.
    + auto.
Qed.

Lemma nth_bound (l : list N) b i : Forall (fun n => n <= b)%N l -> (nth i l 0 <= b)%N.
Proof. intros H. revert i. induction H; intros [|i]; simpl; try lia; auto. Qed.

Lemma parse_parts_wf vp rp mp v : parse_parts vp rp mp = Ok v -> version_wf v = true.
Proof.
  unfold parse_parts. destruct (is_empty vp); [discriminate|]. intros H.
  destruct (Nat.ltb 4 _); [discriminate|].
  apply rbind_ok in H as (nums & Hn & H). apply rbind_ok in H as (labels & Hl & H).
  apply rbind_ok in H as (meta & Hm & H). simplify_eq.
  assert (HN : Forall (fun n => n <= i32_max)%N nums).
  { apply rmapM_ok in Hn. clear -Hn. induction Hn; constructor; eauto using parse_component_bound. }
  unfold version_wf. cbn. rewrite !andb_true_iff, !N.leb_le. repeat split; try by apply nth_bound.
  - destruct rp as [r|]; simpl in Hl; [|by simplify_eq].
    apply rbind_ok in Hl as (ls & Hls & [= <-]). by apply rmapM_parse_label in Hls as [-> ?].
  - destruct mp as [m|]; simpl in Hm; [|by simplify_eq].
    apply rbind_ok in Hm as (m' & Hm & [= <-]). by apply parse_metadata_ok in Hm as [-> ?].
Qed.

Lemma parsed_version_wf s v : NuGetVersion_parse s = Ok v -> version_wf v = true.
Proof.
  unfold NuGetVersion_parse. destruct (is_empty (trim s)); [discriminate|].
  destruct (scan_sections 0 None None (trim s)). apply parse_parts_wf.
Qed.

(** ** Printing and parsing are inverse *)

Lemma parse_component_digits s :
  s <> [] -> forallb is_ascii_digit s = true -> (dec_val s <= i32_max)%N ->
  parse_component s = Ok (dec_val s).
Proof.
  intros Hne Hd Hb. unfold parse_component.
  assert (Ht : trim_matches is_whitespace s = s).
  { apply trim_no_ws, Forall_forall. intros c Hc. apply digit_not_ws.
    apply forallb_Forall in Hd. by apply (proj1 (Forall_forall _ _) Hd). }
  rewrite Ht, strip_prefix_or_digits, Hd by done.
  destruct s as [|c0 s0] eqn:Es; [done|]. rewrite <- Es in *. cbn [is_empty orb negb].
  set (sig := trim_start_matches _ s).
  assert (Hv : dec_val sig = dec_val s) by apply dec_val_trim_zeros.
  destruct (drop_while_suffix (N.eqb (#c"0")) s) as (z & Hz & _).
  assert (Hsig : forallb is_ascii_digit sig = true).
  { rewrite Hz, forallb_app in Hd. by apply andb_prop in Hd as [_ ?]. }
  assert (Hhd : match sig with [] => True | c :: _ => c <> 48%N end).
  { subst sig. unfold trim_start_matches. clear. induction s as [|c s IH]; cbn [drop_while]; [done|].
    destruct (N.eqb_spec (#c"0") c) as [|Hc]; [exact IH|]. intros ->. by apply Hc. }
  clearbody sig. assert (Hlen : length sig <= 10).
  { destruct sig as [|c sig']; [simpl; lia|]. simpl.
    pose proof (dec_val_lower_bound c sig' Hhd Hsig) as Hlow. rewrite Hv in Hlow.
    enough (N.of_nat (length sig') < 10)%N by lia.
    apply (N.pow_lt_mono_r_iff 10); [lia|].
    eapply N.le_lt_trans; [exact Hlow|]. eapply N.le_lt_trans; [exact Hb|]. reflexivity. }
  apply Nat.ltb_ge in Hlen. rewrite Hlen.
  assert (Hval : (if is_empty sig then Ok 0%N
                  else ok_or (parse_unsigned u64_bound sig) BadNumericPart) = Ok (dec_val s)).
  { destruct sig as [|c sig']; cbn [is_empty]; [f_equal; exact Hv|].
    rewrite parse_unsigned_digits, Hv; [done|done|done|].
    rewrite Hv. eapply N.le_lt_trans; [exact Hb|]. reflexivity. }
  rewrite Hval. cbn [rbind]. apply N.ltb_ge in Hb. by rewrite Hb, Es.
Qed.

Lemma parse_component_show n : (n <= i32_max)%N -> parse_component (show_N n) = Ok n.
Proof.
  intros Hn. destruct (show_N_spec n) as (Hne & Hd & Hv & _).
  rewrite parse_component_digits; rewrite ?Hv; done.
Qed.

(** A version text put together from its sections. *)
Definition assemble (v : str) (rel meta : option str) : str :=
  v ++ match rel with None => [] | Some r => #c"-" :: r end
    ++ match meta with None => [] | Some m => #c"+" :: m end.

Lemma scan_plain i v s :
  Forall (fun c => c <> #c"-") v -> Forall (fun c => c <> #c"+") v ->
  scan_sections i None None (v ++ s) = scan_sections (i + length v) None None s.
Proof.
  revert i. induction v as [|c v IH]; intros i Hd Hp; simpl; [by rewrite Nat.add_0_r|].
  apply Forall_cons in Hd as [Hd1 Hd2], Hp as [Hp1 Hp2].
  apply N.eqb_neq in Hd1, Hp1. rewrite Hd1, Hp1. simpl. rewrite IH by done. f_equal. lia.
Qed.

Lemma scan_after_dash i d r s :
  Forall (fun c => c <> #c"+") r ->
  scan_sections i (Some d) None (r ++ s) = scan_sections (i + length r) (Some d) None s.
Proof.
  revert i. induction r as [|c r IH]; intros i Hp; simpl; [by rewrite Nat.add_0_r|].
  apply Forall_cons in Hp as [Hp1 Hp2]. apply N.eqb_neq in Hp1.
  rewrite Hp1, andb_false_r. simpl. rewrite IH by done. f_equal. lia.
Qed.

Lemma scan_after_plus i d p s : scan_sections i d (Some p) s = (d, Some p).
Proof.
  revert i. induction s as [|c s IH]; intros i; simpl; [done|]. rewrite !andb_false_r. auto.
Qed.

Lemma slice_all_from a s t n :
  a = length s -> n = length (s ++ t) -> slice a n (s ++ t) = t.
Proof.
  intros -> ->. unfold slice. rewrite drop_app_length, length_app.
  apply take_ge. lia.
Qed.

Lemma slice_middle a b s t u :
  a = length s -> b = length s + length t -> slice a b (s ++ t ++ u) = t.
Proof.
  intros -> ->. unfold slice. rewrite drop_app_length.
  replace (length s + length t - length s) with (length t) by lia. apply take_app_length.
Qed.

Lemma parse_assemble v rel meta :
  v <> [] -> Forall (fun c => c <> #c"-") v -> Forall (fun c => c <> #c"+") v ->
  (forall r, rel = Some r -> Forall (fun c => c <> #c"+") r) ->
  trim (assemble v rel meta) = assemble v rel meta ->
  NuGetVersion_parse (assemble v rel meta) = parse_parts v rel meta.
Proof.
  intros Hne Hd Hp Hr Ht. unfold NuGetVersion_parse. rewrite Ht.
  destruct (is_empty (assemble v rel meta)) eqn:Hem.
  { by destruct v. }
  unfold assemble. rewrite scan_plain by done. simpl.
  destruct rel as [r|], meta as [m|]; simpl.
  - rewrite scan_after_dash by auto. simpl. rewrite scan_after_plus. f_equal; simpl.
    + by apply (slice_middle _ _ []).
    + f_equal. rewrite (cons_middle (#c"-") v), (app_assoc v [#c"-"]). apply slice_middle; rewrite !length_app; simpl; lia.
    + f_equal. rewrite (cons_middle (#c"-") v), (app_assoc v [#c"-"]), (app_assoc _ r),
        (cons_middle (#c"+")), (app_assoc _ [#c"+"] m).
      apply slice_all_from; rewrite !length_app; simpl; lia.
  - rewrite scan_after_dash by auto. simpl. f_equal; simpl.
    + by apply (slice_middle _ _ []).
    + f_equal. rewrite app_nil_r, (cons_middle (#c"-") v), (app_assoc v [#c"-"] r).
      apply slice_all_from; rewrite !length_app; simpl; lia.
  - rewrite scan_after_plus. f_equal; simpl.
    + by apply (slice_middle _ _ []).
    + f_equal. rewrite (cons_middle (#c"+") v), (app_assoc v [#c"+"] m). apply slice_all_from; rewrite !length_app; simpl; lia.
  - f_equal. rewrite app_nil_r. by apply (slice_all_from _ []).
Qed.

(** The dotted numbers a version prints. *)
Definition version_nums (v : NuGetVersion) : list N :=
  [major v; minor v; patch v] ++ (if N.eqb (revision v) 0 then [] else [revision v]).

Definition release_text (v : NuGetVersion) : option str :=
  if is_empty (release_labels v) then None else Some (join (#".") (release_labels v)).

Lemma to_full_string_assemble v :
  to_full_string v = assemble (join (#".") (map show_N (version_nums v))) (release_text v) (metadata v).
Proof.
  unfold to_full_string, NuGetVersion_to_normalized_string, assemble, version_nums, release_text.
  change (#"-") with [#c"-"]. change (#"+") with [#c"+"].
  destruct (N.eqb (revision v) 0), (is_empty (release_labels v)), (metadata v);
    cbn [map app join]; rewrite ?app_nil_r, <- ?app_assoc; reflexivity.
Qed.

Lemma normalized_string_assemble v :
  NuGetVersion_to_normalized_string v
  = assemble (join (#".") (map show_N (version_nums v))) (release_text v) None.
Proof.
  unfold NuGetVersion_to_normalized_string, assemble, version_nums, release_text.
  change (#"-") with [#c"-"].
  destruct (N.eqb (revision v) 0), (is_empty (release_labels v));
    cbn [map app join]; rewrite ?app_nil_r, <- ?app_assoc; reflexivity.
Qed.

Lemma Forall_join (P : N -> Prop) sep ps :
  Forall P sep -> Forall (Forall P) ps -> Forall P (join sep ps).
Proof.
  intros Hs. induction 1 as [|p ps Hp Hps IH]; [constructor|].
  destruct ps as [|q ps]; [done|]. cbn [join]. apply Forall_app. split; [done|].
  apply Forall_app. by split.
Qed.

Lemma part_byte_facts c : is_part_byte c = true ->
  is_whitespace c = false /\ c <> #c"." /\ c <> #c"+".
Proof.
  unfold is_part_byte, is_ascii_alphanumeric, is_ascii_alphabetic, is_ascii_upper, is_ascii_lower,
    is_ascii_digit. rewrite !orb_true_iff, !in_range_spec, N.eqb_eq. chars.
  intros H. split; [|lia]. unfold is_whitespace.
  repeat (apply orb_false_intro); try (apply in_range_false; lia); apply N.eqb_neq; lia.
Qed.

Lemma part_bytes_facts s : forallb is_part_byte s = true ->
  Forall (fun c => is_whitespace c = false) s /\ Forall (fun c => c <> #c".") s
  /\ Forall (fun c => c <> #c"+") s.
Proof.
  rewrite forallb_Forall. intros H. split_and!; eapply Forall_impl; try exact H;
    intros c Hc; by apply part_byte_facts in Hc as (? & ? & ?).
Qed.

Lemma labels_wf_facts ls : forallb label_wf ls = true ->
  Forall (Forall (fun c => is_whitespace c = false)) ls /\ Forall (Forall (fun c => c <> #c".")) ls
  /\ Forall (Forall (fun c => c <> #c"+")) ls.
Proof.
  rewrite forallb_Forall. intros H. split_and!; eapply Forall_impl; try exact H;
    intros l Hl; unfold label_wf in Hl; bool_hyps; by apply part_bytes_facts.
Qed.

Lemma metadata_wf_no_ws m : metadata_wf m = true -> Forall (fun c => is_whitespace c = false) m.
Proof.
  unfold metadata_wf. intros [_ H]%andb_prop. rewrite <- (join_split (#c".") m).
  apply Forall_join; [repeat constructor|]. apply forallb_Forall in H.
  eapply Forall_impl; [exact H|]. intros p [_ Hp]%andb_prop. by apply part_bytes_facts.
Qed.

Lemma show_nums_facts c ns :
  is_ascii_digit c = false -> Forall (Forall (fun x => x <> c)) (map show_N ns).
Proof.
  intros Hc. apply Forall_map, Forall_forall. intros n _.
  apply digits_forall_ne; [done|]. by destruct (show_N_spec n) as (_ & ? & _).
Qed.

Lemma show_nums_ne c ns :
  is_ascii_digit c = false -> c <> #c"." -> Forall (fun x => x <> c) (join (#".") (map show_N ns)).
Proof.
  intros Hc Hdot. apply Forall_join; [|by apply show_nums_facts].
  change (#".") with [#c"."]. by constructor.
Qed.

Lemma show_nums_no_ws ns : Forall (fun c => is_whitespace c = false) (join (#".") (map show_N ns)).
Proof.
  apply Forall_join; [repeat constructor|]. apply Forall_map, Forall_forall. intros n _.
  destruct (show_N_spec n) as (_ & H & _). apply forallb_Forall in H.
  eapply Forall_impl; [exact H|]. apply digit_not_ws.
Qed.

Lemma rmapM_parse_component_show ns :
  Forall (fun n => n <= i32_max)%N ns -> rmapM parse_component (map show_N ns) = Ok ns.
Proof.
  intros H. apply rmapM_ok. induction H; constructor; [by apply parse_component_show|done].
Qed.

(** Parsing the printed sections gives the numbers, labels and metadata back. *)
Lemma parse_parts_show n1 n2 ns labels meta :
  length ns <= 2 -> Forall (fun n => n <= i32_max)%N (n1 :: n2 :: ns) ->
  forallb label_wf labels = true -> (forall m, meta = Some m -> metadata_wf m = true) ->
  parse_parts (join (#".") (map show_N (n1 :: n2 :: ns)))
    (if is_empty labels then None else Some (join (#".") labels)) meta
  = Ok {| major := n1; minor := n2; patch := nth 0 ns 0%N; revision := nth 1 ns 0%N;
          release_labels := labels; metadata := meta |}.
Proof.
  intros Hlen Hns Hl Hm. unfold parse_parts.
  assert (Hdot : contains_char (#c".") (join (#".") (map show_N (n1 :: n2 :: ns))) = true).
  { apply not_false_iff_true. rewrite contains_char_false. cbn [map join].
    change (#".") with [#c"."]. rewrite !Forall_app. intros (_ & H & _). by inversion H. }
  destruct (is_empty _) eqn:Hem.
  { destruct (join _ _); [|done]. by vm_compute in Hdot. }
  rewrite Hdot. change (#".") with [#c"."].
  rewrite split_join by (done || by apply show_nums_facts).
  rewrite length_map. destruct (Nat.ltb 4 _) eqn:E4.
  { apply Nat.ltb_lt in E4. simpl in E4. lia. }
  rewrite rmapM_parse_component_show by done. cbn [rbind].
  assert (Hls : opt_parse (fun release => rmapM parse_label (split (#c".") release))
      (if is_empty labels then None else Some (join [#c"."] labels))
      = Ok (if is_empty labels then None else Some labels)).
  { destruct labels as [|l ls] eqn:El; [done|]. rewrite <- El in *.
    destruct (is_empty labels) eqn:E; [done|]. cbn [opt_parse].
    rewrite split_join; [|by subst|by apply labels_wf_facts].
    by rewrite (proj2 (rmapM_parse_label labels labels)). }
  rewrite Hls. cbn [rbind].
  assert (Hmeta : opt_parse parse_metadata meta = Ok meta).
  { destruct meta as [m|]; [|done]. simpl.
    by rewrite (proj2 (parse_metadata_ok m m)) by auto. }
  rewrite Hmeta. cbn [rbind]. by destruct labels.
Qed.

Lemma version_nums_shape v :
  exists ns, version_nums v = major v :: minor v :: ns /\ length ns <= 2
    /\ nth 0 ns 0%N = patch v /\ nth 1 ns 0%N = revision v.
Proof.
  unfold version_nums. eexists. split; [reflexivity|].
  destruct (N.eqb_spec (revision v) 0) as [->|]; simpl; repeat split; lia.
Qed.

Lemma version_wf_facts v : version_wf v = true ->
  Forall (fun n => n <= i32_max)%N (version_nums v) /\ forallb label_wf (release_labels v) = true
  /\ (forall m, metadata v = Some m -> metadata_wf m = true).
Proof.
  unfold version_wf, version_nums. intros H. bool_hyps.
  rewrite N.leb_le in *. split_and!; [|done|by intros m Hm; destruct (metadata v); simplify_eq].
  destruct (N.eqb (revision v) 0); repeat constructor; done.
Qed.

Definition set_metadata (v : NuGetVersion) (meta : option str) : NuGetVersion :=
  {| major := major v; minor := minor v; patch := patch v; revision := revision v;
     release_labels := release_labels v; metadata := meta |}.

Lemma parse_assembled_version v meta :
  version_wf v = true -> (forall m, meta = Some m -> metadata_wf m = true) ->
  NuGetVersion_parse (assemble (join (#".") (map show_N (version_nums v))) (release_text v) meta)
  = Ok (set_metadata v meta).
Proof.
  intros (Hn & Hl & _)%version_wf_facts Hmeta.
  destruct (version_nums_shape v) as (ns & Hns & Hlen & Hp & Hr). rewrite Hns in *.
  rewrite parse_assemble.
  - unfold release_text. rewrite parse_parts_show by done. by rewrite Hp, Hr.
  - destruct (show_N_spec (major v)) as (Hne & _). cbn [map join]. by destruct (show_N (major v)).
  - by apply show_nums_ne.
  - by apply show_nums_ne.
  - unfold release_text. intros r Hrr. destruct (is_empty _); simplify_eq.
    apply Forall_join; [repeat constructor; done|by apply labels_wf_facts].
  - apply trim_no_ws. unfold assemble. rewrite !Forall_app. split_and!.
    + apply show_nums_no_ws.
    + unfold release_text. destruct (is_empty _); [constructor|]. constructor; [done|].
      apply Forall_join; [repeat constructor|by apply labels_wf_facts].
    + destruct meta as [m|]; [|constructor]. constructor; [done|]. by apply metadata_wf_no_ws, Hmeta.
Qed.

Lemma parse_normalized_string v :
  version_wf v = true ->
  NuGetVersion_parse (NuGetVersion_to_normalized_string v) = Ok (set_metadata v None).
Proof. intros H. rewrite normalized_string_assemble. by apply parse_assembled_version. Qed.

Lemma parse_full_string v : version_wf v = true -> NuGetVersion_parse (to_full_string v) = Ok v.
Proof.
  intros H. rewrite to_full_string_assemble, parse_assembled_version; [by destruct v|done|].
  by apply version_wf_facts.
Qed.

(** Every version the parser returns satisfies the type invariant
    [version_wf] (components within [Int32], labels and metadata non-empty and
    over [0-9A-Za-z-], no leading zero in an all-digit label), and printing it
    loses nothing: its full string parses to the same version. *)
Theorem NuGetVersion_parse_wf s v :
  NuGetVersion_parse s = Ok v ->
  version_wf v = true /\ NuGetVersion_parse (to_full_string v) = Ok v.
Proof. intros H%parsed_version_wf. split; [done|by apply parse_full_string]. Qed.

Lemma NuGetVersion_parse_wf_witness :
  exists v, NuGetVersion_parse (#"2147483647.0-a.-01+x.y") = Ok v /\ version_wf v = true.
Proof.
  eexists. split; [vm_compute; reflexivity|].
  apply (NuGetVersion_parse_wf (#"2147483647.0-a.-01+x.y")). vm_compute. reflexivity.
Defined.

(** Round trip.  Every well-formed version is recovered exactly (numbers,
    labels in their original case, metadata) by parsing its full string; its
    normalised string gives back the same version without the metadata. *)
Theorem NuGetVersion_print_parse v :
  version_wf v = true ->
  NuGetVersion_parse (to_full_string v) = Ok v
  /\ NuGetVersion_parse (NuGetVersion_to_normalized_string v) = Ok (set_metadata v None).
Proof. intros H. split; [by apply parse_full_string|by apply parse_normalized_string]. Qed.

Lemma NuGetVersion_print_parse_witness :
  let v := {| major := 1; minor := 20; patch := 0; revision := 3;
              release_labels := [#"Beta"; #"-01"]; metadata := Some (#"a.b") |} in
  NuGetVersion_parse (#"1.20.0.3-Beta.-01+a.b") = Ok v.
Proof.
  intros v. change (#"1.20.0.3-Beta.-01+a.b") with (to_full_string v).
  apply (NuGetVersion_print_parse v). reflexivity.
Defined.

(** ** Folder spelling: lower-casing the normalised string *)

Definition lower_labels (v : NuGetVersion) : NuGetVersion :=
  {| major := major v; minor := minor v; patch := patch v; revision := revision v;
     release_labels := map lower (release_labels v); metadata := None |}.

Lemma lower_digits s : forallb is_ascii_digit s = true -> lower s = s.
Proof.
  induction s as [|c s IH]; simpl; [done|]. intros [? ?]%andb_prop.
  f_equal; [by apply digit_lower|auto].
Qed.

Lemma lower_join sep ps : lower sep = sep -> lower (join sep ps) = join sep (map lower ps).
Proof.
  intros Hs. induction ps as [|p ps IH]; [done|]. destruct ps as [|q ps]; [done|].
  cbn [join map]. rewrite !lower_app, Hs. f_equal. f_equal. exact IH.
Qed.

Lemma lower_normalized_string v :
  lower (NuGetVersion_to_normalized_string v) = NuGetVersion_to_normalized_string (lower_labels v).
Proof.
  rewrite !normalized_string_assemble. unfold assemble. rewrite !lower_app. f_equal.
  - rewrite lower_join by done. f_equal. change (version_nums (lower_labels v)) with (version_nums v).
    rewrite map_map. apply map_ext. intros n. apply lower_digits. by destruct (show_N_spec n) as (_ & ? & _).
  - unfold release_text, lower_labels. cbn [release_labels]. destruct (release_labels v) as [|l ls]; [done|].
    cbn [is_empty map]. rewrite app_nil_r. change (lower []) with (@nil N). rewrite app_nil_r.
    change (lower (#c"-" :: join (#".") (l :: ls))) with (#c"-" :: lower (join (#".") (l :: ls))).
    by rewrite lower_join.
Qed.

Lemma part_byte_lower c : is_part_byte (to_ascii_lowercase c) = is_part_byte c.
Proof.
  unfold to_ascii_lowercase. destruct (is_ascii_upper c) eqn:E; [|done].
  unfold is_part_byte, is_ascii_alphanumeric, is_ascii_alphabetic. rewrite E. simpl.
  unfold is_ascii_upper in E. apply in_range_spec in E.
  assert (is_ascii_lower (c + 32) = true) as ->; [|by rewrite orb_true_r].
  apply in_range_spec. lia.
Qed.

Lemma forallb_lower p s :
  (forall c, p (to_ascii_lowercase c) = p c) -> forallb p (lower s) = forallb p s.
Proof. intros H. induction s as [|c s IH]; simpl; [done|]. by rewrite H, IH. Qed.

Lemma label_wf_lower l : label_wf (lower l) = label_wf l.
Proof.
  unfold label_wf. rewrite !forallb_lower by (apply lower_digit_iff || apply part_byte_lower).
  rewrite lower_length. destruct l as [|c l]; [done|]. cbn [lower map is_empty starts_with_char].
  assert (N.eqb (to_ascii_lowercase c) (#c"0") = N.eqb c (#c"0")) as ->; [|done].
  unfold to_ascii_lowercase. destruct (is_ascii_upper c) eqn:E; [|done].
  unfold is_ascii_upper in E. apply in_range_spec in E. chars.
  transitivity false; [|symmetry]; apply N.eqb_neq; lia.
Qed.

Lemma version_wf_lower_labels v : version_wf v = true -> version_wf (lower_labels v) = true.
Proof.
  unfold version_wf. cbn. rewrite !andb_true_iff. intros ((H & Hl) & _). repeat split; try apply H.
  rewrite forallb_Forall in *. apply Forall_map. eapply Forall_impl; [exact Hl|].
  intros l. simpl. by rewrite label_wf_lower.
Qed.

(** Two well-formed versions have the same lower-cased normalised string
    exactly when they are the same identity. *)
Lemma lower_normalized_eq_strict a b :
  version_wf a = true -> version_wf b = true ->
  (lower (NuGetVersion_to_normalized_string a) = lower (NuGetVersion_to_normalized_string b)
   <-> eq_strict a b = true).
Proof.
  intros Ha Hb. rewrite !lower_normalized_string, eq_strict_spec. split.
  - intros E. apply (f_equal NuGetVersion_parse) in E.
    rewrite !parse_normalized_string in E by (by apply version_wf_lower_labels).
    unfold set_metadata, lower_labels in E. simplify_eq/=. done.
  - intros (E1 & E2 & E3 & E4 & E5). f_equal. unfold lower_labels. congruence.
Qed.

(** ** Labels that are the same number *)

Lemma dec_val_inj s t : length s = length t -> forallb is_ascii_digit s = true -> forallb is_ascii_digit t = true ->
  dec_val s = dec_val t -> s = t.
Proof.
  revert t. induction s as [|c s IH] using rev_ind; intros t Hl Hs Ht E.
  - by destruct t.
  - destruct t as [|d t' _] using rev_ind; [rewrite length_app in Hl; simpl in Hl; lia|].
    rewrite !length_app in Hl. simpl in Hl. rewrite !forallb_app in Hs, Ht. rewrite !dec_val_snoc in E.
    simpl in Hs, Ht. bool_hyps. unfold is_ascii_digit in *. rewrite !in_range_spec in *. unfold digit_val in E.
    rewrite (IH t'); [|lia|done|done|lia]. do 2 f_equal. lia.
Qed.

(** Written without superfluous zeros, digits are determined by their value. *)
Lemma canonical_digits s t : label_wf s = true -> label_wf t = true ->
  forallb is_ascii_digit s = true -> forallb is_ascii_digit t = true -> dec_val s = dec_val t -> s = t.
Proof.
  assert (Hw : forall u : str, label_wf u = true -> forallb is_ascii_digit u = true ->
    u = #"0" \/ (0 < length u /\ (10 ^ N.of_nat (length u - 1) <= dec_val u)%N)).
  { intros [|c u] Hu Hd; [done|]. destruct (N.eqb_spec c 48) as [->|Hc].
    - left. unfold label_wf in Hu. rewrite Hd in Hu. destruct u as [|d u]; [done|]. cbn in Hu.
      by rewrite !andb_false_r in Hu.
    - right. split; [simpl; lia|]. cbn [length]. rewrite Nat.sub_succ, Nat.sub_0_r. by apply dec_val_lower_bound. }
  intros Hs Ht Ds Dt E. pose proof (dec_val_bound s Ds) as Bs. pose proof (dec_val_bound t Dt) as Bt.
  assert (Hz : forall u v : str, (0 < length v)%nat -> (10 ^ N.of_nat (length v - 1) <= dec_val v)%N ->
    (dec_val v < 10 ^ N.of_nat (length u))%N -> length v <= length u).
  { intros u v Hv H1 H2. assert (10 ^ N.of_nat (length v - 1) < 10 ^ N.of_nat (length u))%N as H3 by lia.
    apply N.pow_lt_mono_r_iff in H3; lia. }
  destruct (Hw s Hs Ds) as [->|[Ls Vs]], (Hw t Ht Dt) as [->|[Lt Vt]]; [done|exfalso..|].
  - rewrite <- E in Vt. assert (10 ^ N.of_nat (length t - 1) <= 0)%N by exact Vt.
    pose proof (N.pow_nonzero 10 (N.of_nat (length t - 1))). lia.
  - rewrite E in Vs. assert (10 ^ N.of_nat (length s - 1) <= 0)%N by exact Vs.
    pose proof (N.pow_nonzero 10 (N.of_nat (length s - 1))). lia.
  - apply dec_val_inj; [|done..]. apply Nat.le_antisymm; apply Hz; lia.
Qed.

(** A label with no sign. *)
Definition unsigned_label (l : str) : bool := negb (starts_with_char (#c"-") l).

Lemma label_numeric_unsigned l n : unsigned_label l = true -> label_numeric l = Some n ->
  forallb is_ascii_digit l = true /\ n = Z.of_N (dec_val l).
Proof.
  unfold unsigned_label, label_numeric. destruct l as [|c l]; [done|]. cbn [starts_with_char].
  intros Hc H. destruct (N.eqb c (#c"-")); [done|].
  destruct (forallb is_ascii_digit (c :: l)) eqn:Hd; [|by rewrite orb_true_r in H]. cbn [is_empty negb orb] in H.
  split; [done|]. destruct (Nat.ltb 10 _); [done|].
  pose proof (dec_val_trim_zeros (c :: l)) as Ez. change 48%N with (#c"0") in Ez.
  destruct (trim_start_matches (N.eqb (#c"0")) (c :: l)) as [|d u] eqn:Et; cbn [is_empty] in H.
  - simpl in H. injection H as <-. by rewrite <- Ez.
  - assert (Hu : forallb is_ascii_digit (d :: u) = true).
    { destruct (drop_while_suffix (N.eqb (#c"0")) (c :: l)) as (z & Hz & _). unfold trim_start_matches in Et.
      rewrite Et in Hz. rewrite Hz, forallb_app in Hd. by apply andb_prop in Hd as [_ ?]. }
    unfold parse_unsigned in H. rewrite strip_prefix_or_digits in H by done. destruct (_ || _)%bool in H; [done|].
    destruct (N.ltb _ _) in H; [|done]. cbn [mbind option_bind] in H.
    destruct (_ && _)%bool in H; [|done]. injection H as <-. by rewrite Ez.
Qed.

(** Parsed versions whose labels have no sign compare equal only if they name
    the same folder; [1.0.0--1] and [1.0.0--01] compare equal and do not. *)
Lemma unsigned_cmp_eq a b : version_wf a = true -> version_wf b = true ->
  forallb unsigned_label (release_labels a) = true -> forallb unsigned_label (release_labels b) = true ->
  NuGetVersion_cmp a b = Eq ->
  lower (NuGetVersion_to_normalized_string a) = lower (NuGetVersion_to_normalized_string b).
Proof.
  intros Ha Hb Ua Ub (E1 & E2 & E3 & E4 & E5)%NuGetVersion_cmp_eq.
  apply lower_normalized_eq_strict; [done..|]. apply eq_strict_spec. split_and!; [done..|].
  apply version_wf_facts in Ha as (_ & La & _). apply version_wf_facts in Hb as (_ & Lb & _).
  induction E5 as [|x y xs ys Exy E5 IH]; [done|]. simpl in *. bool_hyps. f_equal; [|by apply IH].
  unfold compare_labels, label_key in Exy.
  destruct (label_numeric x) eqn:Nx, (label_numeric y) eqn:Ny; try done; [|by apply list_cmp_N_eq].
  apply label_numeric_unsigned in Nx as [Dx ->], Ny as [Dy ->]; [|done..].
  apply Z.compare_eq_iff in Exy. f_equal. apply canonical_digits; [done..|lia].
Qed.

Example signed_labels_not_uniform :
  exists a b, NuGetVersion_parse (#"1.0.0--1") = Ok a /\ NuGetVersion_parse (#"1.0.0--01") = Ok b
    /\ NuGetVersion_cmp a b = Eq
    /\ lower (NuGetVersion_to_normalized_string a) <> lower (NuGetVersion_to_normalized_string b).
Proof. do 2 eexists. do 2 (split; [vm_compute; reflexivity|]). split; [reflexivity|discriminate]. Qed.
