(* ===== verification/Range.v ===== *)
(** * NuGet version ranges ([crates/nuget/src/range.rs])

    [VersionRange]: the interval and floating grammars, the bound checks, and
    [satisfies].  The theorems: a parsed range is well formed (ordered bounds,
    no inclusive flag on an absent bound); [satisfies] is interval membership
    in the version order, hence convex and blind to comparer-equal spellings;
    a well-formed range admits its own inclusive bounds; and parsing a
    non-floating range inverts printing it. *)

From S2P Require Import Prelude Order Version.

Inductive FloatBehavior :=
| Prerelease
| Revision
| Patch
| Minor
| Major
| AbsoluteLatest
| PrereleaseRevision
| PrereleasePatch
| PrereleaseMinor
| PrereleaseMajor.

Definition FloatBehavior_fmt (b : FloatBehavior) : str :=
  match b with
  | Prerelease => #"Prerelease"
  | Revision => #"Revision"
  | Patch => #"Patch"
  | Minor => #"Minor"
  | Major => #"Major"
  | AbsoluteLatest => #"AbsoluteLatest"
  | PrereleaseRevision => #"PrereleaseRevision"
  | PrereleasePatch => #"PrereleasePatch"
  | PrereleaseMinor => #"PrereleaseMinor"
  | PrereleaseMajor => #"PrereleaseMajor"
  end.

Record FloatSpec := { behavior : FloatBehavior; pattern : str }.

Record VersionRange := {
  min : option NuGetVersion;
  max : option NuGetVersion;
  min_inclusive : bool;
  max_inclusive : bool;
  float : option FloatSpec }.

Inductive RangeParseError :=
| Range_Empty
| Malformed
| BadVersion (e : VersionParseError)
| BadFloat.

Definition RangeParseError_fmt (e : RangeParseError) : str :=
  match e with
  | Range_Empty => #"empty range string"
  | Malformed => #"malformed range syntax"
  | BadVersion e => #"bad version bound: " ++ VersionParseError_fmt e
  | BadFloat => #"unsupported floating-version pattern"
  end.

Definition zero_version (labels : list str) : NuGetVersion :=
  {| major := 0; minor := 0; patch := 0; revision := 0; release_labels := labels; metadata := None |}.

Definition float_pattern (b : FloatBehavior) (min : NuGetVersion) (release_prefix : option str) : str :=
  let finish (numeric : str) :=
    match release_prefix with
    | None => numeric
    | Some prefix => numeric ++ #"-" ++ prefix ++ #"*"
    end in
  match b with
  | AbsoluteLatest => #"*-*"
  | Major | PrereleaseMajor => finish (#"*")
  | Minor | PrereleaseMinor => finish (show_N (major min) ++ #".*")
  | Patch | PrereleasePatch => finish (show_N (major min) ++ #"." ++ show_N (minor min) ++ #".*")
  | Revision | PrereleaseRevision =>
      finish (show_N (major min) ++ #"." ++ show_N (minor min) ++ #"." ++ show_N (patch min) ++ #".*")
  | Prerelease =>
      let s := show_N (major min) ++ #"." ++ show_N (minor min) ++ #"." ++ show_N (patch min) in
      finish (if N.eqb (revision min) 0 then s else s ++ #"." ++ show_N (revision min))
  end.

(** The two halves of [parse_float] after the literal and ['+'] checks. *)
Definition parse_numeric_float (text : str)
    : result (NuGetVersion * option FloatSpec) RangeParseError :=
  let base := removelast text ++ #"0" in
  let? min := map_err BadVersion (NuGetVersion_parse base) in
  let spec b := Ok (min, Some {| behavior := b; pattern := float_pattern b min None |}) in
  match count_char (#c".") text with
  | 0 => Ok (min, None)
  | 1 => spec Minor
  | 2 => spec Patch
  | 3 => spec Revision
  | _ => Err BadFloat
  end.

Definition release_min_of (prefix : str) : str :=
  if is_empty prefix then #"0"
  else if ends_with_char (#c".") prefix then prefix ++ #"0"
  else prefix.

Definition parse_release_float (version_part release : str)
    : result (NuGetVersion * option FloatSpec) RangeParseError :=
  let prefix := removelast release in
  let release_min := release_min_of prefix in
  let? (base_version, b) :=
    if contains_char (#c"*") version_part then
      if negb (ends_with_char (#c"*") version_part) then Err BadFloat
      else
        let base := removelast version_part ++ #"0" in
        match count_char (#c".") version_part with
        | 0 => Ok (base, PrereleaseMajor)
        | 1 => Ok (base, PrereleaseMinor)
        | 2 => Ok (base, PrereleasePatch)
        | 3 => Ok (base, PrereleaseRevision)
        | _ => Err BadFloat
        end
    else Ok (version_part, Prerelease) in
  let? min := map_err BadVersion (NuGetVersion_parse (base_version ++ #"-" ++ release_min)) in
  Ok (min, Some {| behavior := b; pattern := float_pattern b min (Some prefix) |}).

Definition parse_float (text : str) : result (NuGetVersion * option FloatSpec) RangeParseError :=
  if str_eqb text (#"*") then
    Ok (expect (zero_version []) (NuGetVersion_parse (#"0.0.0")),
        Some {| behavior := Major; pattern := #"*" |})
  else if str_eqb text (#"*-*") then
    Ok (expect (zero_version [#"0"]) (NuGetVersion_parse (#"0.0.0-0")),
        Some {| behavior := AbsoluteLatest; pattern := #"*-*" |})
  else if contains_char (#c"+") text then Err BadFloat
  else
    match split_once (#c"-") text with
    | None => parse_numeric_float text
    | Some (version_part, release) => parse_release_float version_part release
    end.

Definition parse_min_bound (text : str) : result (NuGetVersion * option FloatSpec) RangeParseError :=
  if ends_with_char (#c"*") text then parse_float text
  else let? v := map_err BadVersion (NuGetVersion_parse text) in Ok (v, None).

(** The bound ordering check: min above max rejects; equal bounds reject on
    mixed inclusivity. *)
Definition bounds_ordered (min max : option NuGetVersion) (min_incl max_incl : bool) : bool :=
  match min, max with
  | Some min_v, Some max_v =>
      match NuGetVersion_cmp min_v max_v with
      | Gt => false
      | Eq => Bool.eqb min_incl max_incl
      | Lt => true
      end
  | _, _ => true
  end.


Definition parse_interval_parts (parts : list str) (min_incl max_incl : bool)
    : result (option NuGetVersion * option FloatSpec * option NuGetVersion) RangeParseError :=
  match parts with
  | [part] =>
      if (negb min_incl || negb max_incl)%bool then Err Malformed
      else if is_empty (trim part) then Ok (None, None, None)
      else let? v := map_err BadVersion (NuGetVersion_parse part) in Ok (Some v, None, Some v)
  | [lo; hi] =>
      let? min :=
        if is_empty (trim lo) then Ok None
        else let? m := parse_min_bound lo in Ok (Some m) in
      let? max :=
        if is_empty (trim hi) then Ok None
        else let? v := map_err BadVersion (NuGetVersion_parse (trim hi)) in Ok (Some v) in
      match min with
      | Some (v, f) => Ok (Some v, f, max)
      | None => Ok (None, None, max)
      end
  | _ => Err Malformed
  end.

Definition VersionRange_parse (input : str) : result VersionRange RangeParseError :=
  let t := trim input in
  if is_empty t then Err Range_Empty
  else
    let starts_bracket := (starts_with_char (#c"[") t || starts_with_char (#c"(") t)%bool in
    let ends_bracket := (ends_with_char (#c"]") t || ends_with_char (#c")") t)%bool in
    if negb starts_bracket then
      if ends_bracket then Err Malformed
      else
        let? (min, float) := parse_min_bound t in
        Ok {| min := Some min; max := None; min_inclusive := true; max_inclusive := false;
              float := float |}
    else if negb ends_bracket then Err Malformed
    else
      let min_incl := starts_with_char (#c"[") t in
      let max_incl := ends_with_char (#c"]") t in
      let inner := slice 1 (length t - 1) t in
      let parts := split (#c",") inner in
      if forallb is_empty parts then Err Malformed
      else
        let? (min, float, max) := parse_interval_parts parts min_incl max_incl in
        if negb (bounds_ordered min max min_incl max_incl) then Err Malformed
        else
          Ok {| min := min; max := max;
                min_inclusive := (is_some min && min_incl)%bool;
                max_inclusive := (is_some max && max_incl)%bool;
                float := float |}.

Definition is_floating (r : VersionRange) : bool := is_some (float r).
Definition has_lower_bound (r : VersionRange) : bool := is_some (min r).
Definition has_upper_bound (r : VersionRange) : bool := is_some (max r).
Definition float_behavior (r : VersionRange) : option FloatBehavior := behavior <$> float r.

Definition satisfies (r : VersionRange) (version : NuGetVersion) : bool :=
  let min_ok :=
    match min r with
    | None => true
    | Some m =>
        match NuGetVersion_cmp version m with
        | Lt => false
        | Eq => min_inclusive r
        | Gt => true
        end
    end in
  let max_ok :=
    match max r with
    | None => true
    | Some m =>
        match NuGetVersion_cmp version m with
        | Gt => false
        | Eq => max_inclusive r
        | Lt => true
        end
    end in
  (min_ok && max_ok)%bool.

Definition VersionRange_to_normalized_string (r : VersionRange) : str :=
  let min_text :=
    match float r, min r with
    | Some f, _ => pattern f
    | None, Some v => NuGetVersion_to_normalized_string v
    | None, None => []
    end in
  let open := if min_inclusive r then #"[" else #"(" in
  let close := if max_inclusive r then #"]" else #")" in
  let max_text :=
    match max r with Some v => NuGetVersion_to_normalized_string v | None => [] end in
  open ++ min_text ++ #", " ++ max_text ++ close.

Example range_ex1 : VersionRange_to_normalized_string <$>
   match VersionRange_parse (#" [1.0,2.0) ") with Ok r => Some r | Err _ => None end
  = Some (#"[1.0.0, 2.0.0)").
Proof. vm_compute. reflexivity. Qed.
Example range_ex2 : match VersionRange_parse (#"01.0*-BETA*") with
  | Ok r => Some (VersionRange_to_normalized_string r) | Err _ => None end = Some (#"[1.*-BETA*, )").
Proof. vm_compute. reflexivity. Qed.
Example range_ex3 : VersionRange_parse (#"[1*, 2.0]") = Err Malformed.
Proof. vm_compute. reflexivity. Qed.

(** The [expect]s of [parse_float] are on literals that parse. *)
Lemma parse_float_literals :
  NuGetVersion_parse (#"0.0.0") = Ok (zero_version [])
  /\ NuGetVersion_parse (#"0.0.0-0") = Ok (zero_version [#"0"]).
Proof. by vm_compute. Qed.

(** ** What the parser accepts is well formed *)

Definition opt_wf (o : option NuGetVersion) : bool :=
  match o with Some v => version_wf v | None => true end.

Definition range_wf (r : VersionRange) : bool :=
  (opt_wf (min r) && opt_wf (max r)
   && bounds_ordered (min r) (max r) (min_inclusive r) (max_inclusive r)
   && implb (min_inclusive r) (is_some (min r)) && implb (max_inclusive r) (is_some (max r))
   && implb (is_some (float r)) (is_some (min r)))%bool.

Lemma map_err_ok {A E F} (f : E -> F) (m : result A E) a : map_err f m = Ok a <-> m = Ok a.
Proof. destruct m; simpl; split; congruence. Qed.

Lemma parse_float_wf text v f : parse_float text = Ok (v, f) -> version_wf v = true.
Proof.
  unfold parse_float, parse_numeric_float, parse_release_float. intros H.
  destruct (str_eqb text (#"*")).
  { simplify_eq. by vm_compute. }
  destruct (str_eqb text (#"*-*")).
  { simplify_eq. by vm_compute. }
  destruct (contains_char _ _); [discriminate|].
  destruct (split_once _ text) as [[vp rel]|].
  - apply rbind_ok in H as ([base b] & _ & H). apply rbind_ok in H as (w & Hw & H).
    apply map_err_ok, parsed_version_wf in Hw. by simplify_eq.
  - apply rbind_ok in H as (w & Hw & H). apply map_err_ok, parsed_version_wf in Hw.
    destruct (count_char _ _) as [|[|[|[|?]]]]; by simplify_eq.
Qed.

Lemma parse_min_bound_wf text v f : parse_min_bound text = Ok (v, f) -> version_wf v = true.
Proof.
  unfold parse_min_bound. destruct (ends_with_char _ _); [apply parse_float_wf|].
  intros H. apply rbind_ok in H as (w & Hw & H). simplify_eq.
  by apply map_err_ok, parsed_version_wf in Hw.
Qed.

Lemma parse_interval_parts_wf parts mi ma lo f hi :
  parse_interval_parts parts mi ma = Ok (lo, f, hi) ->
  opt_wf lo = true /\ opt_wf hi = true /\ implb (is_some f) (is_some lo) = true.
Proof.
  unfold parse_interval_parts. intros H. destruct parts as [|p [|q [|]]]; try discriminate.
  - destruct (_ || _)%bool; [discriminate|]. destruct (is_empty (trim p)); [by simplify_eq|].
    apply rbind_ok in H as (v & Hv & H). apply map_err_ok, parsed_version_wf in Hv. by simplify_eq/=.
  - apply rbind_ok in H as (m & Hm & H). apply rbind_ok in H as (x & Hx & H).
    assert (opt_wf x = true).
    { destruct (is_empty (trim q)); [by simplify_eq|]. apply rbind_ok in Hx as (v & Hv & Hx).
      apply map_err_ok, parsed_version_wf in Hv. by simplify_eq. }
    destruct (is_empty (trim p)); [by simplify_eq/=|].
    apply rbind_ok in Hm as ([v g] & Hv & Hm). apply parse_min_bound_wf in Hv. simplify_eq/=.
    split_and!; [done..|by destruct f].
Qed.

Lemma parsed_range_wf s r : VersionRange_parse s = Ok r -> range_wf r = true.
Proof.
  unfold VersionRange_parse. destruct (is_empty (trim s)); [discriminate|].
  set (t := trim s). destruct (negb (_ || _)).
  - destruct (_ || _)%bool; [discriminate|]. intros H.
    apply rbind_ok in H as ([v f] & Hv & H). apply parse_min_bound_wf in Hv. simplify_eq.
    unfold range_wf. cbn. rewrite Hv. by destruct f.
  - destruct (negb _); [discriminate|]. destruct (forallb _ _); [discriminate|]. intros H.
    apply rbind_ok in H as ([[lo f] hi] & Hp & H). apply parse_interval_parts_wf in Hp as (Hl & Hh & Hf).
    destruct (negb (bounds_ordered lo hi _ _)) eqn:Ho; [discriminate|]. apply negb_false_iff in Ho.
    simplify_eq. unfold range_wf. cbn. rewrite Hl, Hh, Hf.
    destruct lo, hi; simpl in *; rewrite ?Ho; by rewrite ?implb_true_r.
Qed.

(** ** [satisfies] is interval membership *)

(** Membership in the interval a range denotes, in the version order. *)
Definition in_interval (r : VersionRange) (v : NuGetVersion) : Prop :=
  (forall m, min r = Some m ->
     if min_inclusive r then NuGetVersion_cmp m v <> Gt else NuGetVersion_cmp m v = Lt)
  /\ (forall m, max r = Some m ->
     if max_inclusive r then NuGetVersion_cmp v m <> Gt else NuGetVersion_cmp v m = Lt).

Lemma satisfies_in_interval r v : satisfies r v = true <-> in_interval r v.
Proof.
  unfold satisfies, in_interval. rewrite andb_true_iff.
  assert (H1 : forall a b : NuGetVersion, NuGetVersion_cmp a b = CompOpp (NuGetVersion_cmp b a))
    by (intros; apply (cmp_opp NuGetVersion_cmp)).
  split; intros [Hmin Hmax]; split.
  - intros m Hm. rewrite Hm in Hmin. rewrite H1.
    destruct (NuGetVersion_cmp v m), (min_inclusive r); done.
  - intros m Hm. rewrite Hm in Hmax. destruct (NuGetVersion_cmp v m), (max_inclusive r); done.
  - destruct (min r) as [m|]; [|done]. specialize (Hmin m eq_refl). rewrite H1 in Hmin.
    by destruct (NuGetVersion_cmp v m), (min_inclusive r).
  - destruct (max r) as [m|]; [|done]. specialize (Hmax m eq_refl).
    by destruct (NuGetVersion_cmp v m), (max_inclusive r).
Qed.

Lemma in_interval_convex r a b c :
  NuGetVersion_cmp a b <> Gt -> NuGetVersion_cmp b c <> Gt ->
  in_interval r a -> in_interval r c -> in_interval r b.
Proof.
  intros Hab Hbc [Ha _] [_ Hc]. split; intros m Hm.
  - specialize (Ha m Hm). destruct (min_inclusive r).
    + eapply (cmp_le_trans NuGetVersion_cmp); eauto.
    + eapply (cmp_lt_le_trans NuGetVersion_cmp); eauto.
  - specialize (Hc m Hm). destruct (max_inclusive r).
    + eapply (cmp_le_trans NuGetVersion_cmp); eauto.
    + eapply (cmp_le_lt_trans NuGetVersion_cmp); eauto.
Qed.

(** Comparer equality as a setoid. *)
Definition version_equiv (a b : NuGetVersion) : Prop := NuGetVersion_cmp a b = Eq.
#[export] Instance version_equiv_equivalence : Equivalence version_equiv.
Proof. apply (cmp_eq_equivalence NuGetVersion_cmp). Qed.
#[export] Instance cmp_proper : Proper (version_equiv ==> version_equiv ==> eq) NuGetVersion_cmp.
Proof.
  intros a a' Ha b b' Hb. transitivity (NuGetVersion_cmp a' b).
  - by apply (cmp_eq_l NuGetVersion_cmp).
  - by apply (cmp_eq_r NuGetVersion_cmp).
Qed.
#[export] Instance satisfies_proper : Proper (eq ==> version_equiv ==> eq) satisfies.
Proof.
  intros r ? <- a b E. unfold satisfies.
  destruct (min r), (max r); rewrite ?E; done.
Qed.

(** [satisfies] is exactly membership in the interval the bounds denote,
    under the version order; so it is convex (what lies between two accepted
    versions is accepted) and does not distinguish comparer-equal versions. *)
Theorem satisfies_interval r :
  (forall v, satisfies r v = true <-> in_interval r v)
  /\ (forall a b c, NuGetVersion_cmp a b <> Gt -> NuGetVersion_cmp b c <> Gt ->
        satisfies r a = true -> satisfies r c = true -> satisfies r b = true)
  /\ (forall a b, NuGetVersion_cmp a b = Eq -> satisfies r a = satisfies r b).
Proof.
  split_and!.
  - apply satisfies_in_interval.
  - intros a b c Hab Hbc. rewrite !satisfies_in_interval. by apply in_interval_convex.
  - intros a b E. by apply satisfies_proper.
Qed.

Lemma range_wf_facts r : range_wf r = true ->
  opt_wf (min r) = true /\ opt_wf (max r) = true
  /\ bounds_ordered (min r) (max r) (min_inclusive r) (max_inclusive r) = true
  /\ (min_inclusive r = true -> is_some (min r) = true)
  /\ (max_inclusive r = true -> is_some (max r) = true).
Proof.
  unfold range_wf. rewrite !andb_true_iff. intros (((((? & ?) & ?) & Hmin) & Hmax) & _).
  split_and!; [done..|intros E|intros E].
  - by rewrite E in Hmin.
  - by rewrite E in Hmax.
Qed.

(** A well-formed range contains its inclusive bounds. *)
Lemma wf_range_contains_bounds r : range_wf r = true ->
  (forall m, min r = Some m -> min_inclusive r = true -> satisfies r m = true)
  /\ (forall m, max r = Some m -> max_inclusive r = true -> satisfies r m = true).
Proof.
  intros (_ & _ & Ho & _)%range_wf_facts.
  split; intros m Hm Hi; apply satisfies_in_interval; unfold in_interval; rewrite Hm in *; rewrite Hi in *;
    (split; intros x Hx; simplify_eq); rewrite ?(cmp_refl NuGetVersion_cmp); try done;
    rewrite Hx in Ho; unfold bounds_ordered in Ho.
  - destruct (NuGetVersion_cmp m x), (max_inclusive r); done.
  - destruct (NuGetVersion_cmp x m), (min_inclusive r); done.
Qed.

(** A parsed range is well formed (valid bounds, minimum not above
    maximum, equal bounds only with equal inclusivity, no inclusive flag on an
    absent bound) and admits each of its inclusive bounds; so the resolver's
    lower-bound check cannot fail on a parsed range. *)
Theorem VersionRange_parse_wf s r :
  VersionRange_parse s = Ok r ->
  range_wf r = true
  /\ (forall m, min r = Some m -> min_inclusive r = true -> satisfies r m = true)
  /\ (forall m, max r = Some m -> max_inclusive r = true -> satisfies r m = true).
Proof.
  intros H%parsed_range_wf. split; [done|]. by apply wf_range_contains_bounds.
Qed.

Lemma VersionRange_parse_wf_witness :
  exists r, VersionRange_parse (#"[1.0-a, 2.0]") = Ok r /\ range_wf r = true.
Proof.
  eexists. split; [vm_compute; reflexivity|].
  apply (VersionRange_parse_wf (#"[1.0-a, 2.0]")). vm_compute. reflexivity.
Defined.

(** ** Printing and parsing a non-floating range *)

(** The range with the build metadata of its bounds dropped (the normalised
    string does not print it). *)
Definition range_drop_metadata (r : VersionRange) : VersionRange :=
  {| min := (fun v => set_metadata v None) <$> min r;
     max := (fun v => set_metadata v None) <$> max r;
     min_inclusive := min_inclusive r; max_inclusive := max_inclusive r; float := float r |}.

Definition bound_text (o : option NuGetVersion) : str :=
  match o with Some v => NuGetVersion_to_normalized_string v | None => [] end.

(** The characters of a normalised version. *)
Definition version_char (c : N) : bool := (is_part_byte c || N.eqb c (#c"."))%bool.

Lemma digit_part_byte c : is_ascii_digit c = true -> is_part_byte c = true.
Proof. unfold is_part_byte, is_ascii_alphanumeric. intros ->. by rewrite orb_true_r. Qed.

Lemma part_bytes_version_chars s :
  forallb is_part_byte s = true -> Forall (fun c => version_char c = true) s.
Proof.
  rewrite forallb_Forall. intros H. eapply Forall_impl; [exact H|].
  intros c Hc. unfold version_char. simpl in Hc. by rewrite Hc.
Qed.

Lemma normalized_chars v :
  version_wf v = true -> Forall (fun c => version_char c = true) (NuGetVersion_to_normalized_string v).
Proof.
  intros (_ & Hl & _)%version_wf_facts. rewrite normalized_string_assemble. unfold assemble.
  rewrite app_nil_r. apply Forall_app. split.
  - apply Forall_join; [repeat constructor|]. apply Forall_map, Forall_forall. intros n _.
    destruct (show_N_spec n) as (_ & H & _). apply forallb_Forall in H. eapply Forall_impl; [exact H|].
    intros c Hc. unfold version_char. by rewrite digit_part_byte.
  - unfold release_text. destruct (is_empty _); [constructor|]. constructor; [done|].
    apply Forall_join; [repeat constructor|]. apply forallb_Forall in Hl. eapply Forall_impl; [exact Hl|].
    intros l Hwf. unfold label_wf in Hwf. bool_hyps. by apply part_bytes_version_chars.
Qed.

Lemma version_char_facts c : version_char c = true ->
  is_whitespace c = false /\ c <> #c"," /\ c <> #c"*" /\ c <> #c")" /\ c <> #c"]"
  /\ c <> #c"(" /\ c <> #c"[".
Proof.
  unfold version_char, is_part_byte, is_ascii_alphanumeric, is_ascii_alphabetic, is_ascii_upper,
    is_ascii_lower, is_ascii_digit. rewrite !orb_true_iff, !in_range_spec, !N.eqb_eq. chars.
  intros H. split; [|lia]. unfold is_whitespace.
  repeat (apply orb_false_intro); try (apply in_range_false; lia); apply N.eqb_neq; lia.
Qed.

Lemma version_chars_ne (P : N -> Prop) s :
  (forall c, version_char c = true -> P c) -> Forall (fun c => version_char c = true) s -> Forall P s.
Proof. intros HP H. eapply Forall_impl; [exact H|done]. Qed.

Lemma normalized_nonempty v : NuGetVersion_to_normalized_string v <> [].
Proof.
  rewrite normalized_string_assemble. unfold assemble, version_nums.
  destruct (show_N_spec (major v)) as (Hne & _). cbn [app map join]. by destruct (show_N (major v)).
Qed.

Lemma ends_with_char_false c s : Forall (fun x => x <> c) s -> ends_with_char c s = false.
Proof.
  intros H%Forall_rev. unfold ends_with_char. destruct (rev s); [done|].
  apply Forall_cons in H as [H _]. by apply N.eqb_neq.
Qed.

Lemma starts_with_char_false c s : Forall (fun x => x <> c) s -> starts_with_char c s = false.
Proof. destruct 1 as [|x s H _]; [done|]. by apply N.eqb_neq. Qed.

Lemma parse_min_bound_normalized v : version_wf v = true ->
  parse_min_bound (NuGetVersion_to_normalized_string v) = Ok (set_metadata v None, None).
Proof.
  intros H. unfold parse_min_bound. rewrite ends_with_char_false.
  - by rewrite parse_normalized_string.
  - eapply version_chars_ne; [|by apply normalized_chars]. apply version_char_facts.
Qed.

Lemma bound_text_trim o : opt_wf o = true -> trim (bound_text o) = bound_text o.
Proof.
  intros H. apply trim_no_ws. destruct o as [v|]; [|constructor].
  eapply version_chars_ne; [|by apply normalized_chars]. apply version_char_facts.
Qed.

Lemma bound_text_empty o : is_empty (bound_text o) = negb (is_some o).
Proof. destruct o as [v|]; [|done]. simpl. pose proof (normalized_nonempty v). by destruct (NuGetVersion_to_normalized_string v). Qed.

Lemma trim_leading_space s : trim (#c" " :: s) = trim s.
Proof. reflexivity. Qed.

Lemma set_metadata_cmp a b ma mb :
  NuGetVersion_cmp (set_metadata a ma) (set_metadata b mb) = NuGetVersion_cmp a b.
Proof. reflexivity. Qed.

Lemma slice_inner c s d : slice 1 (length (c :: s ++ [d]) - 1) (c :: s ++ [d]) = s.
Proof.
  unfold slice. cbn [drop length]. rewrite drop_0, length_app. cbn [length].
  replace (S (length s + 1) - 1 - 1) with (length s) by lia. apply take_app_length.
Qed.

Lemma ends_with_snoc c s d : ends_with_char c (s ++ [d]) = N.eqb d c.
Proof. unfold ends_with_char. by rewrite rev_app_distr. Qed.

(** Parsing "open lo, hi close" with version (or absent) bounds. *)
Lemma parse_printed_interval lo hi (mi ma : bool) :
  opt_wf lo = true -> opt_wf hi = true ->
  parse_interval_parts [bound_text lo; #c" " :: bound_text hi] mi ma
  = Ok ((fun v => set_metadata v None) <$> lo, None, (fun v => set_metadata v None) <$> hi).
Proof.
  intros Hlo Hhi. unfold parse_interval_parts.
  rewrite trim_leading_space, !bound_text_trim, !bound_text_empty by done.
  destruct lo as [lo|], hi as [hi|]; cbn [is_some negb bound_text];
    rewrite ?parse_min_bound_normalized, ?parse_normalized_string by done; done.
Qed.

Lemma printed_nonfloating r : float r = None ->
  VersionRange_to_normalized_string r
  = (if min_inclusive r then #c"[" else #c"(")
    :: (bound_text (min r) ++ [#c","; #c" "] ++ bound_text (max r))
    ++ [if max_inclusive r then #c"]" else #c")"].
Proof.
  intros Hf. unfold VersionRange_to_normalized_string. rewrite Hf. fold (bound_text (max r)).
  change (#", ") with [#c","; #c" "]. rewrite <- !app_assoc.
  destruct (min_inclusive r), (max_inclusive r), (min r); reflexivity.
Qed.

Lemma bound_text_no_comma o : opt_wf o = true -> Forall (fun c => c <> #c",") (bound_text o).
Proof.
  intros H. destruct o as [v|]; [|constructor].
  eapply version_chars_ne; [|by apply normalized_chars]. apply version_char_facts.
Qed.

(** Round trip.  A well-formed range that does not float is recovered from
    its normalised string, up to the build metadata of its bounds (which the
    string does not carry and every comparison ignores). *)
Theorem VersionRange_print_parse r :
  range_wf r = true -> float r = None ->
  VersionRange_parse (VersionRange_to_normalized_string r) = Ok (range_drop_metadata r).
Proof.
  intros Hwf Hf. apply range_wf_facts in Hwf as (Hlo & Hhi & Ho & Hmi & Hma).
  rewrite (printed_nonfloating r Hf). unfold VersionRange_parse.
  set (o := if min_inclusive r then _ else _). set (c := if max_inclusive r then _ else _).
  set (inner := bound_text (min r) ++ _). rewrite trim_id_ends with (c:=o) (d:=c) (s':=inner ++ [c]) (s'':=o :: inner);
    [|done|done|subst o; by destruct (min_inclusive r)|subst c; by destruct (max_inclusive r)].
  change (is_empty (o :: inner ++ [c])) with false. cbn [starts_with_char]. rewrite slice_inner.
  change (o :: inner ++ [c]) with ((o :: inner) ++ [c]). rewrite !ends_with_snoc.
  assert (Hsplit : split (#c",") inner = [bound_text (min r); #c" " :: bound_text (max r)]).
  { subst inner. cbn [app]. rewrite split_app_sep by (by apply bound_text_no_comma).
    f_equal. apply split_no_sep. constructor; [done|by apply bound_text_no_comma]. }
  rewrite Hsplit, parse_printed_interval by done. cbn [forallb is_empty andb].
  assert (HoE : N.eqb o (#c"[") = min_inclusive r /\ N.eqb o (#c"(") = negb (min_inclusive r))
    by (subst o; by destruct (min_inclusive r)).
  assert (HcE : N.eqb c (#c"]") = max_inclusive r /\ N.eqb c (#c")") = negb (max_inclusive r))
    by (subst c; by destruct (max_inclusive r)).
  destruct HoE as [-> ->], HcE as [-> ->]. rewrite !orb_negb_r, andb_false_r. cbn [negb rbind].
  assert (bounds_ordered ((fun v => set_metadata v None) <$> min r) ((fun v => set_metadata v None) <$> max r)
     (min_inclusive r) (max_inclusive r) = true) as ->.
  { rewrite <- Ho. by destruct (min r), (max r). }
  unfold range_drop_metadata. rewrite Hf.
  destruct (min r), (max r), (min_inclusive r), (max_inclusive r);
    try specialize (Hmi eq_refl); try specialize (Hma eq_refl); done.
Qed.

Lemma VersionRange_print_parse_witness :
  exists r, VersionRange_parse (#"[1.0-a, 2.0)") = Ok r
    /\ VersionRange_parse (#"[1.0.0-a, 2.0.0)") = Ok (range_drop_metadata r).
Proof.
  eexists. split; [vm_compute; reflexivity|].
  match goal with |- _ = Ok (range_drop_metadata ?r) =>
    change (#"[1.0.0-a, 2.0.0)") with (VersionRange_to_normalized_string r) end.
  apply VersionRange_print_parse; reflexivity.
Defined.

(** A bare version is a minimum, not a pin: the normalised text of a
    well-formed version parses to the range with that inclusive lower bound
    and no upper bound, which accepts exactly the versions at or above it. *)
Theorem bare_version_is_minimum v :
  version_wf v = true ->
  exists r, VersionRange_parse (NuGetVersion_to_normalized_string v) = Ok r
    /\ min r = Some (set_metadata v None) /\ max r = None /\ float r = None
    /\ forall u, satisfies r u = true <-> NuGetVersion_cmp v u <> Gt.
Proof.
  intros Hwf. pose proof (normalized_chars v Hwf) as Hc.
  assert (Hne : forall x, (forall c, version_char c = true -> c <> x) ->
    starts_with_char x (NuGetVersion_to_normalized_string v) = false
    /\ ends_with_char x (NuGetVersion_to_normalized_string v) = false).
  { intros x Hx. split; [apply starts_with_char_false|apply ends_with_char_false];
      (eapply version_chars_ne; [exact Hx|done]). }
  unfold VersionRange_parse. rewrite trim_no_ws
    by (eapply version_chars_ne; [|exact Hc]; apply version_char_facts).
  destruct (is_empty _) eqn:He.
  { pose proof (normalized_nonempty v). by destruct (NuGetVersion_to_normalized_string v). }
  rewrite (proj1 (Hne (#c"[") ltac:(apply version_char_facts))),
    (proj1 (Hne (#c"(") ltac:(apply version_char_facts))),
    (proj2 (Hne (#c"]") ltac:(apply version_char_facts))),
    (proj2 (Hne (#c")") ltac:(apply version_char_facts))).
  cbn [orb negb]. rewrite parse_min_bound_normalized by done. cbn [rbind].
  eexists. split_and!; [reflexivity..|]. intros u. rewrite satisfies_in_interval. unfold in_interval. cbn.
  split; [intros [H _]; exact (H _ eq_refl)|]. intros H. split; [|done]. by intros m [= <-].
Qed.

Lemma bare_version_is_minimum_witness :
  exists v r, NuGetVersion_parse (#"1.2.3-rc.1") = Ok v
    /\ VersionRange_parse (NuGetVersion_to_normalized_string v) = Ok r /\ max r = None.
Proof.
  eexists. destruct (bare_version_is_minimum
    {| major := 1; minor := 2; patch := 3; revision := 0;
       release_labels := [#"rc"; #"1"]; metadata := None |} eq_refl) as (r & H & _ & Hm & _).
  exists r. split; [vm_compute; reflexivity|]. split; [exact H|exact Hm].
Defined.
