(* ===== verification/Encoding.v ===== *)
(** * UTF-8 and UTF-16

    What the standard library's [str::from_utf8], [String::from_utf16] and
    [char] encoders do, on lists of bytes and of 16-bit units, and that
    decoding inverts encoding on Unicode scalar values. *)

From S2P Require Import Prelude.

Definition is_scalar (c : N) : bool := (N.ltb c 55296 || in_range 57344 1114111 c)%bool.

Definition encode_utf16_char (c : N) : list N :=
  if N.ltb c 65536 then [c]
  else [55296 + (c - 65536) / 1024; 56320 + (c - 65536) mod 1024]%N.
Definition encode_utf16 (s : str) : list N := concat (map encode_utf16_char s).

(** [String::from_utf16]: [None] on an unpaired surrogate. *)
Fixpoint from_utf16 (units : list N) : option str :=
  match units with
  | [] => Some []
  | u :: rest =>
      if (N.ltb u 55296 || N.leb 57344 u)%bool then cons u <$> from_utf16 rest
      else if N.leb 56320 u then None
      else match rest with
           | u2 :: rest' =>
               if in_range 56320 57343 u2
               then cons (65536 + (u - 55296) * 1024 + (u2 - 56320))%N <$> from_utf16 rest'
               else None
           | [] => None
           end
  end.

Definition encode_utf8_char (c : N) : list N :=
  if N.ltb c 128 then [c]
  else if N.ltb c 2048 then [192 + c / 64; 128 + c mod 64]%N
  else if N.ltb c 65536 then [224 + c / 4096; 128 + c / 64 mod 64; 128 + c mod 64]%N
  else [240 + c / 262144; 128 + c / 4096 mod 64; 128 + c / 64 mod 64; 128 + c mod 64]%N.
Definition encode_utf8 (s : str) : list N := concat (map encode_utf8_char s).

Definition is_cont (b : N) : bool := in_range 128 191 b.

(** [str::from_utf8]: [None] on overlong, surrogate, out-of-range or truncated
    sequences. *)
Fixpoint from_utf8 (bytes : list N) : option str :=
  match bytes with
  | [] => Some []
  | b1 :: r1 =>
      if N.ltb b1 128 then cons b1 <$> from_utf8 r1
      else match r1 with
      | [] => None
      | b2 :: r2 =>
          if negb (is_cont b2) then None
          else if in_range 194 223 b1 then cons ((b1 - 192) * 64 + (b2 - 128))%N <$> from_utf8 r2
          else match r2 with
          | [] => None
          | b3 :: r3 =>
              let c3 := ((b1 - 224) * 4096 + (b2 - 128) * 64 + (b3 - 128))%N in
              if negb (is_cont b3) then None
              else if in_range 224 239 b1 then
                if (N.leb 2048 c3 && is_scalar c3)%bool then cons c3 <$> from_utf8 r3 else None
              else match r3 with
              | [] => None
              | b4 :: r4 =>
                  let c4 := ((b1 - 240) * 262144 + (b2 - 128) * 4096 + (b3 - 128) * 64 + (b4 - 128))%N in
                  if (is_cont b4 && in_range 240 244 b1 && in_range 65536 1114111 c4)%bool
                  then cons c4 <$> from_utf8 r4 else None
              end
          end
      end
  end.

(** The second byte of a sequence that starts with [b1]: overlong, surrogate and
    out-of-range sequences are excluded here. *)
Definition second_ok (b1 b2 : N) : bool :=
  if N.eqb b1 224 then in_range 160 191 b2
  else if N.eqb b1 237 then in_range 128 159 b2
  else if N.eqb b1 240 then in_range 144 191 b2
  else if N.eqb b1 244 then in_range 128 143 b2
  else is_cont b2.

(** [REPLACEMENT CHARACTER] *)
Definition REPLACEMENT : char := 65533%N.

(** [String::from_utf8_lossy]: the longest start of a sequence that cannot be
    completed becomes one replacement character. *)
Fixpoint from_utf8_lossy (bytes : list N) : str :=
  match bytes with
  | [] => []
  | b1 :: r1 =>
      if N.ltb b1 128 then b1 :: from_utf8_lossy r1
      else if negb (in_range 194 244 b1) then REPLACEMENT :: from_utf8_lossy r1
      else match r1 with
      | [] => [REPLACEMENT]
      | b2 :: r2 =>
          if negb (second_ok b1 b2) then REPLACEMENT :: from_utf8_lossy r1
          else if N.leb b1 223 then ((b1 - 192) * 64 + (b2 - 128))%N :: from_utf8_lossy r2
          else match r2 with
          | [] => [REPLACEMENT]
          | b3 :: r3 =>
              if negb (is_cont b3) then REPLACEMENT :: from_utf8_lossy r2
              else if N.leb b1 239 then ((b1 - 224) * 4096 + (b2 - 128) * 64 + (b3 - 128))%N :: from_utf8_lossy r3
              else match r3 with
              | [] => [REPLACEMENT]
              | b4 :: r4 =>
                  if negb (is_cont b4) then REPLACEMENT :: from_utf8_lossy r3
                  else ((b1 - 240) * 262144 + (b2 - 128) * 4096 + (b3 - 128) * 64 + (b4 - 128))%N :: from_utf8_lossy r4
              end
          end
      end
  end.

Example from_utf8_lossy_ex : from_utf8_lossy [97; 240; 159; 65; 237; 160; 195; 169; 240; 159; 146; 169; 226]%N
  = [97; REPLACEMENT; 65; REPLACEMENT; REPLACEMENT; 233; 128169; REPLACEMENT]%N.
Proof. reflexivity. Qed.

(** ** Decoding inverts encoding *)

Lemma is_scalar_spec c : is_scalar c = true <-> (c < 55296 \/ 57344 <= c <= 1114111)%N.
Proof. unfold is_scalar. rewrite orb_true_iff, N.ltb_lt, in_range_spec. done. Qed.

(** Quotient and remainder as plain unknowns, for [lia]. *)
Lemma div_rem (n d : N) : (0 < d)%N -> exists q r, (n / d = q /\ n mod d = r /\ n = d * q + r /\ r < d)%N.
Proof.
  intros Hd. exists (n / d)%N, (n mod d)%N. split_and!; [done..| |by apply N.mod_lt; lia].
  apply N.div_mod. lia.
Qed.

Ltac quot n d := let q := fresh "q" in let r := fresh "r" in let E1 := fresh in let E2 := fresh in
  destruct (div_rem n d) as (q & r & E1 & E2 & ? & ?); [lia|]; rewrite ?E1, ?E2 in *; clear E1 E2.

Lemma from_utf16_encode s : Forall (fun c => is_scalar c = true) s -> from_utf16 (encode_utf16 s) = Some s.
Proof.
  induction 1 as [|c s Hc _ IH]; [done|]. unfold encode_utf16 in *. simpl.
  revert IH. generalize (concat (map encode_utf16_char s)). intros tl IH.
  apply is_scalar_spec in Hc. unfold encode_utf16_char. destruct (N.ltb_spec c 65536) as [Hlt|Hge].
  - cbn [app from_utf16]. rewrite IH.
    assert ((N.ltb c 55296 || N.leb 57344 c)%bool = true) as ->; [|done].
    apply orb_true_iff. rewrite N.ltb_lt, N.leb_le. lia.
  - quot (c - 65536)%N 1024%N. cbn [app from_utf16]. rewrite IH.
    assert ((N.ltb (55296 + q) 55296 || N.leb 57344 (55296 + q))%bool = false) as ->.
    { apply orb_false_iff. rewrite N.ltb_ge, N.leb_gt. lia. }
    assert (N.leb 56320 (55296 + q) = false) as -> by (apply N.leb_gt; lia).
    assert (in_range 56320 57343 (56320 + r) = true) as -> by (apply in_range_spec; lia).
    simpl. do 2 f_equal. lia.
Qed.

Lemma is_cont_spec n : (n < 64)%N -> is_cont (128 + n) = true.
Proof. intros. apply in_range_spec. lia. Qed.

Lemma from_utf8_encode s : Forall (fun c => is_scalar c = true) s -> from_utf8 (encode_utf8 s) = Some s.
Proof.
  induction 1 as [|c s Hc _ IH]; [done|]. unfold encode_utf8 in *. simpl.
  revert IH. generalize (concat (map encode_utf8_char s)). intros tl IH.
  pose proof (proj1 (is_scalar_spec c) Hc) as Hs. unfold encode_utf8_char.
  destruct (N.ltb_spec c 128); [cbn [app from_utf8]; rewrite IH; by rewrite (proj2 (N.ltb_lt c 128))|].
  destruct (N.ltb_spec c 2048); [|destruct (N.ltb_spec c 65536)].
  - quot c 64%N. cbn [app from_utf8]. rewrite IH, (is_cont_spec r) by done. simpl negb. cbn [negb].
    assert (N.ltb (192 + q) 128 = false) as -> by (apply N.ltb_ge; lia).
    assert (in_range 194 223 (192 + q) = true) as -> by (apply in_range_spec; lia).
    simpl. do 2 f_equal. lia.
  - assert (E64 : (c / 4096 = c / 64 / 64)%N) by (by rewrite N.Div0.div_div).
    rewrite E64. clear E64. quot c 64%N. quot q 64%N. cbn [app from_utf8]. rewrite IH, !is_cont_spec by done. cbn [negb].
    assert (N.ltb (224 + q0) 128 = false) as -> by (apply N.ltb_ge; lia).
    assert (in_range 194 223 (224 + q0) = false) as -> by (apply in_range_false; lia).
    assert (in_range 224 239 (224 + q0) = true) as -> by (apply in_range_spec; lia).
    assert (((224 + q0 - 224) * 4096 + (128 + r0 - 128) * 64 + (128 + r - 128))%N = c) as -> by lia.
    rewrite Hc, (proj2 (N.leb_le 2048 c)) by done. done.
  - assert (E64 : (c / 4096 = c / 64 / 64)%N) by (by rewrite N.Div0.div_div).
    assert (E96 : (c / 262144 = c / 64 / 64 / 64)%N) by (by rewrite !N.Div0.div_div).
    rewrite E64, E96. clear E64 E96. quot c 64%N. quot q 64%N. quot q0 64%N.
    cbn [app from_utf8]. rewrite IH, !is_cont_spec by done. cbn [negb].
    assert (N.ltb (240 + q1) 128 = false) as -> by (apply N.ltb_ge; lia).
    assert (in_range 194 223 (240 + q1) = false) as -> by (apply in_range_false; lia).
    assert (in_range 224 239 (240 + q1) = false) as -> by (apply in_range_false; lia).
    assert (in_range 240 244 (240 + q1) = true) as -> by (apply in_range_spec; lia).
    assert (((240 + q1 - 240) * 262144 + (128 + r1 - 128) * 4096 + (128 + r0 - 128) * 64 + (128 + r - 128))%N = c) as -> by lia.
    assert (in_range 65536 1114111 c = true) as -> by (apply in_range_spec; lia). done.
Qed.
