(* ===== verification/StrBytes.v ===== *)
(** * Texts by byte offset

    The code indexes a [&str] by byte offsets into its UTF-8 encoding.  This
    file has the standard library's [is_char_boundary], [split_at] and slicing,
    which fail inside a character, and the combinator [while_lt] for the scans
    [while i < bytes.len() { .. }] whose steps jump ahead by varying amounts,
    with the lemma that bounds their iterations. *)

From S2P Require Import Prelude Encoding.

Definition CR : N := 13.
Definition LF : N := 10.

(** [str::is_char_boundary], on the bytes of a text. *)
Definition is_char_boundary (bytes : list N) (n : nat) : bool :=
  match n with
  | O => true
  | _ =>
      match bytes !! n with
      | Some b => negb (is_cont b)
      | None => Nat.eqb n (length bytes)
      end
  end.

(** ** Bytes and characters *)

Definition blen (s : str) : nat := length (encode_utf8 s).

Lemma encode_utf8_app a b : encode_utf8 (a ++ b) = encode_utf8 a ++ encode_utf8 b.
Proof. unfold encode_utf8. by rewrite map_app, concat_app. Qed.

Lemma encode_utf8_cons c s : encode_utf8 (c :: s) = encode_utf8_char c ++ encode_utf8 s.
Proof. done. Qed.

Lemma blen_app a b : blen (a ++ b) = blen a + blen b.
Proof. unfold blen. by rewrite encode_utf8_app, length_app. Qed.

Lemma char_len c : length (encode_utf8_char c) = N.to_nat (len_utf8 c).
Proof. unfold encode_utf8_char, len_utf8. destruct (N.ltb c 128), (N.ltb c 2048), (N.ltb c 65536); done. Qed.

Lemma blen_cons c s : blen (c :: s) = N.to_nat (len_utf8 c) + blen s.
Proof. unfold blen. by rewrite encode_utf8_cons, length_app, char_len. Qed.

(** A character is one ASCII byte, or a lead byte and continuation bytes. *)
Lemma char_bytes c : (encode_utf8_char c = [c] /\ (c < 128)%N)
  \/ exists b bs, encode_utf8_char c = b :: bs /\ (192 <= b)%N /\ bs <> [] /\ Forall (fun x => is_cont x = true) bs /\ (128 <= c)%N.
Proof.
  unfold encode_utf8_char. destruct (N.ltb_spec c 128); [by left|]. right.
  assert (Hc : forall n, is_cont (128 + n mod 64) = true) by (intros n; apply is_cont_spec, N.mod_lt; lia).
  destruct (N.ltb c 2048), (N.ltb c 65536); eexists _, _; split_and!; try reflexivity; try done;
    try (repeat constructor; apply Hc); match goal with |- (192 <= _ + ?x)%N => generalize x; lia end.
Qed.

Lemma not_cont b : (b < 128 \/ 192 <= b)%N -> is_cont b = false.
Proof. intros. apply in_range_false. lia. Qed.

Lemma cont_high b : is_cont b = true -> (128 <= b)%N.
Proof. intros [? _]%in_range_spec. done. Qed.

(** The first byte of a text is ASCII exactly when its first character is. *)
Lemma head_byte s b : (b < 128)%N -> (encode_utf8 s !! 0 = Some b <-> s !! 0 = Some b).
Proof.
  intros Hb. destruct s as [|c s]; [done|]. rewrite encode_utf8_cons.
  destruct (char_bytes c) as [[-> _]|(b0 & bs & -> & H0 & _ & _ & Hc)]; [done|]. cbn. split; intros [= ->]; lia.
Qed.

Lemma last_byte s b : (b < 128)%N -> (last (encode_utf8 s) = Some b <-> last s = Some b).
Proof.
  intros Hb. destruct (decide (s = [])) as [->|Hne]; [done|]. destruct (exists_last Hne) as (s' & c & ->).
  rewrite encode_utf8_app, last_snoc. unfold encode_utf8 at 2. cbn [map concat]. rewrite app_nil_r.
  destruct (char_bytes c) as [[-> _]|(b0 & bs & -> & _ & Hbs & Hf & Hc)]; [by rewrite last_snoc|].
  destruct (exists_last Hbs) as (bs' & x & ->). rewrite app_comm_cons, app_assoc, last_snoc.
  apply Forall_app in Hf as [_ [Hx _]%Forall_cons]. apply cont_high in Hx. split; intros [= ->]; lia.
Qed.

Lemma boundary_end bytes : is_char_boundary bytes (length bytes) = true.
Proof. unfold is_char_boundary. destruct bytes as [|b bs]; [done|]. rewrite lookup_ge_None_2 by (simpl; lia). apply Nat.eqb_refl. Qed.

(** A boundary is a split of the text. *)
Lemma boundary_split s n : n <= blen s -> is_char_boundary (encode_utf8 s) n = true ->
  exists pre post, s = pre ++ post /\ n = blen pre.
Proof.
  revert n. induction s as [|c s IH]; intros n Hn Hb; [exists [], []; unfold blen in *; simpl in *; split; [done|lia]|].
  destruct n as [|n]; [by exists [], (c :: s)|]. rewrite blen_cons in Hn. rewrite encode_utf8_cons in Hb.
  destruct (Nat.le_gt_cases (N.to_nat (len_utf8 c)) (S n)) as [Hge|Hlt].
  - destruct (IH (S n - N.to_nat (len_utf8 c))) as (pre & post & -> & Hpre); [lia| |].
    + unfold is_char_boundary in *. rewrite lookup_app_r, char_len in Hb by (rewrite char_len; lia).
      destruct (S n - N.to_nat (len_utf8 c)) as [|k] eqn:Ek; [done|].
      destruct (encode_utf8 s !! S k); [done|]. rewrite length_app, char_len in Hb. apply Nat.eqb_eq in Hb. apply Nat.eqb_eq. lia.
    + exists (c :: pre), post. split; [done|]. rewrite blen_cons. lia.
  - exfalso. unfold is_char_boundary in Hb. rewrite lookup_app_l in Hb by (rewrite char_len; lia).
    destruct (char_bytes c) as [[E Hc]|(b & bs & E & _ & _ & Hf & _)].
    + unfold len_utf8 in Hlt. rewrite (proj2 (N.ltb_lt _ _) Hc) in Hlt. lia.
    + rewrite E in Hb. cbn in Hb. destruct (bs !! n) as [x|] eqn:Ex.
      * rewrite Forall_forall in Hf. by rewrite (Hf x) in Hb by (by eapply list_elem_of_lookup_2).
      * apply lookup_ge_None in Ex. rewrite <- char_len, E in Hlt. simpl in Hlt. lia.
Qed.

Lemma split_boundary pre post : is_char_boundary (encode_utf8 (pre ++ post)) (blen pre) = true.
Proof.
  rewrite encode_utf8_app. unfold blen, is_char_boundary. destruct (length (encode_utf8 pre)) as [|n] eqn:E; [done|]. rewrite <- E.
  rewrite lookup_app_r, Nat.sub_diag by lia. destruct post as [|c post]; [cbn; rewrite app_nil_r; apply Nat.eqb_refl|].
  rewrite encode_utf8_cons. destruct (char_bytes c) as [[-> Hc]|(b & bs & -> & Hb & _)]; cbn; rewrite not_cont; (done || lia).
Qed.

(** An ASCII byte of a text is one of its characters. *)
Lemma ascii_split s n b : encode_utf8 s !! n = Some b -> (b < 128)%N -> exists pre post, s = pre ++ b :: post /\ n = blen pre.
Proof.
  intros Hn Hb. assert (Hlt : n < blen s) by (by eapply lookup_lt_Some). assert (Hbd : is_char_boundary (encode_utf8 s) n = true).
  { destruct n as [|n]; [done|]. unfold is_char_boundary. by rewrite Hn, not_cont by lia. }
  apply boundary_split in Hbd as (pre & post & -> & ->); [|lia]. exists pre. destruct post as [|c post]; [rewrite app_nil_r in Hlt; lia|].
  exists post. rewrite encode_utf8_app, lookup_app_r in Hn by (unfold blen; lia). unfold blen in Hn. rewrite Nat.sub_diag in Hn.
  apply (head_byte (c :: post)) in Hn; [|done]. by injection Hn as ->.
Qed.

(** ** Slices *)

(** [str::split_at]: [None] is the panic past the end or inside a character. *)
Fixpoint split_at (s : str) (n : nat) : option (str * str) :=
  match n with
  | O => Some ([], s)
  | _ =>
      match s with
      | [] => None
      | c :: s' =>
          let w := N.to_nat (len_utf8 c) in
          if Nat.leb w n then '(a, b) ← split_at s' (n - w); Some (c :: a, b) else None
      end
  end.

(** [&s[n..]]. *)
Definition slice_from (s : str) (n : nat) : option str := snd <$> split_at s n.

(** [&s[a..b]], and [s.get(a..b)]. *)
Definition slice (s : str) (a b : nat) : option str :=
  if Nat.leb a b then r ← slice_from s a; fst <$> split_at r (b - a) else None.

Lemma len_utf8_pos c : 1 <= N.to_nat (len_utf8 c).
Proof. unfold len_utf8. repeat destruct (N.ltb _ _); lia. Qed.

Lemma len_utf8_ascii c : (c < 128)%N -> len_utf8 c = 1%N.
Proof. intros H. unfold len_utf8. by rewrite (proj2 (N.ltb_lt _ _) H). Qed.

Lemma blen_nil_inv s : blen s = 0 -> s = [].
Proof. destruct s as [|c s]; [done|]. rewrite blen_cons. pose proof (len_utf8_pos c). lia. Qed.

Lemma split_at_app a b : split_at (a ++ b) (blen a) = Some (a, b).
Proof.
  induction a as [|c a IH]; [by destruct b|]. rewrite blen_cons. cbn [app split_at].
  pose proof (len_utf8_pos c). destruct (N.to_nat (len_utf8 c) + blen a) as [|n] eqn:E; [lia|]. rewrite <- E.
  rewrite (proj2 (Nat.leb_le _ _)) by lia. rewrite Nat.add_comm, Nat.add_sub, IH. done.
Qed.

Lemma split_at_some s n a b : split_at s n = Some (a, b) -> s = a ++ b /\ n = blen a.
Proof.
  revert n a b. induction s as [|c s IH]; intros [|n] a b; cbn; intros H; simplify_eq; [done..|].
  destruct (Nat.leb_spec (N.to_nat (len_utf8 c)) (S n)) as [Hle|]; [|done]. cbn in H.
  destruct (split_at s _) as [[a' b']|] eqn:E; [|done]. cbn in H. simplify_eq.
  apply IH in E as [-> E]. split; [done|]. rewrite blen_cons. lia.
Qed.

Lemma slice_from_app a b : slice_from (a ++ b) (blen a) = Some b.
Proof. unfold slice_from. by rewrite split_at_app. Qed.

Lemma slice_app a b c : slice (a ++ b ++ c) (blen a) (blen a + blen b) = Some b.
Proof.
  unfold slice. rewrite (proj2 (Nat.leb_le _ _)) by lia. rewrite slice_from_app. cbn.
  replace (blen a + blen b - blen a) with (blen b) by lia. by rewrite split_at_app.
Qed.

(** ** Scanning loops

    [while i < len { .. } exit], where the state [s] of the loop holds the index
    [idx s]; an iteration goes on with a new state ([inl]) or returns ([inr]). *)
Fixpoint while_fuel {S A} (fuel len : nat) (idx : S -> nat) (step : S -> S + A) (exit : S -> A) (s : S) : option A :=
  if Nat.ltb (idx s) len then
    match fuel with
    | O => None
    | Datatypes.S fuel' => match step s with inl s' => while_fuel fuel' len idx step exit s' | inr a => Some a end
    end
  else Some (exit s).

(** An iteration moves at least one byte ahead, so [len - idx s] of them are
    enough. *)
Definition while_st {S A} (len : nat) (idx : S -> nat) (step : S -> S + A) (exit : S -> A) (s : S) : option A :=
  while_fuel (len - idx s) len idx step exit s.

(** The loop whose exit does not look at the state. *)
Definition while_lt {S A} (len : nat) (idx : S -> nat) (step : S -> S + A) (exit : A) : S -> option A :=
  while_st len idx step (fun _ => exit).

Section while_st.
Context {S A : Type} (len : nat) (idx : S -> nat) (step : S -> S + A) (exit : S -> A).

Definition advances : Prop := forall s s', idx s < len -> step s = inl s' -> idx s < idx s'.

Context (Hadv : advances).

Lemma while_fuel_enough n m s : len - idx s <= n -> len - idx s <= m ->
  while_fuel n len idx step exit s = while_fuel m len idx step exit s.
Proof using Hadv.
  revert m s. induction n as [|n IH]; intros m s Hn Hm; destruct m as [|m]; cbn [while_fuel];
    destruct (Nat.ltb_spec (idx s) len); try done; try lia.
  destruct (step s) as [j|a] eqn:E; [|done]. apply Hadv in E; [|done]. apply IH; lia.
Qed.

(** The loop's equation. *)
Lemma while_st_unfold s : while_st len idx step exit s =
  if Nat.ltb (idx s) len then match step s with inl s' => while_st len idx step exit s' | inr a => Some a end else Some (exit s).
Proof using Hadv.
  unfold while_st at 1. destruct (len - idx s) as [|n] eqn:E; cbn [while_fuel];
    destruct (Nat.ltb_spec (idx s) len); try done; [lia|].
  destruct (step s) as [j|a] eqn:Es; [|done]. apply Hadv in Es; [|done]. apply while_fuel_enough; lia.
Qed.

(** The loop returns, and with an invariant [I] of its state its answer
    satisfies [P]. *)
Lemma while_st_ind (I : S -> Prop) (P : A -> Prop) s :
  (forall s s', idx s < len -> I s -> step s = inl s' -> I s') ->
  (forall s a, idx s < len -> I s -> step s = inr a -> P a) ->
  (forall s, len <= idx s -> I s -> P (exit s)) ->
  I s -> exists a, while_st len idx step exit s = Some a /\ P a.
Proof using Hadv.
  intros Hstep Hret Hexit.
  enough (H : forall n s, len - idx s <= n -> I s -> exists a, while_st len idx step exit s = Some a /\ P a)
    by (intros HI; by apply (H (len - idx s))).
  clear s. intros n. induction n as [|n IH]; intros s Hle HI; rewrite while_st_unfold;
    destruct (Nat.ltb_spec (idx s) len) as [Hi|Hi]; try (exists (exit s); split; [done|by apply (Hexit s)]); [lia|].
  destruct (step s) as [j|a] eqn:E; [|exists a; split; [done|by apply (Hret s)]].
  apply IH; [|by apply (Hstep s)]. apply Hadv in E; [lia|done].
Qed.
End while_st.

Section while_lt.
Context {S A : Type} (len : nat) (idx : S -> nat) (step : S -> S + A) (exit : A).
Context (Hadv : advances len idx step).

Lemma while_lt_unfold s : while_lt len idx step exit s =
  if Nat.ltb (idx s) len then match step s with inl s' => while_lt len idx step exit s' | inr a => Some a end else Some exit.
Proof using Hadv. by apply while_st_unfold. Qed.

Lemma while_lt_ind (I : S -> Prop) (P : A -> Prop) s :
  (forall s s', idx s < len -> I s -> step s = inl s' -> I s') ->
  (forall s a, idx s < len -> I s -> step s = inr a -> P a) ->
  (forall s, len <= idx s -> I s -> P exit) ->
  I s -> exists a, while_lt len idx step exit s = Some a /\ P a.
Proof using Hadv. apply while_st_ind, Hadv. Qed.
End while_lt.

(** A loop that does the steps of another one, [c] bytes further on. *)
Lemma while_lt_shift {A B} len c (stepA : nat -> nat + A) (stepB : nat -> nat + B) (exit : A) (f : A -> B) i :
  (forall i, i < len -> stepB (c + i) = match stepA i with inl j => inl (c + j) | inr a => inr (f a) end) ->
  while_lt (c + len) id stepB (f exit) (c + i) = f <$> while_lt len id stepA exit i.
Proof.
  intros H. unfold while_lt, while_st, id. replace (c + len - (c + i)) with (len - i) by lia. generalize (len - i) at 1 2. intros n. revert i.
  induction n as [|n IH]; intros i; cbn [while_fuel]; replace (Nat.ltb (c + i) (c + len)) with (Nat.ltb i len)
    by (apply eq_true_iff_eq; rewrite !Nat.ltb_lt; lia); destruct (Nat.ltb_spec i len); try done.
  rewrite H by done. destruct (stepA i); [apply IH|done].
Qed.
