(* ===== verification/Package.v ===== *)
(** * Package identities ([crates/nuget/src/package.rs], first half)

    [PackageId], [PackageIdentity] and the paths they name in the global
    packages folder, with the records of a nuspec and the choice of a dependency
    group.  Target frameworks ([framework.rs]) are the class [Framework].  Paths
    are Unix paths.

    The theorems: ids follow their grammar; equality, order, hash and folder name
    agree, for ids and for identities; and a package folder is inside its root. *)

From S2P Require Import Prelude Order Version Range Encoding.

(** ** Package ids *)

Inductive PackageIdParseError :=
| PackageId_Empty
| InvalidBoundary (value : str)
| InvalidSeparatorRun (value : str) (index : N)
| InvalidChar (value : str) (index : N) (c : char).

Record PackageId := PackageId_new { as_str : str }.

Definition id_char_ok (c : char) : bool :=
  (is_ascii_alphanumeric c || N.eqb c (#c".") || N.eqb c (#c"_") || N.eqb c (#c"-"))%bool.
Definition dot_dash (c : char) : bool := (N.eqb c (#c".") || N.eqb c (#c"-"))%bool.

(** The loop over [char_indices]: [index] is the byte offset of the text left. *)
Fixpoint scan_id (value : str) (index : N) (previous_dot_dash : bool) (s : str)
    : result unit PackageIdParseError :=
  match s with
  | [] => Ok tt
  | c :: s' =>
      if negb (id_char_ok c) then Err (InvalidChar value index c)
      else if (previous_dot_dash && dot_dash c)%bool then Err (InvalidSeparatorRun value index)
      else scan_id value (index + len_utf8 c) (dot_dash c) s'
  end.

Definition valid_boundary (c : char) : bool := (is_ascii_alphanumeric c || N.eqb c (#c"_"))%bool.
Definition opt_holds {A} (p : A -> bool) (o : option A) : bool :=
  match o with Some a => p a | None => false end.

Definition PackageId_parse (input : str) : result PackageId PackageIdParseError :=
  let trimmed := trim input in
  if is_empty trimmed then Err PackageId_Empty
  else
    let? _ := scan_id trimmed 0 false trimmed in
    if (negb (opt_holds valid_boundary (hd_error trimmed))
        || negb (opt_holds valid_boundary (last trimmed)))%bool
    then Err (InvalidBoundary trimmed)
    else Ok (PackageId_new trimmed).

Definition folder_name (id : PackageId) : str := lower (as_str id).

Definition PackageId_eqb (a b : PackageId) : bool := eq_ignore_ascii_case (as_str a) (as_str b).

(** Byte order of UTF-8 is code point order, so comparing the lower-cased bytes
    is comparing the lower-cased scalar values. *)
Definition PackageId_cmp (a b : PackageId) : comparison :=
  list_cmp N.compare (lower (as_str a)) (lower (as_str b)).

Definition PackageId_hash (id : PackageId) : list hash_write :=
  write_usize (length (encode_utf8 (as_str id)))
  :: map (fun b => write_u8 (to_ascii_lowercase b)) (encode_utf8 (as_str id)).

(** ** Identities and paths *)

Record PackageIdentity := PackageIdentity_new { id : PackageId; version : NuGetVersion }.

(** [Path::join], for Unix paths. *)
Definition path_join (p q : str) : str :=
  if starts_with_char (#c"/") q then q
  else if (is_empty p || ends_with_char (#c"/") p)%bool then p ++ q
  else p ++ #"/" ++ q.

Definition version_folder_name (i : PackageIdentity) : str :=
  lower (NuGetVersion_to_normalized_string (version i)).

Definition cache_relative_path (i : PackageIdentity) : str :=
  path_join (folder_name (id i)) (version_folder_name i).

Definition PackageIdentity_eqb (a b : PackageIdentity) : bool :=
  (PackageId_eqb (id a) (id b) && eq_strict (version a) (version b))%bool.

Definition PackageIdentity_hash (i : PackageIdentity) : list hash_write :=
  let v := version i in
  PackageId_hash (id i)
  ++ [write_u32 (major v); write_u32 (minor v); write_u32 (patch v); write_u32 (revision v);
      write_usize (length (release_labels v))]
  ++ concat (map (fun l => map (fun b => write_u8 (to_ascii_lowercase b)) (encode_utf8 l) ++ [write_u8 255])
               (release_labels v)).

Record PackagePaths := { package_dir : str; metadata_path : str; nuspec_path : str }.

Definition PackagePaths_new (global_packages_root : str) (i : PackageIdentity) : PackagePaths :=
  let package_dir := path_join global_packages_root (cache_relative_path i) in
  let id_folder := folder_name (id i) in
  {| metadata_path := path_join package_dir (#".nupkg.metadata");
     nuspec_path := path_join package_dir (id_folder ++ #".nuspec");
     package_dir := package_dir |}.

(** ** Target frameworks, as this module uses them *)

Class Framework (F : Type) := {
  FrameworkParseError : Type;
  NuGetFramework_parse : str -> result F FrameworkParseError;
  any_framework : F;
  NuGetFramework_parse_any : NuGetFramework_parse (#"any") = Ok any_framework;
  (* the position of the chosen candidate *)
  get_nearest_reducer : F -> list F -> option nat;
  get_nearest_reducer_lt : forall f candidates n,
    get_nearest_reducer f candidates = Some n -> n < length candidates;
  is_resolver_project_framework : F -> bool }.

(** ** Nuspecs *)

Section nuspec.
Context {F : Type} `{Framework F}.

Record PackageDependency := {
  dependency_id : PackageId;
  version_range : option VersionRange;
  include : option str;
  exclude : option str }.

Record PackageDependencyGroup := {
  group_target_framework : F;
  dependencies : list PackageDependency }.

Record PackageReferenceGroup := {
  reference_target_framework : F;
  files : list str }.

Record PackageNuspec := {
  dependency_groups : list PackageDependencyGroup;
  reference_groups : list PackageReferenceGroup }.

Definition select_dependency_group_index (n : PackageNuspec) (project : F) : option nat :=
  get_nearest_reducer project (map group_target_framework (dependency_groups n)).

(** The outer [option] is the panic of an index out of range. *)
Definition select_dependency_group (n : PackageNuspec) (project : F) : option (option PackageDependencyGroup) :=
  match select_dependency_group_index n project with
  | None => Some None
  | Some index => Some <$> dependency_groups n !! index
  end.
End nuspec.
Arguments PackageDependencyGroup F : clear implicits.
Arguments PackageReferenceGroup F : clear implicits.
Arguments PackageNuspec F : clear implicits.

(** ** Ids compare, hash and name folders by their lower-cased spelling *)

#[export] Instance PackageId_cmp_laws : TotalCmp PackageId_cmp.
Proof. apply (cmp_on_total (fun i => lower (as_str i)) (list_cmp N.compare)), _. Qed.

Lemma PackageId_cmp_eq a b : PackageId_cmp a b = Eq <-> folder_name a = folder_name b.
Proof. apply list_cmp_N_eq. Qed.

Lemma PackageId_eqb_spec a b : PackageId_eqb a b = true <-> PackageId_cmp a b = Eq.
Proof. rewrite PackageId_cmp_eq. apply eq_ignore_ascii_case_spec. Qed.

Example id_ex : PackageId_parse (#" FSharp.Core ") = Ok (PackageId_new (#"FSharp.Core"))
  /\ PackageId_parse (#"a..b") = Err (InvalidSeparatorRun (#"a..b") 2)
  /\ PackageId_parse (#"../x") = Err (InvalidSeparatorRun (#"../x") 1)
  /\ PackageId_parse (#"a/b") = Err (InvalidChar (#"a/b") 1 (#c"/"))
  /\ PackageId_parse (#"-a") = Err (InvalidBoundary (#"-a")).
Proof. vm_compute. auto. Qed.

(** ** The grammar of ids *)

(** No two neighbours are both ['.'] or ['-']. *)
Definition separated (s : str) : Prop :=
  forall k a b, s !! k = Some a -> s !! S k = Some b -> (dot_dash a && dot_dash b)%bool = false.

Definition id_wf (s : str) : Prop :=
  s <> [] /\ Forall (fun c => id_char_ok c = true) s /\ separated s
  /\ opt_holds valid_boundary (hd_error s) = true /\ opt_holds valid_boundary (last s) = true.

Lemma separated_cons a s : separated (a :: s) <->
  (forall b, hd_error s = Some b -> (dot_dash a && dot_dash b)%bool = false) /\ separated s.
Proof.
  split.
  - intros H. split; [intros b Hb; apply (H 0); [done|by destruct s]|].
    intros k x y Hx Hy. by apply (H (S k)).
  - intros [Ha Hs] [|k] x y Hx Hy; simpl in *; [|by eapply Hs]. simplify_eq. apply Ha. by destruct s.
Qed.

Lemma scan_id_ok value index previous s : scan_id value index previous s = Ok tt <->
  Forall (fun c => id_char_ok c = true) s
  /\ (forall c, hd_error s = Some c -> (previous && dot_dash c)%bool = false) /\ separated s.
Proof.
  revert index previous. induction s as [|c s IH]; intros index previous; simpl.
  - split; [|done]. intros _. split_and!; [constructor|done|]. intros k a b Hk. by rewrite lookup_nil in Hk.
  - rewrite Forall_cons, separated_cons. destruct (id_char_ok c); cbn [negb]; [|by split; [|intros ([? _] & _)]].
    destruct (previous && dot_dash c)%bool eqn:Ep;
      [split; [done|intros (_ & Hp & _); specialize (Hp c eq_refl); congruence]|].
    rewrite IH. split; [intros (? & ? & ?)|intros ([_ ?] & _ & ? & ?)]; split_and!; try done. intros d [= <-]. done.
Qed.

Lemma id_char_not_ws c : id_char_ok c = true -> is_whitespace c = false /\ c <> #c"/" /\ c <> #c"\".
Proof.
  unfold id_char_ok, is_ascii_alphanumeric, is_ascii_alphabetic, is_ascii_upper, is_ascii_lower, is_ascii_digit.
  rewrite !orb_true_iff, !in_range_spec, !N.eqb_eq. chars. intros H. split; [|lia].
  unfold is_whitespace. repeat (apply orb_false_intro); try (apply in_range_false; lia); apply N.eqb_neq; lia.
Qed.

Lemma id_wf_trim s : id_wf s -> trim s = s.
Proof.
  intros (_ & Hc & _). apply trim_no_ws. eapply Forall_impl; [exact Hc|]. intros c. apply id_char_not_ws.
Qed.

Lemma PackageId_parse_ok s i : PackageId_parse s = Ok i <-> as_str i = trim s /\ id_wf (trim s).
Proof.
  unfold PackageId_parse, id_wf. destruct (trim s) as [|c t] eqn:Et; [by split; [|intros (_ & ? & _)]|]. cbn [is_empty].
  destruct (scan_id _ _ _ _) as [[]|e] eqn:Es; cbn [rbind].
  - apply scan_id_ok in Es as (Hc & _ & Hs). destruct (opt_holds valid_boundary (hd_error _)) eqn:E1,
      (opt_holds valid_boundary (last _)) eqn:E2; cbn [negb orb];
      try (split; [done|intros (_ & _ & _ & _ & ? & ?); congruence]).
    split; [intros [= <-]; done|]. intros [E _]. f_equal. destruct i as [x]. simpl in E. by subst.
  - split; [done|]. intros (_ & _ & Hc & Hs & _). exfalso.
    assert (scan_id (c :: t) 0 false (c :: t) = Ok tt) by (apply scan_id_ok; split_and!; [done|intros; by destruct (dot_dash _)|done]). congruence.
Qed.

Lemma id_char_lower c : id_char_ok (to_ascii_lowercase c) = id_char_ok c
  /\ dot_dash (to_ascii_lowercase c) = dot_dash c /\ valid_boundary (to_ascii_lowercase c) = valid_boundary c.
Proof.
  unfold to_ascii_lowercase. destruct (is_ascii_upper c) eqn:E; [|done]. apply in_range_spec in E.
  assert (is_ascii_lower (c + 32) = true) by (apply in_range_spec; lia).
  assert (Hup : is_ascii_upper c = true) by (by apply in_range_spec).
  unfold id_char_ok, dot_dash, valid_boundary, is_ascii_alphanumeric, is_ascii_alphabetic. rewrite H, Hup, !orb_true_r. cbn [orb].
  split_and!; [done| |done]. chars. by repeat match goal with |- context [N.eqb ?a ?b] => destruct (N.eqb_spec a b); [lia|] end.
Qed.

Lemma lower_lookup s k c : lower s !! k = Some c -> exists d, s !! k = Some d /\ c = to_ascii_lowercase d.
Proof. unfold lower. rewrite list_lookup_fmap. intros (d & -> & ->)%fmap_Some. eauto. Qed.

Lemma lower_boundary (f : str -> option char) s : (f (lower s) = to_ascii_lowercase <$> f s) ->
  opt_holds valid_boundary (f (lower s)) = opt_holds valid_boundary (f s).
Proof. intros ->. destruct (f s) as [c|]; [|done]. simpl. apply id_char_lower. Qed.

Lemma id_wf_lower s : id_wf s -> id_wf (lower s).
Proof.
  intros (Hne & Hc & Hs & H1 & H2). split_and!.
  - by destruct s.
  - unfold lower. apply Forall_map. eapply Forall_impl; [exact Hc|]. intros c Hok. simpl. by rewrite (proj1 (id_char_lower c)).
  - intros k a b (a' & Ha & ->)%lower_lookup (b' & Hb & ->)%lower_lookup.
    rewrite (proj1 (proj2 (id_char_lower a'))), (proj1 (proj2 (id_char_lower b'))). by eapply Hs.
  - rewrite (lower_boundary hd_error); [done|]. by destruct s.
  - rewrite (lower_boundary last); [done|]. unfold lower. by rewrite fmap_last.
Qed.

(** The grammar of package ids: [parse] accepts exactly the texts that, once
    trimmed, are non-empty, made of ASCII letters, digits, ['.'], ['_'] and
    ['-'], without two adjacent separators and without a separator at either
    end; the id is the trimmed text, and parsing an id again gives it back. *)
Theorem PackageId_parse_grammar s i :
  (PackageId_parse s = Ok i <-> as_str i = trim s /\ id_wf (trim s))
  /\ (PackageId_parse s = Ok i -> PackageId_parse (as_str i) = Ok i).
Proof.
  split; [apply PackageId_parse_ok|]. intros (E & Hwf)%PackageId_parse_ok.
  apply PackageId_parse_ok. by rewrite E, (id_wf_trim _ Hwf).
Qed.

(** ** Identities name folders *)

(** Joining to a path whose last component is [t]. *)
Lemma path_join_after p t q : t <> [] -> Forall (fun c => c <> #c"/") t -> starts_with_char (#c"/") q = false ->
  path_join (p ++ t) q = (p ++ t) ++ #"/" ++ q.
Proof.
  intros Hne Ht Hq. unfold path_join. rewrite Hq.
  assert (ends_with_char (#c"/") (p ++ t) = false) as ->.
  { unfold ends_with_char. rewrite rev_app_distr. apply Forall_rev in Ht.
    destruct (rev t) as [|c u] eqn:E; [by apply (f_equal (@rev _)) in E; rewrite rev_involutive in E|]. simpl.
    apply Forall_cons in Ht as [Hc _]. unfold char_eqb. by apply N.eqb_neq. }
  destruct p; [by destruct t|done].
Qed.

Lemma path_join_plain p q : p <> [] -> Forall (fun c => c <> #c"/") p -> starts_with_char (#c"/") q = false ->
  path_join p q = p ++ #"/" ++ q.
Proof. apply (path_join_after []). Qed.

Lemma app_sep_inj {A} (x : A) p p' q q' : Forall (fun c => c <> x) p -> Forall (fun c => c <> x) p' ->
  p ++ x :: q = p' ++ x :: q' -> p = p' /\ q = q'.
Proof.
  intros Hp. revert p'. induction Hp as [|a p Ha _ IH]; intros p' Hp' E; destruct Hp' as [|b p' Hb Hp'];
    simpl in E; simplify_eq; [done|]. destruct (IH p') as [-> ->]; done.
Qed.

(** A valid id over a valid version. *)
Definition identity_wf (i : PackageIdentity) : Prop := id_wf (as_str (id i)) /\ version_wf (version i) = true.

(** What the parsers return is such an identity. *)
Lemma identity_wf_texts a b i v : PackageId_parse a = Ok i -> NuGetVersion_parse b = Ok v ->
  identity_wf (PackageIdentity_new i v).
Proof. intros [E Hi]%PackageId_parse_ok Hv. split; [simpl; by rewrite E|]. by eapply parsed_version_wf. Qed.

(** No separator of any platform. *)
Definition separator_free (s : str) : Prop := Forall (fun c => c <> #c"/" /\ c <> #c"\") s.

Lemma separator_free_slash s : separator_free s -> Forall (fun c => c <> #c"/") s.
Proof. intros H. eapply Forall_impl; [exact H|]. by intros c [? _]. Qed.

Lemma folder_separator_free i : identity_wf i -> folder_name (id i) <> [] /\ separator_free (folder_name (id i)).
Proof.
  intros [Hid _]. apply id_wf_lower in Hid as (Hne & Hc & _). split; [done|]. eapply Forall_impl; [exact Hc|].
  intros c. apply id_char_not_ws.
Qed.

Lemma folder_no_slash i : identity_wf i -> folder_name (id i) <> [] /\ Forall (fun c => c <> #c"/") (folder_name (id i)).
Proof. intros [? ?]%folder_separator_free. split; [done|by apply separator_free_slash]. Qed.

Lemma version_folder_separator_free i : identity_wf i -> separator_free (version_folder_name i).
Proof.
  intros [_ Hv]. unfold version_folder_name, lower. apply Forall_map. eapply Forall_impl; [by apply normalized_chars|].
  intros c. unfold version_char, is_part_byte, is_ascii_alphanumeric, is_ascii_alphabetic, to_ascii_lowercase, is_ascii_lower, is_ascii_digit.
  destruct (is_ascii_upper c) eqn:E; [apply in_range_spec in E; chars; lia|].
  rewrite !orb_true_iff, !in_range_spec, !N.eqb_eq. chars. intros Hc. destruct_or? Hc; (discriminate Hc || lia).
Qed.

Lemma version_folder_no_slash i : identity_wf i -> Forall (fun c => c <> #c"/") (version_folder_name i).
Proof. intros ?. by apply separator_free_slash, version_folder_separator_free. Qed.

Lemma version_folder_digit i : exists c t, version_folder_name i = c :: t /\ is_ascii_digit c = true.
Proof.
  unfold version_folder_name. rewrite normalized_string_assemble. unfold assemble, version_nums.
  destruct (show_N_spec (major (version i))) as (Hne & Hd & _). cbn [app map join].
  destruct (show_N (major (version i))) as [|c t]; [done|]. simpl in Hd. apply andb_true_iff in Hd as [Hd _].
  simpl. eexists _, _. split; [done|]. by rewrite lower_digit_iff.
Qed.

Lemma no_slash_start s : Forall (fun c => c <> #c"/") s -> starts_with_char (#c"/") s = false.
Proof. destruct 1 as [|c s Hc _]; [done|]. simpl. unfold char_eqb. by apply N.eqb_neq. Qed.

Lemma cache_relative_path_eq i : identity_wf i ->
  cache_relative_path i = folder_name (id i) ++ #"/" ++ version_folder_name i.
Proof.
  intros Hwf. destruct (folder_no_slash i Hwf). apply path_join_plain; [done..|].
  by apply no_slash_start, version_folder_no_slash.
Qed.

Lemma lower_encode_utf8 s : map to_ascii_lowercase (encode_utf8 s) = encode_utf8 (lower s).
Proof.
  unfold encode_utf8, lower. rewrite concat_map, !map_map. f_equal. apply map_ext. intros c.
  unfold encode_utf8_char. destruct (N.ltb_spec c 128) as [Hlt|Hge].
  - simpl. assert (Hl : (to_ascii_lowercase c < 128)%N).
    { unfold to_ascii_lowercase. destruct (is_ascii_upper c) eqn:E; [apply in_range_spec in E; lia|done]. }
    by rewrite (proj2 (N.ltb_lt _ _) Hl).
  - assert (Hhi : forall d, (128 <= d)%N -> to_ascii_lowercase d = d).
    { intros d Hd. unfold to_ascii_lowercase. assert (is_ascii_upper d = false) as -> by (apply in_range_false; lia). done. }
    rewrite (Hhi c) by lia. rewrite (proj2 (N.ltb_ge _ _) Hge).
    destruct (N.ltb c 2048), (N.ltb c 65536); cbn [map];
      rewrite !Hhi by (match goal with |- (128 <= _ + ?x)%N => generalize x; lia end); done.
Qed.

Lemma PackageId_hash_folder i : PackageId_hash i =
  write_usize (length (encode_utf8 (folder_name i))) :: map write_u8 (encode_utf8 (folder_name i)).
Proof.
  unfold PackageId_hash, folder_name. rewrite <- lower_encode_utf8, length_map, map_map. done.
Qed.

Lemma hash_labels_lower ls :
  concat (map (fun l => map (fun b => write_u8 (to_ascii_lowercase b)) (encode_utf8 l) ++ [write_u8 255]) ls)
  = concat (map (fun l => map write_u8 (encode_utf8 l) ++ [write_u8 255]) (map lower ls)).
Proof.
  rewrite map_map. f_equal. apply map_ext. intros l. f_equal. by rewrite <- lower_encode_utf8, map_map.
Qed.

(** Ids are their folders: equality, the order and the folder name agree on
    every pair of ids, the order is total, and equal ids feed the same bytes to
    a hasher. *)
Theorem PackageId_eq_folder a b :
  (PackageId_eqb a b = true <-> folder_name a = folder_name b)
  /\ (PackageId_cmp a b = Eq <-> folder_name a = folder_name b)
  /\ TotalCmp PackageId_cmp
  /\ (PackageId_eqb a b = true -> PackageId_hash a = PackageId_hash b).
Proof.
  rewrite PackageId_eqb_spec, PackageId_cmp_eq. split_and!; [done..|apply _|].
  intros E. by rewrite !PackageId_hash_folder, E.
Qed.

(** Identities are their cache folders: two identities with valid ids and
    versions are equal exactly when they have the same path in the global
    packages folder (case, leading zeros, build metadata and a zero fourth
    number aside), and equal identities hash alike. *)
Theorem PackageIdentity_eq_path a b : identity_wf a -> identity_wf b ->
  (PackageIdentity_eqb a b = true <-> cache_relative_path a = cache_relative_path b)
  /\ (PackageIdentity_eqb a b = true -> PackageIdentity_hash a = PackageIdentity_hash b).
Proof.
  intros Ha Hb. unfold PackageIdentity_eqb. rewrite andb_true_iff, PackageId_eqb_spec, PackageId_cmp_eq. split.
  - rewrite !cache_relative_path_eq by done. rewrite <- lower_normalized_eq_strict by (apply Ha || apply Hb). split.
    + intros [E1 E2]. unfold version_folder_name. by rewrite E1, E2.
    + intros E. apply (app_sep_inj (#c"/")) in E; [done|by apply folder_no_slash..].
  - intros [E1 (Em & En & Ep & Er & El)%eq_strict_spec]. unfold PackageIdentity_hash.
    rewrite !PackageId_hash_folder, E1, !hash_labels_lower, El, Em, En, Ep, Er.
    by rewrite <- (length_map lower (release_labels (version a))), El, length_map.
Qed.

(** One component of a path, and not one that names a directory above. *)
Definition plain_component (s : str) : Prop :=
  s <> [] /\ s <> #"." /\ s <> #".." /\ separator_free s.

(** The root with its separator. *)
Definition root_prefix (root : str) : str :=
  if (is_empty root || ends_with_char (#c"/") root)%bool then root else root ++ #"/".

Lemma identity_plain i : identity_wf i ->
  plain_component (folder_name (id i)) /\ plain_component (version_folder_name i)
  /\ plain_component (folder_name (id i) ++ #".nuspec").
Proof.
  intros Hwf. destruct (folder_separator_free i Hwf) as [Hfne Hf]. pose proof (version_folder_separator_free i Hwf) as Hv.
  destruct (id_wf_lower _ (proj1 Hwf)) as (_ & _ & _ & H1 & _). fold (folder_name (id i)) in H1.
  destruct (version_folder_digit i) as (c & t & Ev & Hd). unfold plain_component. split_and!; try done.
  - intros E. by rewrite E in H1.
  - intros E. by rewrite E in H1.
  - by rewrite Ev.
  - rewrite Ev. intros E. vm_compute in E. by simplify_eq.
  - rewrite Ev. intros E. vm_compute in E. by simplify_eq.
  - by destruct (folder_name (id i)).
  - intros E%(f_equal length). rewrite length_app in E. simpl in E. lia.
  - intros E%(f_equal length). rewrite length_app in E. simpl in E. lia.
  - apply Forall_app. split; [done|]. repeat (constructor; [done|]). constructor.
Qed.

(** C40: No text escapes the global packages folder: whatever id and version
    texts the parsers accept, the package folder is the root, then the folder of
    the id, then the folder of the version, and the commit marker and the nuspec
    are in it; each is one component, without a slash or backslash, not empty and
    neither [.] nor [..]. *)
Theorem package_dir_inside root a b i v : PackageId_parse a = Ok i -> NuGetVersion_parse b = Ok v ->
  let identity := PackageIdentity_new i v in
  let paths := PackagePaths_new root identity in
  package_dir paths = root_prefix root ++ folder_name i ++ #"/" ++ version_folder_name identity
  /\ metadata_path paths = package_dir paths ++ #"/.nupkg.metadata"
  /\ nuspec_path paths = package_dir paths ++ #"/" ++ folder_name i ++ #".nuspec"
  /\ Forall plain_component [folder_name i; version_folder_name identity; folder_name i ++ #".nuspec"].
Proof.
  intros Ha Hb identity paths. assert (Hwf : identity_wf identity) by (by eapply identity_wf_texts).
  destruct (folder_no_slash identity Hwf) as [Hfne Hf]. pose proof (version_folder_no_slash identity Hwf) as Hv.
  destruct (identity_plain identity Hwf) as (P1 & P2 & P3).
  assert (Hdir : package_dir paths = root_prefix root ++ folder_name i ++ #"/" ++ version_folder_name identity).
  { cbn [paths PackagePaths_new package_dir]. rewrite cache_relative_path_eq by done. unfold path_join, root_prefix.
    assert (starts_with_char (#c"/") (folder_name (id identity) ++ #"/" ++ version_folder_name identity) = false) as ->.
    { apply no_slash_start in Hf. by destruct (folder_name (id identity)). }
    destruct (_ || _)%bool; [done|]. by rewrite <- app_assoc. }
  assert (Hin : forall q, starts_with_char (#c"/") q = false -> path_join (package_dir paths) q = package_dir paths ++ #"/" ++ q).
  { intros q Hq. rewrite Hdir, (app_assoc (folder_name i)), (app_assoc (root_prefix root)).
    apply path_join_after; [|done..].
    destruct (version_folder_digit identity) as (c & t & Ev & _). by rewrite Ev. }
  split_and!; [done|by apply (Hin (#".nupkg.metadata"))| |by apply Forall_cons; split; [|apply Forall_cons; split; [|apply Forall_singleton]]].
  apply (Hin (folder_name i ++ #".nuspec")). apply no_slash_start, separator_free_slash, P3.
Qed.

(** The identity an id and a version text name. *)
Definition identity_at (i v : str) : PackageIdentity :=
  PackageIdentity_new (PackageId_new i)
    (expect {| major := 0; minor := 0; patch := 0; revision := 0; release_labels := []; metadata := None |}
       (NuGetVersion_parse v)).

Lemma identity_wf_parsed i v p : PackageId_parse i = Ok (PackageId_new i) ->
  NuGetVersion_parse v = Ok p -> identity_wf (PackageIdentity_new (PackageId_new i) p).
Proof. apply identity_wf_texts. Qed.

Lemma PackageIdentity_eq_path_witness :
  cache_relative_path (identity_at (#"FSharp.Core") (#"4.7.0.0+a")) = cache_relative_path (identity_at (#"fsharp.core") (#"4.7")).
Proof.
  apply (PackageIdentity_eq_path (identity_at (#"FSharp.Core") (#"4.7.0.0+a")) (identity_at (#"fsharp.core") (#"4.7"))).
  - apply (identity_wf_parsed _ (#"4.7.0.0+a")); vm_compute; reflexivity.
  - apply (identity_wf_parsed _ (#"4.7")); vm_compute; reflexivity.
  - vm_compute. reflexivity.
Defined.

Lemma package_dir_inside_witness :
  package_dir (PackagePaths_new (#"/g") (identity_at (#"FSharp.Core") (#"4.7.0-RC"))) = #"/g/fsharp.core/4.7.0-rc".
Proof.
  destruct (package_dir_inside (#"/g") (#" FSharp.Core") (#"4.7.0-RC") (PackageId_new (#"FSharp.Core"))
    (version (identity_at (#"FSharp.Core") (#"4.7.0-RC")))) as [E _]; [vm_compute; reflexivity..|].
  unfold identity_at in *. cbn [version] in E. rewrite E. vm_compute. reflexivity.
Defined.

Lemma PackageId_parse_grammar_witness : PackageId_parse (#"FSharp.Core") = Ok (PackageId_new (#"FSharp.Core")).
Proof. apply (proj2 (PackageId_parse_grammar (#" FSharp.Core ") (PackageId_new (#"FSharp.Core")))). vm_compute. reflexivity. Defined.

Lemma PackageId_eq_folder_witness : PackageId_hash (PackageId_new (#"FSharp.Core")) = PackageId_hash (PackageId_new (#"fsharp.core")).
Proof.
  apply (PackageId_eq_folder (PackageId_new (#"FSharp.Core")) (PackageId_new (#"fsharp.core"))). vm_compute. reflexivity.
Defined.
