(* ===== verification/Nuspec.v ===== *)
(** * Reading installed packages ([crates/nuget/src/package.rs], second half)

    The nuspec projection from an XML tree, the decoding of nuspec bytes (UTF-8
    or UTF-16, with or without a byte-order mark), the lookup of the nuspec
    file, and the reading of one exact package or the listing of the committed
    versions of a package id, over an abstract file system. *)

From Stdlib Require Import Sorting.Sorted.
From S2P Require Import Prelude Order Version Range Encoding Package.

(** ** XML trees, as [roxmltree] presents them

    Attributes are the ones without a namespace, which [Node::attribute] finds
    by a plain name. *)
Inductive xml_node :=
| Element (namespace : option str) (name : str) (attributes : list (str * str)) (children : list xml_node)
| OtherNode.

Definition xml_children (n : xml_node) : list xml_node :=
  match n with Element _ _ _ cs => cs | OtherNode => [] end.
Definition xml_namespace (n : xml_node) : option str :=
  match n with Element ns _ _ _ => ns | OtherNode => None end.
Fixpoint assoc_str (k : str) (l : list (str * str)) : option str :=
  match l with
  | [] => None
  | (k', v) :: l' => if str_eqb k k' then Some v else assoc_str k l'
  end.
Definition attribute (n : xml_node) (name : str) : option str :=
  match n with Element _ _ attrs _ => assoc_str name attrs | OtherNode => None end.

Definition opt_str_eqb (a b : option str) : bool :=
  match a, b with
  | Some x, Some y => str_eqb x y
  | None, None => true
  | _, _ => false
  end.

Definition element_named (n : xml_node) (nuspec_namespace : option str) (local_name : str) : bool :=
  match n with
  | Element ns name _ _ => (str_eqb name local_name && opt_str_eqb ns nuspec_namespace)%bool
  | OtherNode => false
  end.

Definition non_empty_attr (n : xml_node) (name : str) : option str :=
  match trim <$> attribute n name with
  | Some s => if is_empty s then None else Some s
  | None => None
  end.

(** [all_versions_range]: the literal parses (lemma [all_versions_range_parses]). *)
Definition all_versions_range : VersionRange :=
  expect {| min := None; max := None; min_inclusive := false; max_inclusive := false; float := None |}
    (VersionRange_parse (#"(, )")).

Section parse_nuspec.
Context {F : Type} `{Framework F}.
(** [roxmltree::Document::parse], giving the root element. *)
Context {XmlError : Type} (parse_xml : str -> result xml_node XmlError).

Inductive PackageNuspecParseError :=
| Xml (e : XmlError)
| MissingDependencyId
| InvalidDependencyId (raw : str) (source : PackageIdParseError)
| InvalidDependencyVersionRange (id raw : str) (source : RangeParseError)
| InvalidTargetFramework (raw : str) (source : FrameworkParseError).

Definition parse_dependency (n : xml_node) : result PackageDependency PackageNuspecParseError :=
  let? raw_id := ok_or (attribute n (#"id")) MissingDependencyId in
  let? id := map_err (InvalidDependencyId raw_id) (PackageId_parse raw_id) in
  let? range :=
    match trim <$> attribute n (#"version") with
    | None => Ok all_versions_range
    | Some raw =>
        if is_empty raw then Ok all_versions_range
        else map_err (InvalidDependencyVersionRange (as_str id) raw) (VersionRange_parse raw)
    end in
  Ok {| dependency_id := id;
        version_range := Some range;
        include := non_empty_attr n (#"include");
        exclude := non_empty_attr n (#"exclude") |}.

Definition parse_target_framework (n : xml_node) : result F PackageNuspecParseError :=
  match attribute n (#"targetFramework") with
  | None => Ok any_framework
  | Some raw =>
      if is_empty raw then Ok any_framework
      else map_err (InvalidTargetFramework raw) (NuGetFramework_parse raw)
  end.

Definition parse_dependency_group (n : xml_node) (ns : option str)
    : result (PackageDependencyGroup F) PackageNuspecParseError :=
  let? target_framework := parse_target_framework n in
  let? dependencies :=
    rmapM parse_dependency (List.filter (fun c => element_named c ns (#"dependency")) (xml_children n)) in
  Ok {| group_target_framework := target_framework; dependencies := dependencies |}.

Definition reference_files (n : xml_node) (ns : option str) : list str :=
  List.filter (fun file => negb (is_empty file))
    (omap (fun c => attribute c (#"file"))
       (List.filter (fun c => element_named c ns (#"reference")) (xml_children n))).

Definition parse_reference_groups (metadata : xml_node) (ns : option str)
    : result (list (PackageReferenceGroup F)) PackageNuspecParseError :=
  let sections := List.filter (fun n => element_named n ns (#"references")) (xml_children metadata) in
  let? groups :=
    rmapM (fun group =>
        let? target_framework := parse_target_framework group in
        Ok {| reference_target_framework := target_framework; files := reference_files group ns |})
      (List.filter (fun c => element_named c ns (#"group")) (concat (map xml_children sections))) in
  if negb (is_empty groups) then Ok groups
  else
    let files := concat (map (fun s => reference_files s ns) sections) in
    if is_empty files then Ok []
    else Ok [{| reference_target_framework := any_framework; files := files |}].

Definition project_nuspec (root : xml_node) : result (PackageNuspec F) PackageNuspecParseError :=
  let ns := xml_namespace root in
  match List.find (fun n => element_named n ns (#"metadata")) (xml_children root) with
  | None => Ok {| dependency_groups := []; reference_groups := [] |}
  | Some metadata =>
      let? reference_groups := parse_reference_groups metadata ns in
      let sections := List.filter (fun n => element_named n ns (#"dependencies")) (xml_children metadata) in
      let has_group :=
        existsb (fun s => existsb (fun c => element_named c ns (#"group")) (xml_children s)) sections in
      let children := concat (map xml_children sections) in
      let? groups :=
        if has_group then
          rmapM (fun c => parse_dependency_group c ns)
            (List.filter (fun c => element_named c ns (#"group")) children)
        else
          let? deps :=
            rmapM parse_dependency (List.filter (fun c => element_named c ns (#"dependency")) children) in
          if is_empty deps then Ok []
          else Ok [{| group_target_framework := any_framework; dependencies := deps |}] in
      Ok {| dependency_groups := groups; reference_groups := reference_groups |}
  end.

Definition parse_nuspec (text : str) : result (PackageNuspec F) PackageNuspecParseError :=
  let? root := map_err Xml (parse_xml (strip_prefix_or 65279 text)) in
  project_nuspec root.
End parse_nuspec.
Arguments PackageNuspecParseError F {_} XmlError : assert.

(** ** Bytes to text *)

Inductive Utf16Endian := Little | Big.

Definition is_xml_ascii_byte (b : N) : bool :=
  (N.eqb b 9 || N.eqb b 10 || N.eqb b 13 || in_range 32 126 b)%bool.

(** [as_chunks::<2>().0]: complete pairs, a last odd byte dropped. *)
Fixpoint pairs {A} (l : list A) : list (A * A) :=
  match l with a :: b :: l' => (a, b) :: pairs l' | _ => [] end.

Definition starts_with (p s : list N) : bool := str_eqb p (take (length p) s).

Definition score (p : N * N -> bool) (l : list (N * N)) : nat := length (List.filter p l).

Definition detect_utf16 (bytes : list N) : option Utf16Endian :=
  if starts_with [255; 254]%N bytes then Some Little
  else if starts_with [254; 255]%N bytes then Some Big
  else
    let sample_len := 2 * (Nat.min (length bytes) 128 / 2) in
    if Nat.ltb sample_len 4 then None
    else
      let sample := pairs (take sample_len bytes) in
      let little_score := score (fun '(first, second) => (N.eqb second 0 && is_xml_ascii_byte first)%bool) sample in
      let big_score := score (fun '(first, second) => (N.eqb first 0 && is_xml_ascii_byte second)%bool) sample in
      match Nat.compare little_score big_score with
      | Gt => if Nat.leb 2 little_score then Some Little else None
      | Lt => if Nat.leb 2 big_score then Some Big else None
      | Eq => None
      end.

Inductive InvalidDataReason := Utf8Error | OddByteLength | Utf16Error.

Inductive IoError :=
| NotFound
| InvalidData (reason : InvalidDataReason)
| OtherIoError (code : N).

Definition decode_utf16 (bytes : list N) (endian : Utf16Endian) : result str IoError :=
  let bytes :=
    match endian with
    | Little => if starts_with [255; 254]%N bytes then drop 2 bytes else bytes
    | Big => if starts_with [254; 255]%N bytes then drop 2 bytes else bytes
    end in
  if negb (Nat.eqb (length bytes mod 2) 0) then Err (InvalidData OddByteLength)
  else
    let units :=
      map (fun '(a, b) => match endian with Little => a + 256 * b | Big => 256 * a + b end)%N (pairs bytes) in
    ok_or (from_utf16 units) (InvalidData Utf16Error).

Definition decode_nuspec_bytes (bytes : list N) : result str IoError :=
  match detect_utf16 bytes with
  | Some endian => decode_utf16 bytes endian
  | None => ok_or (from_utf8 bytes) (InvalidData Utf8Error)
  end.

(** ** The file system *)

Record DirEntry := {
  file_name : option str;               (* [None] when not Unicode *)
  is_file : bool;                       (* [path().is_file()] *)
  file_type_is_dir : result bool IoError }.

Class FileSystem := {
  fs_metadata : str -> result bool IoError;   (* [metadata(p)], then [is_file()] *)
  fs_read_dir : str -> result (list (result DirEntry IoError)) IoError;
  fs_read : str -> result (list N) IoError }.

Section reading.
Context {F : Type} `{Framework F} {XmlError : Type} (parse_xml : str -> result xml_node XmlError).
Context `{FileSystem}.

Definition is_committed (paths : PackagePaths) : result bool IoError :=
  match fs_metadata (metadata_path paths) with
  | Ok file => Ok file
  | Err NotFound => Ok false
  | Err source => Err source
  end.

Inductive PackageReadError :=
| NotInstalled (metadata_path : str)
| MissingNuspec (nuspec_path : str)
| Io (path : str) (source : IoError)
| Nuspec (path : str) (source : PackageNuspecParseError F XmlError).

Record InstalledPackage := {
  installed_identity : PackageIdentity;
  installed_paths : PackagePaths;
  installed_nuspec : PackageNuspec F }.

(** [Path::file_stem] and [Path::extension] of a file name. *)
Definition stem_and_extension (name : str) : str * option str :=
  match split_once (#c".") (rev name) with
  | Some (ext, stem) => if is_empty stem then (name, None) else (rev stem, Some (rev ext))
  | None => (name, None)
  end.

Definition is_nuspec_of (i : PackageId) (name : str) : bool :=
  match stem_and_extension name with
  | (stem, Some extension) =>
      (eq_ignore_ascii_case extension (#"nuspec") && eq_ignore_ascii_case stem (as_str i))%bool
  | (_, None) => false
  end.

(** The least of the case-insensitive matches ([sort], then the first). *)
Definition least_name (names : list str) : option str :=
  fold_right (fun n best =>
    match best with
    | Some b => if cmp_leb (list_cmp N.compare) n b then Some n else Some b
    | None => Some n
    end) None names.

(** The loop over the directory; all the paths it compares are in one
    directory, so they are represented by their file names. *)
Fixpoint find_nuspec_name (dir : str) (i : PackageId) (canonical_match : option str) (cased_matches : list str)
    (entries : list (result DirEntry IoError)) : result (option str) PackageReadError :=
  match entries with
  | [] =>
      match canonical_match with
      | Some n => Ok (Some n)
      | None => Ok (least_name cased_matches)
      end
  | e :: entries' =>
      let? e := map_err (Io dir) e in
      match is_file e, file_name e with
      | true, Some name =>
          if str_eqb name (as_str i ++ #".nuspec") then Ok (Some name)
          else if str_eqb name (folder_name i ++ #".nuspec")
          then find_nuspec_name dir i (Some name) cased_matches entries'
          else if is_nuspec_of i name
          then find_nuspec_name dir i canonical_match (cased_matches ++ [name]) entries'
          else find_nuspec_name dir i canonical_match cased_matches entries'
      | _, _ => find_nuspec_name dir i canonical_match cased_matches entries'
      end
  end.

Definition find_root_nuspec_path (paths : PackagePaths) (i : PackageId) : result (option str) PackageReadError :=
  let? entries := map_err (Io (package_dir paths)) (fs_read_dir (package_dir paths)) in
  let? name := find_nuspec_name (package_dir paths) i None [] entries in
  Ok (path_join (package_dir paths) <$> name).

Definition read_installed_package (global_packages_root : str) (identity : PackageIdentity)
    : result InstalledPackage PackageReadError :=
  let paths := PackagePaths_new global_packages_root identity in
  let? committed := map_err (Io (metadata_path paths)) (is_committed paths) in
  if negb committed then Err (NotInstalled (metadata_path paths))
  else
    let? found := find_root_nuspec_path paths (id identity) in
    match found with
    | None => Err (MissingNuspec (nuspec_path paths))
    | Some path =>
        let? bytes := map_err (Io path) (fs_read path) in
        let? text := map_err (Io path) (decode_nuspec_bytes bytes) in
        let? nuspec := map_err (Nuspec path) (parse_nuspec parse_xml text) in
        Ok {| installed_identity := identity;
              installed_paths := {| package_dir := package_dir paths;
                                    metadata_path := metadata_path paths;
                                    nuspec_path := path |};
              installed_nuspec := nuspec |}
    end.

(** ** Listing committed versions *)

Record PackageCacheEntry := { entry_identity : PackageIdentity; entry_paths : PackagePaths }.
Inductive PackageCacheError := CacheIo (path : str) (source : IoError).

Definition cache_entry_cmp (left right : PackageCacheEntry) : comparison :=
  then_cmp (NuGetVersion_cmp (version (entry_identity left)) (version (entry_identity right)))
    (list_cmp N.compare (version_folder_name (entry_identity left)) (version_folder_name (entry_identity right))).

(** One directory entry: the package it is a committed version of, if any. *)
Definition committed_entry (root : str) (i : PackageId) (e : result DirEntry IoError)
    : result (option PackageCacheEntry) PackageCacheError :=
  let id_dir := path_join root (folder_name i) in
  let? e := map_err (CacheIo id_dir) e in
  let? is_dir := map_err (CacheIo (path_join id_dir (default [] (file_name e)))) (file_type_is_dir e) in
  if negb is_dir then Ok None
  else
    match file_name e with
    | None => Ok None
    | Some folder =>
        match NuGetVersion_parse folder with
        | Err _ => Ok None
        | Ok v =>
            if negb (str_eqb folder (lower (NuGetVersion_to_normalized_string v))) then Ok None
            else
              let identity := PackageIdentity_new i v in
              let paths := PackagePaths_new root identity in
              let? committed := map_err (CacheIo (metadata_path paths)) (is_committed paths) in
              Ok (if committed : bool
                  then Some {| entry_identity := identity; entry_paths := paths |} else None)
        end
    end.

Definition list_committed_package_versions (root : str) (i : PackageId)
    : result (list PackageCacheEntry) PackageCacheError :=
  match fs_read_dir (path_join root (folder_name i)) with
  | Err NotFound => Ok []
  | Err source => Err (CacheIo (path_join root (folder_name i)) source)
  | Ok entries =>
      let? versions := rmapM (committed_entry root i) entries in
      Ok (sort_by cache_entry_cmp (omap (fun v => v) versions))
  end.
End reading.
Arguments PackageReadError F {_} XmlError : assert.
Arguments InstalledPackage F : clear implicits.

Lemma all_versions_range_parses : VersionRange_parse (#"(, )") = Ok all_versions_range.
Proof. reflexivity. Qed.

(** ** Decoding nuspec bytes *)

Definition unit_bytes (endian : Utf16Endian) (u : N) : list N :=
  match endian with Little => [u mod 256; u / 256]%N | Big => [u / 256; u mod 256]%N end.

(** A text in UTF-16, as an XML writer would store it. *)
Definition utf16_bytes (endian : Utf16Endian) (s : str) : list N :=
  concat (map (unit_bytes endian) (encode_utf16 s)).
Definition bom (endian : Utf16Endian) : list N :=
  match endian with Little => [255; 254]%N | Big => [254; 255]%N end.

Definition unit_pair (endian : Utf16Endian) (u : N) : N * N :=
  match endian with Little => (u mod 256, u / 256) | Big => (u / 256, u mod 256) end%N.

Lemma pairs_bytes endian us : pairs (concat (map (unit_bytes endian) us)) = map (unit_pair endian) us.
Proof. induction us as [|u us IH]; [done|]. destruct endian; simpl; by rewrite IH. Qed.

Lemma bytes_length endian us : length (concat (map (unit_bytes endian) us)) = 2 * length us.
Proof. induction us as [|u us IH]; [done|]. simpl. rewrite length_app, IH. destruct endian; simpl; lia. Qed.

Lemma take_bytes endian k us :
  take (2 * k) (concat (map (unit_bytes endian) us)) = concat (map (unit_bytes endian) (take k us)).
Proof.
  revert us. induction k as [|k IH]; intros [|u us]; try done.
  replace (2 * S k) with (S (S (2 * k))) by lia. destruct endian; simpl; f_equal; f_equal; apply IH.
Qed.

(** The bytes [decode_utf16] reads units from. *)
Definition without_bom (endian : Utf16Endian) (bytes : list N) : list N :=
  match endian with
  | Little => if starts_with [255; 254]%N bytes then drop 2 bytes else bytes
  | Big => if starts_with [254; 255]%N bytes then drop 2 bytes else bytes
  end.

Lemma decode_units endian bytes s : Forall (fun c => is_scalar c = true) s ->
  without_bom endian bytes = utf16_bytes endian s -> decode_utf16 bytes endian = Ok s.
Proof.
  intros Hs Hb. unfold decode_utf16. fold (without_bom endian bytes). rewrite Hb.
  unfold utf16_bytes. rewrite bytes_length, Nat.mul_comm, Nat.Div0.mod_mul. cbn [Nat.eqb negb].
  rewrite pairs_bytes, map_map.
  assert (forall us, map (fun x => let '(a, b) := unit_pair endian x in
      match endian with Little => (a + 256 * b)%N | Big => (256 * a + b)%N end) us = us) as ->.
  { intros us. rewrite <- (map_id us) at 2. apply map_ext. intros u.
    pose proof (N.div_mod u 256 ltac:(lia)). destruct endian; simpl unit_pair; cbn beta iota; lia. }
  by rewrite from_utf16_encode.
Qed.

Lemma ascii_bytes c : is_xml_ascii_byte c = true -> (c mod 256 = c /\ c / 256 = 0 /\ c <> 0 /\ c < 127)%N.
Proof.
  intros Hc. assert (0 < c < 127)%N.
  { unfold is_xml_ascii_byte in Hc. rewrite !orb_true_iff, !N.eqb_eq, in_range_spec in Hc. lia. }
  rewrite N.mod_small, N.div_small by lia. lia.
Qed.

(** Runs of XML ASCII show in the scores, for their own byte order only. *)
Lemma ascii_scores us : Forall (fun c => is_xml_ascii_byte c = true) us ->
  let little := score (fun '(first, second) => (N.eqb second 0 && is_xml_ascii_byte first)%bool) in
  let big := score (fun '(first, second) => (N.eqb first 0 && is_xml_ascii_byte second)%bool) in
  little (map (unit_pair Little) us) = length us /\ big (map (unit_pair Little) us) = 0
  /\ big (map (unit_pair Big) us) = length us /\ little (map (unit_pair Big) us) = 0.
Proof.
  unfold score. induction 1 as [|c us Hc _ IH]; [done|]. cbv zeta in *. destruct IH as (H1 & H2 & H3 & H4).
  destruct (ascii_bytes c Hc) as (Em & Ed & Hne & _). apply N.eqb_neq in Hne.
  simpl. rewrite Em, Ed, Hc, Hne. simpl. rewrite H1, H2, H3, H4. done.
Qed.

Lemma detect_ascii endian us : 2 <= length us -> Forall (fun c => is_xml_ascii_byte c = true) (take 64 us) ->
  detect_utf16 (concat (map (unit_bytes endian) us)) = Some endian
  /\ without_bom endian (concat (map (unit_bytes endian) us)) = concat (map (unit_bytes endian) us).
Proof.
  intros Hlen Ha. destruct us as [|u [|u2 us]]; [simpl in Hlen; lia..|].
  assert (Hu : is_xml_ascii_byte u = true) by (by apply Forall_cons in Ha as [? _]).
  destruct (ascii_bytes u Hu) as (Em & Ed & Hne & Hlt).
  assert (Hno : forall e b, starts_with (bom e) (unit_bytes endian u ++ b) = false).
  { intros e b. unfold starts_with. assert (u =? 255 = false)%N as E1 by (apply N.eqb_neq; lia).
    assert (u =? 254 = false)%N as E2 by (apply N.eqb_neq; lia).
    apply not_true_iff_false. rewrite str_eqb_eq. apply N.eqb_neq in E1, E2.
    destruct e, endian; simpl; rewrite Em, Ed; intros [= ? ?]; lia. }
  split; [|destruct endian; unfold without_bom; cbn [map concat]; [by rewrite (Hno Little)|by rewrite (Hno Big)]].
  unfold detect_utf16.
  assert (forall e, starts_with (bom e) (concat (map (unit_bytes endian) (u :: u2 :: us))) = false) as Hb by (intros e; apply Hno).
  pose proof (Hb Little) as Hb1. pose proof (Hb Big) as Hb2. cbn [bom] in Hb1, Hb2. rewrite Hb1, Hb2, bytes_length. set (us' := u :: u2 :: us) in *.
  assert (Nat.min (2 * length us') 128 / 2 = Nat.min (length us') 64) as ->.
  { replace (Nat.min (2 * length us') 128) with (Nat.min (length us') 64 * 2) by lia. by apply Nat.div_mul. }
  destruct (Nat.ltb_spec (2 * Nat.min (length us') 64) 4) as [|_]; [lia|].
  rewrite take_bytes, pairs_bytes.
  assert (Hk : take (Nat.min (length us') 64) us' = take 64 us').
  { destruct (Nat.le_ge_cases (length us') 64); [rewrite Nat.min_l, !take_ge by lia|rewrite Nat.min_r by lia]; done. }
  rewrite Hk. destruct (ascii_scores _ Ha) as (H1 & H2 & H3 & H4).
  assert (Hn : 2 <= length (take 64 us')) by (rewrite length_take; lia).
  destruct endian; rewrite ?H1, ?H2, ?H3, ?H4; [rewrite (proj2 (Nat.compare_gt_iff _ _))|rewrite (proj2 (Nat.compare_lt_iff _ _))];
    [|lia| |lia]; destruct (Nat.leb_spec 2 (length (take 64 us'))); (done || lia).
Qed.

Lemma utf8_char_bytes c : is_scalar c = true -> c <> 0%N ->
  Forall (fun b => b <> 0 /\ b < 254)%N (encode_utf8_char c).
Proof.
  intros Hc%is_scalar_spec Hne. unfold encode_utf8_char.
  assert (E64 : (c / 4096 = c / 64 / 64)%N) by (by rewrite N.Div0.div_div).
  assert (E96 : (c / 262144 = c / 64 / 64 / 64)%N) by (by rewrite !N.Div0.div_div).
  rewrite E64, E96. clear E64 E96. quot c 64%N. quot q 64%N. quot q0 64%N.
  destruct (N.ltb_spec c 128); [|destruct (N.ltb_spec c 2048); [|destruct (N.ltb_spec c 65536)]];
    repeat constructor; lia.
Qed.

Lemma utf8_bytes s : Forall (fun c => is_scalar c = true) s -> Forall (fun c => c <> 0%N) s ->
  Forall (fun b => b <> 0 /\ b < 254)%N (encode_utf8 s).
Proof.
  intros Hs H0. unfold encode_utf8. induction Hs as [|c s Hc _ IH]; [constructor|].
  apply Forall_cons in H0 as [? ?]. simpl. apply Forall_app. split; [by apply utf8_char_bytes|auto].
Qed.

Lemma pairs_Forall {A} (P : A -> Prop) l : Forall P l -> Forall (fun x => P (fst x) /\ P (snd x)) (pairs l).
Proof.
  assert (forall n l, length l <= n -> Forall P l -> Forall (fun x => P (fst x) /\ P (snd x)) (pairs l)) as Hgo.
  { clear. induction n as [|n IH]; intros [|a [|b l]] Hn Hl; simpl in *; try constructor; try lia.
    - apply Forall_cons in Hl as [? [? ?]%Forall_cons]. done.
    - apply Forall_cons in Hl as [? [? ?]%Forall_cons]. apply IH; [lia|done]. }
  intros. by apply (Hgo (length l)).
Qed.

Lemma score_zero p l : Forall (fun x => p x = false) l -> score p l = 0.
Proof. unfold score. induction 1 as [|x l Hx _ IH]; [done|]. simpl. by rewrite Hx. Qed.

Lemma detect_utf8 bytes : Forall (fun b => b <> 0 /\ b < 254)%N bytes -> detect_utf16 bytes = None.
Proof.
  intros Hb. unfold detect_utf16.
  assert (Hno : forall x l, (254 <= x)%N -> starts_with (x :: l) bytes = false).
  { intros x l Hx. unfold starts_with. apply not_true_iff_false. rewrite str_eqb_eq.
    destruct Hb as [|b bs [_ Hb] _]; [done|]. simpl. intros [= -> _]. lia. }
  rewrite !Hno by lia. destruct (Nat.ltb _ _); [done|].
  pose proof (pairs_Forall _ _ (Forall_take _ (2 * (Nat.min (length bytes) 128 / 2)) _ Hb)) as Hp.
  rewrite !score_zero; [done|..]; eapply Forall_impl; try exact Hp; intros [a b] [[Ha _] [Hb' _]]; simpl in *;
    apply N.eqb_neq in Ha, Hb'; by rewrite ?Ha, ?Hb'.
Qed.

(** Nuspec bytes decode to the text they encode: UTF-16 of either byte order
    after a byte-order mark, UTF-16 without one when the text opens with XML
    ASCII, and UTF-8 of a text without NULs, which the byte-order guess never
    mistakes for UTF-16. *)
Theorem decode_nuspec_bytes_encoded s : Forall (fun c => is_scalar c = true) s ->
  (forall endian, decode_nuspec_bytes (bom endian ++ utf16_bytes endian s) = Ok s)
  /\ (forall endian, 2 <= length (encode_utf16 s) ->
        Forall (fun c => is_xml_ascii_byte c = true) (take 64 (encode_utf16 s)) ->
        decode_nuspec_bytes (utf16_bytes endian s) = Ok s)
  /\ (Forall (fun c => c <> 0%N) s -> decode_nuspec_bytes (encode_utf8 s) = Ok s).
Proof.
  intros Hs. unfold decode_nuspec_bytes. split_and!.
  - intros endian. assert (detect_utf16 (bom endian ++ utf16_bytes endian s) = Some endian) as -> by (by destruct endian).
    apply decode_units; [done|]. by destruct endian.
  - intros endian Hlen Ha. destruct (detect_ascii endian _ Hlen Ha) as [Hd Hw]. unfold utf16_bytes at 1. rewrite Hd.
    by apply decode_units.
  - intros H0. rewrite detect_utf8 by (by apply utf8_bytes). by rewrite from_utf8_encode.
Qed.

Lemma decode_nuspec_bytes_encoded_witness :
  decode_nuspec_bytes (utf16_bytes Big (#"<package/>")) = Ok (#"<package/>")
  /\ decode_nuspec_bytes (encode_utf8 (#"<a/>" ++ [128512%N])) = Ok (#"<a/>" ++ [128512%N]).
Proof.
  split.
  - apply decode_nuspec_bytes_encoded; [by repeat constructor|vm_compute; lia|by repeat constructor].
  - apply (decode_nuspec_bytes_encoded (#"<a/>" ++ [128512%N])); by repeat constructor.
Defined.

(** ** What a parsed nuspec holds *)

Section parsed.
Context {F : Type} `{Framework F} {XmlError : Type}.

Definition dependency_wf (d : PackageDependency) : Prop :=
  id_wf (as_str (dependency_id d)) /\ exists r, version_range d = Some r /\ range_wf r = true.

Lemma parse_dependency_wf n d : parse_dependency (F:=F) (XmlError:=XmlError) n = Ok d -> dependency_wf d.
Proof.
  intros (raw & _ & E)%rbind_ok. apply rbind_ok in E as (i & Hi & E). apply map_err_ok in Hi.
  apply rbind_ok in E as (r & Hr & [= <-]). split; simpl.
  - apply PackageId_parse_ok in Hi as [-> Hwf]. done.
  - exists r. split; [done|].
    assert (Hall : range_wf all_versions_range = true) by (vm_compute; reflexivity).
    destruct (trim <$> attribute n (#"version")) as [raw_v|]; [|by simplify_eq].
    destruct (is_empty raw_v); [by simplify_eq|]. apply map_err_ok in Hr. by eapply parsed_range_wf.
Qed.

Lemma parse_dependencies_wf ns ds : rmapM (parse_dependency (F:=F) (XmlError:=XmlError)) ns = Ok ds -> Forall dependency_wf ds.
Proof.
  intros Hf%rmapM_ok. induction Hf; constructor; [by eapply parse_dependency_wf|done].
Qed.

(** Every dependency of a parsed nuspec has a valid id and a well-formed
    range, whatever the XML: a dependency without a version is given the range
    that accepts every version. *)
Theorem project_nuspec_wf root n : project_nuspec (F:=F) (XmlError:=XmlError) root = Ok n ->
  forall g d, g ∈ dependency_groups n -> d ∈ dependencies g -> dependency_wf d.
Proof.
  unfold project_nuspec. destruct (List.find _ _) as [metadata|]; [|intros [= <-] g d Hg; set_solver].
  intros (refs & _ & E)%rbind_ok. apply rbind_ok in E as (groups & Hg & [= <-]). simpl. intros g d Hgin Hd.
  destruct (existsb _ _).
  - apply rmapM_ok in Hg. apply list_elem_of_lookup in Hgin as [k Hk].
    destruct (Forall2_lookup_r _ _ _ _ _ Hg Hk) as (c & _ & (tf & _ & E)%rbind_ok).
    apply rbind_ok in E as (ds & Hds & [= <-]). apply parse_dependencies_wf in Hds. rewrite Forall_forall in Hds. auto.
  - apply rbind_ok in Hg as (ds & Hds & E). apply parse_dependencies_wf in Hds. rewrite Forall_forall in Hds.
    destruct (is_empty ds); simplify_eq; [set_solver|]. apply list_elem_of_singleton in Hgin as ->. auto.
Qed.
End parsed.

(** ** The nuspec file does not depend on the directory order *)

Lemma least_name_spec names : match least_name names with
  | None => names = []
  | Some b => b ∈ names /\ forall n, n ∈ names -> list_cmp N.compare b n <> Gt
  end.
Proof.
  induction names as [|n names IH]; simpl; [done|]. destruct (least_name names) as [b|].
  - destruct IH as [Hb Hle]. destruct (cmp_leb (list_cmp N.compare) n b) eqn:E.
    + apply (cmp_leb_spec (list_cmp N.compare)) in E. split; [left|]. intros x [->|Hx]%elem_of_cons.
      * by rewrite (cmp_refl (list_cmp N.compare)).
      * eapply (cmp_le_trans (list_cmp N.compare)); [exact E|auto].
    + split; [by right|]. intros x [->|Hx]%elem_of_cons; [|auto]. unfold cmp_leb in E.
      destruct (list_cmp N.compare n b) eqn:E'; [done..|]. apply (cmp_gt_lt (list_cmp N.compare)) in E'. by rewrite E'.
  - subst names. split; [left|]. intros x ->%list_elem_of_singleton. by rewrite (cmp_refl (list_cmp N.compare)).
Qed.

Lemma least_name_perm l l' : (forall x, x ∈ l <-> x ∈ l') -> least_name l = least_name l'.
Proof.
  intros Hiff. pose proof (least_name_spec l) as H1. pose proof (least_name_spec l') as H2.
  destruct (least_name l) as [b|], (least_name l') as [b'|]; [|subst; set_solver..].
  destruct H1 as [Hb Hle], H2 as [Hb' Hle']. f_equal. apply list_cmp_N_eq.
  apply (cmp_eq_iff (list_cmp N.compare)). split; [apply Hle|apply Hle']; set_solver.
Qed.

Section nuspec_file.
Context {F : Type} `{Framework F} {XmlError : Type} (dir : str) (i : PackageId).

(** The names of the plain files of a directory. *)
Definition file_names (es : list DirEntry) : list str :=
  omap (fun e => if is_file e then file_name e else None) es.

Definition chosen_nuspec (canonical : option str) (cased names : list str) : option str :=
  if bool_decide (as_str i ++ #".nuspec" ∈ names) then Some (as_str i ++ #".nuspec")
  else if (is_some canonical || bool_decide (folder_name i ++ #".nuspec" ∈ names))%bool
  then Some (folder_name i ++ #".nuspec")
  else least_name (cased ++ List.filter (is_nuspec_of i) names).

Lemma find_nuspec_name_spec es canonical cased :
  (forall n, canonical = Some n -> n = folder_name i ++ #".nuspec") ->
  find_nuspec_name (F:=F) (XmlError:=XmlError) dir i canonical cased (map Ok es)
  = Ok (chosen_nuspec canonical cased (file_names es)).
Proof.
  revert canonical cased. induction es as [|e es IH]; intros canonical cased Hc; simpl.
  - unfold chosen_nuspec. simpl. rewrite app_nil_r. destruct canonical as [n|]; [|done]. simpl. by rewrite (Hc n).
  - unfold file_names in *. simpl. destruct (is_file e); [|by apply IH]. destruct (file_name e) as [name|]; [|by apply IH].
    simpl. destruct (str_eqb name (as_str i ++ #".nuspec")) eqn:E1.
    + apply str_eqb_eq in E1 as ->. unfold chosen_nuspec. by rewrite bool_decide_eq_true_2 by left.
    + assert (Hne1 : name <> as_str i ++ #".nuspec") by (intros Hx%str_eqb_eq; congruence).
      destruct (str_eqb name (folder_name i ++ #".nuspec")) eqn:E2.
      * apply str_eqb_eq in E2 as ->. rewrite IH by (by intros n [= <-]). f_equal. unfold chosen_nuspec.
        rewrite (bool_decide_ext (as_str i ++ #".nuspec" ∈ (folder_name i ++ #".nuspec") :: _)
          (as_str i ++ #".nuspec" ∈ omap (fun e => if is_file e then file_name e else None) es)) by set_solver.
        rewrite (bool_decide_eq_true_2 (folder_name i ++ #".nuspec" ∈ (folder_name i ++ #".nuspec") :: _)) by left.
        by rewrite orb_true_r.
      * assert (Hne2 : name <> folder_name i ++ #".nuspec") by (intros Hx%str_eqb_eq; congruence).
        assert (Hext : forall x l, name <> x -> bool_decide (x ∈ name :: l) = bool_decide (x ∈ l)).
        { intros x l Hx. apply bool_decide_ext. rewrite elem_of_cons. naive_solver. }
        destruct (is_nuspec_of i name) eqn:E3; rewrite IH by done; f_equal; unfold chosen_nuspec;
          rewrite !Hext by done; cbn [List.filter]; rewrite E3; [by rewrite <- app_assoc|done].
Qed.

(** Which nuspec is read does not depend on the order in which the directory
    is listed: the id as written, else its lower-cased spelling, else the least
    of the spellings that differ only in case. *)
Theorem find_nuspec_name_order es es' : es ≡ₚ es' ->
  find_nuspec_name (F:=F) (XmlError:=XmlError) dir i None [] (map Ok es) = Ok (chosen_nuspec None [] (file_names es))
  /\ find_nuspec_name (F:=F) (XmlError:=XmlError) dir i None [] (map Ok es')
     = find_nuspec_name dir i None [] (map Ok es).
Proof.
  intros Hp. rewrite !find_nuspec_name_spec by done. split; [done|]. f_equal.
  assert (Hin : forall x, x ∈ file_names es <-> x ∈ file_names es') by (intros x; unfold file_names; by rewrite Hp).
  unfold chosen_nuspec. rewrite !(bool_decide_ext _ _ (Hin _)).
  destruct (bool_decide _); [done|]. destruct (_ || _)%bool; [done|]. apply least_name_perm.
  intros x. simpl. rewrite !list_elem_of_In, !filter_In, <- !list_elem_of_In. by rewrite Hin.
Qed.
End nuspec_file.

(** ** Listing *)

#[export] Instance cache_entry_cmp_total : TotalCmp cache_entry_cmp.
Proof.
  apply (then_cmp_total (cmp_on (fun e => version (entry_identity e)) NuGetVersion_cmp)
    (cmp_on (fun e => version_folder_name (entry_identity e)) (list_cmp N.compare))); apply _.
Qed.

Section listing.
Context `{FileSystem} (root : str) (i : PackageId).

(** A directory entry that is a committed version of [i] at [v]. *)
Definition committed_dir (d : DirEntry) (v : NuGetVersion) : Prop :=
  file_type_is_dir d = Ok true /\ file_name d = Some (version_folder_name (PackageIdentity_new i v))
  /\ NuGetVersion_parse (version_folder_name (PackageIdentity_new i v)) = Ok v
  /\ is_committed (PackagePaths_new root (PackageIdentity_new i v)) = Ok true.

Definition entry_for (v : NuGetVersion) : PackageCacheEntry :=
  {| entry_identity := PackageIdentity_new i v; entry_paths := PackagePaths_new root (PackageIdentity_new i v) |}.

Lemma committed_entry_spec d o : committed_entry root i (Ok d) = Ok o ->
  forall e, o = Some e <-> exists v, committed_dir d v /\ e = entry_for v.
Proof.
  unfold committed_entry, committed_dir. cbn [map_err rbind].
  destruct (file_type_is_dir d) as [[]|]; cbn [map_err rbind negb]; [| |done].
  2: { intros [= <-] e. split; [done|]. by intros (v & (? & _) & _). }
  destruct (file_name d) as [folder|].
  2: { intros [= <-] e. split; [done|]. by intros (v & (_ & ? & _) & _). }
  destruct (NuGetVersion_parse folder) as [v|err] eqn:Ev.
  2: { intros [= <-] e. split; [done|]. intros (v & (_ & [= ->] & ? & _) & _). congruence. }
  destruct (str_eqb folder _) eqn:Ef; cbn [negb].
  - apply str_eqb_eq in Ef as Ef'. destruct (is_committed _) as [b|] eqn:Ec; cbn [map_err rbind]; [|done].
    intros [= <-] e. split.
    + destruct b; [|done]. intros [= <-]. exists v. split_and!; try done; [by rewrite Ef' at 1|].
      unfold version_folder_name. cbn [version]. by rewrite <- Ef'.
    + intros (v' & (_ & [= E] & Hp & Hc) & ->). rewrite <- E, Ev in Hp. injection Hp as <-. rewrite Hc in Ec. by injection Ec as <-.
  - intros [= <-] e. split; [done|]. intros (v' & (_ & [= E] & Hp & _) & _).
    rewrite <- E, Ev in Hp. injection Hp as <-. apply not_true_iff_false in Ef. destruct Ef. by apply str_eqb_eq.
Qed.

(** The listing of the committed versions of a package is sorted by version
    and holds exactly the directories whose name is the lower-cased normalised
    spelling of the version it parses to and whose commit marker is present. *)
Theorem list_committed_exact es : list_committed_package_versions root i = Ok es ->
  StronglySorted (fun a b => cache_entry_cmp a b <> Gt) es
  /\ forall e, e ∈ es <-> exists ds d v, fs_read_dir (path_join root (folder_name i)) = Ok ds /\ Ok d ∈ ds
       /\ committed_dir d v /\ e = entry_for v.
Proof.
  unfold list_committed_package_versions. destruct (fs_read_dir _) as [ds|err] eqn:Eds.
  2: { destruct err; [|done..]. intros [= <-]. split; [constructor|]. intros e. split; [set_solver|]. by intros (ds & d & v & ? & _). }
  intros (vs & Hvs & [= <-])%rbind_ok. apply rmapM_ok in Hvs. split; [apply sort_by_sorted; apply _|].
  intros e. rewrite (sort_by_perm cache_entry_cmp), list_elem_of_omap. split.
  - intros (o & Ho & ->). apply list_elem_of_lookup in Ho as [k Hk].
    destruct (Forall2_lookup_r _ _ _ _ _ Hvs Hk) as (rd & Hrd & Hc).
    assert (exists d, rd = Ok d) as [d ->] by (destruct rd; [eauto|done]).
    destruct (proj1 (committed_entry_spec d _ Hc e) eq_refl) as (v & Hd & ->).
    exists ds, d, v. split_and!; try done. by eapply list_elem_of_lookup_2.
  - intros (ds' & d & v & [= <-] & Hd & Hcd & ->). apply list_elem_of_lookup in Hd as [k Hk].
    destruct (Forall2_lookup_l _ _ _ _ _ Hvs Hk) as (o & Ho & Hc).
    exists o. split; [by eapply list_elem_of_lookup_2|]. by apply (committed_entry_spec d o Hc); exists v.
Qed.
End listing.

(** A folder with two committed versions, one of them not canonical, and one
    uncommitted. *)
Definition listing_dir (n : str) : result DirEntry IoError :=
  Ok {| file_name := Some n; is_file := false; file_type_is_dir := Ok true |}.
Definition listing_fs : FileSystem := {|
  fs_metadata := fun path =>
    if existsb (str_eqb path) [#"/g/a/1.0.0/.nupkg.metadata"; #"/g/a/0.9.0-rc/.nupkg.metadata"] then Ok true else Err NotFound;
  fs_read_dir := fun path =>
    if str_eqb path (#"/g/a") then Ok (map listing_dir [#"1.0.0"; #"1.0"; #"2.0.0"; #"0.9.0-rc"]) else Err NotFound;
  fs_read := fun _ => Err NotFound |}.

Lemma list_committed_exact_witness :
  exists es, list_committed_package_versions (H0:=listing_fs) (#"/g") (PackageId_new (#"A")) = Ok es
    /\ map (fun e => version_folder_name (entry_identity e)) es = [#"0.9.0-rc"; #"1.0.0"]
    /\ StronglySorted (fun a b => cache_entry_cmp a b <> Gt) es.
Proof.
  destruct (list_committed_package_versions (H0:=listing_fs) (#"/g") (PackageId_new (#"A"))) as [es|] eqn:E;
    [|vm_compute in E; discriminate].
  exists es. split; [reflexivity|]. split; [|exact (proj1 (list_committed_exact (H:=listing_fs) _ _ es E))].
  vm_compute in E. injection E as <-. vm_compute. reflexivity.
Defined.

Definition empty_env_framework : Framework unit := {|
  FrameworkParseError := unit;
  NuGetFramework_parse := fun _ => Ok tt;
  any_framework := tt;
  NuGetFramework_parse_any := eq_refl;
  get_nearest_reducer := fun _ _ => None;
  get_nearest_reducer_lt := fun _ _ _ H => ltac:(discriminate H);
  is_resolver_project_framework := fun _ => true |}.

Definition plain_file (n : str) : DirEntry := {| file_name := Some n; is_file := true; file_type_is_dir := Ok false |}.

Lemma find_nuspec_name_order_witness :
  find_nuspec_name (H:=empty_env_framework) (XmlError:=unit) (#"/g/ab/1.0.0") (PackageId_new (#"aB")) None []
    (map Ok [plain_file (#"AB.nuspec"); plain_file (#"x.dll"); plain_file (#"Ab.NUSPEC")]) = Ok (Some (#"AB.nuspec")).
Proof.
  rewrite (proj1 (find_nuspec_name_order (H:=empty_env_framework) (XmlError:=unit) (#"/g/ab/1.0.0") (PackageId_new (#"aB"))
    _ _ (Permutation_refl [plain_file (#"AB.nuspec"); plain_file (#"x.dll"); plain_file (#"Ab.NUSPEC")]))).
  vm_compute. reflexivity.
Defined.

(** One dependency without a version. *)
Definition small_nuspec : xml_node :=
  Element None (#"package") [] [Element None (#"metadata") [] [Element None (#"dependencies") []
    [Element None (#"dependency") [(#"id", #"A")] []]]].

Lemma project_nuspec_wf_witness :
  exists n, project_nuspec (H:=empty_env_framework) (XmlError:=unit) small_nuspec = Ok n
    /\ forall g d, g ∈ dependency_groups n -> d ∈ dependencies g -> dependency_wf d.
Proof.
  eexists. split; [vm_compute; reflexivity|].
  apply (project_nuspec_wf (H:=empty_env_framework) (XmlError:=unit) small_nuspec). vm_compute. reflexivity.
Defined.
