(* ===== verification/BTree.v ===== *)
(** * [BTreeMap]

    Rust's [BTreeMap] as the list of its entries in key order.  Keys are
    compared with the key type's [cmp] only, which for package ids is coarser
    than structural equality, so an insertion over an equal key keeps the key
    already there, as [BTreeMap::insert] does.  Shared by the package resolver
    (its edge, version, shape and cache maps). *)

From Stdlib Require Export Sorted.
From S2P Require Import Prelude Order.

Section BTreeMap.
Context {K V : Type} (cmp : K -> K -> comparison) `{!TotalCmp cmp}.
Implicit Types (m : list (K * V)) (k : K) (v : V).

Fixpoint bt_get m k : option V :=
  match m with
  | [] => None
  | (k0, v) :: m' => match cmp k k0 with Eq => Some v | Lt | Gt => bt_get m' k end
  end.

Definition bt_contains m k : bool := match bt_get m k with Some _ => true | None => false end.

Fixpoint bt_insert m k v : list (K * V) :=
  match m with
  | [] => [(k, v)]
  | (k0, v0) :: m' =>
      match cmp k k0 with
      | Lt => (k, v) :: m
      | Eq => (k0, v) :: m'
      | Gt => (k0, v0) :: bt_insert m' k v
      end
  end.

Fixpoint bt_remove m k : list (K * V) :=
  match m with
  | [] => []
  | (k0, v0) :: m' => match cmp k k0 with Eq => m' | Lt | Gt => (k0, v0) :: bt_remove m' k end
  end.

Definition bt_keys m : list K := map fst m.

(** [PartialEq] on maps: the entries agree pairwise. *)
Fixpoint bt_eqb (eqv : V -> V -> bool) (m n : list (K * V)) : bool :=
  match m, n with
  | [], [] => true
  | (k, v) :: m', (k', v') :: n' => (cmp_eqb cmp k k' && eqv v v' && bt_eqb eqv m' n')%bool
  | _, _ => false
  end.

(** Keys strictly increase. *)
Definition bt_sorted m : Prop := StronglySorted (fun a b => cmp a b = Lt) (bt_keys m).

Lemma bt_get_insert m k v k' :
  bt_get (bt_insert m k v) k' = if cmp k' k is Eq then Some v else bt_get m k'.
Proof.
  induction m as [|[k0 v0] m IH]; simpl; [by destruct (cmp k' k)|].
  destruct (cmp k k0) eqn:E; simpl.
  - rewrite (cmp_eq_r cmp k k0 k' E). by destruct (cmp k' k0).
  - by destruct (cmp k' k).
  - rewrite IH. destruct (cmp k' k0) eqn:E0; [|done..].
    destruct (cmp k' k) eqn:E1; [|done..].
    rewrite (cmp_eq_l cmp k' k k0 E1) in E0. congruence.
Qed.

Lemma bt_get_equiv m k k' : cmp k k' = Eq -> bt_get m k = bt_get m k'.
Proof.
  intros E. induction m as [|[k0 v0] m IH]; simpl; [done|]. by rewrite (cmp_eq_l cmp k k' k0 E), IH.
Qed.

Lemma bt_get_in m k v : bt_get m k = Some v -> exists k0, cmp k k0 = Eq /\ (k0, v) ∈ m.
Proof.
  induction m as [|[k0 v0] m IH]; simpl; [done|]. destruct (cmp k k0) eqn:E.
  - intros [= ->]. exists k0. split; [done|]. left.
  - intros (k1 & ? & ?)%IH. exists k1. split; [done|by right].
  - intros (k1 & ? & ?)%IH. exists k1. split; [done|by right].
Qed.

Lemma bt_get_none m k : bt_get m k = None -> forall k0 v, (k0, v) ∈ m -> cmp k k0 <> Eq.
Proof.
  induction m as [|[k1 v1] m IH]; simpl; intros Hn k0 v Hin; [set_solver|].
  apply elem_of_cons in Hin as [[= -> ->]|Hin]; destruct (cmp k k1); naive_solver.
Qed.

Lemma bt_insert_keys m k v k0 :
  k0 ∈ bt_keys (bt_insert m k v) -> k0 = k \/ k0 ∈ bt_keys m.
Proof.
  induction m as [|[k1 v1] m IH]; simpl; [set_solver|].
  destruct (cmp k k1); simpl; set_solver.
Qed.

Lemma bt_insert_sorted m k v : bt_sorted m -> bt_sorted (bt_insert m k v).
Proof.
  unfold bt_sorted. induction m as [|[k1 v1] m IH]; simpl; intros Hs; [by repeat constructor|].
  apply StronglySorted_inv in Hs as [Hs Hf]. destruct (cmp k k1) eqn:E; simpl.
  - by constructor.
  - constructor; [by constructor|]. constructor; [done|].
    eapply Forall_impl; [exact Hf|]. simpl. intros x Hx. by eapply cmp_lt_trans.
  - constructor; [auto|]. apply Forall_forall. intros x [->|Hx]%bt_insert_keys.
    + by apply cmp_gt_lt.
    + rewrite Forall_forall in Hf. auto.
Qed.

Lemma bt_sorted_get m k v : bt_sorted m -> (k, v) ∈ m -> bt_get m k = Some v.
Proof.
  unfold bt_sorted. induction m as [|[k1 v1] m IH]; simpl; intros Hs Hin; [set_solver|].
  apply StronglySorted_inv in Hs as [Hs Hf]. apply elem_of_cons in Hin as [[= -> ->]|Hin].
  - by rewrite (cmp_refl cmp).
  - assert (Hk : cmp k1 k = Lt).
    { rewrite Forall_forall in Hf. apply Hf. change k with (fst (k, v)). by apply list_elem_of_fmap_2. }
    apply (cmp_gt_lt cmp) in Hk. rewrite Hk. auto.
Qed.

Lemma bt_eqb_get (eqv : V -> V -> bool) m n k : bt_eqb eqv m n = true ->
  match bt_get m k, bt_get n k with
  | Some v, Some w => eqv v w = true
  | None, None => True
  | _, _ => False
  end.
Proof.
  revert n. induction m as [|[k1 v1] m IH]; intros [|[k2 v2] n] He; simpl in *; try done.
  rewrite !andb_true_iff, cmp_eqb_spec in He. destruct He as [[Ek Ev] He].
  rewrite (cmp_eq_r cmp k1 k2 k Ek). destruct (cmp k k2); [done|by apply IH..].
Qed.
End BTreeMap.

Arguments bt_sorted {K V} cmp m : assert.
Arguments bt_keys {K V} m : assert.
