(* ===== verification/Resolver.v ===== *)
(** * The offline package resolver ([crates/nuget/src/resolver.rs])

    The model of the resolver: the package cache, the dependency walk with its
    eclipse rules, the checks of [finish] and the conflict pass.  [resolve_offline]
    is the whole, over the file system, XML parser and framework interfaces of
    [Nuspec].

    The code mutates a package cache and can decline, panic (an index out of
    range, an [expect], an [assert!]) or, in the model, run out of the fuel that
    bounds its [while] loops: [outcome] has all four.  Indices are checked
    ([index] panics like [v[i]]), and a [Vec] used as a stack has its top first. *)

From S2P Require Import Prelude Order Version Range Package Nuspec BTree.

Definition MAX_NODES : N := 20000.
Definition MAX_ROUNDS : nat := 64.
Definition CONFLICT_PASS_ROUNDS : N := 999.

Record DirectPackageRequirement := { direct_id : PackageId; direct_range : VersionRange }.

Record ResolvedPackage := { resolved_identity : PackageIdentity; resolved_paths : PackagePaths }.
Definition ResolvedPackageClosure := list ResolvedPackage.

(** One node of the walked tree; [node_id] is [None] for the root. *)
Record Node := { node_id : option PackageId; node_parent : option nat; node_dep_index : nat }.

Inductive ShapeError :=
| AssetFilter (dependency : PackageId)
| NoRange (dependency : PackageId).

Record Loser := { loser_identity : PackageIdentity; loser_parent : nat; loser_dep_index : nat }.
Record PotentialDowngrade := { downgrade_id : PackageId; downgrade_range : VersionRange; downgrade_parent : nat }.

Inductive Verdict := Acceptable | Eclipsed | PotentiallyDowngraded | Cycle | FloatCompared.

Definition edge := (PackageId * VersionRange)%type.
Definition versions := list (PackageId * NuGetVersion).

(** What one round of the walk found.  [parents] is the parent column of [nodes]. *)
Record Walk := {
  edges : list (PackageId * list VersionRange);
  selected : versions;
  downgrades : list PotentialDowngrade;
  parents : list (option nat);
  surviving : list (list edge);
  cycle : option (list PackageId);
  float_compared : option edge;
  losers : list Loser;
  nodes : list Node;
  shapes : list ((PackageId * str) * ShapeError) }.

Inductive Disposition := DAcceptable | DAccepted | DRejected.
Inductive AmbiguityWalk := Walking | ARejected | Ambiguous.

Record ConflictNode := {
  cn_id : option PackageId;
  cn_version : option NuGetVersion;
  cn_children : list nat }.

#[export] Instance Disposition_eq_dec : EqDecision Disposition.
Proof. solve_decision. Defined.
#[export] Instance AmbiguityWalk_eq_dec : EqDecision AmbiguityWalk.
Proof. solve_decision. Defined.

Definition key_cmp (a b : PackageId * str) : comparison :=
  then_cmp (PackageId_cmp (fst a) (fst b)) (list_cmp N.compare (snd a) (snd b)).
Definition version_ge (a b : NuGetVersion) : bool := cmp_leb NuGetVersion_cmp b a.

Definition package_key (identity : PackageIdentity) : PackageId * str :=
  (id identity, version_folder_name identity).

(** ** Pure helpers *)

Definition is_at_least (nearer deeper : VersionRange) : bool :=
  match min nearer with
  | None => true
  | Some near_min =>
      match min deeper with
      | None => false
      | Some deep_min => version_ge near_min deep_min
      end
  end.

Definition id_is (o : option PackageId) (i : PackageId) : bool :=
  match o with Some j => PackageId_eqb j i | None => false end.

(** What one resolution is given: [PackageCache]'s [root] and [framework], and
    the interfaces below it. *)
Class ResolverEnv (F XmlError : Type) `{Framework F} := {
  parse_xml : str -> result xml_node XmlError;
  env_fs :: FileSystem;
  root : str;
  framework : F }.

Section resolver.
Context {F XmlError : Type} `{ResolverEnv F XmlError}.

Record CachedPackage := {
  package : InstalledPackage F;
  cached_dependencies : list PackageDependency }.

Inductive ResolveDecline :=
| UnsupportedProjectFramework (f : F)
| FloatingRange (i : PackageId) (r : VersionRange)
| OpenLowerBound (i : PackageId) (r : VersionRange)
| ExclusiveLowerBound (i : PackageId) (r : VersionRange)
| UnsatisfiedLowerBound (i : PackageId) (r : VersionRange) (v : NuGetVersion)
| PackageRead (identity : PackageIdentity) (source : PackageReadError F XmlError)
| VersionConflict (i : PackageId) (selected : NuGetVersion) (r : VersionRange)
| UndecidedConflict (ids : list PackageId)
| Downgrade (i : PackageId) (selected : NuGetVersion) (required : VersionRange)
| DependencyAssetFilterUnsupported (package : PackageIdentity) (dependency : PackageId)
| DependencyWithoutRange (package : PackageIdentity) (dependency : PackageId)
| DependencyCycle (cycle : list PackageId)
| UnresolvableLosingEdge (i : PackageId) (r : VersionRange) (selected : NuGetVersion)
| LosingVersionNotALeaf (loser : PackageIdentity) (dependency : PackageId)
| FloatingRangeComparison (i : PackageId) (r : VersionRange)
| TransitivePotentialDowngrade (i : PackageId) (r : VersionRange)
| GraphTooLarge.

Definition entry := result CachedPackage (PackageReadError F XmlError).
Definition PackageCache := list ((PackageId * str) * entry).

Inductive outcome (A : Type) :=
| Ret (c : PackageCache) (a : A)
| Decline (d : ResolveDecline)
| Panic
| OutOfFuel.
Arguments Ret {A} c a.
Arguments Decline {A} d.
Arguments Panic {A}.
Arguments OutOfFuel {A}.

(** Code that reads and extends the cache. *)
Definition M (A : Type) := PackageCache -> outcome A.
Definition ret {A} (a : A) : M A := fun c => Ret c a.
Definition decline {A} (d : ResolveDecline) : M A := fun _ => Decline d.
Definition panic {A} : M A := fun _ => Panic.
Definition no_fuel {A} : M A := fun _ => OutOfFuel.
Definition bind {A B} (m : M A) (k : A -> M B) : M B :=
  fun c =>
    match m c with
    | Ret c' a => k a c'
    | Decline d => Decline d
    | Panic => Panic
    | OutOfFuel => OutOfFuel
    end.
Notation "'do!' x := m 'in' k" := (bind m (fun x => k))
  (at level 10, x pattern, m at level 100, k at level 200).

(** [v[i]] and [.expect(..)]. *)
Definition index {A} (l : list A) (i : nat) : M A :=
  match l !! i with Some a => ret a | None => panic end.
Definition expect_some {A} (o : option A) : M A :=
  match o with Some a => ret a | None => panic end.
Definition lift {A} (r : result A ResolveDecline) : M A :=
  match r with Ok a => ret a | Err d => decline d end.

Definition exact_lower_bound (i : PackageId) (range : VersionRange) : result NuGetVersion ResolveDecline :=
  if is_floating range then Err (FloatingRange i range)
  else
    match min range with
    | None => Err (OpenLowerBound i range)
    | Some v =>
        if negb (min_inclusive range) then Err (ExclusiveLowerBound i range)
        else if negb (satisfies range v) then Err (UnsatisfiedLowerBound i range v)
        else Ok v
    end.

(** The [expect("every surviving edge has a lower bound")] calls. *)
Definition lower_bound_expect (i : PackageId) (range : VersionRange) : M NuGetVersion :=
  match exact_lower_bound i range with Ok v => ret v | Err _ => panic end.

(** ** [PackageCache] *)

(** What [entry] computes for a package not asked for yet; [None] is the panic
    of [select_dependency_group]'s indexing. *)
Definition read_entry (identity : PackageIdentity) : option entry :=
  match read_installed_package parse_xml root identity with
  | Err e => Some (Err e)
  | Ok package =>
      match select_dependency_group (installed_nuspec package) framework with
      | None => None
      | Some group =>
          Some (Ok {| package := package;
                      cached_dependencies := match group with Some g => dependencies g | None => [] end |})
      end
  end.

Definition PackageCache_entry (identity : PackageIdentity) : M entry :=
  fun c =>
    match bt_get key_cmp c (package_key identity) with
    | Some e => Ret c e
    | None =>
        match read_entry identity with
        | Some e => Ret (bt_insert key_cmp c (package_key identity) e) e
        | None => Panic
        end
    end.

Definition PackageCache_get (identity : PackageIdentity) : M (option CachedPackage) :=
  do! e := PackageCache_entry identity in
  ret (match e with Ok p => Some p | Err _ => None end).

Definition PackageCache_is_committed (identity : PackageIdentity) : M bool :=
  do! got := PackageCache_get identity in
  match got with
  | Some _ => ret true
  | None =>
      let paths := PackagePaths_new root identity in
      lift (map_err (fun source => PackageRead identity (Io (metadata_path paths) source))
              (is_committed paths))
  end.

Definition PackageCache_take_error (identity : PackageIdentity) : M (option (PackageReadError F XmlError)) :=
  fun c =>
    match bt_get key_cmp c (package_key identity) with
    | Some (Err e) => Ret (bt_remove key_cmp c (package_key identity)) (Some e)
    | Some (Ok _) | None => Ret c None
    end.

(** A package that must have been read: its read error is the decline. *)
Definition get_or_decline (identity : PackageIdentity) : M CachedPackage :=
  do! got := PackageCache_get identity in
  match got with
  | Some cached => ret cached
  | None =>
      do! e := PackageCache_take_error identity in
      do! source := expect_some e in
      decline (PackageRead identity source)
  end.

(** ** Dependencies of a node *)

Definition direct_edges (direct : list DirectPackageRequirement) : list edge :=
  map (fun r => (direct_id r, direct_range r)) direct.

(** The loop of [node_dependencies]: all the edges, or the first shape error. *)
Fixpoint dependency_edges (deps : list PackageDependency) : result (list edge) ShapeError :=
  match deps with
  | [] => Ok []
  | d :: deps' =>
      if (is_some (include d) || is_some (exclude d))%bool then Err (AssetFilter (dependency_id d))
      else
        match version_range d with
        | None => Err (NoRange (dependency_id d))
        | Some range =>
            match dependency_edges deps' with
            | Ok es => Ok ((dependency_id d, range) :: es)
            | Err e => Err e
            end
        end
  end.

Definition set_shape (w : Walk) (k : PackageId * str) (e : ShapeError) : Walk :=
  {| edges := edges w; selected := selected w; downgrades := downgrades w; parents := parents w;
     surviving := surviving w; cycle := cycle w; float_compared := float_compared w;
     losers := losers w; nodes := nodes w; shapes := bt_insert key_cmp (shapes w) k e |}.

Definition node_dependencies (ns : list Node) (node : nat) (direct : list DirectPackageRequirement)
    (current : versions) (walk : Walk) : M (list edge * Walk) :=
  do! n := index ns node in
  match node_id n with
  | None => ret (direct_edges direct, walk)
  | Some i =>
      do! v := expect_some (bt_get PackageId_cmp current i) in
      let identity := PackageIdentity_new i v in
      do! got := PackageCache_get identity in
      match got with
      | None => ret ([], walk)
      | Some cached =>
          match dependency_edges (cached_dependencies cached) with
          | Ok es => ret (es, walk)
          | Err shape => ret ([], set_shape walk (package_key identity) shape)
          end
      end
  end.

Definition ancestor_dependencies (ns : list Node) (node : nat) (direct : list DirectPackageRequirement)
    (current : versions) : M (list edge) :=
  do! n := index ns node in
  match node_id n with
  | None => ret (direct_edges direct)
  | Some i =>
      match bt_get PackageId_cmp current i with
      | None => ret []
      | Some v =>
          do! got := PackageCache_get (PackageIdentity_new i v) in
          match got with
          | None => ret []
          | Some cached =>
              ret (map (fun d => (dependency_id d, default all_versions_range (version_range d)))
                     (cached_dependencies cached))
          end
      end
  end.

(** The [for] over an ancestor's siblings: the first that decides. *)
Fixpoint sibling_verdict (excluded i : nat) (siblings : list edge) (candidate : PackageId)
    (range : VersionRange) : option Verdict :=
  match siblings with
  | [] => None
  | (sibling_id, sibling_range) :: siblings' =>
      if Nat.eqb i excluded then sibling_verdict excluded (S i) siblings' candidate range
      else if negb (PackageId_eqb sibling_id candidate)
      then sibling_verdict excluded (S i) siblings' candidate range
      else if (is_floating sibling_range || is_floating range)%bool then Some FloatCompared
      else if is_at_least sibling_range range then Some Eclipsed else Some PotentiallyDowngraded
  end.

(** The [while let Some(index) = ancestor] loop. *)
Fixpoint classify_up (fuel : nat) (ns : list Node) (child : nat) (ancestor : option nat)
    (candidate : PackageId) (range : VersionRange) (direct : list DirectPackageRequirement)
    (current : versions) : M Verdict :=
  match ancestor with
  | None => ret Acceptable
  | Some i =>
      match fuel with
      | O => no_fuel
      | S fuel' =>
          do! n := index ns i in
          if id_is (node_id n) candidate then ret Cycle
          else
            do! siblings := ancestor_dependencies ns i direct current in
            do! c := index ns child in
            match sibling_verdict (node_dep_index c) 0 siblings candidate range with
            | Some v => ret v
            | None => classify_up fuel' ns i (node_parent n) candidate range direct current
            end
      end
  end.

Definition classify (ns : list Node) (parent : nat) (candidate : PackageId) (range : VersionRange)
    (direct : list DirectPackageRequirement) (current : versions) : M Verdict :=
  do! n := index ns parent in
  if id_is (node_id n) candidate then ret Cycle
  else classify_up (length ns) ns parent (node_parent n) candidate range direct current.

(** The ids from a node up to the root, the root's end last. *)
Fixpoint path_up (fuel : nat) (ns : list Node) (current : option nat) : M (list PackageId) :=
  match current with
  | None => ret []
  | Some i =>
      match fuel with
      | O => no_fuel
      | S fuel' =>
          do! n := index ns i in
          do! rest := path_up fuel' ns (node_parent n) in
          ret (match node_id n with Some j => j :: rest | None => rest end)
      end
  end.

Definition cycle_path (ns : list Node) (node : nat) (i : PackageId) : M (list PackageId) :=
  do! up := path_up (length ns) ns (Some node) in
  let path := rev up in
  let start := default 0 (position (fun candidate => PackageId_eqb candidate i) path) in
  ret (drop start path ++ [i]).

(** ** The walk *)

Record walk_state := {
  ws_nodes : list Node;
  ws_walk : Walk;
  ws_current : versions;
  ws_stack : list nat }.

Definition push_edge (es : list (PackageId * list VersionRange)) (i : PackageId) (r : VersionRange) :=
  bt_insert PackageId_cmp es i (default [] (bt_get PackageId_cmp es i) ++ [r]).

(** [walk.surviving[node].push(..)]. *)
Definition push_surviving (sv : list (list edge)) (node : nat) (e : edge) : M (list (list edge)) :=
  do! l := index sv node in
  ret (<[node := l ++ [e]]> sv).

(** [if current.get(id).is_none_or(|existing| &lower_bound > existing) { current.insert(..) }]. *)
Definition raise_version (current : versions) (i : PackageId) (lower_bound : NuGetVersion) : versions :=
  match bt_get PackageId_cmp current i with
  | None => bt_insert PackageId_cmp current i lower_bound
  | Some existing =>
      if cmp_ltb NuGetVersion_cmp existing lower_bound
      then bt_insert PackageId_cmp current i lower_bound else current
  end.

(** The end of the loop body, for an edge that survives. *)
Definition accept (node dep_index : nat) (i : PackageId) (range : VersionRange) (st : walk_state)
    : M walk_state :=
  let w := ws_walk st in
  do! lower_bound := lift (exact_lower_bound i range) in
  let current := raise_version (ws_current st) i lower_bound in
  do! sv := push_surviving (surviving w) node (i, range) in
  let es := push_edge (edges w) i range in
  let winner :=
    match bt_get PackageId_cmp current i with
    | Some v => NuGetVersion_eqb v lower_bound
    | None => false
    end in
  if negb winner then
    ret {| ws_nodes := ws_nodes st;
           ws_walk := {|
             edges := es; selected := selected w; downgrades := downgrades w; parents := parents w;
             surviving := sv; cycle := cycle w; float_compared := float_compared w;
             losers := losers w ++ [{| loser_identity := PackageIdentity_new i lower_bound;
                                       loser_parent := node; loser_dep_index := dep_index |}];
             nodes := nodes w; shapes := shapes w |};
           ws_current := current; ws_stack := ws_stack st |}
  else if N.leb MAX_NODES (N.of_nat (length (ws_nodes st))) then decline GraphTooLarge
  else
    ret {| ws_nodes := ws_nodes st ++ [{| node_id := Some i; node_parent := Some node; node_dep_index := dep_index |}];
           ws_walk := {|
             edges := es; selected := selected w; downgrades := downgrades w; parents := parents w;
             surviving := sv ++ [[]]; cycle := cycle w; float_compared := float_compared w;
             losers := losers w; nodes := nodes w; shapes := shapes w |};
           ws_current := current; ws_stack := length (ws_nodes st) :: ws_stack st |}.

(** The body of the [for] loop over a node's dependencies. *)
Definition visit (direct : list DirectPackageRequirement) (node dep_index : nat) (e : edge)
    (st : walk_state) : M walk_state :=
  let '(i, range) := e in
  let w := ws_walk st in
  let with_walk w' := {| ws_nodes := ws_nodes st; ws_walk := w';
                         ws_current := ws_current st; ws_stack := ws_stack st |} in
  do! verdict := classify (ws_nodes st) node i range direct (ws_current st) in
  match verdict with
  | Eclipsed => ret st
  | FloatCompared =>
      ret (with_walk {|
        edges := edges w; selected := selected w; downgrades := downgrades w; parents := parents w;
        surviving := surviving w; cycle := cycle w;
        float_compared := match float_compared w with None => Some (i, range) | Some x => Some x end;
        losers := losers w; nodes := nodes w; shapes := shapes w |})
  | Cycle =>
      match cycle w with
      | Some _ => ret st
      | None =>
          do! path := cycle_path (ws_nodes st) node i in
          ret (with_walk {|
            edges := edges w; selected := selected w; downgrades := downgrades w; parents := parents w;
            surviving := surviving w; cycle := Some path; float_compared := float_compared w;
            losers := losers w; nodes := nodes w; shapes := shapes w |})
      end
  | PotentiallyDowngraded =>
      ret (with_walk {|
        edges := edges w; selected := selected w;
        downgrades := downgrades w ++ [{| downgrade_id := i; downgrade_range := range; downgrade_parent := node |}];
        parents := parents w; surviving := surviving w; cycle := cycle w;
        float_compared := float_compared w; losers := losers w; nodes := nodes w; shapes := shapes w |})
  | Acceptable => accept node dep_index i range st
  end.

Fixpoint visit_all (direct : list DirectPackageRequirement) (node dep_index : nat) (es : list edge)
    (st : walk_state) : M walk_state :=
  match es with
  | [] => ret st
  | e :: es' =>
      do! st' := visit direct node dep_index e st in
      visit_all direct node (S dep_index) es' st'
  end.

(** The [while let Some(node) = stack.pop()] loop. *)
Fixpoint walk_loop (fuel : nat) (direct : list DirectPackageRequirement) (st : walk_state) : M walk_state :=
  match ws_stack st with
  | [] => ret st
  | node :: stack =>
      match fuel with
      | O => no_fuel
      | S fuel' =>
          do! (es, w) := node_dependencies (ws_nodes st) node direct (ws_current st) (ws_walk st) in
          do! st' := visit_all direct node 0 es
            {| ws_nodes := ws_nodes st; ws_walk := w; ws_current := ws_current st; ws_stack := stack |} in
          walk_loop fuel' direct st'
      end
  end.

(** [Iterator::max]: the last of the greatest. *)
Definition max_version (vs : list NuGetVersion) : option NuGetVersion :=
  fold_left (fun best v =>
    match best with
    | None => Some v
    | Some b => if cmp_leb NuGetVersion_cmp b v then Some v else Some b
    end) vs None.

Fixpoint mapMM {A B} (f : A -> M B) (l : list A) : M (list B) :=
  match l with
  | [] => ret []
  | a :: l' => do! b := f a in do! bs := mapMM f l' in ret (b :: bs)
  end.

(** The settled version of one entry of the edge map. *)
Definition greatest_lower_bound (e : PackageId * list VersionRange) : M (PackageId * NuGetVersion) :=
  do! bounds := mapMM (lower_bound_expect (fst e)) (snd e) in
  do! v := expect_some (max_version bounds) in
  ret (fst e, v).

Definition walk_fuel : nat := N.to_nat MAX_NODES.

Definition empty_walk : Walk :=
  {| edges := []; selected := []; downgrades := []; parents := []; surviving := [[]]; cycle := None;
     float_compared := None; losers := []; nodes := []; shapes := [] |}.

Definition initial_state (sel : versions) : walk_state :=
  {| ws_nodes := [{| node_id := None; node_parent := None; node_dep_index := 0 |}];
     ws_walk := empty_walk; ws_current := sel; ws_stack := [0] |}.

Definition walk (direct : list DirectPackageRequirement) (sel : versions) : M Walk :=
  do! st := walk_loop walk_fuel direct (initial_state sel) in
  let w := ws_walk st in
  do! sel' := mapMM greatest_lower_bound (edges w) in
  ret {| edges := edges w; selected := sel'; downgrades := downgrades w;
         parents := map node_parent (ws_nodes st); surviving := surviving w; cycle := cycle w;
         float_compared := float_compared w; losers := losers w; nodes := ws_nodes st;
         shapes := shapes w |}.

(** ** Adjudication *)

Definition downgrade_step (d : PotentialDowngrade) (held_to : option NuGetVersion) (e : edge)
    : M (option NuGetVersion) :=
  let '(i, range) := e in
  if negb (PackageId_eqb i (downgrade_id d)) then ret held_to
  else if is_at_least range (downgrade_range d) then ret None
  else
    do! resolved := lower_bound_expect i range in
    ret (if negb (satisfies (downgrade_range d) resolved) then Some resolved else held_to).

Fixpoint foldM {A B} (f : B -> A -> M B) (l : list A) (b : B) : M B :=
  match l with
  | [] => ret b
  | a :: l' => do! b' := f b a in foldM f l' b'
  end.

Fixpoint downgrade_up (fuel : nat) (w : Walk) (d : PotentialDowngrade) (ancestor : option nat)
    (held_to : option NuGetVersion) : M (option NuGetVersion) :=
  match ancestor with
  | None => ret held_to
  | Some i =>
      match fuel with
      | O => no_fuel
      | S fuel' =>
          do! sv := index (surviving w) i in
          do! held_to' := foldM (downgrade_step d) sv held_to in
          do! p := index (parents w) i in
          downgrade_up fuel' w d p held_to'
      end
  end.

Definition downgrade_is_relevant (w : Walk) (d : PotentialDowngrade) (sel : NuGetVersion) : M bool :=
  if is_floating (downgrade_range d) then panic
  else
    do! held_to := downgrade_up (length (parents w)) w d (Some (downgrade_parent d)) None in
    ret (match held_to with Some v => NuGetVersion_eqb v sel | None => false end).

(** One dependency of a losing version. *)
Definition loser_dependency (w : Walk) (direct : list DirectPackageRequirement) (ns : list Node)
    (loser_node : nat) (loser : Loser) (dep : PackageDependency) : M unit :=
  let not_a_leaf := decline (LosingVersionNotALeaf (loser_identity loser) (dependency_id dep)) in
  if (is_some (include dep) || is_some (exclude dep))%bool then not_a_leaf
  else
    match version_range dep with
    | None => not_a_leaf
    | Some range =>
        do! verdict := classify ns loser_node (dependency_id dep) range direct (selected w) in
        match verdict with
        | Eclipsed | PotentiallyDowngraded => ret tt
        | Cycle | Acceptable | FloatCompared => not_a_leaf
        end
    end.

Fixpoint iterM {A} (f : A -> M unit) (l : list A) : M unit :=
  match l with
  | [] => ret tt
  | a :: l' => do! _ := f a in iterM f l'
  end.

Definition check_loser (w : Walk) (direct : list DirectPackageRequirement) (loser : Loser) : M unit :=
  do! cached := get_or_decline (loser_identity loser) in
  let deps := cached_dependencies cached in
  if is_empty deps then ret tt
  else
    let ns := nodes w ++ [{| node_id := Some (id (loser_identity loser));
                             node_parent := Some (loser_parent loser);
                             node_dep_index := loser_dep_index loser |}] in
    iterM (loser_dependency w direct ns (length ns - 1) loser) deps.

Definition engines_agree (w : Walk) (direct : list DirectPackageRequirement) : M unit :=
  let is_direct i := existsb (fun r => PackageId_eqb (direct_id r) i) direct in
  match float_compared w with
  | Some (i, range) => decline (FloatingRangeComparison i range)
  | None =>
      match List.find (fun d => negb (is_direct (downgrade_id d))) (downgrades w) with
      | Some d => decline (TransitivePotentialDowngrade (downgrade_id d) (downgrade_range d))
      | None => iterM (check_loser w direct) (losers w)
      end
  end.

(** ** The legacy conflict pass *)

(** [while let Some((i, x)) = stack.pop() { body; stack.extend(children of i, each with x') }];
    [body] answers [None] to skip the children. *)
Fixpoint stack_loop {X S} (fuel : nat) (cns : list ConflictNode) (body : nat -> X -> S -> M (S * option X))
    (stack : list (nat * X)) (s : S) : M S :=
  match stack with
  | [] => ret s
  | (i, x) :: stack' =>
      match fuel with
      | O => no_fuel
      | Datatypes.S fuel' =>
          do! (s', next) := body i x s in
          match next with
          | None => stack_loop fuel' cns body stack' s'
          | Some y =>
              do! n := index cns i in
              stack_loop fuel' cns body (rev (map (fun c => (c, y)) (cn_children n)) ++ stack') s'
          end
      end
  end.

Definition oid_cmp : option PackageId -> option PackageId -> comparison := option_cmp PackageId_cmp.
Definition over_cmp : option NuGetVersion -> option NuGetVersion -> comparison := option_cmp NuGetVersion_cmp.
Definition tracked_versions := list (option PackageId * list (option NuGetVersion)).

(** [WalkTreeRejectNodesOfRejectedNodes]. *)
Definition reject_body (cns : list ConflictNode) (i : nat) (live : bool)
    (s : list Disposition * tracked_versions) : M ((list Disposition * tracked_versions) * option bool) :=
  let '(dispositions, tracked) := s in
  do! d := index dispositions i in
  let live := (live && negb (bool_decide (d = DRejected)))%bool in
  do! n := index cns i in
  if live then
    let vs := default [] (bt_get oid_cmp tracked (cn_id n)) in
    let vs := if existsb (fun v => cmp_eqb over_cmp v (cn_version n)) vs then vs else vs ++ [cn_version n] in
    ret ((dispositions, bt_insert oid_cmp tracked (cn_id n) vs), Some live)
  else ret ((<[i := DRejected]> dispositions, tracked), Some live).

Definition disputed (tracked : tracked_versions) (o : option PackageId) : bool :=
  match bt_get oid_cmp tracked o with Some vs => Nat.ltb 1 (length vs) | None => false end.

(** [WalkTreeMarkAmbiguousNodes]. *)
Definition ambiguity_body (cns : list ConflictNode) (dispositions : list Disposition)
    (tracked : tracked_versions) (i : nat) (state : AmbiguityWalk)
    (ambiguous : list (option PackageId * unit)) : M (list (option PackageId * unit) * option AmbiguityWalk) :=
  do! d := index dispositions i in
  do! n := index cns i in
  if bool_decide (d = DRejected) then ret (ambiguous, Some ARejected)
  else if (bool_decide (state = Walking) && disputed tracked (cn_id n))%bool then ret (ambiguous, Some Ambiguous)
  else
    let ambiguous :=
      if bool_decide (state = Ambiguous) then bt_insert oid_cmp ambiguous (cn_id n) tt else ambiguous in
    ret (ambiguous, Some state).

(** [WalkTreeAcceptOrRejectNodes]. *)
Definition accept_body (cns : list ConflictNode) (tracked : tracked_versions)
    (ambiguous : list (option PackageId * unit)) (i : nat) (_ : unit) (dispositions : list Disposition)
    : M (list Disposition * option unit) :=
  do! n := index cns i in
  do! d := index dispositions i in
  if (bool_decide (d = DRejected) || bt_contains oid_cmp ambiguous (cn_id n))%bool
  then ret (dispositions, None)
  else
    do! dispositions :=
      if bool_decide (d = DAcceptable) then
        do! known := expect_some (bt_get oid_cmp tracked (cn_id n)) in
        let best := forallb (fun k => cmp_leb over_cmp k (cn_version n)) known in
        ret (<[i := if best then DAccepted else DRejected]> dispositions)
      else ret dispositions in
    do! d := index dispositions i in
    ret (dispositions, if bool_decide (d = DAccepted) then Some tt else None).

Definition conflict_round (cns : list ConflictNode) (dispositions : list Disposition) : M (list Disposition) :=
  let fuel := length cns in
  do! (dispositions, tracked) := stack_loop fuel cns (reject_body cns) [(0, true)] (dispositions, []) in
  do! ambiguous := stack_loop fuel cns (ambiguity_body cns dispositions tracked) [(0, Walking)] [] in
  stack_loop fuel cns (accept_body cns tracked ambiguous) [(0, tt)] dispositions.

(** At most [n] rounds, until nothing is undecided or nothing changes. *)
Fixpoint conflict_rounds (n : nat) (cns : list ConflictNode) (dispositions : list Disposition)
    : M (list Disposition) :=
  match n with
  | O => ret dispositions
  | S n' =>
      if negb (bool_decide (DAcceptable ∈ dispositions)) then ret dispositions
      else
        do! after := conflict_round cns dispositions in
        if bool_decide (after = dispositions) then ret after else conflict_rounds n' cns after
  end.

Definition push_child (cns : list ConflictNode) (parent child : nat) : M (list ConflictNode) :=
  do! n := index cns parent in
  ret (<[parent := {| cn_id := cn_id n; cn_version := cn_version n;
                      cn_children := cn_children n ++ [child] |}]> cns).

Definition conflict_node (w : Walk) (n : Node) : M ConflictNode :=
  match node_id n with
  | None => ret {| cn_id := None; cn_version := None; cn_children := [] |}
  | Some i =>
      do! v := expect_some (bt_get PackageId_cmp (selected w) i) in
      ret {| cn_id := Some i; cn_version := Some v; cn_children := [] |}
  end.

(** The two loops that link the tree: parents to children, then the losers as
    leaves. *)
Definition link_child (cns : list ConflictNode) (x : nat * Node) : M (list ConflictNode) :=
  match node_parent (snd x) with
  | Some parent => push_child cns parent (fst x)
  | None => ret cns
  end.

Definition link_loser (cns : list ConflictNode) (l : Loser) : M (list ConflictNode) :=
  let cns := cns ++ [{| cn_id := Some (id (loser_identity l)); cn_version := Some (version (loser_identity l));
                        cn_children := [] |}] in
  push_child cns (loser_parent l) (length cns - 1).

Definition enumerate {A} (l : list A) : list (nat * A) := zip (seq 0 (length l)) l.

Definition conflict_nodes (w : Walk) : M (list ConflictNode) :=
  do! cns := mapMM (conflict_node w) (nodes w) in
  do! cns := foldM link_child (enumerate (nodes w)) cns in
  foldM link_loser (losers w) cns.

Definition settle_conflicts (w : Walk) : M unit :=
  do! cns := conflict_nodes w in
  do! dispositions := conflict_rounds (N.to_nat CONFLICT_PASS_ROUNDS) cns (replicate (length cns) DAcceptable) in
  let undecided :=
    fold_left (fun s '(n, d) =>
      match cn_id n with
      | Some i => if bool_decide (d = DAcceptable) then bt_insert PackageId_cmp s i tt else s
      | None => s
      end) (zip cns dispositions) [] in
  if negb (is_empty undecided) then decline (UndecidedConflict (map fst undecided))
  else
    iterM (fun '(i, d) =>
      if bool_decide (d = if Nat.ltb i (length (nodes w)) then DAccepted else DRejected)
      then ret tt else panic) (enumerate dispositions).

(** ** [finish] and [resolve_offline] *)

Definition selected_identity (w : Walk) (i : PackageId) : M PackageIdentity :=
  do! v := expect_some (bt_get PackageId_cmp (selected w) i) in
  ret (PackageIdentity_new i v).

Definition read_selected (w : Walk) (i : PackageId) : M ResolvedPackage :=
  do! identity := selected_identity w i in
  do! cached := get_or_decline identity in
  ret {| resolved_identity := installed_identity (package cached);
         resolved_paths := installed_paths (package cached) |}.

Definition check_shape (w : Walk) (i : PackageId) : M unit :=
  do! identity := selected_identity w i in
  match bt_get key_cmp (shapes w) (package_key identity) with
  | Some (AssetFilter d) => decline (DependencyAssetFilterUnsupported identity d)
  | Some (NoRange d) => decline (DependencyWithoutRange identity d)
  | None => ret tt
  end.

Definition check_losing_edge (i : PackageId) (sel : NuGetVersion) (range : VersionRange) : M unit :=
  do! lower_bound := lower_bound_expect i range in
  if NuGetVersion_eqb lower_bound sel then ret tt
  else
    do! committed := PackageCache_is_committed (PackageIdentity_new i lower_bound) in
    if negb committed then decline (UnresolvableLosingEdge i range sel) else ret tt.

Definition check_losing_edges (w : Walk) (e : PackageId * list VersionRange) : M unit :=
  do! sel := expect_some (bt_get PackageId_cmp (selected w) (fst e)) in
  iterM (check_losing_edge (fst e) sel) (snd e).

Definition check_version_conflict (w : Walk) (e : PackageId * list VersionRange) : M unit :=
  do! v := expect_some (bt_get PackageId_cmp (selected w) (fst e)) in
  iterM (fun range => if negb (satisfies range v) then decline (VersionConflict (fst e) v range) else ret tt)
    (snd e).

Definition check_downgrade (w : Walk) (d : PotentialDowngrade) : M unit :=
  match bt_get PackageId_cmp (selected w) (downgrade_id d) with
  | None => ret tt
  | Some sel =>
      do! relevant := downgrade_is_relevant w d sel in
      if relevant : bool then decline (Downgrade (downgrade_id d) sel (downgrade_range d)) else ret tt
  end.

Definition finish (w : Walk) (direct : list DirectPackageRequirement) : M ResolvedPackageClosure :=
  do! packages := mapMM (read_selected w) (bt_keys (edges w)) in
  do! _ := iterM (check_shape w) (bt_keys (edges w)) in
  do! _ := iterM (check_losing_edges w) (edges w) in
  do! _ := engines_agree w direct in
  match cycle w with
  | Some c => decline (DependencyCycle c)
  | None =>
      do! _ := settle_conflicts w in
      do! _ := iterM (check_version_conflict w) (edges w) in
      do! _ := iterM (check_downgrade w) (downgrades w) in
      ret packages
  end.

(** The rounds of [resolve_offline]: re-walk until the versions settle. *)
Fixpoint resolve_rounds (n : nat) (direct : list DirectPackageRequirement) (sel : versions)
    : M ResolvedPackageClosure :=
  match n with
  | O => decline GraphTooLarge
  | S n' =>
      do! w := walk direct sel in
      if bt_eqb PackageId_cmp NuGetVersion_eqb (selected w) sel then finish w direct
      else resolve_rounds n' direct (selected w)
  end.

Definition resolve_offline (direct : list DirectPackageRequirement) : outcome ResolvedPackageClosure :=
  if negb (is_resolver_project_framework framework) then Decline (UnsupportedProjectFramework framework)
  else resolve_rounds MAX_ROUNDS direct [] [].
End resolver.
Arguments Ret {F XmlError _ A} c a.
Arguments Decline {F XmlError _ A} d.
Arguments Panic {F XmlError _ A}.
Arguments OutOfFuel {F XmlError _ A}.
Arguments CachedPackage F : clear implicits.
Arguments entry F XmlError {_} : assert.
Arguments PackageCache F XmlError {_} : assert.
Arguments M F XmlError {_} A : assert.

Notation "'do!' x := m 'in' k" := (bind m (fun x => k))
  (at level 10, x pattern, m at level 100, k at level 200) : rust_scope.
