(* ===== verification/ResolverEx.v ===== *)
(** * A small package folder

    A concrete file system, XML parser and framework, on which the resolver of
    [Resolver] is evaluated and the theorems about it are instantiated. *)

From S2P Require Import Prelude Order Version Range Package Nuspec BTree Resolver.

#[export, refine] Instance unit_framework : Framework unit := {
  FrameworkParseError := unit;
  NuGetFramework_parse := fun _ => Ok tt;
  any_framework := tt;
  NuGetFramework_parse_any := eq_refl;
  get_nearest_reducer := fun _ l => match l with [] => None | _ => Some 0 end;
  is_resolver_project_framework := fun _ => true }.
Proof. intros _ [|? ?] n [= <-]. simpl. lia. Defined.

(** A package: id, version, dependencies (id, range). *)
Definition pkg := (str * str * list (str * str))%type.

Definition nuspec_of (p : pkg) : xml_node :=
  Element None (#"package") []
    [Element None (#"metadata") []
      [Element None (#"dependencies") []
        (map (fun '(i, r) => Element None (#"dependency") [(#"id", i); (#"version", r)] []) (snd p))]].

Definition dir_of (p : pkg) : str :=
  let '(i, v, _) := p in #"/g/" ++ lower i ++ #"/" ++ lower v.

(** The nuspec of the [n]th package is the file whose one byte is the digit [n]. *)
Definition folder_fs (ps : list pkg) : FileSystem := {|
  fs_metadata := fun path =>
    if existsb (fun p => str_eqb path (dir_of p ++ #"/.nupkg.metadata")) ps then Ok true else Err NotFound;
  fs_read_dir := fun path =>
    match List.find (fun p => str_eqb path (dir_of p)) ps with
    | Some p => Ok [Ok {| file_name := Some (lower (fst (fst p)) ++ #".nuspec"); is_file := true;
                          file_type_is_dir := Ok false |}]
    | None => Err NotFound
    end;
  fs_read := fun path =>
    match position (fun p => str_eqb path (dir_of p ++ #"/" ++ lower (fst (fst p)) ++ #".nuspec")) ps with
    | Some n => Ok [48 + N.of_nat n]%N
    | None => Err NotFound
    end |}.

Definition folder_env (ps : list pkg) : ResolverEnv unit unit := {|
  parse_xml := fun text =>
    match text with
    | [d] => ok_or (nuspec_of <$> ps !! N.to_nat (d - 48)) tt
    | _ => Err tt
    end;
  env_fs := folder_fs ps;
  root := #"/g";
  framework := tt |}.

Definition need (i r : str) : DirectPackageRequirement :=
  {| direct_id := PackageId_new i;
     direct_range := expect all_versions_range (VersionRange_parse r) |}.

Definition closure_of (o : outcome (F:=unit) (XmlError:=unit) ResolvedPackageClosure) : option (list (str * str)) :=
  match o with
  | Ret _ ps => Some (map (fun p => (as_str (id (resolved_identity p)),
                                     NuGetVersion_to_normalized_string (version (resolved_identity p)))) ps)
  | _ => None
  end.

(** A diamond: two packages want [C], the higher bound wins. *)
Definition diamond : list pkg :=
  [(#"A", #"1.0.0", [(#"C", #"1.0.0")]);
   (#"B", #"1.0.0", [(#"C", #"2.0.0")]);
   (#"C", #"1.0.0", []);
   (#"C", #"2.0.0", [(#"D", #"1.0.0")]);
   (#"D", #"1.0.0", [])].
Definition diamond_direct := [need (#"A") (#"1.0.0"); need (#"B") (#"1.0.0")].

Example diamond_closure :
  closure_of (resolve_offline (H0:=folder_env diamond) diamond_direct)
  = Some [(#"A", #"1.0.0"); (#"B", #"1.0.0"); (#"C", #"2.0.0"); (#"D", #"1.0.0")].
Proof. vm_compute. reflexivity. Qed.

(** A direct reference below what a dependency needs. *)
Example downgrade_declines :
  match resolve_offline (H0:=folder_env diamond) [need (#"B") (#"1.0.0"); need (#"c") (#"1.0.0")] with
  | Decline (Downgrade i _ _) => Some (as_str i) | _ => None end = Some (#"C").
Proof. vm_compute. reflexivity. Qed.

(** [Q] is first met at 1.0.0, whose dependency asks for [X] at 2.0.0; then at
    2.0.0, which asks for [X] at 1.0.0. *)
Definition falling : list pkg :=
  [(#"R", #"1.0.0", [(#"Q", #"2.0.0")]);
   (#"S", #"1.0.0", [(#"Q", #"1.0.0")]);
   (#"Q", #"1.0.0", [(#"X", #"2.0.0")]);
   (#"Q", #"2.0.0", [(#"X", #"1.0.0")]);
   (#"X", #"1.0.0", []);
   (#"X", #"2.0.0", [])].
Definition falling_direct := [need (#"R") (#"1.0.0"); need (#"S") (#"1.0.0")].

(** The version of [X] after one round and after two. *)
Definition selected_x (o : outcome (F:=unit) (XmlError:=unit) Walk) : option str :=
  match o with
  | Ret _ w => NuGetVersion_to_normalized_string <$> bt_get PackageId_cmp (selected w) (PackageId_new (#"X"))
  | _ => None
  end.

Example selected_version_falls :
  let round1 := walk (H0:=folder_env falling) falling_direct [] in
  let round2 := match round1 [] with
                | Ret c w => walk (H0:=folder_env falling) falling_direct (selected w) c
                | _ => Panic
                end in
  selected_x (round1 []) = Some (#"2.0.0") /\ selected_x round2 = Some (#"1.0.0").
Proof. vm_compute. auto. Qed.
