(* ===== verification/ResolverWalk.v ===== *)
(** * What the walk establishes

    The invariant of the dependency walk, and what is known of a {i settled}
    walk (one whose result is the version map it started from): every edge of
    every node has been accepted, eclipsed, dropped as a potential downgrade,
    or recorded as a cycle or floating comparison; every accepted edge comes
    from a node that is reached from the direct requirements; every loser is
    below its winner; and every package with an edge has an expanded node. *)

From S2P Require Import Prelude Order Version Range Package Nuspec BTree Resolver ResolverThm.

(** The lower bound of an edge that can survive the walk. *)
Definition lower_bound_of (r : VersionRange) : option NuGetVersion :=
  if is_floating r then None
  else
    match min r with
    | Some v => if (min_inclusive r && satisfies r v)%bool then Some v else None
    | None => None
    end.

(** An edge on package [j] with range [r] survived. *)
Definition recorded (es : list (PackageId * list VersionRange)) (j : PackageId) (r : VersionRange) : Prop :=
  exists rs, bt_get PackageId_cmp es j = Some rs /\ r ∈ rs.

Lemma recorded_push es i r j r' :
  recorded (push_edge es i r) j r' <-> (PackageId_cmp j i = Eq /\ r' = r) \/ recorded es j r'.
Proof.
  unfold recorded, push_edge. setoid_rewrite (bt_get_insert PackageId_cmp).
  destruct (PackageId_cmp j i) eqn:E.
  - rewrite (bt_get_equiv PackageId_cmp es j i E). destruct (bt_get PackageId_cmp es i) as [rs|]; simpl.
    + split; [intros (? & [= <-] & Hin); set_solver|].
      intros [[_ ->]|(? & [= <-] & ?)]; eexists; split; [done| |done|]; set_solver.
    + split; [intros (? & [= <-] & Hin); set_solver|].
      intros [[_ ->]|(? & ? & ?)]; [|done]. eexists. split; [done|]. set_solver.
  - naive_solver.
  - naive_solver.
Qed.

Lemma recorded_equiv es j j' r : PackageId_cmp j j' = Eq -> recorded es j r -> recorded es j' r.
Proof. intros E. unfold recorded. by rewrite (bt_get_equiv PackageId_cmp es j j' E). Qed.

Section walk.
Context {F XmlError : Type} `{RE : ResolverEnv F XmlError}.
Notation cache := (PackageCache F XmlError).
Implicit Types (c : cache) (ns : list Node).
Context (direct : list DirectPackageRequirement).

(** [depends i v j r]: the installed package in the folder of [i] at [v] depends
    on [j] with range [r]. *)
Definition depends (i : PackageId) (v : NuGetVersion) (j : PackageId) (r : VersionRange) : Prop :=
  exists identity cached d,
    key_cmp (package_key (PackageIdentity_new i v)) (package_key identity) = Eq
    /\ read_entry identity = Some (Ok cached) /\ d ∈ cached_dependencies cached
    /\ dependency_id d = j /\ version_range d = Some r.

(** A range written in a requirement or in a nuspec. *)
Definition written (r : VersionRange) : Prop :=
  (exists q, q ∈ direct /\ direct_range q = r) \/ exists i v j, depends i v j r.

Lemma exact_lower_bound_ok i r v :
  exact_lower_bound (XmlError:=XmlError) i r = Ok v <-> lower_bound_of r = Some v.
Proof.
  unfold exact_lower_bound, lower_bound_of. destruct (is_floating r); [done|].
  destruct (min r) as [m|]; [|done]. destruct (min_inclusive r), (satisfies r m); simpl; naive_solver.
Qed.

(** ** The structural invariant *)

Record inv (st : walk_state) : Prop := {
  inv_tree : tree (ws_nodes st);
  inv_bound : length (ws_nodes st) <= walk_fuel;
  inv_surviving : length (surviving (ws_walk st)) = length (ws_nodes st);
  inv_stack : Forall (fun k => k < length (ws_nodes st)) (ws_stack st);
  inv_sorted : bt_sorted PackageId_cmp (edges (ws_walk st));
  inv_nonempty : forall j rs, bt_get PackageId_cmp (edges (ws_walk st)) j = Some rs -> rs <> [];
  inv_lower : forall j r, recorded (edges (ws_walk st)) j r -> is_Some (lower_bound_of r) /\ written r;
  inv_nodes : forall k n i, ws_nodes st !! k = Some n -> node_id n = Some i ->
    is_Some (bt_get PackageId_cmp (ws_current st) i) /\ is_Some (bt_get PackageId_cmp (edges (ws_walk st)) i);
  inv_surviving_lower : forall k sv j r, surviving (ws_walk st) !! k = Some sv -> (j, r) ∈ sv ->
    is_Some (lower_bound_of r);
  inv_downgrades : Forall (fun d => is_floating (downgrade_range d) = false
    /\ downgrade_parent d < length (ws_nodes st)) (downgrades (ws_walk st));
  inv_losers : Forall (fun l => loser_parent l < length (ws_nodes st)
    /\ is_Some (bt_get PackageId_cmp (edges (ws_walk st)) (id (loser_identity l)))) (losers (ws_walk st)) }.

(** ** Sources of edges *)

Context (sel : versions).

(** The edges a node contributes, from the cache. *)
Definition src_edges c (n : Node) : list edge :=
  match node_id n with
  | None => direct_edges direct
  | Some i =>
      match bt_get PackageId_cmp sel i with
      | None => []
      | Some v =>
          match bt_get key_cmp c (package_key (PackageIdentity_new i v)) with
          | Some (Ok p) => match dependency_edges (cached_dependencies p) with Ok es => es | Err _ => [] end
          | _ => []
          end
      end
  end.

(** The node's package has a dependency list in a shape not modelled. *)
Definition bad_shape c (n : Node) (k : PackageId * str) : Prop :=
  exists i v p e, node_id n = Some i /\ bt_get PackageId_cmp sel i = Some v
    /\ k = package_key (PackageIdentity_new i v)
    /\ bt_get key_cmp c k = Some (Ok p) /\ dependency_edges (cached_dependencies p) = Err e.

Lemma src_edges_ext c c' n : ext c c' -> known sel c n -> src_edges c' n = src_edges c n.
Proof.
  intros He Hk. unfold src_edges. destruct (node_id n) as [i|] eqn:Ei; [|done].
  destruct (bt_get PackageId_cmp sel i) as [v|] eqn:Ev; [|done].
  destruct (Hk i v Ei Ev) as [e E]. by rewrite E, (He _ _ E).
Qed.

Lemma dependency_edges_all deps es : dependency_edges deps = Ok es ->
  map (fun d => (dependency_id d, default all_versions_range (version_range d))) deps = es.
Proof.
  revert es. induction deps as [|d deps IH]; simpl; intros es E; [by simplify_eq|].
  destruct (_ || _)%bool; [done|]. destruct (version_range d) as [r|]; [|done].
  destruct (dependency_edges deps) as [es'|] eqn:Es; [|done]. simplify_eq. simpl. f_equal. by apply IH.
Qed.

(** Where the shape is modelled, the eclipse check sees the node's own edges. *)
Lemma anc_src_edges c n : (forall k, ~ bad_shape c n k) -> anc_edges direct sel c n = src_edges c n.
Proof.
  intros Hs. unfold anc_edges, src_edges. destruct (node_id n) as [i|] eqn:Ei; [|done].
  destruct (bt_get PackageId_cmp sel i) as [v|] eqn:Ev; [|done].
  destruct (bt_get key_cmp c _) as [[p|e]|] eqn:Ek; [|done..].
  destruct (dependency_edges (cached_dependencies p)) as [es|e] eqn:Ee; [by apply dependency_edges_all|].
  destruct (Hs (package_key (PackageIdentity_new i v))). by exists i, v, p, e.
Qed.

(** ** The history of a calm walk

    [calm]: no recorded edge exceeds the versions the walk started from, so the
    walk never raised one. *)
Definition calm (es : list (PackageId * list VersionRange)) : Prop :=
  forall j r v, recorded es j r -> lower_bound_of r = Some v ->
    exists s, bt_get PackageId_cmp sel j = Some s /\ NuGetVersion_cmp v s <> Gt.

(** The walk accepted edge [d] of node [k]. *)
Definition accepted c ns (k d : nat) (j : PackageId) (r : VersionRange) : Prop :=
  exists n l, ns !! k = Some n /\ chain ns k l /\ known sel c n /\ src_edges c n !! d = Some (j, r)
    /\ id_is (node_id n) j = false /\ Forall (clear direct sel j ns c) l.

(** What happened to one edge of node [k]. *)
Definition edge_done c (st : walk_state) (k : nat) (e : edge) : Prop :=
  let '(j, r) := e in
  (recorded (edges (ws_walk st)) j r /\ exists sv, surviving (ws_walk st) !! k = Some sv /\ (j, r) ∈ sv)
  \/ (exists l, chain (ws_nodes st) k l /\ Exists (hit direct sel j r true (ws_nodes st) c) l)
  \/ (exists d l, d ∈ downgrades (ws_walk st) /\ downgrade_id d = j /\ downgrade_range d = r
        /\ downgrade_parent d = k
        /\ chain (ws_nodes st) k l /\ Exists (hit direct sel j r false (ws_nodes st) c) l)
  \/ cycle (ws_walk st) <> None
  \/ float_compared (ws_walk st) <> None.

Definition node_done c (st : walk_state) (k : nat) (n : Node) : Prop :=
  known sel c n /\ Forall (edge_done c st k) (src_edges c n)
  /\ (forall key, bad_shape c n key -> is_Some (bt_get key_cmp (shapes (ws_walk st)) key)).

Record hist c (st : walk_state) (active : option nat) : Prop := {
  hist_current : ws_current st = sel;
  hist_losers : Forall (fun l => exists s, bt_get PackageId_cmp sel (id (loser_identity l)) = Some s
    /\ NuGetVersion_cmp (version (loser_identity l)) s = Lt) (losers (ws_walk st));
  hist_winners : forall j r v s, recorded (edges (ws_walk st)) j r -> lower_bound_of r = Some v ->
    bt_get PackageId_cmp sel j = Some s -> NuGetVersion_cmp v s = Eq ->
    exists k n i, ws_nodes st !! k = Some n /\ node_id n = Some i /\ PackageId_cmp i j = Eq;
  hist_nodes : forall k n, ws_nodes st !! k = Some n ->
    k ∈ ws_stack st \/ active = Some k \/ node_done c st k n;
  hist_recorded : forall j r, recorded (edges (ws_walk st)) j r ->
    exists k d i, accepted c (ws_nodes st) k d i r /\ PackageId_cmp i j = Eq;
  hist_parents : forall k n i, ws_nodes st !! k = Some n -> node_id n = Some i ->
    exists p r, node_parent n = Some p /\ accepted c (ws_nodes st) p (node_dep_index n) i r;
  hist_surviving : forall sv, surviving (ws_walk st) !! 0 = Some sv ->
    forall j r, (j, r) ∈ sv -> (j, r) ∈ direct_edges direct }.

(** ** Progress *)

Record le c (st : walk_state) c' (st' : walk_state) : Prop := {
  le_ext : ext c c';
  le_nodes : exists t, ws_nodes st' = ws_nodes st ++ t;
  le_edges : forall j r, recorded (edges (ws_walk st)) j r -> recorded (edges (ws_walk st')) j r;
  le_downgrades : forall d, d ∈ downgrades (ws_walk st) -> d ∈ downgrades (ws_walk st');
  le_cycle : cycle (ws_walk st) <> None -> cycle (ws_walk st') <> None;
  le_float : float_compared (ws_walk st) <> None -> float_compared (ws_walk st') <> None;
  le_shapes : forall k, is_Some (bt_get key_cmp (shapes (ws_walk st)) k) ->
    is_Some (bt_get key_cmp (shapes (ws_walk st')) k);
  le_surviving : forall k sv, surviving (ws_walk st) !! k = Some sv ->
    exists t, surviving (ws_walk st') !! k = Some (sv ++ t) }.

Lemma le_refl_ext c c' st : ext c c' -> le c st c' st.
Proof.
  intros He. split; [done|exists []; by rewrite app_nil_r|auto..|].
  intros k sv Hsv. exists []. by rewrite app_nil_r.
Qed.

Lemma le_trans c1 s1 c2 s2 c3 s3 : le c1 s1 c2 s2 -> le c2 s2 c3 s3 -> le c1 s1 c3 s3.
Proof.
  intros [? [t1 E1] ? ? ? ? ? Hs1] [? [t2 E2] ? ? ? ? ? Hs2]. split; auto.
  - by etrans.
  - exists (t1 ++ t2). by rewrite E2, E1, app_assoc.
  - intros k sv (u1 & Hu1)%Hs1. destruct (Hs2 _ _ Hu1) as (u2 & Hu2).
    exists (u1 ++ u2). by rewrite app_assoc.
Qed.

Lemma calm_le c st c' st' : le c st c' st' -> calm (edges (ws_walk st')) -> calm (edges (ws_walk st)).
Proof. intros Hle Hc j r v Hr. apply Hc. by apply (le_edges _ _ _ _ Hle). Qed.

Lemma clear_le ns t c c' j x : ext c c' -> clear direct sel j ns c x -> clear direct sel j (ns ++ t) c' x.
Proof.
  intros He Hx. destruct (clear_ext _ _ _ _ _ _ _ He Hx) as (n & m & Hn & Hm & Hrest).
  exists n, m. split_and!; [by apply lookup_app_l_Some..|apply Hrest|apply Hrest|apply Hrest].
Qed.

Lemma hit_le b ns t c c' j r x : ext c c' -> hit direct sel j r b ns c x -> hit direct sel j r b (ns ++ t) c' x.
Proof.
  intros He Hx. destruct (hit_ext _ _ _ _ _ _ _ _ _ He Hx) as (n & m & d & i & r' & Hn & Hm & Hrest).
  exists n, m, d, i, r'. split_and!; [by apply lookup_app_l_Some..|apply Hrest|apply Hrest|apply Hrest|apply Hrest|apply Hrest|apply Hrest|apply Hrest].
Qed.

Lemma accepted_le ns t c c' k d j r : ext c c' -> accepted c ns k d j r -> accepted c' (ns ++ t) k d j r.
Proof.
  intros He (n & l & Hn & Hl & Hk & Hd & Hid & Hc). exists n, l.
  split_and!; [by apply lookup_app_l_Some|by apply chain_app|by eapply known_ext| |done|].
  - by rewrite (src_edges_ext c c').
  - eapply Forall_impl; [exact Hc|]. intros x. by apply clear_le.
Qed.

Lemma edge_done_le c st c' st' k e : le c st c' st' -> edge_done c st k e -> edge_done c' st' k e.
Proof.
  intros Hle. pose proof (le_nodes _ _ _ _ Hle) as [t Et]. destruct e as [j r]. unfold edge_done. rewrite Et.
  intros [(Hr & sv & Hsv & Hin)|[(l & Hl & He)|[(d & l & Hd & ? & ? & ? & Hl & He)|[Hc|Hf]]]].
  - left. split; [by apply (le_edges _ _ _ _ Hle)|].
    destruct (le_surviving _ _ _ _ Hle _ _ Hsv) as [u Hu]. exists (sv ++ u). split; [done|set_solver].
  - right; left. exists l. split; [by apply chain_app|]. eapply Exists_impl; [exact He|].
    intros x. apply hit_le, Hle.
  - do 2 right; left. exists d, l. split_and!; [by apply (le_downgrades _ _ _ _ Hle)|done..|by apply chain_app|].
    eapply Exists_impl; [exact He|]. intros x. apply hit_le, Hle.
  - do 3 right; left. by apply (le_cycle _ _ _ _ Hle).
  - do 4 right. by apply (le_float _ _ _ _ Hle).
Qed.

Lemma bad_shape_back c c' n k : ext c c' -> known sel c n -> bad_shape c' n k -> bad_shape c n k.
Proof.
  intros He Hk (i & v & p & e & Hi & Hv & -> & Hp & Hd). destruct (Hk i v Hi Hv) as [e' E].
  rewrite (He _ _ E) in Hp. simplify_eq. by exists i, v, p, e.
Qed.

Lemma node_done_le c st c' st' k n : le c st c' st' -> node_done c st k n -> node_done c' st' k n.
Proof.
  intros Hle (Hk & Hes & Hs). pose proof (le_ext _ _ _ _ Hle) as He. split_and!.
  - by eapply known_ext.
  - rewrite (src_edges_ext c c') by done. eapply Forall_impl; [exact Hes|]. intros e. by eapply edge_done_le.
  - intros key Hb. apply (le_shapes _ _ _ _ Hle), Hs. by eapply bad_shape_back.
Qed.

(** A step that adds no node and no edge keeps the history. *)
Lemma hist_same c st c' st' a : le c st c' st' -> hist c st a ->
  ws_nodes st' = ws_nodes st -> ws_stack st' = ws_stack st -> ws_current st' = ws_current st ->
  edges (ws_walk st') = edges (ws_walk st) -> losers (ws_walk st') = losers (ws_walk st) ->
  surviving (ws_walk st') = surviving (ws_walk st) -> hist c' st' a.
Proof.
  intros Hle [H1 H2 H3 H4 H5 H6 H7] En Es Ec Ee El Ev.
  assert (Hacc : forall k d j r, accepted c (ws_nodes st) k d j r -> accepted c' (ws_nodes st) k d j r).
  { intros k d j r Ha. rewrite <- (app_nil_r (ws_nodes st)). eapply accepted_le; [apply Hle|done]. }
  split; rewrite ?En, ?Es, ?Ec, ?Ee, ?El, ?Ev; try done.
  - intros k n Hk. destruct (H4 k n Hk) as [?|[?|?]]; [auto..|]. right; right. by eapply node_done_le.
  - intros j r Hr. destruct (H5 j r Hr) as (k & d & i & Ha & ?). exists k, d, i. auto.
  - intros k n i Hk Hi. destruct (H6 k n i Hk Hi) as (p & r & ? & ?). exists p, r. auto.
Qed.

(** Accepting an edge: recorded, survived, and either lost or expanded. *)
Lemma hist_accept c st c' st' k d j r lb s t ls : le c st c' st' -> hist c st (Some k) ->
  inv st -> accepted c' (ws_nodes st) k d j r -> lower_bound_of r = Some lb ->
  bt_get PackageId_cmp sel j = Some s ->
  (t = [] /\ ls = [{| loser_identity := PackageIdentity_new j lb; loser_parent := k; loser_dep_index := d |}]
     /\ NuGetVersion_cmp lb s = Lt
   \/ t = [{| node_id := Some j; node_parent := Some k; node_dep_index := d |}] /\ ls = []) ->
  ws_nodes st' = ws_nodes st ++ t ->
  (forall x, x ∈ ws_stack st' <-> x ∈ ws_stack st \/ length (ws_nodes st) <= x < length (ws_nodes st) + length t) ->
  ws_current st' = sel -> edges (ws_walk st') = push_edge (edges (ws_walk st)) j r ->
  losers (ws_walk st') = losers (ws_walk st) ++ ls ->
  (forall sv, surviving (ws_walk st') !! 0 = Some sv -> forall e, e ∈ sv ->
     (exists sv0, surviving (ws_walk st) !! 0 = Some sv0 /\ e ∈ sv0) \/ k = 0 /\ e = (j, r)) ->
  hist c' st' (Some k).
Proof.
  intros Hle [H1 H2 H3 H4 H5 H6 H7] Hinv Hacc Hlb Hs Hcase En Es Ec Ee El Esv.
  pose proof (le_ext _ _ _ _ Hle) as He.
  assert (Hup : forall k d j r, accepted c (ws_nodes st) k d j r -> accepted c' (ws_nodes st') k d j r).
  { intros. rewrite En. by eapply accepted_le. }
  assert (Hacc' : accepted c' (ws_nodes st') k d j r) by (rewrite En; by apply (accepted_le _ _ c')).
  split; rewrite ?Ec, ?Ee, ?El; [done|..].
  - apply Forall_app. split; [done|]. destruct Hcase as [(_ & -> & Hlt)|[_ ->]]; [|constructor].
    constructor; [|constructor]. exists s. done.
  - intros j' r' v s' [[E ->]|Hr]%recorded_push Hv Hs' Heq.
    + assert (s' = s) as -> by (rewrite (bt_get_equiv PackageId_cmp sel j' j E) in Hs'; congruence).
      destruct Hcase as [(_ & _ & Hlt)|[-> _]]; [congruence|].
      exists (length (ws_nodes st)), {| node_id := Some j; node_parent := Some k; node_dep_index := d |}, j.
      rewrite En. split_and!; [by apply list_lookup_middle|done|by apply (cmp_eq_sym PackageId_cmp)].
    + destruct (H3 j' r' v s' Hr Hv Hs' Heq) as (x & n & i & ? & ? & ?). exists x, n, i.
      split_and!; [|done..]. rewrite En. by apply lookup_app_l_Some.
  - intros x n Hx. rewrite En in Hx. apply lookup_app_Some in Hx as [Hx|[Hge Hx]].
    + destruct (H4 x n Hx) as [?|[?|?]]; [left; apply Es; auto|auto|]. right; right. by eapply node_done_le.
    + left. apply Es. right. apply lookup_lt_Some in Hx. lia.
  - intros j' r' [[E ->]|Hr]%recorded_push.
    + exists k, d, j. split; [done|]. by apply (cmp_eq_sym PackageId_cmp).
    + destruct (H5 j' r' Hr) as (x & y & i & Ha & ?). exists x, y, i. auto.
  - intros x n i Hx Hi. rewrite En in Hx. apply lookup_app_Some in Hx as [Hx|[Hge Hx]].
    + destruct (H6 x n i Hx Hi) as (p & r' & ? & ?). exists p, r'. auto.
    + destruct Hcase as [(-> & _)|[-> _]]; [done|].
      apply list_lookup_singleton_Some in Hx as [_ <-]. simpl in Hi. simplify_eq. by exists k, r.
  - intros sv Hsv j' r' Hin. destruct (Esv sv Hsv _ Hin) as [(sv0 & Hsv0 & Hin0)|[-> [= -> ->]]].
    + by eapply H7.
    + destruct Hacc as (n & l & Hn & _ & _ & Hd & _).
      destruct (inv_tree _ Hinv) as [(r0 & Hr0 & Hid & _) _]. simplify_eq.
      unfold src_edges in Hd. rewrite Hid in Hd. by apply list_elem_of_lookup_2 in Hd.
Qed.

(** ** One edge *)

Lemma wp_push_surviving (sv : list (list edge)) k e c : k < length sv ->
  wp (push_surviving (XmlError:=XmlError) sv k e) c (fun c' sv' => c' = c /\ length sv' = length sv
    /\ forall x l, sv' !! x = Some l ->
         exists l0, sv !! x = Some l0 /\ ((x = k /\ l = l0 ++ [e]) \/ (x <> k /\ l = l0))).
Proof.
  intros Hk. apply lookup_lt_is_Some in Hk as [l0 Hl0]. apply wp_bind. eapply wp_index; [done|].
  apply wp_ret. split_and!; [done|apply length_insert|]. intros x l Hx.
  destruct (decide (x = k)) as [->|Hne].
  - rewrite list_lookup_insert_eq in Hx by (by eapply lookup_lt_Some). simplify_eq. eauto.
  - rewrite list_lookup_insert_ne in Hx by done. eauto.
Qed.

Lemma wp_push_surviving_le (sv : list (list edge)) k e c : k < length sv ->
  wp (push_surviving (XmlError:=XmlError) sv k e) c (fun c' sv' => c' = c /\ length sv' = length sv
    /\ (forall x l, sv !! x = Some l -> exists t, sv' !! x = Some (l ++ t))
    /\ (exists l, sv' !! k = Some l /\ e ∈ l)
    /\ forall x l e', sv' !! x = Some l -> e' ∈ l ->
         (exists l0, sv !! x = Some l0 /\ e' ∈ l0) \/ (x = k /\ e' = e)).
Proof.
  intros Hk. pose proof Hk as [l0 Hl0]%lookup_lt_is_Some. eapply wp_mono; [by apply wp_push_surviving|].
  intros c' sv' (-> & Hlen & Hsv). split_and!; [done..| | |].
  - intros x l Hx. assert (exists l', sv' !! x = Some l') as [l' Hl'].
    { apply lookup_lt_is_Some. rewrite Hlen. by eapply lookup_lt_Some. }
    destruct (Hsv x l' Hl') as (l1 & Hl1 & Hcase). simplify_eq.
    destruct Hcase as [[-> ->]|[_ ->]]; [by exists [e]|exists []; by rewrite app_nil_r].
  - assert (exists l', sv' !! k = Some l') as [l' Hl'] by (apply lookup_lt_is_Some; lia).
    destruct (Hsv k l' Hl') as (l1 & Hl1 & [[_ ->]|[? _]]); [|done]. eexists. split; [done|set_solver].
  - intros x l e' Hx He'. destruct (Hsv x l Hx) as (l1 & Hl1 & [[-> ->]|[_ ->]]); [|eauto].
    apply elem_of_app in He' as [He'|He']; [eauto|]. right. set_solver.
Qed.

(** The post-condition of one [visit]. *)
Definition visited c (st : walk_state) (k : nat) (n : Node) (d : nat) (e : edge) c' (st' : walk_state) : Prop :=
  inv st' /\ cache_ok c' /\ le c st c' st'
  /\ length (ws_stack st') + length (ws_nodes st) = length (ws_stack st) + length (ws_nodes st')
  /\ (calm (edges (ws_walk st')) -> hist c st (Some k) -> known sel c n -> src_edges c n !! d = Some e ->
        hist c' st' (Some k) /\ edge_done c' st' k e).

(** A verdict that leaves nodes, edges and losers alone. *)
Lemma visited_same c st k n d e c' st' : inv st -> cache_ok c' -> le c st c' st' ->
  ws_nodes st' = ws_nodes st -> ws_stack st' = ws_stack st -> ws_current st' = ws_current st ->
  edges (ws_walk st') = edges (ws_walk st) -> losers (ws_walk st') = losers (ws_walk st) ->
  surviving (ws_walk st') = surviving (ws_walk st) ->
  Forall (fun d => is_floating (downgrade_range d) = false
    /\ downgrade_parent d < length (ws_nodes st)) (downgrades (ws_walk st')) ->
  (hist c st (Some k) -> edge_done c' st' k e) ->
  visited c st k n d e c' st'.
Proof.
  intros Hinv Hok Hle En Es Ec Ee El Ev Hd Hdone. split_and!; [|done..|rewrite En, Es; done|].
  - destruct Hinv. split; rewrite ?En, ?Es, ?Ec, ?Ee, ?El, ?Ev; done.
  - intros _ Hh _ _. split; [|by apply Hdone]. by eapply hist_same.
Qed.

Lemma raise_version_get cur i lb :
  exists s, bt_get PackageId_cmp (raise_version cur i lb) i = Some s /\ NuGetVersion_cmp lb s <> Gt.
Proof.
  assert (Hins : bt_get PackageId_cmp (bt_insert PackageId_cmp cur i lb) i = Some lb).
  { rewrite (bt_get_insert PackageId_cmp), (cmp_refl PackageId_cmp). done. }
  unfold raise_version. destruct (bt_get PackageId_cmp cur i) as [s|] eqn:E.
  - destruct (cmp_ltb NuGetVersion_cmp s lb) eqn:El.
    + exists lb. split; [done|]. by rewrite (cmp_refl NuGetVersion_cmp).
    + exists s. split; [done|]. intros Hgt%(cmp_gt_lt NuGetVersion_cmp).
      apply (cmp_ltb_spec NuGetVersion_cmp) in Hgt. congruence.
  - exists lb. split; [done|]. by rewrite (cmp_refl NuGetVersion_cmp).
Qed.

Lemma raise_version_keeps cur i lb j :
  is_Some (bt_get PackageId_cmp cur j) -> is_Some (bt_get PackageId_cmp (raise_version cur i lb) j).
Proof.
  intros Hj. assert (is_Some (bt_get PackageId_cmp (bt_insert PackageId_cmp cur i lb) j)).
  { rewrite (bt_get_insert PackageId_cmp). destruct (PackageId_cmp j i); done. }
  unfold raise_version. destruct (bt_get PackageId_cmp cur i); [destruct (cmp_ltb _ _ _)|]; done.
Qed.

Lemma raise_version_calm cur i lb s :
  bt_get PackageId_cmp cur i = Some s -> NuGetVersion_cmp lb s <> Gt -> raise_version cur i lb = cur.
Proof.
  intros Hs Hle. unfold raise_version. rewrite Hs. destruct (cmp_ltb NuGetVersion_cmp s lb) eqn:E; [|done].
  apply (cmp_ltb_spec NuGetVersion_cmp) in E. by apply (cmp_gt_lt NuGetVersion_cmp) in E.
Qed.

Lemma push_edge_get es i r j :
  is_Some (bt_get PackageId_cmp es j) \/ PackageId_cmp j i = Eq ->
  is_Some (bt_get PackageId_cmp (push_edge es i r) j).
Proof.
  unfold push_edge. rewrite (bt_get_insert PackageId_cmp). destruct (PackageId_cmp j i); naive_solver.
Qed.

(** The new state when an edge is accepted, with the node it adds or the loser
    it leaves. *)
Definition accept_state (st : walk_state) (j : PackageId) (r : VersionRange) (lb : NuGetVersion)
    (t : list Node) (ls : list Loser) (sv : list (list edge)) : walk_state :=
  let w := ws_walk st in
  {| ws_nodes := ws_nodes st ++ t;
     ws_walk := {| edges := push_edge (edges w) j r; selected := selected w; downgrades := downgrades w;
                   parents := parents w; surviving := sv; cycle := cycle w;
                   float_compared := float_compared w; losers := losers w ++ ls; nodes := nodes w;
                   shapes := shapes w |};
     ws_current := raise_version (ws_current st) j lb;
     ws_stack := seq (length (ws_nodes st)) (length t) ++ ws_stack st |}.

Definition accept_case (k d : nat) (j : PackageId) (lb s : NuGetVersion) (t : list Node) (ls : list Loser) : Prop :=
  t = [] /\ ls = [{| loser_identity := PackageIdentity_new j lb; loser_parent := k; loser_dep_index := d |}]
    /\ NuGetVersion_cmp lb s = Lt
  \/ t = [{| node_id := Some j; node_parent := Some k; node_dep_index := d |}] /\ ls = [].

Lemma inv_accept st k d j r lb s t ls sv : inv st -> written r -> k < length (ws_nodes st) ->
  lower_bound_of r = Some lb -> bt_get PackageId_cmp (raise_version (ws_current st) j lb) j = Some s ->
  accept_case k d j lb s t ls -> length (ws_nodes st ++ t) <= walk_fuel ->
  length sv = length (ws_nodes st ++ t) ->
  (forall x l e, sv !! x = Some l -> e ∈ l ->
     (exists l0, surviving (ws_walk st) !! x = Some l0 /\ e ∈ l0) \/ e = (j, r)) ->
  inv (accept_state st j r lb t ls sv).
Proof.
  intros [I1 I2 I3 I4 I5 I6 I7 I8 I9 I10 I11] Hwr Hk Hlb Hs Hcase Hfuel Hlen Hsv.
  assert (Hlt : forall x, x < length (ws_nodes st) -> x < length (ws_nodes st ++ t)) by (intros; rewrite length_app; lia).
  split; cbn [accept_state ws_nodes ws_walk ws_stack ws_current edges surviving downgrades losers].
  - destruct Hcase as [(-> & _)|[-> _]]; [by rewrite app_nil_r|]. by eapply tree_snoc.
  - done.
  - done.
  - apply Forall_app. split; [|eapply Forall_impl; [exact I4|]; auto].
    apply Forall_seq. intros x Hx. rewrite length_app. lia.
  - by apply bt_insert_sorted; [apply _|].
  - intros x rs Hx. unfold push_edge in Hx. rewrite (bt_get_insert PackageId_cmp) in Hx.
    destruct (PackageId_cmp x j); [|by eapply I6..]. simplify_eq. by destruct (default [] _).
  - intros x r' [[_ ->]|Hr]%recorded_push; [by rewrite Hlb; split|by eapply I7].
  - intros x n i Hx Hi. apply lookup_app_Some in Hx as [Hx|[_ Hx]].
    + destruct (I8 x n i Hx Hi). split; [by apply raise_version_keeps|apply push_edge_get; auto].
    + destruct Hcase as [(-> & _)|[-> _]]; [done|].
      apply list_lookup_singleton_Some in Hx as [_ <-]. simpl in Hi. simplify_eq.
      split; [by rewrite Hs|]. apply push_edge_get. right. apply (cmp_refl PackageId_cmp).
  - intros x l i r' Hx Hin. destruct (Hsv x l _ Hx Hin) as [(l0 & Hl0 & ?)|[= -> ->]]; [by eapply I9|by rewrite Hlb].
  - eapply Forall_impl; [exact I10|]. naive_solver.
  - apply Forall_app. split.
    + eapply Forall_impl; [exact I11|]. intros x [? ?]. split; [auto|]. apply push_edge_get. auto.
    + destruct Hcase as [(_ & -> & _)|[_ ->]]; [|constructor]. constructor; [|constructor]. simpl.
      split; [auto|]. apply push_edge_get. right. apply (cmp_refl PackageId_cmp).
Qed.

Lemma le_accept c c' st j r lb t ls sv : ext c c' ->
  (forall x l, surviving (ws_walk st) !! x = Some l -> exists u, sv !! x = Some (l ++ u)) ->
  le c st c' (accept_state st j r lb t ls sv).
Proof.
  intros He Hsv. split; cbn; try done; [by exists t|]. intros x r' ?. apply recorded_push. auto.
Qed.

Lemma visited_accept c c1 st k n l d j r lb s t ls sv : inv st -> written r -> cache_ok c1 -> ext c c1 ->
  ws_nodes st !! k = Some n -> chain (ws_nodes st) k l ->
  Forall (clear direct (ws_current st) j (ws_nodes st) c1) l -> id_is (node_id n) j = false ->
  lower_bound_of r = Some lb -> bt_get PackageId_cmp (raise_version (ws_current st) j lb) j = Some s ->
  accept_case k d j lb s t ls -> length (ws_nodes st ++ t) <= walk_fuel ->
  length sv = length (ws_nodes st ++ t) ->
  (forall x l, surviving (ws_walk st) !! x = Some l -> exists u, sv !! x = Some (l ++ u)) ->
  (exists l, sv !! k = Some l /\ (j, r) ∈ l) ->
  (forall x l e, sv !! x = Some l -> e ∈ l ->
     (exists l0, surviving (ws_walk st) !! x = Some l0 /\ e ∈ l0) \/ x = k /\ e = (j, r)) ->
  visited c st k n d (j, r) c1 (accept_state st j r lb t ls sv).
Proof.
  intros Hinv Hwr Hok He Hn Hl Hc Hid Hlb Hs Hcase Hfuel Hlen Hsv1 Hsv2 Hsv3.
  pose proof Hn as Hlt%lookup_lt_Some.
  assert (Hle : le c st c1 (accept_state st j r lb t ls sv)) by by apply le_accept.
  split_and!; [|done..| |].
  - eapply (inv_accept st k); try done. intros x l' e Hx He'. destruct (Hsv3 x l' e Hx He') as [?|[_ ?]]; auto.
  - cbn. rewrite !length_app, length_seq. lia.
  - intros Hcalm Hh Hkn Hd.
    destruct (Hcalm j r lb) as (s' & Hs' & Hle').
    { apply recorded_push. left. split; [apply (cmp_refl PackageId_cmp)|done]. }
    { done. }
    rewrite (hist_current _ _ _ Hh) in Hc, Hs. rewrite (raise_version_calm sel j lb s') in Hs by done. simplify_eq.
    split.
    + eapply (hist_accept c st c1 _ k d j r lb s t ls); try done.
      * exists n, l. split_and!; [done..| | |done|done]; [by eapply known_ext|by rewrite (src_edges_ext c c1)].
      * intros x. cbn. rewrite elem_of_app, elem_of_seq. tauto.
      * cbn. rewrite (hist_current _ _ _ Hh). by eapply raise_version_calm.
      * intros sv0 Hsv0 e Hin. destruct (Hsv3 0 sv0 e Hsv0 Hin) as [?|[<- ?]]; auto.
    + left. split; [|done]. cbn. apply recorded_push. left. split; [apply (cmp_refl PackageId_cmp)|done].
Qed.

Lemma wp_accept c c1 st k n l d j r : inv st -> written r -> cache_ok c1 -> ext c c1 ->
  ws_nodes st !! k = Some n -> chain (ws_nodes st) k l ->
  Forall (clear direct (ws_current st) j (ws_nodes st) c1) l -> id_is (node_id n) j = false ->
  wp (accept k d j r st) c1 (visited c st k n d (j, r)).
Proof.
  intros Hinv Hwr Hok He Hn Hl Hc Hid. pose proof Hn as Hlt%lookup_lt_Some.
  apply wp_bind, wp_lift. intros lb Hlb%exact_lower_bound_ok.
  destruct (raise_version_get (ws_current st) j lb) as (s & Hs & Hle).
  apply wp_bind. eapply wp_mono; [apply wp_push_surviving_le; by rewrite (inv_surviving _ Hinv)|].
  intros c2 sv (-> & Hlen & Hsv1 & Hsv2 & Hsv3). rewrite (inv_surviving _ Hinv) in Hlen.
  rewrite Hs. destruct (NuGetVersion_eqb s lb) eqn:Eeq; cbn [negb].
  - destruct (N.leb_spec MAX_NODES (N.of_nat (length (ws_nodes st)))) as [?|Hmax]; [done|]. apply wp_ret.
    set (t := [{| node_id := Some j; node_parent := Some k; node_dep_index := d |}]).
    assert (V : visited c st k n d (j, r) c1 (accept_state st j r lb t [] (sv ++ [[]]))).
    { eapply visited_accept; try done.
      - by right.
      - rewrite length_app. simpl. unfold walk_fuel. lia.
      - rewrite !length_app, Hlen. done.
      - intros x u (y & Hy)%Hsv1. exists y. by apply lookup_app_l_Some.
      - destruct Hsv2 as (u & Hu & ?). exists u. split; [by apply lookup_app_l_Some|done].
      - intros x u e [Hx|[_ Hx]]%lookup_app_Some; [by eapply Hsv3|].
        apply list_lookup_singleton_Some in Hx as [_ <-]. intros Hin. by apply elem_of_nil in Hin. }
    unfold accept_state in V. rewrite app_nil_r in V. exact V.
  - apply wp_ret.
    set (ls := [{| loser_identity := PackageIdentity_new j lb; loser_parent := k; loser_dep_index := d |}]).
    assert (V : visited c st k n d (j, r) c1 (accept_state st j r lb [] ls sv)).
    { eapply visited_accept; try done; rewrite ?app_nil_r; try done; [|apply Hinv].
      left. split_and!; [done..|]. destruct (NuGetVersion_cmp lb s) eqn:E; [|done..]. exfalso.
      apply (cmp_eq_sym NuGetVersion_cmp) in E. unfold NuGetVersion_eqb in Eeq.
      apply (cmp_eqb_spec NuGetVersion_cmp) in E. congruence. }
    unfold accept_state in V. rewrite app_nil_r in V. exact V.
Qed.

Lemma wp_visit k n d j r st c : inv st -> written r -> cache_ok c -> ws_nodes st !! k = Some n ->
  wp (visit direct k d (j, r) st) c (visited c st k n d (j, r)).
Proof.
  intros Hinv Hwr Hok Hn. pose proof Hn as Hlt%lookup_lt_Some.
  destruct (chain_exists (ws_nodes st) k) as (l & Hl & _); [apply Hinv|done|].
  apply wp_bind. eapply wp_mono; [by apply wp_classify; [apply Hinv|..]|].
  intros c1 v (He & Hok1 & Hv & Hid).
  assert (Hle1 : le c st c1 st) by by apply le_refl_ext.
  destruct v; simpl in Hv.
  - eapply wp_accept; try done. by apply Hid.
  - apply wp_ret. apply visited_same; try done; [apply Hinv|]. intros Hh. right; left.
    exists l. by rewrite (hist_current _ _ _ Hh) in Hv.
  - apply wp_ret. apply visited_same; try done.
    + destruct Hle1. split; simpl; try done. intros x ?. set_solver.
    + simpl. apply Forall_app. split; [apply Hinv|]. constructor; [|constructor]. simpl. split; [|done].
      apply Exists_exists in Hv as (x & _ & n' & m & d' & i & r' & Hrest). tauto.
    + intros Hh. do 2 right; left. exists {| downgrade_id := j; downgrade_range := r; downgrade_parent := k |}, l.
      split_and!; [simpl; set_solver|done..|].
      by rewrite (hist_current _ _ _ Hh) in Hv.
  - destruct (cycle (ws_walk st)) as [cy|] eqn:Ecy.
    + apply wp_ret. apply visited_same; try done; [apply Hinv|]. intros _. do 3 right; left. by rewrite Ecy.
    + apply wp_bind. eapply wp_mono; [by apply wp_cycle_path; [apply Hinv|]|]. intros c2 path ->.
      apply wp_ret. apply visited_same; try done; [|apply Hinv|].
      * destruct Hle1. split; simpl; done.
      * intros _. by do 3 right; left.
  - apply wp_ret. apply visited_same; try done; [|apply Hinv|].
    + destruct Hle1. split; simpl; try done. by destruct (float_compared (ws_walk st)).
    + intros _. do 4 right. simpl. by destruct (float_compared (ws_walk st)).
Qed.

(** ** A whole node, and the loop *)

Lemma wp_visit_all k n es d st c : inv st -> Forall (fun e => written (snd e)) es -> cache_ok c -> ws_nodes st !! k = Some n ->
  wp (visit_all direct k d es st) c (fun c' st' =>
    inv st' /\ cache_ok c' /\ le c st c' st'
    /\ length (ws_stack st') + length (ws_nodes st) = length (ws_stack st) + length (ws_nodes st')
    /\ (calm (edges (ws_walk st')) -> hist c st (Some k) -> known sel c n -> drop d (src_edges c n) = es ->
          hist c' st' (Some k) /\ Forall (edge_done c' st' k) es)).
Proof.
  revert d st c. induction es as [|[j r] es IH]; intros d st c Hinv Hwr Hok Hn.
  - apply wp_ret. split_and!; [done..|by apply le_refl_ext|done|]. intros _ Hh _ _. split; [done|constructor].
  - apply Forall_cons in Hwr as [Hr Hwr]. apply wp_bind. eapply wp_mono; [by eapply wp_visit|].
    intros c1 st1 (Hinv1 & Hok1 & Hle1 & Hm1 & Hh1).
    assert (Hn1 : ws_nodes st1 !! k = Some n).
    { destruct (le_nodes _ _ _ _ Hle1) as [t ->]. by apply lookup_app_l_Some. }
    eapply wp_mono; [by apply (IH (S d))|]. intros c2 st2 (Hinv2 & Hok2 & Hle2 & Hm2 & Hh2).
    split_and!; [done..|by eapply le_trans|lia|]. intros Hcalm Hh Hkn Hd.
    assert (Hd0 : src_edges c n !! d = Some (j, r)).
    { pose proof (lookup_drop (src_edges c n) d 0) as E. by rewrite Hd, Nat.add_0_r in E. }
    destruct Hh1 as [Hh1 He1]; [by eapply calm_le|done..|].
    destruct Hh2 as [Hh2 He2]; [done..|by eapply known_ext; [apply Hle1|]| |].
    + rewrite (src_edges_ext c c1) by (done || apply Hle1).
      rewrite <- Nat.add_1_r, <- drop_drop, Hd. done.
    + split; [done|]. constructor; [|done]. by eapply edge_done_le.
Qed.

Lemma dependency_edges_in deps es j r : dependency_edges deps = Ok es -> (j, r) ∈ es ->
  exists d, d ∈ deps /\ dependency_id d = j /\ version_range d = Some r.
Proof.
  revert es. induction deps as [|d deps IH]; simpl; intros es E Hin; [simplify_eq; set_solver|].
  destruct (_ || _)%bool; [done|]. destruct (version_range d) as [r'|] eqn:Er; [|done].
  destruct (dependency_edges deps) as [es'|] eqn:Es; [|done]. simplify_eq.
  apply elem_of_cons in Hin as [[= -> ->]|Hin]; [exists d; split_and!; [set_solver|done..]|].
  destruct (IH es' eq_refl Hin) as (d' & ? & ?). exists d'. split; [set_solver|done].
Qed.

(** Cached edges are edges on disk. *)
Lemma cached_depends c i v p es j r : cache_ok c ->
  bt_get key_cmp c (package_key (PackageIdentity_new i v)) = Some (Ok p) ->
  dependency_edges (cached_dependencies p) = Ok es -> (j, r) ∈ es -> depends i v j r.
Proof.
  intros Hok Hk Hd Hin. destruct (Hok _ _ Hk) as (identity & E & Hr).
  destruct (dependency_edges_in _ _ _ _ Hd Hin) as (d & ? & ? & ?). by exists identity, p, d.
Qed.

Lemma entry_written c i v p es : cache_ok c ->
  bt_get key_cmp c (package_key (PackageIdentity_new i v)) = Some (Ok p) ->
  dependency_edges (cached_dependencies p) = Ok es -> Forall (fun e => written (snd e)) es.
Proof.
  intros Hok Hk Hd. apply Forall_forall. intros [j r] Hin. right. exists i, v, j. by eapply cached_depends.
Qed.

Lemma wp_node_dependencies st k n w c : cache_ok c -> inv st -> ws_nodes st !! k = Some n ->
  wp (node_dependencies (ws_nodes st) k direct (ws_current st) w) c (fun c' x =>
    ext c c' /\ cache_ok c' /\ (snd x = w \/ exists key e, snd x = set_shape w key e)
    /\ Forall (fun e => written (snd e)) (fst x)
    /\ (ws_current st = sel -> known sel c' n /\ fst x = src_edges c' n
         /\ forall key, bad_shape c' n key -> is_Some (bt_get key_cmp (shapes (snd x)) key))).
Proof.
  intros Hok Hinv Hn. apply wp_bind. eapply wp_index; [done|].
  unfold known, src_edges, bad_shape. destruct (node_id n) as [i|] eqn:Ei.
  - destruct (inv_nodes _ Hinv k n i Hn Ei) as [[v Hv] _].
    apply wp_bind. eapply wp_expect; [done|]. apply wp_bind. eapply wp_mono; [by apply wp_get|].
    intros c' r (He & Hok' & e & Hk & ->).
    assert (Hkn : ws_current st = sel -> forall i0 v0, Some i = Some i0 -> bt_get PackageId_cmp sel i0 = Some v0 ->
      exists e, bt_get key_cmp c' (package_key (PackageIdentity_new i0 v0)) = Some e).
    { intros Hc ? ? [= <-] ?. rewrite Hc in Hv. simplify_eq. eauto. }
    destruct e as [p|e]; simpl entry_ok; cbn [entry_ok].
    + destruct (dependency_edges (cached_dependencies p)) as [es|s] eqn:Ed; apply wp_ret;
        (split_and!; [done..|eauto|first [constructor|by eapply entry_written]|]); intros Hc; rewrite Hc in Hv; rewrite Hv, Hk, Ed;
        (split_and!; [auto|done|]).
      * intros key (i0 & v0 & p0 & e0 & [= <-] & Hv0 & -> & Hp0 & He0). simplify_eq. congruence.
      * intros key (i0 & v0 & p0 & e0 & [= <-] & Hv0 & -> & Hp0 & He0). simplify_eq. simpl.
        rewrite (bt_get_insert key_cmp), (cmp_refl key_cmp). done.
    + apply wp_ret. split_and!; [done..|auto|constructor|]. intros Hc. rewrite Hc in Hv. rewrite Hv, Hk.
      split_and!; [auto|done|]. intros key (i0 & v0 & p0 & e0 & [= <-] & Hv0 & -> & Hp0 & He0). simplify_eq.
  - apply wp_ret. split_and!; [done..|auto| |].
    { apply Forall_forall. intros e He. unfold direct_edges in He. apply list_elem_of_fmap in He as (q & -> & Hq).
      left. by exists q. }
    intros _. split_and!; [done..|]. intros key (i0 & v0 & p0 & e0 & Hi0 & _). done.
Qed.

(** Popping a node and noting the shape of its package. *)
Lemma pop_state c c1 st k n stack w : inv st -> ext c c1 -> ws_stack st = k :: stack ->
  ws_nodes st !! k = Some n ->
  (w = ws_walk st \/ exists key e, w = set_shape (ws_walk st) key e) ->
  let st0 := {| ws_nodes := ws_nodes st; ws_walk := w; ws_current := ws_current st; ws_stack := stack |} in
  inv st0 /\ le c st c1 st0 /\ (hist c st None -> hist c1 st0 (Some k)).
Proof.
  intros Hinv He Hs Hn Hw st0.
  assert (Hle : le c st c1 st0).
  { destruct Hw as [->|(key & e & ->)].
    - destruct (le_refl_ext c c1 st He). split; done.
    - destruct (le_refl_ext c c1 st He). split; try done. intros x Hx. simpl.
      rewrite (bt_get_insert key_cmp). by destruct (key_cmp x key). }
  assert (Heq : edges w = edges (ws_walk st) /\ losers w = losers (ws_walk st)
    /\ surviving w = surviving (ws_walk st) /\ downgrades w = downgrades (ws_walk st)).
  { destruct Hw as [->|(key & e & ->)]; done. }
  destruct Heq as (E1 & E2 & E3 & E4). split_and!; [|done|].
  - destruct Hinv as [I1 I2 I3 I4 I5 I6 I7 I8 I9 I10 I11]. rewrite Hs in I4. apply Forall_cons in I4 as [? ?].
    split; cbn; rewrite ?E1, ?E2, ?E3, ?E4; done.
  - intros [H1 H2 H3 H4 H5 H6 H7]. split; cbn; rewrite ?E1, ?E2, ?E3; try done.
    + intros x m Hx. destruct (H4 x m Hx) as [Hin|[?|?]]; [|done|].
      * rewrite Hs in Hin. apply elem_of_cons in Hin as [->|?]; auto.
      * right; right. by eapply node_done_le.
    + intros j r Hr. destruct (H5 j r Hr) as (x & d & i & Ha & ?). exists x, d, i. split; [|done].
      rewrite <- (app_nil_r (ws_nodes st)). by eapply accepted_le.
    + intros x m i Hx Hi. destruct (H6 x m i Hx Hi) as (p & r & ? & Ha). exists p, r. split; [done|].
      rewrite <- (app_nil_r (ws_nodes st)). by eapply accepted_le.
Qed.

Lemma wp_walk_loop fuel st c : inv st -> cache_ok c ->
  length (ws_stack st) + walk_fuel <= fuel + length (ws_nodes st) ->
  wp (walk_loop fuel direct st) c (fun c' st' =>
    inv st' /\ cache_ok c' /\ le c st c' st' /\ ws_stack st' = []
    /\ (calm (edges (ws_walk st')) -> hist c st None -> hist c' st' None)).
Proof.
  revert st c. induction fuel as [|fuel IH]; intros st c Hinv Hok Hfuel; cbn [walk_loop];
    (destruct (ws_stack st) as [|k stack] eqn:Es;
       [apply wp_ret; split_and!; [done..|by apply le_refl_ext|done|auto]|]).
  - pose proof (inv_bound _ Hinv). simpl in Hfuel. lia.
  - pose proof (inv_stack _ Hinv) as Hst. rewrite Es in Hst. apply Forall_cons in Hst as [Hk _].
    apply lookup_lt_is_Some in Hk as [n Hn].
    apply wp_bind. eapply wp_mono; [by apply wp_node_dependencies|].
    intros c1 [es w] (He1 & Hok1 & Hw & Hwr & Hsrc). cbn [fst snd] in *.
    destruct (pop_state c c1 st k n stack w Hinv He1 Es Hn Hw) as (Hinv0 & Hle0 & Hh0).
    apply wp_bind. eapply wp_mono; [by apply (wp_visit_all k n es 0)|].
    intros c2 st2 (Hinv2 & Hok2 & Hle2 & Hm2 & Hh2).
    eapply wp_mono; [apply IH; [done..|cbn in Hm2; simpl in Hfuel; lia]|].
    intros c3 st3 (Hinv3 & Hok3 & Hle3 & Hs3 & Hh3).
    split_and!; [done..|by eapply le_trans, le_trans|done|]. intros Hcalm Hh. apply Hh3; [done|].
    destruct (Hsrc (hist_current _ _ _ Hh)) as (Hkn & -> & Hshape).
    destruct (Hh2 ltac:(by eapply calm_le) (Hh0 Hh) Hkn (drop_0 _)) as [Hh2' Hes].
    destruct Hh2' as [H1 H2 H3 H4 H5 H6 H7]. split; try done.
    intros x m Hx. destruct (H4 x m Hx) as [?|[[= ->]|?]]; [auto| |auto].
    assert (m = n) as ->.
    { destruct (le_nodes _ _ _ _ Hle2) as [t Et]. rewrite Et in Hx. cbn in Hx.
      rewrite (lookup_app_l_Some _ _ _ _ Hn) in Hx. congruence. }
    right; right. pose proof (le_ext _ _ _ _ Hle2) as He2. split_and!; [by eapply known_ext|by rewrite (src_edges_ext c1 c2)|].
    intros key Hb. apply (le_shapes _ _ _ _ Hle2). cbn. apply Hshape. by eapply bad_shape_back.
Qed.
End walk.

(** ** The whole walk *)

Lemma max_version_spec vs : vs <> [] ->
  exists m, max_version vs = Some m /\ m ∈ vs /\ forall v, v ∈ vs -> NuGetVersion_cmp v m <> Gt.
Proof.
  intros Hne. unfold max_version.
  assert (Hgo : forall vs b, exists m, fold_left (fun best v =>
      match best with
      | None => Some v
      | Some b => if cmp_leb NuGetVersion_cmp b v then Some v else Some b
      end) vs (Some b) = Some m /\ m ∈ b :: vs /\ forall v, v ∈ b :: vs -> NuGetVersion_cmp v m <> Gt).
  { clear. induction vs as [|v vs IH]; intros b; simpl.
    - exists b. split_and!; [done|set_solver|]. intros v ->%list_elem_of_singleton.
      by rewrite (cmp_refl NuGetVersion_cmp).
    - set (b' := if cmp_leb NuGetVersion_cmp b v then v else b).
      assert (Hb' : (if cmp_leb NuGetVersion_cmp b v then Some v else Some b) = Some b'
        /\ b' ∈ [b; v] /\ NuGetVersion_cmp b b' <> Gt /\ NuGetVersion_cmp v b' <> Gt).
      { unfold b'. destruct (cmp_leb NuGetVersion_cmp b v) eqn:E.
        - apply (cmp_leb_spec NuGetVersion_cmp) in E. rewrite (cmp_refl NuGetVersion_cmp). set_solver.
        - rewrite (cmp_refl NuGetVersion_cmp). split_and!; [done|set_solver|done|].
          intros Hgt%(cmp_gt_lt NuGetVersion_cmp). unfold cmp_leb in E. by rewrite Hgt in E. }
      destruct Hb' as (-> & Hin & Hb & Hv). destruct (IH b') as (m & -> & Hm & Hall).
      exists m. split_and!; [done|set_solver|]. intros x [->|[->|Hx]%elem_of_cons]%elem_of_cons.
      + eapply (cmp_le_trans NuGetVersion_cmp); [exact Hb|]. apply Hall. set_solver.
      + eapply (cmp_le_trans NuGetVersion_cmp); [exact Hv|]. apply Hall. set_solver.
      + apply Hall. set_solver. }
  destruct vs as [|v vs]; [done|]. apply (Hgo vs v).
Qed.

Section whole_walk.
Context {F XmlError : Type} `{RE : ResolverEnv F XmlError}.
Notation cache := (PackageCache F XmlError).
Implicit Types (c : cache) (ns : list Node).
Context (direct : list DirectPackageRequirement).

Lemma wp_mapMM_pure {A B} (f : A -> M F XmlError B) (R : A -> B -> Prop) l c :
  (forall a, a ∈ l -> wp (f a) c (fun c' b => c' = c /\ R a b)) ->
  wp (mapMM f l) c (fun c' bs => c' = c /\ Forall2 R l bs).
Proof.
  induction l as [|a l IH]; intros Hf; [by apply wp_ret|]. simpl. apply wp_bind.
  eapply wp_mono; [apply Hf; set_solver|]. intros c' b [-> Hb]. apply wp_bind.
  eapply wp_mono; [apply IH; intros; apply Hf; set_solver|]. intros c' bs [-> Hbs].
  apply wp_ret. split; [done|by constructor].
Qed.

Lemma wp_lower_bound_expect i r v c : lower_bound_of r = Some v ->
  wp (lower_bound_expect (XmlError:=XmlError) i r) c (fun c' w => c' = c /\ w = v).
Proof. intros Hv. unfold lower_bound_expect. apply (exact_lower_bound_ok (F:=F) (XmlError:=XmlError) i) in Hv. rewrite Hv. by apply wp_ret. Qed.

(** The settled version of a package: the greatest lower bound of its edges. *)
Definition greatest (rs : list VersionRange) (s : NuGetVersion) : Prop :=
  (exists r, r ∈ rs /\ lower_bound_of r = Some s)
  /\ forall r v, r ∈ rs -> lower_bound_of r = Some v -> NuGetVersion_cmp v s <> Gt.

Lemma wp_greatest_lower_bound e c : snd e <> [] -> (forall r, r ∈ snd e -> is_Some (lower_bound_of r)) ->
  wp (greatest_lower_bound (XmlError:=XmlError) e) c (fun c' x => c' = c /\ fst x = fst e /\ greatest (snd e) (snd x)).
Proof.
  intros Hne Hlb. apply wp_bind. eapply wp_mono.
  { apply (wp_mapMM_pure _ (fun r v => lower_bound_of r = Some v)). intros r Hr.
    destruct (Hlb r Hr) as [v Hv]. eapply wp_mono; [by apply wp_lower_bound_expect|].
    intros c' w [-> ->]. done. }
  intros c' bs [-> Hbs]. destruct (max_version_spec bs) as (m & Em & Hm & Hall).
  { destruct Hbs; done. }
  apply wp_bind. eapply wp_expect; [done|]. apply wp_ret. split_and!; [done..|]. split.
  - apply list_elem_of_lookup in Hm as [i Hi]. destruct (Forall2_lookup_r _ _ _ _ _ Hbs Hi) as (r & Hr & ?).
    exists r. split; [|done]. by eapply list_elem_of_lookup_2.
  - intros r v Hr Hv. apply Hall. apply list_elem_of_lookup in Hr as [i Hi].
    destruct (Forall2_lookup_l _ _ _ _ _ Hbs Hi) as (v' & Hv' & ?). simplify_eq.
    by eapply list_elem_of_lookup_2.
Qed.

(** The state a finished walk stands for. *)
Definition final_state (w : Walk) (cur : versions) : walk_state :=
  {| ws_nodes := nodes w; ws_walk := w; ws_current := cur; ws_stack := [] |}.

Record walked (sel : versions) c (w : Walk) : Prop := {
  walked_inv : exists cur, inv direct (final_state w cur);
  walked_parents : parents w = map node_parent (nodes w);
  walked_keys : bt_keys (selected w) = bt_keys (edges w);
  walked_selected : forall j rs, bt_get PackageId_cmp (edges w) j = Some rs ->
    exists s, bt_get PackageId_cmp (selected w) j = Some s /\ greatest rs s;
  walked_none : forall j, bt_get PackageId_cmp (edges w) j = None -> bt_get PackageId_cmp (selected w) j = None;
  walked_hist : calm sel (edges w) -> hist direct sel c (final_state w sel) None }.

Lemma selected_get (es : list (PackageId * list VersionRange)) (sel' : versions) j :
  Forall2 (fun e x => fst x = fst e /\ greatest (snd e) (snd x)) es sel' ->
  match bt_get PackageId_cmp es j with
  | Some rs => exists s, bt_get PackageId_cmp sel' j = Some s /\ greatest rs s
  | None => bt_get PackageId_cmp sel' j = None
  end.
Proof.
  induction 1 as [|[i rs] [i' s] es sel' [Ei Hg] _ IH]; simpl in *; [done|]. subst i'.
  destruct (PackageId_cmp j i); [eauto|done..].
Qed.

Lemma inv_initial sel : inv direct (initial_state sel).
Proof.
  split; cbn; try done.
  - split; [by eexists|]. intros k n Hk ?. destruct k; [lia|]. by rewrite lookup_cons, lookup_nil in Hk.
  - unfold walk_fuel. assert (0 < N.to_nat MAX_NODES) by (unfold MAX_NODES; lia). lia.
  - repeat constructor.
  - constructor.
  - intros j r (rs & Hrs & _). done.
  - intros k n i Hk Hi. destruct k as [|k]; cbn in Hk; simplify_eq.
  - intros k sv j r Hk Hin. destruct k as [|k]; cbn in Hk; simplify_eq. set_solver.
Qed.

Lemma hist_initial sel c : hist direct sel c (initial_state sel) None.
Proof.
  split; cbn; try done.
  - intros j r v s (rs & ? & _). done.
  - intros k n Hk. left. destruct k as [|k]; cbn in Hk; simplify_eq. set_solver.
  - intros j r (rs & ? & _). done.
  - intros k n i Hk Hi. destruct k as [|k]; cbn in Hk; simplify_eq.
  - intros sv [= <-] j r Hin. set_solver.
Qed.

Lemma wp_walk sel c : cache_ok c ->
  wp (walk direct sel) c (fun c' w => cache_ok c' /\ ext c c' /\ walked sel c' w).
Proof.
  intros Hok. apply wp_bind. eapply wp_mono.
  { apply (wp_walk_loop direct sel); [apply inv_initial|done|]. cbn. lia. }
  intros c1 st (Hinv & Hok1 & Hle & Hs & Hh). apply wp_bind. eapply wp_mono.
  { apply (wp_mapMM_pure _ (fun e x => fst x = fst e /\ greatest (snd e) (snd x))). intros [i rs] Hin.
    assert (Hget : bt_get PackageId_cmp (edges (ws_walk st)) i = Some rs)
      by (apply bt_sorted_get; [apply _|apply Hinv|done]).
    apply wp_greatest_lower_bound; simpl.
    - by eapply Hinv.
    - intros r Hr. apply (inv_lower _ _ Hinv i). by exists rs. }
  intros c2 sel' [-> Hsel]. apply wp_ret. split_and!; [done|apply Hle|].
  set (w := {| edges := _ |}).
  assert (Hget : forall j, _) by (intros j; exact (selected_get _ _ j Hsel)).
  split; cbn.
  - exists (ws_current st). destruct Hinv as [I1 I2 I3 I4 I5 I6 I7 I8 I9 I10 I11]. split; done.
  - done.
  - unfold bt_keys. clear -Hsel. induction Hsel as [|e x es xs [E _] _ IH]; simpl; [done|]. by rewrite E, IH.
  - intros j rs Hj. specialize (Hget j). by rewrite Hj in Hget.
  - intros j Hj. specialize (Hget j). by rewrite Hj in Hget.
  - intros Hcalm. specialize (Hh Hcalm (hist_initial sel c)). destruct Hh as [H1 H2 H3 H4 H5 H6 H7].
    rewrite Hs in H4. split; try done.
Qed.

Lemma settled_calm sel c w : walked sel c w ->
  bt_eqb PackageId_cmp NuGetVersion_eqb (selected w) sel = true -> calm sel (edges w).
Proof.
  intros Hw Heq j r v (rs & Hrs & Hr) Hv. destruct (walked_selected _ _ _ Hw j rs Hrs) as (s' & Hs' & _ & Hg).
  pose proof (bt_eqb_get PackageId_cmp _ _ _ j Heq) as Hj. rewrite Hs' in Hj.
  destruct (bt_get PackageId_cmp sel j) as [s|]; [|done]. exists s. split; [done|].
  apply (cmp_eqb_spec NuGetVersion_cmp) in Hj. rewrite <- (cmp_eq_r NuGetVersion_cmp _ _ _ Hj). by eapply Hg.
Qed.
End whole_walk.
