(* ===== verification/ResolverSettle.v ===== *)
(** * The conflict pass accepts the winners and rejects the losers

    The analysis of [settle_conflicts]: the passes of [conflict_round] visit
    each node of the conflict tree at most once (so their loops end), expanded
    nodes are never rejected, losing leaves never accepted, and the root is
    accepted in the first round, so the assertion at the end of the code
    cannot fail once the pass has decided every node. *)

From S2P Require Import Prelude Order Version Range Package Nuspec BTree Resolver ResolverThm.

Section tree.
Context {F XmlError : Type} `{RE : ResolverEnv F XmlError}.
Notation cache := (PackageCache F XmlError).
Implicit Types (c : cache).

(** ** Conflict trees: each node but the root has one, earlier, parent *)

Definition kids_of (par : nat -> option nat) (len p : nat) : list nat :=
  filter (fun k => par k = Some p) (seq 0 len).

Record ctree (cns : list ConflictNode) (par : nat -> option nat) : Prop := {
  ctree_nonempty : 0 < length cns;
  ctree_root : par 0 = None;
  ctree_par : forall k, 0 < k < length cns -> exists p, par k = Some p /\ p < k;
  ctree_kids : forall p n, cns !! p = Some n -> cn_children n = kids_of par (length cns) p }.

Lemma elem_of_kids par len p k : k ∈ kids_of par len p <-> par k = Some p /\ k < len.
Proof. unfold kids_of. rewrite list_elem_of_filter, elem_of_seq. naive_solver lia. Qed.

(** What the stack and the visited nodes of a pass have in common. *)
Record dfs (par : nat -> option nat) (len : nat) (vis pending : list nat) : Prop := {
  dfs_nodup : NoDup (vis ++ pending);
  dfs_range : Forall (fun k => k < len) (vis ++ pending);
  dfs_parent : forall k, k ∈ vis ++ pending -> par k = None \/ exists p, par k = Some p /\ p ∈ vis }.

Lemma dfs_length par len vis pending : dfs par len vis pending -> length vis + length pending <= len.
Proof.
  intros [Hn Hr _]. rewrite <- length_app, <- (length_seq len 0). apply submseteq_length, NoDup_submseteq; [done|].
  intros k Hk. rewrite Forall_forall in Hr. apply elem_of_seq. specialize (Hr k Hk). lia.
Qed.

Lemma dfs_skip par len vis i pending : dfs par len vis (i :: pending) -> dfs par len (i :: vis) pending.
Proof.
  intros [Hn Hr Hp]. assert (Hperm : vis ++ i :: pending ≡ₚ (i :: vis) ++ pending) by (symmetry; apply Permutation_middle).
  split.
  - by rewrite <- Hperm.
  - by rewrite <- Hperm.
  - intros k Hk. rewrite <- Hperm in Hk. destruct (Hp k Hk) as [?|(p & ? & ?)]; [auto|].
    right. exists p. split; [done|set_solver].
Qed.

Lemma dfs_push par len vis i pending : dfs par len vis (i :: pending) ->
  dfs par len (i :: vis) (rev (kids_of par len i) ++ pending).
Proof.
  intros Hd. pose proof (dfs_skip _ _ _ _ _ Hd) as [Hn Hr Hp].
  assert (Hi : i ∉ vis) by (destruct Hd as [Hnd _ _]; apply NoDup_app in Hnd as (_ & Hx & _); intros ?; eapply Hx; set_solver).
  assert (Hnew : forall k, k ∈ kids_of par len i -> k ∉ (i :: vis) ++ pending).
  { intros k [Hk _]%elem_of_kids Hin. assert (Hin' : k ∈ vis ++ i :: pending) by set_solver.
    destruct (dfs_parent _ _ _ _ Hd k Hin') as [?|(p & ? & ?)]; congruence. }
  assert (Hperm : (i :: vis) ++ rev (kids_of par len i) ++ pending ≡ₚ kids_of par len i ++ (i :: vis) ++ pending).
  { rewrite !app_assoc, <- (Permutation_rev (kids_of par len i)). apply Permutation_app_tail, Permutation_app_comm. }
  split.
  - rewrite Hperm. apply NoDup_app. split_and!; [apply NoDup_filter, NoDup_seq|done|done].
  - rewrite Hperm. apply Forall_app. split; [|done]. apply Forall_forall. intros k Hk.
    by apply elem_of_kids in Hk as [_ ?].
  - intros k Hk. rewrite Hperm in Hk. apply elem_of_app in Hk as [Hk|Hk]; [|auto].
    apply elem_of_kids in Hk as [Hk _]. right. exists i. split; [done|set_solver].
Qed.

(** ** The rule for a pass

    [P] labels what is on the stack, [Q] is the pass's own invariant.  When the
    pass never skips a node's children it visits the whole tree. *)

Section stack_loop.
Context {X S : Type} (cns : list ConflictNode) (par : nat -> option nat) (Ht : ctree cns par).
Context (body : nat -> X -> S -> M F XmlError (S * option X)).
Context (P : nat -> X -> Prop) (Q : list nat -> S -> Prop) (full : Prop).
Hypothesis Hbody : forall i x s vis c n, cns !! i = Some n -> i ∉ vis -> P i x -> Q vis s ->
  wp (body i x s) c (fun c' r => c' = c /\ Q (i :: vis) (fst r)
    /\ (full -> snd r <> None)
    /\ forall y k, snd r = Some y -> par k = Some i -> P k y).

Definition closed_kids (vis pending : list nat) : Prop :=
  full -> forall p k, p ∈ vis -> par k = Some p -> k < length cns -> k ∈ vis ++ pending.

Lemma wp_stack_loop fuel stack s vis c :
  dfs par (length cns) vis (map fst stack) -> closed_kids vis (map fst stack) ->
  Forall (fun x => P (fst x) (snd x)) stack -> Q vis s -> length cns <= fuel + length vis ->
  wp (stack_loop fuel cns body stack s) c (fun c' s' => c' = c /\ exists vis', Q vis' s'
    /\ (forall k, k ∈ vis ++ map fst stack -> k ∈ vis') /\ closed_kids vis' []).
Proof.
  revert stack s vis. induction fuel as [|fuel IH]; intros stack s vis Hd Hc HP HQ Hf;
    (destruct stack as [|[i x] stack]; [apply wp_ret; split; [done|]; exists vis; rewrite app_nil_r; done|]).
  - apply dfs_length in Hd. simpl in *. lia.
  - cbn [stack_loop]. simpl in HP. apply Forall_cons in HP as [HPi HP]. cbn in HPi.
    assert (Hi : i < length cns).
    { destruct Hd as [_ Hr _]. rewrite Forall_forall in Hr. apply Hr. cbn. set_solver. }
    apply lookup_lt_is_Some in Hi as [n Hn].
    assert (Hiv : i ∉ vis) by (destruct Hd as [Hnd _ _]; apply NoDup_app in Hnd as (_ & Hx & _); intros ?; eapply Hx; [done|cbn; set_solver]).
    apply wp_bind. eapply wp_mono; [by eapply Hbody|]. intros c1 [s' next] (-> & HQ' & Hfull & HPn). cbn in *.
    destruct next as [y|].
    + apply wp_bind. eapply wp_index; [done|]. rewrite (ctree_kids _ _ Ht _ _ Hn).
      assert (Emap : map fst (rev (map (fun k => (k, y)) (kids_of par (length cns) i)) ++ stack)
        = rev (kids_of par (length cns) i) ++ map fst stack).
      { rewrite map_app, map_rev, map_map. simpl. by rewrite map_id. }
      eapply wp_mono; [apply (IH _ _ (i :: vis)); rewrite ?Emap|].
      * by apply dfs_push.
      * intros Hfl p k [->|Hp]%elem_of_cons Hk Hlen; rewrite !elem_of_app, <- (Permutation_rev (kids_of par (length cns) i)).
        -- right; left. by apply elem_of_kids.
        -- specialize (Hc Hfl p k Hp Hk Hlen). set_solver.
      * apply Forall_app. split; [|done]. apply Forall_forall. intros z Hz.
        rewrite <- (Permutation_rev (map _ _)) in Hz. apply list_elem_of_In, in_map_iff in Hz as (k & <- & Hk).
        apply list_elem_of_In, elem_of_kids in Hk as [Hk _]. by eapply HPn.
      * done.
      * cbn. lia.
      * intros c2 s2 (-> & vis' & ? & Hv & ?). split; [done|]. exists vis'. split_and!; [done| |done].
        intros k Hk. apply Hv. rewrite Emap, !elem_of_app. set_solver.
    + eapply wp_mono; [apply (IH _ _ (i :: vis))|].
      * by apply dfs_skip.
      * intros Hfl. by destruct (Hfull Hfl).
      * done.
      * done.
      * cbn. lia.
      * intros c2 s2 (-> & vis' & ? & Hv & ?). split; [done|]. exists vis'. split_and!; [done| |done].
        intros k Hk. apply Hv. rewrite !elem_of_app in *. set_solver.
Qed.

(** A pass over the whole tree. *)
Lemma wp_pass x s c : P 0 x -> Q [] s ->
  wp (stack_loop (length cns) cns body [(0, x)] s) c (fun c' s' => c' = c /\ exists vis, Q vis s'
    /\ 0 ∈ vis /\ (full -> forall k, k < length cns -> k ∈ vis)).
Proof.
  intros HP HQ. pose proof (ctree_nonempty _ _ Ht). eapply wp_mono; [apply (wp_stack_loop _ _ _ [])|].
  - split; cbn.
    + apply NoDup_singleton.
    + by apply Forall_singleton.
    + intros k ->%list_elem_of_singleton. left. apply Ht.
  - intros _ p k Hp. set_solver.
  - by apply Forall_singleton.
  - done.
  - cbn. lia.
  - intros c' s' (-> & vis & HQ' & Hv & Hc). split; [done|]. exists vis. split_and!; [done|apply Hv; cbn; set_solver|].
    intros Hfl k. induction (lt_wf k) as [k _ IH]. intros Hk. destruct (decide (k = 0)) as [->|].
    + apply Hv. cbn. set_solver.
    + destruct (ctree_par _ _ Ht k) as (p & Hp & Hlt); [lia|].
      specialize (Hc Hfl p k). rewrite app_nil_r in Hc. apply Hc; [|done|done]. apply IH; [done|lia].
Qed.
End stack_loop.

(** ** The three passes of a round *)

Section passes.
Context (cns : list ConflictNode) (par : nat -> option nat) (Ht : ctree cns par).
Context (m : nat) (sel : versions).
(** The first [m] nodes are the expanded ones, at the selected versions; the
    others are losers, below the version of some expanded node, and leaves. *)
Hypothesis Hm : 0 < m <= length cns.
Hypothesis Hwin : forall k n, k < m -> cns !! k = Some n ->
  (k = 0 /\ cn_id n = None /\ cn_version n = None)
  \/ (0 < k /\ exists i s, cn_id n = Some i /\ bt_get PackageId_cmp sel i = Some s /\ cn_version n = Some s).
Hypothesis Hlose : forall k n, m <= k -> cns !! k = Some n ->
  exists i v s, cn_id n = Some i /\ cn_version n = Some v /\ bt_get PackageId_cmp sel i = Some s
    /\ NuGetVersion_cmp v s = Lt
    /\ exists k' n' i', k' < m /\ cns !! k' = Some n' /\ cn_id n' = Some i' /\ PackageId_cmp i' i = Eq.
Hypothesis Hleaf : forall k p, par k = Some p -> p < m.

Definition good (disp : list Disposition) : Prop :=
  length disp = length cns
  /\ forall k d, disp !! k = Some d -> (k < m -> d <> DRejected) /\ (m <= k -> d <> DAccepted).

Definition tracked_ok (tr : tracked_versions) : Prop :=
  forall o vs v, bt_get oid_cmp tr o = Some vs -> v ∈ vs ->
    match o with
    | None => v = None
    | Some i => exists s v0, bt_get PackageId_cmp sel i = Some s /\ v = Some v0 /\ NuGetVersion_cmp v0 s <> Gt
    end.

Definition has_version (tr : tracked_versions) (n : ConflictNode) : Prop :=
  exists vs v, bt_get oid_cmp tr (cn_id n) = Some vs /\ v ∈ vs /\ over_cmp v (cn_version n) = Eq.

Lemma good_lookup disp k n : good disp -> cns !! k = Some n -> exists d, disp !! k = Some d.
Proof. intros [Hl _] Hk. apply lookup_lt_is_Some. rewrite Hl. by eapply lookup_lt_Some. Qed.

Lemma good_insert disp k d : good disp -> (k < m -> d <> DRejected) -> (m <= k -> d <> DAccepted) ->
  good (<[k := d]> disp).
Proof.
  intros [Hl Hg] H1 H2. split; [by rewrite length_insert|]. intros k' d' Hk'.
  apply list_lookup_insert_Some in Hk' as [(-> & -> & _)|[_ Hk']]; auto.
Qed.

(** A node's own version may be tracked under its id. *)
Lemma version_trackable k n : cns !! k = Some n ->
  match cn_id n with
  | None => cn_version n = None
  | Some i => exists s v0, bt_get PackageId_cmp sel i = Some s /\ cn_version n = Some v0 /\ NuGetVersion_cmp v0 s <> Gt
  end.
Proof.
  intros Hk. destruct (decide (k < m)) as [Hlt|Hge].
  - destruct (Hwin k n Hlt Hk) as [(_ & -> & ->)|(_ & i & s & -> & Hs & ->)]; [done|].
    exists s, s. split_and!; [done..|]. by rewrite (cmp_refl NuGetVersion_cmp).
  - destruct (Hlose k n ltac:(lia) Hk) as (i & v & s & -> & -> & Hs & Hlt & _).
    exists s, v. split_and!; [done..|congruence].
Qed.

Definition track (tr : tracked_versions) (n : ConflictNode) : tracked_versions :=
  let vs := default [] (bt_get oid_cmp tr (cn_id n)) in
  bt_insert oid_cmp tr (cn_id n)
    (if existsb (fun v => cmp_eqb over_cmp v (cn_version n)) vs then vs else vs ++ [cn_version n]).

Lemma track_get tr n : is_Some (bt_get oid_cmp (track tr n) (cn_id n)).
Proof. unfold track. by rewrite (bt_get_insert oid_cmp), (cmp_refl oid_cmp). Qed.

Lemma track_keeps tr n o vs : bt_get oid_cmp tr o = Some vs ->
  exists vs', bt_get oid_cmp (track tr n) o = Some vs' /\ vs ⊆ vs'.
Proof.
  intros Ho. unfold track. rewrite (bt_get_insert oid_cmp). destruct (oid_cmp o (cn_id n)) eqn:E; [|eauto..].
  rewrite (bt_get_equiv oid_cmp tr o _ E) in Ho. rewrite Ho. simpl. eexists. split; [done|].
  destruct (existsb _ vs); set_solver.
Qed.

Lemma track_has tr n : has_version (track tr n) n.
Proof.
  unfold has_version, track. rewrite (bt_get_insert oid_cmp), (cmp_refl oid_cmp).
  set (vs := default [] _). destruct (existsb _ vs) eqn:E.
  - apply existsb_exists in E as (v & Hv & Hc). exists vs, v. split_and!; [done|by apply list_elem_of_In|].
    by apply (cmp_eqb_spec over_cmp).
  - eexists _, (cn_version n). split_and!; [done|set_solver|]. apply (cmp_refl over_cmp).
Qed.

Lemma track_has_keeps tr n n' : has_version tr n' -> has_version (track tr n) n'.
Proof.
  intros (vs & v & Hvs & Hv & Hc). destruct (track_keeps tr n _ _ Hvs) as (vs' & ? & Hsub).
  exists vs', v. split_and!; [done|by apply Hsub|done].
Qed.

Lemma track_ok tr k n : cns !! k = Some n -> tracked_ok tr -> tracked_ok (track tr n).
Proof.
  intros Hk Htr o vs v Ho Hv. unfold track in Ho. rewrite (bt_get_insert oid_cmp) in Ho.
  destruct (oid_cmp o (cn_id n)) eqn:E; [|by eapply Htr..]. simplify_eq.
  set (old := default [] (bt_get oid_cmp tr (cn_id n))) in *.
  assert (Hin : v ∈ old \/ v = cn_version n).
  { destruct (existsb _ old); [auto|]. apply elem_of_app in Hv as [?|?]; set_solver. }
  destruct Hin as [Hin| ->].
  - unfold old in Hin. destruct (bt_get oid_cmp tr (cn_id n)) as [vs0|] eqn:E0; [|simpl in Hin; set_solver].
    rewrite <- (bt_get_equiv oid_cmp tr o _ E) in E0. by eapply Htr.
  - pose proof (version_trackable k n Hk) as Hvt.
    destruct o as [i|], (cn_id n) as [i'|]; try done.
    destruct Hvt as (s & v0 & Hs & ? & ?). exists s, v0. split_and!; [|done..].
    by rewrite (bt_get_equiv PackageId_cmp sel i i' E).
Qed.

(** The first pass. *)
Lemma wp_reject disp0 c : good disp0 ->
  wp (stack_loop (length cns) cns (reject_body (XmlError:=XmlError) cns) [(0, true)] (disp0, [])) c (fun c' s =>
    c' = c /\ good (fst s) /\ tracked_ok (snd s)
    /\ (forall k n, k < m -> cns !! k = Some n -> has_version (snd s) n)
    /\ (forall k n d, cns !! k = Some n -> fst s !! k = Some d -> d <> DRejected ->
          is_Some (bt_get oid_cmp (snd s) (cn_id n)))
    /\ (disp0 !! 0 = Some DAccepted -> fst s !! 0 = Some DAccepted)).
Proof.
  intros Hg0. eapply wp_mono.
  { apply (wp_pass cns par Ht _ (fun k live => k < m -> live = true)
      (fun vis s => good (fst s) /\ tracked_ok (snd s)
        /\ (forall k n, k ∈ vis -> k < m -> cns !! k = Some n -> has_version (snd s) n)
        /\ (forall k n d, k ∈ vis -> cns !! k = Some n -> fst s !! k = Some d -> d <> DRejected ->
              is_Some (bt_get oid_cmp (snd s) (cn_id n)))
        /\ (disp0 !! 0 = Some DAccepted -> fst s !! 0 = Some DAccepted)) True).
    - intros i live [disp tr] vis c0 n Hn Hiv HP (Hg & Htr & Hw & Ha & H0). cbn [fst snd] in *.
      destruct (good_lookup disp i n Hg Hn) as [d Hd]. unfold reject_body. apply wp_bind. eapply wp_index; [done|].
      apply wp_bind. eapply wp_index; [done|].
      destruct (live && negb (bool_decide (d = DRejected)))%bool eqn:El; apply wp_ret; cbn [fst snd];
        split_and!; try done.
      + by eapply (track_ok tr i).
      + intros k n' [->|Hk]%elem_of_cons Hlt Hn'; [simplify_eq; apply track_has|apply track_has_keeps; eauto].
      + intros k n' d' [->|Hk]%elem_of_cons Hn' Hd' Hnr; [simplify_eq; apply track_get|].
        destruct (Ha k n' d' Hk Hn' Hd' Hnr) as [vs Hvs]. destruct (track_keeps tr n _ _ Hvs) as (vs' & ? & _). by exists vs'.
      + by intros y k [= <-].
      + apply good_insert; [done| |done]. intros Hlt. destruct (proj2 Hg i d Hd) as [Hnr _].
        rewrite (HP Hlt) in El. cbn in El. rewrite bool_decide_eq_false_2 in El by auto. done.
      + intros k n' [->|Hk]%elem_of_cons Hlt Hn'; [|eauto]. destruct (proj2 Hg i d Hd) as [Hnr _].
        rewrite (HP Hlt) in El. cbn in El. by rewrite bool_decide_eq_false_2 in El by auto.
      + intros k n' d' [->|Hk]%elem_of_cons Hn' Hd' Hnr.
        * rewrite list_lookup_insert_eq in Hd' by (by eapply lookup_lt_Some). congruence.
        * rewrite list_lookup_insert_ne in Hd' by (intros ->; done). eauto.
      + intros Hd0. destruct (decide (i = 0)) as [->|Hne]; [|rewrite list_lookup_insert_ne by done; auto].
        rewrite (HP ltac:(lia)), (H0 Hd0) in *. simplify_eq.
      + intros y k [= <-] Hk Hlt. destruct (ctree_par _ _ Ht k) as (p & Hp & Hpk).
        { split; [|lia]. destruct k; [|lia]. rewrite (ctree_root _ _ Ht) in Hk. done. }
        simplify_eq. assert (i < m) by lia. destruct (proj2 Hg i d Hd) as [Hnr _].
        rewrite (HP ltac:(done)) in El. cbn in El. rewrite bool_decide_eq_false_2 in El by auto. done.
    - done.
    - cbn. split_and!; try done; intros; set_solver. }
  intros c' s (-> & vis & (Hg & Htr & Hw & Ha & H0) & _ & Hfull). split_and!; try done.
  - intros k n Hlt Hn. apply (Hw k); [apply Hfull; [done|lia]|done|done].
  - intros k n d Hn Hd Hnr. apply (Ha k n d); [apply Hfull; [done|by eapply lookup_lt_Some]|done..].
Qed.

(** The root is the only node without a package. *)
Lemma id_none k n : cns !! k = Some n -> cn_id n = None -> k = 0.
Proof.
  intros Hk Hn. destruct (decide (k < m)) as [Hlt|Hge].
  - destruct (Hwin k n Hlt Hk) as [(-> & _)|(_ & i & s & Hi & _)]; congruence.
  - destruct (Hlose k n ltac:(lia) Hk) as (i & v & s & Hi & _). congruence.
Qed.

(** The second pass never marks the root. *)
Lemma wp_ambiguity disp tr c : good disp ->
  wp (stack_loop (length cns) cns (ambiguity_body (XmlError:=XmlError) cns disp tr) [(0, Walking)] []) c (fun c' a =>
    c' = c /\ bt_get oid_cmp a None = None).
Proof.
  intros Hg. eapply wp_mono.
  { apply (wp_pass cns par Ht _ (fun k st => k = 0 -> st = Walking)
      (fun _ a => bt_get oid_cmp a None = None) False).
    - intros i st a vis c0 n Hn Hiv HP Ha. destruct (good_lookup disp i n Hg Hn) as [d Hd].
      assert (Hkid : forall (y : AmbiguityWalk) k, par k = Some i -> k = 0 -> y = Walking).
      { intros y k Hk ->. rewrite (ctree_root _ _ Ht) in Hk. done. }
      unfold ambiguity_body. apply wp_bind. eapply wp_index; [done|]. apply wp_bind. eapply wp_index; [done|].
      destruct (bool_decide (d = DRejected)); [by apply wp_ret; split_and!; [..|intros; eapply Hkid]|].
      destruct (bool_decide (st = Walking) && disputed tr (cn_id n))%bool;
        [by apply wp_ret; split_and!; [..|intros; eapply Hkid]|].
      apply wp_ret. split_and!; [done| |done|intros; by eapply Hkid]. cbn [fst].
      case_bool_decide as Est; [|done]. rewrite (bt_get_insert oid_cmp).
      destruct (cn_id n) as [j|] eqn:Ej; [done|]. rewrite (HP (id_none i n Hn Ej)) in Est. done.
    - done.
    - done. }
  intros c' a (-> & vis & Ha & _). done.
Qed.

(** The third pass decides winners and losers rightly, and the root. *)
Lemma wp_decide disp0 tr amb c : good disp0 -> tracked_ok tr ->
  (forall k n, k < m -> cns !! k = Some n -> has_version tr n) ->
  (forall k n d, cns !! k = Some n -> disp0 !! k = Some d -> d <> DRejected ->
     is_Some (bt_get oid_cmp tr (cn_id n))) ->
  bt_get oid_cmp amb None = None ->
  wp (stack_loop (length cns) cns (accept_body (XmlError:=XmlError) cns tr amb) [(0, tt)] disp0) c (fun c' disp =>
    c' = c /\ good disp /\ disp !! 0 = Some DAccepted).
Proof.
  intros Hg0 Htr Hw Ha Hamb. eapply wp_mono.
  { apply (wp_pass cns par Ht _ (fun _ _ => True)
      (fun vis disp => good disp
        /\ (forall k, disp !! k = Some DAcceptable -> disp0 !! k = Some DAcceptable)
        /\ (0 ∈ vis -> disp !! 0 = Some DAccepted)) False).
    - intros i u disp vis c0 n Hn Hiv _ (Hg & Hsub & H0). destruct (good_lookup disp i n Hg Hn) as [d Hd].
      assert (Hlt : i < length disp) by (rewrite (proj1 Hg); by eapply lookup_lt_Some).
      unfold accept_body. apply wp_bind. eapply wp_index; [done|]. apply wp_bind. eapply wp_index; [done|].
      destruct (bool_decide (d = DRejected) || bt_contains oid_cmp amb (cn_id n))%bool eqn:Eskip.
      { apply wp_ret. split; [done|]. split; [|done]. split_and!; [done..|].
        intros [E0|Hin]%elem_of_cons; [subst i|auto]. exfalso.
        destruct (Hwin 0 n ltac:(lia) Hn) as [(_ & Hid & _)|[? _]]; [|lia].
        apply orb_true_iff in Eskip as [E|E].
        - apply bool_decide_eq_true in E as ->. by destruct (proj1 (proj2 Hg 0 _ Hd) ltac:(lia)).
        - unfold bt_contains in E. rewrite Hid, Hamb in E. done. }
      apply orb_false_iff in Eskip as [Enr _]. apply bool_decide_eq_false in Enr.
      apply wp_bind. case_bool_decide as Ed.
      + subst d. destruct (Ha i n DAcceptable Hn (Hsub i Hd) ltac:(done)) as [vs Hvs].
        apply wp_bind. eapply wp_expect; [done|]. apply wp_ret.
        apply wp_bind. eapply wp_index; [by apply list_lookup_insert_eq|]. apply wp_ret. cbn [fst snd].
        set (best := forallb _ vs).
        assert (Hbest : (i < m -> best = true) /\ (m <= i -> best = false)).
        { split; intros Hi.
          - apply forallb_Forall, Forall_forall. intros v Hv. apply (cmp_leb_spec over_cmp).
            pose proof (Htr _ _ _ Hvs Hv) as Hok.
            destruct (Hwin i n Hi Hn) as [(_ & E & E')|(_ & j & s & E & Hs & E')]; rewrite E, E' in *; [by subst|].
            destruct Hok as (s' & v0 & Hs' & -> & Hle). simplify_eq. done.
          - destruct (Hlose i n Hi Hn) as (j & v & s & Ej & Ev & Hs & Hlt' & k' & n' & i' & Hk' & Hn' & Ei' & Eij).
            destruct (Hw k' n' Hk' Hn') as (vs' & w & Hvs' & Hin & Hcw).
            destruct (Hwin k' n' Hk' Hn') as [(_ & E & _)|(_ & j' & s' & E & Hs' & E')]; [congruence|].
            rewrite E in Ei'. simplify_eq.
            assert (s' = s) as -> by (rewrite (bt_get_equiv PackageId_cmp sel i' j Eij) in Hs'; congruence).
            rewrite E in Hvs'. rewrite (bt_get_equiv oid_cmp tr (Some i') (Some j) Eij), <- Ej, Hvs in Hvs'. simplify_eq.
            unfold best. destruct (forallb _ vs') eqn:Ef; [|done]. exfalso.
            rewrite forallb_Forall, Forall_forall in Ef. specialize (Ef w Hin).
            apply (cmp_leb_spec over_cmp) in Ef. rewrite Ev, (cmp_eq_l over_cmp _ _ _ Hcw), E' in Ef.
            apply Ef. simpl. by apply (cmp_gt_lt NuGetVersion_cmp). }
        split; [done|]. split; [|done]. split_and!.
        * apply good_insert; [done| |]; intros Hi; [rewrite (proj1 Hbest Hi)|rewrite (proj2 Hbest Hi)]; done.
        * intros k Hk. apply list_lookup_insert_Some in Hk as [(<- & E & _)|[_ Hk]]; [by destruct best|auto].
        * intros Hin. destruct (decide (i = 0)) as [->|Hne].
          -- rewrite list_lookup_insert_eq by done. by rewrite (proj1 Hbest ltac:(lia)).
          -- rewrite list_lookup_insert_ne by done. apply H0. set_solver.
      + apply wp_ret. apply wp_bind. eapply wp_index; [done|]. apply wp_ret.
        split; [done|]. split; [|done]. split_and!; [done..|]. intros [E0|Hin]%elem_of_cons; [subst i|auto].
        by destruct d.
    - done.
    - split_and!; [done..|set_solver]. }
  intros c' disp (-> & vis & (Hg & _ & H0) & Hin & _). split_and!; [done..|auto].
Qed.

Lemma wp_round disp c : good disp ->
  wp (conflict_round (XmlError:=XmlError) cns disp) c (fun c' disp' =>
    c' = c /\ good disp' /\ disp' !! 0 = Some DAccepted).
Proof.
  intros Hg. apply wp_bind. eapply wp_mono; [by apply wp_reject|].
  intros c1 [disp1 tr] (-> & Hg1 & Htr & Hw & Ha & _). cbn [fst snd] in *.
  apply wp_bind. eapply wp_mono; [by apply wp_ambiguity|]. intros c2 amb (-> & Hamb). by apply wp_decide.
Qed.

Lemma wp_rounds n disp c : good disp -> disp !! 0 = Some DAccepted \/ 0 < n ->
  wp (conflict_rounds (XmlError:=XmlError) n cns disp) c (fun c' disp' =>
    c' = c /\ good disp' /\ disp' !! 0 = Some DAccepted).
Proof.
  revert disp. induction n as [|n IH]; intros disp Hg H0; cbn [conflict_rounds].
  - destruct H0; [by apply wp_ret|lia].
  - case_bool_decide as Ein; cbn [negb].
    + apply wp_bind. eapply wp_mono; [by apply wp_round|]. intros c1 disp1 (-> & Hg1 & H1).
      case_bool_decide; [by apply wp_ret|]. apply IH; auto.
    + apply wp_ret. split_and!; [done..|].
      assert (exists d, disp !! 0 = Some d) as [d Hd].
      { apply lookup_lt_is_Some. rewrite (proj1 Hg). lia. }
      rewrite Hd. destruct (proj2 Hg 0 d Hd) as [Hnr _]. specialize (Hnr ltac:(lia)).
      destruct d; [|done|done]. destruct Ein. by eapply list_elem_of_lookup_2.
Qed.
End passes.
End tree.
