(* ===== verification/ResolverSound.v ===== *)
(** * From a settled walk to its closure

    What a walk that settled and passed [finish] gives: the checks of [finish]
    and of the conflict pass never panic on it, its packages are read from the
    folder at the selected versions, every edge of a package leads to a package,
    and every package is reached from the direct requirements.  [ResolverClosure]
    puts this together for [resolve_offline]. *)

From S2P Require Import Prelude Order Version Range Package Nuspec BTree Resolver ResolverEx.
From S2P Require Import ResolverThm ResolverWalk ResolverSettle.

Section building.
Context {F XmlError : Type} `{RE : ResolverEnv F XmlError}.
Notation cache := (PackageCache F XmlError).
Implicit Types (c : cache).
Context (direct : list DirectPackageRequirement).
Context (w : Walk) (cur : versions) (Hinv : inv direct (final_state w cur)).
Hypothesis Hsel : forall k n i, nodes w !! k = Some n -> node_id n = Some i ->
  is_Some (bt_get PackageId_cmp (selected w) i).

(** ** The conflict tree of a walk *)

Definition par_of (k : nat) : option nat :=
  if decide (k < length (nodes w)) then nodes w !! k ≫= node_parent
  else loser_parent <$> losers w !! (k - length (nodes w)).

Definition head_ok (k : nat) (cn : ConflictNode) : Prop :=
  if decide (k < length (nodes w)) then
    exists n, nodes w !! k = Some n /\ cn_id cn = node_id n
      /\ cn_version cn = node_id n ≫= bt_get PackageId_cmp (selected w)
      /\ (cn_id cn <> None -> cn_version cn <> None)
  else exists l, losers w !! (k - length (nodes w)) = Some l
      /\ cn_id cn = Some (id (loser_identity l)) /\ cn_version cn = Some (version (loser_identity l)).

(** The children below [t] are linked. *)
Definition built (t : nat) (cns : list ConflictNode) : Prop :=
  forall k cn, cns !! k = Some cn -> cn_children cn = kids_of par_of t k /\ head_ok k cn.

Lemma par_of_lt k p : par_of k = Some p -> p < k /\ p < length (nodes w).
Proof.
  unfold par_of. destruct (decide _) as [Hlt|Hge].
  - destruct (nodes w !! k) as [n|] eqn:En; [|done]. simpl. intros Hp.
    pose proof (tree_parent _ _ _ _ (inv_tree _ _ Hinv) En Hp). lia.
  - destruct (losers w !! _) as [l|] eqn:El; [|done]. simpl. intros [= <-].
    pose proof (inv_losers _ _ Hinv) as Hl. cbn in Hl. rewrite Forall_forall in Hl.
    destruct (Hl l) as [? _]; [by eapply list_elem_of_lookup_2|]. lia.
Qed.

Lemma kids_of_succ t k : kids_of par_of (S t) k =
  kids_of par_of t k ++ if decide (par_of t = Some k) then [t] else [].
Proof.
  unfold kids_of. by rewrite seq_S, filter_app.
Qed.

Lemma kids_of_late t k : t <= S k -> kids_of par_of t k = [].
Proof.
  intros Ht. destruct (kids_of par_of t k) as [|x l] eqn:E; [done|].
  assert (Hx : x ∈ kids_of par_of t k) by (rewrite E; left).
  apply elem_of_kids in Hx as [Hp%par_of_lt ?]. lia.
Qed.

Lemma wp_push_child t p cns c : built t cns -> par_of t = Some p -> t < length cns ->
  wp (push_child (XmlError:=XmlError) cns p t) c (fun c' cns' => c' = c /\ built (S t) cns' /\ length cns' = length cns).
Proof.
  intros Hb Hp Ht. pose proof (par_of_lt _ _ Hp) as [Hpt _].
  assert (exists n, cns !! p = Some n) as [n Hn] by (apply lookup_lt_is_Some; lia).
  apply wp_bind. eapply wp_index; [done|]. apply wp_ret. rewrite length_insert. split_and!; [done| |done].
  intros k cn Hk. rewrite kids_of_succ.
  apply list_lookup_insert_Some in Hk as [(-> & <- & _)|[Hne Hk]].
  - destruct (Hb _ _ Hn) as [Hc Hh]. rewrite decide_True by done. cbn. by rewrite Hc.
  - rewrite decide_False by congruence. rewrite app_nil_r. by apply Hb.
Qed.

Lemma wp_link_children c cns : built 0 cns -> length cns = length (nodes w) ->
  wp (foldM (link_child (XmlError:=XmlError)) (enumerate (nodes w)) cns) c (fun c' cns' =>
    c' = c /\ built (length (nodes w)) cns' /\ length cns' = length (nodes w)).
Proof.
  unfold enumerate.
  assert (Hgo : forall l pre cns, nodes w = pre ++ l -> built (length pre) cns -> length cns = length (nodes w) ->
    wp (foldM (link_child (XmlError:=XmlError)) (zip (seq (length pre) (length l)) l) cns) c (fun c' cns' =>
      c' = c /\ built (length (nodes w)) cns' /\ length cns' = length (nodes w))).
  { induction l as [|n l IH]; intros pre cns0 E Hb Hlen.
    - apply wp_ret. rewrite E, app_nil_r in *. done.
    - simpl. apply wp_bind.
      assert (Hn : nodes w !! length pre = Some n) by (rewrite E; by apply list_lookup_middle).
      assert (Hpar : par_of (length pre) = node_parent n).
      { unfold par_of. rewrite decide_True by (by eapply lookup_lt_Some). by rewrite Hn. }
      assert (Hnext : forall cns1, built (S (length pre)) cns1 -> length cns1 = length (nodes w) ->
        wp (foldM (link_child (XmlError:=XmlError)) (zip (seq (S (length pre)) (length l)) l) cns1) c (fun c' cns' =>
          c' = c /\ built (length (nodes w)) cns' /\ length cns' = length (nodes w))).
      { intros cns1 Hb1 Hl1. specialize (IH (pre ++ [n]) cns1). rewrite length_app in IH. simpl in IH.
        rewrite Nat.add_1_r in IH. apply IH; [|done|done]. by rewrite <- app_assoc. }
      unfold link_child. cbn [fst snd]. destruct (node_parent n) as [p|].
      + eapply wp_mono; [apply (wp_push_child (length pre)); [done|done|]|].
        * apply lookup_lt_Some in Hn. lia.
        * intros c1 cns1 (-> & Hb1 & Hl1). apply Hnext; [done|congruence].
      + apply wp_ret. apply Hnext; [|done].
        intros k cn Hk. rewrite kids_of_succ, decide_False by congruence. rewrite app_nil_r. by apply Hb. }
  intros Hb Hlen. by apply (Hgo (nodes w) []).
Qed.

Lemma wp_link_losers c cns : built (length (nodes w)) cns -> length cns = length (nodes w) ->
  wp (foldM (link_loser (XmlError:=XmlError)) (losers w) cns) c (fun c' cns' =>
    c' = c /\ built (length cns') cns' /\ length cns' = length (nodes w) + length (losers w)).
Proof.
  assert (Hgo : forall l pre cns, losers w = pre ++ l -> built (length cns) cns ->
    length cns = length (nodes w) + length pre ->
    wp (foldM (link_loser (XmlError:=XmlError)) l cns) c (fun c' cns' =>
      c' = c /\ built (length cns') cns' /\ length cns' = length (nodes w) + length (losers w))).
  { induction l as [|x l IH]; intros pre cns0 E Hb Hlen; simpl.
    - apply wp_ret. by rewrite E, app_nil_r.
    - apply wp_bind. unfold link_loser. rewrite length_app. simpl length.
      replace (length cns0 + 1 - 1) with (length cns0) by lia.
      assert (Hx : losers w !! (length cns0 - length (nodes w)) = Some x).
      { rewrite E. replace (length cns0 - length (nodes w)) with (length pre) by lia. by apply list_lookup_middle. }
      assert (Hpar : par_of (length cns0) = Some (loser_parent x)).
      { unfold par_of. rewrite decide_False by lia. by rewrite Hx. }
      set (leaf := {| cn_id := _ |}).
      assert (Hb' : built (length cns0) (cns0 ++ [leaf])).
      { intros k cn Hk. apply lookup_app_Some in Hk as [Hk|[Hge Hk]]; [by apply Hb|].
        apply list_lookup_singleton_Some in Hk as [Hk <-]. assert (k = length cns0) as -> by lia.
        rewrite kids_of_late by lia. split; [done|]. unfold head_ok. rewrite decide_False by lia. by exists x. }
      eapply wp_mono; [apply (wp_push_child (length cns0)); [done|done|rewrite length_app; simpl; lia]|].
      intros c1 cns1 (-> & Hb1 & Hl1). rewrite length_app in Hl1. simpl in Hl1.
      apply (IH (pre ++ [x])); [by rewrite <- app_assoc| |rewrite length_app; simpl; lia].
      by rewrite Hl1, Nat.add_1_r. }
  intros Hb Hlen. apply (Hgo (losers w) []); [done| |simpl; lia]. by rewrite Hlen.
Qed.

Lemma wp_conflict_nodes c :
  wp (conflict_nodes (XmlError:=XmlError) w) c (fun c' cns => c' = c /\ ctree cns par_of
    /\ length cns = length (nodes w) + length (losers w) /\ forall k cn, cns !! k = Some cn -> head_ok k cn).
Proof.
  apply wp_bind. eapply wp_mono.
  { apply (wp_mapMM_pure _ (fun n cn => cn_children cn = [] /\ cn_id cn = node_id n
      /\ cn_version cn = node_id n ≫= bt_get PackageId_cmp (selected w)
      /\ (cn_id cn <> None -> cn_version cn <> None))).
    intros n Hn. unfold conflict_node. destruct (node_id n) as [i|] eqn:Ei; [|by apply wp_ret].
    apply list_elem_of_lookup in Hn as [k Hk]. destruct (Hsel k n i Hk Ei) as [v Hv].
    apply wp_bind. eapply wp_expect; [done|]. apply wp_ret. cbn. rewrite Hv. done. }
  intros c1 cns0 [-> Hbase]. apply wp_bind.
  assert (Hb0 : built 0 cns0).
  { intros k cn Hk. destruct (Forall2_lookup_r _ _ _ _ _ Hbase Hk) as (n & Hn & Hc & Hrest).
    rewrite kids_of_late by lia. split; [done|]. unfold head_ok.
    rewrite decide_True by (by eapply lookup_lt_Some). by exists n. }
  eapply wp_mono; [apply wp_link_children; [done|by apply Forall2_length in Hbase]|].
  intros c1 cns1 (-> & Hb1 & Hl1). eapply wp_mono; [by apply wp_link_losers|].
  intros c1 cns (-> & Hb & Hl). destruct (inv_tree _ _ Hinv) as [(r & Hr & _ & Hp) Htree]. cbn in Hr, Htree.
  split_and!; [done| |done|intros k cn Hk; by apply Hb]. split.
  - apply lookup_lt_Some in Hr. lia.
  - unfold par_of. rewrite decide_True by (by eapply lookup_lt_Some). by rewrite Hr.
  - intros k Hk. unfold par_of. destruct (decide _) as [Hlt|Hge].
    + apply lookup_lt_is_Some in Hlt as [n Hn]. rewrite Hn. simpl.
      destruct (Htree k n Hn) as [(p & ? & ?) _]; [lia|]. eauto.
    + assert (exists l, losers w !! (k - length (nodes w)) = Some l) as [l El] by (apply lookup_lt_is_Some; lia).
      rewrite El. simpl. exists (loser_parent l). split; [done|].
      destruct (par_of_lt k (loser_parent l)) as [? _]; [|done]. unfold par_of. rewrite decide_False by lia. by rewrite El.
  - intros p n Hn. by apply Hb.
Qed.
End building.

Section settled.
Context {F XmlError : Type} `{RE : ResolverEnv F XmlError}.
Notation cache := (PackageCache F XmlError).
Implicit Types (c : cache).

Lemma wp_iterM {A} (f : A -> M F XmlError unit) (R : cache -> A -> Prop) l c :
  (forall a c1 c2, ext c1 c2 -> R c1 a -> R c2 a) -> cache_ok c ->
  (forall a c1, a ∈ l -> cache_ok c1 -> ext c c1 -> wp (f a) c1 (fun c2 _ => cache_ok c2 /\ ext c1 c2 /\ R c2 a)) ->
  wp (iterM f l) c (fun c' _ => cache_ok c' /\ ext c c' /\ forall a, a ∈ l -> R c' a).
Proof.
  intros HR. revert c. induction l as [|a l IH]; intros c Hok Hf; simpl.
  - apply wp_ret. split_and!; [done..|]. intros a Ha. set_solver.
  - apply wp_bind. eapply wp_mono; [apply Hf; [set_solver|done..]|]. intros c1 [] (Hok1 & He1 & Ha).
    eapply wp_mono; [apply (IH c1); [done|]|].
    + intros b c2 Hb Hok2 He2. apply Hf; [set_solver|done|by etrans].
    + intros c2 [] (Hok2 & He2 & Hl). split_and!; [done|by etrans|].
      intros b [->|Hb]%elem_of_cons; [by eapply HR|auto].
Qed.

Lemma wp_mapMM {A B} (f : A -> M F XmlError B) (R : cache -> A -> B -> Prop) l c :
  (forall a b c1 c2, ext c1 c2 -> R c1 a b -> R c2 a b) -> cache_ok c ->
  (forall a c1, a ∈ l -> cache_ok c1 -> ext c c1 -> wp (f a) c1 (fun c2 b => cache_ok c2 /\ ext c1 c2 /\ R c2 a b)) ->
  wp (mapMM f l) c (fun c' bs => cache_ok c' /\ ext c c' /\ Forall2 (R c') l bs).
Proof.
  intros HR. revert c. induction l as [|a l IH]; intros c Hok Hf; simpl; [by apply wp_ret; split_and!|].
  apply wp_bind. eapply wp_mono; [apply Hf; [set_solver|done..]|]. intros c1 b (Hok1 & He1 & Ha).
  apply wp_bind. eapply wp_mono; [apply (IH c1); [done|]|].
  - intros x c2 Hb Hok2 He2. apply Hf; [set_solver|done|by etrans].
  - intros c2 bs (Hok2 & He2 & Hl). apply wp_ret. split_and!; [done|by etrans|]. constructor; [|done]. by eapply HR.
Qed.

Lemma wp_iterM_pure {A} (f : A -> M F XmlError unit) (R : A -> Prop) l c :
  (forall a, a ∈ l -> wp (f a) c (fun c' _ => c' = c /\ R a)) ->
  wp (iterM f l) c (fun c' _ => c' = c /\ forall a, a ∈ l -> R a).
Proof.
  induction l as [|a l IH]; intros Hf; simpl; [apply wp_ret; split; [done|set_solver]|].
  apply wp_bind. eapply wp_mono; [apply Hf; set_solver|]. intros c1 [] [-> Ha].
  eapply wp_mono; [apply IH; intros; apply Hf; set_solver|]. intros c1 [] [-> Hl]. split; [done|].
  intros b [->|?]%elem_of_cons; auto.
Qed.

Context (direct : list DirectPackageRequirement) (sel : versions) (c0 : cache) (w : Walk).
Hypothesis Hw : walked direct sel c0 w.
Hypothesis Hsettled : bt_eqb PackageId_cmp NuGetVersion_eqb (selected w) sel = true.

Lemma settled_hist : hist direct sel c0 (final_state w sel) None.
Proof. eapply walked_hist; [exact Hw|]. by eapply settled_calm. Qed.

Lemma selected_sel j s : bt_get PackageId_cmp (selected w) j = Some s ->
  exists s', bt_get PackageId_cmp sel j = Some s' /\ NuGetVersion_cmp s s' = Eq.
Proof.
  intros Hs. pose proof (bt_eqb_get PackageId_cmp _ _ _ j Hsettled) as Hj. rewrite Hs in Hj.
  destruct (bt_get PackageId_cmp sel j) as [s'|]; [|done]. exists s'. split; [done|].
  by apply (cmp_eqb_spec NuGetVersion_cmp).
Qed.

Lemma edge_selected j rs : bt_get PackageId_cmp (edges w) j = Some rs ->
  exists s, bt_get PackageId_cmp (selected w) j = Some s /\ greatest rs s.
Proof. apply (walked_selected _ _ _ _ Hw). Qed.

Lemma node_selected k n i : nodes w !! k = Some n -> node_id n = Some i ->
  is_Some (bt_get PackageId_cmp (selected w) i).
Proof.
  intros Hk Hi. destruct (walked_inv _ _ _ _ Hw) as [cur Hinv].
  destruct (inv_nodes _ _ Hinv k n i Hk Hi) as [_ [rs Hrs]]. destruct (edge_selected i rs Hrs) as (s & -> & _). done.
Qed.

(** Every package with an edge has an expanded node. *)
Lemma winner_node j rs : bt_get PackageId_cmp (edges w) j = Some rs ->
  exists k n i, nodes w !! k = Some n /\ node_id n = Some i /\ PackageId_cmp i j = Eq.
Proof.
  intros Hrs. destruct (edge_selected j rs Hrs) as (s & Hs & (r & Hr & Hlb) & _).
  destruct (selected_sel j s Hs) as (s' & Hs' & E).
  apply (hist_winners _ _ _ _ _ settled_hist j r s s'); [by exists rs|done..].
Qed.

Lemma loser_below l : l ∈ losers w -> exists s, bt_get PackageId_cmp (selected w) (id (loser_identity l)) = Some s
  /\ NuGetVersion_cmp (version (loser_identity l)) s = Lt
  /\ exists k n i, nodes w !! k = Some n /\ node_id n = Some i /\ PackageId_cmp i (id (loser_identity l)) = Eq.
Proof.
  intros Hl. destruct (walked_inv _ _ _ _ Hw) as [cur Hinv].
  pose proof (inv_losers _ _ Hinv) as Hls. cbn in Hls. rewrite Forall_forall in Hls. destruct (Hls l Hl) as [_ [rs Hrs]].
  pose proof (hist_losers _ _ _ _ _ settled_hist) as Hlt. cbn in Hlt. rewrite Forall_forall in Hlt.
  destruct (Hlt l Hl) as (s' & Hs' & Hlt'). destruct (edge_selected _ rs Hrs) as (s & Hs & _).
  destruct (selected_sel _ s Hs) as (s'' & Hs'' & E). simplify_eq. exists s. split_and!; [done| |by eapply winner_node].
  by rewrite (cmp_eq_r NuGetVersion_cmp _ _ _ E).
Qed.

(** ** The conflict pass does not panic *)

Lemma undecided_empty (l : list (ConflictNode * Disposition)) (s : list (PackageId * unit)) :
  fold_left (fun s '(n, d) =>
    match cn_id n with
    | Some i => if bool_decide (d = DAcceptable) then bt_insert PackageId_cmp s i tt else s
    | None => s
    end) l s = [] -> s = [] /\ forall n i, (n, DAcceptable) ∈ l -> cn_id n <> Some i.
Proof.
  revert s. induction l as [|[n d] l IH]; intros s Hs; simpl in Hs.
  - split; [done|]. intros n i Hin. set_solver.
  - apply IH in Hs as [Hs Hl]. destruct (cn_id n) as [j|] eqn:Ej.
    + case_bool_decide as Ed.
      * destruct s as [|[k u] s]; simpl in Hs; [done|]. by destruct (PackageId_cmp j k).
      * split; [done|]. intros n' i [[= -> <-]|Hin]%elem_of_cons; [done|eauto].
    + split; [done|]. intros n' i [[= -> <-]|Hin]%elem_of_cons; [congruence|eauto].
Qed.

Lemma wp_settle_conflicts c : wp (settle_conflicts w) c (fun c' _ => c' = c).
Proof.
  destruct (walked_inv _ _ _ _ Hw) as [cur Hinv]. apply wp_bind.
  eapply wp_mono; [apply (wp_conflict_nodes direct w cur Hinv node_selected)|].
  intros c1 cns (-> & Ht & Hlen & Hhead). set (m := length (nodes w)) in *.
  assert (Hm : 0 < m <= length cns).
  { destruct (inv_tree _ _ Hinv) as [(r & Hr & _) _]. apply lookup_lt_Some in Hr. cbn in Hr. lia. }
  assert (Hwin : forall k n, k < m -> cns !! k = Some n ->
    (k = 0 /\ cn_id n = None /\ cn_version n = None)
    \/ (0 < k /\ exists i s, cn_id n = Some i /\ bt_get PackageId_cmp (selected w) i = Some s /\ cn_version n = Some s)).
  { intros k n Hk Hn. pose proof (Hhead k n Hn) as Hh. unfold head_ok in Hh. rewrite decide_True in Hh by done.
    destruct Hh as (nd & Hnd & Ei & Ev & Hne). destruct (inv_tree _ _ Hinv) as [(r & Hr & Hid & _) Htree].
    cbn in Hr, Htree. destruct (decide (k = 0)) as [->|Hk0].
    - left. simplify_eq. rewrite Hid in *. done.
    - right. split; [lia|]. destruct (Htree k nd Hnd ltac:(lia)) as [_ [i Hi]]. rewrite Hi in Ei, Ev.
      destruct (node_selected k nd i Hnd Hi) as [s Hs]. exists i, s. simpl in Ev. by rewrite Hs in Ev. }
  assert (Hlose : forall k n, m <= k -> cns !! k = Some n ->
    exists i v s, cn_id n = Some i /\ cn_version n = Some v /\ bt_get PackageId_cmp (selected w) i = Some s
      /\ NuGetVersion_cmp v s = Lt
      /\ exists k' n' i', k' < m /\ cns !! k' = Some n' /\ cn_id n' = Some i' /\ PackageId_cmp i' i = Eq).
  { intros k n Hk Hn. pose proof (Hhead k n Hn) as Hh. unfold head_ok in Hh. rewrite decide_False in Hh by (unfold m in *; lia).
    destruct Hh as (l & Hl & Ei & Ev). destruct (loser_below l) as (s & Hs & Hlt & k' & nd & i' & Hnd & Hi' & E).
    { by eapply list_elem_of_lookup_2. }
    exists (id (loser_identity l)), (version (loser_identity l)), s. split_and!; [done..|].
    assert (Hk' : k' < m) by (by eapply lookup_lt_Some).
    assert (exists n', cns !! k' = Some n') as [n' Hn'] by (apply lookup_lt_is_Some; lia).
    exists k', n', i'. split_and!; [done..| |done]. pose proof (Hhead k' n' Hn') as Hh. unfold head_ok in Hh.
    rewrite decide_True in Hh by done. destruct Hh as (nd' & Hnd' & -> & _). by simplify_eq. }
  apply wp_bind. eapply wp_mono.
  { apply (wp_rounds cns (par_of w) Ht m (selected w) Hm Hwin Hlose (fun k p H => proj2 (par_of_lt direct w cur Hinv k p H))).
    - split; [apply length_replicate|]. intros k d [-> _]%lookup_replicate. done.
    - right. unfold CONFLICT_PASS_ROUNDS. lia. }
  intros c1 disp (-> & Hg & H0). destruct (fold_left _ _ _) as [|u us] eqn:Eu; [|done]. cbn [is_empty negb].
  apply undecided_empty in Eu as [_ Hund]. eapply wp_mono.
  { apply (wp_iterM_pure _ (fun _ => True)). intros [i d] Hid.
    assert (Hd : disp !! i = Some d).
    { apply list_elem_of_lookup in Hid as [x Hx]. unfold enumerate in Hx.
      apply lookup_zip_with_Some in Hx as (a & b & [= <- <-] & Ha & Hb). by apply lookup_seq in Ha as [-> _]. }
    assert (exists n, cns !! i = Some n) as [n Hn].
    { apply lookup_lt_is_Some. rewrite <- (proj1 Hg). by eapply lookup_lt_Some. }
    assert (Hna : forall j, cn_id n = Some j -> d <> DAcceptable).
    { intros j Hj ->. eapply Hund; [|exact Hj]. apply list_elem_of_lookup. exists i.
      apply lookup_zip_with_Some. by exists n, DAcceptable. }
    destruct (proj2 Hg i d Hd) as [G1 G2]. rewrite bool_decide_eq_true_2; [by apply wp_ret|].
    fold m. destruct (Nat.ltb_spec i m) as [Hlt|Hge].
    - destruct (Hwin i n Hlt Hn) as [(-> & _)|(_ & j & s & Hj & _)]; [congruence|].
      specialize (G1 Hlt). specialize (Hna j Hj). by destruct d.
    - destruct (Hlose i n Hge Hn) as (j & v & s & Hj & _). specialize (G2 Hge). specialize (Hna j Hj). by destruct d. }
  intros c1 [] [-> _]. done.
Qed.

(** ** Downgrade adjudication *)

(** [downgrade_step] on edges whose lower bound is known to exist. *)
Definition step_pure (d : PotentialDowngrade) (held_to : option NuGetVersion) (e : edge) : option NuGetVersion :=
  if negb (PackageId_eqb (fst e) (downgrade_id d)) then held_to
  else if is_at_least (snd e) (downgrade_range d) then None
  else match lower_bound_of (snd e) with
       | Some v => if satisfies (downgrade_range d) v then held_to else Some v
       | None => held_to
       end.

Lemma wp_downgrade_fold d sv h c : (forall j r, (j, r) ∈ sv -> is_Some (lower_bound_of r)) ->
  wp (foldM (downgrade_step (XmlError:=XmlError) d) sv h) c (fun c' h' => c' = c /\ h' = fold_left (step_pure d) sv h).
Proof.
  revert h. induction sv as [|[j r] sv IH]; intros h Hsv; simpl; [by apply wp_ret|]. apply wp_bind.
  assert (Hstep : wp (downgrade_step (XmlError:=XmlError) d h (j, r)) c (fun c' h' => c' = c /\ h' = step_pure d h (j, r))).
  { unfold downgrade_step, step_pure. cbn [fst snd]. destruct (negb _); [by apply wp_ret|].
    destruct (is_at_least _ _); [by apply wp_ret|].
    destruct (Hsv j r) as [v Hv]; [set_solver|]. apply wp_bind. eapply wp_mono; [by apply wp_lower_bound_expect|].
    intros c' v' [-> ->]. rewrite Hv. apply wp_ret. by destruct (satisfies _ _). }
  eapply wp_mono; [exact Hstep|]. intros c1 h1 [-> ->]. apply IH. intros j0 r0 ?. apply (Hsv j0). set_solver.
Qed.

(** The verdict is the one of the root's surviving edges, on top of whatever
    the nearer ancestors said. *)
Definition not_relevant (d : PotentialDowngrade) (s : NuGetVersion) : Prop :=
  exists sv h, surviving w !! 0 = Some sv
    /\ match fold_left (step_pure d) sv h with Some v => NuGetVersion_cmp v s <> Eq | None => True end.

Lemma wp_downgrade_up d fuel k l h c : chain (nodes w) k l -> length l < fuel ->
  wp (downgrade_up fuel w d (Some k) h) c (fun c' h' => c' = c
    /\ exists sv h0, surviving w !! 0 = Some sv /\ h' = fold_left (step_pure d) sv h0).
Proof.
  destruct (walked_inv _ _ _ _ Hw) as [cur Hinv]. pose proof (inv_tree _ _ Hinv) as Htree. cbn in Htree.
  pose proof (inv_surviving _ _ Hinv) as Hsl. cbn in Hsl.
  intros Hl. revert fuel h. induction Hl as [k n Hk Hp|k n p l Hk Hp Hl IH]; intros fuel h Hf;
    (destruct fuel as [|fuel]; [lia|]); cbn [downgrade_up];
    (assert (exists sv, surviving w !! k = Some sv) as [sv Hsv]
       by (apply lookup_lt_is_Some; rewrite Hsl; by eapply lookup_lt_Some));
    (assert (Hpk : parents w !! k = Some (node_parent n))
       by (rewrite (walked_parents _ _ _ _ Hw), list_lookup_fmap, Hk; done));
    apply wp_bind; (eapply wp_index; [done|]); apply wp_bind;
    (eapply wp_mono; [apply wp_downgrade_fold; intros j r Hin; by eapply (inv_surviving_lower _ _ Hinv)|]);
    intros c1 h1 [-> ->]; apply wp_bind; (eapply wp_index; [done|]); rewrite Hp.
  - assert (k = 0) as ->.
    { destruct (decide (k = 0)); [done|]. destruct (proj2 Htree k n Hk ltac:(lia)) as [(p & ? & _) _]. congruence. }
    destruct fuel; apply wp_ret; split; [done|by exists sv, h|done|by exists sv, h].
  - apply IH. simpl in Hf. lia.
Qed.

Lemma wp_check_downgrade d c : d ∈ downgrades w ->
  wp (check_downgrade w d) c (fun c' _ => c' = c
    /\ forall s, bt_get PackageId_cmp (selected w) (downgrade_id d) = Some s -> not_relevant d s).
Proof.
  intros Hd. destruct (walked_inv _ _ _ _ Hw) as [cur Hinv].
  pose proof (inv_downgrades _ _ Hinv) as Hds. cbn in Hds. rewrite Forall_forall in Hds.
  destruct (Hds d Hd) as [Hfl Hp]. unfold check_downgrade.
  destruct (bt_get PackageId_cmp (selected w) (downgrade_id d)) as [s|]; [|by apply wp_ret].
  apply wp_bind. unfold downgrade_is_relevant. rewrite Hfl. apply wp_bind.
  destruct (chain_exists (nodes w) (downgrade_parent d)) as (l & Hl & Hlen); [apply (inv_tree _ _ Hinv)|done|].
  eapply wp_mono; [apply (wp_downgrade_up d _ _ l); [done|rewrite (walked_parents _ _ _ _ Hw), length_map; lia]|].
  intros c1 h (-> & sv & h0 & Hsv & ->). apply wp_ret.
  destruct (match fold_left _ _ _ with Some v => _ | None => _ end) eqn:E; [done|]. apply wp_ret.
  split; [done|]. intros s' [= <-]. exists sv, h0. split; [done|]. destruct (fold_left _ _ _) as [v|]; [|done].
  intros Heq. apply (cmp_eqb_spec NuGetVersion_cmp) in Heq. unfold NuGetVersion_eqb in E. congruence.
Qed.

(** ** The envelope in which the engines agree *)

Lemma wp_check_loser l c : cache_ok c -> l ∈ losers w ->
  wp (check_loser w direct l) c (fun c' _ => cache_ok c' /\ ext c c').
Proof.
  intros Hok Hl. destruct (walked_inv _ _ _ _ Hw) as [cur Hinv].
  pose proof (inv_losers _ _ Hinv) as Hls. cbn in Hls. rewrite Forall_forall in Hls. destruct (Hls l Hl) as [Hp _].
  apply wp_bind. eapply wp_mono; [by apply wp_get_or_decline|]. intros c1 p (He & Hok1 & _).
  cbv zeta. destruct (is_empty (cached_dependencies p)); [by apply wp_ret|]. set (ns := nodes w ++ [_]).
  assert (Hns : tree ns) by (eapply tree_snoc; [apply (inv_tree _ _ Hinv)|done..]).
  assert (Hlen : length ns - 1 < length ns) by (unfold ns; rewrite length_app; simpl; lia).
  destruct (chain_exists ns (length ns - 1) Hns Hlen) as (ch & Hch & _).
  eapply wp_mono; [apply (wp_iterM _ (fun _ _ => True)); [done|done|]|].
  - intros dep c2 _ Hok2 He2. unfold loser_dependency. destruct (_ || _)%bool; [done|].
    destruct (version_range dep) as [rg|]; [|done]. apply wp_bind. eapply wp_mono; [by apply wp_classify|].
    intros c3 v (He3 & Hok3 & _). destruct v; (done || by apply wp_ret).
  - intros c2 [] (? & ? & _). split; [done|by etrans].
Qed.

Definition direct_downgrades : Prop :=
  forall d, d ∈ downgrades w -> exists r, r ∈ direct /\ PackageId_cmp (direct_id r) (downgrade_id d) = Eq.

Lemma wp_engines_agree c : cache_ok c ->
  wp (engines_agree w direct) c (fun c' _ => cache_ok c' /\ ext c c' /\ float_compared w = None /\ direct_downgrades).
Proof.
  intros Hok. unfold engines_agree. destruct (float_compared w) as [[? ?]|]; [done|].
  destruct (List.find _ _) eqn:Ef; [done|]. eapply wp_mono; [apply (wp_iterM _ (fun _ _ => True)); [done|done|]|].
  - intros l c1 Hl Hok1 _. eapply wp_mono; [by apply wp_check_loser|]. intros c2 [] [? ?]. done.
  - intros c1 [] (? & ? & _). split_and!; [done..|]. intros d Hd.
    apply list_elem_of_In in Hd. pose proof (List.find_none _ _ Ef _ Hd) as Hn.
    apply negb_false_iff, existsb_exists in Hn as (r & Hr & E). exists r.
    split; [by apply list_elem_of_In|]. by apply PackageId_eqb_spec.
Qed.

(** ** [finish] *)

(** What the returned closure is, in terms of the walk and the final cache. *)
Record finished c (packages : ResolvedPackageClosure) : Prop := {
  fin_packages : Forall2 (fun i p => exists s cached, bt_get PackageId_cmp (selected w) i = Some s
      /\ bt_get key_cmp c (package_key (PackageIdentity_new i s)) = Some (Ok cached)
      /\ p = {| resolved_identity := installed_identity (package cached);
                resolved_paths := installed_paths (package cached) |}) (bt_keys (edges w)) packages;
  fin_shapes : forall i s, i ∈ bt_keys (edges w) -> bt_get PackageId_cmp (selected w) i = Some s ->
    bt_get key_cmp (shapes w) (package_key (PackageIdentity_new i s)) = None;
  fin_float : float_compared w = None;
  fin_cycle : cycle w = None;
  fin_direct : direct_downgrades;
  fin_satisfied : forall j r s, recorded (edges w) j r -> bt_get PackageId_cmp (selected w) j = Some s ->
    satisfies r s = true;
  fin_downgrades : forall d s, d ∈ downgrades w -> bt_get PackageId_cmp (selected w) (downgrade_id d) = Some s ->
    not_relevant d s }.

Lemma key_selected i : i ∈ bt_keys (edges w) ->
  exists rs s, bt_get PackageId_cmp (edges w) i = Some rs /\ bt_get PackageId_cmp (selected w) i = Some s.
Proof.
  intros Hi. unfold bt_keys in Hi. apply list_elem_of_fmap in Hi as ([i' rs] & -> & Hin).
  destruct (walked_inv _ _ _ _ Hw) as [cur Hinv].
  assert (Hget : bt_get PackageId_cmp (edges w) i' = Some rs) by (apply bt_sorted_get; [apply _|apply (inv_sorted _ _ Hinv)|done]).
  destruct (edge_selected i' rs Hget) as (s & Hs & _). by exists rs, s.
Qed.

Lemma recorded_entry j r : recorded (edges w) j r ->
  exists e, e ∈ edges w /\ PackageId_cmp j (fst e) = Eq /\ r ∈ snd e.
Proof.
  intros (rs & Hrs & Hr). apply bt_get_in in Hrs as (k & E & Hin). by exists (k, rs).
Qed.

Lemma entry_recorded e r : e ∈ edges w -> r ∈ snd e -> recorded (edges w) (fst e) r.
Proof.
  intros He Hr. destruct (walked_inv _ _ _ _ Hw) as [cur Hinv]. exists (snd e). split; [|done].
  apply bt_sorted_get; [apply _|apply (inv_sorted _ _ Hinv)|by destruct e].
Qed.

Lemma key_entry e : e ∈ edges w -> fst e ∈ bt_keys (edges w).
Proof. intros He. by apply list_elem_of_fmap_2. Qed.

Lemma wp_selected_identity i c : i ∈ bt_keys (edges w) ->
  wp (selected_identity (XmlError:=XmlError) w i) c (fun c' x => c' = c
    /\ exists s, bt_get PackageId_cmp (selected w) i = Some s /\ x = PackageIdentity_new i s).
Proof.
  intros Hi. destruct (key_selected i Hi) as (rs & s & _ & Hs). apply wp_bind. eapply wp_expect; [done|].
  apply wp_ret. eauto.
Qed.

Lemma wp_check_losing_edges e c : cache_ok c -> e ∈ edges w ->
  wp (check_losing_edges w e) c (fun c' _ => cache_ok c' /\ ext c c').
Proof.
  intros Hok He. destruct (key_selected _ (key_entry e He)) as (rs & s & _ & Hs). destruct (walked_inv _ _ _ _ Hw) as [cur Hinv].
  apply wp_bind. eapply wp_expect; [done|].
  eapply wp_mono; [apply (wp_iterM _ (fun _ _ => True)); [done|done|]|].
  - intros r c1 Hr Hok1 _. destruct (inv_lower _ _ Hinv (fst e) r) as [[v Hv] _]; [by apply entry_recorded|].
    apply wp_bind. eapply wp_mono; [by apply wp_lower_bound_expect|]. intros c2 v' [-> ->].
    destruct (NuGetVersion_eqb v s); [by apply wp_ret|]. apply wp_bind.
    eapply wp_mono; [by apply wp_is_committed|]. intros c2 b [? ?]. destruct b; [by apply wp_ret|done].
  - intros c1 [] (? & ? & _). done.
Qed.

Lemma wp_check_version_conflict e c : e ∈ edges w ->
  wp (check_version_conflict w e) c (fun c' _ => c' = c
    /\ forall r s, r ∈ snd e -> bt_get PackageId_cmp (selected w) (fst e) = Some s -> satisfies r s = true).
Proof.
  intros He. destruct (key_selected _ (key_entry e He)) as (rs & s & _ & Hs).
  apply wp_bind. eapply wp_expect; [done|].
  eapply wp_mono; [apply (wp_iterM_pure _ (fun r => satisfies r s = true))|].
  - intros r _. destruct (satisfies r s) eqn:E; [by apply wp_ret|done].
  - intros c1 [] [-> Hall]. split; [done|]. intros r s' Hr Hs'. simplify_eq. auto.
Qed.

Lemma wp_finish c : cache_ok c -> ext c0 c ->
  wp (finish w direct) c (fun c' packages => cache_ok c' /\ ext c0 c' /\ finished c' packages).
Proof.
  intros Hok He0. apply wp_bind.
  eapply wp_mono; [apply (wp_mapMM _ (fun c1 i p => exists s cached, bt_get PackageId_cmp (selected w) i = Some s
      /\ bt_get key_cmp c1 (package_key (PackageIdentity_new i s)) = Some (Ok cached)
      /\ p = {| resolved_identity := installed_identity (package cached);
                resolved_paths := installed_paths (package cached) |})); [|done|]|].
  { intros i p c1 c2 He (s & cached & Hs & Hc & ->). exists s, cached. split_and!; [done|by apply He|done]. }
  { intros i c1 Hi Hok1 _. apply wp_bind. eapply wp_mono; [by apply wp_selected_identity|].
    intros c2 x (-> & s & Hs & ->). apply wp_bind. eapply wp_mono; [by apply wp_get_or_decline|].
    intros c2 p (He & Hok2 & Hp). apply wp_ret. split_and!; [done..|]. by exists s, p. }
  intros c1 packages (Hok1 & He1 & Hps). apply wp_bind.
  eapply wp_mono; [apply (wp_iterM_pure _ (fun i => forall s, bt_get PackageId_cmp (selected w) i = Some s ->
    bt_get key_cmp (shapes w) (package_key (PackageIdentity_new i s)) = None))|].
  { intros i Hi. apply wp_bind. eapply wp_mono; [by apply wp_selected_identity|].
    intros c2 x (-> & s & Hs & ->). destruct (bt_get key_cmp (shapes w) _) as [[]|] eqn:E; [done|done|].
    apply wp_ret. split; [done|]. intros s' Hs'. by simplify_eq. }
  intros c2 [] [-> Hshapes]. apply wp_bind.
  eapply wp_mono; [apply (wp_iterM _ (fun _ _ => True)); [done|done|]|].
  { intros e c2 Hin Hok2 _. eapply wp_mono; [by apply wp_check_losing_edges|]. intros c3 [] [? ?]. done. }
  intros c2 [] (Hok2 & He2 & _). apply wp_bind. eapply wp_mono; [by apply wp_engines_agree|].
  intros c3 [] (Hok3 & He3 & Hfloat & Hdirect). destruct (cycle w) eqn:Ecy; [done|].
  apply wp_bind. eapply wp_mono; [by apply wp_settle_conflicts|]. intros c4 [] ->. apply wp_bind.
  eapply wp_mono; [apply (wp_iterM_pure _ (fun e => forall r s, r ∈ snd e ->
    bt_get PackageId_cmp (selected w) (fst e) = Some s -> satisfies r s = true))|].
  { intros e He. by apply wp_check_version_conflict. }
  intros c4 [] [-> Hsat]. apply wp_bind.
  eapply wp_mono; [apply (wp_iterM_pure _ (fun d => forall s,
    bt_get PackageId_cmp (selected w) (downgrade_id d) = Some s -> not_relevant d s))|].
  { intros d Hd. by apply wp_check_downgrade. }
  intros c4 [] [-> Hdown]. apply wp_ret. assert (He13 : ext c1 c3) by by etrans.
  split_and!; [done|by do 2 etrans|]. split; try done.
  - eapply Forall2_impl; [exact Hps|]. intros i p (s & cached & Hs & Hc & ->).
    exists s, cached. split_and!; [done|by apply He13|done].
  - intros i s Hi Hs. by apply Hshapes.
  - intros j r s Hrec Hs. destruct (recorded_entry j r Hrec) as (e & He & E & Hr).
    rewrite (bt_get_equiv PackageId_cmp _ _ _ E) in Hs. by eapply Hsat.
  - intros d s Hd Hs. by apply Hdown.
Qed.
End settled.

(** ** Chains *)

Lemma chain_elem ns k l ch a : chain ns k l -> (ch, a) ∈ l ->
  exists n, ns !! ch = Some n /\ node_parent n = Some a.
Proof.
  induction 1 as [k n Hk Hp|k n p l Hk Hp _ IH]; intros Hin; [set_solver|].
  apply elem_of_cons in Hin as [[= -> ->]|Hin]; eauto.
Qed.

Lemma chain_lt ns k l ch a : tree ns -> chain ns k l -> (ch, a) ∈ l -> a < k.
Proof.
  intros Ht. induction 1 as [k n Hk Hp|k n p l Hk Hp _ IH]; intros Hin; [set_solver|].
  pose proof (tree_parent ns k n p Ht Hk Hp). apply elem_of_cons in Hin as [[= -> ->]|Hin]; [done|].
  specialize (IH Hin). lia.
Qed.

(** A chain ends at the root, through a child of the root that is the node
    itself or one of its ancestors. *)
Lemma chain_to_root ns k l : tree ns -> chain ns k l -> 0 < k ->
  exists ch, (ch, 0) ∈ l /\ (ch = k \/ exists x, (x, ch) ∈ l).
Proof.
  intros Ht. induction 1 as [k n Hk Hp|k n p l Hk Hp Hl IH]; intros H0.
  - destruct (proj2 Ht k n Hk H0) as [(p & ? & _) _]. congruence.
  - destruct (decide (p = 0)) as [->|Hne].
    + exists k. split; [set_solver|by left].
    + destruct IH as (ch & Hch & Hor); [lia|]. exists ch. split; [set_solver|]. right.
      destruct Hor as [->|[x Hx]]; [exists k|exists x]; set_solver.
Qed.

Lemma read_entry_identity {F XmlError} `{RE : ResolverEnv F XmlError} identity cached :
  read_entry identity = Some (Ok cached) ->
  installed_identity (package cached) = identity
  /\ is_committed (PackagePaths_new root identity) = Ok true.
Proof.
  unfold read_entry. destruct (read_installed_package _ _ _) as [p|] eqn:E; [|done].
  destruct (select_dependency_group _ _); [|done]. intros [= <-]. simpl.
  unfold read_installed_package in E. apply rbind_ok in E as (b & Hb & E). apply map_err_ok in Hb.
  destruct b; [|done]. cbn [negb] in E. apply rbind_ok in E as (path & _ & E). destruct path; [|done].
  apply rbind_ok in E as (? & _ & E). apply rbind_ok in E as (? & _ & E). apply rbind_ok in E as (? & _ & E).
  injection E as <-. done.
Qed.

(** The package in the folder of version [s]. *)
Definition in_folder (p : ResolvedPackage) (s : NuGetVersion) : Prop :=
  version_folder_name (resolved_identity p) = lower (NuGetVersion_to_normalized_string s).

Lemma key_cmp_eq i s identity :
  key_cmp (package_key (PackageIdentity_new i s)) (package_key identity) = Eq <->
  PackageId_cmp i (id identity) = Eq
  /\ lower (NuGetVersion_to_normalized_string s) = version_folder_name identity.
Proof.
  unfold key_cmp. rewrite then_cmp_eq. cbn [package_key fst snd]. by rewrite list_cmp_N_eq.
Qed.

(** Reached from the requirements through the dependencies of the closure. *)
Inductive reached {F XmlError} `{RE : ResolverEnv F XmlError} (direct : list DirectPackageRequirement)
    (packages : ResolvedPackageClosure) : ResolvedPackage -> Prop :=
| reached_direct q p : q ∈ direct -> p ∈ packages ->
    PackageId_cmp (direct_id q) (id (resolved_identity p)) = Eq -> reached direct packages p
| reached_dependency p cached d p' : reached direct packages p ->
    read_entry (resolved_identity p) = Some (Ok cached) -> d ∈ cached_dependencies cached ->
    p' ∈ packages -> PackageId_cmp (dependency_id d) (id (resolved_identity p')) = Eq ->
    reached direct packages p'.

(** What the edges on one id fold to, when they share a range. *)
Lemma fold_step d sv h r0 v : lower_bound_of r0 = Some v ->
  (forall i r, (i, r) ∈ sv -> PackageId_eqb i (downgrade_id d) = true -> r = r0) ->
  let G h := if is_at_least r0 (downgrade_range d) then None
             else if satisfies (downgrade_range d) v then h else Some v in
  fold_left (step_pure d) sv h =
    if existsb (fun e => PackageId_eqb (fst e) (downgrade_id d)) sv then G h else h.
Proof.
  intros Hv Hall G. assert (HG : forall h, G (G h) = G h)
    by (intros h'; unfold G; destruct (is_at_least r0 (downgrade_range d)); [done|];
        destruct (satisfies (downgrade_range d) v); done).
  revert h. induction sv as [|[i r] sv IH]; intros h; simpl; [done|].
  rewrite IH by (intros i' r' ? ?; eapply (Hall i'); [set_solver|done]).
  unfold step_pure at 1. cbn [fst snd]. unfold step_pure. cbn [fst snd].
  destruct (PackageId_eqb i (downgrade_id d)) eqn:Ei; cbn [negb orb]; [|done].
  rewrite (Hall i r) by (set_solver || done). rewrite Hv.
  match goal with |- context [existsb ?f sv] => destruct (existsb f sv) end; [apply (HG h)|done].
Qed.

Section sound.
Context {F XmlError : Type} `{RE : ResolverEnv F XmlError}.
Notation cache := (PackageCache F XmlError).
Implicit Types (c : cache).
Context (direct : list DirectPackageRequirement) (sel : versions) (c0 c : cache) (w : Walk).
Context (packages : ResolvedPackageClosure).
Hypothesis Hw : walked direct sel c0 w.
Hypothesis Hsettled : bt_eqb PackageId_cmp NuGetVersion_eqb (selected w) sel = true.
Hypothesis Hext : ext c0 c.
Hypothesis Hok : cache_ok c.
Hypothesis Hfin : finished direct w c packages.

Lemma package_of_key i : i ∈ bt_keys (edges w) ->
  exists p s cached, p ∈ packages /\ bt_get PackageId_cmp (selected w) i = Some s
    /\ bt_get key_cmp c (package_key (PackageIdentity_new i s)) = Some (Ok cached)
    /\ read_entry (resolved_identity p) = Some (Ok cached)
    /\ PackageId_cmp i (id (resolved_identity p)) = Eq /\ in_folder p s.
Proof.
  intros Hi. apply list_elem_of_lookup in Hi as [x Hx].
  destruct (Forall2_lookup_l _ _ _ _ _ (fin_packages _ _ _ _ Hfin) Hx) as (p & Hp & s & cached & Hs & Hc & Ep).
  exists p, s, cached. destruct (Hok _ _ Hc) as (identity & E & Hr).
  apply key_cmp_eq in E as [E1 E2]. destruct (read_entry_identity _ _ Hr) as [Hid _].
  split_and!; [by eapply list_elem_of_lookup_2|done|done|..]; unfold in_folder; rewrite Ep; simpl; rewrite Hid; done.
Qed.

(** The package of a recorded edge. *)
Lemma package_of_edge j rs : bt_get PackageId_cmp (edges w) j = Some rs ->
  exists p s, p ∈ packages /\ bt_get PackageId_cmp (selected w) j = Some s
    /\ PackageId_cmp j (id (resolved_identity p)) = Eq /\ in_folder p s.
Proof.
  intros Hj. apply bt_get_in in Hj as (i & E & Hin).
  destruct (package_of_key i) as (p & s & _ & Hp & Hs & _ & _ & Eid & Hf).
  { change i with (fst (i, rs)). by apply list_elem_of_fmap_2. }
  exists p, s. rewrite (bt_get_equiv PackageId_cmp _ _ _ E), (cmp_eq_l PackageId_cmp _ _ _ E). done.
Qed.

Lemma node_processed k n : nodes w !! k = Some n -> node_done direct sel c0 (final_state w sel) k n.
Proof.
  intros Hk. destruct (hist_nodes _ _ _ _ _ (settled_hist _ _ _ _ Hw Hsettled) k n Hk) as [Hin|[?|?]]; [|done..].
  cbn in Hin. set_solver.
Qed.

(** Every direct requirement survived, at the root. *)
Lemma direct_recorded q : q ∈ direct -> recorded (edges w) (direct_id q) (direct_range q)
  /\ exists sv, surviving w !! 0 = Some sv /\ (direct_id q, direct_range q) ∈ sv.
Proof.
  intros Hq. destruct (walked_inv _ _ _ _ Hw) as [cur Hinv].
  destruct (inv_tree _ _ Hinv) as [(r & Hr & Hid & Hp) _]. cbn in Hr.
  destruct (node_processed 0 r Hr) as (_ & Hes & _). rewrite Forall_forall in Hes.
  assert (Hin : (direct_id q, direct_range q) ∈ src_edges direct sel c0 r).
  { unfold src_edges. rewrite Hid. unfold direct_edges. by apply (list_elem_of_fmap_2 (fun r => (direct_id r, direct_range r))). }
  assert (Hnil : forall l, chain (nodes w) 0 l -> l = []) by (inversion 1; by simplify_eq).
  destruct (Hes _ Hin) as [?|[(l & Hl & He)|[(d & l & _ & _ & _ & _ & Hl & He)|[Hc|Hf]]]]; [done|..].
  - rewrite (Hnil l Hl) in He. by apply Exists_nil in He.
  - rewrite (Hnil l Hl) in He. by apply Exists_nil in He.
  - cbn in Hc. by rewrite (fin_cycle _ _ _ _ Hfin) in Hc.
  - cbn in Hf. by rewrite (fin_float _ _ _ _ Hfin) in Hf.
Qed.

(** Versions that compare equal name the same folder. *)
Hypothesis Hsame : forall j s s', bt_get PackageId_cmp (selected w) j = Some s ->
  bt_get PackageId_cmp sel j = Some s' ->
  lower (NuGetVersion_to_normalized_string s) = lower (NuGetVersion_to_normalized_string s').

Lemma shape_fine n k : (exists x, nodes w !! x = Some n) -> ~ bad_shape sel c0 n k.
Proof.
  intros [x Hx] Hb. destruct (node_processed x n Hx) as (_ & _ & Hs). specialize (Hs k Hb).
  destruct Hb as (i & v & p & e & Hi & Hv & -> & _). cbn in Hs.
  destruct (node_selected _ _ _ _ Hw x n i Hx Hi) as [s Hsel].
  destruct (bt_get PackageId_cmp (edges w) i) as [rs|] eqn:Ei;
    [|rewrite (walked_none _ _ _ _ Hw i Ei) in Hsel; done].
  apply bt_get_in in Ei as (i0 & E & Hin).
  assert (Hs0 : bt_get PackageId_cmp (selected w) i0 = Some s) by (by rewrite <- (bt_get_equiv PackageId_cmp _ _ _ E)).
  pose proof (fin_shapes _ _ _ _ Hfin i0 s ltac:(change i0 with (fst (i0, rs)); by apply list_elem_of_fmap_2) Hs0) as Hnone.
  rewrite (bt_get_equiv key_cmp _ _ (package_key (PackageIdentity_new i0 s))) in Hs; [rewrite Hnone in Hs; by destruct Hs|].
  apply key_cmp_eq. split; [exact E|exact (eq_sym (Hsame i s v Hsel Hv))].
Qed.

Lemma anc_is_src x n : nodes w !! x = Some n -> anc_edges direct sel c0 n = src_edges direct sel c0 n.
Proof. intros Hx. apply anc_src_edges. intros k. apply shape_fine. eauto. Qed.

(** Every edge of every node is on a package of the closure. *)
Lemma edge_closed k n j r : nodes w !! k = Some n -> (j, r) ∈ src_edges direct sel c0 n ->
  exists rs, bt_get PackageId_cmp (edges w) j = Some rs.
Proof.
  revert n j r. induction (lt_wf k) as [k _ IH]. intros n j r Hk Hin.
  destruct (walked_inv _ _ _ _ Hw) as [cur Hinv]. pose proof (inv_tree _ _ Hinv) as Ht. cbn in Ht.
  assert (Hhit : forall b l, chain (nodes w) k l -> Exists (hit direct sel j r b (nodes w) c0) l ->
    exists rs, bt_get PackageId_cmp (edges w) j = Some rs).
  { intros b l Hl He. apply Exists_exists in He as ([ch a] & Hca & na & m & d & i & r' & Hna & _ & _ & Hd & _ & Eij & _).
    cbn [snd] in Hna. rewrite (anc_is_src a na Hna) in Hd.
    destruct (IH a ltac:(by eapply chain_lt) na i r' Hna) as [rs Hrs]; [by eapply list_elem_of_lookup_2|].
    exists rs. apply PackageId_eqb_spec in Eij. by rewrite <- (bt_get_equiv PackageId_cmp _ _ _ Eij). }
  destruct (node_processed k n Hk) as (_ & Hes & _). rewrite Forall_forall in Hes.
  destruct (Hes _ Hin) as [((rs & ? & _) & _)|[(l & Hl & He)|[(d & l & _ & _ & _ & _ & Hl & He)|[Hc|Hf]]]]; eauto.
  - cbn in Hc. by rewrite (fin_cycle _ _ _ _ Hfin) in Hc.
  - cbn in Hf. by rewrite (fin_float _ _ _ _ Hfin) in Hf.
Qed.

(** The node of a package of the closure contributes exactly its dependencies. *)
Lemma package_node i s cached : i ∈ bt_keys (edges w) -> bt_get PackageId_cmp (selected w) i = Some s ->
  bt_get key_cmp c (package_key (PackageIdentity_new i s)) = Some (Ok cached) ->
  exists k n es, nodes w !! k = Some n /\ src_edges direct sel c0 n = es
    /\ es = map (fun d => (dependency_id d, default all_versions_range (version_range d))) (cached_dependencies cached)
    /\ dependency_edges (cached_dependencies cached) = Ok es.
Proof.
  intros Hi Hs Hc. destruct (key_selected _ _ _ _ Hw i Hi) as (rs & s0 & Hrs & _).
  destruct (winner_node _ _ _ _ Hw Hsettled i rs Hrs) as (k & n & i' & Hk & Hn & E).
  destruct (selected_sel sel w Hsettled i s Hs) as (s' & Hs' & _).
  assert (Hs'' : bt_get PackageId_cmp sel i' = Some s') by (by rewrite (bt_get_equiv PackageId_cmp _ _ _ E)).
  destruct (node_processed k n Hk) as (Hkn & _ & _). destruct (Hkn i' s' Hn Hs'') as [e He].
  assert (Hkey : key_cmp (package_key (PackageIdentity_new i' s')) (package_key (PackageIdentity_new i s)) = Eq).
  { apply key_cmp_eq. split; [exact E|exact (eq_sym (Hsame i s s' Hs Hs'))]. }
  pose proof (Hext _ _ He) as He'. rewrite (bt_get_equiv key_cmp _ _ _ Hkey) in He'. rewrite He' in Hc. injection Hc as ->.
  destruct (dependency_edges (cached_dependencies cached)) as [es|err] eqn:Ed.
  - exists k, n, es. split_and!; [done| |by rewrite (dependency_edges_all _ _ Ed)|done].
    unfold src_edges. by rewrite Hn, Hs'', He, Ed.
  - exfalso. apply (shape_fine n (package_key (PackageIdentity_new i' s'))); [by exists k|]. by exists i', s', cached, err.
Qed.

(** ** Reachability *)

Definition pkg_for (i : PackageId) (p : ResolvedPackage) (cached : CachedPackage F) : Prop :=
  exists i0 s, i0 ∈ bt_keys (edges w) /\ PackageId_cmp i i0 = Eq /\ bt_get PackageId_cmp (selected w) i0 = Some s
    /\ bt_get key_cmp c (package_key (PackageIdentity_new i0 s)) = Some (Ok cached)
    /\ p ∈ packages /\ read_entry (resolved_identity p) = Some (Ok cached)
    /\ PackageId_cmp i0 (id (resolved_identity p)) = Eq /\ in_folder p s.

Lemma pkg_for_edge i rs : bt_get PackageId_cmp (edges w) i = Some rs -> exists p cached, pkg_for i p cached.
Proof.
  intros (i0 & E & Hin)%bt_get_in.
  assert (Hi0 : i0 ∈ bt_keys (edges w)) by (change i0 with (fst (i0, rs)); by apply list_elem_of_fmap_2).
  destruct (package_of_key i0 Hi0) as (p & s & cached & ? & ? & ? & ? & ? & ?).
  exists p, cached, i0, s. done.
Qed.

Lemma pkg_for_src k n i p cached j r : nodes w !! k = Some n -> node_id n = Some i -> pkg_for i p cached ->
  (j, r) ∈ src_edges direct sel c0 n ->
  exists d, d ∈ cached_dependencies cached /\ dependency_id d = j /\ version_range d = Some r.
Proof.
  intros Hk Hn (i0 & s & Hi0 & E & Hs & Hc & _) Hin.
  destruct (selected_sel sel w Hsettled i0 s Hs) as (s' & Hs' & _).
  assert (Hs'' : bt_get PackageId_cmp sel i = Some s') by (by rewrite (bt_get_equiv PackageId_cmp _ _ _ E)).
  assert (Hkey : key_cmp (package_key (PackageIdentity_new i s')) (package_key (PackageIdentity_new i0 s)) = Eq).
  { apply key_cmp_eq. split; [exact E|exact (eq_sym (Hsame i0 s s' Hs Hs'))]. }
  unfold src_edges in Hin. rewrite Hn, Hs'' in Hin.
  destruct (bt_get key_cmp c0 _) as [[p0|]|] eqn:Ec; [|set_solver..].
  pose proof (Hext _ _ Ec) as Ec'. rewrite (bt_get_equiv key_cmp _ _ _ Hkey), Hc in Ec'. injection Ec' as ->.
  destruct (dependency_edges (cached_dependencies p0)) as [es|] eqn:Ed; [|set_solver].
  by eapply dependency_edges_in.
Qed.

Lemma node_reached k n i : nodes w !! k = Some n -> node_id n = Some i ->
  exists p cached, pkg_for i p cached /\ reached direct packages p.
Proof.
  revert n i. induction (lt_wf k) as [k _ IH]. intros n i Hk Hi.
  destruct (walked_inv _ _ _ _ Hw) as [cur Hinv]. pose proof (inv_tree _ _ Hinv) as Ht. cbn in Ht.
  destruct (inv_nodes _ _ Hinv k n i Hk Hi) as [_ [rs Hrs]]. cbn in Hrs.
  destruct (pkg_for_edge i rs Hrs) as (p & cached & Hp). exists p, cached. split; [done|].
  pose proof Hp as (i0 & s & _ & E0 & _ & _ & Hin & _ & E1 & _).
  assert (Eip : PackageId_cmp i (id (resolved_identity p)) = Eq) by (by rewrite (cmp_eq_l PackageId_cmp _ _ _ E0)).
  destruct (hist_parents _ _ _ _ _ (settled_hist _ _ _ _ Hw Hsettled) k n i Hk Hi) as (par & r & Hpar & m & l & Hm & _ & _ & Hd & _).
  cbn in Hm. pose proof (tree_parent _ _ _ _ Ht Hk Hpar) as Hlt.
  assert (Hsrc : (i, r) ∈ src_edges direct sel c0 m) by (by eapply list_elem_of_lookup_2).
  destruct (node_id m) as [im|] eqn:Em.
  - destruct (IH par Hlt m im Hm Em) as (pm & cm & Hpm & Hreach).
    destruct (pkg_for_src par m im pm cm i r Hm Em Hpm Hsrc) as (d & Hdin & <- & _).
    destruct Hpm as (? & ? & _ & _ & _ & _ & _ & Hread & _).
    by eapply reached_dependency.
  - unfold src_edges, direct_edges in Hsrc. rewrite Em in Hsrc.
    apply list_elem_of_fmap in Hsrc as (q & [= -> ->] & Hq). by eapply reached_direct.
Qed.

Lemma package_reached p : p ∈ packages -> reached direct packages p.
Proof.
  intros Hp. pose proof Hp as Hp'. apply list_elem_of_lookup in Hp' as [x Hx].
  destruct (Forall2_lookup_r _ _ _ _ _ (fin_packages _ _ _ _ Hfin) Hx) as (i & Hi & s & cached & Hs & Hc & Ep).
  destruct (Hok _ _ Hc) as (identity & E & Hr). apply key_cmp_eq in E as [E1 _].
  destruct (read_entry_identity _ _ Hr) as [Hid _].
  assert (Eid : PackageId_cmp i (id (resolved_identity p)) = Eq) by (rewrite Ep; simpl; by rewrite Hid).
  destruct (key_selected _ _ _ _ Hw i) as (rs & _ & Hrs & _); [by eapply list_elem_of_lookup_2|].
  destruct (winner_node _ _ _ _ Hw Hsettled i rs Hrs) as (k & n & i' & Hk & Hn & Ei').
  destruct (node_reached k n i' Hk Hn) as (p2 & c2 & (i0 & s2 & _ & E2 & _ & _ & _ & _ & E3 & _) & Hreach).
  assert (Epp : PackageId_cmp (id (resolved_identity p2)) (id (resolved_identity p)) = Eq).
  { rewrite <- (cmp_eq_l PackageId_cmp _ _ _ E3), <- (cmp_eq_l PackageId_cmp _ _ _ E2), (cmp_eq_l PackageId_cmp _ _ _ Ei'). done. }
  destruct Hreach as [q p2 Hq _ Eq|p1 c1 d p2 Hreach1 Hread Hd _ Eq].
  - eapply reached_direct; [done..|]. by rewrite <- (cmp_eq_r PackageId_cmp _ _ _ Epp).
  - eapply reached_dependency; [done..|]. by rewrite <- (cmp_eq_r PackageId_cmp _ _ _ Epp).
Qed.
End sound.
