(* ===== verification/ResolverClosure.v ===== *)
(** * What [resolve_offline] returns

    The theorems about the whole resolver: it never panics and never runs out of
    the model's fuel; a closure it returns holds every direct requirement, at a
    version its range accepts, read from the folder; it is closed under the
    dependencies of its packages, holds nothing else, and no package of it is
    below what a requirement or a package of it asks for. *)

From S2P Require Import Prelude Order Version Range Package Nuspec BTree Resolver ResolverEx.
From S2P Require Import ResolverThm ResolverWalk ResolverSettle ResolverSound.

Lemma lower_bound_min r v : lower_bound_of r = Some v -> min r = Some v.
Proof.
  unfold lower_bound_of. destruct (is_floating r); [done|]. destruct (min r); [|done]. by destruct (_ && _)%bool; intros [= ->].
Qed.

Lemma satisfies_min r m v : min r = Some m -> satisfies r v = true -> NuGetVersion_cmp m v <> Gt.
Proof.
  intros Hm. rewrite satisfies_in_interval. intros [Hlo _]. specialize (Hlo m Hm).
  destruct (min_inclusive r); [done|]. by rewrite Hlo.
Qed.

Lemma is_at_least_min r r' m m' : min r = Some m -> min r' = Some m' ->
  is_at_least r' r = true -> NuGetVersion_cmp m m' <> Gt.
Proof.
  intros Hm Hm'. unfold is_at_least, version_ge. rewrite Hm, Hm'. apply (cmp_leb_spec NuGetVersion_cmp).
Qed.

(** ** No downgrade *)

(** Every dependency of a package of the closure that gives a range gives a
    lower bound. *)
Definition bounded {F XmlError} `{RE : ResolverEnv F XmlError} (packages : ResolvedPackageClosure) : Prop :=
  forall p cached d r, p ∈ packages -> read_entry (resolved_identity p) = Some (Ok cached) ->
    d ∈ cached_dependencies cached -> version_range d = Some r -> min r <> None.

Section downgrade.
Context {F XmlError : Type} `{RE : ResolverEnv F XmlError}.
Notation cache := (PackageCache F XmlError).
Implicit Types (c : cache).
Context (direct : list DirectPackageRequirement) (sel : versions) (c0 c : cache) (w : Walk).
Context (packages : ResolvedPackageClosure).
Hypothesis Hw : walked direct sel c0 w.
Hypothesis Hsettled : bt_eqb PackageId_cmp NuGetVersion_eqb (selected w) sel = true.
Hypothesis Hext : ext c0 c.
Hypothesis Hok : cache_ok c.
Hypothesis Hfin : finished direct w c packages.
Hypothesis Hdistinct : NoDup (map (fun q => folder_name (direct_id q)) direct).

Lemma direct_index x y i j r r' : direct_edges direct !! x = Some (i, r) -> direct_edges direct !! y = Some (j, r') ->
  PackageId_cmp i j = Eq -> x = y.
Proof.
  unfold direct_edges. rewrite !list_lookup_fmap. intros Hx Hy E.
  destruct (direct !! x) as [q|] eqn:Ex; [|done]. destruct (direct !! y) as [q'|] eqn:Ey; [|done].
  injection Hx as <- <-. injection Hy as <- <-.
  eapply NoDup_lookup; [exact Hdistinct|by rewrite list_lookup_fmap, Ex|].
  rewrite list_lookup_fmap, Ey. simpl. f_equal. symmetry. by apply PackageId_cmp_eq.
Qed.

Lemma direct_edge q : q ∈ direct -> exists x, direct_edges direct !! x = Some (direct_id q, direct_range q).
Proof. intros [x Hx]%list_elem_of_lookup. exists x. unfold direct_edges. by rewrite list_lookup_fmap, Hx. Qed.

(** A direct requirement eclipses every other edge on its package. *)
Lemma direct_only q r : q ∈ direct -> recorded (edges w) (direct_id q) r -> r = direct_range q.
Proof.
  intros Hq Hr. destruct (direct_edge q Hq) as [x Hx].
  pose proof (settled_hist _ _ _ _ Hw Hsettled) as Hh. destruct (walked_inv _ _ _ _ Hw) as [cur Hinv].
  pose proof (inv_tree _ _ Hinv) as Ht. cbn in Ht. destruct Ht as [(rt & Hrt & Hrid & Hrp) Ht'].
  assert (Ht : tree (nodes w)) by (split; [by exists rt|done]).
  assert (Hroot : forall d j r', src_edges direct sel c0 rt !! d = Some (j, r') -> direct_edges direct !! d = Some (j, r'))
    by (unfold src_edges; by rewrite Hrid).
  destruct (hist_recorded _ _ _ _ _ Hh _ _ Hr) as (k & d & i & (n & l & Hn & Hl & _ & Hd & Hid & Hclear) & E).
  cbn in Hn, Hl. destruct (decide (k = 0)) as [->|Hk].
  - assert (n = rt) as -> by congruence. apply Hroot in Hd. pose proof (direct_index _ _ _ _ _ _ Hd Hx E) as ->. congruence.
  - exfalso. destruct (chain_to_root (nodes w) k l Ht Hl ltac:(lia)) as (ch & Hch & Hor). rewrite Forall_forall in Hclear.
    destruct (Hclear _ Hch) as (n0 & m & Hn0 & Hm & _ & _ & Hno). cbn [fst snd final_state ws_nodes] in Hn0, Hm.
    assert (n0 = rt) as -> by congruence.
    assert (Hxm : x = node_dep_index m).
    { destruct (decide (x = node_dep_index m)) as [|Hne]; [done|].
      assert (Hxa : anc_edges direct sel c0 rt !! x = Some (direct_id q, direct_range q)) by (unfold anc_edges; by rewrite Hrid).
      specialize (Hno _ _ _ Hxa Hne). apply not_true_iff_false in Hno. destruct Hno. apply PackageId_eqb_spec.
      by apply (cmp_eq_sym PackageId_cmp). }
    assert (Hch0 : 0 < ch) by (destruct (chain_elem _ _ _ _ _ Hl Hch) as (? & ? & ?); eapply tree_parent; eauto).
    destruct (Ht' ch m Hm Hch0) as [_ [im Him]].
    destruct (hist_parents _ _ _ _ _ Hh ch m im Hm Him) as (p & rr & Hp & np & lp & Hnp & _ & _ & Hdp & _).
    destruct (chain_elem _ _ _ _ _ Hl Hch) as (m' & Hm' & Hp'). cbn in Hnp. simplify_eq.
    apply Hroot in Hdp. rewrite Hx in Hdp. injection Hdp as Eim _.
    assert (Him_i : id_is (node_id m) i = true).
    { rewrite Him. simpl. apply PackageId_eqb_spec. rewrite <- Eim. by apply (cmp_eq_sym PackageId_cmp). }
    destruct Hor as [->|[y Hy]]; [simplify_eq; congruence|].
    destruct (Hclear _ Hy) as (m2 & ? & Hm2 & _ & Hid2 & _). cbn in Hm2. simplify_eq. congruence.
Qed.

(** A direct reference that won over a higher lower bound was refused. *)
Lemma downgrade_bound d m : d ∈ downgrades w -> min (downgrade_range d) = Some m ->
  exists s, bt_get PackageId_cmp (selected w) (downgrade_id d) = Some s /\ NuGetVersion_cmp m s <> Gt.
Proof.
  intros Hd Hm. destruct (fin_direct _ _ _ _ Hfin d Hd) as (q & Hq & E).
  destruct (direct_recorded _ _ _ _ _ _ Hw Hsettled Hext Hok Hfin q Hq) as (Hrec & sv & Hsv & Hin).
  destruct Hrec as (rs & Hrs & Hr). pose proof Hrs as Hrs'. rewrite (bt_get_equiv PackageId_cmp _ _ _ E) in Hrs'.
  destruct (edge_selected _ _ _ _ Hw _ _ Hrs') as (s & Hs & (r & Hrin & Hrlb) & Hle). exists s. split; [done|].
  assert (r = direct_range q) as -> by (apply direct_only; [done|]; by exists rs).
  destruct (fin_downgrades _ _ _ _ Hfin d s Hd Hs) as (sv' & h & Hsv' & Hnot).
  rewrite Hsv in Hsv'. injection Hsv' as <-. erewrite fold_step in Hnot; [|exact Hrlb|].
  2: { intros i r Hir Ei. destruct (direct_edge q Hq) as [x Hx].
       pose proof (hist_surviving _ _ _ _ _ (settled_hist _ _ _ _ Hw Hsettled) sv Hsv i r Hir) as [y Hy]%list_elem_of_lookup.
       apply PackageId_eqb_spec in Ei.
       assert (y = x) as -> by (eapply direct_index; [exact Hy|exact Hx|]; by rewrite (cmp_eq_r PackageId_cmp _ _ _ E)).
       by injection (eq_trans (eq_sym Hx) Hy). }
  assert (Hex : existsb (fun e => PackageId_eqb (fst e) (downgrade_id d)) sv = true).
  { apply existsb_exists. exists (direct_id q, direct_range q). split; [by apply list_elem_of_In|]. by apply PackageId_eqb_spec. }
  rewrite Hex in Hnot. destruct (is_at_least (direct_range q) (downgrade_range d)) eqn:Ea.
  - eapply is_at_least_min; [exact Hm|by apply lower_bound_min|done].
  - destruct (satisfies (downgrade_range d) s) eqn:Esat; [by eapply satisfies_min|].
    by rewrite (cmp_refl NuGetVersion_cmp) in Hnot.
Qed.

Hypothesis Hsame : forall j s s', bt_get PackageId_cmp (selected w) j = Some s ->
  bt_get PackageId_cmp sel j = Some s' ->
  lower (NuGetVersion_to_normalized_string s) = lower (NuGetVersion_to_normalized_string s').
Hypothesis Hbounded : bounded packages.

(** The ranges of a node all have a lower bound: the root's because a
    requirement without one is declined, a package's because it is in the closure. *)
Lemma src_bounded k n j r : nodes w !! k = Some n -> (j, r) ∈ src_edges direct sel c0 n -> min r <> None.
Proof.
  intros Hk Hin. destruct (node_id n) as [i|] eqn:Hi.
  - destruct (node_reached _ _ _ _ _ _ Hw Hsettled Hext Hok Hfin Hsame k n i Hk Hi) as (p & cached & Hp & _).
    destruct (pkg_for_src _ _ _ _ _ _ Hw Hsettled Hext Hok Hfin Hsame k n i p cached j r Hk Hi Hp Hin) as (d & Hd & _ & Hr).
    destruct Hp as (? & ? & _ & _ & _ & _ & Hp & Hread & _). by eapply Hbounded.
  - unfold src_edges, direct_edges in Hin. rewrite Hi in Hin. apply list_elem_of_fmap in Hin as (q & [= -> ->] & Hq).
    destruct (direct_recorded _ _ _ _ _ _ Hw Hsettled Hext Hok Hfin q Hq) as [Hrec _].
    destruct (walked_inv _ _ _ _ Hw) as [cur Hinv]. destruct (inv_lower _ _ Hinv _ _ Hrec) as [[v Hv] _].
    by rewrite (lower_bound_min _ v Hv).
Qed.

Lemma edge_bound k n j r m : nodes w !! k = Some n -> (j, r) ∈ src_edges direct sel c0 n -> min r = Some m ->
  exists s, bt_get PackageId_cmp (selected w) j = Some s /\ NuGetVersion_cmp m s <> Gt.
Proof.
  revert n j r m. induction (lt_wf k) as [k _ IH]. intros n j r m Hk Hin Hm.
  destruct (walked_inv _ _ _ _ Hw) as [cur Hinv]. pose proof (inv_tree _ _ Hinv) as Ht. cbn in Ht.
  destruct (node_processed _ _ _ _ _ _ Hw Hsettled Hext Hok Hfin k n Hk) as (_ & Hes & _). rewrite Forall_forall in Hes.
  destruct (Hes _ Hin) as [(Hrec & _)|[(l & Hl & He)|[(d & l & Hd & <- & <- & _)|[Hc|Hf]]]].
  - pose proof Hrec as (rs & Hrs & Hr). destruct (edge_selected _ _ _ _ Hw j rs Hrs) as (s & Hs & _ & Hle).
    exists s. split; [done|]. destruct (inv_lower _ _ Hinv j r Hrec) as [[v Hv] _].
    pose proof (lower_bound_min r v Hv). simplify_eq. by eapply Hle.
  - apply Exists_exists in He as ([ch a] & Hca & na & mm & dd & i & r' & Hna & _ & _ & Hd & _ & Eij & _ & _ & Hal).
    cbn [snd final_state ws_nodes] in Hna, Hl. rewrite (anc_is_src _ _ _ _ _ _ Hw Hsettled Hext Hok Hfin Hsame a na Hna) in Hd.
    apply list_elem_of_lookup_2 in Hd. apply PackageId_eqb_spec in Eij.
    destruct (min r') as [m'|] eqn:Em'; [|by destruct (src_bounded a na i r')].
    destruct (IH a ltac:(by eapply chain_lt) na i r' m' Hna Hd Em') as (s & Hs & Hle).
    exists s. rewrite <- (bt_get_equiv PackageId_cmp _ _ _ Eij). split; [done|].
    eapply (cmp_le_trans NuGetVersion_cmp); [|exact Hle]. by eapply is_at_least_min.
  - by apply downgrade_bound.
  - cbn in Hc. by rewrite (fin_cycle _ _ _ _ Hfin) in Hc.
  - cbn in Hf. by rewrite (fin_float _ _ _ _ Hfin) in Hf.
Qed.
End downgrade.

(** ** The rounds *)

Section rounds.
Context {F XmlError : Type} `{RE : ResolverEnv F XmlError}.
Notation cache := (PackageCache F XmlError).
Implicit Types (c : cache).
Context (direct : list DirectPackageRequirement).

(** Every version a round starts from is a lower bound someone wrote. *)
Definition from_bounds (sel : versions) : Prop :=
  forall j s, bt_get PackageId_cmp sel j = Some s -> exists r, written direct r /\ lower_bound_of r = Some s.

Lemma walked_from_bounds sel c w : walked direct sel c w -> from_bounds (selected w).
Proof.
  intros Hw j s Hs. destruct (bt_get PackageId_cmp (edges w) j) as [rs|] eqn:Ej.
  - destruct (walked_selected _ _ _ _ Hw j rs Ej) as (s' & Hs' & (r & Hr & Hlb) & _). simplify_eq.
    exists r. split; [|done]. destruct (walked_inv _ _ _ _ Hw) as [cur Hinv].
    apply (inv_lower _ _ Hinv j r). by exists rs.
  - by rewrite (walked_none _ _ _ _ Hw j Ej) in Hs.
Qed.

(** A successful resolution: the last walk settled and passed [finish]. *)
Record resolved (sel : versions) (c0 c : cache) (w : Walk) (packages : ResolvedPackageClosure) : Prop := {
  res_bounds : from_bounds sel;
  res_walked : walked direct sel c0 w;
  res_settled : bt_eqb PackageId_cmp NuGetVersion_eqb (selected w) sel = true;
  res_ok0 : cache_ok c0;
  res_ext : ext c0 c;
  res_ok : cache_ok c;
  res_finished : finished direct w c packages }.

Lemma wp_resolve_rounds n sel c : cache_ok c -> from_bounds sel ->
  wp (resolve_rounds n direct sel) c (fun c' packages => exists sel' c0 w, resolved sel' c0 c' w packages).
Proof.
  revert sel c. induction n as [|n IH]; intros sel c Hok Hb; [done|]. cbn [resolve_rounds]. apply wp_bind.
  eapply wp_mono; [by apply wp_walk|]. intros c0 w (Hok0 & _ & Hw).
  destruct (bt_eqb _ _ _ _) eqn:Eset.
  - eapply wp_mono; [by apply (wp_finish direct sel c0 w Hw Eset)|]. intros c1 ps (Hok1 & He1 & Hfin).
    by exists sel, c0, w.
  - apply IH; [done|]. by eapply walked_from_bounds.
Qed.

Lemma resolve_offline_wp :
  match resolve_offline direct with
  | Ret c packages => exists sel c0 w, resolved sel c0 c w packages
  | Decline _ => True
  | Panic | OutOfFuel => False
  end.
Proof.
  unfold resolve_offline. destruct (negb _); [done|].
  apply (wp_resolve_rounds MAX_ROUNDS [] []); [|by intros ? ? ?]. intros k e. done.
Qed.

(** Lower bounds that compare equal name the same folder. *)
Definition uniform : Prop :=
  forall r r' v v', written direct r -> written direct r' ->
    lower_bound_of r = Some v -> lower_bound_of r' = Some v' -> NuGetVersion_cmp v v' = Eq ->
    lower (NuGetVersion_to_normalized_string v) = lower (NuGetVersion_to_normalized_string v').

Lemma uniform_same sel c0 c w ps : uniform -> resolved sel c0 c w ps ->
  forall j s s', bt_get PackageId_cmp (selected w) j = Some s -> bt_get PackageId_cmp sel j = Some s' ->
  lower (NuGetVersion_to_normalized_string s) = lower (NuGetVersion_to_normalized_string s').
Proof.
  intros Hu Hres j s s' Hs Hs'. pose proof (res_walked _ _ _ _ _ Hres) as Hw.
  destruct (walked_from_bounds _ _ _ Hw j s Hs) as (r & Hr & Hv).
  destruct (res_bounds _ _ _ _ _ Hres j s' Hs') as (r' & Hr' & Hv').
  apply (Hu r r'); [done..|]. destruct (selected_sel sel w (res_settled _ _ _ _ _ Hres) j s Hs) as (s1 & Hs1 & E).
  congruence.
Qed.

Lemma closure_sorted sel c0 c w ps : resolved sel c0 c w ps ->
  StronglySorted (fun p q => PackageId_cmp (id (resolved_identity p)) (id (resolved_identity q)) = Lt) ps.
Proof.
  intros Hres. destruct (walked_inv _ _ _ _ (res_walked _ _ _ _ _ Hres)) as [cur Hinv].
  pose proof (inv_sorted _ _ Hinv) as Hs. cbn in Hs. unfold bt_sorted in Hs.
  assert (Hf : Forall2 (fun i p => PackageId_cmp i (id (resolved_identity p)) = Eq) (bt_keys (edges w)) ps).
  { eapply Forall2_impl; [apply (fin_packages _ _ _ _ (res_finished _ _ _ _ _ Hres))|].
    intros i p (s & cached & _ & Hc & ->). destruct (res_ok _ _ _ _ _ Hres _ _ Hc) as (identity & E & Hr).
    apply key_cmp_eq in E as [E _]. by rewrite (proj1 (read_entry_identity _ _ Hr)). }
  clear - Hs Hf. induction Hf as [|i p ids ps1 Ei Hf IH]; [constructor|].
  apply StronglySorted_inv in Hs as [Hs Hall]. constructor; [auto|].
  rewrite Forall_forall in Hall. apply Forall_forall. intros q Hq. apply list_elem_of_lookup in Hq as [x Hx].
  destruct (Forall2_lookup_r _ _ _ _ _ Hf Hx) as (k & Hk & Ek).
  rewrite <- (cmp_eq_l PackageId_cmp _ _ _ Ei), <- (cmp_eq_r PackageId_cmp _ _ _ Ek).
  apply Hall. by eapply list_elem_of_lookup_2.
Qed.

(** The entry behind a package of the closure. *)
Lemma package_entry sel c0 c w ps p : resolved sel c0 c w ps -> p ∈ ps ->
  exists i s cached, i ∈ bt_keys (edges w) /\ bt_get PackageId_cmp (selected w) i = Some s
    /\ bt_get key_cmp c (package_key (PackageIdentity_new i s)) = Some (Ok cached)
    /\ read_entry (resolved_identity p) = Some (Ok cached)
    /\ PackageId_cmp i (id (resolved_identity p)) = Eq /\ in_folder p s.
Proof.
  intros Hres [x Hx]%list_elem_of_lookup.
  destruct (Forall2_lookup_r _ _ _ _ _ (fin_packages _ _ _ _ (res_finished _ _ _ _ _ Hres)) Hx)
    as (i & Hi & s & cached & Hs & Hc & Ep).
  destruct (res_ok _ _ _ _ _ Hres _ _ Hc) as (identity & E & Hr). apply key_cmp_eq in E as [E1 E2].
  destruct (read_entry_identity _ _ Hr) as [Hid _]. exists i, s, cached.
  split_and!; [by eapply list_elem_of_lookup_2|done|done|..]; unfold in_folder; rewrite Ep; simpl; rewrite Hid; done.
Qed.

(** The package of a direct requirement. *)
Lemma direct_package sel c0 c w ps : resolved sel c0 c w ps -> forall q, q ∈ direct ->
  exists p s, p ∈ ps /\ PackageId_cmp (direct_id q) (id (resolved_identity p)) = Eq
    /\ in_folder p s /\ satisfies (direct_range q) s = true.
Proof.
  intros [_ Hw Hset _ Hext Hok Hfin] q Hq.
  destruct (direct_recorded _ _ _ _ _ _ Hw Hset Hext Hok Hfin q Hq) as [Hrec _]. pose proof Hrec as (rs & Hrs & _).
  destruct (package_of_edge _ _ _ _ Hok Hfin _ rs Hrs) as (p & s & Hp & Hs & Eid & Hf).
  exists p, s. split_and!; [done..|]. by eapply (fin_satisfied _ _ _ _ Hfin).
Qed.

Lemma get_no_decline identity c d : PackageCache_get identity c <> Decline d.
Proof.
  unfold PackageCache_get, PackageCache_entry, bind. destruct (bt_get _ _ _); [done|]. by destruct (read_entry identity).
Qed.

(** ** The theorems *)

(** C2: The resolver always answers: on every list of requirements, file system,
    XML parser and framework it returns a closure or declines.  No index is out
    of range, no [expect] or [assert!] fails (among them that every surviving
    edge has a lower bound and that the conflict pass accepts exactly the
    selected nodes), and the fuel of every loop is enough. *)
Theorem resolve_offline_answers :
  (exists c packages, resolve_offline direct = Ret c packages) \/ (exists d, resolve_offline direct = Decline d).
Proof.
  pose proof resolve_offline_wp as H'. destruct (resolve_offline direct); [left|right|done..]; eauto.
Qed.

(** C4: What a returned closure holds: its packages in strictly increasing id
    order, so one per id whatever the case; each read from its committed folder;
    each at a lower bound written in a requirement or in an installed package;
    and every direct requirement has its package, in the folder of a version its
    range accepts. *)
Theorem resolve_offline_sound c packages : resolve_offline direct = Ret c packages ->
  StronglySorted (fun p q => PackageId_cmp (id (resolved_identity p)) (id (resolved_identity q)) = Lt) packages
  /\ (forall p, p ∈ packages ->
        (exists cached, read_entry (resolved_identity p) = Some (Ok cached))
        /\ is_committed (PackagePaths_new root (resolved_identity p)) = Ok true
        /\ exists r s, written direct r /\ lower_bound_of r = Some s /\ in_folder p s)
  /\ (forall q, q ∈ direct -> exists p s, p ∈ packages
        /\ PackageId_cmp (direct_id q) (id (resolved_identity p)) = Eq
        /\ in_folder p s /\ satisfies (direct_range q) s = true).
Proof.
  pose proof resolve_offline_wp as Hwp. intros E. rewrite E in Hwp. destruct Hwp as (sel & c0 & w & Hres).
  split_and!; [by eapply closure_sorted|..].
  - intros p Hp. destruct (package_entry _ _ _ _ _ _ Hres Hp) as (i & s & cached & _ & Hs & _ & Hr & _ & Hf).
    destruct (walked_from_bounds _ _ _ (res_walked _ _ _ _ _ Hres) i s Hs) as (r & ? & ?).
    split_and!; [by exists cached|by eapply read_entry_identity|by exists r, s].
  - by eapply direct_package.
Qed.

(** C1: Where lower bounds that compare equal are spelt alike ([uniform]), the
    closure is exactly the packages reachable from the requirements: every
    requirement has its package in it, every dependency of every package of it
    is in it, and every package of it is a requirement or a dependency, in some
    number of steps, of one. *)
Theorem resolve_offline_closed c packages : uniform -> resolve_offline direct = Ret c packages ->
  (forall q, q ∈ direct ->
     exists p, p ∈ packages /\ PackageId_cmp (direct_id q) (id (resolved_identity p)) = Eq)
  /\ (forall p cached d, p ∈ packages -> read_entry (resolved_identity p) = Some (Ok cached) ->
     d ∈ cached_dependencies cached ->
     exists p', p' ∈ packages /\ PackageId_cmp (dependency_id d) (id (resolved_identity p')) = Eq)
  /\ (forall p, p ∈ packages -> reached direct packages p).
Proof.
  intros Hu E. pose proof resolve_offline_wp as Hwp. rewrite E in Hwp. destruct Hwp as (sel & c0 & w & Hres).
  pose proof (uniform_same _ _ _ _ _ Hu Hres) as Hsame. pose proof Hres as [_ Hw Hset _ Hext Hok Hfin]. split_and!.
  - intros q Hq. destruct (direct_package _ _ _ _ _ Hres q Hq) as (p & _ & ? & ? & _). by exists p.
  - intros p cached d Hp Hr Hd. destruct (package_entry _ _ _ _ _ _ Hres Hp) as (i & s & cached' & Hi & Hs & Hc & Hr' & _).
    rewrite Hr in Hr'. injection Hr' as <-.
    destruct (package_node _ _ _ _ _ _ Hw Hset Hext Hok Hfin Hsame i s cached Hi Hs Hc) as (k & n & es & Hk & Hsrc & -> & _).
    destruct (edge_closed _ _ _ _ _ _ Hw Hset Hext Hok Hfin Hsame k n (dependency_id d)
      (default all_versions_range (version_range d)) Hk) as [rs Hrs].
    { rewrite Hsrc. by apply (list_elem_of_fmap_2 (fun d => (dependency_id d, default all_versions_range (version_range d)))). }
    destruct (package_of_edge _ _ _ _ Hok Hfin _ rs Hrs) as (p' & _ & ? & _ & ? & _). by exists p'.
  - intros p. by apply (package_reached _ _ _ _ _ _ Hw Hset Hext Hok Hfin Hsame).
Qed.

(** C3: No downgrade: where, in addition, the requirements name distinct
    packages and the dependencies of the closure's packages have lower bounds
    ([bounded]), each package of the closure is
    in the folder of a version that is no lower than any lower bound a package
    of the closure, or a requirement, puts on it; a graph in which the eclipse
    rules would have held one lower is declined. *)
Theorem resolve_offline_no_downgrade c packages : uniform ->
  NoDup (map (fun q => folder_name (direct_id q)) direct) -> bounded packages ->
  resolve_offline direct = Ret c packages ->
  (forall p cached d r m, p ∈ packages -> read_entry (resolved_identity p) = Some (Ok cached) ->
     d ∈ cached_dependencies cached -> version_range d = Some r -> min r = Some m ->
     exists p' s, p' ∈ packages /\ PackageId_cmp (dependency_id d) (id (resolved_identity p')) = Eq
       /\ in_folder p' s /\ NuGetVersion_cmp m s <> Gt)
  /\ (forall q m, q ∈ direct -> min (direct_range q) = Some m ->
        exists p' s, p' ∈ packages /\ PackageId_cmp (direct_id q) (id (resolved_identity p')) = Eq
          /\ in_folder p' s /\ NuGetVersion_cmp m s <> Gt).
Proof.
  intros Hu Hnd Hmin E. pose proof resolve_offline_wp as Hwp. rewrite E in Hwp. destruct Hwp as (sel & c0 & w & Hres).
  pose proof (uniform_same _ _ _ _ _ Hu Hres) as Hsame. pose proof Hres as [_ Hw Hset Hok0 Hext Hok Hfin].
  assert (Hedge : forall k n j r m, nodes w !! k = Some n -> (j, r) ∈ src_edges direct sel c0 n -> min r = Some m ->
    exists p' s, p' ∈ packages /\ PackageId_cmp j (id (resolved_identity p')) = Eq
      /\ in_folder p' s /\ NuGetVersion_cmp m s <> Gt).
  { intros k n j r m Hk Hin Hm.
    destruct (edge_bound _ _ _ _ _ _ Hw Hset Hext Hok Hfin Hnd Hsame Hmin k n j r m Hk Hin Hm) as (s & Hs & Hle).
    destruct (edge_closed _ _ _ _ _ _ Hw Hset Hext Hok Hfin Hsame k n j r Hk Hin) as [rs Hrs].
    destruct (package_of_edge _ _ _ _ Hok Hfin j rs Hrs) as (p' & s' & ? & Hs' & ? & ?). simplify_eq. by exists p', s. }
  split.
  - intros p cached d r m Hp Hr Hd Hrange Hm.
    destruct (package_entry _ _ _ _ _ _ Hres Hp) as (i & s & cached' & Hi & Hs & Hc & Hr' & _).
    rewrite Hr in Hr'. injection Hr' as <-.
    destruct (package_node _ _ _ _ _ _ Hw Hset Hext Hok Hfin Hsame i s cached Hi Hs Hc) as (k & n & es & Hk & Hsrc & -> & _).
    apply (Hedge k n _ r); [done| |done]. rewrite Hsrc.
    apply list_elem_of_fmap. exists d. by rewrite Hrange.
  - intros q m Hq Hm. destruct (walked_inv _ _ _ _ Hw) as [cur Hinv].
    destruct (inv_tree _ _ Hinv) as [(rt & Hrt & Hid & _) _]. cbn in Hrt.
    apply (Hedge 0 rt _ (direct_range q)); [done| |done]. unfold src_edges. rewrite Hid.
    by apply (list_elem_of_fmap_2 (fun r => (direct_id r, direct_range r))).
Qed.

(** [PackageCache::is_committed] answers what the commit marker says: a
    package that reads, in this spelling of its identity or another, is
    committed, and for any other the marker is looked up.  The cache is extended
    with what reading gives. *)
Theorem is_committed_is_marker identity c : cache_ok c ->
  match PackageCache_is_committed identity c with
  | Ret c' b => is_committed (PackagePaths_new root identity) = Ok b /\ cache_ok c' /\ ext c c'
  | Decline _ => exists e, is_committed (PackagePaths_new root identity) = Err e
  | Panic | OutOfFuel => False
  end.
Proof.
  intros Hok. unfold PackageCache_is_committed, bind.
  pose proof (wp_get identity c Hok) as Hget. unfold wp in Hget.
  destruct (PackageCache_get identity c) as [c' r|d| |] eqn:Eg; [|by apply get_no_decline in Eg|done..].
  destruct Hget as (He & Hok' & e & Hk & ->). destruct e as [p|err]; simpl.
  - split; [|done]. destruct (Hok' _ _ Hk) as (identity' & E & Hr).
    destruct (read_entry_identity _ _ Hr) as [_ Hc]. rewrite <- Hc. f_equal.
    destruct identity as [i v]. apply key_cmp_eq in E as [Ei Ev]. apply PackageId_cmp_eq in Ei.
    unfold PackagePaths_new, cache_relative_path, version_folder_name in *. cbn [id version] in *. by rewrite Ei, Ev.
  - destruct (is_committed _) as [b|e]; simpl; [done|by exists e].
Qed.
End rounds.

(** ** The theorems on a folder *)

Lemma read_entry_source {F XmlError} `{RE : ResolverEnv F XmlError} identity cached :
  read_entry identity = Some (Ok cached) ->
  exists text node nuspec g, parse_xml text = Ok node /\ project_nuspec (XmlError:=XmlError) node = Ok nuspec
    /\ select_dependency_group nuspec framework = Some g
    /\ cached_dependencies cached = match g with Some g => dependencies g | None => [] end.
Proof.
  unfold read_entry. destruct (read_installed_package _ _ _) as [p|] eqn:E; [|done].
  destruct (select_dependency_group _ _) as [g|] eqn:Eg; [|done]. intros [= <-]. simpl.
  unfold read_installed_package in E. apply rbind_ok in E as (b & Hb & E).
  destruct b; [|done]. cbn [negb] in E. apply rbind_ok in E as (path & _ & E). destruct path; [|done].
  apply rbind_ok in E as (? & _ & E). apply rbind_ok in E as (text & _ & E). apply rbind_ok in E as (nuspec & Hn & E).
  injection E as <-. apply map_err_ok in Hn. unfold parse_nuspec in Hn. apply rbind_ok in Hn as (node & Hx & Hn).
  apply map_err_ok in Hx. by exists (strip_prefix_or 65279 text), node, nuspec, g.
Qed.

(** When [uniform] holds: the requirements' ranges come from the parser, as the
    ranges of nuspecs do, and no release label of a lower bound starts with a
    hyphen ([1.0.0--1] and [1.0.0--01] compare equal). *)
Lemma written_wf {F XmlError} `{RE : ResolverEnv F XmlError} direct r :
  Forall (fun q => range_wf (direct_range q) = true) direct -> written direct r -> range_wf r = true.
Proof.
  intros Hd [(q & Hq & <-)|(i & v & j & identity & cached & d & _ & Hr & Hin & _ & Hv)].
  - rewrite Forall_forall in Hd. auto.
  - apply read_entry_source in Hr as (text & node & nuspec & g & _ & Hn & Hg & Ec). rewrite Ec in Hin.
    destruct g as [g|]; [|set_solver]. unfold select_dependency_group in Hg.
    destruct (select_dependency_group_index nuspec framework) as [x|]; [|done].
    destruct (dependency_groups nuspec !! x) as [g'|] eqn:Hx; [|done]. injection Hg as ->.
    destruct (project_nuspec_wf _ _ Hn g d) as [_ (r' & Hr' & ?)]; [by eapply list_elem_of_lookup_2|done|].
    by simplify_eq.
Qed.

Lemma unsigned_uniform {F XmlError} `{RE : ResolverEnv F XmlError} direct :
  Forall (fun q => range_wf (direct_range q) = true) direct ->
  (forall r v, written direct r -> lower_bound_of r = Some v -> forallb unsigned_label (release_labels v) = true) ->
  uniform direct.
Proof.
  intros Hd Hu r r' v v' Hr Hr' Hv Hv' E.
  assert (Hwf : forall r v, written direct r -> lower_bound_of r = Some v -> version_wf v = true).
  { intros r0 v0 H1%written_wf H2%lower_bound_min; [|done]. apply range_wf_facts in H1 as [H1 _]. by rewrite H2 in H1. }
  apply unsigned_cmp_eq; eauto.
Qed.

(** The ranges written in the diamond. *)
Definition range_at (s : str) : VersionRange := expect all_versions_range (VersionRange_parse s).

Definition spec_ranges (p : pkg) : option (list (option VersionRange)) :=
  match project_nuspec (XmlError:=unit) (nuspec_of p) with
  | Ok nuspec =>
      match select_dependency_group nuspec tt with
      | Some (Some g) => Some (map version_range (dependencies g))
      | Some None => Some []
      | None => None
      end
  | Err _ => None
  end.

Lemma diamond_written r : written (RE:=folder_env diamond) diamond_direct r ->
  r = range_at (#"1.0.0") \/ r = range_at (#"2.0.0").
Proof.
  intros [(q & Hq & <-)|(i & v & j & identity & cached & d & _ & Hr & Hd & _ & Hv)].
  - apply elem_of_cons in Hq as [->|[->|[]%not_elem_of_nil]%elem_of_cons]; by left.
  - apply read_entry_source in Hr as (text & node & nuspec & g & Hx & Hn & Hg & Ec). rewrite Ec in Hd.
    cbn in Hx. destruct text as [|x [|? ?]]; [done| |done].
    assert (exists p, p ∈ diamond /\ node = nuspec_of p) as (p & Hp & ->).
    { destruct (diamond !! N.to_nat (x - 48)) as [p|] eqn:Hp; [|done]. injection Hx as <-. exists p. split; [|done]. by eapply list_elem_of_lookup_2. }
    assert (Hs : exists rs, spec_ranges p = Some rs /\ Some r ∈ rs).
    { unfold spec_ranges. rewrite Hn. cbn in Hg. rewrite Hg. destruct g as [g|]; [|set_solver].
      eexists. split; [done|]. rewrite <- Hv. by apply list_elem_of_fmap_2. }
    destruct Hs as (rs & Hrs & Hin). unfold diamond in Hp.
    repeat (apply elem_of_cons in Hp as [->|Hp]; [vm_compute in Hrs; injection Hrs as <-;
      repeat (apply elem_of_cons in Hin as [[= ->]|Hin]; [(left; reflexivity) || (right; reflexivity)|]); set_solver|]).
    set_solver.
Qed.

Lemma diamond_uniform : uniform (RE:=folder_env diamond) diamond_direct.
Proof.
  intros r r' v v' [->| ->]%diamond_written [->| ->]%diamond_written Hv Hv' E;
    vm_compute in Hv, Hv'; injection Hv as <-; injection Hv' as <-; (reflexivity || discriminate E).
Qed.

Definition diamond_result := resolve_offline (H0:=folder_env diamond) diamond_direct.
Definition diamond_cache : PackageCache unit unit := match diamond_result with Ret c _ => c | _ => [] end.
Definition diamond_packages : ResolvedPackageClosure := match diamond_result with Ret _ ps => ps | _ => [] end.

Definition default_version (o : option NuGetVersion) : NuGetVersion :=
  default (version (identity_at (#"A") (#"1.0.0"))) o.

Lemma diamond_resolved : resolve_offline (H0:=folder_env diamond) diamond_direct = Ret diamond_cache diamond_packages.
Proof. vm_compute. reflexivity. Qed.

Lemma resolve_offline_answers_witness :
  (exists c packages, diamond_result = Ret c packages) \/ (exists d, diamond_result = Decline d).
Proof. apply (resolve_offline_answers (RE:=folder_env diamond) diamond_direct). Defined.

Lemma resolve_offline_sound_witness :
  exists p s, p ∈ diamond_packages /\ PackageId_cmp (PackageId_new (#"A")) (id (resolved_identity p)) = Eq
    /\ in_folder p s /\ satisfies (range_at (#"1.0.0")) s = true.
Proof.
  apply (resolve_offline_sound (RE:=folder_env diamond) diamond_direct diamond_cache diamond_packages diamond_resolved)
    with (q := need (#"A") (#"1.0.0")). left.
Defined.

Lemma resolve_offline_closed_witness :
  Forall (reached (RE:=folder_env diamond) diamond_direct diamond_packages) diamond_packages.
Proof.
  apply Forall_forall, (resolve_offline_closed (RE:=folder_env diamond) diamond_direct diamond_cache diamond_packages
    diamond_uniform diamond_resolved).
Defined.

Lemma resolve_offline_no_downgrade_witness :
  Forall (fun q => exists p' s, p' ∈ diamond_packages /\ PackageId_cmp (direct_id q) (id (resolved_identity p')) = Eq
      /\ in_folder p' s /\ NuGetVersion_cmp (default_version (min (direct_range q))) s <> Gt) diamond_direct.
Proof.
  apply Forall_forall. intros q Hq.
  apply (resolve_offline_no_downgrade (RE:=folder_env diamond) diamond_direct diamond_cache diamond_packages
    diamond_uniform).
  - refine (proj1 (bool_decide_eq_true _) _). vm_compute. reflexivity.
  - intros p cached d r _ Hread Hd Hr.
    destruct (diamond_written r) as [->| ->]; [|vm_compute; discriminate..].
    right. exists (id (resolved_identity p)), (version (resolved_identity p)), (dependency_id d), (resolved_identity p), cached, d.
    split_and!; [|done..]. destruct (resolved_identity p). apply (cmp_refl key_cmp).
  - exact diamond_resolved.
  - exact Hq.
  - apply elem_of_cons in Hq as [->|[->|[]%not_elem_of_nil]%elem_of_cons]; reflexivity.
Defined.

Lemma is_committed_is_marker_witness :
  is_committed (H0:=folder_fs diamond) (PackagePaths_new (#"/g") (identity_at (#"a") (#"1.0.0"))) = Ok true.
Proof.
  pose proof (is_committed_is_marker (RE:=folder_env diamond) (identity_at (#"a") (#"1.0.0")) []) as H.
  destruct (PackageCache_is_committed (H0:=folder_env diamond) (identity_at (#"a") (#"1.0.0")) []) as [c b|d| |] eqn:E;
    vm_compute in E; [|discriminate E..].
  injection E as _ <-. apply H. intros ? ? [=].
Defined.
