(* ===== verification/Ty.v ===== *)
(** * F# types ([crates/sema/src/ty.rs])

    The closed type representation [Ty] of semantic inference, the ground-ness
    test applied before a type is emitted, and the canonical rendering used to
    compare with the F# compiler.  Also the generic tools on [Ty] the unifier
    needs: an induction principle through the nested argument lists, size,
    variables and substitution. *)

From S2P Require Import Prelude.

(** [TyVid]: the index of an inference variable in the unification table. *)
Notation TyVid := nat (only parsing).

Inductive Ty :=
| Named (path : list str) (args : list Ty)
| Project (path : list str) (args : list Ty)
| Array (elem : Ty) (rank : N)
| Tuple (elems : list Ty)
| Fun (arg ret : Ty)
| Param (i : N)
| Var (v : TyVid).

Section Ty_induction.
Variable P : Ty -> Prop.
Hypothesis HNamed : forall path args, Forall P args -> P (Named path args).
Hypothesis HProject : forall path args, Forall P args -> P (Project path args).
Hypothesis HArray : forall elem rank, P elem -> P (Array elem rank).
Hypothesis HTuple : forall elems, Forall P elems -> P (Tuple elems).
Hypothesis HFun : forall arg ret, P arg -> P ret -> P (Fun arg ret).
Hypothesis HParam : forall i, P (Param i).
Hypothesis HVar : forall v, P (Var v).

Fixpoint Ty_nested_ind (ty : Ty) : P ty :=
  let go := fix go (l : list Ty) : Forall P l :=
    match l return Forall P l with
    | [] => Forall_nil_2 P
    | x :: l' => Forall_cons_2 P x l' (Ty_nested_ind x) (go l')
    end in
  match ty with
  | Named path args => HNamed path args (go args)
  | Project path args => HProject path args (go args)
  | Array elem rank => HArray elem rank (Ty_nested_ind elem)
  | Tuple elems => HTuple elems (go elems)
  | Fun arg ret => HFun arg ret (Ty_nested_ind arg) (Ty_nested_ind ret)
  | Param i => HParam i
  | Var v => HVar v
  end.
End Ty_induction.

(** [Ty::named_path], and [Ty::named] from a dotted path. *)
Definition named_path (path : list str) : Ty := Named path [].
Definition named (path : str) : Ty := named_path (split (#c".") path).

(** [Ty::is_ground]: no inference variable. *)
Fixpoint is_ground (ty : Ty) : bool :=
  match ty with
  | Named _ args | Project _ args => forallb is_ground args
  | Array elem _ => is_ground elem
  | Tuple elems => forallb is_ground elems
  | Fun arg ret => (is_ground arg && is_ground ret)%bool
  | Param _ => true
  | Var _ => false
  end.

(** [typar_name]: ['a] to ['z], then ['t26], ['t27], ... *)
Definition typar_name (i : N) : str :=
  if N.ltb i 26 then #"'" ++ [(97 + i)%N] else #"'t" ++ show_N i.

(** [render_named], [render_array], [render_tuple] and [render_fun], over the
    already rendered components. *)
Definition render_named (head : str) (args : list str) : str :=
  if is_empty args then head else head ++ #"<" ++ join (#", ") args ++ #">".

Definition parens (s : str) : str := #"(" ++ s ++ #")".

Definition render_array (elem : Ty) (rendered : str) (rank : N) : str :=
  let commas := repeat (#c",") (N.to_nat rank - 1) in
  let elem :=
    match elem with
    | Tuple _ | Fun _ _ => parens rendered
    | _ => rendered
    end in
  elem ++ #"[" ++ commas ++ #"]".

Definition render_tuple_elem (elem : Ty) (rendered : str) : str :=
  match elem with
  | Tuple _ | Fun _ _ => parens rendered
  | _ => rendered
  end.

Definition render_fun (arg : Ty) (arg_s ret_s : str) : str :=
  match arg with
  | Fun _ _ => parens arg_s
  | _ => arg_s
  end ++ #" -> " ++ ret_s.

(** [Ty::render]: the canonical string. *)
Fixpoint render (ty : Ty) : str :=
  match ty with
  | Named path args | Project path args => render_named (join (#".") path) (map render args)
  | Array elem rank => render_array elem (render elem) rank
  | Tuple elems => join (#" * ") (map (fun e => render_tuple_elem e (render e)) elems)
  | Fun arg ret => render_fun arg (render arg) (render ret)
  | Param i => typar_name i
  | Var _ => #"'_"
  end.

Example render_ex : render (Fun (Tuple [named (#"System.Int32"); Fun (Param 0) (Param 27)])
    (Array (Tuple [Param 0; Named [#"M"; #"G"] [Param 1; Param 2]]) 2))
  = #"System.Int32 * ('a -> 't27) -> ('a * M.G<'b, 'c>)[,]".
Proof. vm_compute. reflexivity. Qed.

(** ** Generic tools *)

Fixpoint ty_size (ty : Ty) : nat :=
  match ty with
  | Named _ args | Project _ args | Tuple args => S (list_sum (map ty_size args))
  | Array elem _ => S (ty_size elem)
  | Fun arg ret => S (ty_size arg + ty_size ret)
  | Param _ | Var _ => 1
  end.

Fixpoint ty_vars (ty : Ty) : list TyVid :=
  match ty with
  | Named _ args | Project _ args | Tuple args => concat (map ty_vars args)
  | Array elem _ => ty_vars elem
  | Fun arg ret => ty_vars arg ++ ty_vars ret
  | Param _ => []
  | Var v => [v]
  end.

Definition assignment := TyVid -> Ty.

Fixpoint apply (theta : assignment) (ty : Ty) : Ty :=
  match ty with
  | Named path args => Named path (map (apply theta) args)
  | Project path args => Project path (map (apply theta) args)
  | Array elem rank => Array (apply theta elem) rank
  | Tuple elems => Tuple (map (apply theta) elems)
  | Fun arg ret => Fun (apply theta arg) (apply theta ret)
  | Param i => Param i
  | Var v => theta v
  end.

Lemma ty_size_pos ty : 1 <= ty_size ty.
Proof. destruct ty; simpl; lia. Qed.

Lemma is_ground_vars ty : is_ground ty = true <-> ty_vars ty = [].
Proof.
  assert (HL : forall l, Forall (fun x => is_ground x = true <-> ty_vars x = []) l ->
    forallb is_ground l = true <-> concat (map ty_vars l) = []).
  { induction 1 as [|x l Hx _ IH]; simpl; [done|]. rewrite andb_true_iff, Hx, IH. rewrite app_nil. done. }
  induction ty using Ty_nested_ind; simpl; auto; try done.
  rewrite andb_true_iff, app_nil. naive_solver.
Qed.

Lemma apply_ext theta theta' ty :
  (forall v, v ∈ ty_vars ty -> theta v = theta' v) -> apply theta ty = apply theta' ty.
Proof.
  assert (HL : forall l, Forall (fun x => (forall v, v ∈ ty_vars x -> theta v = theta' v) ->
      apply theta x = apply theta' x) l ->
    (forall v, v ∈ concat (map ty_vars l) -> theta v = theta' v) ->
    map (apply theta) l = map (apply theta') l).
  { induction 1 as [|x l Hx _ IH]; simpl; [done|]. intros Hv. f_equal.
    - apply Hx. intros v ?. apply Hv. set_solver.
    - apply IH. intros v ?. apply Hv. set_solver. }
  induction ty using Ty_nested_ind; simpl; intros Hv; try done; try (f_equal; by apply HL).
  - f_equal; auto.
  - f_equal; [apply IHty1|apply IHty2]; intros; apply Hv; set_solver.
  - apply Hv. set_solver.
Qed.

Lemma apply_Var ty : apply Var ty = ty.
Proof.
  induction ty using Ty_nested_ind; simpl; try congruence;
    f_equal; rewrite <- (map_id args) at 2 || rewrite <- (map_id elems) at 2;
    apply map_ext_Forall; done.
Qed.
