(* ===== verification/Unify.v ===== *)
(** * The unifier of type inference ([crates/sema/src/unify.rs])

    [InferTable] layers structural (Robinson) unification over the union-find
    table of the [ena] crate.  [ena] is not part of the repository, so the
    table is an interface: the operations [unify.rs] calls, as the class
    [UnificationTable], and their documented behaviour, as [LawfulTable].
    Path compression and the choice of class representative are left open, as
    [ena] leaves them.

    A recursive call of the code costs one unit of fuel in the model; [None]
    is running out of it.  The code's own recursion is unbounded, so the
    theorems say that from every table [InferTable] can reach, enough fuel
    exists and the answer no longer depends on it. *)

From S2P Require Import Prelude Ty.

(** ** The interface of the union-find table *)

Class UnificationTable (T : Type) := {
  ut_new : T;                                  (* [default()] *)
  ut_len : T -> nat;                           (* [len] *)
  ut_new_key : T -> TyVid * T;                 (* [new_key(None)] *)
  ut_find : T -> TyVid -> TyVid;               (* [find] *)
  ut_probe : T -> TyVid -> option Ty;          (* [probe_value] *)
  ut_union : T -> TyVid -> TyVid -> option T;  (* [unify_var_var], [None] for [Err] *)
  ut_bind : T -> TyVid -> Ty -> option T;      (* [unify_var_value(v, Some(ty))] *)
  ut_snap : Type;
  ut_snapshot : T -> T * ut_snap;
  ut_commit : T -> ut_snap -> T;
  ut_rollback : T -> ut_snap -> T }.

(** Two tables no client can tell apart. *)
Definition ut_equiv {T} `{UnificationTable T} (t u : T) : Prop :=
  ut_len t = ut_len u
  /\ forall v, v < ut_len t -> ut_find t v = ut_find u v /\ ut_probe t v = ut_probe u v.

(** What a table becomes by allocating, merging and binding. *)
Inductive ut_after {T} `{UnificationTable T} (t : T) : T -> Prop :=
| after_refl : ut_after t t
| after_new_key t' t'' v : ut_after t t' -> ut_new_key t' = (v, t'') -> ut_after t t''
| after_union t' t'' a b : ut_after t t' -> ut_union t' a b = Some t'' -> ut_after t t''
| after_bind t' t'' v ty : ut_after t t' -> ut_bind t' v ty = Some t'' -> ut_after t t''.

Class LawfulTable (T : Type) `{UnificationTable T} : Prop := {
  law_new : ut_len (T:=T) ut_new = 0;
  law_find_lt (t : T) v : v < ut_len t -> ut_find t v < ut_len t;
  law_find_idem (t : T) v : v < ut_len t -> ut_find t (ut_find t v) = ut_find t v;
  law_probe_find (t : T) v : v < ut_len t -> ut_probe t (ut_find t v) = ut_probe t v;
  (* a key is allocated at the end of the table, unbound and alone in its class *)
  law_new_key (t : T) : exists t', ut_new_key t = (ut_len t, t') /\ ut_len t' = S (ut_len t)
    /\ (forall v, v < ut_len t -> ut_find t' v = ut_find t v /\ ut_probe t' v = ut_probe t v)
    /\ ut_find t' (ut_len t) = ut_len t /\ ut_probe t' (ut_len t) = None;
  (* merging a class with itself changes nothing *)
  law_union_same (t : T) a b : a < ut_len t -> b < ut_len t -> ut_find t a = ut_find t b ->
    exists t', ut_union t a b = Some t' /\ ut_equiv t t';
  (* merging two unbound classes succeeds, with one of the roots as the new root *)
  law_union_unbound (t : T) a b : a < ut_len t -> b < ut_len t -> ut_find t a <> ut_find t b ->
    ut_probe t a = None -> ut_probe t b = None ->
    exists t' r, ut_union t a b = Some t' /\ ut_len t' = ut_len t
      /\ (r = ut_find t a \/ r = ut_find t b)
      /\ forall x, x < ut_len t ->
           (ut_find t' x = if decide (ut_find t x = ut_find t a \/ ut_find t x = ut_find t b)
                           then r else ut_find t x)
           /\ ut_probe t' x = ut_probe t x;
  (* binding an unbound class succeeds and sets the value of its members *)
  law_bind (t : T) v ty : v < ut_len t -> ut_probe t v = None ->
    exists t', ut_bind t v ty = Some t' /\ ut_len t' = ut_len t
      /\ forall x, x < ut_len t -> ut_find t' x = ut_find t x
           /\ ut_probe t' x = if decide (ut_find t x = ut_find t v) then Some ty else ut_probe t x;
  law_snapshot (t t1 : T) s : ut_snapshot t = (t1, s) -> ut_equiv t t1;
  (* for a snapshot that is open: taken, and then only allocations, merges and bindings *)
  law_commit (t t1 t2 : T) s : ut_snapshot t = (t1, s) -> ut_after t1 t2 -> ut_equiv t2 (ut_commit t2 s);
  law_rollback (t t1 t2 : T) s : ut_snapshot t = (t1, s) -> ut_after t1 t2 -> ut_equiv t (ut_rollback t2 s) }.

(** ** The code *)

Inductive UnifyError := Mismatch | Occurs.

(** The outcome of [unify]; [UPanic] is one of its two [expect]s. *)
Inductive unify_outcome := UOk | UErr (e : UnifyError) | UPanic.

Section InferTable.
Context {T : Type} `{UnificationTable T}.

Definition InferTable_fresh (t : T) : TyVid * T := ut_new_key t.
Definition InferTable_mark (t : T) : nat := ut_len t.
Definition InferTable_unioned (t : T) (a b : TyVid) : bool := Nat.eqb (ut_find t a) (ut_find t b).
Definition any_older_unioned (t : T) (v : TyVid) (mark : nat) : bool :=
  existsb (fun k => InferTable_unioned t k v) (seq 0 mark).

Fixpoint shallow_resolve (fuel : nat) (t : T) (ty : Ty) : option Ty :=
  match fuel with
  | O => None
  | S fuel' =>
      match ty with
      | Var v =>
          match ut_probe t v with
          | Some bound => shallow_resolve fuel' t bound
          | None => Some (Var (ut_find t v))
          end
      | other => Some other
      end
  end.

Fixpoint resolve (fuel : nat) (t : T) (ty : Ty) : option Ty :=
  match fuel with
  | O => None
  | S fuel' =>
      r ← shallow_resolve fuel t ty;
      match r with
      | Array elem rank => elem' ← resolve fuel' t elem; Some (Array elem' rank)
      | Tuple elems => elems' ← mapM (resolve fuel' t) elems; Some (Tuple elems')
      | Fun arg ret =>
          arg' ← resolve fuel' t arg; ret' ← resolve fuel' t ret; Some (Fun arg' ret')
      | Named path args => args' ← mapM (resolve fuel' t) args; Some (Named path args')
      | Project path args => args' ← mapM (resolve fuel' t) args; Some (Project path args')
      | Param _ | Var _ => Some r
      end
  end.

Fixpoint occurs (fuel : nat) (t : T) (v : TyVid) (ty : Ty) : option bool :=
  match fuel with
  | O => None
  | S fuel' =>
      r ← shallow_resolve fuel t ty;
      match r with
      | Var v2 => Some (InferTable_unioned t v v2)
      | Param _ => Some false
      | Named _ args | Project _ args => anyM (occurs fuel' t v) args
      | Array elem _ => occurs fuel' t v elem
      | Tuple elems => anyM (occurs fuel' t v) elems
      | Fun arg ret => anyM (occurs fuel' t v) [arg; ret]
      end
  end.

(** The [for (x, y) in aa.iter().zip(ab.iter()) { self.unify(x, y)?; }] loops. *)
Fixpoint unify_zip (f : T -> Ty -> Ty -> option (T * unify_outcome)) (t : T)
    (xys : list (Ty * Ty)) : option (T * unify_outcome) :=
  match xys with
  | [] => Some (t, UOk)
  | (x, y) :: xys' =>
      '(t', o) ← f t x y;
      match o with UOk => unify_zip f t' xys' | UErr _ | UPanic => Some (t', o) end
  end.

(** The two arms that bind a variable to a term. *)
Definition unify_bind (fuel : nat) (t : T) (v : TyVid) (term : Ty) : option (T * unify_outcome) :=
  b ← occurs fuel t v term;
  if b : bool then Some (t, UErr Occurs)
  else match ut_bind t v term with
       | Some t' => Some (t', UOk)
       | None => Some (t, UPanic)
       end.

Definition path_eqb (p q : list str) : bool := bool_decide (p = q).

Fixpoint unify (fuel : nat) (t : T) (a b : Ty) : option (T * unify_outcome) :=
  match fuel with
  | O => None
  | S fuel' =>
      a' ← shallow_resolve fuel t a;
      b' ← shallow_resolve fuel t b;
      match a', b' with
      | Var va, Var vb =>
          match ut_union t va vb with
          | Some t' => Some (t', UOk)
          | None => Some (t, UPanic)
          end
      | Var v, term | term, Var v => unify_bind fuel' t v term
      | Named pa aa, Named pb ab | Project pa aa, Project pb ab =>
          if (negb (path_eqb pa pb) || negb (Nat.eqb (length aa) (length ab)))%bool
          then Some (t, UErr Mismatch)
          else unify_zip (unify fuel') t (zip aa ab)
      | Array ea ra, Array eb rb =>
          if negb (N.eqb ra rb) then Some (t, UErr Mismatch) else unify fuel' t ea eb
      | Tuple ea, Tuple eb =>
          if negb (Nat.eqb (length ea) (length eb)) then Some (t, UErr Mismatch)
          else unify_zip (unify fuel') t (zip ea eb)
      | Fun aa ra, Fun ab rb => unify_zip (unify fuel') t [(aa, ab); (ra, rb)]
      | Param i, Param j => if N.eqb i j then Some (t, UOk) else Some (t, UErr Mismatch)
      | _, _ => Some (t, UErr Mismatch)
      end
  end.

(** [InferTable::probe]: keep the effects of [f] iff it returns [Ok]. *)
Definition InferTable_probe (f : T -> option (T * unify_outcome)) (t : T) : option (T * unify_outcome) :=
  let '(t1, snapshot) := ut_snapshot t in
  '(t2, o) ← f t1;
  match o with
  | UOk => Some (ut_commit t2 snapshot, UOk)
  | UErr e => Some (ut_rollback t2 snapshot, UErr e)
  | UPanic => Some (t2, UPanic)
  end.

Definition unify_atomic (fuel : nat) (t : T) (a b : Ty) : option (T * unify_outcome) :=
  InferTable_probe (fun t => unify fuel t a b) t.
End InferTable.

(** ** Tables the unifier can reach

    [table_wf]: bindings are terms over allocated variables, never a bare
    variable, and the "occurs in the binding of" relation is well founded
    (no infinite type). *)

Section theory.
Context {T : Type} `{LT : LawfulTable T}.
Implicit Types (t u : T) (ty : Ty).

Definition in_range t ty : Prop := Forall (fun v => v < ut_len t) (ty_vars ty).

Definition dep t (w v : TyVid) : Prop :=
  exists ty, v < ut_len t /\ ut_probe t v = Some ty /\ w ∈ ty_vars ty.

Definition table_wf t : Prop :=
  (forall v ty, v < ut_len t -> ut_probe t v = Some ty -> in_range t ty /\ forall x, ty <> Var x)
  /\ forall v, v < ut_len t -> Acc (dep t) v.

(** One step of resolution. *)
Definition sh t ty : Ty :=
  match ty with
  | Var v => match ut_probe t v with Some bound => bound | None => Var (ut_find t v) end
  | other => other
  end.

(** The solutions of a table: assignments that respect its bindings and merges. *)
Definition models (theta : assignment) t : Prop :=
  forall v, v < ut_len t -> theta v = apply theta (sh t (Var v)).

Definition ty_children (ty : Ty) : list Ty :=
  match ty with
  | Named _ args | Project _ args | Tuple args => args
  | Array elem _ => [elem]
  | Fun arg ret => [arg; ret]
  | Param _ | Var _ => []
  end.

Lemma in_range_var t v : in_range t (Var v) <-> v < ut_len t.
Proof. unfold in_range. simpl. rewrite Forall_singleton. done. Qed.

Lemma vars_children ty : (forall x, ty <> Var x) -> ty_vars ty = concat (map ty_vars (ty_children ty)).
Proof. destruct ty; simpl; rewrite ?app_nil_r; try done. intros H'. by destruct (H' v). Qed.

Lemma child_vars ty c w : c ∈ ty_children ty -> w ∈ ty_vars c -> w ∈ ty_vars ty.
Proof.
  intros Hc Hw. assert (Hin : w ∈ concat (map ty_vars (ty_children ty))).
  { apply list_elem_of_In, in_concat. exists (ty_vars c). split; [|by apply list_elem_of_In].
    apply in_map. by apply list_elem_of_In. }
  destruct ty; simpl in *; rewrite ?app_nil_r in Hin; try done; set_solver.
Qed.

Lemma in_range_child t ty c : in_range t ty -> c ∈ ty_children ty -> in_range t c.
Proof.
  unfold in_range. rewrite !Forall_forall. intros Hr Hc w Hw. eauto using child_vars.
Qed.

Lemma shallow_total n t ty : table_wf t -> in_range t ty -> shallow_resolve (S (S n)) t ty = Some (sh t ty).
Proof.
  intros [Hwf _] Hr. destruct ty as [| | | | | |v]; try done. simpl.
  destruct (ut_probe t v) as [b|] eqn:E; [|done].
  apply in_range_var in Hr. destruct (Hwf v b Hr E) as [_ Hn]. destruct b; try done. by destruct (Hn v0).
Qed.

Lemma shallow_some n t ty r : table_wf t -> in_range t ty -> shallow_resolve n t ty = Some r -> r = sh t ty.
Proof.
  intros Hwf Hr Hs. destruct n as [|[|n]]; [done| |].
  - simpl in Hs. destruct ty; simplify_eq; try done. unfold sh. destruct (ut_probe t v); by simplify_eq.
  - rewrite shallow_total in Hs by done. by simplify_eq.
Qed.

Lemma sh_in_range t ty : table_wf t -> in_range t ty -> in_range t (sh t ty).
Proof.
  intros [Hwf _] Hr. destruct ty as [| | | | | |v]; try done. simpl. apply in_range_var in Hr.
  destruct (ut_probe t v) eqn:E; [by eapply Hwf|]. apply in_range_var. by apply law_find_lt.
Qed.

(** After one step a variable is an unbound root. *)
Lemma sh_var t ty v : table_wf t -> in_range t ty -> sh t ty = Var v ->
  v < ut_len t /\ ut_probe t v = None /\ ut_find t v = v.
Proof.
  intros [Hwf _] Hr E. destruct ty as [| | | | | |w]; try done. simpl in E. apply in_range_var in Hr.
  destruct (ut_probe t w) as [b|] eqn:Ew.
  - subst. destruct (Hwf w _ Hr Ew) as [_ Hn]. by destruct (Hn v).
  - simplify_eq. split_and!; [by apply law_find_lt|by rewrite law_probe_find|by apply law_find_idem].
Qed.

Lemma apply_sh theta t ty : models theta t -> in_range t ty -> apply theta (sh t ty) = apply theta ty.
Proof.
  intros Hm Hr. destruct ty as [| | | | | |v]; try done. symmetry. apply Hm. by apply in_range_var.
Qed.

(** Induction along resolution: to prove something of a term, assume it of
    the immediate subterms of its resolved head. *)
Lemma resolution_ind t (P : Ty -> Prop) :
  table_wf t ->
  (forall ty, in_range t ty -> (forall c, c ∈ ty_children (sh t ty) -> P c) -> P ty) ->
  forall ty, in_range t ty -> P ty.
Proof.
  intros Hwf Hstep.
  assert (HA : forall ty, (forall w, w ∈ ty_vars ty -> w < ut_len t /\ P (Var w)) -> P ty).
  { assert (HC : forall ty, (forall w, w ∈ ty_vars ty -> w < ut_len t /\ P (Var w)) ->
      sh t ty = ty -> Forall (fun c => (forall w, w ∈ ty_vars c -> w < ut_len t /\ P (Var w)) -> P c)
        (ty_children ty) -> P ty).
    { intros ty Hv Hsh HF. apply Hstep.
      - apply Forall_forall. intros w Hw. by apply Hv.
      - rewrite Hsh. intros c Hc. rewrite Forall_forall in HF. apply HF; [done|].
        intros w Hw. apply Hv. eauto using child_vars. }
    induction ty using Ty_nested_ind; intros Hv; try (apply HC; [done|done|]); simpl; auto.
    apply Hv. simpl. set_solver. }
  assert (HB : forall v, Acc (dep t) v -> v < ut_len t -> P (Var v)).
  { induction 1 as [v _ IH]. intros Hv. apply Hstep; [by apply in_range_var|].
    simpl. destruct (ut_probe t v) as [b|] eqn:Eb; [|set_solver]. intros c Hc. apply HA. intros w Hw.
    assert (w ∈ ty_vars b) by eauto using child_vars.
    assert (w < ut_len t) as Hlt.
    { destruct (proj1 Hwf v b Hv Eb) as [Hr _]. unfold in_range in Hr. rewrite Forall_forall in Hr. auto. }
    split; [done|]. apply IH; [|done]. by exists b. }
  intros ty Hr. apply HA. intros w Hw. unfold in_range in Hr. rewrite Forall_forall in Hr.
  split; [auto|]. apply HB; [|auto]. apply Hwf. auto.
Qed.

(** ** More fuel never changes an answer *)

Lemma shallow_mono n m t ty r : n <= m -> shallow_resolve n t ty = Some r -> shallow_resolve m t ty = Some r.
Proof.
  revert m ty. induction n as [|n IH]; intros m ty Hle Hr; [done|].
  destruct m as [|m]; [lia|]. simpl in *. destruct ty; try done.
  destruct (ut_probe t v); [|done]. apply IH; [lia|done].
Qed.

Lemma mapM_mono {A B} (f g : A -> option B) l k :
  (forall x y, f x = Some y -> g x = Some y) -> mapM f l = Some k -> mapM g l = Some k.
Proof. intros Hfg. rewrite !mapM_Some. intros Hl. eapply Forall2_impl; [exact Hl|auto]. Qed.

Lemma resolve_mono n m t ty r : n <= m -> resolve n t ty = Some r -> resolve m t ty = Some r.
Proof.
  revert m ty r. induction n as [|n IH]; intros m ty r Hle Hr; [done|].
  destruct m as [|m]; [lia|]. cbn [resolve] in *.
  destruct (shallow_resolve (S n) t ty) as [s|] eqn:Es; [|done].
  rewrite (shallow_mono (S n) (S m) _ _ _ (le_n_S _ _ (le_S_n _ _ Hle)) Es). simpl in *.
  assert (IHm : forall x y, resolve n t x = Some y -> resolve m t x = Some y) by (intros; apply IH; [lia|done]).
  destruct s; try done.
  - destruct (mapM (resolve n t) args) eqn:E; [|done]. by rewrite (mapM_mono _ _ _ _ IHm E).
  - destruct (mapM (resolve n t) args) eqn:E; [|done]. by rewrite (mapM_mono _ _ _ _ IHm E).
  - destruct (resolve n t s) eqn:E; [|done]. by rewrite (IHm _ _ E).
  - destruct (mapM (resolve n t) elems) eqn:E; [|done]. by rewrite (mapM_mono _ _ _ _ IHm E).
  - destruct (resolve n t s1) eqn:E1; [|done]. simpl in Hr. destruct (resolve n t s2) eqn:E2; [|done].
    by rewrite (IHm _ _ E1), (IHm _ _ E2).
Qed.

Lemma anyM_mono {A} (f g : A -> option bool) l b :
  (forall x y, f x = Some y -> g x = Some y) -> anyM f l = Some b -> anyM g l = Some b.
Proof.
  intros Hfg. induction l as [|x l IH]; simpl; [done|]. destruct (f x) as [c|] eqn:E; [|done].
  rewrite (Hfg _ _ E). simpl. destruct c; auto.
Qed.

Lemma occurs_mono n m t v ty b : n <= m -> occurs n t v ty = Some b -> occurs m t v ty = Some b.
Proof.
  revert m ty b. induction n as [|n IH]; intros m ty b Hle Hr; [done|].
  destruct m as [|m]; [lia|]. cbn [occurs] in *.
  destruct (shallow_resolve (S n) t ty) as [s|] eqn:Es; [|done].
  rewrite (shallow_mono (S n) (S m) _ _ _ (le_n_S _ _ (le_S_n _ _ Hle)) Es). simpl in *.
  assert (IHm : forall x y, occurs n t v x = Some y -> occurs m t v x = Some y) by (intros; apply IH; [lia|done]).
  destruct s; try done; try (by eapply anyM_mono); [by apply IHm|].
  eapply (anyM_mono (occurs n t v) (occurs m t v) [s1; s2]); done.
Qed.

Lemma unify_zip_mono (f g : T -> Ty -> Ty -> option (T * unify_outcome)) t l x :
  (forall t a b y, f t a b = Some y -> g t a b = Some y) -> unify_zip f t l = Some x -> unify_zip g t l = Some x.
Proof.
  intros Hfg. revert t. induction l as [|[a b] l IH]; intros t; simpl; [done|].
  destruct (f t a b) as [[t' o]|] eqn:E; [|done]. rewrite (Hfg _ _ _ _ E). simpl. destruct o; auto.
Qed.

Lemma unify_bind_mono n m t v term x :
  n <= m -> unify_bind n t v term = Some x -> unify_bind m t v term = Some x.
Proof.
  intros Hle. unfold unify_bind. destruct (occurs n t v term) eqn:E; [|done].
  by rewrite (occurs_mono _ _ _ _ _ _ Hle E).
Qed.

Lemma unify_mono n m t a b x : n <= m -> unify n t a b = Some x -> unify m t a b = Some x.
Proof.
  revert m t a b x. induction n as [|n IH]; intros m t a b x Hle Hu; [done|].
  destruct m as [|m]; [lia|]. cbn [unify] in *.
  destruct (shallow_resolve (S n) t a) as [a'|] eqn:Ea; [|done].
  rewrite (shallow_mono (S n) (S m) _ _ _ (le_n_S _ _ (le_S_n _ _ Hle)) Ea). cbn [mbind option_bind] in *.
  destruct (shallow_resolve (S n) t b) as [b'|] eqn:Eb; [|done].
  rewrite (shallow_mono (S n) (S m) _ _ _ (le_n_S _ _ (le_S_n _ _ Hle)) Eb). cbn [mbind option_bind] in *.
  assert (IHm : forall t a b y, unify n t a b = Some y -> unify m t a b = Some y)
    by (intros; eapply IH; [lia|done]).
  destruct a', b'; try done;
    try (by apply (unify_bind_mono n m); [lia|]);
    try (destruct (_ || _)%bool; [done|]; by eapply unify_zip_mono);
    try (destruct (negb _); [done|]; (by apply IHm) || (by eapply unify_zip_mono)).
  by apply (unify_zip_mono (unify n) (unify m)).
Qed.

(** ** Resolution and the occurs check terminate *)

Lemma mapM_total {A B} (f : nat -> A -> option B) l :
  (forall n m x y, n <= m -> f n x = Some y -> f m x = Some y) ->
  (forall x, x ∈ l -> exists n y, f n x = Some y) -> exists n k, mapM (f n) l = Some k.
Proof.
  intros Hmono. induction l as [|x l IH]; intros Hl; [by exists 0, []|].
  destruct (Hl x) as (n1 & y & Hy); [set_solver|].
  destruct IH as (n2 & k & Hk); [intros; apply Hl; set_solver|].
  exists (n1 + n2), (y :: k). simpl. rewrite (Hmono n1 _ x y) by (done || lia). simpl.
  rewrite (mapM_mono (f n2) (f (n1 + n2)) l k); [done| |done].
  intros a b. apply Hmono. lia.
Qed.

(** What [resolve] does to a resolved head. *)
Definition rebuild (f : Ty -> option Ty) (r : Ty) : option Ty :=
  match r with
  | Array elem rank => elem' ← f elem; Some (Array elem' rank)
  | Tuple elems => elems' ← mapM f elems; Some (Tuple elems')
  | Fun arg ret => arg' ← f arg; ret' ← f ret; Some (Fun arg' ret')
  | Named path args => args' ← mapM f args; Some (Named path args')
  | Project path args => args' ← mapM f args; Some (Project path args')
  | Param _ | Var _ => Some r
  end.

Lemma resolve_S n t ty : resolve (S n) t ty = shallow_resolve (S n) t ty ≫= rebuild (resolve n t).
Proof. reflexivity. Qed.

Lemma rebuild_total f r k : mapM f (ty_children r) = Some k -> exists r', rebuild f r = Some r'.
Proof.
  destruct r as [p args|p args|elem rank|elems|arg ret|i|v]; simpl; intros Hk; rewrite ?Hk; simpl; eauto.
  - destruct (f elem); simpl in *; [eauto|done].
  - destruct (f arg); simpl in *; [|done]. destruct (f ret); simpl in *; [eauto|done].
Qed.

Lemma resolve_total t ty : table_wf t -> in_range t ty -> exists n r, resolve n t ty = Some r.
Proof.
  intros Hwf. revert ty. apply resolution_ind; [done|]. intros ty Hr IH.
  destruct (mapM_total (fun n => resolve n t) (ty_children (sh t ty))) as (n & k & Hk); [|exact IH|].
  { intros. by eapply resolve_mono. }
  exists (S (S n)). rewrite resolve_S, shallow_total by done. cbn [mbind option_bind]. eapply rebuild_total.
  eapply mapM_mono; [|exact Hk]. intros x y Hx. eapply resolve_mono; [|exact Hx]. lia.
Qed.

Lemma anyM_total {A} (f : nat -> A -> option bool) l :
  (forall n m x y, n <= m -> f n x = Some y -> f m x = Some y) ->
  (forall x, x ∈ l -> exists n y, f n x = Some y) -> exists n b, anyM (f n) l = Some b.
Proof.
  intros Hmono Hl. destruct (mapM_total f l Hmono Hl) as (n & k & Hk). exists n. clear Hl.
  revert k Hk. induction l as [|x l IH]; intros k Hk; [by exists false|]. simpl in *.
  destruct (f n x) as [b|]; [|done]. simpl in *. destruct (mapM (f n) l); [|done].
  destruct b; eauto.
Qed.

Lemma occurs_S n t v ty : occurs (S n) t v ty =
  shallow_resolve (S n) t ty ≫= fun r =>
  match r with Var v2 => Some (InferTable_unioned t v v2) | _ => anyM (occurs n t v) (ty_children r) end.
Proof.
  cbn [occurs]. destruct (shallow_resolve (S n) t ty) as [r|]; [|done]. cbn [mbind option_bind].
  destruct r; try done. cbn [ty_children anyM]. destruct (occurs n t v r) as [[]|]; done.
Qed.

Lemma occurs_total t v ty : table_wf t -> in_range t ty -> exists n b, occurs n t v ty = Some b.
Proof.
  intros Hwf. revert ty. apply resolution_ind; [done|]. intros ty Hr IH.
  destruct (anyM_total (fun n => occurs n t v) (ty_children (sh t ty))) as (n & b & Hk); [|exact IH|].
  { intros. by eapply occurs_mono. }
  exists (S (S n)). rewrite occurs_S, shallow_total by done. cbn [mbind option_bind].
  assert (Hk' : anyM (occurs (S n) t v) (ty_children (sh t ty)) = Some b).
  { eapply anyM_mono; [|exact Hk]. intros x y Hx. eapply occurs_mono; [|exact Hx]. lia. }
  destruct (sh t ty); eauto.
Qed.

(** ** The occurs check *)

(** [v]'s class is reached from [ty] along resolution. *)
Inductive occ t (v : TyVid) : Ty -> Prop :=
| occ_here ty w : sh t ty = Var w -> ut_find t v = ut_find t w -> occ t v ty
| occ_child ty c : c ∈ ty_children (sh t ty) -> occ t v c -> occ t v ty.

Lemma anyM_some {A} (f : A -> option bool) (Q : A -> Prop) l b :
  (forall x c, x ∈ l -> f x = Some c -> c = true <-> Q x) ->
  anyM f l = Some b -> b = true <-> exists x, x ∈ l /\ Q x.
Proof.
  induction l as [|x l IH]; intros HQ Hb; simpl in Hb.
  - simplify_eq. split; [done|set_solver].
  - destruct (f x) as [c|] eqn:E; [|done]. simpl in Hb.
    pose proof (HQ x c ltac:(set_solver) E) as Hx. destruct c.
    + simplify_eq. split; [|done]. intros _. exists x. split; [set_solver|]. by apply Hx.
    + rewrite IH; [|intros; apply HQ; set_solver|done]. split.
      * intros (y & ? & ?). exists y. set_solver.
      * intros (y & [->|?]%elem_of_cons & Hy); [|eauto]. apply Hx in Hy. done.
Qed.

Lemma occurs_spec n t v ty b : table_wf t -> in_range t ty ->
  occurs n t v ty = Some b -> b = true <-> occ t v ty.
Proof.
  intros Hwf. revert ty b. induction n as [|n IH]; intros ty b Hr Ho; [done|].
  rewrite occurs_S in Ho. destruct (shallow_resolve (S n) t ty) as [r|] eqn:Es; [|done].
  apply shallow_some in Es as ->; [|done..]. cbn [mbind option_bind] in Ho.
  pose proof (sh_in_range t ty Hwf Hr) as Hr'.
  assert (Hc : (forall x, sh t ty <> Var x) -> anyM (occurs n t v) (ty_children (sh t ty)) = Some b ->
    b = true <-> occ t v ty).
  { intros Hnv Ha. rewrite (anyM_some _ (occ t v) _ _ ltac:(intros x c ? ?; apply IH; [by eapply in_range_child|done]) Ha).
    split; [intros (x & ? & ?); by eapply occ_child|].
    inversion 1 as [ty' w E|ty' c Hin Hocc]; subst; [by destruct (Hnv w)|eauto]. }
  destruct (sh t ty) as [| | | | | |w] eqn:E; try by apply Hc.
  simplify_eq. unfold InferTable_unioned. rewrite Nat.eqb_eq. split; [intros ?; by eapply occ_here|].
  inversion 1 as [ty' w' E'|ty' c Hin Hocc]; subst; rewrite E in *; [by simplify_eq|simpl in *; set_solver].
Qed.

Lemma child_size theta ty c : c ∈ ty_children ty -> ty_size (apply theta c) < ty_size (apply theta ty).
Proof.
  assert (HL : forall l, c ∈ l -> ty_size (apply theta c) <= list_sum (map ty_size (map (apply theta) l))).
  { induction l as [|x l IH]; simpl; [set_solver|]. intros [->|Hc]%elem_of_cons; [lia|]. specialize (IH Hc). lia. }
  destruct ty; simpl; intros Hc; try (specialize (HL _ Hc); simpl in HL; lia). set_solver.
Qed.

(** What occurs in a term is no larger than it, in every solution. *)
Lemma occ_size theta t v ty :
  table_wf t -> models theta t -> in_range t ty -> v < ut_len t -> ut_probe t v = None -> occ t v ty ->
  ty_size (theta v) <= ty_size (apply theta ty)
  /\ ((forall x, sh t ty <> Var x) -> ty_size (theta v) < ty_size (apply theta ty)).
Proof.
  intros Hwf Hm Hr Hv Hp. induction 1 as [ty w E Hf|ty c Hc Ho IH].
  - split; [|intros Hn; by destruct (Hn w)]. rewrite <- (apply_sh theta t ty), E by done. simpl.
    destruct (sh_var t ty w Hwf Hr E) as (Hw & Hpw & Hfw).
    rewrite (Hm v Hv). simpl. rewrite Hp. simpl. rewrite Hf, Hfw. lia.
  - pose proof (child_size theta _ _ Hc) as Hlt. rewrite (apply_sh theta t ty) in Hlt by done.
    destruct IH as [IH _]; [by eapply in_range_child; [apply sh_in_range|]|]. split; [lia|intros; lia].
Qed.

Lemma occ_vars t v ty w : w ∈ ty_vars ty -> occ t v (Var w) -> occ t v ty.
Proof.
  intros Hw Ho. assert (HL : forall l ty', sh t ty' = ty' -> ty_children ty' = l ->
    Forall (fun x => w ∈ ty_vars x -> occ t v x) l -> w ∈ concat (map ty_vars l) -> occ t v ty').
  { intros l ty' Hsh <- HF Hin. apply list_elem_of_In, in_concat in Hin as (k & Hk & Hwk).
    apply in_map_iff in Hk as (c & <- & Hc). apply list_elem_of_In in Hwk, Hc.
    rewrite Forall_forall in HF. eapply occ_child; [by rewrite Hsh|]. auto. }
  induction ty using Ty_nested_ind; simpl in Hw;
    try (eapply HL; [reflexivity|reflexivity| |]; simpl; rewrite ?app_nil_r; by auto).
  apply list_elem_of_singleton in Hw as ->. done.
Qed.

Lemma occ_sh t v ty : (forall x, sh t ty <> Var x) -> occ t v (sh t ty) -> occ t v ty.
Proof.
  intros Hn. assert (Hs : sh t (sh t ty) = sh t ty) by (destruct (sh t ty); try done; by destruct (Hn v0)).
  inversion 1 as [ty' w E|ty' c Hc Ho]; subst; rewrite Hs in *; [by destruct (Hn w)|by eapply occ_child].
Qed.

(** ** The three ways a table changes *)

(** The unbound roots: what binding and merging use up. *)
Definition open_roots t : list TyVid :=
  filter (fun v => ut_probe t v = None /\ ut_find t v = v) (seq 0 (ut_len t)).

Lemma elem_of_open_roots t v : v ∈ open_roots t <-> v < ut_len t /\ ut_probe t v = None /\ ut_find t v = v.
Proof. unfold open_roots. rewrite list_elem_of_filter, elem_of_seq. naive_solver lia. Qed.

Lemma open_roots_lt t t' v : (forall w, w ∈ open_roots t' -> w ∈ open_roots t) ->
  v ∈ open_roots t -> v ∉ open_roots t' -> length (open_roots t') < length (open_roots t).
Proof.
  intros Hsub Hv Hv'. change (length (v :: open_roots t') <= length (open_roots t)).
  apply submseteq_length, NoDup_submseteq.
  - constructor; [done|]. apply NoDup_filter, NoDup_seq.
  - intros w [->|Hw]%elem_of_cons; auto.
Qed.

(** The tables [unify] moves through: same variables, still well formed, and
    fewer unbound roots unless nothing changed. *)
Definition progress t t' : Prop :=
  table_wf t' /\ ut_len t' = ut_len t
  /\ (length (open_roots t') < length (open_roots t) \/ ut_equiv t t').

Lemma equiv_sh t u ty : ut_equiv t u -> in_range t ty -> sh u ty = sh t ty.
Proof.
  intros [_ He] Hr. destruct ty; try done. apply in_range_var in Hr. simpl.
  by destruct (He v Hr) as [-> ->].
Qed.

Lemma in_range_len t u ty : ut_len t = ut_len u -> in_range t ty -> in_range u ty.
Proof. unfold in_range. by intros ->. Qed.

Lemma equiv_models theta t u : ut_equiv t u -> models theta u <-> models theta t.
Proof.
  intros He. pose proof He as [Hl _]. unfold models. rewrite <- Hl.
  split; intros Hm v Hv; rewrite (Hm v Hv) at 1; [|symmetry];
    rewrite (equiv_sh t u) by (done || by apply in_range_var); done.
Qed.

(** Well-formedness only looks at the bindings. *)
Lemma wf_same_probes t u : ut_len t = ut_len u -> (forall v, v < ut_len t -> ut_probe u v = ut_probe t v) ->
  table_wf t -> table_wf u.
Proof.
  intros Hl Hp [Hwf Hacc]. split.
  - intros v ty Hv E. rewrite <- Hl in Hv. rewrite Hp in E by done.
    destruct (Hwf v ty Hv E). split; [by eapply in_range_len|done].
  - rewrite <- Hl. intros v Hv. induction (Hacc v Hv) as [v _ IH]. constructor.
    intros w (ty & Hv' & E & Hin). rewrite Hp in E by done. apply IH; [by exists ty|].
    destruct (Hwf v ty Hv E) as [Hr _]. unfold in_range in Hr. rewrite Forall_forall in Hr. auto.
Qed.

Lemma equiv_progress t u : table_wf t -> ut_equiv t u -> progress t u.
Proof.
  intros Hwf He. pose proof He as [Hl Hv]. split_and!; [|done|by right].
  apply (wf_same_probes t); [done| |done]. intros v ?. symmetry. by apply Hv.
Qed.

Lemma equiv_open_roots t u : ut_equiv t u -> length (open_roots t) = length (open_roots u).
Proof.
  intros [Hl He]. assert (Hiff : forall v, v ∈ open_roots t <-> v ∈ open_roots u).
  { intros v. rewrite !elem_of_open_roots, <- Hl.
    split; intros (Hv & E1 & E2); destruct (He v Hv) as [Ef Ep]; (split_and!; congruence || done). }
  apply Nat.le_antisymm; apply submseteq_length, NoDup_submseteq;
    try (apply NoDup_filter, NoDup_seq); intros v; by rewrite Hiff.
Qed.

Lemma equiv_trans t u w : ut_equiv t u -> ut_equiv u w -> ut_equiv t w.
Proof.
  intros [Hl1 H1] [Hl2 H2]. split; [congruence|]. intros v Hv. destruct (H1 v Hv) as [-> ->].
  apply H2. by rewrite <- Hl1.
Qed.

Lemma progress_trans t u w : progress t u -> progress u w -> progress t w.
Proof.
  intros (_ & Hl1 & H1) (Hwf & Hl2 & H2). split_and!; [done|congruence|].
  destruct H1 as [H1|H1], H2 as [H2|H2].
  - left; lia.
  - left. by rewrite <- (equiv_open_roots _ _ H2).
  - left. by rewrite (equiv_open_roots _ _ H1).
  - right. by eapply equiv_trans.
Qed.

(** The dependency relation stays well founded when [v] is bound to [term]. *)
Lemma bind_acc t t' v term : table_wf t -> ut_len t' = ut_len t -> ut_find t v = v ->
  v < ut_len t -> ut_probe t v = None -> in_range t term -> ~ occ t v term ->
  (forall x, x < ut_len t -> ut_find t x <> v -> ut_probe t' x = ut_probe t x) ->
  (forall x, x < ut_len t -> ut_find t x = v -> ut_probe t' x = Some term) ->
  forall x, x < ut_len t -> Acc (dep t') x.
Proof.
  intros [Hwf Hacc] Hl Hf Hv Hp Hr Hocc Hother Hclass.
  assert (Hrange : forall y b w, y < ut_len t -> ut_probe t y = Some b -> w ∈ ty_vars b -> w < ut_len t).
  { intros y b w Hy Hb Hw. destruct (Hwf y b Hy Hb) as [Hrb _]. unfold in_range in Hrb.
    rewrite Forall_forall in Hrb. auto. }
  assert (Hroot : forall y, y < ut_len t -> ut_find t y = v -> occ t v (Var y)).
  { intros y Hy E. apply (occ_here _ _ _ v); [|done]. simpl.
    by rewrite <- (law_probe_find t y Hy), E, Hp. }
  assert (Hfree : forall y, y < ut_len t -> ~ occ t v (Var y) -> Acc (dep t') y).
  { intros y Hy. induction (Hacc y Hy) as [y _ IH]. intros Hno. constructor. intros w (b & _ & Hb & Hw).
    assert (ut_find t y <> v) by auto. rewrite Hother in Hb by done.
    apply IH; [by exists b|by eapply Hrange|]. intros Ho. apply Hno.
    destruct (Hwf y b Hy Hb) as [_ Hbn].
    assert (Esh : sh t (Var y) = b) by (simpl; by rewrite Hb).
    apply occ_sh; rewrite Esh; [done|]. by eapply occ_vars. }
  assert (Hcls : forall y, y < ut_len t -> ut_find t y = v -> Acc (dep t') y).
  { intros y Hy E. constructor. intros w (b & _ & Hb & Hw). rewrite Hclass in Hb by done. simplify_eq.
    apply Hfree; [unfold in_range in Hr; rewrite Forall_forall in Hr; auto|].
    intros Ho. apply Hocc. by eapply occ_vars. }
  intros x Hx. induction (Hacc x Hx) as [x _ IH].
  destruct (decide (ut_find t x = v)) as [E|E]; [by apply Hcls|].
  constructor. intros w (b & _ & Hb & Hw). rewrite Hother in Hb by done.
  apply IH; [by exists b|by eapply Hrange].
Qed.

(** Binding an unbound root to a term it does not occur in. *)
Lemma bind_progress t v term : table_wf t -> v < ut_len t -> ut_probe t v = None -> ut_find t v = v ->
  in_range t term -> (forall x, term <> Var x) -> ~ occ t v term ->
  exists t', ut_bind t v term = Some t' /\ progress t t'
    /\ forall theta, models theta t' <-> models theta t /\ theta v = apply theta term.
Proof.
  intros Hwf Hv Hp Hf Hr Hn Hocc. destruct (law_bind t v term Hv Hp) as (t' & Hb & Hl & Hx).
  exists t'. split; [done|]. rewrite Hf in Hx. split.
  - split_and!; [|done|left].
    + split.
      * intros x ty Hxl E. rewrite Hl in Hxl. destruct (Hx x Hxl) as [_ Ex]. rewrite E in Ex.
        destruct (decide _) in Ex; simplify_eq; [by split; [eapply in_range_len|]|].
        destruct (proj1 Hwf x ty Hxl (eq_sym Ex)). split; [by eapply in_range_len|done].
      * rewrite Hl. apply bind_acc with v term; [done..| | |]; try done.
        { intros x Hxl Hfx. destruct (Hx x Hxl) as [_ ->]. by rewrite decide_False. }
        { intros x Hxl Hfx. destruct (Hx x Hxl) as [_ ->]. by rewrite decide_True. }
    + apply (open_roots_lt _ _ v).
      * intros w. rewrite !elem_of_open_roots, Hl. intros (Hw & E & Ef). destruct (Hx w Hw) as [Hfw Hpw].
        rewrite Hfw in Ef. rewrite E in Hpw. destruct (decide _) in Hpw; [done|]. done.
      * by apply elem_of_open_roots.
      * rewrite elem_of_open_roots, Hl. intros (_ & E & _). destruct (Hx v Hv) as [_ Ev].
        rewrite E, decide_True in Ev; done.
  - intros theta. unfold models. rewrite Hl. split.
    + intros Hm. assert (Hclass : forall x, x < ut_len t -> ut_find t x = v -> theta x = apply theta term).
      { intros x Hxl E. rewrite (Hm x Hxl). simpl. destruct (Hx x Hxl) as [_ ->]. by rewrite decide_True. }
      split; [|by apply Hclass]. intros x Hxl. destruct (Hx x Hxl) as [Ef Ep].
      destruct (decide (ut_find t x = v)) as [E|E].
      * rewrite (Hclass x Hxl E). simpl. rewrite <- (law_probe_find t x Hxl), E, Hp. simpl.
        symmetry. by apply Hclass.
      * rewrite (Hm x Hxl) at 1. simpl. by rewrite Ep, Ef.
    + intros [Hm Hvt] x Hxl. rewrite (Hm x Hxl) at 1. simpl. destruct (Hx x Hxl) as [-> ->].
      destruct (decide (ut_find t x = v)) as [E|E]; [|done].
      rewrite <- (law_probe_find t x Hxl), E, Hp. simpl. by rewrite <- Hvt.
Qed.

(** Merging two unbound roots. *)
Lemma union_progress t a b : table_wf t -> a < ut_len t -> b < ut_len t ->
  ut_probe t a = None -> ut_probe t b = None -> ut_find t a = a -> ut_find t b = b ->
  exists t', ut_union t a b = Some t' /\ progress t t'
    /\ forall theta, models theta t' <-> models theta t /\ theta a = theta b.
Proof.
  intros Hwf Ha Hb Hpa Hpb Hfa Hfb. destruct (decide (a = b)) as [<-|Hab].
  { destruct (law_union_same t a a Ha Ha eq_refl) as (t' & Hu & He). exists t'. split_and!; [done| |].
    - by apply equiv_progress.
    - intros theta. rewrite (equiv_models theta _ _ He). naive_solver. }
  destruct (law_union_unbound t a b Ha Hb ltac:(congruence) Hpa Hpb) as (t' & r & Hu & Hl & Hr & Hx).
  rewrite Hfa, Hfb in Hr, Hx. exists t'. split; [done|]. split.
  - split_and!; [|done|left].
    + apply (wf_same_probes t); [done| |done]. intros v Hv. by apply Hx.
    + apply (open_roots_lt _ _ (if decide (r = a) then b else a)).
      * intros w. rewrite !elem_of_open_roots, Hl. intros (Hw & Ep & Ef).
        destruct (Hx w Hw) as [Ef' Ep']. rewrite Ep' in Ep. rewrite Ef' in Ef. split_and!; [done..|].
        destruct (decide _) in Ef; [|done]. destruct Hr; congruence.
      * rewrite elem_of_open_roots. destruct (decide _); done.
      * rewrite elem_of_open_roots. intros (_ & _ & Ef). destruct (decide (r = a)) as [E|E].
        -- destruct (Hx b Hb) as [E' _]. rewrite decide_True in E' by (rewrite Hfb; auto). congruence.
        -- destruct (Hx a Ha) as [E' _]. rewrite decide_True in E' by (rewrite Hfa; auto). congruence.
  - intros theta. unfold models. rewrite Hl.
    assert (Hbound : forall x ty, x < ut_len t -> ut_probe t x = Some ty -> sh t' (Var x) = sh t (Var x)).
    { intros x ty Hxl E. simpl. destruct (Hx x Hxl) as [_ ->]. by rewrite E. }
    assert (Hopen : forall x, x < ut_len t -> ut_probe t x = None -> sh t' (Var x) =
      Var (if decide (ut_find t x = a \/ ut_find t x = b) then r else ut_find t x)).
    { intros x Hxl E. simpl. destruct (Hx x Hxl) as [-> ->]. by rewrite E. }
    split.
    + intros Hm. assert (Har : theta a = theta r).
      { rewrite (Hm a Ha), Hopen by done. simpl. by rewrite decide_True by auto. }
      assert (Hbr : theta b = theta r).
      { rewrite (Hm b Hb), Hopen by done. simpl. by rewrite decide_True by auto. }
      split; [|congruence]. intros x Hxl. rewrite (Hm x Hxl) at 1.
      destruct (ut_probe t x) as [ty|] eqn:E; [by erewrite Hbound|]. rewrite Hopen by done.
      simpl. rewrite E. simpl. destruct (decide _) as [[Ex|Ex]|]; rewrite ?Ex; congruence.
    + intros [Hm Heq] x Hxl. rewrite (Hm x Hxl) at 1.
      destruct (ut_probe t x) as [ty|] eqn:E; [by erewrite Hbound|]. rewrite Hopen by done.
      simpl. rewrite E. simpl. destruct (decide _) as [[Ex|Ex]|]; rewrite ?Ex; destruct Hr; congruence.
Qed.

(** ** What [unify] computes *)

(** On [Ok] the solutions of the new table are the solutions of the old one
    that solve the equations; on [Err] no solution of the old one does. *)
Definition solves (theta : assignment) (eqs : list (Ty * Ty)) : Prop :=
  Forall (fun '(x, y) => apply theta x = apply theta y) eqs.

Lemma solves_nil theta : solves theta [] <-> True.
Proof. unfold solves. by rewrite Forall_nil. Qed.

Lemma solves_cons theta x y eqs :
  solves theta ((x, y) :: eqs) <-> apply theta x = apply theta y /\ solves theta eqs.
Proof. unfold solves. by rewrite Forall_cons. Qed.

Definition unify_spec t (eqs : list (Ty * Ty)) t' (o : unify_outcome) : Prop :=
  progress t t' /\
  match o with
  | UOk => forall theta, models theta t' <-> models theta t /\ solves theta eqs
  | UErr _ => forall theta, models theta t -> ~ solves theta eqs
  | UPanic => False
  end.

Definition eqs_in_range t (eqs : list (Ty * Ty)) : Prop :=
  Forall (fun '(x, y) => in_range t x /\ in_range t y) eqs.

Lemma progress_refl t : table_wf t -> progress t t.
Proof. intros Hwf. by apply equiv_progress. Qed.

(** The equations may be replaced by equivalent ones. *)
Lemma unify_spec_iff t eqs eqs' t' o :
  (forall theta, models theta t -> solves theta eqs <-> solves theta eqs') ->
  unify_spec t eqs t' o -> unify_spec t eqs' t' o.
Proof.
  intros He [Hp Ho]. split; [done|]. destruct o; [|naive_solver..].
  intros theta. rewrite Ho. naive_solver.
Qed.

Lemma unify_zip_spec (f : T -> Ty -> Ty -> option (T * unify_outcome)) t eqs t' o :
  (forall u a b u' o', table_wf u -> in_range u a -> in_range u b ->
     f u a b = Some (u', o') -> unify_spec u [(a, b)] u' o') ->
  table_wf t -> eqs_in_range t eqs -> unify_zip f t eqs = Some (t', o) -> unify_spec t eqs t' o.
Proof.
  intros Hf. revert t. induction eqs as [|[a b] eqs IH]; intros t Hwf Hr Hz; simpl in Hz.
  - simplify_eq. split; [by apply progress_refl|]. intros theta. rewrite solves_nil. naive_solver.
  - unfold eqs_in_range in Hr. rewrite Forall_cons in Hr. destruct Hr as [[Ha Hb] Hr].
    destruct (f t a b) as [[u o1]|] eqn:E; [|done]. simpl in Hz.
    apply Hf in E as [Hp Ho]; [|done..]. destruct o1; simplify_eq; [| |done].
    + pose proof Hp as (Hwfu & Hlu & _). apply IH in Hz as [Hp' Ho']; [|done|].
      * split; [by eapply progress_trans|].
        assert (Hs : forall theta, models theta u /\ solves theta eqs
          <-> models theta t /\ solves theta ((a, b) :: eqs)).
        { intros theta. rewrite Ho, !solves_cons, solves_nil. tauto. }
        destruct o; simpl in *; [by setoid_rewrite Ho'| |done].
        intros theta Hm Hse. destruct (proj2 (Hs theta) (conj Hm Hse)). naive_solver.
      * eapply Forall_impl; [exact Hr|]. intros [x y] [? ?]. split; apply (in_range_len t); done.
    + split; [done|]. intros theta Hm Hs. apply (Ho theta Hm). rewrite !solves_cons, ?solves_nil in *. tauto.
Qed.

Lemma unify_bind_spec n t v term t' o : table_wf t -> v < ut_len t -> ut_probe t v = None ->
  ut_find t v = v -> in_range t term -> (forall x, term <> Var x) ->
  unify_bind n t v term = Some (t', o) -> unify_spec t [(Var v, term)] t' o.
Proof.
  intros Hwf Hv Hp Hf Hr Hn. unfold unify_bind.
  destruct (occurs n t v term) as [b|] eqn:E; [|done]. simpl.
  apply occurs_spec in E; [|done..]. destruct b; intros Hu.
  - injection Hu as <- <-. split; [by apply progress_refl|]. intros theta Hm [Heq _]%solves_cons. simpl in Heq.
    assert (Hsh : sh t term = term) by (destruct term; try done; by destruct (Hn v0)).
    destruct (occ_size theta t v term) as [_ Hlt]; [done..|by apply E|]. rewrite Hsh in Hlt.
    specialize (Hlt Hn). rewrite Heq in Hlt. lia.
  - destruct (bind_progress t v term) as (t'' & Hb & Hpr & Hm); [done..|intros Ho; by apply E in Ho|].
    rewrite Hb in Hu. simplify_eq. split; [done|]. intros theta. rewrite Hm, solves_cons, solves_nil. simpl. tauto.
Qed.

(** Two application-like terms are equal when their children are. *)
Lemma zip_solves theta l k : length l = length k ->
  solves theta (zip l k) <-> map (apply theta) l = map (apply theta) k.
Proof.
  revert k. induction l as [|x l IH]; intros [|y k] Hl; try done; [by rewrite solves_nil|]. simpl zip.
  rewrite solves_cons, IH by (simpl in Hl; lia). simpl. split; [intros [-> ->]; done|].
  intros E. by simplify_eq.
Qed.

Lemma zip_in_range t l k : Forall (in_range t) l -> Forall (in_range t) k -> eqs_in_range t (zip l k).
Proof.
  intros Hl. revert k. induction Hl as [|x l Hx _ IH]; intros k Hk; [constructor|].
  destruct Hk; [constructor|]. simpl. constructor; [done|]. by apply IH.
Qed.

Lemma children_in_range t ty : in_range t ty -> Forall (in_range t) (ty_children ty).
Proof. intros Hr. apply Forall_forall. intros c. by apply in_range_child. Qed.

Lemma clash_spec t a b : table_wf t -> (forall theta, apply theta a <> apply theta b) ->
  unify_spec t [(a, b)] t (UErr Mismatch).
Proof.
  intros Hwf Hne. split; [by apply progress_refl|]. intros theta _ [E _]%solves_cons. by eapply Hne.
Qed.

(** Terms whose heads agree are equated by equating their children. *)
Lemma congr_spec (f : T -> Ty -> Ty -> option (T * unify_outcome)) t a b t' o :
  (forall u a b u' o', table_wf u -> in_range u a -> in_range u b ->
     f u a b = Some (u', o') -> unify_spec u [(a, b)] u' o') ->
  table_wf t -> in_range t a -> in_range t b ->
  (forall theta, solves theta (zip (ty_children a) (ty_children b)) <-> apply theta a = apply theta b) ->
  unify_zip f t (zip (ty_children a) (ty_children b)) = Some (t', o) -> unify_spec t [(a, b)] t' o.
Proof.
  intros Hf Hwf Ha Hb He Hz. apply unify_zip_spec in Hz; [|done|done|].
  - eapply unify_spec_iff; [|exact Hz]. intros theta _. rewrite He, solves_cons, solves_nil. tauto.
  - apply zip_in_range; by apply children_in_range.
Qed.

Lemma swap_spec t a b t' o : unify_spec t [(a, b)] t' o -> unify_spec t [(b, a)] t' o.
Proof. apply unify_spec_iff. intros theta _. rewrite !solves_cons. naive_solver. Qed.

Lemma unify_zip_one (f : T -> Ty -> Ty -> option (T * unify_outcome)) t a b :
  unify_zip f t [(a, b)] = f t a b.
Proof. simpl. destruct (f t a b) as [[t' []]|]; done. Qed.

(** Equal constructors, equal arguments. *)
Ltac inj_iff := split; intros; destruct_and?; [congruence|simplify_eq; auto].

(** The guard on two applications tells whether they can be equal. *)
Lemma app_guard (K : list str -> list Ty -> Ty) pa aa pb ab g :
  (K = Named \/ K = Project) ->
  (negb (path_eqb pa pb) || negb (Nat.eqb (length aa) (length ab)))%bool = g ->
  if g then forall theta, apply theta (K pa aa) <> apply theta (K pb ab)
  else forall theta, solves theta (zip aa ab) <-> apply theta (K pa aa) = apply theta (K pb ab).
Proof.
  intros HK <-. unfold path_eqb. case_bool_decide as Ep; simpl; [destruct (Nat.eqb_spec (length aa) (length ab)) as [El|El]; simpl|].
  - intros theta. rewrite zip_solves by done. destruct HK as [-> | ->]; simpl; inj_iff.
  - intros theta E. apply El. rewrite <- (length_map (apply theta) aa), <- (length_map (apply theta) ab).
    destruct HK as [-> | ->]; simpl in E; congruence.
  - intros theta E. destruct HK as [-> | ->]; simpl in E; congruence.
Qed.

Lemma unify_partial n t a b t' o : table_wf t -> in_range t a -> in_range t b ->
  unify n t a b = Some (t', o) -> unify_spec t [(a, b)] t' o.
Proof.
  revert t a b t' o. induction n as [|n IH]; intros t a b t' o Hwf Ha Hb Hu; [done|].
  cbn [unify] in Hu.
  destruct (shallow_resolve (S n) t a) as [a'|] eqn:Ea; [|done].
  destruct (shallow_resolve (S n) t b) as [b'|] eqn:Eb; [|done]. cbn [mbind option_bind] in Hu.
  apply shallow_some in Ea; [|done..]. apply shallow_some in Eb; [|done..].
  pose proof (sh_in_range t a Hwf Ha) as Hra. pose proof (sh_in_range t b Hwf Hb) as Hrb.
  pose proof (fun v => sh_var t a v Hwf Ha) as Hva. pose proof (fun v => sh_var t b v Hwf Hb) as Hvb.
  apply (unify_spec_iff t [(a', b')]).
  { intros theta Hm. rewrite !solves_cons, Ea, Eb, !(apply_sh theta t) by done. done. }
  rewrite <- Ea in Hra, Hva. rewrite <- Eb in Hrb, Hvb. clear Ea Eb a b Ha Hb.
  destruct a' as [pa aa|pa aa|ea ra|ea|aa ra|i|va], b' as [pb ab|pb ab|eb rb|eb|ab rb|j|vb];
    simplify_eq; try (by apply clash_spec);
    try (destruct (Hva _ eq_refl) as (? & ? & ?); by apply (unify_bind_spec n));
    try (destruct (Hvb _ eq_refl) as (? & ? & ?); by apply swap_spec, (unify_bind_spec n)).
  - destruct (_ || _)%bool eqn:G; simplify_eq; [apply clash_spec; [done|]|apply (congr_spec (unify n)); try done];
      exact (app_guard Named _ _ _ _ _ (or_introl eq_refl) G).
  - destruct (_ || _)%bool eqn:G; simplify_eq; [apply clash_spec; [done|]|apply (congr_spec (unify n)); try done];
      exact (app_guard Project _ _ _ _ _ (or_intror eq_refl) G).
  - destruct (N.eqb_spec ra rb); simplify_eq; simpl in Hu; simplify_eq.
    + apply (congr_spec (unify n)); [done..| |by rewrite <- Hu; apply (unify_zip_one (unify n))].
      intros theta. simpl. rewrite solves_cons, solves_nil. inj_iff.
    + apply clash_spec; [done|]. simpl. congruence.
  - destruct (Nat.eqb_spec (length ea) (length eb)) as [El|El]; simplify_eq; simpl in Hu; simplify_eq.
    + apply (congr_spec (unify n)); [done..| |done]. intros theta. simpl. rewrite zip_solves by done. inj_iff.
    + apply clash_spec; [done|]. simpl. intros theta E. simplify_eq. apply El.
      by rewrite <- (length_map (apply theta) ea), E, length_map.
  - apply (congr_spec (unify n)); [done..| |done].
    intros theta. simpl. rewrite !solves_cons, solves_nil. inj_iff.
  - destruct (N.eqb_spec i j); simplify_eq; [|by apply clash_spec; [|simpl; congruence]].
    split; [by apply progress_refl|]. intros theta. rewrite solves_cons, solves_nil. naive_solver.
  - destruct (Hva _ eq_refl) as (? & ? & ?), (Hvb _ eq_refl) as (? & ? & ?).
    destruct (union_progress t va vb) as (u & Hun & Hp & Hm); [done..|]. rewrite Hun in Hu. simplify_eq.
    split; [done|]. intros theta. rewrite Hm, solves_cons, solves_nil. simpl. tauto.
Qed.

(** ** [unify] terminates *)

Lemma unify_zip_total N t (l : list Ty) :
  (* every call the loop can make returns *)
  (forall u x y, x ∈ l -> table_wf u -> in_range u x -> in_range u y ->
     ut_len u = ut_len t -> length (open_roots u) < N \/ ut_equiv t u -> exists n r, unify n u x y = Some r) ->
  forall (eqs : list (Ty * Ty)) u, (forall x y, (x, y) ∈ eqs -> x ∈ l) ->
    table_wf u -> eqs_in_range u eqs -> ut_len u = ut_len t ->
    length (open_roots u) < N \/ ut_equiv t u -> N = length (open_roots t) ->
    exists n r, unify_zip (unify n) u eqs = Some r.
Proof.
  intros Hcall. induction eqs as [|[x y] eqs IH]; intros u Hl Hwf Hr Hlen Hstate HN; [by exists 0, (u, UOk)|].
  unfold eqs_in_range in Hr. rewrite Forall_cons in Hr. destruct Hr as [[Hx Hy] Hr].
  destruct (Hcall u x y) as (n1 & [u1 o] & E1); [by eapply Hl; left|done..|].
  destruct o; [|exists n1; eexists; simpl; rewrite E1; reflexivity..].
  destruct (unify_partial n1 u x y u1 UOk Hwf Hx Hy E1) as [(Hwf1 & Hl1 & Hpr) _].
  destruct (IH u1) as (n2 & r & E2).
  - intros x' y' Hin. eapply Hl. right. exact Hin.
  - done.
  - eapply Forall_impl; [exact Hr|]. intros [x' y'] [? ?]. split; apply (in_range_len u); done.
  - congruence.
  - subst N. destruct Hpr as [Hlt|He].
    + left. destruct Hstate as [?|He']; [lia|]. by rewrite (equiv_open_roots _ _ He').
    + destruct Hstate as [?|He']; [left; by rewrite <- (equiv_open_roots _ _ He)|].
      right. by eapply equiv_trans.
  - done.
  - exists (n1 + n2), r. simpl. rewrite (unify_mono n1 (n1 + n2) u x y _ ltac:(lia) E1). simpl.
    eapply unify_zip_mono; [|exact E2]. intros u' a b r' Hu. eapply unify_mono; [|exact Hu]. lia.
Qed.

(** With resolved operands, [unify] is its loop over the children, or a few
    table operations. *)
Lemma unify_step_total m t a b a' b' :
  shallow_resolve (S m) t a = Some a' -> shallow_resolve (S m) t b = Some b' ->
  (exists r, unify_zip (unify m) t (zip (ty_children a') (ty_children b')) = Some r) ->
  (forall v, a' = Var v -> exists c, occurs m t v b' = Some c) ->
  (forall v, b' = Var v -> exists c, occurs m t v a' = Some c) ->
  exists r, unify (S m) t a b = Some r.
Proof.
  intros Ea Eb Hz Ha Hb. cbn [unify]. rewrite Ea, Eb. cbn [mbind option_bind].
  assert (Hbind : forall v term, (exists c, occurs m t v term = Some c) -> exists r, unify_bind m t v term = Some r).
  { intros v term [c Hc]. unfold unify_bind. rewrite Hc. simpl. destruct c, (ut_bind t v term); eauto. }
  destruct a' as [pa aa|pa aa|ea ra|ea|aa ra|i|va], b' as [pb ab|pb ab|eb rb|eb|ab rb|j|vb];
    simpl ty_children in Hz; eauto;
    try (destruct (_ || _)%bool; eauto); try (destruct (negb _); eauto).
  - destruct Hz as [r Hz]. exists r. rewrite <- Hz. symmetry. apply (unify_zip_one (unify m)).
  - destruct (N.eqb i j); eauto.
  - destruct (ut_union t va vb); eauto.
Qed.

Lemma unify_total_at N t :
  (forall u a b, length (open_roots u) < N -> table_wf u -> in_range u a -> in_range u b ->
     exists n r, unify n u a b = Some r) ->
  length (open_roots t) = N -> table_wf t ->
  forall a, in_range t a -> forall u b, ut_equiv t u -> in_range t b -> exists n r, unify n u a b = Some r.
Proof.
  intros Hless HN Hwf. refine (resolution_ind t _ Hwf _). intros a Ha IH u b He Hb.
  pose proof He as [Hlen _]. destruct (equiv_progress t u Hwf He) as (Hwfu & _ & _).
  assert (Hau : in_range u a) by by apply (in_range_len t).
  assert (Hbu : in_range u b) by by apply (in_range_len t).
  pose proof (sh_in_range u a Hwfu Hau) as Hsa. pose proof (sh_in_range u b Hwfu Hbu) as Hsb.
  destruct (unify_zip_total N t (ty_children (sh t a))) with (eqs := zip (ty_children (sh u a)) (ty_children (sh u b)))
    (u := u) as (n & r & Hz); try done.
  { intros w x y Hx Hwfw Hxw Hyw Hlw [Hlt|Hew]; [by apply Hless|].
    apply IH; [done..|by apply (in_range_len w)]. }
  { intros x y Hin. rewrite <- (equiv_sh t u) by done. by apply elem_of_zip_l in Hin. }
  { apply zip_in_range; by apply children_in_range. }
  { by right. }
  assert (Hocc : forall c d, in_range u d -> exists k, forall v, c = Var v -> exists z, occurs k u v d = Some z).
  { intros c d Hd. destruct c; try (exists 0; done). destruct (occurs_total u v d Hwfu Hd) as (k & z & Hk).
    exists k. intros ? [= <-]. eauto. }
  destruct (Hocc (sh u a) (sh u b) Hsb) as [ka Hka]. destruct (Hocc (sh u b) (sh u a) Hsa) as [kb Hkb].
  set (m := S (n + ka + kb)). exists (S m).
  eapply unify_step_total; try (by apply shallow_total).
  - exists r. eapply unify_zip_mono; [|exact Hz]. intros. eapply unify_mono; [|done]. lia.
  - intros v Ev. destruct (Hka v Ev) as [z Hzk]. exists z. eapply occurs_mono; [|done]. lia.
  - intros v Ev. destruct (Hkb v Ev) as [z Hzk]. exists z. eapply occurs_mono; [|done]. lia.
Qed.

Lemma unify_total t a b : table_wf t -> in_range t a -> in_range t b -> exists n r, unify n t a b = Some r.
Proof.
  remember (length (open_roots t)) as N eqn:HN. revert t a b HN.
  induction (lt_wf N) as [N _ IH]. intros t a b HN Hwf Ha Hb.
  eapply unify_total_at; try done. intros u a' b' Hlt. by eapply IH.
Qed.

(** ** Resolution computes the most general solution *)

Lemma rebuild_children f r r' : rebuild f r = Some r' ->
  exists k, mapM f (ty_children r) = Some k
    /\ (forall theta theta', (forall v, theta v = theta' v \/ r <> Var v) ->
          map (apply theta') k = map (apply theta) (ty_children r) -> apply theta' r' = apply theta r)
    /\ ((exists v, r = Var v /\ r' = r) \/ ty_vars r' = concat (map ty_vars k)).
Proof.
  destruct r as [p args|p args|elem rank|elems|arg ret|i|v]; simpl; intros Hk.
  - destruct (mapM f args) as [k|]; simplify_eq/=. exists k. split_and!; [done|congruence|by right].
  - destruct (mapM f args) as [k|]; simplify_eq/=. exists k. split_and!; [done|congruence|by right].
  - destruct (f elem) as [k|]; simplify_eq/=. exists [k]. simpl. rewrite app_nil_r.
    split_and!; [done|congruence|by right].
  - destruct (mapM f elems) as [k|]; simplify_eq/=. exists k. split_and!; [done|congruence|by right].
  - destruct (f arg) as [k1|]; simplify_eq/=. destruct (f ret) as [k2|]; simplify_eq/=.
    exists [k1; k2]. simpl. rewrite app_nil_r. split_and!; [done|congruence|by right].
  - simplify_eq. exists []. split_and!; [done..|by right].
  - simplify_eq. exists []. split_and!; [done| |left; eauto]. intros theta theta' Hv _.
    destruct (Hv v); [done|congruence].
Qed.

(** The resolved term is equal to the original in every solution, and mentions
    unbound class representatives only. *)
Lemma resolve_sound n t ty r : table_wf t -> in_range t ty -> resolve n t ty = Some r ->
  (forall theta, models theta t -> apply theta r = apply theta ty)
  /\ Forall (fun v => v ∈ open_roots t) (ty_vars r).
Proof.
  intros Hwf. revert ty r. induction n as [|n IH]; intros ty r Hr Hres; [done|].
  rewrite resolve_S in Hres. destruct (shallow_resolve (S n) t ty) as [s|] eqn:Es; [|done].
  apply shallow_some in Es as ->; [|done..]. cbn [mbind option_bind] in Hres.
  pose proof (children_in_range t _ (sh_in_range t ty Hwf Hr)) as Hc.
  assert (HL : forall l k, Forall (in_range t) l -> mapM (resolve n t) l = Some k ->
    (forall theta, models theta t -> map (apply theta) k = map (apply theta) l)
    /\ Forall (fun v => v ∈ open_roots t) (concat (map ty_vars k))).
  { intros l k Hl Hk%mapM_Some. induction Hk as [|x y l k Hx Hk IHk]; [done|]. simpl.
    inversion Hl; subst. destruct (IH x y) as [E1 E2]; [done..|]. destruct IHk as [E3 E4]; [done|]. split.
    - intros theta Hm. rewrite E1, E3 by done. done.
    - by apply Forall_app. }
  destruct (rebuild_children _ _ _ Hres) as (k & Hk & Happ & Hvars).
  destruct (HL _ _ Hc Hk) as [H1 H2]. split.
  - intros theta Hm. rewrite (Happ theta) by auto. by apply apply_sh.
  - destruct Hvars as [(v & Ev & ->)| ->]; [|done]. rewrite Ev. simpl. apply Forall_singleton, elem_of_open_roots.
    by eapply sh_var.
Qed.

Lemma sh_idem t ty : table_wf t -> in_range t ty -> sh t (sh t ty) = sh t ty.
Proof.
  intros Hwf Hr. destruct (sh t ty) as [| | | | | |v] eqn:E; try done.
  destruct (sh_var t ty v Hwf Hr E) as (_ & Hp & Hf). simpl. by rewrite Hp, Hf.
Qed.

Lemma resolve_sh n t ty : table_wf t -> in_range t ty ->
  resolve (S (S n)) t (sh t ty) = resolve (S (S n)) t ty.
Proof.
  intros Hwf Hr. rewrite !resolve_S, !shallow_total; [|done| |done|by apply sh_in_range]; [|done].
  by rewrite sh_idem.
Qed.

(** An assignment that agrees with resolution on the children agrees on the term. *)
Lemma resolve_head theta n t ty r : sh t ty = ty -> (forall v, ty <> Var v) -> in_range t ty ->
  Forall (fun c => in_range t c -> forall n r, resolve n t c = Some r -> apply theta c = r) (ty_children ty) ->
  resolve n t ty = Some r -> apply theta ty = r.
Proof.
  intros Hsh Hn Hr HF Hres. destruct n as [|n]; [done|]. rewrite resolve_S in Hres.
  assert (Es : shallow_resolve (S n) t ty = Some ty) by (destruct ty; try done; by destruct (Hn v)).
  rewrite Es in Hres. destruct (rebuild_children _ _ _ Hres) as (k & Hk & Happ & _).
  rewrite <- (apply_Var r). symmetry. apply Happ; [auto|]. apply mapM_Some in Hk.
  pose proof (children_in_range t ty Hr) as Hc. clear -HF Hk Hc.
  induction Hk as [|x y l k Hx _ IH]; [done|]. simpl. rewrite Forall_cons in HF, Hc.
  destruct HF as [HF1 HF2], Hc. rewrite IH, apply_Var by done. f_equal. symmetry. by eapply HF1.
Qed.

(** Solutions are compared by what they do to terms over the table's variables. *)
Lemma wf_has_model t : table_wf t -> exists theta, models theta t
  /\ forall ty n r, in_range t ty -> resolve n t ty = Some r -> apply theta ty = r.
Proof.
  intros Hwf.
  destruct (mapM_total (fun n v => resolve n t (Var v)) (seq 0 (ut_len t))) as (n & k & Hk).
  { intros. by eapply resolve_mono. }
  { intros v Hv%elem_of_seq. apply resolve_total; [done|]. apply in_range_var. lia. }
  apply mapM_Some in Hk. set (theta := fun v => default (Var v) (resolve n t (Var v))).
  assert (Hth : forall v, v < ut_len t -> resolve n t (Var v) = Some (theta v)).
  { intros v Hv. destruct (Forall2_lookup_l _ _ _ v v Hk) as (r & _ & E); [by apply lookup_seq_lt|].
    unfold theta. by rewrite E. }
  assert (Hres : forall ty, in_range t ty -> forall n' r, resolve n' t ty = Some r -> apply theta ty = r).
  { induction ty using Ty_nested_ind; intros Hr n' r E;
      try (eapply resolve_head; [done|done|done| |exact E]; simpl; repeat constructor; by eauto).
    apply in_range_var in Hr. apply (resolve_mono _ (n + n')) in E; [|lia].
    pose proof (resolve_mono _ (n + n') _ _ _ (Nat.le_add_r n n') (Hth _ Hr)) as E'. simpl. congruence. }
  exists theta. split; [|eauto]. intros v Hv.
  assert (Hr : in_range t (Var v)) by by apply in_range_var.
  symmetry. apply (Hres _ (sh_in_range t (Var v) Hwf Hr) (S (S n))). rewrite resolve_sh by done. eapply resolve_mono; [|by apply Hth]. lia.
Qed.

(** [fresh] keeps the table well formed. *)
Lemma fresh_wf t v t' : table_wf t -> InferTable_fresh t = (v, t') ->
  table_wf t' /\ v = ut_len t /\ ut_len t' = S (ut_len t)
  /\ forall theta, models theta t' <-> models theta t.
Proof.
  intros [Hwf Hacc] Hf. destruct (law_new_key t) as (t'' & E & Hl & Hold & Hfn & Hpn).
  unfold InferTable_fresh in Hf. rewrite E in Hf. simplify_eq.
  assert (Hsh : forall x, x < ut_len t -> sh t' (Var x) = sh t (Var x)).
  { intros x Hx. simpl. by destruct (Hold x Hx) as [-> ->]. }
  assert (Hnew : forall x b, x < ut_len t' -> ut_probe t' x = Some b -> x < ut_len t /\ ut_probe t x = Some b).
  { intros x b Hx Hb. rewrite Hl in Hx. destruct (decide (x = ut_len t)) as [->|]; [congruence|].
    assert (x < ut_len t) by lia. destruct (Hold x) as [_ <-]; done. }
  assert (Hrange : forall x b w, x < ut_len t -> ut_probe t x = Some b -> w ∈ ty_vars b -> w < ut_len t).
  { intros x b w Hx Hb. destruct (Hwf x b Hx Hb) as [Hr _]. unfold in_range in Hr.
    rewrite Forall_forall in Hr. auto. }
  assert (Hold' : forall x, x < ut_len t -> Acc (dep t') x).
  { intros x Hx. induction (Hacc x Hx) as [x _ IH]. constructor. intros w (b & Hx' & Hb & Hw).
    destruct (Hnew x b Hx' Hb) as [? Hb']. apply IH; [by exists b|by eapply Hrange]. }
  split_and!; [|done..|].
  - split.
    + intros x b Hx Hb. destruct (Hnew x b Hx Hb) as [Hxo Hbo]. split; [|by eapply Hwf].
      apply Forall_forall. intros w Hw. rewrite Hl. specialize (Hrange x b w Hxo Hbo Hw). lia.
    + intros x Hx. destruct (decide (x = ut_len t)) as [->|]; [|apply Hold'; lia].
      constructor. intros w (b & Hx' & Hb & Hw). congruence.
  - intros theta. unfold models. rewrite Hl. split; intros Hm x Hx.
    + rewrite <- Hsh by done. apply Hm. lia.
    + destruct (decide (x = ut_len t)) as [->|]; [simpl; by rewrite Hpn, Hfn|].
      rewrite Hsh by lia. apply Hm. lia.
Qed.

Lemma new_wf : table_wf ut_new.
Proof. split; intros v; rewrite law_new; lia. Qed.

(** [unify] only merges and binds. *)
Lemma unify_zip_after f t0 t xys t' o : (forall t x y t' o, ut_after t0 t -> f t x y = Some (t', o) -> ut_after t0 t') ->
  ut_after t0 t -> unify_zip f t xys = Some (t', o) -> ut_after t0 t'.
Proof.
  intros Hf. revert t. induction xys as [|[x y] xys IH]; intros t Ht; simpl; [by intros [= <- _]|].
  destruct (f t x y) as [[t1 o1]|] eqn:E; [|done]. simpl. apply Hf in E; [|done]. destruct o1; [by apply IH|by intros [= <- _]..].
Qed.

Lemma unify_bind_after n t0 t v term t' o : ut_after t0 t -> unify_bind n t v term = Some (t', o) -> ut_after t0 t'.
Proof.
  intros Ht. unfold unify_bind. destruct (occurs n t v term) as [[]|]; [by intros [= <- _]| |done]. simpl.
  destruct (ut_bind t v term) eqn:E; intros [= <- _]; [by eapply after_bind|done].
Qed.

Lemma unify_after n t0 t a b t' o : ut_after t0 t -> unify n t a b = Some (t', o) -> ut_after t0 t'.
Proof.
  revert t a b t' o. induction n as [|n IH]; intros t a b t' o Ht; [done|]. cbn [unify].
  destruct (shallow_resolve _ t a) as [a'|]; [|done]. destruct (shallow_resolve _ t b) as [b'|]; [|done]. cbn [mbind option_bind].
  assert (Hzip : forall xys, unify_zip (unify n) t xys = Some (t', o) -> ut_after t0 t')
    by (intros xys; apply unify_zip_after; [by intros; eapply IH|done]).
  destruct a', b'; try (by intros [= <- _]); try (by apply unify_bind_after); try (by apply Hzip);
    repeat match goal with |- (if ?c then _ else _) = _ -> _ => destruct c end; try (by intros [= <- _]); try (by apply Hzip); try (by apply IH).
  destruct (ut_union _ _ _) eqn:E; intros [= <- _]; [by eapply after_union|done].
Qed.

(** [unify_atomic]: a failed attempt leaves a table no client can tell from
    the one before it. *)
Lemma unify_atomic_spec n t a b t' o : table_wf t -> in_range t a -> in_range t b ->
  unify_atomic n t a b = Some (t', o) ->
  unify_spec t [(a, b)] t' o /\ (o <> UOk -> ut_equiv t t').
Proof.
  intros Hwf Ha Hb. unfold unify_atomic, InferTable_probe. destruct (ut_snapshot t) as [t1 s] eqn:Es.
  pose proof (law_snapshot _ _ _ Es) as He. pose proof (equiv_progress t t1 Hwf He) as Hp1.
  pose proof Hp1 as (Hwf1 & Hl1 & _).
  destruct (unify n t1 a b) as [[t2 o2]|] eqn:E; [|done]. simpl.
  pose proof (unify_after n t1 t1 a b t2 o2 (after_refl t1) E) as Hafter.
  destruct (unify_partial n t1 a b t2 o2) as [Hp Ho]; [done|by apply (in_range_len t)..|done|].
  destruct o2 as [|e|]; [| |done]; intros [= <- <-].
  - pose proof (law_commit t t1 t2 s Es Hafter) as Hc. split; [|done]. split.
    + eapply progress_trans; [exact Hp1|]. eapply progress_trans; [exact Hp|].
      apply equiv_progress; [by apply Hp|done].
    + intros theta. rewrite (equiv_models theta _ _ Hc), Ho, (equiv_models theta _ _ He). done.
  - pose proof (law_rollback t t1 t2 s Es Hafter) as Hr. split; [|done]. split; [by apply equiv_progress|].
    intros theta Hm. apply Ho. by apply (equiv_models theta _ _ He).
Qed.

Lemma unify_atomic_total t a b : table_wf t -> in_range t a -> in_range t b ->
  exists n r, forall m, n <= m -> unify_atomic m t a b = Some r.
Proof.
  intros Hwf Ha Hb. unfold unify_atomic, InferTable_probe. destruct (ut_snapshot t) as [t1 s] eqn:Es.
  pose proof (law_snapshot _ _ _ Es) as He. destruct (equiv_progress t t1 Hwf He) as (Hwf1 & Hl1 & _).
  destruct (unify_total t1 a b) as (n & [t2 o] & Hu); [done|by apply (in_range_len t)..|].
  exists n. destruct o; eexists; intros m Hm; rewrite (unify_mono n m _ _ _ _ Hm Hu); reflexivity.
Qed.

(** The tables inference can build. *)
Inductive reachable : T -> Prop :=
| reach_new : reachable ut_new
| reach_fresh t v t' : reachable t -> InferTable_fresh t = (v, t') -> reachable t'
| reach_unify n t a b t' o : reachable t -> in_range t a -> in_range t b ->
    unify n t a b = Some (t', o) -> reachable t'
| reach_unify_atomic n t a b t' o : reachable t -> in_range t a -> in_range t b ->
    unify_atomic n t a b = Some (t', o) -> reachable t'.

Lemma reachable_table_wf t : reachable t -> table_wf t.
Proof.
  induction 1 as [|t v t' _ IH Hf|n t a b t' o _ IH Ha Hb Hu|n t a b t' o _ IH Ha Hb Hu].
  - apply new_wf.
  - by eapply fresh_wf.
  - by eapply unify_partial in Hu as [(? & _) _].
  - by eapply unify_atomic_spec in Hu as [[(? & _) _] _].
Qed.

(** C5: from every well-formed table, [unify] returns (with enough fuel, and
    then always the same answer), never panics, keeps the table well formed,
    succeeds exactly when some solution of the table makes the two types equal,
    and on success the new table's solutions are precisely those: it is a most
    general unifier. *)
Theorem unify_most_general t a b : table_wf t -> in_range t a -> in_range t b ->
  exists n t' o, (forall m, n <= m -> unify m t a b = Some (t', o))
    /\ table_wf t' /\ ut_len t' = ut_len t /\ o <> UPanic
    /\ (o = UOk <-> exists theta, models theta t /\ apply theta a = apply theta b)
    /\ (o = UOk -> forall theta, models theta t' <-> models theta t /\ apply theta a = apply theta b).
Proof.
  intros Hwf Ha Hb. destruct (unify_total t a b Hwf Ha Hb) as (n & [t' o] & Hu).
  destruct (unify_partial n t a b t' o Hwf Ha Hb Hu) as [(Hwf' & Hl & _) Ho].
  exists n, t', o. split; [intros m Hm; by eapply unify_mono|]. split_and!; [done..|by destruct o| |].
  - destruct o as [|e|]; simpl in Ho; [|split; [done|]; intros (theta & Hm & E)|done].
    + destruct (wf_has_model t' Hwf') as (theta & Hm & _). split; [intros _|done]. exists theta.
      apply Ho in Hm. rewrite solves_cons in Hm. tauto.
    + exfalso. apply (Ho theta Hm). by rewrite solves_cons, solves_nil.
  - intros -> theta. rewrite Ho, solves_cons, solves_nil. tauto.
Qed.

(** C6: [unify_atomic], the form the constraint solver calls, always returns;
    on [Ok] the table carries the most general solution, on [Err] there is no
    solution and the table is indistinguishable from the one before the call. *)
Theorem unify_atomic_all_or_nothing t a b : table_wf t -> in_range t a -> in_range t b ->
  exists n t' o, (forall m, n <= m -> unify_atomic m t a b = Some (t', o)) /\ table_wf t'
    /\ match o with
       | UOk => forall theta, models theta t' <-> models theta t /\ apply theta a = apply theta b
       | UErr _ => ut_equiv t t' /\ forall theta, models theta t -> apply theta a <> apply theta b
       | UPanic => False
       end.
Proof.
  intros Hwf Ha Hb. destruct (unify_atomic_total t a b Hwf Ha Hb) as (n & [t' o] & Hu).
  destruct (unify_atomic_spec n t a b t' o Hwf Ha Hb (Hu n (le_n n))) as [[(Hwf' & _) Ho] He].
  exists n, t', o. split_and!; [done..|]. destruct o as [|e|]; [| |done].
  - intros theta. rewrite Ho, solves_cons, solves_nil. tauto.
  - split; [by apply He|]. intros theta Hm E. apply (Ho theta Hm). by rewrite solves_cons, solves_nil.
Qed.

(** C8: [resolve] returns on every type over the table; the result equals the
    type in every solution, mentions unbound class representatives only, and
    resolving it again changes nothing. *)
Theorem resolve_normal_form t ty : table_wf t -> in_range t ty ->
  exists n r, (forall m, n <= m -> resolve m t ty = Some r)
    /\ (forall theta, models theta t -> apply theta r = apply theta ty)
    /\ Forall (fun v => ut_probe t v = None /\ ut_find t v = v) (ty_vars r)
    /\ exists k, resolve k t r = Some r.
Proof.
  intros Hwf Hr. destruct (resolve_total t ty Hwf Hr) as (n & r & Hres). exists n, r.
  destruct (resolve_sound n t ty r Hwf Hr Hres) as [Happ Hvars].
  assert (Hrr : in_range t r).
  { eapply Forall_impl; [exact Hvars|]. intros v Hv. by apply elem_of_open_roots in Hv as [? _]. }
  split_and!; [intros m Hm; by eapply resolve_mono|done| |].
  - eapply Forall_impl; [exact Hvars|]. intros v Hv. by apply elem_of_open_roots in Hv as [_ ?].
  - destruct (resolve_total t r Hwf Hrr) as (k & r' & Hk). exists k.
    destruct (wf_has_model t Hwf) as (theta & Hm & Hth).
    rewrite Hk. f_equal. rewrite <- (Hth r k r' Hrr Hk), (Happ theta Hm). by eapply Hth.
Qed.

(** After a successful [unify] the two types resolve to one and the same
    type. *)
Theorem unify_then_resolve n t a b t' : table_wf t -> in_range t a -> in_range t b ->
  unify n t a b = Some (t', UOk) -> exists k r, resolve k t' a = Some r /\ resolve k t' b = Some r.
Proof.
  intros Hwf Ha Hb Hu. destruct (unify_partial n t a b t' UOk Hwf Ha Hb Hu) as [(Hwf' & Hl & _) Ho].
  assert (Ha' : in_range t' a) by by apply (in_range_len t).
  assert (Hb' : in_range t' b) by by apply (in_range_len t).
  destruct (resolve_total t' a Hwf' Ha') as (k1 & r1 & H1).
  destruct (resolve_total t' b Hwf' Hb') as (k2 & r2 & H2).
  destruct (wf_has_model t' Hwf') as (theta & Hm & Hth).
  assert (r1 = r2) as <-.
  { rewrite <- (Hth a k1 r1 Ha' H1), <- (Hth b k2 r2 Hb' H2). apply Ho in Hm as [_ Hm].
    by apply solves_cons in Hm as [? _]. }
  exists (k1 + k2), r1. split; (eapply resolve_mono; [|eassumption]; lia).
Qed.

(** C7: every table inference can build, from the empty one by [fresh],
    [unify] and [unify_atomic] (failures included), is well formed and has a
    solution: no infinite type is ever recorded. *)
Theorem reachable_consistent t : reachable t -> table_wf t /\ exists theta, models theta t.
Proof.
  intros Hr. pose proof (reachable_table_wf t Hr) as Hwf. split; [done|].
  destruct (wf_has_model t Hwf) as (theta & Hm & _). by exists theta.
Qed.
End theory.

(** ** A table, to run the code

    A log of operations, replayed from the newest to the oldest; enough to see
    that the laws can be met and to evaluate the code. *)

Module LogTable.
Inductive op := Key | Union (a b : TyVid) | Bind (v : TyVid) (ty : Ty).

Fixpoint len (l : list op) : nat :=
  match l with [] => 0 | Key :: l' => S (len l') | _ :: l' => len l' end.

Fixpoint find (l : list op) (x : TyVid) : TyVid :=
  match l with
  | [] => x
  | Union a b :: l' =>
      if decide (a < len l' /\ b < len l' /\ find l' x = find l' a) then find l' b else find l' x
  | _ :: l' => find l' x
  end.

Fixpoint probe (l : list op) (x : TyVid) : option Ty :=
  match l with
  | [] => None
  | Key :: l' => if decide (x = len l') then None else probe l' x
  | Union a b :: l' =>
      if decide (a < len l' /\ b < len l' /\ find l' x = find l' a) then probe l' b else probe l' x
  | Bind v ty :: l' => if decide (find l' x = find l' v) then Some ty else probe l' x
  end.

#[global] Instance table : UnificationTable (list op) := {
  ut_new := [];
  ut_len := len;
  ut_new_key l := (len l, Key :: l);
  ut_find := find;
  ut_probe := probe;
  ut_union l a b :=
    if decide (find l a = find l b) then Some l
    else if decide (probe l a = None /\ probe l b = None) then Some (Union a b :: l) else None;
  ut_bind l v ty := if decide (probe l v = None) then Some (Bind v ty :: l) else None;
  ut_snap := list op;
  ut_snapshot l := (l, l);
  ut_commit l _ := l;
  ut_rollback _ s := s }.

Lemma find_range l v : (v < len l -> find l v < len l) /\ (len l <= v -> find l v = v).
Proof.
  revert v. induction l as [|[|a b|w ty] l IH]; intros v; simpl in *; auto.
  - destruct (IH v) as [H1 H2]. split; [|intros; apply H2; lia]. intros Hv.
    destruct (decide (v = len l)) as [->|]; [rewrite H2; lia|]. assert (find l v < len l) by (apply H1; lia). lia.
  - destruct (decide _) as [(Ha & Hb & E)|]; [|apply IH]. split; [intros _; by apply IH|].
    intros Hv. apply (IH v) in Hv as Ev. apply (IH a) in Ha. lia.
Qed.

Lemma find_probe l v : v < len l -> find l (find l v) = find l v /\ probe l (find l v) = probe l v.
Proof.
  revert v. induction l as [|[|a b|w ty] l IH]; intros v Hv; simpl in *; [lia|..].
  - pose proof (proj1 (find_range l v)). pose proof (proj2 (find_range l (len l)) ltac:(lia)) as En.
    destruct (decide (v = len l)) as [->|Hne]; [rewrite En; by rewrite decide_True|].
    rewrite decide_False by (assert (find l v < len l) by (apply (find_range l v); lia); lia).
    apply IH. lia.
  - destruct (decide (a < len l /\ b < len l /\ find l v = find l a)) as [(Ha & Hb & E)|Hn].
    + destruct (IH b Hb) as [-> ->]. destruct (decide _); done.
    + destruct (IH v Hv) as [-> ->]. by rewrite !decide_False.
  - destruct (IH v Hv) as [-> ->]. done.
Qed.

#[global] Instance table_laws : LawfulTable (list op).
Proof.
  constructor; simpl.
  - done.
  - intros t v. apply find_range.
  - intros t v Hv. by apply find_probe.
  - intros t v Hv. by apply find_probe.
  - intros t. exists (Key :: t). split_and!; [done..| |apply (find_range t); lia|simpl; by rewrite decide_True].
    intros v Hv. simpl. by rewrite decide_False by lia.
  - intros t a b _ _ E. rewrite decide_True by done.
    exists t. split; [done|]. split; done.
  - intros t a b Ha Hb E Ea Eb. rewrite decide_False, decide_True by done.
    exists (Union a b :: t), (find t b). split_and!; [done..|by right|]. intros x Hx. simpl. split.
    + destruct (decide (_ /\ _)) as [(_ & _ & Ex)|Hn], (decide (_ \/ _)) as [Ho|Ho]; try done.
      * destruct Ho. by left.
      * destruct Ho as [Ho|Ho]; [destruct Hn|]; done.
    + destruct (decide _) as [(_ & _ & Ex)|Hn]; [|done].
      rewrite Eb. destruct (find_probe t x Hx) as [_ <-]. rewrite Ex.
      destruct (find_probe t a Ha) as [_ ->]. done.
  - intros t v ty Hv E. rewrite decide_True by done. exists (Bind v ty :: t). done.
  - intros t t1 s [= <- <-]. done.
  - done.
  - intros t t1 t2 s [= <- <-]. done.
Qed.

(** Three fresh variables. *)
Definition three : list op := [Key; Key; Key].

Lemma three_reachable : reachable three.
Proof. repeat (eapply (reach_fresh (T:=list op)); [|reflexivity]). constructor. Qed.

Lemma three_wf : table_wf three.
Proof. apply reachable_table_wf, three_reachable. Qed.

Definition int := named (#"System.Int32").
Definition lhs := Fun (Var 0) (Tuple [Var 1; Var 2]).
Definition rhs := Fun (Array (Var 1) 1) (Tuple [int; Var 1]).

Lemma range_ex : in_range three lhs /\ in_range three rhs.
Proof. split; repeat constructor. Qed.

Example unify_ex : exists t', unify 9 three lhs rhs = Some (t', UOk)
  /\ resolve 9 t' (Var 0) = Some (Array int 1) /\ resolve 9 t' (Var 2) = Some int.
Proof. eexists. split; [vm_compute; reflexivity|]. split; vm_compute; reflexivity. Qed.

(** The theorems at work on these variables. *)
Lemma unify_most_general_witness : exists n t' o, (forall m, n <= m -> unify m three lhs rhs = Some (t', o))
  /\ o <> UPanic.
Proof.
  destruct (unify_most_general three lhs rhs three_wf (proj1 range_ex) (proj2 range_ex))
    as (n & t' & o & Hu & _ & _ & Ho & _).
  exists n, t', o. split; assumption.
Defined.

Lemma unify_atomic_all_or_nothing_witness : exists n t' e,
  unify_atomic n three (Var 0) (Array (Var 0) 1) = Some (t', UErr e) /\ ut_equiv three t'.
Proof.
  destruct (unify_atomic_all_or_nothing three (Var 0) (Array (Var 0) 1) three_wf) as (n & t' & o & Hu & _ & Ho);
    [repeat constructor..|].
  specialize (Hu (n + 9) (Nat.le_add_r n 9)).
  assert (E : unify_atomic (n + 9) three (Var 0) (Array (Var 0) 1) = Some (three, UErr Occurs))
    by (rewrite Nat.add_comm; reflexivity).
  rewrite E in Hu. injection Hu as <- <-. exists (n + 9), three, Occurs. split; [exact E|exact (proj1 Ho)].
Defined.

Lemma resolve_normal_form_witness : exists n r, forall m, n <= m -> resolve m three lhs = Some r.
Proof.
  destruct (resolve_normal_form three lhs three_wf (proj1 range_ex)) as (n & r & Hr & _).
  exists n, r. exact Hr.
Defined.

Lemma unify_then_resolve_witness : exists t' k r, unify 9 three lhs rhs = Some (t', UOk)
  /\ resolve k t' lhs = Some r /\ resolve k t' rhs = Some r.
Proof.
  eexists. assert (E : unify 9 three lhs rhs = Some (_, UOk)) by (vm_compute; reflexivity).
  destruct (unify_then_resolve 9 three lhs rhs _ three_wf (proj1 range_ex) (proj2 range_ex) E) as (k & r & Ha & Hb).
  exists k, r. split; [exact E|split; assumption].
Defined.

Lemma reachable_consistent_witness : table_wf three /\ exists theta, models theta three.
Proof. exact (reachable_consistent three three_reachable). Defined.
End LogTable.
