(* ===== verification/MatchReachThm.v ===== *)
(** * What reachability means

    Typed values, patterns with the values of their constants, and the theorems
    about [provably_reachable]: it returns on all patterns; a clause it calls
    reachable is reached by a value of the matched type that no earlier clause
    takes; and on clauses whose constants are spelt canonically it is exact. *)

From stdpp Require Import infinite.
From S2P Require Import Prelude MatchReach.

(** The types of matched values. *)
Inductive ty (U : Type) : Type :=
| TUnit
| TBool
| TConst (k : ConstKind)
| TTuple (ts : list (ty U))
| TUnion (u : U).
Arguments TUnit {U}.
Arguments TBool {U}.
Arguments TConst {U} k.
Arguments TTuple {U} ts.
Arguments TUnion {U} u.

(** The unions of a program, each with the field types of its cases (possibly
    recursive), and the canonical spellings of the constants of each kind. *)
Class Universe (U : Type) := {
  cases : U -> list (list (ty U));
  is_const : ConstKind -> str -> bool }.

(** A value is a constructor applied to values.  A constant is its canonical
    spelling. *)
Inductive Value (U : Type) : Type := V (c : Ctor U) (vs : list (Value U)).
Arguments V {U} c vs.

(** A pattern as it is written: the constructor it tests for, constants included,
    and whether it is spelt canonically. *)
Inductive Pat (U : Type) : Type :=
| PAny
| PCtor (c : Ctor U) (spelt : bool) (ps : list (Pat U)).
Arguments PAny {U}.
Arguments PCtor {U} c spelt ps.

Fixpoint forall2b {A B} (f : A -> B -> bool) (l : list A) (k : list B) : bool :=
  match l, k with
  | [], [] => true
  | x :: l, y :: k => f x y && forall2b f l k
  | _, _ => false
  end.

Section semantics.
Context {U : Type} `{EqDecision U} `{Universe U}.

(** The types of the fields of a constructor of a type. *)
Definition field_types (c : Ctor U) (t : ty U) : option (list (ty U)) :=
  match c, t with
  | Unit, TUnit => Some []
  | Bool _, TBool => Some []
  | Const k (Some s), TConst k' => if bool_decide (k = k') && is_const k s then Some [] else None
  | Tuple n, TTuple ts => if Nat.eqb n (length ts) then Some ts else None
  | Case u i siblings, TUnion u' =>
      if bool_decide (u = u') && Nat.eqb siblings (length (cases u)) then cases u !! i else None
  | _, _ => None
  end.

Fixpoint has_type (v : Value U) (t : ty U) : bool :=
  match v with
  | V c vs => match field_types c t with Some ts => forall2b has_type vs ts | None => false end
  end.

Fixpoint well_typed (p : Pat U) (t : ty U) : bool :=
  match p with
  | PAny => true
  | PCtor c _ ps => match field_types c t with Some ts => forall2b well_typed ps ts | None => false end
  end.

Fixpoint matches (p : Pat U) (v : Value U) : bool :=
  match p, v with
  | PAny, _ => true
  | PCtor c _ ps, V d vs => bool_decide (c = d) && forall2b matches ps vs
  end.

(** What the check sees of a pattern. *)
Definition lower_ctor (spelt : bool) (c : Ctor U) : Ctor U :=
  match c with Const k _ => if spelt then c else Const k None | _ => c end.
Fixpoint lower_pat (p : Pat U) : ClausePat U :=
  match p with PAny => Any | PCtor c spelt ps => CtorPat (lower_ctor spelt c) (map lower_pat ps) end.

Fixpoint canonical (p : Pat U) : bool :=
  match p with PAny => true | PCtor _ spelt ps => spelt && forallb canonical ps end.

(** Every case has a value, and every kind of constants has more values than
    there are clauses: what makes a column that is not exhausted have a value. *)
Definition cases_inhabited : Prop :=
  forall u, cases u <> [] /\ forall ts, ts ∈ cases u -> exists vs, forall2b has_type vs ts = true.
Definition kinds_open (n : nat) : Prop :=
  forall k (l : list str), length l <= n -> exists s, is_const k s = true /\ s ∉ l.

Definition row_typed (row : list (Pat U)) (ts : list (ty U)) : bool := forall2b well_typed row ts.
Definition row_matches (row : list (Pat U)) (vs : list (Value U)) : bool := forall2b matches row vs.

(** The specialisation of rows by a constructor, on patterns. *)
Definition spec_row (c : Ctor U) (arity : nat) (row : list (Pat U)) : option (list (Pat U)) :=
  match row with
  | [] => None
  | PAny :: rest => Some (repeat PAny arity ++ rest)
  | PCtor d spelt ps :: rest => if may_equal c (lower_ctor spelt d) then Some (ps ++ rest) else None
  end.
Definition default_row (row : list (Pat U)) : option (list (Pat U)) :=
  match row with PAny :: rest => Some rest | _ => None end.
End semantics.

Section forall2b.
Context {A B : Type} (f : A -> B -> bool).

Lemma forall2b_length l k : forall2b f l k = true -> length l = length k.
Proof. revert k. induction l as [|x l IH]; intros [|y k]; simpl; try done. intros [_ E%IH]%andb_true_iff. by rewrite E. Qed.

Lemma forall2b_app l l' k k' : length l = length k -> forall2b f (l ++ l') (k ++ k') = (forall2b f l k && forall2b f l' k')%bool.
Proof.
  revert k. induction l as [|x l IH]; intros [|y k]; simpl; try done. intros [= E]. rewrite IH by done. by rewrite andb_assoc.
Qed.

Lemma forall2b_app_inv l l' k : forall2b f (l ++ l') k = true ->
  exists k1 k2, k = k1 ++ k2 /\ forall2b f l k1 = true /\ forall2b f l' k2 = true.
Proof.
  revert k. induction l as [|x l IH]; intros k; simpl; [by exists [], k|]. destruct k as [|y k]; [done|].
  intros [Hx (k1 & k2 & -> & H1 & H2)%IH]%andb_true_iff. exists (y :: k1), k2. simpl. by rewrite Hx, H1.
Qed.

Lemma forall2b_app_inv_r l k k' : forall2b f l (k ++ k') = true ->
  exists l1 l2, l = l1 ++ l2 /\ forall2b f l1 k = true /\ forall2b f l2 k' = true.
Proof.
  revert l. induction k as [|y k IH]; intros l; simpl; [by exists [], l|]. destruct l as [|x l]; [done|]. simpl.
  intros [Hx (l1 & l2 & -> & H1 & H2)%IH]%andb_true_iff. exists (x :: l1), l2. simpl. by rewrite Hx, H1.
Qed.

Lemma forall2b_repeat x n k : (forall y, f x y = true) -> length k = n -> forall2b f (repeat x n) k = true.
Proof. intros Hx <-. induction k as [|y k IH]; simpl; [done|]. by rewrite Hx. Qed.
End forall2b.

Section proofs.
Context {U : Type} `{EqDecision U} `{Universe U}.
Implicit Types (rows : list (list (Pat U))) (sigma : list (Ctor U * nat)) (row qs : list (Pat U)) (c d : Ctor U) (t : ty U) (ts fts : list (ty U)).

(** ** Constructors *)

(** The constructors of a type, with their fields. *)
Inductive ctor_of : Ctor U -> ty U -> list (ty U) -> Prop :=
| of_unit : ctor_of Unit TUnit []
| of_bool b : ctor_of (Bool b) TBool []
| of_const k s : is_const k s = true -> ctor_of (Const k (Some s)) (TConst k) []
| of_tuple us : ctor_of (Tuple (length us)) (TTuple us) us
| of_case u i us : cases u !! i = Some us -> ctor_of (Case u i (length (cases u))) (TUnion u) us.

Lemma field_types_of c t fts : field_types c t = Some fts <-> ctor_of c t fts.
Proof.
  split.
  - destruct c as [|n|u i n|b|k [s|]], t; simpl; try done; intros E; simplify_eq; try constructor.
    + destruct (Nat.eqb_spec n (length ts)) as [->|]; [|done]. simplify_eq. constructor.
    + destruct (_ && _)%bool eqn:Eb; [|done]. bool_hyps. apply bool_decide_eq_true in H0 as ->. apply Nat.eqb_eq in H1 as ->. by constructor.
    + destruct (_ && _)%bool eqn:Eb; [|done]. bool_hyps. apply bool_decide_eq_true in H0 as ->. simplify_eq. by constructor.
  - destruct 1; simpl; rewrite ?bool_decide_true, ?Nat.eqb_refl by done; simpl; by rewrite ?H0.
Qed.

Lemma same_type_of c d t fts us b b' : ctor_of c t fts -> ctor_of d t us -> same_type (lower_ctor b c) (lower_ctor b' d) = true.
Proof.
  destruct 1; inversion 1; subst; destruct b, b'; simpl; rewrite ?bool_decide_true, ?Nat.eqb_refl by done; done.
Qed.

Lemma may_equal_refl c t fts b b' : ctor_of c t fts -> may_equal (lower_ctor b c) (lower_ctor b' c) = true.
Proof. destruct 1 as [|[]| | |], b, b'; simpl; rewrite ?Nat.eqb_refl; try done. by apply str_eqb_eq. Qed.

Lemma may_equal_fields c d t fts us b b' : ctor_of c t fts -> ctor_of d t us ->
  may_equal (lower_ctor b c) (lower_ctor b' d) = true -> us = fts.
Proof. destruct 1; inversion 1; subst; try done. simpl. intros ->%Nat.eqb_eq. congruence. Qed.

Lemma may_equal_eq c d t fts us : ctor_of c t fts -> ctor_of d t us -> may_equal c d = true -> c = d.
Proof.
  destruct 1; inversion 1; subst; simpl; try done.
  - by intros ->%eqb_prop.
  - by intros ->%str_eqb_eq.
  - by intros ->%Nat.eqb_eq.
Qed.

Lemma has_type_of c vs t : has_type (V c vs) t = true <-> exists fts, ctor_of c t fts /\ forall2b has_type vs fts = true.
Proof.
  cbn [has_type]. split.
  - destruct (field_types c t) as [fts|] eqn:E; [|done]. intros Hv. exists fts. by rewrite <-field_types_of.
  - intros (fts & E%field_types_of & Hv). by rewrite E.
Qed.

Lemma well_typed_of c spelt ps t : well_typed (PCtor c spelt ps) t = true <-> exists fts, ctor_of c t fts /\ row_typed ps fts = true.
Proof.
  cbn [well_typed]. split.
  - destruct (field_types c t) as [fts|] eqn:E; [|done]. intros Hv. exists fts. by rewrite <-field_types_of.
  - intros (fts & E%field_types_of & Hv). by rewrite E.
Qed.

Lemma matches_of c spelt ps d vs : matches (PCtor c spelt ps) (V d vs) = true <-> c = d /\ row_matches ps vs = true.
Proof. cbn [matches]. by rewrite andb_true_iff, bool_decide_eq_true. Qed.

(** ** Specialisation *)

Lemma row_typed_any n ts : length ts = n -> row_typed (repeat PAny n) ts = true.
Proof. by apply forall2b_repeat. Qed.

Lemma map_lower_any n : map lower_pat (repeat (PAny (U:=U)) n) = repeat Any n.
Proof. apply map_repeat. Qed.

Lemma row_typed_cons p row t ts : row_typed (p :: row) (t :: ts) = true <-> well_typed p t = true /\ row_typed row ts = true.
Proof. unfold row_typed. cbn [forall2b]. apply andb_true_iff. Qed.

Lemma row_typed_nonempty row t ts : row_typed row (t :: ts) = true -> exists p row', row = p :: row' /\ well_typed p t = true /\ row_typed row' ts = true.
Proof. destruct row as [|p row]; [done|]. intros [Hp Hr]%row_typed_cons. by exists p, row. Qed.

Lemma row_typed_app row row' ts us : row_typed row ts = true -> row_typed row' us = true -> row_typed (row ++ row') (ts ++ us) = true.
Proof. unfold row_typed. intros Hr Hr'. rewrite forall2b_app by (by eapply forall2b_length). by rewrite Hr, Hr'. Qed.

Section specialise.
Context (c : Ctor U) (b : bool) (t : ty U) (ts fts : list (ty U)) (Hc : ctor_of c t fts).
Local Notation spec := (spec_row (lower_ctor b c) (length fts)).

Lemma specialise_lower rows : Forall (fun row => row_typed row (t :: ts) = true) rows ->
  specialise (map (map lower_pat) rows) (lower_ctor b c) (length fts) = Some (Some (map (map lower_pat) (omap spec rows))).
Proof using Hc.
  induction 1 as [|row rows Hrow _ IH]; [done|]. apply row_typed_nonempty in Hrow as (p & row' & -> & Hp & Hr).
  cbn [map specialise hd_error mbind option_bind tail]. rewrite IH. destruct p as [|d b' ps]; cbn [lower_pat].
  - cbn [mbind option_bind option_map omap list_omap spec_row map]. by rewrite map_app, map_repeat.
  - apply well_typed_of in Hp as (us & Hd & Hps). rewrite (same_type_of c d t fts us) by done. cbn [negb].
    cbn [omap list_omap spec_row]. destruct (may_equal _ _) eqn:E; [|done].
    apply (may_equal_fields c d t fts us) in E as ->; [|done..]. apply forall2b_length in Hps as Hl.
    rewrite length_map, Hl, Nat.eqb_refl. cbn [negb mbind option_bind option_map map]. by rewrite map_app.
Qed.

Lemma spec_row_typed row row' : row_typed row (t :: ts) = true -> spec row = Some row' -> row_typed row' (fts ++ ts) = true.
Proof using Hc.
  intros (p & rest & -> & Hp & Hr)%row_typed_nonempty. destruct p as [|d b' ps]; cbn [spec_row].
  - intros [= <-]. apply row_typed_app; [by apply row_typed_any|done].
  - apply well_typed_of in Hp as (us & Hd & Hps). destruct (may_equal _ _) eqn:E; [|done]. intros [= <-].
    apply (may_equal_fields c d t fts us) in E as ->; [|done..]. by apply row_typed_app.
Qed.

Lemma spec_row_sound row vs ws : row_typed row (t :: ts) = true -> length vs = length fts ->
  row_matches row (V c vs :: ws) = true -> exists row', spec row = Some row' /\ row_matches row' (vs ++ ws) = true.
Proof using Hc.
  intros (p & rest & -> & Hp & Hr)%row_typed_nonempty Hl. unfold row_matches. cbn [forall2b]. intros [Hm Hrest]%andb_true_iff.
  destruct p as [|d b' ps]; cbn [spec_row].
  - eexists. split; [done|]. rewrite forall2b_app by (by rewrite repeat_length). rewrite Hrest, andb_true_r. by apply forall2b_repeat.
  - apply matches_of in Hm as [-> Hm]. rewrite (may_equal_refl c t fts) by done. eexists. split; [done|].
    rewrite forall2b_app by (by eapply forall2b_length). unfold row_matches in Hm. by rewrite Hm, Hrest.
Qed.
End specialise.

Lemma spec_row_exact c t ts fts row row' vs ws : ctor_of c t fts -> row_typed row (t :: ts) = true -> forallb canonical row = true ->
  spec_row c (length fts) row = Some row' -> length vs = length fts ->
  forallb canonical row' = true /\ (row_matches row' (vs ++ ws) = true -> row_matches row (V c vs :: ws) = true).
Proof.
  intros Hc (p & rest & -> & Hp & Hr)%row_typed_nonempty. cbn [forallb]. intros [Hp' Hcan]%andb_true_iff. unfold row_matches.
  destruct p as [|d b' ps]; cbn [spec_row forall2b].
  - intros [= <-] Hl. split.
    + rewrite forallb_app, Hcan, andb_true_r. apply forallb_forall. by intros x ->%repeat_spec.
    + rewrite forall2b_app by (by rewrite repeat_length). by intros [_ ->]%andb_true_iff.
  - cbn [canonical] in Hp'. apply andb_true_iff in Hp' as [-> Hps']. apply well_typed_of in Hp as (us & Hd & Hps).
    assert (lower_ctor true d = d) as -> by (by destruct d). destruct (may_equal c d) eqn:E; [|done]. intros [= <-] Hl.
    apply (may_equal_eq c d t fts us) in E as <-; [|done..]. rewrite forallb_app, Hcan, Hps'. split; [done|].
    assert (us = fts) as -> by (by inversion Hc; inversion Hd; simplify_eq). apply forall2b_length in Hps.
    rewrite forall2b_app by congruence. intros [Hm ->]%andb_true_iff. rewrite andb_true_r. by apply matches_of.
Qed.

(** ** The constructors of a column *)

(** [s] is the lowered head of some row. *)
Definition heads rows t (s : Ctor U * nat) : Prop :=
  exists d b ps rest fts, PCtor d b ps :: rest ∈ rows /\ ctor_of d t fts /\ s = (lower_ctor b d, length fts).

Lemma arity_of_lower d b ps t fts : ctor_of d t fts -> row_typed ps fts = true ->
  arity_of (lower_ctor b d) (map lower_pat ps) = length fts.
Proof. intros Hd Hl%forall2b_length. destruct Hd, b; simpl; by rewrite ?length_map. Qed.

Lemma column_ctors_lower all rows t ts sigma : Forall (fun row => row_typed row (t :: ts) = true) rows ->
  rows ⊆ all -> (forall s, s ∈ sigma -> heads all t s) ->
  exists out, column_ctors (map (map lower_pat) rows) sigma = Some (Some out) /\ sigma ⊆ out
    /\ (forall s, s ∈ out -> heads all t s)
    /\ (forall d b ps rest, PCtor d b ps :: rest ∈ rows -> lower_ctor b d ∈ map fst out).
Proof.
  intros Hrows. revert sigma. induction Hrows as [|row rows Hrow _ IH]; intros sigma Hsub Hs.
  { exists sigma. split_and!; [done..|]. by intros ???? ?%not_elem_of_nil. }
  apply row_typed_nonempty in Hrow as (p & rest & -> & Hp & Hr).
  cbn [map column_ctors hd_error mbind option_bind].
  assert (Hsub' : rows ⊆ all) by set_solver.
  destruct p as [|d b ps]; cbn [lower_pat].
  { destruct (IH sigma Hsub' Hs) as (out & E & Hso & Ho & Hin). exists out. split_and!; [done..|].
    intros d b ps rest' [?|Hd]%elem_of_cons; [done|by eapply Hin]. }
  apply well_typed_of in Hp as (fts & Hd & Hps).
  assert (Hhead : heads all t (lower_ctor b d, length fts)) by (exists d, b, ps, rest, fts; split_and!; [set_solver|done..]).
  assert (existsb (fun s => negb (same_type (fst s) (lower_ctor b d))) (take 1 sigma) = false) as ->.
  { destruct sigma as [|s sigma]; [done|]. cbn [take existsb]. rewrite orb_false_r, negb_false_iff.
    destruct (Hs s) as (d' & b' & ? & ? & us & _ & Hd' & ->); [left|]. cbn [fst]. by eapply same_type_of. }
  rewrite (arity_of_lower d b ps t fts) by done.
  assert (Hstep : forall sigma', sigma ⊆ sigma' -> (forall s, s ∈ sigma' -> heads all t s) -> lower_ctor b d ∈ map fst sigma' ->
    exists out, column_ctors (map (map lower_pat) rows) sigma' = Some (Some out) /\ sigma ⊆ out
      /\ (forall s, s ∈ out -> heads all t s)
      /\ (forall d' b' ps' rest', PCtor d' b' ps' :: rest' ∈ (PCtor d b ps :: rest) :: rows -> lower_ctor b' d' ∈ map fst out)).
  { intros sigma' Hss Hs' Hmem. destruct (IH sigma' Hsub' Hs') as (out & E & Hso & Ho & Hin). exists out. split_and!; [done|set_solver|done|].
    intros d' b' ps' rest' [[= -> -> -> ->]|Hd']%elem_of_cons; [|by eapply Hin].
    apply list_elem_of_In, in_map_iff. apply list_elem_of_In, in_map_iff in Hmem as (s & Es & Hmem). exists s. split; [done|].
    apply list_elem_of_In, Hso. by apply list_elem_of_In. }
  destruct (existsb _ sigma) eqn:Ee; apply Hstep; try done.
  - apply existsb_exists in Ee as (s & Hin & <-%bool_decide_eq_true). by apply list_elem_of_In, in_map.
  - set_solver.
  - intros s [?| ->%list_elem_of_singleton]%elem_of_app; auto.
  - rewrite map_app. apply elem_of_app. right. left.
Qed.

Lemma sigma_typed rows t sigma s : (forall s, s ∈ sigma -> heads rows t s) -> s ∈ sigma ->
  exists d b fts, ctor_of d t fts /\ s = (lower_ctor b d, length fts).
Proof. intros Hs Hin. destruct (Hs s Hin) as (d & b & _ & _ & fts & _ & Hd & ->). by exists d, b, fts. Qed.

(** The constructors of a complete column are those of the type. *)
Lemma complete_covers rows t sigma d fts : (forall s, s ∈ sigma -> heads rows t s) -> complete sigma = true ->
  ctor_of d t fts -> (d, length fts) ∈ sigma.
Proof.
  intros Hs Hcomp Hd. destruct sigma as [|[first a] sigma]; [done|].
  destruct (sigma_typed rows t _ (first, a) Hs) as (e & b & us & He & E); [left|]. injection E as -> ->.
  destruct He as [|b'|k s|us|u i us Hi]; inversion Hd as [|b''| |us'|u' j us' Hj]; subst; cbn [lower_ctor complete] in Hcomp; try (by left).
  - rewrite forallb_forall in Hcomp. specialize (Hcomp b''). rewrite existsb_exists in Hcomp.
    destruct Hcomp as (s & Hin%list_elem_of_In & Eb%bool_decide_eq_true); [destruct b''; simpl; tauto|].
    destruct (sigma_typed rows TBool _ s Hs Hin) as (e & b1 & us & He & ->). inversion He; subst. simpl in *. by rewrite Eb in Hin.
  - by destruct b.
  - rewrite forallb_forall in Hcomp. specialize (Hcomp j). rewrite existsb_exists in Hcomp.
    destruct Hcomp as (s & Hin%list_elem_of_In & Ej); [apply in_seq; apply lookup_lt_Some in Hj; lia|].
    destruct (sigma_typed rows (TUnion u) _ s Hs Hin) as (e & b1 & us1 & He & ->). inversion He as [| | | |u1 j1 us2 Hj1]; subst. simpl in *.
    apply Nat.eqb_eq in Ej as ->. rewrite Hj in Hj1. by injection Hj1 as <-.
Qed.

Section inhabited.
Context (n : nat) (Hcases : cases_inhabited) (Hopen : kinds_open n).

Lemma inhabited_ty : forall t, exists v, has_type v t = true.
Proof using Hcases Hopen.
  fix IH 1. intros [| |k|ts|u].
  - by exists (V Unit []).
  - by exists (V (Bool true) []).
  - clear IH. destruct (Hopen k []) as (s & Hs & _); [simpl; lia|]. exists (V (Const k (Some s)) []). apply has_type_of.
    exists []. split; [by constructor|done].
  - assert (exists vs, forall2b has_type vs ts = true) as [vs Hvs].
    { induction ts as [|t ts [vs Hvs]]; [by exists []|]. destruct (IH t) as [v Hv]. exists (v :: vs). cbn [forall2b]. by rewrite Hv, Hvs. }
    clear IH. exists (V (Tuple (length ts)) vs). apply has_type_of. exists ts. by split; [constructor|].
  - clear IH. destruct (Hcases u) as [Hne Hin]. destruct (cases u) as [|ts us] eqn:E; [done|]. destruct (Hin ts) as [vs Hvs]; [left|].
    exists (V (Case u 0 (length (cases u))) vs). apply has_type_of. exists ts. split; [|done]. constructor. by rewrite E.
Qed.

Definition head_const row : option str := match row with PCtor (Const _ (Some s)) _ _ :: _ => Some s | _ => None end.

Lemma omap_length {A B} (f : A -> option B) l : length (omap f l) <= length l.
Proof. induction l as [|x l IH]; [done|]. change (omap f (x :: l)) with (match f x with Some y => y :: omap f l | None => omap f l end).
  destruct (f x); cbn [length]; lia.
Qed.

(** A column that is not complete has a value that no constructor in it matches. *)
Lemma incomplete_value rows t sigma : length rows <= n -> (forall s, s ∈ sigma -> heads rows t s) -> complete sigma = false ->
  (forall d b ps rest, PCtor d b ps :: rest ∈ rows -> lower_ctor b d ∈ map fst sigma) ->
  exists d fts vs, ctor_of d t fts /\ forall2b has_type vs fts = true /\ forall b ps rest, PCtor d b ps :: rest ∉ rows.
Proof using Hcases Hopen.
  intros Hn Hs Hcomp Hcov. destruct sigma as [|[first a] sigma].
  { destruct (inhabited_ty t) as [[d vs] (fts & Hd & Hvs)%has_type_of]. exists d, fts, vs. split_and!; [done..|].
    intros b ps rest Hin%Hcov. by apply not_elem_of_nil in Hin. }
  destruct (sigma_typed rows t _ (first, a) Hs) as (e & b & us & He & E); [left|]. injection E as -> ->.
  destruct He as [|b'|k s|us|u i us Hi]; cbn [lower_ctor complete] in Hcomp; try done.
  - assert (exists b, Bool b ∉ map fst ((Bool b' : Ctor U, 0) :: sigma)) as [b0 Hb0].
    { apply not_true_iff_false in Hcomp. destruct (decide (Bool true ∈ map fst ((Bool b' : Ctor U, 0) :: sigma))) as [Ht|]; [|by exists true].
      destruct (decide (Bool false ∈ map fst ((Bool b' : Ctor U, 0) :: sigma))) as [Hf|]; [|by exists false].
      destruct Hcomp. apply forallb_forall. intros x _. apply existsb_exists.
      assert (Hx : Bool x ∈ map fst ((Bool b' : Ctor U, 0) :: sigma)) by (by destruct x).
      apply list_elem_of_In, in_map_iff in Hx as (s & Ex & Hin). exists s. split; [done|]. by apply bool_decide_eq_true. }
    exists (Bool b0), [], []. split_and!; [constructor|done|]. by intros b1 ps rest ?%Hcov.
  - destruct (Hopen k (omap head_const rows)) as (s0 & Hk & Hfresh); [pose proof (omap_length head_const rows); lia|].
    exists (Const k (Some s0)), [], []. split_and!; [by constructor|done|]. intros b1 ps rest Hin. apply Hfresh.
    apply list_elem_of_omap. eexists. by split.
  - apply not_true_iff_false in Hcomp. rewrite forallb_forall in Hcomp.
    assert (exists j, j < length (cases u) /\ Case u j (length (cases u)) ∉ map fst ((Case u i (length (cases u)), length us) :: sigma)) as (j & Hj & Hmiss).
    { destruct (decide (Forall (fun j => Case u j (length (cases u)) ∈ map fst ((Case u i (length (cases u)), length us) :: sigma)) (seq 0 (length (cases u))))) as [Hall|Hall].
      - destruct Hcomp. intros j Hj. rewrite Forall_forall in Hall. apply list_elem_of_In, Hall in Hj.
        apply existsb_exists. apply list_elem_of_In, in_map_iff in Hj as (s & Es & Hin). exists s. split; [done|]. rewrite Es. apply Nat.eqb_refl.
      - apply not_Forall_Exists, Exists_exists in Hall as (j & Hj%elem_of_seq & Hmiss); [|apply _]. exists j. split; [lia|done]. }
    destruct (lookup_lt_is_Some_2 (cases u) j Hj) as [us' Hus']. destruct (Hcases u) as [_ Hin].
    destruct (Hin us') as [vs Hvs]; [by eapply list_elem_of_lookup_2|].
    exists (Case u j (length (cases u))), us', vs. split_and!; [by constructor|done|]. by intros b1 ps rest ?%Hcov.
Qed.

(** ** The check is sound *)

Lemma default_rows_lower rows t ts : Forall (fun row => row_typed row (t :: ts) = true) rows ->
  default_rows (map (map lower_pat) rows) = Some (map (map lower_pat) (omap default_row rows))
  /\ Forall (fun row => row_typed row ts = true) (omap default_row rows).
Proof.
  induction 1 as [|row rows Hrow _ [IH IHt]]; [done|]. apply row_typed_nonempty in Hrow as (p & rest & -> & Hp & Hr).
  cbn [map default_rows hd_error mbind option_bind tail]. rewrite IH. destruct p; cbn [lower_pat]; split; try done. by constructor.
Qed.

Lemma spec_rows_typed c b t ts fts rows : ctor_of c t fts -> Forall (fun row => row_typed row (t :: ts) = true) rows ->
  Forall (fun row => row_typed row (fts ++ ts) = true) (omap (spec_row (lower_ctor b c) (length fts)) rows).
Proof.
  intros Hc Hrows. rewrite Forall_forall in *. intros row' (row & Hrow & E)%list_elem_of_omap. eapply spec_row_typed; [done| |done]. by apply Hrows.
Qed.

(** A vector of fields that no specialised row matches, as a value that no row matches. *)
Lemma unmatched_value c b t ts fts rows vs ws : ctor_of c t fts -> Forall (fun row => row_typed row (t :: ts) = true) rows ->
  length vs = length fts ->
  Forall (fun row => row_matches row (vs ++ ws) = false) (omap (spec_row (lower_ctor b c) (length fts)) rows) ->
  Forall (fun row => row_matches row (V c vs :: ws) = false) rows.
Proof.
  intros Hc Hrows Hl Hno. rewrite Forall_forall in *. intros row Hrow. apply not_true_iff_false. intros Hm.
  destruct (spec_row_sound c b t ts fts Hc row vs ws (Hrows row Hrow) Hl Hm) as (row' & E & Hm').
  rewrite Hno in Hm'; [done|]. apply list_elem_of_omap. by exists row.
Qed.

Lemma useful_sound fuel rows qs ts : Forall (fun row => row_typed row ts = true) rows -> row_typed qs ts = true -> length rows <= n ->
  useful fuel (map (map lower_pat) rows) (map lower_pat qs) = Some true ->
  exists vs, forall2b has_type vs ts = true /\ row_matches qs vs = true /\ Forall (fun row => row_matches row vs = false) rows.
Proof using Hcases Hopen.
  revert rows qs ts. induction fuel as [|fuel IH]; intros rows qs ts Hrows Hqs Hn; [done|]. cbn [useful].
  destruct qs as [|p rest]; [|destruct ts as [|t ts]; [done|]].
  { destruct ts; [|done]. intros E. exists []. split_and!; [done..|]. by destruct rows. }
  apply row_typed_cons in Hqs as [Hp Hrest]. cbn [map].
  assert (Hspec : forall c b fts qs', ctor_of c t fts -> row_typed qs' fts = true ->
    useful fuel (map (map lower_pat) (omap (spec_row (lower_ctor b c) (length fts)) rows)) (map lower_pat qs' ++ map lower_pat rest) = Some true ->
    exists vs ws, has_type (V c vs) t = true /\ forall2b has_type ws ts = true /\ row_matches qs' vs = true /\ row_matches rest ws = true
      /\ Forall (fun row => row_matches row (V c vs :: ws) = false) rows).
  { intros c b fts qs' Hc Hqs' E. rewrite <-map_app in E. apply (IH _ _ (fts ++ ts)) in E as (vws & Hty & Hm & Hno).
    - apply forall2b_app_inv_r in Hty as (vs & ws & -> & Hv & Hw). apply forall2b_length in Hv as Hl. apply forall2b_length in Hqs' as Hl'.
      unfold row_matches in Hm. rewrite forall2b_app in Hm by congruence. apply andb_true_iff in Hm as [Hm Hm'].
      exists vs, ws. split_and!; [apply has_type_of; by exists fts|done..|]. by apply (unmatched_value c b t ts fts).
    - by apply spec_rows_typed with t.
    - by apply row_typed_app.
    - pose proof (omap_length (spec_row (lower_ctor b c) (length fts)) rows). lia. }
  destruct p as [|c b ps]; cbn [lower_pat].
  - destruct (column_ctors_lower rows rows t ts []) as (sigma & -> & _ & Hs & Hcov); [done..|by intros ? ?%not_elem_of_nil|].
    cbn [mbind option_bind]. destruct (complete sigma) eqn:Ec.
    + intros ([? ?] & Hin & E)%anyM_true. destruct (Hs _ Hin) as (d & b & ps & rest' & fts & _ & Hd & [= -> ->]). cbn [fst snd] in E.
      rewrite (specialise_lower d b t ts fts Hd rows Hrows) in E. cbn [mbind option_bind] in E.
      rewrite <-map_lower_any in E.
      destruct (Hspec d b fts _ Hd (row_typed_any _ fts eq_refl) E) as (vs & ws & Hv & Hw & _ & Hm & Hno).
      exists (V d vs :: ws). split_and!; [|done..]. cbn [forall2b]. by rewrite Hv, Hw.
    + destruct (default_rows_lower rows t ts Hrows) as [-> Hdef]. cbn [mbind option_bind]. intros E.
      apply (IH _ _ ts) in E as (ws & Hw & Hm & Hno); [|done..|pose proof (omap_length default_row rows); lia].
      destruct (incomplete_value rows t sigma Hn Hs Ec Hcov) as (d & fts & vs & Hd & Hv & Hmiss).
      exists (V d vs :: ws). split_and!; [cbn [forall2b]; rewrite Hw, andb_true_r; apply has_type_of; by exists fts|done|].
      rewrite Forall_forall in *. intros row Hrow. destruct (row_typed_nonempty row t ts (Hrows row Hrow)) as (p & rest' & -> & _ & _).
      unfold row_matches. cbn [forall2b]. destruct p as [|e b ps].
      * apply (Hno rest'). apply list_elem_of_omap. by exists (PAny :: rest').
      * apply andb_false_iff. left. apply not_true_iff_false. intros [-> _]%matches_of. by apply (Hmiss b ps rest').
  - apply well_typed_of in Hp as (fts & Hc & Hps). apply forall2b_length in Hps as Hl. rewrite length_map, Hl.
    rewrite (specialise_lower c b t ts fts Hc rows Hrows). cbn [mbind option_bind]. intros E.
    destruct (Hspec c b fts ps Hc Hps E) as (vs & ws & Hv & Hw & Hm & Hm' & Hno). exists (V c vs :: ws).
    split_and!; [cbn [forall2b]; by rewrite Hv, Hw| |done]. unfold row_matches. cbn [forall2b]. apply andb_true_iff. split; [|done]. by apply matches_of.
Qed.
End inhabited.

(** ** and complete on canonical spellings *)

Lemma useful_complete fuel rows qs ts vs o : Forall (fun row => row_typed row ts = true) rows -> row_typed qs ts = true ->
  Forall (fun row => forallb canonical row = true) rows -> forallb canonical qs = true ->
  forall2b has_type vs ts = true -> row_matches qs vs = true -> Forall (fun row => row_matches row vs = false) rows ->
  useful fuel (map (map lower_pat) rows) (map lower_pat qs) = Some o -> o = true.
Proof.
  revert rows qs ts vs. induction fuel as [|fuel IH]; intros rows qs ts vs Hrows Hqs Hcan Hcanq Hv Hm Hno; [done|]. cbn [useful].
  destruct qs as [|p rest]; [|destruct ts as [|t ts]; [done|]].
  { intros [= <-]. destruct vs; [|done]. destruct Hno as [|row rows Hrow _]; [done|]. destruct ts; [|done]. apply Forall_inv in Hrows. by destruct row. }
  apply row_typed_cons in Hqs as [Hp Hrest]. cbn [map]. destruct vs as [|[d vs] ws]; [done|].
  cbn [forall2b] in Hv. apply andb_true_iff in Hv as [(fts & Hd & Hv)%has_type_of Hw].
  unfold row_matches in Hm. cbn [forall2b] in Hm. apply andb_true_iff in Hm as [Hm Hmrest].
  cbn [forallb] in Hcanq. apply andb_true_iff in Hcanq as [Hcanp Hcanrest]. apply forall2b_length in Hv as Hl.
  assert (Hspec : forall qs', row_typed qs' fts = true -> forallb canonical qs' = true -> row_matches qs' vs = true ->
    useful fuel (map (map lower_pat) (omap (spec_row d (length fts)) rows)) (map lower_pat qs' ++ map lower_pat rest) = Some o -> o = true).
  { intros qs' Hqs' Hcan' Hm' E. rewrite <-map_app in E. revert E. apply (IH _ _ (fts ++ ts) (vs ++ ws)).
    - replace d with (lower_ctor true d) by (by destruct d). by apply spec_rows_typed with t.
    - by apply row_typed_app.
    - rewrite Forall_forall in *. intros row' (row & Hrow & E)%list_elem_of_omap.
      by apply (spec_row_exact d t ts fts row row' vs ws Hd (Hrows row Hrow) (Hcan row Hrow) E Hl).
    - by rewrite forallb_app, Hcan', Hcanrest.
    - rewrite forall2b_app by done. by rewrite Hv, Hw.
    - unfold row_matches. apply forall2b_length in Hm' as Hlm. rewrite forall2b_app by done. unfold row_matches in Hm'. by rewrite Hm', Hmrest.
    - rewrite Forall_forall in *. intros row' (row & Hrow & E)%list_elem_of_omap. apply not_true_iff_false. intros Hrm.
      apply (spec_row_exact d t ts fts row row' vs ws Hd (Hrows row Hrow) (Hcan row Hrow) E Hl) in Hrm. by rewrite Hno in Hrm. }
  assert (Hlow : lower_ctor true d = d) by (by destruct d).
  destruct p as [|c b ps]; cbn [lower_pat].
  - destruct (column_ctors_lower rows rows t ts []) as (sigma & -> & _ & Hs & Hcov); [done..|by intros ? ?%not_elem_of_nil|].
    cbn [mbind option_bind]. destruct (complete sigma) eqn:Ec.
    + intros E. destruct o; [done|]. apply (anyM_false _ _ (d, length fts)) in E; [|by eapply complete_covers]. cbn [fst snd] in E.
      rewrite <-Hlow in E. rewrite (specialise_lower d true t ts fts Hd rows Hrows), Hlow in E. cbn [mbind option_bind] in E.
      rewrite <-map_lower_any in E.
      apply Hspec in E; [done|by apply row_typed_any| |by apply forall2b_repeat].
      apply forallb_forall. by intros x ->%repeat_spec.
    + destruct (default_rows_lower rows t ts Hrows) as [-> Hdef]. cbn [mbind option_bind].
      assert (Hdrow : forall row, row ∈ omap default_row rows -> PAny :: row ∈ rows).
      { intros row' (row & Hrow & E)%list_elem_of_omap. destruct row as [|[|]]; simplify_eq/=; done. }
      apply (IH _ _ ts ws); try done.
      * rewrite Forall_forall in *. intros row Hrow%Hdrow. by apply Hcan in Hrow.
      * rewrite Forall_forall in *. intros row Hrow%Hdrow. by apply Hno in Hrow.
  - apply matches_of in Hm as [-> Hm]. cbn [canonical] in Hcanp. apply andb_true_iff in Hcanp as [-> Hcanp].
    apply well_typed_of in Hp as (fts' & Hd' & Hps). assert (fts' = fts) as -> by (by inversion Hd; inversion Hd'; simplify_eq).
    apply forall2b_length in Hps as Hl'. rewrite length_map, Hl', (specialise_lower d true t ts fts Hd rows Hrows), Hlow. cbn [mbind option_bind].
    by apply Hspec.
Qed.

Lemma single_rows (ps : list (Pat U)) : map (fun p => [p]) (map lower_pat ps) = map (map lower_pat) (map (fun p => [p]) ps).
Proof. by rewrite !map_map. Qed.

Lemma single_typed (ps : list (Pat U)) t : Forall (fun p => well_typed p t = true) ps ->
  Forall (fun row => row_typed row [t] = true) (map (fun p => [p]) ps).
Proof. induction 1; constructor; [|done]. by apply row_typed_cons. Qed.

Lemma row_matches_single (p : Pat U) v : row_matches [p] [v] = matches p v.
Proof. apply andb_true_r. Qed.

Lemma single_sound fuel t earlier clause : cases_inhabited -> kinds_open (length earlier) ->
  Forall (fun p => well_typed p t = true) earlier -> well_typed clause t = true ->
  useful fuel (map (map lower_pat) (map (fun p => [p]) earlier)) [lower_pat clause] = Some true ->
  exists v, has_type v t = true /\ matches clause v = true /\ Forall (fun p => matches p v = false) earlier.
Proof.
  intros Hcases Hopen Hearlier Hclause E.
  apply (useful_sound (length earlier) Hcases Hopen _ _ [clause] [t]) in E as (vs & Hv & Hm & Hno).
  - destruct vs as [|v [|v' vs]]; cbn [forall2b] in Hv; [done| |by rewrite andb_false_r in Hv]. exists v. rewrite andb_true_r in Hv.
    rewrite row_matches_single in Hm. split_and!; [done..|]. rewrite Forall_map in Hno.
    eapply Forall_impl; [exact Hno|]. intros p Hp. rewrite <-row_matches_single. exact Hp.
  - by apply single_typed.
  - by apply row_typed_cons.
  - by rewrite length_map.
Qed.
End proofs.

(** ** Theorems *)

(** Reachability is total: on any clauses, well typed or not, the check
    returns: no row is ever without a first pattern, and the weight of the
    clauses bounds its recursion. *)
Theorem provably_reachable_total {U} `{EqDecision U} (earlier : list (ClausePat U)) clause :
  exists b, provably_reachable earlier clause = Some b.
Proof.
  apply useful_total; [|cbn [length]; lia]. apply Forall_forall. by intros row (p & -> & _)%list_elem_of_fmap.
Qed.

(** C21: A clause called reachable is reached.  For clauses over a type whose
    unions have a value in every case and whose kinds of constants have more
    values than there are earlier clauses, if the check answers [true] there is a
    value of the matched type that the clause matches and no earlier clause does.
    The constants may be spelt in any way: the check sees only canonical
    spellings. *)
Theorem provably_reachable_sound {U} `{EqDecision U} `{Universe U} (t : ty U) earlier clause :
  cases_inhabited -> kinds_open (length earlier) ->
  Forall (fun p => well_typed p t = true) earlier -> well_typed clause t = true ->
  provably_reachable (map lower_pat earlier) (lower_pat clause) = Some true ->
  exists v, has_type v t = true /\ matches clause v = true /\ Forall (fun p => matches p v = false) earlier.
Proof.
  intros Hcases Hopen Hearlier Hclause. unfold provably_reachable. rewrite single_rows. intros E.
  by apply (single_sound _ t) in E.
Qed.

(** C22: Where every constant is spelt canonically reachability is exact: the check
    answers [true] if some value of the type reaches the clause, and [false] if
    none does. *)
Theorem provably_reachable_exact {U} `{EqDecision U} `{Universe U} (t : ty U) earlier clause :
  cases_inhabited -> kinds_open (length earlier) ->
  Forall (fun p => well_typed p t = true) earlier -> well_typed clause t = true ->
  Forall (fun p => canonical p = true) earlier -> canonical clause = true ->
  exists b, provably_reachable (map lower_pat earlier) (lower_pat clause) = Some b
    /\ (b = true <-> exists v, has_type v t = true /\ matches clause v = true /\ Forall (fun p => matches p v = false) earlier).
Proof.
  intros Hcases Hopen Hearlier Hclause Hce Hcc.
  destruct (useful_total (matrix_weight (map (fun p => [p]) (map lower_pat earlier)) + row_weight [lower_pat clause] + 2)
    (map (fun p => [p]) (map lower_pat earlier)) [lower_pat clause]) as [b E].
  { apply Forall_forall. by intros row (p & -> & _)%list_elem_of_fmap. }
  { cbn [length]. lia. }
  exists b. split; [done|]. rewrite single_rows in E. split.
  - intros ->. by apply (single_sound _ t) in E.
  - intros (v & Hv & Hm & Hno). revert E. apply (useful_complete _ _ [clause] [t] [v]).
    + by apply single_typed.
    + by apply row_typed_cons.
    + rewrite Forall_map. eapply Forall_impl; [exact Hce|]. intros p Hp. cbn [forallb]. by rewrite Hp.
    + cbn [forallb]. by rewrite Hcc.
    + cbn [forall2b]. by rewrite Hv.
    + by rewrite row_matches_single.
    + rewrite Forall_map. eapply Forall_impl; [exact Hno|]. intros p Hp. by rewrite row_matches_single.
Qed.

(** ** A concrete universe: options, lists and all constants *)

Inductive union_name := Option | IntList.

#[export] Instance union_name_eq_dec : EqDecision union_name.
Proof. solve_decision. Defined.

#[export] Instance small_universe : Universe union_name := {
  cases u := match u with Option => [[]; [TBool]] | IntList => [[]; [TConst Int; TUnion IntList]] end;
  is_const _ _ := true }.

Lemma small_inhabited : cases_inhabited (U:=union_name).
Proof.
  intros []; (split; [done|]); intros ts; cbn [cases small_universe]; rewrite !elem_of_cons, elem_of_nil.
  - intros [->|[->|[]]]; [by exists []|by exists [V (Bool true) []]].
  - intros [->|[->|[]]]; [by exists []|]. by exists [V (Const Int (Some [])) []; V (Case IntList 0 2) []].
Qed.

Lemma small_open n : kinds_open (U:=union_name) n.
Proof. intros k l _. exists (infinite_fresh l). split; [done|apply infinite_is_fresh]. Qed.

Definition none : Pat union_name := PCtor (Case Option 0 2) true [].
Definition some (p : Pat union_name) : Pat union_name := PCtor (Case Option 1 2) true [p].
Definition cons_pat (x xs : Pat union_name) : Pat union_name := PCtor (Case IntList 1 2) true [x; xs].
Definition int (s : str) (spelt : bool) : Pat union_name := PCtor (Const Int (Some s)) spelt [].

Example reach_ex :
  provably_reachable (map lower_pat [none; some (PCtor (Bool true) true [])]) (lower_pat PAny) = Some true
  /\ provably_reachable (map lower_pat [none; some (PCtor (Bool true) true []); some (PCtor (Bool false) true [])]) (lower_pat PAny) = Some false
  /\ provably_reachable (map lower_pat [cons_pat (int (#"1") true) PAny]) (lower_pat (cons_pat (int (#"2") true) PAny)) = Some true
  /\ provably_reachable (map lower_pat [cons_pat (int (#"1") false) PAny]) (lower_pat (cons_pat (int (#"2") true) PAny)) = Some false
  /\ provably_reachable (map lower_pat [cons_pat (int (#"1") false) PAny]) (lower_pat PAny) = Some true.
Proof. vm_compute. done. Qed.

Lemma provably_reachable_sound_witness :
  exists v, has_type v (TUnion IntList) = true
    /\ matches (cons_pat PAny (cons_pat PAny PAny)) v = true /\ Forall (fun p => matches p v = false) [cons_pat (int (#"1") false) PAny].
Proof.
  apply (provably_reachable_sound (TUnion IntList) [cons_pat (int (#"1") false) PAny] (cons_pat PAny (cons_pat PAny PAny))).
  - exact small_inhabited.
  - apply small_open.
  - repeat constructor.
  - reflexivity.
  - vm_compute. reflexivity.
Defined.

Lemma provably_reachable_exact_witness :
  exists b, provably_reachable (map lower_pat [none; some (PCtor (Bool true) true [])]) (lower_pat PAny) = Some b
    /\ (b = true <-> exists v, has_type v (TUnion Option) = true /\ matches PAny v = true
          /\ Forall (fun p => matches p v = false) [none; some (PCtor (Bool true) true [])]).
Proof.
  apply (provably_reachable_exact (TUnion Option) [none; some (PCtor (Bool true) true [])] PAny).
  - exact small_inhabited.
  - apply small_open.
  - repeat constructor.
  - reflexivity.
  - repeat constructor.
  - reflexivity.
Defined.
