(* ===== verification/IfExpr.v ===== *)
(** * Conditional-compilation expressions ([crates/cst/src/directives/expr.rs])

    The tokenizer and the recursive-descent parser of the [#if] and [#elif]
    expressions, their evaluation and their canonical printing.  A text is a
    list of scalar values, and the tokenizer's position is the byte offset of
    what is left.  The parser's mutually recursive methods take fuel; the number
    given by [parse_if_expr] is shown to be enough.

    The theorems: the parser accepts exactly the token streams of the grammar
    of F#'s [pppars.fsy], with its precedences and associativity, and builds the
    tree the grammar gives; and parsing inverts canonical printing. *)

From S2P Require Import Prelude.

Inductive Expr :=
| Ident (name : str)
| Not (e : Expr)
| And (a b : Expr)
| Or (a b : Expr).

Inductive ParseErrorKind :=
| UnexpectedEof
| UnexpectedToken
| UnclosedParen
| UnexpectedTrailingTokens
| InvalidChar (c : char)
| BlockCommentNotAllowed.

Record ParseError := { at_ : N; kind : ParseErrorKind }.

Fixpoint eval (e : Expr) (lookup : str -> bool) : bool :=
  match e with
  | Ident name => lookup name
  | Not e => negb (eval e lookup)
  | And a b => (eval a lookup && eval b lookup)%bool
  | Or a b => (eval a lookup || eval b lookup)%bool
  end.

Fixpoint to_canonical_string (e : Expr) : str :=
  match e with
  | Ident s => s
  | Not e => #"(!" ++ to_canonical_string e ++ #")"
  | And a b => #"(" ++ to_canonical_string a ++ #" && " ++ to_canonical_string b ++ #")"
  | Or a b => #"(" ++ to_canonical_string a ++ #" || " ++ to_canonical_string b ++ #")"
  end.

(** ** Tokenizer *)

Inductive Tok := TIdent (s : str) | TNot | TAnd | TOr | TLParen | TRParen | TEof.

Record Tokenizer := { rest : str; pos : N }.
Definition Tokenizer_new (input : str) : Tokenizer := {| rest := input; pos := 0 |}.

Definition is_ident_start (b : char) : bool := (is_ascii_alphabetic b || N.eqb b (#c"_"))%bool.
Definition is_ident_continue (b : char) : bool :=
  (is_ascii_alphanumeric b || N.eqb b (#c"_") || N.eqb b 39)%bool.

(** The [while] that skips blanks. *)
Fixpoint skip_blanks (s : str) (p : N) : Tokenizer :=
  match s with
  | c :: s' => if (N.eqb c (#c" ") || N.eqb c 9)%bool then skip_blanks s' (p + 1) else {| rest := s; pos := p |}
  | [] => {| rest := s; pos := p |}
  end.

(** The longest run of identifier characters, and what follows. *)
Fixpoint ident_run (s : str) : str * str :=
  match s with
  | c :: s' => if is_ident_continue c then let '(i, r) := ident_run s' in (c :: i, r) else ([], s)
  | [] => ([], [])
  end.

Definition str_len (s : str) : N := fold_right (fun c n => len_utf8 c + n)%N 0%N s.

Definition next_token (t : Tokenizer) : result ((Tok * N) * Tokenizer) ParseError :=
  let t := skip_blanks (rest t) (pos t) in
  let start := pos t in
  match rest t with
  | [] => Ok ((TEof, start), t)
  | b :: s =>
      let invalid_char_here := Err {| at_ := start; kind := InvalidChar b |} in
      let two (second : char) (tok : Tok) :=
        match s with
        | c :: s' => if N.eqb c second then Ok ((tok, start), {| rest := s'; pos := start + 2 |}) else invalid_char_here
        | [] => invalid_char_here
        end in
      if N.eqb b (#c"!") then Ok ((TNot, start), {| rest := s; pos := start + 1 |})
      else if N.eqb b (#c"&") then two (#c"&") TAnd
      else if N.eqb b (#c"|") then two (#c"|") TOr
      else if N.eqb b (#c"(") then
        if starts_with_char (#c"*") s then Err {| at_ := start; kind := BlockCommentNotAllowed |}
        else Ok ((TLParen, start), {| rest := s; pos := start + 1 |})
      else if N.eqb b (#c")") then Ok ((TRParen, start), {| rest := s; pos := start + 1 |})
      else if N.eqb b (#c"/") then
        if starts_with_char (#c"/") s then Ok ((TEof, start), {| rest := []; pos := start + str_len (rest t) |})
        else invalid_char_here
      else if is_ident_start b then
        let '(i, r) := ident_run s in
        Ok ((TIdent (b :: i), start), {| rest := r; pos := start + str_len (b :: i) |})
      else invalid_char_here
  end.

(** ** Parser *)

Record Parser := { tok : Tokenizer; peeked : option (Tok * N) }.
Definition Parser_new (input : str) : Parser := {| tok := Tokenizer_new input; peeked := None |}.

Definition peek (p : Parser) : result ((Tok * N) * Parser) ParseError :=
  match peeked p with
  | Some t => Ok (t, p)
  | None => let? (t, tz) := next_token (tok p) in Ok (t, {| tok := tz; peeked := Some t |})
  end.

Definition bump (p : Parser) : result ((Tok * N) * Parser) ParseError :=
  match peeked p with
  | Some t => Ok (t, {| tok := tok p; peeked := None |})
  | None => let? (t, tz) := next_token (tok p) in Ok (t, {| tok := tz; peeked := None |})
  end.

(** The methods return [None] when the fuel runs out. *)
Definition parsed := option (result (Expr * Parser) ParseError).
Definition pbind {A} (m : result A ParseError) (k : A -> parsed) : parsed :=
  match m with Ok a => k a | Err e => Some (Err e) end.
Definition then_ (m : parsed) (k : Expr -> Parser -> parsed) : parsed :=
  match m with
  | None => None
  | Some (Err e) => Some (Err e)
  | Some (Ok (e, p)) => k e p
  end.
Definition fail (at' : N) (k : ParseErrorKind) : parsed := Some (Err {| at_ := at'; kind := k |}).

Fixpoint parse_or (fuel : nat) (p : Parser) : parsed :=
  match fuel with
  | O => None
  | S fuel' => then_ (parse_and fuel' p) (or_loop fuel')
  end
with or_loop (fuel : nat) (left : Expr) (p : Parser) : parsed :=
  match fuel with
  | O => None
  | S fuel' =>
      pbind (peek p) (fun '((t, _), p) =>
        match t with
        | TOr =>
            pbind (bump p) (fun '(_, p) =>
              then_ (parse_and fuel' p) (fun right p => or_loop fuel' (Or left right) p))
        | _ => Some (Ok (left, p))
        end)
  end
with parse_and (fuel : nat) (p : Parser) : parsed :=
  match fuel with
  | O => None
  | S fuel' => then_ (parse_not fuel' p) (and_loop fuel')
  end
with and_loop (fuel : nat) (left : Expr) (p : Parser) : parsed :=
  match fuel with
  | O => None
  | S fuel' =>
      pbind (peek p) (fun '((t, _), p) =>
        match t with
        | TAnd =>
            pbind (bump p) (fun '(_, p) =>
              then_ (parse_not fuel' p) (fun right p => and_loop fuel' (And left right) p))
        | _ => Some (Ok (left, p))
        end)
  end
with parse_not (fuel : nat) (p : Parser) : parsed :=
  match fuel with
  | O => None
  | S fuel' =>
      pbind (peek p) (fun '((t, _), p) =>
        match t with
        | TNot => pbind (bump p) (fun '(_, p) => then_ (parse_not fuel' p) (fun inner p => Some (Ok (Not inner, p))))
        | _ => parse_primary fuel' p
        end)
  end
with parse_primary (fuel : nat) (p : Parser) : parsed :=
  match fuel with
  | O => None
  | S fuel' =>
      pbind (bump p) (fun '((t, start), p) =>
        match t with
        | TIdent s => Some (Ok (Ident s, p))
        | TLParen =>
            then_ (parse_or fuel' p) (fun inner p =>
              pbind (bump p) (fun '((close, close_pos), p) =>
                match close with
                | TRParen => Some (Ok (inner, p))
                | TEof => fail start UnclosedParen
                | _ => fail close_pos UnexpectedToken
                end))
        | TEof => fail start UnexpectedEof
        | _ => fail start UnexpectedToken
        end)
  end.

Definition expect_eof (p : Parser) : result unit ParseError :=
  let? ((t, start), _) := bump p in
  match t with
  | TEof => Ok tt
  | _ => Err {| at_ := start; kind := UnexpectedTrailingTokens |}
  end.

(** Every call chain of the parser takes a token within six calls. *)
Definition parse_fuel (input : str) : nat := 6 * length input + 4.

Definition parse_if_expr (input : str) : option (result Expr ParseError) :=
  match parse_or (parse_fuel input) (Parser_new input) with
  | None => None
  | Some r => Some (let? (e, p) := r in let? _ := expect_eof p in Ok e)
  end.

Example parse_ex : parse_if_expr (#"A && !B || (C // x)") = Some (Err {| at_ := 11; kind := UnclosedParen |})
  /\ parse_if_expr (#"A && !B || C // x") = Some (Ok (Or (And (Ident (#"A")) (Not (Ident (#"B")))) (Ident (#"C")))).
Proof. vm_compute. auto. Qed.

(** ** Token streams *)

(** The tokens left in a tokenizer, up to the end of the text or a comment. *)
Inductive lexes : Tokenizer -> list Tok -> Prop :=
| lexes_eof t start t' : next_token t = Ok ((TEof, start), t') -> lexes t []
| lexes_tok t k start t' ts : next_token t = Ok ((k, start), t') -> k <> TEof -> lexes t' ts -> lexes t (k :: ts).

(** The tokens left in a parser. *)
Definition stream (p : Parser) (ts : list Tok) : Prop :=
  match peeked p with
  | None => lexes (tok p) ts
  | Some (TEof, _) => ts = []
  | Some (k, _) => exists ts', ts = k :: ts' /\ lexes (tok p) ts'
  end.

Lemma stream_peeked k start tz ts : k <> TEof -> lexes tz ts ->
  stream {| tok := tz; peeked := Some (k, start) |} (k :: ts).
Proof. intros Hk Hl. unfold stream. cbn. destruct k; try done; eauto. Qed.

Lemma lexes_inv tz ts : lexes tz ts ->
  exists k start tz', next_token tz = Ok ((k, start), tz') /\
    match ts with [] => k = TEof | k' :: ts' => k' = k /\ k <> TEof /\ lexes tz' ts' end.
Proof. destruct 1; eexists _, _, _; split; eauto. Qed.

Definition head_tok (ts : list Tok) : Tok := match ts with [] => TEof | k :: _ => k end.

(** Reading forwards: what [peek] and [bump] do on a known stream. *)
Lemma peek_stream p ts : stream p ts -> exists start p', peek p = Ok ((head_tok ts, start), p') /\ stream p' ts.
Proof.
  unfold peek. destruct p as [tz [[k start]|]]; cbn [peeked tok].
  - intros Hs. unfold stream in Hs. cbn in Hs.
    destruct k; [destruct Hs as (ts' & -> & Hl); eexists _, _; split; [done|by apply stream_peeked]..|].
    subst. eexists _, _. done.
  - intros Hl. unfold stream in Hl. cbn in Hl. destruct (lexes_inv _ _ Hl) as (k & start & tz' & E & Hts). rewrite E. cbn [rbind].
    destruct ts as [|k' ts']; [subst; eexists _, _; done|]. destruct Hts as (<- & Hk & Hl'). eexists _, _.
    split; [done|by apply stream_peeked].
Qed.

Lemma bump_stream p k ts : stream p (k :: ts) -> k <> TEof /\ exists start p', bump p = Ok ((k, start), p') /\ stream p' ts.
Proof.
  unfold bump. destruct p as [tz [[k' start]|]]; cbn [peeked tok].
  - intros Hs. unfold stream in Hs. cbn in Hs.
    destruct k'; [destruct Hs as (ts' & [= -> ->] & Hl); split; [done|]; eexists _, _; done..|done].
  - intros Hl. unfold stream in Hl. cbn in Hl. destruct (lexes_inv _ _ Hl) as (k' & start & tz' & E & -> & Hk & Hl').
    split; [done|]. rewrite E. eexists _, _. done.
Qed.

Lemma bump_eof p : stream p [] -> exists start p', bump p = Ok ((TEof, start), p').
Proof.
  unfold bump. destruct p as [tz [[k' start]|]]; cbn [peeked tok].
  - intros Hs. unfold stream in Hs. cbn in Hs. destruct k'; [by destruct Hs as (? & ? & _)..|]. eexists _, _. done.
  - intros Hl. unfold stream in Hl. cbn in Hl. destruct (lexes_inv _ _ Hl) as (k' & start & tz' & E & ->).
    rewrite E. eexists _, _. done.
Qed.

(** Reading backwards: what a successful [peek] or [bump] says of the stream. *)
Lemma peek_back p k start p' ts : peek p = Ok ((k, start), p') -> stream p' ts -> stream p ts.
Proof.
  unfold peek. destruct p as [tz [x|]]; cbn [peeked tok]; [intros [= -> <-]; done|].
  intros ([[k' start'] tz'] & E & [= <- <- <-])%rbind_ok Hs. unfold stream in *. cbn in *.
  destruct k'; [destruct Hs as (ts' & -> & Hl); by econstructor..|]. subst. by econstructor.
Qed.

Lemma bump_back p k start p' ts : bump p = Ok ((k, start), p') -> k <> TEof -> stream p' ts -> stream p (k :: ts).
Proof.
  unfold bump. destruct p as [tz [x|]]; cbn [peeked tok].
  - intros [= -> <-] Hk Hs. by apply stream_peeked.
  - intros ([[k' start'] tz'] & E & [= <- <- <-])%rbind_ok Hk Hs. unfold stream in *. cbn in *. by econstructor.
Qed.

Lemma bump_back_eof p start p' : bump p = Ok ((TEof, start), p') -> stream p [].
Proof.
  unfold bump. destruct p as [tz [x|]]; cbn [peeked tok].
  - intros [= -> <-]. done.
  - intros ([[k' start'] tz'] & E & [= -> -> <-])%rbind_ok. unfold stream. cbn. by econstructor.
Qed.

Lemma peek_bump p x p' y p2 : peek p = Ok (x, p') -> bump p' = Ok (y, p2) -> y = x.
Proof.
  unfold peek, bump. destruct p as [tz [z|]]; cbn [peeked tok]; [intros [= <- <-]; cbn; by intros [= <- _]|].
  intros ([t tz'] & _ & [= <- <-])%rbind_ok. cbn. by intros [= <- _].
Qed.

(** ** The grammar *)

(** The grammar of the module comment, by precedence: a primary or a negation,
    then conjunctions, then disjunctions, both to the left. *)
Inductive or_e : list Tok -> Expr -> Prop :=
| or_and ts e : and_e ts e -> or_e ts e
| or_or ts1 ts2 a b : or_e ts1 a -> and_e ts2 b -> or_e (ts1 ++ TOr :: ts2) (Or a b)
with and_e : list Tok -> Expr -> Prop :=
| and_not ts e : not_e ts e -> and_e ts e
| and_and ts1 ts2 a b : and_e ts1 a -> not_e ts2 b -> and_e (ts1 ++ TAnd :: ts2) (And a b)
with not_e : list Tok -> Expr -> Prop :=
| not_ident s : not_e [TIdent s] (Ident s)
| not_not ts e : not_e ts e -> not_e (TNot :: ts) (Not e)
| not_paren ts e : or_e ts e -> not_e (TLParen :: ts ++ [TRParen]) e.

Scheme or_e_ind' := Minimality for or_e Sort Prop
with and_e_ind' := Minimality for and_e Sort Prop
with not_e_ind' := Minimality for not_e Sort Prop.
Combined Scheme grammar_ind from or_e_ind', and_e_ind', not_e_ind'.

(** ** Soundness of the parser *)

Lemma then_ok m k r : then_ m k = Some (Ok r) -> exists e p, m = Some (Ok (e, p)) /\ k e p = Some (Ok r).
Proof. destruct m as [[[e p]|]|]; simpl; [eauto|done..]. Qed.

Lemma pbind_ok {A} (m : result A ParseError) k r : pbind m k = Some (Ok r) -> exists a, m = Ok a /\ k a = Some (Ok r).
Proof. destruct m; simpl; [eauto|done]. Qed.

Definition reads (p : Parser) (ts : list Tok) (p' : Parser) : Prop := forall k, stream p' k -> stream p (ts ++ k).

Lemma reads_trans p ts p1 ts' p2 : reads p ts p1 -> reads p1 ts' p2 -> reads p (ts ++ ts') p2.
Proof. intros H1 H2 k Hk. rewrite <- app_assoc. auto. Qed.

Lemma reads_peek p t start p' : peek p = Ok ((t, start), p') -> reads p [] p'.
Proof. intros E k Hk. by eapply peek_back. Qed.

Lemma reads_bump p t start p' : bump p = Ok ((t, start), p') -> t <> TEof -> reads p [t] p'.
Proof. intros E Ht k Hk. by eapply bump_back. Qed.

(** The loops: the tokens read extend whatever derives the left operand. *)
Definition extends (g : list Tok -> Expr -> Prop) (a e : Expr) (ts : list Tok) : Prop :=
  forall ts0, g ts0 a -> g (ts0 ++ ts) e.

Lemma extends_nil g a : extends g a a [].
Proof. intros ts0. by rewrite app_nil_r. Qed.

(** One turn of a loop: the operator is peeked, read, and an operand follows. *)
Lemma loop_turn (g : list Tok -> Expr -> Prop) (t : Tok) a a' e p start p1 y p2 ts1 p3 ts2 p' :
  peek p = Ok ((t, start), p1) -> bump p1 = Ok (y, p2) -> t <> TEof ->
  reads p2 ts1 p3 -> (forall ts0, g ts0 a -> g (ts0 ++ t :: ts1) a') ->
  extends g a' e ts2 -> reads p3 ts2 p' -> exists ts, extends g a e ts /\ reads p ts p'.
Proof.
  intros E1 E2 Ht R1 Hg G2 R2. pose proof (peek_bump _ _ _ _ _ E1 E2) as ->.
  exists (t :: ts1 ++ ts2). split.
  - intros ts0 G0. specialize (G2 _ (Hg _ G0)). by rewrite <- app_assoc in G2.
  - change (t :: ts1 ++ ts2) with ([] ++ [t] ++ ts1 ++ ts2).
    eapply reads_trans; [by eapply reads_peek|]. eapply reads_trans; [by eapply reads_bump|]. by eapply reads_trans.
Qed.

Lemma parse_sound n :
  (forall p e p', parse_or n p = Some (Ok (e, p')) -> exists ts, or_e ts e /\ reads p ts p')
  /\ (forall a p e p', or_loop n a p = Some (Ok (e, p')) -> exists ts, extends or_e a e ts /\ reads p ts p')
  /\ (forall p e p', parse_and n p = Some (Ok (e, p')) -> exists ts, and_e ts e /\ reads p ts p')
  /\ (forall a p e p', and_loop n a p = Some (Ok (e, p')) -> exists ts, extends and_e a e ts /\ reads p ts p')
  /\ (forall p e p', parse_not n p = Some (Ok (e, p')) -> exists ts, not_e ts e /\ reads p ts p')
  /\ (forall p e p', parse_primary n p = Some (Ok (e, p')) -> exists ts, not_e ts e /\ reads p ts p').
Proof.
  induction n as [|n (Hor & Horl & Hand & Handl & Hnot & Hprim)]; [by split_and!|].
  split_and!; simpl.
  - intros p e p' (a & p1 & H1 & H2)%then_ok. destruct (Hand _ _ _ H1) as (ts1 & G1 & R1).
    destruct (Horl _ _ _ _ H2) as (ts2 & G2 & R2). exists (ts1 ++ ts2). split; [by apply G2, or_and|by eapply reads_trans].
  - intros a p e p' ([[t start] p1] & E1 & H)%pbind_ok. pose proof (reads_peek _ _ _ _ E1) as R0.
    destruct t; try (injection H as <- <-; exists []; split; [apply extends_nil|done]).
    apply pbind_ok in H as ([y p2] & E2 & H). apply then_ok in H as (b & p3 & H1 & H2).
    destruct (Hand _ _ _ H1) as (ts1 & G1 & R1). destruct (Horl _ _ _ _ H2) as (ts2 & G2 & R2).
    eapply loop_turn; try done. intros ts0 G0. by apply or_or.
  - intros p e p' (a & p1 & H1 & H2)%then_ok. destruct (Hnot _ _ _ H1) as (ts1 & G1 & R1).
    destruct (Handl _ _ _ _ H2) as (ts2 & G2 & R2). exists (ts1 ++ ts2). split; [by apply G2, and_not|by eapply reads_trans].
  - intros a p e p' ([[t start] p1] & E1 & H)%pbind_ok. pose proof (reads_peek _ _ _ _ E1) as R0.
    destruct t; try (injection H as <- <-; exists []; split; [apply extends_nil|done]).
    apply pbind_ok in H as ([y p2] & E2 & H). apply then_ok in H as (b & p3 & H1 & H2).
    destruct (Hnot _ _ _ H1) as (ts1 & G1 & R1). destruct (Handl _ _ _ _ H2) as (ts2 & G2 & R2).
    eapply loop_turn; try done. intros ts0 G0. by apply and_and.
  - intros p e p' ([[t start] p1] & E1 & H)%pbind_ok. pose proof (reads_peek _ _ _ _ E1) as R0.
    assert (Hp : parse_primary n p1 = Some (Ok (e, p')) -> exists ts, not_e ts e /\ reads p ts p').
    { intros (ts & G & R)%Hprim. exists ts. split; [done|]. by apply (reads_trans _ [] _ _ _ R0). }
    destruct t; try by apply Hp.
    apply pbind_ok in H as ([y p2] & E2 & H). apply then_ok in H as (b & p3 & H1 & [= <- <-]).
    pose proof (peek_bump _ _ _ _ _ E1 E2) as ->. destruct (Hnot _ _ _ H1) as (ts & G & R).
    exists (TNot :: ts). split; [by constructor|]. change (TNot :: ts) with ([] ++ [TNot] ++ ts).
    eapply reads_trans; [done|]. by eapply reads_trans; [by eapply reads_bump|].
  - intros p e p' ([[t start] p1] & E1 & H)%pbind_ok. destruct t; try done.
    + injection H as <- <-. exists [TIdent s]. split; [constructor|by eapply reads_bump].
    + apply then_ok in H as (a & p2 & H1 & H). apply pbind_ok in H as ([[t2 s2] p3] & E2 & H).
      destruct t2; try done. injection H as <- <-. destruct (Hor _ _ _ H1) as (ts & G & R).
      exists (TLParen :: ts ++ [TRParen]). split; [by constructor|]. change (TLParen :: ts ++ [TRParen]) with ([TLParen] ++ ts ++ [TRParen]).
      eapply reads_trans; [by eapply reads_bump|]. by eapply reads_trans; [|by eapply reads_bump].
Qed.

(** ** Completeness of the parser, for enough fuel *)

Definition ev {R} (f : nat -> option R) (r : R) : Prop := exists n, forall m, n <= m -> f m = Some r.

Lemma ev_const {R} (r : R) : ev (fun _ => Some r) r.
Proof. by exists 0. Qed.

Lemma ev_S {R} (f g : nat -> option R) r : (forall n, f (S n) = g n) -> ev g r -> ev f r.
Proof. intros E (n & Hn). exists (S n). intros [|m] Hm; [lia|]. rewrite E. apply Hn. lia. Qed.

Lemma ev_then f k e p r : ev f (Ok (e, p)) -> ev (fun n => k n e p) r -> ev (fun n => then_ (f n) (k n)) r.
Proof.
  intros (n1 & H1) (n2 & H2). exists (n1 + n2). intros m Hm. rewrite (H1 m) by lia. simpl. apply H2. lia.
Qed.

(** A loop whose operator does not come next stops. *)
Lemma and_loop_stop a p k : stream p k -> head_tok k <> TAnd ->
  exists p', stream p' k /\ ev (fun n => and_loop n a p) (Ok (a, p')).
Proof.
  intros Hs Hk. destruct (peek_stream _ _ Hs) as (start & p' & E & Hs'). exists p'. split; [done|].
  eapply ev_S; [|apply ev_const]. intros n. simpl. rewrite E. simpl. by destruct (head_tok k).
Qed.

Lemma or_loop_stop a p k : stream p k -> head_tok k <> TOr ->
  exists p', stream p' k /\ ev (fun n => or_loop n a p) (Ok (a, p')).
Proof.
  intros Hs Hk. destruct (peek_stream _ _ Hs) as (start & p' & E & Hs'). exists p'. split; [done|].
  eapply ev_S; [|apply ev_const]. intros n. simpl. rewrite E. simpl. by destruct (head_tok k).
Qed.

(** A token that is known to come next is peeked, then read. *)
Lemma peek_then_bump p t ts : stream p (t :: ts) ->
  exists s1 p1 s2 p2, peek p = Ok ((t, s1), p1) /\ bump p1 = Ok ((t, s2), p2) /\ stream p2 ts.
Proof.
  intros Hs. destruct (peek_stream _ _ Hs) as (s1 & p1 & E1 & Hs1).
  destruct (bump_stream _ _ _ Hs1) as (_ & s2 & p2 & E2 & Hs2). by exists s1, p1, s2, p2.
Qed.

Lemma parse_complete :
  (forall ts e, or_e ts e -> forall p k, stream p (ts ++ k) -> head_tok k <> TAnd ->
     exists p', stream p' k /\ forall r, ev (fun n => or_loop n e p') r -> ev (fun n => parse_or n p) r)
  /\ (forall ts e, and_e ts e -> forall p k, stream p (ts ++ k) ->
     exists p', stream p' k /\ forall r, ev (fun n => and_loop n e p') r -> ev (fun n => parse_and n p) r)
  /\ (forall ts e, not_e ts e -> forall p k, stream p (ts ++ k) ->
     exists p', stream p' k /\ ev (fun n => parse_not n p) (Ok (e, p'))).
Proof.
  apply grammar_ind.
  - intros ts e _ IH p k Hs Hk. destruct (IH p k Hs) as (p1 & Hs1 & H1).
    destruct (and_loop_stop e p1 k Hs1 Hk) as (p2 & Hs2 & H2). exists p2. split; [done|]. intros r Hr.
    eapply ev_S; [intros n; reflexivity|]. eapply ev_then; [by apply H1|done].
  - intros ts1 ts2 a b _ IH1 _ IH2 p k Hs Hk. rewrite <- app_assoc in Hs. simpl in Hs.
    destruct (IH1 p _ Hs) as (p1 & Hs1 & H1); [done|].
    destruct (peek_then_bump _ _ _ Hs1) as (s1 & p2 & s2 & p3 & E1 & E2 & Hs3).
    destruct (IH2 p3 k Hs3) as (p4 & Hs4 & H4). destruct (and_loop_stop b p4 k Hs4 Hk) as (p5 & Hs5 & H5).
    exists p5. split; [done|]. intros r Hr. apply H1.
    eapply ev_S; [intros n; simpl; rewrite E1; simpl; rewrite E2; simpl; reflexivity|].
    apply (ev_then _ (fun n right p => or_loop n (Or a right) p) b p5); [by apply H4|done].
  - intros ts e _ IH p k Hs. destruct (IH p k Hs) as (p1 & Hs1 & H1). exists p1. split; [done|]. intros r Hr.
    eapply ev_S; [intros n; reflexivity|]. by eapply ev_then.
  - intros ts1 ts2 a b _ IH1 _ IH2 p k Hs. rewrite <- app_assoc in Hs. simpl in Hs.
    destruct (IH1 p _ Hs) as (p1 & Hs1 & H1).
    destruct (peek_then_bump _ _ _ Hs1) as (s1 & p2 & s2 & p3 & E1 & E2 & Hs3).
    destruct (IH2 p3 k Hs3) as (p4 & Hs4 & H4). exists p4. split; [done|]. intros r Hr. apply H1.
    eapply ev_S; [intros n; simpl; rewrite E1; simpl; rewrite E2; simpl; reflexivity|].
    by apply (ev_then _ (fun n right p => and_loop n (And a right) p) b p4).
  - intros s p k Hs. destruct (peek_then_bump _ _ _ Hs) as (s1 & p1 & s2 & p2 & E1 & E2 & Hs2).
    exists p2. split; [done|]. eapply ev_S; [intros n; simpl; rewrite E1; simpl; reflexivity|].
    eapply ev_S; [intros n; simpl; rewrite E2; reflexivity|]. apply ev_const.
  - intros ts e _ IH p k Hs. destruct (peek_then_bump _ _ _ Hs) as (s1 & p1 & s2 & p2 & E1 & E2 & Hs2).
    destruct (IH p2 k Hs2) as (p3 & Hs3 & H3). exists p3. split; [done|].
    eapply ev_S; [intros n; simpl; rewrite E1; simpl; rewrite E2; simpl; reflexivity|].
    apply (ev_then _ (fun _ inner p => Some (Ok (Not inner, p))) e p3); [done|apply ev_const].
  - intros ts e _ IH p k Hs. rewrite <- app_comm_cons, <- app_assoc in Hs.
    destruct (peek_then_bump _ _ _ Hs) as (s1 & p1 & s2 & p2 & E1 & E2 & Hs2).
    destruct (IH p2 _ Hs2) as (p3 & Hs3 & H3); [done|].
    destruct (or_loop_stop e p3 _ Hs3) as (p4 & Hs4 & H4); [done|].
    destruct (bump_stream _ _ _ Hs4) as (_ & s5 & p5 & E5 & Hs5). exists p5. split; [done|].
    eapply ev_S; [intros n; simpl; rewrite E1; simpl; reflexivity|].
    eapply ev_S; [intros n; simpl; rewrite E2; simpl; reflexivity|].
    eapply (ev_then _ (fun _ inner p => pbind (bump p) _) e p4); [by apply H3|]. rewrite E5. apply ev_const.
Qed.

(** ** More fuel does not change an answer *)

Lemma then_mono m m' k k' r : (forall x, m = Some x -> m' = Some x) ->
  (forall e p x, k e p = Some x -> k' e p = Some x) -> then_ m k = Some r -> then_ m' k' = Some r.
Proof. intros Hm Hk. destruct m as [[[e p]|]|]; [|..|done]; rewrite (Hm _ eq_refl); simpl; auto. Qed.

Lemma pbind_mono {A} (m : result A ParseError) k k' r :
  (forall a x, k a = Some x -> k' a = Some x) -> pbind m k = Some r -> pbind m k' = Some r.
Proof. intros Hk. destruct m; simpl; auto. Qed.

Lemma parse_mono n :
  (forall p r, parse_or n p = Some r -> parse_or (S n) p = Some r)
  /\ (forall a p r, or_loop n a p = Some r -> or_loop (S n) a p = Some r)
  /\ (forall p r, parse_and n p = Some r -> parse_and (S n) p = Some r)
  /\ (forall a p r, and_loop n a p = Some r -> and_loop (S n) a p = Some r)
  /\ (forall p r, parse_not n p = Some r -> parse_not (S n) p = Some r)
  /\ (forall p r, parse_primary n p = Some r -> parse_primary (S n) p = Some r).
Proof.
  induction n as [|n (Hor & Horl & Hand & Handl & Hnot & Hprim)]; [by split_and!|].
  split_and!.
  - intros p r. change (then_ (parse_and n p) (or_loop n) = Some r -> then_ (parse_and (S n) p) (or_loop (S n)) = Some r).
    apply then_mono; [apply Hand|apply Horl].
  - intros a p r. apply pbind_mono. intros [[t ?] ?] x. destruct t; try done. apply pbind_mono. intros [? ?] ?.
    apply then_mono; [apply Hand|intros ? ?; apply Horl].
  - intros p r. change (then_ (parse_not n p) (and_loop n) = Some r -> then_ (parse_not (S n) p) (and_loop (S n)) = Some r).
    apply then_mono; [apply Hnot|apply Handl].
  - intros a p r. apply pbind_mono. intros [[t ?] ?] x. destruct t; try done. apply pbind_mono. intros [? ?] ?.
    apply then_mono; [apply Hnot|intros ? ?; apply Handl].
  - intros p r. apply pbind_mono. intros [[t ?] ?] x. destruct t; try apply Hprim. apply pbind_mono. intros [? ?] ?.
    apply then_mono; [apply Hnot|done].
  - intros p r. apply pbind_mono. intros [[t ?] ?] x. destruct t; try done. apply then_mono; [apply Hor|done].
Qed.

Lemma parse_or_mono n m p r : n <= m -> parse_or n p = Some r -> parse_or m p = Some r.
Proof. induction 1; [done|]. intros. by apply parse_mono, IHle. Qed.

(** ** The fuel is enough *)

Lemma skip_blanks_len s q : length (rest (skip_blanks s q)) <= length s.
Proof.
  revert q. induction s as [|c s IH]; intros q; simpl; [done|]. destruct (_ || _)%bool; simpl; [|lia].
  specialize (IH (q + 1)%N). lia.
Qed.

Lemma ident_run_spec s : let '(i, r) := ident_run s in
  s = i ++ r /\ Forall (fun c => is_ident_continue c = true) i /\ (forall c, hd_error r = Some c -> is_ident_continue c = false).
Proof.
  induction s as [|c s IH]; simpl; [done|]. destruct (is_ident_continue c) eqn:Ec.
  - destruct (ident_run s) as [i r]. destruct IH as (-> & Hi & Hr). split_and!; [done|by constructor|done].
  - split_and!; [done|constructor|]. by intros d [= <-].
Qed.

(** A token other than the end takes at least one character. *)
Lemma next_token_len t k start t' : next_token t = Ok ((k, start), t') ->
  length (rest t') <= length (rest t) /\ (k <> TEof -> length (rest t') < length (rest t)).
Proof.
  unfold next_token. pose proof (skip_blanks_len (rest t) (pos t)) as Hlen.
  destruct (skip_blanks (rest t) (pos t)) as [[|b s] q]; cbn [rest pos] in *; [intros [= <- <- <-]; simpl; naive_solver lia|].
  simpl in Hlen. destruct (N.eqb b _); [intros [= <- <- <-]; simpl; lia|].
  destruct (N.eqb b _); [destruct s as [|c s]; [done|]; destruct (N.eqb c _); [|done]; intros [= <- <- <-]; simpl in *; lia|].
  destruct (N.eqb b _); [destruct s as [|c s]; [done|]; destruct (N.eqb c _); [|done]; intros [= <- <- <-]; simpl in *; lia|].
  destruct (N.eqb b _); [destruct (starts_with_char _ s); [done|]; intros [= <- <- <-]; simpl; lia|].
  destruct (N.eqb b _); [intros [= <- <- <-]; simpl; lia|].
  destruct (N.eqb b _); [destruct (starts_with_char _ s); [|done]; intros [= <- <- <-]; simpl; split; [lia|done]|].
  destruct (is_ident_start b); [|done]. pose proof (ident_run_spec s) as Hi. destruct (ident_run s) as [i r].
  destruct Hi as (-> & _). intros [= <- <- <-]. rewrite length_app in Hlen. simpl. lia.
Qed.

(** The characters left, a peeked token counting as one. *)
Definition size (p : Parser) : nat :=
  length (rest (tok p)) + match peeked p with None | Some (TEof, _) => 0 | Some _ => 1 end.

Lemma peek_size p k start p' : peek p = Ok ((k, start), p') -> size p' <= size p.
Proof.
  unfold peek, size. destruct p as [tz [x|]]; cbn [peeked tok]; [intros [= -> <-]; simpl; lia|].
  intros ([[k' s'] tz'] & E & [= <- <- <-])%rbind_ok. apply next_token_len in E as [H1 H2]. cbn [peeked tok].
  destruct k'; try lia; specialize (H2 ltac:(done)); lia.
Qed.

Lemma bump_size p k start p' : bump p = Ok ((k, start), p') -> size p' <= size p /\ (k <> TEof -> size p' < size p).
Proof.
  unfold bump, size. destruct p as [tz [[k0 x]|]]; cbn [peeked tok].
  - intros [= -> -> <-]. cbn [peeked tok]. destruct k; split; intros; (done || lia).
  - intros ([[k' s'] tz'] & E & [= <- <- <-])%rbind_ok. apply next_token_len in E as [H1 H2]. cbn [peeked tok].
    split; [lia|]. intros Hk. specialize (H2 Hk). lia.
Qed.

(** [f] answers, and if it succeeds leaves less than [s]. *)
Definition answers (f : parsed) (s : nat) : Prop :=
  match f with None => False | Some (Err _) => True | Some (Ok (_, p')) => size p' < s end.

Lemma answers_then f k s s' : answers f s' -> (forall e p, size p < s' -> answers (k e p) s) -> answers (then_ f k) s.
Proof. destruct f as [[[e p]|]|]; simpl; auto. Qed.

Lemma answers_peek p k s : (forall t start p', size p' <= size p -> answers (k ((t, start), p')) s) -> answers (pbind (peek p) k) s.
Proof. intros Hk. destruct (peek p) as [[[t start] p']|] eqn:E; [|done]. apply Hk. by eapply peek_size. Qed.

Lemma answers_bump p k s : (forall t start p', size p' <= size p -> (t <> TEof -> size p' < size p) ->
  answers (k ((t, start), p')) s) -> answers (pbind (bump p) k) s.
Proof. intros Hk. destruct (bump p) as [[[t start] p']|] eqn:E; [|done]. apply bump_size in E as [? ?]. by apply Hk. Qed.

Lemma answers_weaken f s s' : answers f s -> s <= s' -> answers f s'.
Proof. destruct f as [[[e p]|]|]; simpl; [lia|done..]. Qed.

Lemma peek_bump_size p t start p1 y p2 : peek p = Ok ((t, start), p1) -> bump p1 = Ok (y, p2) -> t <> TEof -> size p2 < size p.
Proof.
  intros E1 E2 Ht. pose proof (peek_bump _ _ _ _ _ E1 E2) as ->. apply peek_size in E1. apply bump_size in E2 as [_ H2].
  specialize (H2 Ht). lia.
Qed.

Lemma parse_answers n :
  (forall p, 6 * size p + 4 <= n -> answers (parse_or n p) (size p))
  /\ (forall a p, 6 * size p + 1 <= n -> answers (or_loop n a p) (S (size p)))
  /\ (forall p, 6 * size p + 3 <= n -> answers (parse_and n p) (size p))
  /\ (forall a p, 6 * size p + 1 <= n -> answers (and_loop n a p) (S (size p)))
  /\ (forall p, 6 * size p + 2 <= n -> answers (parse_not n p) (size p))
  /\ (forall p, 6 * size p + 1 <= n -> answers (parse_primary n p) (size p)).
Proof.
  induction n as [|n (Hor & Horl & Hand & Handl & Hnot & Hprim)]; [split_and!; intros; lia|].
  split_and!; cbn [parse_or or_loop parse_and and_loop parse_not parse_primary].
  - intros p Hn. apply (answers_then _ _ _ (size p)); [apply Hand; lia|]. intros e p1 H1.
    eapply answers_weaken; [apply Horl|]; lia.
  - intros a p Hn. destruct (peek p) as [[[t start] p1]|] eqn:E1; [|done]. cbn [pbind]. pose proof (peek_size _ _ _ _ E1).
    destruct t; simpl; try lia. destruct (bump p1) as [[y p2]|] eqn:E2; [|done]. cbn [pbind].
    pose proof (peek_bump_size _ _ _ _ _ _ E1 E2 ltac:(done)).
    apply (answers_then _ _ _ (size p2)); [apply Hand; lia|]. intros e p3 H3.
    eapply answers_weaken; [apply Horl|]; lia.
  - intros p Hn. apply (answers_then _ _ _ (size p)); [apply Hnot; lia|]. intros e p1 H1.
    eapply answers_weaken; [apply Handl|]; lia.
  - intros a p Hn. destruct (peek p) as [[[t start] p1]|] eqn:E1; [|done]. cbn [pbind]. pose proof (peek_size _ _ _ _ E1).
    destruct t; simpl; try lia. destruct (bump p1) as [[y p2]|] eqn:E2; [|done]. cbn [pbind].
    pose proof (peek_bump_size _ _ _ _ _ _ E1 E2 ltac:(done)).
    apply (answers_then _ _ _ (size p2)); [apply Hnot; lia|]. intros e p3 H3.
    eapply answers_weaken; [apply Handl|]; lia.
  - intros p Hn. destruct (peek p) as [[[t start] p1]|] eqn:E1; [|done]. cbn [pbind]. pose proof (peek_size _ _ _ _ E1).
    assert (Hp : answers (parse_primary n p1) (size p)) by (eapply answers_weaken; [apply Hprim|]; lia).
    destruct t; try done. destruct (bump p1) as [[y p2]|] eqn:E2; [|done]. cbn [pbind].
    pose proof (peek_bump_size _ _ _ _ _ _ E1 E2 ltac:(done)).
    apply (answers_then _ _ _ (size p2)); [apply Hnot; lia|]. intros e p3 H3. simpl. lia.
  - intros p Hn. apply answers_bump. intros t start p1 H1 H1'. destruct t; try done; specialize (H1' ltac:(done)); [exact H1'|].
    apply (answers_then _ _ _ (size p1)); [apply Hor; lia|]. intros e p2 H2.
    apply answers_bump. intros t2 s2 p3 H3 _. destruct t2; simpl; (done || lia).
Qed.

Lemma parse_if_expr_ok input e : parse_if_expr input = Some (Ok e) <->
  exists ts, lexes (Tokenizer_new input) ts /\ or_e ts e.
Proof.
  unfold parse_if_expr. split.
  - destruct (parse_or _ _) as [[[e' p']|]|] eqn:E; [|done..]. cbn [rbind]. intros [= H].
    apply rbind_ok in H as ([] & Heof & [= <-]). unfold expect_eof in Heof.
    apply rbind_ok in Heof as ([[t start] p2] & Eb & Ht). destruct t; try done. apply bump_back_eof in Eb.
    destruct (proj1 (parse_sound _) _ _ _ E) as (ts & G & R). exists ts. split; [|done].
    specialize (R [] Eb). by rewrite app_nil_r in R.
  - intros (ts & Hl & G). destruct (proj1 parse_complete ts e G (Parser_new input) []) as (p1 & Hs1 & H1); [by rewrite app_nil_r|done|].
    destruct (or_loop_stop e p1 [] Hs1) as (p2 & Hs2 & H2); [done|]. destruct (H1 _ H2) as [n Hn].
    pose proof (proj1 (parse_answers (parse_fuel input)) (Parser_new input)) as Ha.
    unfold answers in Ha. destruct (parse_or (parse_fuel input) (Parser_new input)) as [r|] eqn:E.
    + apply (parse_or_mono _ (parse_fuel input + n)) in E; [|lia]. rewrite Hn in E by lia. injection E as <-.
      cbn [rbind]. unfold expect_eof. destruct (bump_eof _ Hs2) as (start & p3 & ->). done.
    + destruct Ha. unfold size, parse_fuel. cbn. lia.
Qed.

(** The fuel is enough. *)
Lemma parse_if_expr_answers input : exists r, parse_if_expr input = Some r.
Proof.
  unfold parse_if_expr. pose proof (proj1 (parse_answers (parse_fuel input)) (Parser_new input)) as Ha.
  destruct (parse_or _ _) as [r|]; [eauto|]. destruct Ha. unfold size, parse_fuel. cbn. lia.
Qed.

(** The [#if] parser implements its grammar: it always answers (the fuel is
    enough), and it succeeds with a tree exactly when the whole text lexes, up
    to a trailing comment, to a token stream of which the grammar (negation over
    conjunction over disjunction, both associating to the left) derives that
    tree; so a stream has at most one tree. *)
Theorem parse_if_expr_grammar input :
  (exists r, parse_if_expr input = Some r)
  /\ (forall e, parse_if_expr input = Some (Ok e) <-> exists ts, lexes (Tokenizer_new input) ts /\ or_e ts e)
  /\ (forall ts e1 e2, lexes (Tokenizer_new input) ts -> or_e ts e1 -> or_e ts e2 -> e1 = e2).
Proof.
  split_and!.
  - apply parse_if_expr_answers.
  - apply parse_if_expr_ok.
  - intros ts e1 e2 Hl G1 G2. assert (parse_if_expr input = Some (Ok e1)) as E1 by (apply parse_if_expr_ok; eauto).
    assert (parse_if_expr input = Some (Ok e2)) as E2 by (apply parse_if_expr_ok; eauto). congruence.
Qed.

(** ** Printing and parsing *)

Definition ident_wf (s : str) : bool :=
  match s with c :: s' => (is_ident_start c && forallb is_ident_continue s')%bool | [] => false end.

Fixpoint expr_wf (e : Expr) : bool :=
  match e with
  | Ident s => ident_wf s
  | Not e => expr_wf e
  | And a b | Or a b => (expr_wf a && expr_wf b)%bool
  end.

Fixpoint canonical_toks (e : Expr) : list Tok :=
  match e with
  | Ident s => [TIdent s]
  | Not e => TLParen :: (TNot :: canonical_toks e) ++ [TRParen]
  | And a b => TLParen :: (canonical_toks a ++ TAnd :: canonical_toks b) ++ [TRParen]
  | Or a b => TLParen :: (canonical_toks a ++ TOr :: canonical_toks b) ++ [TRParen]
  end.

Lemma canonical_derives e : not_e (canonical_toks e) e.
Proof.
  induction e as [s|e IH|a IHa b IHb|a IHa b IHb]; simpl; [constructor|apply (not_paren (TNot :: canonical_toks e))|apply not_paren..].
  - by apply or_and, and_not, not_not.
  - apply or_and, and_and; [by apply and_not|done].
  - apply or_or; [by apply or_and, and_not|by apply and_not].
Qed.

(** The tokens of a text, wherever it starts. *)
Definition text_lexes (s : str) (ts : list Tok) : Prop := forall q, lexes {| rest := s; pos := q |} ts.

Definition not_ident_next (k : str) : Prop := forall c, hd_error k = Some c -> is_ident_continue c = false.

Lemma ident_run_app i k : forallb is_ident_continue i = true -> not_ident_next k -> ident_run (i ++ k) = (i, k).
Proof.
  intros Hi Hk. induction i as [|c i IH]; simpl in *.
  - destruct k as [|c k]; [done|]. simpl. by rewrite (Hk c).
  - apply andb_true_iff in Hi as [-> Hi]. by rewrite IH.
Qed.

(** No blank and no operator starts an identifier. *)
Lemma ident_start_facts c : is_ident_start c = true ->
  Forall (fun d => N.eqb c d = false) [#c" "; 9%N; #c"!"; #c"&"; #c"|"; #c"("; #c")"; #c"/"].
Proof.
  unfold is_ident_start, is_ascii_alphabetic, is_ascii_upper, is_ascii_lower.
  rewrite !orb_true_iff, !in_range_spec, N.eqb_eq. chars. intros H. repeat constructor; apply N.eqb_neq; lia.
Qed.

Lemma lex_ident s k ts : ident_wf s = true -> not_ident_next k -> text_lexes k ts -> text_lexes (s ++ k) (TIdent s :: ts).
Proof.
  destruct s as [|c s]; [done|]. simpl. intros [Hc Hs]%andb_true_iff Hk Hl q.
  pose proof (ident_start_facts c Hc) as Hf. rewrite !Forall_cons in Hf. destruct Hf as (E1 & E2 & E3 & E4 & E5 & E6 & E7 & E8 & _).
  eapply lexes_tok; [|done|apply Hl]. unfold next_token. cbn [rest pos skip_blanks app]. rewrite E1, E2. cbn [orb rest pos].
  by rewrite E3, E4, E5, E6, E7, E8, Hc, ident_run_app.
Qed.

Lemma lex_lparen k ts : starts_with_char (#c"*") k = false -> text_lexes k ts -> text_lexes (#c"(" :: k) (TLParen :: ts).
Proof.
  intros Hk Hl q. eapply lexes_tok; [|done|apply (Hl (q + 1)%N)].
  transitivity (if starts_with_char (#c"*") k then Err {| at_ := q; kind := BlockCommentNotAllowed |}
                else Ok ((TLParen, q), {| rest := k; pos := q + 1 |})); [reflexivity|]. by rewrite Hk.
Qed.

Lemma lex_simple c k t ts : (c = #c"!" /\ t = TNot) \/ (c = #c")" /\ t = TRParen) -> text_lexes k ts -> text_lexes (c :: k) (t :: ts).
Proof. intros [[-> ->]|[-> ->]] Hl q; (eapply lexes_tok; [reflexivity|done|apply Hl]). Qed.

Lemma lex_blank k ts : text_lexes k ts -> text_lexes (#c" " :: k) ts.
Proof.
  intros Hl q. specialize (Hl (q + 1)%N).
  assert (E0 : next_token {| rest := #c" " :: k; pos := q |} = next_token {| rest := k; pos := q + 1 |}) by done.
  inversion Hl as [t start t' E|t x start t' ts' E Hx Hl']; subst; rewrite <- E0 in E; [by eapply lexes_eof|by eapply lexes_tok].
Qed.

Lemma lex_operator (and : bool) k ts : text_lexes k ts ->
  text_lexes ((if and then #" && " else #" || ") ++ k) ((if and then TAnd else TOr) :: ts).
Proof.
  intros Hl. destruct and; cbn [app]; apply lex_blank; intros q.
  - eapply (lexes_tok _ TAnd); [reflexivity|done|]. by apply lex_blank.
  - eapply (lexes_tok _ TOr); [reflexivity|done|]. by apply lex_blank.
Qed.

Lemma lex_end : text_lexes [] [].
Proof. intros q. by eapply lexes_eof. Qed.

(** A printed expression starts with an identifier or a parenthesis. *)
Lemma canonical_start e k : expr_wf e = true -> starts_with_char (#c"*") (to_canonical_string e ++ k) = false.
Proof.
  destruct e as [s|e|a b|a b]; [|done..]. simpl. destruct s as [|c s]; [done|]. simpl. intros [Hc _]%andb_true_iff.
  unfold is_ident_start, is_ascii_alphabetic, is_ascii_upper, is_ascii_lower in Hc.
  rewrite !orb_true_iff, !in_range_spec, N.eqb_eq in Hc. apply N.eqb_neq. revert Hc. chars. lia.
Qed.

Lemma paren_toks x t y ts : (TLParen :: (x ++ t :: y) ++ [TRParen]) ++ ts = TLParen :: x ++ t :: y ++ TRParen :: ts.
Proof. rewrite <- app_comm_cons, <- !app_assoc. simpl. done. Qed.

Lemma paren_text a op b k : (#"(" ++ a ++ op ++ b ++ #")") ++ k = #c"(" :: a ++ op ++ b ++ #c")" :: k.
Proof. by rewrite <- !app_assoc. Qed.

Lemma lex_canonical e k ts : expr_wf e = true -> not_ident_next k -> text_lexes k ts ->
  text_lexes (to_canonical_string e ++ k) (canonical_toks e ++ ts).
Proof.
  assert (Hclose : forall k ts, text_lexes k ts -> not_ident_next (#c")" :: k) /\ text_lexes (#c")" :: k) (TRParen :: ts))
    by (intros k' ts' Hl; split; [by intros c [= <-]|apply lex_simple; auto]).
  revert k ts. induction e as [s|e IH|a IHa b IHb|a IHa b IHb]; intros k ts Hwf Hk Hl;
    [by apply lex_ident|..]; simpl in Hwf; cbn [to_canonical_string canonical_toks]; destruct (Hclose _ _ Hl) as [Hc1 Hc2].
  - pose proof (paren_toks [] TNot (canonical_toks e) ts) as Et. cbn [app] in Et |- *. rewrite Et, <- !app_assoc.
    apply lex_lparen; [done|]. apply lex_simple; [auto|]. by apply IH.
  - apply andb_true_iff in Hwf as [Ha Hb]. rewrite paren_toks, paren_text. apply lex_lparen; [by apply canonical_start|].
    apply IHa; [done|by intros c [= <-]|]. apply (lex_operator true). by apply IHb.
  - apply andb_true_iff in Hwf as [Ha Hb]. rewrite paren_toks, paren_text. apply lex_lparen; [by apply canonical_start|].
    apply IHa; [done|by intros c [= <-]|]. apply (lex_operator false). by apply IHb.
Qed.

Lemma canonical_parses e : expr_wf e = true ->
  parse_if_expr (to_canonical_string e) = Some (Ok e).
Proof.
  intros Hwf. apply parse_if_expr_ok. exists (canonical_toks e). split.
  - pose proof (lex_canonical e [] [] Hwf ltac:(done) lex_end 0%N) as Hl. by rewrite !app_nil_r in Hl.
  - apply or_and, and_not, canonical_derives.
Qed.

(** Printing round-trips: the canonical string of an expression over valid
    identifiers parses back to that expression, so it evaluates alike under every
    set of symbols. *)
Theorem parse_if_expr_canonical e : expr_wf e = true ->
  parse_if_expr (to_canonical_string e) = Some (Ok e).
Proof. apply canonical_parses. Qed.

Lemma parse_if_expr_canonical_witness :
  parse_if_expr (#"((!A) && (B || C'))") = Some (Ok (And (Not (Ident (#"A"))) (Or (Ident (#"B")) (Ident (#"C'"))))).
Proof. apply (parse_if_expr_canonical (And (Not (Ident (#"A"))) (Or (Ident (#"B")) (Ident (#"C'"))))). reflexivity. Defined.

Lemma parse_if_expr_grammar_witness : exists r, parse_if_expr (#"A && B") = Some r.
Proof. apply (parse_if_expr_grammar (#"A && B")). Defined.
