(* ===== verification/Escaping.v ===== *)
(** * MSBuild's escaped values ([crates/msbuild/src/properties/escaping.rs])

    [escape] and [unescape], the test [decodes_to_any], and the [Escaped] value
    domain.  Every character the code looks at is ASCII, so offsets count
    scalar values instead of bytes.

    The theorems: the index-based scan of [unescape] computes the plain
    left-to-right decoding; unescaping inverts escaping; an escaped value is one
    list item without live wildcards; and a character of a decoded text was
    either written or is reported by [decodes_to_any]. *)

From S2P Require Import Prelude.

Definition CHARS_TO_ESCAPE : str := #"%*?@$();'".

(** Only called below 16. *)
Definition hex_digit (x : N) : char := if N.ltb x 10 then (48 + x)%N else (97 - 10 + x)%N.

Definition decode_hex_digit (b : char) : option N :=
  if in_range 48 57 b then Some (b - 48)%N
  else if in_range 65 70 b then Some (b - 65 + 10)%N
  else if in_range 97 102 b then Some (b - 97 + 10)%N
  else None.

Definition reserved (c : char) : bool := contains_char c CHARS_TO_ESCAPE.

Definition escape (unescaped : str) : str :=
  if negb (existsb reserved unescaped) then unescaped
  else
    fold_left (fun out c =>
      if reserved c then out ++ [#c"%"; hex_digit (c / 16); hex_digit (N.land c 15)] else out ++ [c])
      unescaped [].

Definition is_percent (c : char) : bool := N.eqb c (#c"%").

(** [&s[i..j]]; [None] is the panic when [j < i] or [j] is past the end. *)
Definition slice (s : str) (i j : nat) : option str :=
  if (Nat.leb i j && Nat.leb j (length s))%bool then Some (take (j - i) (drop i s)) else None.

Definition hex_at (s : str) (i : nat) : option N := s !! i ≫= decode_hex_digit.

(** The [loop] of [unescape]; [None] is a panic or the end of the fuel. *)
Fixpoint unescape_loop (fuel : nat) (escaped out : str) (copied at_ : nat) : option str :=
  match fuel with
  | O => None
  | S fuel' =>
      '(out, copied) ←
        match hex_at escaped (at_ + 1), hex_at escaped (at_ + 2) with
        | Some hi, Some lo =>
            part ← slice escaped copied at_;
            Some (out ++ part ++ [hi * 16 + lo]%N, at_ + 3)
        | _, _ => Some (out, copied)
        end;
      match position is_percent (drop (at_ + 1) escaped) with
      | Some next => unescape_loop fuel' escaped out copied (at_ + (1 + next))
      | None => part ← slice escaped copied (length escaped); Some (out ++ part)
      end
  end.

Definition unescape (escaped : str) : option str :=
  match position is_percent escaped with
  | None => Some escaped
  | Some first => unescape_loop (length escaped) escaped [] 0 first
  end.

Definition is_ascii_hexdigit (c : char) : bool := (in_range 48 57 c || in_range 65 70 c || in_range 97 102 c)%bool.

(** [windows(3).any(..)]. *)
Fixpoint decodes_to_any (escaped : str) (targets : list char) : bool :=
  match escaped with
  | a :: ((b :: c :: _) as rest) =>
      ((is_percent a && is_ascii_hexdigit b && is_ascii_hexdigit c
        && match unescape [a; b; c] with
           | Some (d :: _) => contains_char d targets
           | _ => false
           end)
       || decodes_to_any rest targets)%bool
  | _ => false
  end.

(** ** The value domain *)

Record Escaped := { as_escaped : str }.
Definition from_xml (text : str) : Escaped := {| as_escaped := text |}.
Definition from_computed (text : str) : Escaped := {| as_escaped := escape text |}.
Definition Escaped_unescape (e : Escaped) : option str := unescape (as_escaped e).
Definition push (e other : Escaped) : Escaped := {| as_escaped := as_escaped e ++ as_escaped other |}.
Definition push_xml (e : Escaped) (text : str) : Escaped := {| as_escaped := as_escaped e ++ text |}.
Definition push_unescaped_raw (e : Escaped) (text : str) : Escaped := {| as_escaped := as_escaped e ++ text |}.
Definition split_list (e : Escaped) : list Escaped :=
  map from_xml (List.filter (fun s => negb (is_empty s)) (map trim (split (#c";") (as_escaped e)))).
Definition trimmed_unescaped (e : Escaped) : option str := unescape (trim (as_escaped e)).
Definition has_live_wildcard (e : Escaped) : bool :=
  existsb (fun c => (N.eqb c (#c"*") || N.eqb c (#c"?"))%bool) (as_escaped e).

(** ** The reference decoder *)

Fixpoint decode (s : str) : str :=
  match s with
  | [] => []
  | a :: s' =>
      match s' with
      | b :: c :: rest =>
          match is_percent a, decode_hex_digit b, decode_hex_digit c with
          | true, Some hi, Some lo => (hi * 16 + lo)%N :: decode rest
          | _, _, _ => a :: decode s'
          end
      | _ => a :: decode s'
      end
  end.

Example unescape_ex : unescape (#"%2525%%41%4%z") = Some (#"%25%A%4%z") /\ escape (#"a;b%") = #"a%3bb%25"
  /\ split_list (from_xml (#"A%3bB ; ;C")) = [from_xml (#"A%3bB"); from_xml (#"C")].
Proof. vm_compute. auto. Qed.

(** ** [unescape] is the reference decoder *)

Definition no_percent (s : str) : Prop := Forall (fun c => is_percent c = false) s.

Lemma position_percent l : match position is_percent l with
  | Some n => exists x r, l = x ++ #c"%" :: r /\ length x = n /\ no_percent x
  | None => no_percent l
  end.
Proof.
  induction l as [|c l IH]; simpl; [constructor|]. destruct (is_percent c) eqn:Ec.
  - apply N.eqb_eq in Ec as ->. exists [], l. split_and!; [done..|constructor].
  - destruct (position is_percent l) as [n|]; simpl; [|by constructor].
    destruct IH as (x & r & -> & <- & Hx). exists (c :: x), r. split_and!; [done..|by constructor].
Qed.

Lemma decode_cons a s : is_percent a = false -> decode (a :: s) = a :: decode s.
Proof. intros Ha. destruct s as [|b [|c s]]; [done..|]. cbn [decode]. by rewrite Ha. Qed.

Lemma decode_plain x s : no_percent x -> decode (x ++ s) = x ++ decode s.
Proof. induction 1 as [|c x Hc _ IH]; [done|]. rewrite <- app_comm_cons, decode_cons by done. by rewrite IH. Qed.

(** What follows a percent sign, as two hexadecimal digits. *)
Definition two_digits (r : str) : option (N * str) :=
  match r with
  | b :: c :: rest => hi ← decode_hex_digit b; lo ← decode_hex_digit c; Some (hi * 16 + lo, rest)%N
  | _ => None
  end.

Lemma decode_percent r : decode (#c"%" :: r) =
  match two_digits r with Some (v, rest) => v :: decode rest | None => #c"%" :: decode r end.
Proof.
  destruct r as [|b [|c r]]; [done..|]. cbn [decode two_digits].
  destruct (decode_hex_digit b) as [hi|], (decode_hex_digit c) as [lo|]; done.
Qed.

Lemma hex_not_percent b hi : decode_hex_digit b = Some hi -> is_percent b = false.
Proof.
  unfold decode_hex_digit, is_percent. intros H. apply N.eqb_neq. intros ->. by vm_compute in H.
Qed.

Lemma hex_at_next p a r k : hex_at (p ++ a :: r) (length p + S k) = r !! k ≫= decode_hex_digit.
Proof.
  unfold hex_at. rewrite lookup_app_r by lia. replace (length p + S k - length p) with (S k) by lia. done.
Qed.

Lemma slice_between a m r : slice (a ++ m ++ r) (length a) (length a + length m) = Some m.
Proof.
  unfold slice. rewrite !length_app. destruct (Nat.leb_spec (length a) (length a + length m)); [|lia].
  destruct (Nat.leb_spec (length a + length m) (length a + (length m + length r))); [|lia]. cbn [andb].
  rewrite drop_app_length. replace (length a + length m - length a) with (length m) by lia. by rewrite take_app_length.
Qed.

Lemma slice_end a m : slice (a ++ m) (length a) (length (a ++ m)) = Some m.
Proof. rewrite <- (app_nil_r (a ++ m)) at 1. rewrite <- app_assoc, length_app. apply slice_between. Qed.

Lemma drop_after (p : str) a r : drop (length p + 1) (p ++ a :: r) = r.
Proof.
  replace (p ++ a :: r) with ((p ++ [a]) ++ r) by (by rewrite <- app_assoc).
  replace (length p + 1) with (length (p ++ [a])) by (rewrite length_app; done). apply drop_app_length.
Qed.

(** The digits after a [%] are never one themselves, so the scan goes past them. *)
Lemma position_digits r v rest : two_digits r = Some (v, rest) ->
  exists b c, r = b :: c :: rest /\ position is_percent r = (fun n => S (S n)) <$> position is_percent rest.
Proof.
  destruct r as [|b [|c r2]]; [done..|]. cbn [two_digits].
  destruct (decode_hex_digit b) as [hi|] eqn:Eb; [|done]. destruct (decode_hex_digit c) as [lo|] eqn:Ec; [|done].
  intros [= <- <-]. exists b, c. split; [done|]. cbn [position].
  rewrite (hex_not_percent b hi Eb), (hex_not_percent c lo Ec). by destruct (position is_percent r2).
Qed.

(** What one turn of the loop decodes. *)
Lemma turn_spec pre mid r out : let s := pre ++ mid ++ #c"%" :: r in let at' := length pre + length mid in
  match hex_at s (at' + 1), hex_at s (at' + 2) with
  | Some hi, Some lo => part ← slice s (length pre) at'; Some (out ++ part ++ [hi * 16 + lo]%N, at' + 3)
  | _, _ => Some (out, length pre)
  end = Some match two_digits r with
             | Some (v, _) => (out ++ mid ++ [v], at' + 3)
             | None => (out, length pre)
             end.
Proof.
  intros s at'. assert (Hh : forall k, hex_at s (at' + S k) = r !! k ≫= decode_hex_digit).
  { intros k. unfold s, at'. rewrite app_assoc, <- length_app. apply hex_at_next. }
  rewrite (Hh 0), (Hh 1). unfold s, at'. rewrite slice_between.
  destruct r as [|b [|c r]]; [done|cbn; by destruct (decode_hex_digit b)|]. cbn.
  destruct (decode_hex_digit b), (decode_hex_digit c); done.
Qed.

(** One [%] at [pre ++ mid], everything before it accounted for. *)
Lemma unescape_loop_spec fuel pre mid r out : length r < fuel ->
  unescape_loop fuel (pre ++ mid ++ #c"%" :: r) out (length pre) (length pre + length mid)
  = Some (out ++ mid ++ decode (#c"%" :: r)).
Proof.
  revert pre mid r out. induction fuel as [|fuel IH]; intros pre mid r out Hf; [lia|]. cbn [unescape_loop].
  assert (Hd : drop (length pre + length mid + 1) (pre ++ mid ++ #c"%" :: r) = r)
    by (rewrite app_assoc, <- length_app; apply drop_after).
  rewrite turn_spec, Hd, decode_percent. cbn [mbind option_bind].
  destruct (two_digits r) as [[v rest]|] eqn:Et; [destruct (position_digits r v rest Et) as (b & c & -> & ->)|].
  - set (pre' := pre ++ mid ++ [#c"%"; b; c]).
    assert (Hlen : length pre + length mid + 3 = length pre') by (unfold pre'; rewrite !length_app; simpl; lia). rewrite Hlen.
    replace (pre ++ mid ++ #c"%" :: b :: c :: rest) with (pre' ++ rest) by (unfold pre'; by rewrite <- !app_assoc).
    pose proof (position_percent rest) as Hpos. destruct (position is_percent rest) as [n|]; cbn [fmap option_fmap option_map].
    + destruct Hpos as (x & r3 & -> & <- & Hx).
      replace (length pre + length mid + (1 + S (S (length x)))) with (length pre' + length x) by lia.
      rewrite IH by (simpl in Hf; rewrite length_app in Hf; simpl in Hf; lia).
      rewrite (decode_plain x) by done. by rewrite <- !app_assoc.
    + rewrite slice_end. cbn [mbind option_bind]. rewrite <- (app_nil_r rest) at 2.
      by rewrite (decode_plain rest), app_nil_r, <- !app_assoc.
  - pose proof (position_percent r) as Hpos. destruct (position is_percent r) as [n|].
    + destruct Hpos as (x & r3 & -> & <- & Hx).
      replace (length pre + length mid + (1 + length x)) with (length pre + length (mid ++ #c"%" :: x)) by (rewrite length_app; simpl; lia).
      replace (pre ++ mid ++ #c"%" :: x ++ #c"%" :: r3) with (pre ++ (mid ++ #c"%" :: x) ++ #c"%" :: r3) by (by rewrite <- !app_assoc).
      rewrite IH by (rewrite length_app in Hf; simpl in Hf; lia). rewrite (decode_plain x) by done. by rewrite <- !app_assoc.
    + rewrite slice_end. cbn [mbind option_bind]. rewrite <- (app_nil_r r) at 2. by rewrite (decode_plain r), app_nil_r.
Qed.

Lemma unescape_decode s : unescape s = Some (decode s).
Proof.
  unfold unescape. pose proof (position_percent s) as Hpos. destruct (position is_percent s) as [n|].
  - destruct Hpos as (x & r & -> & <- & Hx). rewrite (decode_plain x) by done.
    apply (unescape_loop_spec _ [] x r []). rewrite length_app. simpl. lia.
  - rewrite <- (app_nil_r s) at 2. by rewrite decode_plain, app_nil_r.
Qed.

(** ** Escaping *)

Definition esc (c : char) : str :=
  if reserved c then [#c"%"; hex_digit (c / 16); hex_digit (N.land c 15)] else [c].

Lemma escape_fold s out : fold_left (fun out c =>
    if reserved c then out ++ [#c"%"; hex_digit (c / 16); hex_digit (N.land c 15)] else out ++ [c]) s out
  = out ++ concat (map esc s).
Proof.
  revert out. induction s as [|c s IH]; intros out; cbn [fold_left map concat]; [by rewrite app_nil_r|].
  rewrite IH. unfold esc at 2. destruct (reserved c); by rewrite <- app_assoc.
Qed.

Lemma escape_concat s : escape s = concat (map esc s).
Proof.
  unfold escape. destruct (existsb reserved s) eqn:Ex; cbn [negb]; [apply (escape_fold s [])|].
  induction s as [|c s IH]; [done|]. cbn [existsb] in Ex. apply orb_false_iff in Ex as [Ec Ex].
  cbn [map concat]. unfold esc at 1. rewrite Ec. cbn [app]. f_equal. auto.
Qed.

Lemma reserved_cases c : reserved c = true -> c ∈ CHARS_TO_ESCAPE.
Proof.
  unfold reserved, contains_char. intros (x & Hx & ->%N.eqb_eq)%existsb_exists. by apply list_elem_of_In.
Qed.

(** The nine characters, one by one. *)
Ltac each_reserved H :=
  apply reserved_cases in H; unfold CHARS_TO_ESCAPE in H; cbv in H;
  repeat (apply elem_of_cons in H as [->|H]; [vm_compute; try done|]); by apply not_elem_of_nil in H.

Lemma decode_esc c s : decode (esc c ++ s) = c :: decode s.
Proof.
  unfold esc. destruct (reserved c) eqn:E.
  - cbn [app]. rewrite decode_percent.
    assert (two_digits (hex_digit (c / 16) :: hex_digit (N.land c 15) :: s) = Some (c, s)) as ->; [|done].
    assert (Hd : decode_hex_digit (hex_digit (c / 16)) = Some (c / 16)%N /\ decode_hex_digit (hex_digit (N.land c 15)) = Some (N.land c 15)
      /\ (c / 16 * 16 + N.land c 15 = c)%N) by each_reserved E.
    destruct Hd as (E1 & E2 & E3). cbn [two_digits]. rewrite E1, E2. cbn [mbind option_bind]. by rewrite E3.
  - apply decode_cons. destruct (is_percent c) eqn:Ep; [|done]. apply N.eqb_eq in Ep as ->. by vm_compute in E.
Qed.

Lemma decode_escape s : decode (escape s) = s.
Proof.
  rewrite escape_concat. induction s as [|c s IH]; [done|]. cbn [map concat]. rewrite decode_esc. by rewrite IH.
Qed.

(** No reserved character but [%] is left. *)
Lemma esc_chars c d : d ∈ esc c -> reserved d = false \/ d = #c"%".
Proof.
  unfold esc. destruct (reserved c) eqn:E.
  - intros Hd. assert (Hh : reserved (hex_digit (c / 16)) = false /\ reserved (hex_digit (N.land c 15)) = false) by each_reserved E.
    destruct Hh. repeat (apply elem_of_cons in Hd as [->|Hd]; [auto|]). by apply not_elem_of_nil in Hd.
  - intros ->%list_elem_of_singleton. auto.
Qed.

Lemma escape_chars s d : d ∈ escape s -> reserved d = false \/ d = #c"%".
Proof.
  rewrite escape_concat. intros Hd. apply list_elem_of_In, in_concat in Hd as (x & Hx & Hd).
  apply in_map_iff in Hx as (c & <- & _). by eapply esc_chars, list_elem_of_In.
Qed.

(** ** Trimming commutes with escaping *)

Lemma drop_while_concat (f : char -> str) s :
  (forall c, is_whitespace c = true -> f c = [c]) ->
  (forall c, is_whitespace c = false -> exists d t, f c = d :: t /\ is_whitespace d = false) ->
  drop_while is_whitespace (concat (map f s)) = concat (map f (drop_while is_whitespace s)).
Proof.
  intros H1 H2. induction s as [|c s IH]; [done|]. cbn [map concat drop_while]. destruct (is_whitespace c) eqn:E.
  - rewrite (H1 c E). cbn [app drop_while]. by rewrite E.
  - destruct (H2 c E) as (d & t & Ef & Ed). cbn [map concat]. rewrite Ef. cbn [app drop_while]. by rewrite Ed.
Qed.

Lemma rev_concat_map (f : char -> str) s : rev (concat (map f s)) = concat (map (fun c => rev (f c)) (rev s)).
Proof.
  induction s as [|c s IH]; [done|]. cbn [map concat rev]. rewrite rev_app_distr, IH, map_app, concat_app. cbn. by rewrite app_nil_r.
Qed.

Lemma esc_ends c : (is_whitespace c = true -> esc c = [c])
  /\ (is_whitespace c = false -> (exists d t, esc c = d :: t /\ is_whitespace d = false)
        /\ exists d t, rev (esc c) = d :: t /\ is_whitespace d = false).
Proof.
  unfold esc. destruct (reserved c) eqn:E; [|split; [done|intros; split; by exists c, []]].
  assert (Hw : is_whitespace c = false /\ is_whitespace (hex_digit (N.land c 15)) = false) by each_reserved E.
  destruct Hw as [Hc Hw]. split; [congruence|]. intros _. split; [by eexists _, _|]. eexists _, _. split; [reflexivity|done].
Qed.

Lemma trim_escape s : trim (escape s) = escape (trim s).
Proof.
  unfold trim, trim_matches, trim_end_matches, trim_start_matches. rewrite !escape_concat.
  rewrite drop_while_concat by (intros c ?; by apply esc_ends). rewrite rev_concat_map.
  rewrite drop_while_concat.
  - rewrite rev_concat_map. f_equal. apply map_ext. intros c. apply rev_involutive.
  - intros c Hc. by rewrite (proj1 (esc_ends c) Hc).
  - intros c Hc. by apply esc_ends.
Qed.

Lemma escape_empty s : escape s = [] <-> s = [].
Proof.
  split; [|by intros ->]. intros E. apply (f_equal decode) in E. by rewrite decode_escape in E.
Qed.

(** The scan of [unescape], with its indices and slices, computes the plain
    decoding: at each [%] followed by two hexadecimal digits the character they
    name, every other character as it is, and nothing read twice.  No slice is
    out of range and the loop ends. *)
Theorem unescape_is_decode s : unescape s = Some (decode s).
Proof. apply unescape_decode. Qed.

(** The law of the domain: unescaping inverts escaping, on every text, and
    trimming inside the domain trims the text. *)
Theorem unescape_escape s :
  unescape (escape s) = Some s /\ Escaped_unescape (from_computed s) = Some s
  /\ trimmed_unescaped (from_computed s) = Some (trim s).
Proof.
  unfold Escaped_unescape, trimmed_unescaped. cbn [from_computed as_escaped].
  rewrite trim_escape, !unescape_decode, !decode_escape. done.
Qed.

(** A computed value is data: it has no live wildcard, and as a list it is
    the one item it is (or no item, when blank), whatever semicolons, stars or
    percent signs it contains. *)
Theorem from_computed_is_data s :
  has_live_wildcard (from_computed s) = false
  /\ map Escaped_unescape (split_list (from_computed s)) = if is_empty (trim s) then [] else [Some (trim s)].
Proof.
  split.
  - apply not_true_iff_false. unfold has_live_wildcard. intros (d & Hd & E)%existsb_exists.
    apply list_elem_of_In, escape_chars in Hd. apply orb_true_iff in E as [->%N.eqb_eq| ->%N.eqb_eq];
      destruct Hd as [Hd|Hd]; by vm_compute in Hd.
  - unfold split_list. cbn [from_computed as_escaped].
    rewrite split_no_sep.
    2: { apply Forall_forall. intros d Hd ->. apply escape_chars in Hd as [Hd|Hd]; by vm_compute in Hd. }
    cbn [map List.filter]. rewrite trim_escape. destruct (trim s) as [|c t] eqn:Et; [done|].
    destruct (escape (c :: t)) as [|d u] eqn:Ee; [by apply (proj1 (escape_empty _)) in Ee|]. cbn [is_empty negb map].
    unfold Escaped_unescape. cbn [from_xml as_escaped]. by rewrite <- Ee, unescape_decode, decode_escape.
Qed.

(** ** [decodes_to_any] *)

Lemma hexdigit_decode b : is_ascii_hexdigit b = true <-> exists v, decode_hex_digit b = Some v.
Proof.
  unfold is_ascii_hexdigit, decode_hex_digit.
  destruct (in_range 48 57 b); [split; eauto|]. destruct (in_range 65 70 b); [split; eauto|].
  destruct (in_range 97 102 b); [split; eauto|]. split; [done|]. by intros [v ?].
Qed.

Lemma window_decodes a b c targets :
  (is_percent a && is_ascii_hexdigit b && is_ascii_hexdigit c
     && match unescape [a; b; c] with Some (d :: _) => contains_char d targets | _ => false end)%bool = true
  <-> is_percent a = true /\ exists v, two_digits [b; c] = Some (v, []) /\ contains_char v targets = true.
Proof.
  rewrite !andb_true_iff, !hexdigit_decode, unescape_decode. split.
  - intros (((Ha & hi & Eb) & lo & Ec) & Hm). split; [done|]. apply N.eqb_eq in Ha as ->. rewrite decode_percent in Hm.
    cbn [two_digits] in *. rewrite Eb, Ec in *. cbn in *. eauto.
  - intros (Ha & v & Et & Hv). apply N.eqb_eq in Ha as E. subst a. rewrite decode_percent, Et. cbn [two_digits] in Et.
    destruct (decode_hex_digit b) as [hi|]; [|done]. destruct (decode_hex_digit c) as [lo|]; [|done]. eauto 10.
Qed.

Lemma decodes_to_any_spec s targets : decodes_to_any s targets = true <->
  exists pre r v rest, s = pre ++ #c"%" :: r /\ two_digits r = Some (v, rest) /\ contains_char v targets = true.
Proof.
  induction s as [|a s IH].
  { split; [done|]. intros (pre & r & v & rest & E & _). by destruct pre. }
  destruct s as [|b [|c s]].
  1, 2: split; [done|]; intros (pre & r & v & rest & E & Et & _);
    apply (f_equal length) in E; rewrite length_app in E; simpl in E; destruct r as [|? [|? ?]]; simpl in *; (done || lia).
  cbn [decodes_to_any]. rewrite orb_true_iff, window_decodes, IH. split.
  - intros [(Ha & v & Et & Hv)|(pre & r & v & rest & E & Et & Hv)].
    + apply N.eqb_eq in Ha as ->. exists [], (b :: c :: s), v, s. split_and!; [done| |done]. cbn [two_digits] in *.
      destruct (decode_hex_digit b), (decode_hex_digit c); try done. by injection Et as <-.
    + exists (a :: pre), r, v, rest. by rewrite E.
  - intros ([|x pre] & r & v & rest & E & Et & Hv); simplify_eq/=.
    + left. split; [done|]. exists v. split; [|done]. destruct (decode_hex_digit b), (decode_hex_digit c); try done. by injection Et as <-.
    + right. by exists pre, r, v, rest.
Qed.

(** A character of the decoding was in the text or was decoded. *)
Lemma decode_chars n s c : length s < n -> c ∈ decode s ->
  c ∈ s \/ exists pre r rest, s = pre ++ #c"%" :: r /\ two_digits r = Some (c, rest).
Proof.
  revert s. induction n as [|n IH]; intros s Hn; [lia|]. destruct s as [|a s]; [by intros ?%not_elem_of_nil|]. simpl in Hn.
  assert (Hskip : forall x s', a :: s = x ++ s' -> x <> [] -> c ∈ decode s' ->
    c ∈ a :: s \/ exists pre r rest, a :: s = pre ++ #c"%" :: r /\ two_digits r = Some (c, rest)).
  { intros x s' E Hx Hc. assert (length s' < n).
    { apply (f_equal length) in E. rewrite length_app in E. destruct x; simpl in *; [done|lia]. }
    destruct (IH s' ltac:(done) Hc) as [Hin|(pre & r & rest & -> & Et)]; rewrite E; [left; set_solver|].
    right. exists (x ++ pre), r, rest. by rewrite <- app_assoc. }
  destruct (is_percent a) eqn:Ea.
  - apply N.eqb_eq in Ea as ->. rewrite decode_percent. destruct (two_digits s) as [[v rest]|] eqn:Et.
    + destruct (position_digits _ _ _ Et) as (b & d & Es & _).
      intros [->|Hc]%elem_of_cons; [right; by exists [], s, rest|].
      apply (Hskip [#c"%"; b; d] rest); [by rewrite Es|done..].
    + intros [->|Hc]%elem_of_cons; [left; by left|]. by apply (Hskip [#c"%"] s).
  - rewrite decode_cons by done. intros [->|Hc]%elem_of_cons; [left; by left|]. by apply (Hskip [a] s).
Qed.

(** [decodes_to_any] finds exactly the escapes of the targets; so a target
    that is neither written in a text nor reported is not in its decoding, and a
    scanner that looks for it there cannot mistake data for syntax. *)
Theorem decodes_to_any_exact s targets :
  (decodes_to_any s targets = true <->
     exists pre r v rest, s = pre ++ #c"%" :: r /\ two_digits r = Some (v, rest) /\ contains_char v targets = true)
  /\ (decodes_to_any s targets = false -> forall c, contains_char c targets = true -> ~ c ∈ s ->
        forall text, unescape s = Some text -> ~ c ∈ text).
Proof.
  split; [apply decodes_to_any_spec|]. intros Hno c Ht Hc text. rewrite unescape_decode. intros [= <-] Hin.
  apply (decode_chars (S (length s))) in Hin as [?|(pre & r & rest & E & Et)]; [done| |lia].
  apply not_true_iff_false in Hno. destruct Hno. apply decodes_to_any_spec. by exists pre, r, c, rest.
Qed.

Lemma unescape_escape_witness : unescape (escape (#"100%; *.fs")) = Some (#"100%; *.fs").
Proof. apply (unescape_escape (#"100%; *.fs")). Defined.

Lemma decodes_to_any_exact_witness : ~ #c";" ∈ #"a b".
Proof.
  apply (proj2 (decodes_to_any_exact (#"a%20b") (#";*")) eq_refl (#c";")); [reflexivity| |reflexivity].
  intros H. by repeat (apply elem_of_cons in H as [H|H]; [by vm_compute in H|]); apply not_elem_of_nil in H.
Defined.
