(* ===== verification/Properties.v ===== *)
(** * MSBuild properties: [msbuild/src/properties/mod.rs], [path_fixup.rs]

    The property table, and the computations that property functions are made of:
    paths, versions, and what a target framework moniker says.  The expressions
    that call them are in [PropExpr].

    The model is of the build for a Unix host: [cfg!(windows)] is false, and
    [std::path] is that of Unix.  Paths are text.  The characters these functions
    look at are ASCII, so positions count scalar values. *)

From stdpp Require Import gmap.
From S2P Require Import Prelude Order Escaping.

(** What the code asks of the machine it runs on. *)
Class Host := {
  os : str;
  is_file : str -> bool }.

(** ** Computations that decline

    A computation of the evaluators: it is done and has pushed a list of issues
    or names; it declined, and what it pushed is dropped by every caller; or it
    is stuck, at a panic or at the end of the fuel. *)
Inductive run (L A : Type) : Type :=
| Done (a : A) (log : list L)
| Declined
| Stuck.
Arguments Done {L A} a log.
Arguments Declined {L A}.
Arguments Stuck {L A}.

#[export] Instance run_ret {L} : MRet (run L) := fun A a => Done a [].
#[export] Instance run_bind {L} : MBind (run L) := fun A B k m =>
  match m with
  | Done a log => match k a with Done b log' => Done b (log ++ log') | Declined => Declined | Stuck => Stuck end
  | Declined => Declined
  | Stuck => Stuck
  end.

#[export] Instance run_fmap {L} : FMap (run L) := fun A B f m =>
  match m with Done a log => Done (f a) log | Declined => Declined | Stuck => Stuck end.

(** [.ok_or(Unsupported)?], a test that declines, a push, and an index that
    panics when it is out of range. *)
Definition ok_or_decline {L A} (o : option A) : run L A := match o with Some a => Done a [] | None => Declined end.
Definition require {L} (b : bool) : run L unit := if b then Done tt [] else Declined.
Definition tell {L} (l : L) : run L unit := Done tt [l].
Definition ok_or_panic {L A} (o : option A) : run L A := match o with Some a => Done a [] | None => Stuck end.

(** [unescape] always returns ([Escaping.unescape_decode]), so the default is not
    used. *)
Definition unescaped (s : str) : str := default [] (unescape s).

(** ** The property table *)

Inductive Issue := Undefined (name : str) | Unsupported (expression : str).

Record Entry := { canonical : str; value : Escaped }.
Notation PropertyMap := (gmap str Entry) (only parsing).

Definition PropertyMap_new : PropertyMap := ∅.

Definition insert_escaped (m : PropertyMap) (key : str) (v : Escaped) : PropertyMap :=
  let low := lower key in
  match m !! low with
  | Some e => <[low := {| canonical := canonical e; value := v |}]> m
  | None => <[low := {| canonical := key; value := v |}]> m
  end.
Definition insert_xml (m : PropertyMap) (key v : str) : PropertyMap := insert_escaped m key (from_xml v).
Definition insert_computed (m : PropertyMap) (key v : str) : PropertyMap := insert_escaped m key (from_computed v).

Definition get (m : PropertyMap) (key : str) : option Escaped := value <$> m !! lower key.
Definition get_unescaped (m : PropertyMap) (key : str) : option str := (fun e => unescaped (as_escaped e)) <$> get m key.
Definition remove (m : PropertyMap) (key : str) : PropertyMap := delete (lower key) m.

(** In the order of the hash map, which is unspecified. *)
Definition canonical_keys (m : PropertyMap) : list str := map (fun e => canonical e.2) (map_to_list m).

(** ** [std::path] on Unix *)

Definition SLASH : char := #c"/".
Definition BACKSLASH : char := 92%N.

Definition is_absolute (s : str) : bool := starts_with_char SLASH s.
Definition segments (s : str) : list str := split SLASH (if is_absolute s then tail s else s).

(** Empty segments are no components, and neither is a dot, except at the start
    of a relative path.  The segments are given last first. *)
Fixpoint drop_back (absolute : bool) (r : list str) : list str :=
  match r with
  | [] => []
  | [x] => if (is_empty x || absolute && str_eqb x (#"."))%bool then [] else r
  | x :: r' => if (is_empty x || str_eqb x (#"."))%bool then drop_back absolute r' else r
  end.
Definition back (s : str) : list str := drop_back (is_absolute s) (rev (segments s)).

Definition Path_parent (s : str) : option str :=
  match back s with
  | [] => None
  | _ :: r => Some ((if is_absolute s then [SLASH] else []) ++ join [SLASH] (rev (drop_back (is_absolute s) r)))
  end.

Definition Path_file_name (s : str) : option str :=
  match back s with
  | x :: _ => if (str_eqb x (#".") || str_eqb x (#".."))%bool then None else Some x
  | [] => None
  end.

(** [rsplit_file_at_dot]: before and after the last dot. *)
Definition rsplit_at_dot (file : str) : option str * option str :=
  match split_once (#c".") (rev file) with
  | None => (None, Some file)
  | Some (a, b) => if is_empty b then (Some file, None) else (Some (rev b), Some (rev a))
  end.
Definition Path_file_stem (s : str) : option str :=
  file ← Path_file_name s;
  match rsplit_at_dot file with (Some before, _) => Some before | (None, after) => after end.
Definition Path_extension (s : str) : option str :=
  file ← Path_file_name s;
  match rsplit_at_dot file with (Some _, after) => after | (None, _) => None end.

Definition Path_join (dir file : str) : str :=
  if is_absolute file then file
  else if (is_empty dir || ends_with_char SLASH dir)%bool then dir ++ file
  else dir ++ SLASH :: file.

(** [components().all(|c| matches!(c, Normal(_)))]. *)
Definition all_normal (s : str) : bool :=
  (negb (is_absolute s)
   && match segments s with x :: _ => negb (str_eqb x (#".")) | [] => true end
   && forallb (fun x => negb (str_eqb x (#".."))) (segments s))%bool.

Definition well_known (project_path : str) : PropertyMap :=
  let dir := default [] (Path_parent project_path) in
  let file := default [] (Path_file_name project_path) in
  let stem := default [] (Path_file_stem project_path) in
  let extension := default [] ((fun n => #c"." :: n) <$> Path_extension project_path) in
  let dir_with_sep := if is_empty dir then [] else dir ++ [SLASH] in
  let map := PropertyMap_new in
  let map := insert_computed map (#"MSBuildProjectFullPath") project_path in
  let map := insert_computed map (#"MSBuildProjectDirectory") dir in
  let map := insert_computed map (#"MSBuildThisFileDirectory") dir_with_sep in
  let map := insert_computed map (#"MSBuildProjectName") stem in
  let map := insert_computed map (#"MSBuildProjectFile") file in
  let map := insert_computed map (#"MSBuildThisFile") file in
  insert_computed map (#"MSBuildProjectExtension") extension.

(** ** Path functions *)

Definition has_windows_drive_prefix (part : str) : bool :=
  match part with a :: b :: _ => (is_ascii_alphabetic a && N.eqb b (#c":"))%bool | _ => false end.
Definition rejects_windows_drive_path (part : str) : bool := has_windows_drive_prefix part.
Definition is_rooted (part : str) : bool := starts_with_char SLASH part.

Definition combine_step (combined part : str) : option str :=
  let part := replace_char BACKSLASH SLASH part in
  if rejects_windows_drive_path part then None
  else if is_empty part then Some combined
  else if (is_rooted part || is_empty combined)%bool then Some part
  else Some ((if ends_with_char SLASH combined then combined else combined ++ [SLASH]) ++ part).

Fixpoint combine_from (combined : str) (parts : list str) : option str :=
  match parts with
  | [] => Some combined
  | part :: parts => combined ← combine_step combined part; combine_from combined parts
  end.
Definition combine_path (parts : list str) : option str := combine_from [] parts.

(** The loop over the segments; [resolved] has the last segment first. *)
Definition resolve_segment (resolved : list str) (segment : str) : list str :=
  if (is_empty segment || str_eqb segment (#"."))%bool then resolved
  else if str_eqb segment (#"..") then tail resolved
  else segment :: resolved.
Definition resolve_segments (segs : list str) : list str := rev (fold_left resolve_segment segs []).

Definition normalize_path (parts : list str) : option str :=
  combined ← combine_path parts;
  if negb (is_rooted combined) then None
  else
    let '(root, rest) :=
      match split_once SLASH combined with
      | Some (drive, rest) => if is_empty drive then ([SLASH], tail combined) else (drive ++ [SLASH], rest)
      | None => ([SLASH], tail combined)
      end in
    let trailing_separator := (ends_with_char SLASH combined && Nat.ltb (length root) (length combined))%bool in
    let out := root ++ join [SLASH] (resolve_segments (split SLASH rest)) in
    Some (if (trailing_separator && Nat.ltb (length root) (length out))%bool then out ++ [SLASH] else out).

(** The upward walk; [None] is the end of the fuel. *)
Fixpoint file_above `{Host} (fuel : nat) (dir file : str) : option str :=
  match fuel with
  | O => None
  | S fuel =>
      if is_file (Path_join dir file) then Some dir
      else match Path_parent dir with Some dir => file_above fuel dir file | None => Some [] end
  end.

Definition get_directory_name_of_file_above `{Host} {L} (start file : str) : run L str :=
  start ← ok_or_decline (normalize_path [start]);
  let file := replace_char BACKSLASH SLASH file in
  require (negb (rejects_windows_drive_path file));;
  require (is_absolute start);;
  require (negb (is_empty file) && all_normal file);;
  ok_or_panic (file_above (S (length start)) start file).

Definition get_path_of_file_above `{Host} {L} (file start : str) : run L str :=
  require (negb (is_empty file || contains_char SLASH file || contains_char BACKSLASH file));;
  dir ← get_directory_name_of_file_above start file;
  if is_empty dir then mret [] else ok_or_decline (normalize_path [dir; file]).

(** [windows(3).any(..)]. *)
Fixpoint windows3 (p : char -> char -> char -> bool) (s : str) : bool :=
  match s with
  | a :: ((b :: c :: _) as s') => (p a b c || windows3 p s')%bool
  | _ => false
  end.
Definition contains_escaped_backslash (escaped : str) : bool :=
  windows3 (fun a b c => N.eqb a (#c"%") && N.eqb b (#c"5") && (N.eqb c (#c"c") || N.eqb c (#c"C")))%bool escaped.

Definition is_slash (c : char) : bool := (N.eqb c BACKSLASH || N.eqb c SLASH)%bool.
Fixpoint convert_from (prev_slash : bool) (s : str) : str :=
  match s with
  | [] => []
  | c :: s' =>
      (if (is_slash c && prev_slash)%bool then [] else [if N.eqb c BACKSLASH then SLASH else c])
      ++ convert_from (is_slash c) s'
  end.
Definition convert_to_unix_slashes (s : str) : str := convert_from false s.

Definition worlds (v : str) : option str :=
  if (is_empty v
      || match strip_prefix (#"$(") v with Some _ => true | None => false end
      || match strip_prefix (#"@(") v with Some _ => true | None => false end
      || match strip_prefix [BACKSLASH; BACKSLASH] v with Some _ => true | None => false end
      || negb (contains_char BACKSLASH v))%bool
  then None
  else Some (convert_to_unix_slashes v).

(** ** Literal arguments *)

Definition QUOTE : char := 39%N.
Definition BACKTICK : char := 96%N.
Definition DQUOTE : char := 34%N.
Definition STRING_DELIMS : list char := [QUOTE; BACKTICK; DQUOTE].
Definition is_string_delim (c : char) : bool := contains_char c STRING_DELIMS.

(** [s.strip_prefix(d).and_then(|s| s.strip_suffix(d))]. *)
Definition unquote (d : char) (s : str) : option str := strip_prefix [d] s ≫= strip_suffix [d].

(** The loop over the delimiters: the first one around the argument decides. *)
Fixpoint literal_of (delims : list char) (arg : str) : option str :=
  match delims with
  | [] => None
  | d :: delims =>
      match unquote d arg with
      | Some inner => if contains_char d inner then None else Some inner
      | None => literal_of delims arg
      end
  end.
Definition string_literal_arg (arg : str) : option str := literal_of STRING_DELIMS (trim arg).

(** ** Target framework monikers *)

Definition MAX_TARGET_FRAMEWORK_VERSION_PARTS : nat := 4.

(** [usize] on a 64-bit host. *)
Definition parse_usize (s : str) : option N := parse_unsigned u64_bound s.

Definition parse_target_framework_version_part_count (arg : str) : option nat :=
  count ← parse_usize (trim arg);
  if N.leb count 4 then Some (N.to_nat count) else None.

Definition parse_dotted_version (suffix : str) : option (list str) :=
  let parts := split (#c".") suffix in
  if (is_empty parts || Nat.ltb MAX_TARGET_FRAMEWORK_VERSION_PARTS (length parts)
      || existsb (fun part => is_empty part || negb (forallb is_ascii_digit part)) parts)%bool
  then None else Some parts.

Definition parse_compact_version (suffix : str) : option (list str) :=
  if (is_empty suffix || negb (forallb is_ascii_digit suffix))%bool then None
  else
    let parts := map (fun c => [c]) suffix in
    if Nat.ltb MAX_TARGET_FRAMEWORK_VERSION_PARTS (length parts) then None
    else Some (if Nat.eqb (length parts) 1 then parts ++ [ #"0" ] else parts).

Definition parse_netframework_version (suffix : str) : option (list str) := parse_compact_version suffix.

Definition first_in (v : list str) (majors : list str) : bool :=
  match v with x :: _ => existsb (str_eqb x) majors | [] => false end.

Definition parse_dotted_netframework_version (suffix : str) : option (list str) :=
  v ← parse_dotted_version suffix;
  if first_in v [ #"1"; #"2"; #"3"; #"4" ] then Some v else None.

Definition parse_compact_netcoreapp_version (suffix : str) : option (list str) :=
  v ← parse_netframework_version suffix;
  if first_in v [ #"5"; #"6"; #"7"; #"8"; #"9" ] then Some v else None.

Definition parse_prefixed_framework_version (suffix : str) : option (list str) :=
  if contains_char (#c".") suffix then parse_dotted_version suffix else parse_compact_version suffix.

Definition parse_prefixed_version (tfm prefix : str) : option str :=
  suffix ← strip_prefix prefix tfm;
  if is_empty suffix then None else Some suffix.

(** [tfm.split('-').next()], in lower case. *)
Definition short_moniker (tfm : str) : str := lower (take_while (fun c => negb (N.eqb c (#c"-"))) tfm).

Definition infer_target_framework_identifier (tfm : str) : option str :=
  let short := short_moniker tfm in
  match parse_prefixed_version short (#"netstandard") with
  | Some suffix => (fun _ => #".NETStandard") <$> parse_prefixed_framework_version suffix
  | None =>
      match parse_prefixed_version short (#"netcoreapp") with
      | Some suffix => (fun _ => #".NETCoreApp") <$> parse_prefixed_framework_version suffix
      | None =>
          suffix ← strip_prefix (#"net") short;
          if match suffix with b :: _ => is_ascii_digit b | [] => false end then
            if match parse_dotted_netframework_version suffix with Some _ => true | None => false end then Some (#".NETFramework")
            else if contains_char (#c".") suffix then (fun _ => #".NETCoreApp") <$> parse_dotted_version suffix
            else if match parse_compact_netcoreapp_version suffix with Some _ => true | None => false end then Some (#".NETCoreApp")
            else Some (#".NETFramework")
          else None
      end
  end.

(** The [while] that pops; the parts are last first. *)
Fixpoint pop_zeros (min_parts : nat) (r : list str) : list str :=
  match r with
  | x :: r' => if (Nat.ltb min_parts (length r) && str_eqb x (#"0"))%bool then pop_zeros min_parts r' else r
  | [] => []
  end.
Definition normalize_version_parts (parts : list str) (min_parts : nat) : str :=
  let parts := rev (pop_zeros min_parts (rev parts)) in
  join (#".") (parts ++ replicate (min_parts - length parts) (#"0")).

Definition infer_target_framework_version (tfm : str) (min_parts : nat) : option str :=
  let short := short_moniker tfm in
  version ←
    match parse_prefixed_version short (#"netstandard") with
    | Some suffix => parse_prefixed_framework_version suffix
    | None =>
        match parse_prefixed_version short (#"netcoreapp") with
        | Some suffix => parse_prefixed_framework_version suffix
        | None =>
            suffix ← strip_prefix (#"net") short;
            if contains_char (#c".") suffix then parse_dotted_version suffix else parse_netframework_version suffix
        end
    end;
  Some (normalize_version_parts version min_parts).

Definition infer_target_platform_identifier (tfm : str) : option str :=
  if contains_char (#c"-") tfm then None
  else (fun _ => []) <$> infer_target_framework_identifier tfm.

Definition infer_target_platform_version (tfm : str) (min_parts : nat) : option str :=
  if contains_char (#c"-") tfm then None
  else
    _ ← infer_target_framework_identifier tfm;
    Some (normalize_version_parts [ #"0"; #"0" ] (Nat.max min_parts 1)).

(** ** Versions *)

(** The loop over the components: digits only, below [bound]. *)
Fixpoint components (bound : N) (parts : list str) : option (list N) :=
  match parts with
  | [] => Some []
  | part :: parts =>
      if (is_empty part || negb (forallb is_ascii_digit part))%bool then None
      else n ← parse_unsigned bound part; ns ← components bound parts; Some (n :: ns)
  end.

(** The test against [i32::MAX] after [parse::<u32>] is the bound of
    [components]. *)
Definition parse_msbuild_version (v : str) : option (list N) :=
  let v := trim v in
  let v := match strip_prefix (#"v") v with
           | Some w => w
           | None => default v (strip_prefix (#"V") v)
           end in
  let v := take_while (fun c => negb (N.eqb c (#c"-") || N.eqb c (#c"+"))) v in
  if is_empty v then None
  else
    let parts := split (#c".") v in
    if Nat.leb (length parts) 4 then
      ns ← components (i32_max + 1) parts;
      Some (ns ++ replicate (4 - length ns) 0%N)
    else None.

Definition compare_msbuild_versions (lhs rhs : str) : option comparison :=
  a ← parse_msbuild_version lhs; b ← parse_msbuild_version rhs; Some (list_cmp N.compare a b).

Example properties_ex :
  normalize_path [ #"/a/b"; #"../c/./d/" ] = Some (#"/a/c/d/")
  /\ Path_parent (#"/a//b/.") = Some (#"/a") /\ Path_extension (#"/x/App.fsproj") = Some (#"fsproj")
  /\ infer_target_framework_version (#"net472") 2 = Some (#"4.7.2")
  /\ infer_target_framework_identifier (#"NET8.0-windows") = Some (#".NETCoreApp")
  /\ compare_msbuild_versions (#" v1.0 ") (#"1.0.0-preview") = Some Eq.
Proof. vm_compute. split_and!; try done. Qed.
