(* ===== verification/PropExpr.v ===== *)
(** * Property expressions: [msbuild/src/properties/expr.rs] and [substitute]

    The scanners and the parser of [$(..)] interiors, the evaluator, and
    [substitute_impl] of [properties/mod.rs], which calls it and which it calls
    for the arguments of path functions.  The characters that structure an
    expression are ASCII, so positions count scalar values.

    The evaluator recurses through the [$(..)] inside the arguments of an
    interior.  It is written over [rec], the evaluation of such an interior, and
    [eval_interior] ties the knot with fuel: an inner interior is shorter, so one
    more than the length is enough ([PropExprThm.evaluate_answers]). *)

From S2P Require Import Prelude Order Escaping StrBytes Properties.

Definition OPEN : str := #"$(".
Definition LPAREN : char := #c"(".
Definition RPAREN : char := #c")".
Definition LBRACKET : char := #c"[".
Definition RBRACKET : char := #c"]".
Definition COMMA : char := #c",".
Definition DOLLAR : char := #c"$".

Definition is_ascii_whitespace (c : char) : bool :=
  (N.eqb c 32 || N.eqb c 9 || N.eqb c 10 || N.eqb c 12 || N.eqb c 13)%bool.
Definition trim_ascii (s : str) : str := trim_matches is_ascii_whitespace s.

(** [&s[i..j]], for positions the code has found in [s]. *)
Definition between (s : str) (i j : nat) : str := take (j - i) (drop i s).
Definition char_is (s : str) (i : nat) (c : char) : bool := match s !! i with Some d => N.eqb d c | None => false end.

(** ** Scanners *)

Definition scan_quote (b : str) (i : nat) (delim : char) : option nat :=
  (fun p => p + i) <$> position (fun c => N.eqb c delim) (drop i b).

Definition scan_paren_step (b : str) (st : nat * nat) : (nat * nat) + option nat :=
  let '(i, depth) := st in
  match b !! i with
  | None => inr None
  | Some c =>
      if is_string_delim c then
        match scan_quote b (i + 1) c with Some j => inl (j + 1, depth) | None => inr None end
      else if N.eqb c LPAREN then inl (i + 1, depth + 1)
      else if N.eqb c RPAREN then if Nat.eqb (depth - 1) 0 then inr (Some i) else inl (i + 1, depth - 1)
      else inl (i + 1, depth)
  end.
Definition scan_paren (b : str) (i : nat) : option nat :=
  mjoin (while_lt (length b) fst (scan_paren_step b) None (i, 1)).

Definition find_close (after : str) : option nat := scan_paren after 0.

(** The state is the index, the start of the argument, and the arguments so
    far. *)
Definition split_args_step (s : str) (st : nat * nat * list str) : (nat * nat * list str) + option (list str) :=
  let '(i, start, parts) := st in
  match s !! i with
  | None => inr None
  | Some c =>
      if is_string_delim c then
        match scan_quote s (i + 1) c with Some j => inl (j + 1, start, parts) | None => inr None end
      else if (N.eqb c DOLLAR && char_is s (i + 1) LPAREN)%bool then
        match scan_paren s (i + 2) with Some j => inl (j + 1, start, parts) | None => inr None end
      else if N.eqb c COMMA then inl (i + 1, i + 1, parts ++ [trim (between s start i)])
      else inl (i + 1, start, parts)
  end.
Definition split_args (s : str) : option (list str) :=
  if is_empty s then Some []
  else
    mjoin (while_st (length s) (fun st => st.1.1) (split_args_step s)
             (fun '(_, start, parts) => Some (parts ++ [trim (drop start s)])) (0, 0, [])).

(** ** Syntax and parser *)

Record Member := { name : str; args : option (list str) }.
Inductive Root := Root_Property (property : str) | Root_Static (type_name : str) (member : Member).
Inductive Link := Link_Member (member : Member) | Link_Index (index : str).
Record Expr := { root : Root; links : list Link }.

Definition is_name_byte (c : char) : bool := (is_ascii_alphanumeric c || N.eqb c (#c"_") || N.eqb c (#c"-"))%bool.
Definition name_run (s : str) : str := take_while is_name_byte s.

Definition is_referenceable_name (s : str) : bool :=
  match s with
  | [] => false
  | first :: rest => ((is_ascii_alphabetic first || N.eqb first (#c"_")) && forallb is_name_byte rest)%bool
  end.

Definition parse_member (inner : str) (pos : nat) : option (Member * nat) :=
  let name_len := length (name_run (drop pos inner)) in
  if Nat.eqb name_len 0 then None
  else
    let n := between inner pos (pos + name_len) in
    let after := pos + name_len in
    let ws := length (take_while is_ascii_whitespace (drop after inner)) in
    if char_is inner (after + ws) LPAREN then
      let after := after + ws in
      close ← scan_paren inner (after + 1);
      a ← split_args (between inner (after + 1) close);
      Some ({| name := n; args := Some a |}, close + 1)
    else Some ({| name := n; args := None |}, after).

Definition parse_root (inner : str) : option (Root * nat) :=
  if starts_with_char LBRACKET inner then
    close ← position (fun c => N.eqb c RBRACKET) inner;
    let type_name := between inner 1 close in
    if is_empty type_name then None
    else
      let after := close + 1 in
      _ ← strip_prefix (#"::") (drop after inner);
      '(member, pos) ← parse_member inner (after + 2);
      _ ← args member;
      Some (Root_Static type_name member, pos)
  else
    let len := length (name_run inner) in
    if Nat.eqb len 0 then None else Some (Root_Property (take len inner), len).

Definition parse_link (inner : str) (pos : nat) : option (Link * nat) :=
  c ← inner !! pos;
  if N.eqb c (#c".") then
    '(member, next) ← parse_member inner (pos + 1);
    Some (Link_Member member, next)
  else if N.eqb c LBRACKET then
    p ← position (fun c => N.eqb c RBRACKET) (drop (pos + 1) inner);
    let close := pos + 1 + p in
    Some (Link_Index (trim (between inner (pos + 1) close)), close + 1)
  else None.

Definition parse_step (inner : str) (st : nat * list Link) : (nat * list Link) + option (list Link) :=
  let '(pos, ls) := st in
  match parse_link inner pos with Some (link, next) => inl (next, ls ++ [link]) | None => inr None end.
Definition parse (inner : str) : option Expr :=
  '(r, pos) ← parse_root inner;
  ls ← mjoin (while_st (length inner) fst (parse_step inner) (fun st => Some st.2) (pos, []));
  Some {| root := r; links := ls |}.

(** ** References *)

Definition push_references (inner : str) : list str :=
  let trimmed := trim_ascii inner in
  match parse trimmed with
  | Some e => match root e with Root_Property n => [n] | Root_Static _ _ => [] end
  | None => let n := name_run trimmed in if is_empty n then [] else [n]
  end.

(** The loop of [property_references]: [rest] is [raw[search_from..]], which is
    shorter after each turn. *)
Fixpoint references_from (fuel : nat) (rest : str) : list str :=
  match fuel with
  | O => []
  | S fuel =>
      match find_str OPEN rest with
      | None => []
      | Some idx =>
          let after := drop (idx + 2) rest in
          let inner := match find_close after with Some close => take close after | None => after end in
          push_references inner ++ references_from fuel after
      end
  end.
Definition property_references (raw : str) : list str := references_from (S (length raw)) raw.

(** ** Values *)

Inductive Value :=
| Value_Str (s : str)
| Value_Bool (b : bool)
| Value_Int (n : Z)
| Value_Char (c : char)
| Value_Version (v : list Z)
| Value_StrArray (parts : list str).

(** [i64::to_string]. *)
Definition show_Z (n : Z) : str := if Z.ltb n 0 then #c"-" :: show_N (Z.to_N (- n)) else show_N (Z.to_N n).
Definition render_version (v : list Z) : str := join (#".") (map show_Z v).

Definition render (v : Value) : option str :=
  match v with
  | Value_Str s => Some s
  | Value_Bool b => Some (if b then #"True" else #"False")
  | Value_Int n => Some (show_Z n)
  | Value_Char c => Some [c]
  | Value_Version v => Some (render_version v)
  | Value_StrArray _ => None
  end.

Definition has_unix_backslash (s : str) : bool := contains_char BACKSLASH s.
Definition combine_arg_is_cwd_dependent (s : str) : bool :=
  (contains_char BACKSLASH s && negb (str_eqb (convert_to_unix_slashes s) (replace_char BACKSLASH SLASH s)))%bool.
(** [char::is_control]. *)
Definition is_control (c : char) : bool := (N.ltb c 32 || in_range 127 159 c)%bool.
Definition has_culture_sensitive_control (s : str) : bool := existsb is_control s.
Definition is_ascii (s : str) : bool := forallb (fun c => N.ltb c 128) s.

Definition str_result (s : str) : Value := Value_Str (escape s).

(** ** The string methods and the static functions that need no argument text *)

Inductive StringBoolMethod := Contains | StartsWith | EndsWith.
Definition StringBoolMethod_from_name (n : str) : option StringBoolMethod :=
  if eq_ignore_ascii_case n (#"Contains") then Some Contains
  else if eq_ignore_ascii_case n (#"StartsWith") then Some StartsWith
  else if eq_ignore_ascii_case n (#"EndsWith") then Some EndsWith
  else None.
Definition StringBoolMethod_eval (m : StringBoolMethod) (v needle : str) : option bool :=
  let ordinal_matches_culture := (is_empty needle || is_ascii v && is_ascii needle)%bool in
  match m with
  | Contains => Some (contains_str needle v)
  | StartsWith => if ordinal_matches_culture then Some (is_some (strip_prefix needle v)) else None
  | EndsWith => if ordinal_matches_culture then Some (is_some (strip_suffix needle v)) else None
  end.

Definition eval_version_member {L} (v : list Z) (m : Member) : run L Value :=
  require (negb (is_some (args m)));;
  if eq_ignore_ascii_case (name m) (#"Major") then Value_Int <$> ok_or_panic (v !! 0)
  else if eq_ignore_ascii_case (name m) (#"Minor") then Value_Int <$> ok_or_panic (v !! 1)
  else if eq_ignore_ascii_case (name m) (#"Build") then mret (Value_Int (default (-1)%Z (v !! 2)))
  else Declined.

Definition eval_array_member {L} (parts : list str) (m : Member) : run L Value :=
  if (negb (is_some (args m)) && eq_ignore_ascii_case (name m) (#"Length"))%bool
  then mret (Value_Int (Z.of_nat (length parts)))
  else Declined.

(** The index of a character of an ASCII text is its byte index. *)
Definition eval_index {L} (receiver : Value) (index : str) : run L Value :=
  idx ← ok_or_decline (parse_usize (trim index));
  match receiver with
  | Value_StrArray parts => Value_Str <$> ok_or_decline (parts !! N.to_nat idx)
  | Value_Str s =>
      let s := unescaped s in
      require (is_ascii s && negb (has_unix_backslash s));;
      Value_Char <$> ok_or_decline (s !! N.to_nat idx)
  | _ => Declined
  end.

Definition parse_version (s : str) : option (list Z) :=
  let fields := split (#c".") s in
  if (Nat.leb 2 (length fields) && Nat.leb (length fields) 4)%bool
  then map Z.of_N <$> components (i32_max + 1) fields
  else None.

(** [for i in 0..max(a.len(), b.len())]: [n] turns are left. *)
Fixpoint version_lt_from (n i : nat) (a b : list Z) : bool :=
  match n with
  | O => false
  | S n =>
      let x := default (-1)%Z (a !! i) in
      let y := default (-1)%Z (b !! i) in
      match Z.compare x y with Lt => true | Gt => false | Eq => version_lt_from n (S i) a b end
  end.
Definition version_lt (a b : list Z) : bool := version_lt_from (Nat.max (length a) (length b)) 0 a b.

Definition is_path_rooted (s : str) : bool := (starts_with_char SLASH s || starts_with_char BACKSLASH s)%bool.

Definition is_os_platform `{Host} (n : str) : option bool :=
  if (is_empty n || negb (is_ascii n))%bool then None
  else
    aliases ←
      (if str_eqb os (#"macos") then Some [ #"osx"; #"macos" ]
       else if str_eqb os (#"linux") then Some [ #"linux" ]
       else if str_eqb os (#"windows") then Some [ #"windows" ]
       else if str_eqb os (#"freebsd") then Some [ #"freebsd" ]
       else None);
    Some (existsb (eq_ignore_ascii_case n) aliases).

Definition ensure_trailing_slash (s : str) : str :=
  if is_empty s then []
  else
    let normalised := replace_char BACKSLASH SLASH s in
    if ends_with_char SLASH normalised then normalised else normalised ++ [SLASH].

Definition version_compare_op (n : str) : option (comparison -> bool) :=
  if eq_ignore_ascii_case n (#"VersionEquals") then Some (fun o => match o with Eq => true | _ => false end)
  else if eq_ignore_ascii_case n (#"VersionNotEquals") then Some (fun o => match o with Eq => false | _ => true end)
  else if eq_ignore_ascii_case n (#"VersionGreaterThan") then Some (fun o => match o with Gt => true | _ => false end)
  else if eq_ignore_ascii_case n (#"VersionGreaterThanOrEquals") then Some (fun o => match o with Lt => false | _ => true end)
  else if eq_ignore_ascii_case n (#"VersionLessThan") then Some (fun o => match o with Lt => true | _ => false end)
  else if eq_ignore_ascii_case n (#"VersionLessThanOrEquals") then Some (fun o => match o with Gt => false | _ => true end)
  else None.

(** ** The evaluator, over the evaluation of an inner interior *)

Section eval.
Context `{Host} (props : PropertyMap) (rec : str -> run Issue Value).

(** [evaluate], once the interior has a value: its text, back among escaped
    texts. *)
Definition evaluated (v : run Issue Value) : run Issue Escaped :=
  v ← v;
  rendered ← ok_or_decline (render v);
  require (negb (has_unix_backslash rendered));;
  mret match v with
       | Value_Char _ => push_unescaped_raw (from_xml []) rendered
       | _ => from_xml rendered
       end.

(** The loop of [substitute_impl], with [ev] for [expr::evaluate].  It does not
    decline. *)
Fixpoint substitute_loop (ev : str -> run Issue Escaped) (fuel : nat) (out : Escaped) (rest : str) : run Issue Escaped :=
  match fuel with
  | O => Stuck
  | S fuel =>
      match find_str OPEN rest with
      | None => mret (push_xml out rest)
      | Some idx =>
          let out := push_xml out (take idx rest) in
          let after := drop (idx + 2) rest in
          let id_len := length (name_run after) in
          if (Nat.ltb 0 id_len && char_is after id_len RPAREN)%bool then
            let rest := drop (id_len + 1) after in
            match get props (take id_len after) with
            | Some v => substitute_loop ev fuel (push out v) rest
            | None => tell (Undefined (take id_len after));; substitute_loop ev fuel out rest
            end
          else
            match find_close after with
            | Some close =>
                let inner := take close after in
                let rest := drop (close + 1) after in
                match ev inner with
                | Done v issues => Done tt issues;; substitute_loop ev fuel (push out v) rest
                | Declined =>
                    tell (Unsupported (OPEN ++ inner ++ [RPAREN]));;
                    substitute_loop ev fuel (push_xml (push_xml (push_xml out OPEN) inner) [RPAREN]) rest
                | Stuck => Stuck
                end
            | None =>
                tell (Unsupported (drop idx rest));;
                mret (push_xml out (drop idx rest))
            end
      end
  end.
Definition substitute_by (ev : str -> run Issue Escaped) (input : str) : run Issue Escaped :=
  substitute_loop ev (S (length input)) (from_xml []) input.

(** [substitute], as the arguments of path functions call it. *)
Definition substitute_arg (input : str) : run Issue Escaped := substitute_by (fun inner => evaluated (rec inner)) input.

Definition eval_exact_path_arg (reject_escaped_backslash : bool) (arg : str) : run Issue str :=
  substituted ←
    match string_literal_arg arg with
    | Some quoted => mret quoted
    | None => require (negb (existsb is_string_delim (trim arg)));; mret (trim arg)
    end;
  match substitute_arg substituted with
  | Done v [] =>
      let u := unescaped (as_escaped v) in
      require (negb (contains_char 0%N u));;
      require (negb (reject_escaped_backslash && contains_escaped_backslash (as_escaped v)));;
      mret u
  | Done _ (_ :: _) => Declined
  | Declined => Declined
  | Stuck => Stuck
  end.

Definition eval_exact_path_args (reject_escaped_backslash : bool) (a : str) : run Issue (list str) :=
  a ← ok_or_decline (split_args a);
  require (negb (is_empty a));;
  mapM (eval_exact_path_arg reject_escaped_backslash) a.

(** The loop of [eval_str_template]. *)
Fixpoint template_loop (delim : char) (allow_boundary_backslash : bool) (fuel : nat) (out rest : str) : run Issue str :=
  match fuel with
  | O => Stuck
  | S fuel =>
      match find_str OPEN rest with
      | None => require (negb (contains_char delim rest));; mret (unescaped (out ++ rest))
      | Some idx =>
          let literal := take idx rest in
          require (negb (contains_char delim literal));;
          let out := out ++ literal in
          let after := drop (idx + 2) rest in
          match find_close after with
          | Some close =>
              v ← rec (take close after);
              match v with
              | Value_Str s =>
                  require (allow_boundary_backslash || negb (has_unix_backslash (unescaped s)));;
                  template_loop delim allow_boundary_backslash fuel (out ++ s) (drop (close + 1) after)
              | _ => Declined
              end
          | None => template_loop delim allow_boundary_backslash fuel (out ++ OPEN) after
          end
      end
  end.
Definition eval_str_template (body : str) (delim : char) (allow_boundary_backslash : bool) : run Issue str :=
  template_loop delim allow_boundary_backslash (S (length body)) [] body.

(** The loop over the delimiters; then an argument that is one [$(..)]. *)
Fixpoint eval_string_arg_by (delims : list char) (allow_boundary_backslash : bool) (arg : str) : run Issue str :=
  match delims with
  | d :: delims =>
      match unquote d arg with
      | Some body => eval_str_template body d allow_boundary_backslash
      | None => eval_string_arg_by delims allow_boundary_backslash arg
      end
  | [] =>
      after ← ok_or_decline (strip_prefix OPEN arg);
      close ← ok_or_decline (find_close after);
      require (is_empty (drop (close + 1) after));;
      v ← rec (take close after);
      match v with
      | Value_Str s =>
          let decoded := unescaped s in
          require (allow_boundary_backslash || negb (has_unix_backslash decoded));;
          mret decoded
      | _ => Declined
      end
  end.
Definition eval_string_arg_inner (allow_boundary_backslash : bool) (arg : str) : run Issue str :=
  eval_string_arg_by STRING_DELIMS allow_boundary_backslash (trim arg).
Definition eval_string_arg (arg : str) : run Issue str := eval_string_arg_inner false arg.
Definition eval_string_arg_allowing_boundary_backslash (arg : str) : run Issue str := eval_string_arg_inner true arg.

Definition eval_version_arg (arg : str) : run Issue str :=
  let arg := trim arg in
  if (match arg with c :: _ => is_string_delim c | [] => false end || is_some (strip_prefix OPEN arg))%bool
  then eval_string_arg arg
  else require (negb (contains_str OPEN arg));; mret (unescaped arg).

(** The loop of [only_bare_property_refs]. *)
Fixpoint bare_refs_from (fuel : nat) (rest : str) : bool :=
  match fuel with
  | O => false
  | S fuel =>
      match find_str OPEN rest with
      | None => true
      | Some idx =>
          let after := drop (idx + 2) rest in
          match find_close after with
          | Some close =>
              let inner := take close after in
              if (is_empty inner || negb (forallb is_name_byte inner))%bool then false
              else bare_refs_from fuel (drop (close + 1) after)
          | None => true
          end
      end
  end.
Definition only_bare_property_refs (body : str) : bool := bare_refs_from (S (length body)) body.
Definition path_args_are_bare (a : list str) : bool := forallb only_bare_property_refs a.
Definition join_args (a : list str) : str := join [COMMA] a.

Definition eval_string_member (recv : str) (m : Member) : run Issue Value :=
  let recv := unescaped recv in
  require (negb (has_unix_backslash recv));;
  match args m with
  | None =>
      if eq_ignore_ascii_case (name m) (#"Length")
      then require (is_ascii recv);; mret (Value_Int (Z.of_nat (length recv)))
      else Declined
  | Some a =>
      match StringBoolMethod_from_name (name m) with
      | Some method =>
          match a with
          | [needle] =>
              needle ← eval_string_arg needle;
              require (negb (has_culture_sensitive_control recv || has_culture_sensitive_control needle));;
              Value_Bool <$> ok_or_decline (StringBoolMethod_eval method recv needle)
          | _ => Declined
          end
      | None =>
          if eq_ignore_ascii_case (name m) (#"TrimStart") then
            match a with
            | [chars] =>
                chars ← eval_string_arg chars;
                require (negb (is_empty chars));;
                mret (str_result (trim_start_matches (fun c => contains_char c chars) recv))
            | _ => Declined
            end
          else if eq_ignore_ascii_case (name m) (#"Split") then
            match a with
            | [charset] =>
                charset ← eval_string_arg charset;
                require (negb (is_empty charset) && is_ascii charset);;
                mret (Value_StrArray (map escape (split_by (fun c => contains_char c charset) recv)))
            | _ => Declined
            end
          else Declined
      end
  end.

Definition eval_member (receiver : Value) (m : Member) : run Issue Value :=
  if (eq_ignore_ascii_case (name m) (#"ToString") && match args m with Some [] => true | _ => false end)%bool then
    match receiver with
    | Value_Str s => mret (str_result (unescaped s))
    | Value_Int n => mret (Value_Str (show_Z n))
    | Value_Version v => mret (Value_Str (render_version v))
    | _ => Declined
    end
  else
    match receiver with
    | Value_Str recv => eval_string_member recv m
    | Value_Version v => eval_version_member v m
    | Value_StrArray parts => eval_array_member parts m
    | Value_Int _ | Value_Bool _ | Value_Char _ => Declined
    end.

(** [(tfm, minParts = 2)]. *)
Definition tfm_and_parts (a : list str) : run Issue (str * nat) :=
  match a with
  | [tfm] => mret (tfm, 2)
  | [tfm; parts] => parts ← ok_or_decline (parse_target_framework_version_part_count parts); mret (tfm, parts)
  | _ => Declined
  end.

Definition one_arg (a : list str) : run Issue str := match a with [x] => mret x | _ => Declined end.
Definition two_args (a : list str) : run Issue (str * str) := match a with [x; y] => mret (x, y) | _ => Declined end.

Definition get_path_of_file_above_args (a : list str) : run Issue (str * str) :=
  match a with
  | [file] =>
      this_dir ← ok_or_decline (get_unescaped props (#"MSBuildThisFileDirectory"));
      require (path_args_are_bare [file]);;
      file ← eval_exact_path_arg false file;
      mret (file, this_dir)
  | [file; start] =>
      require (path_args_are_bare [file; start]);;
      file ← eval_exact_path_arg false file;
      start ← eval_exact_path_arg false start;
      mret (file, start)
  | _ => Declined
  end.

Definition eval_msbuild_static (member_name : str) (a : list str) (fs : bool) : run Issue Value :=
  let named n := eq_ignore_ascii_case member_name n in
  if named (#"GetTargetFrameworkIdentifier") then
    tfm ← one_arg a; tfm ← eval_string_arg tfm;
    Value_Str <$> ok_or_decline (infer_target_framework_identifier tfm)
  else if named (#"GetTargetFrameworkVersion") then
    '(tfm, min_parts) ← tfm_and_parts a; tfm ← eval_string_arg tfm;
    Value_Str <$> ok_or_decline (infer_target_framework_version tfm min_parts)
  else if named (#"GetTargetPlatformIdentifier") then
    tfm ← one_arg a; tfm ← eval_string_arg tfm;
    Value_Str <$> ok_or_decline (infer_target_platform_identifier tfm)
  else if named (#"GetTargetPlatformVersion") then
    '(tfm, min_parts) ← tfm_and_parts a; tfm ← eval_string_arg tfm;
    Value_Str <$> ok_or_decline (infer_target_platform_version tfm min_parts)
  else if named (#"IsRunningFromVisualStudio") then
    if is_empty a then mret (Value_Bool false) else Declined
  else if named (#"IsOSPlatform") then
    n ← one_arg a; n ← eval_string_arg n; Value_Bool <$> ok_or_decline (is_os_platform n)
  else if named (#"AreFeaturesEnabled") then
    wave ← one_arg a;
    require (match get_unescaped props (#"MSBuildDisableFeaturesFromVersion") with
             | Some t => str_eqb t (#"999.999")
             | None => false
             end);;
    s ← eval_string_arg wave;
    wave ← ok_or_decline (parse_version (trim_ascii s));
    mret (Value_Bool (version_lt wave [999; 999]%Z))
  else match version_compare_op member_name with
  | Some op =>
      '(x, y) ← two_args a; x ← eval_version_arg x; y ← eval_version_arg y;
      ordering ← ok_or_decline (compare_msbuild_versions x y);
      mret (Value_Bool (op ordering))
  | None =>
  if named (#"EnsureTrailingSlash") then
    x ← one_arg a; s ← eval_string_arg x; mret (str_result (ensure_trailing_slash s))
  else if named (#"NormalizePath") then
    require (path_args_are_bare a);;
    parts ← eval_exact_path_args false (join_args a);
    str_result <$> ok_or_decline (normalize_path parts)
  else if named (#"GetDirectoryNameOfFileAbove") then
    require fs;;
    '(start, file) ← two_args a;
    require (path_args_are_bare [start; file]);;
    start ← eval_exact_path_arg false start;
    file ← eval_exact_path_arg false file;
    str_result <$> get_directory_name_of_file_above start file
  else if named (#"GetPathOfFileAbove") then
    require fs;;
    '(file, start) ← get_path_of_file_above_args a;
    str_result <$> get_path_of_file_above file start
  else Declined
  end.

Definition STATIC_TYPES : list str := [ #"MSBuild"; #"System.IO.Path"; #"System.Version"; #"System.String" ].

Definition eval_static (type_name : str) (m : Member) (fs : bool) : run Issue Value :=
  a ← ok_or_decline (args m);
  canonical_type ← ok_or_decline (List.find (fun t => eq_ignore_ascii_case t type_name) STATIC_TYPES);
  let named n := eq_ignore_ascii_case (name m) n in
  let type_is t := str_eqb canonical_type t in
  if type_is (#"MSBuild") then eval_msbuild_static (name m) a fs
  else if (type_is (#"System.IO.Path") && named (#"Combine"))%bool then
    require (path_args_are_bare a);;
    parts ← eval_exact_path_args true (join_args a);
    require (negb (existsb combine_arg_is_cwd_dependent parts));;
    str_result <$> ok_or_decline (combine_path parts)
  else if (type_is (#"System.IO.Path") && named (#"IsPathRooted"))%bool then
    x ← one_arg a; s ← eval_string_arg_allowing_boundary_backslash x;
    require (negb (starts_with_char BACKSLASH s));;
    mret (Value_Bool (is_path_rooted s))
  else if (type_is (#"System.Version") && named (#"Parse"))%bool then
    x ← one_arg a; s ← eval_string_arg x; Value_Version <$> ok_or_decline (parse_version s)
  else if (type_is (#"System.String") && named (#"IsNullOrEmpty"))%bool then
    x ← one_arg a; s ← eval_string_arg x; mret (Value_Bool (is_empty s))
  else Declined.

Definition eval_root (r : Root) (fs : bool) : run Issue Value :=
  match r with
  | Root_Property n =>
      match get props n with
      | Some v => mret (Value_Str (as_escaped v))
      | None => tell (Undefined n);; mret (Value_Str [])
      end
  | Root_Static type_name m => eval_static type_name m fs
  end.

Definition eval_link (receiver : Value) (l : Link) : run Issue Value :=
  match l with Link_Member m => eval_member receiver m | Link_Index i => eval_index receiver i end.

Fixpoint eval_links (v : Value) (ls : list Link) : run Issue Value :=
  match ls with [] => mret v | l :: ls => v ← eval_link v l; eval_links v ls end.

Definition eval (e : Expr) (fs : bool) : run Issue Value := v ← eval_root (root e) fs; eval_links v (links e).
End eval.

(** ** The knot *)

Fixpoint eval_interior `{Host} (props : PropertyMap) (fuel : nat) (inner : str) (fs : bool) : run Issue Value :=
  match fuel with
  | O => Stuck
  | S fuel => e ← ok_or_decline (parse inner); eval props (fun i => eval_interior props fuel i false) e fs
  end.

Definition evaluate `{Host} (inner : str) (props : PropertyMap) (fs : bool) : run Issue Escaped :=
  evaluated (eval_interior props (S (length inner)) inner fs).

Definition substitute_impl `{Host} (input : str) (props : PropertyMap) (fs : bool) : run Issue Escaped :=
  substitute_by props (fun inner => evaluate inner props fs) input.
Definition substitute `{Host} (input : str) (props : PropertyMap) : run Issue Escaped := substitute_impl input props false.
Definition substitute_with_fs `{Host} (input : str) (props : PropertyMap) : run Issue Escaped := substitute_impl input props true.
