(* ===== verification/PropScanThm.v ===== *)
(** * What the scanners of property expressions find

    About [PropExpr]: the scans return; a closing parenthesis depends only on the
    text up to it; the arguments of a parsed expression are pieces of its text;
    splitting arguments inverts joining them; and [property_references] reports
    the name at the start of every interior. *)

From S2P Require Import Prelude Order Escaping StrBytes Properties PropExpr.

(** ** Pieces of a text *)

Definition within (a s : str) : Prop := exists pre suf, s = pre ++ a ++ suf.

(** [i] is the interior of a [$(..)] of [s]. *)
Definition inside (i s : str) : Prop := exists pre suf, s = pre ++ OPEN ++ i ++ RPAREN :: suf.

Lemma within_refl s : within s s.
Proof. exists [], []. by rewrite app_nil_r. Qed.

Lemma within_trans a b c : within a b -> within b c -> within a c.
Proof. intros (p & q & ->) (p' & q' & ->). exists (p' ++ p), (q ++ q'). by rewrite <- !app_assoc. Qed.

Lemma inside_within i a s : inside i a -> within a s -> inside i s.
Proof.
  intros (p & q & ->) (p' & q' & ->). exists (p' ++ p), (q ++ q'). by rewrite <- !app_assoc.
Qed.

Lemma inside_interior i s : inside i s -> within i s.
Proof. intros (p & q & ->). exists (p ++ OPEN), (RPAREN :: q). by rewrite <- !app_assoc. Qed.

Lemma inside_length i s : inside i s -> length i < length s.
Proof. intros (p & q & ->). rewrite !length_app. simpl. lia. Qed.

Lemma within_take n s : within (take n s) s.
Proof. exists [], (drop n s). by rewrite app_nil_l, take_drop. Qed.
Lemma within_drop n s : within (drop n s) s.
Proof. exists (take n s), []. by rewrite app_nil_r, take_drop. Qed.
Lemma within_between s i j : within (between s i j) s.
Proof. eapply within_trans; [apply within_take|apply within_drop]. Qed.

Lemma within_drop_while p s : within (drop_while p s) s.
Proof. destruct (drop_while_suffix p s) as (a & E & _). exists a, []. by rewrite app_nil_r. Qed.

Lemma within_rev a s : within a s -> within (rev a) (rev s).
Proof. intros (p & q & ->). exists (rev q), (rev p). by rewrite !rev_app_distr, <- app_assoc. Qed.

Lemma within_trim_end p s : within (trim_end_matches p s) s.
Proof. unfold trim_end_matches. rewrite <- (rev_involutive s) at 2. apply within_rev, within_drop_while. Qed.

Lemma within_trim_matches p s : within (trim_matches p s) s.
Proof. unfold trim_matches, trim_start_matches. eapply within_trans; [apply within_trim_end|apply within_drop_while]. Qed.
Lemma within_trim s : within (trim s) s.
Proof. apply within_trim_matches. Qed.

Lemma within_strip_prefix p s t : strip_prefix p s = Some t -> within t s.
Proof. intros ->%strip_prefix_some. exists p, []. by rewrite app_nil_r. Qed.

Lemma within_strip_suffix p s t : strip_suffix p s = Some t -> within t s.
Proof. intros ->%strip_suffix_some. by exists [], p. Qed.

Lemma within_unquote d s t : unquote d s = Some t -> within t s.
Proof.
  unfold unquote. destruct (strip_prefix [d] s) as [r|] eqn:E; [|done]. intros Hr.
  eapply within_trans; [eapply within_strip_suffix, Hr|eapply within_strip_prefix, E].
Qed.

Create HintDb within discriminated.
#[export] Hint Resolve within_refl within_take within_drop within_between within_trim within_trim_matches within_unquote
  : within.

(** ** The closing parenthesis *)

Lemma position_some {A} (p : A -> bool) l n : position p l = Some n ->
  exists a x b, l = a ++ x :: b /\ length a = n /\ p x = true /\ Forall (fun y => p y = false) a.
Proof.
  revert n. induction l as [|y l IH]; intros n; cbn [position]; [done|]. destruct (p y) eqn:E.
  - intros [= <-]. exists [], y, l. by split_and!.
  - destruct (position p l) as [m|]; [|done]. intros [= <-]. destruct (IH m) as (a & x & b & -> & <- & Hx & Ha); [done|].
    exists (y :: a), x, b. split_and!; [done..|by constructor].
Qed.

Lemma position_first {A} (p : A -> bool) a x b : p x = true -> Forall (fun y => p y = false) a ->
  position p (a ++ x :: b) = Some (length a).
Proof. intros Hx. induction 1 as [|y a Hy _ IH]; cbn; [by rewrite Hx|]. by rewrite Hy, IH. Qed.

(** The scan as a function of the text: the depth, and the delimiter of the
    literal it is in. *)
Fixpoint close_of (depth : nat) (q : option char) (s : str) : option nat :=
  match s with
  | [] => None
  | c :: s' =>
      match q with
      | Some d => S <$> close_of depth (if N.eqb c d then None else q) s'
      | None =>
          if is_string_delim c then S <$> close_of depth (Some c) s'
          else if N.eqb c LPAREN then S <$> close_of (depth + 1) None s'
          else if N.eqb c RPAREN then if Nat.eqb (depth - 1) 0 then Some 0 else S <$> close_of (depth - 1) None s'
          else S <$> close_of depth None s'
      end
  end.

Lemma close_of_quote depth d t : close_of depth (Some d) t =
  match position (fun c => N.eqb c d) t with
  | Some p => (fun n => p + 1 + n) <$> close_of depth None (drop (p + 1) t)
  | None => None
  end.
Proof.
  induction t as [|c t IH]; [done|]. cbn [close_of position]. destruct (N.eqb c d).
  - cbn [Nat.add drop]. rewrite drop_0. by destruct (close_of depth None t).
  - rewrite IH. destruct (position _ t) as [p|]; [|done]. cbn. by destruct (close_of depth None (drop (p + 1) t)).
Qed.

Lemma drop_lookup {A} (l : list A) i x : l !! i = Some x -> drop i l = x :: drop (i + 1) l.
Proof. intros H. rewrite (drop_S l x i H). by rewrite Nat.add_1_r. Qed.

Lemma scan_quote_some b i d j : scan_quote b i d = Some j -> i <= j /\ b !! j = Some d.
Proof.
  unfold scan_quote. destruct (position _ _) as [p|] eqn:E; [|done]. intros [= <-].
  apply position_some in E as (a & x & r & E & <- & Hx%N.eqb_eq & _). subst x. split; [lia|].
  assert (H : drop i b !! length a = Some d) by (rewrite E; apply list_lookup_middle; done).
  rewrite lookup_drop in H. by rewrite Nat.add_comm.
Qed.

Lemma scan_paren_advances b : advances (length b) fst (scan_paren_step b).
Proof.
  intros [i depth] [i' d'] Hi. cbn [fst] in *. unfold scan_paren_step. destruct (b !! i) as [c|]; [|done].
  destruct (is_string_delim c).
  - destruct (scan_quote b (i + 1) c) as [j|] eqn:E; [|done]. apply scan_quote_some in E. intros [= <- <-]. lia.
  - repeat (case_match; try done); intros [= <- <-]; lia.
Qed.

Lemma scan_paren_loop b i depth :
  while_lt (length b) fst (scan_paren_step b) None (i, depth) = Some ((fun n => i + n) <$> close_of depth None (drop i b)).
Proof.
  remember (length b - i) as n eqn:Hn. revert i depth Hn. induction n as [n IH] using lt_wf_ind. intros i depth Hn.
  rewrite while_lt_unfold by apply scan_paren_advances. cbn [fst].
  destruct (Nat.ltb_spec i (length b)) as [Hi|Hi]; [|by rewrite drop_ge].
  destruct (lookup_lt_is_Some_2 b i Hi) as [c Ec]. rewrite (drop_lookup b i c Ec). cbn [scan_paren_step close_of]. rewrite Ec.
  assert (Hnext : forall k dep, i < k -> while_lt (length b) fst (scan_paren_step b) None (k, dep)
    = Some ((fun n => k + n) <$> close_of dep None (drop k b))) by (intros k dep Hk; apply (IH (length b - k)); lia).
  assert (Hone : forall dep, while_lt (length b) fst (scan_paren_step b) None (i + 1, dep)
    = Some ((fun n => i + n) <$> (S <$> close_of dep None (drop (i + 1) b)))).
  { intros dep. rewrite Hnext by lia. f_equal. destruct (close_of dep None (drop (i + 1) b)); cbn; [f_equal; lia|done]. }
  destruct (is_string_delim c).
  - rewrite close_of_quote. unfold scan_quote. destruct (position _ _) as [p|]; [|done]. cbn [fmap option_fmap option_map].
    rewrite Hnext by lia. f_equal. rewrite drop_drop. replace (i + 1 + (p + 1)) with (p + (i + 1) + 1) by lia.
    destruct (close_of depth None _); cbn; [f_equal; lia|done].
  - destruct (N.eqb c LPAREN); [apply Hone|]. destruct (N.eqb c RPAREN); [|apply Hone].
    destruct (Nat.eqb (depth - 1) 0); [cbn; f_equal; f_equal; lia|apply Hone].
Qed.

Lemma scan_paren_eq b i : scan_paren b i = (fun n => i + n) <$> close_of 1 None (drop i b).
Proof. unfold scan_paren. by rewrite scan_paren_loop. Qed.

Lemma find_close_eq s : find_close s = close_of 1 None s.
Proof. unfold find_close. rewrite scan_paren_eq, drop_0. by destruct (close_of 1 None s). Qed.

Lemma close_of_some depth q s n : close_of depth q s = Some n -> exists i r, s = i ++ RPAREN :: r /\ length i = n.
Proof.
  revert depth q n. induction s as [|c s IH]; intros depth q n; cbn [close_of]; [done|].
  assert (Hs : forall depth q, S <$> close_of depth q s = Some n -> exists i r, c :: s = i ++ RPAREN :: r /\ length i = n).
  { intros depth' q'. destruct (close_of depth' q' s) as [m|] eqn:E; [|done]. intros [= <-].
    apply IH in E as (i & r & -> & <-). by exists (c :: i), r. }
  destruct q as [d|]; [apply Hs|]. destruct (is_string_delim c); [apply Hs|]. destruct (N.eqb c LPAREN); [apply Hs|].
  destruct (N.eqb_spec c RPAREN) as [->|_]; [|apply Hs]. destruct (Nat.eqb (depth - 1) 0); [|apply Hs].
  intros [= <-]. by exists [], s.
Qed.

(** The scan does not look past the parenthesis it finds. *)
Lemma close_of_extend depth q s t n : close_of depth q s = Some n -> close_of depth q (s ++ t) = Some n.
Proof.
  revert depth q n. induction s as [|c s IH]; intros depth q n; cbn [close_of app]; [done|].
  assert (Hs : forall depth q, S <$> close_of depth q s = Some n -> S <$> close_of depth q (s ++ t) = Some n).
  { intros depth' q'. destruct (close_of depth' q' s) as [m|] eqn:E; [|done]. by erewrite IH. }
  repeat (case_match; auto).
Qed.

Lemma close_of_cut depth q s n : close_of depth q s = Some n -> close_of depth q (take (n + 1) s) = Some n.
Proof.
  revert depth q n. induction s as [|c s IH]; intros depth q n; cbn [close_of]; [done|].
  assert (Hs : forall depth q, S <$> close_of depth q s = Some n -> exists m, n = S m /\ S <$> close_of depth q (take (m + 1) s) = Some n).
  { intros depth' q'. destruct (close_of depth' q' s) as [m|] eqn:E; [|done]. intros [= <-]. exists m. by erewrite IH. }
  replace (n + 1) with (S n) by lia. cbn [take close_of].
  assert (Ht : forall depth q, S <$> close_of depth q s = Some n -> S <$> close_of depth q (take n s) = Some n).
  { intros depth' q' (m & -> & E)%Hs. by rewrite Nat.add_1_r in E. }
  destruct q; [apply Ht|]. destruct (is_string_delim c); [apply Ht|]. destruct (N.eqb c LPAREN); [apply Ht|].
  destruct (N.eqb c RPAREN); [|apply Ht]. destruct (Nat.eqb (depth - 1) 0); [done|apply Ht].
Qed.

Lemma find_close_split after close : find_close after = Some close ->
  after = take close after ++ RPAREN :: drop (close + 1) after.
Proof.
  rewrite find_close_eq. intros (i & r & -> & <-)%close_of_some. rewrite take_app_length.
  rewrite <- drop_drop, drop_app_length. done.
Qed.

Lemma find_open_split rest idx : find_str OPEN rest = Some idx -> rest = take idx rest ++ OPEN ++ drop (idx + 2) rest.
Proof.
  intros (a & b & -> & <-)%find_str_some. rewrite take_app_length. do 2 f_equal. by rewrite <- drop_drop, drop_app_length.
Qed.

(** What the code takes for an interior is one. *)
Lemma inside_found rest idx close : find_str OPEN rest = Some idx -> find_close (drop (idx + 2) rest) = Some close ->
  inside (take close (drop (idx + 2) rest)) rest.
Proof.
  intros H1%find_open_split H2%find_close_split. eexists _, _. rewrite H1 at 1. rewrite H2 at 1. done.
Qed.

(** ** Argument lists

    A text that splits is a sequence of literals, of [$(..)], and of other
    characters. *)
Inductive atoms : list str -> Prop :=
| atoms_nil : atoms []
| atoms_quote d body l : is_string_delim d = true -> Forall (fun c => N.eqb c d = false) body -> atoms l ->
    atoms ((d :: body ++ [d]) :: l)
| atoms_group body l : close_of 1 None (body ++ [RPAREN]) = Some (length body) -> atoms l ->
    atoms ((OPEN ++ body ++ [RPAREN]) :: l)
| atoms_char c l : is_string_delim c = false ->
    (N.eqb c DOLLAR && starts_with_char LPAREN (concat l))%bool = false -> atoms l ->
    atoms ([c] :: l).
#[local] Hint Constructors atoms : core.

(** The arguments, the first of them started with [cur]. *)
Fixpoint pieces (cur : str) (l : list str) : list str :=
  match l with
  | [] => [cur]
  | a :: l => if str_eqb a [COMMA] then cur :: pieces [] l else pieces (cur ++ a) l
  end.

Lemma char_is_spec s i c : char_is s i c = starts_with_char c (drop i s).
Proof.
  unfold char_is. destruct (s !! i) as [d|] eqn:E; [by rewrite (drop_lookup s i d E)|].
  apply lookup_ge_None in E. by rewrite drop_ge.
Qed.

Lemma lookup_pre (pre : str) c t : (pre ++ c :: t) !! length pre = Some c.
Proof. by rewrite lookup_app_r, Nat.sub_diag by lia. Qed.

Lemma drop_pre (pre t : str) n : drop (length pre + n) (pre ++ t) = drop n t.
Proof. by rewrite <- drop_drop, drop_app_length. Qed.

Lemma split_step_quote pre d body t start parts : is_string_delim d = true -> Forall (fun c => N.eqb c d = false) body ->
  split_args_step (pre ++ (d :: body ++ [d]) ++ t) (length pre, start, parts) = inl (length (pre ++ d :: body ++ [d]), start, parts).
Proof.
  intros Hd Hb. cbn [split_args_step app]. rewrite lookup_pre, Hd. unfold scan_quote. rewrite drop_pre. cbn [drop].
  rewrite ?drop_0, <- app_assoc. cbn [app]. rewrite position_first by (done || apply N.eqb_refl). cbn. do 3 f_equal.
  rewrite length_app. cbn. rewrite length_app. cbn. lia.
Qed.

Lemma split_step_group pre body t start parts : close_of 1 None (body ++ [RPAREN]) = Some (length body) ->
  split_args_step (pre ++ (OPEN ++ body ++ [RPAREN]) ++ t) (length pre, start, parts)
  = inl (length (pre ++ OPEN ++ body ++ [RPAREN]), start, parts).
Proof.
  intros Hb. change (OPEN ++ body ++ [RPAREN]) with (DOLLAR :: LPAREN :: body ++ [RPAREN]). cbn [split_args_step app].
  rewrite lookup_pre. change (is_string_delim DOLLAR) with false. cbn [orb]. rewrite char_is_spec, drop_pre. cbn [drop].
  change (N.eqb DOLLAR DOLLAR && starts_with_char LPAREN (LPAREN :: (body ++ [RPAREN]) ++ t))%bool with true. cbv iota.
  rewrite scan_paren_eq, drop_pre. cbn [drop]. rewrite ?drop_0, (close_of_extend _ _ _ _ _ Hb). cbn [fmap option_fmap option_map].
  do 3 f_equal. rewrite !length_app. cbn. rewrite length_app. cbn. lia.
Qed.

Lemma split_step_char pre c t start parts : is_string_delim c = false -> (N.eqb c DOLLAR && starts_with_char LPAREN t)%bool = false ->
  split_args_step (pre ++ [c] ++ t) (length pre, start, parts)
  = inl (if N.eqb c COMMA then (length (pre ++ [c]), length (pre ++ [c]), parts ++ [trim (drop start pre)])
         else (length (pre ++ [c]), start, parts)).
Proof.
  intros Hc Ht. cbn [split_args_step app]. rewrite lookup_pre, Hc, char_is_spec, drop_pre. cbn [drop]. rewrite ?drop_0, Ht.
  rewrite length_app. destruct (N.eqb c COMMA); [|done]. do 4 f_equal. unfold between.
  rewrite <- skipn_firstn_comm. by rewrite take_app_length.
Qed.

Lemma split_args_advances s : advances (length s) (fun st => st.1.1) (split_args_step s).
Proof.
  intros [[i start] parts] [[i' start'] parts'] Hi. cbn [fst] in *. unfold split_args_step. destruct (s !! i) as [c|]; [|done].
  destruct (is_string_delim c).
  { destruct (scan_quote s (i + 1) c) as [j|] eqn:E; [|done]. apply scan_quote_some in E. intros [= <- <- <-]. lia. }
  destruct (N.eqb c DOLLAR && char_is s (i + 1) LPAREN)%bool.
  { rewrite scan_paren_eq. destruct (close_of _ _ _) as [n|]; [|done]. intros [= <- <- <-]. lia. }
  destruct (N.eqb c COMMA); intros [= <- <- <-]; lia.
Qed.

Definition split_args_loop (s : str) : nat * nat * list str -> option (option (list str)) :=
  while_st (length s) (fun st => st.1.1) (split_args_step s) (fun '(_, start, parts) => Some (parts ++ [trim (drop start s)])).

Lemma split_args_loop_unfold s i start parts : split_args_loop s (i, start, parts) =
  if Nat.ltb i (length s) then
    match split_args_step s (i, start, parts) with inl st => split_args_loop s st | inr r => Some r end
  else Some (Some (parts ++ [trim (drop start s)])).
Proof. unfold split_args_loop. by rewrite while_st_unfold by apply split_args_advances. Qed.

(** A text that starts with [pre] and goes on with atoms. *)
Lemma split_args_atoms l : atoms l -> forall pre start parts, start <= length pre ->
  split_args_loop (pre ++ concat l) (length pre, start, parts) = Some (Some (parts ++ map trim (pieces (drop start pre) l))).
Proof.
  assert (Hnext : forall (pre a t : str), pre ++ a ++ t = (pre ++ a) ++ t) by (intros; apply app_assoc).
  assert (Hcut : forall (pre a : str) start, start <= length pre -> drop start (pre ++ a) = drop start pre ++ a)
    by (intros; by rewrite drop_app_le).
  induction 1 as [|d body l Hd Hb _ IH|body l Hb _ IH|c l Hc Hs _ IH]; intros pre start parts Hle; cbn [concat];
    rewrite split_args_loop_unfold.
  - rewrite app_nil_r, Nat.ltb_irrefl. done.
  - rewrite (proj2 (Nat.ltb_lt _ _)) by (rewrite !length_app; cbn; lia). rewrite split_step_quote by done.
    rewrite Hnext, IH, Hcut by (rewrite ?length_app; lia). cbn [pieces].
    destruct (str_eqb (d :: body ++ [d]) [COMMA]) eqn:E; [|done]. apply str_eqb_eq in E. by destruct body.
  - rewrite (proj2 (Nat.ltb_lt _ _)) by (rewrite !length_app; cbn; lia). rewrite split_step_group by done.
    rewrite Hnext, IH, Hcut by (rewrite ?length_app; lia). done.
  - rewrite (proj2 (Nat.ltb_lt _ _)) by (rewrite !length_app; cbn; lia). rewrite split_step_char by done.
    rewrite Hnext. cbn [pieces str_eqb]. destruct (N.eqb c COMMA).
    + rewrite IH by lia. rewrite (drop_ge (pre ++ [c])) by done. cbn. by rewrite <- app_assoc.
    + rewrite IH, Hcut by (rewrite ?length_app; lia). done.
Qed.

Lemma is_empty_spec {A} (l : list A) : is_empty l = true <-> l = [].
Proof. by destruct l. Qed.

Lemma split_args_concat l : atoms l -> concat l <> [] -> split_args (concat l) = Some (map trim (pieces [] l)).
Proof.
  intros Hl Hne. unfold split_args. destruct (is_empty (concat l)) eqn:E; [by apply is_empty_spec in E|].
  change (while_st _ _ _ _ _) with (split_args_loop (concat l) (0, 0, [])).
  pose proof (split_args_atoms l Hl [] 0 []) as H. cbn [app length] in H. rewrite H by done. done.
Qed.

Lemma drop_take_cons (s : str) i d p : position (fun c => N.eqb c d) (drop i s) = Some p ->
  drop i s = take p (drop i s) ++ d :: drop (p + i + 1) s /\ Forall (fun c => N.eqb c d = false) (take p (drop i s)).
Proof.
  intros (a & x & b & E & <- & Hx%N.eqb_eq & Ha)%position_some. subst x. rewrite E, take_app_length. split; [|done].
  f_equal. replace (length a + i + 1) with (i + (length a + 1)) by lia. by rewrite <- drop_drop, E, drop_pre.
Qed.

Lemma split_args_some s i start parts r : split_args_loop s (i, start, parts) = Some (Some r) ->
  exists l, atoms l /\ concat l = drop i s.
Proof.
  remember (length s - i) as n eqn:Hn. revert i start parts Hn. induction n as [n IH] using lt_wf_ind. intros i start parts Hn.
  rewrite split_args_loop_unfold. destruct (Nat.ltb_spec i (length s)) as [Hi|Hi]; [|intros _; exists []; by rewrite drop_ge].
  destruct (lookup_lt_is_Some_2 s i Hi) as [c Ec]. rewrite (drop_lookup s i c Ec). cbn [split_args_step]. rewrite Ec.
  assert (Hgo : forall j st ps, i < j -> split_args_loop s (j, st, ps) = Some (Some r) -> exists l, atoms l /\ concat l = drop j s)
    by (intros j st ps Hj; apply (IH (length s - j)); lia).
  destruct (is_string_delim c) eqn:Ed.
  { unfold scan_quote. destruct (position _ _) as [p|] eqn:Ep; [|done]. cbn [fmap option_fmap option_map].
    destruct (drop_take_cons s (i + 1) c p Ep) as [Eq Hb]. intros (l & Hl & E)%Hgo; [|lia].
    exists ((c :: take p (drop (i + 1) s) ++ [c]) :: l). split; [by apply atoms_quote|]. cbn. rewrite E, <- app_assoc. cbn. by rewrite <- Eq. }
  destruct (N.eqb c DOLLAR && char_is s (i + 1) LPAREN)%bool eqn:Eg.
  { apply andb_prop in Eg as [->%N.eqb_eq Eg]. rewrite char_is_spec in Eg. rewrite scan_paren_eq.
    destruct (close_of 1 None (drop (i + 2) s)) as [m|] eqn:Em; [|done]. cbn [fmap option_fmap option_map].
    intros (l & Hl & E)%Hgo; [|lia]. destruct (drop (i + 1) s) as [|x t] eqn:Et; [done|]. cbn in Eg. apply N.eqb_eq in Eg as ->.
    assert (Ht : drop (i + 2) s = t) by (replace (i + 2) with (i + 1 + 1) by lia; rewrite <- drop_drop, Et; cbn; apply drop_0).
    pose proof (close_of_cut _ _ _ _ Em) as Hc. pose proof Em as (body & q & Eb & Hlen)%close_of_some. rewrite Ht in Eb, Hc. rewrite Eb in *.
    exists ((OPEN ++ body ++ [RPAREN]) :: l). split.
    - constructor; [|done]. subst m. rewrite take_app in Hc. rewrite take_ge in Hc by lia.
      by replace (length body + 1 - length body) with 1 in Hc by lia.
    - cbn [concat]. rewrite E. replace (i + 2 + m + 1) with (i + 2 + (m + 1)) by lia. rewrite <- drop_drop, Ht, <- Hlen, drop_pre.
      cbn. by rewrite drop_0, <- !app_assoc. }
  rewrite char_is_spec in Eg.
  assert (Hone : forall st ps, split_args_loop s (i + 1, st, ps) = Some (Some r) -> exists l, atoms l /\ concat l = c :: drop (i + 1) s).
  { intros st ps (l & Hl & E)%Hgo; [|lia]. exists ([c] :: l). cbn. rewrite E. split; [|done]. constructor; [done| |done]. by rewrite E. }
  destruct (N.eqb c COMMA); apply Hone.
Qed.

Lemma split_args_inv s parts : split_args s = Some parts -> s <> [] ->
  exists l, atoms l /\ concat l = s /\ parts = map trim (pieces [] l).
Proof.
  intros H Hne. assert (exists l, atoms l /\ concat l = s) as (l & Hl & <-).
  { unfold split_args in H. destruct (is_empty s) eqn:E; [by apply is_empty_spec in E|].
    change (while_st _ _ _ _ _) with (split_args_loop s (0, 0, [])) in H.
    destruct (split_args_loop s (0, 0, [])) as [[r|]|] eqn:Er; [|done..]. by apply split_args_some in Er. }
  exists l. split_and!; [done..|]. rewrite (split_args_concat l Hl Hne) in H. by simplify_eq.
Qed.

(** ** Joining and splitting *)

(** The arguments as lists of atoms. *)
Fixpoint groups (cur : list str) (l : list str) : list (list str) :=
  match l with
  | [] => [cur]
  | a :: l => if str_eqb a [COMMA] then cur :: groups [] l else groups (cur ++ [a]) l
  end.

Lemma concat_snoc (l : list str) a : concat (l ++ [a]) = concat l ++ a.
Proof. rewrite concat_app. cbn. by rewrite app_nil_r. Qed.

Lemma pieces_groups cur l : pieces (concat cur) l = map (@concat N) (groups cur l).
Proof.
  revert cur. induction l as [|a l IH]; intros cur; cbn; [done|]. destruct (str_eqb a [COMMA]); cbn.
  - f_equal. apply (IH []).
  - by rewrite <- IH, concat_snoc.
Qed.

Definition comma_free (l : list str) : Prop := Forall (fun a => a <> [COMMA]) l.

Lemma groups_comma_free cur l : comma_free cur -> Forall comma_free (groups cur l).
Proof.
  revert cur. induction l as [|a l IH]; intros cur Hc; cbn; [by constructor|].
  destruct (str_eqb a [COMMA]) eqn:E; [constructor; [done|by apply IH; constructor]|].
  apply IH, Forall_app. split; [done|]. constructor; [|constructor]. intros ->. done.
Qed.

(** Atoms next to each other: what follows does not matter unless a dollar
    meets a parenthesis. *)
Lemma atoms_app_inv l m : atoms (l ++ m) -> atoms m.
Proof. induction l as [|a l IH]; cbn; [done|]. inversion 1; auto. Qed.

Lemma atoms_app l m : atoms l -> atoms m -> starts_with_char LPAREN (concat m) = false -> atoms (l ++ m).
Proof.
  intros Hl Hm Hs. induction Hl as [|d body l Hd Hb _ IH|body l Hb _ IH|c l Hc Hp _ IH]; cbn; [done|by constructor..|].
  constructor; [done| |done]. destruct (concat l) eqn:E; rewrite concat_app, E; [|done]. cbn. by rewrite Hs, andb_false_r.
Qed.

Lemma atoms_prefix l m : atoms (l ++ m) -> atoms l.
Proof.
  induction l as [|a l IH]; cbn; [constructor|]. inversion 1; subst; [by constructor; auto..|].
  constructor; [done| |auto]. rewrite concat_app in *. destruct (concat l); [by rewrite andb_false_r|done].
Qed.

Lemma groups_atoms cur l : atoms (cur ++ l) -> Forall atoms (groups cur l).
Proof.
  revert cur. induction l as [|a l IH]; intros cur; cbn; [rewrite app_nil_r; by repeat constructor|].
  intros H. destruct (str_eqb a [COMMA]) eqn:E.
  - constructor; [by eapply atoms_prefix|]. apply (IH []). apply str_eqb_eq in E as ->.
    apply atoms_app_inv in H. inversion H; subst; [by destruct body|done].
  - apply IH. by rewrite <- app_assoc.
Qed.

(** Trimming a text of atoms drops atoms. *)
Definition blank_atom (a : str) : bool := match a with [c] => is_whitespace c | _ => false end.

Fixpoint drop_blank (l : list str) : list str :=
  match l with a :: l' => if blank_atom a then drop_blank l' else l | [] => [] end.

Lemma delim_not_ws d : is_string_delim d = true -> is_whitespace d = false.
Proof.
  unfold is_string_delim, contains_char. cbn. rewrite !orb_true_iff, !N.eqb_eq. intros [->|[->|[->|?]]]; done.
Qed.

Lemma atoms_ends a l : atoms (a :: l) -> exists c s' d s'', a = c :: s' /\ a = s'' ++ [d]
  /\ (is_whitespace c = false \/ blank_atom a = true) /\ (is_whitespace d = false \/ blank_atom a = true).
Proof.
  inversion 1; subst.
  - eexists _, _, d, (d :: body). split_and!; [done|done|left; by apply delim_not_ws..].
  - exists DOLLAR, (LPAREN :: body ++ [RPAREN]), RPAREN, (OPEN ++ body). split_and!; [done|by rewrite <- app_assoc|by left..].
  - exists c, [], c, []. split_and!; [done|done|cbn; destruct (is_whitespace c); auto..].
Qed.

Lemma drop_blank_suffix l : exists k, l = k ++ drop_blank l.
Proof.
  induction l as [|a l [k Hk]]; [by exists []|]. cbn. destruct (blank_atom a); [|by exists []]. exists (a :: k). cbn. by f_equal.
Qed.

Lemma blank_atom_spec a : blank_atom a = true -> exists c, a = [c] /\ is_whitespace c = true.
Proof. destruct a as [|c [|? ?]]; [done| |done]. by exists c. Qed.

Lemma trim_start_atoms l : atoms l -> drop_while is_whitespace (concat l) = concat (drop_blank l).
Proof.
  induction l as [|a l IH]; [done|]. intros H. cbn [concat drop_blank]. pose proof (atoms_app_inv [a] l H) as Hl.
  destruct (blank_atom a) eqn:E; [apply blank_atom_spec in E as (c & -> & Hc); cbn; rewrite Hc; auto|].
  apply atoms_ends in H as (c & s' & _ & _ & -> & _ & [Hc|Hc] & _); [|by rewrite Hc in E]. cbn. by rewrite Hc.
Qed.

(** The atoms that are left after trimming. *)
Definition trim_atoms (l : list str) : list str := rev (drop_blank (rev (drop_blank l))).

Lemma trim_end_atoms l : Forall (fun a => exists d s'', a = s'' ++ [d] /\ (is_whitespace d = false \/ blank_atom a = true)) l ->
  trim_end_matches is_whitespace (concat l) = concat (rev (drop_blank (rev l))).
Proof.
  unfold trim_end_matches. induction l as [|a l IH] using rev_ind; [done|].
  rewrite Forall_app, Forall_singleton. intros [Hl (d & s'' & -> & Hd)]. rewrite concat_snoc, (rev_app_distr l). cbn [rev app drop_blank].
  destruct (blank_atom (s'' ++ [d])) eqn:E.
  - apply blank_atom_spec in E as (c & -> & Hc). rewrite rev_app_distr. cbn. rewrite Hc. by apply IH.
  - destruct Hd as [Hd|?]; [|done]. cbn [rev]. rewrite concat_snoc, rev_involutive, !rev_app_distr. cbn [rev app drop_while].
    rewrite Hd. cbn [rev]. by rewrite rev_app_distr, !rev_involutive, <- app_assoc.
Qed.

Lemma atoms_Forall_ends l : atoms l -> Forall (fun a => exists d s'', a = s'' ++ [d] /\ (is_whitespace d = false \/ blank_atom a = true)) l.
Proof.
  induction l as [|a l IH]; [constructor|]. intros H. pose proof (atoms_app_inv [a] l H) as Hl.
  apply atoms_ends in H as (_ & _ & d & s'' & _ & E & _ & Hd). constructor; [by exists d, s''|auto].
Qed.

Lemma trim_atoms_spec l : atoms l -> trim (concat l) = concat (trim_atoms l) /\ atoms (trim_atoms l).
Proof.
  intros H. destruct (drop_blank_suffix l) as [k Ek]. assert (H' : atoms (drop_blank l)) by (apply (atoms_app_inv k); by rewrite <- Ek).
  unfold trim, trim_matches, trim_start_matches, trim_atoms. rewrite trim_start_atoms by done.
  rewrite trim_end_atoms by (by apply atoms_Forall_ends). split; [done|].
  destruct (drop_blank_suffix (rev (drop_blank l))) as [k' Ek']. apply (atoms_prefix _ (rev k')).
  by rewrite <- rev_app_distr, <- Ek', rev_involutive.
Qed.

Lemma trim_atoms_incl l : trim_atoms l ⊆ l.
Proof.
  unfold trim_atoms. destruct (drop_blank_suffix l) as [k Ek]. destruct (drop_blank_suffix (rev (drop_blank l))) as [k' Ek'].
  intros x Hx. rewrite Ek. apply elem_of_app. right. rewrite <- (rev_involutive (drop_blank l)), Ek', rev_app_distr. apply elem_of_app. by left.
Qed.

Fixpoint comma_join (gs : list (list str)) : list str :=
  match gs with
  | [] => []
  | [g] => g
  | g :: gs => g ++ [COMMA] :: comma_join gs
  end.

Lemma comma_join_cons g g' gs : comma_join (g :: g' :: gs) = g ++ [COMMA] :: comma_join (g' :: gs).
Proof. done. Qed.

Lemma concat_comma_join gs : concat (comma_join gs) = join [COMMA] (map (@concat N) gs).
Proof.
  induction gs as [|g [|g' gs] IH]; [done..|]. rewrite comma_join_cons, concat_app. cbn [map join]. f_equal.
  cbn [concat app]. by rewrite IH.
Qed.

Lemma atoms_comma_join gs : Forall atoms gs -> atoms (comma_join gs).
Proof.
  induction 1 as [|g gs Hg Hgs IH]; [constructor|]. destruct gs as [|g' gs]; [done|]. rewrite comma_join_cons.
  apply atoms_app; [done| |done]. by constructor.
Qed.

Lemma groups_app cur g l : comma_free g -> groups cur (g ++ l) = groups (cur ++ g) l.
Proof.
  intros Hg. revert cur. induction Hg as [|a g Ha _ IH]; intros cur; cbn; [by rewrite app_nil_r|].
  destruct (str_eqb a [COMMA]) eqn:E; [by apply str_eqb_eq in E|]. rewrite IH. by rewrite <- app_assoc.
Qed.

Lemma groups_comma_join gs : gs <> [] -> Forall comma_free gs -> groups [] (comma_join gs) = gs.
Proof.
  intros Hne. induction 1 as [|g gs Hg Hgs IH]; [done|]. destruct gs as [|g' gs].
  - cbn [comma_join]. rewrite <- (app_nil_r g) at 1. by rewrite groups_app.
  - rewrite comma_join_cons, groups_app by done. cbn [groups app]. change (str_eqb [COMMA] [COMMA]) with true. cbv iota.
    by rewrite IH.
Qed.

Lemma groups_nonnil cur l : groups cur l <> [].
Proof. revert cur. induction l as [|a l IH]; intros cur; cbn; [done|]. by destruct (str_eqb a [COMMA]). Qed.

Lemma trim_trim s : trim (trim s) = trim s.
Proof.
  unfold trim, trim_matches, trim_start_matches, trim_end_matches. set (t := drop_while is_whitespace s).
  destruct (drop_while_suffix is_whitespace (rev t)) as (k & E & _). set (r := drop_while is_whitespace (rev t)) in *.
  assert (Et : t = rev r ++ rev k) by (by rewrite <- rev_app_distr, <- E, rev_involutive).
  apply (trim_matches_id is_whitespace).
  - intros c Hc. destruct (rev r) as [|x u] eqn:Er; [done|]. cbn in Hc. injection Hc as ->. by eapply (drop_while_head _ s).
  - intros c Hc. rewrite rev_involutive in Hc. destruct r as [|x u] eqn:Er; [done|]. cbn in Hc. injection Hc as ->.
    by eapply (drop_while_head _ (rev t)).
Qed.

Lemma atoms_concat_nil l : atoms l -> concat l = [] -> l = [].
Proof. by inversion 1. Qed.

Lemma split_join_args_inv s parts : split_args s = Some parts -> parts <> [[]] -> split_args (join_args parts) = Some parts.
Proof.
  intros H Hne. destruct (decide (s = [])) as [->|Hs]; [unfold split_args in H; cbn in H; by simplify_eq|].
  destruct (split_args_inv s parts H Hs) as (l & Hl & <- & ->).
  change (pieces [] l) with (pieces (concat []) l) in *. rewrite pieces_groups, map_map in *.
  pose proof (groups_atoms [] l Hl) as Ha. pose proof (groups_comma_free [] l (Forall_nil_2 _)) as Hc.
  assert (Hn : map trim_atoms (groups [] l) <> []) by (intros E%map_eq_nil; by apply groups_nonnil in E).
  assert (E : map (fun x => trim (concat x)) (groups [] l) = map (@concat N) (map trim_atoms (groups [] l))).
  { rewrite map_map. apply map_ext_in. intros g Hg%list_elem_of_In. rewrite Forall_forall in Ha. by apply trim_atoms_spec, Ha. }
  assert (Ha' : Forall atoms (map trim_atoms (groups [] l))).
  { apply Forall_map. eapply Forall_impl; [exact Ha|]. intros g Hg. by apply trim_atoms_spec. }
  assert (Hc' : Forall comma_free (map trim_atoms (groups [] l))).
  { apply Forall_map. eapply Forall_impl; [exact Hc|]. intros g Hg. apply Forall_forall. intros x Hx%trim_atoms_incl.
    unfold comma_free in Hg. rewrite Forall_forall in Hg. auto. }
  unfold join_args. rewrite E at 1. rewrite <- concat_comma_join, split_args_concat.
  - change (pieces [] ?x) with (pieces (concat []) x). rewrite pieces_groups, groups_comma_join by done. rewrite E, !map_map.
    f_equal. apply map_ext_in. intros g Hg%list_elem_of_In. rewrite Forall_forall in Ha.
    rewrite <- (proj1 (trim_atoms_spec g (Ha g Hg))). apply trim_trim.
  - by apply atoms_comma_join.
  - intros Hnil%atoms_concat_nil; [|by apply atoms_comma_join]. apply Hne. rewrite E.
    rewrite <- (groups_comma_join (map trim_atoms (groups [] l))) by done. by rewrite Hnil.
Qed.

(** ** The arguments of a parsed expression are pieces of it *)

Lemma pieces_within cur l : Forall (fun a => within a (cur ++ concat l)) (pieces cur l).
Proof.
  revert cur. induction l as [|a l IH]; intros cur; cbn; [constructor; [rewrite app_nil_r; auto with within|constructor]|].
  destruct (str_eqb a [COMMA]).
  - constructor; [by exists [], (a ++ concat l)|]. eapply Forall_impl; [apply (IH [])|]. intros x Hx.
    eapply within_trans; [exact Hx|]. exists (cur ++ a), []. by rewrite app_nil_r, <- app_assoc.
  - eapply Forall_impl; [apply IH|]. intros x. by rewrite <- app_assoc.
Qed.

Lemma split_args_within s parts : split_args s = Some parts -> Forall (fun a => within a s) parts.
Proof.
  intros H. destruct (decide (s = [])) as [->|Hs]; [unfold split_args in H; cbn in H; simplify_eq; constructor|].
  destruct (split_args_inv s parts H Hs) as (l & _ & <- & ->). apply Forall_map.
  eapply Forall_impl; [apply (pieces_within [] l)|]. intros a Ha. eapply within_trans; [apply within_trim|exact Ha].
Qed.

Definition member_within (s : str) (m : Member) : Prop :=
  forall l, args m = Some l -> exists t, split_args t = Some l /\ within t s.
Definition link_within (s : str) (l : Link) : Prop := match l with Link_Member m => member_within s m | Link_Index _ => True end.

Lemma parse_member_within inner pos m next : parse_member inner pos = Some (m, next) -> member_within inner m /\ pos < next.
Proof.
  unfold parse_member. destruct (Nat.eqb_spec (length (name_run (drop pos inner))) 0); [done|]. cbv zeta.
  destruct (char_is _ _ _); [|intros [= <- <-]; split; [done|lia]]. rewrite scan_paren_eq.
  destruct (close_of _ _ _) as [k|]; [|done]. cbn [fmap option_fmap option_map mbind option_bind].
  destruct (split_args _) as [a|] eqn:E; [|done]. intros [= <- <-]. split; [|lia]. intros l [= <-].
  eexists. split; [exact E|apply within_between].
Qed.

Lemma parse_link_within inner pos l next : parse_link inner pos = Some (l, next) -> link_within inner l /\ pos < next.
Proof.
  unfold parse_link. destruct (inner !! pos) as [c|]; [|done]. cbn [mbind option_bind]. destruct (N.eqb c (#c".")).
  - destruct (parse_member inner (pos + 1)) as [[m n]|] eqn:E; [|done]. cbn. intros [= <- <-].
    apply parse_member_within in E as [? ?]. split; [done|lia].
  - destruct (N.eqb c LBRACKET); [|done]. destruct (position _ _) as [p|]; [|done]. cbn. intros [= <- <-]. split; [done|lia].
Qed.

Lemma parse_advances inner : advances (length inner) fst (parse_step inner).
Proof.
  intros [pos ls] [pos' ls'] _. cbn [parse_step fst]. destruct (parse_link inner pos) as [[l n]|] eqn:E; [|done].
  apply parse_link_within in E as [_ ?]. by intros [= <- <-].
Qed.

Lemma parse_links_within inner pos ls :
  mjoin (while_st (length inner) fst (parse_step inner) (fun st => Some st.2) (pos, [])) = Some ls -> Forall (link_within inner) ls.
Proof.
  destruct (while_st_ind (length inner) fst (parse_step inner) (fun st => Some st.2) (parse_advances inner)
    (fun st => Forall (link_within inner) st.2) (fun r => forall ls, r = Some ls -> Forall (link_within inner) ls) (pos, []))
    as (r & -> & Hr); [| | |done|cbn; intros ->; auto].
  - intros [p l] [p' l'] _ Hl. cbn [parse_step]. destruct (parse_link inner p) as [[x n]|] eqn:E; [|done].
    apply parse_link_within in E as [Hx _]. intros [= <- <-]. cbn. apply Forall_app. by repeat constructor.
  - intros [p l] a _ Hl. cbn [parse_step]. by destruct (parse_link inner p) as [[x n]|]; intros [= <-].
  - intros [p l] _ Hl ls' [= <-]. done.
Qed.

(** What a parsed interior is made of: a receiver that is its leading name, or a
    static call; and links. *)
Definition expr_within (s : str) (e : Expr) : Prop :=
  match root e with
  | Root_Property n => n = name_run s /\ n <> []
  | Root_Static _ m => member_within s m /\ starts_with_char LBRACKET s = true
  end /\ Forall (link_within s) (links e).

Lemma parse_within inner e : parse inner = Some e -> expr_within inner e.
Proof.
  unfold parse. destruct (parse_root inner) as [[r pos]|] eqn:Er; [|done]. cbn [mbind option_bind].
  destruct (mjoin _) as [ls|] eqn:El; [|done]. intros [= <-]. split; [|by eapply parse_links_within]. cbn [root].
  unfold parse_root in Er. destruct (starts_with_char LBRACKET inner) eqn:Eb.
  - destruct (position _ _) as [close|]; [|done]. cbn [mbind option_bind] in Er. destruct (is_empty _); [done|].
    destruct (strip_prefix _ _); [|done]. cbn [mbind option_bind] in Er.
    destruct (parse_member inner (close + 1 + 2)) as [[m n]|] eqn:Em; [|done]. cbn [mbind option_bind] in Er.
    destruct (args m); [|done]. cbn in Er. simplify_eq. by apply parse_member_within in Em as [? _].
  - cbv zeta in Er. destruct (Nat.eqb_spec (length (name_run inner)) 0) as [|Hn]; [done|]. simplify_eq.
    unfold name_run in *. rewrite take_while_length. split; [done|]. intros E. by rewrite E in Hn.
Qed.

(** ** References *)

Lemma take_while_stop q a c b : q c = false -> take_while q (a ++ c :: b) = take_while q a.
Proof. intros Hc. induction a as [|x a IH]; cbn; [by rewrite Hc|]. destruct (q x); [by rewrite IH|done]. Qed.

Lemma ws_not_name c : is_ascii_whitespace c = true -> is_name_byte c = false.
Proof.
  unfold is_ascii_whitespace. rewrite !orb_true_iff, !N.eqb_eq. intros [[[[->| ->]| ->]| ->]| ->]; done.
Qed.

Lemma name_run_trim_end s : name_run (trim_end_matches is_ascii_whitespace s) = name_run s.
Proof.
  unfold trim_end_matches. destruct (drop_while_suffix is_ascii_whitespace (rev s)) as (w & E & Hw).
  set (t := drop_while is_ascii_whitespace (rev s)) in *. rewrite <- (rev_involutive s), E, rev_app_distr.
  destruct (rev w) as [|c w'] eqn:Ew; [by rewrite app_nil_r|]. unfold name_run. rewrite take_while_stop; [done|].
  apply ws_not_name. rewrite forallb_forall in Hw. apply Hw. apply in_rev. rewrite Ew. by left.
Qed.

Lemma push_references_eq inner : push_references inner =
  if is_empty (name_run (trim_ascii inner)) then [] else [name_run (trim_ascii inner)].
Proof.
  unfold push_references. destruct (parse (trim_ascii inner)) as [e|] eqn:E; [|done]. apply parse_within in E as [Hr _].
  destruct (root e) as [n|tn m].
  - destruct Hr as [-> Hn]. by destruct (name_run (trim_ascii inner)).
  - destruct Hr as [_ Hb]. destruct (trim_ascii inner) as [|c t]; [done|]. cbn in Hb. by apply N.eqb_eq in Hb as ->.
Qed.

(** The name that an interior starts with, after blanks. *)
Definition head_name (s : str) : str := name_run (trim_start_matches is_ascii_whitespace s).

Lemma drop_while_blank w s : forallb is_ascii_whitespace w = true -> drop_while is_ascii_whitespace (w ++ s) = drop_while is_ascii_whitespace s.
Proof. induction w as [|c w IH]; cbn; [done|]. intros [-> Hw]%andb_prop. auto. Qed.

Lemma head_name_blank w s : forallb is_ascii_whitespace w = true -> head_name (w ++ s) = head_name s.
Proof. intros Hw. unfold head_name, trim_start_matches. by rewrite drop_while_blank. Qed.

Lemma head_name_cut c a b : is_name_byte c = false -> is_ascii_whitespace c = false -> head_name (a ++ c :: b) = head_name a.
Proof.
  intros Hn Hc. unfold head_name, trim_start_matches. induction a as [|x a IH]; cbn; [by rewrite Hc; cbn; rewrite Hn|].
  destruct (is_ascii_whitespace x); [done|]. unfold name_run. apply (take_while_stop _ (x :: a)), Hn.
Qed.

Lemma head_name_blanks_after a w : forallb is_ascii_whitespace w = true -> head_name (a ++ w) = head_name a.
Proof.
  intros Hw. unfold head_name, trim_start_matches. induction a as [|x a IH].
  - cbn. rewrite <- (app_nil_r w), drop_while_blank by done. done.
  - cbn. destruct (is_ascii_whitespace x); [done|]. destruct w as [|c w]; [by rewrite app_nil_r|]. apply (take_while_stop _ (x :: a)), ws_not_name.
    by apply andb_prop in Hw as [? _].
Qed.

Lemma head_name_run s : name_run s <> [] -> head_name s = name_run s.
Proof.
  intros Hne. unfold head_name, trim_start_matches. rewrite drop_while_none; [done|]. intros c Hc. destruct s as [|x t]; [done|]. injection Hc as ->.
  cbn in Hne. destruct (is_ascii_whitespace c) eqn:Ew; [|done]. by rewrite (ws_not_name c Ew) in Hne.
Qed.

(** The name at the start of the text after an opener is reported. *)
Lemma push_references_complete after : let inner := match find_close after with Some close => take close after | None => after end in
  head_name after <> [] -> head_name after ∈ push_references inner.
Proof.
  intros inner Hne. rewrite push_references_eq.
  assert (Hrun : head_name inner = head_name after).
  { unfold inner. destruct (find_close after) as [close|] eqn:E; [|done]. apply find_close_split in E. rewrite E at 2.
    by rewrite head_name_cut. }
  assert (Htrim : name_run (trim_ascii inner) = head_name after) by (unfold trim_ascii, trim_matches; by rewrite name_run_trim_end).
  rewrite Htrim. destruct (head_name after); [done|]. by left.
Qed.

Lemma references_complete fuel raw i : length raw < fuel -> inside i raw -> head_name i <> [] -> head_name i ∈ references_from fuel raw.
Proof.
  revert raw. induction fuel as [|fuel IH]; intros raw Hf (pre & suf & E) Hne; [lia|]. cbn [references_from].
  destruct (find_str_occurs OPEN pre (i ++ RPAREN :: suf)) as (n & En & Hn). rewrite E, En. cbv zeta.
  pose proof En as (a & b & Ea & <-)%find_str_some.
  destruct (decide (length a = length pre)) as [Hl|Hl].
  - destruct (app_inj_1 _ _ _ _ (eq_sym Hl) Ea) as [<- Eb]. apply elem_of_app. left.
    assert (Ed : drop (length pre + 2) (pre ++ OPEN ++ i ++ RPAREN :: suf) = i ++ RPAREN :: suf) by (by rewrite drop_pre).
    rewrite Ed. assert (Er : head_name (i ++ RPAREN :: suf) = head_name i) by (by apply head_name_cut).
    rewrite <- Er. apply push_references_complete. by rewrite Er.
  - apply elem_of_app. right. assert (Hpre : length a + 2 <= length pre).
    { destruct (decide (length pre = length a + 1)) as [Hp|]; [|lia]. exfalso.
      assert (H1 : (pre ++ OPEN ++ i ++ RPAREN :: suf) !! length pre = Some DOLLAR) by (apply lookup_pre).
      rewrite Ea, Hp, Nat.add_1_r, lookup_app_r in H1 by lia. by replace (S (length a) - length a) with 1 in H1 by lia. }
    apply IH; [rewrite E in Hf; rewrite length_drop, !length_app in *; cbn in *; lia| |done].
    exists (drop (length a + 2) pre), suf. by rewrite drop_app_le.
Qed.

Lemma property_references_complete raw i : inside i raw -> head_name i <> [] -> head_name i ∈ property_references raw.
Proof. apply references_complete. lia. Qed.

(** Splitting an argument list inverts joining it: the arguments that a call
    was split into, joined with commas for the path functions, split into the same
    arguments, unless they are one blank argument. *)
Theorem split_join_args s parts : split_args s = Some parts -> parts <> [[]] -> split_args (join_args parts) = Some parts.
Proof. apply split_join_args_inv. Qed.

Lemma split_join_args_witness :
  split_args (#"'a,b', $(X.Split(',')[0]),c(d),") = Some [ #"'a,b'"; #"$(X.Split(',')[0])"; #"c(d)"; [] ]
  /\ split_args (#"'a,b',$(X.Split(',')[0]),c(d),") = Some [ #"'a,b'"; #"$(X.Split(',')[0])"; #"c(d)"; [] ].
Proof.
  split; [by vm_compute|].
  apply (split_join_args (#"'a,b', $(X.Split(',')[0]),c(d),") [ #"'a,b'"; #"$(X.Split(',')[0])"; #"c(d)"; [] ]); [by vm_compute|done].
Defined.
