(* ===== verification/PropExprThm.v ===== *)
(** * What substitution depends on, and that it answers

    About [PropExpr]: every text has a substitution, without a panic; the result
    depends only on the properties that [property_references] reports (and two
    reserved ones that functions read without naming them); allowing the file
    system only adds answers; and on text with plain references it is the
    concatenation of their values. *)

From S2P Require Import Prelude Order Escaping StrBytes Properties PropExpr PropScanThm.

(** ** Computations *)

Lemma run_bind_ext {L A B} (m1 m2 : run L A) (k1 k2 : A -> run L B) :
  m1 = m2 -> (forall a l, m1 = Done a l -> k1 a = k2 a) -> m1 ≫= k1 = m2 ≫= k2.
Proof. intros <- H. destruct m1 as [a l| |]; [|done..]. cbn. by rewrite (H a l). Qed.

(** ** Two runs that read the same *)

Section agree.
Context `{Host} (p1 p2 : PropertyMap).

(** Two tables, and two evaluations of interiors, that agree on the interiors of
    a text. *)
Definition agree {A} (r1 r2 : str -> run Issue A) (s : str) : Prop :=
  forall i, inside i s -> r1 i = r2 i /\ (name_run i <> [] -> get p1 (name_run i) = get p2 (name_run i)).

Lemma agree_within {A} (r1 r2 : str -> run Issue A) a s : within a s -> agree r1 r2 s -> agree r1 r2 a.
Proof. intros Ha Hs i Hi. by apply Hs, (inside_within i a s). Qed.

Lemma name_run_names n : forallb is_name_byte n = true -> name_run n = n.
Proof. induction n as [|c n IH]; cbn; [done|]. intros [-> Hn]%andb_prop. unfold name_run in *. by rewrite IH. Qed.

Lemma fast_path_inside rest idx : find_str OPEN rest = Some idx ->
  let after := drop (idx + 2) rest in let id_len := length (name_run after) in
  char_is after id_len RPAREN = true -> inside (take id_len after) rest /\ name_run (take id_len after) = take id_len after.
Proof.
  intros Hi after id_len Hc. apply find_open_split in Hi. fold after in Hi. rewrite char_is_spec in Hc.
  destruct (drop id_len after) as [|c t] eqn:Ed; [done|]. cbn in Hc. apply N.eqb_eq in Hc as ->. split.
  - exists (take idx rest), t. rewrite Hi at 1. do 2 f_equal. rewrite <- (take_drop id_len after) at 1. by rewrite Ed.
  - unfold id_len, name_run. rewrite take_while_length. apply name_run_names. apply forallb_Forall, take_while_Forall.
Qed.

Lemma substitute_loop_agree ev1 ev2 fuel out rest : agree ev1 ev2 rest ->
  substitute_loop p1 ev1 fuel out rest = substitute_loop p2 ev2 fuel out rest.
Proof.
  revert out rest. induction fuel as [|fuel IH]; intros out rest Ha; [done|]. cbn [substitute_loop].
  destruct (find_str OPEN rest) as [idx|] eqn:Ei; [|done]. cbv zeta.
  assert (Hd : forall n m, agree ev1 ev2 (drop n (drop m rest)))
    by (intros n m; eapply agree_within; [|exact Ha]; rewrite drop_drop; apply within_drop).
  destruct (Nat.ltb 0 _ && char_is _ _ RPAREN)%bool eqn:Ef.
  - apply andb_prop in Ef as [Hpos%Nat.ltb_lt Hc]. destruct (fast_path_inside rest idx Ei Hc) as [Hin Hn].
    destruct (Ha _ Hin) as [_ Hg]. rewrite Hn in Hg. rewrite Hg.
    + destruct (get p2 _); [by apply IH|]. apply run_bind_ext; [done|]. intros _ _ _. by apply IH.
    + intros E%(f_equal length). rewrite length_take_le in E; [cbn in E; lia|].
      rewrite <- (take_drop_while is_name_byte (drop (idx + 2) rest)) at 2. rewrite length_app. unfold name_run. lia.
  - destruct (find_close (drop (idx + 2) rest)) as [close|] eqn:Ec; [|done].
    destruct (Ha _ (inside_found rest idx close Ei Ec)) as [-> _].
    destruct (ev2 _); [| |done]; (apply run_bind_ext; [done|]; intros _ _ _; by apply IH).
Qed.

Context (r1 r2 : str -> run Issue Value).

Lemma agree_evaluated s : agree r1 r2 s -> agree (fun i => evaluated (r1 i)) (fun i => evaluated (r2 i)) s.
Proof. intros Ha i Hi. destruct (Ha i Hi) as [-> ?]. done. Qed.

Lemma literal_within delims arg t : literal_of delims arg = Some t -> within t arg.
Proof.
  induction delims as [|d ds IH]; cbn [literal_of]; [done|]. destruct (unquote d arg) as [u|] eqn:E; [|exact IH].
  destruct (contains_char d u); [done|]. intros [= <-]. eauto with within.
Qed.

Lemma eval_exact_path_arg_agree reject arg : agree r1 r2 arg -> eval_exact_path_arg p1 r1 reject arg = eval_exact_path_arg p2 r2 reject arg.
Proof.
  intros Ha. unfold eval_exact_path_arg. apply run_bind_ext; [done|]. intros t l Ht.
  assert (Hw : within t arg).
  { unfold string_literal_arg in Ht. destruct (literal_of _ _) as [q|] eqn:E.
    - injection Ht as <- _. apply literal_within in E. eapply within_trans; [exact E|auto with within].
    - unfold require in Ht. destruct (negb _); [|done]. cbn in Ht. injection Ht as <- _. auto with within. }
  unfold substitute_arg, substitute_by. rewrite (substitute_loop_agree _ (fun i => evaluated (r2 i))); [done|].
  apply agree_evaluated. by eapply agree_within.
Qed.

Lemma mapM_agree reject l : Forall (agree r1 r2) l -> mapM (eval_exact_path_arg p1 r1 reject) l = mapM (eval_exact_path_arg p2 r2 reject) l.
Proof.
  induction 1 as [|a l Ha _ IH]; [done|]. cbn [mapM]. rewrite (eval_exact_path_arg_agree reject a Ha).
  apply run_bind_ext; [done|]. intros x _ _. by rewrite IH.
Qed.

(** The arguments of a member are pieces of a text on which the runs agree. *)
Definition args_agree (l : list str) : Prop := exists t, split_args t = Some l /\ agree r1 r2 t.

Lemma args_agree_Forall l : args_agree l -> Forall (agree r1 r2) l.
Proof.
  intros (t & Ht & Ha). apply split_args_within in Ht. eapply Forall_impl; [exact Ht|]. intros a Hw. by apply (agree_within _ _ a t).
Qed.

Lemma eval_exact_path_args_agree reject l : args_agree l ->
  eval_exact_path_args p1 r1 reject (join_args l) = eval_exact_path_args p2 r2 reject (join_args l).
Proof.
  intros Hl. unfold eval_exact_path_args. destruct (decide (l = [[]])) as [->|Hne]; [done|].
  pose proof Hl as (t & Ht & _). rewrite (split_join_args_inv t l Ht Hne). cbn [ok_or_decline].
  apply run_bind_ext; [done|]. intros a _ [= <- _]. apply run_bind_ext; [done|]. intros _ _ _. by apply mapM_agree, args_agree_Forall.
Qed.

Lemma template_loop_agree d allow fuel out rest : agree r1 r2 rest ->
  template_loop r1 d allow fuel out rest = template_loop r2 d allow fuel out rest.
Proof.
  revert out rest. induction fuel as [|fuel IH]; intros out rest Ha; [done|]. cbn [template_loop].
  destruct (find_str OPEN rest) as [idx|] eqn:Ei; [|done]. cbv zeta. apply run_bind_ext; [done|]. intros _ _ _.
  assert (Hd : forall n m, agree r1 r2 (drop n (drop m rest)))
    by (intros n m; eapply agree_within; [|exact Ha]; rewrite drop_drop; apply within_drop).
  destruct (find_close (drop (idx + 2) rest)) as [close|] eqn:Ec; [|by apply IH, (Hd 0 (idx + 2))].
  destruct (Ha _ (inside_found rest idx close Ei Ec)) as [-> _]. apply run_bind_ext; [done|]. intros v _ _.
  destruct v; try done. apply run_bind_ext; [done|]. intros _ _ _. by apply IH.
Qed.

Lemma eval_string_arg_inner_agree allow arg : agree r1 r2 arg -> eval_string_arg_inner r1 allow arg = eval_string_arg_inner r2 allow arg.
Proof.
  intros Ha. unfold eval_string_arg_inner. assert (Ht : agree r1 r2 (trim arg)) by (eapply agree_within; [|exact Ha]; auto with within).
  revert Ht. generalize (trim arg). clear arg Ha. intros arg Ha. induction STRING_DELIMS as [|d ds IH]; cbn [eval_string_arg_by].
  - apply run_bind_ext; [done|]. intros after ? E. apply run_bind_ext; [done|]. intros close ? Ec.
    apply run_bind_ext; [done|]. intros _ _ _. apply run_bind_ext; [|done].
    destruct (strip_prefix OPEN arg) as [u|] eqn:Eu; [|done]. injection E as <- _.
    destruct (find_close u) as [n|] eqn:En; [|done]. injection Ec as <- _. apply Ha.
    apply strip_prefix_some in Eu as ->. apply find_close_split in En. exists [], (drop (n + 1) u). cbn [app]. by rewrite En at 1.
  - destruct (unquote d arg) as [body|] eqn:E; [|done]. unfold eval_str_template. apply template_loop_agree.
    eapply agree_within; [|exact Ha]. eauto with within.
Qed.

Lemma eval_version_arg_agree arg : agree r1 r2 arg -> eval_version_arg r1 arg = eval_version_arg r2 arg.
Proof.
  intros Ha. unfold eval_version_arg. cbv zeta. destruct (_ || _)%bool; [|done]. apply eval_string_arg_inner_agree.
  eapply agree_within; [|exact Ha]. auto with within.
Qed.

(** Calls by the shape of their arguments. *)
Lemma one_arg_agree {B C} (g1 g2 : str -> run Issue B) (k : B -> run Issue C) l : (forall a, agree r1 r2 a -> g1 a = g2 a) ->
  args_agree l -> (a ← one_arg l; b ← g1 a; k b) = (a ← one_arg l; b ← g2 a; k b).
Proof.
  intros Hg Hl%args_agree_Forall. apply run_bind_ext; [done|]. intros a ? E. destruct l as [|x [|]]; [done| |done].
  injection E as <- _. inversion Hl; subst. by rewrite Hg.
Qed.

Lemma tfm_agree {B} (k : str -> nat -> run Issue B) l : args_agree l ->
  ('(tfm, n) ← tfm_and_parts l; t ← eval_string_arg r1 tfm; k t n) = ('(tfm, n) ← tfm_and_parts l; t ← eval_string_arg r2 tfm; k t n).
Proof.
  intros Hl%args_agree_Forall. apply run_bind_ext; [done|]. intros [tfm n] ? E.
  assert (Ht : agree r1 r2 tfm).
  { destruct l as [|x [|y [|]]]; [done| | |done]; inversion Hl; subst; cbn in E; [by injection E as <- _|].
    destruct (parse_target_framework_version_part_count y); [|done]. by injection E as <- _. }
  unfold eval_string_arg. by rewrite (eval_string_arg_inner_agree false tfm Ht).
Qed.

Lemma two_args_agree {B C} (g1 g2 : str -> run Issue B) (k : B -> B -> run Issue C) l : (forall a, agree r1 r2 a -> g1 a = g2 a) ->
  args_agree l -> ('(x, y) ← two_args l; x ← g1 x; y ← g1 y; k x y) = ('(x, y) ← two_args l; x ← g2 x; y ← g2 y; k x y).
Proof.
  intros Hg Hl%args_agree_Forall. apply run_bind_ext; [done|]. intros [x y] ? E. destruct l as [|a [|b [|]]]; [done..| |done].
  injection E as <- <- _. inversion Hl as [|? ? Ha Hl']; inversion Hl'; subst. by rewrite !Hg.
Qed.

Lemma eval_string_member_agree recv m : (forall l, args m = Some l -> args_agree l) ->
  eval_string_member r1 recv m = eval_string_member r2 recv m.
Proof.
  intros Hm. unfold eval_string_member. cbv zeta. apply run_bind_ext; [done|]. intros _ _ _.
  destruct (args m) as [l|]; [|done]. specialize (Hm l eq_refl). apply args_agree_Forall in Hm.
  destruct (StringBoolMethod_from_name (name m)); [|destruct (eq_ignore_ascii_case (name m) (#"TrimStart"));
    [|destruct (eq_ignore_ascii_case (name m) (#"Split")); [|done]]];
    (destruct l as [|x [|]]; [done| |done]); inversion Hm; subst; (apply run_bind_ext; [by apply eval_string_arg_inner_agree|done]).
Qed.

(** Functions that read a property they do not name. *)
Definition implicit_names : list str := [ #"MSBuildThisFileDirectory"; #"MSBuildDisableFeaturesFromVersion" ].
Context (Himplicit : forall n, n ∈ implicit_names -> get p1 n = get p2 n).

Lemma get_path_of_file_above_args_agree l : args_agree l -> get_path_of_file_above_args p1 r1 l = get_path_of_file_above_args p2 r2 l.
Proof.
  intros Hl%args_agree_Forall. unfold get_path_of_file_above_args, get_unescaped.
  destruct l as [|x [|y [|]]]; [done| | |done]; inversion Hl as [|? ? Hx Hl']; subst.
  - rewrite (Himplicit (#"MSBuildThisFileDirectory")) by (left). apply run_bind_ext; [done|]. intros d _ _. apply run_bind_ext; [done|].
    intros _ _ _. by rewrite (eval_exact_path_arg_agree false x).
  - inversion Hl'; subst. apply run_bind_ext; [done|]. intros _ _ _.
    by rewrite (eval_exact_path_arg_agree false x), (eval_exact_path_arg_agree false y).
Qed.

Lemma eval_msbuild_static_agree n l fs : args_agree l -> eval_msbuild_static p1 r1 n l fs = eval_msbuild_static p2 r2 n l fs.
Proof.
  intros Hl. unfold eval_msbuild_static. cbv zeta. pose proof (eval_string_arg_inner_agree false) as Hs.
  destruct (eq_ignore_ascii_case n _); [by apply one_arg_agree|].
  destruct (eq_ignore_ascii_case n _); [by apply (tfm_agree (fun t k => _))|].
  destruct (eq_ignore_ascii_case n _); [by apply one_arg_agree|].
  destruct (eq_ignore_ascii_case n _); [by apply (tfm_agree (fun t k => _))|].
  destruct (eq_ignore_ascii_case n _); [done|].
  destruct (eq_ignore_ascii_case n _); [by apply one_arg_agree|].
  destruct (eq_ignore_ascii_case n _).
  { apply run_bind_ext; [done|]. intros a ? E. unfold get_unescaped.
    rewrite (Himplicit (#"MSBuildDisableFeaturesFromVersion")) by (right; left). apply run_bind_ext; [done|]. intros _ _ _.
    apply args_agree_Forall in Hl. destruct l as [|x [|]]; [done| |done]. injection E as <- _. inversion Hl; subst.
    unfold eval_string_arg. by rewrite Hs. }
  destruct (version_compare_op n); [by apply (two_args_agree _ _ (fun x y => _)), Hl; apply eval_version_arg_agree|].
  destruct (eq_ignore_ascii_case n _); [by apply one_arg_agree|].
  destruct (eq_ignore_ascii_case n _); [by rewrite eval_exact_path_args_agree|].
  destruct (eq_ignore_ascii_case n _).
  { apply run_bind_ext; [done|]. intros _ _ _. apply run_bind_ext; [done|]. intros [x y] ? E. apply run_bind_ext; [done|]. intros _ _ _.
    apply args_agree_Forall in Hl. destruct l as [|a [|b [|]]]; [done..| |done]. injection E as <- <- _.
    inversion Hl as [|? ? Ha Hl']; inversion Hl'; subst. by rewrite !eval_exact_path_arg_agree. }
  destruct (eq_ignore_ascii_case n _); [|done]. by rewrite get_path_of_file_above_args_agree.
Qed.

Lemma eval_static_agree t m fs : (forall l, args m = Some l -> args_agree l) -> eval_static p1 r1 t m fs = eval_static p2 r2 t m fs.
Proof.
  intros Hm. unfold eval_static. destruct (args m) as [l|]; [|done]. specialize (Hm l eq_refl). cbn [ok_or_decline].
  apply run_bind_ext; [done|]. intros l' _ [= <- _]. apply run_bind_ext; [done|]. intros ty _ _. cbv zeta.
  pose proof (eval_string_arg_inner_agree false) as Hs. pose proof (eval_string_arg_inner_agree true) as Ht.
  destruct (str_eqb ty (#"MSBuild")); [by apply eval_msbuild_static_agree|].
  destruct (_ && _)%bool; [by rewrite eval_exact_path_args_agree|].
  destruct (_ && _)%bool; [by apply one_arg_agree|]. destruct (_ && _)%bool; [by apply one_arg_agree|].
  destruct (_ && _)%bool; [by apply one_arg_agree|done].
Qed.

Lemma eval_links_agree v ls s : Forall (link_within s) ls -> agree r1 r2 s -> eval_links r1 v ls = eval_links r2 v ls.
Proof.
  intros Hls Ha. revert v. induction Hls as [|l ls Hl _ IH]; intros v; [done|]. cbn [eval_links]. apply run_bind_ext; [|auto].
  destruct l as [m|]; [|done]. cbn [eval_link]. unfold eval_member. destruct (_ && _)%bool; [done|]. destruct v; try done.
  apply eval_string_member_agree. intros l Hm. destruct (Hl l Hm) as (t & Ht & Hw). exists t. split; [done|]. by apply (agree_within _ _ t s).
Qed.

Lemma eval_agree e s fs : expr_within s e -> agree r1 r2 s -> (name_run s <> [] -> get p1 (name_run s) = get p2 (name_run s)) ->
  eval p1 r1 e fs = eval p2 r2 e fs.
Proof.
  intros [Hr Hl] Ha Hn. unfold eval. apply run_bind_ext; [|by intros v _ _; apply (eval_links_agree v (links e) s)].
  destruct (root e) as [n|t m]; cbn [eval_root].
  - destruct Hr as [-> Hne]. by rewrite (Hn Hne).
  - apply eval_static_agree. intros l Hm. destruct Hr as [Hr _]. destruct (Hr l Hm) as (u & Hu & Hw). exists u.
    split; [done|]. by apply (agree_within _ _ u s).
Qed.
End agree.

(** ** More fuel, and other tables *)

Lemma eval_interior_fuel `{Host} p n m i fs : length i < n -> length i < m -> eval_interior p n i fs = eval_interior p m i fs.
Proof.
  revert m i fs. induction n as [|n IH]; intros m i fs Hn Hm; [lia|]. destruct m as [|m]; [lia|]. cbn [eval_interior].
  apply run_bind_ext; [done|]. intros e ? He. destruct (parse i) as [e'|] eqn:Ep; [|done]. injection He as <- _.
  apply (eval_agree p p _ _) with (s := i); [done|by apply parse_within| |done]. intros j Hj. apply inside_length in Hj.
  split; [apply IH; lia|done].
Qed.

Definition names_agree (p1 p2 : PropertyMap) (s : str) : Prop :=
  forall i, inside i s -> name_run i <> [] -> get p1 (name_run i) = get p2 (name_run i).

Lemma eval_interior_reads `{Host} p1 p2 n i fs : (forall n, n ∈ implicit_names -> get p1 n = get p2 n) -> names_agree p1 p2 i ->
  (name_run i <> [] -> get p1 (name_run i) = get p2 (name_run i)) -> eval_interior p1 n i fs = eval_interior p2 n i fs.
Proof.
  intros Himp. revert i fs. induction n as [|n IH]; intros i fs Hi Hr; [done|]. cbn [eval_interior].
  apply run_bind_ext; [done|]. intros e ? He. destruct (parse i) as [e'|] eqn:Ep; [|done]. injection He as <- _.
  apply (eval_agree p1 p2 _ _ Himp) with (s := i); [by apply parse_within| |done]. intros j Hj. split; [|by apply Hi].
  apply IH; [|by apply Hi]. intros k Hk. apply Hi, (inside_within k j i Hk), inside_interior, Hj.
Qed.

Lemma substitute_impl_reads `{Host} p1 p2 raw fs : (forall n, n ∈ implicit_names -> get p1 n = get p2 n) -> names_agree p1 p2 raw ->
  substitute_impl raw p1 fs = substitute_impl raw p2 fs.
Proof.
  intros Himp Hraw. unfold substitute_impl, substitute_by. apply substitute_loop_agree. intros i Hi. split; [|by apply Hraw].
  unfold evaluate. f_equal. apply eval_interior_reads; [done| |by apply Hraw].
  intros k Hk. apply Hraw, (inside_within k i raw Hk), inside_interior, Hi.
Qed.

(** ** Postconditions

    A computation answers with [P] when it is not stuck and what it is done with
    satisfies [P]. *)
Definition answers {L A} (P : A -> Prop) (m : run L A) : Prop :=
  match m with Done a _ => P a | Declined => True | Stuck => False end.

Lemma answers_bind {L A B} (P : A -> Prop) (Q : B -> Prop) (m : run L A) (k : A -> run L B) :
  answers P m -> (forall a, P a -> answers Q (k a)) -> answers Q (m ≫= k).
Proof. destruct m as [a l| |]; cbn; [|done..]. intros Ha Hk. specialize (Hk a Ha). by destruct (k a). Qed.

Lemma answers_mono {L A} (P Q : A -> Prop) (m : run L A) : answers P m -> (forall a, P a -> Q a) -> answers Q m.
Proof. destruct m; cbn; auto. Qed.

Lemma answers_fmap {L A B} (P : B -> Prop) (f : A -> B) (m : run L A) : answers (fun a => P (f a)) m -> answers P (f <$> m).
Proof. by destruct m. Qed.

Lemma answers_ret {L A} (P : A -> Prop) (a : A) : P a -> answers P (mret a : run L A).
Proof. done. Qed.
Lemma answers_ok_or_decline {L A} (P : A -> Prop) (o : option A) : (forall a, o = Some a -> P a) -> answers (L := L) P (ok_or_decline o).
Proof. destruct o; cbn; auto. Qed.
Lemma answers_require {L} b : answers (L := L) (fun _ => True) (require b).
Proof. by destruct b. Qed.
Lemma answers_tell {L} (l : L) : answers (fun _ => True) (tell l).
Proof. done. Qed.

Definition true1 {A} : A -> Prop := fun _ => True.

Create HintDb answers discriminated.
#[export] Hint Resolve answers_require answers_tell : answers.
#[export] Hint Extern 1 (answers _ Declined) => exact I : answers.
#[export] Hint Extern 2 (answers _ (mret _)) => apply answers_ret; exact I : answers.

(** Go through a computation whose results do not matter. *)
Ltac answers_tac :=
  repeat first
    [ done
    | exact I
    | progress auto with answers
    | apply (answers_bind true1); [|intros ? _]
    | apply answers_fmap
    | apply answers_ok_or_decline; intros ? _
    | match goal with |- answers _ (match ?x with _ => _ end) => destruct x end
    | match goal with |- answers _ (if ?x then _ else _) => destruct x end ].

(** ** The upward walk ends at the root *)

Lemma join_cons c x y (l : list str) : join [c] (x :: y :: l) = x ++ [c] ++ join [c] (y :: l).
Proof. done. Qed.

Lemma join_length_elem c x (l : list str) : x ∈ l -> length x <= length (join [c] l).
Proof.
  induction l as [|y [|z l] IH]; [by intros ?%not_elem_of_nil|intros ->%list_elem_of_singleton; done|].
  rewrite join_cons, !length_app. intros [->|Hx]%elem_of_cons; [|specialize (IH Hx)]; lia.
Qed.

Lemma join_shorter c (l m : list str) x : x ∈ m -> x <> [] -> length (join [c] l) < length (join [c] (l ++ m)).
Proof.
  intros Hx Hne. assert (0 < length x) by (destruct x; [done|cbn; lia]). induction l as [|y l IH].
  - pose proof (join_length_elem c x m Hx). cbn in *. lia.
  - destruct l as [|z l]; [destruct m as [|z m]; [by apply not_elem_of_nil in Hx|]; cbn [app]; rewrite join_cons; cbn [join]; rewrite !length_app; cbn; lia|].
    cbn [app] in *. rewrite !join_cons, !length_app. lia.
Qed.

Lemma drop_back_suffix b r : exists k, r = k ++ drop_back b r.
Proof.
  induction r as [|x [|y r] [k IH]]; [by exists []| |].
  - cbn [drop_back]. destruct (_ || _)%bool; [by exists [x]|by exists []].
  - change (drop_back b (x :: y :: r)) with (if (is_empty x || str_eqb x (#"."))%bool then drop_back b (y :: r) else x :: y :: r).
    destruct (_ || _)%bool; [exists (x :: k); cbn; by f_equal|by exists []].
Qed.

Lemma drop_back_head b r x r' : drop_back b r = x :: r' -> x <> [].
Proof.
  induction r as [|y [|z r] IH]; [done| |].
  - cbn [drop_back]. destruct (_ || _)%bool eqn:E; [done|]. intros [= <- _] ->. done.
  - change (drop_back b (y :: z :: r)) with (if (is_empty y || str_eqb y (#"."))%bool then drop_back b (z :: r) else y :: z :: r).
    destruct (_ || _)%bool eqn:E; [exact IH|]. intros [= <- _] ->. done.
Qed.

Lemma path_text s : s = (if is_absolute s then [SLASH] else []) ++ join [SLASH] (segments s).
Proof.
  unfold segments. rewrite join_split. destruct s as [|c s]; [done|]. unfold is_absolute. cbn [starts_with_char].
  by destruct (N.eqb_spec c SLASH) as [->|_].
Qed.

Lemma Path_parent_shorter s t : Path_parent s = Some t -> length t < length s.
Proof.
  unfold Path_parent, back. destruct (drop_back _ (rev (segments s))) as [|x r] eqn:E; [done|]. intros [= <-].
  pose proof (drop_back_head _ _ _ _ E) as Hx. destruct (drop_back_suffix (is_absolute s) (rev (segments s))) as [k Ek].
  destruct (drop_back_suffix (is_absolute s) r) as [k' Ek']. rewrite E, Ek' in Ek. set (r' := drop_back _ r) in *.
  pose proof (f_equal length (path_text s)) as Hlen. rewrite Hlen, !length_app. clear Hlen. apply Nat.add_lt_mono_l.
  assert (Es : segments s = rev r' ++ (rev k' ++ x :: rev k)).
  { rewrite <- (rev_involutive (segments s)), Ek, rev_app_distr. cbn. by rewrite rev_app_distr, <- !app_assoc. }
  rewrite Es. apply (join_shorter _ _ _ x); [|done]. apply elem_of_app. right. left.
Qed.

Lemma file_above_returns `{Host} fuel dir file : length dir < fuel -> is_Some (file_above fuel dir file).
Proof.
  revert dir. induction fuel as [|fuel IH]; intros dir Hf; [lia|]. cbn [file_above]. destruct (is_file _); [done|].
  destruct (Path_parent dir) as [d|] eqn:E; [|done]. apply Path_parent_shorter in E. apply IH. lia.
Qed.

Lemma directory_above_answers `{Host} {L} start file : answers (L := L) true1 (get_directory_name_of_file_above start file).
Proof.
  unfold get_directory_name_of_file_above. answers_tac.
  match goal with |- answers _ (ok_or_panic (file_above ?n ?d ?f)) => destruct (file_above_returns n d f) as [t ->] end; [lia|done].
Qed.

Lemma path_above_answers `{Host} {L} file start : answers (L := L) true1 (get_path_of_file_above file start).
Proof. unfold get_path_of_file_above. pose proof (directory_above_answers (L := L) start file). answers_tac. Qed.

(** ** The evaluator answers *)

(** [.Major] and [.Minor] index a version. *)
Definition value_ok (v : Value) : Prop := match v with Value_Version v => 2 <= length v | _ => True end.

Lemma components_length bound parts ns : components bound parts = Some ns -> length ns = length parts.
Proof.
  revert ns. induction parts as [|p ps IH]; intros ns; cbn [components]; [by intros [= <-]|]. destruct (_ || _)%bool; [done|].
  destruct (parse_unsigned bound p); [|done]. cbn [mbind option_bind]. destruct (components bound ps) as [l|]; [|done].
  intros [= <-]. cbn. by rewrite (IH l).
Qed.

Lemma parse_version_length s v : parse_version s = Some v -> 2 <= length v.
Proof.
  unfold parse_version. cbv zeta. destruct (_ && _)%bool eqn:E; [|done]. apply andb_prop in E as [E%Nat.leb_le _].
  destruct (components _ _) as [ns|] eqn:Ec; [|done]. apply components_length in Ec. intros [= <-]. by rewrite length_map, Ec.
Qed.

Lemma eval_version_member_answers {L} v m : 2 <= length v -> answers (L := L) value_ok (eval_version_member v m).
Proof.
  intros Hv. unfold eval_version_member. destruct (lookup_lt_is_Some_2 v 0) as [x Hx]; [lia|].
  destruct (lookup_lt_is_Some_2 v 1) as [y Hy]; [lia|]. rewrite Hx, Hy. answers_tac.
Qed.

Lemma evaluated_answers m : answers value_ok m -> answers true1 (evaluated m).
Proof. intros H. unfold evaluated. apply (answers_bind value_ok); [done|]. intros v _. answers_tac. Qed.

Lemma found_shorter rest idx n : find_str OPEN rest = Some idx -> length (drop n (drop (idx + 2) rest)) < length rest.
Proof.
  intros (a & b & -> & <-)%find_str_some. rewrite drop_drop, length_drop, !length_app. change (length OPEN) with 2. lia.
Qed.

Lemma substitute_loop_answers p ev fuel out rest : (forall i, answers true1 (ev i)) -> length rest < fuel ->
  exists v l, substitute_loop p ev fuel out rest = Done v l.
Proof.
  intros Hev. revert out rest. induction fuel as [|fuel IH]; intros out rest Hf; [lia|]. cbn [substitute_loop].
  destruct (find_str OPEN rest) as [idx|] eqn:Ei; [|by eexists _, _]. cbv zeta.
  assert (Hgo : forall out n, exists v l, substitute_loop p ev fuel out (drop n (drop (idx + 2) rest)) = Done v l)
    by (intros out' n; apply IH; eapply Nat.lt_le_trans; [by apply found_shorter|lia]).
  assert (Hlog : forall (l : list Issue) out n, exists v l', (Done tt l;; substitute_loop p ev fuel out (drop n (drop (idx + 2) rest))) = Done v l').
  { intros l out' n. destruct (Hgo out' n) as (v & l' & E). eexists v, _. cbn. by rewrite E. }
  destruct (_ && _)%bool; [destruct (get p _); [apply Hgo|apply (Hlog [_])]|].
  destruct (find_close _) as [close|]; [|by eexists _, _].
  pose proof (Hev (take close (drop (idx + 2) rest))) as He. destruct (ev _) as [w l| |]; [apply Hlog|apply (Hlog [_])|done].
Qed.

Section answers.
Context `{Host} (p : PropertyMap) (rec : str -> run Issue Value) (Hrec : forall i, answers value_ok (rec i)).

Lemma eval_exact_path_arg_answers reject arg : answers true1 (eval_exact_path_arg p rec reject arg).
Proof using Hrec.
  unfold eval_exact_path_arg. apply (answers_bind true1); [answers_tac|]. intros t _. unfold substitute_arg, substitute_by.
  destruct (substitute_loop_answers p (fun i => evaluated (rec i)) (S (length t)) (from_xml []) t) as (v & l & ->);
    [intros i; apply evaluated_answers, Hrec|lia|]. destruct l; answers_tac.
Qed.

Lemma eval_exact_path_args_answers reject l : answers true1 (eval_exact_path_args p rec reject l).
Proof using Hrec.
  unfold eval_exact_path_args. apply (answers_bind true1); [answers_tac|]. intros a _. apply (answers_bind true1); [answers_tac|].
  intros _ _. induction a as [|x a IH]; [done|]. cbn [mapM]. pose proof (eval_exact_path_arg_answers reject x). answers_tac.
Qed.

Lemma template_loop_answers d allow fuel out rest : length rest < fuel -> answers true1 (template_loop rec d allow fuel out rest).
Proof using Hrec.
  revert out rest. induction fuel as [|fuel IH]; intros out rest Hf; [lia|]. cbn [template_loop].
  destruct (find_str OPEN rest) as [idx|] eqn:Ei; [|answers_tac]. cbv zeta. apply (answers_bind true1); [answers_tac|]. intros _ _.
  destruct (find_close _) as [close|]; [|apply IH; eapply Nat.lt_le_trans; [by apply (found_shorter rest idx 0)|lia]].
  apply (answers_bind value_ok); [apply Hrec|]. intros v _. destruct v; [|answers_tac..].
  apply (answers_bind true1); [answers_tac|]. intros _ _. apply IH. eapply Nat.lt_le_trans; [by apply found_shorter|lia].
Qed.

Lemma eval_string_arg_inner_answers allow arg : answers true1 (eval_string_arg_inner rec allow arg).
Proof using Hrec.
  unfold eval_string_arg_inner. generalize (trim arg). intros s. induction STRING_DELIMS as [|d ds IH]; cbn [eval_string_arg_by].
  - apply (answers_bind true1); [answers_tac|]. intros after _. apply (answers_bind true1); [answers_tac|]. intros close _.
    apply (answers_bind true1); [answers_tac|]. intros _ _. apply (answers_bind value_ok); [apply Hrec|]. intros v _. answers_tac.
  - destruct (unquote d s); [|done]. apply template_loop_answers. lia.
Qed.

Lemma eval_string_arg_answers arg : answers true1 (eval_string_arg rec arg).
Proof using Hrec. apply eval_string_arg_inner_answers. Qed.

Lemma eval_boundary_arg_answers arg : answers true1 (eval_string_arg_allowing_boundary_backslash rec arg).
Proof using Hrec. apply eval_string_arg_inner_answers. Qed.

Lemma eval_version_arg_answers arg : answers true1 (eval_version_arg rec arg).
Proof using Hrec. unfold eval_version_arg. cbv zeta. destruct (_ || _)%bool; [apply eval_string_arg_answers|answers_tac]. Qed.

#[local] Hint Resolve eval_string_arg_answers eval_boundary_arg_answers eval_version_arg_answers eval_exact_path_arg_answers
  eval_exact_path_args_answers directory_above_answers path_above_answers : answers.

Lemma answers_str_result {L} (m : run L str) : answers true1 m -> answers value_ok (str_result <$> m).
Proof. by destruct m. Qed.
#[local] Hint Resolve answers_str_result : answers.

Lemma eval_member_answers v m : value_ok v -> answers value_ok (eval_member rec v m).
Proof using Hrec.
  intros Hv. unfold eval_member. destruct (_ && _)%bool; [destruct v; answers_tac|].
  destruct v; try done; [unfold eval_string_member; cbv zeta; answers_tac|by apply eval_version_member_answers|unfold eval_array_member; answers_tac].
Qed.

Lemma eval_index_answers v i : answers (L := Issue) value_ok (eval_index v i).
Proof. unfold eval_index. answers_tac. Qed.

Lemma eval_msbuild_static_answers n a fs : answers value_ok (eval_msbuild_static p rec n a fs).
Proof using Hrec. unfold eval_msbuild_static, get_path_of_file_above_args, tfm_and_parts, one_arg, two_args. cbv zeta. answers_tac. Qed.

Lemma eval_static_answers t m fs : answers value_ok (eval_static p rec t m fs).
Proof using Hrec.
  unfold eval_static. apply (answers_bind true1); [answers_tac|]. intros a _. apply (answers_bind true1); [answers_tac|]. intros ty _.
  cbv zeta. destruct (str_eqb ty (#"MSBuild")); [apply eval_msbuild_static_answers|]. unfold one_arg.
  do 2 (destruct (_ && _)%bool; [answers_tac|]). destruct (_ && _)%bool; [|answers_tac].
  apply (answers_bind true1); [answers_tac|]. intros x _. apply (answers_bind true1); [answers_tac|]. intros s _.
  apply answers_fmap, answers_ok_or_decline. intros v Hv. by apply parse_version_length in Hv.
Qed.

Lemma eval_answers e fs : answers value_ok (eval p rec e fs).
Proof using Hrec.
  unfold eval. apply (answers_bind value_ok).
  - destruct (root e); cbn [eval_root]; [answers_tac|apply eval_static_answers].
  - intros v Hv. revert v Hv. induction (links e) as [|l ls IH]; intros v Hv; [done|]. cbn [eval_links].
    apply (answers_bind value_ok); [|auto]. destruct l; [by apply eval_member_answers|apply eval_index_answers].
Qed.
End answers.

Lemma eval_interior_answers `{Host} p n i fs : length i < n -> answers value_ok (eval_interior p n i fs).
Proof.
  revert i fs. induction n as [|n IH]; intros i fs Hn; [lia|]. cbn [eval_interior].
  destruct (parse i) as [e|] eqn:Ep; [|done]. cbn [ok_or_decline mbind run_bind].
  set (rec j := if Nat.ltb (length j) (length i) then eval_interior p n j false else Declined).
  rewrite (eval_agree p p _ rec) with (s := i); [|done|by apply parse_within| |done].
  - assert (Hrec : forall j, answers value_ok (rec j)).
    { intros j. unfold rec. destruct (Nat.ltb_spec (length j) (length i)); [apply IH; lia|done]. }
    pose proof (eval_answers p rec Hrec e fs) as H'. by destruct (eval p rec e fs).
  - intros j Hj%inside_length. split; [|done]. unfold rec. by rewrite (proj2 (Nat.ltb_lt _ _)).
Qed.

Lemma evaluate_answers `{Host} i p fs : answers true1 (evaluate i p fs).
Proof. unfold evaluate. apply evaluated_answers, eval_interior_answers. lia. Qed.

Lemma substitute_impl_done `{Host} input p fs : exists v l, substitute_impl input p fs = Done v l.
Proof. unfold substitute_impl, substitute_by. apply substitute_loop_answers; [|lia]. intros i. apply evaluate_answers. Qed.

(** ** Allowing the file system only adds answers *)

Section fs.
Context `{Host} (p : PropertyMap) (rec : str -> run Issue Value).

Lemma eval_msbuild_static_fs n a : eval_msbuild_static p rec n a false = eval_msbuild_static p rec n a true
  \/ eval_msbuild_static p rec n a false = Declined.
Proof.
  unfold eval_msbuild_static. cbv zeta. do 7 (destruct (eq_ignore_ascii_case n _); [by left|]).
  destruct (version_compare_op n); [by left|]. do 2 (destruct (eq_ignore_ascii_case n _); [by left|]).
  do 2 (destruct (eq_ignore_ascii_case n _); [by right|]). by left.
Qed.

Lemma eval_static_fs t m : eval_static p rec t m false = eval_static p rec t m true \/ eval_static p rec t m false = Declined.
Proof.
  unfold eval_static. destruct (args m) as [a|]; [|by left]. cbn [ok_or_decline mbind run_bind].
  destruct (List.find _ _) as [ty|]; [|by left]. cbn [ok_or_decline mbind run_bind]. cbv zeta.
  destruct (str_eqb ty (#"MSBuild")); [|by left]. by destruct (eval_msbuild_static_fs (name m) a) as [-> | ->]; [left|right].
Qed.

Lemma eval_fs e v l : eval p rec e false = Done v l -> eval p rec e true = Done v l.
Proof.
  unfold eval. destruct (root e) as [n|t m]; [done|]. cbn [eval_root].
  by destruct (eval_static_fs t m) as [-> | ->].
Qed.
End fs.

Lemma evaluate_fs `{Host} i p v l : evaluate i p false = Done v l -> evaluate i p true = Done v l.
Proof.
  unfold evaluate, evaluated. cbn [eval_interior]. destruct (parse i) as [e|]; [|done]. cbn [ok_or_decline mbind run_bind].
  set (rec := fun j => eval_interior p (length i) j false).
  destruct (eval p rec e false) as [x lx| |] eqn:E; [|done..]. by rewrite (eval_fs p rec e x lx E).
Qed.

Definition is_unsupported (i : Issue) : Prop := match i with Unsupported _ => True | Undefined _ => False end.

Lemma run_bind_done {L A B} (m : run L A) (k : A -> run L B) b l : m ≫= k = Done b l ->
  exists a l1 l2, m = Done a l1 /\ k a = Done b l2 /\ l = l1 ++ l2.
Proof.
  destruct m as [a l1| |]; [|done..]. cbn. destruct (k a) as [b' l2| |] eqn:E; [|done..]. intros [= <- <-]. by exists a, l1, l2.
Qed.

Lemma substitute_loop_mono p ev1 ev2 fuel out rest v l : (forall i x lx, ev1 i = Done x lx -> ev2 i = Done x lx) ->
  substitute_loop p ev1 fuel out rest = Done v l -> Forall (fun i => ~ is_unsupported i) l ->
  substitute_loop p ev2 fuel out rest = Done v l.
Proof.
  intros Hev. revert out rest v l. induction fuel as [|fuel IH]; intros out rest v l; [done|]. cbn [substitute_loop].
  destruct (find_str OPEN rest) as [idx|]; [|done]. cbv zeta. destruct (_ && _)%bool.
  { destruct (get p _); [by apply IH|]. intros ([] & l1 & l2 & E1 & E2 & ->)%run_bind_done [_ Hl]%Forall_app. injection E1 as <-.
    cbn. by rewrite (IH _ _ _ _ E2 Hl). }
  destruct (find_close _) as [close|]; [|done]. destruct (ev1 _) as [x lx| |] eqn:Ee; [|intros E Hl|done].
  - rewrite (Hev _ _ _ Ee). intros ([] & l1 & l2 & E1 & E2 & ->)%run_bind_done [_ Hl]%Forall_app. injection E1 as <-.
    cbn. by rewrite (IH _ _ _ _ E2 Hl).
  - apply run_bind_done in E as ([] & l1 & l2 & E1 & _ & ->). injection E1 as <-. inversion Hl as [|? ? Hu]. by destruct Hu.
Qed.

Lemma substitute_fs `{Host} input p v l : substitute input p = Done v l -> Forall (fun i => ~ is_unsupported i) l ->
  substitute_with_fs input p = Done v l.
Proof. apply substitute_loop_mono. intros i x lx. apply evaluate_fs. Qed.

(** ** Plain references *)

(** A text with references: the text before each name, and the text at the end. *)
Definition template (ts : list (str * str)) (last : str) : str :=
  concat (map (fun '(t, n) => t ++ OPEN ++ n ++ [RPAREN]) ts) ++ last.
Definition filled (p : PropertyMap) (ts : list (str * str)) (last : str) : str :=
  concat (map (fun '(t, n) => t ++ match get p n with Some v => as_escaped v | None => [] end) ts) ++ last.
Definition undefined_in (p : PropertyMap) (ts : list (str * str)) : list Issue :=
  concat (map (fun '(_, n) => match get p n with Some _ => [] | None => [Undefined n] end) ts).

Definition plain_text (t : str) : Prop := contains_str OPEN t = false.
Definition plain_name (n : str) : Prop := n <> [] /\ forallb is_name_byte n = true.

Lemma find_open_first t s : plain_text t -> find_str OPEN (t ++ OPEN ++ s) = Some (length t).
Proof.
  unfold plain_text, contains_str. induction t as [|c t IH]; [done|]. cbn [find_str app].
  destruct (strip_prefix OPEN (c :: t)) eqn:E; [done|]. destruct (find_str OPEN t); [done|]. rewrite IH by done.
  assert (E' : strip_prefix OPEN (c :: t ++ OPEN ++ s) = None); [|by rewrite E'].
  change OPEN with [DOLLAR; LPAREN] in *. cbn [strip_prefix app] in *. destruct (N.eqb DOLLAR c); [|done].
  destruct t as [|d t]; [done|]. cbn [app] in *. by destruct (N.eqb LPAREN d).
Qed.

Lemma substitute_loop_plain p ev fuel out ts last : Forall (fun '(t, n) => plain_text t /\ plain_name n) ts -> plain_text last ->
  length ts < fuel ->
  substitute_loop p ev fuel (from_xml out) (template ts last) = Done (from_xml (out ++ filled p ts last)) (undefined_in p ts).
Proof.
  intros Hts Hlast. revert fuel out. induction Hts as [|[t n] ts [Ht [Hn Hb]] _ IH]; intros [|fuel] out Hf; [cbn in Hf; lia| |cbn in Hf; lia|].
  - cbn [substitute_loop template filled map concat app]. unfold plain_text, contains_str in Hlast. by destruct (find_str OPEN last).
  - assert (E : template ((t, n) :: ts) last = t ++ OPEN ++ n ++ RPAREN :: template ts last).
    { unfold template. cbn. by rewrite <- !app_assoc. }
    rewrite E. cbn [substitute_loop]. rewrite find_open_first by done. cbv zeta. rewrite drop_pre, take_app_length.
    change (drop 2 (OPEN ++ ?x)) with x.
    assert (Er : name_run (n ++ RPAREN :: template ts last) = n) by (unfold name_run; rewrite take_while_stop by done; by apply name_run_names).
    rewrite Er, char_is_spec, drop_app_length, take_app_length. rewrite (proj2 (Nat.ltb_lt 0 (length n))) by (destruct n; [done|cbn; lia]).
    cbn [andb starts_with_char]. rewrite N.eqb_refl. replace (drop (length n + 1) (n ++ RPAREN :: template ts last)) with (template ts last)
      by (by rewrite drop_pre).
    specialize (IH fuel). unfold push_xml, push, from_xml in *. cbn [as_escaped] in *. unfold filled, undefined_in in *. cbn [map concat].
    destruct (get p n) as [v|].
    + rewrite IH by (cbn in Hf; lia). by rewrite <- !app_assoc.
    + cbn [tell mbind run_bind]. rewrite IH by (cbn in Hf; lia). by rewrite app_nil_r, <- !app_assoc.
Qed.

Lemma template_length ts last : length ts <= length (template ts last).
Proof. unfold template. rewrite length_app. induction ts as [|[t n] ts IH]; cbn; [lia|]. rewrite !length_app. cbn. lia. Qed.

(** ** The theorems *)

(** Every text has a substitution: whatever the text, the table and the
    machine, the expansion of the property expressions comes to an end without a
    panic. *)
Theorem substitute_answers `{Host} input p fs : exists v issues, substitute_impl input p fs = Done v issues.
Proof. apply substitute_impl_done. Qed.

(** C20: What an expansion reads.  Two tables that agree on the names that
    [property_references] reports for a text, and on the two reserved names that
    functions read without naming them ([implicit_names]: [GetPathOfFileAbove] with
    one argument reads [MSBuildThisFileDirectory], [AreFeaturesEnabled] reads
    [MSBuildDisableFeaturesFromVersion]), give that text the same expansion and the
    same issues. *)
Theorem substitute_reads_references `{Host} p1 p2 raw fs :
  (forall n, n ∈ property_references raw ++ implicit_names -> get p1 n = get p2 n) ->
  substitute_impl raw p1 fs = substitute_impl raw p2 fs.
Proof.
  intros Hn. apply substitute_impl_reads; [intros n Hi; apply Hn, elem_of_app; by right|].
  intros i Hi Hne. apply Hn, elem_of_app. left. rewrite <- head_name_run by done.
  apply property_references_complete; [done|]. by rewrite head_name_run.
Qed.

#[local] Instance no_files : Host := {| os := #"linux"; is_file := fun _ => false |}.

Lemma substitute_reads_references_witness :
  let p1 := insert_xml PropertyMap_new (#"V") (#"1.2-beta") in
  let p2 := insert_xml p1 (#"Other") (#"x") in
  let raw := #"$([System.Version]::Parse('$(V.Split('-')[0])').Minor)" in
  substitute_impl raw p1 false = substitute_impl raw p2 false /\ substitute_impl raw p1 false = Done (from_xml (#"2")) [].
Proof.
  intros p1 p2 raw. split; [|by vm_compute]. apply substitute_reads_references.
  apply Forall_forall. repeat constructor.
Defined.

(** Allowing the file system only adds answers: a text that expands without
    an unsupported expression expands to the same text, with the same issues,
    when the functions that look for files are allowed. *)
Theorem substitute_fs_refines `{Host} input p v issues : substitute input p = Done v issues ->
  Forall (fun i => ~ is_unsupported i) issues -> substitute_with_fs input p = Done v issues.
Proof. apply substitute_fs. Qed.

Lemma substitute_fs_refines_witness :
  substitute_with_fs (#"$([MSBuild]::EnsureTrailingSlash('$(D)'))a$(None)") (insert_xml PropertyMap_new (#"D") (#"/x"))
  = Done (from_xml (#"/x/a")) [Undefined (#"None")].
Proof. apply substitute_fs_refines; [by vm_compute|]. repeat constructor. by intros []. Defined.

(** In a text with plain references, each is replaced by the stored value of
    its property, with escapes kept, or by nothing if it has none, and the names
    of those are reported in order. *)
Theorem substitute_plain `{Host} p ts last fs : Forall (fun '(t, n) => plain_text t /\ plain_name n) ts -> plain_text last ->
  substitute_impl (template ts last) p fs = Done (from_xml (filled p ts last)) (undefined_in p ts).
Proof.
  intros Hts Hlast. unfold substitute_impl, substitute_by. rewrite (substitute_loop_plain p _ _ [] ts last); [done|done|done|].
  pose proof (template_length ts last). lia.
Qed.

Lemma substitute_plain_witness :
  substitute_impl (#"a$(x)$(Y)%20") (insert_xml PropertyMap_new (#"X") (#"100%")) true = Done (from_xml (#"a100%%20")) [Undefined (#"Y")].
Proof.
  apply (substitute_plain (insert_xml PropertyMap_new (#"X") (#"100%")) [(#"a", #"x"); ([], #"Y")] (#"%20") true); [|done].
  repeat constructor; done.
Defined.

(** The reserved names are needed: nothing is reported, and the expansion depends
    on the table. *)
Example implicit_names_needed :
  let host := {| os := #"linux"; is_file := fun s => str_eqb s (#"/a/x") |} in
  let raw := #"$([MSBuild]::GetPathOfFileAbove('x'))" in
  property_references raw = []
  /\ substitute_impl raw (insert_xml PropertyMap_new (#"MSBuildThisFileDirectory") (#"/a/")) true <> substitute_impl raw PropertyMap_new true.
Proof. split; [by vm_compute|]. by vm_compute. Qed.
