(* ===== verification/PropPathThm.v ===== *)
(** * Normal paths, the upward walk, and the property table

    About [Properties]: a normalised path is absolute with plain segments and is
    its own normal form; the search for a file above a directory finds the
    nearest ancestor that has it; the table ignores the case of names and keeps
    the spelling of the first write. *)

From stdpp Require Import gmap.
From S2P Require Import Prelude Order Escaping StrBytes Properties.

(** ** Normal paths *)

Definition plain_segment (x : str) : Prop :=
  x <> [] /\ x <> #"." /\ x <> #".." /\ Forall (fun c => c <> SLASH) x /\ Forall (fun c => c <> BACKSLASH) x.

(** The absolute path of some segments. *)
Definition abs_path (segs : list str) (trailing : bool) : str :=
  SLASH :: join [SLASH] segs ++ (if trailing then [SLASH] else []).

Definition normal (p : str) : Prop :=
  exists segs trailing, p = abs_path segs trailing /\ Forall plain_segment segs /\ (trailing = true -> segs <> []).

Definition slashed (s : str) : Prop := Forall (fun c => c <> BACKSLASH) s.

Lemma replace_slashed s : slashed (replace_char BACKSLASH SLASH s).
Proof. induction s as [|c s IH]; cbn; [constructor|]. constructor; [|done]. destruct (N.eqb_spec c BACKSLASH) as [->|?]; done. Qed.

Lemma replace_id s : slashed s -> replace_char BACKSLASH SLASH s = s.
Proof. induction 1 as [|c s Hc _ IH]; [done|]. cbn. rewrite (proj2 (N.eqb_neq c BACKSLASH)) by done. unfold replace_char in IH. by rewrite IH. Qed.

Lemma combine_slashed parts acc r : slashed acc -> combine_from acc parts = Some r -> slashed r.
Proof.
  revert acc. induction parts as [|p ps IH]; intros acc Ha; cbn [combine_from]; [by intros [= <-]|].
  destruct (combine_step acc p) as [q|] eqn:E; [|done]. cbn [mbind option_bind]. apply IH. unfold combine_step in E. cbv zeta in E.
  pose proof (replace_slashed p) as Hp. set (p' := replace_char _ _ p) in *. destruct (rejects_windows_drive_path p'); [done|].
  destruct (is_empty p'); [by injection E as <-|]. destruct (_ || _)%bool; injection E as <-; [done|]. apply Forall_app. split; [|done].
  destruct (ends_with_char _ _); [done|]. apply Forall_app. split; [done|]. by repeat constructor.
Qed.

Lemma resolve_segments_plain segs acc : Forall (Forall (fun c => c <> SLASH)) segs -> Forall slashed segs -> Forall plain_segment acc ->
  Forall plain_segment (fold_left resolve_segment segs acc).
Proof.
  intros Hs. revert acc. induction Hs as [|x segs Hx _ IH]; intros acc Hl Ha; [done|]. inversion Hl; subst. cbn. apply IH; [done|].
  unfold resolve_segment. destruct (_ || _)%bool eqn:E; [done|]. apply orb_false_elim in E as [E1 E2].
  destruct (str_eqb x (#"..")) eqn:E3; [by destruct Ha|]. constructor; [|done].
  split_and!; [by intros ->|by intros ->|by intros ->|done|done].
Qed.

Lemma resolve_plain segs acc : Forall plain_segment segs -> fold_left resolve_segment segs acc = rev segs ++ acc.
Proof.
  intros Hs. revert acc. induction Hs as [|x segs (H1 & H2 & H3 & _) _ IH]; intros acc; [done|]. cbn. rewrite IH, <- app_assoc. cbn. do 2 f_equal.
  unfold resolve_segment. destruct (is_empty x) eqn:E1; [by destruct x|].
  destruct (str_eqb x (#".")) eqn:E2; [by apply str_eqb_eq in E2|].
  by destruct (str_eqb x (#"..")) eqn:E3; [apply str_eqb_eq in E3|].
Qed.

Lemma slashed_split s : slashed s -> Forall slashed (split SLASH s).
Proof.
  induction 1 as [|c s Hc _ IH]; [repeat constructor|]. cbn [split]. destruct (N.eqb c SLASH); [by constructor; [constructor|]|].
  destruct (split SLASH s) as [|p ps]; [by repeat constructor|]. inversion IH; subst. constructor; [by constructor|done].
Qed.

Lemma resolve_nonempty segs acc : Forall (fun x => x <> []) acc -> Forall (fun x => x <> []) (fold_left resolve_segment segs acc).
Proof.
  revert acc. induction segs as [|x segs IH]; intros acc Ha; [done|]. cbn. apply IH. unfold resolve_segment.
  destruct (is_empty x) eqn:E; [done|]. destruct (_ || _)%bool; [done|]. destruct (str_eqb x (#"..")); [by destruct Ha|].
  constructor; [by intros ->|done].
Qed.

(** The branch of the root on a Unix host. *)
Lemma normalize_path_eq parts : normalize_path parts =
  combined ← combine_path parts;
  match combined with
  | [] => None
  | c :: rest =>
      if N.eqb c SLASH then
        let segs := resolve_segments (split SLASH rest) in
        Some (abs_path segs (ends_with_char SLASH rest && negb (is_empty segs)))
      else None
  end.
Proof.
  unfold normalize_path. destruct (combine_path parts) as [combined|]; [|done]. cbn [mbind option_bind].
  destruct combined as [|c rest]; [done|]. unfold is_rooted. cbn [starts_with_char]. destruct (N.eqb_spec c SLASH) as [->|?]; [|done].
  cbn [negb split_once]. rewrite N.eqb_refl. cbn [is_empty tail length]. cbv zeta. f_equal. unfold abs_path.
  set (segs := resolve_segments _). cbn [app].
  assert (Ee : ends_with_char SLASH (SLASH :: rest) = (is_empty rest || ends_with_char SLASH rest)%bool).
  { unfold ends_with_char. cbn [rev]. destruct rest as [|x r]; [done|]. cbn [is_empty orb]. destruct (rev (x :: r)) eqn:Er; [|done].
    apply (f_equal length) in Er. rewrite length_rev in Er. done. }
  rewrite Ee. destruct rest as [|x r]; [done|]. cbn [is_empty orb length].
  destruct (ends_with_char SLASH (x :: r)); cbn [andb]; [|by rewrite app_nil_r].
  change (Nat.ltb 1 (S (S (length r)))) with true. cbn [andb].
  assert (Hne : Forall (fun x => x <> []) segs) by (apply Forall_rev, resolve_nonempty; constructor).
  destruct segs as [|y ys]; [done|]. cbn [is_empty negb]. inversion Hne; subst.
  assert (Hlen : 0 < length (join [SLASH] (y :: ys))) by (destruct y as [|z y]; [done|]; destruct ys; cbn; lia).
  rewrite (proj2 (Nat.ltb_lt _ _)) by lia. done.
Qed.

Lemma normalize_path_slashed parts q : normalize_path parts = Some q -> normal q.
Proof.
  rewrite normalize_path_eq. destruct (combine_path parts) as [[|c rest]|] eqn:E; [done| |done]. cbn [mbind option_bind].
  destruct (N.eqb_spec c SLASH) as [->|]; [|done]. cbv zeta. intros [= <-].
  assert (Hs : slashed (SLASH :: rest)) by (apply (combine_slashed parts []); [constructor|done]). inversion Hs; subst.
  eexists _, _. split; [done|]. split; [|intros [_ Hn]%andb_prop E'; by rewrite E' in Hn].
  apply Forall_rev, resolve_segments_plain; [apply split_pieces_no_sep|by apply slashed_split|constructor].
Qed.

Lemma slashed_join segs : Forall plain_segment segs -> slashed (join [SLASH] segs).
Proof.
  induction 1 as [|x segs (_ & _ & _ & _ & Hx) _ IH]; [constructor|]. destruct segs as [|y segs]; [done|]. cbn [join].
  repeat (apply Forall_app; split); [done|by repeat constructor|done].
Qed.

Lemma split_path segs trailing : Forall plain_segment segs -> (trailing = true -> segs <> []) ->
  resolve_segments (split SLASH (join [SLASH] segs ++ (if trailing then [SLASH] else []))) = segs.
Proof.
  intros Hs Ht. unfold resolve_segments.
  assert (Hn : Forall (Forall (fun c => c <> SLASH)) segs) by (eapply Forall_impl; [exact Hs|]; by intros x (_ & _ & _ & ? & _)).
  destruct trailing.
  - specialize (Ht eq_refl). assert (E : join [SLASH] segs ++ [SLASH] = join [SLASH] (segs ++ [[]])).
    { clear Hs Hn. induction segs as [|x [|y segs] IH]; [done..|]. cbn [app] in *. cbn [join]. rewrite <- !app_assoc. do 2 f_equal. by apply IH. }
    rewrite E, split_join; [|by destruct segs|apply Forall_app; split; [done|by repeat constructor]].
    rewrite fold_left_app, (resolve_plain segs) by done. cbn. by rewrite app_nil_r, rev_involutive.
  - rewrite app_nil_r. destruct segs as [|x segs]; [done|]. rewrite split_join by done. rewrite resolve_plain by done. by rewrite app_nil_r, rev_involutive.
Qed.

Lemma ends_with_app s c : ends_with_char c (s ++ [c]) = true.
Proof. unfold ends_with_char. rewrite rev_app_distr. cbn. apply N.eqb_refl. Qed.

Lemma ends_with_join segs : Forall plain_segment segs -> ends_with_char SLASH (join [SLASH] segs) = false.
Proof.
  induction 1 as [|x segs (Hne & _ & _ & Hx & _) Hs IH]; [done|]. destruct segs as [|y segs].
  - cbn [join]. unfold ends_with_char. destruct (rev x) as [|c r] eqn:E; [done|]. cbn. apply N.eqb_neq.
    rewrite Forall_forall in Hx. apply Hx. apply list_elem_of_In, in_rev. rewrite E. by left.
  - change (join [SLASH] (x :: y :: segs)) with (x ++ [SLASH] ++ join [SLASH] (y :: segs)). revert IH. unfold ends_with_char.
    rewrite !rev_app_distr. destruct (rev (join [SLASH] (y :: segs))) as [|c r] eqn:E; [|done]. intros _.
    apply (f_equal length) in E. rewrite length_rev in E. inversion Hs as [|? ? (Hy & _)]; subst. destruct y; [done|]. by destruct segs.
Qed.

Lemma normal_fixed q : normal q -> normalize_path [q] = Some q.
Proof.
  intros (segs & trailing & -> & Hs & Ht). rewrite normalize_path_eq.
  assert (Hq : slashed (abs_path segs trailing)).
  { constructor; [done|]. apply Forall_app. split; [by apply slashed_join|]. destruct trailing; by repeat constructor. }
  assert (E : combine_path [abs_path segs trailing] = Some (abs_path segs trailing)).
  { unfold combine_path. cbn [combine_from]. unfold combine_step. rewrite (replace_id _ Hq). cbv zeta.
    assert (Hd : rejects_windows_drive_path (abs_path segs trailing) = false).
    { unfold rejects_windows_drive_path, has_windows_drive_prefix, abs_path. by destruct (join [SLASH] segs ++ _). }
    by rewrite Hd. }
  rewrite E. cbn [mbind option_bind abs_path]. rewrite N.eqb_refl. cbv zeta. rewrite split_path by done. f_equal. unfold abs_path. do 2 f_equal.
  destruct trailing; [rewrite ends_with_app; specialize (Ht eq_refl); by destruct segs|]. by rewrite app_nil_r, ends_with_join.
Qed.

(** ** The nearest directory that has a file *)

Lemma drop_back_plain b r : Forall plain_segment r -> drop_back b r = r.
Proof.
  intros Hr. destruct Hr as [|x r (H1 & H2 & _) _]; [done|]. assert (E1 : is_empty x = false) by (by destruct x).
  assert (E2 : str_eqb x (#".") = false) by (apply not_true_iff_false; by rewrite str_eqb_eq).
  destruct r; cbn [drop_back]; by rewrite E1, E2, ?andb_false_r.
Qed.

Lemma back_path segs trailing : Forall plain_segment segs -> (trailing = true -> segs <> []) -> back (abs_path segs trailing) = rev segs.
Proof.
  intros Hs Ht. unfold back, segments, abs_path. cbn [is_absolute starts_with_char]. unfold is_absolute. cbn [starts_with_char].
  rewrite N.eqb_refl. cbn [tail]. assert (Hr : Forall plain_segment (rev segs)) by (by apply Forall_rev).
  assert (Hn : Forall (Forall (fun c => c <> SLASH)) segs) by (eapply Forall_impl; [exact Hs|]; by intros x (_ & _ & _ & ? & _)).
  destruct trailing.
  - specialize (Ht eq_refl). assert (E : split SLASH (join [SLASH] segs ++ [SLASH]) = segs ++ [[]]).
    { clear Hs Hr. induction Hn as [|x segs Hx _ IH]; [done|]. destruct segs as [|y segs]; [cbn [join]; by rewrite split_app_sep|].
      change (join [SLASH] (x :: y :: segs)) with (x ++ SLASH :: join [SLASH] (y :: segs)). rewrite <- app_assoc, <- app_comm_cons.
      rewrite split_app_sep, IH by done. done. }
    rewrite E, rev_app_distr. cbn [rev app]. destruct (rev segs) as [|x r] eqn:Er; [by destruct segs; [|apply (f_equal length) in Er; rewrite length_rev in Er]|].
    change (drop_back true ([] :: x :: r)) with (drop_back true (x :: r)). by apply drop_back_plain.
  - rewrite app_nil_r. destruct segs as [|x segs]; [done|]. rewrite split_join by done. by apply drop_back_plain.
Qed.

Lemma parent_path segs x trailing : Forall plain_segment (segs ++ [x]) -> Path_parent (abs_path (segs ++ [x]) trailing) = Some (abs_path segs false).
Proof.
  intros Hs. unfold Path_parent. rewrite back_path by (done || by destruct segs). rewrite rev_app_distr. cbn [rev app].
  apply Forall_app in Hs as [Hs _]. rewrite drop_back_plain by (by apply Forall_rev). rewrite rev_involutive. unfold abs_path at 1.
  unfold is_absolute, abs_path. cbn [starts_with_char]. by rewrite N.eqb_refl, app_nil_r.
Qed.

Lemma parent_root : Path_parent (abs_path [] false) = None.
Proof. done. Qed.

(** A directory and the ones above it, the nearest first. *)
Definition ancestors (segs : list str) (trailing : bool) : list str :=
  abs_path segs trailing :: map (fun k => abs_path (take k segs) false) (rev (seq 0 (length segs))).

Lemma ancestors_snoc segs x trailing : ancestors (segs ++ [x]) trailing = abs_path (segs ++ [x]) trailing :: ancestors segs false.
Proof.
  unfold ancestors. f_equal. rewrite length_app, Nat.add_1_r, seq_S, rev_app_distr. cbn [rev app map]. f_equal.
  - f_equal. by rewrite Nat.add_0_l, take_app_length.
  - apply map_ext_in. intros k Hk%in_rev%in_seq. f_equal. by rewrite take_app_le by lia.
Qed.

Lemma file_above_ancestors `{Host} fuel segs trailing file : Forall plain_segment segs -> (trailing = true -> segs <> []) -> length segs < fuel ->
  file_above fuel (abs_path segs trailing) file
  = Some (default [] (List.find (fun d => is_file (Path_join d file)) (ancestors segs trailing))).
Proof.
  revert segs trailing. induction fuel as [|fuel IH]; intros segs trailing Hs Ht Hf; [lia|]. cbn [file_above].
  destruct segs as [|x segs _] using rev_ind.
  - destruct trailing; [by destruct (Ht eq_refl)|]. rewrite parent_root. cbn [ancestors length seq rev map List.find].
    by destruct (is_file _).
  - rewrite ancestors_snoc. cbn [List.find]. destruct (is_file _); [done|]. rewrite parent_path by done.
    apply Forall_app in Hs as [Hs _]. rewrite length_app in Hf. cbn in Hf. apply IH; [done|done|lia].
Qed.

(** ** The table *)

Lemma get_insert_escaped m k v k' : get (insert_escaped m k v) k' = if eq_ignore_ascii_case k k' then Some v else get m k'.
Proof.
  unfold get, insert_escaped. cbv zeta. destruct (eq_ignore_ascii_case k k') eqn:E.
  - apply eq_ignore_ascii_case_spec in E. rewrite <- E. by destruct (m !! lower k); rewrite lookup_insert_eq.
  - assert (lower k <> lower k') by (intros E'%eq_ignore_ascii_case_spec; by rewrite E' in E).
    by destruct (m !! lower k); rewrite lookup_insert_ne.
Qed.

(** The property table ignores the case of names: a write is read back under
    any spelling of its name, as is the value of every other name; a removed name
    has no value under any spelling; and a later write keeps the spelling of the
    first one. *)
Theorem property_table m k v w k' :
  get (insert_escaped m k v) k' = (if eq_ignore_ascii_case k k' then Some v else get m k')
  /\ get (remove m k) k' = (if eq_ignore_ascii_case k k' then None else get m k')
  /\ (eq_ignore_ascii_case k k' = true ->
      canonical <$> insert_escaped (insert_escaped m k v) k' w !! lower k
      = Some match m !! lower k with Some e => canonical e | None => k end).
Proof.
  split_and!; [apply get_insert_escaped| |].
  - unfold get, remove. destruct (eq_ignore_ascii_case k k') eqn:E.
    + apply eq_ignore_ascii_case_spec in E. by rewrite <- E, lookup_delete_eq.
    + assert (lower k <> lower k') by (intros E'%eq_ignore_ascii_case_spec; by rewrite E' in E). by rewrite lookup_delete_ne.
  - intros E%eq_ignore_ascii_case_spec. unfold insert_escaped. cbv zeta. rewrite <- E.
    by destruct (m !! lower k); rewrite lookup_insert_eq; cbn; rewrite lookup_insert_eq.
Qed.

(** A normalised path is absolute, its segments are plain (none is empty, a
    dot, a double dot, or holds a separator of either kind), and normalising it
    again changes nothing. *)
Theorem normalize_path_normal parts q : normalize_path parts = Some q -> normal q /\ normalize_path [q] = Some q.
Proof. intros H%normalize_path_slashed. split; [done|by apply normal_fixed]. Qed.

Lemma normalize_path_normal_witness : let q := #"/a/c/" in normal q /\ normalize_path [q] = Some q.
Proof. apply (normalize_path_normal [ #"/a/b/x"; #"..\.././c//" ]). by vm_compute. Defined.

(** The upward search finds the nearest directory.  Starting at any absolute
    directory, the search for a plain relative file returns the first of the
    directory and its ancestors, nearest first, in which the file exists, and the
    empty text when there is none. *)
Theorem directory_above_nearest `{Host} {L} start file segs trailing :
  normalize_path [start] = Some (abs_path segs trailing) -> Forall plain_segment segs -> (trailing = true -> segs <> []) ->
  let f := replace_char BACKSLASH SLASH file in
  f <> [] -> all_normal f = true -> has_windows_drive_prefix f = false ->
  get_directory_name_of_file_above (L := L) start file
  = Done (default [] (List.find (fun d => is_file (Path_join d f)) (ancestors segs trailing))) [].
Proof.
  intros Hstart Hs Ht f Hne Hall Hdrive. unfold get_directory_name_of_file_above. rewrite Hstart. cbn [ok_or_decline mbind run_bind]. cbv zeta.
  fold f. unfold rejects_windows_drive_path. rewrite Hdrive. cbn [negb require].
  change (is_absolute (abs_path segs trailing)) with true. rewrite Hall. destruct f as [|c f']; [done|]. cbn [is_empty negb andb require].
  rewrite file_above_ancestors; [done|done|done|]. unfold abs_path. cbn [length]. rewrite length_app.
  assert (length segs <= S (length (join [SLASH] segs))); [|lia].
  clear Hstart Ht. induction Hs as [|x [|y segs] (Hx & _) Hs IH]; [cbn; lia..|].
  change (join [SLASH] (x :: y :: segs)) with (x ++ [SLASH] ++ join [SLASH] (y :: segs)). rewrite !length_app. cbn [length] in *. lia.
Qed.

#[local] Instance two_files : Host := {| os := #"linux"; is_file := fun s => existsb (str_eqb s) [ #"/r/x.props"; #"/r/s/t/u/x.props" ] |}.

Lemma directory_above_nearest_witness :
  get_directory_name_of_file_above (L := Issue) (#"/r/s/t/") (#"x.props") = Done (#"/r") [].
Proof.
  rewrite (directory_above_nearest (#"/r/s/t/") (#"x.props") [ #"r"; #"s"; #"t" ] true); [by vm_compute|by vm_compute| |done|done|done|done].
  repeat constructor; try done; by vm_compute.
Defined.
