(* ===== verification/Condition.v ===== *)
(** * MSBuild conditions: [msbuild/src/condition.rs]

    The tokeniser, the recursive descent parser and the evaluator of [Condition]
    attributes.  [Ok] and [Err(())] of the parser and of the evaluator are [Done]
    and [Declined]; the names of undefined properties are the log.  The
    characters that the tokeniser looks at are ASCII, so positions count scalar
    values; a character outside ASCII is one [Unknown] for each of its bytes.

    Numbers are [f64]: [spec_float] with the rounding of IEEE 754, and the
    conversion of a decimal text is that of the exact quotient. *)

From Stdlib Require Import SpecFloat.
From S2P Require Import Prelude Order Escaping StrBytes Properties PropExpr.

Inductive Outcome := Outcome_True | Outcome_False | Outcome_Unsupported.

Record Eval := {
  outcome : Outcome;
  undefined_properties : list str;
  undefined_outside_empty_comparison : list str }.

Definition unsupported : Eval :=
  {| outcome := Outcome_Unsupported; undefined_properties := []; undefined_outside_empty_comparison := [] |}.

(** ** Tokens *)

Inductive VersionPart := Build | Revision.

Inductive Token :=
| Token_String (raw : str)
| Token_Bare (raw : str)
| Token_SystemVersionPart (arg : str) (part : VersionPart)
| Token_Property (raw : str)
| Token_True
| Token_False
| Token_Exists
| Token_HasTrailingSlash
| Token_MsbuildVersionFunction (inner : str)
| Token_And
| Token_Or
| Token_Eq
| Token_Neq
| Token_Lt
| Token_Lte
| Token_Gt
| Token_Gte
| Token_Bang
| Token_LParen
| Token_RParen
| Token_Unknown.

Inductive CompareOp := CompareOp_Eq | CompareOp_Neq | CompareOp_Lt | CompareOp_Lte | CompareOp_Gt | CompareOp_Gte.

Fixpoint balanced_close (depth : nat) (in_string : bool) (input : str) : option nat :=
  match input with
  | [] => None
  | c :: input =>
      if in_string then S <$> balanced_close depth (negb (N.eqb c QUOTE)) input
      else if N.eqb c QUOTE then S <$> balanced_close depth true input
      else if N.eqb c LPAREN then S <$> balanced_close (depth + 1) false input
      else if N.eqb c RPAREN then
        match depth with O => Some 0 | S depth => S <$> balanced_close depth false input end
      else S <$> balanced_close depth false input
  end.
Definition find_balanced_property_expression_close (input : str) : option nat := balanced_close 0 false input.

(** The affix is ASCII, so that as many characters as it has bytes are taken. *)
Definition strip_prefix_ignore_ascii_case (s prefix : str) : option str :=
  if eq_ignore_ascii_case (take (length prefix) s) prefix then Some (drop (length prefix) s) else None.
Definition strip_suffix_ignore_ascii_case (s suffix : str) : option str :=
  if Nat.ltb (length s) (length suffix) then None
  else
    let n := length s - length suffix in
    if eq_ignore_ascii_case (drop n s) suffix then Some (take n s) else None.

Definition version_functions : list (str * CompareOp) :=
  [(#"[MSBuild]::VersionGreaterThanOrEquals", CompareOp_Gte); (#"[MSBuild]::VersionGreaterThan", CompareOp_Gt);
   (#"[MSBuild]::VersionLessThanOrEquals", CompareOp_Lte); (#"[MSBuild]::VersionLessThan", CompareOp_Lt);
   (#"[MSBuild]::VersionEquals", CompareOp_Eq); (#"[MSBuild]::VersionNotEquals", CompareOp_Neq)].

Fixpoint find_version_function (fs : list (str * CompareOp)) (inner : str) : option (CompareOp * str) :=
  match fs with
  | [] => None
  | (n, op) :: fs =>
      match strip_prefix_ignore_ascii_case inner n with
      | Some rest => Some (op, rest)
      | None => find_version_function fs inner
      end
  end.

Definition parse_msbuild_version_function_call (inner : str) : option (CompareOp * str) :=
  '(op, rest) ← find_version_function version_functions inner;
  let rest := trim_start_matches is_ascii_whitespace rest in
  a ← strip_prefix [LPAREN] rest ≫= strip_suffix [RPAREN];
  Some (op, a).

Definition parse_system_version_part_token (inner : str) : option (str * VersionPart) :=
  rest ← strip_prefix_ignore_ascii_case inner (#"[System.Version]::Parse");
  rest ← strip_prefix [LPAREN] (trim_start_matches is_ascii_whitespace rest);
  let rest := trim_end_matches is_ascii_whitespace rest in
  '(rest, part) ←
    match strip_suffix_ignore_ascii_case rest (#".Build") with
    | Some rest => Some (rest, Build)
    | None => rest ← strip_suffix_ignore_ascii_case rest (#".Revision"); Some (rest, Revision)
    end;
  arg ← strip_suffix [RPAREN] (trim_end_matches is_ascii_whitespace rest);
  Some (arg, part).

Definition is_ident_start (c : char) : bool := (is_ascii_alphabetic c || N.eqb c (#c"_"))%bool.
Definition is_ident_continue (c : char) : bool := (is_ascii_alphanumeric c || N.eqb c (#c"_"))%bool.

Definition match_keyword (word : str) : Token :=
  let named n := eq_ignore_ascii_case word n in
  if named (#"true") then Token_True
  else if named (#"false") then Token_False
  else if named (#"and") then Token_And
  else if named (#"or") then Token_Or
  else if named (#"exists") then Token_Exists
  else if named (#"hastrailingslash") then Token_HasTrailingSlash
  else Token_Bare word.

(** The token of a [$(..)] with the interior [raw_inner]. *)
Definition property_token (raw_inner : str) : Token :=
  let inner := trim_ascii raw_inner in
  match parse_msbuild_version_function_call inner with
  | Some _ => Token_MsbuildVersionFunction inner
  | None =>
      match parse_system_version_part_token inner with
      | Some (arg, part) => Token_SystemVersionPart arg part
      | None =>
          if (contains_char LPAREN inner || contains_char LBRACKET inner)%bool then Token_Property (OPEN ++ inner ++ [RPAREN])
          else if str_eqb raw_inner inner then Token_Property (OPEN ++ inner ++ [RPAREN])
          else Token_Unknown
      end
  end.

(** The end of the number that starts at [i] with the character [b]. *)
Definition number_end (source : str) (i : nat) (b : char) : nat :=
  if (N.eqb b (#c"0") && match source !! (i + 1) with Some x => N.eqb x (#c"x") || N.eqb x (#c"X") | None => false end
      && Nat.ltb (i + 2) (length source))%bool
  then i + 2 + length (take_while is_ascii_hexdigit (drop (i + 2) source))
  else
    let i := if (N.eqb b (#c"+") || N.eqb b (#c"-"))%bool then i + 1 else i in
    i + length (take_while (fun c => is_ascii_digit c || N.eqb c (#c"."))%bool (drop i source)).

(** One turn of the loop: the tokens it pushes and the next index; [None] for an
    unterminated literal. *)
Definition tokenise_step (source : str) (st : nat * list Token) : (nat * list Token) + option (list Token) :=
  let '(i, tokens) := st in
  match source !! i with
  | None => inr None
  | Some b =>
      let push t n := inl (n, tokens ++ [t]) in
      let next_is c := char_is source (i + 1) c in
      if is_ascii_whitespace b then inl (i + 1, tokens)
      else if N.eqb b LPAREN then push Token_LParen (i + 1)
      else if N.eqb b RPAREN then push Token_RParen (i + 1)
      else if (N.eqb b (#c"=") && next_is (#c"="))%bool then push Token_Eq (i + 2)
      else if (N.eqb b (#c"!") && next_is (#c"="))%bool then push Token_Neq (i + 2)
      else if (N.eqb b (#c"<") && next_is (#c"="))%bool then push Token_Lte (i + 2)
      else if (N.eqb b (#c">") && next_is (#c"="))%bool then push Token_Gte (i + 2)
      else if N.eqb b (#c"<") then push Token_Lt (i + 1)
      else if N.eqb b (#c">") then push Token_Gt (i + 1)
      else if N.eqb b (#c"!") then push Token_Bang (i + 1)
      else if N.eqb b QUOTE then
        let start := i + 1 in
        let j := start + length (take_while (fun c => negb (N.eqb c QUOTE)) (drop start source)) in
        if Nat.eqb j (length source) then inr None
        else push (Token_String (between source start j)) (j + 1)
      else if (N.eqb b DOLLAR && next_is LPAREN)%bool then
        let after := drop (i + 2) source in
        match find_balanced_property_expression_close after with
        | None => push Token_Unknown (i + 1)
        | Some close => push (property_token (take close after)) (i + (2 + close + 1))
        end
      else if (is_ascii_digit b || N.eqb b (#c".") || N.eqb b (#c"+") || N.eqb b (#c"-"))%bool then
        push (Token_Bare (between source i (number_end source i b))) (number_end source i b)
      else if is_ident_start b then
        let j := i + length (take_while is_ident_continue (drop i source)) in
        push (match_keyword (between source i j)) j
      else inl (i + 1, tokens ++ replicate (N.to_nat (len_utf8 b)) Token_Unknown)
  end.

(** [Some None] for an unterminated literal; [None] is the end of the fuel. *)
Definition tokenise (source : str) : option (option (list Token)) :=
  while_st (length source) fst (tokenise_step source) (fun st => Some st.2) (0, []).

(** ** Parser *)

Inductive ScalarExpr :=
| Scalar_String (raw : str)
| Scalar_Bare (raw : str)
| Scalar_SystemVersionPart (arg : str) (part : VersionPart)
| Scalar_Property (raw : str).

Inductive BoolExpr :=
| BTrue
| BFalse
| BNot (e : BoolExpr)
| BAnd (lhs rhs : BoolExpr)
| BOr (lhs rhs : BoolExpr)
| BExists (raw : str)
| BHasTrailingSlash (raw : str)
| BMsbuildVersionFunction (inner : str)
| BCoerceBool (s : ScalarExpr)
| BCompare (op : CompareOp) (lhs rhs : ScalarExpr).

Definition is_scalar_start (t : Token) : bool :=
  match t with
  | Token_String _ | Token_Bare _ | Token_SystemVersionPart _ _ | Token_Property _ | Token_True | Token_False => true
  | _ => false
  end.

Definition scalar_of (t : Token) : option ScalarExpr :=
  match t with
  | Token_String s => Some (Scalar_String s)
  | Token_Bare s => Some (Scalar_Bare s)
  | Token_SystemVersionPart arg part => Some (Scalar_SystemVersionPart arg part)
  | Token_Property raw => Some (Scalar_Property raw)
  | Token_True => Some (Scalar_Bare (#"true"))
  | Token_False => Some (Scalar_Bare (#"false"))
  | _ => None
  end.

Definition compare_op_of (t : Token) : option CompareOp :=
  match t with
  | Token_Eq => Some CompareOp_Eq
  | Token_Neq => Some CompareOp_Neq
  | Token_Lt => Some CompareOp_Lt
  | Token_Lte => Some CompareOp_Lte
  | Token_Gt => Some CompareOp_Gt
  | Token_Gte => Some CompareOp_Gte
  | _ => None
  end.

(** The state of the parser is the tokens from [pos] on. *)
Notation parsed A := (run unit (A * list Token)) (only parsing).

Definition parse_scalar (ts : list Token) : parsed ScalarExpr :=
  match ts with
  | t :: ts => s ← ok_or_decline (scalar_of t); mret (s, ts)
  | [] => Declined
  end.

Definition peek_compare_op (ts : list Token) : option CompareOp := match ts with t :: _ => compare_op_of t | [] => None end.

Definition parse_single_string_argument (ts : list Token) : parsed str :=
  match ts with
  | Token_LParen :: Token_String s :: Token_RParen :: ts => mret (s, ts)
  | Token_LParen :: Token_Property raw :: Token_RParen :: ts => mret (raw, ts)
  | _ => Declined
  end.

Fixpoint parse_or (fuel : nat) (ts : list Token) : parsed BoolExpr :=
  match fuel with
  | O => Stuck
  | S fuel => '(lhs, ts) ← parse_and fuel ts; or_loop fuel lhs ts
  end
with or_loop (fuel : nat) (lhs : BoolExpr) (ts : list Token) : parsed BoolExpr :=
  match fuel with
  | O => Stuck
  | S fuel =>
      match ts with
      | Token_Or :: ts => '(rhs, ts) ← parse_and fuel ts; or_loop fuel (BOr lhs rhs) ts
      | _ => mret (lhs, ts)
      end
  end
with parse_and (fuel : nat) (ts : list Token) : parsed BoolExpr :=
  match fuel with
  | O => Stuck
  | S fuel => '(lhs, ts) ← parse_primary_bool fuel ts; and_loop fuel lhs ts
  end
with and_loop (fuel : nat) (lhs : BoolExpr) (ts : list Token) : parsed BoolExpr :=
  match fuel with
  | O => Stuck
  | S fuel =>
      match ts with
      | Token_And :: ts => '(rhs, ts) ← parse_primary_bool fuel ts; and_loop fuel (BAnd lhs rhs) ts
      | _ => mret (lhs, ts)
      end
  end
with parse_primary_bool (fuel : nat) (ts : list Token) : parsed BoolExpr :=
  match fuel with
  | O => Stuck
  | S fuel =>
      if match ts with t :: _ => is_scalar_start t | [] => false end then
        '(lhs, ts) ← parse_scalar ts;
        match peek_compare_op ts with
        | Some op => '(rhs, ts) ← parse_scalar (tail ts); mret (BCompare op lhs rhs, ts)
        | None => mret (BCoerceBool lhs, ts)
        end
      else parse_bool_factor fuel ts
  end
with parse_bool_factor (fuel : nat) (ts : list Token) : parsed BoolExpr :=
  match fuel with
  | O => Stuck
  | S fuel =>
      match ts with
      | Token_Bang :: ts => '(e, ts) ← parse_bool_factor fuel ts; mret (BNot e, ts)
      | Token_LParen :: ts =>
          '(inner, ts) ← parse_or fuel ts;
          match ts with Token_RParen :: ts => mret (inner, ts) | _ => Declined end
      | Token_True :: ts => mret (BTrue, ts)
      | Token_False :: ts => mret (BFalse, ts)
      | Token_Exists :: ts => '(arg, ts) ← parse_single_string_argument ts; mret (BExists arg, ts)
      | Token_HasTrailingSlash :: ts => '(arg, ts) ← parse_single_string_argument ts; mret (BHasTrailingSlash arg, ts)
      | Token_MsbuildVersionFunction inner :: ts => mret (BMsbuildVersionFunction inner, ts)
      | t :: _ => if is_scalar_start t then '(s, ts) ← parse_scalar ts; mret (BCoerceBool s, ts) else Declined
      | [] => Declined
      end
  end.

(** Every call chain takes a token within five calls. *)
Definition parse_fuel (ts : list Token) : nat := 5 * length ts + 5.

(** ** Numbers, booleans and versions *)

Definition f64 := spec_float.

(** The double nearest to [m / 10^k], ties to even. *)
Definition f64_of_decimal (negative : bool) (m : N) (k : nat) : f64 :=
  match m with
  | N0 => S754_zero negative
  | Npos _ =>
      let '(q, e, l) := SFdiv_core_binary 53 1024 (Z.of_N m) 0 (10 ^ Z.of_nat k) 0 in
      binary_round_aux 53 1024 negative q e l
  end.
Definition f64_of_Z (z : Z) : f64 := binary_normalize 53 1024 z 0 false.
Definition is_finite (x : f64) : bool := match x with S754_zero _ | S754_finite _ _ _ => true | _ => false end.

(** [u32::from_str_radix(.., 16)] on hexadecimal digits. *)
Definition hex_val (s : str) : N := fold_left (fun acc c => 16 * acc + default 0 (decode_hex_digit c))%N s 0%N.
(** [bits as i32]. *)
Definition as_i32 (n : N) : Z := if N.leb n i32_max then Z.of_N n else (Z.of_N n - 4294967296)%Z.

Definition is_sign (c : char) : bool := (N.eqb c (#c"+") || N.eqb c (#c"-"))%bool.

Definition parse_msbuild_number (v : str) : option f64 :=
  match strip_prefix_ignore_ascii_case v (#"0x") with
  | Some hex =>
      if (is_empty hex || negb (forallb is_ascii_hexdigit hex))%bool then None
      else if N.ltb (hex_val hex) u32_bound then Some (f64_of_Z (as_i32 (hex_val hex))) else None
  | None =>
      let unsigned := match v with c :: r => if is_sign c then r else v | [] => v end in
      let dots := count_char (#c".") unsigned in
      let digits := List.filter is_ascii_digit unsigned in
      if negb (forallb (fun c => N.eqb c (#c".") || is_ascii_digit c)%bool unsigned) then None
      else if (Nat.ltb 1 dots || is_empty digits)%bool then None
      else
        let fraction := match split_once (#c".") unsigned with Some (_, f) => length f | None => 0 end in
        let number := f64_of_decimal (starts_with_char (#c"-") v) (dec_val digits) fraction in
        if is_finite number then Some number else None
  end.

Definition TRUE_VALUES : list str := [ #"true"; #"on"; #"yes"; #"!false"; #"!off"; #"!no" ].
Definition FALSE_VALUES : list str := [ #"false"; #"off"; #"no"; #"!true"; #"!on"; #"!yes" ].
Definition parse_msbuild_bool (v : str) : option bool :=
  if existsb (eq_ignore_ascii_case v) TRUE_VALUES then Some true
  else if existsb (eq_ignore_ascii_case v) FALSE_VALUES then Some false
  else None.

Definition parse_system_version (v : str) : option (list Z) :=
  let parts := split (#c".") v in
  if (Nat.leb 2 (length parts) && Nat.leb (length parts) 4)%bool then
    ns ← components (i32_max + 1) (map (fun part => strip_prefix_or (#c"+") (trim_ascii part)) parts);
    Some (map Z.of_N ns ++ replicate (4 - length ns) (-1)%Z)
  else None.

Definition compare_version_and_number (v : list Z) (number : f64) : comparison :=
  if SFltb (f64_of_Z (default (-1)%Z (v !! 0))) number then Lt else Gt.

Definition compare_relational_values (lhs rhs : str) : option comparison :=
  match parse_msbuild_number lhs, parse_msbuild_number rhs with
  | Some a, Some b => SFcompare a b
  | lhs_number, rhs_number =>
      match parse_system_version lhs, parse_system_version rhs with
      | Some a, Some b => Some (list_cmp Z.compare a b)
      | Some a, None => compare_version_and_number a <$> rhs_number
      | None, Some b => (fun n => CompOpp (compare_version_and_number b n)) <$> lhs_number
      | None, None => None
      end
  end.

Definition compare_equality_values (lhs rhs : str) : option bool :=
  if str_eqb lhs rhs then Some true
  else if (is_empty lhs || is_empty rhs)%bool then Some false
  else
    match parse_msbuild_number lhs, parse_msbuild_number rhs with
    | Some a, Some b => Some (SFeqb a b)
    | _, _ =>
        match parse_msbuild_bool lhs, parse_msbuild_bool rhs with
        | Some a, Some b => Some (Bool.eqb a b)
        | _, _ => if (is_ascii lhs && is_ascii rhs)%bool then Some (eq_ignore_ascii_case lhs rhs) else None
        end
    end.

(** ** Evaluator *)

Definition undefined_names (issues : list Issue) : option (list str) :=
  mapM (fun i => match i with Undefined n => Some n | Unsupported _ => None end) issues.

Section evaluator.
Context `{Host} (props : PropertyMap) (exists_ : option (str -> bool)).

Definition fs_probes_allowed : bool := is_some exists_.

Definition expand_for_condition (raw : str) (fs : bool) : run str Escaped :=
  match (if fs then substitute_with_fs raw props else substitute raw props) with
  | Done v issues =>
      match undefined_names issues with
      | Some names =>
          Done tt names;;
          require (negb (contains_str (#"@(") (as_escaped v) || contains_str (#"%(") (as_escaped v)));;
          mret v
      | None => Declined
      end
  | Declined => Declined
  | Stuck => Stuck
  end.

Definition expand_operand (raw : str) : run str str :=
  (fun e => unescaped (as_escaped e)) <$> expand_for_condition raw fs_probes_allowed.

(** [raw.trim()] without its quotes. *)
Definition trim_unquote (raw : str) : str := let raw := trim raw in default raw (unquote QUOTE raw).

Definition split_dash_zero_property (raw : str) : option str :=
  inner ← strip_prefix OPEN (trim_unquote raw) ≫= strip_suffix [RPAREN];
  strip_suffix_ignore_ascii_case inner (#".Split('-')[0]").

Definition expand_system_version_parse_arg (raw : str) : run str str :=
  match split_dash_zero_property raw with
  | Some property =>
      match get props property with
      | Some v => mret (take_while (fun c => negb (N.eqb c (#c"-"))) (unescaped (as_escaped v)))
      | None => tell property;; mret []
      end
  | None => expand_operand (trim_unquote raw)
  end.

Definition expand_scalar_for_condition (s : ScalarExpr) : run str str :=
  match s with
  | Scalar_String raw | Scalar_Property raw => expand_operand raw
  | Scalar_Bare raw => mret raw
  | Scalar_SystemVersionPart arg part =>
      version ← expand_system_version_parse_arg arg;
      version ← ok_or_decline (parse_system_version version);
      show_Z <$> ok_or_panic (version !! match part with Build => 2 | Revision => 3 end)
  end.

(** The loop of [split_function_args]: [cur] is the argument so far, and the
    arguments before it are in [done]. *)
Fixpoint split_function_args_from (in_string : bool) (paren_depth : nat) (cur : str) (raw : str) : option (list str) :=
  match raw with
  | [] => if (in_string || negb (Nat.eqb paren_depth 0))%bool then None else Some [trim cur]
  | c :: raw =>
      if in_string then split_function_args_from (negb (N.eqb c QUOTE)) paren_depth (cur ++ [c]) raw
      else if N.eqb c QUOTE then split_function_args_from true paren_depth (cur ++ [c]) raw
      else if N.eqb c LPAREN then split_function_args_from false (S paren_depth) (cur ++ [c]) raw
      else if N.eqb c RPAREN then
        match paren_depth with O => None | S d => split_function_args_from false d (cur ++ [c]) raw end
      else if (N.eqb c COMMA && Nat.eqb paren_depth 0)%bool then cons (trim cur) <$> split_function_args_from false 0 [] raw
      else split_function_args_from false paren_depth (cur ++ [c]) raw
  end.
Definition split_function_args (raw : str) : option (list str) := split_function_args_from false 0 [] raw.

Definition expand_function_arg_for_condition (raw : str) : run str str := expand_operand (trim_unquote raw).

Definition holds (op : CompareOp) (o : comparison) : bool :=
  match op, o with
  | CompareOp_Eq, Eq | CompareOp_Lt, Lt | CompareOp_Gt, Gt => true
  | CompareOp_Eq, _ | CompareOp_Lt, _ | CompareOp_Gt, _ => false
  | CompareOp_Neq, Eq | CompareOp_Lte, Gt | CompareOp_Gte, Lt => false
  | CompareOp_Neq, _ | CompareOp_Lte, _ | CompareOp_Gte, _ => true
  end.

Definition eval_msbuild_version_function (inner : str) : run str bool :=
  '(function, raw_args) ← ok_or_decline (parse_msbuild_version_function_call inner);
  a ← ok_or_decline (split_function_args raw_args);
  match a with
  | [x; y] =>
      lhs ← expand_function_arg_for_condition x;
      rhs ← expand_function_arg_for_condition y;
      ordering ← ok_or_decline (compare_msbuild_versions lhs rhs);
      mret (holds function ordering)
  | _ => Declined
  end.

Definition is_equality (op : CompareOp) : bool := match op with CompareOp_Eq | CompareOp_Neq => true | _ => false end.

Fixpoint eval_bool (e : BoolExpr) : run str bool :=
  match e with
  | BTrue => mret true
  | BFalse => mret false
  | BNot e => negb <$> eval_bool e
  | BAnd a b => av ← eval_bool a; if (av : bool) then eval_bool b else mret false
  | BOr a b => av ← eval_bool a; if (av : bool) then mret true else eval_bool b
  | BExists raw =>
      match exists_ with
      | None => Declined
      | Some ex =>
          path ← expand_for_condition raw true;
          mret (ex (default [] (trimmed_unescaped path)))
      end
  | BHasTrailingSlash raw =>
      v ← expand_for_condition raw fs_probes_allowed;
      match split_list v with
      | [] => mret false
      | [item] =>
          let s := unescaped (as_escaped item) in
          mret (ends_with_char SLASH s || ends_with_char BACKSLASH s)%bool
      | _ :: _ :: _ => Declined
      end
  | BMsbuildVersionFunction inner => eval_msbuild_version_function inner
  | BCoerceBool s => v ← expand_scalar_for_condition s; ok_or_decline (parse_msbuild_bool v)
  | BCompare op l r =>
      l ← expand_scalar_for_condition l;
      r ← expand_scalar_for_condition r;
      if is_equality op then
        equal ← ok_or_decline (compare_equality_values l r);
        mret (match op with CompareOp_Eq => equal | _ => negb equal end)
      else
        ordering ← ok_or_decline (compare_relational_values l r);
        mret (holds op ordering)
  end.
End evaluator.

(** ** References outside a comparison with the empty literal *)

Definition scalar_refs_outside_empty_comparison (s : ScalarExpr) : list str :=
  match s with
  | Scalar_Bare _ => []
  | Scalar_String raw | Scalar_Property raw => property_references raw
  | Scalar_SystemVersionPart arg _ => property_references arg
  end.

Definition is_empty_string_literal (s : ScalarExpr) : bool := match s with Scalar_String s => is_empty s | _ => false end.

Fixpoint refs_outside_empty_comparison (e : BoolExpr) : list str :=
  match e with
  | BTrue | BFalse => []
  | BNot e => refs_outside_empty_comparison e
  | BAnd l r | BOr l r => refs_outside_empty_comparison l ++ refs_outside_empty_comparison r
  | BExists raw | BHasTrailingSlash raw | BMsbuildVersionFunction raw => property_references raw
  | BCoerceBool s => scalar_refs_outside_empty_comparison s
  | BCompare op l r =>
      (if (is_equality op && is_empty_string_literal r)%bool then [] else scalar_refs_outside_empty_comparison l)
      ++ (if (is_equality op && is_empty_string_literal l)%bool then [] else scalar_refs_outside_empty_comparison r)
  end.

(** ** Entry points *)

(** The tokens as one expression; [Declined] also for trailing tokens. *)
Definition parse_condition (ts : list Token) : run unit BoolExpr :=
  '(e, rest) ← parse_or (parse_fuel ts) ts;
  require (is_empty rest);;
  mret e.

(** [None] stands for a panic or the end of the fuel. *)
Definition evaluate_inner `{Host} (source : str) (props : PropertyMap) (exists_ : option (str -> bool)) : option Eval :=
  if is_empty (trim source) then
    Some {| outcome := Outcome_True; undefined_properties := []; undefined_outside_empty_comparison := [] |}
  else if (contains_str (#"@(") source || contains_str (#"%(") source)%bool then Some unsupported
  else
    match tokenise source with
    | None => None
    | Some None => Some unsupported
    | Some (Some tokens) =>
        match parse_condition tokens with
        | Stuck => None
        | Declined => Some unsupported
        | Done e _ =>
            match eval_bool props exists_ e with
            | Stuck => None
            | Declined => Some unsupported
            | Done b undefined =>
                let outside := refs_outside_empty_comparison e in
                Some {| outcome := if b then Outcome_True else Outcome_False;
                        undefined_properties := undefined;
                        undefined_outside_empty_comparison :=
                          List.filter (fun n => existsb (fun o => eq_ignore_ascii_case o n) outside) undefined |}
            end
        end
    end.

Definition evaluate_condition `{Host} (source : str) (props : PropertyMap) : option Eval := evaluate_inner source props None.
Definition evaluate_with_exists `{Host} (source : str) (props : PropertyMap) (ex : str -> bool) : option Eval :=
  evaluate_inner source props (Some ex).

(** Cases of the unit tests. *)
Example condition_ex :
  let host := {| os := #"linux"; is_file := fun _ => false |} in
  let p := insert_xml (insert_xml PropertyMap_new (#"V") (#"1.2.3-beta")) (#"P") (#"a%20b") in
  let committed s := outcome <$> evaluate_inner s p None in
  committed (#"'$(P)' == 'a b' And '%74rue' == 'true'") = Some Outcome_True
  /\ committed (#"HasTrailingSlash('foo/%20') Or '2.0' == '2.0.0'") = Some Outcome_False
  /\ committed (#"'0.1' == '0.10000000000000000001' And 0xFFFFFFFF == -1") = Some Outcome_True
  /\ committed (#"6.0.0.0 > 6 And '1.2' >= '1.10'") = Some Outcome_True
  /\ committed (#"$([System.Version]::Parse('$(V.Split('-')[0])').Build) == 3") = Some Outcome_True
  /\ committed (#"!'a' == 'b'") = Some Outcome_Unsupported /\ committed (#"Exists('x')") = Some Outcome_Unsupported.
Proof. vm_compute. split_and!; done. Qed.
