(* ===== verification/ConditionThm.v ===== *)
(** * Conditions: the parser and its grammar

    About [Condition]: the grammar of conditions as inductive relations, and that
    the recursive descent parser, with the fuel it is given, returns and accepts
    exactly the sentences of the grammar. *)

From S2P Require Import Prelude StrBytes Properties Condition.

(** ** The grammar *)

Inductive argument : Token -> str -> Prop :=
| argument_string s : argument (Token_String s) s
| argument_property raw : argument (Token_Property raw) raw.

Definition scalar_head (ts : list Token) : bool := match ts with t :: _ => is_scalar_start t | [] => false end.

Inductive g_or : list Token -> BoolExpr -> Prop :=
| g_or_one ts e : g_and ts e -> g_or ts e
| g_or_more ts e ts' e' : g_or ts e -> g_and ts' e' -> g_or (ts ++ Token_Or :: ts') (BOr e e')
with g_and : list Token -> BoolExpr -> Prop :=
| g_and_one ts e : g_primary ts e -> g_and ts e
| g_and_more ts e ts' e' : g_and ts e -> g_primary ts' e' -> g_and (ts ++ Token_And :: ts') (BAnd e e')
with g_primary : list Token -> BoolExpr -> Prop :=
| g_compare t s o op t' s' : scalar_of t = Some s -> compare_op_of o = Some op -> scalar_of t' = Some s' ->
    g_primary [t; o; t'] (BCompare op s s')
| g_coerce t s : scalar_of t = Some s -> g_primary [t] (BCoerceBool s)
| g_primary_factor ts e : scalar_head ts = false -> g_factor ts e -> g_primary ts e
with g_factor : list Token -> BoolExpr -> Prop :=
| g_not ts e : g_factor ts e -> g_factor (Token_Bang :: ts) (BNot e)
| g_paren ts e : g_or ts e -> g_factor (Token_LParen :: ts ++ [Token_RParen]) e
| g_true : g_factor [Token_True] BTrue
| g_false : g_factor [Token_False] BFalse
| g_exists t raw : argument t raw -> g_factor [Token_Exists; Token_LParen; t; Token_RParen] (BExists raw)
| g_trailing_slash t raw : argument t raw ->
    g_factor [Token_HasTrailingSlash; Token_LParen; t; Token_RParen] (BHasTrailingSlash raw)
| g_version inner : g_factor [Token_MsbuildVersionFunction inner] (BMsbuildVersionFunction inner)
| g_scalar t s : scalar_of t = Some s -> t <> Token_True -> t <> Token_False -> g_factor [t] (BCoerceBool s).

(** ** The parser finds derivations, and returns *)

Definition derives (g : list Token -> BoolExpr -> Prop) (ts : list Token) (m : run unit (BoolExpr * list Token)) : Prop :=
  match m with
  | Done (e, rest) log => log = [] /\ exists pre, ts = pre ++ rest /\ pre <> [] /\ g pre e
  | Declined => True
  | Stuck => False
  end.

(** A loop goes on from a derivation. *)
Definition extends (g : list Token -> BoolExpr -> Prop) (e : BoolExpr) (ts : list Token) (m : run unit (BoolExpr * list Token)) : Prop :=
  forall before, g before e ->
  match m with
  | Done (e, rest) log => log = [] /\ exists pre, ts = pre ++ rest /\ g (before ++ pre) e
  | Declined => True
  | Stuck => False
  end.

Lemma derives_then g h ts m k : derives g ts m ->
  (forall e pre rest, ts = pre ++ rest -> pre <> [] -> g pre e -> match k (e, rest) with
     | Done (e', rest') log => log = [] /\ exists more, rest = more ++ rest' /\ h (pre ++ more) e'
     | Declined => True
     | Stuck => False
     end) -> derives h ts (m ≫= k).
Proof.
  destruct m as [[e rest] log| |]; cbn; [|done..]. intros (-> & pre & -> & Hne & Hg) Hk. specialize (Hk e pre rest eq_refl Hne Hg).
  destruct (k (e, rest)) as [[e' rest'] log'| |]; [|done..]. destruct Hk as (-> & more & -> & Hh). split; [done|].
  exists (pre ++ more). split_and!; [by rewrite app_assoc|by destruct pre|done].
Qed.

Lemma parse_single_spec ts : match parse_single_string_argument ts with
  | Done (raw, rest) log => log = [] /\ exists t, ts = Token_LParen :: t :: Token_RParen :: rest /\ argument t raw
  | Declined => True
  | Stuck => False
  end.
Proof.
  destruct ts as [|[] [|[] [|[] ts]]]; try exact I; cbn; (split; [done|]; eexists; split; [done|constructor]).
Qed.

Lemma scalar_start_spec t : is_scalar_start t = is_some (scalar_of t).
Proof. by destruct t. Qed.

(** Fuel for a call on [n] tokens. *)
Definition enough (c fuel : nat) (ts : list Token) : Prop := 5 * length ts + c <= fuel.

Lemma or_loop_eq fuel e ts : or_loop (S fuel) e ts = match ts with
  | Token_Or :: ts => '(rhs, ts) ← parse_and fuel ts; or_loop fuel (BOr e rhs) ts
  | _ => mret (e, ts)
  end.
Proof. done. Qed.

Lemma and_loop_eq fuel e ts : and_loop (S fuel) e ts = match ts with
  | Token_And :: ts => '(rhs, ts) ← parse_primary_bool fuel ts; and_loop fuel (BAnd e rhs) ts
  | _ => mret (e, ts)
  end.
Proof. done. Qed.

Lemma extends_here (g : list Token -> BoolExpr -> Prop) e ts : extends g e ts (mret (e, ts)).
Proof. intros before Hg. split; [done|]. exists []. by rewrite app_nil_r. Qed.

(** A turn of a loop: after the operator, an operand, and then the loop again. *)
Lemma extends_turn (g h : list Token -> BoolExpr -> Prop) (t : Token) (con : BoolExpr -> BoolExpr -> BoolExpr) e ts m k :
  (forall ts1 e1 ts2 e2, g ts1 e1 -> h ts2 e2 -> g (ts1 ++ t :: ts2) (con e1 e2)) ->
  derives h ts m -> (forall e' rest, length rest <= length ts -> extends g (con e e') rest (k (e', rest))) ->
  extends g e (t :: ts) (m ≫= k).
Proof.
  intros Hcon Hm Hk before Hb. destruct m as [[e' rest] log| |]; cbn in *; [|done..]. destruct Hm as (-> & pre & -> & _ & Hh).
  specialize (Hk e' rest ltac:(rewrite length_app; lia) (before ++ t :: pre) (Hcon _ _ _ _ Hb Hh)).
  destruct (k (e', rest)) as [[e2 rest2] log2| |]; [|done..]. destruct Hk as (-> & more & -> & Hg). split; [done|].
  exists (t :: pre ++ more). split; [cbn; by rewrite <- app_assoc|]. by rewrite <- app_assoc in Hg.
Qed.

Lemma parse_scalar_spec ts : match parse_scalar ts with
  | Done (s, rest) log => log = [] /\ exists t, ts = t :: rest /\ scalar_of t = Some s
  | Declined => scalar_head ts = false
  | Stuck => False
  end.
Proof. destruct ts as [|t ts]; [done|]. cbn. rewrite scalar_start_spec. destruct (scalar_of t) eqn:E; cbn; [|done]. split; [done|by exists t]. Qed.

Lemma primary_sound ts : scalar_head ts = true -> derives g_primary ts
  ('(lhs, ts) ← parse_scalar ts;
   match peek_compare_op ts with
   | Some op => '(rhs, ts) ← parse_scalar (tail ts); mret (BCompare op lhs rhs, ts)
   | None => mret (BCoerceBool lhs, ts)
   end).
Proof.
  intros Hs. pose proof (parse_scalar_spec ts) as H. destruct (parse_scalar ts) as [[s rest] log| |]; [|done..].
  destruct H as (-> & t & -> & Ht). cbn. destruct (peek_compare_op rest) as [op|] eqn:Eop.
  - destruct rest as [|o rest]; [done|]. cbn in Eop |- *. pose proof (parse_scalar_spec rest) as H.
    destruct (parse_scalar rest) as [[s' rest'] log'| |]; [|done..]. destruct H as (-> & t' & -> & Ht'). cbn. split; [done|].
    exists [t; o; t']. split_and!; [done|done|by econstructor].
  - cbn. split; [done|]. exists [t]. split_and!; [done|done|by constructor].
Qed.

Lemma argument_sound (f : str -> BoolExpr) t0 ts :
  (forall t raw, argument t raw -> g_factor [t0; Token_LParen; t; Token_RParen] (f raw)) ->
  derives g_factor (t0 :: ts) ('(arg, ts) ← parse_single_string_argument ts; mret (f arg, ts)).
Proof.
  intros Hf. pose proof (parse_single_spec ts) as H. destruct (parse_single_string_argument ts) as [[raw rest] log| |]; [|done..].
  destruct H as (-> & t & -> & Ht). cbn. split; [done|]. exists [t0; Token_LParen; t; Token_RParen]. split_and!; [done|done|auto].
Qed.

Lemma one_token_sound t e ts : g_factor [t] e -> derives g_factor (t :: ts) (mret (e, ts)).
Proof. intros H. split; [done|]. by exists [t]. Qed.

Lemma factor_scalar_sound t ts : is_scalar_start t = true -> t <> Token_True -> t <> Token_False ->
  derives g_factor (t :: ts) ('(s, ts) ← parse_scalar (t :: ts); mret (BCoerceBool s, ts)).
Proof.
  rewrite scalar_start_spec. intros Hs Ht Hf. cbn. destruct (scalar_of t) as [s|] eqn:E; [|done]. cbn. split; [done|]. exists [t].
  split_and!; [done|done|by constructor].
Qed.

Lemma parser_sound fuel :
  (forall ts, enough 5 fuel ts -> derives g_or ts (parse_or fuel ts))
  /\ (forall e ts, enough 4 fuel ts -> extends g_or e ts (or_loop fuel e ts))
  /\ (forall ts, enough 4 fuel ts -> derives g_and ts (parse_and fuel ts))
  /\ (forall e ts, enough 3 fuel ts -> extends g_and e ts (and_loop fuel e ts))
  /\ (forall ts, enough 3 fuel ts -> derives g_primary ts (parse_primary_bool fuel ts))
  /\ (forall ts, enough 2 fuel ts -> derives g_factor ts (parse_bool_factor fuel ts)).
Proof.
  induction fuel as [|fuel (IHor & IHorl & IHand & IHandl & IHprim & IHfac)]; [split_and!; intros; unfold enough in *; lia|].
  unfold enough in *. split_and!.
  - intros ts Hf. cbn [parse_or]. apply (derives_then g_and); [apply IHand; lia|]. intros e pre rest -> Hne Hg.
    apply (IHorl e rest); [rewrite length_app in Hf; lia|by constructor].
  - intros e ts Hf. rewrite or_loop_eq. destruct ts as [|t ts]; [apply extends_here|]. cbn in Hf. destruct t; try apply extends_here.
    apply (extends_turn g_or g_and Token_Or BOr); [by constructor|apply IHand; lia|]. intros e' rest Hr. apply IHorl. lia.
  - intros ts Hf. cbn [parse_and]. apply (derives_then g_primary); [apply IHprim; lia|]. intros e pre rest -> Hne Hg.
    apply (IHandl e rest); [rewrite length_app in Hf; lia|by constructor].
  - intros e ts Hf. rewrite and_loop_eq. destruct ts as [|t ts]; [apply extends_here|]. cbn in Hf. destruct t; try apply extends_here.
    apply (extends_turn g_and g_primary Token_And BAnd); [by constructor|apply IHprim; lia|]. intros e' rest Hr. apply IHandl. lia.
  - intros ts Hf. cbn [parse_primary_bool]. change (match ts with t :: _ => is_scalar_start t | [] => false end) with (scalar_head ts).
    destruct (scalar_head ts) eqn:Hs; [by apply primary_sound|]. specialize (IHfac ts ltac:(lia)).
    destruct (parse_bool_factor fuel ts) as [[e rest] log| |]; [|done..]. destruct IHfac as (-> & pre & -> & Hne & Hg). split; [done|].
    exists pre. split_and!; [done|done|]. constructor; [by destruct pre|done].
  - intros ts Hf. cbn [parse_bool_factor]. destruct ts as [|t ts]; [done|]. cbn [length] in Hf.
    destruct t; try exact I; try (apply factor_scalar_sound; done); try (apply one_token_sound; constructor).
    + apply argument_sound. intros. by constructor.
    + apply argument_sound. intros. by constructor.
    + specialize (IHfac ts ltac:(lia)). destruct (parse_bool_factor fuel ts) as [[e rest] log| |]; [|done..].
      destruct IHfac as (-> & pre & -> & _ & Hg). cbn. split; [done|]. exists (Token_Bang :: pre). split_and!; [done|done|by constructor].
    + specialize (IHor ts ltac:(lia)). destruct (parse_or fuel ts) as [[e rest] log| |]; [|done..].
      destruct IHor as (-> & pre & -> & _ & Hg). cbn. destruct rest as [|t rest]; [exact I|]. destruct t; try exact I.
      split; [done|]. exists (Token_LParen :: pre ++ [Token_RParen]). split_and!; [cbn; by rewrite <- app_assoc|done|by constructor].
Qed.

(** ** More fuel does not change an answer *)

Lemma bind_mono {L A B} (m m' : run L A) (k k' : A -> run L B) : (m <> Stuck -> m' = m) -> (forall a, k a <> Stuck -> k' a = k a) ->
  m ≫= k <> Stuck -> m' ≫= k' = m ≫= k.
Proof.
  intros Hm Hk Hne. destruct m as [a l| |]; [|rewrite Hm by done; done|done]. rewrite Hm by done. cbn in *.
  rewrite Hk; [done|]. intros E. by rewrite E in Hne.
Qed.

Lemma parser_mono fuel :
  (forall ts, parse_or fuel ts <> Stuck -> parse_or (S fuel) ts = parse_or fuel ts)
  /\ (forall e ts, or_loop fuel e ts <> Stuck -> or_loop (S fuel) e ts = or_loop fuel e ts)
  /\ (forall ts, parse_and fuel ts <> Stuck -> parse_and (S fuel) ts = parse_and fuel ts)
  /\ (forall e ts, and_loop fuel e ts <> Stuck -> and_loop (S fuel) e ts = and_loop fuel e ts)
  /\ (forall ts, parse_primary_bool fuel ts <> Stuck -> parse_primary_bool (S fuel) ts = parse_primary_bool fuel ts)
  /\ (forall ts, parse_bool_factor fuel ts <> Stuck -> parse_bool_factor (S fuel) ts = parse_bool_factor fuel ts).
Proof.
  induction fuel as [|fuel (IHor & IHorl & IHand & IHandl & IHprim & IHfac)]; [split_and!; by intros|]. split_and!.
  - intros ts. apply bind_mono; [apply IHand|]. intros [e rest]. apply IHorl.
  - intros e ts. rewrite (or_loop_eq (S fuel)), or_loop_eq. destruct ts as [|t ts]; [done|]. destruct t; try done.
    apply bind_mono; [apply IHand|]. intros [e' rest]. apply IHorl.
  - intros ts. apply bind_mono; [apply IHprim|]. intros [e rest]. apply IHandl.
  - intros e ts. rewrite (and_loop_eq (S fuel)), and_loop_eq. destruct ts as [|t ts]; [done|]. destruct t; try done.
    apply bind_mono; [apply IHprim|]. intros [e' rest]. apply IHandl.
  - intros ts. cbn [parse_primary_bool]. destruct (match ts with t :: _ => is_scalar_start t | [] => false end); [done|apply IHfac].
  - intros ts. destruct ts as [|t ts]; [done|]. destruct t; try done; [apply (bind_mono (parse_bool_factor fuel ts))|apply (bind_mono (parse_or fuel ts))];
      [apply IHfac|by intros [e rest]|apply IHor|by intros [e rest]].
Qed.

Lemma condition_or_mono n m ts : n <= m -> parse_or n ts <> Stuck -> parse_or m ts = parse_or n ts.
Proof.
  induction 1 as [|m _ IH]; [done|]. intros Hne. rewrite <- IH by done. apply parser_mono. by rewrite IH.
Qed.

(** ** The parser finds every derivation *)

Definition gives {A} (f : nat -> A) (a : A) : Prop := exists n, forall m, n <= m -> f m = a.

Lemma gives_now {A} (f : nat -> A) (a : A) : (forall m, f (S m) = a) -> gives f a.
Proof. intros H. exists 1. intros [|m] Hm; [lia|done]. Qed.

(** A call made of calls with less fuel. *)
Lemma gives_then {L A B} (f : nat -> run L A) (g : A -> nat -> run L B) (h : nat -> run L B) a r :
  gives f (Done a []) -> gives (g a) r -> (forall m, h (S m) = (x ← f m; g x m)) -> gives h r.
Proof.
  intros [n Hn] [n' Hn'] Hh. exists (S (n + n')). intros [|m] Hm; [lia|]. rewrite Hh, Hn by lia. cbn. rewrite Hn' by lia. by destruct r.
Qed.

Definition op_head (ts : list Token) : bool := is_some (peek_compare_op ts).
Definition and_head (ts : list Token) : bool := match ts with Token_And :: _ => true | _ => false end.
Definition or_head (ts : list Token) : bool := match ts with Token_Or :: _ => true | _ => false end.

Scheme g_or_min := Minimality for g_or Sort Prop
with g_and_min := Minimality for g_and Sort Prop
with g_primary_min := Minimality for g_primary Sort Prop
with g_factor_min := Minimality for g_factor Sort Prop.
Combined Scheme grammar_ind from g_or_min, g_and_min, g_primary_min, g_factor_min.

Definition done_at (e : BoolExpr) (rest : list Token) : run unit (BoolExpr * list Token) := Done (e, rest) [].

Lemma factor_scalar t rest s : scalar_of t = Some s -> t <> Token_True -> t <> Token_False ->
  forall m, parse_bool_factor (S m) (t :: rest) = done_at (BCoerceBool s) rest.
Proof. intros Hs Ht Hf m. by destruct t; cbn in Hs; simplify_eq; cbn. Qed.

Lemma factor_argument t raw (f : str -> BoolExpr) rest : argument t raw ->
  ('(arg, ts) ← parse_single_string_argument (Token_LParen :: t :: Token_RParen :: rest); mret (f arg, ts)) = done_at (f raw) rest.
Proof. by destruct 1. Qed.

Lemma parser_complete :
  (forall ts e, g_or ts e -> forall rest r, op_head rest = false -> and_head rest = false ->
     gives (fun n => or_loop n e rest) r -> gives (fun n => parse_or n (ts ++ rest)) r)
  /\ (forall ts e, g_and ts e -> forall rest r, op_head rest = false ->
     gives (fun n => and_loop n e rest) r -> gives (fun n => parse_and n (ts ++ rest)) r)
  /\ (forall ts e, g_primary ts e -> forall rest, op_head rest = false -> gives (fun n => parse_primary_bool n (ts ++ rest)) (done_at e rest))
  /\ (forall ts e, g_factor ts e -> forall rest, gives (fun n => parse_bool_factor n (ts ++ rest)) (done_at e rest)).
Proof.
  assert (Handl : forall e rest, and_head rest = false -> gives (fun n => and_loop n e rest) (done_at e rest)).
  { intros e rest Hr. apply gives_now. intros m. rewrite and_loop_eq. destruct rest as [|t rest]; [done|]. by destruct t. }
  apply grammar_ind.
  - intros ts e _ IH rest r Ho Ha Hr. apply (gives_then (fun n => parse_and n (ts ++ rest)) (fun x n => let '(e, ts) := x in or_loop n e ts) _ (e, rest) r);
      [apply IH; auto|exact Hr|done].
  - intros ts e ts' e' _ IH _ IH' rest r Ho Ha Hr. rewrite <- app_assoc. apply IH; [done|done|].
    apply (gives_then (fun n => parse_and n (ts' ++ rest)) (fun x n => let '(e', ts) := x in or_loop n (BOr e e') ts) _ (e', rest) r); [apply IH'; auto|exact Hr|done].
  - intros ts e _ IH rest r Ho Hr.
    apply (gives_then (fun n => parse_primary_bool n (ts ++ rest)) (fun x n => let '(e, ts) := x in and_loop n e ts) _ (e, rest) r); [by apply IH|exact Hr|done].
  - intros ts e ts' e' _ IH _ IH' rest r Ho Hr. rewrite <- app_assoc. apply IH; [done|].
    apply (gives_then (fun n => parse_primary_bool n (ts' ++ rest)) (fun x n => let '(e', ts) := x in and_loop n (BAnd e e') ts) _ (e', rest) r); [by apply IH'|exact Hr|done].
  - intros t s o op t' s' Ht Ho Ht' rest _. apply gives_now. intros m. cbn. rewrite scalar_start_spec, Ht. cbn. rewrite Ho, Ht'. done.
  - intros t s Ht rest Ho. apply gives_now. intros m. cbn. rewrite scalar_start_spec, Ht. cbn. unfold op_head in Ho. by destruct (peek_compare_op rest).
  - intros ts e Hs Hg IH rest _. destruct (IH rest) as [n Hn]. exists (S n). intros [|m] Hm; [lia|]. cbn [parse_primary_bool].
    assert (Hh : match ts ++ rest with t :: _ => is_scalar_start t | [] => false end = false) by (destruct ts; [by inversion Hg|done]).
    rewrite Hh. apply Hn. lia.
  - intros ts e _ IH rest. apply (gives_then (fun n => parse_bool_factor n (ts ++ rest)) (fun x _ => let '(e, ts) := x in mret (BNot e, ts)) _ (e, rest));
      [apply IH|by exists 0|done].
  - intros ts e _ IH rest. cbn [app]. rewrite <- app_assoc.
    apply (gives_then (fun n => parse_or n (ts ++ [Token_RParen] ++ rest))
      (fun x _ => let '(e, ts) := x in match ts with Token_RParen :: ts => mret (e, ts) | _ => Declined end) _ (e, Token_RParen :: rest)); [|by exists 0|done].
    apply IH; [done|done|]. by apply gives_now.
  - intros rest. by apply gives_now.
  - intros rest. by apply gives_now.
  - intros t raw Ha rest. apply gives_now. intros m. by apply (factor_argument t raw BExists).
  - intros t raw Ha rest. apply gives_now. intros m. by apply (factor_argument t raw BHasTrailingSlash).
  - intros inner rest. by apply gives_now.
  - intros t s Ht H1 H2 rest. apply gives_now. by apply factor_scalar.
Qed.

Lemma parse_condition_answers ts : parse_condition ts <> Stuck.
Proof.
  unfold parse_condition. destruct (parser_sound (parse_fuel ts)) as (H & _). specialize (H ts). unfold enough, parse_fuel in H.
  specialize (H ltac:(lia)). fold (parse_fuel ts) in H. destruct (parse_or (parse_fuel ts) ts) as [[e rest] l| |]; [|done..].
  cbn. by destruct (is_empty rest).
Qed.

Lemma parse_condition_sound ts e log : parse_condition ts = Done e log -> g_or ts e.
Proof.
  unfold parse_condition. destruct (parser_sound (parse_fuel ts)) as (H & _). specialize (H ts ltac:(unfold enough, parse_fuel; lia)).
  destruct (parse_or (parse_fuel ts) ts) as [[e' rest] l| |]; [|done..]. destruct H as (-> & pre & -> & _ & Hg). cbn.
  destruct rest; [|done]. cbn. intros [= <- <-]. by rewrite app_nil_r.
Qed.

Lemma parse_condition_complete ts e : g_or ts e -> parse_condition ts = Done e [].
Proof.
  intros Hg. destruct (proj1 parser_complete ts e Hg [] (done_at e [])) as [n Hn]; [done|done|by apply gives_now|].
  unfold parse_condition. destruct (parser_sound (parse_fuel ts)) as (H & _). specialize (H ts ltac:(unfold enough, parse_fuel; lia)).
  assert (Hne : parse_or (parse_fuel ts) ts <> Stuck) by (intros E; by rewrite E in H).
  specialize (Hn (n + parse_fuel ts) ltac:(lia)). rewrite app_nil_r in Hn.
  rewrite (condition_or_mono (parse_fuel ts) (n + parse_fuel ts)) in Hn by (lia || done). by rewrite Hn.
Qed.

(** C19: The parser of conditions is its grammar: it returns on every list of
    tokens, and accepts it with the tree [e] exactly when the grammar (or above
    and above comparison and the factors, left to right, with [!] binding tighter
    than a comparison) derives it with that tree. *)
Theorem parse_condition_grammar ts e : parse_condition ts <> Stuck /\ (parse_condition ts = Done e [] <-> g_or ts e).
Proof. split; [apply parse_condition_answers|]. split; [apply parse_condition_sound|apply parse_condition_complete]. Qed.
