(* ===== verification/ConditionEvalThm.v ===== *)
(** * Conditions: what is committed, and what it depends on

    About [Condition]: evaluation always answers; a committed answer is right
    whatever the parts that were not evaluated stand for; a file-system callback
    only adds answers; and the answer depends only on the properties that
    [property_references] reports for the text. *)

From S2P Require Import Prelude Escaping StrBytes Properties PropExpr PropScanThm PropExprThm Condition ConditionThm.

(** ** Evaluation answers *)

Lemma take_while_pos q s c : s !! 0 = Some c -> q c = true -> 0 < length (take_while q s).
Proof. destruct s as [|x s]; [done|]. intros [= ->] Hq. cbn. rewrite Hq. cbn. lia. Qed.

Lemma number_end_past source i b : source !! i = Some b ->
  (is_ascii_digit b || N.eqb b (#c".") || N.eqb b (#c"+") || N.eqb b (#c"-"))%bool = true -> i < number_end source i b.
Proof.
  intros Hb Hn. unfold number_end. destruct (_ && _ && _)%bool; [lia|]. cbv zeta.
  destruct (N.eqb b (#c"+") || N.eqb b (#c"-"))%bool eqn:E; [lia|]. rewrite <- orb_assoc, E, orb_false_r in Hn.
  assert (0 < length (take_while (fun c => is_ascii_digit c || N.eqb c (#c"."))%bool (drop i source))); [|lia].
  apply (take_while_pos _ _ b); [by rewrite lookup_drop, Nat.add_0_r|done].
Qed.

Lemma tokenise_advances source : advances (length source) fst (tokenise_step source).
Proof.
  intros [i ts] [i' ts'] Hi. cbn [fst] in *. unfold tokenise_step. destruct (source !! i) as [b|] eqn:Eb; [|done]. cbv zeta.
  repeat lazymatch goal with
  | |- (if is_ascii_whitespace b then _ else _) = _ -> _ => destruct (is_ascii_whitespace b); [intros [= <- <-]; lia|]
  | |- (if N.eqb b QUOTE then _ else _) = _ -> _ => destruct (N.eqb b QUOTE); [case_match; [done|]; intros [= <- <-]; lia|]
  | |- (if N.eqb b ?c then _ else _) = _ -> _ => destruct (N.eqb b c); [intros [= <- <-]; lia|]
  | |- (if (N.eqb b DOLLAR && _)%bool then _ else _) = _ -> _ =>
      destruct (N.eqb b DOLLAR && _)%bool; [case_match; intros [= <- <-]; lia|]
  | |- (if (N.eqb b ?c && ?x)%bool then _ else _) = _ -> _ => destruct (N.eqb b c && x)%bool; [intros [= <- <-]; lia|]
  end.
  destruct (_ || _)%bool eqn:En; [intros [= <- <-]; by apply number_end_past|].
  destruct (is_ident_start b) eqn:Es; [|intros [= <- <-]; lia]. intros [= <- <-].
  assert (0 < length (take_while is_ident_continue (drop i source))); [|lia].
  apply (take_while_pos _ _ b); [by rewrite lookup_drop, Nat.add_0_r|].
  unfold is_ident_start, is_ident_continue, is_ascii_alphanumeric in *. apply orb_true_iff in Es as [->| ->]; [done|by rewrite orb_true_r].
Qed.

Lemma tokenise_returns source : is_Some (tokenise source).
Proof.
  destruct (while_st_ind (length source) fst (tokenise_step source) (fun st => Some st.2) (tokenise_advances source)
    (fun _ => True) (fun _ => True) (0, [])) as (r & E & _); [try done..|by exists r].
Qed.

Lemma parse_system_version_length v l : parse_system_version v = Some l -> length l = 4.
Proof.
  unfold parse_system_version. cbv zeta. destruct (_ && _)%bool eqn:E; [|done]. apply andb_prop in E as [_ E%Nat.leb_le].
  destruct (components _ _) as [ns|] eqn:Ec; [|done]. apply components_length in Ec. rewrite length_map in Ec.
  intros [= <-]. rewrite length_app, length_map, length_replicate. lia.
Qed.

Section eval_answers.
Context `{Host} (p : PropertyMap) (ex : option (str -> bool)).

Lemma expand_for_condition_answers raw fs : answers true1 (expand_for_condition p raw fs).
Proof.
  unfold expand_for_condition.
  assert (exists v l, (if fs then substitute_with_fs raw p else substitute raw p) = Done v l) as (v & l & ->)
    by (destruct fs; apply substitute_impl_done).
  destruct (undefined_names l); answers_tac.
Qed.

Lemma expand_operand_answers raw : answers true1 (expand_operand p ex raw).
Proof. unfold expand_operand. apply answers_fmap. eapply answers_mono; [apply expand_for_condition_answers|done]. Qed.
#[local] Hint Resolve expand_for_condition_answers expand_operand_answers : answers.

Lemma expand_scalar_answers s : answers true1 (expand_scalar_for_condition p ex s).
Proof.
  destruct s; cbn [expand_scalar_for_condition]; auto with answers.
  apply (answers_bind true1); [unfold expand_system_version_parse_arg; answers_tac|]. intros v _.
  apply (answers_bind (fun l => length l = 4)); [apply answers_ok_or_decline; intros l; apply parse_system_version_length|].
  intros l Hl. apply answers_fmap. destruct (lookup_lt_is_Some_2 l (match part with Build => 2 | Revision => 3 end)) as [x ->]; [destruct part; lia|done].
Qed.
#[local] Hint Resolve expand_scalar_answers : answers.

Lemma eval_bool_answers e : answers true1 (eval_bool p ex e).
Proof.
  induction e; cbn [eval_bool]; answers_tac; try (apply answers_fmap; by eapply answers_mono).
Qed.
End eval_answers.

Lemma evaluate_inner_answers `{Host} source p ex : is_Some (evaluate_inner source p ex).
Proof.
  unfold evaluate_inner. destruct (is_empty _); [done|]. destruct (_ || _)%bool; [done|].
  destruct (tokenise_returns source) as [ts ->]. destruct ts as [ts|]; [|done].
  pose proof (parse_condition_answers ts) as Hp. destruct (parse_condition ts) as [e l| |]; [|done..].
  pose proof (eval_bool_answers p ex e) as He. by destruct (eval_bool p ex e).
Qed.

(** ** Meaning

    The connectives with their truth tables, and a truth value for each leaf. *)

Definition is_leaf (e : BoolExpr) : bool :=
  match e with BTrue | BFalse | BNot _ | BAnd _ _ | BOr _ _ => false | _ => true end.

Fixpoint meaning (val : BoolExpr -> bool) (e : BoolExpr) : bool :=
  match e with
  | BTrue => true
  | BFalse => false
  | BNot e => negb (meaning val e)
  | BAnd a b => meaning val a && meaning val b
  | BOr a b => meaning val a || meaning val b
  | leaf => val leaf
  end.

Section committed.
Context `{Host} (p : PropertyMap) (ex : option (str -> bool)).

(** The truth values agree with the leaves that have an answer. *)
Definition consistent (val : BoolExpr -> bool) : Prop :=
  forall e b log, is_leaf e = true -> eval_bool p ex e = Done b log -> val e = b.

Lemma eval_bool_meaning val e b log : consistent val -> eval_bool p ex e = Done b log -> meaning val e = b.
Proof.
  intros Hv. revert b log. induction e as [| |e IH|a IHa c IHc|a IHa c IHc| | | | |]; intros b log.
  1,2: by intros [= <- _].
  - cbn [eval_bool meaning]. destruct (eval_bool p ex e) as [x l| |]; [|done..]. intros [= <- _]. by rewrite (IH x l).
  - intros (av & l1 & l2 & Ea & Eb & _)%run_bind_done. cbn [meaning]. rewrite (IHa _ _ Ea). destruct av; [by apply (IHc _ l2)|]. by injection Eb.
  - intros (av & l1 & l2 & Ea & Eb & _)%run_bind_done. cbn [meaning]. rewrite (IHa _ _ Ea). destruct av; [|by apply (IHc _ l2)]. by injection Eb.
  - by apply Hv.
  - by apply Hv.
  - by apply Hv.
  - by apply Hv.
  - by apply Hv.
Qed.

(** How an evaluation can end. *)
Lemma evaluate_inner_cases source ev : evaluate_inner source p ex = Some ev ->
  outcome ev = Outcome_Unsupported
  \/ is_empty (trim source) = true /\ outcome ev = Outcome_True
  \/ exists ts e b log, tokenise source = Some (Some ts) /\ g_or ts e /\ eval_bool p ex e = Done b log
     /\ outcome ev = if b then Outcome_True else Outcome_False.
Proof.
  unfold evaluate_inner. destruct (is_empty _); [intros [= <-]; auto|]. destruct (_ || _)%bool; [intros [= <-]; auto|].
  destruct (tokenise source) as [[ts|]|]; [|intros [= <-]; auto|done].
  destruct (parse_condition ts) as [e l| |] eqn:Ep; [|intros [= <-]; auto|done].
  destruct (eval_bool p ex e) as [b log| |] eqn:Ee; [|intros [= <-]; auto|done].
  intros [= <-]. right. right. exists ts, e, b, log. split_and!; [done|by eapply parse_condition_sound|done|done].
Qed.
End committed.

(** ** The file system only adds answers *)

(** The first computation declines, or they are the same. *)
Definition refines {L A} (m1 m2 : run L A) : Prop := m1 = Declined \/ m1 = m2.

Lemma refines_refl {L A} (m : run L A) : refines m m.
Proof. by right. Qed.

Lemma refines_bind {L A B} (m1 m2 : run L A) (k1 k2 : A -> run L B) : refines m1 m2 -> (forall a, refines (k1 a) (k2 a)) ->
  refines (m1 ≫= k1) (m2 ≫= k2).
Proof.
  intros [->| ->] Hk; [by left|]. destruct m2 as [a l| |]; [|by right..]. cbn. destruct (Hk a) as [->| ->]; [by left|by right].
Qed.

Lemma refines_fmap {L A B} (f : A -> B) (m1 m2 : run L A) : refines m1 m2 -> refines (f <$> m1) (f <$> m2).
Proof. intros [->| ->]; [by left|by right]. Qed.
#[local] Hint Resolve refines_refl refines_bind refines_fmap : refines.

Section refines.
Context `{Host} (p : PropertyMap) (ex : str -> bool).

Lemma undefined_names_supported l ns : undefined_names l = Some ns -> Forall (fun i => ~ is_unsupported i) l.
Proof.
  intros Hm%mapM_Some. induction Hm as [|i n l ns Hi _ IH]; constructor; [|done]. destruct i; [|done]. by intros [].
Qed.

Lemma expand_for_condition_fs raw : refines (expand_for_condition p raw false) (expand_for_condition p raw true).
Proof.
  unfold expand_for_condition. destruct (substitute raw p) as [v l| |] eqn:E; [|by left|].
  - destruct (undefined_names l) as [ns|] eqn:En; [|by left]. right. apply undefined_names_supported in En as Hl.
    by rewrite (substitute_fs _ _ _ _ E Hl), En.
  - destruct (substitute_impl_done raw p false) as (v & l & E'). unfold substitute in E. by rewrite E in E'.
Qed.

Lemma expand_operand_fs raw : refines (expand_operand p None raw) (expand_operand p (Some ex) raw).
Proof. apply refines_fmap, expand_for_condition_fs. Qed.
#[local] Hint Resolve expand_for_condition_fs expand_operand_fs : refines.

Lemma expand_scalar_fs s : refines (expand_scalar_for_condition p None s) (expand_scalar_for_condition p (Some ex) s).
Proof.
  destruct s; cbn [expand_scalar_for_condition]; auto with refines. apply refines_bind; [|auto with refines].
  unfold expand_system_version_parse_arg. destruct (split_dash_zero_property _); auto with refines.
Qed.
#[local] Hint Resolve expand_scalar_fs : refines.

Lemma eval_bool_fs e : refines (eval_bool p None e) (eval_bool p (Some ex) e).
Proof.
  induction e; cbn [eval_bool]; auto with refines.
  - apply refines_bind; [done|]. intros []; auto with refines.
  - apply refines_bind; [done|]. intros []; auto with refines.
  - by left.
  - unfold eval_msbuild_version_function, expand_function_arg_for_condition. apply refines_bind; [auto with refines|]. intros [f a].
    apply refines_bind; [auto with refines|]. intros [|x [|y [|]]]; auto with refines.
Qed.

Lemma evaluate_inner_fs source ev : evaluate_inner source p None = Some ev -> outcome ev <> Outcome_Unsupported ->
  evaluate_inner source p (Some ex) = Some ev.
Proof.
  unfold evaluate_inner. destruct (is_empty _); [done|]. destruct (_ || _)%bool; [done|].
  destruct (tokenise source) as [[ts|]|]; [|done..]. destruct (parse_condition ts) as [e l| |]; [|done..].
  destruct (eval_bool_fs e) as [->| ->]; [|done]. by intros [= <-].
Qed.
End refines.

(** ** The theorems *)

(** C18: Every condition has an answer: whatever the text, the table and the
    machine, evaluation comes to an end without a panic.  An answer that is not
    committed names no property, and the names reported as read outside a
    comparison with the empty text are among the undefined names. *)
Theorem evaluate_condition_answers `{Host} source p ex : exists ev, evaluate_inner source p ex = Some ev
  /\ (outcome ev = Outcome_Unsupported -> ev = unsupported)
  /\ incl (undefined_outside_empty_comparison ev) (undefined_properties ev).
Proof.
  destruct (evaluate_inner_answers source p ex) as [ev E]. exists ev. split; [done|]. revert E. unfold evaluate_inner.
  assert (Hu : forall ev, Some unsupported = Some ev -> (outcome ev = Outcome_Unsupported -> ev = unsupported)
    /\ incl (undefined_outside_empty_comparison ev) (undefined_properties ev)) by (intros ? [= <-]; split; [done|apply incl_refl]).
  destruct (is_empty _); [intros [= <-]; split; [done|apply incl_refl]|]. destruct (_ || _)%bool; [apply Hu|].
  destruct (tokenise source) as [[ts|]|]; [|apply Hu|done]. destruct (parse_condition ts) as [e l| |]; [|apply Hu|done].
  destruct (eval_bool p ex e) as [b log| |]; [|apply Hu|done]. intros [= <-]. cbn. split; [by destruct b|]. apply incl_filter.
Qed.

(** C17: A committed answer is certain.  The text is blank and the answer is true,
    or the text is a sentence of the grammar, and the answer is the truth value
    of its tree, for every choice of truth values for the comparisons, calls and
    coercions that were skipped or cannot be evaluated. *)
Theorem committed_condition_certain `{Host} source p ex ev b : evaluate_inner source p ex = Some ev ->
  outcome ev = (if (b : bool) then Outcome_True else Outcome_False) ->
  (is_empty (trim source) = true /\ b = true)
  \/ exists ts e, tokenise source = Some (Some ts) /\ g_or ts e /\ forall val, consistent p ex val -> meaning val e = b.
Proof.
  intros [Hu|[[Hs Ho]|(ts & e & b' & log & Ht & Hg & He & Ho)]]%evaluate_inner_cases Hb; rewrite Hb in *.
  - by destruct b.
  - left. by destruct b.
  - right. exists ts, e. split_and!; [done|done|]. intros val Hv. rewrite (eval_bool_meaning p ex val e b' log Hv He). by destruct b, b'.
Qed.

#[local] Instance quiet_host : Host := {| os := #"linux"; is_file := fun _ => false |}.

Lemma committed_condition_certain_witness :
  let source := #"'$(A)' == '1' Or Exists('x')" in
  let p := insert_xml PropertyMap_new (#"A") (#"0x01") in
  (is_empty (trim source) = true /\ true = true)
  \/ exists ts e, tokenise source = Some (Some ts) /\ g_or ts e /\ forall val, consistent p None val -> meaning val e = true.
Proof.
  intros source p.
  apply (committed_condition_certain source p None
    {| outcome := Outcome_True; undefined_properties := []; undefined_outside_empty_comparison := [] |} true); by vm_compute.
Defined.

(** Callbacks to the file system only add answers: a condition that is
    decided without them has the same answer, with the same undefined names, for
    every existence check. *)
Theorem condition_fs_refines `{Host} source p ex ev : evaluate_condition source p = Some ev -> outcome ev <> Outcome_Unsupported ->
  evaluate_with_exists source p ex = Some ev.
Proof. apply evaluate_inner_fs. Qed.

Lemma condition_fs_refines_witness :
  evaluate_with_exists (#"'$(A)' == '' Or Exists('$(A)/x')") PropertyMap_new (fun _ => false)
  = Some {| outcome := Outcome_True; undefined_properties := [ #"A" ]; undefined_outside_empty_comparison := [ #"A" ] |}.
Proof. apply condition_fs_refines; by vm_compute. Defined.
