(* ===== verification/ConditionReadsThm.v ===== *)
(** * Conditions: what an evaluation reads

    About [Condition]: the texts of the tokens are pieces of the condition, so
    that every property an evaluation looks up is one that [property_references]
    reports for the condition. *)

From stdpp Require Import gmap.
From S2P Require Import Prelude Escaping StrBytes Properties PropExpr PropScanThm PropExprThm Condition ConditionThm ConditionEvalThm.

(** ** Pieces of a text *)

Lemma trim_ascii_split s : exists w w', s = w ++ trim_ascii s ++ w' /\ forallb is_ascii_whitespace w = true /\ forallb is_ascii_whitespace w' = true.
Proof.
  destruct (drop_while_suffix is_ascii_whitespace s) as (w & E & Hw). set (t := drop_while is_ascii_whitespace s) in *.
  destruct (drop_while_suffix is_ascii_whitespace (rev t)) as (w' & E' & Hw'). exists w, (rev w'). split_and!; [|done|].
  - rewrite E at 1. f_equal. rewrite <- (rev_involutive t), E', rev_app_distr at 1. done.
  - rewrite forallb_forall in *. intros c Hc. by apply Hw', in_rev.
Qed.

Lemma within_trim_unquote s : within (trim_unquote s) s.
Proof.
  unfold trim_unquote. cbv zeta. destruct (unquote QUOTE (trim s)) as [t|] eqn:E; cbn [default]; [|apply within_trim].
  eapply within_trans; [eapply within_unquote, E|apply within_trim].
Qed.

Lemma balanced_close_split d q s n : balanced_close d q s = Some n -> exists rest, s = take n s ++ RPAREN :: rest.
Proof.
  revert d q n. induction s as [|c s IH]; intros d q n; cbn [balanced_close]; [done|].
  assert (Hn : forall d q, S <$> balanced_close d q s = Some n -> exists rest, c :: s = take n (c :: s) ++ RPAREN :: rest).
  { intros d' q' (m & E & ->)%fmap_Some. destruct (IH _ _ _ E) as [rest Er]. exists rest. cbn. by rewrite <- Er. }
  destruct q; [apply Hn|]. destruct (N.eqb c QUOTE); [apply Hn|]. destruct (N.eqb c LPAREN); [apply Hn|].
  destruct (N.eqb c RPAREN) eqn:Ec; [|apply Hn]. destruct d; [|apply Hn]. apply N.eqb_eq in Ec as ->. intros [= <-]. by exists s.
Qed.

Lemma strip_suffix_ci_some s suf t : strip_suffix_ignore_ascii_case s suf = Some t -> exists u, s = t ++ u /\ lower u = lower suf.
Proof.
  unfold strip_suffix_ignore_ascii_case. destruct (Nat.ltb _ _); [done|]. cbv zeta. destruct (eq_ignore_ascii_case _ _) eqn:E; [|done].
  intros [= <-]. eexists. rewrite take_drop. split; [done|]. by apply str_eqb_eq.
Qed.

Lemma within_strip_suffix_ci s suf t : strip_suffix_ignore_ascii_case s suf = Some t -> within t s.
Proof. intros (u & -> & _)%strip_suffix_ci_some. by exists [], u. Qed.

Lemma within_strip_prefix_ci s pre t : strip_prefix_ignore_ascii_case s pre = Some t -> within t s.
Proof. unfold strip_prefix_ignore_ascii_case. destruct (eq_ignore_ascii_case _ _); [|done]. intros [= <-]. apply within_drop. Qed.

Lemma within_version_function inner op a : parse_msbuild_version_function_call inner = Some (op, a) -> within a inner.
Proof.
  unfold parse_msbuild_version_function_call. destruct (find_version_function _ _) as [[o rest]|] eqn:E; [|done]. cbn [mbind option_bind].
  destruct (strip_prefix _ _ ≫= _) as [b|] eqn:Eb; [|done]. intros [= -> ->].
  apply bind_Some in Eb as (r & Er%within_strip_prefix & Eb%within_strip_suffix).
  assert (Hr : within rest inner).
  { clear -E. induction version_functions as [|[n x] fs IH]; [done|]. cbn in E. destruct (strip_prefix_ignore_ascii_case inner n) eqn:Es; [|auto].
    injection E as _ <-. by eapply within_strip_prefix_ci. }
  eapply within_trans; [exact Eb|]. eapply within_trans; [exact Er|]. eapply within_trans; [apply within_drop_while|exact Hr].
Qed.

Lemma within_version_part inner arg part : parse_system_version_part_token inner = Some (arg, part) -> within arg inner.
Proof.
  unfold parse_system_version_part_token. destruct (strip_prefix_ignore_ascii_case _ _) as [r1|] eqn:E1; [|done]. apply within_strip_prefix_ci in E1.
  cbn [mbind option_bind]. destruct (strip_prefix [LPAREN] _) as [r2|] eqn:E2; [|done]. apply within_strip_prefix in E2. cbn [mbind option_bind].
  set (m := match strip_suffix_ignore_ascii_case _ (#".Build") with Some _ => _ | None => _ end).
  assert (Hm : forall r p, m = Some (r, p) -> within r r2).
  { intros r p. unfold m. assert (Ht : within (trim_end_matches is_ascii_whitespace r2) r2) by apply within_trim_end.
    destruct (strip_suffix_ignore_ascii_case _ (#".Build")) as [x|] eqn:Ex; [intros [= <- _]; eapply within_trans; [eapply within_strip_suffix_ci, Ex|done]|].
    destruct (strip_suffix_ignore_ascii_case _ (#".Revision")) as [x'|] eqn:Ex'; [|done].
    intros [= <- _]; eapply within_trans; [eapply within_strip_suffix_ci, Ex'|done]. }
  destruct m as [[r3 q]|]; [|done]. cbn [mbind option_bind]. destruct (strip_suffix [RPAREN] _) as [r4|] eqn:E4; [|done].
  intros [= <- _]. apply within_strip_suffix in E4. eapply within_trans; [exact E4|]. eapply within_trans; [apply within_trim_end|].
  eapply within_trans; [by apply (Hm r3 q)|]. eapply within_trans; [exact E2|]. eapply within_trans; [apply within_drop_while|exact E1].
Qed.

Lemma within_function_args q d cur raw parts : split_function_args_from q d cur raw = Some parts -> Forall (fun a => within a (cur ++ raw)) parts.
Proof.
  revert q d cur parts. induction raw as [|c raw IH]; intros q d cur parts; cbn [split_function_args_from].
  { destruct (_ || _)%bool; [done|]. intros [= <-]. repeat constructor. rewrite app_nil_r. apply within_trim. }
  assert (Hn : forall q d, split_function_args_from q d (cur ++ [c]) raw = Some parts -> Forall (fun a => within a (cur ++ c :: raw)) parts).
  { intros q' d' E%IH. by rewrite <- app_assoc in E. }
  destruct q; [apply Hn|]. destruct (N.eqb c QUOTE); [apply Hn|]. destruct (N.eqb c LPAREN); [apply Hn|].
  destruct (N.eqb c RPAREN); [destruct d; [done|apply Hn]|]. destruct (_ && _)%bool; [|apply Hn].
  destruct (split_function_args_from _ _ _ _) as [l|] eqn:El; [|done]. intros [= <-]. constructor.
  - eapply within_trans; [apply within_trim|]. by exists [], (c :: raw).
  - eapply Forall_impl; [apply (IH _ _ _ _ El)|]. intros a Ha. eapply within_trans; [exact Ha|]. exists (cur ++ [c]), []. by rewrite app_nil_r, <- app_assoc.
Qed.

(** ** Two tables *)

(** The argument of [System.Version::Parse] may be [$(X.Split('-')[0])], whatever
    [X]: the evaluator takes all of [X] for the name, dots included, while
    [property_references] reports what is before the first of them. *)
Definition odd_name (source n : str) : Prop :=
  ~ plain_name n /\ exists arg, within arg source /\ split_dash_zero_property arg = Some n.

Section reads.
Context `{Host} (p1 p2 : PropertyMap) (ex : option (str -> bool)).
Context (Himplicit : forall n, n ∈ implicit_names -> get p1 n = get p2 n).
(** They agree on what is looked up in the text although it is not a name. *)
Context (whole : str) (Hodd : forall n, odd_name whole n -> get p1 n = get p2 n).

(** The tables agree on the names at the start of the interiors of a text. *)
Definition heads_agree (s : str) : Prop := forall i, inside i s -> head_name i <> [] -> get p1 (head_name i) = get p2 (head_name i).

Lemma heads_within a s : within a s -> heads_agree s -> heads_agree a.
Proof. intros Ha Hs i Hi. by apply Hs, (inside_within i a s). Qed.

Lemma heads_names s : heads_agree s -> names_agree p1 p2 s.
Proof. intros Hs i Hi Hne. rewrite <- (head_name_run i Hne). apply Hs; [done|]. by rewrite head_name_run. Qed.

Lemma app_last_inv {A} (a b : list A) x y suf : a ++ [x] = b ++ y :: suf -> suf = [] /\ a = b /\ x = y \/ exists t, suf = t ++ [x] /\ a = b ++ y :: t.
Proof.
  destruct suf as [|z suf _] using rev_ind.
  - intros [-> [= ->]]%app_inj_tail. auto.
  - rewrite app_comm_cons, app_assoc. intros [-> ->]%app_inj_tail. right. by exists suf.
Qed.

(** The blanks around an interior do not change the name it starts with. *)
Lemma heads_trimmed raw s : inside raw s -> heads_agree s -> heads_agree (OPEN ++ trim_ascii raw ++ [RPAREN]).
Proof.
  intros (pre & suf & ->) Hs. destruct (trim_ascii_split raw) as (w & w' & E & Hw & Hw'). set (t := trim_ascii raw) in *. rewrite E in Hs.
  intros i (a & b & Ei). destruct a as [|d a].
  - injection Ei as Ei. apply app_last_inv in Ei as [(-> & <- & _)|(b' & -> & Et)].
    + rewrite <- (head_name_blanks_after t w' Hw'), <- (head_name_blank w (t ++ w') Hw). apply Hs. by exists pre, suf.
    + rewrite <- (head_name_blank w i Hw). apply Hs. exists pre, (b' ++ w' ++ RPAREN :: suf). rewrite Et. by simplify_list_eq.
  - injection Ei as _ Ei. destruct a as [|d' a]; [done|]. injection Ei as _ Ei. change (t ++ [RPAREN] = a ++ OPEN ++ i ++ RPAREN :: b) in Ei.
    rewrite 2 app_assoc in Ei.
    apply app_last_inv in Ei as [(-> & Et & _)|(b' & -> & Et)].
    + rewrite <- (head_name_blanks_after i w' Hw'). apply Hs. exists (pre ++ OPEN ++ w ++ a), suf. rewrite Et. by simplify_list_eq.
    + apply Hs. exists (pre ++ OPEN ++ w ++ a), (b' ++ w' ++ RPAREN :: suf). rewrite Et. by simplify_list_eq.
Qed.

(** *** Tokens *)

Definition token_reads (t : Token) : Prop :=
  match t with
  | Token_String s | Token_Property s | Token_MsbuildVersionFunction s => heads_agree s
  | Token_SystemVersionPart s _ => heads_agree s /\ within s whole
  | _ => True
  end.

Lemma property_token_reads raw s : inside raw s -> within s whole -> heads_agree s -> token_reads (property_token raw).
Proof.
  intros Hraw Hwhole Hs. unfold property_token. cbv zeta.
  assert (Hpart : within (trim_ascii raw) s) by (eapply within_trans; [apply within_trim_matches|by apply inside_interior]).
  assert (Hin : heads_agree (trim_ascii raw)) by (by eapply heads_within).
  destruct (parse_msbuild_version_function_call _); [exact Hin|].
  destruct (parse_system_version_part_token _) as [[arg part]|] eqn:E.
  { apply within_version_part in E. split; [by eapply heads_within|]. eapply within_trans; [exact E|]. by eapply within_trans. }
  pose proof (heads_trimmed raw s Hraw Hs). by destruct (contains_char _ _ || _)%bool; [|destruct (str_eqb raw _)].
Qed.

Lemma match_keyword_reads w : token_reads (match_keyword w).
Proof. unfold match_keyword. cbv zeta. by repeat destruct (eq_ignore_ascii_case _ _). Qed.

Lemma open_at source i : source !! i = Some DOLLAR -> char_is source (i + 1) LPAREN = true -> source = take i source ++ OPEN ++ drop (i + 2) source.
Proof.
  intros Hi. rewrite char_is_spec. destruct (drop (i + 1) source) as [|c t] eqn:Ed; [done|]. cbn. intros ->%N.eqb_eq.
  rewrite <- (take_drop i source) at 1. f_equal. rewrite (drop_lookup source i DOLLAR Hi), Ed. cbn. do 2 f_equal.
  replace (i + 2) with (i + 1 + 1) by lia. by rewrite <- drop_drop, Ed.
Qed.

Lemma tokenise_step_reads source st : within source whole -> heads_agree source -> Forall token_reads st.2 ->
  match tokenise_step source st with inl st' => Forall token_reads st'.2 | inr _ => True end.
Proof.
  intros Hwhole Hs. destruct st as [i tokens]. cbn [snd]. intros Ht. unfold tokenise_step. destruct (source !! i) as [b|] eqn:Eb; [|done]. cbv zeta.
  assert (Hpush : forall t n, token_reads t -> Forall token_reads ((n, tokens ++ [t]) : nat * list Token).2)
    by (intros t n Hok; cbn; apply Forall_app; by repeat constructor).
  repeat match goal with |- match (if ?c then _ else _) with _ => _ end => destruct c eqn:?; [solve [done|by apply Hpush]|] end.
  destruct (N.eqb b QUOTE).
  { destruct (Nat.eqb _ _); [done|]. apply Hpush. by eapply heads_within; [apply within_between|]. }
  destruct (N.eqb b DOLLAR && _)%bool eqn:Ed.
  { apply andb_prop in Ed as [->%N.eqb_eq Ed]. destruct (find_balanced_property_expression_close _) as [close|] eqn:Ec; apply Hpush; [|done].
    apply balanced_close_split in Ec as [rest Er]. apply (property_token_reads _ source); [|done..]. exists (take i source), rest.
    rewrite <- Er. by apply open_at. }
  destruct (_ || _)%bool; [by apply Hpush|]. destruct (is_ident_start b); [apply Hpush, match_keyword_reads|].
  cbn. apply Forall_app. split; [done|]. by apply Forall_replicate.
Qed.

Lemma tokenise_reads source ts : within source whole -> heads_agree source -> tokenise source = Some (Some ts) -> Forall token_reads ts.
Proof.
  intros Hwhole Hs Hts. destruct (while_st_ind (length source) fst (tokenise_step source) (fun st => Some st.2) (tokenise_advances source)
    (fun st => Forall token_reads st.2) (fun r => forall ts, r = Some ts -> Forall token_reads ts) (0, [])) as (r & E & Hr).
  - intros st st' _ Hst Est. pose proof (tokenise_step_reads source st Hwhole Hs Hst) as Hn. by rewrite Est in Hn.
  - intros st r _ _ Est ts' ->. unfold tokenise_step in Est. destruct st as [i tokens]. destruct (source !! i); [|done]. cbv zeta in Est.
    repeat match type of Est with
    | (if ?c then _ else _) = _ => destruct c; try discriminate Est
    | match ?o with Some _ => _ | None => _ end = _ => destruct o; try discriminate Est
    end.
  - intros st _ Hst ts' [= <-]. done.
  - constructor.
  - apply Hr. unfold tokenise in Hts. rewrite E in Hts. by injection Hts.
Qed.

(** *** Expressions *)

Definition scalar_reads (s : ScalarExpr) : Prop :=
  match s with
  | Scalar_String r | Scalar_Property r => heads_agree r
  | Scalar_SystemVersionPart r _ => heads_agree r /\ within r whole
  | Scalar_Bare _ => True
  end.

Fixpoint expr_reads (e : BoolExpr) : Prop :=
  match e with
  | BTrue | BFalse => True
  | BNot e => expr_reads e
  | BAnd a b | BOr a b => expr_reads a /\ expr_reads b
  | BExists r | BHasTrailingSlash r | BMsbuildVersionFunction r => heads_agree r
  | BCoerceBool s => scalar_reads s
  | BCompare _ l r => scalar_reads l /\ scalar_reads r
  end.

Lemma scalar_of_reads t s : token_reads t -> scalar_of t = Some s -> scalar_reads s.
Proof. by destruct t; intros Ht [= <-]. Qed.

Lemma argument_reads t raw : token_reads t -> argument t raw -> heads_agree raw.
Proof. by destruct 2. Qed.

Lemma grammar_reads :
  (forall ts e, g_or ts e -> Forall token_reads ts -> expr_reads e)
  /\ (forall ts e, g_and ts e -> Forall token_reads ts -> expr_reads e)
  /\ (forall ts e, g_primary ts e -> Forall token_reads ts -> expr_reads e)
  /\ (forall ts e, g_factor ts e -> Forall token_reads ts -> expr_reads e).
Proof.
  apply grammar_ind; intros; decompose_Forall; cbn; eauto using scalar_of_reads, argument_reads.
Qed.

(** *** Evaluation *)

Lemma expand_for_condition_reads raw fs : heads_agree raw -> expand_for_condition p1 raw fs = expand_for_condition p2 raw fs.
Proof.
  intros Hr%heads_names. unfold expand_for_condition, substitute, substitute_with_fs. by rewrite !(substitute_impl_reads p1 p2) by done.
Qed.

Lemma expand_operand_reads raw : heads_agree raw -> expand_operand p1 ex raw = expand_operand p2 ex raw.
Proof. intros Hr. unfold expand_operand. by rewrite expand_for_condition_reads. Qed.

Lemma expand_trimmed_reads raw : heads_agree raw -> expand_operand p1 ex (trim_unquote raw) = expand_operand p2 ex (trim_unquote raw).
Proof. intros Hr. apply expand_operand_reads. by eapply heads_within; [apply within_trim_unquote|]. Qed.

Lemma lower_dot u : lower u = lower (#".Split('-')[0]") -> exists u', u = #c"." :: u'.
Proof.
  destruct u as [|c u]; [done|]. intros [= Hc _]. exists u. f_equal. unfold to_ascii_lowercase in Hc. destruct (is_ascii_upper c) eqn:E; [|done].
  unfold is_ascii_upper in E. apply andb_prop in E as [E _]. apply N.leb_le in E. change (c + 32 = 46)%N in Hc. lia.
Qed.

Lemma split_dash_zero_reads raw name : heads_agree raw -> within raw whole -> split_dash_zero_property raw = Some name -> get p1 name = get p2 name.
Proof.
  intros Hr Hwhole Hname. destruct (decide (plain_name name)) as [[Hne Hn]|Hn]; [|apply Hodd; split; [done|by exists raw]].
  unfold split_dash_zero_property in Hname. destruct (strip_prefix _ _ ≫= _) as [inner|] eqn:E; [|done]. cbn [mbind option_bind] in Hname.
  apply bind_Some in E as (r & Er%strip_prefix_some & ->%strip_suffix_some).
  apply strip_suffix_ci_some in Hname as (u & -> & [u' ->]%lower_dot).
  assert (Hh : head_name (name ++ (#c".") :: u') = name).
  { rewrite head_name_cut by done. rewrite <- (name_run_names name Hn) at 2. apply head_name_run. by rewrite name_run_names. }
  rewrite <- Hh. apply Hr; [|by rewrite Hh]. apply (inside_within _ (trim_unquote raw)); [|apply within_trim_unquote].
  exists [], []. by rewrite Er.
Qed.

Lemma expand_scalar_reads s : scalar_reads s -> expand_scalar_for_condition p1 ex s = expand_scalar_for_condition p2 ex s.
Proof.
  destruct s; cbn [scalar_reads expand_scalar_for_condition]; intros Hr; [by apply expand_operand_reads|done| |by apply expand_operand_reads].
  apply run_bind_ext; [|done]. unfold expand_system_version_parse_arg. destruct (split_dash_zero_property arg) as [n|] eqn:E.
  - destruct Hr. by rewrite (split_dash_zero_reads arg n).
  - by apply expand_trimmed_reads, Hr.
Qed.

Lemma version_function_reads inner : heads_agree inner -> eval_msbuild_version_function p1 ex inner = eval_msbuild_version_function p2 ex inner.
Proof.
  intros Hr. unfold eval_msbuild_version_function, expand_function_arg_for_condition.
  destruct (parse_msbuild_version_function_call inner) as [[op a]|] eqn:E; [|done]. apply within_version_function in E.
  apply run_bind_ext; [done|]. intros [op' a'] log [= <- <- _]. destruct (split_function_args a) as [l|] eqn:El; [|done].
  assert (Hl : Forall heads_agree l).
  { eapply Forall_impl; [by apply (within_function_args false 0 [] a l)|]. intros x Hx. apply (heads_within x inner); [|exact Hr]. exact (within_trans _ _ _ Hx E). }
  apply run_bind_ext; [done|]. intros l' log' [= <- _]. destruct l as [|x [|y [|]]]; [done|done| |done]. decompose_Forall.
  apply run_bind_ext; [by apply expand_trimmed_reads|]. intros v _ _. apply run_bind_ext; [by apply expand_trimmed_reads|done].
Qed.

Lemma eval_bool_reads e : expr_reads e -> eval_bool p1 ex e = eval_bool p2 ex e.
Proof.
  induction e as [| |e IH|a IHa b IHb|a IHa b IHb| | | | |op l r]; cbn [expr_reads eval_bool]; [done|done|by intros ->%IH|..].
  1,2: intros [->%IHa Hb]; apply run_bind_ext; [done|]; intros [] _ _; auto.
  - intros Hr. destruct ex as [f|]; [|done]. by rewrite expand_for_condition_reads.
  - intros Hr. by rewrite expand_for_condition_reads.
  - apply version_function_reads.
  - intros Hr. by rewrite expand_scalar_reads.
  - intros [Hl Hr]. rewrite (expand_scalar_reads l Hl). apply run_bind_ext; [done|]. intros v _ _. by rewrite (expand_scalar_reads r Hr).
Qed.

Lemma evaluate_inner_reads source : within source whole -> heads_agree source -> evaluate_inner source p1 ex = evaluate_inner source p2 ex.
Proof.
  intros Hwhole Hs. unfold evaluate_inner. destruct (is_empty _); [done|]. destruct (_ || _)%bool; [done|].
  destruct (tokenise source) as [[ts|]|] eqn:Et; [|done..]. destruct (parse_condition ts) as [e l| |] eqn:Ep; [|done..].
  rewrite eval_bool_reads; [done|]. apply (proj1 grammar_reads ts); [by eapply parse_condition_sound|by eapply tokenise_reads].
Qed.
End reads.

(** The case of letters does not make a name. *)
Lemma plain_name_lower n : plain_name (lower n) -> plain_name n.
Proof.
  intros [Hne Hn]. split; [by intros ->|]. rewrite forallb_forall in *. intros c Hc. specialize (Hn _ (in_map to_ascii_lowercase n c Hc)).
  unfold to_ascii_lowercase in Hn. destruct (is_ascii_upper c) eqn:E; [|done]. unfold is_name_byte, is_ascii_alphanumeric, is_ascii_alphabetic. by rewrite E.
Qed.

(** C15: What the evaluation of a condition reads.  Two tables that agree on the
    names [property_references] reports for a condition, on the two reserved names
    that functions read without naming them ([implicit_names]), and on what is
    between [$(] and [.Split('-')[0])] in the argument of a [System.Version::Parse]
    where that is no name ([odd_name]), give the condition the same answer and the
    same undefined names. *)
Theorem condition_reads_references `{Host} p1 p2 source ex :
  (forall n, n ∈ property_references source ++ implicit_names -> get p1 n = get p2 n) ->
  (forall n, odd_name source n -> get p1 n = get p2 n) ->
  evaluate_inner source p1 ex = evaluate_inner source p2 ex.
Proof.
  intros Hn Hodd. apply (evaluate_inner_reads p1 p2 ex) with (whole := source); [intros n Hi; apply Hn, elem_of_app; by right|done|..].
  - by exists [], []; rewrite app_nil_r.
  - intros i Hi Hne. apply Hn, elem_of_app. left. by apply property_references_complete.
Qed.

Lemma condition_reads_references_witness :
  let host := {| os := #"linux"; is_file := fun _ => false |} in
  let p1 := insert_xml PropertyMap_new (#"V") (#"1.2.3-beta") in
  let p2 := insert_xml p1 (#"Other") (#"x") in
  let source := #"$([System.Version]::Parse('$(V.Split('-')[0])').Build) == 3 And $( V.Contains('-') )" in
  evaluate_inner source p1 None = evaluate_inner source p2 None
  /\ outcome <$> evaluate_inner source p1 None = Some Outcome_True.
Proof.
  intros host p1 p2 source. split; [|by vm_compute]. apply condition_reads_references.
  - apply Forall_forall. repeat constructor.
  - intros n [Hn _]. unfold get, p2, insert_xml. f_equal. symmetry. apply lookup_insert_ne. intros E. apply Hn, plain_name_lower. by rewrite <- E.
Defined.

(** The last condition is needed: [A.B] is read, and [A] is reported. *)
Example odd_names_needed :
  let host := {| os := #"linux"; is_file := fun _ => false |} in
  let source := #"$([System.Version]::Parse('$(A.B.Split('-')[0])').Build) == 3" in
  property_references source = [ #"A" ]
  /\ evaluate_inner source (insert_xml PropertyMap_new (#"A.B") (#"1.2.3-x")) None <> evaluate_inner source PropertyMap_new None.
Proof. split; [by vm_compute|]. by vm_compute. Qed.
