(* ===== verification/ConditionNumThm.v ===== *)
(** * Conditions: comparisons

    About [Condition]: the comparisons of operands, on numbers in the format of
    IEEE 754, on versions, and on texts, are consistent with each other. *)

From Stdlib Require Import SpecFloat.
From S2P Require Import Prelude Order Escaping StrBytes Properties PropExpr Condition.

(** ** Comparing numbers *)

Lemma SFcompare_flip x y : SFcompare y x = CompOpp <$> SFcompare x y.
Proof.
  assert (Hm : forall m1 m2, Pos.compare_cont Eq m2 m1 = CompOpp (Pos.compare_cont Eq m1 m2))
    by (intros m1 m2; apply (Pos.compare_antisym m1 m2)).
  destruct x as [[]|[]| |[] m e], y as [[]|[]| |[] m' e']; try done; cbn; rewrite (Z.compare_antisym e e'), Hm; by destruct (Z.compare e e').
Qed.

Lemma SFcompare_number x y : x <> S754_nan -> y <> S754_nan -> is_Some (SFcompare x y).
Proof. by destruct x, y. Qed.

Lemma SFcompare_refl x : x <> S754_nan -> SFcompare x x = Some Eq.
Proof.
  destruct x as [s|s| |s m e]; try done; intros _; cbn; [by destruct s|]. rewrite Z.compare_refl.
  assert (Hm : Pos.compare_cont Eq m m = Eq) by apply Pos.compare_refl. rewrite Hm. by destruct s.
Qed.

(** ** Rounding gives a number *)

Lemma shr_1_nonneg r : (0 <= shr_m r -> 0 <= shr_m (shr_1 r))%Z.
Proof. destruct r as [m b s]. destruct m as [|[]|[]]; cbn; lia. Qed.

Lemma iter_pos_nonneg p r : (0 <= shr_m r -> 0 <= shr_m (SpecFloat.iter_pos shr_1 p r))%Z.
Proof. revert r. induction p as [p IH|p IH|]; intros r Hr; cbn; auto using shr_1_nonneg. Qed.

Lemma shr_fexp_nonneg m e l : (0 <= m -> 0 <= shr_m (fst (shr_fexp 53 1024 m e l)))%Z.
Proof.
  intros Hm. unfold shr_fexp. assert (H0 : (0 <= shr_m (shr_record_of_loc m l))%Z) by (destruct l as [|[]]; exact Hm).
  unfold shr. destruct (_ - e)%Z; [done|by apply iter_pos_nonneg|done].
Qed.

Lemma round_even_nonneg m l : (0 <= m -> 0 <= round_nearest_even m l)%Z.
Proof. destruct l as [|[]]; cbn; [done|destruct (Z.even m)|..]; lia. Qed.

Lemma binary_round_aux_number s m e l : (0 <= m)%Z -> binary_round_aux 53 1024 s m e l <> S754_nan.
Proof.
  intros Hm. unfold binary_round_aux. pose proof (shr_fexp_nonneg m e l Hm) as H1. destruct (shr_fexp 53 1024 m e l) as [r1 e1].
  pose proof (shr_fexp_nonneg _ e1 loc_Exact (round_even_nonneg _ (loc_of_shr_record r1) H1)) as H2.
  destruct (shr_fexp _ _ (round_nearest_even _ _) e1 loc_Exact) as [r2 e2]. cbn in H2. destruct (shr_m r2); [done|by destruct (Z.leb _ _)|lia].
Qed.

Lemma f64_of_Z_number z : f64_of_Z z <> S754_nan.
Proof.
  unfold f64_of_Z, binary_normalize, binary_round. destruct z; [done|..]; destruct (shl_align _ _ _); apply binary_round_aux_number; lia.
Qed.

Lemma parse_msbuild_number_number v x : parse_msbuild_number v = Some x -> x <> S754_nan.
Proof.
  unfold parse_msbuild_number. destruct (strip_prefix_ignore_ascii_case _ _) as [hex|].
  - destruct (_ || _)%bool; [done|]. destruct (N.ltb _ _); [|done]. intros [= <-]. apply f64_of_Z_number.
  - cbv zeta. destruct (negb _); [done|]. destruct (_ || _)%bool; [done|]. destruct (is_finite _) eqn:E; [|done]. intros [= <-] En. by rewrite En in E.
Qed.

Lemma parse_msbuild_number_nonempty : parse_msbuild_number [] = None.
Proof. done. Qed.

(** ** The theorem *)

Definition is_eq (o : comparison) : bool := match o with Eq => true | _ => false end.

(** The comparisons of a condition are consistent.  Exchanging the operands
    reverses the order of a relational comparison, and leaves a comparison for
    equality as it is, decided or not; two numbers are always comparable, and
    [==] holds for them exactly when neither is below the other. *)
Theorem comparisons_consistent a b :
  compare_relational_values b a = CompOpp <$> compare_relational_values a b
  /\ compare_equality_values b a = compare_equality_values a b
  /\ forall x y, parse_msbuild_number a = Some x -> parse_msbuild_number b = Some y ->
     exists o, compare_relational_values a b = Some o /\ compare_equality_values a b = Some (is_eq o).
Proof.
  split_and!.
  - unfold compare_relational_values. destruct (parse_msbuild_number a) as [x|], (parse_msbuild_number b) as [y|]; [apply SFcompare_flip|..];
      destruct (parse_system_version a) as [v|], (parse_system_version b) as [w|]; cbn; try done; by rewrite ?CompOpp_involutive, ?(cmp_opp (list_cmp Z.compare) v w).
  - unfold compare_equality_values. rewrite (str_eqb_sym b a). destruct (str_eqb a b); [done|]. rewrite (orb_comm (is_empty b)), (andb_comm (is_ascii b)).
    destruct (_ || _)%bool; [done|]. rewrite (eq_ignore_ascii_case_sym b a).
    destruct (parse_msbuild_number a) as [x|], (parse_msbuild_number b) as [y|];
      [unfold SFeqb; rewrite (SFcompare_flip x y); by destruct (SFcompare x y) as [[]|]|..];
      destruct (parse_msbuild_bool a) as [u|], (parse_msbuild_bool b) as [w|]; try done; by destruct u, w.
  - intros x y Ea Eb. unfold compare_relational_values, compare_equality_values. rewrite Ea, Eb.
    pose proof (parse_msbuild_number_number _ _ Ea) as Hx. pose proof (parse_msbuild_number_number _ _ Eb) as Hy.
    destruct (SFcompare_number x y Hx Hy) as [o Ho]. exists o. split; [done|]. destruct (str_eqb a b) eqn:E.
    + apply str_eqb_eq in E as ->. rewrite Ea in Eb. injection Eb as ->. rewrite SFcompare_refl in Ho by done. by injection Ho as <-.
    + destruct a as [|ca a]; [by rewrite parse_msbuild_number_nonempty in Ea|]. destruct b as [|cb b]; [by rewrite parse_msbuild_number_nonempty in Eb|].
      cbn [is_empty orb]. unfold SFeqb. rewrite Ho. by destruct o.
Qed.

Lemma comparisons_consistent_witness :
  compare_relational_values (#"0x10") (#"+16.0") = Some Eq /\ compare_equality_values (#"0x10") (#"+16.0") = Some true.
Proof.
  destruct (comparisons_consistent (#"0x10") (#"+16.0")) as (_ & _ & H).
  destruct (H (f64_of_Z 16) (f64_of_Z 16)) as (o & Ho & He); [by vm_compute|by vm_compute|].
  assert (o = Eq) as -> by (vm_compute in Ho; by injection Ho as <-). split; [exact Ho|exact He].
Defined.
