(* ===== verification/ConditionRenderThm.v ===== *)
(** * Conditions: from the text to the answer

    About [Condition]: a condition written out from a tree of comparisons and
    connectives, with any blanks between its tokens, is tokenised, parsed and
    evaluated to the truth value of the tree.  Here the comparisons are those of
    the evaluator, on the texts; [ConditionValueThm] says what they mean on the
    values that the texts stand for. *)

From S2P Require Import Prelude Order Escaping StrBytes Properties PropExpr PropScanThm PropExprThm Condition ConditionThm ConditionEvalThm ConditionNumThm.

(** ** Trees and their texts *)

Inductive Ast :=
| BoolLit (b : bool)
| Cmp (op : CompareOp) (lhs rhs : str)
| Not (a : Ast)
| And (a b : Ast)
| Or (a b : Ast).

Definition op_text (op : CompareOp) : str :=
  match op with
  | CompareOp_Eq => #"==" | CompareOp_Neq => #"!=" | CompareOp_Lt => #"<" | CompareOp_Lte => #"<=" | CompareOp_Gt => #">" | CompareOp_Gte => #">="
  end.

(** Every connective is in parentheses; [sp] is written between the tokens. *)
Fixpoint render_ast (sp : str) (a : Ast) : str :=
  match a with
  | BoolLit b => if b then #"true" else #"false"
  | Cmp op l r => [QUOTE] ++ l ++ [QUOTE] ++ sp ++ op_text op ++ sp ++ [QUOTE] ++ r ++ [QUOTE]
  | Not a => #"!(" ++ render_ast sp a ++ #")"
  | And a b => #"(" ++ render_ast sp a ++ sp ++ #"And" ++ sp ++ render_ast sp b ++ #")"
  | Or a b => #"(" ++ render_ast sp a ++ sp ++ #"Or" ++ sp ++ render_ast sp b ++ #")"
  end.

(** The comparison of two texts: empty texts, numbers, booleans, and then texts
    up to the case of letters; an order needs numbers or versions. *)
Definition reference_equality (l r : str) : bool :=
  if (is_empty l || is_empty r)%bool then (is_empty l && is_empty r)%bool
  else
    match parse_msbuild_number l, parse_msbuild_number r with
    | Some x, Some y => SpecFloat.SFeqb x y
    | _, _ =>
        match parse_msbuild_bool l, parse_msbuild_bool r with
        | Some x, Some y => Bool.eqb x y
        | _, _ => eq_ignore_ascii_case l r
        end
    end.

Definition reference_comparison (op : CompareOp) (l r : str) : option bool :=
  match op with
  | CompareOp_Eq => Some (reference_equality l r)
  | CompareOp_Neq => Some (negb (reference_equality l r))
  | _ => holds op <$> compare_relational_values l r
  end.

(** Connectives decide from the left, and an operand that is not reached cannot
    make the answer unknown. *)
Fixpoint truth (a : Ast) : option bool :=
  match a with
  | BoolLit b => Some b
  | Cmp op l r => reference_comparison op l r
  | Not a => negb <$> truth a
  | And a b => x ← truth a; if (x : bool) then truth b else Some false
  | Or a b => x ← truth a; if (x : bool) then Some true else truth b
  end.

(** The characters that a text between quotes may have here: ASCII without
    quotes, and without what starts an escape, an item or a property. *)
Definition safe_char (c : char) : bool := (N.ltb c 128 && negb (contains_char c [QUOTE; DOLLAR; #c"%"; #c"@"]))%bool.
Definition safe (s : str) : Prop := Forall (fun c => safe_char c = true) s.
Fixpoint safe_ast (a : Ast) : Prop :=
  match a with
  | BoolLit _ => True
  | Cmp _ l r => safe l /\ safe r
  | Not a => safe_ast a
  | And a b | Or a b => safe_ast a /\ safe_ast b
  end.
Definition blank (s : str) : Prop := Forall (fun c => is_ascii_whitespace c = true) s.

(** ** Tokens of a text *)

Definition op_token (op : CompareOp) : Token :=
  match op with
  | CompareOp_Eq => Token_Eq | CompareOp_Neq => Token_Neq | CompareOp_Lt => Token_Lt | CompareOp_Lte => Token_Lte
  | CompareOp_Gt => Token_Gt | CompareOp_Gte => Token_Gte
  end.

Fixpoint tokens_of (a : Ast) : list Token :=
  match a with
  | BoolLit b => [if b then Token_True else Token_False]
  | Cmp op l r => [Token_String l; op_token op; Token_String r]
  | Not a => [Token_Bang; Token_LParen] ++ tokens_of a ++ [Token_RParen]
  | And a b => [Token_LParen] ++ (tokens_of a ++ Token_And :: tokens_of b) ++ [Token_RParen]
  | Or a b => [Token_LParen] ++ (tokens_of a ++ Token_Or :: tokens_of b) ++ [Token_RParen]
  end.

Definition tokenise_from (source : str) (i : nat) (acc : list Token) : option (option (list Token)) :=
  while_st (length source) fst (tokenise_step source) (fun st => Some st.2) (i, acc).

(** What may follow a word. *)
Definition boundary (post : str) : Prop := match post with c :: _ => is_ident_continue c = false | [] => True end.

(** Wherever the text stands, if [ok] holds for what follows it, these are its
    tokens. *)
Definition lexes (ok : str -> Prop) (s : str) (ts : list Token) : Prop :=
  forall pre post acc, ok post ->
  tokenise_from (pre ++ s ++ post) (length pre) acc = tokenise_from (pre ++ s ++ post) (length (pre ++ s)) (acc ++ ts).

Lemma lexes_nil ok : lexes ok [] [].
Proof. intros pre post acc _. by rewrite !app_nil_r. Qed.

Lemma lexes_app ok ok' s s' ts ts' : lexes ok s ts -> lexes ok' s' ts' -> (forall post, ok' post -> ok (s' ++ post)) ->
  lexes ok' (s ++ s') (ts ++ ts').
Proof.
  intros H H' Hok pre post acc Hp. rewrite <- app_assoc. rewrite (H pre (s' ++ post) acc) by auto.
  rewrite (app_assoc pre s), (H' (pre ++ s) post (acc ++ ts) Hp). by rewrite <- !app_assoc.
Qed.

Lemma lexes_weaken (ok ok' : str -> Prop) s ts : (forall post, ok' post -> ok post) -> lexes ok s ts -> lexes ok' s ts.
Proof. intros Hok H pre post acc Hp. by apply H, Hok. Qed.

Definition anything (post : str) : Prop := True.

(** One turn of the loop. *)
Lemma lexes_turn ok (s : str) ts : s <> [] ->
  (forall pre post acc, ok post -> tokenise_step (pre ++ s ++ post) (length pre, acc) = inl (length (pre ++ s), acc ++ ts)) -> lexes ok s ts.
Proof.
  intros Hne H pre post acc Hp. unfold tokenise_from at 1. rewrite while_st_unfold by apply tokenise_advances. cbn [fst].
  rewrite (proj2 (Nat.ltb_lt _ _)) by (rewrite !length_app; destruct s; [done|cbn; lia]). by rewrite H.
Qed.

(** Look at the characters from the position on. *)
Ltac look := cbn [app]; unfold tokenise_step; rewrite ?lookup_pre, ?char_is_spec, ?drop_pre; cbv zeta.

Lemma lexes_blank sp : blank sp -> lexes anything sp [].
Proof.
  induction 1 as [|c sp Hc _ IH]; [apply lexes_nil|].
  apply (lexes_app anything anything [c] sp [] []); [|exact IH|done]. apply lexes_turn; [done|]. intros pre post acc _. look. rewrite Hc, app_nil_r.
  by rewrite length_app.
Qed.

(** The characters of a given text, and the turn of the loop on it. *)
Ltac spell := match goal with |- lexes _ ?s _ => let s' := eval vm_compute in s in change s with s' end.
Ltac decided b := let v := eval vm_compute in b in lazymatch v with true => change b with true | false => change b with false end.
Ltac decide_chars := repeat match goal with
  | |- context [N.eqb ?a ?b] => decided (N.eqb a b)
  | |- context [is_ascii_whitespace ?a] => decided (is_ascii_whitespace a)
  | |- context [is_ascii_digit ?a] => decided (is_ascii_digit a)
  | |- context [is_ident_start ?a] => decided (is_ident_start a)
  | |- context [is_ident_continue ?a] => decided (is_ident_continue a)
  end.
Ltac lexes_symbol := spell; apply lexes_turn; [done|]; intros pre post acc Hp; look;
  match goal with |- _ = inl (length (_ ++ ?s), _) => rewrite (length_app pre s) end; cbn [andb drop]; decide_chars; cbn [andb orb];
  rewrite ?drop_0.

Lemma lexes_lparen : lexes anything (#"(") [Token_LParen].
Proof. by lexes_symbol. Qed.
Lemma lexes_rparen : lexes anything (#")") [Token_RParen].
Proof. by lexes_symbol. Qed.

Definition not_equals (post : str) : Prop := starts_with_char (#c"=") post = false.

Lemma lexes_bang : lexes not_equals (#"!") [Token_Bang].
Proof. lexes_symbol. by rewrite Hp. Qed.

Lemma lexes_op op : lexes not_equals (op_text op) [op_token op].
Proof. destruct op; lexes_symbol; cbn [starts_with_char]; decide_chars; by rewrite ?Hp. Qed.

Lemma take_while_stops q s c post : forallb q s = true -> q c = false -> take_while q (s ++ c :: post) = s.
Proof. intros Hs Hc. rewrite take_while_stop by done. induction s as [|x s IH]; [done|]. cbn in *. apply andb_prop in Hs as [-> Hs]. by rewrite IH. Qed.

Lemma lexes_string s : safe s -> lexes anything ([QUOTE] ++ s ++ [QUOTE]) [Token_String s].
Proof.
  intros Hs. apply lexes_turn; [done|]. intros pre post acc _. look. cbn.
  assert (Hq : forallb (fun c => negb (N.eqb c QUOTE)) s = true).
  { apply forallb_Forall. eapply Forall_impl; [exact Hs|]. intros c Hc. unfold safe_char in Hc. apply andb_prop in Hc as [_ Hc].
    destruct (N.eqb c QUOTE) eqn:E; [|done]. by apply N.eqb_eq in E as ->. }
  rewrite drop_0, <- app_assoc. cbn [app]. rewrite (take_while_stops _ s QUOTE post Hq) by done.
  destruct (Nat.eqb_spec (length pre + 1 + length s) (length (pre ++ QUOTE :: s ++ QUOTE :: post))) as [E|_].
  { rewrite !length_app in E. cbn in E. rewrite length_app in E. cbn in E. lia. }
  f_equal. f_equal; [rewrite !length_app; cbn; rewrite length_app; cbn; lia|]. do 2 f_equal. unfold between. f_equal.
  rewrite drop_pre. cbn. rewrite drop_0. replace (length pre + 1 + length s - (length pre + 1)) with (length s) by lia. apply take_app_length.
Qed.

Lemma boundary_run post : boundary post -> take_while is_ident_continue post = [].
Proof. destruct post as [|c post]; [done|]. cbn. by intros ->. Qed.

Lemma lexes_words : Forall (fun w => lexes boundary w [match_keyword w]) [ #"true"; #"false"; #"And"; #"Or" ].
Proof.
  repeat (apply List.Forall_cons; [lexes_symbol; unfold between; rewrite drop_app_length; cbn [take_while]; decide_chars; cbn iota;
    rewrite (boundary_run post Hp), Nat.add_comm, Nat.add_sub; done|]). apply List.Forall_nil.
Qed.

Lemma lexes_bool (b : bool) : lexes boundary (if b then #"true" else #"false") [if b then Token_True else Token_False].
Proof. pose proof lexes_words as Hw. decompose_Forall. by destruct b. Qed.

Lemma lexes_and : lexes boundary (#"And") [Token_And].
Proof. pose proof lexes_words as Hw. by decompose_Forall. Qed.

Lemma lexes_or : lexes boundary (#"Or") [Token_Or].
Proof. pose proof lexes_words as Hw. by decompose_Forall. Qed.

(** ** The tokens of a tree *)

Section render.
Context (sp : str) (Hsp : blank sp) (Hne : sp <> []).

Lemma blank_head (q : str -> Prop) post : (forall c t, is_ascii_whitespace c = true -> q (c :: t)) -> q (sp ++ post).
Proof using Hsp Hne. intros Hq. destruct Hsp as [|c t Hc _]; [done|]. by apply Hq. Qed.

Lemma blank_boundary post : boundary (sp ++ post).
Proof using Hsp Hne.
  apply blank_head. intros c t Hc. cbn. unfold is_ascii_whitespace in Hc. rewrite !orb_true_iff, !N.eqb_eq in Hc. by destruct Hc as [[[[->| ->]| ->]| ->]| ->].
Qed.

Lemma blank_not_equals post : not_equals (sp ++ post).
Proof using Hsp Hne.
  apply blank_head. intros c t Hc. unfold is_ascii_whitespace in Hc. rewrite !orb_true_iff, !N.eqb_eq in Hc. by destruct Hc as [[[[->| ->]| ->]| ->]| ->].
Qed.

(** A word or an operator between blanks. *)
Lemma lexes_spaced ok w t : (forall post, ok (sp ++ post)) -> lexes ok w [t] -> lexes anything (sp ++ w ++ sp) [t].
Proof using Hsp.
  intros Hok Hw. apply (lexes_app anything anything sp _ [] [t]); [by apply lexes_blank| |done].
  apply (lexes_app ok anything w sp [t] []); [done|by apply lexes_blank|]. intros post _. apply Hok.
Qed.

Lemma lexes_connective w t a b ta tb : lexes boundary w [t] -> lexes boundary a ta -> lexes boundary b tb ->
  lexes anything (#"(" ++ a ++ sp ++ w ++ sp ++ b ++ #")") ([Token_LParen] ++ (ta ++ t :: tb) ++ [Token_RParen]).
Proof using Hsp Hne.
  intros Hw Ha Hb. apply (lexes_app anything); [apply lexes_lparen| |done]. rewrite <- (app_assoc ta (t :: tb)).
  apply (lexes_app boundary); [exact Ha| |intros post _; rewrite <- !app_assoc; apply blank_boundary].
  replace (sp ++ w ++ sp ++ b ++ #")") with ((sp ++ w ++ sp) ++ b ++ #")") by (by rewrite <- !app_assoc).
  apply (lexes_app anything anything _ _ [t]); [by apply (lexes_spaced boundary), Hw; apply blank_boundary| |done].
  by apply (lexes_app boundary); [exact Hb|apply lexes_rparen|].
Qed.

Lemma lexes_render a : safe_ast a -> lexes boundary (render_ast sp a) (tokens_of a).
Proof using Hsp Hne.
  assert (Hw : forall s ts, lexes anything s ts -> lexes boundary s ts) by (intros s ts; by apply lexes_weaken).
  induction a as [b|op l r|a IH|a IHa b IHb|a IHa b IHb]; cbn [render_ast tokens_of safe_ast].
  - intros _. apply lexes_bool.
  - intros [Hl Hr]. apply Hw.
    replace ([QUOTE] ++ l ++ [QUOTE] ++ sp ++ op_text op ++ sp ++ [QUOTE] ++ r ++ [QUOTE])
      with (([QUOTE] ++ l ++ [QUOTE]) ++ (sp ++ op_text op ++ sp) ++ [QUOTE] ++ r ++ [QUOTE]) by (cbn; by rewrite <- !app_assoc).
    apply (lexes_app anything anything _ _ [Token_String l]); [by apply lexes_string| |done].
    apply (lexes_app anything anything _ _ [op_token op]); [|by apply lexes_string|done].
    apply (lexes_spaced not_equals); [apply blank_not_equals|apply lexes_op].
  - intros Ha. apply Hw. change (#"!(") with (#"!" ++ #"("). rewrite <- app_assoc.
    apply (lexes_app not_equals anything _ _ [Token_Bang]); [apply lexes_bang| |done].
    apply (lexes_app anything anything _ _ [Token_LParen]); [apply lexes_lparen| |done].
    apply (lexes_app boundary); [by apply IH|apply lexes_rparen|done].
  - intros [Ha Hb]. apply Hw, lexes_connective; auto using lexes_and.
  - intros [Ha Hb]. apply Hw, lexes_connective; auto using lexes_or.
Qed.
End render.

Lemma lexes_tokenise s ts : lexes boundary s ts -> tokenise s = Some (Some ts).
Proof.
  intros H. pose proof (H [] [] [] I) as E. rewrite app_nil_r in E. change (tokenise s) with (tokenise_from s 0 []). etrans; [exact E|].
  unfold tokenise_from. rewrite while_st_unfold by apply tokenise_advances. cbn [fst]. by rewrite (proj2 (Nat.ltb_ge _ _)).
Qed.

(** ** The tree that is parsed *)

Fixpoint expr_of (a : Ast) : BoolExpr :=
  match a with
  | BoolLit b => BCoerceBool (Scalar_Bare (if b then #"true" else #"false"))
  | Cmp op l r => BCompare op (Scalar_String l) (Scalar_String r)
  | Not a => BNot (expr_of a)
  | And a b => BAnd (expr_of a) (expr_of b)
  | Or a b => BOr (expr_of a) (expr_of b)
  end.

Lemma tokens_primary a : g_primary (tokens_of a) (expr_of a).
Proof.
  induction a as [b|op l r|a IH|a IHa b IHb|a IHa b IHb]; cbn [tokens_of expr_of].
  - apply g_coerce. by destruct b.
  - apply g_compare; [done|by destruct op|done].
  - apply g_primary_factor; [done|]. apply g_not. apply g_paren. by apply g_or_one, g_and_one.
  - apply g_primary_factor; [done|]. apply g_paren, g_or_one, g_and_more; [by apply g_and_one|done].
  - apply g_primary_factor; [done|]. apply g_paren, g_or_more; [by apply g_or_one, g_and_one|by apply g_and_one].
Qed.

(** ** Its value *)

Lemma contains_str_head c p s : Forall (fun d => d <> c) s -> contains_str (c :: p) s = false.
Proof.
  unfold contains_str. induction 1 as [|d s Hd _ IH]; [done|]. cbn [find_str strip_prefix]. destruct (N.eqb_spec c d) as [->|_]; [done|].
  by destruct (find_str (c :: p) s).
Qed.

Lemma safe_no c s : safe s -> safe_char c = false -> Forall (fun d => d <> c) s.
Proof. intros Hs Hc. eapply Forall_impl; [exact Hs|]. intros d Hd ->. by rewrite Hc in Hd. Qed.

Lemma safe_no_items s : Forall (fun d => d <> #c"@") s -> Forall (fun d => d <> #c"%") s -> (contains_str (#"@(") s || contains_str (#"%(") s)%bool = false.
Proof. intros Ha Hp. apply orb_false_iff. split; [exact (contains_str_head _ (#"(") s Ha)|exact (contains_str_head _ (#"(") s Hp)]. Qed.

Lemma safe_decode s : safe s -> unescaped s = s.
Proof.
  intros Hs. unfold unescaped. rewrite unescape_decode. cbn. rewrite <- (app_nil_r s) at 1. rewrite decode_plain; [by rewrite app_nil_r|].
  eapply Forall_impl; [exact Hs|]. intros d Hd. unfold is_percent. destruct (N.eqb_spec d (#c"%")) as [->|_]; done.
Qed.

Section value.
Context `{Host} (p : PropertyMap) (ex : option (str -> bool)).

Lemma expand_safe s : safe s -> expand_operand p ex s = Done s [].
Proof.
  intros Hs. unfold expand_operand, expand_for_condition, substitute, substitute_with_fs.
  assert (E : forall fs, substitute_impl s p fs = Done (from_xml s) []).
  { intros fs. unfold substitute_impl, substitute_by. apply (substitute_loop_plain p _ _ [] [] s); [constructor| |cbn; lia].
    by apply contains_str_head, (safe_no DOLLAR). }
  rewrite !E. destruct (fs_probes_allowed ex); cbn [undefined_names from_xml as_escaped]; rewrite safe_no_items by (by apply safe_no);
    cbn; by rewrite safe_decode.
Qed.

Lemma safe_ascii s : safe s -> is_ascii s = true.
Proof. intros Hs. apply forallb_Forall. eapply Forall_impl; [exact Hs|]. intros c Hc. by apply andb_prop in Hc as [? _]. Qed.

Lemma reference_equality_refl s : reference_equality s s = true.
Proof.
  unfold reference_equality. destruct (is_empty s) eqn:Es; [done|]. cbn. destruct (parse_msbuild_number s) as [x|] eqn:E.
  - unfold SpecFloat.SFeqb. by rewrite SFcompare_refl by (by eapply parse_msbuild_number_number).
  - destruct (parse_msbuild_bool s) as [[]|]; [done|done|]. by apply eq_ignore_ascii_case_spec.
Qed.

Lemma compare_equality_reference l r : safe l -> safe r -> compare_equality_values l r = Some (reference_equality l r).
Proof.
  intros Hl Hr. unfold compare_equality_values. destruct (str_eqb l r) eqn:E; [apply str_eqb_eq in E as ->; by rewrite reference_equality_refl|].
  unfold reference_equality. rewrite (safe_ascii l), (safe_ascii r) by done.
  destruct l as [|c l], r as [|d r]; [by cbn in E|done|done|]. cbn [is_empty orb andb].
  repeat match goal with |- context [match ?o with Some _ => _ | None => _ end] => destruct o end; done.
Qed.

(** An answer, or none. *)
Definition answer (o : option bool) : run str bool := match o with Some b => Done b [] | None => Declined end.

Lemma answer_bind (o : option bool) (k : bool -> option bool) : (x ← answer o; answer (k x)) = answer (o ≫= k).
Proof. destruct o as [b|]; [|done]. cbn. by destruct (k b). Qed.

Lemma eval_truth a : safe_ast a -> eval_bool p ex (expr_of a) = answer (truth a).
Proof.
  induction a as [b|op l r|a IH|a IHa b IHb|a IHa b IHb]; cbn [safe_ast expr_of eval_bool truth].
  - intros _. by destruct b.
  - intros [Hl Hr]. cbn [expand_scalar_for_condition]. rewrite (expand_safe l Hl), (expand_safe r Hr). cbn [mbind run_bind app].
    rewrite (compare_equality_reference l r Hl Hr). destruct op; cbn; try done; by destruct (compare_relational_values l r).
  - intros ->%IH. by destruct (truth a).
  - intros [->%IHa Hb]. rewrite <- answer_bind. apply run_bind_ext; [done|]. intros [] _ _; [by apply IHb|done].
  - intros [->%IHa Hb]. rewrite <- answer_bind. apply run_bind_ext; [done|]. intros [] _ _; [done|by apply IHb].
Qed.
End value.

(** ** The whole way *)

Definition outcome_of (o : option bool) : Outcome :=
  match o with Some true => Outcome_True | Some false => Outcome_False | None => Outcome_Unsupported end.

Lemma render_no sp c a : Forall (fun d => d <> c) sp -> safe_char c = false -> c <> QUOTE -> safe_ast a -> Forall (fun d => d <> c) (render_ast sp a).
Proof.
  intros Hsp Hc Hq.
  assert (Hlit : forall s, forallb (fun d => safe_char d) s = true -> Forall (fun d => d <> c) s).
  { intros s Hs%forallb_Forall. eapply Forall_impl; [exact Hs|]. intros d Hd ->. cbn in Hd. by rewrite Hc in Hd. }
  assert (Hquote : Forall (fun d => d <> c) [QUOTE]) by (constructor; [congruence|constructor]).
  induction a as [b|op l r|a IH|a IHa b IHb|a IHa b IHb]; cbn [render_ast safe_ast]; intros Hs; destruct_and?;
    repeat first [apply Forall_app; split | exact Hsp | exact Hquote | by auto | by apply safe_no | by apply Hlit; vm_compute].
  - by apply Hlit; destruct b; vm_compute.
  - by apply Hlit; destruct op; vm_compute.
Qed.

Lemma trim_nonblank a c b : is_whitespace c = false -> is_empty (trim (a ++ c :: b)) = false.
Proof.
  intros Hc. unfold trim, trim_matches, trim_start_matches.
  assert (E : exists x, drop_while is_whitespace (a ++ c :: b) = x ++ c :: b).
  { induction a as [|d a [x Hx]]; cbn; [rewrite Hc; by exists []|]. destruct (is_whitespace d); [by exists x|by exists (d :: a)]. }
  destruct E as [x ->]. unfold trim_end_matches. rewrite rev_app_distr. cbn. rewrite <- app_assoc. cbn. generalize (rev b). intros y.
  induction y as [|d y IH]; cbn; [rewrite Hc; cbn; rewrite rev_involutive; by destruct x|]. destruct (is_whitespace d); [done|]. cbn.
  rewrite rev_app_distr. cbn. rewrite rev_involutive, <- app_assoc. by destruct x.
Qed.

Lemma render_head sp a : exists c t, render_ast sp a = c :: t /\ is_whitespace c = false.
Proof. destruct a as [[]| | | |]; by eexists _, _. Qed.

Lemma blank_no sp c : blank sp -> is_ascii_whitespace c = false -> Forall (fun d => d <> c) sp.
Proof. intros Hs Hc. eapply Forall_impl; [exact Hs|]. intros d Hd ->. by rewrite Hc in Hd. Qed.

(** From the text to the answer, for any safe texts between the quotes: the
    condition evaluates to the truth value of the tree, in the comparisons of the
    evaluator, or is declined if it has none, whatever the properties. *)
Lemma condition_render_texts `{Host} p ex lead sp trail a : blank lead -> blank sp -> sp <> [] -> blank trail -> safe_ast a ->
  outcome <$> evaluate_inner (lead ++ render_ast sp a ++ trail) p ex = Some (outcome_of (truth a)).
Proof.
  intros Hlead Hsp Hne Htrail Ha. unfold evaluate_inner. destruct (render_head sp a) as (c & t & Er & Hc).
  assert (Ht : is_empty (trim (lead ++ render_ast sp a ++ trail)) = false) by (rewrite Er; by apply trim_nonblank).
  assert (Hno : forall d, safe_char d = false -> is_ascii_whitespace d = false -> d <> QUOTE -> Forall (fun x => x <> d) (lead ++ render_ast sp a ++ trail)).
  { intros d Hd Hw Hq. apply Forall_app; split; [by apply blank_no|]. apply Forall_app; split; [|by apply blank_no]. apply render_no; [by apply blank_no|done..]. }
  rewrite Ht, safe_no_items by (by apply Hno).
  assert (El : lexes boundary (lead ++ render_ast sp a ++ trail) (tokens_of a)).
  { apply (lexes_app anything boundary lead _ [] (tokens_of a)); [by apply lexes_blank| |done].
    rewrite <- (app_nil_r (tokens_of a)). destruct trail as [|w trail]; [apply (lexes_app boundary boundary _ []); [by apply lexes_render|apply lexes_nil|done]|].
    apply (lexes_app boundary boundary); [by apply lexes_render|by eapply lexes_weaken; [|by apply lexes_blank]|].
    intros post _. by apply (blank_boundary (w :: trail)). }
  rewrite (lexes_tokenise _ _ El), (parse_condition_complete (tokens_of a) (expr_of a)) by apply g_or_one, g_and_one, tokens_primary.
  rewrite (eval_truth p ex a Ha). by destruct (truth a) as [[]|].
Qed.
