(* ===== verification/ConditionValueThm.v ===== *)
(** * Conditions: the values that texts stand for

    About [Condition]: a condition written out from a tree of connectives and
    comparisons of integers, versions, booleans and words is evaluated to what
    the tree means, where the meaning is stated on the values: the order of the
    integers, the lexicographic order of version numbers, equality of words up to
    case.  The double-precision arithmetic of the code does not show in it. *)

From Stdlib Require Import SpecFloat.
From S2P Require Import Prelude Order Escaping StrBytes Properties PropExpr Condition ConditionThm ConditionEvalThm ConditionNumThm ConditionRenderThm.

(** ** Integers as doubles *)

Local Open Scope Z_scope.

Notation digits p := (Zpos (digits2_pos p)).

Lemma digits_bounds p : 1 <= digits p /\ 2 ^ (digits p - 1) <= Zpos p < 2 ^ digits p.
Proof.
  assert (Hs : forall q, 2 ^ Zpos (Pos.succ q) = 2 * 2 ^ Zpos q) by (intros q; rewrite Pos2Z.inj_succ, Z.pow_succ_r; lia).
  assert (Hp : forall q, 2 ^ Zpos q = 2 * 2 ^ (Zpos q - 1)) by (intros q; rewrite <- Z.pow_succ_r by lia; f_equal; lia).
  induction p as [p (H1 & H2 & H3)|p (H1 & H2 & H3)|]; cbn [digits2_pos]; [..|done];
    rewrite (Pos2Z.inj_succ (digits2_pos p)), Z.sub_succ_l, (Z.pow_succ_r 2 (digits p)) by lia;
    replace (Z.succ (digits p - 1)) with (digits p) by lia; rewrite (Hp (digits2_pos p)) in *; lia.
Qed.

Lemma digits_unique p d : 0 < d -> 2 ^ (d - 1) <= Zpos p < 2 ^ d -> digits p = d.
Proof.
  intros Hd H. destruct (digits_bounds p) as (H1 & H2 & H3).
  destruct (Z.lt_trichotomy (digits p) d) as [Hlt|[?|Hgt]]; [|done|]; exfalso.
  - assert (2 ^ digits p <= 2 ^ (d - 1)) by (apply Z.pow_le_mono_r; lia). lia.
  - assert (2 ^ d <= 2 ^ (digits p - 1)) by (apply Z.pow_le_mono_r; lia). lia.
Qed.

(** The mantissa of fifty-three bits. *)
Definition scaled (p : positive) : positive := Z.to_pos (Zpos p * 2 ^ (53 - digits p)).

Lemma scaled_spec p : digits p <= 53 -> Zpos (scaled p) = Zpos p * 2 ^ (53 - digits p) /\ digits (scaled p) = 53.
Proof.
  intros Hd. destruct (digits_bounds p) as (H1 & H2 & H3).
  assert (Hpow : 0 < 2 ^ (53 - digits p)) by (apply Z.pow_pos_nonneg; lia).
  assert (E : Zpos (scaled p) = Zpos p * 2 ^ (53 - digits p)) by (unfold scaled; rewrite Z2Pos.id; nia).
  split; [done|]. apply digits_unique; [lia|]. rewrite E.
  replace (2 ^ (53 - 1)) with (2 ^ (digits p - 1) * 2 ^ (53 - digits p)) by (rewrite <- Z.pow_add_r by lia; f_equal; lia).
  replace (2 ^ 53) with (2 ^ digits p * 2 ^ (53 - digits p)) by (rewrite <- Z.pow_add_r by lia; f_equal; lia). nia.
Qed.

(** The double of a non-zero integer of at most fifty-three bits. *)
Definition exact (s : bool) (p : positive) : f64 := S754_finite s (scaled p) (digits p - 53).

Lemma shr_fexp_53 q e : digits q = 53 -> -1074 <= e -> shr_fexp 53 1024 (Zpos q) e loc_Exact = (Build_shr_record (Zpos q) false false, e).
Proof.
  intros Hd He. unfold shr_fexp, shr. cbn [Zdigits2]. rewrite Hd. unfold fexp, emin.
  replace (Z.max (53 + e - 53) (3 - 1024 - 53) - e) with 0 by lia. done.
Qed.

Lemma round_53 s q e : digits q = 53 -> -1074 <= e <= 971 -> binary_round_aux 53 1024 s (Zpos q) e loc_Exact = S754_finite s q e.
Proof.
  intros Hd He. unfold binary_round_aux. rewrite shr_fexp_53 by lia. cbn [shr_m loc_of_shr_record round_nearest_even].
  rewrite shr_fexp_53 by lia. cbn [shr_m]. by rewrite (proj2 (Z.leb_le _ _)) by lia.
Qed.

(** One bit more, which is zero. *)
Lemma round_54 s q e : digits q = 53 -> -1075 <= e < 971 -> binary_round_aux 53 1024 s (Zpos (xO q)) e loc_Exact = S754_finite s q (e + 1).
Proof.
  intros Hd He. unfold binary_round_aux.
  assert (E : shr_fexp 53 1024 (Zpos (xO q)) e loc_Exact = (Build_shr_record (Zpos q) false false, e + 1)).
  { unfold shr_fexp, shr. cbn [Zdigits2 digits2_pos]. rewrite Pos2Z.inj_succ, Hd. unfold fexp, emin.
    replace (Z.max (Z.succ 53 + e - 53) (3 - 1024 - 53) - e) with 1 by lia. done. }
  rewrite E. cbn [shr_m loc_of_shr_record round_nearest_even]. rewrite shr_fexp_53 by lia. cbn [shr_m].
  by rewrite (proj2 (Z.leb_le _ _)) by lia.
Qed.

Lemma iter_xO q d : Zpos (Pos.iter xO q d) = Zpos q * 2 ^ Zpos d.
Proof.
  induction d as [|d IH] using Pos.peano_ind; [cbn; lia|]. rewrite Pos.iter_succ, (Pos2Z.inj_xO (Pos.iter xO q d)), IH, (Pos2Z.inj_succ d), Z.pow_succ_r; lia.
Qed.

Lemma binary_round_exact s p : digits p <= 53 -> binary_round 53 1024 s p 0 = exact s p.
Proof.
  intros Hd. destruct (scaled_spec p Hd) as [E1 E2]. destruct (digits_bounds p) as (H1 & _).
  unfold binary_round, shl_align, fexp, emin. replace (Z.max (digits p + 0 - 53) (3 - 1024 - 53) - 0) with (digits p - 53) by lia.
  replace (Z.max (digits p + 0 - 53) (3 - 1024 - 53)) with (digits p - 53) by lia.
  destruct (digits p - 53) as [|?|d] eqn:Ed; [|lia|].
  - assert (scaled p = p) as Es by (apply Pos2Z.inj; rewrite E1; replace (53 - digits p) with 0 by lia; lia).
    rewrite round_53 by (rewrite ?Es in E2; lia). unfold exact. by rewrite Es, Ed.
  - assert (Pos.iter xO p d = scaled p) as ->.
    { apply Pos2Z.inj. rewrite iter_xO, E1. do 2 f_equal. lia. }
    rewrite round_53 by lia. unfold exact. by rewrite Ed.
Qed.

Definition double (z : Z) : f64 :=
  match z with Z0 => S754_zero false | Zpos p => exact false p | Zneg p => exact true p end.

(** The integers that a double holds exactly, in the sizes the theorems use. *)
Definition fits (z : Z) : Prop := - 2 ^ 53 < z < 2 ^ 53.

Lemma fits_digits p : Zpos p < 2 ^ 53 -> digits p <= 53.
Proof.
  intros H. destruct (digits_bounds p) as (H1 & H2 & _). destruct (Z.le_gt_cases (digits p) 53) as [?|Hgt]; [done|exfalso].
  assert (2 ^ 53 <= 2 ^ (digits p - 1)) by (apply Z.pow_le_mono_r; lia). lia.
Qed.

Lemma f64_of_Z_exact z : fits z -> f64_of_Z z = double z.
Proof.
  intros Hz. unfold fits in Hz. unfold f64_of_Z, binary_normalize. destruct z as [|p|p]; [done|..]; apply binary_round_exact, fits_digits; lia.
Qed.

Lemma f64_of_decimal_exact s p : Zpos p < 2 ^ 53 -> f64_of_decimal s (Npos p) 0 = exact s p.
Proof.
  intros Hp%fits_digits. destruct (scaled_spec p Hp) as [E1 E2]. destruct (digits_bounds p) as (H1 & _).
  unfold f64_of_decimal, SFdiv_core_binary. cbv zeta. change (10 ^ Z.of_nat 0) with 1. cbn [Z.of_N Zdigits2].
  unfold fexp, emin. change (digits 1) with 1.
  replace (Z.min (Z.max (digits p + 0 - (1 + 0) - 53) (3 - 1024 - 53)) (0 - 0)) with (digits p - 54) by lia.
  replace (0 - 0 - (digits p - 54)) with (54 - digits p) by lia. destruct (54 - digits p) as [|d|] eqn:Ed; [lia| |lia].
  assert (Em : Z.shiftl (Zpos p) (Zpos d) = Zpos (xO (scaled p))).
  { rewrite Z.shiftl_mul_pow2 by lia. rewrite (Pos2Z.inj_xO (scaled p)), E1, <- Ed. replace (54 - digits p) with (Z.succ (53 - digits p)) by lia.
    rewrite Z.pow_succ_r by lia. lia. }
  rewrite Em. pose proof (Z_div_mod (Zpos (xO (scaled p))) 1 ltac:(lia)) as Hdm.
  destruct (Z.div_eucl (Zpos (xO (scaled p))) 1) as [q r]. destruct Hdm as [Hq Hr]. assert (r = 0) as -> by lia.
  assert (q = Zpos (xO (scaled p))) as -> by lia. change (new_location 1 0) with loc_Exact.
  rewrite round_54 by lia. unfold exact. f_equal. lia.
Qed.

(** Doubles of integers are ordered as the integers. *)
Lemma exact_compare p q : digits p <= 53 -> digits q <= 53 ->
  match Z.compare (digits p - 53) (digits q - 53) with Lt => Lt | Gt => Gt | Eq => Pos.compare_cont Eq (scaled p) (scaled q) end = Z.compare (Zpos p) (Zpos q).
Proof.
  intros Hp Hq. destruct (digits_bounds p) as (_ & P2 & P3), (digits_bounds q) as (_ & Q2 & Q3).
  destruct (scaled_spec p Hp) as [Sp _], (scaled_spec q Hq) as [Sq _]. destruct (Z.compare_spec (digits p - 53) (digits q - 53)) as [E|Hlt|Hgt]; symmetry.
  - change (Pos.compare_cont Eq (scaled p) (scaled q)) with (Z.compare (Zpos (scaled p)) (Zpos (scaled q))). rewrite Sp, Sq.
    replace (digits q) with (digits p) by lia. apply Zmult_compare_compat_r, Z.lt_gt, Z.pow_pos_nonneg; lia.
  - apply Z.compare_lt_iff. assert (2 ^ digits p <= 2 ^ (digits q - 1)) by (apply Z.pow_le_mono_r; lia). lia.
  - apply Z.compare_gt_iff. assert (2 ^ digits q <= 2 ^ (digits p - 1)) by (apply Z.pow_le_mono_r; lia). lia.
Qed.

Lemma double_compare x y : fits x -> fits y -> SFcompare (double x) (double y) = Some (Z.compare x y).
Proof.
  intros Hx Hy. unfold fits in *. destruct x as [|p|p], y as [|q|q]; try done; cbn [double exact SFcompare]; f_equal.
  - apply exact_compare; apply fits_digits; lia.
  - pose proof (exact_compare p q ltac:(apply fits_digits; lia) ltac:(apply fits_digits; lia)) as E.
    cbn [Z.compare] in *. rewrite <- E. by destruct (Z.compare _ _).
Qed.

(** ** Trees over values *)

Inductive operand :=
| Int (n : Z)
| Ver (major minor build : N) (revision : option N)
| Truth (b : bool)
| Word (s : str).

Inductive Cond :=
| CLit (b : bool)
| CCmp (op : CompareOp) (l r : operand)
| CNot (a : Cond)
| CAnd (a b : Cond)
| COr (a b : Cond).

Definition int_text (n : Z) : str := if n <? 0 then #c"-" :: show_N (Z.to_N (- n)) else show_N (Z.to_N n).
Definition version_numbers (a b c : N) (d : option N) : list N := [a; b; c] ++ match d with Some d => [d] | None => [] end.

Definition operand_text (o : operand) : str :=
  match o with
  | Int n => int_text n
  | Ver a b c d => join (#".") (map show_N (version_numbers a b c d))
  | Truth b => if b then #"true" else #"false"
  | Word s => s
  end.

Fixpoint cond_ast (a : Cond) : Ast :=
  match a with
  | CLit b => BoolLit b
  | CCmp op l r => Cmp op (operand_text l) (operand_text r)
  | CNot a => Not (cond_ast a)
  | CAnd a b => And (cond_ast a) (cond_ast b)
  | COr a b => Or (cond_ast a) (cond_ast b)
  end.

(** A word is empty or starts with a letter, is none of the words that stand for
    a truth value, and has no character that starts an escape or a reference. *)
Definition truth_words : list str := [ #"true"; #"on"; #"yes"; #"false"; #"off"; #"no" ].

Definition operand_wf (o : operand) : Prop :=
  match o with
  | Int n => fits n
  | Ver a b c d => Forall (fun n => n <= 2147483647)%N (version_numbers a b c d)
  | Truth _ => True
  | Word s => safe s /\ match s with [] => True | c :: _ => is_ascii_alphabetic c = true end /\ Forall (fun w => lower s <> w) truth_words
  end.

Fixpoint cond_wf (a : Cond) : Prop :=
  match a with
  | CLit _ => True
  | CCmp _ l r => operand_wf l /\ operand_wf r
  | CNot a => cond_wf a
  | CAnd a b | COr a b => cond_wf a /\ cond_wf b
  end.

(** ** What they mean *)

Definition value_equal (l r : operand) : bool :=
  match l, r with
  | Int n, Int m => n =? m
  | Ver a b c d, Ver a' b' c' d' => bool_decide (version_numbers a b c d = version_numbers a' b' c' d')
  | Truth b, Truth b' => Bool.eqb b b'
  | Word s, Word t => bool_decide (lower s = lower t)
  | _, _ => false
  end.

(** A version without a revision is below those that have one.  Between a
    version and an integer the major number decides, and they are not equal. *)
Definition revision_number (d : option N) : Z := match d with Some d => Z.of_N d | None => -1 end.

Definition value_order (l r : operand) : option comparison :=
  match l, r with
  | Int n, Int m => Some (n ?= m)
  | Ver a b c d, Ver a' b' c' d' =>
      Some (then_cmp (a ?= a')%N (then_cmp (b ?= b')%N (then_cmp (c ?= c')%N (revision_number d ?= revision_number d'))))
  | Ver a _ _ _, Int n => Some (if Z.of_N a <? n then Lt else Gt)
  | Int n, Ver a _ _ _ => Some (if Z.of_N a <? n then Gt else Lt)
  | _, _ => None
  end.

Definition value_compare (op : CompareOp) (l r : operand) : option bool :=
  match op with
  | CompareOp_Eq => Some (value_equal l r)
  | CompareOp_Neq => Some (negb (value_equal l r))
  | CompareOp_Lt => (fun o => bool_decide (o = Lt)) <$> value_order l r
  | CompareOp_Lte => (fun o => bool_decide (o <> Gt)) <$> value_order l r
  | CompareOp_Gt => (fun o => bool_decide (o = Gt)) <$> value_order l r
  | CompareOp_Gte => (fun o => bool_decide (o <> Lt)) <$> value_order l r
  end.

(** Connectives decide from the left; an operand that is not reached cannot make
    the answer unknown. *)
Fixpoint meaning (a : Cond) : option bool :=
  match a with
  | CLit b => Some b
  | CCmp op l r => value_compare op l r
  | CNot a => negb <$> meaning a
  | CAnd a b => match meaning a with Some true => meaning b | Some false => Some false | None => None end
  | COr a b => match meaning a with Some true => Some true | Some false => meaning b | None => None end
  end.

(** ** The texts of values *)

Lemma show_N_digits n : show_N n <> [] /\ forallb is_ascii_digit (show_N n) = true /\ dec_val (show_N n) = n.
Proof. destruct (show_N_spec n) as (? & ? & ? & _). done. Qed.

Lemma show_N_ne c n : is_ascii_digit c = false -> Forall (fun x => x <> c) (show_N n).
Proof. intros Hc. apply digits_forall_ne; [done|]. apply show_N_digits. Qed.

Lemma not_hex c s : c <> 48%N -> strip_prefix_ignore_ascii_case (c :: s) (#"0x") = None.
Proof.
  intros Hc. unfold strip_prefix_ignore_ascii_case. destruct (eq_ignore_ascii_case _ _) eqn:E; [|done].
  apply eq_ignore_ascii_case_spec in E. destruct s as [|d s]; [done|].
  change ([to_ascii_lowercase c; to_ascii_lowercase d] = [48%N; 120%N]) in E. injection E as E _.
  unfold to_ascii_lowercase in E. destruct (is_ascii_upper c) eqn:Eu; [|done]. apply in_range_spec in Eu. lia.
Qed.

Lemma no_x_not_hex s : Forall (fun c => c <> #c"x" /\ c <> #c"X") s -> strip_prefix_ignore_ascii_case s (#"0x") = None.
Proof.
  intros Hs. unfold strip_prefix_ignore_ascii_case. destruct (eq_ignore_ascii_case _ _) eqn:E; [|done].
  apply eq_ignore_ascii_case_spec in E. destruct s as [|c [|d s]]; [done|done|].
  change ([to_ascii_lowercase c; to_ascii_lowercase d] = [48%N; 120%N]) in E. injection E as _ E.
  inversion Hs as [|? ? _ Hs']; subst. inversion Hs' as [|? ? [Hx HX] _]; subst.
  unfold to_ascii_lowercase in E. destruct (is_ascii_upper d); [|done]. exfalso. apply HX. chars. lia.
Qed.

Lemma filter_digits s : forallb is_ascii_digit s = true -> List.filter is_ascii_digit s = s.
Proof. induction s as [|c s IH]; cbn; [done|]. intros [-> Hs]%andb_prop. by rewrite IH. Qed.

Lemma count_none c s : Forall (fun x => x <> c) s -> count_char c s = 0%nat.
Proof. unfold count_char. induction 1 as [|x s Hx _ IH]; cbn; [done|]. destruct (N.eqb_spec c x) as [->|]; done. Qed.

Lemma split_once_none c s : Forall (fun x => x <> c) s -> split_once c s = None.
Proof. induction 1 as [|x s Hx _ IH]; cbn; [done|]. by rewrite (proj2 (N.eqb_neq x c) Hx), IH. Qed.

(** Digits with or without a sign are the number. *)
Lemma parse_digits s neg n : forallb is_ascii_digit s = true -> s <> [] -> dec_val s = n ->
  parse_msbuild_number ((if neg : bool then [ #c"-" ] else []) ++ s)
  = (let x := f64_of_decimal neg n 0 in if is_finite x then Some x else None).
Proof.
  intros Hd Hne <-. unfold parse_msbuild_number.
  assert (Hx : Forall (fun c => c <> #c"x" /\ c <> #c"X") s).
  { apply Forall_forall. intros c Hc. apply forallb_Forall in Hd. rewrite Forall_forall in Hd. specialize (Hd c Hc). by split; intros ->. }
  assert (Hu : match (if neg then [ #c"-" ] else []) ++ s with c :: r => if is_sign c then r else (if neg then [ #c"-" ] else []) ++ s | [] => (if neg then [ #c"-" ] else []) ++ s end = s).
  { destruct neg; [done|]. destruct s as [|c s]; [done|]. cbn [app]. cbn in Hd. apply andb_prop in Hd as [Hc _].
    destruct (is_sign c) eqn:Es; [|done]. unfold is_sign in Es. apply orb_prop in Es as [->%N.eqb_eq| ->%N.eqb_eq]; done. }
  rewrite no_x_not_hex by (apply Forall_app; split; [destruct neg; repeat constructor; done|done]). cbv zeta. rewrite Hu.
  rewrite count_none by (by apply digits_forall_ne). rewrite filter_digits, split_once_none by (done || by apply digits_forall_ne).
  assert (forallb (fun c => N.eqb c (#c".") || is_ascii_digit c)%bool s = true) as ->.
  { apply forallb_Forall. apply forallb_Forall in Hd. eapply Forall_impl; [exact Hd|]. intros c ->. by rewrite orb_true_r. }
  cbn [negb Nat.ltb Nat.leb orb]. destruct s as [|c t] eqn:Es; [done|]. rewrite <- Es in *.
  assert (is_empty s = false) as -> by (by rewrite Es).
  assert (starts_with_char (#c"-") ((if neg then [ #c"-" ] else []) ++ s) = neg) as ->; [|done].
  destruct neg; [done|]. rewrite Es in *. cbn in *. apply andb_prop in Hd as [Hc _]. change (#c"-") with 45%N.
  by destruct (N.eqb_spec c 45) as [->|].
Qed.

Lemma int_number n : fits n -> parse_msbuild_number (int_text n) = Some (double n).
Proof.
  intros Hn. unfold fits in Hn. unfold int_text. destruct (Z.ltb_spec n 0) as [Hlt|Hge].
  - destruct (show_N_digits (Z.to_N (- n))) as (H1 & H2 & H3). pose proof (parse_digits _ true _ H2 H1 H3) as E. cbn [app] in E. rewrite E.
    destruct n as [|p|p]; [lia|lia|]. change (Z.to_N (- Zneg p)) with (Npos p). cbv zeta. rewrite f64_of_decimal_exact by lia. done.
  - destruct (show_N_digits (Z.to_N n)) as (H1 & H2 & H3). pose proof (parse_digits _ false _ H2 H1 H3) as E. cbn [app] in E. rewrite E.
    destruct n as [|p|p]; [done| |lia]. change (Z.to_N (Zpos p)) with (Npos p). cbv zeta. rewrite f64_of_decimal_exact by lia. done.
Qed.

Lemma int_no_dot n : Forall (fun c => c <> #c".") (int_text n).
Proof. unfold int_text. destruct (n <? 0); [constructor; [done|]|]; by apply show_N_ne. Qed.

Lemma no_dot_no_version s : Forall (fun c => c <> #c".") s -> parse_system_version s = None.
Proof. intros Hs. unfold parse_system_version. by rewrite split_no_sep. Qed.

(** *** Versions *)

Lemma version_parts a b c d : split (#c".") (operand_text (Ver a b c d)) = map show_N (version_numbers a b c d).
Proof.
  apply split_join; [done|]. apply Forall_map, Forall_forall. intros n _. by apply show_N_ne.
Qed.

Lemma components_show ns : Forall (fun n => n <= 2147483647)%N ns ->
  components (i32_max + 1) (map (fun part => strip_prefix_or (#c"+") (trim_ascii part)) (map show_N ns)) = Some ns.
Proof.
  induction 1 as [|n ns Hn _ IH]; [done|]. cbn [map components]. destruct (show_N_digits n) as (H1 & H2 & H3).
  assert (Ht : trim_ascii (show_N n) = show_N n).
  { apply forallb_Forall in H2. rewrite Forall_forall in H2.
    assert (Hw : forall c, c ∈ show_N n -> is_ascii_whitespace c = false).
    { intros c Hc%H2. unfold is_ascii_digit in Hc. apply in_range_spec in Hc. unfold is_ascii_whitespace.
      rewrite !orb_false_iff, !N.eqb_neq. lia. }
    apply trim_matches_id; intros c Hc; apply Hw; [|apply list_elem_of_In, in_rev, list_elem_of_In].
    - destruct (show_N n); [done|]. injection Hc as ->. left.
    - destruct (rev (show_N n)); [done|]. injection Hc as ->. left. }
  rewrite Ht, strip_prefix_or_digits, H2 by done. assert (is_empty (show_N n) = false) as -> by (by destruct (show_N n)).
  cbn [negb orb]. rewrite parse_unsigned_digits, H3 by (done || rewrite H3; unfold i32_max; lia). cbn. by rewrite IH.
Qed.

Lemma version_version a b c d : operand_wf (Ver a b c d) ->
  parse_system_version (operand_text (Ver a b c d)) = Some [Z.of_N a; Z.of_N b; Z.of_N c; revision_number d].
Proof.
  intros Hwf. unfold parse_system_version. rewrite version_parts, components_show by exact Hwf. by destruct d.
Qed.

Lemma version_head a b c d : exists x t, operand_text (Ver a b c d) = x :: t /\ is_ascii_digit x = true.
Proof.
  destruct (show_N_digits a) as (H1 & H2 & _). cbn [operand_text version_numbers app map join]. destruct (show_N a) as [|x t]; [done|]. cbn in H2. apply andb_prop in H2 as [H2 _].
  cbn [app]. eexists x, _. split; [reflexivity|exact H2].
Qed.

Lemma count_char_app c s t : count_char c (s ++ t) = (count_char c s + count_char c t)%nat.
Proof. unfold count_char. by rewrite List.filter_app, length_app. Qed.

Lemma version_number a b c d : parse_msbuild_number (operand_text (Ver a b c d)) = None.
Proof.
  destruct (version_head a b c d) as (x & t & E & Hx).
  assert (Hdots : (1 < count_char (#c".") (operand_text (Ver a b c d)))%nat).
  { destruct d as [d|]; cbn [operand_text version_numbers map app join]; rewrite !count_char_app;
      change (count_char (#c".") (#".")) with 1%nat; lia. }
  assert (Hnx : Forall (fun c => c <> #c"x" /\ c <> #c"X") (operand_text (Ver a b c d))).
  { assert (Hs : forall n, Forall (fun c => c <> #c"x" /\ c <> #c"X") (show_N n)).
    { intros n. rewrite Forall_forall. intros y Hy. split; intros ->;
        [by apply (proj1 (Forall_forall _ _) (show_N_ne (#c"x") n eq_refl) _ Hy)|by apply (proj1 (Forall_forall _ _) (show_N_ne (#c"X") n eq_refl) _ Hy)]. }
    assert (Hd : Forall (fun c => c <> #c"x" /\ c <> #c"X") (#".")) by (repeat constructor; done).
    cbn [operand_text version_numbers]. destruct d; cbn [map app join]; repeat (apply Forall_app; split); done. }
  unfold parse_msbuild_number. rewrite no_x_not_hex by done. cbv zeta.
  assert (match operand_text (Ver a b c d) with y :: r => if is_sign y then r else operand_text (Ver a b c d) | [] => operand_text (Ver a b c d) end
    = operand_text (Ver a b c d)) as ->.
  { rewrite E. destruct (is_sign x) eqn:Es; [|done]. unfold is_sign in Es. apply orb_prop in Es as [->%N.eqb_eq| ->%N.eqb_eq]; done. }
  rewrite (proj2 (Nat.ltb_lt _ _) Hdots). by destruct (negb _).
Qed.

(** *** Words *)

Lemma letter_no_digit c : is_ascii_alphabetic c = true -> is_ascii_digit c = false /\ is_sign c = false /\ c <> 48%N /\ c <> #c"." /\ is_ascii_whitespace c = false.
Proof.
  unfold is_ascii_alphabetic, is_ascii_upper, is_ascii_lower. rewrite orb_true_iff, !in_range_spec. intros Hc. split_and!.
  - apply in_range_false. lia.
  - unfold is_sign. rewrite orb_false_iff, !N.eqb_neq. chars. lia.
  - lia.
  - chars. lia.
  - unfold is_ascii_whitespace. rewrite !orb_false_iff, !N.eqb_neq. lia.
Qed.

Lemma letter_number c s : is_ascii_alphabetic c = true -> parse_msbuild_number (c :: s) = None.
Proof.
  intros (Hd & Hs & H0 & Hdot & _)%letter_no_digit. unfold parse_msbuild_number. rewrite not_hex by done. cbv zeta. rewrite Hs. cbn [forallb].
  by rewrite Hd, (proj2 (N.eqb_neq c _) Hdot).
Qed.

Lemma letter_version c s : is_ascii_alphabetic c = true -> parse_system_version (c :: s) = None.
Proof.
  intros (Hd & Hs & H0 & Hdot & Hw)%letter_no_digit. unfold parse_system_version. cbn [split]. rewrite (proj2 (N.eqb_neq c _) Hdot).
  destruct (split (#c".") s) as [|p ps]; [done|]. destruct (_ && _)%bool; [|done]. cbn [map components].
  assert (exists t, trim_ascii (c :: p) = c :: t) as [t ->].
  { unfold trim_ascii, trim_matches, trim_start_matches. cbn [drop_while]. rewrite Hw. unfold trim_end_matches.
    destruct (drop_while_suffix is_ascii_whitespace (rev (c :: p))) as (z & Hz & Hall). destruct (rev (drop_while is_ascii_whitespace (rev (c :: p)))) as [|x t] eqn:Er.
    - exfalso. apply (f_equal (@rev _)) in Er. rewrite rev_involutive in Er. change (rev (@nil char)) with (@nil char) in Er.
      rewrite Er, app_nil_r in Hz.
      assert (Hc : c ∈ z) by (rewrite <- Hz; apply list_elem_of_In; rewrite <- in_rev; by left). apply forallb_Forall in Hall. rewrite Forall_forall in Hall. by rewrite (Hall c Hc) in Hw.
    - apply (f_equal (@rev _)) in Hz. rewrite rev_involutive, rev_app_distr, Er in Hz. injection Hz as -> _. by exists t. }
  cbn [strip_prefix_or]. unfold is_sign in Hs. apply orb_false_iff in Hs as [Hs _]. rewrite Hs. cbn [is_empty forallb orb]. by rewrite Hd.
Qed.

(** *** Truth values *)

(** What is read as a truth value is spelt as one of twelve words. *)
Lemma bool_words s b : parse_msbuild_bool s = Some b -> lower s ∈ TRUE_VALUES ++ FALSE_VALUES.
Proof.
  unfold parse_msbuild_bool.
  assert (H : forall l, existsb (eq_ignore_ascii_case s) l = true -> Forall (fun w => lower w = w) l -> lower s ∈ l).
  { intros l (w & Hw & E%eq_ignore_ascii_case_spec)%existsb_exists Hl. rewrite E. apply list_elem_of_In in Hw.
    rewrite Forall_forall in Hl. by rewrite (Hl w Hw). }
  assert (HT : Forall (fun w => lower w = w) TRUE_VALUES) by (repeat constructor).
  assert (HF : Forall (fun w => lower w = w) FALSE_VALUES) by (repeat constructor).
  destruct (existsb _ TRUE_VALUES) eqn:Et; [intros _; apply elem_of_app; left; by apply H|].
  destruct (existsb _ FALSE_VALUES) eqn:Ef; [intros _; apply elem_of_app; right; by apply H|done].
Qed.

(** A character that a number starts with. *)
Definition number_start (x : char) : bool := (is_ascii_digit x || N.eqb x (#c"-"))%bool.

Lemma number_start_lower x : number_start x = true -> to_ascii_lowercase x = x.
Proof.
  unfold number_start, is_ascii_digit. rewrite orb_true_iff, in_range_spec, N.eqb_eq. intros Hx. unfold to_ascii_lowercase.
  assert (is_ascii_upper x = false) as ->; [|done]. apply in_range_false. destruct Hx as [?| ->]; [lia|chars; lia].
Qed.

Lemma number_no_bool x t : number_start x = true -> parse_msbuild_bool (x :: t) = None.
Proof.
  intros Hx. destruct (parse_msbuild_bool (x :: t)) as [b|] eqn:E; [exfalso|done]. apply bool_words in E.
  cbn [lower map] in E. rewrite (number_start_lower x Hx) in E.
  repeat (apply elem_of_cons in E as [E|E]; [injection E as -> _; by vm_compute in Hx|]). by apply not_elem_of_nil in E.
Qed.

Lemma int_head n : exists x t, int_text n = x :: t /\ number_start x = true.
Proof.
  unfold int_text. destruct (n <? 0); [by eexists _, _|]. destruct (show_N_digits (Z.to_N n)) as (H1 & H2 & _).
  destruct (show_N (Z.to_N n)) as [|x t]; [done|]. cbn in H2. apply andb_prop in H2 as [H2 _]. exists x, t. split; [done|]. unfold number_start. by rewrite H2.
Qed.

Lemma word_no_bool s : operand_wf (Word s) -> parse_msbuild_bool s = None.
Proof.
  intros (_ & Hhd & Hw). destruct (parse_msbuild_bool s) as [b|] eqn:E; [exfalso|done]. apply bool_words in E.
  rewrite Forall_forall in Hw. assert (Hno : forall w, w ∈ truth_words -> lower s <> w) by done. clear Hw.
  assert (Hbang : forall t, lower s <> #c"!" :: t).
  { intros t Ht. destruct s as [|c s]; [done|]. change (to_ascii_lowercase c :: lower s = 33%N :: t) in Ht. injection Ht as Ht _. unfold to_ascii_lowercase in Ht.
    destruct (is_ascii_upper c) eqn:Eu; [|by rewrite Ht in Hhd]. apply in_range_spec in Eu. lia. }
  unfold TRUE_VALUES, FALSE_VALUES in E. cbn [app] in E.
  repeat (apply elem_of_cons in E as [E|E];
    [match type of E with _ = ?w => first [exact (Hbang (tail w) E)|apply (Hno w); [unfold truth_words; set_solver|exact E]] end|]).
  by apply not_elem_of_nil in E.
Qed.

(** *** What each text is read as *)

Lemma operand_reads o : operand_wf o ->
  parse_msbuild_number (operand_text o) = match o with Int n => Some (double n) | _ => None end
  /\ parse_system_version (operand_text o)
     = match o with Ver a b c d => Some [Z.of_N a; Z.of_N b; Z.of_N c; revision_number d] | _ => None end
  /\ parse_msbuild_bool (operand_text o) = match o with Truth b => Some b | _ => None end.
Proof.
  intros Hwf. destruct o as [n|a b c d|b|s].
  - split_and!; [by apply int_number|by apply no_dot_no_version, int_no_dot|]. cbn [operand_text].
    destruct (int_head n) as (x & t & -> & Hx). by apply number_no_bool.
  - split_and!; [apply version_number|by apply version_version|]. destruct (version_head a b c d) as (x & t & -> & Hx).
    apply number_no_bool. unfold number_start. by rewrite Hx.
  - by destruct b.
  - split_and!; [..|by apply word_no_bool]; destruct Hwf as (_ & Hhd & _); cbn [operand_text]; destruct s as [|c s]; try done;
      [by apply letter_number|by apply letter_version].
Qed.

(** *** Texts that are equal up to case *)

Lemma lower_same s : Forall (fun c => is_ascii_upper c = false) s -> lower s = s.
Proof. induction 1 as [|c s Hc _ IH]; [done|]. cbn [lower map]. fold (lower s). rewrite IH. unfold to_ascii_lowercase. by rewrite Hc. Qed.

Lemma show_N_plain n : Forall (fun c => is_ascii_upper c = false) (show_N n).
Proof.
  destruct (show_N_digits n) as (_ & Hd & _). apply forallb_Forall in Hd. eapply Forall_impl; [exact Hd|]. intros c Hc. cbn in Hc.
  unfold is_ascii_digit in Hc. apply in_range_spec in Hc. apply in_range_false. lia.
Qed.

Lemma int_lower n : lower (int_text n) = int_text n.
Proof. apply lower_same. unfold int_text. destruct (n <? 0); [constructor; [done|]|]; apply show_N_plain. Qed.

Lemma version_lower a b c d : lower (operand_text (Ver a b c d)) = operand_text (Ver a b c d).
Proof.
  apply lower_same. assert (Hd : Forall (fun c => is_ascii_upper c = false) (#".")) by (repeat constructor).
  destruct d; cbn [operand_text version_numbers map app join]; repeat (apply Forall_app; split); done || apply show_N_plain.
Qed.

Lemma map_show_inj ns ms : map show_N ns = map show_N ms -> ns = ms.
Proof. revert ms. induction ns as [|n ns IH]; intros [|m ms]; try done. cbn. intros [= ->%show_N_inj ->%IH]. done. Qed.

(** A number is not a truth value or a word. *)
Lemma number_not_word x t o : number_start x = true -> operand_wf o -> (exists b, o = Truth b) \/ (exists s, o = Word s) -> lower (operand_text o) <> x :: t.
Proof.
  intros Hx Hwf Ho E. destruct Ho as [[b ->]|[s ->]]; cbn [operand_text] in E.
  - destruct b; injection E as <- _; by vm_compute in Hx.
  - destruct Hwf as (_ & Hhd & _). destruct s as [|c s]; [done|]. cbn [lower map] in E. injection E as E _.
    unfold number_start, is_ascii_digit in Hx. rewrite orb_true_iff, in_range_spec, N.eqb_eq in Hx.
    unfold is_ascii_alphabetic in Hhd. unfold to_ascii_lowercase in E. destruct (is_ascii_upper c) eqn:Eu.
    + apply in_range_spec in Eu. destruct Hx as [?|Hx]; [lia|]. chars. lia.
    + cbn [orb] in Hhd. unfold is_ascii_lower in Hhd. apply in_range_spec in Hhd. destruct Hx as [?|Hx]; [lia|]. chars. lia.
Qed.

Lemma texts_equal l r : operand_wf l -> operand_wf r ->
  match l, r with Int _, Int _ | Truth _, Truth _ => True | _, _ => eq_ignore_ascii_case (operand_text l) (operand_text r) = value_equal l r end.
Proof.
  assert (Hsym : forall s t, eq_ignore_ascii_case s t = bool_decide (lower s = lower t)).
  { intros s t. apply eq_true_iff_eq. by rewrite eq_ignore_ascii_case_spec, bool_decide_eq_true. }
  assert (Hfalse : forall s t, lower s <> lower t -> eq_ignore_ascii_case s t = false) by (intros s t H; rewrite Hsym; by apply bool_decide_eq_false).
  assert (Hnum : forall n, exists x t, lower (operand_text (Int n)) = x :: t /\ number_start x = true)
    by (intros n; cbn [operand_text]; rewrite int_lower; apply int_head).
  assert (Hver : forall a b c d, exists x t, lower (operand_text (Ver a b c d)) = x :: t /\ number_start x = true).
  { intros a b c d. rewrite version_lower. destruct (version_head a b c d) as (x & t & -> & Hx). exists x, t. unfold number_start. by rewrite Hx. }
  assert (Hiv : forall n a b c d, lower (operand_text (Int n)) <> lower (operand_text (Ver a b c d))).
  { intros n a b c d. change (operand_text (Int n)) with (int_text n). rewrite int_lower, version_lower. intros E. pose proof (version_parts a b c d) as Hp.
    rewrite <- E, split_no_sep in Hp by apply int_no_dot. by apply (f_equal length) in Hp. }
  assert (Htw : forall b s, operand_wf (Word s) -> lower (operand_text (Truth b)) <> lower s).
  { intros b s (_ & _ & Hw) E. rewrite Forall_forall in Hw. apply (Hw (lower (operand_text (Truth b)))); [|done].
    destruct b; unfold truth_words; vm_compute; set_solver. }
  intros Hl Hr. destruct l as [n|a b c d|b|s], r as [m|a' b' c' d'|b'|s']; try done; cbn [value_equal]; try apply Hfalse;
    try (first [apply Hiv|apply not_eq_sym, Hiv|by apply Htw|by apply not_eq_sym, Htw]);
    try (match goal with
         | |- lower (operand_text (Int ?n)) <> _ => destruct (Hnum n) as (x & t & -> & Hx)
         | |- lower (operand_text (Ver ?a ?b ?c ?d)) <> _ => destruct (Hver a b c d) as (x & t & -> & Hx)
         | |- _ <> lower (operand_text (Int ?n)) => destruct (Hnum n) as (x & t & -> & Hx)
         | |- _ <> lower (operand_text (Ver ?a ?b ?c ?d)) => destruct (Hver a b c d) as (x & t & -> & Hx)
         end; first [apply not_eq_sym, number_not_word|apply number_not_word]; eauto).
  - rewrite Hsym, !version_lower. apply bool_decide_ext. split; [|intros E; cbn [operand_text]; by rewrite E].
    intros E%(f_equal (split (#c"."))). rewrite !version_parts in E. by apply map_show_inj.
Qed.

(** ** The theorem *)

Lemma then_cmp_list a b c d a' b' c' d' :
  list_cmp Z.compare [Z.of_N a; Z.of_N b; Z.of_N c; d] [Z.of_N a'; Z.of_N b'; Z.of_N c'; d']
  = then_cmp (a ?= a')%N (then_cmp (b ?= b')%N (then_cmp (c ?= c')%N (d ?= d'))).
Proof. cbn [list_cmp]. rewrite !N2Z.inj_compare. unfold then_cmp. repeat (destruct (_ ?= _)%N; try done). by destruct (d ?= d'). Qed.

Lemma double_below a n : (a <= 2147483647)%N -> fits n -> SFltb (f64_of_Z (Z.of_N a)) (double n) = (Z.of_N a <? n).
Proof.
  intros Ha Hn. assert (fits (Z.of_N a)) by (unfold fits; lia). rewrite f64_of_Z_exact by done. unfold SFltb. rewrite double_compare by done.
  unfold Z.ltb. by destruct (_ ?= _).
Qed.

Lemma operands_order l r : operand_wf l -> operand_wf r -> compare_relational_values (operand_text l) (operand_text r) = value_order l r.
Proof.
  intros Hl Hr. destruct (operand_reads l Hl) as (L1 & L2 & _), (operand_reads r Hr) as (R1 & R2 & _).
  unfold compare_relational_values. rewrite L1, L2, R1, R2.
  destruct l as [n|a b c d|b|s], r as [m|a' b' c' d'|b'|s']; try done; cbn [value_order].
  - by apply double_compare.
  - inversion Hr as [|? ? Ha _]; subst. unfold fmap, option_fmap, option_map, compare_version_and_number.
    change (default (-1) ([Z.of_N a'; Z.of_N b'; Z.of_N c'; revision_number d'] !! 0%nat)) with (Z.of_N a').
    rewrite double_below by done. by destruct (_ <? _).
  - inversion Hl as [|? ? Ha _]; subst. unfold fmap, option_fmap, option_map, compare_version_and_number.
    change (default (-1) ([Z.of_N a; Z.of_N b; Z.of_N c; revision_number d] !! 0%nat)) with (Z.of_N a).
    by rewrite double_below.
  - by rewrite then_cmp_list.
Qed.

Lemma operands_equal l r : operand_wf l -> operand_wf r -> reference_equality (operand_text l) (operand_text r) = value_equal l r.
Proof.
  intros Hl Hr. destruct (operand_reads l Hl) as (L1 & _ & L3), (operand_reads r Hr) as (R1 & _ & R3).
  pose proof (texts_equal l r Hl Hr) as Ht. unfold reference_equality. rewrite L1, L3, R1, R3.
  destruct (is_empty (operand_text l) || is_empty (operand_text r))%bool eqn:Ee.
  - assert (He : (is_empty (operand_text l) && is_empty (operand_text r))%bool = eq_ignore_ascii_case (operand_text l) (operand_text r)).
    { apply eq_true_iff_eq. rewrite eq_ignore_ascii_case_spec. apply orb_true_iff in Ee.
      destruct (operand_text l), (operand_text r); cbn in *; naive_solver. }
    rewrite He. destruct l as [n|a b c d|b|s], r as [m|a' b' c' d'|b'|s']; try done; exfalso; cbn [operand_text] in Ee.
    + destruct (int_head n) as (? & ? & E1 & _), (int_head m) as (? & ? & E2 & _). by rewrite E1, E2 in Ee.
    + by destruct b, b'.
  - destruct l as [n|a b c d|b|s], r as [m|a' b' c' d'|b'|s']; try done. cbn [value_equal]. unfold SFeqb. rewrite double_compare by done.
    unfold Z.eqb. destruct n, m; try done; cbn; try (by rewrite Pos.eqb_compare). rewrite Pos.eqb_compare. by destruct (_ ?= _)%positive.
Qed.

Lemma operand_safe o : operand_wf o -> safe (operand_text o).
Proof.
  assert (Hn : forall n, safe (show_N n)).
  { intros n. destruct (show_N_digits n) as (_ & Hd & _). apply forallb_Forall in Hd. eapply Forall_impl; [exact Hd|]. intros c Hc. cbn in Hc.
    unfold is_ascii_digit in Hc. apply in_range_spec in Hc. unfold safe_char. rewrite (proj2 (N.ltb_lt _ _)) by lia. cbn [andb].
    apply negb_true_iff. unfold contains_char. cbn [existsb]. rewrite !orb_false_iff, !N.eqb_neq. unfold QUOTE, DOLLAR. chars. lia. }
  intros Hwf. destruct o as [n|a b c d|b|s]; cbn [operand_text].
  - unfold int_text. destruct (n <? 0); [constructor; [done|]|]; apply Hn.
  - assert (Hd : safe (#".")) by (repeat constructor).
    destruct d; cbn [operand_text version_numbers map app join]; repeat (apply Forall_app; split); done || apply Hn.
  - destruct b; repeat constructor.
  - apply Hwf.
Qed.

Lemma cond_safe a : cond_wf a -> safe_ast (cond_ast a).
Proof. induction a; cbn; intuition auto using operand_safe. Qed.

Lemma truth_meaning a : cond_wf a -> truth (cond_ast a) = meaning a.
Proof.
  induction a as [b|op l r|a IH|a IHa b IHb|a IHa b IHb]; cbn [cond_wf cond_ast truth meaning]; [done|..].
  - intros [Hl Hr]. unfold reference_comparison, value_compare. rewrite operands_equal, operands_order by done.
    destruct op; try done; destruct (value_order l r) as [[]|]; done.
  - intros ->%IH. done.
  - intros [->%IHa ->%IHb]. by destruct (meaning a) as [[]|].
  - intros [->%IHa ->%IHb]. by destruct (meaning a) as [[]|].
Qed.

(** C16: From the text to the answer.  A condition written out from a tree of
    literals, connectives and comparisons, with any blanks around its tokens, is
    evaluated to what the tree means, or declined if it orders what has no order,
    whatever the properties.  The operands are integers of less than fifty-four
    bits, versions of three or four numbers that fit an [i32], truth values, and
    words: empty or starting with a letter, spelt like no truth value, in ASCII
    without quotes and without what starts an escape, an item or a property. *)
Theorem condition_render_truth `{Host} p ex lead sp trail a : blank lead -> blank sp -> sp <> [] -> blank trail -> cond_wf a ->
  outcome <$> evaluate_inner (lead ++ render_ast sp (cond_ast a) ++ trail) p ex = Some (outcome_of (meaning a)).
Proof.
  intros Hlead Hsp Hne Htrail Ha. rewrite condition_render_texts by (done || by apply cond_safe). by rewrite truth_meaning.
Qed.

Lemma condition_render_truth_witness :
  let host := {| os := #"linux"; is_file := fun _ => false |} in
  outcome <$> evaluate_inner (#"  ('-7'  <  '12'  And  !('1.10.0'  <=  '1.9.3.1')) ") PropertyMap_new None = Some Outcome_True.
Proof.
  intros host.
  apply (condition_render_truth PropertyMap_new None (#"  ") (#"  ") (#" ")
    (CAnd (CCmp CompareOp_Lt (Int (-7)) (Int 12)) (CNot (CCmp CompareOp_Lte (Ver 1 10 0 None) (Ver 1 9 3 (Some 1%N))))));
    [repeat constructor|repeat constructor|done|repeat constructor|].
  repeat split; repeat constructor; by vm_compute.
Defined.
