(* ===== verification/Glob.v ===== *)
(** * MSBuild globs: [msbuild/src/glob.rs]

    Patterns, their matching against paths, and the selection of candidates.  The
    code has one loop twice, with two indices and the place of the last star:
    [seg_match] over the characters of a segment and [path_match] over the
    segments of a path.  It is written once, as [star_match]; [None] is exhausted
    fuel, which [star_match_naive] excludes.

    The naive matchers are those of the unit tests. *)

From S2P Require Import Prelude Order Encoding.

(** ** The loop of the two matchers *)

Section star_match.
Context {P X : Type} (is_star : P -> bool) (one : P -> X -> bool).

(** The loop [while j < s.len()]: [Some None] is its [return false], [Some (Some
    i)] the token reached at the end of the text. *)
Fixpoint star_loop (fuel : nat) (pat : list P) (s : list X) (i j : nat) (star : option (nat * nat)) : option (option nat) :=
  match fuel with
  | O => None
  | S fuel =>
      match s !! j with
      | None => Some (Some i)
      | Some x =>
          let backtrack :=
            match star with
            | Some (si, sj) => star_loop fuel pat s (S si) (S sj) (Some (si, S sj))
            | None => Some None
            end in
          match pat !! i with
          | Some p =>
              if is_star p then star_loop fuel pat s (S i) j (Some (i, j))
              else if one p x then star_loop fuel pat s (S i) (S j) star
              else backtrack
          | None => backtrack
          end
      end
  end.

(** [while pat.get(i) is a star { i += 1 }] *)
Fixpoint skip_stars (rest : list P) (i : nat) : nat :=
  match rest with
  | [] => i
  | p :: rest => if is_star p then skip_stars rest (S i) else i
  end.

Definition star_match (pat : list P) (s : list X) : option bool :=
  reached ← star_loop (S (length s * S (length pat) + length pat)) pat s 0 0 None;
  Some (match reached with
        | None => false
        | Some i => Nat.eqb (skip_stars (drop i pat) i) (length pat)
        end).

(** The reference: a star takes any number of elements. *)
Fixpoint star_naive (pat : list P) (s : list X) : bool :=
  match pat with
  | [] => is_empty s
  | p :: rest =>
      if is_star p then existsb (fun i => star_naive rest (drop i s)) (seq 0 (S (length s)))
      else match s with [] => false | x :: s => one p x && star_naive rest s end
  end.
End star_match.

(** ** Patterns *)

Inductive Tok := Lit (c : char) | Star | Question.

Inductive Seg := Match (toks : list Tok) | DoubleStar.

Record Pattern := { segs : list Seg }.

Inductive GlobDecline :=
| OrderTie (first second : str)
| NonAsciiOrder (path : str)
| CaseAmbiguous (path : str)
| DepthLimit (dir : str)
| SymlinkCycle (path : str).

(** [raw.split(['/', '\\'])] *)
Definition split_separators (raw : str) : list str :=
  split (#c"/") (map (fun c => if N.eqb c (#c"\") then #c"/" else c) raw).

Definition split_segments (raw : str) : list str :=
  List.filter (fun s => negb (is_empty s) && negb (str_eqb s (#".")))%bool (split_separators raw).

Definition Tok_of (c : char) : Tok :=
  if N.eqb c (#c"*") then Star else if N.eqb c (#c"?") then Question else Lit c.

Definition Seg_of (s : str) : Seg := if str_eqb s (#"**") then DoubleStar else Match (map Tok_of s).

Definition Pattern_parse (fragment : str) : Pattern := {| segs := map Seg_of (split_segments fragment) |}.

Definition with_literal_prefix (literal : list str) (fragment : str) : Pattern :=
  {| segs := map (fun s => Match (map Lit s)) (flat_map split_segments literal) ++ segs (Pattern_parse fragment) |}.

Definition is_star_tok (t : Tok) : bool := match t with Star => true | _ => false end.
Definition is_double_star (s : Seg) : bool := match s with DoubleStar => true | _ => false end.

Definition is_glob (p : Pattern) : bool :=
  existsb (fun seg => match seg with
                      | DoubleStar => true
                      | Match toks => existsb (fun t => match t with Star | Question => true | Lit _ => false end) toks
                      end) (segs p).

(** A token other than a star takes one character. *)
Definition tok_one (t : Tok) (c : char) : bool :=
  match t with Question => true | Lit c' => N.eqb c' c | Star => false end.

Definition seg_match : list Tok -> str -> option bool := star_match is_star_tok tok_one.

(** [path_match] calls [seg_match] on the segments it meets; [default] stands for
    exhausted fuel, which does not occur. *)
Definition seg_one (s : Seg) (segment : str) : bool :=
  match s with Match toks => default false (seg_match toks segment) | DoubleStar => false end.

Definition path_match : list Seg -> list str -> option bool := star_match is_double_star seg_one.

Definition Pattern_matches (p : Pattern) (candidate : str) : bool :=
  default false (path_match (segs p) (split_segments candidate)).

Definition fold_tok (t : Tok) : Tok := match t with Lit c => Lit (to_ascii_lowercase c) | other => other end.
Definition fold_seg (s : Seg) : Seg := match s with DoubleStar => DoubleStar | Match toks => Match (map fold_tok toks) end.

Definition matches_ignoring_ascii_case (p : Pattern) (candidate : str) : bool :=
  Pattern_matches {| segs := map fold_seg (segs p) |} (lower candidate).

(** ** Selection *)

Definition selected_both_ways (include : Pattern) (excludes : list Pattern) (candidate : str) : bool * bool :=
  ((Pattern_matches include candidate && negb (existsb (fun e => Pattern_matches e candidate) excludes))%bool,
   (matches_ignoring_ascii_case include candidate
    && negb (existsb (fun e => matches_ignoring_ascii_case e candidate) excludes))%bool).

Definition survives_excludes (excludes : list Pattern) (candidate : str) : result bool GlobDecline :=
  let exact := negb (existsb (fun e => Pattern_matches e candidate) excludes) in
  let folded := negb (existsb (fun e => matches_ignoring_ascii_case e candidate) excludes) in
  if negb (Bool.eqb exact folded) then Err (CaseAmbiguous candidate) else Ok exact.

(** The number of equal elements at the front of two lists. *)
Fixpoint agreeing (a b : list N) : nat :=
  match a, b with
  | x :: a, y :: b => if N.eqb x y then S (agreeing a b) else 0
  | _, _ => 0
  end.

Definition common_prefix_len (strings : list str) : nat :=
  match strings with
  | [] => 0
  | first :: rest =>
      fold_left (fun len s => agreeing (take len (encode_utf8 first)) (encode_utf8 s)) rest (length (encode_utf8 first))
  end.

Definition to_ascii_uppercase (c : N) : N := if is_ascii_lower c then (c - 32)%N else c.

Definition ordinal_ignore_case (a b : str) : comparison :=
  list_cmp N.compare (map to_ascii_uppercase (encode_utf8 a)) (map to_ascii_uppercase (encode_utf8 b)).

Definition is_ascii (bytes : list N) : bool := forallb (fun b => N.ltb b 128) bytes.

(** [matched.windows(2).find(..)] *)
Fixpoint find_tie (l : list str) : option (str * str) :=
  match l with
  | a :: ((b :: _) as l') =>
      if (negb (str_eqb a b) && cmp_eqb ordinal_ignore_case a b)%bool then Some (a, b) else find_tie l'
  | _ => None
  end.

Definition sort_like_msbuild (matched : list str) : result (list str) GlobDecline :=
  if Nat.ltb (length matched) 2 then Ok matched
  else
    let shared := common_prefix_len matched in
    match find (fun m => negb (is_ascii (drop shared (encode_utf8 m)))) matched with
    | Some path => Err (NonAsciiOrder path)
    | None =>
        let matched := sort_by ordinal_ignore_case matched in
        match find_tie matched with
        | Some (first, second) => Err (OrderTie first second)
        | None => Ok matched
        end
    end.

Record GlobRoot := { prefix : list str; tail_depth : option nat }.

Definition is_wild (s : str) : bool := (contains_char (#c"*") s || contains_char (#c"?") s)%bool.

Fixpoint count_while {A} (p : A -> bool) (l : list A) : nat :=
  match l with x :: l => if p x then S (count_while p l) else 0 | [] => 0 end.

Definition split_glob_root (fragment : str) : GlobRoot :=
  let segs := split_segments fragment in
  let prefix_len := count_while (fun s => negb (is_wild s)) segs in
  let tail := drop prefix_len segs in
  {| prefix := take prefix_len segs;
     tail_depth := if existsb (str_eqb (#"**")) tail then None else Some (length tail) |}.

(** The matches of one fragment, before their order. *)
Fixpoint select_matches (candidates : list str) (inc : Pattern) (excludes : list Pattern) : result (list str) GlobDecline :=
  match candidates with
  | [] => Ok []
  | candidate :: candidates =>
      let '(exact, folded) := selected_both_ways inc excludes candidate in
      if negb (Bool.eqb exact folded) then Err (CaseAmbiguous candidate)
      else
        let? matched := select_matches candidates inc excludes in
        Ok (if exact then join (#"/") (split_segments candidate) :: matched else matched)
  end.

Fixpoint select (candidates : list str) (includes excludes : list Pattern) : result (list str) GlobDecline :=
  match includes with
  | [] => Ok []
  | inc :: includes =>
      let? matched := select_matches candidates inc excludes in
      let? matched := sort_like_msbuild matched in
      let? out := select candidates includes excludes in
      Ok (matched ++ out)
  end.

(** ** The naive matchers of the tests *)

Definition seg_match_naive : str -> str -> bool :=
  star_naive (N.eqb (#c"*")) (fun p c => if N.eqb p (#c"?") then true else N.eqb p c).
Definition path_match_naive : list str -> list str -> bool :=
  star_naive (fun p => str_eqb p (#"**")) seg_match_naive.
Definition matches_naive (pattern path : str) : bool :=
  path_match_naive (split_segments pattern) (split_segments path).

Example glob_ex :
  Pattern_matches (Pattern_parse (#"src/**/*.f?")) (#".\src\a\b\Main.fs") = true
  /\ Pattern_matches (Pattern_parse (#"*a*b")) (#"xaabb") = true
  /\ Pattern_matches (with_literal_prefix [#"p*"] (#"*.fs")) (#"pq/A.fs") = false
  /\ select [#"b.fs"; #"lib/c.fs"; #"a_.fs"; #"aZ.fs"] [Pattern_parse (#"*.fs")] [] = Ok [#"aZ.fs"; #"a_.fs"; #"b.fs"]
  /\ select [#"A.fs"; #"a.fs"] [Pattern_parse (#"*.fs")] [] = Err (OrderTie (#"A.fs") (#"a.fs"))
  /\ split_glob_root (#"../shared/*/*.fs") = {| prefix := [#".."; #"shared"]; tail_depth := Some 2 |}.
Proof. vm_compute. by repeat split. Qed.
