(* ===== verification/GlobThm.v ===== *)
(** * Globs match and select what they mean

    The loop with one remembered star agrees with the naive matcher
    ([star_match_naive]), so compiled patterns match exactly as the reference of
    the tests does; the selection does not depend on the order in which the
    directory was listed, nor on whether the host ignores case; and the glob root
    covers every match. *)

From stdpp Require Import sorting.
From S2P Require Import Prelude Order Encoding Glob.

(** ** The loop is the naive matcher *)

Section star.
Context {P X : Type} (is_star : P -> bool) (one : P -> X -> bool).
Local Notation naive := (star_naive is_star one).

Lemma naive_star p rest s : is_star p = true ->
  naive (p :: rest) s = true <-> exists k, k <= length s /\ naive rest (drop k s) = true.
Proof.
  intros Hp. cbn [star_naive]. rewrite Hp, existsb_exists. split.
  - intros (k & Hk%in_seq & H). exists k. split; [lia|done].
  - intros (k & Hk & H). exists k. split; [apply in_seq; lia|done].
Qed.

Lemma naive_one p rest x s : is_star p = false -> naive (p :: rest) (x :: s) = (one p x && naive rest s)%bool.
Proof. intros Hp. cbn [star_naive]. by rewrite Hp. Qed.

Lemma naive_one_inv p rest s : is_star p = false -> naive (p :: rest) s = true ->
  exists x s', s = x :: s' /\ one p x = true /\ naive rest s' = true.
Proof. intros Hp. destruct s as [|x s]; cbn [star_naive]; rewrite Hp; [done|]. intros [? ?]%andb_true_iff. eauto. Qed.

(** At the end of the text only stars may remain. *)
Lemma naive_end rest : naive rest [] = forallb is_star rest.
Proof.
  induction rest as [|p rest IH]; [done|]. cbn [forallb]. destruct (is_star p) eqn:Hp; cbn [andb].
  - rewrite <-IH. apply eq_true_iff_eq. rewrite naive_star by done. split.
    + intros (k & Hk & H). by rewrite drop_nil in H.
    + intros H. exists 0. split; [simpl; lia|done].
  - cbn [star_naive]. by rewrite Hp.
Qed.

Lemma skip_stars_end rest i : Nat.eqb (skip_stars is_star rest i) (i + length rest) = forallb is_star rest.
Proof.
  revert i. induction rest as [|p rest IH]; intros i; cbn [skip_stars forallb length]; [by rewrite Nat.add_0_r, Nat.eqb_refl|].
  destruct (is_star p); cbn [andb]; [by rewrite <-Nat.add_succ_comm|]. apply Nat.eqb_neq. lia.
Qed.

Context (pat : list P) (s : list X).
Definition at_pair (i j : nat) : Prop := naive (drop i pat) (drop j s) = true.

(** The tokens after the remembered star, up to the current one, each took one
    element; so a later start of theirs ends later. *)
Definition after_star (i j si sj : nat) : Prop :=
  si < i /\ sj <= j /\ i - S si = j - sj /\ forall m p, S si <= m < i -> pat !! m = Some p -> is_star p = false.

Lemma at_pair_run n a k : (forall m p, a <= m < a + n -> pat !! m = Some p -> is_star p = false) -> a + n <= length pat ->
  at_pair a k -> k <= length s -> k + n <= length s /\ at_pair (a + n) (k + n).
Proof.
  revert a k. induction n as [|n IH]; intros a k Hns Hl Hm Hk; [by rewrite !Nat.add_0_r|].
  destruct (lookup_lt_is_Some_2 pat a) as [p Hp]; [lia|]. unfold at_pair in Hm. rewrite (drop_S _ _ _ Hp) in Hm.
  apply naive_one_inv in Hm as (x & s' & Es & _ & Hm); [|eapply Hns; [|done]; lia].
  assert (Hk' : k < length s) by (apply (f_equal length) in Es; rewrite length_drop in Es; cbn [length] in Es; lia).
  assert (drop (S k) s = s') by (rewrite <-Nat.add_1_r, <-drop_drop, Es; done). subst s'.
  rewrite <-!Nat.add_succ_comm. apply IH; [|lia|done|lia]. intros m q Hm'. apply Hns. lia.
Qed.

Lemma later_start i j si sj k : after_star i j si sj -> i <= length pat -> sj < k <= length s -> at_pair (S si) k ->
  exists j', j < j' <= length s /\ at_pair i j'.
Proof.
  intros (Hi & Hj & Hd & Hns) Hl Hk Hm. destruct (at_pair_run (i - S si) (S si) k) as [Hle Hm']; [|lia|done|lia|].
  - intros m p Hm'. apply Hns. lia.
  - replace (S si + (i - S si)) with i in Hm' by lia. exists (k + (i - S si)). split; [lia|done].
Qed.

(** What the loop has established: the text matches from here, or from a later
    place of the remembered star. *)
Definition loop_inv (i j : nat) (star : option (nat * nat)) : Prop :=
  i <= length pat /\ j <= length s
  /\ (naive pat s = true <-> at_pair i j \/ exists si sj k, star = Some (si, sj) /\ sj < k <= length s /\ at_pair (S si) k)
  /\ forall si sj, star = Some (si, sj) -> after_star i j si sj.

Definition backtracks (star : option (nat * nat)) : nat := match star with Some (_, sj) => length s - sj | None => length s end.

Lemma inv_star i j star p : loop_inv i j star -> pat !! i = Some p -> is_star p = true -> loop_inv (S i) j (Some (i, j)).
Proof.
  intros (Hi & Hj & HG & Hst) Hp Hs. apply lookup_lt_Some in Hp as Hlt. split_and!; [lia|done| |].
  - assert (Hat : at_pair i j <-> exists k, j <= k <= length s /\ at_pair (S i) k).
    { unfold at_pair at 1. rewrite (drop_S _ _ _ Hp), naive_star by done. split.
      - intros (k & Hk & Hm). rewrite length_drop in Hk. rewrite drop_drop in Hm. exists (j + k). split; [lia|done].
      - intros (k & Hk & Hm). exists (k - j). rewrite length_drop, drop_drop. replace (j + (k - j)) with k by lia. split; [lia|done]. }
    rewrite HG. split.
    + intros [Hm|(si & sj & k & E & Hk & Hm)].
      * apply Hat in Hm as (k & Hk & Hm). destruct (decide (k = j)) as [->|]; [by left|]. right. exists i, j, k. split_and!; [done|lia..|done].
      * destruct (later_start i j si sj k (Hst _ _ E) Hi Hk Hm) as (j' & Hj' & Hm'). right.
        unfold at_pair in Hm'. rewrite (drop_S _ _ _ Hp) in Hm'. apply naive_star in Hm' as (k' & Hk' & Hm'); [|done].
        rewrite length_drop in Hk'. rewrite drop_drop in Hm'. exists i, j, (j' + k'). split_and!; [done|lia..|done].
    + intros [Hm|(si & sj & k & [= <- <-] & Hk & Hm)]; left; apply Hat; [exists j|exists k]; (split; [lia|done]).
  - intros si sj [= <- <-]. split_and!; [lia..|]. intros m q Hm. lia.
Qed.

Lemma inv_one i j star p x : loop_inv i j star -> pat !! i = Some p -> s !! j = Some x -> is_star p = false -> one p x = true ->
  loop_inv (S i) (S j) star.
Proof.
  intros (Hi & Hj & HG & Hst) Hp Hx Hs Ho. apply lookup_lt_Some in Hp as Hlt. apply lookup_lt_Some in Hx as Hltx. split_and!; [lia|lia| |].
  - rewrite HG. unfold at_pair at 1 3. rewrite (drop_S _ _ _ Hp), (drop_S _ _ _ Hx), naive_one, Ho by done. done.
  - intros si sj E. destruct (Hst si sj E) as (H1 & H2 & H3 & H4). split_and!; [lia..|].
    intros m q Hm Hq. destruct (decide (m = i)) as [->|]; [congruence|]. eapply H4; [|done]. lia.
Qed.

Lemma inv_backtrack i j x si sj : loop_inv i j (Some (si, sj)) -> s !! j = Some x -> ~ at_pair i j -> loop_inv (S si) (S sj) (Some (si, S sj)).
Proof.
  intros (Hi & Hj & HG & Hst) Hx Hno. apply lookup_lt_Some in Hx. destruct (Hst _ _ eq_refl) as (H1 & H2 & H3 & H4). split_and!; [lia|lia| |].
  - rewrite HG. split.
    + intros [|(a & b & k & [= <- <-] & Hk & Hm)]; [done|]. destruct (decide (k = S sj)) as [->|]; [by left|]. right.
      exists si, (S sj), k. split_and!; [done|lia..|done].
    + intros [Hm|(a & b & k & [= <- <-] & Hk & Hm)]; right; [exists si, sj, (S sj)|exists si, sj, k]; (split_and!; [done|lia..|done]).
  - intros a b [= <- <-]. split_and!; [lia..|]. intros m q Hm. lia.
Qed.

Lemma inv_end i j star : loop_inv i j star -> s !! j = None ->
  Nat.eqb (skip_stars is_star (drop i pat) i) (length pat) = naive pat s.
Proof.
  intros (Hi & Hj & HG & Hst) Hx. apply lookup_ge_None in Hx. assert (j = length s) as -> by lia.
  replace (length pat) with (i + length (drop i pat)) by (rewrite length_drop; lia). rewrite skip_stars_end, <-naive_end.
  apply eq_true_iff_eq. rewrite HG. unfold at_pair at 1. rewrite drop_all. split; [by left|].
  intros [H|(si & sj & k & E & Hk & Hm)]; [done|]. destruct (later_start i (length s) si sj k (Hst _ _ E) Hi Hk Hm) as (j' & Hj' & _). lia.
Qed.

Lemma star_loop_naive fuel i j star : loop_inv i j star -> backtracks star * S (length pat) + (length pat - i) < fuel ->
  exists r, star_loop is_star one fuel pat s i j star = Some r
    /\ (match r with None => false | Some i => Nat.eqb (skip_stars is_star (drop i pat) i) (length pat) end) = naive pat s.
Proof.
  revert i j star. induction fuel as [|fuel IH]; intros i j star Hinv Hf; [lia|]. cbn [star_loop].
  destruct (s !! j) as [x|] eqn:Hx; [|eexists; split; [done|]; by eapply inv_end].
  pose proof (lookup_lt_Some _ _ _ Hx) as Hlx. pose proof Hinv as (Hi & _ & HG & Hst).
  assert (Hback : ~ at_pair i j -> exists r, (match star with Some (si, sj) => star_loop is_star one fuel pat s (S si) (S sj) (Some (si, S sj)) | None => Some None end) = Some r
    /\ (match r with None => false | Some i => Nat.eqb (skip_stars is_star (drop i pat) i) (length pat) end) = naive pat s).
  { intros Hno. destruct star as [[si sj]|].
    - apply IH; [by eapply inv_backtrack|]. destruct (Hst _ _ eq_refl) as (H1 & H2 & _). cbn [backtracks] in *. nia.
    - exists None. split; [done|]. symmetry. apply not_true_iff_false. intros [|(? & ? & ? & ? & _)]%HG; done. }
  destruct (pat !! i) as [p|] eqn:Hp.
  - pose proof (lookup_lt_Some _ _ _ Hp). destruct (is_star p) eqn:Hs; [|destruct (one p x) eqn:Ho].
    + apply IH; [by eapply inv_star|]. destruct star as [[si sj]|]; cbn [backtracks] in *; [destruct (Hst _ _ eq_refl) as (H1 & H2 & _)|]; nia.
    + apply IH; [by eapply inv_one|]. lia.
    + apply Hback. unfold at_pair. by rewrite (drop_S _ _ _ Hp), (drop_S _ _ _ Hx), naive_one, Ho by done.
  - apply Hback. unfold at_pair. apply lookup_ge_None in Hp. rewrite drop_ge by done. by rewrite (drop_S _ _ _ Hx).
Qed.

Lemma star_match_naive : star_match is_star one pat s = Some (naive pat s).
Proof.
  unfold star_match. destruct (star_loop_naive (S (length s * S (length pat) + length pat)) 0 0 None) as (r & -> & E).
  - split_and!; [lia|lia| |done]. split; [by left|]. intros [|(? & ? & ? & ? & _)]; done.
  - cbn [backtracks]. lia.
  - cbn [mbind option_bind]. by rewrite E.
Qed.
End star.

(** ** Compiled patterns *)

(** Compiling the elements of a pattern does not change what it matches. *)
Lemma star_naive_map {P Q X} (star : P -> bool) (one : P -> X -> bool) (star' : Q -> bool) (one' : Q -> X -> bool) (f : Q -> P) pat s :
  (forall q, star (f q) = star' q) -> (forall q x, star' q = false -> one (f q) x = one' q x) ->
  star_naive star one (map f pat) s = star_naive star' one' pat s.
Proof.
  intros Hs Ho. revert s. induction pat as [|q pat IH]; intros s; [done|]. cbn [map star_naive]. rewrite Hs.
  destruct (star' q) eqn:E.
  - apply eq_true_iff_eq. rewrite !existsb_exists. split; intros (k & Hk & H); exists k; (split; [done|]); [by rewrite <-IH|by rewrite IH].
  - destruct s as [|x s]; [done|]. by rewrite Ho, IH.
Qed.

Lemma seg_match_parse p s : seg_match (map Tok_of p) s = Some (seg_match_naive p s).
Proof.
  unfold seg_match. rewrite star_match_naive. f_equal. apply star_naive_map; unfold Tok_of.
  - intros q. rewrite N.eqb_sym. destruct (N.eqb (#c"*") q); [done|]. by destruct (N.eqb q (#c"?")).
  - intros q x Hq. rewrite N.eqb_sym, Hq. by destruct (N.eqb q (#c"?")).
Qed.

Lemma path_match_parse ps path : path_match (map Seg_of ps) path = Some (path_match_naive ps path).
Proof.
  unfold path_match. rewrite star_match_naive. f_equal. apply star_naive_map; unfold Seg_of.
  - intros q. by destruct (str_eqb q (#"**")).
  - intros q x ->. cbn [seg_one]. by rewrite seg_match_parse.
Qed.

Lemma Pattern_matches_naive p candidate :
  Pattern_matches p candidate = star_naive is_double_star seg_one (segs p) (split_segments candidate).
Proof. unfold Pattern_matches, path_match. by rewrite star_match_naive. Qed.

(** Literal segments match themselves only. *)
Lemma naive_literal {P X} (star : P -> bool) (one : P -> X -> bool) (f : X -> P) (lits : list X) rest s :
  (forall x, star (f x) = false) -> (forall x y, one (f x) y = true <-> x = y) ->
  star_naive star one (map f lits ++ rest) s = true <-> exists s', s = lits ++ s' /\ star_naive star one rest s' = true.
Proof.
  intros Hs Ho. revert s. induction lits as [|x lits IH]; intros s; [simpl; naive_solver|]. cbn [map app star_naive]. rewrite Hs.
  destruct s as [|y s]; [naive_solver|]. rewrite andb_true_iff, Ho, IH. naive_solver.
Qed.

Lemma seg_one_lit a b : seg_one (Match (map Lit a)) b = true <-> a = b.
Proof.
  unfold seg_one, seg_match. rewrite star_match_naive. cbn [from_option id]. rewrite <-(app_nil_r (map Lit a)).
  rewrite (naive_literal _ _ Lit); [|done|intros x y; apply N.eqb_eq]. cbn [star_naive]. split.
  - intros (s' & -> & Hs). destruct s'; [by rewrite app_nil_r|done].
  - intros ->. exists []. by rewrite app_nil_r.
Qed.

Lemma with_literal_prefix_matches literal fragment candidate :
  Pattern_matches (with_literal_prefix literal fragment) candidate = true
  <-> exists rest, split_segments candidate = flat_map split_segments literal ++ rest
        /\ path_match_naive (split_segments fragment) rest = true.
Proof.
  rewrite Pattern_matches_naive. unfold with_literal_prefix. cbn [segs].
  rewrite (naive_literal _ _ (fun s => Match (map Lit s))); [|done|apply seg_one_lit]. f_equiv. intros rest. f_equiv.
  pose proof (path_match_parse (split_segments fragment) rest) as E. unfold path_match in E. rewrite star_match_naive in E. injection E as E.
  change (segs (Pattern_parse fragment)) with (map Seg_of (split_segments fragment)). by rewrite E.
Qed.

(** ** The glob root *)

Lemma seg_match_naive_plain a b : is_wild a = false -> seg_match_naive a b = true <-> a = b.
Proof.
  unfold is_wild. rewrite orb_false_iff. intros [Hs Hq]. unfold contains_char in *. revert b.
  induction a as [|x a IH]; intros b; [by destruct b|]. cbn [existsb] in Hs, Hq. apply orb_false_iff in Hs as [Hx Hs], Hq as [Hy Hq].
  unfold seg_match_naive in *. cbn [star_naive]. rewrite Hx, N.eqb_sym, Hy. destruct b as [|y b]; [done|]. rewrite andb_true_iff, N.eqb_eq, IH by done.
  naive_solver.
Qed.

Lemma path_naive_plain lits ps path : Forall (fun s => is_wild s = false) lits ->
  path_match_naive (lits ++ ps) path = true <-> exists rest, path = lits ++ rest /\ path_match_naive ps rest = true.
Proof.
  intros Hl. revert path. induction Hl as [|s lits Hs _ IH]; intros path; [simpl; naive_solver|].
  unfold path_match_naive in *. cbn [app star_naive].
  assert (str_eqb s (#"**") = false) as ->.
  { apply not_true_iff_false. intros ->%str_eqb_eq. done. }
  destruct path as [|y path]; [naive_solver|]. rewrite andb_true_iff, seg_match_naive_plain, IH by done. naive_solver.
Qed.

Lemma path_naive_length ps path : existsb (str_eqb (#"**")) ps = false -> path_match_naive ps path = true -> length path = length ps.
Proof.
  revert path. induction ps as [|s ps IH]; intros path; [by destruct path|]. cbn [existsb]. intros [Hs Hps]%orb_false_iff.
  unfold path_match_naive. cbn [star_naive]. assert (str_eqb s (#"**") = false) as ->.
  { apply not_true_iff_false. intros ->%str_eqb_eq. done. }
  destruct path as [|y path]; [done|]. intros [_ H]%andb_true_iff. cbn [length]. f_equal. by apply IH.
Qed.

Lemma take_count_while {A} (p : A -> bool) l : Forall (fun x => p x = true) (take (count_while p l) l).
Proof. induction l as [|x l IH]; cbn [count_while]; [constructor|]. destruct (p x) eqn:E; [by constructor|constructor]. Qed.

(** ** The common prefix *)

Lemma agreeing_le a b k : k <= agreeing a b <-> k <= length a /\ k <= length b /\ take k a = take k b.
Proof.
  revert b k. induction a as [|x a IH]; intros b [|k]; [by split; [intros _; split_and!; [lia..|]|lia]| |by split; [intros _; split_and!; [lia..|]|lia]|].
  { cbn [agreeing length]. split; [lia|]. intros (? & _). lia. }
  destruct b as [|y b]; cbn [agreeing length take]; [split; [lia|]; intros (_ & ? & _); lia|].
  destruct (N.eqb_spec x y) as [->|Hne].
  - rewrite <-Nat.succ_le_mono, IH. split; [intros (? & ? & ->); split_and!; [lia..|done]|]. intros (? & ? & [= E]). split_and!; [lia..|done].
  - split; [lia|]. intros (_ & _ & [= ]). done.
Qed.

Lemma common_prefix_le strings k : strings <> [] ->
  k <= common_prefix_len strings <-> exists p, length p = k /\ forall s, s ∈ strings -> take k (encode_utf8 s) = p.
Proof.
  destruct strings as [|first rest]; [done|]. intros _. cbn [common_prefix_len]. set (f := encode_utf8 first).
  assert (Hfold : forall acc, acc <= length f ->
    k <= fold_left (fun len s => agreeing (take len f) (encode_utf8 s)) rest acc
    <-> k <= acc /\ forall s, s ∈ rest -> k <= length (encode_utf8 s) /\ take k f = take k (encode_utf8 s)).
  { induction rest as [|s rest IH]; intros acc Hacc; cbn [fold_left]; [split; [intros; split; [done|by intros s ?%not_elem_of_nil]|by intros []]|].
    rewrite IH; [|pose proof (proj1 (agreeing_le (take acc f) (encode_utf8 s) _) (le_n _)) as (H & _ & _); rewrite length_take in H; lia].
    rewrite agreeing_le, length_take, take_take. split.
    - intros ((H1 & H2 & H3) & H4). split; [lia|]. intros s' [->|Hs]%elem_of_cons; [|by apply H4]. split; [done|]. by rewrite Nat.min_l in H3 by lia.
    - intros (H1 & H2). destruct (H2 s) as [H3 H4]; [left|]. split; [split_and!; [lia|done|by rewrite Nat.min_l by lia]|]. intros s' Hs. apply H2. by right. }
  rewrite Hfold by done. split.
  - intros (Hk & Hall). exists (take k f). split; [rewrite length_take; lia|]. intros s [->|Hs]%elem_of_cons; [done|]. by destruct (Hall s Hs) as [_ <-].
  - intros (p & Hp & Hall). assert (Hlen : forall s, s ∈ first :: rest -> k <= length (encode_utf8 s)).
    { intros s Hs. specialize (Hall s Hs). rewrite <-Hall, length_take in Hp. lia. }
    split; [apply Hlen; left|]. intros s Hs. split; [apply Hlen; by right|]. unfold f. rewrite !Hall; [done|by right|left].
Qed.

Lemma common_prefix_perm l l' : l ≡ₚ l' -> common_prefix_len l = common_prefix_len l'.
Proof.
  intros Hp. destruct l as [|s l]; [apply Permutation_nil_l in Hp as ->; done|].
  assert (Hne' : l' <> []) by (intros ->; by apply Permutation_nil_r in Hp).
  assert (Heq : forall k, k <= common_prefix_len (s :: l) <-> k <= common_prefix_len l').
  { intros k. rewrite !common_prefix_le by done. f_equiv. intros p. f_equiv. split; intros H t Ht; apply H; [by rewrite Hp|by rewrite <-Hp]. }
  pose proof (proj1 (Heq _) (le_n _)). pose proof (proj2 (Heq _) (le_n _)). lia.
Qed.

(** ** The order of a fragment *)

#[export] Instance ordinal_total : TotalCmp ordinal_ignore_case.
Proof. apply (cmp_on_total (fun s => map to_ascii_uppercase (encode_utf8 s)) (list_cmp N.compare)). apply _. Qed.

(** In a sorted list without a tie between neighbours there is none at all. *)
Lemma no_tie_eq l a b : StronglySorted (fun a b => ordinal_ignore_case a b <> Gt) l -> find_tie l = None ->
  a ∈ l -> b ∈ l -> ordinal_ignore_case a b = Eq -> a = b.
Proof.
  assert (Hhead : forall x l, StronglySorted (fun a b => ordinal_ignore_case a b <> Gt) (x :: l) -> find_tie (x :: l) = None ->
    forall c, c ∈ l -> ordinal_ignore_case x c = Eq -> x = c).
  { intros x l0. revert x. induction l0 as [|y l0 IH]; intros x Hs Hf c Hc E; [by apply not_elem_of_nil in Hc|].
    apply StronglySorted_inv in Hs as [Hs Hx]. cbn [find_tie] in Hf. destruct (negb (str_eqb x y) && _)%bool eqn:Et; [done|].
    assert (Exy : ordinal_ignore_case x y = Eq -> x = y).
    { intros Exy. apply andb_false_iff in Et as [Et|Et]; [by apply negb_false_iff, str_eqb_eq in Et|].
      apply (cmp_eqb_spec ordinal_ignore_case) in Exy. congruence. }
    apply elem_of_cons in Hc as [->|Hc]; [auto|].
    assert (E' : ordinal_ignore_case x y = Eq).
    { apply (cmp_eq_iff ordinal_ignore_case). split; [by apply Forall_inv in Hx|].
      rewrite (cmp_eq_l ordinal_ignore_case x c y E) || rewrite (cmp_eq_r ordinal_ignore_case x c y E).
      apply StronglySorted_inv in Hs as [_ Hy]. rewrite Forall_forall in Hy. by apply Hy. }
    rewrite (Exy E') in *. by apply IH. }
  revert a b. induction l as [|x l IH]; intros a b Hs Hf Ha Hb E; [by apply not_elem_of_nil in Ha|].
  apply elem_of_cons in Ha, Hb. destruct Ha as [->|Ha], Hb as [->|Hb]; [done|by eapply Hhead| |].
  - symmetry. eapply Hhead; [done..|]. by apply (cmp_eq_sym ordinal_ignore_case).
  - apply StronglySorted_inv in Hs as [Hs _]. apply IH; try done. destruct l as [|y l]; [done|]. cbn [find_tie] in Hf |- *. by destruct (_ && _)%bool in Hf.
Qed.

Lemma sort_like_msbuild_ok l r : sort_like_msbuild l = Ok r -> r ≡ₚ l /\ StronglySorted (fun a b => ordinal_ignore_case a b <> Gt) r.
Proof.
  unfold sort_like_msbuild. destruct (Nat.ltb_spec (length l) 2) as [Hl|Hl].
  - intros [= <-]. split; [done|]. destruct l as [|x [|y l]]; [constructor|by repeat constructor|simpl in Hl; lia].
  - destruct (find _ l); [done|]. destruct (find_tie _) as [[a b]|]; [done|]. intros [= <-]. split; [apply sort_by_perm|by apply sort_by_sorted, _].
Qed.

Lemma sort_like_msbuild_perm l l' r : l ≡ₚ l' -> sort_like_msbuild l = Ok r -> sort_like_msbuild l' = Ok r.
Proof.
  intros Hp. unfold sort_like_msbuild. rewrite <-(Permutation_length Hp), <-(common_prefix_perm _ _ Hp).
  destruct (Nat.ltb_spec (length l) 2) as [Hl|Hl].
  { intros [= <-]. f_equal. destruct l as [|x [|y l]]; [by apply Permutation_nil_l in Hp|by apply Permutation_singleton_l in Hp|simpl in Hl; lia]. }
  destruct (find _ l) eqn:Ef; [done|]. destruct (find_tie (sort_by ordinal_ignore_case l)) as [[a b]|] eqn:Et; [done|]. intros [= <-].
  assert (find (fun m => negb (is_ascii (drop (common_prefix_len l) (encode_utf8 m)))) l' = None) as ->.
  { destruct (find _ l') as [x|] eqn:Ef'; [|done]. apply find_some in Ef' as [Hin Hx].
    eapply find_none in Ef; [by rewrite Ef in Hx|]. apply list_elem_of_In. rewrite Hp. by apply list_elem_of_In. }
  pose proof (sort_by_sorted ordinal_ignore_case l) as Hs. pose proof (sort_by_sorted ordinal_ignore_case l') as Hs'.
  assert (sort_by ordinal_ignore_case l' = sort_by ordinal_ignore_case l) as ->; [|by rewrite Et].
  apply (StronglySorted_unique_strong (fun a b => ordinal_ignore_case a b <> Gt)); [|done|done|by rewrite !sort_by_perm].
  intros x y Hx Hy Hxy Hyx. eapply (no_tie_eq (sort_by ordinal_ignore_case l)); [done..| | |by apply (cmp_eq_iff ordinal_ignore_case)].
  - by rewrite sort_by_perm, Hp, <-(sort_by_perm ordinal_ignore_case l').
  - done.
Qed.

(** ** Selection *)

Definition exact (inc : Pattern) (excludes : list Pattern) (c : str) : bool := fst (selected_both_ways inc excludes c).
Definition folded (inc : Pattern) (excludes : list Pattern) (c : str) : bool := snd (selected_both_ways inc excludes c).
Definition normal (c : str) : str := join (#"/") (split_segments c).

Lemma select_matches_ok cs inc excludes matched : select_matches cs inc excludes = Ok matched <->
  Forall (fun c => exact inc excludes c = folded inc excludes c) cs /\ matched = map normal (List.filter (exact inc excludes) cs).
Proof.
  revert matched. induction cs as [|c cs IH]; intros matched; cbn [select_matches List.filter map]; [split; [intros [= <-]; by split|by intros [_ ->]]|].
  unfold exact at 2, folded at 1. rewrite (surjective_pairing (selected_both_ways inc excludes c)).
  fold (exact inc excludes c) (folded inc excludes c). rewrite Forall_cons. unfold exact at 4, folded at 2.
  fold (exact inc excludes c) (folded inc excludes c). cbn [fst snd].
  destruct (eqb (exact inc excludes c) (folded inc excludes c)) eqn:E; cbn [negb].
  - apply eqb_prop in E. rewrite rbind_ok. split.
    + intros (l & [Hall ->]%IH & [= <-]). split; [done|]. by destruct (exact inc excludes c).
    + intros [[_ Hall] ->]. exists (map normal (List.filter (exact inc excludes) cs)). split; [by apply IH|]. by destruct (exact inc excludes c).
  - apply eqb_false_iff in E. split; [done|]. by intros [[? _] _].
Qed.

(** ** Theorems *)

(** C35: A compiled pattern matches exactly what it means.  The matcher keeps two
    positions and the last star, at the level of segments and within each of them;
    on every pattern and path it returns, and its answer is that of the naive
    matcher, which tries every length for every star. *)
Theorem glob_matches_naive fragment candidate :
  path_match (segs (Pattern_parse fragment)) (split_segments candidate) = Some (matches_naive fragment candidate)
  /\ Pattern_matches (Pattern_parse fragment) candidate = matches_naive fragment candidate.
Proof.
  unfold Pattern_matches. assert (E := path_match_parse (split_segments fragment) (split_segments candidate)).
  change (segs (Pattern_parse fragment)) with (map Seg_of (split_segments fragment)). by rewrite E.
Qed.

(** The walk sees every match.  A path that a fragment, anchored at a literal
    base, matches lies below the base and the fixed root of the fragment, whatever
    wildcard characters the base itself contains; and unless the fragment has a
    [**] segment it lies exactly [tail_depth] levels below. *)
Theorem glob_root_covers base fragment candidate :
  Pattern_matches (with_literal_prefix base fragment) candidate = true ->
  exists rest, split_segments candidate = flat_map split_segments base ++ prefix (split_glob_root fragment) ++ rest
    /\ match tail_depth (split_glob_root fragment) with Some d => length rest = d | None => True end.
Proof.
  intros (path & E & Hm)%with_literal_prefix_matches. unfold split_glob_root. cbn [prefix tail_depth].
  set (ss := split_segments fragment) in *. set (n := count_while _ ss). rewrite <-(take_drop n ss) in Hm.
  apply path_naive_plain in Hm as (rest & -> & Hrest).
  - exists rest. split; [done|]. destruct (existsb _ (drop n ss)) eqn:Ee; [done|]. by apply path_naive_length.
  - eapply Forall_impl; [apply take_count_while|]. intros s Hs. by apply negb_true_iff in Hs.
Qed.

(** A selection is what every host would select, in MSBuild's order.  When
    [select] commits a list, no candidate's verdict changes when case is ignored;
    and the list is, fragment by fragment in document order, the candidates the
    fragment matches and no exclude does, each as often as it is listed, sorted by
    the case-insensitive ordinal order. *)
Theorem select_exact candidates includes excludes out :
  select candidates includes excludes = Ok out ->
  Forall (fun inc => Forall (fun c => exact inc excludes c = folded inc excludes c) candidates) includes
  /\ exists parts, out = concat parts
       /\ Forall2 (fun inc part => part ≡ₚ map normal (List.filter (exact inc excludes) candidates)
                                   /\ StronglySorted (fun a b => ordinal_ignore_case a b <> Gt) part) includes parts.
Proof.
  revert out. induction includes as [|inc includes IH]; intros out; cbn [select]; [intros [= <-]; split; [constructor|]; by exists []; split; [|constructor]|].
  intros (m & [Hall ->]%select_matches_ok & (sorted & [Hp Hs]%sort_like_msbuild_ok & (rest & (Hrest & parts & -> & Hparts)%IH & [= <-])%rbind_ok)%rbind_ok)%rbind_ok.
  split; [by constructor|]. exists (sorted :: parts). split; [done|]. by constructor.
Qed.

(** A selection does not depend on the order in which the file system lists
    the candidates: on any permutation of them [select] commits the same list. *)
Theorem select_order candidates candidates' includes excludes out :
  candidates ≡ₚ candidates' -> select candidates includes excludes = Ok out -> select candidates' includes excludes = Ok out.
Proof.
  intros Hp. revert out. induction includes as [|inc includes IH]; intros out; cbn [select]; [done|].
  intros (m & [Hall ->]%select_matches_ok & (sorted & Hs & (rest & Hrest%IH & [= <-])%rbind_ok)%rbind_ok)%rbind_ok.
  apply rbind_ok. exists (map normal (List.filter (exact inc excludes) candidates')). split.
  { apply select_matches_ok. split; [by rewrite <-Hp|done]. }
  apply rbind_ok. exists sorted. split; [|apply rbind_ok; by exists rest]. eapply sort_like_msbuild_perm; [|exact Hs].
  apply Permutation_map. clear -Hp. induction Hp; simpl; repeat case_match; by econstructor.
Qed.

(** ** Witnesses *)

Lemma glob_root_covers_witness :
  exists rest, split_segments (#"/p*/shared/a/B.fs") = flat_map split_segments [#"/p*"] ++ prefix (split_glob_root (#"shared/*/*.fs")) ++ rest
    /\ match tail_depth (split_glob_root (#"shared/*/*.fs")) with Some d => length rest = d | None => True end.
Proof. apply (glob_root_covers [#"/p*"] (#"shared/*/*.fs") (#"/p*/shared/a/B.fs")). vm_compute. reflexivity. Defined.

Definition listing : list str := [#"b.fs"; #"aZ.fs"; #"lib/c.fs"; #"a_.fs"].

Lemma select_exact_witness :
  Forall (fun inc => Forall (fun c => exact inc [] c = folded inc [] c) listing) [Pattern_parse (#"*.fs")]
  /\ exists parts, [#"aZ.fs"; #"a_.fs"; #"b.fs"] = concat parts
       /\ Forall2 (fun inc part => part ≡ₚ map normal (List.filter (exact inc []) listing)
                                   /\ StronglySorted (fun a b => ordinal_ignore_case a b <> Gt) part) [Pattern_parse (#"*.fs")] parts.
Proof. apply (select_exact listing [Pattern_parse (#"*.fs")] []). vm_compute. reflexivity. Defined.

Lemma select_order_witness :
  select [#"a_.fs"; #"lib/c.fs"; #"aZ.fs"; #"b.fs"] [Pattern_parse (#"*.fs")] [] = Ok [#"aZ.fs"; #"a_.fs"; #"b.fs"].
Proof.
  apply (select_order listing [#"a_.fs"; #"lib/c.fs"; #"aZ.fs"; #"b.fs"] [Pattern_parse (#"*.fs")] []).
  - unfold listing. apply (Permutation_rev [#"b.fs"; #"aZ.fs"; #"lib/c.fs"; #"a_.fs"]).
  - vm_compute. reflexivity.
Defined.
