(* ===== verification/GlobResolver.v ===== *)
(** * The file-system glob resolver ([msbuild/src/glob_resolver.rs])

    The directory walk that lists the files below the fixed root of a fragment, and
    the expansion of a request into paths with the matcher of [Glob].  A path of
    the operating system is its bytes; [to_string_lossy] is the decoding of
    [Encoding]. *)

From S2P Require Import Prelude Encoding Glob Properties.

(** ** The file system *)

Definition OsPath : Type := list N.

Inductive FileType := RegularFile | Directory | Symlink | OtherFile.

Record DirEntry := { file_name : OsPath; file_type : option FileType }.

(** [std::fs::read_dir] with its per-entry errors, [std::fs::metadata] and
    [std::fs::canonicalize]. *)
Class Disk := {
  read_dir : OsPath -> option (list (option DirEntry));
  metadata : OsPath -> option FileType;
  canonicalize : OsPath -> option OsPath;
}.

(** [entry.path()] *)
Definition entry_path (dir : OsPath) (e : DirEntry) : OsPath := Path_join dir (file_name e).

(** [path.components()]: whether there is a root, and the other components. *)
Definition Path_components (p : OsPath) : bool * list OsPath :=
  (is_absolute p,
   match segments p with
   | [] => []
   | x :: rest =>
       (if (is_empty x || is_absolute p && str_eqb x (#"."))%bool then [] else [x])
       ++ List.filter (fun s => negb (is_empty s) && negb (str_eqb s (#".")))%bool rest
   end).

(** Paths are equal when their components are. *)
Definition Path_eqb (p q : OsPath) : bool := bool_decide (Path_components p = Path_components q).

(** ** The walk *)

Section walk.
Context `{Disk}.

(** [is_dir] of the loop; [None] is [continue]. *)
Definition entry_is_dir (dir : OsPath) (e : DirEntry) : option bool :=
  match file_type e with
  | Some RegularFile => Some false
  | Some Directory => Some true
  | Some Symlink =>
      match metadata (entry_path dir e) with
      | Some RegularFile => Some false
      | Some Directory => Some true
      | _ => None
      end
  | _ => None
  end.

(** [rel] of the loop. *)
Definition extend (prefix name : str) : str := if is_empty prefix then name else prefix ++ #"/" ++ name.

(** The loop over the entries of [dir]; [enter] is the recursive call, and
    [bottom] says that it would list nothing. *)
Fixpoint walk_entries (enter : OsPath -> str -> list OsPath -> list str -> result (list str) GlobDecline) (bottom : bool)
    (dir : OsPath) (prefix : str) (ancestors : list OsPath) (entries : list (option DirEntry)) (out : list str)
    : result (list str) GlobDecline :=
  match entries with
  | [] => Ok out
  | None :: entries => walk_entries enter bottom dir prefix ancestors entries out
  | Some e :: entries =>
      match entry_is_dir dir e with
      | None => walk_entries enter bottom dir prefix ancestors entries out
      | Some is_dir =>
          let name := from_utf8_lossy (file_name e) in
          let rel := extend prefix name in
          if negb is_dir then walk_entries enter bottom dir prefix ancestors entries (out ++ [rel])
          else if bottom then walk_entries enter bottom dir prefix ancestors entries out
          else
            let path := entry_path dir e in
            match canonicalize path with
            | None => walk_entries enter bottom dir prefix ancestors entries out
            | Some canonical =>
                if existsb (Path_eqb canonical) ancestors then Err (SymlinkCycle (from_utf8_lossy path))
                else
                  let? out := enter path rel (ancestors ++ [canonical]) out in
                  walk_entries enter bottom dir prefix ancestors entries out
            end
      end
  end.

(** [levels] is [max_depth - depth], the levels that are left. *)
Fixpoint walk (levels : nat) (dir : OsPath) (prefix : str) (recursive : bool) (ancestors : list OsPath) (out : list str)
    : result (list str) GlobDecline :=
  match levels with
  | 0 => if recursive then Err (DepthLimit (from_utf8_lossy dir)) else Ok out
  | S levels =>
      match read_dir dir with
      | None => Ok out
      | Some entries =>
          let bottom := (Nat.eqb levels 0 && negb recursive)%bool in
          walk_entries (fun path rel ancestors out => walk levels path rel recursive ancestors out) bottom
            dir prefix ancestors entries out
      end
  end.

Definition enumerate_files (base : OsPath) (max_depth : nat) (recursive : bool) : result (list str) GlobDecline :=
  walk max_depth base [] recursive (option_list (canonicalize base)) [].
End walk.

(** ** The resolver *)

Definition MAX_GLOB_DEPTH : nat := 64.

Record GlobRequest := { base_dir : OsPath; include : str; excludes : list str }.

(** [s.replace('\\', "/")] *)
Definition slashes (s : str) : str := replace_char (#c"\") (#c"/") s.

Definition base_segments (req : GlobRequest) : list str := split_segments (slashes (from_utf8_lossy (base_dir req))).

(** A fragment or an exclude in the frame of absolute paths. *)
Definition anchored (base_segs : list str) (norm : str) : Pattern :=
  if starts_with_char (#c"/") norm then Pattern_parse norm else with_literal_prefix base_segs norm.

Definition exclude_patterns (req : GlobRequest) : list Pattern :=
  map (fun e => anchored (base_segments req) (slashes e)) (excludes req).

Definition abs_from_segments (prefix : list str) : OsPath :=
  fold_left (fun p s => Path_join p (encode_utf8 s)) prefix [SLASH].

Definition anchor_segments (base_segs : list str) (norm : str) : list str :=
  let root := split_glob_root norm in
  if starts_with_char (#c"/") norm then prefix root else base_segs ++ prefix root.

Definition fragments (include : str) : list str :=
  List.filter (fun s => negb (is_empty s)) (map trim (split (#c";") include)).

Section resolve.
Context `{Disk}.

(** The body of the loop over the fragments: what it pushes. *)
Definition resolve_fragment (req : GlobRequest) (frag : str) : result (list OsPath) GlobDecline :=
  let norm := slashes frag in
  let root := split_glob_root norm in
  let anchor := anchor_segments (base_segments req) norm in
  let pat := anchored (base_segments req) norm in
  if is_glob pat then
    let depth := default MAX_GLOB_DEPTH (tail_depth root) in
    let recursive := negb (bool_decide (is_Some (tail_depth root))) in
    let prefix := join (#"/") anchor in
    let? files := enumerate_files (abs_from_segments anchor) depth recursive in
    let keys := map (fun rel => if is_empty prefix then rel else prefix ++ #"/" ++ rel) files in
    let? selected := select keys [pat] (exclude_patterns req) in
    Ok (map (fun key => Path_join [SLASH] (encode_utf8 key)) selected)
  else
    let key := join (#"/") anchor in
    let? survives := survives_excludes (exclude_patterns req) key in
    Ok (if survives then [Path_join (base_dir req) (encode_utf8 norm)] else []).

Fixpoint resolve_loop (req : GlobRequest) (frags : list str) (out : list OsPath) : result (list OsPath) GlobDecline :=
  match frags with
  | [] => Ok out
  | frag :: frags => let? paths := resolve_fragment req frag in resolve_loop req frags (out ++ paths)
  end.

Definition resolve (req : GlobRequest) : result (list OsPath) GlobDecline := resolve_loop req (fragments (include req)) [].
End resolve.
