(* ===== verification/GlobResolverThm.v ===== *)
(** * The glob resolver lists exactly the files that match

    The walk is reduced to one recursive equation ([walk_step]); from it follow what
    a walk lists ([walk_exact]), when it answers ([walk_answers]) and that the order
    of the directory listings does not matter ([walk_order]).  The theorems about
    [resolve] compose these with the selection of [GlobThm]. *)

From stdpp Require Import sorting.
From S2P Require Import Prelude Order Encoding Glob GlobThm Properties GlobResolver.

(** ** Collecting the answers for the elements of a list *)

Fixpoint collect {A B E} (f : A -> result (list B) E) (l : list A) : result (list B) E :=
  match l with
  | [] => Ok []
  | x :: l => let? a := f x in let? b := collect f l in Ok (a ++ b)
  end.

Lemma collect_ok {A B E} (f : A -> result (list B) E) l out :
  collect f l = Ok out <-> exists pieces, Forall2 (fun x a => f x = Ok a) l pieces /\ out = concat pieces.
Proof.
  revert out. induction l as [|x l IH]; intros out; cbn [collect].
  - split; [intros [= <-]; by exists []|]. by intros (pieces & ->%Forall2_nil_inv_l & ->).
  - rewrite rbind_ok. setoid_rewrite rbind_ok. split.
    + intros (a & Ha & b & (pieces & Hp & ->)%IH & [= <-]). exists (a :: pieces). by split; [constructor|].
    + intros (pieces & (a & ps & Ha & Hp & ->)%Forall2_cons_inv_l & ->). exists a. split; [done|]. exists (concat ps).
      split; [|done]. apply IH. by exists ps.
Qed.

Lemma collect_elem {A B E} (f : A -> result (list B) E) l out y :
  collect f l = Ok out -> y ∈ out <-> exists x a, x ∈ l /\ f x = Ok a /\ y ∈ a.
Proof.
  intros (pieces & Hp & ->)%collect_ok. rewrite list_elem_of_In, in_concat. setoid_rewrite <- list_elem_of_In. split.
  - intros (a & Ha & Hy). apply list_elem_of_lookup in Ha as [i Hi]. destruct (Forall2_lookup_r _ _ _ _ _ Hp Hi) as (x & Hx & Hf).
    exists x, a. split; [by eapply list_elem_of_lookup_2|done].
  - intros (x & a & Hx & Hf & Hy). apply list_elem_of_lookup in Hx as [i Hi]. destruct (Forall2_lookup_l _ _ _ _ _ Hp Hi) as (a' & Ha & Hf').
    rewrite Hf in Hf'. injection Hf' as <-. exists a. split; [by eapply list_elem_of_lookup_2|done].
Qed.

Lemma collect_each {A B E} (f : A -> result (list B) E) l out x : collect f l = Ok out -> x ∈ l -> exists a, f x = Ok a.
Proof.
  intros (pieces & Hp & ->)%collect_ok [i Hi]%list_elem_of_lookup. destruct (Forall2_lookup_l _ _ _ _ _ Hp Hi) as (a & _ & Ha). by exists a.
Qed.

Lemma collect_total {A B E} (f : A -> result (list B) E) l : (forall x, x ∈ l -> exists a, f x = Ok a) -> exists out, collect f l = Ok out.
Proof.
  induction l as [|x l IH]; intros Hf; cbn [collect]; [by eexists|].
  destruct (Hf x) as [a Ha]; [by left|]. destruct IH as [b Hb]; [intros y Hy; apply Hf; by right|]. rewrite Ha. cbn [rbind]. rewrite Hb. by eexists.
Qed.

Lemma collect_perm {A B E} (f g : A -> result (list B) E) l l' out :
  (forall x a, f x = Ok a -> exists a', g x = Ok a' /\ a ≡ₚ a') -> l ≡ₚ l' -> collect f l = Ok out ->
  exists out', collect g l' = Ok out' /\ out ≡ₚ out'.
Proof.
  intros Hfg Hl. assert (Hmap : forall l out, collect f l = Ok out -> exists out', collect g l = Ok out' /\ out ≡ₚ out').
  { clear l l' out Hl. intros l. induction l as [|x l IH]; intros out; cbn [collect]; [intros [= <-]; by exists []|].
    intros (a & (a' & -> & Ha)%Hfg & (b & (b' & Hb & Hp)%IH & [= <-])%rbind_ok)%rbind_ok. exists (a' ++ b'). cbn [rbind]. rewrite Hb. split; [done|]. by rewrite Ha, Hp. }
  intros (pieces & Hp & ->)%collect_ok. destruct (Permutation_Forall2 Hl Hp) as (pieces' & Hpp & Hp').
  destruct (Hmap l' (concat pieces')) as (out' & Ho & Hpo); [apply collect_ok; by exists pieces'|]. exists out'. split; [done|]. rewrite <- Hpo.
  clear -Hpp. induction Hpp; cbn [concat]; [done|by f_equiv|by rewrite !app_assoc, (Permutation_app_comm y x)|by etrans].
Qed.

(** ** The walk as one equation *)

Section walk.
Context `{Disk}.

(** The entries that [entries.flatten()] yields. *)
Definition entries (dir : OsPath) : list DirEntry := match read_dir dir with Some es => omap id es | None => [] end.

Definition name_of (e : DirEntry) : str := from_utf8_lossy (file_name e).

(** What one turn of the loop adds. *)
Definition visit (enter : OsPath -> str -> list OsPath -> list str -> result (list str) GlobDecline) (bottom : bool)
    (dir : OsPath) (prefix : str) (ancestors : list OsPath) (e : DirEntry) : result (list str) GlobDecline :=
  match entry_is_dir dir e with
  | None => Ok []
  | Some false => Ok [extend prefix (name_of e)]
  | Some true =>
      if bottom then Ok []
      else match canonicalize (entry_path dir e) with
      | None => Ok []
      | Some c =>
          if existsb (Path_eqb c) ancestors then Err (SymlinkCycle (from_utf8_lossy (entry_path dir e)))
          else enter (entry_path dir e) (extend prefix (name_of e)) (ancestors ++ [c]) []
      end
  end.

Lemma walk_entries_visit enter bottom dir prefix ancestors es out :
  (forall path rel anc out, enter path rel anc out = let? new := enter path rel anc [] in Ok (out ++ new)) ->
  walk_entries enter bottom dir prefix ancestors es out
  = let? new := collect (visit enter bottom dir prefix ancestors) (omap id es) in Ok (out ++ new).
Proof.
  intros He. revert out. induction es as [|[e|] es IH]; intros out; cbn [walk_entries collect]; [cbn; by rewrite app_nil_r| |by rewrite IH].
  change (omap id (Some e :: es)) with (e :: omap id es). cbn [collect]. unfold visit at 1.
  assert (Hskip : forall a, walk_entries enter bottom dir prefix ancestors es (out ++ a)
    = let? new := (let? b := collect (visit enter bottom dir prefix ancestors) (omap id es) in Ok (a ++ b)) in Ok (out ++ new)).
  { intros a. rewrite IH. destruct (collect _ _); cbn [rbind]; [by rewrite app_assoc|done]. }
  assert (Hskip0 := Hskip []). rewrite app_nil_r in Hskip0.
  destruct (entry_is_dir dir e) as [[]|]; cbn [rbind negb]; [|by rewrite Hskip|done].
  destruct bottom; [done|]. destruct (canonicalize _) as [c|]; [|done]. destruct (existsb _ _); [done|].
  rewrite He. unfold name_of. destruct (enter _ _ _ []) as [a|]; cbn [rbind]; [by rewrite Hskip|done].
Qed.

Lemma walk_app levels dir prefix recursive ancestors out :
  walk levels dir prefix recursive ancestors out = let? new := walk levels dir prefix recursive ancestors [] in Ok (out ++ new).
Proof.
  revert dir prefix ancestors out. induction levels as [|levels IH]; intros dir prefix ancestors out; cbn [walk].
  - destruct recursive; cbn [rbind]; by rewrite ?app_nil_r.
  - destruct (read_dir dir) as [es|]; [|cbn; by rewrite app_nil_r]. rewrite !walk_entries_visit by (intros; apply IH).
    by destruct (collect _ _).
Qed.

Lemma walk_step levels dir prefix recursive ancestors :
  walk (S levels) dir prefix recursive ancestors []
  = collect (visit (fun path rel anc out => walk levels path rel recursive anc out) (Nat.eqb levels 0 && negb recursive) dir prefix ancestors) (entries dir).
Proof.
  cbn [walk]. unfold entries. destruct (read_dir dir) as [es|]; [|done]. rewrite walk_entries_visit by (intros; apply walk_app).
  by destruct (collect _ _).
Qed.

(** ** What is below a directory *)

(** [names] are the names on the way from [dir] down to a file: links are followed,
    and an entry is passed over when its type or its canonical path is unknown.
    There is no bound on the depth. *)
Inductive Below : OsPath -> list str -> Prop :=
| Below_file dir e : e ∈ entries dir -> entry_is_dir dir e = Some false -> Below dir [name_of e]
| Below_dir dir e c names : e ∈ entries dir -> entry_is_dir dir e = Some true ->
    canonicalize (entry_path dir e) = Some c -> Below (entry_path dir e) names -> Below dir (name_of e :: names).

Lemma Below_length dir names : Below dir names -> 1 <= length names.
Proof. destruct 1; simpl; lia. Qed.

Lemma walk_exact levels dir prefix recursive ancestors out :
  walk levels dir prefix recursive ancestors [] = Ok out ->
  forall rel, rel ∈ out <-> exists names, Below dir names /\ (recursive = true \/ length names <= levels) /\ rel = fold_left extend names prefix.
Proof.
  revert dir prefix ancestors out. induction levels as [|levels IH]; intros dir prefix ancestors out.
  { cbn [walk]. destruct recursive; [done|]. intros [= <-] rel. split; [by intros ?%elem_of_nil|].
    intros (names & ?%Below_length & [?|?] & _); [done|lia]. }
  rewrite walk_step. intros Hc rel. rewrite (collect_elem _ _ _ _ Hc). split.
  - intros (e & a & He & Hv & Ha). unfold visit in Hv. destruct (entry_is_dir dir e) as [[]|] eqn:Ed.
    + destruct (_ && _)%bool eqn:Eb; [injection Hv as <-; by apply elem_of_nil in Ha|].
      destruct (canonicalize _) as [c|] eqn:Ec; [|injection Hv as <-; by apply elem_of_nil in Ha].
      destruct (existsb _ _); [done|]. apply (IH _ _ _ _ Hv) in Ha as (names & Hb & Hl & ->). exists (name_of e :: names).
      split; [by eapply Below_dir|]. split; [|done]. simpl. destruct Hl; [by left|right; lia].
    + injection Hv as <-. apply list_elem_of_singleton in Ha as ->. exists [name_of e]. split; [by constructor|]. split; [right; simpl; lia|done].
    + injection Hv as <-. by apply elem_of_nil in Ha.
  - intros (names & Hb & Hl & ->). inversion Hb as [? e He Ed|? e c names' He Ed Ec Hb']; subst.
    + exists e, [extend prefix (name_of e)]. split; [done|]. unfold visit. rewrite Ed. split; [done|]. cbn. by left.
    + destruct (collect_each _ _ _ e Hc He) as [a Hv]. exists e, a. split; [done|]. split; [done|]. unfold visit in Hv. rewrite Ed, Ec in Hv.
      pose proof (Below_length _ _ Hb') as Hn. cbn [length] in Hl.
      destruct (_ && _)%bool eqn:Eb.
      { apply andb_true_iff in Eb as [->%Nat.eqb_eq Hr%negb_true_iff]. destruct Hl; [congruence|lia]. }
      destruct (existsb _ _); [done|]. apply (IH _ _ _ _ Hv). exists names'. split; [done|]. split; [|done]. destruct Hl; [by left|right; lia].
Qed.

(** ** When the walk answers *)

(** A measure of the directories that decreases from each directory to those in it:
    the links make no cycle. *)
Definition descends (height : bool * list OsPath -> nat) : Prop :=
  forall dir e c c', e ∈ entries dir -> entry_is_dir dir e = Some true -> canonicalize dir = Some c ->
  canonicalize (entry_path dir e) = Some c' -> height (Path_components c') < height (Path_components c).

Lemma walk_answers height levels dir prefix recursive ancestors c :
  descends height -> canonicalize dir = Some c -> Forall (fun a => height (Path_components c) <= height (Path_components a)) ancestors ->
  (recursive = true -> height (Path_components c) < levels) ->
  exists out, walk levels dir prefix recursive ancestors [] = Ok out.
Proof.
  intros Hd. revert dir prefix ancestors c. induction levels as [|levels IH]; intros dir prefix ancestors c Hc Ha Hl.
  { cbn [walk]. destruct recursive; [specialize (Hl eq_refl); lia|by eexists]. }
  rewrite walk_step. apply collect_total. intros e He. unfold visit. destruct (entry_is_dir dir e) as [[]|] eqn:Ed; [|by eexists..].
  destruct (_ && _)%bool; [by eexists|]. destruct (canonicalize (entry_path dir e)) as [c'|] eqn:Ec; [|by eexists].
  pose proof (Hd _ _ _ _ He Ed Hc Ec) as Hlt.
  destruct (existsb (Path_eqb c') ancestors) eqn:Ex.
  { apply existsb_exists in Ex as (a & Hin%list_elem_of_In & Heq%bool_decide_eq_true). rewrite Forall_forall in Ha.
    specialize (Ha a Hin). rewrite <- Heq in Ha. lia. }
  apply (IH _ _ _ c'); [done| |intros Hr; specialize (Hl Hr); lia].
  apply Forall_app. split; [eapply Forall_impl; [exact Ha|]; cbn; lia|]. by constructor.
Qed.
End walk.

(** ** Listing order *)

(** Two disks with the same files: only the order of the listings differs. *)
Definition same_files (d d' : Disk) : Prop :=
  (forall p, option_Forall2 Permutation (@read_dir d p) (@read_dir d' p))
  /\ (forall p, @metadata d p = @metadata d' p) /\ (forall p, @canonicalize d p = @canonicalize d' p).

Lemma entries_perm d d' dir : same_files d d' -> @entries d dir ≡ₚ @entries d' dir.
Proof. intros [Hr _]. unfold entries. destruct (Hr dir) as [l l' Hp|]; [|done]. by rewrite Hp. Qed.

Lemma walk_order d d' levels dir prefix recursive ancestors out : same_files d d' ->
  @walk d levels dir prefix recursive ancestors [] = Ok out ->
  exists out', @walk d' levels dir prefix recursive ancestors [] = Ok out' /\ out ≡ₚ out'.
Proof.
  intros Hs. pose proof Hs as (_ & Hm & Hcan). revert dir prefix ancestors out. induction levels as [|levels IH]; intros dir prefix ancestors out.
  { cbn [walk]. destruct recursive; [done|]. intros [= <-]. by exists []. }
  rewrite !walk_step. apply collect_perm; [|by apply entries_perm]. intros e a. unfold visit, entry_is_dir. rewrite !Hm, !Hcan.
  destruct (match file_type e with Some _ => _ | None => _ end) as [[]|]; [|by eexists..].
  destruct (_ && _)%bool; [by eexists|]. destruct (canonicalize _); [|by eexists]. destruct (existsb _ _); [done|apply IH].
Qed.

(** ** Segments *)

(** A name that is one segment of a key. *)
Definition plain_name (s : str) : Prop := s <> [] /\ s <> #"." /\ Forall (fun c => c <> #c"/" /\ c <> #c"\") s.

Lemma split_segments_plain s : Forall plain_name (split_segments s).
Proof.
  apply Forall_forall. intros x [Hx Hb]%list_elem_of_In%filter_In. apply andb_true_iff in Hb as [Hne%negb_true_iff Hdot%negb_true_iff].
  split; [by intros ->|]. split; [by intros ->|]. apply Forall_forall. intros c Hc.
  unfold split_separators in Hx. apply list_elem_of_In in Hx. split.
  - pose proof (split_pieces_no_sep (#c"/") (map (fun c => if N.eqb c (#c"\") then #c"/" else c) s)) as Hp. rewrite Forall_forall in Hp.
    specialize (Hp x Hx). rewrite Forall_forall in Hp. by apply Hp.
  - assert (Hin : c ∈ map (fun c => if N.eqb c (#c"\") then #c"/" else c) s).
    { rewrite <- (join_split (#c"/") (map _ s)). clear -Hx Hc. induction (split _ _) as [|y l IH]; [by apply elem_of_nil in Hx|].
      apply elem_of_cons in Hx as [->|Hx]; destruct l; cbn [join]; [done|by apply elem_of_app; left|by apply elem_of_nil in Hx|].
      apply elem_of_app; right. apply elem_of_app; right. by apply IH. }
    apply list_elem_of_In, in_map_iff in Hin as (c0 & <- & _). by destruct (N.eqb_spec c0 (#c"\")).
Qed.

Lemma split_segments_join l : Forall plain_name l -> split_segments (join (#"/") l) = l.
Proof.
  intros Hl. unfold split_segments, split_separators.
  assert (map (fun c => if N.eqb c (#c"\") then #c"/" else c) (join (#"/") l) = join (#"/") l) as ->.
  { rewrite <- (map_id (join _ l)) at 2. apply map_ext_in. intros c Hc%list_elem_of_In.
    assert (c <> #c"\") as Hn; [|by apply N.eqb_neq in Hn; rewrite Hn].
    clear -Hl Hc. induction Hl as [|x l (_ & _ & Hx) Hl IH]; [by apply elem_of_nil in Hc|]. rewrite Forall_forall in Hx.
    destruct l; cbn [join] in *; [by apply Hx|]. apply elem_of_app in Hc as [Hc|[Hc|Hc]%elem_of_app]; [by apply Hx| |by apply IH].
    by apply list_elem_of_singleton in Hc as ->. }
  destruct (decide (l = [])) as [->|Hne]; [done|]. rewrite split_join; [|done|].
  - clear Hne. induction Hl as [|x l (Hx & Hd & _) Hl IH]; [done|]. cbn [List.filter]. rewrite IH.
    destruct x; [done|]. cbn [is_empty negb andb]. destruct (str_eqb _ _) eqn:E; [by apply str_eqb_eq in E|done].
  - eapply Forall_impl; [exact Hl|]. intros x (_ & _ & Hx). eapply Forall_impl; [exact Hx|]. by intros c [].
Qed.

Lemma join_plain_nil l : Forall plain_name l -> is_empty (join (#"/") l) = is_empty l.
Proof. destruct 1 as [|x [|y l] (Hx & _)]; [done|by destruct x|]. cbn [join]. by destruct x. Qed.

Lemma split_app sep a b : split sep (a ++ sep :: b) = split sep a ++ split sep b.
Proof.
  induction a as [|c a IH]; cbn [app split]; [by rewrite N.eqb_refl|]. destruct (N.eqb c sep); [by rewrite IH|].
  rewrite IH. pose proof (split_nonnil sep a). by destruct (split sep a).
Qed.

Lemma split_segments_app a b : split_segments (a ++ #"/" ++ b) = split_segments a ++ split_segments b.
Proof. unfold split_segments, split_separators. rewrite !map_app. change (map _ (#"/")) with [ #c"/" ]. cbn [app]. by rewrite split_app, List.filter_app. Qed.

Lemma split_segments_extend p n : split_segments (extend p n) = split_segments p ++ split_segments n.
Proof. unfold extend. destruct p as [|c p]; [done|]. cbn [is_empty]. apply split_segments_app. Qed.

Lemma split_segments_walked names p : split_segments (fold_left extend names p) = split_segments p ++ flat_map split_segments names.
Proof.
  revert p. induction names as [|n names IH]; intros p; cbn [fold_left flat_map]; [by rewrite app_nil_r|].
  by rewrite IH, split_segments_extend, app_assoc.
Qed.

(** The segments of the key of a file below the root of a fragment. *)
Lemma key_segments anchor names : Forall plain_name anchor ->
  split_segments (let rel := fold_left extend names [] in if is_empty (join (#"/") anchor) then rel else join (#"/") anchor ++ #"/" ++ rel)
  = anchor ++ flat_map split_segments names.
Proof.
  intros Ha. cbv zeta. rewrite join_plain_nil by done. pose proof (split_segments_walked names []) as E. destruct anchor as [|x anchor]; [exact E|].
  cbn [is_empty]. by rewrite split_segments_app, split_segments_join, E.
Qed.

Lemma flat_split_all_plain names : Forall plain_name (flat_map split_segments names).
Proof. induction names; [constructor|]. cbn [flat_map]. apply Forall_app. split; [apply split_segments_plain|done]. Qed.

Lemma flat_split_plain l : Forall plain_name l -> flat_map split_segments l = l.
Proof. induction 1 as [|x l Hx Hl IH]; [done|]. cbn [flat_map]. rewrite IH. pose proof (split_segments_join [x]) as E. cbn [join] in E. rewrite E by by constructor. done. Qed.

(** ** Fragments *)

Lemma anchor_plain base norm : Forall plain_name base -> Forall plain_name (anchor_segments base norm).
Proof.
  intros Hb. unfold anchor_segments, split_glob_root. cbn [prefix].
  assert (Forall plain_name (take (count_while (fun s => negb (is_wild s)) (split_segments norm)) (split_segments norm))) by (apply Forall_take, split_segments_plain).
  destruct (starts_with_char _ _); [done|by apply Forall_app].
Qed.

(** What a fragment matches is below its root, at the depth of its tail. *)
Lemma anchored_covers base norm segs : Forall plain_name base -> Forall plain_name segs ->
  Pattern_matches (anchored base norm) (join (#"/") (anchor_segments base norm ++ segs)) = true ->
  match tail_depth (split_glob_root norm) with Some d => length segs = d | None => True end.
Proof.
  intros Hb Hn Hm. pose proof (anchor_plain base norm Hb) as Ha.
  assert (exists pre, Pattern_matches (with_literal_prefix pre norm) (join (#"/") (anchor_segments base norm ++ segs)) = true
    /\ flat_map split_segments pre ++ prefix (split_glob_root norm) = anchor_segments base norm) as (pre & Hp & Epre).
  { unfold anchored, anchor_segments in *. destruct (starts_with_char _ _); [by exists []|]. exists base. split; [done|]. by rewrite flat_split_plain. }
  apply glob_root_covers in Hp as (rest & E & Hd). rewrite split_segments_join, app_assoc, Epre in E by (by apply Forall_app).
  by apply app_inv_head in E as ->.
Qed.

(** What is matched, selected and listed depends on the segments only. *)
Lemma same_segments_exact inc excludes a b : split_segments a = split_segments b -> exact inc excludes a = exact inc excludes b.
Proof.
  intros E. unfold exact, selected_both_ways. cbn [fst].
  assert (Hm : forall p, Pattern_matches p a = Pattern_matches p b) by (intros p; unfold Pattern_matches; by rewrite E).
  rewrite Hm. do 2 f_equal. induction excludes as [|e es IH]; cbn [existsb]; [done|]. by rewrite Hm, IH.
Qed.

Section resolver.
Context `{Disk}.

(** The fragment matches the key and no exclude does. *)
Definition selects (req : GlobRequest) (norm key : str) : bool := exact (anchored (base_segments req) norm) (exclude_patterns req) key.

(** The path that is listed for the file [names] below [anchor].  The code splits
    its keys at backslashes as well, so a name of the disk may be several
    segments; a name without a backslash is one, and is listed as it is. *)
Definition listed (anchor names : list str) : str := join (#"/") (anchor ++ flat_map split_segments names).

Lemma listed_plain anchor names : Forall plain_name names -> listed anchor names = join (#"/") (anchor ++ names).
Proof. intros Hn. unfold listed. by rewrite flat_split_plain. Qed.

(** A name that is not made of backslashes and of dots between them. *)
Definition named (n : str) : Prop := split_segments n <> [].

(** What the resolver promises for one fragment. *)
Definition fragment_answer (req : GlobRequest) (frag : str) (part : list OsPath) : Prop :=
  let norm := slashes frag in
  let anchor := anchor_segments (base_segments req) norm in
  if is_glob (anchored (base_segments req) norm) then
    exists keys, part = map (fun key => Path_join [SLASH] (encode_utf8 key)) keys
      /\ StronglySorted (fun a b => ordinal_ignore_case a b <> Gt) keys
      /\ (forall key, key ∈ keys -> exists names, Below (abs_from_segments anchor) names /\ key = listed anchor names /\ selects req norm key = true)
      /\ (forall names, Below (abs_from_segments anchor) names -> Forall named names -> selects req norm (listed anchor names) = true ->
           listed anchor names ∈ keys)
  else part = if existsb (fun e => Pattern_matches e (join (#"/") anchor)) (exclude_patterns req) then []
              else [Path_join (base_dir req) (encode_utf8 norm)].

Lemma named_length names : Forall named names -> length names <= length (flat_map split_segments names).
Proof.
  induction 1 as [|n names Hn _ IH]; [done|]. cbn [flat_map]. rewrite length_app. cbn [length].
  assert (split_segments n <> []) by done. destruct (split_segments n); [done|]. cbn [length]. lia.
Qed.

Lemma resolve_fragment_exact req frag part : resolve_fragment req frag = Ok part -> fragment_answer req frag part.
Proof.
  unfold resolve_fragment, fragment_answer. cbv zeta. set (norm := slashes frag). set (anchor := anchor_segments _ norm). set (pat := anchored _ norm).
  pose proof (split_segments_plain (slashes (from_utf8_lossy (base_dir req)))) as Hb. fold (base_segments req) in Hb.
  pose proof (anchor_plain _ norm Hb) as Ha. fold anchor in Ha.
  assert (Hkey : forall names, split_segments (listed anchor names) = anchor ++ flat_map split_segments names).
  { intros names. apply split_segments_join, Forall_app. split; [done|apply flat_split_all_plain]. }
  pose proof (key_segments anchor) as Hseg. cbv zeta in Hseg.
  destruct (is_glob pat).
  - intros (files & Hw & (selected & (_ & parts & -> & Hsel)%select_exact & [= <-])%rbind_ok)%rbind_ok.
    apply Forall2_cons_inv_l in Hsel as (keys & ? & (Hperm & Hsort) & ->%Forall2_nil_inv_l & ->). cbn [concat]. rewrite app_nil_r.
    exists keys. split; [done|]. split; [done|]. pose proof (walk_exact _ _ _ _ _ _ Hw) as Hf. split.
    + intros key. rewrite Hperm, list_elem_of_In, in_map_iff.
      intros (k & <- & [(rel & <- & Hrel%list_elem_of_In%Hf)%in_map_iff Hex]%filter_In). destruct Hrel as (names & Hbel & _ & ->).
      exists names. unfold normal. rewrite Hseg by done. fold (listed anchor names). split_and!; [done|done|].
      unfold selects. etrans; [apply same_segments_exact|exact Hex]. cbv beta. by rewrite Hkey, Hseg.
    + intros names Hbel Hnamed Hs. rewrite Hperm, list_elem_of_In, in_map_iff.
      eexists. split; [|apply filter_In; split; [apply in_map_iff; exists (fold_left extend names []); split; [reflexivity|]|]].
      * unfold normal. by rewrite Hseg.
      * apply list_elem_of_In, Hf. exists names. split; [done|]. split; [|done]. pose proof (named_length _ Hnamed) as Hlen.
        unfold selects, exact, selected_both_ways in Hs. cbn [fst] in Hs. apply andb_true_iff in Hs as [Hm _].
        pose proof (anchored_covers _ _ _ Hb (flat_split_all_plain names) Hm) as Hd. destruct (tail_depth _) as [d|]; [right; simpl; lia|by left].
      * unfold selects in Hs. etrans; [apply same_segments_exact|exact Hs]. cbv beta. by rewrite Hkey, Hseg.
  - intros (b & Hs & [= <-])%rbind_ok. unfold survives_excludes in Hs. destruct (negb (eqb _ _)); [done|]. injection Hs as <-. by destruct (existsb _ _).
Qed.

Lemma resolve_loop_ok req frags out out' :
  resolve_loop req frags out = Ok out' <-> exists parts, out' = out ++ concat parts /\ Forall2 (fun frag part => resolve_fragment req frag = Ok part) frags parts.
Proof.
  revert out. induction frags as [|frag frags IH]; intros out; cbn [resolve_loop].
  - split; [intros [= <-]; exists []; by rewrite app_nil_r|]. intros (parts & -> & ->%Forall2_nil_inv_l). by rewrite app_nil_r.
  - rewrite rbind_ok. split.
    + intros (part & Hf & (parts & -> & Hp)%IH). exists (part :: parts). cbn [concat]. rewrite app_assoc. by split; [|constructor].
    + intros (parts & -> & (part & ps & Hf & Hp & ->)%Forall2_cons_inv_l). exists part. split; [done|]. apply IH. exists ps. cbn [concat]. by rewrite app_assoc.
Qed.
End resolver.

(** ** Theorems *)

(** C32: An answer of the resolver is exactly the files that match.  When it commits a
    list, the list is, fragment by fragment in document order: for a literal, its
    path unless an exclude matches it; for a wildcard, in MSBuild's order, the files
    below the fixed root of the fragment, at whatever depth and through whatever
    links, whose path the fragment matches and no exclude does.  A backslash in a
    file name is read as a separator, in the match and in the path that is listed.
    No match is missed because of the depth at which the walk stops, unless a name
    on the way to it is made of backslashes and dots ([named]). *)
Theorem resolve_exact `{Disk} req out : resolve req = Ok out ->
  exists parts, out = concat parts /\ Forall2 (fragment_answer req) (fragments (include req)) parts.
Proof.
  intros (parts & -> & Hf)%resolve_loop_ok. exists parts. split; [done|]. eapply Forall2_impl; [exact Hf|]. intros frag part. by apply resolve_fragment_exact.
Qed.

(** C33: The answer does not depend on the order in which directories are listed: on
    any disk with the same files the resolver commits the same list. *)
Theorem resolve_order d d' req out : same_files d d' -> @resolve d req = Ok out -> @resolve d' req = Ok out.
Proof.
  intros Hs (parts & -> & Hf)%resolve_loop_ok. apply resolve_loop_ok. exists parts. split; [done|]. eapply Forall2_impl; [exact Hf|]. clear Hf. intros frag part.
  unfold resolve_fragment. cbv zeta. destruct (is_glob _); [|done]. unfold enumerate_files. pose proof Hs as (_ & _ & Hc). rewrite Hc.
  intros (files & (files' & Hw & Hperm)%(walk_order d d' _ _ _ _ _ _ Hs) & (selected & Hsel & [= <-])%rbind_ok)%rbind_ok.
  apply rbind_ok. exists files'. split; [done|]. apply rbind_ok. exists selected. split; [|done]. eapply select_order; [|exact Hsel]. by apply Permutation_map.
Qed.

(** C34: The walk answers on every directory tree that is not too deep.  If links make
    no cycle (some height decreases from a directory to those in it) and a recursive
    walk starts below the limit, it lists exactly the files below its base, down to
    the depth it is asked for. *)
Theorem enumerate_files_complete `{Disk} height base c max_depth recursive :
  descends height -> canonicalize base = Some c -> (recursive = true -> height (Path_components c) < max_depth) ->
  exists out, enumerate_files base max_depth recursive = Ok out
    /\ forall rel, rel ∈ out <-> exists names, Below base names /\ (recursive = true \/ length names <= max_depth) /\ rel = fold_left extend names [].
Proof.
  intros Hd Hc Hl. unfold enumerate_files. rewrite Hc.
  destruct (walk_answers height max_depth base [] recursive [c] c Hd Hc) as [out Ho]; [by constructor|done|]. exists out. split; [exact Ho|]. by apply (walk_exact _ _ _ _ _ _ Ho).
Qed.

(** ** Witnesses *)

Definition file (n : str) : option DirEntry := Some {| file_name := n; file_type := Some RegularFile |}.
Definition folder (n : str) : option DirEntry := Some {| file_name := n; file_type := Some Directory |}.
Definition link (n : str) : option DirEntry := Some {| file_name := n; file_type := Some Symlink |}.

(** A project with a directory, an unreadable entry and a link to another directory. *)
Definition project_listing (p : OsPath) : option (list (option DirEntry)) :=
  if str_eqb p (#"/p") then Some [file (#"b.fs"); None; folder (#"sub"); link (#"lib"); file (#"a.fs")]
  else if str_eqb p (#"/p/sub") then Some [file (#"c.fs"); file (#"d.txt")]
  else if str_eqb p (#"/p/lib") then Some [file (#"e.fs")]
  else None.

Definition project_disk (listing : OsPath -> option (list (option DirEntry))) : Disk := {|
  read_dir := listing;
  metadata p := if str_eqb p (#"/p/lib") then Some Directory else None;
  canonicalize p := if str_eqb p (#"/p/lib") then Some (#"/lib") else Some p |}.

Definition project_request : GlobRequest :=
  {| base_dir := #"/p"; include := #"ghost.fs; **\*.fs"; excludes := [#"/p/sub/*"] |}.

Definition project_answer : list OsPath := [#"/p/ghost.fs"; #"/p/a.fs"; #"/p/b.fs"; #"/p/lib/e.fs"].

(** Every directory holds a directory [x]; in the second disk it is a link to [/p]. *)
Definition deep_disk : Disk := project_disk (fun _ => Some [folder (#"x")]).
Definition cyclic_disk : Disk :=
  {| read_dir _ := Some [link (#"x")]; metadata _ := Some Directory; canonicalize _ := Some (#"/p") |}.

Example resolve_ex :
  @resolve (project_disk project_listing) project_request = Ok project_answer
  /\ @resolve (project_disk project_listing) {| base_dir := #"/p"; include := #"*/?.fs;/p/*.f?"; excludes := [#"b.*"] |}
     = Ok [#"/p/lib/e.fs"; #"/p/sub/c.fs"; #"/p/a.fs"]
  /\ @resolve deep_disk {| base_dir := #"/p"; include := #"*/*/*.fs"; excludes := [] |} = Ok []
  /\ @enumerate_files deep_disk (#"/") 2 true = Err (DepthLimit (#"/x/x"))
  /\ @enumerate_files cyclic_disk (#"/p") 3 true = Err (SymlinkCycle (#"/p/x"))
  /\ @enumerate_files cyclic_disk (#"/p") 1 false = Ok [].
Proof. repeat split; vm_compute; reflexivity. Qed.

(** A name with a backslash is listed as a path that is not on the disk. *)
Example backslash_name :
  @resolve (project_disk (fun p => if str_eqb p (#"/p") then Some [file (#"a\b.fs")] else None))
    {| base_dir := #"/p"; include := #"**/*.fs"; excludes := [] |} = Ok [#"/p/a/b.fs"].
Proof. vm_compute. reflexivity. Qed.

Lemma resolve_exact_witness :
  exists parts, project_answer = concat parts
    /\ Forall2 (@fragment_answer (project_disk project_listing) project_request) (fragments (include project_request)) parts.
Proof. apply (@resolve_exact (project_disk project_listing)). vm_compute. reflexivity. Defined.

Lemma resolve_order_witness : @resolve (project_disk (fun p => @rev _ <$> project_listing p)) project_request = Ok project_answer.
Proof.
  apply (resolve_order (project_disk project_listing)).
  - split; [|by split]. intros p. cbn [read_dir project_disk]. destruct (project_listing p); constructor. apply Permutation_rev.
  - vm_compute. reflexivity.
Defined.

(** One level below the project there are no directories. *)
Lemma project_descends : @descends (project_disk project_listing) (fun p => if bool_decide (p = Path_components (#"/p")) then 1 else 0).
Proof.
  intros dir e c c'. unfold entries. cbn [read_dir project_disk canonicalize]. unfold project_listing.
  destruct (str_eqb dir (#"/p")) eqn:E1; [apply str_eqb_eq in E1 as ->|].
  - cbn. rewrite !elem_of_cons, elem_of_nil. intros He Hd. destruct_or?; subst; try done; intros [= <-] [= <-]; apply Nat.ltb_lt; by vm_compute.
  - repeat case_match; simplify_eq; cbn; rewrite ?elem_of_cons, ?elem_of_nil; intros He Hd; destruct_or?; subst; done || discriminate Hd.
Qed.

Lemma enumerate_files_complete_witness :
  exists out, @enumerate_files (project_disk project_listing) (#"/p") MAX_GLOB_DEPTH true = Ok out
    /\ forall rel, rel ∈ out <-> exists names, @Below (project_disk project_listing) (#"/p") names
         /\ (true = true \/ length names <= MAX_GLOB_DEPTH) /\ rel = fold_left extend names [].
Proof.
  apply (@enumerate_files_complete (project_disk project_listing) _ (#"/p") (#"/p") MAX_GLOB_DEPTH true project_descends); [reflexivity|].
  intros _. apply Nat.ltb_lt. vm_compute. reflexivity.
Defined.
