(* ===== verification/Position.v ===== *)
(** * Byte offsets and editor positions ([crates/lsp/src/position.rs])

    [offset_to_position] and [position_to_offset]: a byte offset into a UTF-8
    text, and the line and UTF-16 column the language server protocol counts.
    A text is the list of its scalar values; the code's byte accesses are on
    [encode_utf8] of it.

    The theorems: neither function panics, whatever the offset or position; the
    offset of a position is always a character boundary; and going from an
    offset to its position and back gives the offset, snapped up to a character
    boundary and out of a [\r\n] pair. *)

From S2P Require Import Prelude Encoding StrBytes.

Record Position := { line : N; character : N }.

(** The first [while]: up to the next character boundary. *)
Fixpoint snap_boundary (fuel : nat) (bytes : list N) (offset : nat) : nat :=
  match fuel with
  | O => offset
  | S fuel' =>
      if (Nat.ltb offset (length bytes) && negb (is_char_boundary bytes offset))%bool
      then snap_boundary fuel' bytes (S offset) else offset
  end.

(** The [if]: out of a [\r\n] pair. *)
Definition snap_crlf (bytes : list N) (offset : nat) : nat :=
  if (Nat.ltb 0 offset && Nat.ltb offset (length bytes)
      && bool_decide (bytes !! (offset - 1) = Some CR) && bool_decide (bytes !! offset = Some LF))%bool
  then S offset else offset.

Definition snap (text : str) (offset : nat) : nat :=
  let bytes := encode_utf8 text in
  snap_crlf bytes (snap_boundary (length bytes) bytes (Nat.min offset (length bytes))).

(** The loop over the characters before the offset. *)
Fixpoint count_position (chars : str) (l c : N) : Position :=
  match chars with
  | [] => {| line := l; character := c |}
  | x :: chars' =>
      if N.eqb x CR then
        match chars' with
        | y :: chars'' => if N.eqb y LF then count_position chars'' (l + 1) 0 else count_position chars' (l + 1) 0
        | [] => count_position chars' (l + 1) 0
        end
      else if N.eqb x LF then count_position chars' (l + 1) 0
      else count_position chars' l (c + len_utf16 x)
  end.

(** [None] is the panic of [&text[..offset]] inside a character. *)
Definition offset_to_position (text : str) (offset : nat) : option Position :=
  let bytes := encode_utf8 text in
  let offset := snap text offset in
  if is_char_boundary bytes offset
  then (fun chars => count_position chars 0 0) <$> from_utf8 (take offset bytes) else None.

(** The first loop of [position_to_offset], on the bytes left: to the start of
    line [target]. *)
Fixpoint to_line (target : N) (bytes : list N) (byte : nat) (l : N) : list N * nat * N :=
  if N.ltb l target then
    match bytes with
    | [] => (bytes, byte, l)
    | b :: bytes' =>
        if N.eqb b CR then
          match bytes' with
          | b2 :: bytes'' =>
              if N.eqb b2 LF then to_line target bytes'' (byte + 2) (l + 1) else to_line target bytes' (byte + 1) (l + 1)
          | [] => to_line target bytes' (byte + 1) (l + 1)
          end
        else if N.eqb b LF then to_line target bytes' (byte + 1) (l + 1)
        else to_line target bytes' (byte + 1) l
    end
  else (bytes, byte, l).

(** The second loop, on the characters left. *)
Fixpoint along_line (chars : str) (byte : nat) (remaining : N) : nat :=
  if N.eqb remaining 0 then byte
  else
    match chars with
    | [] => byte
    | ch :: chars' =>
        if (N.eqb ch CR || N.eqb ch LF)%bool then byte
        else if N.ltb remaining (len_utf16 ch) then byte + N.to_nat (len_utf8 ch)
        else along_line chars' (byte + N.to_nat (len_utf8 ch)) (remaining - len_utf16 ch)
    end.

(** [None] is the panic of [&text[byte..]] inside a character. *)
Definition position_to_offset (text : str) (p : Position) : option nat :=
  let bytes := encode_utf8 text in
  let '(rest, byte, l) := to_line (line p) bytes 0 0 in
  if N.ltb l (line p) then Some (length bytes)
  else if (N.eqb (character p) 0 || is_empty rest)%bool then Some byte
  else (fun chars => along_line chars byte (character p)) <$> from_utf8 rest.

Example position_ex :
  offset_to_position ([192; 129408]%N ++ #"X") 6 = Some {| line := 0; character := 3 |}
  /\ position_to_offset ([192; 129408]%N ++ #"X") {| line := 0; character := 3 |} = Some 6
  /\ position_to_offset ([97; 13; 10; 98])%N {| line := 1; character := 7 |} = Some 4.
Proof. vm_compute. auto. Qed.

(** ** The line loop, on characters *)

Fixpoint to_line_chars (target : N) (s : str) (byte : nat) (l : N) : str * nat * N :=
  if N.ltb l target then
    match s with
    | [] => (s, byte, l)
    | c :: s' =>
        if N.eqb c CR then
          match s' with
          | c2 :: s'' =>
              if N.eqb c2 LF then to_line_chars target s'' (byte + 2) (l + 1) else to_line_chars target s' (byte + 1) (l + 1)
          | [] => to_line_chars target s' (byte + 1) (l + 1)
          end
        else if N.eqb c LF then to_line_chars target s' (byte + 1) (l + 1)
        else to_line_chars target s' (byte + N.to_nat (len_utf8 c)) l
    end
  else (s, byte, l).

Lemma to_line_stop target bytes byte l : N.ltb l target = false -> to_line target bytes byte l = (bytes, byte, l).
Proof. intros E. destruct bytes; simpl; by rewrite E. Qed.

Lemma to_line_chars_stop target s byte l : N.ltb l target = false -> to_line_chars target s byte l = (s, byte, l).
Proof. intros E. destruct s; simpl; by rewrite E. Qed.

Lemma to_line_high target bs r byte l : Forall (fun b => 128 <= b)%N bs -> N.ltb l target = true ->
  to_line target (bs ++ r) byte l = to_line target r (byte + length bs) l.
Proof.
  intros Hb Hl. revert byte. induction Hb as [|b bs Hb _ IH]; intros byte; [by rewrite Nat.add_0_r|].
  cbn [app to_line]. rewrite Hl. rewrite (proj2 (N.eqb_neq b CR)), (proj2 (N.eqb_neq b LF)) by (unfold CR, LF; lia).
  rewrite IH. f_equal. simpl. lia.
Qed.

Lemma to_line_encode n target s byte l : length s < n ->
  to_line target (encode_utf8 s) byte l =
    let '(s', byte', l') := to_line_chars target s byte l in (encode_utf8 s', byte', l').
Proof.
  revert s byte l. induction n as [|n IH]; intros s byte l Hn; [lia|].
  destruct (N.ltb l target) eqn:Hl; [|by rewrite to_line_stop, to_line_chars_stop].
  destruct s as [|c s]; [by cbn; rewrite Hl|]. simpl in Hn. rewrite encode_utf8_cons. cbn [to_line_chars]. rewrite Hl.
  destruct (char_bytes c) as [[-> Hc]|(b & bs & E & Hb & Hne & Hf & Hc)].
  - cbn [app to_line]. rewrite Hl. destruct (N.eqb c CR) eqn:Ecr.
    + pose proof (head_byte s LF ltac:(unfold LF; lia)) as Hh. destruct s as [|c2 s]; [apply (IH []); simpl in *; lia|].
      destruct (N.eqb_spec c2 LF) as [->|Hne].
      * rewrite encode_utf8_cons. cbn -[to_line]. apply IH. simpl in Hn. lia.
      * destruct (encode_utf8 (c2 :: s)) as [|b2 r] eqn:E2.
        { apply (f_equal length) in E2. fold (blen (c2 :: s)) in E2. rewrite blen_cons in E2.
          unfold len_utf8 in E2. destruct (N.ltb c2 128), (N.ltb c2 2048), (N.ltb c2 65536); simpl in E2; lia. }
        assert (N.eqb b2 LF = false) as ->.
        { apply N.eqb_neq. intros ->. destruct Hne. cbn in Hh. by injection (proj1 Hh eq_refl). }
        rewrite <- E2. apply IH. simpl in Hn |- *. lia.
    + destruct (N.eqb c LF); [apply IH; lia|]. unfold len_utf8. rewrite (proj2 (N.ltb_lt c 128) Hc). apply IH. lia.
  - rewrite (proj2 (N.eqb_neq c CR)), (proj2 (N.eqb_neq c LF)) by (unfold CR, LF; lia).
    rewrite to_line_high, char_len by (done || (rewrite E; constructor; [lia|]; eapply Forall_impl; [exact Hf|apply cont_high])).
    apply IH. lia.
Qed.

(** ** Splits *)

(** No [\r\n] pair is split between [pre] and [post]. *)
Definition whole_breaks (pre post : str) : Prop := ~ (last pre = Some CR /\ post !! 0 = Some LF).

Definition plain (s : str) : Prop := Forall (fun c => c <> CR /\ c <> LF) s.

Definition ulen (s : str) : N := fold_right (fun c n => len_utf16 c + n)%N 0%N s.

Lemma count_line_le n s l c : length s < n -> (l <= line (count_position s l c))%N.
Proof.
  revert s l c. induction n as [|n IH]; intros s l c Hn; [lia|]. destruct s as [|x s]; [done|]. simpl in Hn. cbn [count_position].
  destruct (N.eqb x CR).
  - assert (Hs : (l <= line (count_position s (l + 1) 0))%N) by (etrans; [|apply IH; lia]; lia).
    destruct s as [|y s]; [done|]. destruct (N.eqb y LF); [|done]. etrans; [|apply IH; simpl in Hn; lia]. lia.
  - destruct (N.eqb x LF); [etrans; [|apply IH; lia]; lia|]. apply IH. lia.
Qed.

Lemma whole_breaks_cons x pre post : pre <> [] -> whole_breaks (x :: pre) post -> whole_breaks pre post.
Proof. intros Hne Hw [H1 H2]. apply Hw. split; [|done]. by destruct pre. Qed.

(** Walking [pre] counts [ls], its complete lines, and the rest, [cur]; the line
    loop, told that line, stops after [ls]. *)
Definition lands (pre post : str) (byte : nat) (l c : N) (p : Position) : Prop :=
  exists ls cur, pre = ls ++ cur /\ plain cur
    /\ to_line_chars (line p) (pre ++ post) byte l = (cur ++ post, byte + blen ls, line p)
    /\ ((ls = [] /\ line p = l /\ character p = (c + ulen cur)%N)
        \/ (ls <> [] /\ (l < line p)%N /\ character p = ulen cur)).

Lemma lands_nil post byte l c : lands [] post byte l c {| line := l; character := c |}.
Proof.
  exists [], []. split_and!; [done|constructor| |left; split_and!; [done..|unfold ulen; cbn; lia]].
  cbn. rewrite to_line_chars_stop by apply N.ltb_irrefl. by rewrite Nat.add_0_r.
Qed.

(** A line break. *)
Lemma lands_break brk pre post byte l c p : brk <> [] -> (l < line p)%N ->
  to_line_chars (line p) ((brk ++ pre) ++ post) byte l = to_line_chars (line p) (pre ++ post) (byte + blen brk) (l + 1) ->
  lands pre post (byte + blen brk) (l + 1) 0 p -> lands (brk ++ pre) post byte l c p.
Proof.
  intros Hbrk Hlt Hstep (ls & cur & -> & Hpl & Hto & Hcase). exists (brk ++ ls), cur. split_and!; [by rewrite app_assoc|done|..].
  - rewrite Hstep, Hto. by rewrite blen_app, Nat.add_assoc.
  - right. split_and!; [by destruct brk|done|]. destruct Hcase as [(-> & _ & ->)|(_ & _ & ->)]; lia.
Qed.

(** A character of the line. *)
Lemma lands_char x pre post byte l c p : N.eqb x CR = false -> N.eqb x LF = false ->
  lands pre post (byte + N.to_nat (len_utf8 x)) l (c + len_utf16 x) p -> lands (x :: pre) post byte l c p.
Proof.
  intros Ecr Elf (ls & cur & -> & Hpl & Hto & [(-> & Hl & Hch)|(Hne & Hlt & Hch)]).
  - exists [], (x :: cur). split_and!; [done| | |left].
    + constructor; [|done]. apply N.eqb_neq in Ecr, Elf. done.
    + rewrite Hl, to_line_chars_stop by apply N.ltb_irrefl. by rewrite Nat.add_0_r.
    + split_and!; [done..|]. rewrite Hch. unfold ulen. cbn [fold_right]. lia.
  - exists (x :: ls), cur. split_and!; [done|done| |right; done].
    cbn [app to_line_chars]. rewrite (proj2 (N.ltb_lt _ _) Hlt), Ecr, Elf. cbn [app] in Hto. rewrite Hto.
    f_equal. f_equal. rewrite blen_cons. lia.
Qed.

Lemma to_line_count n pre post byte l c : length pre < n -> whole_breaks pre post ->
  lands pre post byte l c (count_position pre l c).
Proof.
  revert pre byte l c. induction n as [|n IH]; intros pre byte l c Hn Hw; [lia|].
  destruct pre as [|x pre]; [apply lands_nil|]. simpl in Hn.
  assert (Hlt : forall pre', length pre' < n -> (l < line (count_position pre' (l + 1) 0))%N)
    by (intros pre' Hl; pose proof (count_line_le n pre' (l + 1) 0 Hl); lia).
  assert (Hw' : forall y, pre <> [] -> whole_breaks (y :: pre) post -> whole_breaks pre post) by (intros y; apply whole_breaks_cons).
  cbn [count_position]. destruct (N.eqb x CR) eqn:Ecr; [apply N.eqb_eq in Ecr as ->; destruct pre as [|y pre]|].
  - specialize (Hlt [] ltac:(simpl in Hn |- *; lia)). apply (lands_break [CR] []); [done|done| |apply lands_nil].
    cbn [app to_line_chars]. rewrite (proj2 (N.ltb_lt _ _) Hlt). destruct post as [|y post]; [done|].
    assert (N.eqb y LF = false) as ->; [|done]. apply N.eqb_neq. intros ->. by apply Hw.
  - simpl in Hn. destruct (N.eqb y LF) eqn:Elf.
    + apply N.eqb_eq in Elf as ->. specialize (Hlt pre ltac:(lia)). apply (lands_break [CR; LF] pre); [done|done|..].
      * cbn [app to_line_chars]. by rewrite (proj2 (N.ltb_lt _ _) Hlt).
      * apply IH; [lia|]. intros [H1 H2]. apply Hw. split; [|done]. by destruct pre.
    + specialize (Hlt (y :: pre) ltac:(simpl; lia)). apply (lands_break [CR] (y :: pre)); [done|done|..].
      * cbn [app to_line_chars]. by rewrite (proj2 (N.ltb_lt _ _) Hlt), Elf.
      * apply IH; [simpl; lia|]. by eapply Hw'.
  - destruct (N.eqb x LF) eqn:Elf.
    + apply N.eqb_eq in Elf as ->. specialize (Hlt pre ltac:(lia)). apply (lands_break [LF] pre); [done|done|..].
      * cbn [app to_line_chars]. by rewrite (proj2 (N.ltb_lt _ _) Hlt).
      * apply IH; [lia|]. intros [H1 H2]. apply Hw. split; [by destruct pre|done].
    + apply lands_char; [done..|]. apply IH; [lia|]. intros [H1 H2]. apply Hw. split; [by destruct pre|done].
Qed.

(** The column loop consumes a plain run of its own UTF-16 length. *)
Lemma along_line_plain cur post byte : plain cur -> along_line (cur ++ post) byte (ulen cur) = byte + blen cur.
Proof.
  intros Hp. revert byte. induction Hp as [|c cur [Hcr Hlf] _ IH]; intros byte.
  - change (ulen []) with 0%N. unfold blen. cbn. destruct post; simpl; lia.
  - cbn [app along_line]. unfold ulen at 1 2 3. cbn [fold_right]. fold (ulen cur).
    assert (Hpos : (0 < len_utf16 c)%N) by (unfold len_utf16; destruct (N.ltb c 65536); lia).
    rewrite (proj2 (N.eqb_neq _ _)) by lia. rewrite (proj2 (N.eqb_neq _ _) Hcr), (proj2 (N.eqb_neq _ _) Hlf). cbn [orb].
    rewrite (proj2 (N.ltb_ge _ _)) by lia. replace (len_utf16 c + ulen cur - len_utf16 c)%N with (ulen cur) by lia.
    rewrite IH, blen_cons. lia.
Qed.

(** Whatever the column, the loop stops between characters. *)
Lemma along_line_prefix s byte remaining : exists pre post, s = pre ++ post /\ along_line s byte remaining = byte + blen pre.
Proof.
  revert byte remaining. induction s as [|c s IH]; intros byte remaining.
  - exists [], []. split; [done|]. simpl. destruct (N.eqb remaining 0); unfold blen; simpl; lia.
  - assert (Hnil : exists pre post, c :: s = pre ++ post /\ byte = byte + blen pre) by (exists [], (c :: s); split; [done|unfold blen; simpl; lia]).
    cbn [along_line]. destruct (N.eqb remaining 0); [done|]. destruct (_ || _)%bool; [done|].
    destruct (N.ltb remaining _).
    + exists [c], s. split; [done|]. rewrite blen_cons. unfold blen. simpl. lia.
    + destruct (IH (byte + N.to_nat (len_utf8 c)) (remaining - len_utf16 c)%N) as (pre & post & -> & ->).
      exists (c :: pre), post. split; [done|]. rewrite blen_cons. lia.
Qed.

Lemma to_line_chars_prefix n target s byte l : length s < n ->
  exists pre, let '(s', byte', l') := to_line_chars target s byte l in s = pre ++ s' /\ byte' = byte + blen pre.
Proof.
  revert s byte l. induction n as [|n IH]; intros s byte l Hn; [lia|].
  assert (Hnil : exists pre, s = pre ++ s /\ byte = byte + blen pre) by (exists []; split; [done|unfold blen; simpl; lia]).
  assert (Hgo : forall x s' l', s = x ++ s' -> x <> [] ->
    exists pre, let '(s', byte', l') := to_line_chars target s' (byte + blen x) l' in s = pre ++ s' /\ byte' = byte + blen pre).
  { intros x s' l' E Hx. destruct (IH s' (byte + blen x) l') as (pre & Hpre).
    { apply (f_equal length) in E. rewrite length_app in E. destruct x; simpl in *; [done|lia]. }
    exists (x ++ pre). destruct (to_line_chars target s' (byte + blen x) l') as [[s'' byte''] l'']. destruct Hpre as [-> ->].
    rewrite E, blen_app. split; [by rewrite app_assoc|lia]. }
  destruct s as [|c s]; [by cbn [to_line_chars]; destruct (N.ltb l target)|]. cbn [to_line_chars].
  destruct (N.ltb l target); [|done]. destruct (N.eqb c CR) eqn:Ecr.
  - apply N.eqb_eq in Ecr as ->. destruct s as [|y s]; [by apply (Hgo [CR] [])|].
    destruct (N.eqb y LF) eqn:Elf; [apply N.eqb_eq in Elf as ->; by apply (Hgo [CR; LF] s)|by apply (Hgo [CR] (y :: s))].
  - destruct (N.eqb c LF) eqn:Elf; [apply N.eqb_eq in Elf as ->; by apply (Hgo [LF] s)|].
    replace (N.to_nat (len_utf8 c)) with (blen [c]) by (rewrite blen_cons; unfold blen; simpl; lia). by apply (Hgo [c] s).
Qed.

(** ** Snapping *)

Lemma snap_boundary_spec fuel bytes n : n <= length bytes -> length bytes - n <= fuel ->
  let m := snap_boundary fuel bytes n in n <= m <= length bytes /\ is_char_boundary bytes m = true.
Proof.
  revert n. induction fuel as [|fuel IH]; intros n Hn Hf; simpl.
  - assert (n = length bytes) as -> by lia. split; [lia|apply boundary_end].
  - destruct (Nat.ltb_spec n (length bytes)) as [Hlt|Hge]; cbn [andb].
    + destruct (is_char_boundary bytes n) eqn:Eb; cbn [negb]; [split; [lia|done]|].
      destruct (IH (S n)) as [? ?]; [lia..|]. split; [lia|done].
    + assert (n = length bytes) as -> by lia. split; [lia|apply boundary_end].
Qed.

Lemma snap_boundary_id fuel bytes n : is_char_boundary bytes n = true -> snap_boundary fuel bytes n = n.
Proof. intros E. destruct fuel; simpl; [done|]. rewrite E. by rewrite andb_false_r. Qed.

(** The bytes around a split. *)
Lemma around pre post : 
  (encode_utf8 (pre ++ post) !! blen pre = Some LF <-> post !! 0 = Some LF)
  /\ (0 < blen pre -> (encode_utf8 (pre ++ post) !! (blen pre - 1) = Some CR <-> last pre = Some CR)).
Proof.
  rewrite encode_utf8_app. unfold blen. split.
  - rewrite lookup_app_r, Nat.sub_diag by lia. apply head_byte. unfold LF. lia.
  - intros Hpos. rewrite lookup_app_l by lia. rewrite <- (last_byte pre CR) by (unfold CR; lia).
    rewrite last_lookup. by replace (pred (length (encode_utf8 pre))) with (length (encode_utf8 pre) - 1) by lia.
Qed.

Lemma snap_crlf_split pre post : exists pre' post', pre ++ post = pre' ++ post'
  /\ snap_crlf (encode_utf8 (pre ++ post)) (blen pre) = blen pre' /\ whole_breaks pre' post'
  /\ (whole_breaks pre post -> pre' = pre).
Proof.
  unfold snap_crlf. destruct (around pre post) as [H1 H2]. destruct (_ && _)%bool eqn:E.
  - rewrite !andb_true_iff, Nat.ltb_lt, !bool_decide_eq_true in E. destruct E as (((Hpos & _) & Ecr) & Elf).
    apply (H2 Hpos) in Ecr. apply H1 in Elf. destruct post as [|y post]; [done|]. injection Elf as ->.
    exists (pre ++ [LF]), post. split_and!; [by rewrite <- app_assoc|by rewrite blen_app, Nat.add_1_r|..].
    + intros [Hl _]. by rewrite last_snoc in Hl.
    + intros Hw. by destruct Hw.
  - exists pre, post. split_and!; [done..| |done]. intros [Ecr Elf]. apply not_true_iff_false in E. apply E.
    assert (Hpos : 0 < blen pre).
    { destruct pre as [|c pre]; [done|]. rewrite blen_cons. unfold len_utf8. destruct (N.ltb c 128), (N.ltb c 2048), (N.ltb c 65536); lia. }
    rewrite !andb_true_iff, !Nat.ltb_lt, !bool_decide_eq_true. split_and!; [done| |by apply (H2 Hpos)|by apply H1].
    assert (Hl : encode_utf8 (pre ++ post) !! blen pre = Some LF) by (by apply H1). by apply lookup_lt_Some in Hl.
Qed.

Lemma snap_split text offset : exists pre post, text = pre ++ post /\ snap text offset = blen pre /\ whole_breaks pre post.
Proof.
  unfold snap. destruct (snap_boundary_spec (length (encode_utf8 text)) (encode_utf8 text) (Nat.min offset (length (encode_utf8 text))))
    as [[_ Hle] Hb]; [lia..|].
  destruct (boundary_split text _ Hle Hb) as (pre & post & -> & ->).
  destruct (snap_crlf_split pre post) as (pre' & post' & E & -> & Hw & _). by exists pre', post'.
Qed.

Lemma snap_exact pre post : whole_breaks pre post -> snap (pre ++ post) (blen pre) = blen pre.
Proof.
  intros Hw. unfold snap. rewrite Nat.min_l by (change (blen pre <= blen (pre ++ post)); rewrite blen_app; lia).
  rewrite snap_boundary_id by apply split_boundary.
  destruct (snap_crlf_split pre post) as (pre' & post' & _ & -> & _ & Hp). by rewrite Hp.
Qed.

Lemma scalar_split pre post : Forall (fun c => is_scalar c = true) (pre ++ post) ->
  from_utf8 (take (blen pre) (encode_utf8 (pre ++ post))) = Some pre /\ from_utf8 (encode_utf8 post) = Some post.
Proof.
  intros [Hpre Hpost]%Forall_app. rewrite encode_utf8_app. unfold blen. rewrite take_app_length, !from_utf8_encode by done. done.
Qed.

Lemma offset_position text offset : Forall (fun c => is_scalar c = true) text ->
  exists pre post, text = pre ++ post /\ snap text offset = blen pre /\ whole_breaks pre post
    /\ offset_to_position text offset = Some (count_position pre 0 0).
Proof.
  intros Hs. destruct (snap_split text offset) as (pre & post & -> & Hsnap & Hw). exists pre, post. split_and!; [done..|].
  unfold offset_to_position. rewrite Hsnap, split_boundary. by rewrite (proj1 (scalar_split pre post Hs)).
Qed.

Lemma position_of_split pre post : Forall (fun c => is_scalar c = true) (pre ++ post) -> whole_breaks pre post ->
  position_to_offset (pre ++ post) (count_position pre 0 0) = Some (blen pre).
Proof.
  intros Hs Hw. set (p := count_position pre 0 0).
  destruct (to_line_count (S (length pre)) pre post 0 0 0 ltac:(lia) Hw) as (ls & cur & Epre & Hpl & Hto & Hcase).
  fold p in Hto, Hcase. unfold position_to_offset. rewrite (to_line_encode (S (length (pre ++ post)))) by lia. rewrite Hto, N.ltb_irrefl.
  assert (Hch : character p = ulen cur) by (destruct Hcase as [(_ & _ & ->)|(_ & _ & ->)]; lia). rewrite Hch.
  assert (Hlen : blen pre = 0 + blen ls + blen cur) by (rewrite Epre, blen_app; lia).
  assert (Hcp : from_utf8 (encode_utf8 (cur ++ post)) = Some (cur ++ post)).
  { rewrite Epre, <- app_assoc in Hs. apply Forall_app in Hs as [_ Hs]. by apply from_utf8_encode. }
  rewrite Hcp. cbn [fmap option_fmap option_map]. rewrite along_line_plain by done. rewrite <- Hlen.
  destruct (N.eqb (ulen cur) 0 || is_empty _)%bool eqn:E; [|done]. f_equal.
  assert (Hc0 : blen cur = 0); [|lia]. apply orb_true_iff in E as [E|E].
  - apply N.eqb_eq in E. destruct cur as [|x cur]; [done|]. unfold ulen in E. cbn [fold_right] in E.
    unfold len_utf16 in E. destruct (N.ltb x 65536); lia.
  - rewrite encode_utf8_app in E. unfold blen. by destruct (encode_utf8 cur).
Qed.

(** From an offset to its position and back: every offset, past the end or
    inside a character included, has a position, and the offset of that position
    is the offset snapped up to a character boundary and out of a [\r\n] pair;
    so an offset between characters and not inside such a pair comes back
    exactly. *)
Theorem position_round_trip text offset : Forall (fun c => is_scalar c = true) text ->
  (exists p, offset_to_position text offset = Some p /\ position_to_offset text p = Some (snap text offset))
  /\ (forall pre post, text = pre ++ post -> whole_breaks pre post -> snap text (blen pre) = blen pre).
Proof.
  intros Hs. split; [|intros pre post ->; apply snap_exact].
  destruct (offset_position text offset Hs) as (pre & post & -> & Hsnap & Hw & Hp).
  exists (count_position pre 0 0). rewrite Hsnap. split; [done|by apply position_of_split].
Qed.

(** Every position an editor sends has an offset: [position_to_offset] does
    not panic, and its offset is a character boundary of the text, at most its
    length. *)
Theorem position_to_offset_boundary text p : Forall (fun c => is_scalar c = true) text ->
  exists pre post, text = pre ++ post /\ position_to_offset text p = Some (blen pre).
Proof.
  intros Hs. unfold position_to_offset. rewrite (to_line_encode (S (length text))) by lia.
  destruct (to_line_chars_prefix (S (length text)) (line p) text 0 0) as [pre Hpre]; [lia|].
  destruct (to_line_chars _ _ _ _) as [[s' byte'] l']. destruct Hpre as [-> ->].
  destruct (N.ltb l' (line p)); [exists (pre ++ s'), []; by rewrite app_nil_r|].
  destruct (_ || _)%bool; [by exists pre, s'|]. rewrite (proj2 (scalar_split pre s' Hs)). cbn.
  destruct (along_line_prefix s' (blen pre) (character p)) as (a & b & -> & ->).
  exists (pre ++ a), b. rewrite blen_app. split; [by rewrite app_assoc|done].
Qed.

Lemma count_bound n s l c : length s < n ->
  (line (count_position s l c) + character (count_position s l c) <= l + c + N.of_nat (blen s))%N.
Proof.
  revert s l c. induction n as [|n IH]; intros s l c Hn; [lia|]. destruct s as [|x s]; [cbn; lia|]. simpl in Hn.
  assert (Hx : (1 <= len_utf16 x <= len_utf8 x)%N)
    by (unfold len_utf16, len_utf8; destruct (N.ltb_spec x 128), (N.ltb_spec x 2048), (N.ltb_spec x 65536); lia).
  rewrite blen_cons. cbn [count_position]. destruct (N.eqb x CR).
  - assert (Hs : (line (count_position s (l + 1) 0) + character (count_position s (l + 1) 0)
        <= l + c + N.of_nat (N.to_nat (len_utf8 x) + blen s))%N).
    { etrans; [apply IH; lia|]. lia. }
    destruct s as [|y s]; [done|]. destruct (N.eqb y LF); [|done]. simpl in Hn. etrans; [apply IH; lia|]. rewrite blen_cons. lia.
  - destruct (N.eqb x LF); (etrans; [apply IH; lia|]; lia).
Qed.

(** Lines and columns fit their integers: together they are at most the
    number of bytes, so neither [u32] counter of [offset_to_position] can
    overflow on a text below four gigabytes. *)
Theorem position_bounds text offset p : Forall (fun c => is_scalar c = true) text ->
  offset_to_position text offset = Some p -> (line p + character p <= N.of_nat (length (encode_utf8 text)))%N.
Proof.
  intros Hs Hp. destruct (offset_position text offset Hs) as (pre & post & -> & _ & _ & E). rewrite E in Hp. injection Hp as <-.
  etrans; [apply (count_bound (S (length pre))); lia|]. fold (blen (pre ++ post)). rewrite blen_app. lia.
Qed.

(** [a], a crab, [\r\n], [b]. *)
Definition crab : str := [97; 129408; 13; 10; 98]%N.

Lemma position_round_trip_witness : exists p, offset_to_position crab 3 = Some p /\ position_to_offset crab p = Some 5.
Proof. apply (position_round_trip crab 3). by repeat constructor. Defined.

Lemma position_to_offset_boundary_witness :
  exists pre post, crab = pre ++ post /\ position_to_offset crab {| line := 0; character := 2 |} = Some (blen pre).
Proof. apply (position_to_offset_boundary crab). by repeat constructor. Defined.

Lemma position_bounds_witness : (1 + 1 <= 8)%N.
Proof.
  apply (position_bounds crab 9 {| line := 1; character := 1 |}); [by repeat constructor|vm_compute; reflexivity].
Defined.
