(* ===== verification/Lexer.v ===== *)
(** * The lexer's tokens and callbacks ([crates/cst/src/lexer/mod.rs], [callbacks.rs])

    [Token] is the token type from which the crate [logos] generates the lexer.
    The generated automaton is not part of the sources; the functions it calls
    for the tokens that are not regular are, and are translated here: block
    comments, the three kinds of strings, and the openers of the four kinds of
    interpolated strings.  A callback gets the bytes after what the automaton
    matched ([lex.remainder()]) and answers with its result and the argument of
    its [lex.bump].

    The theorems: every callback returns, and bumps to a character boundary of
    the text; a block comment ends where its own nesting closes, past nested
    comments and literals; a string literal ends at its closing quote. *)

From S2P Require Import Prelude Encoding StrBytes.

Inductive LexError := UnterminatedString | UnterminatedComment | Unknown.

Inductive InterpKind :=
| BeginEnd (is_byte : bool)
| Begin
| Part
| End_ (is_byte : bool)
| TripleBeginEnd (is_byte : bool)
| TripleBegin
| VerbatimBeginEnd (is_byte : bool)
| VerbatimBegin
| ExtendedBeginEnd (n : nat)
| ExtendedBegin (n : nat).

Inductive Token :=
| Token_Whitespace | Token_Newline | Token_LineComment | Token_BlockComment | Token_And | Token_As
| Token_Assert | Token_Base | Token_Begin | Token_Class | Token_Do | Token_Done | Token_DownTo | Token_Else
| Token_End | Token_Exception | Token_False | Token_Finally | Token_For | Token_Fun | Token_Function | Token_If
| Token_In | Token_Inherit | Token_Lazy | Token_Let | Token_Match | Token_Mod | Token_Module | Token_Mutable
| Token_New | Token_Of | Token_Open | Token_Or | Token_Private | Token_Rec | Token_Sig | Token_Struct
| Token_Then | Token_To | Token_True | Token_Try | Token_Type | Token_Val | Token_When | Token_While
| Token_With | Token_Underscore | Token_Abstract | Token_Const | Token_Default | Token_Delegate
| Token_Downcast | Token_Elif | Token_Extern | Token_Fixed | Token_Global | Token_Inline | Token_Interface
| Token_Internal | Token_Member | Token_Namespace | Token_Null | Token_Override | Token_Public | Token_Return
| Token_Static | Token_Upcast | Token_Use | Token_Void | Token_Yield | Token_DoBang | Token_YieldBang
| Token_ReturnBang | Token_MatchBang | Token_AndBang | Token_LetBang | Token_UseBang | Token_WhileBang
| Token_KeywordString (s : str) | Token_Ident (s : str) | Token_QuotedIdent (s : str) | Token_XInt (s : str)
| Token_XIntSuffixed (s : str) | Token_XIEEE32 (s : str) | Token_XIEEE64 (s : str)
| Token_IntSuffixed (s : str) | Token_BigNum (s : str) | Token_Decimal (s : str) | Token_Float32 (s : str)
| Token_Float64 (s : str) | Token_IntDotDot (s : str) | Token_Int (s : str) | Token_Char (s : str)
| Token_TripleString | Token_VerbatimString | Token_String | Token_InterpString (k : InterpKind)
| Token_LParenStarRParen | Token_LParen | Token_RParen | Token_LBrack | Token_RBrack | Token_LBrackBar
| Token_BarRBrack | Token_LBrackLess | Token_GreaterRBrack | Token_LQuote | Token_LQuoteRaw | Token_RQuote
| Token_RQuoteRaw | Token_RQuoteDot | Token_RQuoteRawDot | Token_RQuoteBarRBrace | Token_RQuoteRawBarRBrace
| Token_LBrace | Token_RBrace | Token_LBraceBar | Token_BarRBrace | Token_Comma | Token_SemiSemi | Token_Semi
| Token_DotDotHat | Token_DotDot | Token_FunkyOpName (s : str) | Token_Dot | Token_ColonColon
| Token_ColonQMarkGreater | Token_ColonQMark | Token_ColonGreater | Token_ColonEquals | Token_Colon
| Token_RArrow | Token_LArrow | Token_Equals | Token_AmpAmp | Token_Amp | Token_BarBar | Token_Bar
| Token_QMarkQMark | Token_QMark | Token_Hash | Token_Dollar | Token_Tilde | Token_Quote
| Token_Less (b : bool) | Token_Greater (b : bool) | Token_Op (s : str).

Definition RESERVED_IDENTS : list str :=
  [#"break"; #"checked"; #"component"; #"constraint"; #"continue"; #"fori"; #"include"; #"mixin"; #"parallel";
   #"params"; #"process"; #"protected"; #"pure"; #"sealed"; #"tailcall"; #"trait"; #"virtual"].
Definition is_reserved_ident (word : str) : bool := existsb (str_eqb word) RESERVED_IDENTS.

(** ** Bytes *)

Definition QUOTE : N := 34.
Definition APOS : N := 39.
Definition BACKSLASH : N := 92.
Definition LBRACE : N := 123.
Definition RBRACE : N := 125.

(** [bytes.get(i) == Some(&b)]. *)
Definition at_is (bytes : list N) (i : nat) (b : N) : bool :=
  match bytes !! i with Some x => N.eqb x b | None => false end.

Definition is_ascii_hexdigit (b : N) : bool := (is_ascii_digit b || in_range 65 70 b || in_range 97 102 b)%bool.

(** [bytes[i..].iter().take_while(|&&x| x == b).count()]. *)
Fixpoint leading_run (b : N) (bs : list N) : nat :=
  match bs with x :: bs' => if N.eqb x b then S (leading_run b bs') else O | [] => O end.
Definition run_at (b : N) (bytes : list N) (i : nat) : nat := leading_run b (drop i bytes).

Definition matches_at (bytes : list N) (i : nat) (needle : list N) : bool :=
  (Nat.leb (i + length needle) (length bytes) && str_eqb (take (length needle) (drop i bytes)) needle)%bool.

(** ** Literals inside block comments

    The loops go over the bytes from [i] on; [len] is the length of all bytes. *)

Fixpoint skip_single_loop (len : nat) (bs : list N) (i : nat) : nat :=
  match bs with
  | [] => len
  | b :: bs' =>
      if N.eqb b BACKSLASH then
        match bs' with
        | _ :: bs'' => skip_single_loop len bs'' (i + 2)
        | [] => skip_single_loop len bs' (i + 1)
        end
      else if N.eqb b QUOTE then i + 1 else skip_single_loop len bs' (i + 1)
  end.
Definition skip_single_string (bytes : list N) (from : nat) : nat := skip_single_loop (length bytes) (drop from bytes) from.

Fixpoint skip_verbatim_loop (len : nat) (bs : list N) (i : nat) : nat :=
  match bs with
  | [] => len
  | b :: bs' =>
      if N.eqb b QUOTE then
        match bs' with
        | b2 :: bs'' => if N.eqb b2 QUOTE then skip_verbatim_loop len bs'' (i + 2) else i + 1
        | [] => i + 1
        end
      else skip_verbatim_loop len bs' (i + 1)
  end.
Definition skip_verbatim_string (bytes : list N) (from : nat) : nat := skip_verbatim_loop (length bytes) (drop from bytes) from.

Fixpoint skip_triple_loop (len : nat) (bs : list N) (i : nat) : nat :=
  match bs with
  | b :: ((b2 :: b3 :: _) as bs') =>
      if (N.eqb b QUOTE && N.eqb b2 QUOTE && N.eqb b3 QUOTE)%bool then i + 3 else skip_triple_loop len bs' (i + 1)
  | _ => len
  end.
Definition skip_triple_string (bytes : list N) (from : nat) : nat := skip_triple_loop (length bytes) (drop from bytes) from.

Definition utf8_char_len (b : N) : option nat :=
  if N.ltb b 128 then Some 1 else if N.ltb b 192 then None else if N.ltb b 224 then Some 2
  else if N.ltb b 240 then Some 3 else if N.ltb b 248 then Some 4 else None.

(** The letters of a one-letter escape. *)
Definition is_escape_letter (b : N) : bool :=
  existsb (N.eqb b) ([BACKSLASH; QUOTE; APOS] ++ #"afvntbr").

Definition match_char_literal (bytes : list N) (i : nat) : option nat :=
  let rest := drop (i + 1) bytes in
  if at_is rest 0 BACKSLASH then
    if (Nat.ltb (length rest) 3 || negb (at_is rest 2 APOS))%bool then None
    else x ← rest !! 1; if is_escape_letter x then Some (i + 1 + 3) else None
  else
    first ← rest !! 0;
    n ← utf8_char_len first;
    if (Nat.ltb (length rest) (n + 1) || negb (at_is rest n APOS))%bool then None
    else if (Nat.eqb n 1 && existsb (N.eqb first) [BACKSLASH; LF; CR; 9; 8]%N)%bool then None
    else Some (i + 1 + n + 1).

(** ** Block comments *)

(** A turn of the loop, on the index and the nesting depth. *)
Definition block_step (bytes : list N) (st : nat * nat) : (nat * nat) + (result unit LexError * nat) :=
  let '(i, depth) := st in
  if matches_at bytes i (#"(*)") then inl (i + 3, depth)
  else if matches_at bytes i (#"(*") then inl (i + 2, depth + 1)
  else if matches_at bytes i (#"*)") then
    if Nat.eqb (depth - 1) 0 then inr (Ok tt, i + 2) else inl (i + 2, depth - 1)
  else if matches_at bytes i [QUOTE; QUOTE; QUOTE] then inl (skip_triple_string bytes (i + 3), depth)
  else if matches_at bytes i [64; QUOTE]%N then inl (skip_verbatim_string bytes (i + 2), depth)
  else if at_is bytes i QUOTE then inl (skip_single_string bytes (i + 1), depth)
  else if at_is bytes i APOS then
    inl (match match_char_literal bytes i with Some e => e | None => i + 1 end, depth)
  else inl (i + 1, depth).

Definition lex_block_comment (bytes : list N) : option (result unit LexError * nat) :=
  while_lt (length bytes) fst (block_step bytes) (Err UnterminatedComment, length bytes) (0, 1).

(** ** Strings *)

Definition byte_suffix_len (after_close : list N) : nat := if at_is after_close 0 66 then 1 else 0.

Fixpoint lex_single_loop (len : nat) (bs : list N) (i : nat) : result unit LexError * nat :=
  match bs with
  | [] => (Err UnterminatedString, len)
  | b :: bs' =>
      if N.eqb b BACKSLASH then
        match bs' with
        | _ :: bs'' => lex_single_loop len bs'' (i + 2)
        | [] => lex_single_loop len bs' (i + 1)
        end
      else if N.eqb b QUOTE then (Ok tt, i + 1 + byte_suffix_len bs') else lex_single_loop len bs' (i + 1)
  end.
Definition lex_single_string (bytes : list N) : result unit LexError * nat := lex_single_loop (length bytes) bytes 0.

Fixpoint lex_verbatim_loop (len : nat) (bs : list N) (i : nat) : result unit LexError * nat :=
  match bs with
  | [] => (Err UnterminatedString, len)
  | b :: bs' =>
      if N.eqb b QUOTE then
        match bs' with
        | b2 :: bs'' => if N.eqb b2 QUOTE then lex_verbatim_loop len bs'' (i + 2) else (Ok tt, i + 1 + byte_suffix_len bs')
        | [] => (Ok tt, i + 1 + byte_suffix_len bs')
        end
      else lex_verbatim_loop len bs' (i + 1)
  end.
Definition lex_verbatim_string (bytes : list N) : result unit LexError * nat := lex_verbatim_loop (length bytes) bytes 0.

Fixpoint lex_triple_loop (len : nat) (bs : list N) (i : nat) : result unit LexError * nat :=
  match bs with
  | b :: ((b2 :: b3 :: bs'') as bs') =>
      if (N.eqb b QUOTE && N.eqb b2 QUOTE && N.eqb b3 QUOTE)%bool then (Ok tt, i + 3 + byte_suffix_len bs'')
      else lex_triple_loop len bs' (i + 1)
  | _ => (Err UnterminatedString, len)
  end.
Definition lex_triple_string (bytes : list N) : result unit LexError * nat := lex_triple_loop (length bytes) bytes 0.

(** ** Interpolated strings *)

(** [bytes.get(start..start + len).is_some_and(|s| s.iter().all(p))]. *)
Definition all_at (p : N -> bool) (bytes : list N) (start len : nat) : bool :=
  (Nat.leb (start + len) (length bytes) && forallb p (take len (drop start bytes)))%bool.
Definition ascii_digits := all_at is_ascii_digit.
Definition ascii_hex_digits := all_at is_ascii_hexdigit.

Fixpoint blank_run (bs : list N) : nat :=
  match bs with b :: bs' => if (N.eqb b 32 || N.eqb b 9)%bool then S (blank_run bs') else O | [] => O end.
Definition line_continuation_len (bytes : list N) (start newline_len : nat) : nat :=
  newline_len + blank_run (drop (start + newline_len) bytes).

Definition single_quote_escape_len (bytes : list N) (i : nat) : option nat :=
  next ← bytes !! (i + 1);
  if is_escape_letter next then Some 2
  else if N.eqb next LF then Some (line_continuation_len bytes i 2)
  else if (N.eqb next CR && at_is bytes (i + 2) LF)%bool then Some (line_continuation_len bytes i 3)
  else if (is_ascii_digit next && ascii_digits bytes (i + 1) 3)%bool then Some 4
  else if (N.eqb next (#c"x") && ascii_hex_digits bytes (i + 2) 2)%bool then Some 4
  else if (N.eqb next (#c"u") && ascii_hex_digits bytes (i + 2) 4)%bool then Some 6
  else if (N.eqb next (#c"U") && ascii_hex_digits bytes (i + 2) 8)%bool then Some 10
  else None.

Definition scanned := (result InterpKind LexError * nat)%type.

Definition opener_step (bytes : list N) (i : nat) : nat + scanned :=
  if at_is bytes i BACKSLASH then
    inl (match single_quote_escape_len bytes i with Some len => i + len | None => i + 1 end)
  else if at_is bytes i LBRACE then
    if at_is bytes (i + 1) LBRACE then inl (i + 2) else inr (Ok Begin, i + 1)
  else if at_is bytes i RBRACE then
    if at_is bytes (i + 1) RBRACE then inl (i + 2) else inl (i + 1)
  else if at_is bytes i QUOTE then
    let is_byte := at_is bytes (i + 1) 66 in inr (Ok (BeginEnd is_byte), i + 1 + Nat.b2n is_byte)
  else inl (i + 1).
Definition lex_interp_opener (bytes : list N) : option scanned :=
  while_lt (length bytes) id (opener_step bytes) (Err UnterminatedString, length bytes) 0.

Definition triple_step (bytes : list N) (i : nat) : nat + scanned :=
  if at_is bytes i LBRACE then
    if at_is bytes (i + 1) LBRACE then inl (i + 2) else inr (Ok TripleBegin, i + 1)
  else if at_is bytes i RBRACE then
    if at_is bytes (i + 1) RBRACE then inl (i + 2) else inl (i + 1)
  else if (at_is bytes i QUOTE && at_is bytes (i + 1) QUOTE && at_is bytes (i + 2) QUOTE)%bool then
    let is_byte := at_is bytes (i + 3) 66 in inr (Ok (TripleBeginEnd is_byte), i + 3 + Nat.b2n is_byte)
  else inl (i + 1).
Definition lex_interp_triple_opener (bytes : list N) : option scanned :=
  while_lt (length bytes) id (triple_step bytes) (Err UnterminatedString, length bytes) 0.

Definition verbatim_step (bytes : list N) (i : nat) : nat + scanned :=
  if at_is bytes i LBRACE then
    if at_is bytes (i + 1) LBRACE then inl (i + 2) else inr (Ok VerbatimBegin, i + 1)
  else if at_is bytes i RBRACE then
    if at_is bytes (i + 1) RBRACE then inl (i + 2) else inl (i + 1)
  else if at_is bytes i QUOTE then
    if at_is bytes (i + 1) QUOTE then inl (i + 2)
    else let is_byte := at_is bytes (i + 1) 66 in inr (Ok (VerbatimBeginEnd is_byte), i + 1 + Nat.b2n is_byte)
  else inl (i + 1).
Definition lex_interp_verbatim_opener (bytes : list N) : option scanned :=
  while_lt (length bytes) id (verbatim_step bytes) (Err UnterminatedString, length bytes) 0.

Definition extended_step (n : nat) (bytes : list N) (i : nat) : nat + scanned :=
  if at_is bytes i LBRACE then
    let run := run_at LBRACE bytes i in
    if Nat.leb n run then inr (Ok (ExtendedBegin n), i + run) else inl (i + run)
  else if (at_is bytes i QUOTE && at_is bytes (i + 1) QUOTE && at_is bytes (i + 2) QUOTE)%bool then
    inr (Ok (ExtendedBeginEnd n), i + 3)
  else inl (i + 1).
(** [matched] is [lex.slice()]: the [$]s and the three quotes. *)
Definition lex_interp_extended_opener (matched bytes : list N) : option scanned :=
  let n := leading_run (#c"$") matched in
  while_lt (length bytes) id (extended_step n bytes) (Err UnterminatedString, length bytes) 0.

(** ** Where a callback stops

    A scan stops at the end of the bytes, or after an ASCII byte. *)

Definition stops (bytes : list N) (n : nat) : Prop :=
  n = length bytes \/ exists k b, n = S k /\ bytes !! k = Some b /\ (b < 128)%N.

(** [lex.bump(n)] does not panic: [n] is a character boundary. *)
Definition bumps (s : str) (n : nat) : Prop := exists a b, s = a ++ b /\ n = blen a.

Lemma stops_bumps s n : stops (encode_utf8 s) n -> bumps s n.
Proof.
  intros [->|(k & b & -> & Hk & Hb)]; [by exists s, []; rewrite app_nil_r|].
  destruct (ascii_split _ _ _ Hk Hb) as (pre & post & -> & ->). exists (pre ++ [b]), post. rewrite <- app_assoc. split; [done|].
  rewrite blen_app, blen_cons, len_utf8_ascii by done. cbn. lia.
Qed.

Lemma at_is_spec bytes i b : at_is bytes i b = true <-> bytes !! i = Some b.
Proof. unfold at_is. destruct (bytes !! i) as [x|]; [|done]. rewrite N.eqb_eq. split; [by intros ->|by intros [= ->]]. Qed.

Lemma at_is_lt bytes i b : at_is bytes i b = true -> i < length bytes.
Proof. rewrite at_is_spec. apply lookup_lt_Some. Qed.

Lemma stops_after bytes i b n : at_is bytes i b = true -> (b < 128)%N -> n = S i -> stops bytes n.
Proof. intros H Hb ->. right. exists i, b. by rewrite <- at_is_spec. Qed.

(** A closing quote, with its [B] suffix. *)
Lemma stops_suffix bytes i : at_is bytes i QUOTE = true -> stops bytes (i + 1 + Nat.b2n (at_is bytes (i + 1) 66)).
Proof.
  intros H. destruct (at_is bytes (i + 1) 66) eqn:E; [eapply (stops_after _ _ _ _ E); [done|cbn; lia]|].
  eapply (stops_after _ _ _ _ H); [done|cbn; lia].
Qed.

(** The tests at a split of the bytes. *)
Fixpoint has_prefix (needle t : list N) : bool :=
  match needle, t with
  | [], _ => true
  | x :: needle', y :: t' => (N.eqb y x && has_prefix needle' t')%bool
  | _, [] => false
  end.

Lemma matches_at_split pre t needle : matches_at (pre ++ t) (length pre) needle = has_prefix needle t.
Proof.
  unfold matches_at. rewrite drop_app_length, length_app.
  replace (Nat.leb (length pre + length needle) (length pre + length t)) with (Nat.leb (length needle) (length t))
    by (apply eq_true_iff_eq; rewrite !Nat.leb_le; lia).
  revert t. induction needle as [|x needle IH]; intros [|y t]; try done. cbn. rewrite <- IH.
  destruct (N.eqb y x); [done|]. by rewrite andb_false_r.
Qed.

Lemma matches_at_byte bytes i needle k b : matches_at bytes i needle = true -> needle !! k = Some b -> at_is bytes (i + k) b = true.
Proof.
  unfold matches_at. intros [_ E%str_eqb_eq]%andb_prop Hk. rewrite <- E in Hk. apply at_is_spec.
  apply lookup_take_Some in Hk as [Hk _]. by rewrite lookup_drop in Hk.
Qed.

Lemma at_is_split pre t b : at_is (pre ++ t) (length pre) b = starts_with_char b t.
Proof. unfold at_is. rewrite lookup_app_r, Nat.sub_diag by lia. by destruct t. Qed.

Lemma leading_run_le b bs : leading_run b bs <= length bs.
Proof. induction bs as [|x bs IH]; cbn; [done|]. destruct (N.eqb x b); lia. Qed.

(** ** The loops over literals *)

Lemma skip_single_bounds n len bs i : length bs <= n -> i + length bs = len -> i <= skip_single_loop len bs i <= len.
Proof.
  revert bs i. induction n as [|n IH]; intros [|b bs] i Hn Hl; cbn [skip_single_loop length] in *; [lia..|].
  destruct (N.eqb b BACKSLASH); [destruct bs as [|b2 bs]; cbn [length] in *|destruct (N.eqb b QUOTE); [lia|]].
  - cbn. lia.
  - specialize (IH bs (i + 2)). lia.
  - specialize (IH bs (i + 1)). lia.
Qed.

Lemma skip_verbatim_bounds n len bs i : length bs <= n -> i + length bs = len -> i <= skip_verbatim_loop len bs i <= len.
Proof.
  revert bs i. induction n as [|n IH]; intros [|b bs] i Hn Hl; cbn [skip_verbatim_loop length] in *; [lia..|].
  destruct (N.eqb b QUOTE); [|specialize (IH bs (i + 1)); lia].
  destruct bs as [|b2 bs]; cbn [length] in *; [lia|]. destruct (N.eqb b2 QUOTE); [|lia]. specialize (IH bs (i + 2)). lia.
Qed.

Lemma skip_triple_cons len b b2 b3 bs i : skip_triple_loop len (b :: b2 :: b3 :: bs) i =
  if (N.eqb b QUOTE && N.eqb b2 QUOTE && N.eqb b3 QUOTE)%bool then i + 3 else skip_triple_loop len (b2 :: b3 :: bs) (i + 1).
Proof. done. Qed.

Lemma skip_triple_bounds len bs i : i + length bs = len -> i <= skip_triple_loop len bs i <= len.
Proof.
  revert i. induction bs as [|b [|b2 [|b3 bs]] IH]; intros i Hl; [cbn in *; lia..|].
  rewrite skip_triple_cons. cbn [length] in *. destruct (_ && _)%bool; [lia|]. specialize (IH (i + 1)). lia.
Qed.

Lemma block_step_advances bytes : advances (length bytes) fst (block_step bytes).
Proof.
  intros [i depth] [j d] Hi H. cbn [fst] in *. unfold block_step in H.
  destruct (matches_at bytes i (#"(*)")); [simplify_eq; lia|]. destruct (matches_at bytes i (#"(*")); [simplify_eq; lia|].
  destruct (matches_at bytes i (#"*)")); [destruct (Nat.eqb _ _); simplify_eq; lia|].
  destruct (matches_at bytes i [QUOTE; QUOTE; QUOTE]) eqn:E3.
  { apply (matches_at_byte _ _ _ 2 QUOTE) in E3; [|done]. apply at_is_lt in E3. simplify_eq.
    pose proof (skip_triple_bounds (length bytes) (drop (i + 3) bytes) (i + 3)). rewrite length_drop in *. unfold skip_triple_string. lia. }
  destruct (matches_at bytes i [64%N; QUOTE]) eqn:E2.
  { apply (matches_at_byte _ _ _ 1 QUOTE) in E2; [|done]. apply at_is_lt in E2. simplify_eq.
    pose proof (skip_verbatim_bounds _ (length bytes) (drop (i + 2) bytes) (i + 2) (le_n _)). rewrite length_drop in *. unfold skip_verbatim_string. lia. }
  destruct (at_is bytes i QUOTE) eqn:E1.
  { simplify_eq. pose proof (skip_single_bounds _ (length bytes) (drop (i + 1) bytes) (i + 1) (le_n _)).
    rewrite length_drop in *. unfold skip_single_string. lia. }
  destruct (at_is bytes i APOS); simplify_eq; [|lia]. destruct (match_char_literal bytes i) as [e|] eqn:E; [|lia].
  unfold match_char_literal in E. destruct (at_is _ 0 BACKSLASH).
  - destruct (_ || _)%bool; [done|]. destruct (_ !! 1) as [x|]; [|done]. cbn [mbind option_bind] in E. destruct (is_escape_letter x); [|done]. simplify_eq. lia.
  - destruct (_ !! 0) as [x|]; [|done]. cbn [mbind option_bind] in E. destruct (utf8_char_len x); [|done]. cbn [mbind option_bind] in E. repeat (case_match; [done|]). simplify_eq. lia.
Qed.

Lemma suffix_stops pre bs : stops (pre ++ QUOTE :: bs) (length pre + 1 + byte_suffix_len bs).
Proof.
  replace (byte_suffix_len bs) with (Nat.b2n (at_is (pre ++ QUOTE :: bs) (length pre + 1) 66)).
  - apply stops_suffix. by rewrite at_is_split.
  - replace (length pre + 1) with (length (pre ++ [QUOTE])) by (by rewrite length_app).
    change (pre ++ QUOTE :: bs) with (pre ++ [QUOTE] ++ bs). rewrite app_assoc, at_is_split.
    unfold byte_suffix_len, at_is. destruct bs as [|x bs]; [done|]. cbn. by destruct (N.eqb x 66).
Qed.

(** Moving a loop's split of the bytes past [t]. *)
Lemma split_ahead (pre t bs : list N) n : length t = n -> pre ++ t ++ bs = (pre ++ t) ++ bs /\ length pre + n = length (pre ++ t).
Proof. intros <-. by rewrite length_app, app_assoc. Qed.

Lemma lex_single_stops n bytes pre bs : length bs <= n -> bytes = pre ++ bs ->
  stops bytes (snd (lex_single_loop (length bytes) bs (length pre))).
Proof.
  revert pre bs. induction n as [|n IH]; intros pre [|b bs] Hn ->; cbn [lex_single_loop length snd] in *; [by left|lia|by left|].
  destruct (N.eqb b BACKSLASH); [destruct bs as [|b2 bs]; cbn [length] in *; [by left|]|destruct (N.eqb_spec b QUOTE) as [->|]; [apply suffix_stops|]].
  - destruct (split_ahead pre [b; b2] bs 2 eq_refl) as [E ->]. apply IH; [lia|done].
  - destruct (split_ahead pre [b] bs 1 eq_refl) as [E ->]. apply IH; [lia|done].
Qed.

Lemma lex_verbatim_stops n bytes pre bs : length bs <= n -> bytes = pre ++ bs ->
  stops bytes (snd (lex_verbatim_loop (length bytes) bs (length pre))).
Proof.
  revert pre bs. induction n as [|n IH]; intros pre [|b bs] Hn ->; cbn [lex_verbatim_loop length snd] in *; [by left|lia|by left|].
  destruct (N.eqb_spec b QUOTE) as [->|].
  - destruct bs as [|b2 bs]; cbn [length] in *; [apply suffix_stops|]. destruct (N.eqb b2 QUOTE); [|apply suffix_stops].
    destruct (split_ahead pre [QUOTE; b2] bs 2 eq_refl) as [E ->]. apply IH; [lia|done].
  - destruct (split_ahead pre [b] bs 1 eq_refl) as [E ->]. apply IH; [lia|done].
Qed.

Lemma lex_triple_cons len b b2 b3 bs i : lex_triple_loop len (b :: b2 :: b3 :: bs) i =
  if (N.eqb b QUOTE && N.eqb b2 QUOTE && N.eqb b3 QUOTE)%bool then (Ok tt, i + 3 + byte_suffix_len bs)
  else lex_triple_loop len (b2 :: b3 :: bs) (i + 1).
Proof. done. Qed.

Lemma lex_triple_stops bytes pre bs : bytes = pre ++ bs -> stops bytes (snd (lex_triple_loop (length bytes) bs (length pre))).
Proof.
  revert pre. induction bs as [|b [|b2 [|b3 bs]] IH]; intros pre E; [by left..|].
  rewrite lex_triple_cons. destruct (_ && _)%bool eqn:Eb.
  - apply andb_prop in Eb as [[->%N.eqb_eq ->%N.eqb_eq]%andb_prop ->%N.eqb_eq]. subst bytes. cbn [snd].
    pose proof (suffix_stops (pre ++ [QUOTE; QUOTE]) bs) as H. rewrite <- app_assoc, length_app in H. cbn in H.
    by replace (length pre + 3 + byte_suffix_len bs) with (length pre + 2 + 1 + byte_suffix_len bs) by lia.
  - destruct (split_ahead pre [b] (b2 :: b3 :: bs) 1 eq_refl) as [E' ->]. apply IH. by rewrite <- E', E.
Qed.

(** ** The interpolated openers *)

Lemma escape_len_pos bytes i len : single_quote_escape_len bytes i = Some len -> 2 <= len.
Proof.
  unfold single_quote_escape_len, line_continuation_len. destruct (bytes !! (i + 1)); [|done]. cbn [mbind option_bind].
  intros H. repeat (case_match; [simplify_eq; lia|]). done.
Qed.

(** A step goes ahead, and stops where [stops] says. *)
Definition good_step (bytes : list N) (step : nat -> nat + scanned) : Prop :=
  forall i, i < length bytes -> match step i with inl j => i < j | inr (_, n) => i < n /\ stops bytes n end.

Lemma good_scan bytes step i : good_step bytes step -> i <= length bytes ->
  exists r n, while_lt (length bytes) id step (Err UnterminatedString, length bytes) i = Some (r, n)
    /\ i <= n /\ (i < length bytes -> i < n) /\ stops bytes n.
Proof.
  intros Hg Hi. edestruct (while_lt_ind (length bytes) id step (Err UnterminatedString, length bytes) (A := scanned))
    with (I := fun j => i <= j) (P := fun a : scanned => i <= a.2 /\ (i < length bytes -> i < a.2) /\ stops bytes a.2) (s := i) as ([r n] & E & H); [| | | |done|by exists r, n].
  - intros s s' Hs E. specialize (Hg s Hs). by rewrite E in Hg.
  - intros s s' Hs Hle E. specialize (Hg s Hs). rewrite E in Hg. lia.
  - intros s [r n] Hs Hle E. specialize (Hg s Hs). rewrite E in Hg. cbn. destruct Hg. split_and!; [lia..|done].
  - intros s Hs Hle. cbn. split_and!; [lia..|by left].
Qed.

(** The closing tests of the steps. *)
Ltac step_cases :=
  repeat match goal with
  | |- context [if ?c then _ else _] => let E := fresh "E" in destruct c eqn:E
  | |- context [match single_quote_escape_len ?b ?i with _ => _ end] =>
      let E := fresh "E" in destruct (single_quote_escape_len b i) eqn:E; [apply escape_len_pos in E|]
  end; bool_hyps; try lia.

Lemma triple_quote_stops bytes i (is_byte : bool) : at_is bytes (i + 2) QUOTE = true -> is_byte = at_is bytes (i + 3) 66 ->
  stops bytes (i + 3 + Nat.b2n is_byte).
Proof.
  intros H ->. pose proof (stops_suffix _ _ H) as H'. replace (i + 2 + 1) with (i + 3) in H' by lia. done.
Qed.

Lemma brace_stops bytes i b : at_is bytes i b = true -> (b < 128)%N -> stops bytes (i + 1).
Proof. intros H Hb. eapply stops_after; [done..|lia]. Qed.

Lemma opener_good bytes : good_step bytes (opener_step bytes).
Proof. intros i Hi. unfold opener_step. step_cases; (split; [lia|]); [by eapply brace_stops|by apply stops_suffix]. Qed.

Lemma triple_good bytes : good_step bytes (triple_step bytes).
Proof. intros i Hi. unfold triple_step. step_cases; (split; [lia|]); [by eapply brace_stops|by apply triple_quote_stops]. Qed.

Lemma verbatim_good bytes : good_step bytes (verbatim_step bytes).
Proof. intros i Hi. unfold verbatim_step. step_cases; (split; [lia|]); [by eapply brace_stops|by apply stops_suffix]. Qed.

Lemma leading_run_lookup b bs k : k < leading_run b bs -> bs !! k = Some b.
Proof.
  revert k. induction bs as [|x bs IH]; cbn; intros k Hk; [lia|]. destruct (N.eqb_spec x b) as [->|]; [|lia].
  destruct k as [|k]; [done|]. apply IH. lia.
Qed.

Lemma run_at_lookup b bytes i k : k < run_at b bytes i -> at_is bytes (i + k) b = true.
Proof. intros H%leading_run_lookup. rewrite lookup_drop in H. by apply at_is_spec. Qed.

Lemma run_at_pos b bytes i : at_is bytes i b = true -> 1 <= run_at b bytes i.
Proof. intros H%at_is_spec. unfold run_at. rewrite (drop_S bytes b i H). cbn. rewrite N.eqb_refl. lia. Qed.

Lemma run_stops b bytes i : at_is bytes i b = true -> (b < 128)%N -> stops bytes (i + run_at b bytes i).
Proof.
  intros H Hb. pose proof (run_at_pos _ _ _ H). apply (stops_after _ (i + (run_at b bytes i - 1)) b); [apply run_at_lookup; lia|done|lia].
Qed.

Lemma extended_good n bytes : good_step bytes (extended_step n bytes).
Proof.
  intros i Hi. unfold extended_step. cbv zeta. step_cases.
  - split; [pose proof (run_at_pos LBRACE bytes i ltac:(done)); lia|by apply run_stops].
  - pose proof (run_at_pos LBRACE bytes i ltac:(done)). lia.
  - split; [lia|]. apply (stops_after _ (i + 2) QUOTE); [done..|lia].
Qed.

(** ** Comments and strings end at their own closers *)

(** A byte that means nothing in a comment by itself. *)
Definition plain_byte (b : N) : bool := negb (existsb (N.eqb b) [#c"("; #c"*"; QUOTE; APOS; 64%N]).

(** The body of a string: escape pairs and bytes that are neither a quote nor a
    backslash; of a verbatim string: doubled quotes and other bytes. *)
Inductive single_body : list N -> Prop :=
| single_nil : single_body []
| single_char b s : b <> QUOTE -> b <> BACKSLASH -> single_body s -> single_body (b :: s)
| single_escape b s : single_body s -> single_body (BACKSLASH :: b :: s).

Inductive verbatim_body : list N -> Prop :=
| verbatim_nil : verbatim_body []
| verbatim_char b s : b <> QUOTE -> verbatim_body s -> verbatim_body (b :: s)
| verbatim_quote s : verbatim_body s -> verbatim_body (QUOTE :: QUOTE :: s).

Definition no_quote (s : list N) : Prop := Forall (fun b => b <> QUOTE) s.

(** The text of a comment after its opener: plain bytes; an opening
    parenthesis, star or at-sign that a plain byte follows; the star operator;
    nested comments; character literals; strings of the three kinds. *)
Inductive comment : list N -> Prop :=
| comment_nil : comment []
| comment_plain b s : plain_byte b = true -> comment s -> comment (b :: s)
| comment_lone a b s : a = #c"(" \/ a = #c"*" \/ a = 64%N -> plain_byte b = true -> (a = #c"*" -> b <> #c")") ->
    comment s -> comment (a :: b :: s)
| comment_star s : comment s -> comment (#"(*)" ++ s)
| comment_nested b c s : plain_byte b = true -> b <> #c")" -> comment c -> comment s ->
    comment (#"(*" ++ b :: c ++ #"*)" ++ s)
| comment_char b s : (b < 128)%N -> existsb (N.eqb b) [BACKSLASH; LF; CR; 9; 8]%N = false -> comment s ->
    comment (APOS :: b :: APOS :: s)
| comment_single b t s : b <> QUOTE -> single_body (b :: t) -> comment s -> comment (QUOTE :: (b :: t) ++ QUOTE :: s)
| comment_verbatim t b s : verbatim_body t -> plain_byte b = true -> comment s ->
    comment (64%N :: QUOTE :: t ++ QUOTE :: b :: s)
| comment_triple t s : no_quote t -> comment s -> comment ([QUOTE; QUOTE; QUOTE] ++ t ++ [QUOTE; QUOTE; QUOTE] ++ s).

Lemma skip_single_body len t k i : single_body t -> skip_single_loop len (t ++ QUOTE :: k) i = i + length t + 1.
Proof.
  intros H. revert i. induction H as [|b s Hq Hb Hs IH|b s Hs IH]; intros i; cbn [app skip_single_loop length].
  - cbn. lia.
  - rewrite (proj2 (N.eqb_neq _ _) Hq), (proj2 (N.eqb_neq _ _) Hb), IH. lia.
  - rewrite N.eqb_refl, IH. lia.
Qed.

Lemma skip_verbatim_body len t k i : verbatim_body t -> starts_with_char QUOTE k = false ->
  skip_verbatim_loop len (t ++ QUOTE :: k) i = i + length t + 1.
Proof.
  intros H Hk. revert i. induction H as [|b s Hq Hs IH|s Hs IH]; intros i; cbn [app skip_verbatim_loop length].
  - rewrite N.eqb_refl. destruct k as [|x k]; [cbn; lia|]. cbn in Hk. rewrite Hk. lia.
  - rewrite (proj2 (N.eqb_neq _ _) Hq), IH. lia.
  - rewrite N.eqb_refl, IH. cbn. lia.
Qed.

Lemma skip_triple_body len t k i : no_quote t -> skip_triple_loop len (t ++ [QUOTE; QUOTE; QUOTE] ++ k) i = i + length t + 3.
Proof.
  intros H. revert i. induction H as [|b s Hb Hs IH]; intros i; [cbn; lia|].
  cbn [app length]. destruct (s ++ QUOTE :: QUOTE :: QUOTE :: k) as [|b2 [|b3 r]] eqn:E; [by destruct s|destruct s as [|? [|? ?]]; simplify_eq|].
  rewrite skip_triple_cons, (proj2 (N.eqb_neq _ _) Hb). cbn [andb]. rewrite <- E. rewrite IH. lia.
Qed.

(** The loop of a block comment from a state on. *)
Definition block_walk (bytes : list N) (st : nat * nat) : option (result unit LexError * nat) :=
  while_lt (length bytes) fst (block_step bytes) (Err UnterminatedComment, length bytes) st.

Lemma block_walk_step pre b t d : block_walk (pre ++ b :: t) (length pre, d) =
  match block_step (pre ++ b :: t) (length pre, d) with inl st => block_walk (pre ++ b :: t) st | inr a => Some a end.
Proof.
  unfold block_walk at 1. rewrite while_lt_unfold by apply block_step_advances. cbn [fst].
  by rewrite (proj2 (Nat.ltb_lt _ _)) by (rewrite length_app; cbn; lia).
Qed.

Lemma plain_byte_spec b : plain_byte b = true ->
  N.eqb b 40 = false /\ N.eqb b 42 = false /\ N.eqb b QUOTE = false /\ N.eqb b APOS = false /\ N.eqb b 64 = false.
Proof. unfold plain_byte. cbn [existsb]. intros H%negb_true_iff. repeat (apply orb_false_elim in H as [? H]). done. Qed.

(** Comparisons of known bytes. *)
Ltac byte_tests :=
  repeat match goal with
  | |- context [N.eqb ?a ?b] =>
      let v := eval vm_compute in (N.eqb a b) in
      match v with true => change (N.eqb a b) with true | false => change (N.eqb a b) with false end
  end; cbn [andb].

(** The tests of a turn, at a split of the bytes. *)
Ltac split_tests :=
  unfold block_step; rewrite !matches_at_split, !at_is_split;
  change (#"(*)") with [40; 42; 41]%N; change (#"(*") with [40; 42]%N; change (#"*)") with [42; 41]%N;
  cbn [has_prefix starts_with_char].

Lemma plain_turn pre b t d : plain_byte b = true -> block_step (pre ++ b :: t) (length pre, d) = inl (length pre + 1, d).
Proof. intros (E1 & E2 & E3 & E4 & E5)%plain_byte_spec. split_tests. by rewrite E1, E2, E3, E4, E5. Qed.

Lemma lone_turn pre a b t d : a = #c"(" \/ a = #c"*" \/ a = 64%N -> plain_byte b = true -> (a = #c"*" -> b <> #c")") ->
  block_step (pre ++ a :: b :: t) (length pre, d) = inl (length pre + 1, d).
Proof.
  intros Ha (E1 & E2 & E3 & E4 & E5)%plain_byte_spec Hp. split_tests. rewrite E2, E3.
  destruct Ha as [->|[->| ->]]; cbn; try done. by rewrite (proj2 (N.eqb_neq b 41) (Hp eq_refl)).
Qed.

Lemma char_turn pre b t d : (b < 128)%N -> existsb (N.eqb b) [BACKSLASH; LF; CR; 9; 8]%N = false ->
  block_step (pre ++ APOS :: b :: APOS :: t) (length pre, d) = inl (length pre + 3, d).
Proof.
  intros Hb Hx. split_tests. byte_tests. unfold match_char_literal.
  replace (drop (length pre + 1) (pre ++ APOS :: b :: APOS :: t)) with (b :: APOS :: t)
    by (by rewrite <- drop_drop, drop_app_length).
  assert (E : at_is (b :: APOS :: t) 0 BACKSLASH = false) by (cbn in Hx |- *; by apply orb_false_elim in Hx as [? _]).
  rewrite E. cbn [lookup list_lookup mbind option_bind]. unfold utf8_char_len. rewrite (proj2 (N.ltb_lt _ _) Hb).
  cbn [option_bind]. change (at_is (b :: APOS :: t) 1 APOS) with true. cbn [length Nat.ltb Nat.leb Nat.add negb orb Nat.eqb andb].
  rewrite Hx. cbn. f_equal. f_equal. lia.
Qed.

(** A literal's turn goes past it. *)
Lemma single_turn pre b t k d : b <> QUOTE -> single_body (b :: t) ->
  block_step (pre ++ QUOTE :: (b :: t) ++ QUOTE :: k) (length pre, d) = inl (length pre + length (b :: t) + 2, d).
Proof.
  intros Hb Ht. split_tests. cbn [app]. byte_tests. rewrite (proj2 (N.eqb_neq _ _) Hb). cbn [andb].
  unfold skip_single_string. rewrite <- drop_drop, drop_app_length. cbn [drop]. rewrite ?drop_0.
  change (b :: t ++ QUOTE :: k) with ((b :: t) ++ QUOTE :: k). rewrite skip_single_body by done. f_equal. f_equal. cbn. lia.
Qed.

Lemma verbatim_turn pre t b k d : verbatim_body t -> plain_byte b = true ->
  block_step (pre ++ 64%N :: QUOTE :: t ++ QUOTE :: b :: k) (length pre, d) = inl (length pre + length t + 3, d).
Proof.
  intros Ht (_ & _ & E3 & _)%plain_byte_spec. split_tests. byte_tests.
  unfold skip_verbatim_string. rewrite <- drop_drop, drop_app_length. cbn [drop]. rewrite ?drop_0.
  rewrite skip_verbatim_body by done. f_equal. f_equal. lia.
Qed.

Lemma triple_turn pre t k d : no_quote t ->
  block_step (pre ++ [QUOTE; QUOTE; QUOTE] ++ t ++ [QUOTE; QUOTE; QUOTE] ++ k) (length pre, d) = inl (length pre + length t + 6, d).
Proof.
  intros Ht. cbn [app]. split_tests. byte_tests. unfold skip_triple_string. rewrite <- drop_drop, drop_app_length. cbn [drop]. rewrite ?drop_0.
  rewrite (skip_triple_body _ t k) by done. f_equal. f_equal. lia.
Qed.

(** A turn over the bytes [t] and a walk over the bytes [s] after them. *)
Lemma walk_turn pre t s k d d' d'' n : t <> [] -> n = length t ->
  block_step (pre ++ t ++ s ++ k) (length pre, d) = inl (length pre + n, d') ->
  (block_walk ((pre ++ t) ++ s ++ k) (length (pre ++ t), d') = block_walk ((pre ++ t) ++ s ++ k) (length (pre ++ t) + length s, d'')) ->
  block_walk (pre ++ (t ++ s) ++ k) (length pre, d) = block_walk (pre ++ (t ++ s) ++ k) (length pre + length (t ++ s), d'').
Proof.
  intros Ht -> Hstep Hwalk. rewrite <- (app_assoc t). destruct t as [|b t]; [done|]. cbn [app] in Hstep |- *.
  rewrite block_walk_step, Hstep. rewrite <- !app_assoc, !length_app in Hwalk. cbn [app] in Hwalk. rewrite Hwalk.
  f_equal. f_equal. cbn [length]. rewrite length_app. lia.
Qed.

Lemma close_turn pre k d : 1 <= d -> block_step (pre ++ #"*)" ++ k) (length pre, d + 1) = inl (length pre + 2, d).
Proof.
  intros Hd. change (#"*)" ++ k) with (42 :: 41 :: k)%N. split_tests. byte_tests.
  replace (d + 1 - 1) with d by lia. by rewrite (proj2 (Nat.eqb_neq _ _)) by lia.
Qed.

Lemma open_turn pre b k d : b <> #c")" -> block_step (pre ++ #"(*" ++ b :: k) (length pre, d) = inl (length pre + 2, d + 1).
Proof.
  intros Hb. change (#"(*" ++ b :: k) with (40 :: 42 :: b :: k)%N. split_tests. byte_tests. by rewrite (proj2 (N.eqb_neq b 41) Hb).
Qed.

Lemma comment_walk c : comment c -> forall pre k d, 1 <= d ->
  block_walk (pre ++ c ++ k) (length pre, d) = block_walk (pre ++ c ++ k) (length pre + length c, d).
Proof.
  induction 1 as [|b s Hb Hs IH|a b s Ha Hb Hab Hs IH|s Hs IH|b c s Hb Hp Hc IHc Hs IHs|b s Hb Hx Hs IH|b t s Hb Ht Hs IH
    |t b s Ht Hb Hs IH|t s Ht Hs IH]; intros pre k d Hd.
  - cbn. by rewrite Nat.add_0_r.
  - eapply (walk_turn pre [b] s); [done..|by apply plain_turn|by apply IH].
  - eapply (walk_turn pre [a] (b :: s)); [done..|by apply lone_turn|].
    eapply (walk_turn (pre ++ [a]) [b] s); [done..|by apply plain_turn|by apply IH].
  - eapply (walk_turn pre (#"(*)") s); [done..| |by apply IH].
    change (#"(*)" ++ s ++ k) with (40 :: 42 :: 41 :: s ++ k)%N. split_tests. byte_tests. done.
  - eapply (walk_turn pre (#"(*") (b :: c ++ #"*)" ++ s)); [done..| |]; [cbn [app]; by apply open_turn|].
    eapply (walk_turn _ [b] (c ++ #"*)" ++ s)); [done..|cbn [app]; by apply plain_turn|].
    rewrite <- (app_assoc c). rewrite IHc by lia. set (q := (pre ++ #"(*") ++ [b]).
    rewrite (app_assoc q c), <- length_app, (length_app c).
    replace (length q + (length c + length (#"*)" ++ s))) with (length (q ++ c) + length (#"*)" ++ s)) by (rewrite length_app; lia).
    eapply (walk_turn (q ++ c) (#"*)") s); [done..|by apply close_turn|by apply IHs].
  - eapply (walk_turn pre [APOS; b; APOS] s); [done..|cbn [app]; by apply char_turn|by apply IH].
  - replace (QUOTE :: (b :: t) ++ QUOTE :: s) with ((QUOTE :: (b :: t) ++ [QUOTE]) ++ s) by (cbn; by rewrite <- app_assoc).
    eapply (walk_turn pre _ s _ d d); [done|reflexivity| |by apply IH].
    pose proof (single_turn pre b t (s ++ k) d Hb Ht) as H. cbn in H |- *. rewrite <- app_assoc, length_app. cbn. rewrite H.
    do 2 f_equal. lia.
  - replace (64%N :: QUOTE :: t ++ QUOTE :: b :: s) with ((64%N :: QUOTE :: t ++ [QUOTE]) ++ b :: s) by (cbn; by rewrite <- app_assoc).
    eapply (walk_turn pre _ (b :: s) _ d d); [done|reflexivity| |].
    + pose proof (verbatim_turn pre t b (s ++ k) d Ht Hb) as H. cbn in H |- *. rewrite <- app_assoc, length_app. cbn. rewrite H.
      do 2 f_equal. lia.
    + eapply (walk_turn _ [b] s); [done..|by apply plain_turn|by apply IH].
  - replace ([QUOTE; QUOTE; QUOTE] ++ t ++ [QUOTE; QUOTE; QUOTE] ++ s) with (([QUOTE; QUOTE; QUOTE] ++ t ++ [QUOTE; QUOTE; QUOTE]) ++ s)
      by (cbn; by rewrite <- app_assoc).
    eapply (walk_turn pre _ s _ d d); [done|reflexivity| |by apply IH].
    pose proof (triple_turn pre t (s ++ k) d Ht) as H. cbn in H |- *. rewrite <- app_assoc, length_app. cbn. rewrite H.
    do 2 f_equal. lia.
Qed.

(** C36: A block comment ends where it should: after any text in which nested
    comments are closed, and comment marks inside character literals and the
    three kinds of strings or in the star operator do not count, the first
    closing mark ends the comment, whatever follows it. *)
Theorem block_comment_exact c rest : comment c ->
  lex_block_comment (c ++ #"*)" ++ rest) = Some (Ok tt, length c + 2).
Proof.
  intros Hc. unfold lex_block_comment. fold (block_walk (c ++ #"*)" ++ rest) (0, 1)).
  pose proof (comment_walk c Hc [] (#"*)" ++ rest) 1 (le_n _)) as E. cbn [app length Nat.add] in E. rewrite E.
  change (#"*)" ++ rest) with (42 :: 41 :: rest)%N. rewrite block_walk_step. split_tests. byte_tests. done.
Qed.

Lemma block_comment_exact_witness :
  lex_block_comment (#"a (* b *) (*)" ++ #"*)" ++ #" c *)") = Some (Ok tt, 15).
Proof.
  apply (block_comment_exact (#"a (* b *) (*)")).
  apply comment_plain; [done|]. apply comment_plain; [done|].
  apply (comment_nested 32%N (#"b ") (#" (*)")); [done..| |].
  - repeat (apply comment_plain; [done|]). apply comment_nil.
  - apply comment_plain; [done|]. apply (comment_star []). apply comment_nil.
Defined.

(** ** Every callback returns, at a boundary *)

(** On any text, each callback of the generated lexer returns, and the
    number of bytes it asks the lexer to skip ends at a character boundary of
    the text, so that the lexer's own check does not panic. *)
Theorem callbacks_bump (s matched : str) :
  let bytes := encode_utf8 s in
  (exists r n, lex_block_comment bytes = Some (r, n) /\ bumps s n)
  /\ bumps s (lex_single_string bytes).2 /\ bumps s (lex_verbatim_string bytes).2 /\ bumps s (lex_triple_string bytes).2
  /\ (exists r n, lex_interp_opener bytes = Some (r, n) /\ bumps s n)
  /\ (exists r n, lex_interp_triple_opener bytes = Some (r, n) /\ bumps s n)
  /\ (exists r n, lex_interp_verbatim_opener bytes = Some (r, n) /\ bumps s n)
  /\ (exists r n, lex_interp_extended_opener matched bytes = Some (r, n) /\ bumps s n).
Proof.
  intros bytes. assert (Hscan : forall step, good_step bytes step ->
    exists r n, while_lt (length bytes) id step (Err UnterminatedString, length bytes) 0 = Some (r, n) /\ bumps s n).
  { intros step Hg. destruct (good_scan bytes step 0 Hg) as (r & n & E & _ & _ & H); [lia|]. exists r, n. split; [done|by apply stops_bumps]. }
  split_and!.
  - edestruct (while_lt_ind (length bytes) fst (block_step bytes) (Err UnterminatedComment, length bytes))
      with (I := fun _ : nat * nat => True) (P := fun a : result unit LexError * nat => stops bytes a.2) (s := (0, 1))
      as ([r n] & E & H); [apply block_step_advances|done| | |done|].
    + intros [i d] [r n] _ _ E. unfold block_step in E. destruct (matches_at bytes i (#"(*)")); [done|].
      destruct (matches_at bytes i (#"(*")); [done|]. destruct (matches_at bytes i (#"*)")) eqn:Em; [|by repeat case_match].
      destruct (Nat.eqb _ _); simplify_eq. apply (matches_at_byte _ _ _ 1 41%N) in Em; [|done].
      eapply stops_after; [done..|cbn; lia].
    + intros _ _ _. by left.
    + exists r, n. split; [done|by apply stops_bumps].
  - apply stops_bumps, (lex_single_stops (length bytes) bytes [] bytes); done.
  - apply stops_bumps, (lex_verbatim_stops (length bytes) bytes [] bytes); done.
  - apply stops_bumps, (lex_triple_stops bytes [] bytes); done.
  - apply Hscan, opener_good.
  - apply Hscan, triple_good.
  - apply Hscan, verbatim_good.
  - apply Hscan, extended_good.
Qed.

Example callbacks_ex :
  lex_block_comment (#" (* a *) ' * ) " ++ QUOTE :: #" *) " ++ QUOTE :: #" (*) *) rest") = Some (Ok tt, 28)
  /\ lex_interp_opener (#"a{{b\{c}") = Some (Ok Begin, 6).
Proof. vm_compute. auto. Qed.
