(* ===== verification/Interp.v ===== *)
(** * Interpolated strings in the token stream ([crates/cst/src/lexer/interp.rs])

    The lexer that [logos] generates from [Token] is the parameter [Logos]: it
    looks at the text from a position on and gives the token there and its
    length.  [LogosLaws] is what the generated code promises: nothing at the end
    of the text; before it a token or an error of at least one character, since
    no pattern of [Token] is skipped; and [RBrace] for a closing brace only.

    [InterpDriver] wraps it: it keeps a stack of the interpolated strings whose
    fill is open, and when the brace comes that closes a fill, it scans the
    string's next fragment itself and restarts the lexer after it.

    The theorems: a fragment is scanned by the rules of the string's opener; and
    the tokens tile the text, whatever the stack at the start.

    [brace_depth] is a [u32] that counts tokens of one file; the model does not
    bound it.  The stack's top is the head of the list. *)

From S2P Require Import Prelude Encoding StrBytes Lexer.

Class Logos := logos_next : str -> option (result Token LexError * nat).

Class LogosLaws (L : Logos) : Prop := {
  logos_end : logos_next [] = None;
  logos_some s : s <> [] -> exists r n, logos_next s = Some (r, n) /\ 0 < n /\ bumps s n;
  logos_rbrace s n : logos_next s = Some (Ok Token_RBrace, n) -> starts_with_char RBRACE s = true;
}.

Definition Span := (nat * nat)%type.
Definition Item := (result Token LexError * Span)%type.

Inductive InterpStyle := Single | Triple | Verbatim | Extended (n : nat).

Record Frame := { brace_depth : nat; style : InterpStyle }.

(** [logos::SpannedIter]: a text and the position in it. *)
Record SpannedIter := { iter_source : str; iter_pos : nat }.
Definition spanned (s : str) : SpannedIter := {| iter_source := s; iter_pos := 0 |}.

Record InterpDriver := { source : str; inner : SpannedIter; base : nat; frames : list Frame }.

Definition new_with_frames (s : str) (fs : list Frame) : InterpDriver :=
  {| source := s; inner := spanned s; base := 0; frames := fs |}.
Definition InterpDriver_new (s : str) : InterpDriver := new_with_frames s [].
Definition snapshot_frames (d : InterpDriver) : list Frame := frames d.

(** [None] is the panic of the slice. *)
Definition restart_inner (d : InterpDriver) (p : nat) : option InterpDriver :=
  s ← slice_from (source d) p;
  Some {| source := source d; inner := spanned s; base := p; frames := frames d |}.

(** ** Fragments *)

(** A turn of [scan_cont]'s loop; [inr None] is the [unreachable!]. *)
Definition cont_step (st : InterpStyle) (bytes : list N) (i : nat) : nat + option scanned :=
  if (at_is bytes i BACKSLASH && match st with Single => true | _ => false end)%bool then
    inl (match single_quote_escape_len bytes i with Some len => i + len | None => i + 1 end)
  else if at_is bytes i LBRACE then
    if at_is bytes (i + 1) LBRACE then inl (i + 2) else inr (Some (Ok Part, i + 1))
  else if at_is bytes i RBRACE then
    if at_is bytes (i + 1) RBRACE then inl (i + 2) else inl (i + 1)
  else if at_is bytes i QUOTE then
    match st with
    | Single =>
        let is_byte := at_is bytes (i + 1) 66 in inr (Some (Ok (End_ is_byte), i + 1 + Nat.b2n is_byte))
    | Verbatim =>
        if at_is bytes (i + 1) QUOTE then inl (i + 2)
        else let is_byte := at_is bytes (i + 1) 66 in inr (Some (Ok (End_ is_byte), i + 1 + Nat.b2n is_byte))
    | Triple =>
        if (at_is bytes (i + 1) QUOTE && at_is bytes (i + 2) QUOTE)%bool then
          let is_byte := at_is bytes (i + 3) 66 in inr (Some (Ok (End_ is_byte), i + 3 + Nat.b2n is_byte))
        else inl (i + 1)
    | Extended _ => inr None
    end
  else inl (i + 1).

Definition cont_ext_step (n : nat) (bytes : list N) (i : nat) : nat + scanned :=
  if at_is bytes i LBRACE then
    let run := run_at LBRACE bytes i in
    if Nat.leb n run then inr (Ok Part, i + run) else inl (i + run)
  else if (at_is bytes i QUOTE && at_is bytes (i + 1) QUOTE && at_is bytes (i + 2) QUOTE)%bool then
    inr (Ok (End_ false), i + 3)
  else inl (i + 1).

Definition scan_cont_extended (bytes : list N) (start n : nat) : option scanned :=
  let close_run := run_at RBRACE bytes start in
  while_lt (length bytes) id (cont_ext_step n bytes) (Err UnterminatedString, length bytes) (start + Nat.min close_run n).

(** [None] is a panic: of the assertion that a brace is there, or the
    [unreachable!]. *)
Definition scan_cont (bytes : list N) (start : nat) (st : InterpStyle) : option scanned :=
  if at_is bytes start RBRACE then
    match st with
    | Extended n => scan_cont_extended bytes start n
    | _ => mjoin (while_lt (length bytes) id (cont_step st bytes) (Some (Err UnterminatedString, length bytes)) (start + 1))
    end
  else None.

(** ** The iterator *)

Section driver.
Context {L : Logos}.

(** [SpannedIter::next]. *)
Definition SpannedIter_next (it : SpannedIter) : option (option Item * SpannedIter) :=
  rest ← slice_from (iter_source it) (iter_pos it);
  match logos_next rest with
  | None => Some (None, it)
  | Some (tok, n) =>
      let e := iter_pos it + n in
      Some (Some (tok, (iter_pos it, e)), {| iter_source := iter_source it; iter_pos := e |})
  end.

(** The frame that an opener pushes. *)
Definition opens (tok : result Token LexError) : option InterpStyle :=
  match tok with
  | Ok (Token_InterpString Begin) => Some Single
  | Ok (Token_InterpString TripleBegin) => Some Triple
  | Ok (Token_InterpString VerbatimBegin) => Some Verbatim
  | Ok (Token_InterpString (ExtendedBegin n)) => Some (Extended n)
  | _ => None
  end.

(** A closing brace that closes the fill of the top frame [top]. *)
Definition close_fill (d : InterpDriver) (st : InterpStyle) (below : list Frame) (close_at : nat) : option (option Item * InterpDriver) :=
  '(kind, end_abs) ← scan_cont (encode_utf8 (source d)) close_at st;
  let popped := match kind with Ok (End_ _) | Err _ => true | _ => false end in
  let d' := if popped : bool then {| source := source d; inner := inner d; base := base d; frames := below |} else d in
  d'' ← restart_inner d' end_abs;
  Some (Some (match kind with Ok k => Ok (Token_InterpString k) | Err e => Err e end, (close_at, end_abs)), d'').

(** [InterpDriver::next]: the outer [None] is a panic. *)
Definition InterpDriver_next (d : InterpDriver) : option (option Item * InterpDriver) :=
  '(o, inner') ← SpannedIter_next (inner d);
  let with_frames fs := {| source := source d; inner := inner'; base := base d; frames := fs |} in
  match o with
  | None => Some (None, with_frames (frames d))
  | Some (tok, (s, e)) =>
      let abs := (s + base d, e + base d) in
      match opens tok with
      | Some st => Some (Some (tok, abs), with_frames ({| brace_depth := 0; style := st |} :: frames d))
      | None =>
          match tok, frames d with
          | Ok Token_LBrace, top :: below =>
              Some (Some (tok, abs), with_frames ({| brace_depth := brace_depth top + 1; style := style top |} :: below))
          | Ok Token_RBrace, top :: below =>
              if Nat.ltb 0 (brace_depth top) then
                Some (Some (tok, abs), with_frames ({| brace_depth := brace_depth top - 1; style := style top |} :: below))
              else
                let close_at := abs.1 in
                let short := match style top with
                             | Extended n => Nat.ltb (run_at RBRACE (encode_utf8 (source d)) close_at) n
                             | _ => false
                             end in
                if short then Some (Some (tok, abs), with_frames (frames d))
                else close_fill (with_frames (frames d)) (style top) below close_at
          | _, _ => Some (Some (tok, abs), with_frames (frames d))
          end
      end
  end.

(** [lex(src).collect()]: a token has a byte at least, which bounds the calls. *)
Fixpoint drain (fuel : nat) (d : InterpDriver) : option (list Item) :=
  match fuel with
  | O => None
  | S fuel' =>
      '(o, d') ← InterpDriver_next d;
      match o with None => Some [] | Some it => cons it <$> drain fuel' d' end
  end.
Definition lex (src : str) : option (list Item) := drain (S (blen src)) (InterpDriver_new src).

End driver.

(** ** Fragments are scanned like openers *)

Definition opener (st : InterpStyle) : list N -> option scanned :=
  match st with
  | Single => lex_interp_opener
  | Triple => lex_interp_triple_opener
  | Verbatim => lex_interp_verbatim_opener
  | Extended n => lex_interp_extended_opener (repeat (#c"$") n)
  end.

(** The fragment that ends where an opener ends. *)
Definition continuation (r : result InterpKind LexError) : result InterpKind LexError :=
  match r with
  | Ok (Begin | TripleBegin | VerbatimBegin | ExtendedBegin _) => Ok Part
  | Ok (BeginEnd b | TripleBeginEnd b | VerbatimBeginEnd b) => Ok (End_ b)
  | Ok (ExtendedBeginEnd _) => Ok (End_ false)
  | r => r
  end.

(** The bytes a fill's closer takes. *)
Definition closer_len (st : InterpStyle) : nat := match st with Extended n => n | _ => 1 end.

Lemma at_is_drop bytes c i b : at_is (drop c bytes) i b = at_is bytes (c + i) b.
Proof. unfold at_is. by rewrite lookup_drop. Qed.

Lemma run_at_drop b bytes c i : run_at b (drop c bytes) i = run_at b bytes (c + i).
Proof. unfold run_at. by rewrite drop_drop. Qed.

Lemma all_at_drop p bytes c i n : c <= length bytes -> all_at p (drop c bytes) i n = all_at p bytes (c + i) n.
Proof.
  intros Hc. unfold all_at. rewrite drop_drop, length_drop. f_equal. apply eq_true_iff_eq. rewrite !Nat.leb_le. lia.
Qed.

Lemma escape_len_drop bytes c i : c <= length bytes ->
  single_quote_escape_len (drop c bytes) i = single_quote_escape_len bytes (c + i).
Proof.
  intros Hc. unfold single_quote_escape_len, line_continuation_len, ascii_digits, ascii_hex_digits.
  by rewrite lookup_drop, at_is_drop, !all_at_drop, !drop_drop, !Nat.add_assoc by done.
Qed.

(** Equality of answers up to arithmetic. *)
Ltac same_answer :=
  repeat match goal with |- inl _ = inl _ => f_equal | |- inr _ = inr _ => f_equal | |- Some _ = Some _ => f_equal | |- (_, _) = (_, _) => f_equal end;
  try done; lia.

(** One turn of each scan, [c] bytes further on. *)
Lemma cont_step_shift (st : InterpStyle) step bytes c i : c <= length bytes ->
  match st with
  | Single => step = opener_step | Triple => step = triple_step | Verbatim => step = verbatim_step | Extended _ => False
  end ->
  cont_step st bytes (c + i) =
  match step (drop c bytes) i with inl j => inl (c + j) | inr (r, n) => inr (Some (continuation r, c + n)) end.
Proof.
  intros Hc Hst. destruct st; [subst step..|done]; unfold cont_step, opener_step, triple_step, verbatim_step;
    rewrite ?escape_len_drop, !at_is_drop, ?Nat.add_assoc by done.
  - destruct (at_is bytes (c + i) BACKSLASH); cbn [andb]; [destruct (single_quote_escape_len _ _); same_answer|].
    repeat case_match; simplify_eq; cbn [continuation]; same_answer.
  - rewrite andb_false_r. destruct (at_is bytes (c + i) LBRACE); [repeat case_match; simplify_eq; cbn; same_answer|].
    destruct (at_is bytes (c + i) RBRACE); [repeat case_match; simplify_eq; cbn; same_answer|].
    destruct (at_is bytes (c + i) QUOTE); cbn [andb]; [|same_answer].
    destruct (_ && _)%bool; cbn [continuation]; same_answer.
  - rewrite andb_false_r. repeat case_match; simplify_eq; cbn [continuation]; same_answer.
Qed.

Lemma cont_ext_step_shift n bytes c i :
  cont_ext_step n bytes (c + i) =
  match extended_step n (drop c bytes) i with inl j => inl (c + j) | inr (r, k) => inr (continuation r, c + k) end.
Proof.
  unfold cont_ext_step, extended_step. rewrite !at_is_drop, run_at_drop, ?Nat.add_assoc. cbv zeta.
  repeat case_match; simplify_eq; cbn [continuation]; same_answer.
Qed.

Lemma leading_run_repeat b n : leading_run b (repeat b n) = n.
Proof. induction n as [|n IH]; cbn; [done|]. by rewrite N.eqb_refl, IH. Qed.

(** After a fill closes, the string's next fragment is scanned by the rules
    of the string's own opener: it ends where the opener's callback would end
    on the bytes after the closing brace (after the n closing braces of an
    extended string), at a fill, at the closing quotes with the same byte
    suffix, or unterminated. *)
Theorem scan_cont_is_opener bytes start st : at_is bytes start RBRACE = true ->
  (forall n, st = Extended n -> n <= run_at RBRACE bytes start) ->
  scan_cont bytes start st =
  (fun '(r, n) => (continuation r, start + closer_len st + n)) <$> opener st (drop (start + closer_len st) bytes).
Proof.
  intros Hat Hrun. pose proof (at_is_lt _ _ _ Hat) as Hlt. unfold scan_cont. rewrite Hat.
  assert (Hplain : forall step, match st with
    | Single => step = opener_step | Triple => step = triple_step | Verbatim => step = verbatim_step | Extended _ => False end ->
    mjoin (while_lt (length bytes) id (cont_step st bytes) (Some (Err UnterminatedString, length bytes)) (start + 1)) =
    (fun '(r, n) => (continuation r, start + 1 + n)) <$>
      while_lt (length (drop (start + 1) bytes)) id (step (drop (start + 1) bytes)) (Err UnterminatedString, length (drop (start + 1) bytes)) 0).
  { intros step Hst. pose proof (while_lt_shift (length (drop (start + 1) bytes)) (start + 1) (step (drop (start + 1) bytes))
      (cont_step st bytes) (Err UnterminatedString, length (drop (start + 1) bytes)) (fun '(r, n) => Some (continuation r, start + 1 + n)) 0) as H.
    cbn [continuation] in H. replace (start + 1 + length (drop (start + 1) bytes)) with (length bytes) in H by (rewrite length_drop; lia).
    rewrite Nat.add_0_r in H. rewrite H; [by destruct (while_lt (length (drop (start + 1) bytes)) id _ _ 0) as [[r n]|]|].
    intros i _. rewrite (cont_step_shift st step) by (done || lia). by destruct (step _ i) as [?|[? ?]]. }
  destruct st as [| | |n]; [by apply Hplain..|]. clear Hplain. specialize (Hrun n eq_refl). cbn [closer_len opener].
  unfold scan_cont_extended, lex_interp_extended_opener. rewrite leading_run_repeat, Nat.min_r by done.
  pose proof (leading_run_le RBRACE (drop start bytes)) as Hle. fold (run_at RBRACE bytes start) in Hle. rewrite length_drop in Hle.
  pose proof (while_lt_shift (length (drop (start + n) bytes)) (start + n) (extended_step n (drop (start + n) bytes)) (cont_ext_step n bytes)
    (Err UnterminatedString, length (drop (start + n) bytes)) (fun '(r, k) => (continuation r, start + n + k)) 0) as H.
  cbn [continuation] in H. replace (start + n + length (drop (start + n) bytes)) with (length bytes) in H by (rewrite length_drop; lia).
  rewrite Nat.add_0_r in H. apply H. intros i _. rewrite cont_ext_step_shift. by destruct (extended_step _ _ i) as [?|[? ?]].
Qed.

Lemma scan_cont_is_opener_witness : scan_cont (#"f } a{{b {") 2 Single = Some (Ok Part, 10).
Proof. rewrite (scan_cont_is_opener (#"f } a{{b {") 2 Single); [reflexivity|reflexivity|done]. Defined.

(** ** The tokens tile the text *)

Lemma stops_le bytes n : stops bytes n -> n <= length bytes.
Proof. intros [->|(k & b & -> & H & _)]; [done|]. apply lookup_lt_Some in H. lia. Qed.

Lemma cont_good st step bytes : good_step bytes (step bytes) ->
  match st with
  | Single => step = opener_step | Triple => step = triple_step | Verbatim => step = verbatim_step | Extended _ => False
  end -> forall i, i < length bytes ->
  match cont_step st bytes i with inl j => i < j | inr o => exists r n, o = Some (r, n) /\ i < n /\ stops bytes n end.
Proof.
  intros Hg Hst i Hi. specialize (Hg i Hi). pose proof (cont_step_shift st step bytes 0 i ltac:(lia) Hst) as E.
  cbn [Nat.add] in E. rewrite E, drop_0.
  destruct (step bytes i) as [j|[r n]]; [done|]. by exists (continuation r), n.
Qed.

Lemma plain_scan st bytes i : i <= length bytes ->
  (forall i, i < length bytes ->
    match cont_step st bytes i with inl j => i < j | inr o => exists r n, o = Some (r, n) /\ i < n /\ stops bytes n end) ->
  exists r n, mjoin (while_lt (length bytes) id (cont_step st bytes) (Some (Err UnterminatedString, length bytes)) i) = Some (r, n)
    /\ i <= n /\ stops bytes n.
Proof.
  intros Hi Hg. edestruct (while_lt_ind (length bytes) id (cont_step st bytes) (Some (Err UnterminatedString, length bytes)))
    with (I := fun j => i <= j) (P := fun o : option scanned => exists r n, o = Some (r, n) /\ i <= n /\ stops bytes n) (s := i)
    as (o & -> & r & n & -> & H); [| | | |done|by exists r, n].
  - intros s s' Hs E. specialize (Hg s Hs). by rewrite E in Hg.
  - intros s s' Hs Hle E. specialize (Hg s Hs). rewrite E in Hg. lia.
  - intros s o Hs Hle E. specialize (Hg s Hs). rewrite E in Hg. destruct Hg as (r & n & -> & Hn & H). exists r, n. split_and!; [done|lia|done].
  - intros s Hs Hle. exists (Err UnterminatedString), (length bytes). split_and!; [done|lia|by left].
Qed.

Lemma cont_ext_good n bytes : good_step bytes (cont_ext_step n bytes).
Proof.
  intros i Hi. pose proof (extended_good n bytes i Hi) as Hg. pose proof (cont_ext_step_shift n bytes 0 i) as E. cbn [Nat.add] in E.
  rewrite E, drop_0.
  by destruct (extended_step n bytes i) as [j|[r k]].
Qed.

(** A fragment is scanned to a boundary after its closing brace. *)
Lemma scan_cont_good bytes start st : at_is bytes start RBRACE = true ->
  exists r n, scan_cont bytes start st = Some (r, n) /\ start < n /\ stops bytes n.
Proof.
  intros Hat. pose proof (at_is_lt _ _ _ Hat) as Hlt. unfold scan_cont. rewrite Hat.
  assert (Hplain : forall step, good_step bytes (step bytes) -> match st with
    | Single => step = opener_step | Triple => step = triple_step | Verbatim => step = verbatim_step | Extended _ => False end ->
    exists r n, mjoin (while_lt (length bytes) id (cont_step st bytes) (Some (Err UnterminatedString, length bytes)) (start + 1)) = Some (r, n)
      /\ start < n /\ stops bytes n).
  { intros step Hg Hst. destruct (plain_scan st bytes (start + 1)) as (r & n & E & Hn & H); [lia|by apply (cont_good st step)|].
    exists r, n. split_and!; [done|lia|done]. }
  destruct st as [| | |n]; [eapply Hplain; [apply opener_good|done]|eapply Hplain; [apply triple_good|done]|eapply Hplain; [apply verbatim_good|done]|].
  clear Hplain. unfold scan_cont_extended. pose proof (leading_run_le RBRACE (drop start bytes)) as Hrun.
  fold (run_at RBRACE bytes start) in Hrun. rewrite length_drop in Hrun.
  destruct (good_scan bytes (cont_ext_step n bytes) (start + Nat.min (run_at RBRACE bytes start) n)) as (r & k & E & H1 & H2 & H3);
    [apply cont_ext_good|lia|]. exists r, k. split_and!; [done|lia|done].
Qed.

(** Intervals that follow each other from [a] to [b], none empty. *)
Fixpoint tiles (a : nat) (l : list Span) (b : nat) : Prop :=
  match l with
  | [] => a = b
  | (x, y) :: l' => x = a /\ x < y /\ tiles y l' b
  end.

Section stream.
Context {L : Logos} {HL : LogosLaws L}.

(** The driver's next token starts at [p]. *)
Definition at_pos (d : InterpDriver) (p : nat) : Prop :=
  exists pre mid post, source d = pre ++ mid ++ post /\ base d = blen pre
    /\ iter_source (inner d) = mid ++ post /\ iter_pos (inner d) = blen mid /\ p = blen pre + blen mid.

Lemma at_pos_new s fs : at_pos (new_with_frames s fs) 0.
Proof. by exists [], [], s. Qed.

Lemma at_pos_restart d n : bumps (source d) n -> exists d', restart_inner d n = Some d' /\ at_pos d' n /\ source d' = source d.
Proof.
  intros (a & b & E & ->). unfold restart_inner. rewrite E, slice_from_app. cbn. eexists. split; [done|]. split; [|done].
  exists a, [], b. cbn. split_and!; [done..|]. unfold blen. cbn. lia.
Qed.

Lemma spanned_next_spec mid post : 
  let it := {| iter_source := mid ++ post; iter_pos := blen mid |} in
  (post = [] /\ SpannedIter_next it = Some (None, it))
  \/ exists r a b, post = a ++ b /\ 0 < blen a /\ (r = Ok Token_RBrace -> starts_with_char RBRACE post = true)
    /\ SpannedIter_next it = Some (Some (r, (blen mid, blen mid + blen a)), {| iter_source := mid ++ post; iter_pos := blen (mid ++ a) |}).
Proof.
  intros it. unfold SpannedIter_next. cbn [iter_source iter_pos it]. rewrite slice_from_app. cbn [mbind option_bind].
  destruct (decide (post = [])) as [->|Hne]; [left; by rewrite logos_end|right].
  destruct (logos_some post Hne) as (r & n & E & Hn & a & b & Epost & ->). rewrite E. exists r, a, b. rewrite blen_app.
  split_and!; [done|done| |done]. intros ->. by eapply logos_rbrace.
Qed.

(** A call gives the token at the driver's position, or nothing at the end. *)
Lemma InterpDriver_next_spec d p : at_pos d p ->
  (p = blen (source d) /\ exists d', InterpDriver_next d = Some (None, d'))
  \/ exists r q d', InterpDriver_next d = Some (Some (r, (p, q)), d') /\ p < q /\ q <= blen (source d)
    /\ at_pos d' q /\ source d' = source d.
Proof.
  destruct d as [src [isrc ipos] bs fs]. intros (pre & mid & post & E1 & E2 & E3 & E4 & ->).
  cbn [source inner base frames iter_source iter_pos] in *. subst.
  unfold InterpDriver_next. cbn [inner base frames source].
  destruct (spanned_next_spec mid post) as [[-> ->]|(r & a & b & -> & Ha & Hrb & ->)]; cbn [mbind option_bind].
  - left. rewrite app_nil_r, blen_app. split; [done|by eexists].
  - right. assert (Hnext : forall fs', at_pos {| source := pre ++ mid ++ a ++ b;
      inner := {| iter_source := mid ++ a ++ b; iter_pos := blen (mid ++ a) |}; base := blen pre; frames := fs' |} (blen mid + blen a + blen pre)).
    { intros fs'. exists pre, (mid ++ a), b. cbn. rewrite <- !app_assoc, blen_app. split_and!; [done..|lia]. }
    rewrite (Nat.add_comm (blen mid) (blen pre)).
    assert (Hq : blen pre + blen mid < blen mid + blen a + blen pre /\ blen mid + blen a + blen pre <= blen (pre ++ mid ++ a ++ b))
      by (rewrite !blen_app; lia).
    destruct (opens r) as [st|]; [by do 3 eexists; split_and!; [done|apply Hq..|apply Hnext|done]|].
    assert (Hpass : forall fs', exists r' q d', Some (Some (r, (blen pre + blen mid, blen mid + blen a + blen pre)), {| source := pre ++ mid ++ a ++ b;
      inner := {| iter_source := mid ++ a ++ b; iter_pos := blen (mid ++ a) |}; base := blen pre; frames := fs' |}) = Some (Some (r', (blen pre + blen mid, q)), d')
      /\ blen pre + blen mid < q /\ q <= blen (pre ++ mid ++ a ++ b) /\ at_pos d' q /\ source d' = pre ++ mid ++ a ++ b)
      by (intros fs'; do 3 eexists; split_and!; [done|apply Hq..|apply Hnext|done]).
    destruct r as [tok|e]; [|apply Hpass]. destruct tok; try apply Hpass; destruct fs as [|top below]; try apply Hpass.
    destruct (Nat.ltb 0 (brace_depth top)); [apply Hpass|]. cbn [fst].
    match goal with |- context [if ?c then _ else _] => destruct c; [apply Hpass|] end.
    unfold close_fill. cbn [source inner base frames].
    destruct (scan_cont_good (encode_utf8 (pre ++ mid ++ a ++ b)) (blen pre + blen mid) (style top)) as (k & n & E & Hn & Hs).
    { rewrite app_assoc, encode_utf8_app, <- blen_app. unfold blen. rewrite at_is_split. specialize (Hrb eq_refl).
      destruct (a ++ b) as [|x s]; [done|]. cbn in Hrb. apply N.eqb_eq in Hrb as ->. done. }
    rewrite E. cbn [mbind option_bind].
    match goal with |- context [restart_inner ?d' n] => destruct (at_pos_restart d' n) as (d'' & -> & Hat & Esrc) end.
    { destruct (match k with Ok (End_ _) | Err _ => true | _ => false end); cbn [source]; by apply stops_bumps. }
    cbn [mbind option_bind]. do 3 eexists. split_and!; [done|done|by apply stops_le in Hs|done|].
    rewrite Esrc. by destruct (match k with Ok (End_ _) | Err _ => true | _ => false end).
Qed.

Lemma drain_tiles n d p : at_pos d p -> blen (source d) - p < n ->
  exists items, drain n d = Some items /\ tiles p (map snd items) (blen (source d)).
Proof.
  revert d p. induction n as [|n IH]; intros d p Hat Hn; [lia|]. cbn [drain].
  destruct (InterpDriver_next_spec d p Hat) as [(-> & d' & ->)|(r & q & d' & -> & Hpq & Hq & Hat' & Esrc)]; cbn [mbind option_bind]; [by exists []|].
  destruct (IH d' q Hat') as (items & -> & Ht); [rewrite Esrc; lia|]. exists ((r, (p, q)) :: items). cbn. rewrite <- Esrc. done.
Qed.

(** C37: Lexing returns on every text, within as many calls as the text has
    bytes and one more, and never panics; the spans of its tokens and errors
    follow each other from the start of the text to its end, none empty, also
    where the wrapper scans the fragments of interpolated strings itself. *)
Theorem lex_tiles (src : str) : exists items, lex src = Some items /\ tiles 0 (map snd items) (blen src).
Proof using HL. apply (drain_tiles _ (InterpDriver_new src)); [apply at_pos_new|cbn [source InterpDriver_new new_with_frames]; lia]. Qed.

End stream.

(** A lexer with the laws: one token for each character. *)
Definition char_logos : Logos := fun s =>
  match s with
  | [] => None
  | c :: _ =>
      Some (if N.eqb c RBRACE then Ok Token_RBrace else if N.eqb c LBRACE then Ok Token_LBrace
            else if N.eqb c (#c"$") then Ok (Token_InterpString Begin) else Ok (Token_Op [c]), N.to_nat (len_utf8 c))
  end.

Lemma char_logos_laws : LogosLaws char_logos.
Proof.
  split; [done| |].
  - intros [|c s] Hs; [done|]. eexists _, _. split; [done|]. pose proof (len_utf8_pos c). split; [lia|].
    exists [c], s. rewrite blen_cons. split; [done|]. unfold blen. cbn. lia.
  - intros [|c s] n; [done|]. cbn. destruct (N.eqb_spec c RBRACE) as [->|]; [done|]. intros H. by repeat case_match.
Qed.

Example lex_ex : fmap (map snd) (lex (L := char_logos) (#"$a} b}c")) = Some [(0, 1); (1, 2); (2, 7)].
Proof. vm_compute. reflexivity. Qed.

Lemma lex_tiles_witness :
  exists items, lex (L := char_logos) (#"$a} b}c") = Some items /\ tiles 0 (map snd items) 7.
Proof. apply (lex_tiles (L := char_logos) (HL := char_logos_laws) (#"$a} b}c")). Defined.
