(* ===== verification/Directive.v ===== *)
(** * Directive lines and the [#line] store ([crates/cst/src/directives/line.rs], [line_store.rs])

    [recognise_directive] decides whether the line that starts at a byte offset
    is one of the directives of conditional compilation or one of the trivia
    directives [#nowarn], [#warnon] and [#line], and parses it.  It walks the
    bytes of the source; its slices panic inside a character, which the model
    keeps as [None].

    [LineDirectiveStore] maps generated lines to the coordinates that the [#line]
    directives assert.  [line_index] counts the lines before an offset; its
    [u32] does not overflow below 4 GiB. *)

From S2P Require Import Prelude Encoding StrBytes Lexer IfExpr.

Definition WarningNumber := Z.

Inductive Directive :=
| D_If (e : Expr)
| D_Elif (e : Expr)
| D_Else
| D_EndIf
| D_NoWarn (numbers : list WarningNumber)
| D_WarnOn (numbers : list WarningNumber)
| D_Line (number : N) (file : option str).

Inductive DirectiveKind := K_If | K_Elif | K_Else | K_EndIf.

Definition directive_kind (d : Directive) : option DirectiveKind :=
  match d with
  | D_If _ => Some K_If
  | D_Elif _ => Some K_Elif
  | D_Else => Some K_Else
  | D_EndIf => Some K_EndIf
  | D_NoWarn _ | D_WarnOn _ | D_Line _ _ => None
  end.

Definition is_trivia (d : Directive) : bool :=
  match d with D_NoWarn _ | D_WarnOn _ | D_Line _ _ => true | _ => false end.

Record Recognised := { directive : Directive; range : nat * nat }.

Inductive DirectiveErrorKind :=
| MissingSeparator
| MissingExpression
| ExpressionParse (e : ParseError)
| UnexpectedTokensAfterDirective.

Record DirectiveError := { keyword : DirectiveKind; err_kind : DirectiveErrorKind; err_range : nat * nat }.

(** ** Text *)

(** [while pos < end && p(bytes[pos]) { pos += 1; }]. *)
Definition scan (p : N -> bool) (bytes : list N) (pos end_ : nat) : nat :=
  pos + length (take_while p (take (end_ - pos) (drop pos bytes))).

Definition is_blank (b : N) : bool := (N.eqb b 32 || N.eqb b 9)%bool.
Definition is_newline (b : N) : bool := (N.eqb b LF || N.eqb b CR)%bool.

Definition strip_prefix (p s : str) : option str := if has_prefix p s then Some (drop (length p) s) else None.
Definition strip_suffix (p s : str) : option str := (fun t => rev t) <$> strip_prefix (rev p) (rev s).

(** The text before the first [//], [after.find("//")]. *)
Fixpoint before_comment (s : str) : str :=
  match s with
  | c :: s' => if has_prefix (#"//") s then [] else c :: before_comment s'
  | [] => []
  end.

(** [str::split_whitespace]. *)
Fixpoint split_ws (s cur : str) : list str :=
  let flush := if is_empty cur then [] else [rev cur] in
  match s with
  | [] => flush
  | c :: s' => if is_whitespace c then flush ++ split_ws s' [] else split_ws s' (c :: cur)
  end.
Definition split_whitespace (s : str) : list str := split_ws s [].

(** [i32::from_str]. *)
Definition parse_i32 (s : str) : option Z :=
  match s with
  | c :: t =>
      if N.eqb c (#c"-") then
        if (is_empty t || negb (forallb is_ascii_digit t))%bool then None
        else if N.leb (dec_val t) 2147483648 then Some (- Z.of_N (dec_val t))%Z else None
      else Z.of_N <$> parse_unsigned (i32_max + 1) s
  | [] => None
  end.

(** ** Arguments *)

Definition parse_line_number (digits : str) : N :=
  match parse_i32 digits with Some n => Z.to_N n | None => 0 end.

Definition parse_warning_number (arg : str) : option WarningNumber :=
  let unquoted :=
    match strip_prefix [QUOTE; QUOTE; QUOTE] arg ≫= strip_suffix [QUOTE; QUOTE; QUOTE] with
    | Some inner => inner
    | None =>
        if (Nat.leb 2 (blen arg) && starts_with_char QUOTE arg && ends_with_char QUOTE arg)%bool
        then removelast (tail arg) else arg
    end in
  parse_i32 (default unquoted (strip_prefix (#"FS") unquoted)).

Definition parse_warn_numbers (body : str) : list WarningNumber :=
  let after := trim_start_matches is_blank body in
  if (Nat.eqb (blen after) (blen body) && negb (is_empty body))%bool then []
  else
    let after := before_comment after in
    let after := trim_end_matches is_blank after in
    let after := default after (strip_suffix (#";;") after) in
    omap parse_warning_number (split_whitespace after).

(** The end of the tail, after the file name if there is one. *)
Definition tail_finish (bytes : list N) (line_end : nat) (file : option str) (pos : nat) : option (option (option str)) :=
  let pos := scan is_blank bytes pos line_end in
  if negb (Nat.eqb pos line_end) then Some None
  else if at_is bytes line_end LF then Some (Some file)
  else if (at_is bytes line_end CR && at_is bytes (line_end + 1) LF)%bool then Some (Some file)
  else Some None.

(** The outer [None] is a panic, the inner one a tail that does not match. *)
Definition line_directive_tail (bytes : list N) (source : str) (pos line_end : nat) : option (option (option str)) :=
  let pos := scan is_blank bytes pos line_end in
  let saved := pos in
  let pos := if (Nat.ltb pos line_end && at_is bytes pos 64)%bool then pos + 1 else pos in
  if (Nat.ltb pos line_end && at_is bytes pos QUOTE)%bool then
    let pos := pos + 1 in
    let body_start := pos in
    let pos := scan (fun b => negb (N.eqb b QUOTE)) bytes pos line_end in
    if (Nat.eqb pos body_start || Nat.leb line_end pos)%bool then Some None
    else file ← slice source body_start pos; tail_finish bytes line_end (Some file) (pos + 1)
  else if negb (Nat.eqb pos saved) then Some None
  else tail_finish bytes line_end None pos.

(** ** The recogniser *)

Definition recognised := option (option (result Recognised DirectiveError)).

(** What follows the digits' start, in both spellings of [#line]. *)
Definition line_number_tail (bytes : list N) (source : str) (range : nat * nat) (pos : nat) : recognised :=
  let line_end := range.2 in
  let digit_start := pos in
  let pos := scan is_ascii_digit bytes pos line_end in
  if Nat.eqb pos digit_start then Some None
  else
    digits ← slice source digit_start pos;
    let number := parse_line_number digits in
    o ← line_directive_tail bytes source pos line_end;
    match o with
    | None => Some None
    | Some file => Some (Some (Ok {| directive := D_Line number file; range := range |}))
    end.

(** The arm of [if] and [elif]. *)
Definition recognise_condition (k : DirectiveKind) (bytes : list N) (source : str) (range : nat * nat) (pos : nat) : recognised :=
  let line_end := range.2 in
  let after_keyword := pos in
  let pos := scan is_blank bytes pos line_end in
  if Nat.eqb pos after_keyword then
    Some (Some (Err {| keyword := k; err_kind := MissingSeparator; err_range := (range.1, after_keyword) |}))
  else
    body ← slice source pos line_end;
    r ← parse_if_expr body;
    match r with
    | Ok e => Some (Some (Ok {| directive := match k with K_If => D_If e | _ => D_Elif e end; range := range |}))
    | Err e =>
        let kind := if (is_empty body || has_prefix (#"//") body)%bool then MissingExpression else ExpressionParse e in
        Some (Some (Err {| keyword := k; err_kind := kind; err_range := range |}))
    end.

(** The arm of [else] and [endif]. *)
Definition recognise_bare (k : DirectiveKind) (bytes : list N) (source : str) (range : nat * nat) (pos : nat) : recognised :=
  let line_end := range.2 in
  let pos := scan is_blank bytes pos line_end in
  trailing ← slice source pos line_end;
  if (is_empty trailing || has_prefix (#"//") trailing)%bool
  then Some (Some (Ok {| directive := match k with K_Else => D_Else | _ => D_EndIf end; range := range |}))
  else Some (Some (Err {| keyword := k; err_kind := UnexpectedTokensAfterDirective; err_range := range |})).

(** From the keyword on; [pos] is past the [#]. *)
Definition recognise_keyword (bytes : list N) (source : str) (range : nat * nat) (pos : nat) : recognised :=
  let line_end := range.2 in
  let keyword_start := pos in
  let pos := scan is_ascii_alphabetic bytes pos line_end in
  kw ← slice source keyword_start pos;
  if is_empty kw then line_number_tail bytes source range (scan is_blank bytes pos line_end)
  else if (Nat.ltb pos line_end
           && match bytes !! pos with
              | Some b => is_ascii_digit b || N.eqb b (#c"_") || N.eqb b APOS || N.leb 128 b
              | None => false
              end)%bool then Some None
  else if str_eqb kw (#"if") then recognise_condition K_If bytes source range pos
  else if str_eqb kw (#"elif") then recognise_condition K_Elif bytes source range pos
  else if str_eqb kw (#"else") then recognise_bare K_Else bytes source range pos
  else if str_eqb kw (#"endif") then recognise_bare K_EndIf bytes source range pos
  else if str_eqb kw (#"line") then
    let after_keyword := pos in
    let pos := scan is_blank bytes pos line_end in
    if Nat.eqb pos after_keyword then Some None else line_number_tail bytes source range pos
  else Some None.

Definition BOM : list N := [239; 187; 191]%N.

(** [None] is a panic; [Some None] a line that is not a directive. *)
Definition recognise_directive (source : str) (line_start : nat) : recognised :=
  let bytes := encode_utf8 source in
  if Nat.ltb (length bytes) line_start then Some None
  else if (Nat.ltb 0 line_start && negb (at_is bytes (line_start - 1) LF) && negb (at_is bytes (line_start - 1) CR))%bool
  then Some None
  else
    let line_end := scan (fun b => negb (is_newline b)) bytes line_start (length bytes) in
    let pos := if (Nat.eqb line_start 0 && has_prefix BOM bytes && Nat.leb (length BOM) line_end)%bool
               then line_start + length BOM else line_start in
    let pos := scan is_blank bytes pos line_end in
    if (Nat.leb line_end pos || negb (at_is bytes pos (#c"#")))%bool then Some None
    else
      let pos := pos + 1 in
      let range := (line_start, line_end) in
      match slice source pos line_end ≫= strip_prefix (#"nowarn") with
      | Some body => Some (Some (Ok {| directive := D_NoWarn (parse_warn_numbers body); range := range |}))
      | None =>
          match slice source pos line_end ≫= strip_prefix (#"warnon") with
          | Some body => Some (Some (Ok {| directive := D_WarnOn (parse_warn_numbers body); range := range |}))
          | None => recognise_keyword bytes source range pos
          end
      end.

(** ** The [#line] store *)

Record LineDirective := { generated_line : N; virtual_line : N; file : option str }.
Definition LineDirectiveStore := list LineDirective.
Record Remapped := { remapped_file : option str; remapped_line : N }.

(** [slice::partition_point]: the binary search of the standard library finds
    the end of the prefix where the test holds, when it holds on a prefix. *)
Fixpoint partition_point {A} (p : A -> bool) (l : list A) : nat :=
  match l with x :: l' => if p x then S (partition_point p l') else O | [] => O end.

Definition u32_max : Z := 4294967295.

(** The outer [None] is the panic of an index. *)
Definition remap (store : LineDirectiveStore) (line : N) : option (option Remapped) :=
  let count := partition_point (fun d => N.ltb (generated_line d) line) store in
  match count with
  | O => Some None
  | S i =>
      d ← (store : list LineDirective) !! i;
      let l := (Z.of_N line + Z.of_N (virtual_line d) - Z.of_N (generated_line d) - 2)%Z in
      Some (Some {| remapped_file := file d; remapped_line := Z.to_N (Z.max 0 (Z.min l u32_max)) |})
  end.

Fixpoint count_breaks (s : str) : N :=
  match s with
  | [] => 0
  | c :: s' =>
      if N.eqb c CR then
        match s' with
        | c2 :: s'' => if N.eqb c2 LF then 1 + count_breaks s'' else 1 + count_breaks s'
        | [] => 1 + count_breaks s'
        end
      else if N.eqb c LF then 1 + count_breaks s'
      else count_breaks s'
  end%N.

(** [None] is the panic of the slice. *)
Definition line_index (source : str) (offset : nat) : option N :=
  (fun '(before, _) => count_breaks before) <$> split_at source (Nat.min offset (blen source)).
