(* ===== verification/DirectiveThm.v ===== *)
(** * Theorems about directive lines

    [recognise_line] is the recogniser on the characters of one line, without
    offsets.  The code, which walks bytes and slices, agrees with it and never
    panics; what the code consumes is the line, up to its terminator.  Directive
    lines that are printed are recognised as what they were printed from, and
    [#line] directives are exactly those of the compiler's lexical rule.  The
    [#line] store finds the last directive before a line. *)

From S2P Require Import Prelude Encoding StrBytes Lexer IfExpr Directive.

(** ** Scans of bytes are scans of characters *)

(** A test that is false off ASCII, or true off ASCII. *)
Definition ascii_only (q : N -> bool) : Prop := forall b, q b = true -> (b < 128)%N.
Definition bytewise (q : N -> bool) : Prop := ascii_only q \/ ascii_only (fun b => negb (q b)).

Lemma bytewise_char q c : bytewise q ->
  if q c then Forall (fun b => q b = true) (encode_utf8_char c)
  else exists b bs, encode_utf8_char c = b :: bs /\ q b = false.
Proof.
  intros Hq. destruct (char_bytes c) as [[E Hc]|(b & bs & E & Hb & _ & Hbs & Hc)]; rewrite E.
  - destruct (q c) eqn:Eq; [by repeat constructor|by exists c, []].
  - assert (Hhigh : forall x, (128 <= x)%N -> q x = q c).
    { intros x Hx. destruct Hq as [Hq|Hq]; destruct (q x) eqn:Ex, (q c) eqn:Ec; try done.
      - apply Hq in Ex. lia.
      - apply Hq in Ec. lia.
      - specialize (Hq c). cbn in Hq. rewrite Ec in Hq. specialize (Hq eq_refl). lia.
      - specialize (Hq x). cbn in Hq. rewrite Ex in Hq. specialize (Hq eq_refl). lia. }
    destruct (q c) eqn:Ec; [|exists b, bs; split; [done|apply Hhigh; lia]].
    constructor; [apply Hhigh; lia|]. eapply Forall_impl; [exact Hbs|]. intros x Hx%cont_high. by apply Hhigh.
Qed.

Lemma take_while_encode q s : bytewise q -> take_while q (encode_utf8 s) = encode_utf8 (take_while q s).
Proof.
  intros Hq. induction s as [|c s IH]; [done|]. rewrite encode_utf8_cons. cbn [take_while].
  pose proof (bytewise_char q c Hq) as H. destruct (q c).
  - by rewrite take_while_all, IH, encode_utf8_cons.
  - destruct H as (b & bs & -> & Hb). cbn. by rewrite Hb.
Qed.

Lemma scan_chars q a b c : bytewise q ->
  scan q (encode_utf8 (a ++ b ++ c)) (blen a) (blen a + blen b) = blen (a ++ take_while q b).
Proof.
  intros Hq. unfold scan. replace (blen a + blen b - blen a) with (length (encode_utf8 b)) by (unfold blen; lia).
  rewrite !encode_utf8_app. change (drop (blen a)) with (drop (A := N) (length (encode_utf8 a))).
  by rewrite drop_app_length, take_app_length, take_while_encode, blen_app by done.
Qed.

(** The cursor moves over the scanned characters of the line's rest [t]. *)
Lemma scan_split q a t post : bytewise q -> exists w u, t = w ++ u /\ w = take_while q t /\ u = drop_while q t
  /\ scan q (encode_utf8 (a ++ t ++ post)) (blen a) (blen a + blen t) = blen (a ++ w)
  /\ a ++ t ++ post = (a ++ w) ++ u ++ post /\ blen a + blen t = blen (a ++ w) + blen u.
Proof.
  intros Hq. exists (take_while q t), (drop_while q t). rewrite scan_chars by done. rewrite take_drop_while.
  split_and!; try done.
  - rewrite <- (take_drop_while q t) at 1. by rewrite <- !app_assoc.
  - rewrite blen_app. rewrite <- (take_drop_while q t) at 1. rewrite blen_app. lia.
Qed.

Lemma at_is_char a s b : (b < 128)%N -> at_is (encode_utf8 (a ++ s)) (blen a) b = starts_with_char b s.
Proof.
  intros Hb. rewrite encode_utf8_app. unfold blen. rewrite at_is_split. destruct s as [|c s]; [done|]. rewrite encode_utf8_cons.
  destruct (char_bytes c) as [[-> _]|(b0 & bs & -> & H0 & _ & _ & Hc)]; [done|]. cbn.
  apply eq_true_iff_eq. rewrite !N.eqb_eq. split; intros ->; lia.
Qed.

Lemma ltb_rest a (t : str) : Nat.ltb (blen a) (blen a + blen t) = negb (is_empty t).
Proof.
  apply eq_true_iff_eq. rewrite Nat.ltb_lt, negb_true_iff. destruct t as [|c t]; cbn [is_empty]; [cbn; split; [lia|done]|].
  rewrite blen_cons. pose proof (len_utf8_pos c). split; [done|lia].
Qed.

Lemma eqb_scanned a (w : str) : Nat.eqb (blen (a ++ w)) (blen a) = is_empty w.
Proof.
  rewrite blen_app. destruct w as [|c w]; cbn [is_empty]; [cbn; apply Nat.eqb_eq; lia|].
  apply Nat.eqb_neq. rewrite blen_cons. pose proof (len_utf8_pos c). lia.
Qed.

Lemma ascii_only_bytewise q : ascii_only q -> bytewise q.
Proof. by left. Qed.
Lemma is_blank_bytewise : bytewise is_blank.
Proof. left. intros b. unfold is_blank. rewrite orb_true_iff, !N.eqb_eq. lia. Qed.
Lemma is_ascii_digit_bytewise : bytewise is_ascii_digit.
Proof. left. intros b [_ ?]%in_range_spec. lia. Qed.
Lemma is_ascii_alphabetic_bytewise : bytewise is_ascii_alphabetic.
Proof. left. intros b [[_ H]%in_range_spec|[_ H]%in_range_spec]%orb_true_iff; lia. Qed.
Lemma not_quote_bytewise : bytewise (fun b => negb (N.eqb b QUOTE)).
Proof. right. intros b. rewrite negb_involutive, N.eqb_eq. unfold QUOTE. lia. Qed.
Lemma not_newline_bytewise : bytewise (fun b => negb (is_newline b)).
Proof. right. intros b. rewrite negb_involutive. unfold is_newline, LF, CR. rewrite orb_true_iff, !N.eqb_eq. lia. Qed.
Create HintDb bytewise.
#[export] Hint Resolve is_blank_bytewise is_ascii_digit_bytewise is_ascii_alphabetic_bytewise not_quote_bytewise not_newline_bytewise : bytewise.

(** ** The recogniser on characters *)

Definition newline_follows (post : str) : bool :=
  match post with
  | c :: post' => (N.eqb c LF || (N.eqb c CR && starts_with_char LF post'))%bool
  | [] => false
  end.

Definition tail_end (file : option str) (t post : str) : option (option str) :=
  if (is_empty (drop_while is_blank t) && newline_follows post)%bool then Some file else None.

Definition not_quote (c : N) : bool := negb (N.eqb c QUOTE).

Definition tail_of_line (t post : str) : option (option str) :=
  let t := drop_while is_blank t in
  let q := if starts_with_char 64 t then tail t else t in
  if starts_with_char QUOTE q then
    let body := take_while not_quote (tail q) in
    let rest := drop_while not_quote (tail q) in
    if (is_empty body || is_empty rest)%bool then None else tail_end (Some body) (tail rest) post
  else if starts_with_char 64 t then None else tail_end None t post.

Definition number_of_line (t post : str) : option Directive :=
  let digits := take_while is_ascii_digit t in
  if is_empty digits then None
  else D_Line (parse_line_number digits) <$> tail_of_line (drop_while is_ascii_digit t) post.

(** The answer with the number of bytes left unread in the line. *)
Definition line_answer := option (result Directive (DirectiveKind * DirectiveErrorKind * nat)).

Definition condition_of_line (k : DirectiveKind) (t : str) : line_answer :=
  let body := drop_while is_blank t in
  if is_empty (take_while is_blank t) then Some (Err (k, MissingSeparator, blen t))
  else
    match parse_if_expr body with
    | Some (Ok e) => Some (Ok (match k with K_If => D_If e | _ => D_Elif e end))
    | Some (Err e) =>
        Some (Err (k, if (is_empty body || has_prefix (#"//") body)%bool then MissingExpression else ExpressionParse e, 0))
    | None => None
    end.

Definition bare_of_line (k : DirectiveKind) (t : str) : line_answer :=
  let trailing := drop_while is_blank t in
  if (is_empty trailing || has_prefix (#"//") trailing)%bool
  then Some (Ok (match k with K_Else => D_Else | _ => D_EndIf end))
  else Some (Err (k, UnexpectedTokensAfterDirective, 0)).

Definition word_goes_on (t : str) : bool :=
  match t with c :: _ => is_ascii_digit c || N.eqb c (#c"_") || N.eqb c APOS || N.leb 128 c | [] => false end%bool.

Definition keyword_of_line (t post : str) : line_answer :=
  let kw := take_while is_ascii_alphabetic t in
  let t' := drop_while is_ascii_alphabetic t in
  if is_empty kw then Ok <$> number_of_line (drop_while is_blank t') post
  else if word_goes_on t' then None
  else if str_eqb kw (#"if") then condition_of_line K_If t'
  else if str_eqb kw (#"elif") then condition_of_line K_Elif t'
  else if str_eqb kw (#"else") then bare_of_line K_Else t'
  else if str_eqb kw (#"endif") then bare_of_line K_EndIf t'
  else if str_eqb kw (#"line") then
    if is_empty (take_while is_blank t') then None else Ok <$> number_of_line (drop_while is_blank t') post
  else None.

Definition hash_of_line (t post : str) : line_answer :=
  match strip_prefix (#"nowarn") t, strip_prefix (#"warnon") t with
  | Some body, _ => Some (Ok (D_NoWarn (parse_warn_numbers body)))
  | None, Some body => Some (Ok (D_WarnOn (parse_warn_numbers body)))
  | None, None => keyword_of_line t post
  end.

(** A line of the source, [first] when it is the first one. *)
Definition recognise_line (first : bool) (line post : str) : line_answer :=
  let t := if (first && starts_with_char 65279 line)%bool then tail line else line in
  match drop_while is_blank t with
  | c :: t' => if N.eqb c (#c"#") then hash_of_line t' post else None
  | [] => None
  end.

(** An answer about the line from [start] to [stop]. *)
Definition placed (start stop : nat) (a : line_answer) : option (result Recognised DirectiveError) :=
  (fun r => match r with
            | Ok d => Ok {| directive := d; range := (start, stop) |}
            | Err (k, e, unread) => Err {| keyword := k; err_kind := e; err_range := (start, stop - unread) |}
            end) <$> a.

(** ** The code agrees with it

    In each lemma [a] is the source up to the cursor, [t] the rest of the line
    and [post] what follows the line. *)

Lemma starts_with_tail b (t : str) : starts_with_char b t = true -> t = b :: tail t.
Proof. destruct t as [|c t]; [done|]. cbn. by intros ->%N.eqb_eq. Qed.

Lemma blen_snoc a b : (b < 128)%N -> blen a + 1 = blen (a ++ [b]).
Proof. intros Hb. rewrite blen_app, blen_cons, len_utf8_ascii by done. done. Qed.

(** Past an ASCII character. *)
Lemma cursor_ahead a b t post : (b < 128)%N ->
  a ++ (b :: t) ++ post = (a ++ [b]) ++ t ++ post /\ blen a + blen (b :: t) = blen (a ++ [b]) + blen t /\ blen a + 1 = blen (a ++ [b]).
Proof.
  intros Hb. rewrite <- blen_snoc, blen_cons, len_utf8_ascii by done. rewrite <- app_assoc. split_and!; [done|lia|done].
Qed.

Lemma tail_finish_eq src line_end a t post file : src = a ++ t ++ post -> line_end = blen a + blen t ->
  tail_finish (encode_utf8 src) line_end file (blen a) = Some (tail_end file t post).
Proof.
  intros -> ->. destruct (scan_split is_blank a t post) as (w & u & Et & Ew & Eu & Es & Esrc & Elen); [eauto with bytewise|].
  unfold tail_finish, tail_end. rewrite <- Eu, Es. rewrite Elen.
  replace (Nat.eqb (blen (a ++ w)) (blen (a ++ w) + blen u)) with (is_empty u)
    by (destruct u as [|c u]; cbn [is_empty]; symmetry; [apply Nat.eqb_eq; cbn; lia|apply Nat.eqb_neq; rewrite blen_cons; pose proof (len_utf8_pos c); lia]).
  destruct u as [|c u]; cbn [is_empty negb andb]; [|done]. rewrite Esrc. cbn [app]. replace (blen (a ++ w) + blen []) with (blen (a ++ w)) by (cbn; lia).
  rewrite !at_is_char by done. destruct post as [|c post]; [done|]. cbn [starts_with_char newline_follows].
  destruct (N.eqb c LF); [done|]. destruct (N.eqb_spec c CR) as [->|]; [|done]. cbn [orb andb].
  rewrite (blen_snoc _ CR) by done. replace ((a ++ w) ++ CR :: post) with (((a ++ w) ++ [CR]) ++ post) by (by rewrite <- app_assoc).
  rewrite at_is_char by done. by destruct (starts_with_char LF post).
Qed.

(** The quoted file name: the cursor is past the opening quote. *)
Lemma file_eq src line_end a t post (pos := scan not_quote (encode_utf8 src) (blen a) line_end) :
  src = a ++ t ++ post -> line_end = blen a + blen t ->
  (if (Nat.eqb pos (blen a) || Nat.leb line_end pos)%bool then Some None
   else file ← slice src (blen a) pos; tail_finish (encode_utf8 src) line_end (Some file) (pos + 1))
  = Some (if (is_empty (take_while not_quote t) || is_empty (drop_while not_quote t))%bool then None
          else tail_end (Some (take_while not_quote t)) (tail (drop_while not_quote t)) post).
Proof.
  intros Hsrc Hend. destruct (scan_split not_quote a t post) as (w & u & Et & Ew & Eu & Es & Esrc & Elen); [exact not_quote_bytewise|].
  unfold pos. rewrite <- Ew, <- Eu, Hsrc, Hend, Es, eqb_scanned. destruct (is_empty w); [done|]. cbn [orb]. rewrite Elen.
  rewrite Nat.leb_antisym, ltb_rest, negb_involutive. destruct u as [|c u]; [done|]. cbn [is_empty].
  replace (slice (a ++ t ++ post) (blen a) (blen (a ++ w))) with (Some w)
    by (rewrite Et, <- app_assoc, blen_app; by rewrite slice_app). cbn [mbind option_bind tail].
  assert (c = QUOTE) as ->.
  { clear -Eu. revert Eu. induction t as [|x t IH]; [done|]. cbn. destruct (not_quote x) eqn:E; [exact IH|].
    intros [= -> _]. unfold not_quote in E. by apply negb_false_iff, N.eqb_eq in E. }
  rewrite (blen_snoc _ QUOTE) by done. destruct (cursor_ahead (a ++ w) QUOTE u post) as (E1 & E2 & _); [done|].
  apply tail_finish_eq; [by rewrite Esrc|done].
Qed.

(** Whether the rest of the line starts with an ASCII character. *)
Lemma next_is src line_end a t post b : (b < 128)%N -> src = a ++ t ++ post -> line_end = blen a + blen t ->
  (Nat.ltb (blen a) line_end && at_is (encode_utf8 src) (blen a) b)%bool = starts_with_char b t.
Proof. intros Hb -> ->. rewrite ltb_rest, at_is_char by done. by destruct t. Qed.

Lemma line_directive_tail_eq src line_end a t post : src = a ++ t ++ post -> line_end = blen a + blen t ->
  line_directive_tail (encode_utf8 src) src (blen a) line_end = Some (tail_of_line t post).
Proof.
  intros Hsrc Hend. unfold line_directive_tail, tail_of_line. cbv zeta. change (fun b => negb (N.eqb b QUOTE)) with not_quote.
  destruct (scan_split is_blank a t post) as (w & u & Et & Ew & Eu & Es & Esrc & Elen); [eauto with bytewise|].
  replace (scan is_blank (encode_utf8 src) (blen a) line_end) with (blen (a ++ w)) by (by rewrite Hsrc, Hend, Es).
  rewrite <- Eu. rewrite Esrc in Hsrc. rewrite Elen in Hend. clear Es Esrc Elen Et Ew Eu. set (a1 := a ++ w) in *. clearbody a1. clear a w.
  rewrite (next_is src line_end a1 u post) by done. destruct (starts_with_char 64 u) eqn:E64.
  - apply starts_with_tail in E64. destruct (cursor_ahead a1 64%N (tail u) post) as (E1 & E2 & E3); [done|]. rewrite <- E64 in E1, E2.
    rewrite E3, (next_is src line_end (a1 ++ [64%N]) (tail u) post) by (done || congruence).
    destruct (starts_with_char QUOTE (tail u)) eqn:EQ; [|by rewrite <- E3, (proj2 (Nat.eqb_neq _ _)) by lia].
    apply starts_with_tail in EQ. destruct (cursor_ahead (a1 ++ [64%N]) QUOTE (tail (tail u)) post) as (F1 & F2 & F3); [done|].
    rewrite <- EQ in F1, F2. rewrite F3. apply file_eq; congruence.
  - rewrite (next_is src line_end a1 u post), Nat.eqb_refl by done. destruct (starts_with_char QUOTE u) eqn:EQ; [|by apply tail_finish_eq].
    apply starts_with_tail in EQ. destruct (cursor_ahead a1 QUOTE (tail u) post) as (F1 & F2 & F3); [done|].
    rewrite <- EQ in F1, F2. rewrite F3. apply file_eq; congruence.
Qed.

Lemma scan_step q src line_end a t post : bytewise q -> src = a ++ t ++ post -> line_end = blen a + blen t ->
  scan q (encode_utf8 src) (blen a) line_end = blen (a ++ take_while q t)
  /\ src = (a ++ take_while q t) ++ drop_while q t ++ post /\ line_end = blen (a ++ take_while q t) + blen (drop_while q t)
  /\ slice src (blen a) (blen (a ++ take_while q t)) = Some (take_while q t).
Proof.
  intros Hq -> ->. destruct (scan_split q a t post Hq) as (w & u & Et & Ew & Eu & Es & Esrc & Elen). rewrite <- Ew, <- Eu.
  split_and!; [done..|]. rewrite Et, <- app_assoc, blen_app. apply slice_app.
Qed.

Lemma slice_rest src line_end a t post : src = a ++ t ++ post -> line_end = blen a + blen t -> slice src (blen a) line_end = Some t.
Proof. intros -> ->. apply slice_app. Qed.

Section stages.
Context (src post : str) (start line_end : nat).

Definition ahead (a t : str) : Prop := src = a ++ t ++ post /\ line_end = blen a + blen t.

Lemma line_number_tail_eq a t : ahead a t ->
  line_number_tail (encode_utf8 src) src (start, line_end) (blen a) = Some (placed start line_end (Ok <$> number_of_line t post)).
Proof.
  intros [Hsrc Hend]. unfold line_number_tail, number_of_line. cbv zeta. cbn [snd].
  destruct (scan_step is_ascii_digit src line_end a t post) as (-> & E1 & E2 & E3); [eauto with bytewise|done..|]. rewrite eqb_scanned.
  destruct (is_empty (take_while is_ascii_digit t)); [done|]. rewrite E3. cbn [mbind option_bind].
  rewrite (line_directive_tail_eq src line_end (a ++ take_while is_ascii_digit t) (drop_while is_ascii_digit t) post) by done.
  cbn [mbind option_bind]. by destruct (tail_of_line _ _).
Qed.

Lemma recognise_condition_eq k a t : ahead a t ->
  recognise_condition k (encode_utf8 src) src (start, line_end) (blen a) = Some (placed start line_end (condition_of_line k t)).
Proof.
  intros [Hsrc Hend]. unfold recognise_condition, condition_of_line. cbv zeta. cbn [fst snd].
  destruct (scan_step is_blank src line_end a t post) as (-> & E1 & E2 & E3); [eauto with bytewise|done..|]. rewrite eqb_scanned.
  destruct (is_empty (take_while is_blank t)); [cbn; repeat f_equal; lia|].
  rewrite (slice_rest src line_end (a ++ take_while is_blank t) (drop_while is_blank t) post) by done. cbn [mbind option_bind].
  destruct (parse_if_expr_answers (drop_while is_blank t)) as [[e|e] ->]; cbn; [done|]. by rewrite Nat.sub_0_r.
Qed.

Lemma recognise_bare_eq k a t : ahead a t ->
  recognise_bare k (encode_utf8 src) src (start, line_end) (blen a) = Some (placed start line_end (bare_of_line k t)).
Proof.
  intros [Hsrc Hend]. unfold recognise_bare, bare_of_line. cbv zeta. cbn [snd].
  destruct (scan_step is_blank src line_end a t post) as (-> & E1 & E2 & E3); [eauto with bytewise|done..|].
  rewrite (slice_rest src line_end (a ++ take_while is_blank t) (drop_while is_blank t) post) by done. cbn [mbind option_bind].
  destruct (_ || _)%bool; [done|]. cbn. by rewrite Nat.sub_0_r.
Qed.

Lemma word_goes_on_eq a t : ahead a t ->
  (Nat.ltb (blen a) line_end && match encode_utf8 src !! blen a with
    | Some b => is_ascii_digit b || N.eqb b (#c"_") || N.eqb b APOS || N.leb 128 b | None => false end)%bool = word_goes_on t.
Proof.
  intros [-> ->]. rewrite ltb_rest. destruct t as [|c t]; [done|]. cbn [is_empty negb andb word_goes_on].
  rewrite encode_utf8_app. unfold blen. rewrite lookup_app_r, Nat.sub_diag by lia. cbn [app]. rewrite encode_utf8_cons.
  destruct (char_bytes c) as [[-> _]|(b & bs & -> & Hb & _ & _ & Hc)]; [done|]. cbn [lookup list_lookup app].
  rewrite (proj2 (N.leb_le 128 b)), (proj2 (N.leb_le 128 c)) by lia. by rewrite !orb_true_r.
Qed.

Lemma recognise_keyword_eq a t : ahead a t ->
  recognise_keyword (encode_utf8 src) src (start, line_end) (blen a) = Some (placed start line_end (keyword_of_line t post)).
Proof.
  intros [Hsrc Hend]. unfold recognise_keyword, keyword_of_line. cbv zeta. cbn [snd].
  destruct (scan_step is_ascii_alphabetic src line_end a t post) as (-> & E1 & E2 & E3); [eauto with bytewise|done..|].
  set (a1 := a ++ take_while is_ascii_alphabetic t) in *. set (t1 := drop_while is_ascii_alphabetic t) in *. rewrite E3. cbn [mbind option_bind].
  destruct (scan_step is_blank src line_end a1 t1 post) as (-> & F1 & F2 & F3); [eauto with bytewise|done..|].
  destruct (is_empty (take_while is_ascii_alphabetic t)); [by apply line_number_tail_eq|].
  rewrite (word_goes_on_eq a1 t1) by done. destruct (word_goes_on t1); [done|].
  destruct (str_eqb _ (#"if")); [by apply recognise_condition_eq|]. destruct (str_eqb _ (#"elif")); [by apply recognise_condition_eq|].
  destruct (str_eqb _ (#"else")); [by apply recognise_bare_eq|]. destruct (str_eqb _ (#"endif")); [by apply recognise_bare_eq|].
  destruct (str_eqb _ (#"line")); [|done]. rewrite eqb_scanned. destruct (is_empty (take_while is_blank t1)); [done|]. by apply line_number_tail_eq.
Qed.
End stages.

(** ** Lines of a source *)

Definition no_newline (s : str) : Prop := Forall (fun c => is_newline c = false) s.
Definition after_break (pre : str) : Prop := pre = [] \/ last pre = Some LF \/ last pre = Some CR.
Definition before_break (post : str) : Prop := post = [] \/ exists c post', post = c :: post' /\ is_newline c = true.

Lemma has_bom s : has_prefix BOM (encode_utf8 s) = starts_with_char 65279 s.
Proof.
  destruct s as [|c s]; [done|]. rewrite encode_utf8_cons. cbn [starts_with_char]. apply eq_true_iff_eq. rewrite N.eqb_eq. split; [|by intros ->].
  unfold encode_utf8_char, BOM. destruct (N.ltb_spec c 128); [cbn [has_prefix app]; intros [E%N.eqb_eq _]%andb_prop; lia|].
  destruct (div_rem c 64) as (q & r & Eq & Er & Ec & Hr); [lia|]. destruct (div_rem c 4096) as (q2 & r2 & Eq2 & _ & Ec2 & Hr2); [lia|].
  destruct (div_rem q 64) as (q3 & r3 & Eq3 & Er3 & Ec3 & Hr3); [lia|]. rewrite Eq, Er, Eq2, Er3.
  destruct (N.ltb_spec c 2048); [cbn [has_prefix app]; intros [E%N.eqb_eq _]%andb_prop; lia|].
  destruct (N.ltb_spec c 65536).
  - cbn [has_prefix app]. intros [E1%N.eqb_eq [E2%N.eqb_eq [E3%N.eqb_eq _]%andb_prop]%andb_prop]%andb_prop. lia.
  - cbn [has_prefix app]. intros [E%N.eqb_eq _]%andb_prop. revert E. generalize (c / 262144)%N. lia.
Qed.

Lemma line_start_test pre s : after_break pre ->
  (Nat.ltb 0 (blen pre) && negb (at_is (encode_utf8 (pre ++ s)) (blen pre - 1) LF) && negb (at_is (encode_utf8 (pre ++ s)) (blen pre - 1) CR))%bool = false.
Proof.
  intros H. destruct (Nat.ltb_spec 0 (blen pre)) as [Hpos|]; [|done]. cbn [andb].
  assert (Hat : forall b, (b < 128)%N -> last pre = Some b -> at_is (encode_utf8 (pre ++ s)) (blen pre - 1) b = true).
  { intros b Hb Hl. apply at_is_spec. rewrite encode_utf8_app, lookup_app_l by (unfold blen in *; lia).
    apply last_byte in Hl; [|done]. rewrite last_lookup in Hl. unfold blen in *. by rewrite <- Nat.sub_1_r in Hl. }
  destruct H as [->|[H|H]]; [cbn in Hpos; lia|..]; apply Hat in H; try done; rewrite H; [done|by rewrite andb_false_r].
Qed.

Lemma drop_take_line line post : no_newline line -> before_break post ->
  take_while (fun b => negb (is_newline b)) (line ++ post) = line.
Proof.
  intros Hl Hp. rewrite take_while_all by (eapply Forall_impl; [exact Hl|]; by intros c ->).
  destruct Hp as [->|(c & post' & -> & Hc)]; cbn; rewrite ?Hc; apply app_nil_r.
Qed.

(** The cursor after the byte-order mark that may open the source. *)
Lemma bom_skip pre line post : before_break post ->
  exists a, ahead (pre ++ line ++ post) post (blen pre + blen line) a
    (if (is_empty pre && starts_with_char 65279 line)%bool then tail line else line)
  /\ (if (Nat.eqb (blen pre) 0 && has_prefix BOM (encode_utf8 (pre ++ line ++ post)) && Nat.leb (length BOM) (blen pre + blen line))%bool
      then blen pre + length BOM else blen pre) = blen a.
Proof.
  intros Hp. destruct pre as [|c pre]; cbn [is_empty andb].
  2:{ exists (c :: pre). split; [done|]. rewrite blen_cons. pose proof (len_utf8_pos c). by rewrite (proj2 (Nat.eqb_neq _ _)) by lia. }
  change (blen []) with 0. cbn [app Nat.eqb andb Nat.add]. rewrite has_bom. destruct line as [|c line]; cbn [starts_with_char app].
  - replace (starts_with_char 65279 post) with false; [by exists []|]. destruct Hp as [->|(c & post' & -> & Hc)]; [done|]. cbn. symmetry. apply N.eqb_neq.
    intros ->. done.
  - destruct (N.eqb_spec c 65279) as [->|]; [|by exists []]. exists [65279%N]. rewrite blen_cons. change (N.to_nat (len_utf8 65279)) with 3.
    rewrite (proj2 (Nat.leb_le _ _)) by (cbn; lia). done.
Qed.

(** The recogniser on a line of a source is [recognise_line]. *)
Lemma recognise_directive_eq pre line post : after_break pre -> no_newline line -> before_break post ->
  recognise_directive (pre ++ line ++ post) (blen pre)
  = Some (placed (blen pre) (blen pre + blen line) (recognise_line (is_empty pre) line post)).
Proof.
  intros Hpre Hline Hpost. unfold recognise_directive, recognise_line. cbv zeta. set (src := pre ++ line ++ post).
  assert (Hlen : length (encode_utf8 src) = blen pre + blen (line ++ post)) by apply (blen_app pre (line ++ post)).
  rewrite (proj2 (Nat.ltb_ge (length (encode_utf8 src)) (blen pre))) by lia. unfold src at 1 2. rewrite line_start_test by done.
  replace (scan (fun b => negb (is_newline b)) (encode_utf8 src) (blen pre) (length (encode_utf8 src))) with (blen pre + blen line).
  2:{ rewrite Hlen. unfold src. rewrite <- (app_nil_r (line ++ post)) at 1. rewrite scan_chars by eauto with bytewise.
      rewrite drop_take_line by done. by rewrite blen_app. }
  destruct (bom_skip pre line post Hpost) as (a & [Hsrc Hend] & Ebom). fold src in Hsrc, Ebom. rewrite Ebom. clear Ebom.
  set (t := if (_ && _)%bool then _ else _) in *. clearbody t. set (line_end := blen pre + blen line) in *. clearbody line_end src.
  destruct (scan_step is_blank src line_end a t post) as (-> & E1 & E2 & _); [eauto with bytewise|done..|].
  set (a1 := a ++ take_while is_blank t) in *. set (t1 := drop_while is_blank t) in *. clearbody a1 t1.
  rewrite Nat.leb_antisym, E2, ltb_rest, negb_involutive, <- E2. rewrite E1 at 1. rewrite at_is_char by done.
  destruct t1 as [|c t1]; [done|]. cbn [is_empty orb app starts_with_char]. destruct (N.eqb_spec c (#c"#")) as [->|]; cbn [negb]; [|done].
  destruct (cursor_ahead a1 (#c"#") t1 post) as (F1 & F2 & F3); [done|]. rewrite F3, (slice_rest src line_end (a1 ++ [#c"#"]) t1 post) by congruence.
  cbn [mbind option_bind]. unfold hash_of_line. destruct (strip_prefix (#"nowarn") t1); [done|]. destruct (strip_prefix (#"warnon") t1); [done|].
  apply recognise_keyword_eq. split; congruence.
Qed.

(** ** What is consumed *)

Definition answer_range (r : result Recognised DirectiveError) : nat * nat :=
  match r with Ok r => range r | Err e => err_range e end.

(** An error leaves nothing of the line unread, or what follows the keyword. *)
Lemma keyword_unread t post k e n : keyword_of_line t post = Some (Err (k, e, n)) ->
  exists c u, t = c ++ u /\ n = blen u /\ (u = [] \/ e = MissingSeparator).
Proof.
  unfold keyword_of_line. set (t1 := drop_while is_ascii_alphabetic t).
  assert (Ht : t = take_while is_ascii_alphabetic t ++ t1) by (symmetry; apply take_drop_while).
  assert (Hcond : forall k0, condition_of_line k0 t1 = Some (Err (k, e, n)) -> exists c u, t = c ++ u /\ n = blen u /\ (u = [] \/ e = MissingSeparator)).
  { intros k0. unfold condition_of_line. destruct (is_empty _); [intros [= <- <- <-]; eauto 6|].
    destruct (parse_if_expr _) as [[?|?]|]; intros H; simplify_eq. exists t, []. rewrite app_nil_r. eauto. }
  assert (Hbare : forall k0, bare_of_line k0 t1 = Some (Err (k, e, n)) -> exists c u, t = c ++ u /\ n = blen u /\ (u = [] \/ e = MissingSeparator)).
  { intros k0. unfold bare_of_line. destruct (_ || _)%bool; intros H; simplify_eq. exists t, []. rewrite app_nil_r. eauto. }
  destruct (is_empty _); [by destruct (number_of_line _ _)|]. destruct (word_goes_on t1); [done|].
  repeat (case_match; [eauto; fail|]). repeat case_match; try done. by destruct (number_of_line _ _).
Qed.

Lemma recognise_line_unread first line post a : recognise_line first line post = Some a ->
  exists c u, line = c ++ u /\ c <> [] /\ match a with Ok _ => u = [] | Err (k, e, n) => n = blen u /\ (u = [] \/ e = MissingSeparator) end.
Proof.
  unfold recognise_line. set (t := if (_ && _)%bool then _ else _).
  assert (Ht : exists b, line = b ++ t).
  { unfold t. destruct (first && _)%bool eqn:E; [|by exists []]. apply andb_prop in E as [_ E%starts_with_tail]. exists [65279%N]. by rewrite E at 1. }
  clearbody t. destruct Ht as [b ->].
  destruct (drop_while is_blank t) as [|x t'] eqn:E; [done|]. destruct (N.eqb x _); [|done].
  assert (Hall : (b ++ take_while is_blank t ++ x :: t') = (b ++ take_while is_blank t ++ [x]) ++ t') by (by rewrite <- !app_assoc).
  assert (Hne : forall c, b ++ take_while is_blank t ++ x :: c <> []) by (intros c; by destruct b; [destruct (take_while is_blank t)|]).
  rewrite <- (take_drop_while is_blank t), E. unfold hash_of_line. intros H.
  destruct a as [d|[[k e] n]]; [exists (b ++ take_while is_blank t ++ x :: t'), []; by rewrite app_nil_r|].
  destruct (strip_prefix (#"nowarn") t'); [done|]. destruct (strip_prefix (#"warnon") t'); [done|].
  apply keyword_unread in H as (c & u & -> & -> & Hu). exists (b ++ take_while is_blank t ++ x :: c), u. rewrite <- !app_assoc. done.
Qed.

Lemma recognise_directive_answers source p : exists r, recognise_directive source p = Some r
  /\ forall x, r = Some x -> exists pre c u post, source = pre ++ (c ++ u) ++ post /\ p = blen pre
    /\ after_break pre /\ no_newline (c ++ u) /\ before_break post /\ c <> []
    /\ answer_range x = (p, blen (pre ++ c)) /\ r = placed p (blen (pre ++ c ++ u)) (recognise_line (is_empty pre) (c ++ u) post)
    /\ (u = [] \/ exists e, x = Err e /\ err_kind e = MissingSeparator).
Proof.
  destruct (Nat.ltb (length (encode_utf8 source)) p) eqn:E1; [exists None; unfold recognise_directive; by rewrite E1|].
  destruct (Nat.ltb 0 p && negb (at_is (encode_utf8 source) (p - 1) LF) && negb (at_is (encode_utf8 source) (p - 1) CR))%bool eqn:E2;
    [exists None; unfold recognise_directive; by rewrite E1, E2|].
  assert (Hsplit : exists pre rest, source = pre ++ rest /\ p = blen pre /\ after_break pre).
  { destruct p as [|p]; [exists [], source; split_and!; [done..|by left]|]. rewrite Nat.sub_1_r in E2. cbn [Nat.ltb Nat.leb andb pred] in E2.
    assert (Hat : exists b, at_is (encode_utf8 source) p b = true /\ (b = LF \/ b = CR)).
    { destruct (at_is _ _ LF) eqn:EL; [by exists LF; auto|]. cbn in E2. apply negb_false_iff in E2. exists CR. auto. }
    destruct Hat as (b & Hat%at_is_spec & Hb). apply ascii_split in Hat as (pre & post & -> & ->); [|destruct Hb; subst; done].
    exists (pre ++ [b]), post. rewrite <- app_assoc, <- blen_snoc by (destruct Hb; subst; done). split_and!; [done|lia|].
    right. rewrite last_snoc. by destruct Hb; subst; [left|right]. }
  destruct Hsplit as (pre & rest & -> & -> & Hpre). clear E1 E2.
  set (q := fun b => negb (is_newline b)). rewrite <- (take_drop_while q rest). set (line := take_while q rest). set (post := drop_while q rest).
  assert (Hline : no_newline line).
  { unfold line, no_newline. clear. induction rest as [|c s IH]; cbn; [constructor|]. destruct (q c) eqn:E; constructor; [|done].
    by apply negb_true_iff in E. }
  assert (Hpost : before_break post).
  { unfold post. clear. induction rest as [|c s IH]; cbn; [by left|]. destruct (q c) eqn:E; [done|]. right. exists c, s. split; [done|].
    by apply negb_false_iff in E. }
  rewrite recognise_directive_eq by done. eexists. split; [reflexivity|]. intros x Hx.
  destruct (recognise_line (is_empty pre) line post) as [a|] eqn:Ea; [|done]. cbn in Hx.
  destruct (recognise_line_unread _ _ _ _ Ea) as (c & u & El & Hc & Ha). exists pre, c, u, post. rewrite <- El.
  split_and!; try done.
  - destruct a as [d|[[k e] n]]; cbn in Hx; simplify_eq; cbn [answer_range range err_range]; rewrite El.
    + by rewrite app_nil_r, blen_app.
    + destruct Ha as [-> _]. rewrite !blen_app. f_equal. lia.
  - by rewrite Ea, blen_app.
  - destruct a as [d|[[k e] n]]; [by left|]. destruct Ha as [_ [->| ->]]; [by left|]. right. cbn in Hx. simplify_eq. by eexists.
Qed.

(** The recogniser never panics, on any source and offset.  It answers only
    at the start of a line; what it consumes starts there, is not empty, ends at
    a character boundary, and is the line up to its terminator, except after
    [#if] and [#elif] without a separator, of which only the keyword is
    consumed.  On the line it answers what [recognise_line] answers. *)
Theorem recognise_directive_total source p : exists r, recognise_directive source p = Some r
  /\ forall x, r = Some x -> exists pre c u post, source = pre ++ (c ++ u) ++ post /\ p = blen pre
    /\ after_break pre /\ no_newline (c ++ u) /\ before_break post /\ c <> []
    /\ answer_range x = (p, blen (pre ++ c)) /\ r = placed p (blen (pre ++ c ++ u)) (recognise_line (is_empty pre) (c ++ u) post)
    /\ (u = [] \/ exists e, x = Err e /\ err_kind e = MissingSeparator).
Proof. apply recognise_directive_answers. Qed.

(** ** Printed directives *)

Definition show_i32 (n : Z) : str := if (n <? 0)%Z then #c"-" :: show_N (Z.to_N (- n)) else show_N (Z.to_N n).

Definition print_directive (d : Directive) : str :=
  match d with
  | D_If e => #"#if " ++ to_canonical_string e
  | D_Elif e => #"#elif " ++ to_canonical_string e
  | D_Else => #"#else"
  | D_EndIf => #"#endif"
  | D_NoWarn ns => #"#nowarn" ++ concat (map (fun n => 32%N :: show_i32 n) ns)
  | D_WarnOn ns => #"#warnon" ++ concat (map (fun n => 32%N :: show_i32 n) ns)
  | D_Line n None => #"#line " ++ show_N n
  | D_Line n (Some f) => #"#line " ++ show_N n ++ 32%N :: QUOTE :: f ++ [QUOTE]
  end.

Definition is_i32 (n : Z) : Prop := (-2147483648 <= n <= 2147483647)%Z.

(** What a directive's own text, and the text after its line, must be. *)
Definition printable (d : Directive) (post : str) : Prop :=
  match d with
  | D_If e | D_Elif e => expr_wf e = true
  | D_Else | D_EndIf => True
  | D_NoWarn ns | D_WarnOn ns => Forall is_i32 ns
  | D_Line n f => (n <= i32_max)%N /\ newline_follows post = true
      /\ match f with Some f => f <> [] /\ no_newline f /\ Forall (fun c => not_quote c = true) f | None => True end
  end.

Lemma parse_i32_show n : is_i32 n -> parse_i32 (show_i32 n) = Some n.
Proof.
  unfold is_i32, show_i32. intros Hn. destruct (Z.ltb_spec n 0).
  - destruct (show_N_spec (Z.to_N (- n))) as (Hne & Hd & Hv & _). cbn [parse_i32]. rewrite N.eqb_refl, Hd, Hv.
    destruct (show_N _) as [|c s]; [done|]. cbn [is_empty negb orb]. rewrite (proj2 (N.leb_le _ _)) by lia. f_equal. lia.
  - destruct (show_N_spec (Z.to_N n)) as (Hne & Hd & Hv & _). unfold parse_i32.
    destruct (show_N (Z.to_N n)) as [|c s] eqn:E; [done|]. assert (Hc : is_ascii_digit c = true) by (cbn in Hd; by apply andb_prop in Hd as [? _]).
    destruct (N.eqb_spec c (#c"-")) as [->|]; [done|]. rewrite parse_unsigned_digits; [|done|done|rewrite Hv; unfold i32_max; lia].
    rewrite Hv. cbn. f_equal. lia.
Qed.

(** The characters of a printed number. *)
Definition number_char (c : N) : bool := (is_ascii_digit c || N.eqb c (#c"-"))%bool.

Lemma show_i32_chars n : show_i32 n <> [] /\ Forall (fun c => number_char c = true) (show_i32 n).
Proof.
  assert (H : forall m, show_N m <> [] /\ Forall (fun c => number_char c = true) (show_N m)).
  { intros m. destruct (show_N_spec m) as (Hne & Hd & _). split; [done|]. apply forallb_Forall in Hd. eapply Forall_impl; [exact Hd|].
    cbn. intros c Hc. unfold number_char. by rewrite Hc. }
  unfold show_i32. destruct (Z.ltb n 0); [|apply H]. split; [done|]. constructor; [done|apply H].
Qed.

Lemma number_char_facts c : number_char c = true ->
  is_whitespace c = false /\ is_blank c = false /\ is_newline c = false /\ N.eqb c QUOTE = false /\ N.eqb c 47 = false
  /\ N.eqb c 59 = false /\ N.eqb c 70 = false.
Proof.
  unfold number_char. rewrite orb_true_iff, N.eqb_eq. change (#c"-") with 45%N. intros H.
  assert (Hr : (45 <= c <= 57 /\ c <> 47)%N).
  { destruct H as [[H1 H2]%in_range_spec| ->]; lia. }
  unfold is_whitespace, is_blank, is_newline, LF, CR, QUOTE.
  assert (Hne : forall x, (x < 45 \/ 57 < x \/ x = 47)%N -> N.eqb c x = false) by (intros x Hx; apply N.eqb_neq; lia).
  assert (Hnr : forall a b, (b < 45 \/ 57 < a)%N -> in_range a b c = false) by (intros a b Hab; apply in_range_false; lia).
  rewrite !Hne, !Hnr by lia. done.
Qed.

Lemma has_prefix_head x p c s : N.eqb c x = false -> has_prefix (x :: p) (c :: s) = false.
Proof. cbn. by intros ->. Qed.

Lemma parse_warning_number_show n : is_i32 n -> parse_warning_number (show_i32 n) = Some n.
Proof.
  intros Hn. rewrite <- (parse_i32_show n Hn). destruct (show_i32_chars n) as [Hne Hc]. destruct (show_i32 n) as [|c s]; [done|].
  apply Forall_cons in Hc as [(_ & _ & _ & Eq & _ & _ & EF)%number_char_facts _]. unfold parse_warning_number, strip_prefix.
  rewrite has_prefix_head by done. cbn [mbind option_bind starts_with_char]. rewrite Eq, andb_false_r. cbn [andb].
  change (#"FS") with [70; 83]%N. by rewrite has_prefix_head.
Qed.

Lemma split_ws_word w k cur : Forall (fun c => is_whitespace c = false) w -> split_ws (w ++ k) cur = split_ws k (rev w ++ cur).
Proof.
  intros H. revert cur. induction H as [|c w Hc Hw IH]; intros cur; [done|]. cbn [app split_ws]. rewrite Hc, IH. cbn [rev]. by rewrite <- app_assoc.
Qed.

Lemma split_ws_numbers ns cur : cur <> [] -> 
  split_ws (concat (map (fun n => 32%N :: show_i32 n) ns)) cur = rev cur :: map show_i32 ns.
Proof.
  revert cur. induction ns as [|n ns IH]; intros cur Hcur; cbn [map concat app split_ws]; destruct cur as [|x cur]; try done.
  change (is_whitespace 32) with true. cbn [is_empty]. destruct (show_i32_chars n) as [Hne Hc].
  rewrite split_ws_word by (eapply Forall_impl; [exact Hc|]; by intros c (Hx & _)%number_char_facts). rewrite app_nil_r.
  cbn [app]. f_equal. rewrite IH; [by rewrite rev_involutive|].
  intros E. apply Hne. by rewrite <- (rev_involutive (show_i32 n)), E.
Qed.

Lemma before_comment_id s : Forall (fun c => N.eqb c 47 = false) s -> before_comment s = s.
Proof.
  induction 1 as [|c s Hc Hs IH]; [done|]. cbn [before_comment]. change (#"//") with [47; 47]%N. by rewrite has_prefix_head, IH.
Qed.

(** The text of the numbers after the first. *)
Lemma numbers_text n ns (body := show_i32 n ++ concat (map (fun n => 32%N :: show_i32 n) ns)) :
  Forall (fun c => N.eqb c 47 = false /\ is_newline c = false) body /\ exists c s, body = s ++ [c] /\ number_char c = true.
Proof.
  split.
  - apply Forall_app. assert (H : forall m, Forall (fun c => N.eqb c 47 = false /\ is_newline c = false) (show_i32 m)).
    { intros m. destruct (show_i32_chars m) as [_ Hc]. eapply Forall_impl; [exact Hc|]. intros c (_ & _ & H1 & _ & H2 & _)%number_char_facts. done. }
    split; [apply H|]. induction ns as [|m ns IH]; cbn; [constructor|]. constructor; [done|]. apply Forall_app. done.
  - unfold body. revert n body. induction ns as [|m ns IH]; intros n body.
    + destruct (show_i32_chars n) as [Hne Hc]. destruct (exists_last Hne) as (s & c & E). rewrite E in Hc. apply Forall_app in Hc as [_ [Hc _]%Forall_cons].
      exists c, s. cbn. by rewrite app_nil_r, E.
    + destruct (IH m) as (c & s & E & Hc). exists c, (show_i32 n ++ 32%N :: s). cbn. rewrite E. by rewrite <- app_assoc.
Qed.

Lemma trim_end_id p c s : p c = false -> trim_end_matches p (s ++ [c]) = s ++ [c].
Proof. intros H. unfold trim_end_matches. rewrite rev_app_distr. cbn. rewrite H. cbn. by rewrite rev_involutive. Qed.

Lemma parse_warn_numbers_show ns : Forall is_i32 ns -> parse_warn_numbers (concat (map (fun n => 32%N :: show_i32 n) ns)) = ns.
Proof.
  intros Hns. destruct ns as [|n ns]; [done|]. unfold parse_warn_numbers. cbn [map concat].
  destruct (numbers_text n ns) as [Hc (c & s & Es & Hlast)]. destruct (show_i32_chars n) as [Hne Hn].
  set (body := show_i32 n ++ _) in *. change ((32%N :: show_i32 n) ++ concat (map (fun n => 32%N :: show_i32 n) ns)) with (32%N :: body).
  assert (Et : trim_start_matches is_blank (32%N :: body) = body).
  { unfold trim_start_matches, body. cbn [drop_while]. change (is_blank 32) with true. destruct (show_i32 n) as [|x t]; [done|].
    apply Forall_cons in Hn as [(_ & Hb & _)%number_char_facts _]. cbn. by rewrite Hb. }
  rewrite Et, blen_cons. change (N.to_nat (len_utf8 32)) with 1. rewrite (proj2 (Nat.eqb_neq _ _)) by lia. cbn [andb].
  rewrite before_comment_id by (eapply Forall_impl; [exact Hc|]; by intros ? [? _]).
  destruct (number_char_facts c Hlast) as (_ & Hb & _ & _ & _ & Hsemi & _). rewrite Es, trim_end_id by done.
  unfold strip_suffix, strip_prefix. rewrite rev_app_distr. change (rev (#";;")) with [59; 59]%N. cbn [rev app].
  rewrite has_prefix_head by done. cbn [fmap option_fmap option_map default]. rewrite <- Es. unfold split_whitespace, body.
  rewrite split_ws_word by (eapply Forall_impl; [exact Hn|]; by intros ? (? & _)%number_char_facts). rewrite app_nil_r, split_ws_numbers.
  - rewrite rev_involutive. clear -Hns. apply Forall_cons in Hns as [Hn Hns]. cbn. rewrite parse_warning_number_show by done. f_equal.
    induction Hns as [|m ns Hm _ IH]; [done|]. cbn. by rewrite parse_warning_number_show, IH.
  - intros E. apply Hne. by rewrite <- (rev_involutive (show_i32 n)), E.
Qed.

Lemma while_stop q w k : Forall (fun c => q c = true) w -> (forall c k', k = c :: k' -> q c = false) ->
  take_while q (w ++ k) = w /\ drop_while q (w ++ k) = k.
Proof.
  intros Hw Hk. induction Hw as [|c w Hc _ [IH1 IH2]]; cbn; [|by rewrite Hc, IH1, IH2].
  destruct k as [|c k]; [done|]. cbn. by rewrite (Hk c k eq_refl).
Qed.

Lemma canonical_no_newline e : expr_wf e = true -> no_newline (to_canonical_string e).
Proof.
  unfold no_newline. induction e as [s|e IH|a IHa b IHb|a IHa b IHb]; cbn [expr_wf to_canonical_string]; intros H.
  - unfold ident_wf in H. destruct s as [|c s]; [done|]. bool_hyps.
    assert (Hid : forall x, is_ident_continue x = true -> is_newline x = false).
    { intros x Hx. unfold is_newline. apply orb_false_iff. split; apply N.eqb_neq; intros ->; done. }
    constructor; [|apply forallb_Forall in H0; eapply Forall_impl; [exact H0|exact Hid]].
    unfold is_newline. apply orb_false_iff. split; apply N.eqb_neq; intros ->; done.
  - rewrite !Forall_app. split_and!; [by repeat constructor|by apply IH|by repeat constructor].
  - apply andb_prop in H as [Ha Hb]. rewrite !Forall_app. split_and!; [by repeat constructor|by apply IHa|by repeat constructor|by apply IHb|by repeat constructor].
  - apply andb_prop in H as [Ha Hb]. rewrite !Forall_app. split_and!; [by repeat constructor|by apply IHa|by repeat constructor|by apply IHb|by repeat constructor].
Qed.

(** A condition after its keyword. *)
Lemma condition_of_printed k e : expr_wf e = true ->
  condition_of_line k (32%N :: to_canonical_string e) = Some (Ok (match k with K_If => D_If e | _ => D_Elif e end)).
Proof.
  intros He. unfold condition_of_line.
  assert (Hstart : forall c k', to_canonical_string e = c :: k' -> is_blank c = false).
  { destruct e as [s| | |]; cbn [to_canonical_string expr_wf] in *; intros c k' E; try (injection E as <- _; done).
    subst s. cbn in He. bool_hyps. unfold is_blank. apply orb_false_iff. split; apply N.eqb_neq; intros ->; done. }
  destruct (while_stop is_blank [32%N] (to_canonical_string e)) as [E1 E2]; [by repeat constructor|done|].
  change (32%N :: to_canonical_string e) with ([32%N] ++ to_canonical_string e). rewrite E1, E2. cbn [is_empty]. by rewrite canonical_parses.
Qed.

Lemma parse_line_number_show n : (n <= i32_max)%N -> parse_line_number (show_N n) = n.
Proof.
  intros Hn. unfold parse_line_number. pose proof (parse_i32_show (Z.of_N n)) as H. unfold show_i32 in H.
  rewrite (proj2 (Z.ltb_ge _ _)), N2Z.id in H by lia. rewrite H; [lia|]. unfold is_i32, i32_max in *. lia.
Qed.

Lemma tail_of_printed f post : newline_follows post = true ->
  match f with Some f => f <> [] /\ no_newline f /\ Forall (fun c => not_quote c = true) f | None => True end ->
  tail_of_line (match f with Some f => 32%N :: QUOTE :: f ++ [QUOTE] | None => [] end) post = Some f.
Proof.
  intros Hpost Hf. unfold tail_of_line. destruct f as [f|]; [|cbn; unfold tail_end; cbn; by rewrite Hpost].
  destruct Hf as (Hne & _ & Hq). cbn [drop_while]. change (is_blank 32) with true. change (is_blank QUOTE) with false. cbn [starts_with_char].
  change (N.eqb QUOTE 64) with false. change (N.eqb QUOTE QUOTE) with true. cbn [tail starts_with_char].
  destruct (while_stop not_quote f [QUOTE]) as [-> ->]; [done|by intros c k' [= <- _]|]. destruct f as [|x f]; [done|]. cbn. unfold tail_end. cbn.
  by rewrite Hpost.
Qed.

Lemma number_of_printed n f post : printable (D_Line n f) post ->
  number_of_line (show_N n ++ match f with Some f => 32%N :: QUOTE :: f ++ [QUOTE] | None => [] end) post = Some (D_Line n f).
Proof.
  intros (Hn & Hpost & Hf). unfold number_of_line. destruct (show_N_spec n) as (Hne & Hd & _). apply forallb_Forall in Hd.
  destruct (while_stop is_ascii_digit (show_N n) (match f with Some f => 32%N :: QUOTE :: f ++ [QUOTE] | None => [] end)) as [-> ->];
    [done|by destruct f; intros c k' E; simplify_eq|].
  rewrite parse_line_number_show, tail_of_printed by done. by destruct (show_N n).
Qed.

(** The keyword of a printed directive, and what follows it. *)
Lemma keyword_of_printed kw c t post : Forall (fun c => is_ascii_alphabetic c = true) kw -> kw <> [] -> is_ascii_alphabetic c = false ->
  word_goes_on (c :: t) = false ->
  keyword_of_line (kw ++ c :: t) post =
    if str_eqb kw (#"if") then condition_of_line K_If (c :: t)
    else if str_eqb kw (#"elif") then condition_of_line K_Elif (c :: t)
    else if str_eqb kw (#"else") then bare_of_line K_Else (c :: t)
    else if str_eqb kw (#"endif") then bare_of_line K_EndIf (c :: t)
    else if str_eqb kw (#"line") then
      if is_empty (take_while is_blank (c :: t)) then None else Ok <$> number_of_line (drop_while is_blank (c :: t)) post
    else None.
Proof.
  intros Hkw Hne Hc Hw. unfold keyword_of_line.
  destruct (while_stop is_ascii_alphabetic kw (c :: t)) as [-> ->]; [done|by intros ? ? [= <- _]|]. rewrite Hw. by destruct kw.
Qed.

Lemma numbers_no_newline ns : no_newline (concat (map (fun n => 32%N :: show_i32 n) ns)).
Proof.
  destruct ns as [|n ns]; [constructor|]. cbn [map concat]. constructor; [done|].
  destruct (numbers_text n ns) as [H _]. eapply Forall_impl; [exact H|]. by intros c [_ ?].
Qed.

Lemma line_rest_no_newline n f post : printable (D_Line n f) post ->
  no_newline (show_N n ++ match f with Some f => 32%N :: QUOTE :: f ++ [QUOTE] | None => [] end).
Proof.
  intros (_ & _ & Hf). apply Forall_app. split.
  - pose proof (show_i32_chars (Z.of_N n)) as [_ H]. unfold show_i32 in H. rewrite (proj2 (Z.ltb_ge _ _)), N2Z.id in H by lia.
    eapply Forall_impl; [exact H|]. by intros c (_ & _ & ? & _)%number_char_facts.
  - destruct f as [f|]; [|constructor]. destruct Hf as (_ & Hf & _). repeat (constructor; [done|]). apply Forall_app. split; [done|by repeat constructor].
Qed.

Lemma hash_of_printed d post : printable d post ->
  exists t, print_directive d = #c"#" :: t /\ hash_of_line t post = Some (Ok d) /\ no_newline t.
Proof.
  destruct d as [e|e| | |ns|ns|n f]; intros Hd; cbn [printable print_directive] in *.
  - exists (#"if" ++ 32%N :: to_canonical_string e). split; [done|]. split; [|apply Forall_app; split; [by repeat constructor|constructor; [done|by apply canonical_no_newline]]].
    change (hash_of_line (#"if" ++ 32%N :: to_canonical_string e) post) with (keyword_of_line (#"if" ++ 32%N :: to_canonical_string e) post).
    rewrite keyword_of_printed by (done || by repeat constructor). by apply (condition_of_printed K_If).
  - exists (#"elif" ++ 32%N :: to_canonical_string e). split; [done|]. split; [|apply Forall_app; split; [by repeat constructor|constructor; [done|by apply canonical_no_newline]]].
    change (hash_of_line (#"elif" ++ 32%N :: to_canonical_string e) post) with (keyword_of_line (#"elif" ++ 32%N :: to_canonical_string e) post).
    rewrite keyword_of_printed by (done || by repeat constructor). by apply (condition_of_printed K_Elif).
  - exists (#"else"). split_and!; [done..|by repeat constructor].
  - exists (#"endif"). split_and!; [done..|by repeat constructor].
  - exists (#"nowarn" ++ concat (map (fun n => 32%N :: show_i32 n) ns)). split_and!; [done| |apply Forall_app; split; [by repeat constructor|apply numbers_no_newline]].
    change (hash_of_line _ post) with (Some (Ok (E := DirectiveKind * DirectiveErrorKind * nat) (D_NoWarn (parse_warn_numbers (concat (map (fun n => 32%N :: show_i32 n) ns)))))).
    by rewrite parse_warn_numbers_show.
  - exists (#"warnon" ++ concat (map (fun n => 32%N :: show_i32 n) ns)). split_and!; [done| |apply Forall_app; split; [by repeat constructor|apply numbers_no_newline]].
    change (hash_of_line _ post) with (Some (Ok (E := DirectiveKind * DirectiveErrorKind * nat) (D_WarnOn (parse_warn_numbers (concat (map (fun n => 32%N :: show_i32 n) ns)))))).
    by rewrite parse_warn_numbers_show.
  - set (r := show_N n ++ match f with Some f => 32%N :: QUOTE :: f ++ [QUOTE] | None => [] end).
    exists (#"line" ++ 32%N :: r). split_and!; [unfold r; destruct f; [done|by rewrite app_nil_r]| |].
    2:{ apply Forall_app; split; [by repeat constructor|]. constructor; [done|]. by apply (line_rest_no_newline n f post). }
    change (hash_of_line (#"line" ++ 32%N :: r) post) with (keyword_of_line (#"line" ++ 32%N :: r) post).
    rewrite keyword_of_printed by (done || by repeat constructor). change (str_eqb (#"line") (#"line")) with true. cbn [take_while drop_while].
    change (is_blank 32) with true. cbn [is_empty]. replace (drop_while is_blank r) with r.
    + change (Ok <$> number_of_line r post = Some (Ok (E := DirectiveKind * DirectiveErrorKind * nat) (D_Line n f))).
      unfold r. by rewrite number_of_printed.
    + destruct (show_N_spec n) as (Hne & Hdig & _). unfold r. destruct (show_N n) as [|c s]; [done|]. cbn in Hdig |- *.
      apply andb_prop in Hdig as [Hc _]. destruct (number_char_facts c) as (_ & -> & _); [|done]. unfold number_char. by rewrite Hc.
Qed.

(** C13: A directive that is printed on a line of its own, at any indentation and
    anywhere in a source, is recognised as that directive, over exactly its
    line: conditions with the expression they were printed from, [#nowarn] and
    [#warnon] with their numbers in order, [#line] with its number and file. *)
Theorem directive_round_trip pre indent d post : after_break pre -> Forall (fun c => is_blank c = true) indent ->
  printable d post -> before_break post ->
  recognise_directive (pre ++ (indent ++ print_directive d) ++ post) (blen pre)
  = Some (Some (Ok {| directive := d; range := (blen pre, blen pre + blen (indent ++ print_directive d)) |})).
Proof.
  intros Hpre Hind Hd Hpost. destruct (hash_of_printed d post Hd) as (t & -> & Ht & Hn).
  assert (Hbl : forall c, is_blank c = true -> is_newline c = false /\ N.eqb c 65279 = false).
  { intros c [->%N.eqb_eq| ->%N.eqb_eq]%orb_true_iff; done. }
  rewrite recognise_directive_eq; [|done| |done].
  2:{ apply Forall_app. split; [eapply Forall_impl; [exact Hind|]; by intros c [? _]%Hbl|by constructor]. }
  unfold recognise_line. replace (starts_with_char 65279 (indent ++ _)) with false
    by (destruct Hind as [|c ind Hc _]; cbn; [done|]; by destruct (Hbl c Hc) as [_ ->]). rewrite andb_false_r.
  destruct (while_stop is_blank indent (#c"#" :: t)) as [_ ->]; [done|by intros ? ? [= <- _]|]. rewrite N.eqb_refl, Ht. done.
Qed.

Lemma directive_round_trip_witness :
  recognise_directive ([LF] ++ (#"  " ++ print_directive (D_Line 7 (Some (#"a.fsl")))) ++ [CR; LF]) 1
  = Some (Some (Ok {| directive := D_Line 7 (Some (#"a.fsl")); range := (1, 18) |})).
Proof.
  apply (directive_round_trip [LF] (#"  ") (D_Line 7 (Some (#"a.fsl"))) [CR; LF]).
  - right. by left.
  - by repeat constructor.
  - split_and!; [done..|by repeat constructor|by repeat constructor].
  - right. by exists CR, [LF].
Defined.

(** ** The lexical rule of [#line] *)

Definition blanks (s : str) : Prop := Forall (fun c => is_blank c = true) s.

(** An optional quoted file name, with an optional at-sign. *)
Definition file_name (name : str) (f : option str) : Prop :=
  (name = [] /\ f = None)
  \/ exists body, (name = QUOTE :: body ++ [QUOTE] \/ name = 64%N :: QUOTE :: body ++ [QUOTE])
       /\ body <> [] /\ Forall (fun c => not_quote c = true) body /\ f = Some body.

(** Either [#], blanks and digits, or [#line], at least one blank and digits;
    then the file name, between blanks, up to a line feed or a carriage return
    and a line feed. *)
Definition line_rule (first : bool) (line post : str) (n : N) (f : option str) : Prop :=
  exists bom ind kw ds w1 name w2, line = bom ++ ind ++ #c"#" :: kw ++ ds ++ w1 ++ name ++ w2
    /\ (bom = [] \/ (bom = [65279%N] /\ first = true)) /\ blanks ind /\ blanks w1 /\ blanks w2
    /\ (blanks kw \/ exists w, kw = #"line" ++ w /\ blanks w /\ w <> [])
    /\ ds <> [] /\ forallb is_ascii_digit ds = true /\ n = parse_line_number ds
    /\ file_name name f /\ newline_follows post = true.

Lemma while_all q s : Forall (fun c => q c = true) s -> drop_while q s = [] /\ take_while q s = s.
Proof. induction 1 as [|c s Hc _ [IH1 IH2]]; cbn; [done|]. rewrite Hc, IH1, IH2. done. Qed.

Lemma drop_while_nil q s : drop_while q s = [] -> Forall (fun c => q c = true) s.
Proof. intros E. rewrite <- (take_drop_while q s), E, app_nil_r. apply take_while_Forall. Qed.

Lemma tail_end_spec g t post f : tail_end g t post = Some f <-> blanks t /\ newline_follows post = true /\ f = g.
Proof.
  unfold tail_end. destruct (drop_while is_blank t) as [|c k] eqn:E; cbn [is_empty andb].
  - apply drop_while_nil in E. destruct (newline_follows post); split; [by intros [= <-]|by intros (_ & _ & ->)|done|by intros (_ & ? & _)].
  - split; [done|]. intros [H _]. apply while_all in H as [H _]. congruence.
Qed.

(** The rest of the tail once a quote has opened the file name. *)
Lemma quoted_spec u post f :
  (if (is_empty (take_while not_quote u) || is_empty (drop_while not_quote u))%bool then None
   else tail_end (Some (take_while not_quote u)) (tail (drop_while not_quote u)) post) = Some f
  <-> exists body w, u = body ++ QUOTE :: w /\ blanks w /\ body <> [] /\ Forall (fun c => not_quote c = true) body
        /\ f = Some body /\ newline_follows post = true.
Proof.
  split.
  - destruct (take_while not_quote u) as [|b bs] eqn:E1; [done|]. destruct (drop_while not_quote u) as [|q w] eqn:E2; [done|].
    cbn [is_empty orb tail]. intros (Hw & Hp & ->)%tail_end_spec. exists (b :: bs), w.
    assert (q = QUOTE) as -> by (apply drop_while_head, negb_false_iff, N.eqb_eq in E2; done).
    split_and!; [by rewrite <- E1, <- E2, take_drop_while|done|done| |done|done]. rewrite <- E1. apply take_while_Forall.
  - intros (body & w & -> & Hw & Hne & Hq & -> & Hp). destruct (while_stop not_quote body (QUOTE :: w)) as [-> ->]; [done|by intros ? ? [= <- _]|].
    destruct body; [done|]. cbn [is_empty orb tail]. by apply tail_end_spec.
Qed.

Lemma tail_of_line_spec t post f : tail_of_line t post = Some f <->
  exists w1 name w2, t = w1 ++ name ++ w2 /\ blanks w1 /\ blanks w2 /\ file_name name f /\ newline_follows post = true.
Proof.
  split.
  - unfold tail_of_line. intros H. exists (take_while is_blank t). pose proof (take_while_Forall is_blank t) as Hw.
    pose proof (take_drop_while is_blank t) as Et. set (u := drop_while is_blank t) in *. set (w1 := take_while is_blank t) in *.
    clearbody u w1. subst t.
    destruct (starts_with_char 64 u) eqn:E.
    + destruct (starts_with_char QUOTE (tail u)) eqn:EQ; [|done].
      apply quoted_spec in H as (body & w & Eu & Hb & Hne & Hq & -> & Hp). exists (64%N :: QUOTE :: body ++ [QUOTE]), w.
      apply starts_with_tail in E, EQ. split_and!; try done; [|right; exists body; auto].
      f_equal. rewrite E, EQ, Eu. cbn. by rewrite <- app_assoc.
    + destruct (starts_with_char QUOTE u) eqn:EQ.
      * apply quoted_spec in H as (body & w & Eu & Hb & Hne & Hq & -> & Hp). exists (QUOTE :: body ++ [QUOTE]), w.
        apply starts_with_tail in EQ. split_and!; try done; [|right; exists body; auto].
        f_equal. rewrite EQ, Eu. cbn. by rewrite <- app_assoc.
      * apply tail_end_spec in H as (Hb & Hp & ->). exists [], u. split_and!; try done. by left.
  - intros (w1 & name & w2 & -> & H1 & H2 & Hf & Hp). unfold tail_of_line.
    assert (Hq : forall body, body <> [] -> Forall (fun c => not_quote c = true) body ->
      (if (is_empty (take_while not_quote (body ++ QUOTE :: w2)) || is_empty (drop_while not_quote (body ++ QUOTE :: w2)))%bool then None
       else tail_end (Some (take_while not_quote (body ++ QUOTE :: w2))) (tail (drop_while not_quote (body ++ QUOTE :: w2))) post) = Some (Some body))
      by (intros body Hne Hb; apply quoted_spec; exists body, w2; done).
    destruct Hf as [[-> ->]|(body & [->| ->] & Hne & Hb & ->)].
    + cbn [app]. destruct (while_all is_blank (w1 ++ w2)) as [-> _]; [by apply Forall_app|]. cbn.
      apply tail_end_spec. split_and!; [constructor|done..].
    + destruct (while_stop is_blank w1 ((QUOTE :: body ++ [QUOTE]) ++ w2)) as [_ ->]; [done|intros ? ? E; cbn in E; by injection E as <- _|]. cbn [app starts_with_char].
      change (N.eqb QUOTE 64) with false. cbn [tail]. rewrite <- app_assoc. by apply Hq.
    + destruct (while_stop is_blank w1 ((64%N :: QUOTE :: body ++ [QUOTE]) ++ w2)) as [_ ->]; [done|intros ? ? E; cbn in E; by injection E as <- _|]. cbn [app starts_with_char tail].
      change (N.eqb 64 64) with true. cbn [tail starts_with_char]. rewrite <- app_assoc. by apply Hq.
Qed.

(** The digits and the tail. *)
Definition number_rule (t post : str) (n : N) (f : option str) : Prop :=
  exists ds w1 name w2, t = ds ++ w1 ++ name ++ w2 /\ blanks w1 /\ blanks w2 /\ ds <> [] /\ forallb is_ascii_digit ds = true
    /\ n = parse_line_number ds /\ file_name name f /\ newline_follows post = true.

Lemma after_digits w1 name w2 f c k : blanks w1 -> blanks w2 -> file_name name f -> w1 ++ name ++ w2 = c :: k -> is_ascii_digit c = false.
Proof.
  assert (Hb : forall x, is_blank x = true -> is_ascii_digit x = false) by (by intros x [->%N.eqb_eq| ->%N.eqb_eq]%orb_true_iff).
  intros H1 H2 Hf E. destruct H1 as [|x w1 Hx _]; cbn in E; [|injection E as <- _; by apply Hb].
  destruct Hf as [[-> _]|(body & [->| ->] & _)]; cbn in E; [|by injection E as <- _..].
  destruct H2 as [|x w2 Hx _]; [done|]. injection E as <- _. by apply Hb.
Qed.

Lemma number_of_line_spec t post d : number_of_line t post = Some d <-> exists n f, d = D_Line n f /\ number_rule t post n f.
Proof.
  unfold number_of_line, number_rule. split.
  - destruct (take_while is_ascii_digit t) as [|c ds] eqn:E; [done|]. cbn [is_empty].
    destruct (tail_of_line (drop_while is_ascii_digit t) post) as [f|] eqn:Et; [|done]. intros [= <-].
    apply tail_of_line_spec in Et as (w1 & name & w2 & Et & H1 & H2 & Hf & Hp). exists (parse_line_number (c :: ds)), f. split; [done|].
    exists (c :: ds), w1, name, w2. split_and!; try done; [by rewrite <- E, <- Et, take_drop_while|]. rewrite <- E. apply forallb_Forall, take_while_Forall.
  - intros (n & f & -> & ds & w1 & name & w2 & -> & H1 & H2 & Hne & Hd & -> & Hf & Hp). apply forallb_Forall in Hd.
    destruct (while_stop is_ascii_digit ds (w1 ++ name ++ w2)) as [-> ->]; [done|intros c k E; by eapply (after_digits w1 name w2 f)|].
    destruct ds as [|c ds]; [done|]. cbn [is_empty].
    assert (tail_of_line (w1 ++ name ++ w2) post = Some f) as -> by (apply tail_of_line_spec; exists w1, name, w2; done). done.
Qed.

Lemma number_head t post n f : number_rule t post n f -> exists c k, t = c :: k /\ is_ascii_digit c = true.
Proof.
  intros (ds & w1 & name & w2 & -> & _ & _ & Hne & Hd & _). destruct ds as [|c ds]; [done|]. exists c, (ds ++ w1 ++ name ++ w2).
  cbn in Hd. by apply andb_prop in Hd as [? _].
Qed.

Lemma digit_facts c : is_ascii_digit c = true -> is_blank c = false /\ is_ascii_alphabetic c = false.
Proof.
  intros H. destruct (number_char_facts c) as (_ & Hb & _); [unfold number_char; by rewrite H|]. split; [done|].
  apply in_range_spec in H as [H1 H2]. apply orb_false_iff. split; apply in_range_false; lia.
Qed.

Lemma blank_facts c : is_blank c = true -> is_ascii_alphabetic c = false /\ is_ascii_digit c = false /\ word_goes_on [c] = false.
Proof. by intros [->%N.eqb_eq| ->%N.eqb_eq]%orb_true_iff. Qed.

Lemma keyword_of_line_spec t post n f : keyword_of_line t post = Some (Ok (D_Line n f)) <->
  exists kw r, t = kw ++ r /\ (blanks kw \/ exists w, kw = #"line" ++ w /\ blanks w /\ w <> []) /\ number_rule r post n f.
Proof.
  split.
  - unfold keyword_of_line. pose proof (take_drop_while is_ascii_alphabetic t) as Et.
    set (kw := take_while is_ascii_alphabetic t) in *. set (t1 := drop_while is_ascii_alphabetic t) in *. clearbody kw t1. subst t.
    assert (Hnum : (Ok <$> number_of_line (drop_while is_blank t1) post : line_answer) = Some (Ok (D_Line n f)) -> number_rule (drop_while is_blank t1) post n f).
    { destruct (number_of_line _ _) as [d|] eqn:E; [|done]. intros [= ->]. apply number_of_line_spec in E as (n' & f' & E & H). by simplify_eq. }
    assert (Hc : forall k, condition_of_line k t1 <> Some (Ok (D_Line n f))).
    { intros k. unfold condition_of_line. destruct (is_empty _); [done|]. destruct (parse_if_expr _) as [[?|?]|]; [by destruct k|done..]. }
    assert (Hb : forall k, bare_of_line k t1 <> Some (Ok (D_Line n f))).
    { intros k. unfold bare_of_line. destruct (_ || _)%bool; [by destruct k|done]. }
    destruct (is_empty kw) eqn:Ek; [destruct kw; [|done]; intros H|].
    + exists (take_while is_blank t1), (drop_while is_blank t1). rewrite take_drop_while. split_and!; [done|left; apply take_while_Forall|by apply Hnum].
    + destruct (word_goes_on t1); [done|]. destruct (str_eqb kw (#"if")); [by intros ?%Hc|]. destruct (str_eqb kw (#"elif")); [by intros ?%Hc|].
      destruct (str_eqb kw (#"else")); [by intros ?%Hb|]. destruct (str_eqb kw (#"endif")); [by intros ?%Hb|].
      destruct (str_eqb kw (#"line")) eqn:El; [|done]. apply str_eqb_eq in El as ->. destruct (take_while is_blank t1) as [|x w] eqn:Ew; [done|].
      cbn [is_empty]. intros H. exists (#"line" ++ x :: w), (drop_while is_blank t1). split_and!; [|right; exists (x :: w)|by apply Hnum].
      * rewrite <- app_assoc. f_equal. by rewrite <- Ew, take_drop_while.
      * split_and!; [done| |done]. rewrite <- Ew. apply take_while_Forall.
  - intros (kw & r & -> & Hkw & Hr). destruct (number_head _ _ _ _ Hr) as (c & k & Er & [Hcb Hca]%digit_facts).
    assert (Hn : (Ok <$> number_of_line r post : line_answer) = Some (Ok (D_Line n f))).
    { assert (number_of_line r post = Some (D_Line n f)) as -> by (apply number_of_line_spec; eauto). done. }
    assert (Hstop : forall q, q c = false -> forall x y, r = x :: y -> q x = false) by (intros q Hq x y E; congruence).
    destruct Hkw as [Hkw|(w & -> & Hw & Hne)].
    + unfold keyword_of_line. destruct (while_stop is_ascii_alphabetic [] (kw ++ r)) as [E1 E2]; [constructor| |].
      { intros x y E. destruct Hkw as [|z kw Hz _]; cbn in E; [by eapply Hstop|]. injection E as <- _. by apply blank_facts. }
      cbn [app] in E1, E2. rewrite E1, E2. cbn [is_empty]. by destruct (while_stop is_blank kw r) as [_ ->]; [done|by apply Hstop|].
    + destruct w as [|x w]; [done|]. pose proof Hw as [(Hx1 & Hx2 & Hx3)%blank_facts _]%Forall_cons.
      rewrite <- app_assoc. cbn [app]. rewrite keyword_of_printed; [|by repeat constructor|done|done|done].
      change (x :: w ++ r) with ((x :: w) ++ r). destruct (while_stop is_blank (x :: w) r) as [-> ->]; [done|by apply Hstop|]. exact Hn.
Qed.

Lemma hash_of_line_spec t post n f : hash_of_line t post = Some (Ok (D_Line n f)) <-> keyword_of_line t post = Some (Ok (D_Line n f)).
Proof.
  unfold hash_of_line. split.
  - destruct (strip_prefix (#"nowarn") t); [done|]. by destruct (strip_prefix (#"warnon") t).
  - intros H. assert (Hhead : forall c k, t = c :: k -> N.eqb c 110 = false /\ N.eqb c 119 = false).
    { apply keyword_of_line_spec in H as (kw & r & -> & Hkw & Hr). intros c k E.
      assert (Hc : is_blank c = true \/ is_ascii_digit c = true \/ c = 108%N).
      { destruct Hkw as [Hkw|(w & -> & _ & _)]; [|right; right; by injection E as <- _].
        destruct Hkw as [|x kw Hx _]; [|injection E as <- _; by left]. destruct (number_head _ _ _ _ Hr) as (c' & k' & -> & Hc').
        cbn in E. injection E as <- _. auto. }
      destruct Hc as [[->%N.eqb_eq| ->%N.eqb_eq]%orb_true_iff|[[H1 H2]%in_range_spec| ->]]; [done..| |done].
      split; apply N.eqb_neq; lia. }
    unfold strip_prefix. destruct t as [|c k]; [done|]. destruct (Hhead c k eq_refl) as [H1 H2].
    change (#"nowarn") with (110%N :: #"owarn"). change (#"warnon") with (119%N :: #"arnon"). by rewrite !has_prefix_head.
Qed.

Lemma recognise_line_spec first line post n f : recognise_line first line post = Some (Ok (D_Line n f)) <-> line_rule first line post n f.
Proof.
  unfold recognise_line, line_rule. split.
  - set (t := if (_ && _)%bool then _ else _). assert (Ht : exists bom, line = bom ++ t /\ (bom = [] \/ (bom = [65279%N] /\ first = true))).
    { unfold t. destruct first, (starts_with_char 65279 line) eqn:E; cbn [andb]; [|by exists []; auto..]. apply starts_with_tail in E.
      exists [65279%N]. split; [by rewrite E at 1|auto]. }
    destruct Ht as (bom & El & Hbom). clearbody t. pose proof (take_drop_while is_blank t) as Et.
    destruct (drop_while is_blank t) as [|c t'] eqn:Ed; [done|]. destruct (N.eqb_spec c (#c"#")) as [->|]; [|done].
    intros (kw & r & -> & Hkw & ds & w1 & name & w2 & -> & Hr)%hash_of_line_spec%keyword_of_line_spec.
    exists bom, (take_while is_blank t), kw, ds, w1, name, w2. destruct Hr as (? & ? & ? & ? & ? & ? & ?).
    split_and!; try done; [rewrite El; f_equal; by symmetry|apply take_while_Forall].
  - intros (bom & ind & kw & ds & w1 & name & w2 & -> & Hbom & Hind & H1 & H2 & Hkw & Hne & Hd & Hn & Hf & Hp).
    set (t' := kw ++ ds ++ w1 ++ name ++ w2).
    assert (Hhash : hash_of_line t' post = Some (Ok (D_Line n f))).
    { apply hash_of_line_spec, keyword_of_line_spec. exists kw, (ds ++ w1 ++ name ++ w2). split_and!; [done..|]. exists ds, w1, name, w2. done. }
    assert (Hdrop : drop_while is_blank (ind ++ #c"#" :: t') = #c"#" :: t') by (apply while_stop; [done|by intros ? ? [= <- _]]).
    assert (Hno : starts_with_char 65279 (ind ++ #c"#" :: t') = false).
    { destruct Hind as [|x ind Hx _]; [done|]. by apply orb_true_iff in Hx as [->%N.eqb_eq| ->%N.eqb_eq]. }
    destruct Hbom as [->|[-> ->]]; cbn [app]; [rewrite Hno, andb_false_r|cbn [starts_with_char andb tail]; change (N.eqb 65279 65279) with true; cbn iota];
      rewrite Hdrop, N.eqb_refl; exact Hhash.
Qed.

(** C14: A line is taken for a [#line] directive, in either spelling, with number
    [n] and file [f], exactly when it matches the compiler's lexical rule and
    ends in a line feed or a carriage return and a line feed. *)
Theorem line_directive_rule pre line post n f : after_break pre -> no_newline line -> before_break post ->
  (recognise_directive (pre ++ line ++ post) (blen pre)
   = Some (Some (Ok {| directive := D_Line n f; range := (blen pre, blen pre + blen line) |}))
   <-> line_rule (is_empty pre) line post n f).
Proof.
  intros Hpre Hline Hpost. rewrite recognise_directive_eq, <- recognise_line_spec by done.
  destruct (recognise_line _ _ _) as [[d|[[k e] u]]|]; cbn; split; intros H; by simplify_eq.
Qed.

Lemma line_directive_rule_witness : line_rule true (#"# 3") [LF] 3 None.
Proof.
  apply (line_directive_rule [] (#"# 3") [LF] 3 None); [by left|by repeat constructor|right; by exists LF, []|reflexivity].
Defined.

(** ** The store *)

(** Source order: the lines of the directives increase. *)
Fixpoint ascending (store : LineDirectiveStore) : Prop :=
  match store with
  | d :: ((d' :: _) as store') => (generated_line d < generated_line d')%N /\ ascending store'
  | _ => True
  end.

Lemma ascending_head d store x : ascending (d :: store) -> x ∈ store -> (generated_line d < generated_line x)%N.
Proof.
  revert d. induction store as [|d' store IH]; intros d Ha Hx; [by apply not_elem_of_nil in Hx|]. cbn [ascending] in Ha. destruct Ha as [Hlt Ha].
  apply elem_of_cons in Hx as [->|Hx]; [done|]. specialize (IH d' Ha Hx). lia.
Qed.

Lemma ascending_tail d store : ascending (d :: store) -> ascending store.
Proof. destruct store; [done|]. by intros [_ ?]. Qed.

Lemma partition_point_spec store line : ascending store ->
  exists a b, store = a ++ b /\ partition_point (fun d => N.ltb (generated_line d) line) store = length a
    /\ Forall (fun d => (generated_line d < line)%N) a /\ Forall (fun d => (line <= generated_line d)%N) b.
Proof.
  induction store as [|d store IH]; intros Ha; [by exists [], []|]. cbn [partition_point]. destruct (N.ltb_spec (generated_line d) line) as [Hlt|Hge].
  - destruct (IH (ascending_tail _ _ Ha)) as (a & b & -> & -> & Hl & Hg). exists (d :: a), b. split_and!; [done..|by constructor|done].
  - exists [], (d :: store). split_and!; [done..|constructor|]. constructor; [done|]. apply Forall_forall. intros x Hx.
    pose proof (ascending_head _ _ _ Ha Hx). lia.
Qed.

(** In a store in source order, a query finds the directive that governs
    the line: the last one on an earlier line, if there is one.  Its answer
    names that directive's file, and the line is as far below the asserted line
    as the queried line is below the one after the directive, clamped to the
    range of a [u32]. *)
Theorem remap_governing store line : ascending store -> exists r, remap store line = Some r
  /\ match r with
     | None => forall d, d ∈ store -> (line <= generated_line d)%N
     | Some m => exists a d b, store = a ++ d :: b /\ (generated_line d < line)%N /\ Forall (fun d' => (line <= generated_line d')%N) b
         /\ remapped_file m = file d
         /\ (Z.of_N (remapped_line m) =
             Z.max 0 (Z.min (Z.of_N (virtual_line d) - 1 + (Z.of_N line - (Z.of_N (generated_line d) + 1))) u32_max))%Z
     end.
Proof.
  intros Ha. destruct (partition_point_spec store line Ha) as (a & b & -> & E & Hl & Hg). unfold remap. rewrite E.
  destruct (decide (a = [])) as [->|Hne].
  - exists None. split; [done|]. cbn. intros d Hd. rewrite Forall_forall in Hg. by apply Hg.
  - destruct (exists_last Hne) as (a' & d & ->). rewrite length_app. cbn [length]. rewrite Nat.add_comm. cbn [Nat.add].
    rewrite <- app_assoc, lookup_app_r, Nat.sub_diag by lia. cbn [app lookup list_lookup mbind option_bind]. eexists. split; [done|].
    apply Forall_app in Hl as [_ [Hd _]%Forall_cons]. exists a', d, b. split_and!; [done..|]. cbn [remapped_line]. rewrite Z2N.id by lia. f_equal. f_equal. lia.
Qed.

Lemma remap_governing_witness : exists r, remap [{| generated_line := 1; virtual_line := 100; file := None |}] 4 = Some r.
Proof.
  destruct (remap_governing [{| generated_line := 1; virtual_line := 100; file := None |}] 4) as (r & E & _); [exact I|]. exists r. exact E.
Defined.

Definition recognised_as (s : str) : option (option Directive) :=
  r ← recognise_directive s 0; Some (match r with Some (Ok r) => Some (directive r) | _ => None end).

Example recognise_ex :
  recognised_as (#"  #if A && B // c") = Some (Some (D_If (And (Ident (#"A")) (Ident (#"B")))))
  /\ recognised_as (#"#nowarn FS40 9 ;;") = Some (Some (D_NoWarn [40; 9]%Z))
  /\ recognised_as (#"# 12 " ++ QUOTE :: #"a.fsl" ++ [QUOTE; LF]) = Some (Some (D_Line 12 (Some (#"a.fsl"))))
  /\ recognised_as (#"#line 12") = Some None.
Proof. vm_compute. auto. Qed.
