(* ===== verification/Driver.v ===== *)
(** * The preprocessor driver ([crates/cst/src/directives/driver.rs])

    The iterator over the tokens of the active branches of a source: it keeps
    the stack of open [#if] chains, recognises directives at line starts, walks
    over inactive text line by line and drives the interpolation-aware lexer
    elsewhere.  In the full-trivia mode it also emits a marker for each visible
    directive and for each stretch of inactive text.

    [turn] is the body of the [loop] of [next].  The fields that never change
    (the source, the symbols, the mode) are parameters; the others are
    [DriverCore].  The stack's top is the head of the list.  [None] is a panic,
    or fuel that ran out, which does not happen ([DriverThm]). *)

From S2P Require Import Prelude Encoding StrBytes Lexer IfExpr Interp Directive.

Inductive PreprocError :=
| Lex (e : LexError)
| DirectiveErr (e : DirectiveError)
| UnmatchedEndIf (range : Span)
| OrphanElse (range : Span)
| OrphanElif (range : Span)
| DoubleElse (range prev_else : Span)
| ElifAfterElse (range prev_else : Span)
| UnclosedIfAtEof (if_span : Span) (eof : nat).

Definition reporting_span (e : PreprocError) (paired_span : Span) : Span :=
  match e with UnclosedIfAtEof if_span _ => if_span | _ => paired_span end.

Inductive TriviaToken :=
| Lexed (t : Token)
| HashLine
| WarnDirective
| HashIf
| HashElse
| HashElif
| HashEndif
| InactiveCode.

Definition directive_trivia_token (d : Directive) : option TriviaToken :=
  match d with
  | D_Line _ _ => Some HashLine
  | D_NoWarn _ | D_WarnOn _ => Some WarnDirective
  | D_If _ | D_Elif _ | D_Else | D_EndIf => None
  end.

Definition cc_directive_marker (k : DirectiveKind) : TriviaToken :=
  match k with K_If => HashIf | K_Elif => HashElif | K_Else => HashElse | K_EndIf => HashEndif end.

Record Frame := { if_span : Span; arm_lit : bool; any_arm_lit : bool; else_span : option Span }.

Definition DriverItem := (result Token PreprocError * Span)%type.
Definition CoreItem := (result TriviaToken PreprocError * Span)%type.

Record LexerState := { lex_base : nat; next_pos : nat; iter : InterpDriver }.

Record DriverCore := {
  pos : nat;
  stack : list Frame;
  pending : list CoreItem;
  eof_done : bool;
  lexer : option LexerState;
  pending_interp_frames : list Interp.Frame;
  line_directives : LineDirectiveStore;
  line_scan_offset : nat;
  line_scan_line : N;
  covered_end : nat;
  elif_directives : list Span;
}.

(** ** The stack *)

Definition all_lit (st : list Frame) : bool := forallb arm_lit st.

Definition parent_active_for (st : list Frame) (k : DirectiveKind) : bool :=
  match k with
  | K_If => all_lit st
  | K_Elif | K_Else | K_EndIf => if is_empty st then true else all_lit (tail st)
  end.

(** The new stack, and the errors that are queued. *)
Definition apply_directive (st : list Frame) (range : Span) (k : DirectiveKind) (expr_value : option bool) (parent_active : bool) :
    list Frame * list CoreItem :=
  match k with
  | K_If =>
      let lit := (parent_active && default false expr_value)%bool in
      ({| if_span := range; arm_lit := lit; any_arm_lit := lit; else_span := None |} :: st, [])
  | K_Elif =>
      match st with
      | [] => ([], [(Err (OrphanElif range), range)])
      | top :: below =>
          let errs := match else_span top with
                      | Some prev => if parent_active then [(Err (ElifAfterElse range prev), range)] else []
                      | None => []
                      end in
          let lit := (parent_active && negb (any_arm_lit top) && default false expr_value)%bool in
          ({| if_span := if_span top; arm_lit := lit; any_arm_lit := (any_arm_lit top || lit)%bool; else_span := else_span top |} :: below, errs)
      end
  | K_Else =>
      match st with
      | [] => ([], [(Err (OrphanElse range), range)])
      | top :: below =>
          let errs := match else_span top with
                      | Some prev => if parent_active then [(Err (DoubleElse range prev), range)] else []
                      | None => []
                      end in
          let lit := (parent_active && negb (any_arm_lit top))%bool in
          ({| if_span := if_span top; arm_lit := lit; any_arm_lit := (any_arm_lit top || lit)%bool; else_span := Some range |} :: below, errs)
      end
  | K_EndIf =>
      match st with
      | [] => ([], [(Err (UnmatchedEndIf range), range)])
      | _ :: below => (below, [])
      end
  end.

(** ** Field updates *)

Definition push_pending (items : list CoreItem) (d : DriverCore) : DriverCore :=
  {| pos := pos d; stack := stack d; pending := pending d ++ items; eof_done := eof_done d; lexer := lexer d;
     pending_interp_frames := pending_interp_frames d; line_directives := line_directives d; line_scan_offset := line_scan_offset d;
     line_scan_line := line_scan_line d; covered_end := covered_end d; elif_directives := elif_directives d |}.
Definition set_pending (items : list CoreItem) (d : DriverCore) : DriverCore :=
  {| pos := pos d; stack := stack d; pending := items; eof_done := eof_done d; lexer := lexer d;
     pending_interp_frames := pending_interp_frames d; line_directives := line_directives d; line_scan_offset := line_scan_offset d;
     line_scan_line := line_scan_line d; covered_end := covered_end d; elif_directives := elif_directives d |}.
Definition set_pos (p : nat) (d : DriverCore) : DriverCore :=
  {| pos := p; stack := stack d; pending := pending d; eof_done := eof_done d; lexer := lexer d;
     pending_interp_frames := pending_interp_frames d; line_directives := line_directives d; line_scan_offset := line_scan_offset d;
     line_scan_line := line_scan_line d; covered_end := covered_end d; elif_directives := elif_directives d |}.
Definition set_stack (st : list Frame) (d : DriverCore) : DriverCore :=
  {| pos := pos d; stack := st; pending := pending d; eof_done := eof_done d; lexer := lexer d;
     pending_interp_frames := pending_interp_frames d; line_directives := line_directives d; line_scan_offset := line_scan_offset d;
     line_scan_line := line_scan_line d; covered_end := covered_end d; elif_directives := elif_directives d |}.
Definition set_eof_done (d : DriverCore) : DriverCore :=
  {| pos := pos d; stack := stack d; pending := pending d; eof_done := true; lexer := lexer d;
     pending_interp_frames := pending_interp_frames d; line_directives := line_directives d; line_scan_offset := line_scan_offset d;
     line_scan_line := line_scan_line d; covered_end := covered_end d; elif_directives := elif_directives d |}.
Definition set_lexer (l : option LexerState) (fs : list Interp.Frame) (d : DriverCore) : DriverCore :=
  {| pos := pos d; stack := stack d; pending := pending d; eof_done := eof_done d; lexer := l;
     pending_interp_frames := fs; line_directives := line_directives d; line_scan_offset := line_scan_offset d;
     line_scan_line := line_scan_line d; covered_end := covered_end d; elif_directives := elif_directives d |}.
Definition set_lines (s : LineDirectiveStore) (offset : nat) (line : N) (d : DriverCore) : DriverCore :=
  {| pos := pos d; stack := stack d; pending := pending d; eof_done := eof_done d; lexer := lexer d;
     pending_interp_frames := pending_interp_frames d; line_directives := s; line_scan_offset := offset;
     line_scan_line := line; covered_end := covered_end d; elif_directives := elif_directives d |}.
Definition set_covered_end (e : nat) (d : DriverCore) : DriverCore :=
  {| pos := pos d; stack := stack d; pending := pending d; eof_done := eof_done d; lexer := lexer d;
     pending_interp_frames := pending_interp_frames d; line_directives := line_directives d; line_scan_offset := line_scan_offset d;
     line_scan_line := line_scan_line d; covered_end := e; elif_directives := elif_directives d |}.
Definition push_elif (range : Span) (d : DriverCore) : DriverCore :=
  {| pos := pos d; stack := stack d; pending := pending d; eof_done := eof_done d; lexer := lexer d;
     pending_interp_frames := pending_interp_frames d; line_directives := line_directives d; line_scan_offset := line_scan_offset d;
     line_scan_line := line_scan_line d; covered_end := covered_end d; elif_directives := elif_directives d ++ [range] |}.

Definition currently_active (d : DriverCore) : bool := all_lit (stack d).

Definition invalidate_lexer (d : DriverCore) : DriverCore :=
  set_lexer None (match lexer d with Some st => snapshot_frames (iter st) | None => pending_interp_frames d end) d.

Definition DriverCore_new : DriverCore :=
  {| pos := 0; stack := []; pending := []; eof_done := false; lexer := None; pending_interp_frames := []; line_directives := [];
     line_scan_offset := 0; line_scan_line := 0; covered_end := 0; elif_directives := [] |}.

(** The end of the line's terminator. *)
Fixpoint next_line_start (bs : list N) (p : nat) : nat :=
  match bs with
  | [] => p
  | b :: bs' =>
      if N.eqb b LF then p + 1
      else if N.eqb b CR then if starts_with_char LF bs' then p + 2 else p + 1
      else next_line_start bs' (p + 1)
  end.

Inductive turned := Yield (it : CoreItem) (d : DriverCore) | Continue (d : DriverCore) | Finish (d : DriverCore).

Section core.
Context {L : Logos} (source : str) (symbols : list str) (trivia_mode : bool).

Definition fill_inactive_gap (up_to : nat) (d : DriverCore) : DriverCore :=
  if (trivia_mode && Nat.ltb (covered_end d) up_to)%bool
  then set_covered_end up_to (push_pending [(Ok InactiveCode, (covered_end d, up_to))] d) else d.

Definition emit_trivia_marker (marker : TriviaToken) (range : Span) (d : DriverCore) : DriverCore :=
  let d := fill_inactive_gap range.1 d in
  let d := set_covered_end (Nat.max (covered_end d) range.2) d in
  push_pending [(Ok marker, range)] d.

Definition at_line_start (p : nat) : bool :=
  let bytes := encode_utf8 source in
  if Nat.eqb p 0 then true
  else if Nat.ltb (length bytes) p then false
  else (at_is bytes (p - 1) LF || at_is bytes (p - 1) CR)%bool.

Definition generated_line_at (offset : nat) (d : DriverCore) : option (N * nat) :=
  let offset := Nat.min offset (blen source) in
  if Nat.ltb offset (line_scan_offset d) then None
  else
    chunk ← slice source (line_scan_offset d) offset;
    n ← line_index chunk (blen chunk);
    Some ((line_scan_line d + n)%N, offset).

Definition eval_expr (e : Expr) : bool := eval e (fun name => existsb (str_eqb name) symbols).

(** A trivia directive. *)
Definition handle_trivia (r : Recognised) (d : DriverCore) : option DriverCore :=
  d ← (if currently_active d then
         d ← (match directive r with
              | D_Line number file =>
                  '(line, offset) ← generated_line_at (range r).1 d;
                  Some (set_lines (line_directives d ++ [{| generated_line := line; virtual_line := number; file := file |}]) offset line d)
              | _ => Some d
              end);
         if trivia_mode then
           match directive_trivia_token (directive r) with
           | Some marker => Some (emit_trivia_marker marker (range r) d)
           | None => Some d
           end
         else Some d
       else Some d);
  Some (invalidate_lexer (set_pos (range r).2 d)).

(** The data of a directive of conditional compilation: its range, kind, the
    value of its condition, the error of its body, and whether it leaves the
    stack alone. *)
Definition directive_data (r : result Recognised DirectiveError) :
    option (Span * DirectiveKind * option bool * option DirectiveError * bool) :=
  match r with
  | Ok r =>
      k ← directive_kind (directive r);
      v ← (match directive r with
           | D_If e | D_Elif e => Some (Some (eval_expr e))
           | D_Else | D_EndIf => Some None
           | _ => None
           end);
      Some (range r, k, v, None, false)
  | Err e =>
      let k := keyword e in
      let v := match k with K_If | K_Elif => Some false | K_Else | K_EndIf => None end in
      let suppress := (match err_kind e with MissingSeparator => true | _ => false end
                       && match k with K_If | K_Elif => true | _ => false end)%bool in
      Some (err_range e, k, v, Some e, suppress)
  end.

Definition handle_conditional (r : result Recognised DirectiveError) (d : DriverCore) : option DriverCore :=
  '(rng, k, v, body_err, suppress) ← directive_data r;
  let d := if (match k with K_Elif => true | _ => false end && negb suppress)%bool then push_elif rng d else d in
  let parent_active := parent_active_for (stack d) k in
  let d := if (trivia_mode && parent_active)%bool then emit_trivia_marker (cc_directive_marker k) rng d else d in
  let d := match body_err with
           | Some e => if parent_active then push_pending [(Err (DirectiveErr e), err_range e)] d else d
           | None => d
           end in
  let d := if suppress : bool then d
           else let '(st, errs) := apply_directive (stack d) rng k v parent_active in push_pending errs (set_stack st d) in
  Some (invalidate_lexer (set_pos rng.2 d)).

Definition handle_directive_result (r : result Recognised DirectiveError) (d : DriverCore) : option DriverCore :=
  match r with
  | Ok r' => if is_trivia (directive r') then handle_trivia r' d else handle_conditional r d
  | Err _ => handle_conditional r d
  end.

Definition advance_to_next_line_start (d : DriverCore) : DriverCore :=
  set_pos (next_line_start (drop (pos d) (encode_utf8 source)) (pos d)) d.

(** The lexer that goes on at [pos]: the current one, or a new one that is
    given the saved frames. *)
Definition recreate_lexer (d : DriverCore) : option (LexerState * list Interp.Frame) :=
  s ← slice_from source (pos d);
  Some ({| lex_base := pos d; next_pos := pos d; iter := new_with_frames s (pending_interp_frames d) |}, []).
Definition current_lexer (d : DriverCore) : option (LexerState * list Interp.Frame) :=
  match lexer d with
  | None => recreate_lexer d
  | Some st => if Nat.eqb (next_pos st) (pos d) then Some (st, pending_interp_frames d) else recreate_lexer d
  end.

Definition next_logos_token (d : DriverCore) : option (option Item * DriverCore) :=
  '(st, fs) ← current_lexer d;
  '(o, iter') ← InterpDriver_next (iter st);
  match o with
  | None => Some (None, set_lexer (Some {| lex_base := lex_base st; next_pos := next_pos st; iter := iter' |}) fs d)
  | Some (tok, (s, e)) =>
      let abs := (s + lex_base st, e + lex_base st) in
      Some (Some (tok, abs), set_lexer (Some {| lex_base := lex_base st; next_pos := abs.2; iter := iter' |}) fs d)
  end.

(** ** The loop of [next] *)

(** The end of the source: the inactive rest and the chains left open. *)
Definition finish_source (d : DriverCore) : DriverCore :=
  let eof := blen source in
  let d := fill_inactive_gap eof (set_eof_done d) in
  set_stack [] (push_pending (map (fun f => (Err (UnclosedIfAtEof (if_span f) eof), (eof, eof))) (rev (stack d))) d).

(** A directive that begins here. *)
Definition directive_here (p : nat) : recognised :=
  if (Nat.ltb p (blen source) && at_line_start p)%bool then recognise_directive source p else Some None.

Definition turn (d : DriverCore) : option turned :=
  match pending d with
  | item :: rest => Some (Yield item (set_pending rest d))
  | [] =>
      found ← directive_here (pos d);
      match found with
      | Some r => Continue <$> handle_directive_result r d
      | None =>
          if Nat.leb (blen source) (pos d) then
            if eof_done d then Some (Finish d) else Some (Continue (finish_source d))
          else if currently_active d then
            '(o, d) ← next_logos_token d;
            match o with
            | None => Some (Finish d)
            | Some (tok, (s, e)) =>
                let d := set_pos e d in
                let item := (match tok with Ok t => Ok (Lexed t) | Err err => Err (Lex err) end, (s, e)) in
                if trivia_mode then
                  let d := fill_inactive_gap s d in
                  Some (Continue (push_pending [item] (set_covered_end (Nat.max (covered_end d) e) d)))
                else Some (Yield item d)
            end
          else Some (Continue (invalidate_lexer (advance_to_next_line_start d)))
      end
  end.

Fixpoint DriverCore_next (fuel : nat) (d : DriverCore) : option (option CoreItem * DriverCore) :=
  match fuel with
  | O => None
  | S fuel' =>
      t ← turn d;
      match t with
      | Yield it d' => Some (Some it, d')
      | Finish d' => Some (None, d')
      | Continue d' => DriverCore_next fuel' d'
      end
  end.

(** The turns that are left: a turn consumes a byte, an item of [pending], or
    the end of the source; a byte queues at most four items and a frame. *)
Definition budget (d : DriverCore) : nat :=
  6 * (blen source - pos d) + length (pending d) + length (stack d) + (if eof_done d then 0 else 2) + 1.

(** All items, and the driver once it has been drained. *)
Fixpoint collect (fuel : nat) (d : DriverCore) : option (list CoreItem * DriverCore) :=
  match fuel with
  | O => None
  | S fuel' =>
      '(o, d') ← DriverCore_next (budget d) d;
      match o with
      | None => Some ([], d')
      | Some it => '(items, d'') ← collect fuel' d'; Some (it :: items, d'')
      end
  end.
End core.

(** ** The two iterators *)

(** [Driver::next] unwraps the token; [None] is its [unreachable!]. *)
Definition unwrap_item (it : CoreItem) : option DriverItem :=
  match it with
  | (Ok (Lexed t), span) => Some (Ok t, span)
  | (Ok _, _) => None
  | (Err e, span) => Some (Err e, span)
  end.

Definition lex_with_symbols {L : Logos} (source : str) (symbols : list str) : option (list DriverItem * DriverCore) :=
  '(items, d) ← collect source symbols false (budget source DriverCore_new) DriverCore_new;
  items ← mapM unwrap_item items;
  Some (items, d).

Definition lex_with_symbols_full_trivia {L : Logos} (source : str) (symbols : list str) : option (list CoreItem * DriverCore) :=
  collect source symbols true (budget source DriverCore_new) DriverCore_new.
