(* ===== verification/DriverThm.v ===== *)
(** * Theorems about the preprocessor driver

    The stack of [#if] frames implements nested conditionals: [selects] says
    which parts of a well-nested sequence of directives are active, and the stack
    machine computes it.

    Both iterators drain every source without a panic, for any lexer with the
    laws of [LogosLaws].  In the full-trivia mode the items tile the source; the
    swallow mode yields the items of the full-trivia mode without its markers;
    and the [#line] directives are recorded in source order, each with the line
    at which the editor shows it. *)

From S2P Require Import Prelude Encoding StrBytes Position Lexer IfExpr Interp Directive DirectiveThm Driver.

(** ** Nested conditionals *)

Inductive event := Dir (k : DirectiveKind) (v : option bool) | Mark.

(** One directive on the stack, as [handle_conditional] applies it. *)
Definition step_stack (range : Span) (st : list Frame) (k : DirectiveKind) (v : option bool) : list Frame * list CoreItem :=
  apply_directive st range k v (parent_active_for st k).

(** The final stack, whether the text at each mark is active, and the errors. *)
Fixpoint run_events (range : Span) (st : list Frame) (evs : list event) : list Frame * list bool * list CoreItem :=
  match evs with
  | [] => (st, [], [])
  | Mark :: evs' => let '(st', out, errs) := run_events range st evs' in (st', all_lit st :: out, errs)
  | Dir k v :: evs' =>
      let '(st1, e1) := step_stack range st k v in
      let '(st', out, e2) := run_events range st1 evs' in (st', out, e1 ++ e2)
  end.

(** [selects a evs out]: with an enclosing context that is active or not ([a]),
    the marks of the well-nested events [evs] are active as [out] says.  Of a
    chain, the first arm whose condition holds is selected, and the [#else] arm
    when there is none ([taken] says whether an arm has been selected). *)
Inductive selects : bool -> list event -> list bool -> Prop :=
| selects_nil a : selects a [] []
| selects_mark a evs out : selects a evs out -> selects a (Mark :: evs) (a :: out)
| selects_if a v body o1 arms o2 evs o3 :
    selects (a && v)%bool body o1 -> selects_arms a v arms o2 -> selects a evs o3 ->
    selects a (Dir K_If (Some v) :: body ++ arms ++ evs) (o1 ++ o2 ++ o3)
with selects_arms : bool -> bool -> list event -> list bool -> Prop :=
| arms_endif a taken : selects_arms a taken [Dir K_EndIf None] []
| arms_elif a taken v body o1 arms o2 :
    selects (a && negb taken && v)%bool body o1 -> selects_arms a (taken || v)%bool arms o2 ->
    selects_arms a taken (Dir K_Elif (Some v) :: body ++ arms) (o1 ++ o2)
| arms_else a taken body o1 :
    selects (a && negb taken)%bool body o1 ->
    selects_arms a taken (Dir K_Else None :: body ++ [Dir K_EndIf None]) o1.

Scheme selects_mind := Induction for selects Sort Prop
  with selects_arms_mind := Induction for selects_arms Sort Prop.

Lemma run_events_app range st evs evs' :
  run_events range st (evs ++ evs') =
  let '(st1, o1, e1) := run_events range st evs in
  let '(st2, o2, e2) := run_events range st1 evs' in (st2, o1 ++ o2, e1 ++ e2).
Proof.
  revert st. induction evs as [|[k v|] evs IH]; intros st; cbn [app run_events].
  - by destruct (run_events range st evs') as [[? ?] ?].
  - destruct (step_stack range st k v) as [st1 e1]. rewrite IH. destruct (run_events range st1 evs) as [[? ?] ?].
    destruct (run_events range _ evs') as [[? ?] ?]. by rewrite app_assoc.
  - rewrite IH. destruct (run_events range st evs) as [[? ?] ?]. by destruct (run_events range _ evs') as [[? ?] ?].
Qed.

(** The frame of a chain before its [#else], in an active context or not. *)
Definition chain_frame (a taken : bool) (f : Frame) : Prop := any_arm_lit f = (a && taken)%bool /\ else_span f = None.

Lemma run_selects range :
  forall a evs out, selects a evs out -> forall st, all_lit st = a -> run_events range st evs = (st, out, []).
Proof.
  apply (selects_mind (fun a evs out _ => forall st, all_lit st = a -> run_events range st evs = (st, out, []))
    (fun a taken arms out _ => forall f below, all_lit below = a -> chain_frame a taken f -> run_events range (f :: below) arms = (below, out, []))).
  - done.
  - intros a evs out _ IH st Hst. cbn. rewrite IH by done. by rewrite Hst.
  - intros a v body o1 arms o2 evs o3 _ IH1 _ IH2 _ IH3 st Hst. cbn [run_events step_stack apply_directive parent_active_for default].
    unfold step_stack. cbn [apply_directive parent_active_for default]. rewrite Hst, !run_events_app, IH1 by (unfold all_lit in *; cbn; rewrite Hst; by destruct a, v).
    rewrite run_events_app, IH2, IH3 by done. done.
  - intros a taken f below Hb Hf. done.
  - intros a taken v body o1 arms o2 _ IH1 _ IH2 f below Hb [H1 H2]. cbn [run_events]. unfold step_stack. cbn [apply_directive parent_active_for is_empty tail default].
    rewrite H1, H2, Hb. rewrite run_events_app, IH1 by (unfold all_lit in *; cbn; rewrite Hb; by destruct a, taken, v).
    rewrite IH2; [done|done|]. split; [|done]. cbn. by destruct a, taken, v.
  - intros a taken body o1 _ IH1 f below Hb [H1 H2]. cbn [run_events]. unfold step_stack. cbn [apply_directive parent_active_for is_empty tail].
    rewrite H1, H2, Hb. rewrite run_events_app, IH1; [cbn; by rewrite app_nil_r|]. unfold all_lit in *. cbn. rewrite Hb. by destruct a, taken.
Qed.

(** C10: The stack of frames implements nested conditionals.  From any stack, a
    well-nested sequence of [#if] chains leaves the stack as it was and reports
    no error; the text between the directives is active exactly where the
    enclosing context is active, every chain around it is in its selected arm,
    and a chain selects its first arm whose condition holds, or else its
    [#else]. *)
Theorem stack_selects range st evs out : selects (all_lit st) evs out -> run_events range st evs = (st, out, []).
Proof. intros H. by apply (run_selects range (all_lit st)). Qed.

Lemma stack_selects_witness :
  run_events (0, 1) [] [Dir K_If (Some false); Mark; Dir K_Elif (Some true); Mark; Dir K_Else None; Mark; Dir K_EndIf None; Mark]
  = ([], [false; true; false; true], []).
Proof.
  apply (stack_selects (0, 1) []).
  apply (selects_if true false [Mark] [false] [Dir K_Elif (Some true); Mark; Dir K_Else None; Mark; Dir K_EndIf None] [true; false] [Mark] [true]).
  - repeat constructor.
  - apply (arms_elif true false true [Mark] [true] [Dir K_Else None; Mark; Dir K_EndIf None] [false]); [repeat constructor|].
    apply (arms_else true true [Mark] [false]). repeat constructor.
  - repeat constructor.
Defined.

(** ** Draining: turns and items *)

(** The items that stand for source text, and those the swallow mode drops. *)
Definition covers (it : CoreItem) : bool := match it.1 with Ok _ | Err (Lex _) => true | _ => false end.
Definition cspans (items : list CoreItem) : list Span := map snd (List.filter covers items).
Definition is_marker (it : CoreItem) : bool := match it.1 with Ok (Lexed _) => false | Ok _ => true | Err _ => false end.
Definition nonmarkers (items : list CoreItem) : list CoreItem := List.filter (fun it => negb (is_marker it)) items.

Lemma cspans_app a b : cspans (a ++ b) = cspans a ++ cspans b.
Proof. unfold cspans. by rewrite List.filter_app, map_app. Qed.
Lemma nonmarkers_app a b : nonmarkers (a ++ b) = nonmarkers a ++ nonmarkers b.
Proof. apply List.filter_app. Qed.

Lemma tiles_app a l1 b l2 c : tiles a l1 b -> tiles b l2 c -> tiles a (l1 ++ l2) c.
Proof.
  revert a. induction l1 as [|[x y] l1 IH]; intros a H1 H2; cbn in *; [by subst|]. destruct H1 as (-> & Hxy & H1). split_and!; [done..|by apply IH].
Qed.

(** ** Counting lines *)

Lemma count_breaks_app n a b : length a < n -> whole_breaks a b -> count_breaks (a ++ b) = (count_breaks a + count_breaks b)%N.
Proof.
  revert a. induction n as [|n IH]; intros a Hn Hw; [lia|]. destruct a as [|c a]; [done|]. cbn [length] in Hn.
  assert (Hw' : a <> [] -> whole_breaks a b) by (intros Hne; by eapply whole_breaks_cons).
  assert (IHa : count_breaks (a ++ b) = (count_breaks a + count_breaks b)%N \/ a = [])
    by (destruct (decide (a = [])); [by right|left; apply IH; [lia|by apply Hw']]).
  assert (IHa' : count_breaks (a ++ b) = (count_breaks a + count_breaks b)%N) by (by destruct IHa as [| ->]).
  cbn [app count_breaks]. destruct (N.eqb_spec c CR) as [->|].
  - destruct a as [|c2 a].
    + cbn [app]. destruct b as [|c2 b]; [done|]. destruct (N.eqb_spec c2 LF) as [->|]; [by destruct Hw|]. cbn [count_breaks]. lia.
    + cbn [app] in *. destruct (N.eqb c2 LF); [|lia]. destruct (decide (a = [])) as [->|Hne]; [cbn; lia|].
      cbn [length] in Hn. rewrite IH; [lia|lia|]. eapply whole_breaks_cons; [done|]. by apply Hw'.
  - destruct (N.eqb c LF); lia.
Qed.

Lemma count_breaks_pos n s : length s < n -> last s = Some LF \/ last s = Some CR -> (1 <= count_breaks s)%N.
Proof.
  revert s. induction n as [|n IH]; intros s Hn Hl; [lia|]. destruct s as [|c s]; [by destruct Hl|]. cbn [count_breaks length] in *.
  destruct (N.eqb_spec c CR) as [->|]; [repeat case_match; lia|]. destruct (N.eqb_spec c LF) as [->|]; [lia|].
  destruct s as [|c2 s]; [cbn in Hl; by destruct Hl as [[= ->]|[= ->]]|]. apply IH; [lia|]. exact Hl.
Qed.

Lemma count_breaks_position n s l c : length s < n -> line (count_position s l c) = (l + count_breaks s)%N.
Proof.
  revert s l c. induction n as [|n IH]; intros s l c Hn; [lia|]. destruct s as [|x s]; cbn [count_position count_breaks length] in *; [cbn; lia|].
  destruct (N.eqb x CR); [|destruct (N.eqb x LF); rewrite IH by lia; lia].
  destruct s as [|y s]; [rewrite IH by lia; cbn; lia|]. cbn [length] in Hn. destruct (N.eqb y LF); rewrite IH by (cbn; lia); lia.
Qed.

Lemma line_index_all s : line_index s (blen s) = Some (count_breaks s).
Proof. unfold line_index. rewrite Nat.min_id. rewrite <- (app_nil_r s) at 1. by rewrite split_at_app. Qed.

Section run.
Context {L : Logos} {HL : LogosLaws L} (source : str) (symbols : list str).
Notation len := (blen source).

(** The driver emits the items [l] and ends as [d'], its budget decreasing. *)
Inductive emits (mode : bool) : DriverCore -> list CoreItem -> DriverCore -> Prop :=
| emits_finish d d' : turn source symbols mode d = Some (Finish d') -> emits mode d [] d'
| emits_yield d it d' l d'' : turn source symbols mode d = Some (Yield it d') -> budget source d' < budget source d ->
    emits mode d' l d'' -> emits mode d (it :: l) d''
| emits_continue d d' l d'' : turn source symbols mode d = Some (Continue d') -> budget source d' < budget source d ->
    emits mode d' l d'' -> emits mode d l d''.

Lemma emits_next mode d l d'' : emits mode d l d'' -> forall n, budget source d <= n ->
  match l with
  | [] => DriverCore_next source symbols mode n d = Some (None, d'')
  | it :: l' => exists d', DriverCore_next source symbols mode n d = Some (Some it, d') /\ emits mode d' l' d'' /\ budget source d' < budget source d
  end.
Proof.
  assert (Hpos : forall d, 0 < budget source d) by (intros d0; unfold budget; lia).
  induction 1 as [d d' Ht|d it d' l d'' Ht Hb He _|d d' l d'' Ht Hb He IH]; intros n Hn;
    specialize (Hpos d); destruct n as [|n]; [lia| |lia| |lia|]; cbn [DriverCore_next]; rewrite Ht; cbn [mbind option_bind].
  - done.
  - by exists d'.
  - specialize (IH n ltac:(lia)). destruct l as [|it l]; [done|]. destruct IH as (d1 & E & He1 & Hb1). exists d1. split_and!; [done..|lia].
Qed.

Lemma emits_collect mode l : forall d d'' n, emits mode d l d'' -> budget source d <= n -> collect source symbols mode n d = Some (l, d'').
Proof.
  assert (Hpos : forall d, 0 < budget source d) by (intros d; unfold budget; lia).
  induction l as [|it l IH]; intros d d'' n He Hn; specialize (Hpos d); destruct n as [|n]; try lia; cbn [collect];
    pose proof (emits_next _ _ _ _ He (budget source d) (le_n _)) as H; cbv beta iota in H.
  - by rewrite H.
  - destruct H as (d' & -> & He' & Hb). cbn [mbind option_bind]. rewrite (IH d' d'' n) by (done || lia). done.
Qed.

(** A full queue is emitted first. *)
Lemma emits_pending mode d l d'' : emits mode (set_pending [] d) l d'' -> emits mode d (pending d ++ l) d''.
Proof.
  intros He. remember (pending d) as p eqn:Ep. revert d Ep He. induction p as [|it p IH]; intros d Ep He; cbn [app].
  - destruct d. cbn in *. by subst.
  - eapply (emits_yield _ _ _ (set_pending p d)); [unfold turn; by rewrite <- Ep| |by apply IH].
    unfold budget. cbn. rewrite <- Ep. cbn. lia.
Qed.

(** ** The two modes *)

(** What does not depend on the mode. *)
Definition core (d : DriverCore) : DriverCore := set_covered_end 0 (set_pending [] d).

(** [d] in full-trivia mode and [e] in swallow mode. *)
Definition agree (d e : DriverCore) : Prop := core d = core e /\ nonmarkers (pending d) = pending e.

Lemma agree_fields d e : agree d e ->
  pos e = pos d /\ stack e = stack d /\ eof_done e = eof_done d /\ lexer e = lexer d /\ pending_interp_frames e = pending_interp_frames d
  /\ line_directives e = line_directives d /\ line_scan_offset e = line_scan_offset d /\ line_scan_line e = line_scan_line d
  /\ elif_directives e = elif_directives d /\ pending e = nonmarkers (pending d).
Proof. intros [Hc Hp]. destruct d, e. unfold core, set_covered_end, set_pending in Hc. cbn in *. injection Hc as -> -> -> -> -> -> -> -> ->. done. Qed.

Lemma agree_push its its' d e : nonmarkers its = its' -> agree d e -> agree (push_pending its d) (push_pending its' e).
Proof. intros <- [Hc Hp]. split; [exact Hc|]. cbn. by rewrite nonmarkers_app, Hp. Qed.
Lemma agree_set (f : DriverCore -> DriverCore) d e :
  (forall x, core (f x) = f (core x)) -> (forall x, pending (f x) = pending x) -> agree d e -> agree (f d) (f e).
Proof. intros Hf Hp [Hc He]. split; [by rewrite !Hf, Hc|by rewrite !Hp]. Qed.
Lemma agree_fill n d e : agree d e -> agree (fill_inactive_gap true n d) e.
Proof.
  intros [Hc Hp]. unfold fill_inactive_gap. destruct (true && _)%bool; [|done]. split; [exact Hc|]. cbn. by rewrite nonmarkers_app, Hp, app_nil_r.
Qed.
Lemma agree_covered n d e : agree d e -> agree (set_covered_end n d) e.
Proof. done. Qed.
Lemma agree_marker m r d e : is_marker (Ok m, r) = true -> agree d e -> agree (emit_trivia_marker true m r d) e.
Proof.
  intros Hm Ha. unfold emit_trivia_marker. apply (agree_fill r.1) in Ha as [Hc Hp]. split; [exact Hc|].
  cbn [pending push_pending set_covered_end]. unfold nonmarkers. rewrite List.filter_app. cbn [List.filter]. rewrite Hm. cbn. by rewrite app_nil_r.
Qed.
Lemma agree_invalidate d e : agree d e -> agree (invalidate_lexer d) (invalidate_lexer e).
Proof.
  intros Ha. destruct (agree_fields _ _ Ha) as (_ & _ & _ & El & Ef & _). unfold invalidate_lexer. rewrite El, Ef. by apply agree_set.
Qed.

Lemma handle_trivia_agree r d e d' : agree d e -> handle_trivia source true r d = Some d' ->
  exists e', handle_trivia source false r e = Some e' /\ agree d' e'.
Proof.
  intros Ha. destruct (agree_fields _ _ Ha) as (Ep & Es & _ & _ & _ & Eld & Eo & El & _). unfold handle_trivia, currently_active. rewrite Es.
  assert (Hend : forall d1 e1, agree d1 e1 -> exists e', Some (invalidate_lexer (set_pos (range r).2 e1)) = Some e'
    /\ agree (invalidate_lexer (set_pos (range r).2 d1)) e') by (intros d1 e1 H; eexists; split; [done|by apply agree_invalidate, agree_set]).
  destruct (all_lit (stack d)); cbn [mbind option_bind]; [|intros [= <-]; by apply Hend].
  assert (Hm : forall d1 e1 m, agree d1 e1 -> is_marker (Ok m, range r) = true -> agree (emit_trivia_marker true m (range r) d1) e1)
    by (intros; by apply agree_marker).
  destruct (directive r) as [| | | |ns|ns|n f]; cbn [mbind option_bind directive_trivia_token]; try (intros [= <-]; apply Hend; by try apply Hm).
  unfold generated_line_at. rewrite Eo, El, Eld. destruct (Nat.ltb _ _); [done|]. destruct (slice _ _ _) as [chunk|]; [|done]. cbn [mbind option_bind].
  destruct (line_index chunk (blen chunk)) as [k|]; [|done]. cbn [mbind option_bind]. intros [= <-]. apply Hend, Hm; [|done]. by apply agree_set.
Qed.

Lemma apply_errs st rng k v pa : nonmarkers (apply_directive st rng k v pa).2 = (apply_directive st rng k v pa).2
  /\ cspans (apply_directive st rng k v pa).2 = [] /\ length (apply_directive st rng k v pa).2 <= 1
  /\ length (apply_directive st rng k v pa).1 <= S (length st).
Proof.
  destruct k, st as [|top below]; cbn [apply_directive fst snd length]; try (destruct (else_span top), pa); cbn; split_and!; try done; lia.
Qed.

Lemma handle_conditional_agree r d e d' : agree d e -> handle_conditional symbols true r d = Some d' ->
  exists e', handle_conditional symbols false r e = Some e' /\ agree d' e'.
Proof.
  intros Ha. unfold handle_conditional. destruct (directive_data symbols r) as [[[[[rng k] v] body_err] suppress]|]; [|done].
  cbn [mbind option_bind andb]. intros [= <-]. eexists. split; [done|]. apply agree_invalidate, agree_set; [done..|].
  set (b := (_ && _)%bool). assert (Ha1 : agree (if b then push_elif rng d else d) (if b then push_elif rng e else e)) by (destruct b; [by apply agree_set|done]).
  set (d1 := if b then _ else d) in *. set (e1 := if b then _ else e) in *. clearbody d1 e1. clear Ha.
  destruct (agree_fields _ _ Ha1) as (_ & Es & _). rewrite Es. set (pa := parent_active_for _ k).
  assert (Ha2 : agree (if pa then emit_trivia_marker true (cc_directive_marker k) rng d1 else d1) e1)
    by (destruct pa; [apply agree_marker; [by destruct k|done]|done]).
  assert (Es2 : stack (if pa then emit_trivia_marker true (cc_directive_marker k) rng d1 else d1) = stack d1)
    by (destruct pa; [|done]; cbn; unfold fill_inactive_gap; by destruct (true && _)%bool).
  set (d2 := if pa then _ else d1) in *. clearbody d2.
  assert (Ha3 : agree (match body_err with Some er => if pa then push_pending [(Err (DirectiveErr er), err_range er)] d2 else d2 | None => d2 end)
    (match body_err with Some er => if pa then push_pending [(Err (DirectiveErr er), err_range er)] e1 else e1 | None => e1 end))
    by (destruct body_err; [destruct pa; [by apply agree_push|done]|done]).
  destruct (agree_fields _ _ Ha3) as (_ & Es3 & _).
  set (d3 := match body_err with Some _ => _ | None => d2 end) in *. set (e3 := match body_err with Some _ => _ | None => e1 end) in *.
  destruct suppress; [done|]. rewrite Es3. pose proof (apply_errs (stack d3) rng k v pa) as [Hn _].
  destruct (apply_directive (stack d3) rng k v pa) as [st errs]. apply agree_push; [done|]. by apply agree_set.
Qed.

(** ** The invariant *)

(** Where a recorded [#line] directive stands. *)
Definition located (x : LineDirective) : Prop :=
  exists pre rest q, source = pre ++ rest /\ after_break pre /\ whole_breaks pre rest /\ generated_line x = count_breaks pre
    /\ recognise_directive source (blen pre) = Some (Some (Ok {| directive := D_Line (virtual_line x) (file x); range := (blen pre, q) |})).

(** The recorded directives and the running line count. *)
Record LInv (d : DriverCore) : Prop := {
  li_scan : exists pre rest, source = pre ++ rest /\ line_scan_offset d = blen pre /\ line_scan_line d = count_breaks pre /\ whole_breaks pre rest;
  li_offset : line_scan_offset d <= pos d;
  li_located : Forall located (line_directives d);
  li_ascending : ascending (line_directives d);
  li_last : forall x, last (line_directives d) = Some x -> generated_line x = line_scan_line d /\ line_scan_offset d < pos d;
}.

Lemma LInv_mono d d' : LInv d -> pos d <= pos d' -> line_directives d' = line_directives d -> line_scan_offset d' = line_scan_offset d ->
  line_scan_line d' = line_scan_line d -> LInv d'.
Proof.
  intros [H1 H2 H3 H4 H5] Hp E1 E2 E3. split; rewrite ?E1, ?E2, ?E3; [done|lia|done|done|]. intros x Hx. destruct (H5 x Hx). split; [done|lia].
Qed.

Lemma ascending_snoc store x : ascending store -> (forall y, last store = Some y -> (generated_line y < generated_line x)%N) -> ascending (store ++ [x]).
Proof.
  induction store as [|y store IH]; intros Ha Hl; [done|]. destruct store as [|z store]; [split; [by apply Hl|done]|].
  destruct Ha as [Hyz Ha]. split; [done|]. apply IH; [done|]. intros w Hw. by apply Hl.
Qed.

(** Recording a directive at the current position. *)
Lemma record_line d pre rest n f q : LInv d -> source = pre ++ rest -> after_break pre -> whole_breaks pre rest -> pos d = blen pre ->
  recognise_directive source (blen pre) = Some (Some (Ok {| directive := D_Line n f; range := (blen pre, q) |})) ->
  generated_line_at source (blen pre) d = Some (count_breaks pre, blen pre)
  /\ forall d', blen pre < pos d' -> line_scan_offset d' = blen pre -> line_scan_line d' = count_breaks pre ->
     line_directives d' = line_directives d ++ [{| generated_line := count_breaks pre; virtual_line := n; file := f |}] -> LInv d'.
Proof.
  intros [(p0 & r0 & E0 & Eo & El & Hw0) Hle Hloc Hasc Hlast] Esrc Hb Hw Ep Hrec. rewrite Eo, Ep in Hle.
  assert (Hmid : exists mid, pre = p0 ++ mid /\ r0 = mid ++ rest).
  { assert (Hpre : split_at source (blen p0) = Some (p0, r0)) by (by rewrite E0, split_at_app).
    assert (E : p0 ++ r0 = pre ++ rest) by congruence. clear -E Hle. revert pre E Hle.
    induction p0 as [|c p0 IH]; intros pre E Hle; [by exists pre|]. destruct pre as [|c' pre]; [rewrite blen_cons in Hle; pose proof (len_utf8_pos c); cbn in Hle; lia|].
    cbn in E. injection E as -> E. rewrite !blen_cons in Hle. destruct (IH pre E) as (mid & -> & ->); [lia|]. by exists mid. }
  destruct Hmid as (mid & -> & ->).
  assert (Hwm : whole_breaks p0 mid) by (destruct mid as [|c mid]; [by intros [_ ?]|exact Hw0]).
  assert (Ecount : count_breaks (p0 ++ mid) = (count_breaks p0 + count_breaks mid)%N) by (apply (count_breaks_app (S (length p0))); [lia|done]).
  split.
  - unfold generated_line_at. rewrite Nat.min_l by (rewrite Esrc, (blen_app (p0 ++ mid)); lia). rewrite Eo.
    rewrite (proj2 (Nat.ltb_ge _ _)) by done. assert (slice source (blen p0) (blen (p0 ++ mid)) = Some mid) as ->
      by (rewrite Esrc, <- app_assoc, blen_app; apply slice_app). cbn [mbind option_bind]. rewrite line_index_all. cbn. by rewrite El, Ecount.
  - intros d' Hp Eo' El' Es'. split; rewrite ?Eo', ?El', ?Es'; [by exists (p0 ++ mid), rest|lia| | |].
    + apply Forall_app. split; [done|]. repeat constructor. exists (p0 ++ mid), rest, q. done.
    + apply ascending_snoc; [done|]. intros y Hy. destruct (Hlast y Hy) as [-> Hlt]. cbn. rewrite El, Ecount. rewrite Eo, Ep, blen_app in Hlt.
      assert (Hne : mid <> []) by (intros ->; cbn in Hlt; lia).
      enough (1 <= count_breaks mid)%N by lia. apply (count_breaks_pos (S (length mid))); [lia|].
      destruct Hb as [Hb|Hb]; [by destruct p0, mid|]. destruct (exists_last Hne) as (m & c & ->). rewrite app_assoc, last_snoc in Hb. by rewrite last_snoc.
    + intros x. rewrite last_snoc. intros [= <-]. cbn. split; [done|lia].
Qed.

Record Inv (d : DriverCore) : Prop := {
  inv_pos : bumps source (pos d);
  inv_lexer : match lexer d with
              | None => True
              | Some st => next_pos st = pos d /\ exists pre, source = pre ++ Interp.source (iter st) /\ lex_base st = blen pre
                  /\ blen pre <= pos d /\ at_pos (iter st) (pos d - blen pre)
              end;
  inv_covered : covered_end d <= pos d;
  inv_lines : LInv d;
}.

Lemma bumps_le s n : bumps s n -> n <= blen s.
Proof. intros (a & b & -> & ->). rewrite blen_app. lia. Qed.

(** A lexer for the current position is there, or can be made. *)
Lemma current_lexer_inv d : Inv d -> exists st fs pre, current_lexer source d = Some (st, fs)
  /\ source = pre ++ Interp.source (iter st) /\ lex_base st = blen pre /\ blen pre <= pos d /\ at_pos (iter st) (pos d - blen pre).
Proof.
  intros [(a & b & Esrc & Ep) Hlex _ _]. assert (Hnew : exists st fs pre, recreate_lexer source d = Some (st, fs)
    /\ source = pre ++ Interp.source (iter st) /\ lex_base st = blen pre /\ blen pre <= pos d /\ at_pos (iter st) (pos d - blen pre)).
  { unfold recreate_lexer. rewrite Ep. assert (slice_from source (blen a) = Some b) as -> by (by rewrite Esrc, slice_from_app).
    cbn [mbind option_bind]. eexists _, _, a. split; [done|]. cbn. split_and!; [done..|]. rewrite Nat.sub_diag. apply at_pos_new. }
  unfold current_lexer. destruct (lexer d) as [st|]; [|done]. destruct Hlex as (-> & pre & H). rewrite Nat.eqb_refl. by exists st, (pending_interp_frames d), pre.
Qed.

(** The next token starts at the position and leaves the invariant; it does not
    depend on the queue or the mode. *)
Lemma next_logos_token_inv d : Inv d -> pos d < len -> exists tok q st fs,
  (forall e, pos e = pos d -> lexer e = lexer d -> pending_interp_frames e = pending_interp_frames d ->
     next_logos_token source e = Some (Some (tok, (pos d, q)), set_lexer (Some st) fs e))
  /\ pos d < q /\ Inv (set_pos q (set_lexer (Some st) fs d)).
Proof using HL.
  intros Hinv Hlt. destruct (current_lexer_inv d Hinv) as (st & fs & pre & E & Esrc & Eb & Hle & Hat).
  assert (Hlen : len = blen pre + blen (Interp.source (iter st))) by (by rewrite Esrc at 1; rewrite blen_app).
  destruct (InterpDriver_next_spec _ _ Hat) as [(Hend & _)|(r & q & it' & Enext & Hpq & Hq & Hat' & Esrc')]; [lia|].
  exists r, (q + blen pre). do 2 eexists. split.
  { intros e Ep El Ef. assert (Ee : current_lexer source e = Some (st, fs))
      by (rewrite <- E; unfold current_lexer, recreate_lexer; by rewrite Ep, El, Ef).
    unfold next_logos_token. rewrite Ee. cbn [mbind option_bind]. rewrite Enext. cbn [mbind option_bind snd]. rewrite Eb.
    by replace (pos d - blen pre + blen pre) with (pos d) by lia. }
  split; [lia|]. destruct Hinv as [_ _ Hcov Hli].
  split; cbn [pos lexer set_pos set_lexer covered_end next_pos lex_base iter]; [| |lia|eapply LInv_mono; [done|cbn; lia|done..]].
  - destruct Hat' as (p & m & po & Es & _ & _ & _ & ->). exists (pre ++ p ++ m), po. rewrite Esrc' in Es. rewrite Esrc, Es. split; [by rewrite <- !app_assoc|].
    rewrite !blen_app. lia.
  - split; [done|]. exists pre. rewrite Esrc'. split_and!; [done|done|lia|]. by replace (q + blen pre - blen pre) with q by lia.
Qed.

Lemma next_line_start_spec bs p : bs <> [] -> p < next_line_start bs p <= p + length bs
  /\ (next_line_start bs p = p + length bs \/ exists k b, next_line_start bs p = p + S k /\ bs !! k = Some b /\ (b < 128)%N).
Proof.
  revert p. induction bs as [|b bs IH]; intros p Hne; [done|]. cbn [next_line_start length]. destruct (N.eqb_spec b LF) as [->|].
  { split; [lia|]. right. exists 0, LF. split_and!; [lia|done|done]. }
  destruct (N.eqb_spec b CR) as [->|].
  - destruct (starts_with_char LF bs) eqn:E.
    + apply starts_with_tail in E. rewrite E. cbn. split; [lia|]. right. exists 1, LF. split_and!; [lia|done|done].
    + split; [lia|]. right. exists 0, CR. split_and!; [lia|done|done].
  - destruct (decide (bs = [])) as [->|Hbs]; [cbn; split; [lia|left; lia]|]. destruct (IH (p + 1) Hbs) as [H1 H2]. split; [lia|].
    destruct H2 as [->|(k & c & -> & Hk & Hc)]; [left; lia|right]. exists (S k), c. split_and!; [lia|done|done].
Qed.

(** Inactive text is skipped to a boundary ahead. *)
Lemma advance_inv d : Inv d -> pos d < len ->
  pos d < pos (advance_to_next_line_start source d) /\ Inv (invalidate_lexer (advance_to_next_line_start source d)).
Proof.
  intros [_ _ Hcov Hli] Hlt. unfold advance_to_next_line_start.
  destruct (next_line_start_spec (drop (pos d) (encode_utf8 source)) (pos d)) as [H1 H2].
  { intros E. apply (f_equal length) in E. rewrite length_drop in E. unfold blen in Hlt. cbn in E. lia. }
  cbn [pos set_pos]. split; [lia|]. split; cbn [pos lexer covered_end set_pos invalidate_lexer set_lexer]; [|done|lia|eapply LInv_mono; [done|cbn; lia|done..]].
  apply stops_bumps. rewrite length_drop in H2. destruct H2 as [->|(k & b & -> & Hk & Hb)].
  - left. unfold blen in Hlt. lia.
  - right. rewrite lookup_drop in Hk. exists (pos d + k), b. split_and!; [lia|done|done].
Qed.

(** ** Markers and gaps tile *)

Lemma fill_tiles n d : pending d = [] -> covered_end d <= n ->
  let d' := fill_inactive_gap true n d in
  tiles (covered_end d) (cspans (pending d')) n /\ covered_end d' = n /\ length (pending d') <= 1 /\ stack d' = stack d
  /\ (covered_end d' = covered_end d \/ exists x, pending d' = [x]).
Proof.
  intros Hp Hn. unfold fill_inactive_gap. cbn [andb]. destruct (Nat.ltb_spec (covered_end d) n) as [Hlt|Hge].
  - cbn. rewrite Hp. cbn. split_and!; [lia..|done|]. right. by eexists.
  - cbn. rewrite Hp. cbn. split_and!; [lia|lia|lia|done|by left].
Qed.

(** A marker over a range that starts at or after the covered text. *)
Lemma marker_tiles m r d : pending d = [] -> covered_end d <= r.1 -> r.1 < r.2 ->
  let d' := emit_trivia_marker true m r d in
  tiles (covered_end d) (cspans (pending d')) (covered_end d') /\ covered_end d' = r.2 /\ length (pending d') <= 2 /\ stack d' = stack d.
Proof.
  intros Hp H1 H2. destruct r as [s e]. cbn [fst snd] in *. unfold emit_trivia_marker. cbn [fst snd].
  destruct (fill_tiles s d Hp H1) as (Ht & Hc & Hl & Hs & _). set (d1 := fill_inactive_gap true s d) in *. clearbody d1.
  cbn [covered_end pending stack push_pending set_covered_end]. rewrite Hc, Nat.max_r by lia. split_and!; [|done|rewrite length_app; cbn; lia|done].
  rewrite cspans_app. eapply tiles_app; [exact Ht|]. cbn. split_and!; [done..|done].
Qed.

(** ** A turn on an empty queue *)

(** What a turn in full-trivia mode does: it goes ahead, and the items it queues
    tile the text that it covers. *)
Definition went (d d' : DriverCore) : Prop :=
  Inv d' /\ pos d < pos d' /\ eof_done d' = eof_done d /\ tiles (covered_end d) (cspans (pending d')) (covered_end d')
  /\ length (pending d') <= 4 /\ length (stack d') <= S (length (stack d)).

Lemma went_budget d d' : pending d = [] -> went d d' -> budget source d' < budget source d.
Proof.
  intros Hp (Hi & Hlt & He & _ & Hl & Hs). destruct Hi as [Hb _ _ _]. apply bumps_le in Hb. unfold budget. rewrite He, Hp. cbn [length]. lia.
Qed.

(** A directive consumes its range. *)
Lemma handled d d1 q : Inv d -> pos d < q -> bumps source q ->
  covered_end d1 <= q -> eof_done d1 = eof_done d -> length (pending d1) <= 4 -> length (stack d1) <= S (length (stack d)) ->
  tiles (covered_end d) (cspans (pending d1)) (covered_end d1) -> LInv (invalidate_lexer (set_pos q d1)) ->
  went d (invalidate_lexer (set_pos q d1)).
Proof. intros [_ _ _ _] Hlt Hq Hc He Hp Hs Ht Hl. split_and!; done. Qed.

Lemma handle_trivia_went d r : Inv d -> pending d = [] -> pos d < (range r).2 -> bumps source (range r).2 -> (range r).1 = pos d ->
  is_trivia (directive r) = true -> recognise_directive source (pos d) = Some (Some (Ok r)) ->
  (exists pre rest, source = pre ++ rest /\ after_break pre /\ whole_breaks pre rest /\ pos d = blen pre) ->
  exists d', handle_trivia source true r d = Some d' /\ went d d'.
Proof.
  intros Hi Hp Hlt Hq Hr Ht Hrec (pre & rest & Esrc & Hb & Hw & Epos). destruct r as [dir [s q]]. cbn [range directive fst snd] in *. subst s.
  destruct Hi as [H1 H2 H3 H4]. unfold handle_trivia. cbn [range directive fst snd].
  assert (Hmark : forall d1 m, pending d1 = [] -> covered_end d1 = covered_end d -> stack d1 = stack d -> eof_done d1 = eof_done d ->
    (forall x, LInv (invalidate_lexer (set_pos q (set_covered_end x d1)))) -> went d (invalidate_lexer (set_pos q (emit_trivia_marker true m (pos d, q) d1)))).
  { intros d1 m Hp1 Hc1 Hs1 He1 Hl1. destruct (marker_tiles m (pos d, q) d1) as (T1 & T2 & T3 & T4); [done|cbn; lia|done|].
    apply handled; [by split|done|done|cbn in *; lia| |lia|rewrite T4, Hs1; lia|by rewrite <- Hc1|].
    - cbn. unfold fill_inactive_gap. by destruct (true && _)%bool.
    - eapply LInv_mono; [exact (Hl1 0)|done|..]; cbn; unfold fill_inactive_gap; by destruct (true && _)%bool. }
  assert (Hl : forall x, LInv (invalidate_lexer (set_pos q (set_covered_end x d)))) by (intros x; eapply LInv_mono; [exact H4|cbn; lia|done..]).
  destruct (currently_active d); cbn [mbind option_bind].
  2:{ eexists. split; [done|]. apply handled; [by split|done|done|lia|done|rewrite Hp; cbn; lia|lia|by rewrite Hp|exact (Hl (covered_end d))]. }
  destruct dir as [| | | |ns|ns|n f]; try done; cbn [mbind option_bind directive_trivia_token]; try (eexists; split; [done|by apply Hmark]).
  rewrite Epos in Hrec. destruct (record_line d pre rest n f q H4 Esrc Hb Hw Epos Hrec) as [Hgen Hnew].
  assert (Hgen' : generated_line_at source (pos d) d = Some (count_breaks pre, blen pre)) by (by rewrite Epos).
  rewrite Hgen'. cbn [mbind option_bind]. eexists. split; [done|]. apply Hmark; try done.
  intros x. apply Hnew; [cbn; lia|done..].
Qed.

Lemma handle_conditional_went d r q : Inv d -> pending d = [] -> pos d < q -> bumps source q -> answer_range r = (pos d, q) ->
  (forall x, r = Ok x -> is_trivia (directive x) = false) -> exists d', handle_conditional symbols true r d = Some d' /\ went d d'.
Proof.
  intros Hi Hp Hlt Hq Hr Htriv. unfold handle_conditional.
  assert (Hdata : exists k v be su, directive_data symbols r = Some ((pos d, q), k, v, be, su)).
  { destruct r as [r|e]; cbn in Hr |- *; [|rewrite Hr; eauto]. specialize (Htriv r eq_refl). rewrite Hr. destruct (directive r); try done; cbn; eauto 6. }
  destruct Hdata as (k & v & be & su & ->). cbn [mbind option_bind andb snd]. eexists. split; [done|]. set (b := (_ && _)%bool).
  set (d1 := if b then push_elif (pos d, q) d else d).
  assert (E1 : pending d1 = [] /\ covered_end d1 = covered_end d /\ stack d1 = stack d /\ eof_done d1 = eof_done d
    /\ line_directives d1 = line_directives d /\ line_scan_offset d1 = line_scan_offset d /\ line_scan_line d1 = line_scan_line d)
    by (unfold d1; by destruct b).
  clearbody d1. destruct E1 as (P1 & C1 & S1 & F1 & L1 & L2 & L3). set (pa := parent_active_for (stack d1) k).
  set (d2 := if pa then emit_trivia_marker true (cc_directive_marker k) (pos d, q) d1 else d1).
  destruct Hi as [I1 I2 I3 I4].
  assert (E2 : tiles (covered_end d) (cspans (pending d2)) (covered_end d2) /\ covered_end d2 <= q /\ length (pending d2) <= 2
    /\ stack d2 = stack d /\ eof_done d2 = eof_done d /\ line_directives d2 = line_directives d /\ line_scan_offset d2 = line_scan_offset d
    /\ line_scan_line d2 = line_scan_line d).
  { unfold d2. destruct pa.
    - destruct (marker_tiles (cc_directive_marker k) (pos d, q) d1) as (T1 & T2 & T3 & T4); [done|cbn; lia|done|].
      rewrite <- C1. split_and!; [done|cbn [snd] in T2; lia|done|by rewrite T4|..]; cbn; unfold fill_inactive_gap; destruct (true && _)%bool; done.
    - rewrite P1, C1. split_and!; try done; cbn; lia. }
  clearbody d2. destruct E2 as (T2 & C2 & N2 & S2 & F2 & M1 & M2 & M3).
  set (d3 := match be with Some e => if pa then push_pending [(Err (DirectiveErr e), err_range e)] d2 else d2 | None => d2 end).
  assert (E3 : cspans (pending d3) = cspans (pending d2) /\ covered_end d3 = covered_end d2 /\ length (pending d3) <= 3
    /\ stack d3 = stack d /\ eof_done d3 = eof_done d /\ line_directives d3 = line_directives d /\ line_scan_offset d3 = line_scan_offset d
    /\ line_scan_line d3 = line_scan_line d).
  { unfold d3. destruct be as [e|]; [destruct pa|]; split_and!; try done; try lia; cbn [pending push_pending]; [by rewrite cspans_app, app_nil_r|rewrite length_app; cbn; lia]. }
  clearbody d3. destruct E3 as (T3 & C3 & N3 & S3 & F3 & K1 & K2 & K3). rewrite <- T3, <- C3 in T2.
  assert (Hl : forall d4, line_directives d4 = line_directives d3 -> line_scan_offset d4 = line_scan_offset d3 -> line_scan_line d4 = line_scan_line d3 ->
    LInv (invalidate_lexer (set_pos q d4))) by (intros d4 G1 G2 G3; eapply LInv_mono; [exact I4|cbn; lia|cbn; congruence..]).
  destruct su; [apply handled; try done; [lia|lia|rewrite S3; lia|by apply Hl]|].
  destruct (apply_errs (stack d3) (pos d, q) k v pa) as (_ & A1 & A2 & A3). destruct (apply_directive (stack d3) (pos d, q) k v pa) as [st errs].
  cbn [fst snd] in *. apply handled; try done; [cbn; lia|cbn; rewrite length_app; lia|cbn; rewrite S3 in A3; lia| |by apply Hl].
  cbn [pending covered_end push_pending set_stack]. by rewrite cspans_app, A1, app_nil_r.
Qed.

(** The end of the source. *)
Lemma finish_source_full d : Inv d -> pending d = [] -> pos d = len -> eof_done d = false ->
  let d' := finish_source source true d in
  Inv d' /\ covered_end d' = len /\ pos d' = len /\ eof_done d' = true /\ tiles (covered_end d) (cspans (pending d')) len
  /\ budget source d' < budget source d /\ line_directives d' = line_directives d.
Proof.
  intros [H1 H2 H3 H4] Hp Hpos He. unfold finish_source. cbv zeta.
  destruct (fill_tiles len (set_eof_done d)) as (T1 & T2 & T3 & T4 & _); [done|cbn; lia|].
  assert (Hf : forall d0, pos (fill_inactive_gap true len d0) = pos d0 /\ lexer (fill_inactive_gap true len d0) = lexer d0
    /\ eof_done (fill_inactive_gap true len d0) = eof_done d0 /\ line_directives (fill_inactive_gap true len d0) = line_directives d0
    /\ line_scan_offset (fill_inactive_gap true len d0) = line_scan_offset d0 /\ line_scan_line (fill_inactive_gap true len d0) = line_scan_line d0)
    by (intros d0; unfold fill_inactive_gap; by destruct (true && _)%bool).
  destruct (Hf (set_eof_done d)) as (F1 & F2 & F3 & F4 & F5 & F6). set (d1 := fill_inactive_gap true len (set_eof_done d)) in *. clearbody d1.
  assert (Hc : cspans (map (fun f => (Err (UnclosedIfAtEof (if_span f) len), (len, len)) : CoreItem) (rev (stack d1))) = [])
    by (induction (rev (stack d1)); [done|]; by rewrite map_cons).
  split_and!.
  - split; cbn [pos lexer covered_end set_stack push_pending]; [by rewrite F1|by rewrite F2, F1|rewrite T2, F1; cbn; lia|].
    eapply LInv_mono; [exact H4|cbn; rewrite F1; done|done..].
  - done.
  - cbn. by rewrite F1.
  - cbn. by rewrite F3.
  - cbn [pending set_stack push_pending]. rewrite cspans_app. replace (cspans (map _ _)) with ([] : list Span) by (symmetry; exact Hc). by rewrite app_nil_r.
  - unfold budget. cbn [pos pending stack eof_done set_stack push_pending]. rewrite F1, F3, T4. cbn [pos eof_done stack set_eof_done].
    rewrite He, Hp, length_app, length_map, length_rev. cbn. lia.
  - cbn. by rewrite F4.
Qed.

Lemma finish_source_agree d e : agree d e -> agree (finish_source source true d) (finish_source source false e).
Proof.
  intros Ha. unfold finish_source. cbv zeta.
  assert (Ha1 : agree (fill_inactive_gap true len (set_eof_done d)) (fill_inactive_gap false len (set_eof_done e))) 
    by (change (fill_inactive_gap false len (set_eof_done e)) with (set_eof_done e); apply agree_fill; by apply agree_set).
  destruct (agree_fields _ _ Ha1) as (_ & -> & _). apply agree_set; [done..|]. apply agree_push; [|done].
  induction (rev _) as [|f fs IH]; [done|]. by rewrite map_cons; cbn [nonmarkers List.filter is_marker fst negb]; f_equal.
Qed.

(** A token in the two modes. *)
Lemma token_agree d e d1 d1' tok s q st fs : agree d e -> d1 = set_pos q (set_lexer (Some st) fs d) ->
  d1' = push_pending [(match tok with Ok t => Ok (Lexed t) | Err er => Err (Lex er) end, (s, q))]
          (set_covered_end (Nat.max (covered_end (fill_inactive_gap true s d1)) q) (fill_inactive_gap true s d1)) ->
  pending d = [] -> 
  core d1' = core (set_pos q (set_lexer (Some st) fs e))
  /\ nonmarkers (pending d1') = [(match tok with Ok t => Ok (Lexed t) | Err er => Err (Lex er) end, (s, q))].
Proof.
  intros Ha -> -> Hp. assert (Ha1 : agree (set_pos q (set_lexer (Some st) fs d)) (set_pos q (set_lexer (Some st) fs e)))
    by (apply agree_set; [done..|]; by apply agree_set).
  apply (agree_fill s) in Ha1 as [Hc Hn]. split; [exact Hc|]. cbn [pending push_pending set_covered_end]. rewrite nonmarkers_app, Hn. cbn [pending set_pos set_lexer].
  destruct (agree_fields _ _ Ha) as (_ & _ & _ & _ & _ & _ & _ & _ & _ & ->). rewrite Hp. by destruct tok.
Qed.

Definition corresponds (d : DriverCore) (t : turned) (e : DriverCore) (t' : turned) : Prop :=
  match t with
  | Finish _ => t' = Finish e
  | Yield _ _ => False
  | Continue d' => (exists e', t' = Continue e' /\ agree d' e')
      \/ exists it e', t' = Yield it e' /\ pending e' = [] /\ nonmarkers (pending d') = [it] /\ core d' = core e'
  end.

Lemma turn_both d : Inv d -> pending d = [] -> exists t, turn source symbols true d = Some t
  /\ match t with
     | Finish d' => d' = d /\ pos d = len /\ eof_done d = true
     | Yield _ _ => False
     | Continue d' => went d d' \/ (d' = finish_source source true d /\ pos d = len /\ eof_done d = false)
     end
  /\ forall e, agree d e -> exists t', turn source symbols false e = Some t' /\ corresponds d t e t'.
Proof using HL.
  intros Hi Hp. unfold turn. rewrite Hp.
  assert (He : forall e, agree d e -> pending e = [] /\ pos e = pos d /\ stack e = stack d /\ eof_done e = eof_done d /\ lexer e = lexer d
    /\ pending_interp_frames e = pending_interp_frames d).
  { intros e Ha. destruct (agree_fields _ _ Ha) as (E1 & E2 & E3 & E4 & E5 & _ & _ & _ & _ & E6). rewrite Hp in E6. done. }
  assert (Hfound : exists found, directive_here source (pos d) = Some found
    /\ forall r, found = Some r -> recognise_directive source (pos d) = Some (Some r)).
  { unfold directive_here. destruct (_ && _)%bool; [|by exists None]. destruct (recognise_directive_answers source (pos d)) as (r & -> & _). exists r. split; [done|]. by intros x ->. }
  destruct Hfound as (found & Efound & Hrec). rewrite Efound. cbn [mbind option_bind]. destruct found as [r|].
  - specialize (Hrec r eq_refl). destruct (recognise_directive_answers source (pos d)) as (o & Eo & Ho). rewrite Hrec in Eo. injection Eo as <-.
    destruct (Ho r eq_refl) as (pre & c & u & post & Esrc & Epos & Hpre & Hno & _ & Hc & Hr & _ & _). clear Ho.
    assert (Hq : bumps source (blen (pre ++ c))) by (exists (pre ++ c), (u ++ post); rewrite Esrc, <- !app_assoc; done).
    assert (Hlt : pos d < blen (pre ++ c)).
    { rewrite Epos, blen_app. destruct c as [|x c]; [done|]. rewrite blen_cons. pose proof (len_utf8_pos x). lia. }
    assert (Hhandled : exists d', handle_directive_result source symbols true r d = Some d' /\ went d d'
      /\ forall e, agree d e -> exists e', handle_directive_result source symbols false r e = Some e' /\ agree d' e').
    { unfold handle_directive_result. destruct r as [x|er].
      - destruct (is_trivia (directive x)) eqn:Et.
        + destruct (handle_trivia_went d x) as (d' & E & W); try done; try (cbn in Hr; by rewrite Hr).
          { exists pre, ((c ++ u) ++ post). split_and!; [done|done| |done]. intros [_ Hh]. destruct c as [|y c]; [done|]. cbn in Hh. injection Hh as ->.
            apply Forall_app in Hno as [[Hy _]%Forall_cons _]. done. }
          exists d'. split_and!; [done..|]. intros e Ha. by eapply handle_trivia_agree.
        + destruct (handle_conditional_went d (Ok x) (blen (pre ++ c))) as (d' & E & W); try done; [by intros y [= <-]|].
          exists d'. split_and!; [done..|]. intros e Ha. by eapply handle_conditional_agree.
      - destruct (handle_conditional_went d (Err er) (blen (pre ++ c))) as (d' & E & W); try done.
        exists d'. split_and!; [done..|]. intros e Ha. by eapply handle_conditional_agree. }
    destruct Hhandled as (d' & -> & W & Hag). eexists. split; [done|]. split; [by left|]. intros e Ha. destruct (He e Ha) as (-> & -> & _).
    rewrite Efound. cbn [mbind option_bind]. destruct (Hag e Ha) as (e' & -> & Ha'). eexists. split; [done|]. left. by exists e'.
  - destruct (Nat.leb_spec len (pos d)) as [Hge|Hlt].
    + assert (Hpos : pos d = len) by (destruct Hi as [Hb _ _ _]; apply bumps_le in Hb; lia).
      destruct (eof_done d) eqn:Eof.
      * eexists. split; [done|]. split; [done|]. intros e Ha. destruct (He e Ha) as (-> & -> & _ & -> & _). rewrite Efound. cbn [mbind option_bind].
        rewrite (proj2 (Nat.leb_le _ _)) by done. by eexists.
      * eexists. split; [done|]. split; [by right|]. intros e Ha. destruct (He e Ha) as (-> & -> & _ & -> & _). rewrite Efound. cbn [mbind option_bind].
        rewrite (proj2 (Nat.leb_le _ _)) by done. eexists. split; [done|]. left. eexists. split; [done|]. by apply finish_source_agree.
    + unfold currently_active. destruct (all_lit (stack d)) eqn:Ea.
      * destruct (next_logos_token_inv d Hi Hlt) as (tok & q & st & fs & E & Hq & Hi'). rewrite (E d) by done. cbn [mbind option_bind].
        set (d1 := set_pos q (set_lexer (Some st) fs d)) in *. eexists. split; [done|]. split.
        -- left. destruct Hi as [_ _ H3 _]. destruct (fill_tiles (pos d) d1) as (T1 & T2 & T3 & T4 & _); [done|done|].
           destruct Hi' as [B1 B2 B3 B4]. assert (Hfl : forall x, lexer (fill_inactive_gap true (pos d) x) = lexer x /\ pos (fill_inactive_gap true (pos d) x) = pos x
             /\ eof_done (fill_inactive_gap true (pos d) x) = eof_done x /\ line_directives (fill_inactive_gap true (pos d) x) = line_directives x
             /\ line_scan_offset (fill_inactive_gap true (pos d) x) = line_scan_offset x /\ line_scan_line (fill_inactive_gap true (pos d) x) = line_scan_line x)
             by (intros x; unfold fill_inactive_gap; by destruct (true && _)%bool).
           destruct (Hfl d1) as (F1 & F2 & F3 & F4 & F5 & F6). set (d2 := fill_inactive_gap true (pos d) d1) in *. clearbody d2. rewrite T2, Nat.max_r by lia.
           split_and!.
           ++ split; cbn [pos lexer covered_end push_pending set_covered_end]; [by rewrite F2|by rewrite F1, F2|rewrite F2; done|].
              eapply LInv_mono; [exact B4|cbn; rewrite F2; done|done..].
           ++ cbn [pos push_pending set_covered_end]. rewrite F2. done.
           ++ cbn [eof_done push_pending set_covered_end]. rewrite F3. done.
           ++ cbn [pending covered_end push_pending set_covered_end]. rewrite cspans_app. eapply tiles_app; [exact T1|]. destruct tok; cbn; split_and!; done.
           ++ cbn [pending push_pending set_covered_end]. rewrite length_app. cbn. lia.
           ++ cbn [stack push_pending set_covered_end]. rewrite T4. cbn. lia.
        -- intros e Ha. destruct (He e Ha) as (Ep & Eq & Es & Ef & El & Efr). rewrite Ep, Eq, Efound. cbn [mbind option_bind].
           rewrite (proj2 (Nat.leb_gt _ _)) by done. rewrite Es, Ea.
           rewrite (E e) by done. cbn [mbind option_bind]. eexists. split; [done|]. right. eexists _, _. split; [done|].
           destruct (token_agree d e d1 _ tok (pos d) q st fs Ha eq_refl eq_refl Hp) as [Hcore Hnm]. split_and!; [by cbn|exact Hnm|exact Hcore].
      * destruct (advance_inv d Hi Hlt) as [Hadv Hi']. eexists. split; [done|]. split.
        -- left. split_and!; [done|done|done| | |]; cbn; rewrite ?Hp; cbn; lia.
        -- intros e Ha. destruct (He e Ha) as (Ep & Eq & Es & _). rewrite Ep, Eq, Efound. cbn [mbind option_bind].
           rewrite (proj2 (Nat.leb_gt _ _)) by done. rewrite Es, Ea. eexists. split; [done|]. left. eexists. split; [done|].
           apply agree_invalidate. unfold advance_to_next_line_start. rewrite Eq. by apply agree_set.
Qed.

(** ** Draining *)

Lemma Inv_pending its d : Inv d -> Inv (set_pending its d).
Proof. intros [H1 H2 H3 H4]. split; [done..|]. by eapply LInv_mono. Qed.

Lemma agree_pending d e : agree d e -> agree (set_pending [] d) (set_pending [] e).
Proof. intros [Hc _]. by split. Qed.

Lemma nonmarkers_length l : length (nonmarkers l) <= length l.
Proof. unfold nonmarkers. induction l as [|x l IH]; cbn; [done|]. destruct (negb _); cbn; lia. Qed.

Lemma agree_budget d e : agree d e -> budget source e <= budget source d.
Proof.
  intros Ha. destruct (agree_fields _ _ Ha) as (E1 & E2 & E3 & _ & _ & _ & _ & _ & _ & E4). unfold budget. rewrite E1, E2, E3, E4.
  pose proof (nonmarkers_length (pending d)). lia.
Qed.

(** The end of a run in both modes. *)
Definition ends_well (d : DriverCore) (l : list CoreItem) (d' : DriverCore) : Prop :=
  emits true d l d' /\ tiles (covered_end d) (cspans l) len /\ LInv d' /\ pos d' = len
  /\ forall e, agree d e -> exists e', emits false e (nonmarkers l) e' /\ core d' = core e'.

Lemma ends_continue d d1 l d' : pending d = [] -> turn source symbols true d = Some (Continue d1) -> budget source d1 < budget source d ->
  (forall e, agree d e -> exists t', turn source symbols false e = Some t' /\ corresponds d (Continue d1) e t') ->
  tiles (covered_end d) (cspans (pending d1)) (covered_end d1) ->
  ends_well (set_pending [] d1) l d' -> ends_well d (pending d1 ++ l) d'.
Proof.
  intros Hp Ht Hb Hcor Htile (He & Htl & Hli & Hpos & Hs). split_and!.
  - eapply emits_continue; [done..|]. by apply emits_pending.
  - rewrite cspans_app. by eapply tiles_app.
  - done.
  - done.
  - intros e Ha. destruct (Hcor e Ha) as (t' & Et & Hc).
    assert (Hpe : pending e = []) by (destruct (agree_fields _ _ Ha) as (_ & _ & _ & _ & _ & _ & _ & _ & _ & ->); by rewrite Hp).
    assert (Hbe : budget source d = budget source e).
    { destruct (agree_fields _ _ Ha) as (E1 & E2 & E3 & _). unfold budget. by rewrite E1, E2, E3, Hp, Hpe. }
    rewrite nonmarkers_app. destruct Hc as [(e1 & -> & Ha1)|(it & e1 & -> & Hp1 & Hn & Hcore)].
    + destruct (Hs (set_pending [] e1)) as (e' & He' & Hcore); [by apply agree_pending|]. exists e'. split; [|done].
      eapply emits_continue; [done|pose proof (agree_budget _ _ Ha1); lia|]. destruct Ha1 as [_ ->]. by apply emits_pending.
    + assert (E1 : set_pending [] e1 = e1) by (destruct e1; cbn in Hp1; by subst).
      destruct (Hs e1) as (e' & He' & Hce); [split; [exact Hcore|by rewrite Hp1]|]. exists e'. split; [|done]. rewrite Hn. cbn [app].
      eapply emits_yield; [done| |done]. rewrite <- Hbe. eapply Nat.le_lt_trans; [|exact Hb].
      assert (Hf : pos e1 = pos d1 /\ stack e1 = stack d1 /\ eof_done e1 = eof_done d1)
        by (by destruct (agree_fields (set_pending [] d1) (set_pending [] e1)) as (? & ? & ? & _); [by split|]).
      destruct Hf as (F1 & F2 & F3). unfold budget. rewrite F1, F2, F3, Hp1. cbn [length]. lia.
Qed.

Lemma run_ok n : forall d, budget source d <= n -> Inv d -> pending d = [] ->
  (eof_done d = true -> covered_end d = len) -> exists l d', ends_well d l d'.
Proof using HL.
  induction n as [|n IH]; intros d Hn Hi Hp Heof; [unfold budget in Hn; lia|].
  destruct (turn_both d Hi Hp) as (t & Et & Ht & Hcor). destruct t as [it d1|d1|d1]; [done| |].
  - assert (Hstep : budget source d1 < budget source d /\ Inv d1 /\ tiles (covered_end d) (cspans (pending d1)) (covered_end d1)
      /\ (eof_done d1 = true -> covered_end d1 = len)).
    { destruct Ht as [W|(-> & Hpos & He)].
      - split_and!; [by apply went_budget|apply W|apply W|]. destruct W as (W1 & W2 & W3 & _). rewrite W3. intros E. specialize (Heof E).
        destruct Hi as [_ _ Hc _], W1 as [Hb _ _ _]. apply bumps_le in Hb. lia.
      - destruct (finish_source_full d Hi Hp Hpos He) as (F1 & F2 & F3 & F4 & F5 & F6 & _). rewrite F2. done. }
    destruct Hstep as (Hb & Hi1 & Htile & He1).
    destruct (IH (set_pending [] d1)) as (l & d' & Hend); [|by apply Inv_pending|done|done|].
    { unfold budget in *. cbn [pos pending stack eof_done set_pending length]. lia. }
    exists (pending d1 ++ l), d'. by eapply ends_continue.
  - destruct Ht as (-> & Hpos & He). exists [], d. split_and!; [by constructor|by apply Heof|by destruct Hi|done|].
    intros e Ha. destruct (Hcor e Ha) as (t' & Et' & ->). exists e. split; [by constructor|by destruct Ha].
Qed.

Lemma Inv_new : Inv DriverCore_new.
Proof.
  split; cbn; [by exists [], source|done|done|]. split; cbn; [|done|constructor|done|done].
  exists [], source. split_and!; try done. by intros [? _].
Qed.

Lemma drained : exists l d', ends_well DriverCore_new l d'.
Proof using HL. by apply (run_ok (budget source DriverCore_new)); [|apply Inv_new| |]. Qed.

End run.

(** ** What the iterators yield *)

Section iterators.
Context {L : Logos} {HL : LogosLaws L} (source : str) (symbols : list str).

Lemma unwrap_nonmarkers l : exists l', mapM unwrap_item (nonmarkers l) = Some l'
  /\ Forall2 (fun it it' => it'.2 = it.2 /\ match it.1, it'.1 with Ok (Lexed t), Ok t' => t' = t | Err e, Err e' => e' = e | _, _ => False end) (nonmarkers l) l'.
Proof.
  induction l as [|it l (l' & E & H)]; [by exists []|]. cbn [nonmarkers List.filter]. destruct (is_marker it) eqn:Em; [by exists l'|]. cbn [negb].
  fold (nonmarkers l). destruct it as [[t|e] sp]; [destruct t; try done|]; cbn [mapM unwrap_item mbind option_bind]; rewrite E; cbn; eexists; split; try done; by constructor.
Qed.

Lemma iterators_drain : exists l d items e, lex_with_symbols_full_trivia source symbols = Some (l, d)
  /\ lex_with_symbols source symbols = Some (items, e) /\ mapM unwrap_item (nonmarkers l) = Some items /\ core d = core e
  /\ tiles 0 (cspans l) (blen source) /\ LInv source d.
Proof using HL.
  destruct (drained source symbols) as (l & d & He & Ht & Hli & _ & Hs).
  destruct (Hs DriverCore_new) as (e & He' & Hc); [done|]. destruct (unwrap_nonmarkers l) as (items & Eu & _). exists l, d, items, e.
  unfold lex_with_symbols_full_trivia, lex_with_symbols. rewrite (emits_collect _ _ _ _ _ _ _ He), (emits_collect _ _ _ _ _ _ _ He') by done.
  cbn [mbind option_bind]. rewrite Eu. done.
Qed.

(** C12: Both iterators come to their end on every source, under every set of
    symbols and for every lexer that keeps its laws: unterminated literals,
    malformed directives and unclosed chains included, no slice, index,
    [expect] or [unreachable!] panics and the loop of [next] always makes
    progress, within six turns for each byte. *)
Theorem driver_drains :
  (exists r, lex_with_symbols source symbols = Some r) /\ (exists r, lex_with_symbols_full_trivia source symbols = Some r).
Proof using HL. destruct iterators_drain as (l & d & items & e & E1 & E2 & _). eauto. Qed.

(** C9: The full-trivia stream is lossless: the spans of its tokens, lexer
    errors, directive markers and inactive regions follow each other from the
    start of the source to its end, none empty. *)
Theorem full_trivia_tiles : exists items d, lex_with_symbols_full_trivia source symbols = Some (items, d) /\ tiles 0 (cspans items) (blen source).
Proof using HL. destruct iterators_drain as (l & d & items & e & E1 & _ & _ & _ & Ht & _). eauto. Qed.

(** C11: The two iterators agree: the swallowing one yields exactly the tokens
    and errors of the full-trivia one, in order, without its directive markers
    and inactive regions; and both end with the same [#line] and [#elif]
    records. *)
Theorem swallow_is_filtered : exists items d items' e, lex_with_symbols_full_trivia source symbols = Some (items, d)
  /\ lex_with_symbols source symbols = Some (items', e) /\ mapM unwrap_item (nonmarkers items) = Some items'
  /\ line_directives e = line_directives d /\ elif_directives e = elif_directives d.
Proof using HL.
  destruct iterators_drain as (l & d & items & e & E1 & E2 & E3 & Hc & _). exists l, d, items, e. split_and!; [done..| |].
  - change (line_directives (core e) = line_directives (core d)). by rewrite Hc.
  - change (elif_directives (core e) = elif_directives (core d)). by rewrite Hc.
Qed.

Lemma count_position_break n s l c : length s < n -> last s = Some LF \/ last s = Some CR -> character (count_position s l c) = 0%N.
Proof.
  revert s l c. induction n as [|n IH]; intros s l c Hn Hl; [lia|]. destruct s as [|x s]; [by destruct Hl|]. cbn [count_position length] in *.
  assert (Hnext : forall s l, last s = Some LF \/ last s = Some CR \/ s = [] -> length s < n -> character (count_position s l 0) = 0%N).
  { intros s0 l0 [H|[H| ->]] Hlen; [apply IH; auto..|done]. }
  destruct s as [|y s]; [cbn in Hl; destruct Hl as [[= ->]|[= ->]]; done|].
  destruct (N.eqb x CR).
  - destruct (N.eqb y LF); [|apply Hnext; [tauto|cbn in *; lia]]. apply Hnext; [|cbn in *; lia]. destruct s; [by right; right|]. cbn in Hl |- *. tauto.
  - destruct (N.eqb x LF); [apply Hnext; [tauto|cbn in *; lia]|]. apply IH; [cbn in *; lia|exact Hl].
Qed.

(** The [#line] directives that draining records are in source order, so
    that the store can be searched.  Each stands at an offset where the
    recogniser finds a [#line] directive with the recorded number and file, and
    its recorded line is the line which the editor shows for that offset, at
    column 0: the running count of lines agrees with the position translation. *)
Theorem line_directives_located : Forall (fun c => is_scalar c = true) source ->
  exists items d, lex_with_symbols source symbols = Some (items, d) /\ ascending (line_directives d)
    /\ Forall (fun x => exists p q,
         recognise_directive source p = Some (Some (Ok {| directive := D_Line (virtual_line x) (file x); range := (p, q) |}))
         /\ offset_to_position source p = Some {| line := generated_line x; character := 0 |}) (line_directives d).
Proof using HL.
  intros Hsc. destruct iterators_drain as (l & d & items & e & _ & E2 & _ & Hc & _ & Hli). exists items, e.
  assert (El : line_directives e = line_directives d) by (change (line_directives (core e) = line_directives (core d)); by rewrite Hc).
  rewrite El. destruct Hli as [_ _ Hloc Hasc _]. split_and!; [done..|]. eapply Forall_impl; [exact Hloc|].
  intros x (pre & rest & q & Esrc & Hb & Hw & Eg & Hrec). exists (blen pre), q. split; [done|].
  rewrite Esrc in Hsc |- *. unfold offset_to_position. rewrite snap_exact by done. rewrite split_boundary, (proj1 (scalar_split pre rest Hsc)). cbn. f_equal.
  rewrite Eg. destruct (count_position pre 0 0) as [ln ch] eqn:Ecp. f_equal.
  - pose proof (count_breaks_position (S (length pre)) pre 0 0 ltac:(lia)) as H. rewrite Ecp in H. cbn in H. lia.
  - destruct Hb as [->|Hb]; [cbn in Ecp; congruence|]. pose proof (count_position_break (S (length pre)) pre 0 0 ltac:(lia) Hb) as H. by rewrite Ecp in H.
Qed.
End iterators.

(** ** Witnesses, over the one-character lexer *)

Definition driver_wit_src : str := #"#if A" ++ [LF] ++ #"#line 7" ++ [LF] ++ #"#endif" ++ [LF] ++ #"x".

Lemma driver_drains_witness : exists r, lex_with_symbols (L := char_logos) driver_wit_src [#"A"] = Some r.
Proof. apply (driver_drains (L := char_logos) (HL := char_logos_laws) driver_wit_src [#"A"]). Defined.

Lemma full_trivia_tiles_witness :
  exists items d, lex_with_symbols_full_trivia (L := char_logos) driver_wit_src [] = Some (items, d) /\ tiles 0 (cspans items) 22.
Proof. apply (full_trivia_tiles (L := char_logos) (HL := char_logos_laws) driver_wit_src []). Defined.

Lemma swallow_is_filtered_witness : exists items d, lex_with_symbols_full_trivia (L := char_logos) driver_wit_src [#"A"] = Some (items, d).
Proof.
  destruct (swallow_is_filtered (L := char_logos) (HL := char_logos_laws) driver_wit_src [#"A"]) as (items & d & _ & _ & E & _). exists items, d. exact E.
Defined.

Lemma line_directives_located_witness : exists items d, lex_with_symbols (L := char_logos) driver_wit_src [#"A"] = Some (items, d).
Proof.
  destruct (line_directives_located (L := char_logos) (HL := char_logos_laws) driver_wit_src [#"A"]) as (items & d & E & _); [by repeat constructor|].
  exists items, d. exact E.
Defined.

Definition driver_ex_src : str := #"#if A" ++ [LF] ++ #"a" ++ [LF] ++ #"#else" ++ [LF] ++ #"b" ++ [LF] ++ #"#endif".

Example driver_ex :
  fmap (map snd ∘ fst) (lex_with_symbols (L := char_logos) driver_ex_src [#"A"]) = Some [(5, 6); (6, 7); (7, 8)]
  /\ fmap (map snd ∘ fst) (lex_with_symbols_full_trivia (L := char_logos) driver_ex_src [])
     = Some [(0, 5); (5, 8); (8, 13); (13, 14); (14, 15); (15, 16); (16, 22)].
Proof. vm_compute. auto. Qed.
