(* ===== verification/Cursor.v ===== *)
(** * The byte cursor of the assembly reader ([crates/assembly/src/reader/cursor.rs])

    A forward-only reader over bytes, with little-endian integers and the
    compressed integers of ECMA-335 II.23.2.  A read returns the value and the
    advanced cursor, or [None], which leaves the caller's cursor as it was.
    Bytes and integers are [Z] in their range; positions are [Z] below
    [usize_bound].

    The theorems: reads stay inside the data; little-endian and compressed
    integers, unsigned and signed, are read back from their encodings; and
    every value read fits its type. *)

From S2P Require Import Prelude.
Local Open Scope Z_scope.

Definition usize_bound : Z := 18446744073709551616.

Record Cursor := { data : list Z; pos : Z }.

Definition Cursor_new (d : list Z) : Cursor := {| data := d; pos := 0 |}.
Definition Cursor_at (d : list Z) (p : Z) : Cursor := {| data := d; pos := p |}.
Definition position (c : Cursor) : Z := pos c.

Definition checked_add (a b : Z) : option Z := if a + b <? usize_bound then Some (a + b) else None.

(** [data.get(i)] and [data.get(i..j)]. *)
Definition get (d : list Z) (i : Z) : option Z := if 0 <=? i then d !! Z.to_nat i else None.
Definition get_range (d : list Z) (i j : Z) : option (list Z) :=
  if (0 <=? i) && (i <=? j) && (j <=? Z.of_nat (length d))
  then Some (take (Z.to_nat (j - i)) (drop (Z.to_nat i) d)) else None.

Definition Cursor_take (c : Cursor) (n : Z) : option (list Z * Cursor) :=
  end_ ← checked_add (pos c) n;
  slice ← get_range (data c) (pos c) end_;
  Some (slice, {| data := data c; pos := end_ |}).

Fixpoint from_le_bytes (bs : list Z) : Z :=
  match bs with [] => 0 | b :: bs' => b + 256 * from_le_bytes bs' end.

Definition read_le (n : Z) (c : Cursor) : option (Z * Cursor) :=
  '(bs, c') ← Cursor_take c n; Some (from_le_bytes bs, c').
Definition read_u8 : Cursor -> option (Z * Cursor) := read_le 1.
Definition read_u16 : Cursor -> option (Z * Cursor) := read_le 2.
Definition read_u32 : Cursor -> option (Z * Cursor) := read_le 4.
Definition read_u64 : Cursor -> option (Z * Cursor) := read_le 8.
Definition peek_u8 (c : Cursor) : option Z := get (data c) (pos c).
Definition read_bytes (c : Cursor) (n : Z) : option (list Z * Cursor) := Cursor_take c n.
Definition skip (c : Cursor) (n : Z) : option (unit * Cursor) := '(_, c') ← Cursor_take c n; Some (tt, c').

(** [read_compressed_u32], the free function: the value and the bytes it took. *)
Definition read_compressed_u32 (d : list Z) : option (Z * Z) :=
  b0 ← get d 0;
  if Z.land b0 128 =? 0 then Some (b0, 1)
  else if Z.land b0 192 =? 128 then
    b1 ← get d 1;
    Some (Z.lor (Z.shiftl (Z.land b0 63) 8) b1, 2)
  else if Z.land b0 224 =? 192 then
    b1 ← get d 1; b2 ← get d 2; b3 ← get d 3;
    Some (Z.lor (Z.lor (Z.lor (Z.shiftl (Z.land b0 31) 24) (Z.shiftl b1 16)) (Z.shiftl b2 8)) b3, 4)
  else None.

Definition Cursor_read_compressed_u32 (c : Cursor) : option (Z * Cursor) :=
  rest ← get_range (data c) (pos c) (Z.of_nat (length (data c)));
  '(value, consumed) ← read_compressed_u32 rest;
  Some (value, {| data := data c; pos := pos c + consumed |}).

Definition read_compressed_i32 (c : Cursor) : option (Z * Cursor) :=
  b0 ← get (data c) (pos c);
  '(raw, consumed, field_bits) ←
    (if Z.land b0 128 =? 0 then Some (b0, 1, 7)
     else if Z.land b0 192 =? 128 then
       b1 ← get (data c) (pos c + 1);
       Some (Z.lor (Z.shiftl (Z.land b0 63) 8) b1, 2, 14)
     else if Z.land b0 224 =? 192 then
       b1 ← get (data c) (pos c + 1); b2 ← get (data c) (pos c + 2); b3 ← get (data c) (pos c + 3);
       Some (Z.lor (Z.lor (Z.lor (Z.shiftl (Z.land b0 31) 24) (Z.shiftl b1 16)) (Z.shiftl b2 8)) b3, 4, 29)
     else None);
  let c' := {| data := data c; pos := pos c + consumed |} in
  let magnitude := Z.shiftr raw 1 in
  let value :=
    if Z.land raw 1 =? 0 then magnitude
    else Z.lor magnitude (Z.lnot (Z.shiftl 1 (field_bits - 1) - 1)) in
  Some (value, c').

(** [compress_u32]; the last branch is its panic. *)
Definition compress_u32 (n : Z) : option (list Z) :=
  if n <=? 127 then Some [n]
  else if n <=? 16383 then Some [Z.lor 128 (Z.shiftr n 8 mod 256); Z.land n 255]
  else if n <=? 536870911 then
    Some [Z.lor 192 (Z.shiftr n 24 mod 256); Z.shiftr n 16 mod 256; Z.shiftr n 8 mod 256; Z.land n 255]
  else None.

Example compressed_ex : read_compressed_u32 [0xC0; 0; 0x40; 0; 9] = Some (0x4000, 4)
  /\ fst <$> read_compressed_i32 (Cursor_new [0x7F]) = Some (-1)
  /\ fst <$> read_compressed_i32 (Cursor_new [0xC0; 0; 0; 1]) = Some (-268435456).
Proof. vm_compute. auto. Qed.

(** ** Bits *)

Lemma lor_shift a b n : 0 <= n -> 0 <= b < 2 ^ n -> Z.lor (Z.shiftl a n) b = a * 2 ^ n + b.
Proof.
  intros Hn Hb. rewrite <- Z.lxor_lor, <- Z.add_nocarry_lxor; [by rewrite Z.shiftl_mul_pow2|..];
    (apply Z.bits_inj'; intros m Hm; rewrite Z.land_spec, Z.bits_0; destruct (Z.lt_ge_cases m n) as [Hlt|Hge];
     [by rewrite Z.shiftl_spec_low|]; rewrite <- (Z.mod_small b (2 ^ n)) by done;
     rewrite Z.mod_pow2_bits_high by lia; apply andb_false_r).
Qed.

Definition byte (b : Z) : Prop := 0 <= b < 256.

(** A property of bytes, checked on each. *)
Definition all_bytes : list Z := map Z.of_nat (seq 0 256).
Lemma check_bytes (f : Z -> bool) : forallb f all_bytes = true -> forall b, byte b -> f b = true.
Proof.
  intros H b Hb. rewrite forallb_forall in H. apply H. unfold all_bytes. apply in_map_iff.
  exists (Z.to_nat b). rewrite in_seq. unfold byte in Hb. lia.
Qed.

Lemma lead_byte b : byte b ->
  (Z.land b 128 =? 0) = (b <? 128) /\ (Z.land b 192 =? 128) = ((128 <=? b) && (b <? 192))%bool
  /\ (Z.land b 224 =? 192) = ((192 <=? b) && (b <? 224))%bool /\ Z.land b 63 = b mod 64 /\ Z.land b 31 = b mod 32.
Proof.
  intros Hb. pose proof (check_bytes (fun b => eqb (Z.land b 128 =? 0) (b <? 128)
    && eqb (Z.land b 192 =? 128) ((128 <=? b) && (b <? 192))
    && eqb (Z.land b 224 =? 192) ((192 <=? b) && (b <? 224))
    && (Z.land b 63 =? b mod 64) && (Z.land b 31 =? b mod 32))%bool ltac:(vm_compute; reflexivity) b Hb) as H.
  cbv beta in H. rewrite !andb_true_iff, !eqb_true_iff, !Z.eqb_eq in H. destruct H as ((((H1 & H2) & H3) & H4) & H5). done.
Qed.

(** ** The three widths *)

(** A field of 7, 14 or 29 bits, packed in 1, 2 or 4 bytes. *)
Inductive width := W1 | W2 | W4.
Definition bytes_wide (w : width) : Z := match w with W1 => 1 | W2 => 2 | W4 => 4 end.
Definition bits_wide (w : width) : Z := match w with W1 => 7 | W2 => 14 | W4 => 29 end.
Definition pack (w : width) (raw : Z) : list Z :=
  match w with
  | W1 => [raw]
  | W2 => [128 + raw / 256; raw mod 256]
  | W4 => [192 + raw / 16777216; raw / 65536 mod 256; raw / 256 mod 256; raw mod 256]
  end.

(** Quotient and remainder as plain unknowns, for [lia]. *)
Lemma quot_rem n d : 0 < d -> exists q r, n / d = q /\ n mod d = r /\ n = d * q + r /\ 0 <= r < d.
Proof.
  intros Hd. exists (n / d), (n mod d). split_and!; [done..| |by apply Z.mod_pos_bound|by apply Z.mod_pos_bound].
  apply Z.div_mod. lia.
Qed.

Ltac quot n d := let q := fresh "q" in let r := fresh "r" in let E1 := fresh in let E2 := fresh in
  destruct (quot_rem n d) as (q & r & E1 & E2 & ? & ? & ?); [lia|]; rewrite ?E1, ?E2 in *; clear E1 E2.

(** The lead byte of each width, and the value the shifts put together. *)
Lemma pack_lead w raw : 0 <= raw < 2 ^ bits_wide w -> Forall byte (pack w raw) /\
  match w with
  | W1 => raw < 128
  | W2 => let b0 := 128 + raw / 256 in 128 <= b0 < 192 /\ Z.lor (Z.shiftl (b0 mod 64) 8) (raw mod 256) = raw
  | W4 => let b0 := 192 + raw / 16777216 in 192 <= b0 < 224
      /\ Z.lor (Z.lor (Z.lor (Z.shiftl (b0 mod 32) 24) (Z.shiftl (raw / 65536 mod 256) 16))
           (Z.shiftl (raw / 256 mod 256) 8)) (raw mod 256) = raw
  end.
Proof.
  intros Hr. destruct w; cbn [bits_wide] in Hr; cbn [pack]; unfold byte;
    [change (2 ^ 7) with 128 in Hr|change (2 ^ 14) with 16384 in Hr|change (2 ^ 29) with 536870912 in Hr].
  - split; [repeat constructor; lia|lia].
  - quot raw 256. assert (Hmod : (128 + q) mod 64 = q).
    { rewrite <- (Z.mod_add (128 + q) (-2)) by lia. rewrite Z.mod_small; lia. }
    split; [repeat constructor; lia|]. cbv zeta. split; [lia|]. rewrite Hmod, lor_shift by (simpl; lia). simpl. lia.
  - assert (E16 : raw / 65536 = raw / 256 / 256) by (by rewrite Z.div_div by lia).
    assert (E24 : raw / 16777216 = raw / 256 / 256 / 256) by (by rewrite !Z.div_div by lia). rewrite E16, E24. clear E16 E24.
    quot raw 256. quot q 256. quot q0 256. assert (Hmod : (192 + q1) mod 32 = q1).
    { rewrite <- (Z.mod_add (192 + q1) (-6)) by lia. rewrite Z.mod_small; lia. }
    split; [repeat constructor; lia|]. cbv zeta. split; [lia|]. rewrite Hmod.
    assert (E1 : Z.lor (Z.shiftl q1 24) (Z.shiftl r1 16) = Z.shiftl (q1 * 256 + r1) 16)
      by (rewrite lor_shift; rewrite ?Z.shiftl_mul_pow2 by lia; simpl; lia).
    assert (E2 : Z.lor (Z.shiftl (q1 * 256 + r1) 16) (Z.shiftl r0 8) = Z.shiftl ((q1 * 256 + r1) * 256 + r0) 8)
      by (rewrite lor_shift; rewrite ?Z.shiftl_mul_pow2 by lia; simpl; lia).
    rewrite E1, E2, lor_shift by (simpl; lia). simpl. lia.
Qed.

Lemma get_at pre l i : get (pre ++ l) (Z.of_nat (length pre) + Z.of_nat i) = l !! i.
Proof.
  unfold get. rewrite (proj2 (Z.leb_le _ _)) by lia. rewrite lookup_app_r by lia. f_equal. lia.
Qed.

Lemma lead_tests w raw : 0 <= raw < 2 ^ bits_wide w ->
  match w with
  | W1 => Z.land raw 128 =? 0 = true
  | W2 => let b0 := 128 + raw / 256 in
      (Z.land b0 128 =? 0) = false /\ (Z.land b0 192 =? 128) = true
      /\ Z.lor (Z.shiftl (Z.land b0 63) 8) (raw mod 256) = raw
  | W4 => let b0 := 192 + raw / 16777216 in
      (Z.land b0 128 =? 0) = false /\ (Z.land b0 192 =? 128) = false /\ (Z.land b0 224 =? 192) = true
      /\ Z.lor (Z.lor (Z.lor (Z.shiftl (Z.land b0 31) 24) (Z.shiftl (raw / 65536 mod 256) 16))
           (Z.shiftl (raw / 256 mod 256) 8)) (raw mod 256) = raw
  end.
Proof.
  intros Hr. destruct (pack_lead w raw Hr) as [Hb Hw]. destruct w; cbv zeta in *.
  - apply Forall_cons in Hb as [Hb _]. destruct (lead_byte raw Hb) as (-> & _). by apply Z.ltb_lt.
  - apply Forall_cons in Hb as [Hb _]. destruct (lead_byte _ Hb) as (-> & -> & _ & -> & _). destruct Hw as [Hw ->].
    split_and!; [apply Z.ltb_ge; lia| |done]. rewrite (proj2 (Z.leb_le _ _)), (proj2 (Z.ltb_lt _ _)) by lia. done.
  - apply Forall_cons in Hb as [Hb _]. destruct (lead_byte _ Hb) as (-> & -> & -> & _ & ->). destruct Hw as [Hw ->].
    split_and!; [apply Z.ltb_ge; lia| | |done].
    + rewrite (proj2 (Z.ltb_ge _ 192)) by lia. apply andb_false_r.
    + rewrite (proj2 (Z.leb_le _ _)), (proj2 (Z.ltb_lt _ _)) by lia. done.
Qed.

Lemma read_packed_u32 w raw rest : 0 <= raw < 2 ^ bits_wide w ->
  read_compressed_u32 (pack w raw ++ rest) = Some (raw, bytes_wide w).
Proof.
  intros Hr. pose proof (lead_tests w raw Hr) as Ht. unfold read_compressed_u32. destruct w.
  - change (get (pack W1 raw ++ rest) 0) with (Some raw). cbn [mbind option_bind]. by rewrite Ht.
  - change (get (pack W2 raw ++ rest) 0) with (Some (128 + raw / 256)).
    change (get (pack W2 raw ++ rest) 1) with (Some (raw mod 256)). cbn [mbind option_bind].
    destruct Ht as (-> & -> & E). by rewrite E.
  - change (get (pack W4 raw ++ rest) 0) with (Some (192 + raw / 16777216)).
    change (get (pack W4 raw ++ rest) 1) with (Some (raw / 65536 mod 256)).
    change (get (pack W4 raw ++ rest) 2) with (Some (raw / 256 mod 256)).
    change (get (pack W4 raw ++ rest) 3) with (Some (raw mod 256)). cbn [mbind option_bind].
    destruct Ht as (-> & -> & -> & E). by rewrite E.
Qed.

(** The rotation of a signed value in a field of [bits] bits: the sign last. *)
Definition rotate (bits v : Z) : Z := 2 * (v mod 2 ^ (bits - 1)) + (if v <? 0 then 1 else 0).

Lemma rotate_range bits v : 1 <= bits -> 0 <= rotate bits v < 2 ^ bits.
Proof.
  intros Hb. unfold rotate. assert (Hp : 2 ^ bits = 2 * 2 ^ (bits - 1)) by (rewrite <- Z.pow_succ_r by lia; f_equal; lia).
  pose proof (Z.mod_pos_bound v (2 ^ (bits - 1)) ltac:(apply Z.pow_pos_nonneg; lia)). destruct (v <? 0); lia.
Qed.

Definition unrotate (bits raw : Z) : Z :=
  if Z.land raw 1 =? 0 then Z.shiftr raw 1 else Z.lor (Z.shiftr raw 1) (Z.lnot (Z.shiftl 1 (bits - 1) - 1)).

Lemma unrotate_rotate bits v : 1 <= bits -> - 2 ^ (bits - 1) <= v < 2 ^ (bits - 1) -> unrotate bits (rotate bits v) = v.
Proof.
  intros Hb Hv. unfold unrotate, rotate. set (m := v mod 2 ^ (bits - 1)).
  assert (Hp : 0 < 2 ^ (bits - 1)) by (apply Z.pow_pos_nonneg; lia).
  assert (Hm : 0 <= m < 2 ^ (bits - 1)) by (by apply Z.mod_pos_bound).
  assert (Hl : forall x, Z.land x 1 = x mod 2) by (intros x; change 1 with (Z.ones 1); by rewrite Z.land_ones by lia).
  rewrite Hl. rewrite !Z.shiftr_div_pow2 by lia. change (2 ^ 1) with 2.
  destruct (Z.ltb_spec v 0) as [Hneg|Hpos].
  - rewrite (Z.add_comm (2 * m)), (Z.mul_comm 2), Z.mod_add, Z.div_add by lia. change (1 mod 2 =? 0) with false.
    change (1 / 2 + m) with (0 + m). rewrite Z.add_0_l.
    assert (Z.lnot (Z.shiftl 1 (bits - 1) - 1) = Z.shiftl (-1) (bits - 1)) as ->
      by (unfold Z.lnot; rewrite !Z.shiftl_mul_pow2 by lia; lia).
    rewrite Z.lor_comm, lor_shift by lia. assert (m = v + 2 ^ (bits - 1)); [|lia].
    unfold m. rewrite <- (Z.mod_add v 1) by lia. rewrite Z.mod_small; lia.
  - rewrite Z.add_0_r, (Z.mul_comm 2), Z.mod_mul, Z.div_mul by lia. cbn. unfold m. apply Z.mod_small. lia.
Qed.

Lemma read_packed_i32 w raw pre rest : 0 <= raw < 2 ^ bits_wide w ->
  read_compressed_i32 (Cursor_at (pre ++ pack w raw ++ rest) (Z.of_nat (length pre)))
  = Some (unrotate (bits_wide w) raw,
          Cursor_at (pre ++ pack w raw ++ rest) (Z.of_nat (length pre) + bytes_wide w)).
Proof.
  intros Hr. pose proof (lead_tests w raw Hr) as Ht. unfold read_compressed_i32, Cursor_at. cbn [data pos].
  set (d := pre ++ pack w raw ++ rest). set (n := Z.of_nat (length pre)).
  assert (Hg : forall i, get d (n + Z.of_nat i) = (pack w raw ++ rest) !! i) by (intros i; apply get_at).
  pose proof (Hg 0%nat) as G0. pose proof (Hg 1%nat) as G1. pose proof (Hg 2%nat) as G2. pose proof (Hg 3%nat) as G3.
  change (n + Z.of_nat 0) with (n + 0) in G0. rewrite Z.add_0_r in G0. rewrite G0.
  change (Z.of_nat 1) with 1 in G1. change (Z.of_nat 2) with 2 in G2. change (Z.of_nat 3) with 3 in G3.
  destruct w; cbn [pack app lookup list_lookup mbind option_bind] in *.
  - rewrite Ht. reflexivity.
  - destruct Ht as (-> & -> & E). rewrite G1. cbn [mbind option_bind]. rewrite E. reflexivity.
  - destruct Ht as (-> & -> & -> & E). rewrite G1, G2, G3. cbn [mbind option_bind]. rewrite E. reflexivity.
Qed.

Lemma land_255 x : Z.land x 255 = x mod 256.
Proof. change 255 with (Z.ones 8). by rewrite Z.land_ones by lia. Qed.

Lemma pack_bits2 n : 0 <= n < 16384 -> [Z.lor 128 (Z.shiftr n 8 mod 256); Z.land n 255] = pack W2 n.
Proof.
  intros Hn. rewrite Z.shiftr_div_pow2, land_255 by lia. change (2 ^ 8) with 256. cbn [pack].
  assert (0 <= n / 256 < 64) by (split; [apply Z.div_pos; lia|apply Z.div_lt_upper_bound; lia]).
  rewrite (Z.mod_small (n / 256)) by lia. f_equal. apply (lor_shift 1 _ 7); simpl; lia.
Qed.

Lemma pack_bits4 n : 0 <= n < 536870912 ->
  [Z.lor 192 (Z.shiftr n 24 mod 256); Z.shiftr n 16 mod 256; Z.shiftr n 8 mod 256; Z.land n 255] = pack W4 n.
Proof.
  intros Hn. rewrite !Z.shiftr_div_pow2, land_255 by lia.
  change (2 ^ 8) with 256. change (2 ^ 16) with 65536. change (2 ^ 24) with 16777216. cbn [pack].
  assert (0 <= n / 16777216 < 32) by (split; [apply Z.div_pos; lia|apply Z.div_lt_upper_bound; lia]).
  rewrite (Z.mod_small (n / 16777216)) by lia. f_equal. apply (lor_shift 3 _ 6); simpl; lia.
Qed.

Lemma compress_u32_pack n : 0 <= n < 536870912 -> exists w, compress_u32 n = Some (pack w n) /\ n < 2 ^ bits_wide w.
Proof.
  intros Hn. unfold compress_u32. destruct (Z.leb_spec n 127); [exists W1; split; [done|simpl; lia]|].
  destruct (Z.leb_spec n 16383); [exists W2; split; [f_equal; apply pack_bits2; lia|simpl; lia]|].
  destruct (Z.leb_spec n 536870911); [|lia]. exists W4. split; [f_equal; by apply pack_bits4|simpl; lia].
Qed.

(** Unsigned compressed integers round-trip: what the reference encoder
    writes for a value of at most 29 bits, followed by anything, is read back as
    that value, and the reader takes exactly the encoder's bytes. *)
Theorem compressed_u32_round_trip n rest : 0 <= n < 536870912 ->
  exists bs, compress_u32 n = Some bs /\ read_compressed_u32 (bs ++ rest) = Some (n, Z.of_nat (length bs)).
Proof.
  intros Hn. destruct (compress_u32_pack n Hn) as (w & -> & Hw). exists (pack w n). split; [done|].
  rewrite read_packed_u32 by lia. by destruct w.
Qed.

(** Signed compressed integers round-trip: a value that fits the signed field
    of a width (7, 14 or 29 bits), rotated so that its sign comes last and packed
    at any place of the data, is read back, and the cursor moves past its bytes. *)
Theorem compressed_i32_round_trip w v pre rest :
  - 2 ^ (bits_wide w - 1) <= v < 2 ^ (bits_wide w - 1) ->
  let d := pre ++ pack w (rotate (bits_wide w) v) ++ rest in
  read_compressed_i32 (Cursor_at d (Z.of_nat (length pre)))
  = Some (v, Cursor_at d (Z.of_nat (length pre) + bytes_wide w)).
Proof.
  intros Hv d. unfold d. assert (Hb : 1 <= bits_wide w) by (destruct w; simpl; lia).
  rewrite read_packed_i32 by (by apply rotate_range). by rewrite unrotate_rotate.
Qed.

Lemma compressed_u32_round_trip_witness : exists bs, compress_u32 536870911 = Some bs
  /\ read_compressed_u32 (bs ++ [7; 8]) = Some (536870911, Z.of_nat (length bs)).
Proof. apply (compressed_u32_round_trip 536870911 [7; 8]). lia. Defined.

Lemma compressed_i32_round_trip_witness :
  let d := [5; 6] ++ pack W2 (rotate (bits_wide W2) (-8192)) ++ [9] in
  read_compressed_i32 (Cursor_at d 2) = Some (-8192, Cursor_at d 4).
Proof. apply (compressed_i32_round_trip W2 (-8192) [5; 6] [9]). cbn. lia. Defined.

(** ** Bounds *)

Lemma get_some d i v : Forall byte d -> get d i = Some v -> byte v /\ 0 <= i < Z.of_nat (length d).
Proof.
  intros Hd H. unfold get in H. destruct (Z.leb_spec 0 i); [|done].
  split; [exact (Forall_lookup_1 _ _ _ _ Hd H)|]. apply lookup_lt_Some in H. lia.
Qed.

(** The value of a field, from any bytes. *)
Lemma field14_bounds b0 b1 : byte b0 -> byte b1 -> 0 <= Z.lor (Z.shiftl (Z.land b0 63) 8) b1 < 2 ^ 14.
Proof.
  intros H0 H1. destruct (lead_byte b0 H0) as (_ & _ & _ & -> & _). unfold byte in *.
  pose proof (Z.mod_pos_bound b0 64 ltac:(lia)). rewrite lor_shift by (simpl; lia). simpl. lia.
Qed.

Lemma field29_bounds b0 b1 b2 b3 : byte b0 -> byte b1 -> byte b2 -> byte b3 ->
  0 <= Z.lor (Z.lor (Z.lor (Z.shiftl (Z.land b0 31) 24) (Z.shiftl b1 16)) (Z.shiftl b2 8)) b3 < 2 ^ 29.
Proof.
  intros H0 H1 H2 H3. destruct (lead_byte b0 H0) as (_ & _ & _ & _ & ->). unfold byte in *.
  pose proof (Z.mod_pos_bound b0 32 ltac:(lia)). set (q := b0 mod 32) in *.
  assert (E1 : Z.lor (Z.shiftl q 24) (Z.shiftl b1 16) = Z.shiftl (q * 256 + b1) 16)
    by (rewrite lor_shift; rewrite ?Z.shiftl_mul_pow2 by lia; simpl; lia).
  assert (E2 : Z.lor (Z.shiftl (q * 256 + b1) 16) (Z.shiftl b2 8) = Z.shiftl ((q * 256 + b1) * 256 + b2) 8)
    by (rewrite lor_shift; rewrite ?Z.shiftl_mul_pow2 by lia; simpl; lia).
  rewrite E1, E2, lor_shift by (simpl; lia). simpl. lia.
Qed.

Lemma unrotate_bounds bits raw : 1 <= bits -> 0 <= raw < 2 ^ bits ->
  - 2 ^ (bits - 1) <= unrotate bits raw < 2 ^ (bits - 1).
Proof.
  intros Hb Hr. unfold unrotate. assert (Hp : 2 ^ bits = 2 * 2 ^ (bits - 1)) by (rewrite <- Z.pow_succ_r by lia; f_equal; lia).
  rewrite Z.shiftr_div_pow2 by lia. change (2 ^ 1) with 2.
  assert (Hm : 0 <= raw / 2 < 2 ^ (bits - 1)) by (split; [apply Z.div_pos; lia|apply Z.div_lt_upper_bound; lia]).
  destruct (Z.land raw 1 =? 0); [lia|].
  assert (Z.lnot (Z.shiftl 1 (bits - 1) - 1) = Z.shiftl (-1) (bits - 1)) as ->
    by (unfold Z.lnot; rewrite !Z.shiftl_mul_pow2 by lia; lia).
  rewrite Z.lor_comm, lor_shift by lia. lia.
Qed.

Lemma compressed_u32_bounds d v k : Forall byte d -> read_compressed_u32 d = Some (v, k) ->
  exists w, k = bytes_wide w /\ 0 <= v < 2 ^ bits_wide w /\ k <= Z.of_nat (length d).
Proof.
  intros Hd H. unfold read_compressed_u32 in H.
  destruct (get d 0) as [b0|] eqn:G0; [|done]. apply get_some in G0 as [B0 L0]; [|done]. cbn [mbind option_bind] in H.
  destruct (Z.land b0 128 =? 0) eqn:T0.
  { simplify_eq. exists W1. destruct (lead_byte v B0) as (E & _). rewrite T0 in E. symmetry in E. apply Z.ltb_lt in E.
    unfold byte in B0. simpl. lia. }
  destruct (Z.land b0 192 =? 128).
  { destruct (get d 1) as [b1|] eqn:G1; [|done]. apply get_some in G1 as [B1 L1]; [|done]. cbn [mbind option_bind] in H.
    simplify_eq. exists W2. split_and!; [done|by apply field14_bounds..|simpl; lia]. }
  destruct (Z.land b0 224 =? 192); [|done].
  destruct (get d 1) as [b1|] eqn:G1; [|done]. apply get_some in G1 as [B1 L1]; [|done].
  destruct (get d 2) as [b2|] eqn:G2; [|done]. apply get_some in G2 as [B2 L2]; [|done].
  destruct (get d 3) as [b3|] eqn:G3; [|done]. apply get_some in G3 as [B3 L3]; [|done]. cbn [mbind option_bind] in H.
  simplify_eq. exists W4. split_and!; [done|by apply field29_bounds..|simpl; lia].
Qed.

(** The signed reader is the unsigned one at the cursor, un-rotated. *)
Lemma read_compressed_i32_unfold c : 0 <= pos c ->
  read_compressed_i32 c =
    '(raw, k) ← read_compressed_u32 (drop (Z.to_nat (pos c)) (data c));
    let bits := if k =? 1 then 7 else if k =? 2 then 14 else 29 in
    Some (unrotate bits raw, {| data := data c; pos := pos c + k |}).
Proof.
  intros Hp. unfold read_compressed_i32, read_compressed_u32.
  assert (G : forall i, 0 <= i -> get (drop (Z.to_nat (pos c)) (data c)) i = get (data c) (pos c + i)).
  { intros i Hi. unfold get. rewrite !(proj2 (Z.leb_le _ _)) by lia. rewrite lookup_drop. f_equal. lia. }
  rewrite !G, Z.add_0_r by lia.
  destruct (get (data c) (pos c)) as [b0|]; [|done]. cbn [mbind option_bind].
  destruct (Z.land b0 128 =? 0); [done|]. destruct (Z.land b0 192 =? 128).
  { by destruct (get (data c) (pos c + 1)). }
  destruct (Z.land b0 224 =? 192); [|done].
  destruct (get (data c) (pos c + 1)), (get (data c) (pos c + 2)), (get (data c) (pos c + 3)); done.
Qed.

(** Compressed reads stay inside the data and inside the integer types.  On
    any bytes, a read that succeeds leaves the data alone, moves the cursor by
    the 1, 2 or 4 bytes of one width, never past the end, and gives a value in
    the range of that width: at most 29 bits unsigned, or the signed range of
    the same field. *)
Theorem compressed_reads_bounded c : Forall byte (data c) -> 0 <= pos c ->
  (forall v c', Cursor_read_compressed_u32 c = Some (v, c') ->
     exists w, 0 <= v < 2 ^ bits_wide w /\ c' = Cursor_at (data c) (pos c + bytes_wide w)
               /\ position c' <= Z.of_nat (length (data c)))
  /\ (forall v c', read_compressed_i32 c = Some (v, c') ->
     exists w, - 2 ^ (bits_wide w - 1) <= v < 2 ^ (bits_wide w - 1) /\ c' = Cursor_at (data c) (pos c + bytes_wide w)
               /\ position c' <= Z.of_nat (length (data c))).
Proof.
  intros Hd Hp. assert (Hd' : Forall byte (drop (Z.to_nat (pos c)) (data c))) by (by apply Forall_drop).
  split; intros v c' H.
  - unfold Cursor_read_compressed_u32, get_range in H.
    destruct ((0 <=? pos c) && (pos c <=? Z.of_nat (length (data c)))
      && (Z.of_nat (length (data c)) <=? Z.of_nat (length (data c))))%bool eqn:Hg; [|done]. cbn [mbind option_bind] in H.
    rewrite take_ge in H by (rewrite length_drop; lia).
    destruct (read_compressed_u32 _) as [[v' k]|] eqn:E; [|done]. cbn [mbind option_bind] in H. simplify_eq.
    apply compressed_u32_bounds in E as (w & -> & Hv & Hk); [|done]. exists w. rewrite length_drop in Hk.
    split_and!; [lia..|done|]. cbn. rewrite !andb_true_iff, !Z.leb_le in Hg. lia.
  - rewrite read_compressed_i32_unfold in H by done.
    destruct (read_compressed_u32 _) as [[raw k]|] eqn:E; [|done]. cbn [mbind option_bind] in H. simplify_eq.
    apply compressed_u32_bounds in E as (w & -> & Hv & Hk); [|done]. exists w. rewrite length_drop in Hk.
    assert (Hb : (if bytes_wide w =? 1 then 7 else if bytes_wide w =? 2 then 14 else 29) = bits_wide w) by (by destruct w).
    assert (0 < bytes_wide w) by (by destruct w).
    rewrite Hb. split; [apply unrotate_bounds; [by destruct w|done]|]. split; [done|]. cbn. lia.
Qed.

Lemma compressed_reads_bounded_witness : exists w, 0 <= 16384 < 2 ^ bits_wide w
  /\ Cursor_at [9; 192; 0; 64; 0] 5 = Cursor_at [9; 192; 0; 64; 0] (1 + bytes_wide w) /\ 5 <= 5.
Proof.
  refine (proj1 (compressed_reads_bounded (Cursor_at [9; 192; 0; 64; 0] 1) _ _) 16384 _ _).
  - repeat constructor; unfold byte; lia.
  - cbn. lia.
  - reflexivity.
Defined.

(** ** Little-endian integers *)

Fixpoint to_le_bytes (n : nat) (v : Z) : list Z :=
  match n with O => [] | S n' => v mod 256 :: to_le_bytes n' (v / 256) end.

Lemma length_to_le_bytes n v : length (to_le_bytes n v) = n.
Proof. revert v. induction n; intros v; simpl; [done|]. by rewrite IHn. Qed.

Lemma from_to_le_bytes n v : 0 <= v < 256 ^ Z.of_nat n -> from_le_bytes (to_le_bytes n v) = v.
Proof.
  revert v. induction n as [|n IH]; intros v Hv; cbn [to_le_bytes from_le_bytes]; [simpl in Hv; lia|].
  rewrite Nat2Z.inj_succ, Z.pow_succ_r in Hv by lia.
  rewrite IH by (split; [apply Z.div_pos; lia|apply Z.div_lt_upper_bound; lia]).
  pose proof (Z.div_mod v 256). lia.
Qed.

Lemma from_le_bytes_bound bs : Forall byte bs -> 0 <= from_le_bytes bs < 256 ^ Z.of_nat (length bs).
Proof.
  induction 1 as [|b bs Hb _ IH]; cbn [from_le_bytes length]; [simpl; lia|].
  rewrite Nat2Z.inj_succ, Z.pow_succ_r by lia. unfold byte in Hb. lia.
Qed.

(** [take] succeeds exactly when the bytes are there, and gives exactly them. *)
Lemma Cursor_take_spec c n : 0 <= pos c -> 0 <= n -> Z.of_nat (length (data c)) < usize_bound ->
  Cursor_take c n = if pos c + n <=? Z.of_nat (length (data c))
    then Some (take (Z.to_nat n) (drop (Z.to_nat (pos c)) (data c)), Cursor_at (data c) (pos c + n)) else None.
Proof.
  intros Hp Hn Hu. unfold Cursor_take, checked_add, get_range.
  destruct (Z.leb_spec (pos c + n) (Z.of_nat (length (data c)))) as [Hle|Hgt].
  - rewrite (proj2 (Z.ltb_lt _ _)) by lia. cbn [mbind option_bind]. rewrite !(proj2 (Z.leb_le _ _)) by lia.
    cbn [andb mbind option_bind]. by replace (pos c + n - pos c) with n by lia.
  - destruct (_ <? usize_bound); [|done]. cbn [mbind option_bind]. rewrite (proj2 (Z.leb_gt _ (Z.of_nat _))) by lia.
    by rewrite andb_false_r.
Qed.

(** Fixed-width little-endian reads.  A read of n bytes succeeds exactly when
    n bytes remain: it then moves the cursor by n and gives a value below 256^n,
    and where the bytes are those of a value v in little-endian order the value
    is v.  [read_u8], [read_u16], [read_u32] and [read_u64] are the cases 1, 2,
    4 and 8. *)
Theorem read_le_exact (n : nat) c : Forall byte (data c) -> 0 <= pos c -> Z.of_nat (length (data c)) < usize_bound ->
  match read_le (Z.of_nat n) c with
  | Some (v, c') => c' = Cursor_at (data c) (pos c + Z.of_nat n) /\ position c' <= Z.of_nat (length (data c))
      /\ 0 <= v < 256 ^ Z.of_nat n
      /\ (forall u rest, 0 <= u < 256 ^ Z.of_nat n ->
            drop (Z.to_nat (pos c)) (data c) = to_le_bytes n u ++ rest -> v = u)
  | None => Z.of_nat (length (data c)) < pos c + Z.of_nat n
  end.
Proof.
  intros Hd Hp Hu. unfold read_le. rewrite Cursor_take_spec by lia.
  destruct (Z.leb_spec (pos c + Z.of_nat n) (Z.of_nat (length (data c)))) as [Hle|Hgt]; [|exact Hgt].
  cbn [mbind option_bind]. rewrite Nat2Z.id. split; [done|]. split; [cbn; lia|]. split.
  - replace (256 ^ Z.of_nat n) with (256 ^ Z.of_nat (length (take n (drop (Z.to_nat (pos c)) (data c))))).
    + by apply from_le_bytes_bound, Forall_take, Forall_drop.
    + do 2 f_equal. rewrite length_take, length_drop. lia.
  - intros u rest Hr ->. rewrite take_app_length' by (by rewrite length_to_le_bytes). by apply from_to_le_bytes.
Qed.

Lemma read_le_exact_witness :
  match read_le (Z.of_nat 2) (Cursor_at [1; 52; 18; 7] 1) with
  | Some (v, c') => c' = Cursor_at [1; 52; 18; 7] 3 /\ position c' <= 4 /\ 0 <= v < 65536
      /\ (forall u rest, 0 <= u < 65536 -> [52; 18; 7] = to_le_bytes 2 u ++ rest -> v = u)
  | None => 4 < 3
  end.
Proof.
  apply (read_le_exact 2 (Cursor_at [1; 52; 18; 7] 1)).
  - repeat constructor; unfold byte; lia.
  - cbn. lia.
  - unfold usize_bound. cbn. lia.
Defined.
