(* ===== verification/Signature.v ===== *)
(** * Signatures of assembly metadata: [assembly/src/reader/signature.rs]

    The decoder of ECMA-335 signature blobs (II.23.2) over the byte cursor.  The
    cursor is threaded explicitly; an error is a [SigError], as in the code.
    [decode] recurses through every type constructor: the code itself refuses a
    type nested deeper than [MAX_DEPTH], so that many levels are enough
    ([decode_eq] is the recursive equation of the code).

    [encode] and its companions are the reference encoder of the unit tests
    ([signature_tests.rs]). *)

From S2P Require Import Prelude Cursor.
Local Open Scope Z_scope.

Inductive Primitive :=
| PBoolean | PChar | Int8 | UInt8 | Int16 | UInt16 | Int32 | UInt32 | Int64 | UInt64
| Float32 | Float64 | IntPtr | UIntPtr | PString | PObject.

Inductive NamedKind := Class_ | ValueType.

(** A [TypeDefId] or a [TypeRefId]: the index of a row. *)
Inductive TypeScope := ScopeDefinition (index : Z) | ScopeReference (index : Z).

Record CustomMod := { required : bool; modifier : TypeScope }.

(** [ModifiedType] is [Modified TypeSig]. *)
Record Modified (T : Type) := { mods : list CustomMod; ty : T }.
Arguments Build_Modified {T} mods ty.
Arguments mods {T}.
Arguments ty {T}.

Inductive TypeSig :=
| PrimitiveSig (p : Primitive)
| NamedSig (kind : option NamedKind) (scope : TypeScope)
| GenericSig (kind : option NamedKind) (scope : TypeScope) (args : list (Modified TypeSig))
| TypeVar (n : Z)
| MethodVar (n : Z)
| SzArray (element : Modified TypeSig)
| ArraySig (element : Modified TypeSig) (rank : Z) (sizes lower_bounds : list Z)
| Ptr (pointee : option (Modified TypeSig))
| ByRef (referent : Modified TypeSig)
| TypedByRef.

Notation ModifiedType := (Modified TypeSig).
Definition plain (t : TypeSig) : ModifiedType := Build_Modified [] t.

Inductive SigError := UnsupportedElement (byte : Z) | UnexpectedVoid | Truncated | BadToken | TooDeep.

Definition MAX_DEPTH : nat := 128.

Record ImageTables := { type_def_rows : Z; type_ref_rows : Z }.

Module conv.
Definition DEFAULT : Z := 0x00.
Definition VARARG : Z := 0x05.
Definition FIELD : Z := 0x06.
Definition PROPERTY : Z := 0x08.
Definition GENERIC : Z := 0x10.
Definition HASTHIS : Z := 0x20.
Definition EXPLICITTHIS : Z := 0x40.
Definition CONV_MASK : Z := 0x1F.
End conv.

Module elem.
Definition VOID : Z := 0x01.
Definition BOOLEAN : Z := 0x02.
Definition CHAR : Z := 0x03.
Definition I1 : Z := 0x04.
Definition U1 : Z := 0x05.
Definition I2 : Z := 0x06.
Definition U2 : Z := 0x07.
Definition I4 : Z := 0x08.
Definition U4 : Z := 0x09.
Definition I8 : Z := 0x0a.
Definition U8 : Z := 0x0b.
Definition R4 : Z := 0x0c.
Definition R8 : Z := 0x0d.
Definition STRING : Z := 0x0e.
Definition PTR : Z := 0x0f.
Definition BYREF : Z := 0x10.
Definition VALUETYPE : Z := 0x11.
Definition CLASS : Z := 0x12.
Definition VAR : Z := 0x13.
Definition ARRAY : Z := 0x14.
Definition GENERICINST : Z := 0x15.
Definition TYPEDBYREF : Z := 0x16.
Definition I : Z := 0x18.
Definition U : Z := 0x19.
Definition OBJECT : Z := 0x1c.
Definition SZARRAY : Z := 0x1d.
Definition MVAR : Z := 0x1e.
Definition CMOD_REQD : Z := 0x1f.
Definition CMOD_OPT : Z := 0x20.
End elem.

Notation decoded A := (result (A * Cursor) SigError).

Definition resolve_token (token : Z) (tables : ImageTables) : result TypeScope SigError :=
  let tag := Z.land token 3 in
  let rid := Z.shiftr token 2 in
  if rid =? 0 then Err BadToken
  else
    let index := rid - 1 in
    if (tag =? 0) && (index <? type_def_rows tables) then Ok (ScopeDefinition index)
    else if (tag =? 1) && (index <? type_ref_rows tables) then Ok (ScopeReference index)
    else Err BadToken.

(** [c.read_u8().ok_or(SigError::Truncated)?] and the like. *)
Definition need {A} (o : option (A * Cursor)) : decoded A := ok_or o Truncated.

Definition read_scope (c : Cursor) (tables : ImageTables) : decoded TypeScope :=
  let? (token, c) := need (Cursor_read_compressed_u32 c) in
  let? scope := resolve_token token tables in
  Ok (scope, c).

Definition is_mod (b : option Z) : bool :=
  match b with Some b => (b =? elem.CMOD_REQD) || (b =? elem.CMOD_OPT) | None => false end.

Fixpoint read_mods_loop (fuel : nat) (c : Cursor) (tables : ImageTables) (depth : nat) (acc : list CustomMod)
  : decoded (list CustomMod) :=
  match fuel with
  | O => Err TooDeep
  | S fuel =>
      if is_mod (peek_u8 c) then
        if Nat.leb MAX_DEPTH (depth + length acc) then Err TooDeep
        else
          let '(required, c) :=
            match read_u8 c with Some (b, c) => (b =? elem.CMOD_REQD, c) | None => (false, c) end in
          let? (scope, c) := read_scope c tables in
          read_mods_loop fuel c tables depth (acc ++ [{| required := required; modifier := scope |}])
      else Ok (acc, c)
  end.

Definition read_mods (c : Cursor) (tables : ImageTables) (depth : nat) : decoded (list CustomMod) :=
  read_mods_loop (S MAX_DEPTH) c tables depth [].

(** [for _ in 0..n { out.push(f(c)?) }] *)
Fixpoint read_times {A} (n : nat) (f : Cursor -> decoded A) (c : Cursor) : decoded (list A) :=
  match n with
  | O => Ok ([], c)
  | S n => let? (x, c) := f c in let? (xs, c) := read_times n f c in Ok (x :: xs, c)
  end.

Definition primitive_of (byte : Z) : option Primitive :=
  if byte =? elem.BOOLEAN then Some PBoolean
  else if byte =? elem.CHAR then Some PChar
  else if byte =? elem.I1 then Some Int8
  else if byte =? elem.U1 then Some UInt8
  else if byte =? elem.I2 then Some Int16
  else if byte =? elem.U2 then Some UInt16
  else if byte =? elem.I4 then Some Int32
  else if byte =? elem.U4 then Some UInt32
  else if byte =? elem.I8 then Some Int64
  else if byte =? elem.U8 then Some UInt64
  else if byte =? elem.R4 then Some Float32
  else if byte =? elem.R8 then Some Float64
  else if byte =? elem.I then Some IntPtr
  else if byte =? elem.U then Some UIntPtr
  else if byte =? elem.STRING then Some PString
  else if byte =? elem.OBJECT then Some PObject
  else None.

Definition read_array_shape (c : Cursor) (element : ModifiedType) : decoded TypeSig :=
  let? (rank, c) := need (Cursor_read_compressed_u32 c) in
  if rank =? 0 then Err BadToken
  else
    let? (num_sizes, c) := need (Cursor_read_compressed_u32 c) in
    if rank <? num_sizes then Err BadToken
    else
      let? (sizes, c) := read_times (Z.to_nat num_sizes) (fun c => need (Cursor_read_compressed_u32 c)) c in
      let? (num_lo_bounds, c) := need (Cursor_read_compressed_u32 c) in
      if rank <? num_lo_bounds then Err BadToken
      else
        let? (lower_bounds, c) := read_times (Z.to_nat num_lo_bounds) (fun c => need (read_compressed_i32 c)) c in
        Ok (ArraySig element rank sizes lower_bounds, c).

Definition named_kind_of (byte : Z) : option NamedKind :=
  if byte =? elem.CLASS then Some Class_ else if byte =? elem.VALUETYPE then Some ValueType else None.

(** [decode_element], with [decode] as an argument. *)
Section decode_element.
Context (decode : Cursor -> ImageTables -> nat -> decoded ModifiedType).

Definition decode_payload (byte : Z) (c : Cursor) (tables : ImageTables) (depth : nat) : decoded TypeSig :=
  match primitive_of byte with
  | Some p => Ok (PrimitiveSig p, c)
  | None =>
      if byte =? elem.TYPEDBYREF then Ok (TypedByRef, c)
      else if byte =? elem.VOID then Err UnexpectedVoid
      else if byte =? elem.CLASS then let? (scope, c) := read_scope c tables in Ok (NamedSig (Some Class_) scope, c)
      else if byte =? elem.VALUETYPE then let? (scope, c) := read_scope c tables in Ok (NamedSig (Some ValueType) scope, c)
      else if byte =? elem.VAR then let? (n, c) := need (Cursor_read_compressed_u32 c) in Ok (TypeVar n, c)
      else if byte =? elem.MVAR then let? (n, c) := need (Cursor_read_compressed_u32 c) in Ok (MethodVar n, c)
      else if byte =? elem.SZARRAY then let? (m, c) := decode c tables (S depth) in Ok (SzArray m, c)
      else if byte =? elem.ARRAY then let? (element, c) := decode c tables (S depth) in read_array_shape c element
      else if byte =? elem.PTR then
        match peek_u8 c with
        | Some b => if b =? elem.VOID then Ok (Ptr None, match read_u8 c with Some (_, c) => c | None => c end)
                    else let? (m, c) := decode c tables (S depth) in Ok (Ptr (Some m), c)
        | None => let? (m, c) := decode c tables (S depth) in Ok (Ptr (Some m), c)
        end
      else if byte =? elem.BYREF then let? (m, c) := decode c tables (S depth) in Ok (ByRef m, c)
      else if byte =? elem.GENERICINST then
        let? (kind, c) := need (read_u8 c) in
        let? kind := ok_or (named_kind_of kind) BadToken in
        let? (scope, c) := read_scope c tables in
        let? (count, c) := need (Cursor_read_compressed_u32 c) in
        let? (args, c) := read_times (Z.to_nat count) (fun c => decode c tables (S depth)) c in
        Ok (GenericSig (Some kind) scope args, c)
      else Err (UnsupportedElement byte)
  end.

Definition decode_element_with (c : Cursor) (tables : ImageTables) (depth : nat) : decoded TypeSig :=
  if Nat.leb MAX_DEPTH depth then Err TooDeep
  else let? (byte, c) := need (read_u8 c) in decode_payload byte c tables depth.
End decode_element.

Fixpoint decode_up_to (n : nat) (c : Cursor) (tables : ImageTables) (depth : nat) : decoded ModifiedType :=
  match n with
  | O => Err TooDeep
  | S n =>
      let? (mods, c) := read_mods c tables depth in
      let? (ty, c) := decode_element_with (decode_up_to n) c tables (depth + length mods) in
      Ok (Build_Modified mods ty, c)
  end.

Definition decode : Cursor -> ImageTables -> nat -> decoded ModifiedType := decode_up_to (S MAX_DEPTH).
Definition decode_element : Cursor -> ImageTables -> nat -> decoded TypeSig := decode_element_with decode.

Definition decode_type (blob : list Z) (tables : ImageTables) : result ModifiedType SigError :=
  let? (t, _) := decode (Cursor_new blob) tables 0 in Ok t.

Inductive CallConv := ConvDefault | VarArg | ConvGeneric (count : Z).

Inductive RetType := RetVoid (mods : list CustomMod) | RetOf (t : ModifiedType).

Record DecodedMethodSig := {
  has_this : bool; explicit_this : bool; calling_convention : CallConv; return_type : RetType;
  param_types : list ModifiedType }.

Definition decode_ret_type (c : Cursor) (tables : ImageTables) : decoded RetType :=
  let? (mods, c) := read_mods c tables 0 in
  let as_type := let? (ty, c) := decode_element c tables (length mods) in Ok (RetOf (Build_Modified mods ty), c) in
  match peek_u8 c with
  | Some b => if b =? elem.VOID then Ok (RetVoid mods, match read_u8 c with Some (_, c) => c | None => c end) else as_type
  | None => as_type
  end.

Definition read_convention (first : Z) (c : Cursor) : decoded CallConv :=
  let conv := Z.land first conv.CONV_MASK in
  if conv =? conv.DEFAULT then Ok (ConvDefault, c)
  else if conv =? conv.VARARG then Ok (VarArg, c)
  else if conv =? conv.GENERIC then let? (count, c) := need (Cursor_read_compressed_u32 c) in Ok (ConvGeneric count, c)
  else Err (UnsupportedElement first).

Definition decode_method_sig (blob : list Z) (tables : ImageTables) : result DecodedMethodSig SigError :=
  let? (first, c) := need (read_u8 (Cursor_new blob)) in
  let has_this := negb (Z.land first conv.HASTHIS =? 0) in
  let explicit_this := negb (Z.land first conv.EXPLICITTHIS =? 0) in
  let? (convention, c) := read_convention first c in
  let? (param_count, c) := need (Cursor_read_compressed_u32 c) in
  let? (return_type, c) := decode_ret_type c tables in
  let? (param_types, _) := read_times (Z.to_nat param_count) (fun c => decode c tables 0) c in
  Ok {| has_this := has_this; explicit_this := explicit_this; calling_convention := convention;
        return_type := return_type; param_types := param_types |}.

Definition decode_field_sig (blob : list Z) (tables : ImageTables) : result ModifiedType SigError :=
  let? (tag, c) := need (read_u8 (Cursor_new blob)) in
  if negb (tag =? conv.FIELD) then Err BadToken
  else let? (t, _) := decode c tables 0 in Ok t.

Definition decode_property_sig (blob : list Z) (tables : ImageTables) : result ModifiedType SigError :=
  let? (first, c) := need (read_u8 (Cursor_new blob)) in
  if negb (Z.land first conv.CONV_MASK =? conv.PROPERTY) then Err BadToken
  else
    let? (_, c) := need (Cursor_read_compressed_u32 c) in
    let? (t, _) := decode c tables 0 in Ok t.

Definition property_sig_has_this (blob : list Z) : option bool :=
  match blob with [] => None | first :: _ => Some (negb (Z.land first conv.HASTHIS =? 0)) end.

Definition decode_property_index_params (blob : list Z) (tables : ImageTables) : result (list ModifiedType) SigError :=
  let? (first, c) := need (read_u8 (Cursor_new blob)) in
  if negb (Z.land first conv.CONV_MASK =? conv.PROPERTY) then Err BadToken
  else
    let? (count, c) := need (Cursor_read_compressed_u32 c) in
    let? (_, c) := decode c tables 0 in
    let? (params, _) := read_times (Z.to_nat count) (fun c => decode c tables 0) c in Ok params.

(** ** The reference encoder *)

Definition compress (n : Z) : list Z :=
  if n <=? 0x7F then [n]
  else if n <=? 0x3FFF then [Z.lor 0x80 (Z.shiftr n 8 mod 256); Z.land n 0xFF]
  else [Z.lor 0xC0 (Z.shiftr n 24 mod 256); Z.shiftr n 16 mod 256; Z.shiftr n 8 mod 256; Z.land n 0xFF].

Definition compress_signed (n : Z) : list Z :=
  let sign := if n <? 0 then 1 else 0 in
  if (-64 <=? n) && (n <=? 63) then [Z.lor (Z.shiftl (Z.land n 0x3F) 1) sign]
  else if (-8192 <=? n) && (n <=? 8191) then
    let raw := Z.lor (Z.shiftl (Z.land n 0x1FFF) 1) sign in
    [Z.lor 0x80 (Z.shiftr raw 8 mod 256); Z.land raw 0xFF]
  else
    let raw := Z.lor (Z.shiftl (Z.land n 0x0FFFFFFF) 1) sign in
    [Z.lor 0xC0 (Z.shiftr raw 24 mod 256); Z.shiftr raw 16 mod 256; Z.shiftr raw 8 mod 256; Z.land raw 0xFF].

Definition encode_token (scope : TypeScope) : list Z :=
  compress (match scope with
            | ScopeDefinition i => Z.shiftl (i + 1) 2
            | ScopeReference i => Z.lor (Z.shiftl (i + 1) 2) 1
            end).

Definition primitive_byte (p : Primitive) : Z :=
  match p with
  | PBoolean => elem.BOOLEAN
  | PChar => elem.CHAR
  | Int8 => elem.I1
  | UInt8 => elem.U1
  | Int16 => elem.I2
  | UInt16 => elem.U2
  | Int32 => elem.I4
  | UInt32 => elem.U4
  | Int64 => elem.I8
  | UInt64 => elem.U8
  | Float32 => elem.R4
  | Float64 => elem.R8
  | IntPtr => elem.I
  | UIntPtr => elem.U
  | PString => elem.STRING
  | PObject => elem.OBJECT
  end.

Definition named_kind_byte (k : NamedKind) : Z := match k with Class_ => elem.CLASS | ValueType => elem.VALUETYPE end.

Definition encode_mods (ms : list CustomMod) : list Z :=
  flat_map (fun m => (if required m then elem.CMOD_REQD else elem.CMOD_OPT) :: encode_token (modifier m)) ms.

(** A kind of [None], which no signature has, is the [unreachable!] of the
    encoder; here it gives no bytes. *)
Fixpoint encode_element (t : TypeSig) : list Z :=
  let encode (m : Modified TypeSig) := encode_mods (mods m) ++ encode_element (ty m) in
  match t with
  | PrimitiveSig p => [primitive_byte p]
  | NamedSig (Some k) scope => named_kind_byte k :: encode_token scope
  | NamedSig None _ => []
  | GenericSig (Some k) scope args =>
      [elem.GENERICINST; named_kind_byte k] ++ encode_token scope ++ compress (Z.of_nat (length args)) ++ flat_map encode args
  | GenericSig None _ _ => []
  | TypeVar n => elem.VAR :: compress n
  | MethodVar n => elem.MVAR :: compress n
  | SzArray m => elem.SZARRAY :: encode m
  | ArraySig m rank sizes lower_bounds =>
      elem.ARRAY :: encode m ++ compress rank ++ compress (Z.of_nat (length sizes)) ++ flat_map compress sizes
      ++ compress (Z.of_nat (length lower_bounds)) ++ flat_map compress_signed lower_bounds
  | Ptr (Some m) => elem.PTR :: encode m
  | Ptr None => [elem.PTR; elem.VOID]
  | ByRef m => elem.BYREF :: encode m
  | TypedByRef => [elem.TYPEDBYREF]
  end.
Definition encode (m : ModifiedType) : list Z := encode_mods (mods m) ++ encode_element (ty m).

Definition encode_ret (r : RetType) : list Z :=
  match r with RetVoid ms => encode_mods ms ++ [elem.VOID] | RetOf t => encode t end.

Definition encode_method_sig (s : DecodedMethodSig) : list Z :=
  let first := Z.lor (Z.lor (if has_this s then conv.HASTHIS else 0) (if explicit_this s then conv.EXPLICITTHIS else 0))
    (match calling_convention s with ConvDefault => 0 | VarArg => conv.VARARG | ConvGeneric _ => conv.GENERIC end) in
  first :: (match calling_convention s with ConvGeneric count => compress count | _ => [] end)
  ++ compress (Z.of_nat (length (param_types s))) ++ encode_ret (return_type s) ++ flat_map encode (param_types s).

Definition encode_field_sig (t : ModifiedType) : list Z := conv.FIELD :: encode t.
Definition encode_property_sig (has_this : bool) (index_count : Z) (t : ModifiedType) : list Z :=
  Z.lor conv.PROPERTY (if has_this then conv.HASTHIS else 0) :: compress index_count ++ encode t.

Example signature_ex :
  let tables := {| type_def_rows := 2; type_ref_rows := 9 |} in
  decode_type [0x15; 0x12; 0x05; 2; 0x0e; 0x1d; 0x1f; 0x05; 0x08] tables
    = Ok (plain (GenericSig (Some Class_) (ScopeReference 0)
        [plain (PrimitiveSig PString);
         plain (SzArray (Build_Modified [{| required := true; modifier := ScopeReference 0 |}] (PrimitiveSig Int32)))]))
  /\ decode_type [0x1d; 0x01] tables = Err UnexpectedVoid
  /\ decode_type [0x12; 0x0c] tables = Err BadToken
  /\ decode_type (repeat 0x1d 200) tables = Err TooDeep
  /\ decode_method_sig [0x20; 1; 0x01; 0x10; 0x0e] tables
    = Ok {| has_this := true; explicit_this := false; calling_convention := ConvDefault; return_type := RetVoid [];
            param_types := [plain (ByRef (plain (PrimitiveSig PString)))] |}.
Proof. vm_compute. auto. Qed.
