(* ===== verification/SignatureThm.v ===== *)
(** * What the signature decoder decodes

    The decoder inverts the reference encoder, up to the nesting it refuses
    ([decode_encode]); and whatever the bytes, a signature it returns is well
    formed, no deeper than [MAX_DEPTH] and no larger than the bytes it was read
    from ([decode_sound]). *)

From S2P Require Import Prelude Cursor Signature.
Local Open Scope Z_scope.

(** ** Cursors and the bytes before them *)

Definition remaining (c : Cursor) : list Z := drop (Z.to_nat (pos c)) (data c).

(** A cursor inside bytes that fit in memory. *)
Definition cursor_ok (c : Cursor) : Prop :=
  0 <= pos c <= Z.of_nat (length (data c)) /\ Forall byte (data c) /\ Z.of_nat (length (data c)) < usize_bound.

Definition advance (c : Cursor) (n : nat) : Cursor := Cursor_at (data c) (pos c + Z.of_nat n).

(** The cursor stands before the bytes [bs]. *)
Definition at_ (c : Cursor) (bs : list Z) : Prop := cursor_ok c /\ remaining c = bs.

Lemma remaining_length c : cursor_ok c -> Z.of_nat (length (remaining c)) = Z.of_nat (length (data c)) - pos c.
Proof. intros (Hp & _). unfold remaining. rewrite length_drop. lia. Qed.

Lemma remaining_bytes c : cursor_ok c -> Forall byte (remaining c).
Proof. intros (_ & Hb & _). by apply Forall_drop. Qed.

Lemma remaining_advance c n : cursor_ok c -> remaining (advance c n) = drop n (remaining c).
Proof. intros (Hp & _). unfold remaining, advance, Cursor_at. cbn [data pos]. rewrite drop_drop. f_equal. lia. Qed.

Lemma advance_ok c n : cursor_ok c -> (n <= length (remaining c))%nat -> cursor_ok (advance c n).
Proof.
  intros Hok Hn. pose proof (remaining_length c Hok). destruct Hok as (Hp & Hb & Hu). unfold cursor_ok, advance, Cursor_at. cbn [data pos].
  split_and!; [lia..|done|done].
Qed.

Lemma at_advance c bs rest : at_ c (bs ++ rest) -> at_ (advance c (length bs)) rest.
Proof.
  intros [Hok E]. split; [apply advance_ok; [done|]; rewrite E, length_app; lia|].
  rewrite remaining_advance, E by done. apply drop_app_length.
Qed.

Lemma at_new blob : Forall byte blob -> Z.of_nat (length blob) < usize_bound -> at_ (Cursor_new blob) blob.
Proof. intros Hb Hu. split; [|done]. unfold cursor_ok, Cursor_new. cbn [data pos]. split_and!; [lia..|done|done]. Qed.

Lemma peek_remaining c : cursor_ok c -> peek_u8 c = head (remaining c).
Proof.
  intros (Hp & _). unfold peek_u8, get, remaining. rewrite (proj2 (Z.leb_le _ _)) by lia.
  by rewrite head_lookup, lookup_drop, Nat.add_0_r.
Qed.

Lemma read_u8_remaining c : cursor_ok c ->
  read_u8 c = match remaining c with [] => None | b :: _ => Some (b, advance c 1) end.
Proof.
  intros Hok. pose proof (remaining_length c Hok) as Hl. destruct Hok as (Hp & Hb & Hu).
  unfold read_u8, read_le. rewrite Cursor_take_spec by lia. change (Z.to_nat 1) with 1%nat. fold (remaining c).
  destruct (remaining c) as [|b r]; cbn [length] in Hl.
  - by rewrite (proj2 (Z.leb_gt _ _)) by lia.
  - rewrite (proj2 (Z.leb_le _ _)) by lia. cbn [mbind option_bind take from_le_bytes]. by rewrite Z.mul_0_r, Z.add_0_r.
Qed.

Lemma read_u32_remaining c : cursor_ok c ->
  Cursor_read_compressed_u32 c = '(v, k) ← read_compressed_u32 (remaining c); Some (v, advance c (Z.to_nat k)).
Proof.
  intros Hok. pose proof (remaining_bytes c Hok) as Hbytes. destruct Hok as (Hp & Hb & Hu). unfold Cursor_read_compressed_u32, get_range.
  rewrite !(proj2 (Z.leb_le _ _)) by lia. cbn [andb mbind option_bind]. rewrite take_ge by (rewrite length_drop; lia).
  fold (remaining c). destruct (read_compressed_u32 (remaining c)) as [[v k]|] eqn:E; [|done]. cbn [mbind option_bind].
  apply compressed_u32_bounds in E as (w & -> & _); [|done]. unfold advance, Cursor_at. do 3 f_equal. by destruct w.
Qed.

Lemma read_i32_remaining c : cursor_ok c ->
  read_compressed_i32 c = '(raw, k) ← read_compressed_u32 (remaining c);
    Some (unrotate (if k =? 1 then 7 else if k =? 2 then 14 else 29) raw, advance c (Z.to_nat k)).
Proof.
  intros Hok. pose proof (remaining_bytes c Hok) as Hbytes. destruct Hok as (Hp & Hb & Hu). rewrite read_compressed_i32_unfold by lia.
  fold (remaining c). destruct (read_compressed_u32 (remaining c)) as [[v k]|] eqn:E; [|done]. cbn [mbind option_bind].
  apply compressed_u32_bounds in E as (w & -> & _); [|done]. unfold advance, Cursor_at. do 3 f_equal. by destruct w.
Qed.

(** ** Reading what was encoded *)

Definition u29 (n : Z) : bool := (0 <=? n) && (n <? 536870912).
Definition i29 (n : Z) : bool := (-268435456 <=? n) && (n <? 268435456).

Lemma u29_spec n : u29 n = true <-> 0 <= n < 536870912.
Proof. unfold u29. rewrite andb_true_iff, Z.leb_le, Z.ltb_lt. lia. Qed.

Lemma compress_pack n : 0 <= n < 536870912 -> exists w, compress n = pack w n /\ n < 2 ^ bits_wide w.
Proof.
  intros Hn. destruct (compress_u32_pack n Hn) as (w & E & Hw). exists w. split; [|done].
  unfold compress_u32 in E. unfold compress. destruct (n <=? 127); [by simplify_eq|]. destruct (n <=? 16383); [by simplify_eq|].
  destruct (n <=? 536870911) eqn:E'; [by simplify_eq|]. apply Z.leb_gt in E'. lia.
Qed.

Lemma pack_length w raw : length (pack w raw) = Z.to_nat (bytes_wide w).
Proof. by destruct w. Qed.

Lemma read_compress n c rest : u29 n = true -> at_ c (compress n ++ rest) ->
  exists c', Cursor_read_compressed_u32 c = Some (n, c') /\ at_ c' rest.
Proof.
  intros Hn%u29_spec Hat. destruct (compress_pack n Hn) as (w & E & Hw). rewrite E in Hat.
  exists (advance c (length (pack w n))). split; [|by apply at_advance]. destruct Hat as [Hok Hr].
  rewrite read_u32_remaining, Hr, read_packed_u32 by (done || lia). cbn [mbind option_bind]. by rewrite pack_length.
Qed.

Lemma rotate_bits bits n : 1 <= bits ->
  Z.lor (Z.shiftl (Z.land n (Z.ones (bits - 1))) 1) (if n <? 0 then 1 else 0) = rotate bits n.
Proof.
  intros Hb. unfold rotate. rewrite Z.land_ones by lia. rewrite lor_shift by (destruct (n <? 0); simpl; lia). change (2 ^ 1) with 2. lia.
Qed.

Lemma compress_signed_pack n : -268435456 <= n < 268435456 ->
  exists w, compress_signed n = pack w (rotate (bits_wide w) n) /\ - 2 ^ (bits_wide w - 1) <= n < 2 ^ (bits_wide w - 1).
Proof.
  intros Hn. unfold compress_signed.
  assert (E7 := rotate_bits 7 n ltac:(lia)). assert (E14 := rotate_bits 14 n ltac:(lia)). assert (E29 := rotate_bits 29 n ltac:(lia)).
  change (Z.ones (7 - 1)) with 0x3F in E7. change (Z.ones (14 - 1)) with 0x1FFF in E14. change (Z.ones (29 - 1)) with 0x0FFFFFFF in E29.
  cbv zeta. rewrite E7, E14, E29.
  destruct (_ && _)%bool eqn:T; [|clear T; destruct (_ && _)%bool eqn:T].
  - exists W1. rewrite andb_true_iff, !Z.leb_le in T. split; [done|simpl; lia].
  - exists W2. rewrite andb_true_iff, !Z.leb_le in T. split; [|simpl; lia]. apply pack_bits2. apply (rotate_range 14). lia.
  - exists W4. split; [|simpl; lia]. apply pack_bits4. apply (rotate_range 29). lia.
Qed.

Lemma read_compress_signed n c rest : i29 n = true -> at_ c (compress_signed n ++ rest) ->
  exists c', read_compressed_i32 c = Some (n, c') /\ at_ c' rest.
Proof.
  unfold i29. rewrite andb_true_iff, Z.leb_le, Z.ltb_lt. intros Hn Hat. destruct (compress_signed_pack n Hn) as (w & E & Hw). rewrite E in Hat.
  exists (advance c (length (pack w (rotate (bits_wide w) n)))). split; [|by apply at_advance]. destruct Hat as [Hok Hr].
  assert (Hb : 1 <= bits_wide w) by (by destruct w).
  rewrite read_i32_remaining, Hr, read_packed_u32 by (done || by apply rotate_range). cbn [mbind option_bind]. rewrite pack_length.
  replace (if bytes_wide w =? 1 then 7 else _) with (bits_wide w) by (by destruct w). by rewrite unrotate_rotate.
Qed.

Lemma read_byte b c rest : at_ c (b :: rest) -> read_u8 c = Some (b, advance c 1) /\ at_ (advance c 1) rest.
Proof.
  intros Hat. split; [|by apply (at_advance c [b])]. destruct Hat as [Hok E]. by rewrite read_u8_remaining, E.
Qed.

Lemma peek_byte c bs : at_ c bs -> peek_u8 c = head bs.
Proof. intros [Hok <-]. by apply peek_remaining. Qed.

(** ** Well-formed signatures *)

Section sig.
Context (tables : ImageTables).

(** A row of its table whose token fits a compressed integer. *)
Definition scope_ok (s : TypeScope) : bool :=
  match s with
  | ScopeDefinition i => (0 <=? i) && (i <? type_def_rows tables) && (i <? 134217727)
  | ScopeReference i => (0 <=? i) && (i <? type_ref_rows tables) && (i <? 134217727)
  end.

Definition mods_ok (ms : list CustomMod) : bool := forallb (fun m => scope_ok (modifier m)) ms.

Fixpoint sig_ok (t : TypeSig) : bool :=
  let modified_ok (m : Modified TypeSig) := mods_ok (mods m) && sig_ok (ty m) in
  match t with
  | PrimitiveSig _ | TypedByRef => true
  | NamedSig kind scope => match kind with Some _ => scope_ok scope | None => false end
  | GenericSig kind scope args =>
      match kind with Some _ => scope_ok scope && u29 (Z.of_nat (length args)) && forallb modified_ok args | None => false end
  | TypeVar n | MethodVar n => u29 n
  | SzArray m | ByRef m => modified_ok m
  | ArraySig m rank sizes lower_bounds =>
      modified_ok m && (1 <=? rank) && u29 rank && (Z.of_nat (length sizes) <=? rank) && forallb u29 sizes
      && (Z.of_nat (length lower_bounds) <=? rank) && forallb i29 lower_bounds
  | Ptr p => match p with Some m => modified_ok m | None => true end
  end.
Definition modified_ok (m : ModifiedType) : bool := mods_ok (mods m) && sig_ok (ty m).
End sig.

(** The levels a type takes: one for each modifier and each constructor. *)
Fixpoint height (t : TypeSig) : nat :=
  let modified_height (m : Modified TypeSig) := (length (mods m) + height (ty m))%nat in
  S (match t with
     | GenericSig _ _ args => list_max (map modified_height args)
     | SzArray m | ByRef m | ArraySig m _ _ _ | Ptr (Some m) => modified_height m
     | _ => 0
     end).
Definition modified_height (m : ModifiedType) : nat := (length (mods m) + height (ty m))%nat.

(** Induction on types, through the positions they hold. *)
Lemma TypeSig_nested_ind (P : TypeSig -> Prop) :
  (forall p, P (PrimitiveSig p)) -> (forall k s, P (NamedSig k s)) ->
  (forall k s args, Forall (fun m => P (ty m)) args -> P (GenericSig k s args)) ->
  (forall n, P (TypeVar n)) -> (forall n, P (MethodVar n)) ->
  (forall m, P (ty m) -> P (SzArray m)) -> (forall m r ss bs, P (ty m) -> P (ArraySig m r ss bs)) ->
  P (Ptr None) -> (forall m, P (ty m) -> P (Ptr (Some m))) -> (forall m, P (ty m) -> P (ByRef m)) -> P TypedByRef ->
  forall t, P t.
Proof.
  intros H1 H2 H3 H4 H5 H6 H7 H8 H9 H10 H11. fix IH 1. intros [p|k s|k s args|n|n|m|m r ss bs|[m|]|m|].
  - apply H1.
  - apply H2.
  - apply H3. induction args as [|m args IHargs]; constructor; [|exact IHargs]. destruct m as [ms t]. apply IH.
  - apply H4.
  - apply H5.
  - apply H6. destruct m as [ms t]. apply IH.
  - apply H7. destruct m as [ms t]. apply IH.
  - apply H9. destruct m as [ms t]. apply IH.
  - apply H8.
  - apply H10. destruct m as [ms t]. apply IH.
  - apply H11.
Qed.

(** ** The recursion of the decoder *)

Lemma read_times_ext {A} n (f g : Cursor -> decoded A) c : (forall c, f c = g c) -> read_times n f c = read_times n g c.
Proof.
  intros E. revert c. induction n as [|n IH]; intros c; cbn [read_times]; [done|]. rewrite E. destruct (g c) as [[x c']|]; [|done].
  cbn [rbind]. by rewrite IH.
Qed.

Lemma decode_element_ext f g c tables depth :
  (forall c, f c tables (S depth) = g c tables (S depth)) \/ (MAX_DEPTH <= depth)%nat ->
  decode_element_with f c tables depth = decode_element_with g c tables depth.
Proof.
  intros [E|Hd]; unfold decode_element_with; [|by rewrite (proj2 (Nat.leb_le _ _)) by done].
  destruct (Nat.leb MAX_DEPTH depth); [done|]. destruct (need (read_u8 c)) as [[b c1]|]; [|done]. cbn [rbind].
  unfold decode_payload. destruct (primitive_of b); [done|]. rewrite !E.
  do 8 (destruct (_ =? _); [done|]). destruct (b =? elem.PTR); [destruct (peek_u8 c1); by rewrite ?E|].
  destruct (b =? elem.BYREF); [done|]. destruct (b =? elem.GENERICINST); [|done].
  destruct (need (read_u8 c1)) as [[k c2]|]; [|done]. cbn [rbind]. destruct (ok_or _ _); [|done]. cbn [rbind].
  destruct (read_scope c2 tables) as [[s c3]|]; [|done]. cbn [rbind].
  destruct (need (Cursor_read_compressed_u32 c3)) as [[n c4]|]; [|done]. cbn [rbind].
  by rewrite (read_times_ext _ _ (fun c => g c tables (S depth))).
Qed.

Lemma read_mods_step fuel c tables depth acc : read_mods_loop (S fuel) c tables depth acc =
  if is_mod (peek_u8 c) then
    if Nat.leb MAX_DEPTH (depth + length acc) then Err TooDeep
    else
      let '(required, c) := match read_u8 c with Some (b, c) => (b =? elem.CMOD_REQD, c) | None => (false, c) end in
      let? (scope, c) := read_scope c tables in
      read_mods_loop fuel c tables depth (acc ++ [{| required := required; modifier := scope |}])
  else Ok (acc, c).
Proof. done. Qed.

Lemma decode_up_to_S n c tables depth : decode_up_to (S n) c tables depth =
  let? (mods, c) := read_mods c tables depth in
  let? (ty, c) := decode_element_with (decode_up_to n) c tables (depth + length mods) in
  Ok (Build_Modified mods ty, c).
Proof. done. Qed.

(** Past the limit every type is refused. *)
Lemma decode_too_deep n c tables depth : (MAX_DEPTH <= depth)%nat -> decode_up_to n c tables depth = Err TooDeep.
Proof.
  intros Hd. destruct n as [|n]; [done|]. rewrite decode_up_to_S. unfold read_mods. rewrite read_mods_step.
  cbn [length]. rewrite Nat.add_0_r, (proj2 (Nat.leb_le _ _)) by done. destruct (is_mod _); [done|]. cbn [rbind length].
  unfold decode_element_with. by rewrite Nat.add_0_r, (proj2 (Nat.leb_le _ _)) by done.
Qed.

Lemma decode_up_to_enough n m c tables depth : (MAX_DEPTH <= n + depth)%nat -> (MAX_DEPTH <= m + depth)%nat ->
  decode_up_to n c tables depth = decode_up_to m c tables depth.
Proof.
  revert m c depth. induction n as [|n IH]; intros m c depth Hn Hm.
  { symmetry. rewrite !decode_too_deep by done. done. }
  destruct m as [|m]; [rewrite !decode_too_deep by done; done|]. rewrite !decode_up_to_S.
  destruct (read_mods c tables depth) as [[ms c']|]; cbn [rbind]; [|done].
  rewrite (decode_element_ext _ (decode_up_to m)); [done|]. left. intros c1. apply IH; lia.
Qed.

(** [decode] is the function of the code. *)
Lemma decode_eq c tables depth : decode c tables depth =
  let? (mods, c) := read_mods c tables depth in
  let? (ty, c) := decode_element c tables (depth + length mods) in
  Ok (Build_Modified mods ty, c).
Proof.
  unfold decode at 1. rewrite decode_up_to_S. destruct (read_mods c tables depth) as [[ms c']|]; cbn [rbind]; [|done].
  unfold decode_element. rewrite (decode_element_ext _ decode); [done|].
  destruct (Nat.le_gt_cases MAX_DEPTH (depth + length ms)); [by right|]. left. intros c1.
  apply decode_up_to_enough; unfold MAX_DEPTH in *; lia.
Qed.

(** ** Decoding inverts encoding *)

(** What decoding an encoded [x] gives: [x] and the cursor past it where it fits
    the limit on nesting, and [TooDeep] where it does not. *)
Definition decodes {A} (d : decoded A) (fits : bool) (x : A) (rest : list Z) : Prop :=
  if fits then exists c', d = Ok (x, c') /\ at_ c' rest else d = Err TooDeep.

Section round_trip.
Context (tables : ImageTables).

Lemma need_read_compress n c rest : u29 n = true -> at_ c (compress n ++ rest) ->
  decodes (need (Cursor_read_compressed_u32 c)) true n rest.
Proof. intros Hn Hat. destruct (read_compress n c rest Hn Hat) as (c' & -> & Hat'). by exists c'. Qed.

Lemma need_read_signed n c rest : i29 n = true -> at_ c (compress_signed n ++ rest) ->
  decodes (need (read_compressed_i32 c)) true n rest.
Proof. intros Hn Hat. destruct (read_compress_signed n c rest Hn Hat) as (c' & -> & Hat'). by exists c'. Qed.

Lemma read_scope_encode s c rest : scope_ok tables s = true -> at_ c (encode_token s ++ rest) ->
  decodes (read_scope c tables) true s rest.
Proof.
  intros Hs Hat. set (i := match s with ScopeDefinition i | ScopeReference i => i end).
  set (tag := match s with ScopeDefinition _ => 0 | ScopeReference _ => 1 end).
  assert (Hi : 0 <= i < 134217727) by (unfold i; destruct s; cbn in Hs; rewrite !andb_true_iff, !Z.leb_le, !Z.ltb_lt in Hs; lia).
  set (token := (i + 1) * 4 + tag). assert (Htag : 0 <= tag < 2) by (unfold tag; destruct s; lia).
  assert (Et : encode_token s = compress token).
  { unfold encode_token, token, i, tag. f_equal. destruct s.
    - rewrite Z.shiftl_mul_pow2 by lia. change (2 ^ 2) with 4. lia.
    - rewrite lor_shift by (simpl; lia). done. }
  rewrite Et in Hat. destruct (need_read_compress token c rest) as (c' & E & Hat'); [apply u29_spec; unfold token; lia|done|].
  exists c'. split; [|done]. unfold read_scope. rewrite E. cbn [rbind].
  assert (El : Z.land token 3 = tag).
  { change 3 with (Z.ones 2). rewrite Z.land_ones by lia. unfold token. change (2 ^ 2) with 4. rewrite Z.add_comm, Z.mod_add by lia. apply Z.mod_small. lia. }
  assert (Er : Z.shiftr token 2 = i + 1).
  { rewrite Z.shiftr_div_pow2 by lia. unfold token. change (2 ^ 2) with 4. rewrite Z.div_add_l by lia. rewrite Z.div_small by lia. lia. }
  unfold resolve_token. rewrite El, Er. cbv zeta. replace (i + 1 =? 0) with false by (symmetry; apply Z.eqb_neq; lia).
  replace (i + 1 - 1) with i by lia. unfold tag, i in *. destruct s; cbn in Hs |- *; rewrite !andb_true_iff in Hs; destruct Hs as [[_ ->] _]; done.
Qed.

Lemma read_mods_loop_encode ms b fuel c depth acc rest : mods_ok tables ms = true -> is_mod (Some b) = false ->
  at_ c (encode_mods ms ++ b :: rest) ->
  ((length ms < fuel)%nat -> (depth + length acc + length ms <= MAX_DEPTH)%nat ->
     exists c', read_mods_loop fuel c tables depth acc = Ok (acc ++ ms, c') /\ at_ c' (b :: rest))
  /\ (ms <> [] -> (MAX_DEPTH < depth + length acc + length ms)%nat -> read_mods_loop fuel c tables depth acc = Err TooDeep).
Proof.
  intros Hms Hb. revert fuel c acc. induction ms as [|m ms IH]; intros fuel c acc Hat.
  { split; [|done]. intros Hf _. destruct fuel as [|fuel]; [lia|]. rewrite read_mods_step, (peek_byte c _ Hat). cbn [head encode_mods flat_map app].
    rewrite Hb, app_nil_r. by exists c. }
  cbn [mods_ok forallb] in Hms. apply andb_true_iff in Hms as [Hm Hms]. destruct fuel as [|fuel]; [split; [simpl; lia|done]|].
  cbn [encode_mods flat_map] in Hat. fold (encode_mods ms) in Hat. rewrite <-!app_comm_cons in Hat. set (lead := if required m then _ else _) in Hat.
  rewrite read_mods_step, (peek_byte c _ Hat). cbn [head].
  assert (is_mod (Some lead) = true) as -> by (unfold lead; by destruct (required m)).
  destruct (read_byte lead c _ Hat) as [-> Hat1]. rewrite <-app_assoc in Hat1.
  destruct (read_scope_encode (modifier m) _ _ Hm Hat1) as (c2 & -> & Hat2). cbn [rbind length].
  assert (Ed : {| required := lead =? elem.CMOD_REQD; modifier := modifier m |} = m)
    by (destruct m as [req sc]; unfold lead; cbn [required modifier]; by destruct req).
  rewrite Ed. destruct (Nat.leb_spec MAX_DEPTH (depth + length acc)) as [Hle|Hgt]; [split; [lia|done]|].
  destruct (IH Hms fuel c2 (acc ++ [m]) Hat2) as [IHok IHerr]. rewrite length_app in IHok, IHerr. cbn [length] in *. rewrite <-app_assoc in IHok. split.
  - intros Hf Hd. apply IHok; lia.
  - intros _ Hd. destruct ms as [|m' ms]; [cbn [length] in Hd; lia|]. apply IHerr; [done|]. lia.
Qed.

Lemma read_mods_encode ms b c depth rest : mods_ok tables ms = true -> is_mod (Some b) = false ->
  at_ c (encode_mods ms ++ b :: rest) ->
  decodes (read_mods c tables depth) (is_empty ms || Nat.leb (depth + length ms) MAX_DEPTH) ms (b :: rest).
Proof.
  intros Hms Hb Hat. destruct (read_mods_loop_encode ms b (S MAX_DEPTH) c depth [] rest Hms Hb Hat) as [Hok Herr].
  cbn [length app] in *. rewrite Nat.add_0_r in *. unfold read_mods. destruct ms as [|m ms].
  - unfold decodes. cbn [is_empty orb]. rewrite read_mods_step, (peek_byte c _ Hat). cbn [head encode_mods flat_map app]. rewrite Hb. by exists c.
  - cbn [is_empty orb]. unfold decodes. destruct (Nat.leb_spec (depth + length (m :: ms)) MAX_DEPTH); [apply Hok; lia|by apply Herr].
Qed.

Lemma encode_element_head t : sig_ok tables t = true ->
  exists b r, encode_element t = b :: r /\ is_mod (Some b) = false /\ b <> elem.VOID.
Proof.
  destruct t as [p|[k|] s|[k|] s args|n|n|m|m r ss bs|[m|]|m|]; cbn [encode_element]; try done; intros _; do 2 eexists; (split; [reflexivity|]).
  all: try (by split). all: by destruct p || by destruct k.
Qed.

Lemma read_times_encode {A} (f : Cursor -> decoded A) (enc : A -> list Z) (fits : A -> bool) xs c rest :
  Forall (fun x => forall c rest, at_ c (enc x ++ rest) -> decodes (f c) (fits x) x rest) xs ->
  at_ c (flat_map enc xs ++ rest) -> decodes (read_times (length xs) f c) (forallb fits xs) xs rest.
Proof.
  intros Hxs. revert c. induction Hxs as [|x xs Hx _ IH]; intros c Hat; [by exists c|]. cbn [flat_map] in Hat. rewrite <-app_assoc in Hat.
  specialize (Hx c _ Hat). unfold decodes. cbn [length read_times forallb]. unfold decodes in Hx. destruct (fits x); cbn [andb].
  - destruct Hx as (c1 & -> & Hat1). cbn [rbind]. specialize (IH c1 Hat1). unfold decodes in IH. destruct (forallb fits xs).
    + destruct IH as (c2 & -> & Hat2). by exists c2.
    + by rewrite IH.
  - by rewrite Hx.
Qed.

Lemma read_all_encode {A} (f : Cursor -> decoded A) (enc : A -> list Z) (ok : A -> bool) xs c rest :
  (forall x c rest, ok x = true -> at_ c (enc x ++ rest) -> decodes (f c) true x rest) -> forallb ok xs = true ->
  at_ c (flat_map enc xs ++ rest) -> decodes (read_times (length xs) f c) true xs rest.
Proof.
  intros Hf Hxs Hat. assert (forallb (fun _ : A => true) xs = true) as <- by (by apply forallb_forall).
  apply (read_times_encode f enc (fun _ => true)); [|done]. apply forallb_Forall in Hxs. eapply Forall_impl; [exact Hxs|]. cbv beta. auto.
Qed.

(** Decoding a type after its modifiers. *)
Definition element_decodes (t : TypeSig) : Prop := sig_ok tables t = true -> forall depth c rest, at_ c (encode_element t ++ rest) ->
  decodes (decode_element c tables depth) (Nat.leb (depth + height t) MAX_DEPTH) t rest.

Lemma height_pos t : (1 <= height t)%nat.
Proof. destruct t; cbn [height]; lia. Qed.

Lemma modified_decodes m : element_decodes (ty m) -> modified_ok tables m = true -> forall depth c rest, at_ c (encode m ++ rest) ->
  decodes (decode c tables depth) (Nat.leb (depth + modified_height m) MAX_DEPTH) m rest.
Proof.
  intros Ht [Hms Hok]%andb_true_iff depth c rest Hat. destruct m as [ms t]. cbn [mods ty] in *. unfold encode in Hat. cbn [mods ty] in Hat.
  rewrite <-app_assoc in Hat. destruct (encode_element_head t Hok) as (b & r & E & Hb & _). specialize (Ht Hok (depth + length ms)%nat).
  rewrite E in Hat. destruct (is_empty ms || Nat.leb (depth + length ms) MAX_DEPTH)%bool eqn:Ef;
    pose proof (read_mods_encode ms b c depth (r ++ rest) Hms Hb Hat) as Hm; rewrite Ef in Hm; cbn [decodes] in Hm; rewrite decode_eq.
  - destruct Hm as (c1 & -> & Hat1). cbn [rbind]. specialize (Ht c1 rest). rewrite E in Ht. specialize (Ht Hat1).
    unfold modified_height. cbn [mods ty]. rewrite Nat.add_assoc. unfold decodes in *. destruct (Nat.leb _ MAX_DEPTH).
    + destruct Ht as (c2 & -> & Hat2). by exists c2.
    + by rewrite Ht.
  - rewrite Hm. apply orb_false_iff in Ef as [_ Ef%Nat.leb_gt]. unfold modified_height. cbn [mods ty]. pose proof (height_pos t).
    unfold decodes. by rewrite (proj2 (Nat.leb_gt _ _)) by lia.
Qed.

(** The first byte of an element. *)
Lemma decode_element_byte b r c depth : at_ c (b :: r) ->
  exists c1, at_ c1 r /\ decode_element c tables depth = if Nat.leb MAX_DEPTH depth then Err TooDeep else decode_payload decode b c1 tables depth.
Proof.
  intros Hat. destruct (read_byte b c r Hat) as [E Hat1]. exists (advance c 1). split; [done|]. unfold decode_element, decode_element_with.
  by rewrite E.
Qed.

Lemma read_array_shape_encode m rank sizes bounds c rest :
  (1 <=? rank) = true -> u29 rank = true -> (Z.of_nat (length sizes) <=? rank) = true -> forallb u29 sizes = true ->
  (Z.of_nat (length bounds) <=? rank) = true -> forallb i29 bounds = true ->
  at_ c (compress rank ++ compress (Z.of_nat (length sizes)) ++ flat_map compress sizes
         ++ compress (Z.of_nat (length bounds)) ++ flat_map compress_signed bounds ++ rest) ->
  decodes (read_array_shape c m) true (ArraySig m rank sizes bounds) rest.
Proof.
  intros H1%Z.leb_le Hr Hs%Z.leb_le Hss Hb%Z.leb_le Hbs Hat. pose proof (proj1 (u29_spec rank) Hr).
  unfold read_array_shape. destruct (need_read_compress _ _ _ Hr Hat) as (c1 & -> & Hat1). cbn [rbind].
  rewrite (proj2 (Z.eqb_neq rank 0)) by lia.
  destruct (need_read_compress (Z.of_nat (length sizes)) _ _ ltac:(apply u29_spec; lia) Hat1) as (c2 & -> & Hat2). cbn [rbind].
  rewrite (proj2 (Z.ltb_ge rank _)) by lia. rewrite Nat2Z.id.
  destruct (read_all_encode _ _ u29 sizes c2 _ (fun x c rest => need_read_compress x c rest) Hss Hat2) as (c3 & -> & Hat3). cbn [rbind].
  destruct (need_read_compress (Z.of_nat (length bounds)) _ _ ltac:(apply u29_spec; lia) Hat3) as (c4 & -> & Hat4). cbn [rbind].
  rewrite (proj2 (Z.ltb_ge rank _)) by lia. rewrite Nat2Z.id.
  destruct (read_all_encode _ _ i29 bounds c4 _ (fun x c rest => need_read_signed x c rest) Hbs Hat4) as (c5 & -> & Hat5). cbn [rbind].
  by exists c5.
Qed.

Lemma height_list_fits depth (args : list ModifiedType) :
  Nat.leb (depth + S (list_max (map modified_height args))) MAX_DEPTH
  = (Nat.ltb depth MAX_DEPTH && forallb (fun m => Nat.leb (S depth + modified_height m) MAX_DEPTH) args)%bool.
Proof.
  apply eq_true_iff_eq. rewrite andb_true_iff, forallb_forall, Nat.leb_le, Nat.ltb_lt.
  assert (Hm : forall k, (list_max (map modified_height args) <= k <-> forall m, In m args -> modified_height m <= k)%nat).
  { intros k. rewrite list_max_le, List.Forall_map, List.Forall_forall. done. }
  split.
  - intros H. split; [lia|]. intros m Hin. apply Nat.leb_le.
    pose proof (proj1 (Hm (list_max (map modified_height args))) (le_n _) m Hin). lia.
  - intros [Hd H]. assert (list_max (map modified_height args) <= MAX_DEPTH - S depth)%nat; [|lia].
    apply Hm. intros m Hin. specialize (H m Hin). apply Nat.leb_le in H. lia.
Qed.

(** One child position: the shape shared by four constructors. *)
Lemma one_child (wrap : ModifiedType -> TypeSig) b m c depth rest :
  element_decodes (ty m) -> modified_ok tables m = true -> at_ c (encode m ++ rest) -> (depth < MAX_DEPTH)%nat ->
  decode_payload decode b c tables depth = (let? (m, c) := decode c tables (S depth) in Ok (wrap m, c)) ->
  decodes (decode_payload decode b c tables depth) (Nat.leb (depth + S (modified_height m)) MAX_DEPTH) (wrap m) rest.
Proof.
  intros IH Hok Hat Hd ->. pose proof (modified_decodes m IH Hok (S depth) c rest Hat) as Hm.
  rewrite Nat.add_succ_comm in Hm. unfold decodes in *. destruct (Nat.leb _ MAX_DEPTH); [|by rewrite Hm].
  destruct Hm as (c1 & -> & Hat1). by exists c1.
Qed.

Lemma modified_head m : modified_ok tables m = true -> exists b r, encode m = b :: r /\ b <> elem.VOID.
Proof.
  intros [Hms Ht]%andb_true_iff. destruct (encode_element_head (ty m) Ht) as (b & r & E & _ & Hv). unfold encode. rewrite E.
  destruct (mods m) as [|m' ms]; [by exists b, r|]. cbn [encode_mods flat_map]. rewrite <-app_comm_cons. do 2 eexists. split; [done|]. by destruct (required m').
Qed.

Lemma decode_element_encode t : element_decodes t.
Proof.
  induction t as [p|k s|k s args IH|n|n|m IH|m rank sizes bounds IH| |m IH|m IH|] using TypeSig_nested_ind;
    intros Hok depth c rest Hat; (destruct (encode_element_head _ Hok) as (b & r & E & _ & _)); pose proof E as E'; rewrite E' in Hat;
    (destruct (decode_element_byte b (r ++ rest) c depth Hat) as (c1 & Hat1 & ->)); clear E';
    (destruct (Nat.leb_spec MAX_DEPTH depth) as [Hd|Hd];
      [unfold decodes; rewrite (proj2 (Nat.leb_gt _ _)) by (cbn [height]; lia); done|]).
  - injection E as <- <-. rewrite (proj2 (Nat.leb_le _ _)) by (cbn [height]; lia). exists c1. split; [by destruct p|done].
  - rewrite (proj2 (Nat.leb_le _ _)) by (cbn [height]; lia). destruct k as [k|]; [|done]. cbn [sig_ok] in Hok. injection E as <- <-.
    destruct (read_scope_encode s c1 rest Hok Hat1) as (c2 & Es & Hat2). exists c2. split; [|done].
    destruct k; unfold decode_payload; simpl; by rewrite Es.
  - destruct k as [k|]; [|done]. cbn [sig_ok] in Hok. rewrite !andb_true_iff in Hok. destruct Hok as [[Hs Hn] Hargs].
    injection E as <- <-. rewrite <-!app_comm_cons in Hat1. destruct (read_byte _ _ _ Hat1) as [E1 Hat2]. rewrite <-!app_assoc in Hat2.
    destruct (read_scope_encode s _ _ Hs Hat2) as (c2 & E2 & Hat3).
    destruct (need_read_compress _ _ _ Hn Hat3) as (c3 & E3 & Hat4).
    assert (Ep : decode_payload decode elem.GENERICINST c1 tables depth =
      let? (args, c) := read_times (length args) (fun c => decode c tables (S depth)) c3 in Ok (GenericSig (Some k) s args, c)).
    { unfold decode_payload. cbn [primitive_of Z.eqb Pos.eqb elem.GENERICINST]. change (primitive_of elem.GENERICINST) with (@None Primitive).
      cbn iota. change (elem.GENERICINST =? elem.GENERICINST) with true. cbn -[read_times decode].
      rewrite E1. cbn [need ok_or rbind]. replace (named_kind_of (named_kind_byte k)) with (Some k) by (by destruct k). cbn [ok_or rbind].
      rewrite E2. cbn [rbind]. rewrite E3. cbn [rbind]. by rewrite Nat2Z.id. }
    rewrite Ep. cbn [height]. fold modified_height. rewrite height_list_fits, (proj2 (Nat.ltb_lt _ _)) by done. cbn [andb].
    assert (Hargs' : Forall (fun m => forall c rest, at_ c (encode m ++ rest) ->
      decodes (decode c tables (S depth)) (Nat.leb (S depth + modified_height m) MAX_DEPTH) m rest) args).
    { apply forallb_Forall in Hargs. rewrite Forall_forall in *. intros m Hin c' rest'. apply modified_decodes; [by apply IH|by apply Hargs]. }
    set (fits := fun m => Nat.leb (S depth + modified_height m) MAX_DEPTH) in *.
    pose proof (read_times_encode _ encode fits args c3 rest Hargs' Hat4) as Hr. unfold decodes in *.
    destruct (forallb fits args); [|by rewrite Hr]. destruct Hr as (c4 & -> & Hat5). by exists c4.
  - rewrite (proj2 (Nat.leb_le _ _)) by (cbn [height]; lia). cbn [sig_ok] in Hok. injection E as <- <-.
    destruct (need_read_compress n c1 rest Hok Hat1) as (c2 & Es & Hat2). exists c2. split; [|done]. unfold decode_payload; simpl; by rewrite Es.
  - rewrite (proj2 (Nat.leb_le _ _)) by (cbn [height]; lia). cbn [sig_ok] in Hok. injection E as <- <-.
    destruct (need_read_compress n c1 rest Hok Hat1) as (c2 & Es & Hat2). exists c2. split; [|done]. unfold decode_payload; simpl; by rewrite Es.
  - injection E as <- <-. by apply (one_child SzArray).
  - cbn [sig_ok] in Hok. rewrite !andb_true_iff in Hok. destruct Hok as [[[[[[Hm H1] Hr] Hs] Hss] Hb] Hbs].
    injection E as <- <-. fold (encode m) in Hat1. rewrite <-!app_assoc in Hat1. pose proof (modified_decodes m IH) as Hmd. unfold modified_ok in Hmd. rewrite andb_true_iff in Hmd.
    specialize (Hmd Hm (S depth) c1 _ Hat1). rewrite Nat.add_succ_comm in Hmd. cbn [height]. fold (modified_height m).
    unfold decodes in *. destruct (Nat.leb _ MAX_DEPTH).
    + destruct Hmd as (c2 & Em & Hat2). destruct (read_array_shape_encode m rank sizes bounds c2 rest H1 Hr Hs Hss Hb Hbs Hat2) as (c3 & E3 & Hat3).
      exists c3. split; [|done]. unfold decode_payload. simpl. by rewrite Em.
    + unfold decode_payload. simpl. by rewrite Hmd.
  - injection E as <- <-. rewrite (proj2 (Nat.leb_le _ _)) by (cbn [height]; lia). destruct (read_byte _ _ _ Hat1) as [E1 Hat2].
    exists (advance c1 1). split; [|done]. unfold decode_payload. simpl. rewrite (peek_byte _ _ Hat1). simpl. by rewrite E1.
  - injection E as <- <-. apply (one_child (fun m => Ptr (Some m))); try done.
    destruct (modified_head m Hok) as (b & r & Em & Hv). unfold decode_payload. simpl. rewrite (peek_byte _ _ Hat1).
    unfold encode in Em. rewrite Em. cbn [app head]. by rewrite (proj2 (Z.eqb_neq _ _)).
  - injection E as <- <-. by apply (one_child ByRef).
  - injection E as <- <-. rewrite (proj2 (Nat.leb_le _ _)) by (cbn [height]; lia). by exists c1.
Qed.
End round_trip.

(** ** Whatever the bytes *)

(** At least [k] bytes lie between the cursors. *)
Definition moved (c c' : Cursor) (k : nat) : Prop := cursor_ok c' /\ (length (remaining c') + k <= length (remaining c))%nat.

Lemma moved_refl c : cursor_ok c -> moved c c 0.
Proof. intros Hc. split; [done|lia]. Qed.

Lemma moved_trans c1 c2 c3 j k : moved c1 c2 j -> moved c2 c3 k -> moved c1 c3 (j + k).
Proof. intros [_ H1] [H3 H2]. split; [done|lia]. Qed.

Lemma moved_weaken c c' j k : (k <= j)%nat -> moved c c' j -> moved c c' k.
Proof. intros Hle [Hc H]. split; [done|lia]. Qed.

Lemma advance_moved c n : cursor_ok c -> (n <= length (remaining c))%nat -> moved c (advance c n) n.
Proof. intros Hc Hn. split; [by apply advance_ok|]. rewrite remaining_advance, length_drop by done. lia. Qed.

Lemma read_u8_sound c b c' : cursor_ok c -> read_u8 c = Some (b, c') -> byte b /\ moved c c' 1.
Proof.
  intros Hc. rewrite read_u8_remaining by done. pose proof (remaining_bytes c Hc) as Hb.
  destruct (remaining c) as [|b' r] eqn:E; [done|]. intros [= <- <-]. split; [by apply Forall_inv in Hb|].
  apply advance_moved; [done|]. rewrite E. cbn [length]. lia.
Qed.

(** [compress] is the shortest encoding. *)
Lemma compress_shortest w n : 0 <= n < 2 ^ bits_wide w -> (length (compress n) <= Z.to_nat (bytes_wide w))%nat.
Proof.
  intros Hn. unfold compress. destruct w; cbn [bits_wide bytes_wide] in *;
    [change (2 ^ 7) with 128 in Hn; change (Z.to_nat 1) with 1%nat|change (2 ^ 14) with 16384 in Hn; change (Z.to_nat 2) with 2%nat
    |change (2 ^ 29) with 536870912 in Hn; change (Z.to_nat 4) with 4%nat].
  - rewrite (proj2 (Z.leb_le n 127)) by lia. cbn [length]. lia.
  - destruct (n <=? 127); [cbn [length]; lia|]. rewrite (proj2 (Z.leb_le n 16383)) by lia. cbn [length]. lia.
  - destruct (n <=? 127), (n <=? 16383); cbn [length]; lia.
Qed.

Lemma compress_signed_shortest w n : - 2 ^ (bits_wide w - 1) <= n < 2 ^ (bits_wide w - 1) ->
  (length (compress_signed n) <= Z.to_nat (bytes_wide w))%nat.
Proof.
  intros Hn. unfold compress_signed. cbv zeta. destruct w; cbn [bits_wide bytes_wide] in *;
    [change (2 ^ (7 - 1)) with 64 in Hn; change (Z.to_nat 1) with 1%nat|change (2 ^ (14 - 1)) with 8192 in Hn; change (Z.to_nat 2) with 2%nat
    |change (Z.to_nat 4) with 4%nat].
  - rewrite (proj2 (Z.leb_le (-64) n)), (proj2 (Z.leb_le n 63)) by lia. cbn [andb length]. lia.
  - destruct (_ && _)%bool; [cbn [length]; lia|]. rewrite (proj2 (Z.leb_le (-8192) n)), (proj2 (Z.leb_le n 8191)) by lia. cbn [andb length]. lia.
  - destruct (_ && _)%bool; [cbn [length]; lia|]. destruct (_ && _)%bool; cbn [length]; lia.
Qed.

Lemma bits_max w : 2 ^ bits_wide w <= 536870912.
Proof. destruct w; simpl; lia. Qed.

Lemma read_u32_sound c n c' : cursor_ok c -> Cursor_read_compressed_u32 c = Some (n, c') ->
  u29 n = true /\ moved c c' (length (compress n)).
Proof.
  intros Hc. rewrite read_u32_remaining by done. destruct (read_compressed_u32 (remaining c)) as [[v k]|] eqn:E; [|done].
  cbn [mbind option_bind]. intros [= -> <-]. apply compressed_u32_bounds in E as (w & -> & Hn & Hk); [|by apply remaining_bytes].
  pose proof (bits_max w). split; [apply u29_spec; lia|]. eapply moved_weaken; [by apply compress_shortest|]. apply advance_moved; [done|lia].
Qed.

Lemma read_i32_sound c n c' : cursor_ok c -> read_compressed_i32 c = Some (n, c') ->
  i29 n = true /\ moved c c' (length (compress_signed n)).
Proof.
  intros Hc. rewrite read_i32_remaining by done. destruct (read_compressed_u32 (remaining c)) as [[raw k]|] eqn:E; [|done].
  cbn [mbind option_bind]. intros [= <- <-]. apply compressed_u32_bounds in E as (w & -> & Hn & Hk); [|by apply remaining_bytes].
  replace (if bytes_wide w =? 1 then 7 else _) with (bits_wide w) by (by destruct w).
  pose proof (unrotate_bounds (bits_wide w) raw ltac:(by destruct w) Hn) as Hu. set (u := unrotate _ _) in *. split.
  - unfold i29. rewrite andb_true_iff, Z.leb_le, Z.ltb_lt. destruct w; simpl in Hu; lia.
  - eapply moved_weaken; [by apply compress_signed_shortest|]. apply advance_moved; [done|lia].
Qed.

(** What a successful step of the decoder gives. *)
Definition sound {A} (ok : A -> bool) (enc : A -> list Z) (d : Cursor -> decoded A) : Prop :=
  forall c x c', cursor_ok c -> d c = Ok (x, c') -> ok x = true /\ moved c c' (length (enc x)).

Lemma need_ok {A} (o : option (A * Cursor)) r : need o = Ok r -> o = Some r.
Proof. by destruct o; intros [= ->]. Qed.

Lemma sound_u32 : sound u29 compress (fun c => need (Cursor_read_compressed_u32 c)).
Proof. intros c n c' Hc E%need_ok. by apply read_u32_sound. Qed.

Lemma sound_i32 : sound i29 compress_signed (fun c => need (read_compressed_i32 c)).
Proof. intros c n c' Hc E%need_ok. by apply read_i32_sound. Qed.

Lemma sound_times {A} ok enc (d : Cursor -> decoded A) n : sound ok enc d ->
  sound (fun xs => forallb ok xs && Nat.eqb (length xs) n)%bool (flat_map enc) (read_times n d).
Proof.
  intros Hd. induction n as [|n IH]; intros c xs c' Hc; cbn [read_times].
  - intros [= <- <-]. split; [done|]. by apply moved_refl.
  - destruct (d c) as [[x c1]|] eqn:E1; [|done]. cbn [rbind]. destruct (read_times n d c1) as [[ys c2]|] eqn:E2; [|done].
    intros [= <- <-]. destruct (Hd _ _ _ Hc E1) as [Hx Hm1]. destruct (IH _ _ _ (proj1 Hm1) E2) as [Hys Hm2]. split.
    + cbn [forallb length]. rewrite Hx. done.
    + cbn [flat_map]. rewrite length_app. by eapply moved_trans.
Qed.

(** ** The encoder writes bytes *)

Lemma byte_pack w raw : 0 <= raw < 2 ^ bits_wide w -> Forall byte (pack w raw).
Proof. intros H. by apply pack_lead. Qed.

Lemma byte_compress n : u29 n = true -> Forall byte (compress n).
Proof. intros Hn%u29_spec. destruct (compress_pack n Hn) as (w & -> & Hw). apply byte_pack. lia. Qed.

Lemma byte_compress_signed n : i29 n = true -> Forall byte (compress_signed n).
Proof.
  unfold i29. rewrite andb_true_iff, Z.leb_le, Z.ltb_lt. intros Hn. destruct (compress_signed_pack n Hn) as (w & -> & Hw).
  apply byte_pack, rotate_range. by destruct w.
Qed.

Lemma byte_flat_map {A} (f : A -> list Z) (ok : A -> bool) l :
  (forall x, ok x = true -> Forall byte (f x)) -> forallb ok l = true -> Forall byte (flat_map f l).
Proof.
  intros Hf. induction l as [|x l IH]; cbn [forallb flat_map]; [constructor|]. intros [Hx Hl]%andb_true_iff. apply Forall_app. auto.
Qed.

Section sound.
Context (tables : ImageTables).

Lemma byte_token s : scope_ok tables s = true -> Forall byte (encode_token s).
Proof.
  intros Hs. apply byte_compress, u29_spec. destruct s as [i|i]; cbn [scope_ok] in Hs; rewrite !andb_true_iff, Z.leb_le, !Z.ltb_lt in Hs.
  - rewrite Z.shiftl_mul_pow2 by lia. change (2 ^ 2) with 4. lia.
  - rewrite lor_shift by (simpl; lia). change (2 ^ 2) with 4. lia.
Qed.

Lemma byte_mods ms : mods_ok tables ms = true -> Forall byte (encode_mods ms).
Proof.
  apply byte_flat_map. intros m Hm. constructor; [|by apply byte_token]. unfold byte. destruct (required m); cbv; done || lia.
Qed.

Lemma byte_encode m : modified_ok tables m = true -> Forall byte (encode m).
Proof.
  intros [Hms Ht]%andb_true_iff. apply Forall_app. split; [by apply byte_mods|]. revert Ht. generalize (ty m). clear m Hms. intros t.
  assert (Hpos : forall m, (sig_ok tables (ty m) = true -> Forall byte (encode_element (ty m))) -> modified_ok tables m = true ->
    Forall byte (encode_mods (mods m) ++ encode_element (ty m))).
  { intros m Hm [Hms Ht]%andb_true_iff. apply Forall_app. split; [by apply byte_mods|auto]. }
  assert (Hb : forall b, (0 <=? b) && (b <? 256) = true -> byte b) by (intros b; rewrite andb_true_iff, Z.leb_le, Z.ltb_lt; done).
  induction t as [p|[k|] s|[k|] s args IH|n|n|m IH|m rank sizes bounds IH| |m IH|m IH|] using TypeSig_nested_ind;
    cbn [encode_element sig_ok]; intros Hok; try done; repeat (apply Forall_cons; split; [by apply Hb; try destruct p; try destruct k|]); auto using Forall_nil_2, byte_token, byte_compress.
  - rewrite !andb_true_iff in Hok. destruct Hok as [[Hs Hn] Hargs]. rewrite !Forall_app. split_and!; [by apply byte_token|by apply byte_compress|].
    apply forallb_Forall in Hargs. induction IH as [|m args Hm _ IHargs]; cbn [flat_map]; [constructor|]. apply Forall_cons in Hargs as [H1 H2].
    apply Forall_app. split; [by apply Hpos|]. apply IHargs; [|done]. apply u29_spec. apply u29_spec in Hn. cbn [length] in Hn. lia.
  - rewrite !andb_true_iff in Hok. destruct Hok as [[[[[[Hm H1] Hr] Hs%Z.leb_le] Hss] Hbn%Z.leb_le] Hbs]. pose proof (proj1 (u29_spec rank) Hr).
    rewrite !Forall_app. split_and!.
    + by apply byte_mods, (proj1 Hm).
    + by apply IH, (proj2 Hm).
    + by apply byte_compress.
    + apply byte_compress, u29_spec. lia.
    + by apply (byte_flat_map _ u29); [apply byte_compress|].
    + apply byte_compress, u29_spec. lia.
    + by apply (byte_flat_map _ i29); [apply byte_compress_signed|].
Qed.

Lemma sound_scope : sound (scope_ok tables) encode_token (fun c => read_scope c tables).
Proof.
  intros c s c' Hc. unfold read_scope. destruct (need _) as [[token c1]|] eqn:E; [|done]. cbn [rbind].
  destruct (sound_u32 _ _ _ Hc E) as [Ht%u29_spec Hm]. unfold resolve_token. cbv zeta.
  destruct (Z.eqb_spec (Z.shiftr token 2) 0) as [|Hr]; [done|].
  rewrite Z.shiftr_div_pow2 in * by lia. change (2 ^ 2) with 4 in *. assert (Ht' : token = 4 * (token / 4) + token mod 4) by (apply Z.div_mod; lia).
  pose proof (Z.mod_pos_bound token 4 ltac:(lia)) as Hmod.
  assert (Hl : Z.land token 3 = token mod 4) by (change 3 with (Z.ones 2); by rewrite Z.land_ones by lia). rewrite Hl.
  assert (Hi : 0 <= token / 4 - 1 < 134217727) by lia.
  destruct ((token mod 4 =? 0) && _)%bool eqn:E0; [|destruct ((token mod 4 =? 1) && _)%bool eqn:E1; [|done]]; intros [= <- <-].
  - apply andb_true_iff in E0 as [E0%Z.eqb_eq Hlt]. split.
    + cbn [scope_ok]. rewrite Hlt, (proj2 (Z.leb_le _ _)), (proj2 (Z.ltb_lt _ 134217727)) by lia. done.
    + unfold encode_token. rewrite Z.shiftl_mul_pow2 by lia. change (2 ^ 2) with 4. by replace ((token / 4 - 1 + 1) * 4) with token by lia.
  - apply andb_true_iff in E1 as [E1%Z.eqb_eq Hlt]. split.
    + cbn [scope_ok]. rewrite Hlt, (proj2 (Z.leb_le _ _)), (proj2 (Z.ltb_lt _ 134217727)) by lia. done.
    + unfold encode_token. rewrite lor_shift by (simpl; lia). change (2 ^ 2) with 4. by replace ((token / 4 - 1 + 1) * 4 + 1) with token by lia.
Qed.

Lemma sound_mods_loop fuel c depth acc ms c' : cursor_ok c -> read_mods_loop fuel c tables depth acc = Ok (ms, c') ->
  exists new, ms = acc ++ new /\ mods_ok tables new = true /\ (new = [] \/ (depth + length ms <= MAX_DEPTH)%nat)
    /\ moved c c' (length (encode_mods new)).
Proof.
  revert c acc. induction fuel as [|fuel IH]; intros c acc Hc; [done|]. rewrite read_mods_step, peek_remaining by done.
  destruct (is_mod _) eqn:Em.
  2: { intros [= <- <-]. exists []. rewrite app_nil_r. split_and!; [done|done|by left|by apply moved_refl]. }
  destruct (Nat.leb_spec MAX_DEPTH (depth + length acc)) as [|Hd]; [done|]. rewrite read_u8_remaining by done.
  destruct (remaining c) as [|b r] eqn:Er; [done|].
  assert (Hm1 : moved c (advance c 1) 1) by (apply advance_moved; [done|]; rewrite Er; cbn [length]; lia).
  destruct (read_scope _ tables) as [[s c2]|] eqn:Es; [|done]. cbn [rbind]. destruct (sound_scope _ _ _ (proj1 Hm1) Es) as [Hs Hm2].
  intros E. destruct (IH c2 _ (proj1 Hm2) E) as (new & -> & Hnew & Hlen & Hm3).
  exists ({| required := b =? elem.CMOD_REQD; modifier := s |} :: new). rewrite <-app_assoc. cbn [app]. split_and!; [done| | |].
  - cbn [mods_ok forallb modifier]. by rewrite Hs.
  - right. rewrite !length_app in *. cbn [length] in *. destruct Hlen as [->|]; cbn [length] in *; lia.
  - cbn [encode_mods flat_map length modifier]. rewrite <-app_comm_cons. cbn [length]. rewrite length_app.
    eapply moved_weaken; [|eapply moved_trans, moved_trans; [exact Hm1|exact Hm2|exact Hm3]]. fold (encode_mods new). lia.
Qed.

Lemma sound_array_shape m c t c' : cursor_ok c -> read_array_shape c m = Ok (t, c') ->
  exists rank sizes bounds, t = ArraySig m rank sizes bounds
    /\ ((1 <=? rank) && u29 rank && (Z.of_nat (length sizes) <=? rank) && forallb u29 sizes
        && (Z.of_nat (length bounds) <=? rank) && forallb i29 bounds)%bool = true
    /\ moved c c' (length (compress rank ++ compress (Z.of_nat (length sizes)) ++ flat_map compress sizes
                          ++ compress (Z.of_nat (length bounds)) ++ flat_map compress_signed bounds)).
Proof.
  intros Hc. unfold read_array_shape. destruct (need _) as [[rank c1]|] eqn:E1; [|done]. cbn [rbind].
  destruct (sound_u32 _ _ _ Hc E1) as [Hr Hm1]. pose proof (proj1 (u29_spec rank) Hr). destruct (Z.eqb_spec rank 0); [done|].
  destruct (need (Cursor_read_compressed_u32 c1)) as [[ns c2]|] eqn:E2; [|done]. cbn [rbind]. destruct (sound_u32 _ _ _ (proj1 Hm1) E2) as [Hns%u29_spec Hm2].
  destruct (Z.ltb_spec rank ns); [done|]. destruct (read_times (Z.to_nat ns) _ c2) as [[sizes c3]|] eqn:E3; [|done]. cbn [rbind].
  destruct (sound_times _ _ _ _ sound_u32 _ _ _ (proj1 Hm2) E3) as [[Hss Hls%Nat.eqb_eq]%andb_true_iff Hm3].
  destruct (need (Cursor_read_compressed_u32 c3)) as [[nb c4]|] eqn:E4; [|done]. cbn [rbind]. destruct (sound_u32 _ _ _ (proj1 Hm3) E4) as [Hnb%u29_spec Hm4].
  destruct (Z.ltb_spec rank nb); [done|]. destruct (read_times (Z.to_nat nb) _ c4) as [[bounds c5]|] eqn:E5; [|done]. cbn [rbind].
  destruct (sound_times _ _ _ _ sound_i32 _ _ _ (proj1 Hm4) E5) as [[Hbs Hlb%Nat.eqb_eq]%andb_true_iff Hm5].
  intros [= <- <-]. exists rank, sizes, bounds. rewrite Hls, Hlb, !Z2Nat.id by lia. split; [done|]. split.
  - rewrite Hr, Hss, Hbs, !(proj2 (Z.leb_le _ _)) by lia. done.
  - rewrite !length_app. repeat (eapply moved_trans; [done|]). done.
Qed.

Definition fits_at {A} (ok : A -> bool) (h : A -> nat) (depth : nat) (x : A) : bool := (ok x && Nat.leb (depth + h x) MAX_DEPTH)%bool.

Section element.
Context (dec : Cursor -> ImageTables -> nat -> decoded ModifiedType).
Context (Hdec : forall depth, sound (fits_at (modified_ok tables) modified_height depth) encode (fun c => dec c tables depth)).

Lemma forallb_fits depth args : forallb (fits_at (modified_ok tables) modified_height (S depth)) args = true -> (depth < MAX_DEPTH)%nat ->
  forallb (modified_ok tables) args = true /\ Nat.leb (depth + S (list_max (map modified_height args))) MAX_DEPTH = true.
Proof using.
  intros H Hd. rewrite height_list_fits, (proj2 (Nat.ltb_lt _ _)) by done. cbn [andb]. rewrite !forallb_forall in *.
  split; intros m Hin; by specialize (H m Hin); apply andb_true_iff in H as [? ?].
Qed.

Lemma sound_child (wrap : ModifiedType -> TypeSig) depth c1 t c' :
  (forall m, exists b, encode_element (wrap m) = b :: encode m) ->
  (forall m, sig_ok tables (wrap m) = modified_ok tables m) -> (forall m, height (wrap m) = S (modified_height m)) ->
  cursor_ok c1 -> (let? (m, c) := dec c1 tables (S depth) in Ok (wrap m, c)) = Ok (t, c') ->
  fits_at (sig_ok tables) height depth t = true /\ moved c1 c' (pred (length (encode_element t))).
Proof using Hdec.
  intros Henc Hok Hh Hc. destruct (dec c1 tables (S depth)) as [[m c2]|] eqn:E; [|done]. intros [= <- <-].
  destruct (Hdec _ _ _ _ Hc E) as [[Hm Hd]%andb_true_iff Hmv]. split.
  - unfold fits_at. rewrite Hok, Hm, Hh, <-Nat.add_succ_comm. done.
  - by destruct (Henc m) as [b ->].
Qed.

Lemma sound_element depth : sound (fits_at (sig_ok tables) height depth) encode_element (fun c => decode_element_with dec c tables depth).
Proof using Hdec.
  intros c t c' Hc. unfold decode_element_with. destruct (Nat.leb_spec MAX_DEPTH depth) as [|Hd]; [done|].
  destruct (need (read_u8 c)) as [[b c1]|] eqn:E; [|done]. cbn [rbind]. apply need_ok in E.
  destruct (read_u8_sound _ _ _ Hc E) as [_ Hm1]. pose proof (proj1 Hm1) as Hc1.
  assert (Hleaf : forall t, height t = 1%nat -> sig_ok tables t = true -> fits_at (sig_ok tables) height depth t = true).
  { intros t' Hh Ht. unfold fits_at. rewrite Ht, Hh, (proj2 (Nat.leb_le _ _)) by lia. done. }
  cut (decode_payload dec b c1 tables depth = Ok (t, c') ->
    fits_at (sig_ok tables) height depth t = true /\ moved c1 c' (pred (length (encode_element t)))).
  { intros Hp Ep. destruct (Hp Ep) as [Hf Hm2]. split; [done|]. eapply moved_weaken; [|by eapply moved_trans]. lia. }
  unfold decode_payload. destruct (primitive_of b) as [p|]; [intros [= <- <-]; split; [by apply Hleaf|by apply moved_refl]|].
  destruct (b =? elem.TYPEDBYREF); [intros [= <- <-]; split; [by apply Hleaf|by apply moved_refl]|].
  destruct (b =? elem.VOID); [done|].
  assert (Hnamed : forall k, (let? (scope, c) := read_scope c1 tables in Ok (NamedSig (Some k) scope, c)) = Ok (t, c') ->
    fits_at (sig_ok tables) height depth t = true /\ moved c1 c' (pred (length (encode_element t)))).
  { intros k. destruct (read_scope c1 tables) as [[s c2]|] eqn:Es; [|done]. intros [= <- <-].
    destruct (sound_scope _ _ _ Hc1 Es) as [Hs Hm2]. split; [by apply Hleaf|done]. }
  destruct (b =? elem.CLASS); [apply Hnamed|]. destruct (b =? elem.VALUETYPE); [apply Hnamed|]. clear Hnamed.
  assert (Hvar : forall wrap : Z -> TypeSig, (forall n, exists b, encode_element (wrap n) = b :: compress n) ->
    (forall n, sig_ok tables (wrap n) = u29 n) -> (forall n, height (wrap n) = 1%nat) ->
    (let? (n, c) := need (Cursor_read_compressed_u32 c1) in Ok (wrap n, c)) = Ok (t, c') ->
    fits_at (sig_ok tables) height depth t = true /\ moved c1 c' (pred (length (encode_element t)))).
  { intros wrap Henc Hok Hh. destruct (need _) as [[n c2]|] eqn:En; [|done]. intros [= <- <-].
    destruct (sound_u32 _ _ _ Hc1 En) as [Hn Hm2]. split; [apply Hleaf; [apply Hh|by rewrite Hok]|]. by destruct (Henc n) as [b' ->]. }
  destruct (b =? elem.VAR); [apply Hvar; eauto|]. destruct (b =? elem.MVAR); [apply Hvar; eauto|]. clear Hvar.
  destruct (b =? elem.SZARRAY); [apply (sound_child SzArray); eauto|].
  destruct (b =? elem.ARRAY).
  { destruct (dec c1 tables (S depth)) as [[m c2]|] eqn:Em; [|done]. cbn [rbind].
    destruct (Hdec _ _ _ _ Hc1 Em) as [[Hm Hh]%andb_true_iff Hm2]. intros Es.
    destruct (sound_array_shape m _ _ _ (proj1 Hm2) Es) as (rank & sizes & bounds & -> & Hok & Hm3).
    split; [unfold fits_at; rewrite andb_true_iff; split|].
    - cbn [sig_ok]. fold (modified_ok tables m). rewrite !andb_true_iff in Hok. rewrite !andb_true_iff. tauto.
    - cbn [height]. fold (modified_height m). by rewrite <-Nat.add_succ_comm.
    - cbn [encode_element]. fold (encode m). cbn [length pred]. rewrite length_app. by eapply moved_trans. }
  destruct (b =? elem.PTR).
  { rewrite peek_remaining by done. destruct (remaining c1) as [|b1 r] eqn:Er; cbn [head].
    - apply (sound_child (fun m => Ptr (Some m))); eauto.
    - destruct (b1 =? elem.VOID); [|apply (sound_child (fun m => Ptr (Some m))); eauto].
      rewrite read_u8_remaining, Er by done. intros [= <- <-]. split; [by apply Hleaf|]. apply (advance_moved c1 1); [done|]. rewrite Er. cbn [length]. lia. }
  destruct (b =? elem.BYREF); [apply (sound_child ByRef); eauto|].
  destruct (b =? elem.GENERICINST); [|done].
  destruct (need (read_u8 c1)) as [[kb c2]|] eqn:E2; [|done]. cbn [rbind]. apply need_ok in E2. destruct (read_u8_sound _ _ _ Hc1 E2) as [_ Hm2].
  destruct (named_kind_of kb) as [k|]; [|done]. cbn [ok_or rbind].
  destruct (read_scope c2 tables) as [[s c3]|] eqn:E3; [|done]. cbn [rbind]. destruct (sound_scope _ _ _ (proj1 Hm2) E3) as [Hs Hm3].
  destruct (need (Cursor_read_compressed_u32 c3)) as [[n c4]|] eqn:E4; [|done]. cbn [rbind]. destruct (sound_u32 _ _ _ (proj1 Hm3) E4) as [Hn Hm4].
  destruct (read_times _ _ c4) as [[args c5]|] eqn:E5; [|done]. intros [= <- <-].
  destruct (sound_times _ _ _ _ (Hdec (S depth)) _ _ _ (proj1 Hm4) E5) as [[Hargs Hl%Nat.eqb_eq]%andb_true_iff Hm5].
  destruct (forallb_fits depth args Hargs Hd) as [Hargs' Hh]. pose proof (proj1 (u29_spec n) Hn).
  assert (En : Z.of_nat (length args) = n) by lia. split.
  - unfold fits_at. rewrite andb_true_iff. split; [|exact Hh]. cbn [sig_ok]. rewrite Hs, En, Hn. exact Hargs'.
  - cbn [encode_element]. rewrite En. cbn [app length pred]. rewrite !length_app. change (S ?x) with (1 + x)%nat.
    repeat (eapply moved_trans; [done|]). done.
Qed.
End element.

Lemma sound_decode n depth : sound (fits_at (modified_ok tables) modified_height depth) encode (fun c => decode_up_to n c tables depth).
Proof.
  revert depth. induction n as [|n IH]; intros depth c m c' Hc; [done|]. cbv beta. rewrite decode_up_to_S. unfold read_mods.
  destruct (read_mods_loop _ c tables depth []) as [[ms c1]|] eqn:E1; cbn [rbind]; [|done].
  destruct (sound_mods_loop _ _ _ _ _ _ Hc E1) as (new & -> & Hms & _ & Hm1). cbn [app] in *.
  destruct (decode_element_with _ c1 tables _) as [[t c2]|] eqn:E2; cbn [rbind]; [|done]. intros [= <- <-].
  destruct (sound_element _ IH _ _ _ _ (proj1 Hm1) E2) as [[Ht Hh]%andb_true_iff Hm2]. split.
  - unfold fits_at, modified_ok, modified_height. cbn [mods ty]. by rewrite Hms, Ht, Nat.add_assoc.
  - unfold encode. cbn [mods ty]. rewrite length_app. by eapply moved_trans.
Qed.
End sound.

(** ** Method, field and property signatures *)

Section members.
Context (tables : ImageTables).

Definition ret_ok (r : RetType) : bool :=
  match r with RetVoid ms => mods_ok tables ms | RetOf m => modified_ok tables m end.
Definition method_ok (s : DecodedMethodSig) : bool :=
  (match calling_convention s with ConvGeneric count => u29 count | _ => true end
   && ret_ok (return_type s) && u29 (Z.of_nat (length (param_types s))) && forallb (modified_ok tables) (param_types s))%bool.

Definition fits (m : ModifiedType) : bool := Nat.leb (modified_height m) MAX_DEPTH.
Definition ret_fits (r : RetType) : bool :=
  match r with RetVoid ms => Nat.leb (length ms) MAX_DEPTH | RetOf m => fits m end.
Definition method_fits (s : DecodedMethodSig) : bool := (ret_fits (return_type s) && forallb fits (param_types s))%bool.

Lemma decode_encode m c rest : modified_ok tables m = true -> at_ c (encode m ++ rest) -> decodes (decode c tables 0) (fits m) m rest.
Proof. intros Hok Hat. apply (modified_decodes tables m (decode_element_encode tables (ty m)) Hok 0 c rest Hat). Qed.

Lemma decode_ret_encode r c rest : ret_ok r = true -> at_ c (encode_ret r ++ rest) ->
  decodes (decode_ret_type c tables) (ret_fits r) r rest.
Proof.
  intros Hok Hat. destruct r as [ms|[ms t]]; cbn [ret_ok encode_ret ret_fits] in *.
  - rewrite <-app_assoc in Hat. pose proof (read_mods_encode tables ms elem.VOID c 0 rest Hok eq_refl Hat) as Hm.
    replace (is_empty ms || _)%bool with (Nat.leb (length ms) MAX_DEPTH) in Hm by (by destruct ms).
    unfold decode_ret_type, decodes in *. destruct (Nat.leb _ MAX_DEPTH); [|by rewrite Hm]. destruct Hm as (c1 & -> & Hat1). cbn [rbind].
    rewrite (peek_byte _ _ Hat1). cbn [head]. destruct (read_byte _ _ _ Hat1) as [-> Hat2]. by exists (advance c1 1).
  - unfold encode in Hat. cbn [mods ty] in Hat. rewrite <-app_assoc in Hat. apply andb_true_iff in Hok as [Hms Ht]. cbn [mods ty] in *.
    destruct (encode_element_head tables t Ht) as (b & r & E & Hb & Hv). pose proof (decode_element_encode tables t Ht (length ms)) as Hel.
    rewrite E in Hat. pose proof (read_mods_encode tables ms b c 0 (r ++ rest) Hms Hb Hat) as Hm. unfold fits, modified_height. cbn [mods ty].
    pose proof (height_pos t). unfold decode_ret_type, decodes in *. destruct (is_empty ms || _)%bool eqn:Ef.
    + destruct Hm as (c1 & -> & Hat1). cbn [rbind]. rewrite (peek_byte _ _ Hat1). cbn [head]. rewrite (proj2 (Z.eqb_neq _ _)) by done.
      specialize (Hel c1 rest). rewrite E in Hel. specialize (Hel Hat1). destruct (Nat.leb (length ms + height t) MAX_DEPTH).
      * destruct Hel as (c2 & -> & Hat2). by exists c2.
      * by rewrite Hel.
    + apply orb_false_iff in Ef as [_ Ef%Nat.leb_gt]. rewrite (proj2 (Nat.leb_gt _ _)) by lia. by rewrite Hm.
Qed.

(** The first byte of a method signature says its convention. *)
Lemma method_first (this explicit : bool) cc :
  let first := Z.lor (Z.lor (if this then conv.HASTHIS else 0) (if explicit then conv.EXPLICITTHIS else 0))
    (match cc with ConvDefault => 0 | VarArg => conv.VARARG | ConvGeneric _ => conv.GENERIC end) in
  negb (Z.land first conv.HASTHIS =? 0) = this /\ negb (Z.land first conv.EXPLICITTHIS =? 0) = explicit
  /\ forall c, read_convention first c
       = match cc with
         | ConvDefault => Ok (ConvDefault, c)
         | VarArg => Ok (VarArg, c)
         | ConvGeneric _ => let? (count, c) := need (Cursor_read_compressed_u32 c) in Ok (ConvGeneric count, c)
         end.
Proof. destruct this, explicit, cc; by split_and!. Qed.

Lemma read_convention_encode first cc c rest :
  (forall c, read_convention first c = match cc with
     | ConvDefault => Ok (ConvDefault, c)
     | VarArg => Ok (VarArg, c)
     | ConvGeneric _ => let? (count, c) := need (Cursor_read_compressed_u32 c) in Ok (ConvGeneric count, c)
     end) ->
  match cc with ConvGeneric count => u29 count | _ => true end = true ->
  at_ c ((match cc with ConvGeneric count => compress count | _ => [] end) ++ rest) ->
  decodes (read_convention first c) true cc rest.
Proof.
  intros E Hok Hat. rewrite E. destruct cc as [| |count]; [by exists c|by exists c|].
  destruct (need_read_compress count c rest Hok Hat) as (c1 & -> & Hat1). by exists c1.
Qed.

Lemma decode_method_encode s rest blob : method_ok s = true -> at_ (Cursor_new blob) (encode_method_sig s ++ rest) ->
  decode_method_sig blob tables = if method_fits s then Ok s else Err TooDeep.
Proof.
  intros Hok Hat. destruct s as [this explicit cc r ps]. unfold method_ok, method_fits, encode_method_sig in *.
  cbn [has_this explicit_this calling_convention return_type param_types] in *. rewrite !andb_true_iff in Hok. destruct Hok as [[[Hcc Hr] Hn] Hps].
  destruct (method_first this explicit cc) as (Eth & Eex & Econv). set (first := Z.lor _ _) in *.
  rewrite <-app_comm_cons, <-!app_assoc in Hat. destruct (read_byte _ _ _ Hat) as [E1 Hat1]. unfold decode_method_sig. rewrite E1. cbn [need ok_or rbind].
  rewrite Eth, Eex. destruct (read_convention_encode first cc _ _ Econv Hcc Hat1) as (c2 & -> & Hat2). cbn [rbind].
  destruct (need_read_compress _ _ _ Hn Hat2) as (c3 & -> & Hat3). cbn [rbind]. rewrite Nat2Z.id.
  pose proof (decode_ret_encode r c3 _ Hr Hat3) as Hret. unfold decodes in Hret. destruct (ret_fits r); cbn [andb]; [|by rewrite Hret].
  destruct Hret as (c4 & -> & Hat4). cbn [rbind].
  assert (Hps' : Forall (fun m => forall c rest, at_ c (encode m ++ rest) -> decodes (decode c tables 0) (fits m) m rest) ps).
  { apply forallb_Forall in Hps. eapply Forall_impl; [exact Hps|]. intros m Hm c' rest'. by apply decode_encode. }
  pose proof (read_times_encode _ encode fits ps c4 rest Hps' Hat4) as Hp. unfold decodes in Hp. destruct (forallb fits ps); [|by rewrite Hp].
  by destruct Hp as (c5 & -> & _).
Qed.

Lemma byte_method s : method_ok s = true -> Forall byte (encode_method_sig s).
Proof.
  unfold method_ok. rewrite !andb_true_iff. intros [[[Hcc Hr] Hn] Hps]. unfold encode_method_sig. constructor.
  - destruct (has_this s), (explicit_this s), (calling_convention s); by split.
  - rewrite !Forall_app. split_and!; [|by apply byte_compress| |].
    + destruct (calling_convention s); [constructor|constructor|by apply byte_compress].
    + destruct (return_type s) as [ms|m]; cbn [encode_ret ret_ok] in *; [|by eapply byte_encode].
      apply Forall_app. split; [by eapply byte_mods|]. by repeat constructor.
    + apply (byte_flat_map _ (modified_ok tables)); [|done]. intros m. apply byte_encode.
Qed.

Lemma decode_field_at t rest blob : modified_ok tables t = true -> at_ (Cursor_new blob) (conv.FIELD :: encode t ++ rest) ->
  decode_field_sig blob tables = if fits t then Ok t else Err TooDeep.
Proof.
  intros Ht Hat. unfold decode_field_sig. destruct (read_byte _ _ _ Hat) as [-> Hat1]. cbn [need ok_or rbind negb Z.eqb Pos.eqb conv.FIELD].
  pose proof (decode_encode t _ rest Ht Hat1) as Hd. unfold decodes in Hd. destruct (fits t); [by destruct Hd as (c & -> & _)|by rewrite Hd].
Qed.

Lemma decode_property_at this n t rest blob : modified_ok tables t = true -> u29 n = true ->
  at_ (Cursor_new blob) (encode_property_sig this n t ++ rest) ->
  decode_property_sig blob tables = if fits t then Ok t else Err TooDeep.
Proof.
  intros Ht Hn Hat. unfold decode_property_sig, encode_property_sig in *. rewrite <-app_comm_cons, <-app_assoc in Hat.
  destruct (read_byte _ _ _ Hat) as [-> Hat1]. cbn [need ok_or rbind].
  replace (Z.land _ conv.CONV_MASK =? conv.PROPERTY) with true by (by destruct this). cbn [negb].
  destruct (need_read_compress n _ _ Hn Hat1) as (c2 & -> & Hat2). cbn [rbind].
  pose proof (decode_encode t _ rest Ht Hat2) as Hd. unfold decodes in Hd. destruct (fits t); [by destruct Hd as (c & -> & _)|by rewrite Hd].
Qed.
End members.

(** ** Theorems *)

(** C30: Type signatures round-trip, exactly up to the nesting limit: what the
    reference encoder writes for a well-formed type (rows of the tables, integers
    that fit their compressed encoding), followed by any bytes, decodes to that
    type if it nests at most [MAX_DEPTH] deep, modifiers included, and is refused
    as [TooDeep] if it nests deeper. *)
Theorem signature_round_trip tables m rest : modified_ok tables m = true -> Forall byte rest ->
  Z.of_nat (length (encode m ++ rest)) < usize_bound ->
  decode_type (encode m ++ rest) tables = if Nat.leb (modified_height m) MAX_DEPTH then Ok m else Err TooDeep.
Proof.
  intros Hok Hrest Hl. assert (Hat : at_ (Cursor_new (encode m ++ rest)) (encode m ++ rest)).
  { apply at_new; [|done]. apply Forall_app. split; [by eapply byte_encode|done]. }
  pose proof (decode_encode tables m _ rest Hok Hat) as Hd. unfold decodes, fits in Hd. unfold decode_type.
  destruct (Nat.leb _ MAX_DEPTH); [by destruct Hd as (c' & -> & _)|by rewrite Hd].
Qed.

(** C31: Whatever the bytes of a blob, a type the decoder returns is well formed:
    its tokens name rows of the tables, its array shapes have a positive rank and
    no more sizes and bounds than that, and it nests at most [MAX_DEPTH] deep.  Its
    encoding is no longer than the blob, so a count in the blob cannot make the
    decoder build more than the blob holds; and that encoding decodes to the same
    type. *)
Theorem signature_decode_sound tables blob m : Forall byte blob -> Z.of_nat (length blob) < usize_bound ->
  decode_type blob tables = Ok m ->
  modified_ok tables m = true /\ (modified_height m <= MAX_DEPTH)%nat /\ (length (encode m) <= length blob)%nat
  /\ decode_type (encode m) tables = Ok m.
Proof.
  intros Hb Hl. unfold decode_type at 1. destruct (decode _ tables 0) as [[m' c']|] eqn:E; [|done]. intros [= ->].
  destruct (at_new blob Hb Hl) as [Hok Er]. destruct (sound_decode tables _ 0 _ _ _ Hok E) as [[Hm Hh%Nat.leb_le]%andb_true_iff Hmv].
  destruct Hmv as [_ Hmv]. rewrite Er in Hmv. split_and!; [done|done|lia|].
  assert (Hat : at_ (Cursor_new (encode m)) (encode m ++ [])) by (rewrite app_nil_r; apply at_new; [by eapply byte_encode|lia]).
  pose proof (decode_encode tables m _ [] Hm Hat) as Hd. unfold decodes, fits in Hd. rewrite (proj2 (Nat.leb_le _ _)) in Hd by done.
  unfold decode_type. by destruct Hd as (c1 & -> & _).
Qed.

(** Method, field and property signatures round-trip.  A method signature, with
    its flags, convention, generic arity, return type (void included) and
    parameters, decodes to itself if its types nest at most [MAX_DEPTH] deep; so do
    the type of a field and of a property, whatever the number of index parameters
    the property declares. *)
Theorem member_signatures_round_trip tables s t this n rest :
  method_ok tables s = true -> modified_ok tables t = true -> u29 n = true -> Forall byte rest ->
  Z.of_nat (length (encode_method_sig s ++ rest)) < usize_bound -> Z.of_nat (length (encode_property_sig this n t ++ rest)) < usize_bound ->
  decode_method_sig (encode_method_sig s ++ rest) tables = (if method_fits s then Ok s else Err TooDeep)
  /\ decode_field_sig (encode_field_sig t ++ rest) tables = (if fits t then Ok t else Err TooDeep)
  /\ decode_property_sig (encode_property_sig this n t ++ rest) tables = (if fits t then Ok t else Err TooDeep)
  /\ property_sig_has_this (encode_property_sig this n t ++ rest) = Some this.
Proof.
  intros Hs Ht Hn Hrest Hl Hl'. pose proof (byte_encode tables t Ht) as Hbt. pose proof (byte_compress n Hn) as Hbn. split_and!.
  - apply (decode_method_encode tables s rest _ Hs). apply at_new; [|done]. apply Forall_app. split; [by eapply byte_method|done].
  - unfold encode_field_sig. rewrite <-app_comm_cons. apply (decode_field_at tables t rest); [done|]. apply at_new.
    + constructor; [by split|]. by apply Forall_app.
    + unfold encode_property_sig in Hl'. rewrite length_app, length_cons, length_app in Hl'. rewrite length_cons, length_app. lia.
  - apply (decode_property_at tables this n t rest); [done..|]. apply at_new; [|done]. unfold encode_property_sig.
    rewrite <-app_comm_cons, <-app_assoc. constructor; [by destruct this; split|]. rewrite !Forall_app. done.
  - by destruct this.
Qed.

(** ** Witnesses *)

Definition small_tables : ImageTables := {| type_def_rows := 2; type_ref_rows := 9 |}.
Definition list_of_matrices : ModifiedType :=
  Build_Modified [{| required := false; modifier := ScopeReference 8 |}]
    (GenericSig (Some Class_) (ScopeDefinition 1) [plain (ArraySig (plain (TypeVar 300)) 2 [] [0; -5]); plain (Ptr None)]).

Lemma signature_round_trip_witness : decode_type (encode list_of_matrices ++ [7]) small_tables = Ok list_of_matrices.
Proof.
  apply (signature_round_trip small_tables list_of_matrices [7]).
  - vm_compute. reflexivity.
  - repeat constructor; unfold byte; lia.
  - vm_compute. reflexivity.
Defined.

Lemma signature_decode_sound_witness :
  modified_ok small_tables (plain (SzArray (plain (TypeVar 0)))) = true
  /\ (modified_height (plain (SzArray (plain (TypeVar 0)))) <= MAX_DEPTH)%nat
  /\ (length (encode (plain (SzArray (plain (TypeVar 0))))) <= 6)%nat
  /\ decode_type (encode (plain (SzArray (plain (TypeVar 0))))) small_tables = Ok (plain (SzArray (plain (TypeVar 0)))).
Proof.
  apply (signature_decode_sound small_tables [0x1d; 0x13; 0xC0; 0; 0; 0]).
  - repeat constructor; unfold byte; lia.
  - vm_compute. reflexivity.
  - vm_compute. reflexivity.
Defined.

Lemma member_signatures_round_trip_witness :
  let s := {| has_this := true; explicit_this := false; calling_convention := ConvGeneric 1;
              return_type := RetVoid [{| required := true; modifier := ScopeReference 0 |}]; param_types := [list_of_matrices] |} in
  decode_method_sig (encode_method_sig s ++ []) small_tables = Ok s.
Proof.
  intros s. refine (proj1 (member_signatures_round_trip small_tables s list_of_matrices true 3 [] _ _ _ _ _ _)).
  - vm_compute. reflexivity.
  - vm_compute. reflexivity.
  - vm_compute. reflexivity.
  - constructor.
  - vm_compute. reflexivity.
  - vm_compute. reflexivity.
Defined.
