(* ===== verification/Metadata.v ===== *)
(** * The metadata container of an assembly: [assembly/src/reader/metadata.rs]

    From the bytes of a portable executable to its CLI header, its metadata root,
    its heaps and the row counts of its tables.  A read ends with a value, with
    one of the structural errors of the code, or with a panic (an index or slice
    out of range, an addition past [usize]). *)

From S2P Require Import Prelude Encoding Cursor.
Local Open Scope Z_scope.

(** ** Results *)

Inductive Error :=
| NotPortableExecutable
| NoCliHeader
| UnreadableCliHeader
| BadMetadataRoot
| MissingHeap (name : str)
| HeapOffsetOutOfRange
| TableIndexOutOfRange
| UnsupportedTableStream
| UnsupportedResourceImplementation
| ResourceDataOutOfRange.

Inductive reading (A : Type) :=
| Got (a : A)
| Refused (e : Error)
| Panicked.
Arguments Got {A} _.
Arguments Refused {A} _.
Arguments Panicked {A}.

#[export] Instance reading_ret : MRet reading := fun A a => Got a.
#[export] Instance reading_bind : MBind reading := fun A B k m =>
  match m with Got a => k a | Refused e => Refused e | Panicked => Panicked end.
#[export] Instance reading_fmap : FMap reading := fun A B f m => m ≫= fun a => mret (f a).

(** [.ok_or(e)?], and an index, slice or [expect] that the code relies on. *)
Definition ok_or_refuse {A} (o : option A) (e : Error) : reading A := match o with Some a => Got a | None => Refused e end.
Definition or_panic {A} (o : option A) : reading A := match o with Some a => Got a | None => Panicked end.
Definition refuse_unless (b : bool) (e : Error) : reading unit := if b then Got tt else Refused e.
Definition checked_mul (a b : Z) : option Z := if a * b <? usize_bound then Some (a * b) else None.
(** [a + b] on [usize]. *)
Definition uadd (a b : Z) : reading Z := or_panic (checked_add a b).

(** [data.get(i..)]. *)
Definition get_from (d : list Z) (i : Z) : option (list Z) := get_range d i (Z.of_nat (length d)).

(** ** Data *)

Record HeapSizes := { wide_strings : bool; wide_guid : bool; wide_blob : bool }.

Record Section_ := { virtual_address : Z; virtual_size : Z; raw_data_ptr : Z; raw_data_size : Z }.

Record MetadataFile := {
  image : list Z;
  strings : list Z;
  blobs : list Z;
  guids : list Z;
  tables_bytes : list Z;
  rows : list Z;
  heap_sizes : HeapSizes;
  sections : list Section_;
  resources_rva : Z;
  resources_size : Z }.

Definition CLI_HEADER_DIRECTORY : Z := 14.
Definition METADATA_SIGNATURE : Z := 0x424A5342.

Definition u32_max : Z := 4294967295.
Definition checked_add_u32 (a b : Z) : option Z := if a + b <=? u32_max then Some (a + b) else None.

(** ** RVAs and stream names *)

Fixpoint rva_to_slice (img : list Z) (ss : list Section_) (rva : Z) : option (list Z) :=
  match ss with
  | [] => None
  | s :: ss =>
      let span := if virtual_size s =? 0 then raw_data_size s else virtual_size s in
      end_ ← checked_add_u32 (virtual_address s) span;
      if (virtual_address s <=? rva) && (rva <? end_) then
        let delta := rva - virtual_address s in
        if raw_data_size s <=? delta then None
        else
          start ← checked_add_u32 (raw_data_ptr s) delta;
          raw_end ← checked_add_u32 (raw_data_ptr s) (raw_data_size s);
          get_range img start raw_end
      else rva_to_slice img ss rva
  end.

(** The name is refused when it has more than 32 bytes, so that nine chunks are
    enough; the outer [None] is the end of the fuel. *)
Fixpoint name_chunks (fuel : nat) (c : Cursor) (name : list Z) : option (option (list Z * Cursor)) :=
  match fuel with
  | O => None
  | S fuel =>
      match read_bytes c 4 with
      | None => Some None
      | Some (chunk, c) =>
          match list_find (fun b => b = 0) chunk with
          | Some (nul, _) => Some (Some (name ++ take nul chunk, c))
          | None =>
              let name := name ++ chunk in
              if 32 <? Z.of_nat (length name) then Some None else name_chunks fuel c name
          end
      end
  end.
Definition read_stream_name (c : Cursor) : option (option (list Z * Cursor)) := name_chunks 9 c [].

(** ** The container *)

Fixpoint read_sections (n : nat) (sc : Cursor) : reading (list Section_) :=
  match n with
  | O => mret []
  | S n =>
      let pe := NotPortableExecutable in
      '(_, sc) ← ok_or_refuse (skip sc 8) pe;
      '(vsize, sc) ← ok_or_refuse (read_u32 sc) pe;
      '(va, sc) ← ok_or_refuse (read_u32 sc) pe;
      '(rsize, sc) ← ok_or_refuse (read_u32 sc) pe;
      '(rptr, sc) ← ok_or_refuse (read_u32 sc) pe;
      '(_, sc) ← ok_or_refuse (skip sc 16) pe;
      rest ← read_sections n sc;
      mret ({| virtual_address := va; virtual_size := vsize; raw_data_ptr := rptr; raw_data_size := rsize |} :: rest)
  end.

(** Where the section headers are, their number, and the RVA of the CLI header. *)
Definition read_headers (img : list Z) : reading (Z * Z * Z) :=
  let pe := NotPortableExecutable in
  refuse_unless (bool_decide (get_range img 0 2 = Some [0x4D; 0x5A])) pe;;
  '(e_lfanew, _) ← ok_or_refuse (read_u32 (Cursor_at img 0x3C)) pe;
  let c := Cursor_at img e_lfanew in
  '(signature, c) ← ok_or_refuse (read_bytes c 4) pe;
  refuse_unless (bool_decide (signature = [0x50; 0x45; 0; 0])) pe;;
  '(_, c) ← ok_or_refuse (skip c 2) pe;
  '(num_sections, c) ← ok_or_refuse (read_u16 c) pe;
  '(_, c) ← ok_or_refuse (skip c (4 + 4 + 4)) pe;
  '(size_optional, c) ← ok_or_refuse (read_u16 c) pe;
  '(_, c) ← ok_or_refuse (skip c 2) pe;
  let optional_start := position c in
  '(magic, c) ← ok_or_refuse (read_u16 c) pe;
  data_dirs_at ← (if magic =? 0x10B then Got 96 else if magic =? 0x20B then Got 112 else Refused pe);
  optional_end ← ok_or_refuse (checked_add optional_start size_optional) pe;
  dirs ← uadd optional_start data_dirs_at;
  let count_at := dirs - 4 in
  count_end ← ok_or_refuse (checked_add count_at 4) pe;
  refuse_unless (negb (optional_end <? count_end)) pe;;
  '(num_rva_and_sizes, _) ← ok_or_refuse (read_u32 (Cursor_at img count_at)) pe;
  refuse_unless (negb (num_rva_and_sizes <=? CLI_HEADER_DIRECTORY)) NoCliHeader;;
  cli_dir ← uadd dirs (CLI_HEADER_DIRECTORY * 8);
  cli_end ← ok_or_refuse (checked_add cli_dir 8) pe;
  refuse_unless (negb (optional_end <? cli_end)) pe;;
  '(cli_rva, dc) ← ok_or_refuse (read_u32 (Cursor_at img cli_dir)) pe;
  refuse_unless (negb (cli_rva =? 0)) NoCliHeader;;
  '(_, _) ← ok_or_refuse (read_u32 dc) UnreadableCliHeader;
  at_sections ← uadd optional_start size_optional;
  mret (at_sections, num_sections, cli_rva).

Record CliHeader := { metadata_rva : Z; metadata_size : Z; cli_resources_rva : Z; cli_resources_size : Z }.

Definition read_cli_header (region : list Z) : reading CliHeader :=
  let e := UnreadableCliHeader in
  '(_, cli) ← ok_or_refuse (skip (Cursor_new region) (4 + 2 + 2)) e;
  '(md_rva, cli) ← ok_or_refuse (read_u32 cli) e;
  '(md_size, cli) ← ok_or_refuse (read_u32 cli) e;
  '(_, cli) ← ok_or_refuse (skip cli (4 + 4)) e;
  '(res_rva, cli) ← ok_or_refuse (read_u32 cli) e;
  '(res_size, cli) ← ok_or_refuse (read_u32 cli) e;
  mret {| metadata_rva := md_rva; metadata_size := md_size; cli_resources_rva := res_rva; cli_resources_size := res_size |}.

(** The regions of the streams this reader keeps. *)
Record Streams := { s_strings : option (list Z); s_blobs : option (list Z); s_guids : option (list Z); s_tilde : option (list Z) }.

Definition ascii_bytes (s : str) : list Z := map Z.of_N s.

Definition keep_stream (st : Streams) (name : list Z) (region : list Z) : Streams :=
  if bool_decide (name = ascii_bytes (#"#Strings")) then
    {| s_strings := Some region; s_blobs := s_blobs st; s_guids := s_guids st; s_tilde := s_tilde st |}
  else if bool_decide (name = ascii_bytes (#"#Blob")) then
    {| s_strings := s_strings st; s_blobs := Some region; s_guids := s_guids st; s_tilde := s_tilde st |}
  else if bool_decide (name = ascii_bytes (#"#GUID")) then
    {| s_strings := s_strings st; s_blobs := s_blobs st; s_guids := Some region; s_tilde := s_tilde st |}
  else if bool_decide (name = ascii_bytes (#"#~")) then
    {| s_strings := s_strings st; s_blobs := s_blobs st; s_guids := s_guids st; s_tilde := Some region |}
  else st.

Fixpoint read_streams (n : nat) (metadata : list Z) (m : Cursor) (st : Streams) : reading Streams :=
  match n with
  | O => mret st
  | S n =>
      let bad := BadMetadataRoot in
      '(stream_offset, m) ← ok_or_refuse (read_u32 m) bad;
      '(stream_size, m) ← ok_or_refuse (read_u32 m) bad;
      read ← or_panic (read_stream_name m);
      '(name, m) ← ok_or_refuse read bad;
      stream_end ← ok_or_refuse (checked_add stream_offset stream_size) bad;
      region ← ok_or_refuse (get_range metadata stream_offset stream_end) bad;
      read_streams n metadata m (keep_stream st name region)
  end.

Definition read_root (metadata : list Z) : reading Streams :=
  let bad := BadMetadataRoot in
  '(signature, m) ← ok_or_refuse (read_u32 (Cursor_new metadata)) bad;
  refuse_unless (signature =? METADATA_SIGNATURE) bad;;
  '(_, m) ← ok_or_refuse (skip m (2 + 2 + 4)) bad;
  '(version_len, m) ← ok_or_refuse (read_u32 m) bad;
  padded ← ok_or_refuse (checked_add version_len 3) bad;
  '(_, m) ← ok_or_refuse (skip m (Z.land padded (Z.lnot 3))) bad;
  '(_, m) ← ok_or_refuse (skip m 2) bad;
  '(stream_count, m) ← ok_or_refuse (read_u16 m) bad;
  read_streams (Z.to_nat stream_count) metadata m {| s_strings := None; s_blobs := None; s_guids := None; s_tilde := None |}.

Definition TABLE_COUNT : Z := 64.

(** The row counts: one word for each bit of [valid], from the bit [i] on. *)
Fixpoint read_row_counts (n : nat) (i : Z) (valid : Z) (t : Cursor) : reading (list Z * Cursor) :=
  match n with
  | O => mret ([], t)
  | S n =>
      '(row, t) ← (if Z.land valid (Z.shiftl 1 i) =? 0 then Got (0, t) else ok_or_refuse (read_u32 t) BadMetadataRoot);
      '(rest, t) ← read_row_counts n (i + 1) valid t;
      mret (row :: rest, t)
  end.

Definition flag (byte mask : Z) : bool := negb (Z.land byte mask =? 0).

Definition read_table_stream (tilde : list Z) : reading (HeapSizes * list Z * list Z) :=
  let bad := BadMetadataRoot in
  '(_, t) ← ok_or_refuse (skip (Cursor_new tilde) (4 + 1 + 1)) bad;
  '(heap_sizes_byte, t) ← ok_or_refuse (read_u8 t) bad;
  refuse_unless (negb (flag heap_sizes_byte 0x40)) UnsupportedTableStream;;
  '(_, t) ← ok_or_refuse (skip t 1) bad;
  '(valid, t) ← ok_or_refuse (read_u64 t) bad;
  '(_, t) ← ok_or_refuse (skip t 8) bad;
  '(rows, t) ← read_row_counts (Z.to_nat TABLE_COUNT) 0 valid t;
  tables ← ok_or_refuse (get_from tilde (position t)) bad;
  mret ({| wide_strings := flag heap_sizes_byte 0x01; wide_guid := flag heap_sizes_byte 0x02; wide_blob := flag heap_sizes_byte 0x04 |},
        rows, tables).

Definition MetadataFile_read (img : list Z) : reading MetadataFile :=
  '(at_sections, num_sections, cli_rva) ← read_headers img;
  sections ← read_sections (Z.to_nat num_sections) (Cursor_at img at_sections);
  cli_region ← ok_or_refuse (rva_to_slice img sections cli_rva) UnreadableCliHeader;
  cli ← read_cli_header cli_region;
  md_region ← ok_or_refuse (rva_to_slice img sections (metadata_rva cli)) BadMetadataRoot;
  metadata ← ok_or_refuse (get_range md_region 0 (metadata_size cli)) BadMetadataRoot;
  streams ← read_root metadata;
  tilde ← ok_or_refuse (s_tilde streams) (MissingHeap (#"#~"));
  '(heap_sizes, rows, tables) ← read_table_stream tilde;
  strings ← ok_or_refuse (s_strings streams) (MissingHeap (#"#Strings"));
  blobs ← ok_or_refuse (s_blobs streams) (MissingHeap (#"#Blob"));
  guids ← ok_or_refuse (s_guids streams) (MissingHeap (#"#GUID"));
  mret {| image := img; strings := strings; blobs := blobs; guids := guids; tables_bytes := tables; rows := rows;
          heap_sizes := heap_sizes; sections := sections; resources_rva := cli_resources_rva cli;
          resources_size := cli_resources_size cli |}.

(** ** Heaps *)

Definition md_rva_to_slice (md : MetadataFile) (rva : Z) : option (list Z) := rva_to_slice (image md) (sections md) rva.

Definition string_at (md : MetadataFile) (offset : Z) : reading str :=
  rest ← ok_or_refuse (get_from (strings md) offset) HeapOffsetOutOfRange;
  '(end_, _) ← ok_or_refuse (list_find (fun b => b = 0) rest) HeapOffsetOutOfRange;
  ok_or_refuse (from_utf8 (map Z.to_N (take end_ rest))) HeapOffsetOutOfRange.

Definition blob_at (md : MetadataFile) (offset : Z) : reading (list Z) :=
  rest ← ok_or_refuse (get_from (blobs md) offset) HeapOffsetOutOfRange;
  '(len, consumed) ← ok_or_refuse (read_compressed_u32 rest) HeapOffsetOutOfRange;
  end_ ← ok_or_refuse (checked_add consumed len) HeapOffsetOutOfRange;
  ok_or_refuse (get_range rest consumed end_) HeapOffsetOutOfRange.

Definition guid_at (md : MetadataFile) (index : Z) : reading (list Z) :=
  refuse_unless (negb (index =? 0)) HeapOffsetOutOfRange;;
  start ← ok_or_refuse (checked_mul (index - 1) 16) HeapOffsetOutOfRange;
  end_ ← ok_or_refuse (checked_add start 16) HeapOffsetOutOfRange;
  ok_or_refuse (get_range (guids md) start end_) HeapOffsetOutOfRange.
