(* ===== verification/Tables.v ===== *)
(** * The layout of metadata tables: [assembly/src/reader/tables.rs]

    Column widths, row strides and table offsets, computed from the row counts
    and the heap widths, and the reads of rows and columns that rest on them. *)

From S2P Require Import Prelude Cursor Metadata.
Local Open Scope Z_scope.

Module table.
Definition MODULE : Z := 0x00.
Definition TYPE_REF : Z := 0x01.
Definition TYPE_DEF : Z := 0x02.
Definition FIELD_PTR : Z := 0x03.
Definition FIELD : Z := 0x04.
Definition METHOD_PTR : Z := 0x05.
Definition METHOD_DEF : Z := 0x06.
Definition PARAM_PTR : Z := 0x07.
Definition PARAM : Z := 0x08.
Definition INTERFACE_IMPL : Z := 0x09.
Definition MEMBER_REF : Z := 0x0A.
Definition CONSTANT : Z := 0x0B.
Definition CUSTOM_ATTRIBUTE : Z := 0x0C.
Definition FIELD_MARSHAL : Z := 0x0D.
Definition DECL_SECURITY : Z := 0x0E.
Definition CLASS_LAYOUT : Z := 0x0F.
Definition FIELD_LAYOUT : Z := 0x10.
Definition STANDALONE_SIG : Z := 0x11.
Definition EVENT_MAP : Z := 0x12.
Definition EVENT_PTR : Z := 0x13.
Definition EVENT : Z := 0x14.
Definition PROPERTY_MAP : Z := 0x15.
Definition PROPERTY_PTR : Z := 0x16.
Definition PROPERTY : Z := 0x17.
Definition METHOD_SEMANTICS : Z := 0x18.
Definition METHOD_IMPL : Z := 0x19.
Definition MODULE_REF : Z := 0x1A.
Definition TYPE_SPEC : Z := 0x1B.
Definition IMPL_MAP : Z := 0x1C.
Definition FIELD_RVA : Z := 0x1D.
Definition ENC_LOG : Z := 0x1E.
Definition ENC_MAP : Z := 0x1F.
Definition ASSEMBLY : Z := 0x20.
Definition ASSEMBLY_PROCESSOR : Z := 0x21.
Definition ASSEMBLY_OS : Z := 0x22.
Definition ASSEMBLY_REF : Z := 0x23.
Definition ASSEMBLY_REF_PROCESSOR : Z := 0x24.
Definition ASSEMBLY_REF_OS : Z := 0x25.
Definition FILE : Z := 0x26.
Definition EXPORTED_TYPE : Z := 0x27.
Definition MANIFEST_RESOURCE : Z := 0x28.
Definition NESTED_CLASS : Z := 0x29.
Definition GENERIC_PARAM : Z := 0x2A.
Definition METHOD_SPEC : Z := 0x2B.
Definition GENERIC_PARAM_CONSTRAINT : Z := 0x2C.
End table.
Import table.

(** [usize::MAX]. *)
Definition RESERVED : Z := usize_bound - 1.

Inductive Coded :=
| TypeDefOrRef
| HasConstant
| HasCustomAttribute
| HasFieldMarshal
| HasDeclSecurity
| MemberRefParent
| HasSemantics
| MethodDefOrRef
| MemberForwarded
| Implementation
| CustomAttributeType
| ResolutionScope
| TypeOrMethodDef.

Definition tag_bits (c : Coded) : Z :=
  match c with
  | HasFieldMarshal | HasSemantics | MethodDefOrRef | MemberForwarded | TypeOrMethodDef => 1
  | TypeDefOrRef | HasConstant | HasDeclSecurity | Implementation | ResolutionScope => 2
  | MemberRefParent | CustomAttributeType => 3
  | HasCustomAttribute => 5
  end.

Definition slots (c : Coded) : list Z :=
  match c with
  | TypeDefOrRef => [TYPE_DEF; TYPE_REF; TYPE_SPEC]
  | HasConstant => [FIELD; PARAM; PROPERTY]
  | HasCustomAttribute =>
      [METHOD_DEF; FIELD; TYPE_REF; TYPE_DEF; PARAM; INTERFACE_IMPL; MEMBER_REF; MODULE; DECL_SECURITY; PROPERTY; EVENT;
       STANDALONE_SIG; MODULE_REF; TYPE_SPEC; ASSEMBLY; ASSEMBLY_REF; FILE; EXPORTED_TYPE; MANIFEST_RESOURCE; GENERIC_PARAM;
       GENERIC_PARAM_CONSTRAINT; METHOD_SPEC]
  | HasFieldMarshal => [FIELD; PARAM]
  | HasDeclSecurity => [TYPE_DEF; METHOD_DEF; ASSEMBLY]
  | MemberRefParent => [TYPE_DEF; TYPE_REF; MODULE_REF; METHOD_DEF; TYPE_SPEC]
  | HasSemantics => [EVENT; PROPERTY]
  | MethodDefOrRef => [METHOD_DEF; MEMBER_REF]
  | MemberForwarded => [FIELD; METHOD_DEF]
  | Implementation => [FILE; ASSEMBLY_REF; EXPORTED_TYPE]
  | CustomAttributeType => [RESERVED; RESERVED; METHOD_DEF; MEMBER_REF; RESERVED]
  | ResolutionScope => [MODULE; MODULE_REF; ASSEMBLY_REF; TYPE_REF]
  | TypeOrMethodDef => [TYPE_DEF; METHOD_DEF]
  end.

(** [rows[t]], for the constants above: the array has 64 entries. *)
Definition row_at (rows : list Z) (t : Z) : Z := nth (Z.to_nat t) rows 0.

Definition Coded_width (c : Coded) (rows : list Z) : Z :=
  let max := fold_left Z.max (map (row_at rows) (List.filter (fun t => negb (t =? RESERVED)) (slots c))) 0 in
  if max <? Z.shiftl 1 (16 - tag_bits c) then 2 else 4.

Record CodedToken := { token_table : Z; rid : Z }.

Definition Coded_decode (c : Coded) (value : Z) : reading (option CodedToken) :=
  if value =? 0 then Got None
  else
    let bits := tag_bits c in
    let tag := Z.land value (Z.shiftl 1 bits - 1) in
    let rid := Z.shiftr value bits in
    match slots c !! Z.to_nat tag with
    | Some table => if negb (table =? RESERVED) && negb (rid =? 0) then Got (Some {| token_table := table; rid := rid |}) else Refused TableIndexOutOfRange
    | None => Refused TableIndexOutOfRange
    end.

Inductive Col := U16 | U32 | Str | Guid | Blob | Simple (t : Z) | Code (c : Coded).

Record Widths := { w_str : Z; w_guid : Z; w_blob : Z }.

Definition Col_width (c : Col) (w : Widths) (rows : list Z) : Z :=
  match c with
  | U16 => 2
  | U32 => 4
  | Str => w_str w
  | Guid => w_guid w
  | Blob => w_blob w
  | Simple t => if row_at rows t <? Z.shiftl 1 16 then 2 else 4
  | Code c => Coded_width c rows
  end.

Definition schemas : list (list Col) :=
  [ (* Module *) [U16; Str; Guid; Guid; Guid];
    (* TypeRef *) [Code ResolutionScope; Str; Str];
    (* TypeDef *) [U32; Str; Str; Code TypeDefOrRef; Simple FIELD; Simple METHOD_DEF];
    (* FieldPtr *) [Simple FIELD];
    (* Field *) [U16; Str; Blob];
    (* MethodPtr *) [Simple METHOD_DEF];
    (* MethodDef *) [U32; U16; U16; Str; Blob; Simple PARAM];
    (* ParamPtr *) [Simple PARAM];
    (* Param *) [U16; U16; Str];
    (* InterfaceImpl *) [Simple TYPE_DEF; Code TypeDefOrRef];
    (* MemberRef *) [Code MemberRefParent; Str; Blob];
    (* Constant *) [U16; Code HasConstant; Blob];
    (* CustomAttribute *) [Code HasCustomAttribute; Code CustomAttributeType; Blob];
    (* FieldMarshal *) [Code HasFieldMarshal; Blob];
    (* DeclSecurity *) [U16; Code HasDeclSecurity; Blob];
    (* ClassLayout *) [U16; U32; Simple TYPE_DEF];
    (* FieldLayout *) [U32; Simple FIELD];
    (* StandAloneSig *) [Blob];
    (* EventMap *) [Simple TYPE_DEF; Simple EVENT];
    (* EventPtr *) [Simple EVENT];
    (* Event *) [U16; Str; Code TypeDefOrRef];
    (* PropertyMap *) [Simple TYPE_DEF; Simple PROPERTY];
    (* PropertyPtr *) [Simple PROPERTY];
    (* Property *) [U16; Str; Blob];
    (* MethodSemantics *) [U16; Simple METHOD_DEF; Code HasSemantics];
    (* MethodImpl *) [Simple TYPE_DEF; Code MethodDefOrRef; Code MethodDefOrRef];
    (* ModuleRef *) [Str];
    (* TypeSpec *) [Blob];
    (* ImplMap *) [U16; Code MemberForwarded; Str; Simple MODULE_REF];
    (* FieldRva *) [U32; Simple FIELD];
    (* EncLog *) [U32; U32];
    (* EncMap *) [U32];
    (* Assembly *) [U32; U16; U16; U16; U16; U32; Blob; Str; Str];
    (* AssemblyProcessor *) [U32];
    (* AssemblyOs *) [U32; U32; U32];
    (* AssemblyRef *) [U16; U16; U16; U16; U32; Blob; Str; Str; Blob];
    (* AssemblyRefProcessor *) [U32; Simple ASSEMBLY_REF];
    (* AssemblyRefOs *) [U32; U32; U32; Simple ASSEMBLY_REF];
    (* File *) [U32; Str; Blob];
    (* ExportedType *) [U32; U32; Str; Str; Code Implementation];
    (* ManifestResource *) [U32; U32; Str; Code Implementation];
    (* NestedClass *) [Simple TYPE_DEF; Simple TYPE_DEF];
    (* GenericParam *) [U16; U16; Code TypeOrMethodDef; Str];
    (* MethodSpec *) [Code MethodDefOrRef; Blob];
    (* GenericParamConstraint *) [Simple GENERIC_PARAM; Code TypeDefOrRef] ].

(** [None] for an undefined table. *)
Definition schema (t : Z) : option (list Col) := if 0 <=? t then schemas !! Z.to_nat t else None.

Record Tables := { md : MetadataFile; widths : Widths; stride : list Z; offset : list Z }.

Fixpoint sum_Z (l : list Z) : Z := match l with [] => 0 | x :: l => x + sum_Z l end.

Definition row_width (cols : list Col) (w : Widths) (rows : list Z) : Z := sum_Z (map (fun c => Col_width c w rows) cols).

(** The strides of the tables from [t] on, with the row counts [counts] left. *)
Fixpoint strides_from (w : Widths) (rows : list Z) (t : Z) (counts : list Z) : reading (list Z) :=
  match counts with
  | [] => mret []
  | count :: counts =>
      s ← (if count =? 0 then Got 0
           else cols ← ok_or_refuse (schema t) UnsupportedTableStream; Got (row_width cols w rows));
      rest ← strides_from w rows (t + 1) counts;
      mret (s :: rest)
  end.

(** The offsets of the tables, and the size of all of them. *)
Fixpoint offsets_from (running : Z) (counts strides : list Z) : reading (list Z * Z) :=
  match counts, strides with
  | count :: counts, s :: strides =>
      bytes ← ok_or_refuse (checked_mul count s) TableIndexOutOfRange;
      next ← ok_or_refuse (checked_add running bytes) TableIndexOutOfRange;
      '(rest, total) ← offsets_from next counts strides;
      mret (running :: rest, total)
  | _, _ => mret ([], running)
  end.

Definition heap_widths (h : HeapSizes) : Widths :=
  {| w_str := if wide_strings h then 4 else 2; w_guid := if wide_guid h then 4 else 2; w_blob := if wide_blob h then 4 else 2 |}.

Definition Tables_new (m : MetadataFile) : reading Tables :=
  let w := heap_widths (heap_sizes m) in
  strides ← strides_from w (rows m) 0 (rows m);
  '(offsets, running) ← offsets_from 0 (rows m) strides;
  refuse_unless (negb (Z.of_nat (length (tables_bytes m)) <? running)) TableIndexOutOfRange;;
  mret {| md := m; widths := w; stride := strides; offset := offsets |}.

(** [self.md.rows[table]] and the like, for a table that a caller passes. *)
Definition index (l : list Z) (i : Z) : reading Z := or_panic (get l i).

Definition row_count (T : Tables) (t : Z) : reading Z := index (rows (md T)) t.

Definition decode_coded (T : Tables) (kind : Coded) (value : Z) : reading (option CodedToken) := Coded_decode kind value.

Record Row := { row_tables : Tables; row_table : Z; row_bytes : list Z }.

Definition row (T : Tables) (t r : Z) : reading Row :=
  let oor := TableIndexOutOfRange in
  count ← index (rows (md T)) t;
  refuse_unless (negb (count <=? r)) oor;;
  s ← index (stride T) t;
  o ← index (offset T) t;
  skipped ← ok_or_refuse (checked_mul r s) oor;
  start ← ok_or_refuse (checked_add o skipped) oor;
  end_ ← ok_or_refuse (checked_add start s) oor;
  bytes ← ok_or_refuse (get_range (tables_bytes (md T)) start end_) oor;
  mret {| row_tables := T; row_table := t; row_bytes := bytes |}.

(** The offset of the column [col] in a row of [t], and its width. *)
Definition col_span (T : Tables) (t col : Z) : reading (Z * Z) :=
  cols ← or_panic (schema t);
  c ← or_panic (if 0 <=? col then cols !! Z.to_nat col else None);
  mret (row_width (take (Z.to_nat col) cols) (widths T) (rows (md T)), Col_width c (widths T) (rows (md T))).

(** [value |= u32::from(b) << (8 * i)] for each byte. *)
Fixpoint accumulate (i value : Z) (bytes : list Z) : Z :=
  match bytes with
  | [] => value
  | b :: bytes => accumulate (i + 1) (Z.lor value (Z.shiftl b (8 * i))) bytes
  end.

Definition uint (r : Row) (col : Z) : reading Z :=
  '(off, width) ← col_span (row_tables r) (row_table r) col;
  bytes ← or_panic (get_range (row_bytes r) off (off + width));
  mret (accumulate 0 0 bytes).

Definition int (r : Row) (col : Z) : reading Z := uint r col.
Definition coded (r : Row) (col : Z) : reading Z := uint r col.
Definition string (r : Row) (col : Z) : reading str := v ← uint r col; string_at (md (row_tables r)) v.
Definition blob (r : Row) (col : Z) : reading (list Z) := v ← uint r col; blob_at (md (row_tables r)) v.
