(* ===== verification/Manifest.v ===== *)
(** * The manifest of an assembly: [assembly/src/reader/manifest.rs]

    The identity, references, forwarded types and embedded resources that the
    rows of the manifest tables describe. *)

From S2P Require Import Prelude Cursor Metadata Tables.
Local Open Scope Z_scope.

Definition FLAG_PUBLIC_KEY : Z := 0x0001.
Definition FLAGS_IDENTITY_NEUTRAL : Z := Z.lor (Z.lor (Z.lor FLAG_PUBLIC_KEY 0x00F0) 0x4000) 0x8000.

Record AssemblyVersion := { v_major : Z; v_minor : Z; v_build : Z; v_revision : Z }.

Record AssemblyIdentity := {
  assembly_name : str;
  assembly_version : AssemblyVersion;
  public_key : list Z;
  has_full_key : bool;
  culture : str;
  flagged : bool }.

Record ManifestResource := { resource_name : str; resource_bytes : list Z }.

(** [as u16]. *)
Definition as_u16 (n : Z) : Z := n mod 65536.

(** The identity in a row whose version, flags, key, name and culture are in
    these columns. *)
Definition read_identity (row : Row) (version flags key name cult : Z) : reading AssemblyIdentity :=
  maj ← int row version;
  min ← int row (version + 1);
  bld ← int row (version + 2);
  rev ← int row (version + 3);
  f ← int row flags;
  k ← blob row key;
  n ← string row name;
  c ← string row cult;
  mret {| assembly_name := n;
          assembly_version := {| v_major := as_u16 maj; v_minor := as_u16 min; v_build := as_u16 bld; v_revision := as_u16 rev |};
          public_key := k; has_full_key := negb (Z.land f FLAG_PUBLIC_KEY =? 0); culture := c;
          flagged := negb (Z.land f (Z.lnot FLAGS_IDENTITY_NEUTRAL) =? 0) |}.

Definition read_assembly (T : Tables) : reading (option AssemblyIdentity) :=
  n ← row_count T table.ASSEMBLY;
  if n =? 0 then mret None
  else
    r ← row T table.ASSEMBLY 0;
    a ← read_identity r 1 5 6 7 8;
    mret (Some a).

Definition read_assembly_ref (T : Tables) (r : Z) : reading AssemblyIdentity :=
  r ← row T table.ASSEMBLY_REF r;
  read_identity r 0 4 5 6 7.

(** [(0..count)], a loop over it with [?]. *)
Definition indices (count : Z) : list Z := map Z.of_nat (seq 0 (Z.to_nat count)).
Fixpoint collect {A B} (f : A -> reading B) (l : list A) : reading (list B) :=
  match l with
  | [] => mret []
  | a :: l => b ← f a; rest ← collect f l; mret (b :: rest)
  end.

Definition read_assembly_refs (T : Tables) : reading (list AssemblyIdentity) :=
  count ← row_count T table.ASSEMBLY_REF;
  collect (read_assembly_ref T) (indices count).

Record RawTypeForwarder := { fwd_namespace : str; fwd_name : str; fwd_assembly : AssemblyIdentity }.

Definition TD_FORWARDER : Z := 0x00200000.

(** One turn of the loop: a forwarder, or [None] for a row that is skipped. *)
Definition read_type_forwarder (T : Tables) (r : Z) : reading (option RawTypeForwarder) :=
  row ← row T table.EXPORTED_TYPE r;
  flags ← int row 0;
  if Z.land flags TD_FORWARDER =? 0 then mret None
  else
    impl ← coded row 4;
    token ← decode_coded T Implementation impl;
    match token with
    | None => mret None
    | Some token =>
        if negb (token_table token =? table.ASSEMBLY_REF) then mret None
        else
          index ← ok_or_refuse (if 1 <=? rid token then Some (rid token - 1) else None) TableIndexOutOfRange;
          target ← read_assembly_ref T index;
          ns ← string row 3;
          name ← string row 2;
          mret (Some {| fwd_namespace := ns; fwd_name := name; fwd_assembly := target |})
    end.

Definition read_type_forwarders (T : Tables) : reading (list RawTypeForwarder) :=
  count ← row_count T table.EXPORTED_TYPE;
  l ← collect (read_type_forwarder T) (indices count);
  mret (omap (fun o => o) (l : list (option RawTypeForwarder))).

Definition extract_embedded_resource (m : MetadataFile) (offset : Z) : reading (list Z) :=
  let oor := ResourceDataOutOfRange in
  region ← ok_or_refuse (md_rva_to_slice m (resources_rva m)) oor;
  region ← ok_or_refuse (get_range region 0 (resources_size m)) oor;
  entry ← ok_or_refuse (get_from region offset) oor;
  len_bytes ← ok_or_refuse (get_range entry 0 4) oor;
  let len := from_le_bytes len_bytes in
  end_ ← ok_or_refuse (checked_add len 4) oor;
  ok_or_refuse (get_range entry 4 end_) oor.

Definition read_resource (T : Tables) (m : MetadataFile) (r : Z) : reading ManifestResource :=
  row ← row T table.MANIFEST_RESOURCE r;
  offset ← int row 0;
  name ← string row 2;
  implementation ← coded row 3;
  refuse_unless (implementation =? 0) UnsupportedResourceImplementation;;
  bytes ← extract_embedded_resource m offset;
  mret {| resource_name := name; resource_bytes := bytes |}.

Definition read_resources (T : Tables) (m : MetadataFile) : reading (list ManifestResource) :=
  count ← row_count T table.MANIFEST_RESOURCE;
  collect (read_resource T m) (indices count).

(** [parse] of [image.rs], without its last step, the walk over types and members. *)
Definition parse_manifest (bytes : list Z)
  : reading (option AssemblyIdentity * list AssemblyIdentity * list ManifestResource * list RawTypeForwarder) :=
  m ← MetadataFile_read bytes;
  T ← Tables_new m;
  assembly ← read_assembly T;
  references ← read_assembly_refs T;
  resources ← read_resources T m;
  type_forwarders ← read_type_forwarders T;
  mret (assembly, references, resources, type_forwarders).
