(* ===== verification/TableFormat.v ===== *)
(** * The physical format of metadata tables (ECMA-335, II.22 and II.24.2.6)

    The specification that [Tables] is compared with, written from the standard:
    the columns of the forty-five tables, how wide a column is for given heap
    flags and row counts, where a cell is in the stream, and a writer.  Nothing
    of the reader is used here: tables are named by their numbers, an index by
    the numbers of the tables it may lead to and the bits its tag takes. *)

From S2P Require Import Prelude Cursor Metadata.
Local Open Scope Z_scope.

Inductive column :=
| Bytes2
| Bytes4
| StringHeap
| GuidHeap
| BlobHeap
| Index (targets : list Z) (tag : Z).

(** An index into one table. *)
Notation "'Into' t" := (Index [t] 0) (at level 9, t at level 9).

(** ** Indices that lead to one of several tables *)

Definition type_def_or_ref := Index [2; 1; 27] 2.
Definition has_constant := Index [4; 8; 23] 2.
Definition has_custom_attribute :=
  Index [6; 4; 1; 2; 8; 9; 10; 0; 14; 23; 20; 17; 26; 27; 32; 35; 38; 39; 40; 42; 44; 43] 5.
Definition has_field_marshal := Index [4; 8] 1.
Definition has_decl_security := Index [2; 6; 32] 2.
Definition member_ref_parent := Index [2; 1; 26; 6; 27] 3.
Definition has_semantics := Index [20; 23] 1.
Definition method_def_or_ref := Index [6; 10] 1.
Definition member_forwarded := Index [4; 6] 1.
Definition implementation := Index [38; 35; 39] 2.
Definition custom_attribute_type := Index [6; 10] 3.
Definition resolution_scope := Index [0; 26; 35; 1] 2.
Definition type_or_method_def := Index [2; 6] 1.

(** ** The columns of the tables, by number *)

Definition format : list (list column) :=
  [ (* 0 Module: generation, name, mvid, encid, encbaseid *)
    [Bytes2; StringHeap; GuidHeap; GuidHeap; GuidHeap];
    (* 1 TypeRef: resolution scope, name, namespace *)
    [resolution_scope; StringHeap; StringHeap];
    (* 2 TypeDef: flags, name, namespace, extends, first field, first method *)
    [Bytes4; StringHeap; StringHeap; type_def_or_ref; Into 4; Into 6];
    (* 3 FieldPtr *)
    [Into 4];
    (* 4 Field: flags, name, signature *)
    [Bytes2; StringHeap; BlobHeap];
    (* 5 MethodPtr *)
    [Into 6];
    (* 6 MethodDef: rva, impl flags, flags, name, signature, first parameter *)
    [Bytes4; Bytes2; Bytes2; StringHeap; BlobHeap; Into 8];
    (* 7 ParamPtr *)
    [Into 8];
    (* 8 Param: flags, sequence, name *)
    [Bytes2; Bytes2; StringHeap];
    (* 9 InterfaceImpl: class, interface *)
    [Into 2; type_def_or_ref];
    (* 10 MemberRef: class, name, signature *)
    [member_ref_parent; StringHeap; BlobHeap];
    (* 11 Constant: type and padding, parent, value *)
    [Bytes2; has_constant; BlobHeap];
    (* 12 CustomAttribute: parent, type, value *)
    [has_custom_attribute; custom_attribute_type; BlobHeap];
    (* 13 FieldMarshal: parent, native type *)
    [has_field_marshal; BlobHeap];
    (* 14 DeclSecurity: action, parent, permission set *)
    [Bytes2; has_decl_security; BlobHeap];
    (* 15 ClassLayout: packing size, class size, parent *)
    [Bytes2; Bytes4; Into 2];
    (* 16 FieldLayout: offset, field *)
    [Bytes4; Into 4];
    (* 17 StandAloneSig: signature *)
    [BlobHeap];
    (* 18 EventMap: parent, first event *)
    [Into 2; Into 20];
    (* 19 EventPtr *)
    [Into 20];
    (* 20 Event: flags, name, type *)
    [Bytes2; StringHeap; type_def_or_ref];
    (* 21 PropertyMap: parent, first property *)
    [Into 2; Into 23];
    (* 22 PropertyPtr *)
    [Into 23];
    (* 23 Property: flags, name, signature *)
    [Bytes2; StringHeap; BlobHeap];
    (* 24 MethodSemantics: semantics, method, association *)
    [Bytes2; Into 6; has_semantics];
    (* 25 MethodImpl: class, body, declaration *)
    [Into 2; method_def_or_ref; method_def_or_ref];
    (* 26 ModuleRef: name *)
    [StringHeap];
    (* 27 TypeSpec: signature *)
    [BlobHeap];
    (* 28 ImplMap: mapping flags, member, import name, import scope *)
    [Bytes2; member_forwarded; StringHeap; Into 26];
    (* 29 FieldRVA: rva, field *)
    [Bytes4; Into 4];
    (* 30 EncLog: token, function *)
    [Bytes4; Bytes4];
    (* 31 EncMap: token *)
    [Bytes4];
    (* 32 Assembly: hash algorithm, version in four parts, flags, public key, name, culture *)
    [Bytes4; Bytes2; Bytes2; Bytes2; Bytes2; Bytes4; BlobHeap; StringHeap; StringHeap];
    (* 33 AssemblyProcessor: processor *)
    [Bytes4];
    (* 34 AssemblyOS: platform, major, minor *)
    [Bytes4; Bytes4; Bytes4];
    (* 35 AssemblyRef: version in four parts, flags, public key or token, name, culture, hash *)
    [Bytes2; Bytes2; Bytes2; Bytes2; Bytes4; BlobHeap; StringHeap; StringHeap; BlobHeap];
    (* 36 AssemblyRefProcessor: processor, assembly *)
    [Bytes4; Into 35];
    (* 37 AssemblyRefOS: platform, major, minor, assembly *)
    [Bytes4; Bytes4; Bytes4; Into 35];
    (* 38 File: flags, name, hash *)
    [Bytes4; StringHeap; BlobHeap];
    (* 39 ExportedType: flags, type id, name, namespace, implementation *)
    [Bytes4; Bytes4; StringHeap; StringHeap; implementation];
    (* 40 ManifestResource: offset, flags, name, implementation *)
    [Bytes4; Bytes4; StringHeap; implementation];
    (* 41 NestedClass: nested, enclosing *)
    [Into 2; Into 2];
    (* 42 GenericParam: number, flags, owner, name *)
    [Bytes2; Bytes2; type_or_method_def; StringHeap];
    (* 43 MethodSpec: method, instantiation *)
    [method_def_or_ref; BlobHeap];
    (* 44 GenericParamConstraint: owner, constraint *)
    [Into 42; type_def_or_ref] ].

(** ** Sizes and places *)

Section sizes.
Context (h : HeapSizes) (cs : list Z).

Definition count_of (t : Z) : Z := default 0 (cs !! Z.to_nat t).

(** An index takes two bytes if, beside its tag, they hold the row numbers of
    every table it may lead to; four otherwise. *)
Definition column_size (k : column) : Z :=
  match k with
  | Bytes2 => 2
  | Bytes4 => 4
  | StringHeap => if wide_strings h then 4 else 2
  | GuidHeap => if wide_guid h then 4 else 2
  | BlobHeap => if wide_blob h then 4 else 2
  | Index targets tag => if forallb (fun t => count_of t <? 2 ^ (16 - tag)) targets then 2 else 4
  end.

Fixpoint row_size (ks : list column) : Z :=
  match ks with [] => 0 | k :: ks => column_size k + row_size ks end.

Definition table_size (t : nat) : Z := count_of (Z.of_nat t) * row_size (default [] (format !! t)).

(** The tables follow each other by number. *)
Fixpoint table_start (t : nat) : Z :=
  match t with O => 0 | S t => table_start t + table_size t end.

Definition row_place (t : nat) (r : Z) : Z := table_start t + r * row_size (default [] (format !! t)).
Definition cell_place (t : nat) (r : Z) (col : nat) : Z :=
  row_place t r + row_size (take col (default [] (format !! t))).

(** ** The writer *)

Definition encode_cell (k : column) (v : Z) : list Z := to_le_bytes (Z.to_nat (column_size k)) v.
Definition encode_row (ks : list column) (vs : list Z) : list Z := concat (zip_with encode_cell ks vs).
Definition encode_table (t : nat) (rws : list (list Z)) : list Z :=
  concat (map (encode_row (default [] (format !! t))) rws).
Definition encode_tables (content : list (list (list Z))) : list Z := concat (imap encode_table content).

(** Content that has the shape of its tables and fits their columns. *)
Definition row_fits (ks : list column) (vs : list Z) : Prop := Forall2 (fun k v => 0 <= v < 256 ^ column_size k) ks vs.
Definition content_fits (content : list (list (list Z))) : Prop :=
  forall t rws, content !! t = Some rws -> rws <> [] -> exists ks, format !! t = Some ks /\ Forall (row_fits ks) rws.
End sizes.

(** The bytes of a range. *)
Definition slice (bytes : list Z) (start size : Z) : list Z := take (Z.to_nat size) (drop (Z.to_nat start) bytes).

(** The row counts of content. *)
Definition counts (content : list (list (list Z))) : list Z := map (fun rws => Z.of_nat (length rws)) content.

(** ** What the writer writes, and where *)

Section written.
Context (h : HeapSizes) (cs : list Z).

Lemma column_size_cases k : column_size h cs k = 2 \/ column_size h cs k = 4.
Proof.
  destruct k; cbn; auto; [destruct (wide_strings h)|destruct (wide_guid h)|destruct (wide_blob h)|destruct (forallb _ _)]; auto.
Qed.

Lemma row_size_nonneg ks : 0 <= row_size h cs ks.
Proof. induction ks as [|k ks IH]; cbn; [lia|]. destruct (column_size_cases k); lia. Qed.

Lemma row_size_app ks ls : row_size h cs (ks ++ ls) = row_size h cs ks + row_size h cs ls.
Proof. induction ks as [|k ks IH]; cbn; lia. Qed.

(** A column lies inside its row. *)
Lemma column_inside ks col k : ks !! col = Some k ->
  row_size h cs (take col ks) + column_size h cs k <= row_size h cs ks.
Proof.
  intros Hk. rewrite <- (take_drop_middle ks col k Hk) at 2. rewrite row_size_app. cbn.
  pose proof (row_size_nonneg (drop (S col) ks)). lia.
Qed.

Lemma count_of_nonneg t : Forall (fun n => 0 <= n) cs -> 0 <= count_of cs t.
Proof.
  intros Hc. unfold count_of. destruct (cs !! Z.to_nat t) as [n|] eqn:E; cbn; [|lia].
  rewrite Forall_forall in Hc. apply Hc. by eapply list_elem_of_lookup_2.
Qed.

Lemma table_size_nonneg t : Forall (fun n => 0 <= n) cs -> 0 <= table_size h cs t.
Proof. intros Hc. apply Z.mul_nonneg_nonneg; [by apply count_of_nonneg|apply row_size_nonneg]. Qed.

Lemma table_start_mono t t' : Forall (fun n => 0 <= n) cs -> (t <= t')%nat -> 0 <= table_start h cs t <= table_start h cs t'.
Proof.
  intros Hc Ht. split.
  - clear Ht. induction t as [|t IH]; cbn; [lia|]. pose proof (table_size_nonneg t Hc). lia.
  - induction Ht as [|t' _ IH]; [lia|]. cbn. pose proof (table_size_nonneg t' Hc). lia.
Qed.

Lemma concat_at {A} (ls : list (list A)) i x rest : ls !! i = Some x ->
  drop (length (concat (take i ls))) (concat ls ++ rest) = x ++ concat (drop (S i) ls) ++ rest.
Proof.
  intros Hi. rewrite <- (take_drop_middle ls i x Hi) at 2. rewrite concat_app, <- app_assoc, drop_app_length. cbn. by rewrite <- app_assoc.
Qed.

Lemma encode_cell_length k v : Z.of_nat (length (encode_cell h cs k v)) = column_size h cs k.
Proof. unfold encode_cell. rewrite length_to_le_bytes. destruct (column_size_cases k); lia. Qed.

Lemma encode_row_length ks vs : length ks = length vs -> Z.of_nat (length (encode_row h cs ks vs)) = row_size h cs ks.
Proof.
  revert vs. induction ks as [|k ks IH]; intros [|v vs] Hl; try done. unfold encode_row in *. cbn [zip_with concat row_size].
  rewrite length_app, Nat2Z.inj_add, IH by (cbn in Hl; lia). by rewrite encode_cell_length.
Qed.

Lemma encode_rows_length ks rws : Forall (row_fits h cs ks) rws ->
  Z.of_nat (length (concat (map (encode_row h cs ks) rws))) = Z.of_nat (length rws) * row_size h cs ks.
Proof.
  induction 1 as [|vs rws Hf _ IH]; cbn; [done|]. rewrite length_app, Nat2Z.inj_add, IH, encode_row_length by (by eapply Forall2_length). lia.
Qed.
End written.

Section placed.
Context (h : HeapSizes) (content : list (list (list Z))).
Notation cs := (counts content).
Hypothesis Hfit : content_fits h cs content.

Lemma count_of_counts t rws : content !! t = Some rws -> count_of cs (Z.of_nat t) = Z.of_nat (length rws).
Proof. intros Ht. unfold count_of, counts. by rewrite Nat2Z.id, list_lookup_fmap, Ht. Qed.

Lemma encode_table_length t rws : content !! t = Some rws -> Z.of_nat (length (encode_table h cs t rws)) = table_size h cs t.
Proof.
  intros Ht. unfold encode_table, table_size. rewrite (count_of_counts t rws Ht). destruct rws as [|vs rws]; [done|].
  destruct (Hfit t (vs :: rws) Ht) as (ks & -> & Hk); [done|]. by apply encode_rows_length.
Qed.

Lemma encode_tables_start t : (t <= length content)%nat ->
  Z.of_nat (length (concat (take t (imap (encode_table h cs) content)))) = table_start h cs t.
Proof.
  induction t as [|t IH]; intros Hl; [done|]. destruct (lookup_lt_is_Some_2 content t Hl) as [rws Ht].
  rewrite (take_S_r _ _ (encode_table h cs t rws)) by (by rewrite list_lookup_imap, Ht).
  rewrite concat_app, length_app. cbn [concat table_start]. rewrite app_nil_r.
  rewrite Nat2Z.inj_add, IH by lia. by rewrite (encode_table_length t rws Ht).
Qed.

Lemma encode_tables_length : Z.of_nat (length (encode_tables h cs content)) = table_start h cs (length content).
Proof. rewrite <- encode_tables_start by lia. by rewrite take_ge by (by rewrite length_imap). Qed.

(** The cell of a row of the content is at its place. *)
Lemma encode_tables_cell t r col rws vs v ks k rest : content !! t = Some rws -> rws !! r = Some vs -> vs !! col = Some v ->
  format !! t = Some ks -> ks !! col = Some k ->
  from_le_bytes (slice (encode_tables h cs content ++ rest) (cell_place h cs t (Z.of_nat r) col) (column_size h cs k)) = v.
Proof.
  intros Ht Hr Hv Hf Hk. assert (Hne : rws <> []) by (by intros ->).
  destruct (Hfit t rws Ht Hne) as (ks' & Ef & Hall). rewrite Hf in Ef. injection Ef as <-.
  pose proof (proj1 (Forall_lookup _ _) Hall r vs Hr) as Hvs. pose proof (Forall2_length _ _ _ Hvs) as Hl.
  assert (Hx : imap (encode_table h cs) content !! t = Some (concat (map (encode_row h cs ks) rws)))
    by (rewrite list_lookup_imap, Ht; cbn; unfold encode_table; by rewrite Hf).
  assert (Hy : map (encode_row h cs ks) rws !! r = Some (encode_row h cs ks vs)) by (by rewrite list_lookup_fmap, Hr).
  assert (Hz : zip_with (encode_cell h cs) ks vs !! col = Some (encode_cell h cs k v)) by (apply lookup_zip_with_Some; by exists k, v).
  assert (E : Z.to_nat (cell_place h cs t (Z.of_nat r) col) = (length (concat (take t (imap (encode_table h cs) content)))
    + (length (concat (take r (map (encode_row h cs ks) rws))) + length (concat (take col (zip_with (encode_cell h cs) ks vs)))))%nat).
  { unfold cell_place, row_place. rewrite Hf. change (default [] (Some ks)) with ks. rewrite <- encode_tables_start by (apply lookup_lt_Some in Ht; lia).
    rewrite firstn_map. pose proof (encode_rows_length h cs ks (take r rws) ltac:(by apply Forall_take)) as E1.
    rewrite length_take, Nat.min_l in E1 by (apply lookup_lt_Some in Hr; lia).
    rewrite zip_with_take. pose proof (encode_row_length h cs (take col ks) (take col vs) ltac:(rewrite !length_take; lia)) as E2.
    unfold encode_row in E2. rewrite <- E2, <- E1. lia. }
  unfold slice. rewrite E, <- !drop_drop. unfold encode_tables. rewrite (concat_at _ _ _ _ Hx), (concat_at _ _ _ _ Hy).
  unfold encode_row. rewrite (concat_at _ _ _ _ Hz).
  rewrite take_app_length' by (pose proof (encode_cell_length h cs k v); lia).
  apply from_to_le_bytes. pose proof (Forall2_lookup_lr _ _ _ _ _ _ Hvs Hk Hv) as Hb. cbn in Hb.
  rewrite Z2Nat.id; [done|]. destruct (column_size_cases h cs k); lia.
Qed.
End placed.
