(* ===== verification/TablesThm.v ===== *)
(** * Metadata tables: where rows are and what is read from them

    About [Tables], against the format of [TableFormat]: the reader's schema and
    widths are those of the standard; in an accepted layout every row and column
    is read from its place; what the standard's writer lays out is accepted and
    read back; and a coded index is decoded to what it was encoded from, in the
    width that the row counts give it. *)

From S2P Require Import Prelude Cursor Metadata Tables TableFormat.
Local Open Scope Z_scope.

(** ** Postconditions *)

Definition reads {A} (P : A -> Prop) (m : reading A) : Prop :=
  match m with Got a => P a | Refused _ => True | Panicked => False end.

Lemma reads_bind {A B} (P : A -> Prop) (Q : B -> Prop) (m : reading A) (k : A -> reading B) :
  reads P m -> (forall a, P a -> reads Q (k a)) -> reads Q (m ≫= k).
Proof. destruct m; cbn; auto. Qed.

Lemma reads_mono {A} (P Q : A -> Prop) (m : reading A) : reads P m -> (forall a, P a -> Q a) -> reads Q m.
Proof. destruct m; cbn; auto. Qed.

Lemma reads_ok_or {A} (P : A -> Prop) (o : option A) e : (forall a, o = Some a -> P a) -> reads P (ok_or_refuse o e).
Proof. destruct o; cbn; auto. Qed.

Lemma reads_got {A} (P : A -> Prop) (m : reading A) a : reads P m -> m = Got a -> P a.
Proof. intros H ->. exact H. Qed.

Lemma got_bind {A B} (m : reading A) (k : A -> reading B) b : m ≫= k = Got b -> exists a, m = Got a /\ k a = Got b.
Proof. destruct m as [a| |]; [|done..]. intros H. by exists a. Qed.

Lemma got_ok_or {A} (o : option A) e a : ok_or_refuse o e = Got a -> o = Some a.
Proof. destruct o; [|done]. by intros [= ->]. Qed.

(** Reduce the steps of a reading that are known. *)
Ltac reading_step := cbn [ok_or_refuse or_panic refuse_unless negb mbind reading_bind mret reading_ret].

(** ** Arithmetic on [usize] *)

Lemma checked_add_some a b : a + b < usize_bound -> checked_add a b = Some (a + b).
Proof. intros H. unfold checked_add. by rewrite (proj2 (Z.ltb_lt _ _) H). Qed.

Lemma checked_mul_some a b : a * b < usize_bound -> checked_mul a b = Some (a * b).
Proof. intros H. unfold checked_mul. by rewrite (proj2 (Z.ltb_lt _ _) H). Qed.

Lemma checked_add_inv a b c : checked_add a b = Some c -> c = a + b /\ a + b < usize_bound.
Proof. unfold checked_add. destruct (Z.ltb_spec (a + b) usize_bound); [|done]. by intros [= <-]. Qed.

Lemma checked_mul_inv a b c : checked_mul a b = Some c -> c = a * b /\ a * b < usize_bound.
Proof. unfold checked_mul. destruct (Z.ltb_spec (a * b) usize_bound); [|done]. by intros [= <-]. Qed.

Lemma get_range_some d i j : 0 <= i <= j -> j <= Z.of_nat (length d) -> get_range d i j = Some (take (Z.to_nat (j - i)) (drop (Z.to_nat i) d)).
Proof. intros Hi Hj. unfold get_range. by rewrite (proj2 (Z.leb_le 0 i)), (proj2 (Z.leb_le i j)), (proj2 (Z.leb_le j _)) by lia. Qed.

(** The range between two parts of a list. *)
Lemma get_range_app a b c : get_range (a ++ b ++ c) (Z.of_nat (length a)) (Z.of_nat (length a) + Z.of_nat (length b)) = Some b.
Proof.
  rewrite get_range_some by (rewrite ?length_app; lia). f_equal.
  replace (Z.to_nat _) with (length b) by lia. rewrite Nat2Z.id, drop_app_length. apply take_app_length.
Qed.

Lemma get_lookup l (i : nat) : get l (Z.of_nat i) = l !! i.
Proof. unfold get. rewrite (proj2 (Z.leb_le 0 _)) by lia. by rewrite Nat2Z.id. Qed.

Lemma sum_Z_app l m : sum_Z (l ++ m) = sum_Z l + sum_Z m.
Proof. induction l as [|x l IH]; cbn; lia. Qed.

Lemma sum_Z_nonneg l : Forall (fun x => 0 <= x) l -> 0 <= sum_Z l.
Proof. induction 1; cbn; lia. Qed.

(** ** Widths *)

Definition good_widths (w : Widths) : Prop := forall x, x ∈ [w_str w; w_guid w; w_blob w] -> x = 2 \/ x = 4.

Lemma Col_width_cases c w rs : good_widths w -> Col_width c w rs = 2 \/ Col_width c w rs = 4.
Proof.
  intros Hw. unfold good_widths in Hw. destruct c; cbn; auto; try (apply Hw; set_solver).
  - destruct (_ <? _); auto.
  - unfold Coded_width. cbv zeta. destruct (_ <? _); auto.
Qed.

Lemma row_width_app a b w rs : row_width (a ++ b) w rs = row_width a w rs + row_width b w rs.
Proof. unfold row_width. by rewrite map_app, sum_Z_app. Qed.

Lemma row_width_nonneg cols w rs : good_widths w -> 0 <= row_width cols w rs.
Proof.
  intros Hw. apply sum_Z_nonneg. apply Forall_map, Forall_forall. intros c _. cbn. destruct (Col_width_cases c w rs Hw); lia.
Qed.

(** ** The layout *)

Lemma strides_got w rs t counts ss : strides_from w rs t counts = Got ss -> length ss = length counts
  /\ forall i count s, counts !! i = Some count -> ss !! i = Some s ->
     (count = 0 /\ s = 0) \/ exists cols, schema (t + Z.of_nat i) = Some cols /\ s = row_width cols w rs.
Proof.
  revert t ss. induction counts as [|count counts IH]; intros t ss; cbn [strides_from]; [intros [= <-]; done|].
  intros (s & Es & (rest & Er & [= <-])%got_bind)%got_bind. apply IH in Er as [Hl Hr]. split; [cbn; lia|].
  intros [|i] c s'; cbn.
  - intros [= <-] [= <-]. rewrite Z.add_0_r. destruct (Z.eqb_spec count 0) as [->|_]; [injection Es as <-; by left|].
    apply got_bind in Es as (cols & Ec%got_ok_or & [= <-]). right. by exists cols.
  - intros Hc Hs. specialize (Hr i c s' Hc Hs). by replace (t + Z.of_nat (S i)) with (t + 1 + Z.of_nat i) by lia.
Qed.

Definition sizes (counts strides : list Z) : list Z := zip_with Z.mul counts strides.

Lemma offsets_got run counts ss os total : offsets_from run counts ss = Got (os, total) -> length ss = length counts ->
  total = run + sum_Z (sizes counts ss) /\ length os = length counts
  /\ forall i o, os !! i = Some o -> o = run + sum_Z (take i (sizes counts ss)).
Proof.
  revert run ss os total. induction counts as [|count counts IH]; intros run [|s ss] os total; cbn [offsets_from]; try done.
  - intros [= <- <-] _. cbn. split_and!; [lia|done|done].
  - intros (bytes & [-> _]%got_ok_or%checked_mul_inv & (next & [-> _]%got_ok_or%checked_add_inv & ([rest tot] & E & [= <- <-])%got_bind)%got_bind)%got_bind [= Hl].
    destruct (IH _ _ _ _ E Hl) as (Ht & Hlen & Ho). cbn. fold (sizes counts ss). split_and!; [lia|lia|].
    intros [|i] o; cbn; [intros [= <-]; lia|]. intros Hi%Ho. fold (sizes counts ss). lia.
Qed.

Lemma sum_take_S l i x : l !! i = Some x -> sum_Z (take (S i) l) = sum_Z (take i l) + x.
Proof. intros H. rewrite (take_S_r _ _ _ H), sum_Z_app. cbn. lia. Qed.

Lemma sum_take_le l i j : Forall (fun x => 0 <= x) l -> (i <= j)%nat -> 0 <= sum_Z (take i l) <= sum_Z (take j l).
Proof.
  intros Hl Hij. split; [by apply sum_Z_nonneg, Forall_take|]. rewrite <- (take_drop i (take j l)), take_take, Nat.min_l, sum_Z_app by lia.
  pose proof (sum_Z_nonneg _ (Forall_drop _ i _ (Forall_take _ j _ Hl))). lia.
Qed.

Record md_wf (m : MetadataFile) : Prop := {
  wf_rows : length (rows m) = 64%nat;
  wf_counts : Forall (fun n => 0 <= n <= u32_max) (rows m);
  wf_bytes : Forall byte (tables_bytes m);
  wf_length : Z.of_nat (length (tables_bytes m)) < usize_bound }.

Lemma heap_widths_good h : good_widths (heap_widths h).
Proof. intros x Hx. cbn in Hx. destruct (wide_strings _), (wide_guid _), (wide_blob _); set_solver. Qed.

Lemma new_widths m T : Tables_new m = Got T -> md T = m /\ good_widths (widths T).
Proof.
  intros (ss & _ & ([os total] & _ & ([] & _ & [= <-])%got_bind)%got_bind)%got_bind. split; [done|apply heap_widths_good].
Qed.

Lemma new_layout m T i count : md_wf m -> Tables_new m = Got T -> rows m !! i = Some count ->
  exists s o, stride T !! i = Some s /\ offset T !! i = Some o /\ 0 <= s /\ 0 <= o /\ o + count * s <= Z.of_nat (length (tables_bytes m))
  /\ (forall j o', (i < j)%nat -> offset T !! j = Some o' -> o + count * s <= o')
  /\ ((count = 0 /\ s = 0) \/ exists cols, schema (Z.of_nat i) = Some cols /\ s = row_width cols (widths T) (rows m)).
Proof.
  intros Hm HT Hi. destruct (new_widths m T HT) as [_ Hw].
  apply got_bind in HT as (ss & Es & ([os total] & Eo & ([] & Et & [= <-])%got_bind)%got_bind). cbn [stride offset widths] in *.
  apply strides_got in Es as [Hls Hs]. apply offsets_got in Eo as (-> & Hlo & Ho); [|done].
  destruct (lookup_lt_is_Some_2 ss i) as [s Ess]; [rewrite Hls; by eapply lookup_lt_Some|].
  destruct (lookup_lt_is_Some_2 os i) as [o Eos]; [rewrite Hlo; by eapply lookup_lt_Some|].
  specialize (Hs i count s Hi Ess) as Hcols. rewrite Z.add_0_l in Hcols.
  assert (Hpos : Forall (fun x => 0 <= x) (sizes (rows m) ss)).
  { apply Forall_lookup. intros j x. unfold sizes. rewrite lookup_zip_with_Some. intros (c & s' & -> & Hc & Hs').
    pose proof (wf_counts m Hm) as Hcs. rewrite Forall_lookup in Hcs. specialize (Hcs j c Hc).
    destruct (Hs j c s' Hc Hs') as [[_ ->]|(cols & _ & ->)]; [lia|]. pose proof (row_width_nonneg cols _ (rows m) Hw) as Hn. cbn [widths] in Hn. apply Z.mul_nonneg_nonneg; [lia|exact Hn]. }
  assert (Hsize : sizes (rows m) ss !! i = Some (count * s)) by (apply lookup_zip_with_Some; by exists count, s).
  pose proof (Ho i o Eos) as ->. pose proof (sum_take_S _ _ _ Hsize) as Esum.
  exists s, (0 + sum_Z (take i (sizes (rows m) ss))). split_and!; [done|done| | | | |done].
  - destruct Hcols as [[_ ->]|(cols & _ & ->)]; [lia|]. by apply row_width_nonneg.
  - pose proof (sum_take_le _ i i Hpos (le_n i)). lia.
  - unfold refuse_unless in Et. destruct (Z.ltb_spec (Z.of_nat (length (tables_bytes m))) (0 + sum_Z (sizes (rows m) ss))) as [|Hle]; [done|].
    pose proof (sum_take_le _ (S i) (length (sizes (rows m) ss)) Hpos) as Hle'. rewrite (firstn_all (sizes (rows m) ss)) in Hle'.
    apply lookup_lt_Some in Hsize. specialize (Hle' Hsize). lia.
  - intros j o' Hj Hoj%Ho. pose proof (sum_take_le _ (S i) j Hpos Hj). lia.
Qed.

(** ** Rows and columns *)

Lemma accumulate_spec bs i v : Forall byte bs -> 0 <= i -> 0 <= v < 2 ^ (8 * i) -> accumulate i v bs = v + 2 ^ (8 * i) * from_le_bytes bs.
Proof.
  intros Hb. revert i v. induction Hb as [|b bs Hb _ IH]; intros i v Hi Hv; cbn [accumulate from_le_bytes]; [lia|].
  rewrite Z.lor_comm, lor_shift by lia. unfold byte in Hb.
  assert (Hp : 2 ^ (8 * (i + 1)) = 2 ^ (8 * i) * 256) by (rewrite Z.mul_add_distr_l, Z.pow_add_r by lia; done).
  rewrite IH by nia. rewrite Hp. nia.
Qed.

(** A column of a row with the bytes of its stride. *)
Lemma uint_spec T t bytes cols (col : nat) c : schema t = Some cols -> good_widths (widths T) -> cols !! col = Some c ->
  Forall byte bytes -> Z.of_nat (length bytes) = row_width cols (widths T) (rows (md T)) ->
  let off := row_width (take col cols) (widths T) (rows (md T)) in
  let width := Col_width c (widths T) (rows (md T)) in
  uint {| row_tables := T; row_table := t; row_bytes := bytes |} (Z.of_nat col)
  = Got (from_le_bytes (take (Z.to_nat width) (drop (Z.to_nat off) bytes))) /\ 0 <= off /\ off + width <= Z.of_nat (length bytes).
Proof.
  intros Hs Hw Hc Hb Hl off width.
  assert (Ho : 0 <= off) by (by apply row_width_nonneg).
  assert (Hend : off + width <= Z.of_nat (length bytes)).
  { rewrite Hl, <- (take_drop_middle cols col c Hc), row_width_app. fold off. cbn [row_width map sum_Z].
    unfold row_width. cbn [map sum_Z]. fold width.
    pose proof (row_width_nonneg (drop (S col) cols) (widths T) (rows (md T)) Hw). unfold row_width in *. lia. }
  split_and!; [|done|done]. unfold uint, col_span. cbn [row_tables row_table row_bytes]. rewrite Hs. reading_step.
  rewrite (proj2 (Z.leb_le 0 _)), Nat2Z.id, Hc by lia. reading_step. fold off width.
  pose proof (Col_width_cases c (widths T) (rows (md T)) Hw) as Hcw. fold width in Hcw.
  rewrite get_range_some by lia. reading_step. replace (off + width - off) with width by lia.
  rewrite accumulate_spec; [f_equal; cbn; lia|by apply Forall_take, Forall_drop|lia|cbn; lia].
Qed.

Lemma row_spec m T (i : nat) count r : md_wf m -> Tables_new m = Got T -> rows m !! i = Some count -> 0 <= r < count ->
  exists s o cols, stride T !! i = Some s /\ offset T !! i = Some o /\ schema (Z.of_nat i) = Some cols /\ s = row_width cols (widths T) (rows m)
  /\ 0 <= o + r * s /\ o + r * s + s <= Z.of_nat (length (tables_bytes m))
  /\ row T (Z.of_nat i) r = Got {| row_tables := T; row_table := Z.of_nat i;
       row_bytes := take (Z.to_nat s) (drop (Z.to_nat (o + r * s)) (tables_bytes m)) |}.
Proof.
  intros Hm HT Hi Hr. destruct (new_layout m T i count Hm HT Hi) as (s & o & Es & Eo & Hs & Ho & Hend & _ & Hcols).
  destruct Hcols as [[-> _]|(cols & Ec & Hsc)]; [lia|]. destruct (new_widths m T HT) as [Emd _]. pose proof (wf_length m Hm).
  exists s, o, cols. assert (Hrs : r * s + s <= count * s) by nia. assert (0 <= r * s) by nia. split_and!; try done; [lia|lia|].
  unfold row, index. rewrite Emd, !get_lookup, Hi, Es, Eo. reading_step. rewrite (proj2 (Z.leb_gt count r)) by lia. reading_step.
  rewrite checked_mul_some by lia. reading_step. rewrite checked_add_some by lia. reading_step. rewrite checked_add_some by lia. reading_step.
  rewrite get_range_some by lia. reading_step. do 3 f_equal. lia.
Qed.

Lemma to_le_bytes_bytes n v : Forall byte (to_le_bytes n v).
Proof. revert v. induction n as [|n IH]; intros v; cbn; constructor; [apply Z.mod_pos_bound; lia|apply IH]. Qed.

(** ** The reader follows the format *)

Lemma fold_max_ge l acc : acc <= fold_left Z.max l acc /\ forall x, x ∈ l -> x <= fold_left Z.max l acc.
Proof.
  revert acc. induction l as [|y l IH]; intros acc; cbn; [split; [lia|by intros x ?%not_elem_of_nil]|].
  destruct (IH (Z.max acc y)) as [H1 H2]. split; [lia|]. intros x [->|Hx]%elem_of_cons; [lia|auto].
Qed.

Lemma tag_bits_range c : 1 <= tag_bits c <= 5.
Proof. destruct c; cbn; lia. Qed.

(** Less than a bound is what [fold_left Z.max] and [forallb] agree on. *)
Lemma fold_max_lt l n : 0 < n -> (fold_left Z.max l 0 <? n) = forallb (fun x => x <? n) l.
Proof.
  intros Hn. apply eq_true_iff_eq. rewrite Z.ltb_lt, forallb_forall. split.
  - intros H x Hx%list_elem_of_In. apply Z.ltb_lt. eapply Z.le_lt_trans; [by apply fold_max_ge|done].
  - intros H. assert (G : forall acc, acc < n -> fold_left Z.max l acc < n); [|by apply G].
    clear -H. induction l as [|x l IH]; intros acc Ha; cbn; [done|]. apply IH; [intros; apply H; by right|].
    specialize (H x (or_introl eq_refl)). lia.
Qed.

(** A column of the reader's schema stands for a column of the format. *)
Definition stands_for (c : Col) (k : column) : bool :=
  match c, k with
  | U16, Bytes2 | U32, Bytes4 | Str, StringHeap | Guid, GuidHeap | Blob, BlobHeap => true
  | Simple t, Index ts tag => bool_decide (ts = [t]) && (tag =? 0)
  | Code c, Index ts tag => bool_decide (ts = List.filter (fun t => negb (t =? RESERVED)) (slots c)) && (tag =? tag_bits c)
  | _, _ => false
  end.

Lemma row_at_count rs t : row_at rs t = count_of rs t.
Proof. unfold row_at, count_of. rewrite nth_lookup. done. Qed.

Lemma stands_for_width h rs c k : stands_for c k = true -> Col_width c (heap_widths h) rs = column_size h rs k.
Proof.
  destruct c as [| | | | |t|c], k as [| | | | |ts tag]; try done; cbn [stands_for]; intros [E%bool_decide_eq_true ->%Z.eqb_eq]%andb_prop; subst ts.
  - cbn [Col_width column_size forallb]. rewrite row_at_count, andb_true_r. done.
  - cbn [Col_width column_size]. unfold Coded_width. cbv zeta. pose proof (tag_bits_range c).
    rewrite Z.shiftl_1_l, fold_max_lt by (apply Z.pow_pos_nonneg; lia).
    assert (E : forall ts, forallb (fun x => x <? 2 ^ (16 - tag_bits c)) (map (row_at rs) ts) = forallb (fun t => count_of rs t <? 2 ^ (16 - tag_bits c)) ts)
      by (intros ts; induction ts as [|x ts IH]; cbn; [done|]; by rewrite IH, row_at_count).
    by rewrite E.
Qed.

Lemma schemas_format : Forall2 (Forall2 (fun c k => stands_for c k = true)) schemas format.
Proof. repeat first [apply List.Forall2_nil|apply List.Forall2_cons]; by vm_compute. Qed.

(** The reader knows exactly the tables of the format, with their columns. *)
Lemma schema_format (t : nat) :
  match schema (Z.of_nat t), format !! t with
  | Some cols, Some ks => Forall2 (fun c k => stands_for c k = true) cols ks
  | None, None => True
  | _, _ => False
  end.
Proof.
  unfold schema. rewrite (proj2 (Z.leb_le 0 _)), Nat2Z.id by lia. pose proof schemas_format as H.
  destruct (schemas !! t) as [cols|] eqn:Ec.
  - destruct (Forall2_lookup_l _ _ _ _ _ H Ec) as (ks & -> & ?). done.
  - apply lookup_ge_None in Ec. rewrite (Forall2_length _ _ _ H) in Ec. by rewrite (proj2 (lookup_ge_None _ _) Ec).
Qed.

Lemma row_width_size h rs cols ks : Forall2 (fun c k => stands_for c k = true) cols ks ->
  row_width cols (heap_widths h) rs = row_size h rs ks.
Proof.
  induction 1 as [|c k cols ks Hc _ IH]; [done|]. unfold row_width in *. cbn [map sum_Z row_size]. rewrite IH. f_equal. by apply stands_for_width.
Qed.

Lemma schema_row_size h rs (t : nat) cols : schema (Z.of_nat t) = Some cols ->
  exists ks, format !! t = Some ks /\ Forall2 (fun c k => stands_for c k = true) cols ks
    /\ row_width cols (heap_widths h) rs = row_size h rs ks.
Proof.
  intros E. pose proof (schema_format t) as H. rewrite E in H. destruct (format !! t) as [ks|]; [|done].
  exists ks. split_and!; [done|done|by apply row_width_size].
Qed.

(** The offsets of an accepted layout are the places of its tables. *)
Lemma sizes_start h rs ss i : length ss = length rs -> (i <= length rs)%nat ->
  (forall j count s, rs !! j = Some count -> ss !! j = Some s -> count * s = table_size h rs j) ->
  sum_Z (take i (sizes rs ss)) = table_start h rs i.
Proof.
  intros Hl Hi Hs. induction i as [|i IH]; [done|].
  destruct (lookup_lt_is_Some_2 rs i Hi) as [count Hc]. destruct (lookup_lt_is_Some_2 ss i) as [s Es]; [lia|].
  rewrite (sum_take_S _ _ (count * s)) by (apply lookup_zip_with_Some; by exists count, s).
  rewrite IH by lia. cbn [table_start]. by rewrite (Hs i count s).
Qed.

Lemma strides_sizes h rs ss : strides_from (heap_widths h) rs 0 rs = Got ss -> length ss = length rs
  /\ forall j count s, rs !! j = Some count -> ss !! j = Some s -> count * s = table_size h rs j.
Proof.
  intros [Hl Hs]%strides_got. split; [done|]. intros j count s Hc Ej. unfold table_size, count_of. rewrite Nat2Z.id, Hc. cbn [default].
  destruct (Hs j count s Hc Ej) as [[-> _]|(cols & Ec & ->)]; [done|]. rewrite Z.add_0_l in Ec.
  destruct (schema_row_size h rs j cols Ec) as (ks & -> & _ & ->). done.
Qed.

Lemma new_widths_eq m T : Tables_new m = Got T -> widths T = heap_widths (heap_sizes m).
Proof. by intros (ss & _ & ([os total] & _ & ([] & _ & [= <-])%got_bind)%got_bind)%got_bind. Qed.

Lemma offset_start m T (t : nat) o : Tables_new m = Got T -> offset T !! t = Some o ->
  o = table_start (heap_sizes m) (rows m) t.
Proof.
  intros (ss & Es & ([os total] & Eo & ([] & _ & [= <-])%got_bind)%got_bind)%got_bind. cbn [offset].
  apply strides_sizes in Es as [Hl Hs]. apply offsets_got in Eo as (_ & Hlo & Ho); [|done]. intros Ht. rewrite (Ho t o Ht).
  rewrite <- (sizes_start (heap_sizes m) (rows m) ss t Hl); [lia| |done]. apply lookup_lt_Some in Ht. lia.
Qed.

(** A layout is accepted when the format has every table that is not empty and
    the stream is long enough. *)
Lemma strides_total h rs (t : nat) cs : (forall i count, cs !! i = Some count -> count <> 0 -> is_Some (format !! (t + i)%nat)) ->
  exists ss, strides_from (heap_widths h) rs (Z.of_nat t) cs = Got ss.
Proof.
  revert t. induction cs as [|count cs IH]; intros t H; [by exists []|]. cbn [strides_from].
  replace (Z.of_nat t + 1) with (Z.of_nat (S t)) by lia.
  destruct (IH (S t)) as [ss ->]; [intros i c Hi; specialize (H (S i) c Hi); by replace (S t + i)%nat with (t + S i)%nat by lia|].
  destruct (Z.eqb_spec count 0) as [|Hne]; [by eexists|]. destruct (H 0%nat count eq_refl Hne) as [ks Hk]. rewrite Nat.add_0_r in Hk.
  pose proof (schema_format t) as Hf. rewrite Hk in Hf. destruct (schema (Z.of_nat t)); [by eexists|done].
Qed.

Lemma offsets_ok run cs ss : length ss = length cs -> Forall (fun x => 0 <= x) (sizes cs ss) -> 0 <= run -> run + sum_Z (sizes cs ss) < usize_bound ->
  exists os, offsets_from run cs ss = Got (os, run + sum_Z (sizes cs ss)).
Proof.
  revert run ss. induction cs as [|c cs IH]; intros run [|s ss] Hl Hp Hr Hb; try done; cbn in *.
  - exists []. by rewrite Z.add_0_r.
  - fold (sizes cs ss) in *. inversion Hp as [|? ? Hx Hp']; subst. pose proof (sum_Z_nonneg _ Hp'). rewrite checked_mul_some by lia. reading_step.
    rewrite checked_add_some by lia. reading_step. destruct (IH (run + c * s) ss) as [os ->]; [lia|done|lia|lia|]. reading_step.
    exists (run :: os). do 2 f_equal. lia.
Qed.

Lemma counts_nonneg m : md_wf m -> Forall (fun n => 0 <= n) (rows m).
Proof. intros Hm. eapply Forall_impl; [apply (wf_counts m Hm)|]. cbn. lia. Qed.

Lemma new_accepts m : md_wf m -> (forall t count, rows m !! t = Some count -> count <> 0 -> is_Some (format !! t)) ->
  table_start (heap_sizes m) (rows m) (length (rows m)) <= Z.of_nat (length (tables_bytes m)) -> exists T, Tables_new m = Got T.
Proof.
  intros Hm Hf Hlen. unfold Tables_new. cbv zeta. destruct (strides_total (heap_sizes m) (rows m) 0 (rows m) Hf) as [ss Es].
  change (Z.of_nat 0) with 0 in Es. rewrite Es. reading_step. apply strides_sizes in Es as [Hl Hs].
  assert (Hpos : Forall (fun x => 0 <= x) (sizes (rows m) ss)).
  { apply Forall_lookup. intros j x (c & s & -> & Hc & Ej)%lookup_zip_with_Some. rewrite (Hs j c s Hc Ej).
    by apply table_size_nonneg, counts_nonneg. }
  assert (Hsum : sum_Z (sizes (rows m) ss) = table_start (heap_sizes m) (rows m) (length (rows m))).
  { rewrite <- (sizes_start (heap_sizes m) (rows m) ss (length (rows m)) Hl ltac:(lia) Hs). f_equal. symmetry. apply take_ge.
    unfold sizes. rewrite length_zip_with. lia. }
  pose proof (wf_length m Hm). destruct (offsets_ok 0 (rows m) ss Hl Hpos) as [os ->]; [lia|lia|]. reading_step.
  rewrite (proj2 (Z.ltb_ge _ _)) by lia. reading_step. by eexists.
Qed.

(** A row of an accepted layout, and its columns, in the places of the format. *)
Lemma row_at_place m T (t : nat) count r : md_wf m -> Tables_new m = Got T -> rows m !! t = Some count -> 0 <= r < count ->
  exists ks R, format !! t = Some ks
  /\ let h := heap_sizes m in let size := row_size h (rows m) ks in let start := row_place h (rows m) t r in
  0 <= start /\ start + size <= Z.of_nat (length (tables_bytes m)) /\ row T (Z.of_nat t) r = Got R
  /\ row_bytes R = slice (tables_bytes m) start size
  /\ forall (col : nat) k, ks !! col = Some k ->
     uint R (Z.of_nat col) = Got (from_le_bytes (slice (tables_bytes m) (cell_place h (rows m) t r col) (column_size h (rows m) k))).
Proof.
  intros Hm HT Hc Hr. destruct (new_widths m T HT) as [Emd Hw]. pose proof (new_widths_eq m T HT) as Ew.
  destruct (row_spec m T t count r Hm HT Hc Hr) as (s & o & cols & _ & Eo & Ec & Hs & Hlo & Hhi & Erow).
  destruct (schema_row_size (heap_sizes m) (rows m) t cols Ec) as (ks & Ek & Hk & Esize). rewrite Ew, Esize in Hs.
  assert (Eplace : row_place (heap_sizes m) (rows m) t r = o + r * s)
    by (unfold row_place; by rewrite Ek, (offset_start m T t o HT Eo), Hs).
  exists ks. eexists. split; [done|]. cbv zeta. rewrite Eplace, <- Hs. split_and!; [done|done|exact Erow|done|].
  intros col k Hcol. destruct (Forall2_lookup_r _ _ _ _ _ Hk Hcol) as (c & Hcc & Hck).
  set (bytes := take _ _).
  assert (Hlen : Z.of_nat (length bytes) = row_width cols (widths T) (rows (md T))).
  { unfold bytes. rewrite length_take, length_drop, Emd, Ew, Esize. pose proof (row_size_nonneg (heap_sizes m) (rows m) ks). lia. }
  assert (Hb : Forall byte bytes) by (by apply Forall_take, Forall_drop, wf_bytes).
  destruct (uint_spec T (Z.of_nat t) bytes cols col c Ec Hw Hcc Hb Hlen) as (-> & _ & _). rewrite Emd, Ew.
  rewrite (stands_for_width _ _ c k Hck), (row_width_size _ _ (take col cols) (take col ks)) by (by apply Forall2_take).
  unfold cell_place. rewrite Eplace, Ek. change (default [] (Some ks)) with ks. do 2 f_equal. unfold bytes, slice.
  pose proof (column_inside (heap_sizes m) (rows m) ks col k Hcol). pose proof (row_size_nonneg (heap_sizes m) (rows m) (take col ks)).
  pose proof (column_size_cases (heap_sizes m) (rows m) k).
  rewrite skipn_firstn_comm, firstn_firstn, drop_drop. f_equal; [lia|]. f_equal. lia.
Qed.

(** ** Coded indices *)

(** The tags fit their bits. *)
Lemma slots_length c : Z.of_nat (length (slots c)) <= 2 ^ tag_bits c.
Proof. destruct c; cbn; lia. Qed.

Lemma Coded_decode_parts c rid (tag : nat) : (tag < length (slots c))%nat -> 0 <= rid ->
  let v := rid * 2 ^ tag_bits c + Z.of_nat tag in
  Z.land v (Z.shiftl 1 (tag_bits c) - 1) = Z.of_nat tag /\ Z.shiftr v (tag_bits c) = rid.
Proof.
  intros Ht Hr v. pose proof (slots_length c). pose proof (tag_bits_range c).
  assert (Hs : Z.shiftl 1 (tag_bits c) - 1 = Z.ones (tag_bits c)) by (rewrite Z.ones_equiv, Z.shiftl_1_l; lia).
  rewrite Hs, Z.land_ones, Z.shiftr_div_pow2 by lia. unfold v. rewrite Z.add_comm. split.
  - rewrite Z.mod_add by lia. apply Z.mod_small. lia.
  - rewrite Z.div_add by lia. rewrite Z.div_small by lia. lia.
Qed.

Lemma Coded_decode_encoded c rid (tag : nat) t : slots c !! tag = Some t -> t <> RESERVED -> 1 <= rid ->
  Coded_decode c (rid * 2 ^ tag_bits c + Z.of_nat tag) = Got (Some {| token_table := t; rid := rid |}).
Proof.
  intros Ht Hres Hr. unfold Coded_decode. destruct (Coded_decode_parts c rid tag (lookup_lt_Some _ _ _ Ht)) as [-> ->]; [lia|].
  assert (0 < 2 ^ tag_bits c) by (apply Z.pow_pos_nonneg; pose proof (tag_bits_range c); lia).
  rewrite (proj2 (Z.eqb_neq _ 0)) by nia. cbv zeta. rewrite Nat2Z.id, Ht. by rewrite (proj2 (Z.eqb_neq t _)), (proj2 (Z.eqb_neq rid 0)) by lia.
Qed.

Lemma Coded_width_fits c rs rid (tag : nat) t : slots c !! tag = Some t -> t <> RESERVED -> 0 <= rid <= row_at rs t -> rid < 2 ^ (32 - tag_bits c) ->
  rid * 2 ^ tag_bits c + Z.of_nat tag < 256 ^ Coded_width c rs.
Proof.
  intros Ht Hres Hr Hb. pose proof (slots_length c). pose proof (tag_bits_range c). pose proof (lookup_lt_Some _ _ _ Ht).
  assert (Hfit : forall n, 5 <= n -> rid < 2 ^ (n - tag_bits c) -> rid * 2 ^ tag_bits c + Z.of_nat tag < 2 ^ n).
  { intros n Hn Hlt. replace (2 ^ n) with (2 ^ (n - tag_bits c) * 2 ^ tag_bits c) by (rewrite <- Z.pow_add_r by lia; f_equal; lia).
    assert (0 < 2 ^ tag_bits c) by (apply Z.pow_pos_nonneg; lia). nia. }
  unfold Coded_width. cbv zeta. destruct (Z.ltb_spec (fold_left Z.max (map (row_at rs) (List.filter (fun t => negb (t =? RESERVED)) (slots c))) 0)
    (Z.shiftl 1 (16 - tag_bits c))) as [Hmax|_].
  - apply (Hfit 16); [lia|]. rewrite Z.shiftl_1_l in Hmax. eapply Z.le_lt_trans; [|exact Hmax]. eapply Z.le_trans; [apply Hr|]. apply fold_max_ge.
    apply list_elem_of_In, in_map, filter_In. split; [by apply list_elem_of_In, (list_elem_of_lookup_2 _ tag)|]. by rewrite (proj2 (Z.eqb_neq _ _)).
  - by apply (Hfit 32).
Qed.

(** ** The theorems *)

(** C28: An accepted layout is that of the standard, whatever the bytes.  A row
    whose number is below the count of its table lies inside the stream, before
    every later row of its table and every row of a later table; it is read as the
    bytes at its place, and each of its columns as the little-endian value of the
    bytes at the column's place, without a panic; any other row is refused. *)
Theorem tables_layout m T (t : nat) count r : md_wf m -> Tables_new m = Got T -> rows m !! t = Some count -> 0 <= r ->
  if r <? count then
    exists ks R, format !! t = Some ks
    /\ let h := heap_sizes m in let size := row_size h (rows m) ks in let start := row_place h (rows m) t r in
    0 <= start /\ start + size <= Z.of_nat (length (tables_bytes m)) /\ row T (Z.of_nat t) r = Got R
    /\ row_bytes R = slice (tables_bytes m) start size
    /\ (forall r', r < r' -> start + size <= row_place h (rows m) t r')
    /\ (forall t' r', (t < t')%nat -> 0 <= r' -> start + size <= row_place h (rows m) t' r')
    /\ (forall (col : nat) k, ks !! col = Some k ->
          uint R (Z.of_nat col) = Got (from_le_bytes (slice (tables_bytes m) (cell_place h (rows m) t r col) (column_size h (rows m) k))))
  else row T (Z.of_nat t) r = Refused TableIndexOutOfRange.
Proof.
  intros Hm HT Hc Hr. destruct (Z.ltb_spec r count) as [Hlt|Hge].
  - destruct (row_at_place m T t count r Hm HT Hc) as (ks & R & Ek & H); [lia|]. exists ks, R. split; [done|].
    cbv zeta in *. destruct H as (H1 & H2 & H3 & H4 & H5). pose proof (row_size_nonneg (heap_sizes m) (rows m) ks) as Hn.
    split_and!; try done; unfold row_place; rewrite Ek; change (default [] (Some ks)) with ks.
    + intros r' Hr'. nia.
    + intros t' r' Ht' Hr'. pose proof (table_start_mono (heap_sizes m) (rows m) (S t) t' (counts_nonneg m Hm) Ht') as [_ Hst].
      cbn [table_start] in Hst. unfold table_size, count_of in Hst. rewrite Nat2Z.id, Hc, Ek in Hst.
      change (default [] (Some ks)) with ks in Hst. change (default 0 (Some count)) with count in Hst.
      pose proof (row_size_nonneg (heap_sizes m) (rows m) (default [] (format !! t'))). nia.
  - destruct (new_widths m T HT) as [Emd _]. unfold row, index. rewrite Emd, !get_lookup, Hc. reading_step. by rewrite (proj2 (Z.leb_le _ _)).
Qed.

(** C29: What the standard's format writes is read back.  If the stream starts
    with the tables of some content, written in order in the columns and widths
    the format gives for the heap flags and the row counts, then the layout is
    accepted, and every cell of the content is read at its table, row and column. *)
Theorem tables_round_trip m content rest : md_wf m -> rows m = counts content ->
  content_fits (heap_sizes m) (rows m) content -> tables_bytes m = encode_tables (heap_sizes m) (rows m) content ++ rest ->
  exists T, Tables_new m = Got T /\ forall (t r col : nat) rws vs v, content !! t = Some rws -> rws !! r = Some vs -> vs !! col = Some v ->
  exists R, row T (Z.of_nat t) (Z.of_nat r) = Got R /\ uint R (Z.of_nat col) = Got v.
Proof.
  intros Hm Hrows Hfit Hbytes. rewrite Hrows in Hfit, Hbytes. destruct (new_accepts m Hm) as [T HT].
  - intros t count Ht Hne. rewrite Hrows in Ht. unfold counts in Ht. rewrite list_lookup_fmap in Ht.
    destruct (content !! t) as [rws|] eqn:E; [|done]. injection Ht as <-. destruct (Hfit t rws E) as (ks & ? & _); [by intros ->|]. by exists ks.
  - rewrite Hbytes, length_app, Hrows. unfold counts at 2. rewrite length_map. pose proof (encode_tables_length (heap_sizes m) content Hfit). lia.
  - exists T. split; [done|]. intros t r col rws vs v Ht Hr Hv.
    assert (Hcount : rows m !! t = Some (Z.of_nat (length rws))) by (rewrite Hrows; unfold counts; by rewrite list_lookup_fmap, Ht).
    destruct (row_at_place m T t _ (Z.of_nat r) Hm HT Hcount) as (ks & R & Ek & _ & _ & Erow & _ & Hcol); [apply lookup_lt_Some in Hr; lia|].
    exists R. split; [done|]. destruct (Hfit t rws Ht) as (ks' & Ek' & Hall); [by intros ->|]. rewrite Ek in Ek'. injection Ek' as <-.
    pose proof (proj1 (Forall_lookup _ _) Hall r vs Hr) as Hvs. destruct (Forall2_lookup_r _ _ _ _ _ Hvs Hv) as (k & Hk & _).
    rewrite (Hcol col k Hk), Hbytes, Hrows. f_equal. by apply (encode_tables_cell (heap_sizes m) content Hfit t r col rws vs v ks k rest).
Qed.

(** Coded indices.  A reference to an existing row of a table of the family
    fits the width that the row counts give to the family, and is decoded to that
    table and row; whatever the value, decoding does not panic, gives no reference
    exactly for zero, and gives a reference only for the value that encodes it. *)
Theorem coded_index_exact c :
  (forall rs rid (tag : nat) t, slots c !! tag = Some t -> t <> RESERVED -> 1 <= rid <= row_at rs t -> rid < 2 ^ (32 - tag_bits c) ->
   let v := rid * 2 ^ tag_bits c + Z.of_nat tag in
   0 <= v < 256 ^ Coded_width c rs /\ Coded_decode c v = Got (Some {| token_table := t; rid := rid |}))
  /\ (forall v, 0 <= v -> match Coded_decode c v with
      | Got None => v = 0
      | Got (Some k) => 1 <= rid k /\ token_table k <> RESERVED
          /\ exists tag : nat, slots c !! tag = Some (token_table k) /\ v = rid k * 2 ^ tag_bits c + Z.of_nat tag
      | Refused e => e = TableIndexOutOfRange /\ v <> 0
      | Panicked => False
      end).
Proof.
  pose proof (tag_bits_range c) as Hbits. split.
  - intros rs k tag t Ht Hres Hk Hb v. split; [|by apply Coded_decode_encoded; lia || done].
    split; [|by apply (Coded_width_fits c rs k tag t); lia || done]. unfold v. assert (0 <= 2 ^ tag_bits c) by (apply Z.pow_nonneg; lia). nia.
  - intros v Hv. unfold Coded_decode. destruct (Z.eqb_spec v 0) as [->|Hne]; [done|]. cbv zeta.
    assert (Hs : Z.shiftl 1 (tag_bits c) - 1 = Z.ones (tag_bits c)) by (rewrite Z.ones_equiv, Z.shiftl_1_l; lia).
    rewrite Hs, Z.land_ones, Z.shiftr_div_pow2 by lia. destruct (slots c !! Z.to_nat (v mod 2 ^ tag_bits c)) as [t|] eqn:Et; [|done].
    destruct (Z.eqb_spec t RESERVED) as [|Hres]; [done|]. cbn [negb andb]. assert (Hp : 0 < 2 ^ tag_bits c) by (apply Z.pow_pos_nonneg; lia).
    destruct (Z.eqb_spec (v / 2 ^ tag_bits c) 0) as [|Hrid]; [done|]. cbn [negb rid token_table].
    pose proof (Z.div_pos v (2 ^ tag_bits c) Hv Hp). split_and!; [lia|done|]. exists (Z.to_nat (v mod 2 ^ tag_bits c)). split; [done|].
    pose proof (Z.mod_pos_bound v (2 ^ tag_bits c) Hp). rewrite Z2Nat.id by lia. pose proof (Z.div_mod v (2 ^ tag_bits c)). lia.
Qed.

(** ** A small stream: a module row and two type references *)

Definition small_content : list (list (list Z)) := [[[0; 1; 1; 0; 0]]; [[6; 2; 300]; [10; 4; 0]]] ++ replicate 62 [].
Definition small_md : MetadataFile :=
  let h := {| wide_strings := false; wide_guid := false; wide_blob := true |} in
  {| image := []; strings := []; blobs := []; guids := []; rows := counts small_content; heap_sizes := h; sections := [];
     tables_bytes := encode_tables h (counts small_content) small_content ++ [1]; resources_rva := 0; resources_size := 0 |}.
Definition small_tables : Tables :=
  Eval vm_compute in match Tables_new small_md with Got T => T | _ => {| md := small_md; widths := heap_widths (heap_sizes small_md); stride := []; offset := [] |} end.

Lemma small_md_wf : md_wf small_md.
Proof.
  split; [done| | |by vm_compute].
  - apply (Forall_impl (fun n => (0 <=? n) && (n <=? u32_max) = true)%bool); [apply forallb_Forall; by vm_compute|].
    intros n [?%Z.leb_le ?%Z.leb_le]%andb_prop. by split.
  - apply (Forall_impl (fun b => (0 <=? b) && (b <? 256) = true)%bool); [apply forallb_Forall; by vm_compute|].
    intros n [?%Z.leb_le ?%Z.ltb_lt]%andb_prop. by split.
Qed.

Lemma tables_layout_witness : exists R, row small_tables 1 1 = Got R
  /\ uint R 2 = Got (from_le_bytes (slice (tables_bytes small_md)
       (cell_place (heap_sizes small_md) (rows small_md) 1 1 2) (column_size (heap_sizes small_md) (rows small_md) StringHeap))).
Proof.
  pose proof (tables_layout small_md small_tables 1%nat 2 1 small_md_wf ltac:(by vm_compute) ltac:(by vm_compute) ltac:(lia)) as H. cbv beta iota in H.
  change (1 <? 2) with true in H. destruct H as (ks & R & Ek & H). injection Ek as <-. destruct H as (_ & _ & Hrow & _ & _ & _ & Hcol).
  exists R. split; [exact Hrow|]. exact (Hcol 2%nat StringHeap eq_refl).
Defined.

Lemma tables_round_trip_witness : exists T R, Tables_new small_md = Got T /\ row T 1 0 = Got R /\ uint R 2 = Got 300.
Proof.
  destruct (tables_round_trip small_md small_content [1] small_md_wf eq_refl) as (T & HT & H).
  - intros t rws Ht Hne. destruct t as [|[|t]].
    + injection Ht as <-. eexists. split; [done|]. repeat first [apply List.Forall_nil|apply List.Forall2_nil|apply List.Forall_cons|apply List.Forall2_cons|split]; by vm_compute.
    + injection Ht as <-. eexists. split; [done|]. repeat first [apply List.Forall_nil|apply List.Forall2_nil|apply List.Forall_cons|apply List.Forall2_cons|split]; by vm_compute.
    + exfalso. apply Hne. by apply (proj1 (proj1 (lookup_replicate 62 (@nil (list Z)) rws t) Ht)).
  - by vm_compute.
  - destruct (H 1%nat 0%nat 2%nat [[6; 2; 300]; [10; 4; 0]] [6; 2; 300] 300 eq_refl eq_refl eq_refl) as (R & HR & Hv). exists T, R. split; [exact HT|]. split; [exact HR|exact Hv].
Defined.

Lemma coded_index_exact_witness : Coded_decode HasCustomAttribute (1 * 2 ^ 5 + 3) = Got (Some {| token_table := table.TYPE_DEF; rid := 1 |}).
Proof. apply (proj1 (coded_index_exact HasCustomAttribute) (replicate 64 1) 1 3%nat); by vm_compute. Defined.
