(* ===== verification/MetadataThm.v ===== *)
(** * The metadata container and the manifest: no input makes the reader panic

    About [Metadata] and [Manifest]: whatever the bytes of a file, reading its
    container, its tables and its manifest ends with a value or with a structural
    error; what it keeps of the file are parts of the file; and the heaps give
    back what was written to them. *)

From S2P Require Import Prelude Encoding Cursor Metadata TableFormat Tables Manifest TablesThm.
Local Open Scope Z_scope.

(** ** Parts of the file *)

Definition part (a b : list Z) : Prop := exists p s, b = p ++ a ++ s.

Lemma part_trans a b c : part a b -> part b c -> part a c.
Proof. intros (p & s & ->) (q & t & ->). exists (q ++ p), (s ++ t). by rewrite <- !app_assoc. Qed.

Lemma part_range d i j a : get_range d i j = Some a -> part a d.
Proof.
  unfold get_range. destruct (_ && _ && _)%bool; [|done]. intros [= <-].
  exists (take (Z.to_nat i) d), (drop (Z.to_nat (j - i)) (drop (Z.to_nat i) d)). by rewrite take_drop, take_drop.
Qed.

Lemma part_rva img ss rva a : rva_to_slice img ss rva = Some a -> part a img.
Proof.
  induction ss as [|s ss IH]; cbn [rva_to_slice]; [done|]. cbv zeta. intros (e & _ & H)%bind_Some. revert H.
  destruct (_ && _)%bool; [|exact IH]. destruct (_ <=? _); [done|]. intros (x & _ & (y & _ & H)%bind_Some)%bind_Some. by eapply part_range.
Qed.

Lemma part_length a b : part a b -> (length a <= length b)%nat.
Proof. intros (p & s & ->). rewrite !length_app. lia. Qed.

(** A section of an executable ends below 2^32. *)
Lemma rva_small img ss rva a : rva_to_slice img ss rva = Some a -> Z.of_nat (length a) <= u32_max.
Proof.
  induction ss as [|s ss IH]; cbn [rva_to_slice]; [done|]. cbv zeta. intros (e & _ & H)%bind_Some. revert H.
  destruct (_ && _)%bool; [|exact IH]. destruct (_ <=? _); [done|]. intros (x & _ & (y & Hy & H)%bind_Some)%bind_Some.
  unfold checked_add_u32 in Hy. destruct (Z.leb_spec (raw_data_ptr s + raw_data_size s) u32_max); [|done]. injection Hy as <-.
  unfold get_range in H. destruct (_ && _ && _)%bool eqn:E; [|done]. injection H as <-. rewrite length_take, length_drop.
  rewrite !andb_true_iff, !Z.leb_le in E. lia.
Qed.

(** Bytes in memory: no object is larger than [isize::MAX]. *)
Record in_memory (d : list Z) : Prop := { mem_bytes : Forall byte d; mem_length : Z.of_nat (length d) < usize_bound / 2 }.

Lemma in_memory_part a b : part a b -> in_memory b -> in_memory a.
Proof.
  intros (p & s & ->) [Hb Hl]. rewrite !length_app in Hl. apply Forall_app in Hb as [_ [Hb _]%Forall_app]. split; [done|lia].
Qed.

(** ** Steps of a cursor *)

Definition cur (d : list Z) (c : Cursor) : Prop := data c = d /\ 0 <= pos c.

Lemma usize_half : usize_bound / 2 = 9223372036854775808.
Proof. done. Qed.

Lemma reads_take d c n e : in_memory d -> cur d c -> 0 <= n ->
  reads (fun '(bs, c') => cur d c' /\ pos c' <= Z.of_nat (length d) /\ length bs = Z.to_nat n /\ Forall byte bs) (ok_or_refuse (read_bytes c n) e).
Proof.
  intros [Hb Hl] [Hd Hp] Hn. apply reads_ok_or. intros [bs c']. unfold read_bytes. rewrite Cursor_take_spec by (rewrite ?Hd; rewrite ?usize_half in *; unfold usize_bound; lia || done).
  destruct (Z.leb_spec (pos c + n) (Z.of_nat (length (data c)))) as [Hle|]; [|done]. intros [= <- <-]. rewrite Hd in *. split_and!; [split; [done|cbn; lia]|done| |].
  - rewrite length_take, length_drop. lia.
  - by apply Forall_take, Forall_drop.
Qed.

Lemma reads_le d c n e : in_memory d -> cur d c -> 0 <= n ->
  reads (fun '(v, c') => cur d c' /\ pos c' <= Z.of_nat (length d) /\ 0 <= v < 256 ^ n) (ok_or_refuse (read_le n c) e).
Proof.
  intros Hd Hc Hn. pose proof (reads_take d c n e Hd Hc Hn) as H. unfold read_le, read_bytes in *. destruct (Cursor_take c n) as [[bs c']|]; [|done]. cbn in *.
  destruct H as (Hc' & Hp & Hlen & Hb). split_and!; [done|done| |]; pose proof (from_le_bytes_bound bs Hb) as Hv; rewrite Hlen, Z2Nat.id in Hv by lia; lia.
Qed.

Lemma reads_skip d c n e : in_memory d -> cur d c -> 0 <= n ->
  reads (fun '(_, c') => cur d c' /\ pos c' <= Z.of_nat (length d)) (ok_or_refuse (skip c n) e).
Proof.
  intros Hd Hc Hn. pose proof (reads_take d c n e Hd Hc Hn) as H. unfold skip, read_bytes in *. destruct (Cursor_take c n) as [[bs c']|]; [|done]. cbn in *.
  destruct H as (Hc' & Hp & _). done.
Qed.

Lemma reads_unless b e : reads (fun _ : unit => b = true) (refuse_unless b e).
Proof. by destruct b. Qed.

Lemma reads_uadd a b : a + b < usize_bound -> reads (fun x => x = a + b) (uadd a b).
Proof. intros H. unfold uadd. by rewrite checked_add_some. Qed.

Lemma reads_checked_add a b e : reads (fun x => x = a + b /\ a + b < usize_bound) (ok_or_refuse (checked_add a b) e).
Proof. apply reads_ok_or. intros x. apply checked_add_inv. Qed.

(** The cursor is over the bytes at hand. *)
Ltac cursor_here := first [eassumption|split; [reflexivity|cbn; lia]].

(** One step of a reading over the cursor of [d]; the facts about its result are
    kept. *)
Ltac read_step :=
  match goal with
  | |- reads _ (mbind _ (ok_or_refuse (skip _ _) _)) => eapply reads_bind; [eapply reads_skip; [eassumption|cursor_here|lia]|]; intros [[] ?] [? ?]
  | |- reads _ (mbind _ (ok_or_refuse (read_bytes _ _) _)) => eapply reads_bind; [eapply reads_take; [eassumption|cursor_here|lia]|]; intros [? ?] (? & ? & ? & ?)
  | |- reads _ (mbind _ (refuse_unless _ _)) => eapply reads_bind; [apply reads_unless|]; intros [] ?
  | |- reads _ (mbind _ (ok_or_refuse (checked_add _ _) _)) => eapply reads_bind; [apply reads_checked_add|]; intros ? [-> ?]
  | |- reads _ (mbind _ (ok_or_refuse (_ _) _)) => eapply reads_bind; [eapply reads_le; [eassumption|cursor_here|lia]|]; intros [? ?] (? & ? & ? & ?)
  end; cbv beta iota.

(** ** The container *)

Lemma read_sections_reads img n c : in_memory img -> cur img c -> reads (fun _ => True) (read_sections n c).
Proof.
  intros Hi. revert c. induction n as [|n IH]; intros c Hc; [done|]. cbn [read_sections]. cbv zeta. do 6 read_step.
  eapply reads_bind; [apply IH; eassumption|]. done.
Qed.

Lemma read_headers_reads img : in_memory img -> reads (fun '(at_sections, n, rva) => 0 <= at_sections /\ 0 <= n) (read_headers img).
Proof.
  intros Hi. pose proof (mem_length _ Hi) as Hlen. rewrite usize_half in Hlen. unfold read_headers. cbv zeta. do 10 read_step.
  repeat match goal with H : cur _ ?c |- _ => lazymatch goal with _ : 0 <= pos c |- _ => fail | _ => pose proof (proj2 H) end end.
  eapply (reads_bind (fun x => 96 <= x <= 112)); [repeat (destruct (_ =? _); [cbn; lia|]); done|]. intros dirs Hdirs. cbv beta. read_step. unfold position in *.
  eapply reads_bind; [apply reads_uadd; unfold usize_bound; lia|]. intros ? ->. do 4 read_step.
  eapply reads_bind; [apply reads_uadd; unfold usize_bound, CLI_HEADER_DIRECTORY; lia|]. intros ? ->. unfold CLI_HEADER_DIRECTORY. do 5 read_step.
  eapply reads_bind; [apply reads_uadd; lia|]. intros ? ->. cbn. lia.
Qed.

Lemma read_cli_header_reads region : in_memory region -> reads (fun cli => 0 <= metadata_size cli) (read_cli_header region).
Proof. intros Hi. unfold read_cli_header. cbv zeta. do 6 read_step. cbn. lia. Qed.

(** Nine chunks are enough for a name. *)
Lemma name_chunks_returns d fuel c name : in_memory d -> cur d c -> Z.of_nat (length name) <= 32 -> 36 <= Z.of_nat (length name) + 4 * Z.of_nat fuel ->
  exists r, name_chunks fuel c name = Some r /\ forall n c', r = Some (n, c') -> cur d c'.
Proof.
  intros Hd. revert c name. induction fuel as [|fuel IH]; intros c name Hc Hl Hf; [lia|]. cbn [name_chunks].
  pose proof (reads_take d c 4 BadMetadataRoot Hd Hc ltac:(lia)) as Ht. destruct (read_bytes c 4) as [[chunk c']|]; [|by exists None].
  destruct Ht as (Hc' & _ & Hlen & _). destruct (list_find _ chunk) as [[nul b]|]; [eexists; split; [done|]; by intros n c'' [= _ <-]|].
  cbv zeta. destruct (Z.ltb_spec 32 (Z.of_nat (length (name ++ chunk)))) as [|Hle]; [by exists None|]. apply IH; [done|lia|].
  rewrite length_app. lia.
Qed.

Definition kept (P : list Z -> Prop) (st : Streams) : Prop :=
  (forall a, s_strings st = Some a -> P a) /\ (forall a, s_blobs st = Some a -> P a) /\ (forall a, s_guids st = Some a -> P a)
  /\ (forall a, s_tilde st = Some a -> P a).

Lemma keep_stream_kept P st name region : kept P st -> P region -> kept P (keep_stream st name region).
Proof.
  intros (H1 & H2 & H3 & H4) Hr. unfold keep_stream. repeat destruct (bool_decide _); split_and!; cbn; try done; by intros a [= <-].
Qed.

Lemma read_streams_reads n metadata m st : in_memory metadata -> cur metadata m -> kept (fun a => part a metadata) st ->
  reads (kept (fun a => part a metadata)) (read_streams n metadata m st).
Proof.
  intros Hd. revert m st. induction n as [|n IH]; intros m st Hm Hst; [done|]. cbn [read_streams]. cbv zeta. do 2 read_step.
  destruct (name_chunks_returns metadata 9 c0 [] Hd) as (r & E & Hr); [done|cbn; lia|cbn; lia|]. unfold read_stream_name. rewrite E. cbn [or_panic mbind reading_bind].
  eapply reads_bind; [apply (reads_ok_or (fun '(_, c') => cur metadata c')); intros [name c'] Ec; by apply (Hr name)|]. intros [name c'] Hc'. cbv beta iota. read_step.
  eapply reads_bind; [apply (reads_ok_or (fun a => part a metadata)); intros a; apply part_range|]. intros region Hreg. cbv beta in *.
  apply IH; [done|]. by apply keep_stream_kept.
Qed.

Lemma land_not3 x : 0 <= x -> 0 <= Z.land x (Z.lnot 3).
Proof. intros Hx. apply Z.land_nonneg. by left. Qed.

Lemma read_root_reads metadata : in_memory metadata -> reads (kept (fun a => part a metadata)) (read_root metadata).
Proof.
  intros Hd. unfold read_root. cbv zeta. do 5 read_step.
  eapply reads_bind; [eapply reads_skip; [eassumption|eassumption|apply land_not3; lia]|]. intros [[] ?] [? ?]. cbv beta iota. do 2 read_step.
  apply read_streams_reads; [done|done|]. by split_and!.
Qed.

Lemma read_row_counts_reads d n i valid c : in_memory d -> cur d c -> pos c <= Z.of_nat (length d) ->
  reads (fun '(rs, c') => length rs = n /\ Forall (fun x => 0 <= x <= u32_max) rs /\ cur d c' /\ pos c' <= Z.of_nat (length d)) (read_row_counts n i valid c).
Proof.
  intros Hd. revert i c. induction n as [|n IH]; intros i c Hc Hp; [cbn; split_and!; [done|constructor|done|done]|]. cbn [read_row_counts].
  eapply (reads_bind (fun '(v, c') => 0 <= v <= u32_max /\ cur d c' /\ pos c' <= Z.of_nat (length d))).
  { destruct (_ =? 0); [cbn; unfold u32_max; split_and!; (lia || done)|]. eapply reads_mono; [by eapply (reads_le d c 4)|]. intros [v c'] (? & ? & ?). unfold u32_max. split_and!; (lia || done). }
  intros [v c'] (Hv & Hc' & Hp'). cbv beta iota. eapply reads_bind; [by apply IH|]. intros [rs c''] (Hl & Hf & Hc'' & Hp''). cbn.
  split_and!; [lia|by constructor|done|done].
Qed.

Lemma read_table_stream_reads tilde : in_memory tilde ->
  reads (fun '(_, rs, tables) => length rs = 64%nat /\ Forall (fun x => 0 <= x <= u32_max) rs /\ part tables tilde) (read_table_stream tilde).
Proof.
  intros Hd. unfold read_table_stream. cbv zeta. do 6 read_step. eapply reads_bind; [eapply (read_row_counts_reads tilde); eassumption|].
  intros [rs c'] (Hl & Hf & Hc' & Hp'). cbv beta iota. eapply reads_bind; [apply (reads_ok_or (fun a => part a tilde)); intros a; apply part_range|].
  intros tables Ht. cbn. done.
Qed.

(** What is known of a container that was read. *)
Record container_ok (img : list Z) (m : MetadataFile) : Prop := {
  ok_wf : md_wf m;
  ok_image : image m = img;
  ok_strings : part (strings m) img;
  ok_blobs : part (blobs m) img;
  ok_guids : part (guids m) img;
  ok_tables : part (tables_bytes m) img;
  ok_small : Z.of_nat (length (tables_bytes m)) <= u32_max }.

Lemma MetadataFile_read_reads img : in_memory img -> reads (container_ok img) (MetadataFile_read img).
Proof.
  intros Hi. unfold MetadataFile_read. eapply reads_bind; [by apply read_headers_reads|]. intros [[at_sections n] rva] [Ha Hn]. cbv beta iota.
  eapply reads_bind; [apply (read_sections_reads img); [done|by split]|]. intros ss _. cbv beta in *.
  eapply reads_bind; [apply (reads_ok_or (fun a => part a img)); intros a; apply part_rva|]. intros region Hreg. cbv beta in *.
  eapply reads_bind; [apply read_cli_header_reads; eapply in_memory_part; eassumption|]. intros cli Hcli. cbv beta in *.
  eapply reads_bind; [apply (reads_ok_or (fun a => part a img /\ Z.of_nat (length a) <= u32_max)); intros a Ha'; split; [by eapply part_rva|by eapply rva_small]|].
  intros md_region [Hmd Hsmall]. cbv beta in *.
  eapply reads_bind; [apply (reads_ok_or (fun a => part a img /\ (length a <= length md_region)%nat)); intros a Ha'%part_range; split; [by eapply part_trans|by apply part_length]|].
  intros metadata [Hmeta Hshort]. cbv beta in *.
  eapply reads_bind; [apply read_root_reads; by eapply in_memory_part|]. intros st (Hs & Hb & Hg & Ht). cbv beta in *.
  assert (Hpart : forall a, part a metadata -> part a img) by (intros a Ha'; by eapply part_trans).
  eapply reads_bind; [apply (reads_ok_or (fun a => part a img /\ part a metadata)); auto|]. intros tilde [Htilde Hin]. cbv beta in *.
  eapply reads_bind; [apply read_table_stream_reads; exact (in_memory_part _ _ Htilde Hi)|]. intros [[hs rs] tables] (Hlen & Hcounts & Htab). cbv beta iota.
  eapply reads_bind; [apply (reads_ok_or (fun a => part a img)); auto|]. intros strs Hstrs. cbv beta in *.
  eapply reads_bind; [apply (reads_ok_or (fun a => part a img)); auto|]. intros bl Hbl. cbv beta in *.
  eapply reads_bind; [apply (reads_ok_or (fun a => part a img)); auto|]. intros gs Hgs. cbn.
  assert (Htables : part tables img) by (by eapply part_trans). destruct (in_memory_part _ _ Htables Hi) as [Hby Hle]. rewrite usize_half in Hle.
  pose proof (part_length _ _ Htab). pose proof (part_length _ _ Hin).
  split; cbn; try done; [|lia]. split; cbn; try done. unfold usize_bound. lia.
Qed.

(** ** Rows of accepted tables *)

Definition tables_ok (T : Tables) : Prop := md_wf (md T) /\ Tables_new (md T) = Got T.

Lemma new_ok m : md_wf m -> reads tables_ok (Tables_new m).
Proof.
  intros Hm. destruct (Tables_new m) as [T|e|] eqn:E; cbn; [|done|].
  - destruct (new_widths m T E) as [<- _]. by split.
  - exfalso. unfold Tables_new in E. cbv zeta in E.
    assert (Hs : forall w rs t cs, reads (fun _ => True) (strides_from w rs t cs)).
    { intros w rs t cs. revert t. induction cs as [|c cs IH]; intros t; [done|]. cbn [strides_from].
      eapply (reads_bind (fun _ => True)); [destruct (c =? 0); [done|]; by destruct (schema t)|]. intros s _. eapply reads_bind; [apply IH|done]. }
    assert (Ho : forall run cs ss, reads (fun _ => True) (offsets_from run cs ss)).
    { intros run cs. revert run. induction cs as [|c cs IH]; intros run [|s ss]; try done. cbn [offsets_from].
      eapply (reads_bind (fun _ => True)); [by apply reads_ok_or|]. intros b _. eapply (reads_bind (fun _ => True)); [by apply reads_ok_or|].
      intros next _. eapply reads_bind; [apply IH|]. by intros [rest total] _. }
    specialize (Hs (heap_widths (heap_sizes m)) (rows m) 0 (rows m)). destruct (strides_from _ _ _ _) as [ss| |]; [|done..]. cbn in E.
    specialize (Ho 0 (rows m) ss). destruct (offsets_from _ _ _) as [[os total]| |]; [|done..]. cbn in E. by destruct (_ <? _).
Qed.

Section accepted.
Context (T : Tables) (HT : tables_ok T).

(** A row of the table [t], which has the columns [cols]. *)
Definition good_row (t : Z) (R : Row) : Prop :=
  row_tables R = T /\ row_table R = t /\ Forall byte (row_bytes R)
  /\ forall cols, schema t = Some cols -> Z.of_nat (length (row_bytes R)) = row_width cols (widths T) (rows (md T)).

Lemma row_reads (t : nat) r : (t < 64)%nat -> 0 <= r -> reads (good_row (Z.of_nat t)) (row T (Z.of_nat t) r).
Proof using HT.
  intros Ht Hr. destruct HT as [Hm HN]. destruct (lookup_lt_is_Some_2 (rows (md T)) t) as [count Hc]; [by rewrite (wf_rows _ Hm)|].
  destruct (Z.lt_ge_cases r count) as [Hlt|Hge].
  - destruct (row_spec _ T t count r Hm HN Hc) as (s & o & cols & _ & _ & Ec & Hs & Hlo & Hhi & ->); [lia|]. cbn. split_and!; [done|done| |].
    + apply Forall_take, Forall_drop, (wf_bytes _ Hm).
    + cbn. intros cols'. rewrite Ec. intros [= <-]. destruct (new_widths _ T HN) as [_ Hw]. pose proof (row_width_nonneg cols _ (rows (md T)) Hw).
      rewrite length_take, length_drop. lia.
  - unfold row, index. rewrite !get_lookup, Hc. reading_step. by rewrite (proj2 (Z.leb_le _ _)).
Qed.

Lemma uint_reads t R (col : nat) c cols : good_row t R -> schema t = Some cols -> cols !! col = Some c -> reads (fun v => 0 <= v < 256 ^ 4) (uint R (Z.of_nat col)).
Proof using HT.
  intros (ET & Et & Hb & Hl) Hs Hc. destruct HT as [Hm HN]. destruct (new_widths _ T HN) as [_ Hw]. specialize (Hl cols Hs).
  destruct R as [T' t' bytes]. cbn in ET, Et, Hb, Hl. subst T' t'. destruct (uint_spec T t bytes cols col c Hs Hw Hc Hb Hl) as (-> & Ho & He). cbn.
  match goal with |- 0 <= from_le_bytes ?x < _ => pose proof (from_le_bytes_bound x ltac:(by apply Forall_take, Forall_drop)) as Hv end.
  split; [lia|]. eapply Z.lt_le_trans; [apply Hv|]. apply (Z.pow_le_mono_r 256 _ 4); [lia|]. rewrite length_take.
  destruct (Col_width_cases c (widths T) (rows (md T)) Hw); lia.
Qed.

Lemma string_at_reads m o : reads (fun _ => True) (string_at m o).
Proof.
  unfold string_at. eapply (reads_bind (fun _ => True)); [by apply reads_ok_or|]. intros rest _. eapply (reads_bind (fun _ => True)); [by apply reads_ok_or|].
  intros [e b] _. by apply reads_ok_or.
Qed.

Lemma blob_at_reads m o : reads (fun _ => True) (blob_at m o).
Proof.
  unfold blob_at. eapply (reads_bind (fun _ => True)); [by apply reads_ok_or|]. intros rest _. eapply (reads_bind (fun _ => True)); [by apply reads_ok_or|].
  intros [l k] _. eapply (reads_bind (fun _ => True)); [by apply reads_ok_or|]. intros e _. by apply reads_ok_or.
Qed.

Lemma collect_reads {A B} (f : A -> reading B) l : (forall a, a ∈ l -> reads (fun _ => True) (f a)) -> reads (fun _ => True) (collect f l).
Proof.
  induction l as [|a l IH]; intros H; [done|]. cbn [collect]. eapply reads_bind; [apply H; by left|]. intros b _.
  eapply reads_bind; [apply IH; intros x Hx; apply H; by right|]. done.
Qed.

Lemma indices_nonneg n r : r ∈ indices n -> 0 <= r.
Proof. unfold indices. intros (k & <- & _)%list_elem_of_In%in_map_iff. lia. Qed.

Lemma row_count_reads (t : nat) : (t < 64)%nat -> reads (fun _ => True) (row_count T (Z.of_nat t)).
Proof using HT.
  intros Ht. destruct HT as [Hm _]. unfold row_count, index. rewrite get_lookup.
  destruct (lookup_lt_is_Some_2 (rows (md T)) t) as [count ->]; [by rewrite (wf_rows _ Hm)|done].
Qed.

(** Read a column of a row of a known table. *)
Ltac column k := eapply reads_bind; [refine (uint_reads _ _ k _ _ ltac:(eassumption) eq_refl eq_refl)|]; intros ? ?; cbv beta in *.
Ltac heap_column k lemma :=
  eapply (reads_bind (fun _ => True)); [eapply reads_bind; [refine (uint_reads _ _ k _ _ ltac:(eassumption) eq_refl eq_refl)|]; intros ? _; apply lemma|];
  intros ? _; cbv beta in *.

Lemma read_assembly_ref_reads r : 0 <= r -> reads (fun _ => True) (read_assembly_ref T r).
Proof using HT.
  intros Hr. unfold read_assembly_ref. eapply reads_bind; [apply (row_reads 35); lia|]. intros R HR. cbv beta. unfold read_identity.
  column 0%nat. column 1%nat. column 2%nat. column 3%nat. column 4%nat. heap_column 5%nat blob_at_reads. heap_column 6%nat string_at_reads.
  heap_column 7%nat string_at_reads. done.
Qed.

Lemma read_assembly_reads : reads (fun _ => True) (read_assembly T).
Proof using HT.
  unfold read_assembly. eapply reads_bind; [apply (row_count_reads 32); lia|]. intros n _. destruct (n =? 0); [done|].
  eapply reads_bind; [apply (row_reads 32); lia|]. intros R HR. cbv beta. eapply (reads_bind (fun _ => True)); [|done]. unfold read_identity.
  column 1%nat. column 2%nat. column 3%nat. column 4%nat. column 5%nat. heap_column 6%nat blob_at_reads. heap_column 7%nat string_at_reads.
  heap_column 8%nat string_at_reads. done.
Qed.

Lemma read_type_forwarder_reads r : 0 <= r -> reads (fun _ => True) (read_type_forwarder T r).
Proof using HT.
  intros Hr. unfold read_type_forwarder. eapply reads_bind; [apply (row_reads 39); lia|]. intros R HR. cbv beta. column 0%nat.
  destruct (_ =? 0); [done|]. column 4%nat. eapply (reads_bind (fun _ => True)).
  { unfold decode_coded, Coded_decode. destruct (_ =? 0); [done|]. cbv zeta. destruct (slots _ !! _); [|done]. by destruct (_ && _)%bool. }
  intros [k|] _; [|done]. destruct (negb _); [done|].
  eapply (reads_bind (fun i => 0 <= i)); [apply reads_ok_or; intros i; destruct (Z.leb_spec 1 (rid k)); [intros [= <-]; lia|done]|].
  intros i Hi. eapply reads_bind; [by apply read_assembly_ref_reads|]. intros target _. cbv beta.
  heap_column 3%nat string_at_reads. heap_column 2%nat string_at_reads. done.
Qed.

Lemma extract_reads m o : reads (fun _ => True) (extract_embedded_resource m o).
Proof.
  unfold extract_embedded_resource. cbv zeta. do 5 (eapply (reads_bind (fun _ => True)); [by apply reads_ok_or|]; intros ? _; cbv beta). by apply reads_ok_or.
Qed.

Lemma read_resource_reads m r : 0 <= r -> reads (fun _ => True) (read_resource T m r).
Proof using HT.
  intros Hr. unfold read_resource. eapply reads_bind; [apply (row_reads 40); lia|]. intros R HR. cbv beta. column 0%nat. heap_column 2%nat string_at_reads.
  column 3%nat. eapply reads_bind; [apply reads_unless|]. intros [] _. cbv beta. eapply reads_bind; [apply extract_reads|done].
Qed.

Lemma manifest_reads : reads (fun _ => True) (read_assembly T) /\ reads (fun _ => True) (read_assembly_refs T)
  /\ reads (fun _ => True) (read_resources T (md T)) /\ reads (fun _ => True) (read_type_forwarders T).
Proof using HT.
  split_and!; [apply read_assembly_reads|..].
  - unfold read_assembly_refs. eapply reads_bind; [apply (row_count_reads 35); lia|]. intros n _. apply collect_reads. intros r Hr%indices_nonneg. by apply read_assembly_ref_reads.
  - unfold read_resources. eapply reads_bind; [apply (row_count_reads 40); lia|]. intros n _. apply collect_reads. intros r Hr%indices_nonneg. by apply read_resource_reads.
  - unfold read_type_forwarders. eapply reads_bind; [apply (row_count_reads 39); lia|]. intros n _.
    eapply reads_bind; [apply collect_reads; intros r Hr%indices_nonneg; by apply read_type_forwarder_reads|]. done.
Qed.
End accepted.

(** ** Heaps *)

Lemma encode_utf8_nonzero s : Forall (fun c => c <> 0%N) s -> Forall (fun b => b <> 0%N) (encode_utf8 s).
Proof.
  intros Hs. apply Forall_concat, Forall_map. eapply Forall_impl; [exact Hs|]. intros c Hc. cbv beta in *. unfold encode_utf8_char.
  repeat match goal with |- context [if ?b then _ else _] => destruct b end; repeat (apply List.Forall_cons; [first [exact Hc|intros [? _]%N.eq_add_0; done]|]); apply List.Forall_nil.
Qed.

Lemma list_find_zero bs post : Forall (fun b => b <> 0) bs -> list_find (fun b => b = 0) (bs ++ 0 :: post) = Some (length bs, 0).
Proof. induction 1 as [|b bs Hb _ IH]; [done|]. cbn. rewrite decide_False by done. by rewrite IH. Qed.

Lemma get_from_at pre l : get_from (pre ++ l) (Z.of_nat (length pre)) = Some l.
Proof.
  unfold get_from. rewrite length_app, Nat2Z.inj_add. rewrite <- (app_nil_r l) at 1. apply get_range_app.
Qed.

(** ** A small image

    A portable executable with one section that holds a CLI header and a metadata
    root with four streams. *)
Definition zeros (n : nat) : list Z := replicate n 0.
Definition le (n : nat) (v : Z) : list Z := to_le_bytes n v.

Definition sample_stream (offset : Z) (body : list Z) (name : list Z) : list Z := le 4 offset ++ le 4 (Z.of_nat (length body)) ++ name.

Definition sample_metadata (strs bl gs tilde : list Z) : list Z :=
  let o1 := 20 + 4 + 20 + 16 + 16 + 12 in
  let o2 := o1 + Z.of_nat (length strs) in
  let o3 := o2 + Z.of_nat (length bl) in
  let o4 := o3 + Z.of_nat (length gs) in
  le 4 METADATA_SIGNATURE ++ zeros 8 ++ le 4 4 ++ zeros 4 ++ zeros 2 ++ le 2 4
  ++ sample_stream o1 strs (ascii_bytes (#"#Strings") ++ zeros 4) ++ sample_stream o2 bl (ascii_bytes (#"#Blob") ++ zeros 3)
  ++ sample_stream o3 gs (ascii_bytes (#"#GUID") ++ zeros 3) ++ sample_stream o4 tilde (ascii_bytes (#"#~") ++ zeros 2)
  ++ strs ++ bl ++ gs ++ tilde.

Definition sample_image (metadata : list Z) : list Z :=
  let section := zeros 8 ++ le 4 (0x2000 + 72) ++ le 4 (Z.of_nat (length metadata)) ++ zeros 56 ++ metadata in
  [0x4D; 0x5A] ++ zeros 58 ++ le 4 0x40
  ++ [0x50; 0x45; 0; 0] ++ zeros 2 ++ le 2 1 ++ zeros 12 ++ le 2 224 ++ zeros 2
  ++ le 2 0x10B ++ zeros 90 ++ le 4 16 ++ zeros 112 ++ le 4 0x2000 ++ le 4 72 ++ zeros 8
  ++ zeros 8 ++ le 4 (Z.of_nat (length section)) ++ le 4 0x2000 ++ le 4 (Z.of_nat (length section)) ++ le 4 0x160 ++ zeros 16
  ++ section.

(** An assembly row, a reference and a forwarder to it. *)
Definition sample_rows : list (list (list Z)) :=
  replicate 32 [] ++ [[[0x8004; 1; 2; 3; 4; 0x101; 1; 1; 0]]; []; []; [[4; 0; 0; 0; 0; 0; 5; 0; 0]]; []; []; []; [[0x200000; 0; 10; 5; 5]]] ++ replicate 24 [].
Definition sample_tilde : list Z :=
  let valid := Z.shiftl 1 32 + Z.shiftl 1 35 + Z.shiftl 1 39 in
  zeros 6 ++ [0] ++ [1] ++ le 8 valid ++ zeros 8 ++ le 4 1 ++ le 4 1 ++ le 4 1
  ++ encode_tables {| wide_strings := false; wide_guid := false; wide_blob := false |} (counts sample_rows) sample_rows.
Definition sample : list Z :=
  sample_image (sample_metadata ([0] ++ ascii_bytes (#"App") ++ [0] ++ ascii_bytes (#"Core") ++ [0] ++ ascii_bytes (#"List") ++ [0]) [0; 2; 7; 9] (zeros 16) sample_tilde).

Example sample_ex : parse_manifest sample = Got
  (Some {| assembly_name := #"App"; assembly_version := {| v_major := 1; v_minor := 2; v_build := 3; v_revision := 4 |};
           public_key := [7; 9]; has_full_key := true; culture := []; flagged := true |},
   [{| assembly_name := #"Core"; assembly_version := {| v_major := 4; v_minor := 0; v_build := 0; v_revision := 0 |};
       public_key := []; has_full_key := false; culture := []; flagged := false |}], [],
   [{| fwd_namespace := #"Core"; fwd_name := #"List";
       fwd_assembly := {| assembly_name := #"Core"; assembly_version := {| v_major := 4; v_minor := 0; v_build := 0; v_revision := 0 |};
                          public_key := []; has_full_key := false; culture := []; flagged := false |} |}]).
Proof. vm_compute. reflexivity. Qed.

(** ** The theorems *)

(** No file makes the reader panic.  Whatever the bytes, reading the
    container, laying out its tables and reading the manifest ends with a value or
    with a structural error; and the heaps and tables of a container that was read
    are parts of the file, with a row count below 2^32 for each of 64 tables and
    less than 2^32 bytes of rows. *)
Theorem assembly_reader_safe img : in_memory img ->
  parse_manifest img <> Panicked /\ forall m, MetadataFile_read img = Got m -> container_ok img m.
Proof.
  intros Hi. pose proof (MetadataFile_read_reads img Hi) as Hr. split; [|intros m E; by rewrite E in Hr].
  assert (H : reads (fun _ => True) (parse_manifest img)); [|by destruct (parse_manifest img)].
  unfold parse_manifest. eapply reads_bind; [exact Hr|]. intros m [Hm _ _ _ _ _ _]. eapply reads_bind; [by apply new_ok|]. intros T HT.
  destruct (manifest_reads T HT) as (H1 & H2 & H3 & H4). eapply reads_bind; [exact H1|]. intros a _. eapply reads_bind; [exact H2|]. intros b _.
  eapply (reads_bind (fun _ => True)); [|intros c _; eapply reads_bind; [exact H4|done]].
  unfold read_resources in *. eapply reads_bind; [apply (row_count_reads T HT 40); lia|]. intros n _. apply collect_reads. intros r Hr'%indices_nonneg. by apply read_resource_reads.
Qed.

Lemma assembly_reader_safe_witness : in_memory sample /\ parse_manifest sample <> Panicked.
Proof.
  assert (H : in_memory sample).
  { split; [|by vm_compute]. apply (Forall_impl (fun b => (0 <=? b) && (b <? 256) = true)%bool).
    - apply forallb_Forall. by vm_compute.
    - intros b [?%Z.leb_le ?%Z.ltb_lt]%andb_prop. by split. }
  split; [exact H|]. apply (assembly_reader_safe sample H).
Defined.

(** The heaps give back what was written.  A text without NUL, encoded in
    UTF-8 and followed by NUL in the strings heap, is read at its offset; so are
    the bytes of a blob after its compressed length. *)
Theorem heap_round_trip m :
  (forall pre s post, Forall (fun c => is_scalar c = true /\ c <> 0%N) s -> strings m = pre ++ map Z.of_N (encode_utf8 s) ++ 0 :: post ->
   string_at m (Z.of_nat (length pre)) = Got s)
  /\ (forall pre hdr bs post, compress_u32 (Z.of_nat (length bs)) = Some hdr -> blobs m = pre ++ hdr ++ bs ++ post ->
      blob_at m (Z.of_nat (length pre)) = Got bs).
Proof.
  split.
  - intros pre s post Hs E. unfold string_at. rewrite E, get_from_at. reading_step.
    rewrite list_find_zero. 2: { apply Forall_map. eapply Forall_impl; [apply (encode_utf8_nonzero s)|intros b Hb; cbv beta in *; lia].
      eapply Forall_impl; [exact Hs|]. by intros c [_ Hc]. }
    reading_step. rewrite take_app_length, map_map. rewrite (map_ext _ (fun b => b)) by apply N2Z.id. rewrite map_id, from_utf8_encode; [done|].
    eapply Forall_impl; [exact Hs|]. by intros c [Hc _].
  - intros pre hdr bs post Hh E. unfold blob_at. rewrite E, get_from_at. reading_step.
    assert (Hlen : 0 <= Z.of_nat (length bs) < 536870912).
    { split; [lia|]. unfold compress_u32 in Hh. destruct (Z.leb_spec (Z.of_nat (length bs)) 127); [lia|]. destruct (Z.leb_spec (Z.of_nat (length bs)) 16383); [lia|].
      destruct (Z.leb_spec (Z.of_nat (length bs)) 536870911); [lia|done]. }
    destruct (compress_u32_pack _ Hlen) as (w & Ew & Hw). rewrite Ew in Hh. injection Hh as <-.
    rewrite (read_packed_u32 w) by lia. reading_step.
    assert (Hp : Z.of_nat (length (pack w (Z.of_nat (length bs)))) = bytes_wide w) by (by destruct w).
    rewrite checked_add_some by (unfold usize_bound; destruct w; cbn; lia). reading_step. rewrite <- Hp. by rewrite get_range_app.
Qed.

Lemma heap_round_trip_witness :
  let m := {| image := []; strings := [0; 0xC3; 0xA9; 65; 0]; blobs := [0; 2; 7; 9; 1]; guids := []; tables_bytes := []; rows := []; sections := [];
              heap_sizes := {| wide_strings := false; wide_guid := false; wide_blob := false |}; resources_rva := 0; resources_size := 0 |} in
  string_at m 1 = Got [233%N; 65%N] /\ blob_at m 1 = Got [7; 9].
Proof.
  intros m. destruct (heap_round_trip m) as [H1 H2]. split.
  - apply (H1 [0] [233%N; 65%N] []); [|done]. repeat constructor; done.
  - by apply (H2 [0] [2] [7; 9] [1]).
Defined.
