(* ===== verification/ImageModel.v ===== *)
(** * The owned model of an assembly: [assembly/src/reader/model.rs], [ids.rs]

    Types, members and attributes as plain data.  A cross-reference is the index of
    an entry; a signature that could not be read is stored as its error.  Fields
    carry the initial of their structure where two structures share a name. *)

From S2P Require Import Prelude Signature.
Local Open Scope Z_scope.

(** ** Handles *)

Definition TypeDefId : Type := Z.
Definition TypeRefId : Type := Z.
Definition AssemblyRefId : Type := Z.
Definition MethodId : Type := Z.
Definition MemberRefId : Type := Z.

(** ** Types *)

Record TypeName := { namespace : str; type_name : str }.

Inductive RefScope := RefAssemblyRef (id : AssemblyRefId) | RefNested (id : TypeRefId) | RefModule.

Inductive UnsupportedScope := NilScope | ModuleRefScope.

Record TypeRef := { r_name : TypeName; r_scope : result RefScope UnsupportedScope }.

Inductive Accessibility := APrivate | AFamAndAssem | AAssembly | AFamily | AFamOrAssem | APublic.

Inductive Variance := Invariant | Covariant | Contravariant.

(** ** Attributes *)

Inductive MemberHandle := HandleMethodDef (owner : TypeDefId) (method : MethodId) | HandleMemberRef (id : MemberRefId).

Record RawAttribute := { ctor : MemberHandle; attr_blob : list Z }.

Inductive MemberRefParent := ParentTypeDef (id : TypeDefId) | ParentTypeRef (id : TypeRefId) | ParentOther.

Record MemberRef := { mr_name : str; mr_parent : MemberRefParent; mr_signature : result DecodedMethodSig SigError }.

(** ** Generic parameters *)

Record TypeConstraint := { c_ty : result ModifiedType SigError; c_attributes : list RawAttribute }.

Record GenericParam := {
  g_name : str; variance : Variance; reference_type : bool; value_type : bool; default_ctor : bool; allows_ref_struct : bool;
  constraints : list TypeConstraint; g_attributes : list RawAttribute }.

(** ** Members *)

Inductive MemberAccess := MPrivate | MFamAndAssem | MAssembly | MFamily | MFamOrAssem | MPublic.

Inductive AccessDefect := CompilerControlled | ReservedAccess.

(** Floats are kept as their bits, characters and texts as UTF-16 code units. *)
Inductive Constant :=
| CBool (b : bool)
| CChar (unit : Z)
| CInt (n : Z)
| CUInt (n : Z)
| CF32 (bits : Z)
| CF64 (bits : Z)
| CStr (units : list Z)
| CNull.

Record Param := {
  a_name : option str; a_ty : ModifiedType; is_in : bool; is_out : bool; optional : bool; default_value : option Constant;
  a_attributes : list RawAttribute }.

Record MethodSig := {
  s_has_this : bool; s_explicit_this : bool; s_calling_convention : CallConv; s_return_type : RetType;
  return_attributes : list RawAttribute; parameters : list Param }.

Inductive AccessorOwner := OwnerProperty | OwnerEvent.

Inductive DeclSemantics := Accessor (owner : AccessorOwner) (name : str) | OrdinaryMethod | Unresolved.

Record InterfaceMemberImpl := {
  i_interface : result ModifiedType SigError; i_member : str; i_decl : DeclSemantics; i_declaration : result DecodedMethodSig SigError }.

Record UnclassifiedImpl := { u_parent : ModifiedType; u_member : str }.

Record Method := {
  token : Z; m_name : str; m_accessibility : result MemberAccess AccessDefect;
  m_is_static : bool; is_abstract : bool; is_virtual : bool; is_final : bool; is_new_slot : bool; is_hide_by_sig : bool; is_rt_special_name : bool;
  m_generic_params : list GenericParam; m_signature : result MethodSig SigError; m_attributes : list RawAttribute;
  m_implements : list InterfaceMemberImpl; unclassified_impls : list UnclassifiedImpl; has_other_method_impl : bool }.

Record Field := {
  f_name : str; f_accessibility : result MemberAccess AccessDefect; f_is_static : bool; is_literal : bool; is_init_only : bool;
  f_signature : result ModifiedType SigError; f_attributes : list RawAttribute }.

Record Property := {
  p_name : str; p_signature : result ModifiedType SigError; index_parameters : result (list ModifiedType) SigError;
  p_has_this : option bool; getter : option MethodId; setter : option MethodId; p_other_accessors : list (option MethodId);
  p_attributes : list RawAttribute }.

Record Event := {
  e_name : str; event_type : result ModifiedType SigError; add : option MethodId; remove : option MethodId; raise : option MethodId;
  e_other_accessors : list (option MethodId); e_attributes : list RawAttribute }.

(** ** Type definitions *)

Record TypeDef := {
  t_name : TypeName; t_accessibility : Accessibility; is_interface : bool; is_sealed : bool;
  extends : option (result ModifiedType SigError); t_implements : list (result ModifiedType SigError);
  t_generic_params : list GenericParam; enclosing : option TypeDefId; nested : list TypeDefId;
  methods : list Method; fields : list Field; properties : list Property; events : list Event;
  t_attributes : list RawAttribute }.
