(* ===== verification/TypeDefs.v ===== *)
(** * Lookups of the type walk: [assembly/src/reader/typedefs.rs]

    The helpers that the type walk and the member walk share: checked indices, the
    owner of a method, type tokens and references.  [read_types] itself is in
    [Image], after the members it calls.  Arithmetic on [u32] is checked: an
    overflow is a panic. *)

From S2P Require Import Prelude Cursor Signature Metadata Tables Manifest ImageModel.
Local Open Scope Z_scope.

(** ** Machine arithmetic and vectors *)

(** [a + b] and [a - b] on [u32]. *)
Definition add_u32 (a b : Z) : reading Z := or_panic (checked_add_u32 a b).
Definition sub_u32 (a b : Z) : reading Z := if a <? b then Panicked else Got (a - b).

(** [v[i]] and [f(&mut v[i])]. *)
Definition at_index {A} (v : list A) (i : Z) : reading A := or_panic (if 0 <=? i then v !! Z.to_nat i else None).
Definition modify {A} (v : list A) (i : Z) (f : A -> A) : reading (list A) :=
  _ ← at_index v i; mret (alter f (Z.to_nat i) v).

(** [r.ok()]: the error is dropped. *)
Definition ok {A} (m : reading A) : reading (option A) :=
  match m with Got a => Got (Some a) | Refused _ => Got None | Panicked => Panicked end.

(** [for x in l], with a state. *)
Fixpoint for_each {A S} (f : S -> A -> reading S) (s : S) (l : list A) : reading S :=
  match l with [] => mret s | x :: l => s ← f s x; for_each f s l end.

(** The numbers of [a..b]. *)
Definition range (a b : Z) : list Z := map (fun i => a + i) (indices (b - a)).

(** ** Checked indices *)

Definition checked_index (rid count : Z) : reading Z :=
  let idx := rid - 1 in
  if (0 <=? idx) && (idx <? count) then Got idx else Refused TableIndexOutOfRange.

(** On [usize]. *)
Definition typedef_index (rid count : Z) : reading Z := checked_index rid count.

(** ** Type tokens *)

Definition typespec_blob (m : MetadataFile) (T : Tables) (rid : Z) : reading (option (list Z)) :=
  i ← sub_u32 rid 1;
  r ← ok (row T table.TYPE_SPEC i);
  match r with
  | None => mret None
  | Some r => o ← int r 0; ok (blob_at m o)
  end.

Definition TYPE_SPEC_TAG : Z := 2.

Definition decode_type_def_or_ref (m : MetadataFile) (T : Tables) (it : ImageTables) (coded : Z) : reading (result ModifiedType SigError) :=
  if Z.land coded 3 =? TYPE_SPEC_TAG then
    let rid := Z.shiftr coded 2 in
    if rid =? 0 then mret (Err BadToken)
    else
      blob ← typespec_blob m T rid;
      mret (let? blob := ok_or blob BadToken in decode_type blob it)
  else mret (let? scope := resolve_token coded it in Ok (plain (NamedSig None scope))).

(** ** The owner of a method *)

(** [starts.partition_point(|&start| start <= rid)], on a slice that the test
    partitions. *)
Fixpoint partition_point (p : Z -> bool) (l : list Z) : Z :=
  match l with x :: l => if p x then 1 + partition_point p l else 0 | [] => 0 end.

Definition method_owner (method_starts : list Z) (rid : Z) (T : Tables) : reading (TypeDefId * MethodId) :=
  count ← row_count T table.METHOD_DEF;
  refuse_unless (negb ((rid =? 0) || (count <? rid))%bool) TableIndexOutOfRange;;
  let boundary := partition_point (fun start => start <=? rid) method_starts in
  refuse_unless (1 <=? boundary) TableIndexOutOfRange;;
  let owner := boundary - 1 in
  start ← at_index method_starts owner;
  local ← sub_u32 rid start;
  mret (owner, local).

Definition read_method_starts (T : Tables) : reading (list Z) :=
  count ← row_count T table.TYPE_DEF;
  collect (fun i => r ← row T table.TYPE_DEF i; int r 5) (indices count).

(** ** References *)

Definition resolve_ref_scope (T : Tables) (coded : Z) : reading (result RefScope UnsupportedScope) :=
  tok ← decode_coded T ResolutionScope coded;
  match tok with
  | None => mret (Err NilScope)
  | Some tok =>
      count ← row_count T (token_table tok);
      idx ← checked_index (rid tok) count;
      mret (if token_table tok =? table.ASSEMBLY_REF then Ok (RefAssemblyRef idx)
            else if token_table tok =? table.TYPE_REF then Ok (RefNested idx)
            else if token_table tok =? table.MODULE then Ok RefModule
            else Err ModuleRefScope)
  end.

(** The body of the loop of [read_type_refs]. *)
Definition read_type_ref (m : MetadataFile) (T : Tables) (i : Z) : reading TypeRef :=
  r ← row T table.TYPE_REF i;
  c ← coded r 0;
  scope ← resolve_ref_scope T c;
  n ← int r 1;
  name ← string_at m n;
  ns ← int r 2;
  namespace ← string_at m ns;
  mret {| r_name := {| namespace := namespace; type_name := name |}; r_scope := scope |}.

Definition read_type_refs (m : MetadataFile) (T : Tables) : reading (list TypeRef) :=
  n ← row_count T table.TYPE_REF;
  collect (read_type_ref m T) (indices n).

(** ** Nesting and interfaces *)

Definition read_nesting (T : Tables) (count : Z) : reading (list (option TypeDefId) * list (list TypeDefId)) :=
  n ← row_count T table.NESTED_CLASS;
  for_each (fun '(enclosing, nested) i =>
    r ← row T table.NESTED_CLASS i;
    c ← int r 0;
    child ← typedef_index c count;
    p ← int r 1;
    parent ← typedef_index p count;
    enclosing ← modify enclosing child (fun _ => Some parent);
    nested ← modify nested parent (fun l => l ++ [child]);
    mret (enclosing, nested))
    (replicate (Z.to_nat count) None, replicate (Z.to_nat count) []) (indices n).

Definition read_interface_impls (T : Tables) (count : Z) : reading (list (list Z)) :=
  n ← row_count T table.INTERFACE_IMPL;
  for_each (fun per_type i =>
    r ← row T table.INTERFACE_IMPL i;
    c ← int r 0;
    class ← typedef_index c count;
    interface ← coded r 1;
    modify per_type class (fun l => l ++ [interface]))
    (replicate (Z.to_nat count) []) (indices n).

(** ** Flags *)

Definition VISIBILITY_MASK : Z := 0x7.
Definition INTERFACE_FLAG : Z := 0x20.
Definition SEALED_FLAG : Z := 0x100.

Definition fold_accessibility (flags : Z) : Accessibility :=
  match Z.land flags VISIBILITY_MASK with
  | 0 => AAssembly
  | 1 | 2 => APublic
  | 3 => APrivate
  | 4 => AFamily
  | 5 => AAssembly
  | 6 => AFamAndAssem
  | _ => AFamOrAssem
  end.
