(* ===== verification/Members.v ===== *)
(** * The member walk: [assembly/src/reader/members.rs]

    Methods, fields, properties, events, generic parameters and attributes of the
    types of an assembly.  The index of attributes is drained as positions are
    built: code that takes from it runs in the state monad [draining].  What the
    [MethodImpl] table adds is in [MethodImpls]. *)

From stdpp Require Import gmap.
From S2P Require Import Prelude Order Cursor Signature Metadata Tables Manifest ImageModel TypeDefs.
Local Open Scope Z_scope.

(** ** Flags *)

Definition METHOD_ACCESS_MASK : Z := 0x0007.
Definition METHOD_STATIC : Z := 0x0010.
Definition METHOD_FINAL : Z := 0x0020.
Definition METHOD_VIRTUAL : Z := 0x0040.
Definition METHOD_HIDE_BY_SIG : Z := 0x0080.
Definition METHOD_NEW_SLOT : Z := 0x0100.
Definition METHOD_ABSTRACT : Z := 0x0400.
Definition METHOD_RT_SPECIAL_NAME : Z := 0x1000.
Definition FIELD_STATIC : Z := 0x0010.
Definition FIELD_INIT_ONLY : Z := 0x0020.
Definition FIELD_LITERAL : Z := 0x0040.
Definition PARAM_IN : Z := 0x0001.
Definition PARAM_OUT : Z := 0x0002.
Definition PARAM_OPTIONAL : Z := 0x0010.
Definition SEM_SETTER : Z := 0x0001.
Definition SEM_GETTER : Z := 0x0002.
Definition SEM_OTHER : Z := 0x0004.
Definition SEM_ADD_ON : Z := 0x0008.
Definition SEM_REMOVE_ON : Z := 0x0010.
Definition SEM_FIRE : Z := 0x0020.
Definition VARIANCE_MASK : Z := 0x0003.
Definition COVARIANT : Z := 0x0001.
Definition CONTRAVARIANT : Z := 0x0002.
Definition REFERENCE_TYPE_CONSTRAINT : Z := 0x0004.
Definition VALUE_TYPE_CONSTRAINT : Z := 0x0008.
Definition DEFAULT_CTOR_CONSTRAINT : Z := 0x0010.
Definition ALLOWS_REF_STRUCT : Z := 0x0020.

Definition fold_member_access (flags : Z) : result MemberAccess AccessDefect :=
  match Z.land flags METHOD_ACCESS_MASK with
  | 0 => Err CompilerControlled
  | 1 => Ok MPrivate
  | 2 => Ok MFamAndAssem
  | 3 => Ok MAssembly
  | 4 => Ok MFamily
  | 5 => Ok MFamOrAssem
  | 6 => Ok MPublic
  | _ => Err ReservedAccess
  end.

Definition ensure_optimized_layout (T : Tables) : reading unit :=
  for_each (fun _ t => n ← row_count T t; refuse_unless (n =? 0) UnsupportedTableStream) tt
    [table.FIELD_PTR; table.METHOD_PTR; table.PARAM_PTR; table.PROPERTY_PTR; table.EVENT_PTR].

(** ** The index of attributes *)

(** From the table and the row of a parent to the attributes on it. *)
Definition CustomAttributeIndex : Type := gmap (Z * Z) (list RawAttribute).

Definition resolve_attribute_ctor (T : Tables) (method_starts : list Z) (c : Z) : reading MemberHandle :=
  tok ← decode_coded T CustomAttributeType c;
  tok ← ok_or_refuse tok TableIndexOutOfRange;
  if token_table tok =? table.METHOD_DEF then
    '(owner, method) ← method_owner method_starts (rid tok) T;
    mret (HandleMethodDef owner method)
  else if token_table tok =? table.MEMBER_REF then
    count ← row_count T table.MEMBER_REF;
    id ← checked_index (rid tok) count;
    mret (HandleMemberRef id)
  else Refused TableIndexOutOfRange.

(** The body of the loop of [CustomAttributeIndex::build]: the parent and the
    attribute of one row, unless its parent is null. *)
Definition read_custom_attribute (m : MetadataFile) (T : Tables) (method_starts : list Z) (i : Z)
    : reading (option (Z * Z * RawAttribute)) :=
  r ← row T table.CUSTOM_ATTRIBUTE i;
  p ← coded r 0;
  parent ← decode_coded T HasCustomAttribute p;
  match parent with
  | None => mret None
  | Some parent =>
      count ← row_count T (token_table parent);
      checked_index (rid parent) count;;
      c ← coded r 1;
      ctor ← resolve_attribute_ctor T method_starts c;
      o ← int r 2;
      blob ← blob_at m o;
      mret (Some (token_table parent, rid parent, {| ctor := ctor; attr_blob := blob |}))
  end.

(** [by_parent.entry(key).or_default().push(attribute)]. *)
Definition push_attribute (by_parent : CustomAttributeIndex) (k : Z * Z) (a : RawAttribute) : CustomAttributeIndex :=
  <[k := default [] (by_parent !! k) ++ [a]]> by_parent.

Definition CustomAttributeIndex_build (m : MetadataFile) (T : Tables) (method_starts : list Z) : reading CustomAttributeIndex :=
  n ← row_count T table.CUSTOM_ATTRIBUTE;
  for_each (fun by_parent i =>
    a ← read_custom_attribute m T method_starts i;
    mret (match a with Some (t, r, a) => push_attribute by_parent (t, r) a | None => by_parent end))
    ∅ (indices n).

(** Code that takes attributes out of the index. *)
Definition draining (A : Type) : Type := CustomAttributeIndex -> reading (A * CustomAttributeIndex).

#[export] Instance draining_ret : MRet draining := fun A a s => Got (a, s).
#[export] Instance draining_bind : MBind draining := fun A B k m s => '(a, s) ← m s; k a s.

Definition lift {A} (m : reading A) : draining A := fun s => a ← m; mret (a, s).

(** [attrs.take(table, rid)]. *)
Definition take_attrs (t r : Z) : draining (list RawAttribute) :=
  fun attrs => Got (default [] (attrs !! (t, r)), delete (t, r) attrs).

Fixpoint drain {A B} (f : A -> draining B) (l : list A) : draining (list B) :=
  match l with
  | [] => mret []
  | x :: l => y ← f x; ys ← drain f l; mret (y :: ys)
  end.

(** ** Member references *)

Definition resolve_member_ref_parent (T : Tables) (c : Z) : reading MemberRefParent :=
  tok ← decode_coded T Tables.MemberRefParent c;
  tok ← ok_or_refuse tok TableIndexOutOfRange;
  count ← row_count T (token_table tok);
  checked_index (rid tok) count;;
  if token_table tok =? table.TYPE_DEF then i ← sub_u32 (rid tok) 1; mret (ParentTypeDef i)
  else if token_table tok =? table.TYPE_REF then i ← sub_u32 (rid tok) 1; mret (ParentTypeRef i)
  else mret ParentOther.

Definition read_member_ref (T : Tables) (it : ImageTables) (i : Z) : reading MemberRef :=
  r ← row T table.MEMBER_REF i;
  c ← coded r 0;
  parent ← resolve_member_ref_parent T c;
  name ← string r 1;
  sig ← blob r 2;
  mret {| mr_name := name; mr_parent := parent; mr_signature := decode_method_sig sig it |}.

Definition read_member_refs (T : Tables) (it : ImageTables) : reading (list MemberRef) :=
  count ← row_count T table.MEMBER_REF;
  collect (read_member_ref T it) (indices count).

(** ** Generic parameters *)

Record GenericParams := { type_gps : list (list GenericParam); method_gps : list (list GenericParam) }.

(** A constraint is its token and its row. *)
Record GpRow := { gp_rid : Z; gp_number : Z; gp_flags : Z; gp_name : str; gp_constraints : list (Z * Z) }.

Definition build_generic_param (m : MetadataFile) (T : Tables) (it : ImageTables) (gp : GpRow) : draining GenericParam :=
  let v := Z.land (gp_flags gp) VARIANCE_MASK in
  let variance := if v =? COVARIANT then Covariant else if v =? CONTRAVARIANT then Contravariant else Invariant in
  constraints ← drain (fun '(tok, crid) =>
    ty ← lift (decode_type_def_or_ref m T it tok);
    attributes ← take_attrs table.GENERIC_PARAM_CONSTRAINT crid;
    mret {| c_ty := ty; c_attributes := attributes |}) (gp_constraints gp);
  attributes ← take_attrs table.GENERIC_PARAM (gp_rid gp);
  mret {| g_name := gp_name gp; variance := variance; reference_type := flag (gp_flags gp) REFERENCE_TYPE_CONSTRAINT;
          value_type := flag (gp_flags gp) VALUE_TYPE_CONSTRAINT; default_ctor := flag (gp_flags gp) DEFAULT_CTOR_CONSTRAINT;
          allows_ref_struct := flag (gp_flags gp) ALLOWS_REF_STRUCT; constraints := constraints; g_attributes := attributes |}.

Definition build_generic_params (m : MetadataFile) (T : Tables) (it : ImageTables) (rows : list GpRow) : draining (list GenericParam) :=
  drain (build_generic_param m T it) (sort_by (fun a b => Z.compare (gp_number a) (gp_number b)) rows).

(** The constraints of each parameter. *)
Definition read_constraints (T : Tables) (gp_count : Z) : reading (list (list (Z * Z))) :=
  n ← row_count T table.GENERIC_PARAM_CONSTRAINT;
  for_each (fun constraints i =>
    r ← row T table.GENERIC_PARAM_CONSTRAINT i;
    o ← int r 0;
    owner ← checked_index o gp_count;
    c ← coded r 1;
    modify constraints owner (fun l => l ++ [(c, i + 1)]))
    (replicate (Z.to_nat gp_count) []) (indices n).

(** The body of the loop over the parameters: each goes to its owner. *)
Definition place_generic_param (T : Tables) (constraints : list (list (Z * Z))) (type_count method_count : Z)
    (owners : list (list GpRow) * list (list GpRow)) (i : Z) : reading (list (list GpRow) * list (list GpRow)) :=
  let '(type_rows, method_rows) := owners in
  r ← row T table.GENERIC_PARAM i;
  c ← coded r 2;
  tok ← decode_coded T TypeOrMethodDef c;
  match tok with
  | None => mret (type_rows, method_rows)
  | Some tok =>
      number ← int r 0;
      flags ← int r 1;
      name ← string r 3;
      cs ← at_index constraints i;
      let gp := {| gp_rid := i + 1; gp_number := as_u16 number; gp_flags := as_u16 flags; gp_name := name; gp_constraints := cs |} in
      if token_table tok =? table.TYPE_DEF then
        t ← typedef_index (rid tok) type_count;
        type_rows ← modify type_rows t (fun l => l ++ [gp]);
        mret (type_rows, method_rows)
      else if token_table tok =? table.METHOD_DEF then
        k ← checked_index (rid tok) method_count;
        method_rows ← modify method_rows k (fun l => l ++ [gp]);
        mret (type_rows, method_rows)
      else mret (type_rows, method_rows)
  end.

Definition read_generic_params (m : MetadataFile) (T : Tables) (it : ImageTables) (type_count : Z) : draining GenericParams :=
  gp_count ← lift (row_count T table.GENERIC_PARAM);
  method_count ← lift (row_count T table.METHOD_DEF);
  constraints ← lift (read_constraints T gp_count);
  '(type_rows, method_rows) ← lift (for_each (place_generic_param T constraints type_count method_count)
    (replicate (Z.to_nat type_count) [], replicate (Z.to_nat method_count) []) (indices gp_count));
  type_gps ← drain (build_generic_params m T it) type_rows;
  method_gps ← drain (build_generic_params m T it) method_rows;
  mret {| type_gps := type_gps; method_gps := method_gps |}.

(** ** Lists of members *)

Record TypeMembers := { tm_methods : list Method; tm_fields : list Field; tm_properties : list Property; tm_events : list Event }.

Definition read_starts (T : Tables) (t col : Z) : reading (list Z) :=
  count ← row_count T t;
  collect (fun i => r ← row T t i; int r col) (indices count).

Definition run_range (starts : list Z) (idx total : Z) : reading (Z * Z) :=
  start ← at_index starts idx;
  last ← add_u32 total 1;
  mret (start, default last (starts !! Z.to_nat (idx + 1))).

(** The loop of [validate_list_starts], from the entry [i] on. *)
Fixpoint valid_starts (limit prev : Z) (i : nat) (starts : list Z) : bool :=
  match starts with
  | [] => true
  | start :: starts =>
      if ((limit <? start) || (start <? prev) || (Nat.eqb i 0 && negb (start =? 1)))%bool then false
      else valid_starts limit start (S i) starts
  end.

Definition validate_list_starts (starts : list Z) (count : Z) : reading unit :=
  limit ← add_u32 count 1;
  refuse_unless (valid_starts limit 1 0 starts) TableIndexOutOfRange.

(** ** Constants *)

Definition signed (bits n : Z) : Z := if n <? 2 ^ (bits - 1) then n else n - 2 ^ bits.

(** [<[u8; N]>::try_from(blob).ok()], read as a little-endian number. *)
Definition exact_le (n : nat) (blob : list Z) : option Z := if Nat.eqb (length blob) n then Some (from_le_bytes blob) else None.

(** [blob.as_chunks::<2>()], as code units; an odd byte at the end is left. *)
Fixpoint utf16_units (blob : list Z) : list Z :=
  match blob with a :: b :: blob => from_le_bytes [a; b] :: utf16_units blob | _ => [] end.

Definition decode_constant (element_type : Z) (blob : list Z) : option Constant :=
  if element_type =? 0x02 then (fun b => CBool (negb (b =? 0))) <$> exact_le 1 blob
  else if element_type =? 0x03 then CChar <$> exact_le 2 blob
  else if element_type =? 0x04 then (fun n => CInt (signed 8 n)) <$> exact_le 1 blob
  else if element_type =? 0x05 then CUInt <$> exact_le 1 blob
  else if element_type =? 0x06 then (fun n => CInt (signed 16 n)) <$> exact_le 2 blob
  else if element_type =? 0x07 then CUInt <$> exact_le 2 blob
  else if element_type =? 0x08 then (fun n => CInt (signed 32 n)) <$> exact_le 4 blob
  else if element_type =? 0x09 then CUInt <$> exact_le 4 blob
  else if element_type =? 0x0a then (fun n => CInt (signed 64 n)) <$> exact_le 8 blob
  else if element_type =? 0x0b then CUInt <$> exact_le 8 blob
  else if element_type =? 0x0c then CF32 <$> exact_le 4 blob
  else if element_type =? 0x0d then CF64 <$> exact_le 8 blob
  else if element_type =? 0x0e then if Nat.even (length blob) then Some (CStr (utf16_units blob)) else None
  else if (element_type =? 0x12) && Nat.eqb (length blob) 4 && forallb (fun b => b =? 0) blob then Some CNull
  else None.

Definition read_constant_values (T : Tables) (parent_table : Z) : reading (gmap Z Constant) :=
  n ← row_count T table.CONSTANT;
  for_each (fun map i =>
    r ← row T table.CONSTANT i;
    p ← coded r 1;
    parent ← decode_coded T HasConstant p;
    match parent with
    | None => mret map
    | Some parent =>
        count ← row_count T (token_table parent);
        checked_index (rid parent) count;;
        if token_table parent =? parent_table then
          e ← int r 0;
          value ← blob r 2;
          mret (match decode_constant (Z.land e 0xff) value with Some v => <[rid parent := v]> map | None => map end)
        else mret map
    end)
    ∅ (indices n).

(** ** Accessors *)

Record PropAccessors := { pa_getter : option Z; pa_setter : option Z; pa_other : list Z }.
Record EventAccessors := { ea_add : option Z; ea_remove : option Z; ea_raise : option Z; ea_other : list Z }.
Record Semantics := { sem_properties : gmap Z PropAccessors; sem_events : gmap Z EventAccessors }.

Definition no_property_accessors : PropAccessors := {| pa_getter := None; pa_setter := None; pa_other := [] |}.
Definition no_event_accessors : EventAccessors := {| ea_add := None; ea_remove := None; ea_raise := None; ea_other := [] |}.

(** The rows of [MethodSemantics] on a property and on an event. *)
Definition property_semantics (flags method_rid : Z) (acc : PropAccessors) : PropAccessors :=
  {| pa_getter := if flag flags SEM_GETTER then Some method_rid else pa_getter acc;
     pa_setter := if flag flags SEM_SETTER then Some method_rid else pa_setter acc;
     pa_other := if flag flags SEM_OTHER then pa_other acc ++ [method_rid] else pa_other acc |}.
Definition event_semantics (flags method_rid : Z) (acc : EventAccessors) : EventAccessors :=
  {| ea_add := if flag flags SEM_ADD_ON then Some method_rid else ea_add acc;
     ea_remove := if flag flags SEM_REMOVE_ON then Some method_rid else ea_remove acc;
     ea_raise := if flag flags SEM_FIRE then Some method_rid else ea_raise acc;
     ea_other := if flag flags SEM_OTHER then ea_other acc ++ [method_rid] else ea_other acc |}.

Definition read_method_semantics (T : Tables) : reading Semantics :=
  method_count ← row_count T table.METHOD_DEF;
  n ← row_count T table.METHOD_SEMANTICS;
  for_each (fun sem i =>
    r ← row T table.METHOD_SEMANTICS i;
    flags ← int r 0;
    method_rid ← int r 1;
    checked_index method_rid method_count;;
    c ← coded r 2;
    assoc ← decode_coded T HasSemantics c;
    match assoc with
    | None => mret sem
    | Some assoc =>
        count ← row_count T (token_table assoc);
        checked_index (rid assoc) count;;
        mret (
          if token_table assoc =? table.PROPERTY then
            {| sem_properties := <[rid assoc := property_semantics flags method_rid (default no_property_accessors (sem_properties sem !! rid assoc))]> (sem_properties sem);
               sem_events := sem_events sem |}
          else if token_table assoc =? table.EVENT then
            {| sem_properties := sem_properties sem;
               sem_events := <[rid assoc := event_semantics flags method_rid (default no_event_accessors (sem_events sem !! rid assoc))]> (sem_events sem) |}
          else sem)
    end)
    {| sem_properties := ∅; sem_events := ∅ |} (indices n).

(** [(rid >= start && rid < end).then(|| MethodId(rid - start))]. *)
Definition accessor_method_id (m_range : Z * Z) (method_rid : Z) : option MethodId :=
  if (m_range.1 <=? method_rid) && (method_rid <? m_range.2) then Some (method_rid - m_range.1) else None.

(** The end of each run is the start of the next one in the order of the starts. *)
Fixpoint map_ranges (limit : Z) (entries : list (Z * Z)) (ranges : list (option (Z * Z))) : reading (list (option (Z * Z))) :=
  match entries with
  | [] => mret ranges
  | (ti, start) :: entries =>
      let end_ := match entries with (_, s) :: _ => s | [] => limit end in
      ranges ← modify ranges ti (fun _ => Some (start, end_));
      map_ranges limit entries ranges
  end.

Definition read_map_ranges (T : Tables) (map_table member_table type_count : Z) : reading (list (option (Z * Z))) :=
  member_count ← row_count T member_table;
  n ← row_count T map_table;
  entries ← collect (fun i =>
    r ← row T map_table i;
    p ← int r 0;
    ti ← typedef_index p type_count;
    start ← int r 1;
    limit ← (if start =? 0 then mret 0 else add_u32 member_count 1);
    refuse_unless (negb ((start =? 0) || (limit <? start))%bool) TableIndexOutOfRange;;
    mret (ti, start)) (indices n);
  let entries := sort_by (fun a b : Z * Z => Z.compare a.2 b.2) entries in
  limit ← (if is_empty entries then mret 0 else add_u32 member_count 1);
  map_ranges limit entries (replicate (Z.to_nat type_count) None).

(** ** Methods and their parameters *)

Record ParamCtx := { pc_starts : list Z; pc_constants : gmap Z Constant; pc_count : Z }.

Record ParamRow := { pr_rid : Z; pr_flags : Z; pr_name : option str }.

(** The rows of a method by their sequence number. *)
Definition read_param_rows (T : Tables) (rids : list Z) : reading (gmap Z ParamRow) :=
  for_each (fun by_seq rid =>
    i ← sub_u32 rid 1;
    r ← row T table.PARAM i;
    name ← string r 2;
    seq ← int r 1;
    flags ← int r 0;
    mret (<[as_u16 seq := {| pr_rid := rid; pr_flags := flags; pr_name := if is_empty name then None else Some name |}]> by_seq))
    ∅ rids.

Definition build_param (ctx : ParamCtx) (r : option ParamRow) (ty : ModifiedType) : draining Param :=
  match r with
  | Some r =>
      attributes ← take_attrs table.PARAM (pr_rid r);
      mret {| a_name := pr_name r; a_ty := ty; is_in := flag (pr_flags r) PARAM_IN; is_out := flag (pr_flags r) PARAM_OUT;
              optional := flag (pr_flags r) PARAM_OPTIONAL; default_value := pc_constants ctx !! pr_rid r; a_attributes := attributes |}
  | None =>
      mret {| a_name := None; a_ty := ty; is_in := false; is_out := false; optional := false; default_value := None; a_attributes := [] |}
  end.

(** The parameters from the [i]-th on; [seq] is [(i + 1) as u16]. *)
Fixpoint build_params (ctx : ParamCtx) (i : Z) (by_seq : gmap Z ParamRow) (tys : list ModifiedType) : draining (list Param) :=
  match tys with
  | [] => mret []
  | ty :: tys =>
      let seq := as_u16 (i + 1) in
      p ← build_param ctx (by_seq !! seq) ty;
      ps ← build_params ctx (i + 1) (delete seq by_seq) tys;
      mret (p :: ps)
  end.

Definition assemble_method_sig (T : Tables) (ctx : ParamCtx) (method_idx : Z) (d : DecodedMethodSig) : draining MethodSig :=
  '(p_start, p_end) ← lift (run_range (pc_starts ctx) method_idx (pc_count ctx));
  by_seq ← lift (read_param_rows T (range p_start p_end));
  return_attributes ← (match by_seq !! 0 with Some r => take_attrs table.PARAM (pr_rid r) | None => mret [] end);
  parameters ← build_params ctx 0 (delete 0 by_seq) (param_types d);
  mret {| s_has_this := has_this d; s_explicit_this := explicit_this d; s_calling_convention := calling_convention d;
          s_return_type := return_type d; return_attributes := return_attributes; parameters := parameters |}.

(** The method, and the generic parameters that are left for the others. *)
Definition build_method (T : Tables) (it : ImageTables) (ctx : ParamCtx) (gps : list (list GenericParam)) (rid : Z)
    : draining (Method * list (list GenericParam)) :=
  i ← lift (sub_u32 rid 1);
  r ← lift (row T table.METHOD_DEF i);
  flags ← lift (int r 2);
  name ← lift (string r 3);
  sig ← lift (blob r 4);
  generic_params ← lift (at_index gps i);
  gps ← lift (modify gps i (fun _ => []));
  signature ← (match decode_method_sig sig it with
               | Ok d => s ← assemble_method_sig T ctx i d; mret (Ok s)
               | Err e => mret (Err e)
               end);
  attributes ← take_attrs table.METHOD_DEF rid;
  mret ({| token := Z.lor 0x06000000 rid; m_name := name; m_accessibility := fold_member_access flags;
           m_is_static := flag flags METHOD_STATIC; is_abstract := flag flags METHOD_ABSTRACT; is_virtual := flag flags METHOD_VIRTUAL;
           is_final := flag flags METHOD_FINAL; is_new_slot := flag flags METHOD_NEW_SLOT; is_hide_by_sig := flag flags METHOD_HIDE_BY_SIG;
           is_rt_special_name := flag flags METHOD_RT_SPECIAL_NAME; m_generic_params := generic_params; m_signature := signature;
           m_attributes := attributes; m_implements := []; unclassified_impls := []; has_other_method_impl := false |}, gps).

Definition build_field (T : Tables) (it : ImageTables) (rid : Z) : draining Field :=
  i ← lift (sub_u32 rid 1);
  r ← lift (row T table.FIELD i);
  flags ← lift (int r 0);
  name ← lift (string r 1);
  sig ← lift (blob r 2);
  attributes ← take_attrs table.FIELD rid;
  mret {| f_name := name; f_accessibility := fold_member_access flags; f_is_static := flag flags FIELD_STATIC;
          is_literal := flag flags FIELD_LITERAL; is_init_only := flag flags FIELD_INIT_ONLY;
          f_signature := decode_field_sig sig it; f_attributes := attributes |}.

Definition build_property (T : Tables) (it : ImageTables) (semantics : Semantics) (m_range : Z * Z) (rid : Z) : draining Property :=
  i ← lift (sub_u32 rid 1);
  r ← lift (row T table.PROPERTY i);
  name ← lift (string r 1);
  sig ← lift (blob r 2);
  let acc := sem_properties semantics !! rid in
  attributes ← take_attrs table.PROPERTY rid;
  mret {| p_name := name; p_signature := decode_property_sig sig it; index_parameters := decode_property_index_params sig it;
          p_has_this := property_sig_has_this sig;
          getter := (acc ≫= pa_getter) ≫= accessor_method_id m_range;
          setter := (acc ≫= pa_setter) ≫= accessor_method_id m_range;
          p_other_accessors := default [] ((fun a => map (accessor_method_id m_range) (pa_other a)) <$> acc);
          p_attributes := attributes |}.

Definition build_event (m : MetadataFile) (T : Tables) (it : ImageTables) (semantics : Semantics) (m_range : Z * Z) (rid : Z) : draining Event :=
  i ← lift (sub_u32 rid 1);
  r ← lift (row T table.EVENT i);
  name ← lift (string r 1);
  c ← lift (coded r 2);
  ty ← lift (decode_type_def_or_ref m T it c);
  let acc := sem_events semantics !! rid in
  attributes ← take_attrs table.EVENT rid;
  mret {| e_name := name; event_type := ty;
          add := (acc ≫= ea_add) ≫= accessor_method_id m_range;
          remove := (acc ≫= ea_remove) ≫= accessor_method_id m_range;
          raise := (acc ≫= ea_raise) ≫= accessor_method_id m_range;
          e_other_accessors := default [] ((fun a => map (accessor_method_id m_range) (ea_other a)) <$> acc);
          e_attributes := attributes |}.

(** The methods of a run, with the generic parameters they leave. *)
Fixpoint build_methods (T : Tables) (it : ImageTables) (ctx : ParamCtx) (gps : list (list GenericParam)) (rids : list Z)
    : draining (list Method * list (list GenericParam)) :=
  match rids with
  | [] => mret ([], gps)
  | rid :: rids =>
      '(x, gps) ← build_method T it ctx gps rid;
      '(xs, gps) ← build_methods T it ctx gps rids;
      mret (x :: xs, gps)
  end.

(** The tables that the walk over the types consults. *)
Record MemberTables := {
  mt_method_starts : list Z; mt_method_count : Z; mt_field_starts : list Z; mt_field_count : Z; mt_params : ParamCtx;
  mt_semantics : Semantics; mt_prop_ranges : list (option (Z * Z)); mt_event_ranges : list (option (Z * Z)) }.

Definition read_member_tables (T : Tables) (method_starts : list Z) (type_count : Z) : reading MemberTables :=
  method_count ← row_count T table.METHOD_DEF;
  field_count ← row_count T table.FIELD;
  param_count ← row_count T table.PARAM;
  field_starts ← read_starts T table.TYPE_DEF 4;
  validate_list_starts field_starts field_count;;
  param_starts ← read_starts T table.METHOD_DEF 5;
  validate_list_starts param_starts param_count;;
  constants ← read_constant_values T table.PARAM;
  semantics ← read_method_semantics T;
  prop_ranges ← read_map_ranges T table.PROPERTY_MAP table.PROPERTY type_count;
  event_ranges ← read_map_ranges T table.EVENT_MAP table.EVENT type_count;
  mret {| mt_method_starts := method_starts; mt_method_count := method_count; mt_field_starts := field_starts; mt_field_count := field_count;
          mt_params := {| pc_starts := param_starts; pc_constants := constants; pc_count := param_count |};
          mt_semantics := semantics; mt_prop_ranges := prop_ranges; mt_event_ranges := event_ranges |}.

(** The body of the loop over the types. *)
Definition build_type_members (m : MetadataFile) (T : Tables) (it : ImageTables) (mt : MemberTables) (gps : list (list GenericParam)) (ti : Z)
    : draining (TypeMembers * list (list GenericParam)) :=
  m_range ← lift (run_range (mt_method_starts mt) ti (mt_method_count mt));
  '(methods, gps) ← build_methods T it (mt_params mt) gps (range m_range.1 m_range.2);
  '(f_start, f_end) ← lift (run_range (mt_field_starts mt) ti (mt_field_count mt));
  fields ← drain (build_field T it) (range f_start f_end);
  p_range ← lift (at_index (mt_prop_ranges mt) ti);
  properties ← (match p_range with
                | Some (a, b) => drain (build_property T it (mt_semantics mt) m_range) (range a b)
                | None => mret []
                end);
  e_range ← lift (at_index (mt_event_ranges mt) ti);
  events ← (match e_range with
            | Some (a, b) => drain (build_event m T it (mt_semantics mt) m_range) (range a b)
            | None => mret []
            end);
  mret ({| tm_methods := methods; tm_fields := fields; tm_properties := properties; tm_events := events |}, gps).

Fixpoint build_all_members (m : MetadataFile) (T : Tables) (it : ImageTables) (mt : MemberTables) (gps : list (list GenericParam)) (tis : list Z)
    : draining (list TypeMembers) :=
  match tis with
  | [] => mret []
  | ti :: tis =>
      '(x, gps) ← build_type_members m T it mt gps ti;
      xs ← build_all_members m T it mt gps tis;
      mret (x :: xs)
  end.
