(* ===== verification/MethodImpls.v ===== *)
(** * Explicit implementations: the [MethodImpl] pass of [assembly/src/reader/members.rs]

    Each row of the [MethodImpl] table names a body and a declaration.  The pass
    finds the interfaces that a type provably implements (a bounded walk over the
    instantiated interface lists of the module), compares the declaring type with
    them up to duplicate references, and records on the body what it implements.

    The walk visits at most [MAX_CLOSURE_FRAMES] frames, as in the code; the
    comparisons stop at [EQUIV_MAX_DEPTH]. *)

From stdpp Require Import gmap.
From S2P Require Import Prelude Cursor Signature Metadata Tables Manifest ImageModel TypeDefs Members.
Local Open Scope Z_scope.

(** ** Equality of signatures (derived [PartialEq]) *)

#[export] Instance Primitive_eq : EqDecision Primitive.
Proof. solve_decision. Defined.
#[export] Instance NamedKind_eq : EqDecision NamedKind.
Proof. solve_decision. Defined.
#[export] Instance TypeScope_eq : EqDecision TypeScope.
Proof. solve_decision. Defined.
#[export] Instance CustomMod_eq : EqDecision CustomMod.
Proof. solve_decision. Defined.
#[export] Instance CallConv_eq : EqDecision CallConv.
Proof. solve_decision. Defined.

Fixpoint sig_eqb (a b : TypeSig) : bool :=
  let modified_eqb (m n : Modified TypeSig) := (bool_decide (mods m = mods n) && sig_eqb (ty m) (ty n))%bool in
  let fix args_eqb (l k : list (Modified TypeSig)) : bool :=
    match l, k with
    | [], [] => true
    | m :: l, n :: k => modified_eqb m n && args_eqb l k
    | _, _ => false
    end in
  match a, b with
  | PrimitiveSig p, PrimitiveSig q => bool_decide (p = q)
  | NamedSig k s, NamedSig k' s' => bool_decide (k = k' /\ s = s')
  | GenericSig k s args, GenericSig k' s' args' => bool_decide (k = k' /\ s = s') && args_eqb args args'
  | TypeVar n, TypeVar n' | MethodVar n, MethodVar n' => n =? n'
  | SzArray m, SzArray n | ByRef m, ByRef n => modified_eqb m n
  | ArraySig m r ss bs, ArraySig n r' ss' bs' => modified_eqb m n && bool_decide (r = r' /\ ss = ss' /\ bs = bs')
  | Ptr (Some m), Ptr (Some n) => modified_eqb m n
  | Ptr None, Ptr None => true
  | TypedByRef, TypedByRef => true
  | _, _ => false
  end.
Definition modified_eqb (m n : ModifiedType) : bool := bool_decide (mods m = mods n) && sig_eqb (ty m) (ty n).

(** ** Instantiation *)

Definition EQUIV_MAX_DEPTH : nat := 64.
Definition MAX_SUBSTITUTED_NODES : nat := 512.
Definition MAX_CLOSURE_FRAMES : nat := 256.

Fixpoint sig_size_of (t : TypeSig) : nat :=
  let sig_size (m : Modified TypeSig) := (1 + length (mods m) + sig_size_of (ty m))%nat in
  match t with
  | GenericSig _ _ args => sum_list_with sig_size args
  | SzArray m | ByRef m | ArraySig m _ _ _ | Ptr (Some m) => sig_size m
  | _ => 0%nat
  end.
Definition sig_size (m : ModifiedType) : nat := (1 + length (mods m) + sig_size_of (ty m))%nat.

(** [a.checked_sub(b)] on [usize]. *)
Definition checked_sub (a b : nat) : option nat := if Nat.leb b a then Some (a - b)%nat else None.

(** [substitute] of a type and its modifiers, in a frame of arguments; the budget
    that is left is returned. *)
Fixpoint substitute_in (args : list ModifiedType) (t : TypeSig) (ms : list CustomMod) (depth budget : nat) : option (ModifiedType * nat) :=
  let substitute (m : Modified TypeSig) (budget : nat) := substitute_in args (ty m) (mods m) (S depth) budget in
  let fix substitute_all (l : list (Modified TypeSig)) (budget : nat) : option (list ModifiedType * nat) :=
    match l with
    | [] => Some ([], budget)
    | m :: l => '(m, budget) ← substitute m budget; '(l, budget) ← substitute_all l budget; Some (m :: l, budget)
    end in
  if Nat.leb EQUIV_MAX_DEPTH depth then None
  else
    budget ← checked_sub budget (1 + length ms);
    match t with
    | TypeVar i =>
        replacement ← (if 0 <=? i then args !! Z.to_nat i else None);
        budget ← checked_sub budget (sig_size replacement - 1);
        Some (Build_Modified (ms ++ mods replacement) (ty replacement), budget)
    | GenericSig kind scope inner => '(inner, budget) ← substitute_all inner budget; Some (Build_Modified ms (GenericSig kind scope inner), budget)
    | SzArray m => '(m, budget) ← substitute m budget; Some (Build_Modified ms (SzArray m), budget)
    | ByRef m => '(m, budget) ← substitute m budget; Some (Build_Modified ms (ByRef m), budget)
    | ArraySig m rank sizes bounds => '(m, budget) ← substitute m budget; Some (Build_Modified ms (ArraySig m rank sizes bounds), budget)
    | Ptr (Some m) => '(m, budget) ← substitute m budget; Some (Build_Modified ms (Ptr (Some m)), budget)
    | Ptr None => Some (Build_Modified ms (Ptr None), budget)
    | PrimitiveSig _ | NamedSig _ _ | MethodVar _ | TypedByRef => Some (Build_Modified ms t, budget)
    end.

Definition substitute (m : ModifiedType) (frame : option (list ModifiedType)) (depth budget : nat) : option (ModifiedType * nat) :=
  match frame with
  | None => Some (m, budget)
  | Some args => substitute_in args (ty m) (mods m) depth budget
  end.

Definition substitute_capped (m : ModifiedType) (frame : option (list ModifiedType)) : option ModifiedType :=
  fst <$> substitute m frame 0 MAX_SUBSTITUTED_NODES.

(** ** The interfaces of a type *)

Record ClassContext := { interfaces : list ModifiedType; external_ancestors : list ModifiedType }.

(** A definition and the instantiation it was reached under; [None] is the
    identity. *)
Definition Frame : Type := Z * option (list ModifiedType).

Definition args_eqb (l k : list ModifiedType) : bool := (Nat.eqb (length l) (length k) && forallb (fun p => modified_eqb p.1 p.2) (zip l k))%bool.
Definition frame_eqb (f g : Frame) : bool :=
  ((f.1 =? g.1) && match f.2, g.2 with None, None => true | Some l, Some k => args_eqb l k | _, _ => false end)%bool.

Definition in_module_head (m : ModifiedType) : option (Z * list ModifiedType) :=
  match ty m with
  | NamedSig _ (ScopeDefinition d) => Some (d, [])
  | GenericSig _ (ScopeDefinition d) args => Some (d, args)
  | _ => None
  end.

(** One interface row of a frame.  The head of the worklist is its top. *)
Definition add_interface (m : MetadataFile) (T : Tables) (it : ImageTables) (frame : option (list ModifiedType))
    (acc : list ModifiedType * list Frame) (tok : Z) : reading (list ModifiedType * list Frame) :=
  let '(found, worklist) := acc in
  sig ← decode_type_def_or_ref m T it tok;
  mret (match sig with
        | Err _ => acc
        | Ok sig =>
            match substitute_capped sig frame with
            | None => acc
            | Some instantiated =>
                if existsb (modified_eqb instantiated) found then acc
                else
                  let worklist := match in_module_head instantiated with Some (d, args) => (d, Some args) :: worklist | None => worklist end in
                  (found ++ [instantiated], worklist)
            end
        end).

(** The base class of a frame. *)
Definition add_base (m : MetadataFile) (T : Tables) (it : ImageTables) (t : Z) (frame : option (list ModifiedType))
    (ancestors : list ModifiedType) (worklist : list Frame) : reading (list ModifiedType * list Frame) :=
  r ← row T table.TYPE_DEF t;
  extends ← coded r 3;
  if extends =? 0 then mret (ancestors, worklist)
  else
    sig ← decode_type_def_or_ref m T it extends;
    mret (match sig with
          | Err _ => (ancestors, worklist)
          | Ok sig =>
              match substitute_capped sig frame with
              | None => (ancestors, worklist)
              | Some instantiated =>
                  match in_module_head instantiated with
                  | Some (d, args) => (ancestors, (d, Some args) :: worklist)
                  | None => (ancestors ++ [instantiated], worklist)
                  end
              end
          end).

(** Pop until a frame that was not visited. *)
Fixpoint next_frame (visited worklist : list Frame) : option (Frame * list Frame) :=
  match worklist with
  | [] => None
  | f :: worklist => if existsb (frame_eqb f) visited then next_frame visited worklist else Some (f, worklist)
  end.

(** [room] is [MAX_CLOSURE_FRAMES - visited.len()]. *)
Fixpoint closure (m : MetadataFile) (T : Tables) (it : ImageTables) (interface_impls : list (list Z)) (room : nat)
    (visited worklist : list Frame) (ctx : ClassContext) : reading ClassContext :=
  match next_frame visited worklist with
  | None => mret ctx
  | Some ((t, frame), worklist) =>
      match room with
      | 0%nat => mret ctx
      | S room =>
          let rows := default [] (if 0 <=? t then interface_impls !! Z.to_nat t else None) in
          '(found, worklist) ← for_each (add_interface m T it frame) (interfaces ctx, worklist) rows;
          '(ancestors, worklist) ← add_base m T it t frame (external_ancestors ctx) worklist;
          closure m T it interface_impls room (visited ++ [(t, frame)]) worklist {| interfaces := found; external_ancestors := ancestors |}
      end
  end.

Definition class_decl_context (m : MetadataFile) (T : Tables) (it : ImageTables) (interface_impls : list (list Z)) (idx : Z) : reading ClassContext :=
  closure m T it interface_impls MAX_CLOSURE_FRAMES [] [(idx, None)] {| interfaces := []; external_ancestors := [] |}.

(** ** Identity of references *)

(** [a && b] where [b] may fail. *)
Definition and_then (a : reading bool) (b : reading bool) : reading bool := a ≫= fun x : bool => if x then b else mret false.

Definition assembly_refs_equivalent (m : MetadataFile) (T : Tables) (a b : Z) : reading bool :=
  ra ← row T table.ASSEMBLY_REF a;
  rb ← row T table.ASSEMBLY_REF b;
  let same_int (c : Z) : reading bool := x ← int ra c; y ← int rb c; mret (x =? y) in
  let same_string (c : Z) : reading bool := x ← string ra c; y ← string rb c; mret (str_eqb x y) in
  and_then (same_int 0) (and_then (same_int 1) (and_then (same_int 2) (and_then (same_int 3)
    (and_then (same_string 6) (and_then (same_string 7)
      (x ← int ra 5; kx ← blob_at m x; y ← int rb 5; ky ← blob_at m y; mret (bool_decide (kx = ky)))))))).

Definition resolution_scopes_equivalent (typerefs : Z -> Z -> reading bool) (m : MetadataFile) (T : Tables) (a b : Z) : reading bool :=
  if a =? b then mret true
  else
    ta ← decode_coded T ResolutionScope a;
    tb ← decode_coded T ResolutionScope b;
    match ta, tb with
    | Some ta, Some tb =>
        if (token_table ta =? table.TYPE_REF) && (token_table tb =? table.TYPE_REF) then
          x ← sub_u32 (rid ta) 1; y ← sub_u32 (rid tb) 1; typerefs x y
        else if (token_table ta =? table.ASSEMBLY_REF) && (token_table tb =? table.ASSEMBLY_REF) then
          x ← sub_u32 (rid ta) 1; y ← sub_u32 (rid tb) 1; assembly_refs_equivalent m T x y
        else mret ((token_table ta =? table.MODULE) && (token_table tb =? table.MODULE))%bool
    | _, _ => mret false
    end.

(** [levels] is [EQUIV_MAX_DEPTH - depth]. *)
Fixpoint typerefs_within (levels : nat) (m : MetadataFile) (T : Tables) (a b : Z) : reading bool :=
  if a =? b then mret true
  else match levels with
  | 0%nat => mret false
  | S levels =>
      ra ← row T table.TYPE_REF a;
      rb ← row T table.TYPE_REF b;
      let same_string (c : Z) : reading bool := x ← string ra c; y ← string rb c; mret (str_eqb x y) in
      and_then (same_string 1) (and_then (same_string 2)
        (x ← coded ra 0; y ← coded rb 0; resolution_scopes_equivalent (typerefs_within levels m T) m T x y))
  end.
Definition typerefs_equivalent (m : MetadataFile) (T : Tables) (a b : Z) (depth : nat) : reading bool :=
  typerefs_within (EQUIV_MAX_DEPTH - depth) m T a b.

Definition scopes_equivalent (m : MetadataFile) (T : Tables) (a b : TypeScope) (depth : nat) : reading bool :=
  match a, b with
  | ScopeDefinition x, ScopeDefinition y => mret (x =? y)
  | ScopeReference x, ScopeReference y => typerefs_equivalent m T x y (S depth)
  | _, _ => mret false
  end.

Fixpoint mods_pairwise (m : MetadataFile) (T : Tables) (a b : list CustomMod) (depth : nat) : reading bool :=
  match a, b with
  | x :: a, y :: b =>
      if negb (Bool.eqb (required x) (required y)) then mret false
      else and_then (scopes_equivalent m T (modifier x) (modifier y) depth) (mods_pairwise m T a b depth)
  | _, _ => mret true
  end.
Definition mods_equivalent (m : MetadataFile) (T : Tables) (a b : list CustomMod) (depth : nat) : reading bool :=
  if negb (Nat.eqb (length a) (length b)) then mret false else mods_pairwise m T a b depth.

Fixpoint types_equivalent (m : MetadataFile) (T : Tables) (a b : TypeSig) (depth : nat) : reading bool :=
  let sigs_equivalent (x y : Modified TypeSig) :=
    if Nat.leb EQUIV_MAX_DEPTH (S depth) then mret false
    else and_then (mods_equivalent m T (mods x) (mods y) (S depth)) (types_equivalent m T (ty x) (ty y) (S depth)) in
  let fix args_equivalent (l k : list (Modified TypeSig)) : reading bool :=
    match l, k with
    | x :: l, y :: k => and_then (sigs_equivalent x y) (args_equivalent l k)
    | _, _ => mret true
    end in
  if Nat.leb EQUIV_MAX_DEPTH depth then mret false
  else match a, b with
  | PrimitiveSig x, PrimitiveSig y => mret (bool_decide (x = y))
  | NamedSig _ sa, NamedSig _ sb => scopes_equivalent m T sa sb depth
  | GenericSig _ sa xa, GenericSig _ sb xb =>
      if negb (Nat.eqb (length xa) (length xb)) then mret false
      else and_then (scopes_equivalent m T sa sb depth) (args_equivalent xa xb)
  | TypeVar x, TypeVar y | MethodVar x, MethodVar y => mret (x =? y)
  | SzArray x, SzArray y | ByRef x, ByRef y => sigs_equivalent x y
  | ArraySig ea ra za la, ArraySig eb rb zb lb =>
      if negb (bool_decide (ra = rb /\ za = zb /\ la = lb)) then mret false else sigs_equivalent ea eb
  | Ptr None, Ptr None => mret true
  | Ptr (Some x), Ptr (Some y) => sigs_equivalent x y
  | TypedByRef, TypedByRef => mret true
  | _, _ => mret false
  end.

Definition sigs_equivalent (m : MetadataFile) (T : Tables) (a b : ModifiedType) (depth : nat) : reading bool :=
  if Nat.leb EQUIV_MAX_DEPTH depth then mret false
  else and_then (mods_equivalent m T (mods a) (mods b) depth) (types_equivalent m T (ty a) (ty b) depth).

(** ** Declarations *)

Inductive DeclParent := ImplementedInterface | AncestorClass | ExternalUnproven | NotAnImpl.

(** [for sig in sigs { if sigs_equivalent(sig, x)? { return .. } }]. *)
Fixpoint any_equivalent (m : MetadataFile) (T : Tables) (sigs : list ModifiedType) (x : ModifiedType) : reading bool :=
  match sigs with
  | [] => mret false
  | sig :: sigs => sigs_equivalent m T sig x 0 ≫= fun e : bool => if e then mret true else any_equivalent m T sigs x
  end.

Definition classify_decl_parent (m : MetadataFile) (T : Tables) (ctx : ClassContext) (decl_sig : ModifiedType) : reading DeclParent :=
  match ty decl_sig with
  | NamedSig _ scope | GenericSig _ scope _ =>
      local_class ← (match scope with
                     | ScopeDefinition index => r ← row T table.TYPE_DEF index; flags ← int r 0; mret (negb (flag flags INTERFACE_FLAG))
                     | ScopeReference _ => mret false
                     end);
      if local_class : bool then mret NotAnImpl
      else
        implemented ← any_equivalent m T (interfaces ctx) decl_sig;
        if implemented : bool then mret ImplementedInterface
        else match scope with
        | ScopeDefinition _ => mret NotAnImpl
        | ScopeReference _ =>
            ancestor ← any_equivalent m T (external_ancestors ctx) decl_sig;
            mret (if ancestor : bool then AncestorClass else ExternalUnproven)
        end
  | _ => mret NotAnImpl
  end.

Inductive DeclClassification := Accessors (owners : list (AccessorOwner * str)) | OrdinaryDecl | UnresolvedDecl.

Definition accessor_owners (tm : TypeMembers) (id : MethodId) : list (AccessorOwner * str) :=
  let hit (acc : option MethodId) := bool_decide (acc = Some id) in
  let other_hit (others : list (option MethodId)) := existsb hit others in
  map (fun p => (OwnerProperty, p_name p))
    (List.filter (fun p => hit (getter p) || hit (setter p) || other_hit (p_other_accessors p))%bool (tm_properties tm))
  ++ map (fun e => (OwnerEvent, e_name e))
    (List.filter (fun e => hit (add e) || hit (remove e) || hit (raise e) || other_hit (e_other_accessors e))%bool (tm_events tm)).

Definition of_local (tm : TypeMembers) (local : MethodId) : DeclClassification :=
  let owners := accessor_owners tm local in
  if is_empty owners then OrdinaryDecl else Accessors owners.

Definition into_semantics (c : DeclClassification) : list DeclSemantics :=
  match c with
  | Accessors owners => map (fun '(kind, name) => Accessor kind name) owners
  | OrdinaryDecl => [OrdinaryMethod]
  | UnresolvedDecl => [Unresolved]
  end.

(** [rid << 2] on [u32]. *)
Definition type_def_or_ref_coded (tbl rid : Z) : option Z :=
  let coded tag := Some (Z.lor (Z.shiftl rid 2 mod 4294967296) tag) in
  if tbl =? table.TYPE_DEF then coded 0
  else if tbl =? table.TYPE_REF then coded 1
  else if tbl =? table.TYPE_SPEC then coded 2
  else None.

Definition rets_equivalent (m : MetadataFile) (T : Tables) (a b : RetType) : reading bool :=
  match a, b with
  | RetVoid x, RetVoid y => mods_equivalent m T x y 0
  | RetOf x, RetOf y => sigs_equivalent m T x y 0
  | _, _ => mret false
  end.

Fixpoint params_equivalent (m : MetadataFile) (T : Tables) (a b : list ModifiedType) : reading bool :=
  match a, b with
  | x :: a, y :: b => and_then (sigs_equivalent m T x y 0) (params_equivalent m T a b)
  | _, _ => mret true
  end.

Definition method_sigs_equivalent (m : MetadataFile) (T : Tables) (it : ImageTables) (a b : list Z) : reading bool :=
  match decode_method_sig a it, decode_method_sig b it with
  | Ok da, Ok db =>
      if negb (Bool.eqb (has_this da) (has_this db) && Bool.eqb (explicit_this da) (explicit_this db)
               && bool_decide (calling_convention da = calling_convention db)
               && Nat.eqb (length (param_types da)) (length (param_types db)))%bool then mret false
      else and_then (rets_equivalent m T (return_type da) (return_type db)) (params_equivalent m T (param_types da) (param_types db))
  | _, _ => mret false
  end.

(** The loop over the methods of a run. *)
Fixpoint find_method (m : MetadataFile) (T : Tables) (it : ImageTables) (name : str) (wanted : list Z) (start : Z) (rids : list Z)
    : reading (option MethodId) :=
  match rids with
  | [] => mret None
  | rid :: rids =>
      i ← sub_u32 rid 1;
      r ← row T table.METHOD_DEF i;
      n ← string r 3;
      if negb (str_eqb n name) then find_method m T it name wanted start rids
      else
        o ← int r 4;
        candidate ← blob_at m o;
        same ← (if bool_decide (candidate = wanted) then mret true else method_sigs_equivalent m T it candidate wanted);
        if same : bool then mret (Some (rid - start)) else find_method m T it name wanted start rids
  end.

Definition local_method_by_name_and_sig (m : MetadataFile) (T : Tables) (it : ImageTables) (method_starts : list Z) (owner : Z) (name : str) (sig : Z)
    : reading (option MethodId) :=
  match (if 0 <=? owner then method_starts !! Z.to_nat owner else None) with
  | None => mret None
  | Some start =>
      count ← row_count T table.METHOD_DEF;
      last ← add_u32 count 1;
      let end_ := default last (method_starts !! Z.to_nat (owner + 1)) in
      wanted ← blob_at m sig;
      find_method m T it name wanted start (range start end_)
  end.

(** What [MethodSemantics] says of a method of a type that was built. *)
Definition classify_local (members : list TypeMembers) (d : Z) (local : MethodId) : DeclClassification :=
  match members !! Z.to_nat d with Some tm => of_local tm local | None => OrdinaryDecl end.

Definition member_ref_decl_semantics (m : MetadataFile) (T : Tables) (it : ImageTables) (method_starts : list Z) (members : list TypeMembers)
    (parent_coded : Z) (name : str) (sig : Z) : reading DeclClassification :=
  parent ← decode_type_def_or_ref m T it parent_coded;
  match (let? p := parent in Ok (ty p)) with
  | Ok (NamedSig _ (ScopeDefinition owner)) | Ok (GenericSig _ (ScopeDefinition owner) _) =>
      local ← local_method_by_name_and_sig m T it method_starts owner name sig;
      mret (match local with None => UnresolvedDecl | Some local => classify_local members owner local end)
  | _ => mret UnresolvedDecl
  end.

Record ResolvedDecl := { d_parent : Z; d_member : str; d_classification : DeclClassification; d_declaration : result DecodedMethodSig SigError }.

Definition resolve_method_decl (m : MetadataFile) (T : Tables) (it : ImageTables) (method_starts : list Z) (members : list TypeMembers) (decl : Z)
    : reading (option ResolvedDecl) :=
  tok ← decode_coded T MethodDefOrRef decl;
  match tok with
  | None => mret None
  | Some tok =>
      if token_table tok =? table.MEMBER_REF then
        i ← sub_u32 (rid tok) 1;
        mr ← row T table.MEMBER_REF i;
        member ← string mr 1;
        sig ← int mr 2;
        declaration ← blob mr 2;
        p ← coded mr 0;
        parent ← decode_coded T Tables.MemberRefParent p;
        match parent with
        | None => mret None
        | Some parent =>
            match type_def_or_ref_coded (token_table parent) (rid parent) with
            | None => mret None
            | Some c =>
                semantics ← member_ref_decl_semantics m T it method_starts members c member sig;
                mret (Some {| d_parent := c; d_member := member; d_classification := semantics; d_declaration := decode_method_sig declaration it |})
            end
        end
      else if token_table tok =? table.METHOD_DEF then
        '(d, decl_local) ← method_owner method_starts (rid tok) T;
        i ← sub_u32 (rid tok) 1;
        r ← row T table.METHOD_DEF i;
        member ← string r 3;
        declaration ← blob r 4;
        d1 ← add_u32 d 1;
        mret ((fun c => {| d_parent := c; d_member := member; d_classification := classify_local members d decl_local;
                           d_declaration := decode_method_sig declaration it |}) <$> type_def_or_ref_coded table.TYPE_DEF d1)
      else mret None
  end.

(** ** The pass *)

Definition with_methods (f : list Method -> list Method) (tm : TypeMembers) : TypeMembers :=
  {| tm_methods := f (tm_methods tm); tm_fields := tm_fields tm; tm_properties := tm_properties tm; tm_events := tm_events tm |}.

(** What a row may change of a method. *)
Definition with_impls (implements : list InterfaceMemberImpl) (unclassified : list UnclassifiedImpl) (other : bool) (m : Method) : Method :=
  {| token := token m; m_name := m_name m; m_accessibility := m_accessibility m; m_is_static := m_is_static m; is_abstract := is_abstract m;
     is_virtual := is_virtual m; is_final := is_final m; is_new_slot := is_new_slot m; is_hide_by_sig := is_hide_by_sig m;
     is_rt_special_name := is_rt_special_name m; m_generic_params := m_generic_params m; m_signature := m_signature m; m_attributes := m_attributes m;
     m_implements := m_implements m ++ implements; unclassified_impls := unclassified_impls m ++ unclassified;
     has_other_method_impl := (has_other_method_impl m || other)%bool |}.

(** [m.has_other_method_impl = true]. *)
Definition mark_method : Method -> Method := with_impls [] [] true.

(** [out.get_mut(ti).and_then(|tm| tm.methods.get_mut(mi))], if it is there. *)
Definition update_method (f : Method -> Method) (ti mi : Z) (out : list TypeMembers) : list TypeMembers :=
  alter (with_methods (alter f (Z.to_nat mi))) (Z.to_nat ti) out.

(** What the verdict on a row adds to its body. *)
Definition record_impl (verdict : DeclParent) (d : ResolvedDecl) (decl_sig : ModifiedType) (m : Method) : Method :=
  if (negb (is_virtual m || m_is_static m) || is_rt_special_name m)%bool then mark_method m
  else match verdict with
  | ImplementedInterface =>
      with_impls (map (fun semantics => {| i_interface := Ok decl_sig; i_member := d_member d; i_decl := semantics; i_declaration := d_declaration d |})
                    (into_semantics (d_classification d))) [] false m
  | ExternalUnproven => with_impls [] [{| u_parent := decl_sig; u_member := d_member d |}] false m
  | AncestorClass | NotAnImpl => m
  end.

(** [expanded.entry(ti)]: the context of a type is computed once. *)
Definition memo_context (m : MetadataFile) (T : Tables) (it : ImageTables) (interface_impls : list (list Z)) (expanded : gmap Z ClassContext) (ti : Z)
    : reading (ClassContext * gmap Z ClassContext) :=
  match expanded !! ti with
  | Some ctx => mret (ctx, expanded)
  | None => ctx ← class_decl_context m T it interface_impls ti; mret (ctx, <[ti := ctx]> expanded)
  end.

(** The body of the loop over the rows. *)
Definition apply_method_impl (m : MetadataFile) (T : Tables) (it : ImageTables) (method_starts : list Z) (interface_impls : list (list Z))
    (acc : list TypeMembers * gmap Z ClassContext) (i : Z) : reading (list TypeMembers * gmap Z ClassContext) :=
  let '(out, expanded) := acc in
  r ← row T table.METHOD_IMPL i;
  class ← int r 0;
  types ← row_count T table.TYPE_DEF;
  class_idx ← checked_index class types;
  body ← coded r 1;
  decl ← coded r 2;
  body_tok ← decode_coded T MethodDefOrRef body;
  match body_tok with
  | None => mret (out, expanded)
  | Some body_tok =>
      if token_table body_tok =? table.MEMBER_REF then
        k ← sub_u32 (rid body_tok) 1;
        mr ← row T table.MEMBER_REF k;
        name ← string mr 1;
        mret (alter (with_methods (map (fun x => if str_eqb (m_name x) name then mark_method x else x))) (Z.to_nat class_idx) out, expanded)
      else if negb (token_table body_tok =? table.METHOD_DEF) then mret (out, expanded)
      else
        '(ti, mi) ← method_owner method_starts (rid body_tok) T;
        if negb (ti =? class_idx) then mret (out, expanded)
        else
          resolved ← resolve_method_decl m T it method_starts out decl;
          match resolved with
          | None => mret (update_method mark_method ti mi out, expanded)
          | Some d =>
              sig ← decode_type_def_or_ref m T it (d_parent d);
              match sig with
              | Err _ => mret (update_method mark_method ti mi out, expanded)
              | Ok decl_sig =>
                  '(ctx, expanded) ← memo_context m T it interface_impls expanded ti;
                  verdict ← classify_decl_parent m T ctx decl_sig;
                  mret (match verdict with
                        | AncestorClass | NotAnImpl => (update_method mark_method ti mi out, expanded)
                        | _ => (update_method (record_impl verdict d decl_sig) ti mi out, expanded)
                        end)
              end
          end
  end.

Definition apply_method_impls (m : MetadataFile) (T : Tables) (it : ImageTables) (method_starts : list Z) (out : list TypeMembers)
    : reading (list TypeMembers) :=
  n ← row_count T table.METHOD_IMPL;
  if n =? 0 then mret out
  else
    interface_impls ← read_interface_impls T (Z.of_nat (length method_starts));
    '(out, _) ← for_each (apply_method_impl m T it method_starts interface_impls) (out, ∅) (indices n);
    mret out.

(** [read_members] of the code: the members of every type, and what the pass adds. *)
Definition read_members (m : MetadataFile) (T : Tables) (it : ImageTables) (method_starts : list Z) (gps : list (list GenericParam)) (type_count : Z)
    : draining (list TypeMembers) :=
  mt ← lift (read_member_tables T method_starts type_count);
  out ← build_all_members m T it mt gps (indices type_count);
  lift (apply_method_impls m T it method_starts out).
