(* ===== verification/Image.v ===== *)
(** * The whole reader: [read_types] of [assembly/src/reader/typedefs.rs] and
    [parse] of [image.rs] *)

From stdpp Require Import gmap.
From S2P Require Import Prelude Cursor Signature Metadata Tables Manifest ImageModel TypeDefs Members MethodImpls.
Local Open Scope Z_scope.

Record Types := {
  ts_type_defs : list TypeDef; ts_top_level : list TypeDefId; ts_type_refs : list TypeRef; ts_member_refs : list MemberRef;
  ts_assembly_attributes : list RawAttribute }.

(** What the loop over the definitions consumes, by type. *)
Record TypeParts := {
  tp_enclosing : list (option TypeDefId); tp_nested : list (list TypeDefId); tp_interfaces : list (list Z);
  tp_gps : list (list GenericParam); tp_members : list TypeMembers }.

(** The body of the loop over the definitions. *)
Definition build_type_def (m : MetadataFile) (T : Tables) (it : ImageTables) (parts : TypeParts) (i : Z) : draining TypeDef :=
  r ← lift (row T table.TYPE_DEF i);
  flags ← lift (int r 0);
  n ← lift (int r 1);
  name ← lift (string_at m n);
  ns ← lift (int r 2);
  namespace ← lift (string_at m ns);
  extends_coded ← lift (coded r 3);
  extends ← (if extends_coded =? 0 then mret None
             else sig ← lift (decode_type_def_or_ref m T it extends_coded); mret (Some sig));
  toks ← lift (at_index (tp_interfaces parts) i);
  implements ← lift (collect (decode_type_def_or_ref m T it) toks);
  gps ← lift (at_index (tp_gps parts) i);
  enclosing ← lift (at_index (tp_enclosing parts) i);
  nested ← lift (at_index (tp_nested parts) i);
  tm ← lift (at_index (tp_members parts) i);
  attributes ← take_attrs table.TYPE_DEF (i + 1);
  mret {| t_name := {| namespace := namespace; type_name := name |}; t_accessibility := fold_accessibility flags;
          is_interface := flag flags INTERFACE_FLAG; is_sealed := flag flags SEALED_FLAG; extends := extends; t_implements := implements;
          t_generic_params := gps; enclosing := enclosing; nested := nested; methods := tm_methods tm; fields := tm_fields tm;
          properties := tm_properties tm; events := tm_events tm; t_attributes := attributes |}.

(** [(0..count).filter(|&i| enclosing[i].is_none())]. *)
Fixpoint top_level_from (i : Z) (enclosing : list (option TypeDefId)) : list TypeDefId :=
  match enclosing with
  | [] => []
  | e :: enclosing => (match e with None => [i] | Some _ => [] end) ++ top_level_from (i + 1) enclosing
  end.

Definition read_types (m : MetadataFile) : reading Types :=
  T ← Tables_new m;
  ensure_optimized_layout T;;
  type_defs ← row_count T table.TYPE_DEF;
  type_refs ← row_count T table.TYPE_REF;
  let it := {| type_def_rows := type_defs; type_ref_rows := type_refs |} in
  let count := type_defs in
  type_refs ← read_type_refs m T;
  member_refs ← read_member_refs T it;
  method_starts ← read_method_starts T;
  method_count ← row_count T table.METHOD_DEF;
  validate_list_starts method_starts method_count;;
  attrs ← CustomAttributeIndex_build m T method_starts;
  '(enclosing, nested) ← read_nesting T count;
  interface_tokens ← read_interface_impls T count;
  '(gps, attrs) ← read_generic_params m T it count attrs;
  '(members, attrs) ← read_members m T it method_starts (method_gps gps) count attrs;
  let parts := {| tp_enclosing := enclosing; tp_nested := nested; tp_interfaces := interface_tokens; tp_gps := type_gps gps; tp_members := members |} in
  '(defs, attrs) ← drain (build_type_def m T it parts) (indices count) attrs;
  '(assembly_attributes, _) ← take_attrs table.ASSEMBLY 1 attrs;
  mret {| ts_type_defs := defs; ts_top_level := top_level_from 0 enclosing; ts_type_refs := type_refs; ts_member_refs := member_refs;
          ts_assembly_attributes := assembly_attributes |}.

Record Image := {
  assembly : option AssemblyIdentity; assembly_attributes : list RawAttribute; references : list AssemblyIdentity;
  type_defs : list TypeDef; top_level : list TypeDefId; type_refs : list TypeRef; member_refs : list MemberRef;
  resources : list ManifestResource; type_forwarders : list RawTypeForwarder }.

Definition parse (bytes : list Z) : reading Image :=
  m ← MetadataFile_read bytes;
  T ← Tables_new m;
  assembly ← read_assembly T;
  references ← read_assembly_refs T;
  resources ← read_resources T m;
  type_forwarders ← read_type_forwarders T;
  types ← read_types m;
  mret {| assembly := assembly; assembly_attributes := ts_assembly_attributes types; references := references;
          type_defs := ts_type_defs types; top_level := ts_top_level types; type_refs := ts_type_refs types;
          member_refs := ts_member_refs types; resources := resources; type_forwarders := type_forwarders |}.
