(* ===== verification/ImageInv.v ===== *)
(** * What a parsed assembly promises: every handle leads somewhere

    An image is flat tables that refer to each other by index.  [parts] lists what a
    value of the model holds of such references and of attributes, however deep;
    [closed] says that each of them is in range; [image_ok] is the invariant of the
    images that the reader returns. *)

From stdpp Require Import gmap.
From S2P Require Import Prelude Signature Manifest ImageModel TypeDefs Members MethodImpls Image.
Local Open Scope Z_scope.

(** ** References *)

Inductive Link :=
| ToTypeDef (i : TypeDefId)
| ToTypeRef (i : TypeRefId)
| ToAssemblyRef (i : AssemblyRefId)
| ToMemberRef (i : MemberRefId)
| ToMethod (owner : TypeDefId) (i : MethodId).

(** The sizes of the tables; [n_methods] has the number of methods of each type. *)
Record Bounds := { n_methods : list Z; n_type_refs : Z; n_member_refs : Z; n_assembly_refs : Z }.

Definition n_type_defs (B : Bounds) : Z := Z.of_nat (length (n_methods B)).

Definition link_in (B : Bounds) (l : Link) : Prop :=
  match l with
  | ToTypeDef i => 0 <= i < n_type_defs B
  | ToTypeRef i => 0 <= i < n_type_refs B
  | ToAssemblyRef i => 0 <= i < n_assembly_refs B
  | ToMemberRef i => 0 <= i < n_member_refs B
  | ToMethod owner i => 0 <= owner /\ exists n, n_methods B !! Z.to_nat owner = Some n /\ 0 <= i < n
  end.

(** ** What a value holds *)

Inductive Part := HoldsAttribute (a : RawAttribute) | HoldsLink (l : Link).

Class Parts (A : Type) := parts : A -> list Part.

Definition ctor_link (c : MemberHandle) : Link :=
  match c with HandleMethodDef owner method => ToMethod owner method | HandleMemberRef id => ToMemberRef id end.

Definition part_in (B : Bounds) (p : Part) : Prop :=
  match p with HoldsAttribute a => link_in B (ctor_link (ctor a)) | HoldsLink l => link_in B l end.

Definition closed (B : Bounds) {A} `{Parts A} (x : A) : Prop := Forall (part_in B) (parts x).

(** The attributes at any position. *)
Definition attributes {A} `{Parts A} (x : A) : list RawAttribute :=
  omap (fun p => match p with HoldsAttribute a => Some a | HoldsLink _ => None end) (parts x).

#[export] Instance list_parts {A} `{Parts A} : Parts (list A) := flat_map parts.
#[export] Instance option_parts {A} `{Parts A} : Parts (option A) := fun o => match o with Some x => parts x | None => [] end.
#[export] Instance result_parts {A E} `{Parts A} : Parts (result A E) := fun r => match r with Ok x => parts x | Err _ => [] end.

#[export] Instance link_parts : Parts Link := fun l => [HoldsLink l].
#[export] Instance attribute_parts : Parts RawAttribute := fun a => [HoldsAttribute a].

#[export] Instance scope_parts : Parts TypeScope := fun s =>
  [HoldsLink (match s with ScopeDefinition i => ToTypeDef i | ScopeReference i => ToTypeRef i end)].
#[export] Instance mod_parts : Parts CustomMod := fun m => parts (modifier m).

Fixpoint sig_parts (t : TypeSig) : list Part :=
  let modified_parts (m : Modified TypeSig) := parts (mods m) ++ sig_parts (ty m) in
  match t with
  | NamedSig _ scope => parts scope
  | GenericSig _ scope args => parts scope ++ flat_map modified_parts args
  | SzArray m | ByRef m | ArraySig m _ _ _ | Ptr (Some m) => modified_parts m
  | PrimitiveSig _ | TypeVar _ | MethodVar _ | Ptr None | TypedByRef => []
  end.
#[export] Instance sig_has_parts : Parts TypeSig := sig_parts.
#[export] Instance modified_parts : Parts ModifiedType := fun m => parts (mods m) ++ parts (ty m).

#[export] Instance ret_parts : Parts RetType := fun r => match r with RetVoid ms => parts ms | RetOf m => parts m end.
#[export] Instance decoded_sig_parts : Parts DecodedMethodSig := fun s => parts (return_type s) ++ parts (param_types s).

#[export] Instance type_ref_parts : Parts TypeRef := fun r =>
  match r_scope r with
  | Ok (RefAssemblyRef i) => parts (ToAssemblyRef i)
  | Ok (RefNested i) => parts (ToTypeRef i)
  | Ok RefModule | Err _ => []
  end.
#[export] Instance member_ref_parts : Parts MemberRef := fun r =>
  match mr_parent r with ParentTypeDef i => parts (ToTypeDef i) | ParentTypeRef i => parts (ToTypeRef i) | ParentOther => [] end
  ++ parts (mr_signature r).

#[export] Instance constraint_parts : Parts TypeConstraint := fun c => parts (c_ty c) ++ parts (c_attributes c).
#[export] Instance generic_param_parts : Parts GenericParam := fun g => parts (constraints g) ++ parts (g_attributes g).
#[export] Instance param_parts : Parts Param := fun p => parts (a_ty p) ++ parts (a_attributes p).
#[export] Instance method_sig_parts : Parts MethodSig := fun s => parts (s_return_type s) ++ parts (return_attributes s) ++ parts (parameters s).
#[export] Instance impl_parts : Parts InterfaceMemberImpl := fun i => parts (i_interface i) ++ parts (i_declaration i).
#[export] Instance unclassified_parts : Parts UnclassifiedImpl := fun u => parts (u_parent u).
#[export] Instance method_parts : Parts Method := fun m =>
  parts (m_generic_params m) ++ parts (m_signature m) ++ parts (m_attributes m) ++ parts (m_implements m) ++ parts (unclassified_impls m).
#[export] Instance field_parts : Parts Field := fun f => parts (f_signature f) ++ parts (f_attributes f).
#[export] Instance property_parts : Parts Property := fun p => parts (p_signature p) ++ parts (index_parameters p) ++ parts (p_attributes p).
#[export] Instance event_parts : Parts Event := fun e => parts (event_type e) ++ parts (e_attributes e).
#[export] Instance members_parts : Parts TypeMembers := fun tm =>
  parts (tm_methods tm) ++ parts (tm_fields tm) ++ parts (tm_properties tm) ++ parts (tm_events tm).
#[export] Instance type_def_parts : Parts TypeDef := fun d =>
  parts (ToTypeDef <$> enclosing d) ++ parts (ToTypeDef <$> nested d) ++ parts (extends d) ++ parts (t_implements d) ++ parts (t_generic_params d)
  ++ parts (methods d) ++ parts (fields d) ++ parts (properties d) ++ parts (events d) ++ parts (t_attributes d).
#[export] Instance image_parts : Parts Image := fun img =>
  parts (assembly_attributes img) ++ parts (type_defs img) ++ parts (ToTypeDef <$> top_level img) ++ parts (type_refs img) ++ parts (member_refs img).

(** The accessors of properties and events are methods of their own type. *)
Definition property_accessors (p : Property) : list MethodId := omap (fun o => o) (getter p :: setter p :: p_other_accessors p).
Definition event_accessors (e : Event) : list MethodId := omap (fun o => o) (add e :: remove e :: raise e :: e_other_accessors e).

(** ** The invariant *)

Definition bounds_of (img : Image) : Bounds :=
  {| n_methods := map (fun d => Z.of_nat (length (methods d))) (type_defs img); n_type_refs := Z.of_nat (length (type_refs img));
     n_member_refs := Z.of_nat (length (member_refs img)); n_assembly_refs := Z.of_nat (length (references img)) |}.

Definition accessors_in (d : TypeDef) : Prop :=
  Forall (fun k => 0 <= k < Z.of_nat (length (methods d))) (flat_map property_accessors (properties d) ++ flat_map event_accessors (events d)).

(** The token of the row [rid] of the method table. *)
Definition method_token (rid : Z) : Z := Z.lor 0x06000000 rid.

Record image_ok (img : Image) : Prop := {
  io_closed : closed (bounds_of img) img;
  io_accessors : Forall accessors_in (type_defs img);
  io_nested : forall c d p, type_defs img !! c = Some d -> enclosing d = Some p ->
    exists e, type_defs img !! Z.to_nat p = Some e /\ Z.of_nat c ∈ nested e;
  io_top_level : forall i, i ∈ top_level img <-> 0 <= i /\ exists d, type_defs img !! Z.to_nat i = Some d /\ enclosing d = None;
  io_methods : exists n, concat (map (fun d => map token (methods d)) (type_defs img)) = map method_token (range 1 (n + 1)) }.
