(* ===== verification/Attributes.v ===== *)
(** * Custom attributes: [assembly/src/reader/attributes.rs]

    The decoder of attribute blobs (ECMA-335 II.23.3).  The types of the fixed
    arguments are those of the constructor; named arguments describe themselves.
    An index into the image that is out of range is a panic.

    The encoder is that of the unit tests ([attributes_tests.rs]). *)

From stdpp Require Import gmap.
From S2P Require Import Prelude Encoding Cursor Signature Metadata Tables Manifest ImageModel TypeDefs Members Image.
Local Open Scope Z_scope.

(** ** Data *)

Inductive IntegralWidth := WInt32 | WUInt8.

Inductive IntegralParam := PInt32 (n : Z) | PUInt8 (n : Z) | PUInt32 (n : Z) | PInt64 (n : Z).

Inductive FixedArg :=
| ArgString (s : option str)
| ArgBoolean (b : bool)
| ArgIntegral (n : IntegralParam)
| ArgEnum (underlying : IntegralParam) (name : TypeName)
| ArgArray (elems : list FixedArg).

Inductive NamedArgKind := NamedField | NamedProperty.

Record NamedArg := { n_kind : NamedArgKind; n_name : str; n_value : FixedArg }.

Record DecodedAttribute := { owning_type_name : TypeName; fixed_args : list FixedArg; named_args : list NamedArg; raw_blob : option (list Z) }.

Inductive AttrError :=
| AttrTruncated
| AttrMalformed
| UnsupportedElementType (byte : Z)
| UnknownEnumWidth (name : TypeName)
| BadCtorSignature (e : SigError)
| UnsupportedAttributeType.

#[export] Instance TypeName_eq : EqDecision TypeName.
Proof. solve_decision. Defined.
#[export] Program Instance TypeName_countable : Countable TypeName :=
  inj_countable' (fun n => (namespace n, type_name n)) (fun p => {| namespace := p.1; type_name := p.2 |}) _.
Next Obligation. by intros []. Qed.

Definition EnumWidths : Type := gmap TypeName IntegralWidth.
Definition EnumWidths_new : EnumWidths := ∅.
Definition EnumWidths_insert (w : EnumWidths) (name : TypeName) (width : IntegralWidth) : EnumWidths := <[name := width]> w.

Inductive decoding (A : Type) := Decoded (a : A) | Failed (e : AttrError) | AttrPanicked.
Arguments Decoded {A} _.
Arguments Failed {A} _.
Arguments AttrPanicked {A}.

#[export] Instance decoding_ret : MRet decoding := fun A a => Decoded a.
#[export] Instance decoding_bind : MBind decoding := fun A B k m =>
  match m with Decoded a => k a | Failed e => Failed e | AttrPanicked => AttrPanicked end.

Definition ok_or_fail {A} (o : option A) (e : AttrError) : decoding A := match o with Some a => Decoded a | None => Failed e end.
Definition fail_unless (b : bool) (e : AttrError) : decoding unit := if b then Decoded tt else Failed e.

(** A step over the cursor. *)
Definition walking (A : Type) : Type := Cursor -> decoding (A * Cursor).

#[export] Instance walking_ret : MRet walking := fun A a c => Decoded (a, c).
#[export] Instance walking_bind : MBind walking := fun A B k m c => '(a, c) ← m c; k a c.

Definition fail {A} (e : AttrError) : walking A := fun _ => Failed e.
Definition pure {A} (m : decoding A) : walking A := fun c => a ← m; mret (a, c).
(** [c.read().ok_or(AttrError::Truncated)?]. *)
Definition reading_of {A} (read : Cursor -> option (A * Cursor)) : walking A := fun c => ok_or_fail (read c) AttrTruncated.

(** [for _ in 0..n { v.push(f(c)?) }]. *)
Fixpoint repeat_times {A} (n : nat) (f : walking A) : walking (list A) :=
  match n with
  | 0%nat => mret []
  | S n => x ← f; xs ← repeat_times n f; mret (x :: xs)
  end.

(** ** Constants of the wire *)

Definition MAX_ARRAY_DEPTH : nat := 16.
Definition PROLOG : Z := 0x0001.
Definition NULL_STRING : Z := 0xFF.
Definition NULL_ARRAY : Z := 0xFFFFFFFF.
Definition TAG_FIELD : Z := 0x53.
Definition TAG_PROPERTY : Z := 0x54.
Definition ELEM_BOOLEAN : Z := 0x02.
Definition ELEM_U1 : Z := 0x05.
Definition ELEM_I4 : Z := 0x08.
Definition ELEM_STRING : Z := 0x0e.
Definition ELEM_SZARRAY : Z := 0x1d.
Definition ELEM_CMOD_REQD : Z := 0x1f.
Definition ELEM_ENUM : Z := 0x55.

(** ** Scalars and texts *)

Definition read_bool : walking bool := b ← reading_of read_u8; mret (negb (b =? 0)).
Definition read_byte : walking Z := reading_of read_u8.
Definition read_i32 : walking Z := n ← reading_of read_u32; mret (signed 32 n).
Definition read_uint32 : walking Z := reading_of read_u32.
Definition read_i64 : walking Z := n ← reading_of read_u64; mret (signed 64 n).

Definition read_integral (width : IntegralWidth) : walking IntegralParam :=
  match width with
  | WInt32 => n ← read_i32; mret (PInt32 n)
  | WUInt8 => n ← read_byte; mret (PUInt8 n)
  end.

Definition read_ser_string : walking (option str) := fun c =>
  if bool_decide (peek_u8 c = Some NULL_STRING) then
    mret (None, match read_u8 c with Some (_, c) => c | None => c end)
  else
    '(len, c) ← reading_of Cursor_read_compressed_u32 c;
    '(bytes, c) ← reading_of (fun c => read_bytes c len) c;
    s ← ok_or_fail (from_utf8 (map Z.to_N bytes)) AttrMalformed;
    mret (Some s, c).

Definition rsplit_once (sep : char) (s : str) : option (str * str) :=
  match split_once sep (rev s) with Some (a, b) => Some (rev b, rev a) | None => None end.

Definition parse_type_name (s : str) : TypeName :=
  let head := trim (default s (head (split (#c",") s))) in
  match rsplit_once (#c".") head with
  | Some (ns, name) => {| namespace := ns; type_name := name |}
  | None => {| namespace := []; type_name := head |}
  end.

Definition element_byte (t : TypeSig) : Z :=
  match t with
  | PrimitiveSig p => primitive_byte p
  | NamedSig _ _ => 0x12
  | GenericSig _ _ _ => 0x15
  | TypeVar _ => 0x13
  | MethodVar _ => 0x1e
  | SzArray _ => 0x1d
  | ArraySig _ _ _ _ => 0x14
  | Ptr _ => 0x0f
  | ByRef _ => 0x10
  | TypedByRef => 0x16
  end.

(** ** Fixed arguments *)

Section blob.
Context (resolve : TypeScope -> decoding TypeName) (widths : EnumWidths).

(** [peel_ignorable_mods]. *)
Definition peel_ignorable_mods (ms : list CustomMod) : decoding unit :=
  fail_unless (negb (existsb required ms)) (UnsupportedElementType ELEM_CMOD_REQD).

(** The name of an enum and its width. *)
Definition enum_width (scope : TypeScope) : decoding (TypeName * IntegralWidth) :=
  name ← resolve scope;
  width ← ok_or_fail (widths !! name) (UnknownEnumWidth name);
  mret (name, width).

Fixpoint validate_element_type (t : TypeSig) (ms : list CustomMod) : decoding unit :=
  peel_ignorable_mods ms;;
  match t with
  | PrimitiveSig (PBoolean | Int32 | UInt8 | UInt32 | Int64 | PString) => mret tt
  | SzArray inner => validate_element_type (ty inner) (mods inner)
  | NamedSig (Some ValueType | None) scope => enum_width scope;; mret tt
  | other => Failed (UnsupportedElementType (element_byte other))
  end.

(** [read_fixed_arg] and [read_fixed_array]. *)
Fixpoint read_fixed_arg (t : TypeSig) (ms : list CustomMod) : walking FixedArg :=
  pure (peel_ignorable_mods ms);;
  match t with
  | PrimitiveSig PBoolean => b ← read_bool; mret (ArgBoolean b)
  | PrimitiveSig Int32 => n ← read_i32; mret (ArgIntegral (PInt32 n))
  | PrimitiveSig UInt8 => n ← read_byte; mret (ArgIntegral (PUInt8 n))
  | PrimitiveSig UInt32 => n ← read_uint32; mret (ArgIntegral (PUInt32 n))
  | PrimitiveSig Int64 => n ← read_i64; mret (ArgIntegral (PInt64 n))
  | PrimitiveSig PString => s ← read_ser_string; mret (ArgString s)
  | SzArray inner =>
      count ← reading_of read_u32;
      if count =? NULL_ARRAY then fail (UnsupportedElementType ELEM_SZARRAY)
      else
        pure (validate_element_type (ty inner) (mods inner));;
        elems ← repeat_times (Z.to_nat count) (read_fixed_arg (ty inner) (mods inner));
        mret (ArgArray elems)
  | NamedSig (Some ValueType | None) scope =>
      '(name, width) ← pure (enum_width scope);
      underlying ← read_integral width;
      mret (ArgEnum underlying name)
  | other => fail (UnsupportedElementType (element_byte other))
  end.

(** ** Named arguments *)

Inductive DeclaredType := DBoolean | DInt32 | DUInt8 | DString | DEnum (name : TypeName) | DArray (inner : DeclaredType).

(** [levels] is [MAX_ARRAY_DEPTH - depth]. *)
Fixpoint read_declared_type (levels : nat) : walking DeclaredType :=
  match levels with
  | 0%nat => fail AttrMalformed
  | S levels =>
      b ← reading_of read_u8;
      if b =? ELEM_BOOLEAN then mret DBoolean
      else if b =? ELEM_I4 then mret DInt32
      else if b =? ELEM_U1 then mret DUInt8
      else if b =? ELEM_STRING then mret DString
      else if b =? ELEM_ENUM then
        s ← read_ser_string;
        name ← pure (ok_or_fail s AttrMalformed);
        mret (DEnum (parse_type_name name))
      else if b =? ELEM_SZARRAY then inner ← read_declared_type levels; mret (DArray inner)
      else fail (UnsupportedElementType b)
  end.

Fixpoint check_declared_enum_widths (d : DeclaredType) : decoding unit :=
  match d with
  | DEnum name => ok_or_fail (widths !! name) (UnknownEnumWidth name);; mret tt
  | DArray inner => check_declared_enum_widths inner
  | _ => mret tt
  end.

Fixpoint read_declared_value (d : DeclaredType) : walking FixedArg :=
  match d with
  | DBoolean => b ← read_bool; mret (ArgBoolean b)
  | DInt32 => n ← read_i32; mret (ArgIntegral (PInt32 n))
  | DUInt8 => n ← read_byte; mret (ArgIntegral (PUInt8 n))
  | DString => s ← read_ser_string; mret (ArgString s)
  | DEnum name =>
      width ← pure (ok_or_fail (widths !! name) (UnknownEnumWidth name));
      underlying ← read_integral width;
      mret (ArgEnum underlying name)
  | DArray inner =>
      count ← reading_of read_u32;
      if count =? NULL_ARRAY then fail (UnsupportedElementType ELEM_SZARRAY)
      else
        pure (check_declared_enum_widths inner);;
        elems ← repeat_times (Z.to_nat count) (read_declared_value inner);
        mret (ArgArray elems)
  end.

Definition read_named_arg : walking NamedArg :=
  tag ← reading_of read_u8;
  kind ← (if tag =? TAG_FIELD then mret NamedField
          else if tag =? TAG_PROPERTY then mret NamedProperty
          else fail (UnsupportedElementType tag));
  declared ← read_declared_type MAX_ARRAY_DEPTH;
  s ← read_ser_string;
  name ← pure (ok_or_fail s AttrMalformed);
  value ← read_declared_value declared;
  mret {| n_kind := kind; n_name := name; n_value := value |}.

(** ** The blob *)

Fixpoint read_fixed_args (tys : list ModifiedType) : walking (list FixedArg) :=
  match tys with
  | [] => mret []
  | t :: tys => x ← read_fixed_arg (ty t) (mods t); xs ← read_fixed_args tys; mret (x :: xs)
  end.

Definition decode_blob (blob : list Z) (ctor_param_types : list ModifiedType) (owning : TypeName) : decoding DecodedAttribute :=
  '(prolog, c) ← reading_of read_u16 (Cursor_new blob);
  fail_unless (prolog =? PROLOG) AttrMalformed;;
  '(fixed, c) ← read_fixed_args ctor_param_types c;
  '(num_named, c) ← reading_of read_u16 c;
  '(named, c) ← repeat_times (Z.to_nat num_named) read_named_arg c;
  fail_unless (position c =? Z.of_nat (length blob)) AttrMalformed;;
  mret {| owning_type_name := owning; fixed_args := fixed; named_args := named; raw_blob := None |}.
End blob.

(** ** Attributes of an image *)

(** [v[i as usize]]. *)
Definition index_or_panic {A} (v : list A) (i : Z) : decoding A :=
  match (if 0 <=? i then v !! Z.to_nat i else None) with Some a => Decoded a | None => AttrPanicked end.

Definition attribute_owning_type (img : Image) (raw : RawAttribute) : decoding TypeName :=
  match ctor raw with
  | HandleMethodDef td _ => d ← index_or_panic (type_defs img) td; mret (t_name d)
  | HandleMemberRef id =>
      mr ← index_or_panic (member_refs img) id;
      match mr_parent mr with
      | ParentTypeDef d => d ← index_or_panic (type_defs img) d; mret (t_name d)
      | ParentTypeRef r => r ← index_or_panic (type_refs img) r; mret (r_name r)
      | ParentOther => Failed UnsupportedAttributeType
      end
  end.

(** [.map_err(AttrError::BadCtorSignature)?]. *)
Definition sig_or_fail {A} (r : result A SigError) : decoding A := match r with Ok a => Decoded a | Err e => Failed (BadCtorSignature e) end.

Definition ctor_param_types (img : Image) (c : MemberHandle) : decoding (list ModifiedType) :=
  match c with
  | HandleMethodDef td k =>
      d ← index_or_panic (type_defs img) td;
      x ← index_or_panic (methods d) k;
      sig ← sig_or_fail (m_signature x);
      mret (map a_ty (parameters sig))
  | HandleMemberRef id =>
      mr ← index_or_panic (member_refs img) id;
      sig ← sig_or_fail (mr_signature mr);
      mret (param_types sig)
  end.

Definition scope_type_name (img : Image) (scope : TypeScope) : decoding TypeName :=
  match scope with
  | ScopeDefinition d => d ← index_or_panic (type_defs img) d; mret (t_name d)
  | ScopeReference r => r ← index_or_panic (type_refs img) r; mret (r_name r)
  end.

Definition decode_attribute (img : Image) (raw : RawAttribute) (widths : EnumWidths) : decoding DecodedAttribute :=
  owning ← attribute_owning_type img raw;
  tys ← ctor_param_types img (ctor raw);
  decode_blob (scope_type_name img) widths (attr_blob raw) tys owning.

(** ** The encoder of the tests *)

Definition utf8_bytes (s : str) : list Z := map Z.of_N (encode_utf8 s).

Definition enc_ser_string (s : option str) : list Z :=
  match s with
  | None => [0xFF]
  | Some s => compress (Z.of_nat (length (utf8_bytes s))) ++ utf8_bytes s
  end.

Definition enc_integral (v : IntegralParam) : list Z :=
  match v with
  | PInt32 i => to_le_bytes 4 (i mod 2 ^ 32)
  | PUInt8 b => [b]
  | PUInt32 u => to_le_bytes 4 u
  | PInt64 i => to_le_bytes 8 (i mod 2 ^ 64)
  end.

Fixpoint enc_value (v : FixedArg) : list Z :=
  match v with
  | ArgBoolean b => [if b then 1 else 0]
  | ArgIntegral i => enc_integral i
  | ArgString s => enc_ser_string s
  | ArgEnum underlying _ => enc_integral underlying
  | ArgArray elems => to_le_bytes 4 (Z.of_nat (length elems)) ++ flat_map enc_value elems
  end.

(** An array as a named argument is the [unreachable!] of the encoder; here it
    gives no bytes. *)
Definition enc_named_value_type (v : FixedArg) : list Z :=
  match v with
  | ArgBoolean _ => [0x02]
  | ArgIntegral (PInt32 _) => [0x08]
  | ArgIntegral (PUInt8 _) => [0x05]
  | ArgIntegral (PUInt32 _) => [0x09]
  | ArgIntegral (PInt64 _) => [0x0a]
  | ArgString _ => [0x0e]
  | ArgEnum _ name => 0x55 :: enc_ser_string (Some (namespace name ++ #"." ++ type_name name))
  | ArgArray _ => []
  end.

Definition enc_named (n : NamedArg) : list Z :=
  (match n_kind n with NamedField => 0x53 | NamedProperty => 0x54 end)
  :: enc_named_value_type (n_value n) ++ enc_ser_string (Some (n_name n)) ++ enc_value (n_value n).

Definition enc_attribute (fixed : list FixedArg) (named : list NamedArg) : list Z :=
  to_le_bytes 2 PROLOG ++ flat_map enc_value fixed ++ to_le_bytes 2 (Z.of_nat (length named)) ++ flat_map enc_named named.
