(* ===== verification/AttributesThm.v ===== *)
(** * Attribute blobs decode to what was encoded, and never panic

    [walks f bs x] says that a step reads [x] where the bytes [bs] stand; the
    encoders are inverted by composing such facts.  [arg_ok] says which value is an
    argument of a parameter type, without reference to the decoder. *)

From stdpp Require Import gmap.
From S2P Require Import Prelude Encoding Cursor Signature SignatureThm TablesThm Metadata Tables Manifest ImageModel TypeDefs Members Image Attributes.
Local Open Scope Z_scope.

(** ** Steps over known bytes *)

Definition walks {A} (f : walking A) (bs : list Z) (x : A) : Prop :=
  forall c rest, at_ c (bs ++ rest) -> exists c', f c = Decoded (x, c') /\ at_ c' rest /\ data c' = data c.

Lemma walks_ret {A} (x : A) : walks (mret x) [] x.
Proof. intros c rest Hc. by exists c. Qed.

Lemma walks_bind {A B} (f : walking A) (k : A -> walking B) bs bs' x y : walks f bs x -> walks (k x) bs' y -> walks (f ≫= k) (bs ++ bs') y.
Proof.
  intros Hf Hk c rest. rewrite <- app_assoc. intros (c' & E & Hc' & Hd)%Hf. destruct (Hk c' rest Hc') as (c'' & E' & Hc'' & Hd'). exists c''.
  unfold mbind, walking_bind. rewrite E. split; [done|]. split; [done|]. congruence.
Qed.

Lemma walks_map {A B} (f : walking A) (g : A -> B) bs x : walks f bs x -> walks (a ← f; mret (g a)) bs (g x).
Proof. intros Hf. rewrite <- (app_nil_r bs). eapply walks_bind; [exact Hf|apply walks_ret]. Qed.

Lemma walks_pure {A B} (m : decoding A) (k : A -> walking B) bs x y : m = Decoded x -> walks (k x) bs y -> walks (pure m ≫= k) bs y.
Proof. intros -> Hk. apply (walks_bind (pure (Decoded x)) k [] bs x y); [|done]. intros c rest Hc. by exists c. Qed.

Lemma walks_repeat {A} (f : walking A) (enc : A -> list Z) xs : Forall (fun x => walks f (enc x) x) xs ->
  walks (repeat_times (length xs) f) (flat_map enc xs) xs.
Proof.
  induction 1 as [|x xs Hx _ IH]; cbn [length repeat_times flat_map]; [apply walks_ret|]. eapply walks_bind; [exact Hx|]. by apply walks_map.
Qed.

(** ** Scalars *)

Lemma walks_le (n : nat) (v : Z) : 0 <= v < 256 ^ Z.of_nat n -> walks (reading_of (read_le (Z.of_nat n))) (to_le_bytes n v) v.
Proof.
  intros Hv c rest Hc. exists (advance c n). split.
  - destruct Hc as [Hok E]. pose proof (remaining_length c Hok) as Hl. pose proof Hok as (Hp & Hb & Hu).
    pose proof (read_le_exact n c Hb ltac:(lia) Hu) as H. unfold reading_of. rewrite E, length_app, length_to_le_bytes in Hl.
    destruct (read_le (Z.of_nat n) c) as [[v' c']|]; [|lia]. destruct H as (-> & _ & _ & Hval). rewrite (Hval v rest Hv E). done.
  - split; [|done]. rewrite <- (length_to_le_bytes n v). by apply at_advance.
Qed.

Lemma walks_u8 b : byte b -> walks (reading_of read_u8) [b] b.
Proof. intros Hb. pose proof (walks_le 1 b Hb) as H. cbn [to_le_bytes] in H. rewrite Z.mod_small in H by done. exact H. Qed.

Lemma signed_mod bits v : 1 <= bits -> - 2 ^ (bits - 1) <= v < 2 ^ (bits - 1) -> signed bits (v mod 2 ^ bits) = v.
Proof.
  intros Hb Hv. assert (E : 2 ^ bits = 2 * 2 ^ (bits - 1)) by (rewrite <- Z.pow_succ_r by lia; f_equal; lia). unfold signed. rewrite E.
  destruct (Z.lt_ge_cases v 0).
  - rewrite <- (Z.mod_add v 1), Z.mul_1_l, Z.mod_small by lia. rewrite (proj2 (Z.ltb_ge _ _)) by lia. lia.
  - rewrite Z.mod_small by lia. by rewrite (proj2 (Z.ltb_lt _ _)) by lia.
Qed.

Definition i32 (n : Z) : Prop := - 2 ^ 31 <= n < 2 ^ 31.
Definition i64 (n : Z) : Prop := - 2 ^ 63 <= n < 2 ^ 63.

Lemma walks_i32 n : i32 n -> walks read_i32 (to_le_bytes 4 (n mod 2 ^ 32)) n.
Proof.
  intros Hn. pose proof (walks_map _ (signed 32) _ _ (walks_le 4 (n mod 2 ^ 32) ltac:(apply Z.mod_pos_bound; lia))) as H.
  rewrite signed_mod in H by done. exact H.
Qed.

Lemma walks_i64 n : i64 n -> walks read_i64 (to_le_bytes 8 (n mod 2 ^ 64)) n.
Proof.
  intros Hn. pose proof (walks_map _ (signed 64) _ _ (walks_le 8 (n mod 2 ^ 64) ltac:(apply Z.mod_pos_bound; lia))) as H.
  rewrite signed_mod in H by done. exact H.
Qed.

(** The integer has the width of the enum. *)
Definition integral_ok (w : IntegralWidth) (v : IntegralParam) : Prop :=
  match w, v with
  | WInt32, PInt32 n => i32 n
  | WUInt8, PUInt8 n => byte n
  | _, _ => False
  end.

Lemma walks_integral w v : integral_ok w v -> walks (read_integral w) (enc_integral v) v.
Proof.
  destruct w, v as [n|n|n|n]; try done; cbn [integral_ok read_integral enc_integral]; intros Hn.
  - by apply walks_map, walks_i32.
  - by apply walks_map, walks_u8.
Qed.

(** ** Texts *)

Definition text_ok (s : str) : Prop := Forall (fun c => is_scalar c = true) s /\ Z.of_nat (length (utf8_bytes s)) < 536870912.
Definition string_ok (s : option str) : Prop := match s with Some s => text_ok s | None => True end.

Lemma from_utf8_bytes s : Forall (fun c => is_scalar c = true) s -> from_utf8 (map Z.to_N (utf8_bytes s)) = Some s.
Proof. intros Hs. unfold utf8_bytes. rewrite map_map, (map_ext _ (fun b => b)), map_id by apply N2Z.id. by apply from_utf8_encode. Qed.

Lemma compress_head n rest : 0 <= n < 536870912 -> head (compress n ++ rest) <> Some 255.
Proof.
  intros Hn. destruct (compress_pack n Hn) as (w & -> & Hw). destruct w; cbn in Hw |- *; intros [= E]; [lia|..].
  - pose proof (Z.div_lt_upper_bound n 256 64). lia.
  - pose proof (Z.div_lt_upper_bound n 16777216 32). lia.
Qed.

Lemma read_compressed_data c n c' : Cursor_read_compressed_u32 c = Some (n, c') -> data c' = data c.
Proof. unfold Cursor_read_compressed_u32. intros H. by repeat (apply bind_Some in H as ([? ?] & _ & H) || apply bind_Some in H as (? & _ & H) || injection H as _ <-). Qed.

Lemma walks_ser_string s : string_ok s -> walks read_ser_string (enc_ser_string s) s.
Proof.
  destruct s as [s|]; cbn [string_ok enc_ser_string].
  - intros [Hs Hl] c rest Hc. rewrite <- app_assoc in Hc. unfold read_ser_string. rewrite (peek_byte _ _ Hc).
    rewrite bool_decide_false by (apply compress_head; lia).
    destruct (read_compress (Z.of_nat (length (utf8_bytes s))) c _ ltac:(apply u29_spec; lia) Hc) as (c' & E & Hc'). unfold reading_of.
    rewrite E. cbn [ok_or_fail mbind decoding_bind]. exists (advance c' (length (utf8_bytes s))). apply read_compressed_data in E. split; [|split; [by apply at_advance|done]].
    destruct Hc' as [Hok Er]. pose proof (remaining_length c' Hok) as Hlen. rewrite Er, length_app in Hlen. pose proof Hok as (Hp & Hb & Hu).
    unfold read_bytes. rewrite Cursor_take_spec, (proj2 (Z.leb_le _ _)) by lia. fold (remaining c'). rewrite Er, Nat2Z.id, take_app_length.
    cbn [ok_or_fail mbind decoding_bind]. by rewrite from_utf8_bytes.
  - intros _ c rest Hc. unfold read_ser_string. rewrite (peek_byte _ _ Hc). cbn [head app]. rewrite bool_decide_true by done.
    destruct (SignatureThm.read_byte 255 c rest Hc) as [E Hc']. rewrite E. by exists (advance c 1).
Qed.

(** ** Fixed arguments *)

Section args.
Context (resolve : TypeScope -> decoding TypeName) (widths : EnumWidths).

(** The scope names an enum of a known width. *)
Definition enum_of (scope : TypeScope) (name : TypeName) (w : IntegralWidth) : Prop := resolve scope = Decoded name /\ widths !! name = Some w.

(** A parameter type that has arguments: a known primitive, an enum of a known
    width, or an array of such; modifiers must be optional. *)
Fixpoint supported (t : TypeSig) (ms : list CustomMod) : Prop :=
  existsb required ms = false /\
  match t with
  | PrimitiveSig (PBoolean | Int32 | UInt8 | UInt32 | Int64 | PString) => True
  | SzArray inner => supported (ty inner) (mods inner)
  | NamedSig k scope => k <> Some Class_ /\ exists name w, enum_of scope name w
  | _ => False
  end.

(** The arguments of a type. *)
Fixpoint arg_ok (t : TypeSig) (ms : list CustomMod) (v : FixedArg) : Prop :=
  existsb required ms = false /\
  match t, v with
  | PrimitiveSig PBoolean, ArgBoolean _ => True
  | PrimitiveSig Int32, ArgIntegral (PInt32 n) => i32 n
  | PrimitiveSig UInt8, ArgIntegral (PUInt8 n) => byte n
  | PrimitiveSig UInt32, ArgIntegral (PUInt32 n) => 0 <= n < 2 ^ 32
  | PrimitiveSig Int64, ArgIntegral (PInt64 n) => i64 n
  | PrimitiveSig PString, ArgString s => string_ok s
  | SzArray inner, ArgArray elems =>
      supported (ty inner) (mods inner) /\ Z.of_nat (length elems) < NULL_ARRAY /\ Forall (arg_ok (ty inner) (mods inner)) elems
  | NamedSig k scope, ArgEnum u name => k <> Some Class_ /\ exists w, enum_of scope name w /\ integral_ok w u
  | _, _ => False
  end.

Lemma peel_ok ms : existsb required ms = false -> peel_ignorable_mods ms = Decoded tt.
Proof. intros E. unfold peel_ignorable_mods. by rewrite E. Qed.

Lemma enum_width_ok scope name w : enum_of scope name w -> enum_width resolve widths scope = Decoded (name, w).
Proof. intros [E Ew]. unfold enum_width. rewrite E. cbn [mbind decoding_bind]. by rewrite Ew. Qed.

(** The two checks of an element type are the same. *)
Lemma supported_validates t ms : supported t ms -> validate_element_type resolve widths t ms = Decoded tt.
Proof.
  revert ms. induction t using TypeSig_nested_ind; intros ms [Hms Ht]; cbn [validate_element_type]; rewrite peel_ok by done; cbn [mbind decoding_bind]; try done.
  - by destruct p.
  - destruct Ht as (Hk & name & w & He). destruct k as [[]|]; [done|..]; by rewrite (enum_width_ok _ _ _ He).
  - by apply IHt.
Qed.

Lemma walks_fixed_arg t ms v : arg_ok t ms v -> walks (read_fixed_arg resolve widths t ms) (enc_value v) v.
Proof.
  revert ms v. induction t using TypeSig_nested_ind; intros ms v [Hms Hv]; cbn [read_fixed_arg]; (eapply walks_pure; [by apply peel_ok|]); try done.
  - destruct p, v as [s|b|[n|n|n|n]|u n|l]; try done; cbn [enc_value enc_integral].
    + assert (Eb : b = negb ((if b then 1 else 0) =? 0)) by (by destruct b). rewrite Eb at 2. apply (walks_map _ ArgBoolean), (walks_map _ (fun x => negb (x =? 0))), walks_u8.
      destruct b; unfold byte; lia.
    + by apply (walks_map _ (fun n => ArgIntegral (PUInt8 n))), walks_u8.
    + by apply (walks_map _ (fun n => ArgIntegral (PInt32 n))), walks_i32.
    + by apply (walks_map _ (fun n => ArgIntegral (PUInt32 n))), (walks_le 4).
    + by apply (walks_map _ (fun n => ArgIntegral (PInt64 n))), walks_i64.
    + by apply walks_map, walks_ser_string.
  - destruct v as [|?|?|u name|?]; try done. destruct Hv as (Hk & w & He & Hu).
    destruct k as [[]|]; [done|..]; (eapply walks_pure; [by apply enum_width_ok|]); cbn [enc_value];
      by apply (walks_map _ (fun u => ArgEnum u name)), walks_integral.
  - destruct v as [| | | |elems]; try done. destruct Hv as (Hsup & Hlen & Hel). cbn [enc_value]. eapply walks_bind; [apply (walks_le 4); unfold NULL_ARRAY in Hlen; lia|].
    rewrite (proj2 (Z.eqb_neq _ _)) by lia. eapply walks_pure; [by apply supported_validates|]. rewrite Nat2Z.id. apply (walks_map _ ArgArray), walks_repeat.
    eapply Forall_impl; [exact Hel|]. intros v. apply IHt.
Qed.

Lemma walks_fixed_args tys fixed : Forall2 (fun t v => arg_ok (ty t) (mods t) v) tys fixed ->
  walks (read_fixed_args resolve widths tys) (flat_map enc_value fixed) fixed.
Proof.
  induction 1 as [|t v tys fixed Hv _ IH]; cbn [read_fixed_args flat_map]; [apply walks_ret|]. eapply walks_bind; [by apply walks_fixed_arg|].
  by apply walks_map.
Qed.

(** ** Named arguments *)

(** Characters that a serialised type name keeps as they are. *)
Definition name_char (c : char) : Prop := is_scalar c = true /\ c <> #c"," /\ is_whitespace c = false.
Definition enum_name_ok (n : TypeName) : Prop :=
  Forall name_char (namespace n) /\ Forall name_char (type_name n) /\ Forall (fun c => c <> #c".") (type_name n)
  /\ text_ok (namespace n ++ #"." ++ type_name n).

Definition named_ok (n : NamedArg) : Prop :=
  text_ok (n_name n) /\
  match n_value n with
  | ArgBoolean _ => True
  | ArgIntegral (PInt32 n) => i32 n
  | ArgIntegral (PUInt8 n) => byte n
  | ArgString s => string_ok s
  | ArgEnum u name => enum_name_ok name /\ exists w, widths !! name = Some w /\ integral_ok w u
  | _ => False
  end.

Lemma split_once_first c a b : Forall (fun x => x <> c) a -> split_once c (a ++ c :: b) = Some (a, b).
Proof. induction 1 as [|x a Hx _ IH]; cbn [app split_once]; [by rewrite N.eqb_refl|]. apply N.eqb_neq in Hx. by rewrite Hx, IH. Qed.

Lemma parse_enum_name n : enum_name_ok n -> parse_type_name (namespace n ++ #"." ++ type_name n) = n.
Proof.
  intros (Hns & Hn & Hdot & _). unfold parse_type_name. cbv zeta.
  assert (Hall : Forall name_char (namespace n ++ #"." ++ type_name n)).
  { apply Forall_app. split; [done|]. apply Forall_app. split; [|done]. repeat constructor; done. }
  rewrite split_no_sep by (eapply Forall_impl; [exact Hall|]; by intros c (_ & Hc & _)). cbn [head default from_option id].
  rewrite trim_no_ws by (eapply Forall_impl; [exact Hall|]; by intros c (_ & _ & Hc)). unfold rsplit_once.
  assert (rev (namespace n ++ #"." ++ type_name n) = rev (type_name n) ++ #c"." :: rev (namespace n)) as -> by (by rewrite !rev_app_distr, <- app_assoc).
  rewrite split_once_first by (by apply Forall_rev). rewrite !rev_involutive. by destruct n.
Qed.

(** The type that the encoder writes for a value. *)
Definition declared_of (v : FixedArg) : DeclaredType :=
  match v with
  | ArgBoolean _ => DBoolean
  | ArgIntegral (PInt32 _) => DInt32
  | ArgIntegral _ => DUInt8
  | ArgString _ => DString
  | ArgEnum _ name => DEnum name
  | ArgArray _ => DBoolean
  end.

Lemma walks_declared n levels : named_ok n -> walks (read_declared_type (S levels)) (enc_named_value_type (n_value n)) (declared_of (n_value n)).
Proof.
  intros [_ Hv]. cbn [read_declared_type]. destruct (n_value n) as [s|b|[i|i|i|i]|u name|l]; try done; cbn [enc_named_value_type declared_of].
  1-4: by eapply (walks_bind _ _ [_] []); [apply walks_u8; unfold byte; lia|apply walks_ret].
  destruct Hv as [He _]. eapply (walks_bind _ _ [0x55]); [apply walks_u8; unfold byte; lia|]. cbn -[enc_ser_string read_ser_string pure parse_type_name].
  rewrite <- (app_nil_r (enc_ser_string _)). eapply walks_bind; [apply walks_ser_string; apply He|].
  eapply walks_pure; [done|]. rewrite parse_enum_name by done. apply walks_ret.
Qed.

Lemma walks_declared_value n : named_ok n -> walks (read_declared_value widths (declared_of (n_value n))) (enc_value (n_value n)) (n_value n).
Proof.
  intros [_ Hv]. destruct (n_value n) as [s|b|[i|i|i|i]|u name|l]; try done; cbn [declared_of read_declared_value enc_value enc_integral].
  - by apply walks_map, walks_ser_string.
  - assert (Eb : b = negb ((if b then 1 else 0) =? 0)) by (by destruct b). rewrite Eb at 2. apply (walks_map _ ArgBoolean), (walks_map _ (fun x => negb (x =? 0))), walks_u8.
    destruct b; unfold byte; lia.
  - by apply (walks_map _ (fun n => ArgIntegral (PInt32 n))), walks_i32.
  - by apply (walks_map _ (fun n => ArgIntegral (PUInt8 n))), walks_u8.
  - destruct Hv as (_ & w & Ew & Hu). eapply walks_pure; [by rewrite Ew|]. by apply (walks_map _ (fun u => ArgEnum u name)), walks_integral.
Qed.

Lemma walks_named n : named_ok n -> walks (read_named_arg widths) (enc_named n) n.
Proof.
  destruct n as [k name v]. intros Hn. pose proof (walks_declared _ 15 Hn) as Hd. pose proof (walks_declared_value _ Hn) as Hv. destruct Hn as [Hname _]. cbn [n_kind n_name n_value] in *.
  unfold read_named_arg, enc_named. cbn [n_kind n_name n_value]. set (tag := match k with NamedField => 0x53 | NamedProperty => 0x54 end).
  apply (walks_bind _ _ [tag] _ tag); [apply walks_u8; subst tag; destruct k; unfold byte; lia|].
  apply (walks_bind _ _ [] _ k); [subst tag; destruct k; apply walks_ret|].
  eapply walks_bind; [exact Hd|]. eapply walks_bind; [by apply (walks_ser_string (Some name))|]. eapply walks_pure; [done|].
  by apply (walks_map _ (fun v => {| n_kind := k; n_name := name; n_value := v |})).
Qed.
End args.

(** ** Nothing panics *)

Definition settles {A} (m : decoding A) : Prop := m <> AttrPanicked.
Definition settling {A} (f : walking A) : Prop := forall c, settles (f c).

Lemma settles_bind {A B} (m : decoding A) (k : A -> decoding B) : settles m -> (forall a, m = Decoded a -> settles (k a)) -> settles (m ≫= k).
Proof. destruct m; intros Hm Hk; [by apply Hk|done|done]. Qed.

Lemma settling_bind {A B} (f : walking A) (k : A -> walking B) : settling f -> (forall a, settling (k a)) -> settling (f ≫= k).
Proof. intros Hf Hk c. apply settles_bind; [apply Hf|]. intros [a c'] _. apply Hk. Qed.

Lemma settling_ret {A} (a : A) : settling (mret a).
Proof. done. Qed.

Lemma settling_read {A} (f : Cursor -> option (A * Cursor)) : settling (reading_of f).
Proof. intros c. unfold reading_of. by destruct (f c). Qed.

Lemma settling_pure {A} (m : decoding A) : settles m -> settling (pure m).
Proof. intros Hm c. by destruct m. Qed.

Lemma settles_ok_or {A} (o : option A) e : settles (ok_or_fail o e).
Proof. by destruct o. Qed.

Lemma settles_unless b e : settles (fail_unless b e).
Proof. by destruct b. Qed.

Lemma settling_fail {A} e : settling (@fail A e).
Proof. done. Qed.

Create HintDb settle.
#[local] Hint Resolve settling_bind settling_ret settling_read settling_pure settles_ok_or settles_unless settling_fail : settle.

Lemma settling_repeat {A} n (f : walking A) : settling f -> settling (repeat_times n f).
Proof. intros Hf. induction n; cbn [repeat_times]; auto 6 with settle. Qed.

Lemma settling_ser_string : settling read_ser_string.
Proof.
  intros c. unfold read_ser_string. destruct (bool_decide _); [done|]. apply settles_bind; [apply settling_read|]. intros [len c'] _.
  apply settles_bind; [apply settling_read|]. intros [bytes c''] _. apply settles_bind; [apply settles_ok_or|done].
Qed.

Lemma settling_integral w : settling (read_integral w).
Proof. destruct w; unfold read_integral, read_i32, read_byte; auto 6 with settle. Qed.
#[local] Hint Resolve settling_repeat settling_ser_string settling_integral : settle.

Section settle.
Context (resolve : TypeScope -> decoding TypeName) (widths : EnumWidths).

(** Every enum that an argument of the type needs has a name. *)
Fixpoint resolves (t : TypeSig) : Prop :=
  match t with
  | SzArray inner => resolves (ty inner)
  | NamedSig _ scope => settles (resolve scope)
  | _ => True
  end.

Lemma settles_enum scope : settles (resolve scope) -> settles (enum_width resolve widths scope).
Proof. intros Hr. apply settles_bind; [done|]. intros name _. apply settles_bind; [apply settles_ok_or|done]. Qed.

Lemma settles_validate t ms : resolves t -> settles (validate_element_type resolve widths t ms).
Proof.
  revert ms. induction t using TypeSig_nested_ind; intros ms Ht; cbn [validate_element_type]; (apply settles_bind; [apply settles_unless|]; intros _ _); try done.
  - by destruct p.
  - destruct k as [[]|]; [done|..]; (apply settles_bind; [by apply settles_enum|done]).
  - by apply IHt.
Qed.

Lemma settling_fixed_arg t ms : resolves t -> settling (read_fixed_arg resolve widths t ms).
Proof.
  revert ms. induction t using TypeSig_nested_ind; intros ms Ht; cbn [read_fixed_arg]; (apply settling_bind; [apply settling_pure, settles_unless|]; intros _); try done.
  - destruct p; unfold read_bool, read_i32, read_byte, read_uint32, read_i64; auto 6 with settle.
  - destruct k as [[]|]; [done|..]; (apply settling_bind; [by apply settling_pure, settles_enum|]; intros [name w]; auto with settle).
  - apply settling_bind; [apply settling_read|]. intros count. destruct (_ =? _); [done|]. apply settling_bind; [by apply settling_pure, settles_validate|].
    intros _. apply settling_bind; [by apply settling_repeat, IHt|done].
Qed.

Lemma settling_declared levels : settling (read_declared_type levels).
Proof.
  induction levels as [|levels IH]; [done|]. cbn [read_declared_type]. apply settling_bind; [apply settling_read|]. intros b.
  repeat (destruct (_ =? _); [auto 8 with settle|]). done.
Qed.

Lemma settling_declared_value d : settling (read_declared_value widths d).
Proof.
  induction d as [| | | |name|d IH]; cbn [read_declared_value]; unfold read_bool, read_i32, read_byte; auto 6 with settle.
  apply settling_bind; [apply settling_read|]. intros count. destruct (_ =? _); [done|]. apply settling_bind; [|auto with settle].
  apply settling_pure. clear. induction d; cbn [check_declared_enum_widths]; try done. apply settles_bind; [apply settles_ok_or|done].
Qed.

Lemma settling_named : settling (read_named_arg widths).
Proof.
  unfold read_named_arg. apply settling_bind; [apply settling_read|]. intros tag. apply settling_bind; [by repeat destruct (_ =? _)|]. intros kind.
  apply settling_bind; [apply settling_declared|]. intros declared. apply settling_bind; [apply settling_ser_string|]. intros s.
  apply settling_bind; [apply settling_pure, settles_ok_or|]. intros name. apply settling_bind; [apply settling_declared_value|done].
Qed.

Lemma settles_blob blob tys owning : Forall (fun t => resolves (ty t)) tys -> settles (decode_blob resolve widths blob tys owning).
Proof.
  intros Ht. unfold decode_blob. apply settles_bind; [apply settling_read|]. intros [prolog c] _. apply settles_bind; [apply settles_unless|]. intros _ _.
  apply settles_bind. { clear -Ht. revert c. induction Ht as [|t tys Ht _ IH]; [done|]. cbn [read_fixed_args]. apply settling_bind; [by apply settling_fixed_arg|]. intros x. by apply settling_bind. }
  intros [fixed c'] _. apply settles_bind; [apply settling_read|]. intros [n c''] _. apply settles_bind; [apply settling_repeat, settling_named|].
  intros [named c3] _. apply settles_bind; [apply settles_unless|done].
Qed.
End settle.

(** ** The encoder writes bytes *)

Lemma scalar_bytes c : is_scalar c = true -> Forall byte (map Z.of_N (encode_utf8_char c)).
Proof.
  intros Hc. assert (Hlt : (c < 1114112)%N) by (apply orb_true_iff in Hc as [?%N.ltb_lt|[_ ?]%in_range_spec]; lia). unfold encode_utf8_char.
  assert (Hm : forall n, (n mod 64 < 64)%N) by (intros n; apply N.mod_lt; lia).
  pose proof (Hm c). pose proof (Hm (c / 64)%N). pose proof (Hm (c / 4096)%N).
  destruct (N.ltb_spec c 128); [|destruct (N.ltb_spec c 2048); [|destruct (N.ltb_spec c 65536)]];
    [|pose proof (N.Div0.div_lt_upper_bound c 64 32 ltac:(lia))|pose proof (N.Div0.div_lt_upper_bound c 4096 16 ltac:(lia))|pose proof (N.Div0.div_lt_upper_bound c 262144 8 ltac:(lia))];
    cbn [map]; rewrite ?Forall_cons, ?Forall_nil; unfold byte; split_and!; first [done|apply N2Z.is_nonneg|lia].
Qed.

Lemma text_bytes s : text_ok s -> Forall byte (utf8_bytes s).
Proof.
  intros [Hs _]. unfold utf8_bytes, encode_utf8. rewrite concat_map. apply Forall_concat, Forall_map, Forall_map. eapply Forall_impl; [exact Hs|]. apply scalar_bytes.
Qed.

Lemma ser_string_bytes s : string_ok s -> Forall byte (enc_ser_string s).
Proof.
  destruct s as [s|]; [|by repeat constructor]. intros Hs. apply Forall_app. split; [apply byte_compress, u29_spec; destruct Hs; lia|by apply text_bytes].
Qed.

Lemma integral_bytes v : (forall n, v = PUInt8 n -> byte n) -> Forall byte (enc_integral v).
Proof. intros Hv. destruct v; cbn [enc_integral]; [apply to_le_bytes_bytes| |apply to_le_bytes_bytes..]. apply Forall_singleton. by apply Hv. Qed.

Lemma integral_ok_bytes w v : integral_ok w v -> Forall byte (enc_integral v).
Proof. intros Hv. apply integral_bytes. intros n ->. by destruct w. Qed.

Section bytes.
Context (resolve : TypeScope -> decoding TypeName) (widths : EnumWidths).

Lemma arg_bytes t ms v : arg_ok resolve widths t ms v -> Forall byte (enc_value v).
Proof.
  revert ms v. induction t using TypeSig_nested_ind; intros ms v [_ Hv]; try done.
  - destruct p, v as [s|[]|[]|u n|l]; try done; cbn [enc_value]; first [by apply integral_bytes; intros ? [= <-]|by apply ser_string_bytes|by repeat constructor].
  - destruct v as [|?|?|u name|?]; try done. destruct Hv as (_ & w & _ & Hu). by eapply integral_ok_bytes.
  - destruct v as [| | | |elems]; try done. destruct Hv as (_ & _ & Hel). cbn [enc_value]. apply Forall_app. split; [apply to_le_bytes_bytes|].
    apply Forall_flat_map. eapply Forall_impl; [exact Hel|]. intros v. apply IHt.
Qed.

Lemma named_bytes n : named_ok widths n -> Forall byte (enc_named n).
Proof.
  intros [Hn Hv]. unfold enc_named. constructor; [by destruct (n_kind n)|]. rewrite !Forall_app. split_and!.
  - destruct (n_value n) as [s|b|[]|u name|l]; try done; cbn; repeat constructor; try done. apply (ser_string_bytes (Some _)). destruct Hv as [Hv _]. apply Hv.
  - by apply (ser_string_bytes (Some _)).
  - destruct (n_value n) as [s|[]|[]|u name|l]; try done; cbn [enc_value];
      first [by apply ser_string_bytes|by repeat constructor|by apply integral_bytes; intros ? [= <-]|idtac]. destruct Hv as (_ & w & _ & Hu). by eapply integral_ok_bytes.
Qed.

Lemma attribute_bytes tys fixed named : Forall2 (fun t v => arg_ok resolve widths (ty t) (mods t) v) tys fixed -> Forall (named_ok widths) named ->
  Forall byte (enc_attribute fixed named).
Proof.
  intros Hf Hn. unfold enc_attribute. rewrite !Forall_app. split_and!; [apply to_le_bytes_bytes| |apply to_le_bytes_bytes|].
  - apply Forall_flat_map. induction Hf; constructor; [by eapply arg_bytes|done].
  - apply Forall_flat_map. eapply Forall_impl; [exact Hn|]. apply named_bytes.
Qed.
End bytes.

(** ** Theorems *)

(** C27: Decoding inverts encoding.  The blob of well-typed fixed arguments (values of
    the types of the constructor's parameters, whatever optional modifiers these
    carry, arrays of any nesting and enums of known widths included) and of named
    arguments decodes to exactly those arguments; and with bytes after them the blob
    is refused. *)
Theorem attribute_round_trip resolve widths tys fixed named owning rest :
  Forall2 (fun t v => arg_ok resolve widths (ty t) (mods t) v) tys fixed -> Forall (named_ok widths) named -> Z.of_nat (length named) < 65536 ->
  let blob := enc_attribute fixed named ++ rest in
  Forall byte rest -> Z.of_nat (length blob) < usize_bound ->
  decode_blob resolve widths blob tys owning
  = if is_empty rest then Decoded {| owning_type_name := owning; fixed_args := fixed; named_args := named; raw_blob := None |} else Failed AttrMalformed.
Proof.
  intros Hfixed Hnamed Hcount blob Hr Hl.
  assert (Hb : Forall byte blob) by (apply Forall_app; split; [by eapply attribute_bytes|done]). pose proof (at_new blob Hb Hl) as Hat.
  assert (E : blob = to_le_bytes 2 PROLOG ++ flat_map enc_value fixed ++ to_le_bytes 2 (Z.of_nat (length named)) ++ flat_map enc_named named ++ rest)
    by (unfold blob, enc_attribute; by rewrite <- !app_assoc).
  clearbody blob. rewrite E in Hat at 2. clear E.
  unfold decode_blob. destruct (walks_le 2 PROLOG ltac:(unfold PROLOG; lia) _ _ Hat) as (c1 & E1 & H1 & D1). change (Z.of_nat 2) with 2 in E1. unfold read_u16. rewrite E1. cbn [mbind decoding_bind].
  destruct (walks_fixed_args _ _ _ _ Hfixed _ _ H1) as (c2 & E2 & H2 & D2). change (PROLOG =? PROLOG) with true. cbn [fail_unless mbind decoding_bind]. rewrite E2. cbn [mbind decoding_bind].
  destruct (walks_le 2 (Z.of_nat (length named)) ltac:(lia) _ _ H2) as (c3 & E3 & H3 & D3). change (Z.of_nat 2) with 2 in E3. rewrite E3. cbn [mbind decoding_bind]. rewrite Nat2Z.id.
  destruct (walks_repeat _ enc_named named ltac:(by eapply Forall_impl; [exact Hnamed|apply walks_named]) _ _ H3) as (c4 & E4 & [Hok Er] & D4). rewrite E4. cbn [mbind decoding_bind].
  pose proof (remaining_length c4 Hok) as Hlen. rewrite Er, D4, D3, D2, D1 in Hlen. change (data (Cursor_new blob)) with blob in Hlen. unfold position.
  destruct rest as [|b rest]; cbn [is_empty length] in *.
  - by rewrite (proj2 (Z.eqb_eq _ _)) by lia.
  - by rewrite (proj2 (Z.eqb_neq _ _)) by lia.
Qed.

(** A text, an array of numbers under a modifier, an enum in the module, and a named
    flag. *)
Lemma attribute_round_trip_witness :
  let color := {| namespace := #"N"; type_name := #"Color" |} in
  let resolve (s : TypeScope) : decoding TypeName := match s with ScopeDefinition 0 => Decoded color | _ => AttrPanicked end in
  let widths := EnumWidths_insert EnumWidths_new color WUInt8 in
  let tys := [plain (PrimitiveSig PString); Build_Modified [{| required := false; modifier := ScopeDefinition 0 |}] (SzArray (plain (PrimitiveSig Int32)));
              plain (NamedSig (Some ValueType) (ScopeDefinition 0))] in
  let fixed := [ArgString (Some (#"hi")); ArgArray [ArgIntegral (PInt32 (-1)); ArgIntegral (PInt32 7)]; ArgEnum (PUInt8 3) color] in
  let named := [{| n_kind := NamedProperty; n_name := #"Flag"; n_value := ArgBoolean true |}] in
  decode_blob resolve widths (enc_attribute fixed named) tys color
  = Decoded {| owning_type_name := color; fixed_args := fixed; named_args := named; raw_blob := None |}.
Proof.
  intros color resolve widths tys fixed named. rewrite <- (app_nil_r (enc_attribute fixed named)).
  apply (attribute_round_trip resolve widths tys fixed named color []).
  - repeat constructor; try done; try (vm_compute; discriminate); [vm_compute; split; discriminate..|].
    exists WUInt8. split; [split; [reflexivity|vm_compute; reflexivity]|vm_compute; split; [discriminate|reflexivity]].
  - repeat constructor; done.
  - reflexivity.
  - constructor.
  - reflexivity.
Defined.
