(* ===== verification/MembersThm.v ===== *)
(** * The member walk: no row makes it panic, and what it builds is closed

    About [TypeDefs] and [Members]: over accepted tables every step of the walk
    gives a value or a structural error, and the handles it hands out are rows of
    the tables they lead into. *)

From stdpp Require Import gmap.
From S2P Require Import Prelude Order Cursor Signature SignatureThm Metadata Tables Manifest TablesThm MetadataThm ImageModel TypeDefs Members.
From S2P Require Import MethodImpls Image ImageInv.
Local Open Scope Z_scope.

(** ** Postconditions of loops *)

Lemma reads_self {A} (P : A -> Prop) (m : reading A) : reads P m -> reads (fun a => m = Got a /\ P a) m.
Proof. by destruct m. Qed.

Lemma reads_for_each {A S} (I : S -> Prop) (f : S -> A -> reading S) s l :
  I s -> (forall s x, x ∈ l -> I s -> reads I (f s x)) -> reads I (for_each f s l).
Proof.
  revert s. induction l as [|x l IH]; intros s Hs Hf; [done|]. cbn [for_each]. eapply reads_bind; [apply Hf; [by left|done]|].
  intros s' Hs'. apply IH; [done|]. intros s'' y Hy. apply Hf. by right.
Qed.

Lemma reads_collect {A B} (Q : A -> B -> Prop) (f : A -> reading B) l :
  (forall a, a ∈ l -> reads (Q a) (f a)) -> reads (Forall2 Q l) (collect f l).
Proof.
  induction l as [|a l IH]; intros H; [constructor|]. cbn [collect]. eapply reads_bind; [apply H; by left|]. intros b Hb.
  eapply reads_bind; [apply IH; intros x Hx; apply H; by right|]. intros bs Hbs. by constructor.
Qed.

Lemma reads_collect_all {A B} (Q : B -> Prop) (f : A -> reading B) l :
  (forall a, a ∈ l -> reads Q (f a)) -> reads (fun bs => length bs = length l /\ Forall Q bs) (collect f l).
Proof.
  intros H. eapply reads_mono; [apply (reads_collect (fun _ b => Q b)); exact H|]. intros bs Hbs. split; [by rewrite (Forall2_length _ _ _ Hbs)|].
  eapply Forall2_Forall_r; [exact Hbs|]. by apply Forall_true.
Qed.

Lemma reads_ok {A} (P : A -> Prop) (m : reading A) : reads P m -> reads (fun o => forall a, o = Some a -> P a) (ok m).
Proof. destruct m; cbn; [|done..]. by intros H b [= <-]. Qed.

Lemma reads_if {A} (P : A -> Prop) (b : bool) (m n : reading A) :
  (b = true -> reads P m) -> (b = false -> reads P n) -> reads P (if b then m else n).
Proof. destruct b; auto. Qed.

Lemma reads_at_index {A} (v : list A) i : 0 <= i < Z.of_nat (length v) -> reads (fun x => v !! Z.to_nat i = Some x) (at_index v i).
Proof.
  intros Hi. unfold at_index. rewrite (proj2 (Z.leb_le _ _)) by lia. destruct (lookup_lt_is_Some_2 v (Z.to_nat i)) as [x Hx]; [lia|]. by rewrite Hx.
Qed.

Lemma reads_modify {A} (v : list A) i (f : A -> A) : 0 <= i < Z.of_nat (length v) ->
  reads (fun v' => v' = alter f (Z.to_nat i) v) (modify v i f).
Proof. intros Hi. unfold modify. eapply reads_bind; [by apply reads_at_index|]. done. Qed.

Lemma reads_checked_index r count : reads (fun i => i = r - 1 /\ 0 <= i < count) (checked_index r count).
Proof.
  unfold checked_index. cbv zeta. destruct (Z.leb_spec 0 (r - 1)); [|done]. destruct (Z.ltb_spec (r - 1) count); [|done]. cbn. lia.
Qed.

Lemma reads_sub_u32 a b : b <= a -> reads (fun x => x = a - b) (sub_u32 a b).
Proof. intros H. unfold sub_u32. by rewrite (proj2 (Z.ltb_ge _ _)). Qed.

Lemma reads_add_u32 a b : a + b <= u32_max -> reads (fun x => x = a + b) (add_u32 a b).
Proof. intros H. unfold add_u32, checked_add_u32. by rewrite (proj2 (Z.leb_le _ _)). Qed.

Lemma Forall_alter {A} (P : A -> Prop) f i l : Forall P l -> (forall x, P x -> P (f x)) -> Forall P (alter f i l).
Proof.
  intros Hl Hf. apply Forall_lookup. intros j x Hj. rewrite Forall_lookup in Hl. rewrite list_lookup_alter in Hj.
  destruct (decide (i = j)) as [->|_]; [apply fmap_Some in Hj as (y & Hy & ->)|]; eauto.
Qed.

Lemma elem_of_indices n i : i ∈ indices n <-> 0 <= i < n.
Proof.
  unfold indices. rewrite list_elem_of_In, in_map_iff. split.
  - intros (k & <- & Hk%in_seq). lia.
  - intros Hi. exists (Z.to_nat i). rewrite in_seq. lia.
Qed.

Lemma elem_of_range a b i : i ∈ range a b <-> a <= i < b.
Proof.
  unfold range. rewrite list_elem_of_In, in_map_iff. split.
  - intros (k & <- & Hk). rewrite <- list_elem_of_In, elem_of_indices in Hk. lia.
  - intros Hi. exists (i - a). rewrite <- list_elem_of_In, elem_of_indices. lia.
Qed.

Lemma length_indices n : 0 <= n -> Z.of_nat (length (indices n)) = n.
Proof. intros Hn. unfold indices. rewrite length_map, length_seq. lia. Qed.

Lemma length_range a b : a <= b -> Z.of_nat (length (range a b)) = b - a.
Proof. intros H. unfold range. rewrite length_map. apply length_indices. lia. Qed.

(** ** Closed values *)

Section closed.
Context (B : Bounds).

Lemma closed_list {A} `{Parts A} (l : list A) : closed B l <-> Forall (closed B) l.
Proof. unfold closed, parts, list_parts. induction l as [|x l IH]; cbn; [by split; constructor|]. by rewrite Forall_app, Forall_cons, IH. Qed.

Lemma closed_nil {A} `{Parts A} : closed B (@nil A).
Proof. constructor. Qed.
Lemma closed_none {A} `{Parts A} : closed B (@None A).
Proof. constructor. Qed.
Lemma closed_some {A} `{Parts A} (x : A) : closed B x -> closed B (Some x).
Proof. done. Qed.
Lemma closed_ok {A E} `{Parts A} (x : A) : closed B x -> closed B (Ok x : result A E).
Proof. done. Qed.
Lemma closed_err {A E} `{Parts A} (e : E) : closed B (Err e : result A E).
Proof. constructor. Qed.
Lemma closed_app {A} `{Parts A} (l k : list A) : closed B l -> closed B k -> closed B (l ++ k).
Proof. rewrite !closed_list. apply Forall_app_2. Qed.
Lemma closed_link l : closed B l <-> link_in B l.
Proof. unfold closed, parts, link_parts. by rewrite Forall_singleton. Qed.
End closed.

Create HintDb closed.
#[export] Hint Resolve closed_nil closed_none closed_some closed_ok closed_err closed_app : closed.

(** A record is closed when its fields are. *)
Section records.
Context (B : Bounds).

Lemma closed_decoded_sig (s : DecodedMethodSig) : closed B s <-> closed B (return_type s) /\ closed B (param_types s).
Proof. unfold closed. unfold parts at 1, decoded_sig_parts. by rewrite !Forall_app. Qed.
Lemma closed_constraint (c : TypeConstraint) : closed B c <-> closed B (c_ty c) /\ closed B (c_attributes c).
Proof. unfold closed. unfold parts at 1, constraint_parts. by rewrite !Forall_app. Qed.
Lemma closed_generic_param (g : GenericParam) : closed B g <-> closed B (constraints g) /\ closed B (g_attributes g).
Proof. unfold closed. unfold parts at 1, generic_param_parts. by rewrite !Forall_app. Qed.
Lemma closed_param (p : Param) : closed B p <-> closed B (a_ty p) /\ closed B (a_attributes p).
Proof. unfold closed. unfold parts at 1, param_parts. by rewrite !Forall_app. Qed.
Lemma closed_method_sig (s : MethodSig) : closed B s <-> closed B (s_return_type s) /\ closed B (return_attributes s) /\ closed B (parameters s).
Proof. unfold closed. unfold parts at 1, method_sig_parts. by rewrite !Forall_app. Qed.
Lemma closed_impl (i : InterfaceMemberImpl) : closed B i <-> closed B (i_interface i) /\ closed B (i_declaration i).
Proof. unfold closed. unfold parts at 1, impl_parts. by rewrite !Forall_app. Qed.
Lemma closed_method (m : Method) : closed B m <-> closed B (m_generic_params m) /\ closed B (m_signature m) /\ closed B (m_attributes m) /\ closed B (m_implements m) /\ closed B (unclassified_impls m).
Proof. unfold closed. unfold parts at 1, method_parts. by rewrite !Forall_app. Qed.
Lemma closed_field (f : Field) : closed B f <-> closed B (f_signature f) /\ closed B (f_attributes f).
Proof. unfold closed. unfold parts at 1, field_parts. by rewrite !Forall_app. Qed.
Lemma closed_property (p : Property) : closed B p <-> closed B (p_signature p) /\ closed B (index_parameters p) /\ closed B (p_attributes p).
Proof. unfold closed. unfold parts at 1, property_parts. by rewrite !Forall_app. Qed.
Lemma closed_event (e : Event) : closed B e <-> closed B (event_type e) /\ closed B (e_attributes e).
Proof. unfold closed. unfold parts at 1, event_parts. by rewrite !Forall_app. Qed.
Lemma closed_members (tm : TypeMembers) : closed B tm <-> closed B (tm_methods tm) /\ closed B (tm_fields tm) /\ closed B (tm_properties tm) /\ closed B (tm_events tm).
Proof. unfold closed. unfold parts at 1, members_parts. by rewrite !Forall_app. Qed.
Lemma closed_modified (m : ModifiedType) : closed B m <-> closed B (mods m) /\ closed B (ty m).
Proof. unfold closed. unfold parts at 1, modified_parts. by rewrite !Forall_app. Qed.
Lemma closed_type_def (d : TypeDef) : closed B d <->
  closed B (ToTypeDef <$> enclosing d) /\ closed B (ToTypeDef <$> nested d) /\ closed B (extends d) /\ closed B (t_implements d)
  /\ closed B (t_generic_params d) /\ closed B (methods d) /\ closed B (fields d) /\ closed B (properties d) /\ closed B (events d)
  /\ closed B (t_attributes d).
Proof. unfold closed. unfold parts at 1, type_def_parts. by rewrite !Forall_app. Qed.
Lemma closed_image (img : Image) : closed B img <->
  closed B (assembly_attributes img) /\ closed B (type_defs img) /\ closed B (ToTypeDef <$> top_level img) /\ closed B (type_refs img)
  /\ closed B (member_refs img).
Proof. unfold closed. unfold parts at 1, image_parts. by rewrite !Forall_app. Qed.
End records.

(** ** Accepted tables *)

(** What the reader knows of the tables it walks. *)
Record accepted (T : Tables) : Prop := {
  acc_tables : tables_ok T;
  acc_small : Z.of_nat (length (tables_bytes (md T))) <= u32_max;
  acc_blobs : in_memory (blobs (md T)) }.

(** The number of rows of a table. *)
Definition cnt (T : Tables) (t : Z) : Z := row_at (rows (md T)) t.

Definition blob_ok (b : list Z) : Prop := Forall byte b /\ Z.of_nat (length b) < usize_bound.

Definition good_token (kind : Coded) (tok : CodedToken) : Prop := 0 <= token_table tok < 64 /\ token_table tok ∈ slots kind /\ 1 <= rid tok.

Lemma slot_range c t : t ∈ slots c -> t <> RESERVED -> 0 <= t < 64.
Proof.
  intros Ht Hr. assert (H : Forall (fun t => t <> RESERVED -> 0 <= t < 64) (slots c)); [|rewrite Forall_forall in H; by apply H].
  destruct c; repeat constructor; intros; (done || lia).
Qed.

Section walk.
Context (T : Tables) (HT : accepted T).

Lemma cnt_lookup t : 0 <= t < 64 -> rows (md T) !! Z.to_nat t = Some (cnt T t).
Proof using HT.
  intros Ht. destruct (acc_tables _ HT) as [Hm _]. pose proof (wf_rows _ Hm).
  destruct (nth_lookup_or_length (rows (md T)) (Z.to_nat t) 0) as [E|]; [exact E|lia].
Qed.

Lemma row_count_got t : 0 <= t < 64 -> row_count T t = Got (cnt T t).
Proof using HT. intros Ht. unfold row_count, index, get. rewrite (proj2 (Z.leb_le _ _)) by lia. by rewrite cnt_lookup. Qed.

Lemma cnt_range t : 0 <= t < 64 -> 0 <= cnt T t < u32_max.
Proof using HT.
  intros Ht. pose proof (cnt_lookup t Ht) as E. destruct HT as [[Hm HN] Hsmall _]. pose proof (wf_counts _ Hm) as Hc. rewrite Forall_lookup in Hc. specialize (Hc _ _ E).
  destruct (new_layout _ T _ _ Hm HN E) as (s & o & _ & _ & _ & Ho & Hend & _ & Hs).
  destruct Hs as [[-> _]|(cols & Ec & ->)]; [unfold u32_max; lia|]. destruct (new_widths _ T HN) as [_ Hw].
  assert (Hcols : 2 <= row_width cols (widths T) (rows (md T))); [|unfold u32_max in *; nia].
  destruct cols as [|c cols].
  - exfalso. unfold schema in Ec. destruct (_ <=? _); [|done]. apply list_elem_of_lookup_2 in Ec.
    assert (Hall : Forall (fun cols => cols <> []) schemas) by (by repeat constructor). rewrite Forall_forall in Hall. by apply (Hall []).
  - pose proof (row_width_nonneg cols _ (rows (md T)) Hw). unfold row_width in *. cbn. destruct (Col_width_cases c _ (rows (md T)) Hw); lia.
Qed.

(** A row that is read is there. *)
Lemma table_row t r : 0 <= t < 64 -> 0 <= r -> reads (fun R => good_row T t R /\ r < cnt T t) (row T t r).
Proof using HT.
  intros Ht Hr. pose proof (row_reads T (acc_tables _ HT) (Z.to_nat t) r ltac:(lia) Hr) as H. rewrite Z2Nat.id in H by lia.
  pose proof (row_count_got t Ht) as Ec. unfold row_count in Ec. unfold row in *. rewrite Ec in *. cbn [mbind reading_bind] in *.
  destruct (Z.leb_spec (cnt T t) r); [done|]. cbn [negb refuse_unless mbind reading_bind] in *. eapply reads_mono; [exact H|]. auto.
Qed.

Lemma column_reads t R (col : nat) c cols : good_row T t R -> schema t = Some cols -> cols !! col = Some c -> reads (fun v => 0 <= v) (uint R (Z.of_nat col)).
Proof using HT. intros HR Hs Hc. eapply reads_mono; [by eapply (uint_reads T (acc_tables _ HT))|]. cbn. lia. Qed.

Lemma blob_at_ok o : reads blob_ok (blob_at (md T) o).
Proof using HT.
  unfold blob_at. eapply reads_bind; [apply (reads_ok_or (fun a => part a (blobs (md T)))); intros a; apply part_range|]. intros rest Hrest. cbv beta in *.
  eapply (reads_bind (fun _ => True)); [by apply reads_ok_or|]. intros [l k] _. eapply (reads_bind (fun _ => True)); [by apply reads_ok_or|]. intros e _.
  apply reads_ok_or. intros a Ha%part_range. destruct (in_memory_part a (blobs (md T))) as [Hb Hl]; [by eapply part_trans|by apply acc_blobs|].
  split; [done|]. rewrite usize_half in Hl. unfold usize_bound. lia.
Qed.

Lemma string_reads t R (col : nat) c cols : good_row T t R -> schema t = Some cols -> cols !! col = Some c -> reads (fun _ => True) (string R (Z.of_nat col)).
Proof using HT. intros HR Hs Hc. eapply reads_bind; [by eapply column_reads|]. intros v _. apply string_at_reads. Qed.

Lemma blob_reads t R (col : nat) c cols : good_row T t R -> schema t = Some cols -> cols !! col = Some c -> reads blob_ok (blob R (Z.of_nat col)).
Proof using HT.
  intros HR Hs Hc. eapply reads_bind; [by eapply column_reads|]. intros v _. destruct HR as (-> & _). apply blob_at_ok.
Qed.

Lemma token_reads kind v : 0 <= v -> reads (fun o => forall tok, o = Some tok -> good_token kind tok) (decode_coded T kind v).
Proof.
  intros Hv. unfold decode_coded, Coded_decode. destruct (_ =? 0); [done|]. cbv zeta. destruct (slots kind !! _) as [t|] eqn:Es; [|done].
  destruct (Z.eqb_spec t RESERVED) as [|Hr]; [done|]. destruct (Z.eqb_spec (Z.shiftr v (tag_bits kind)) 0) as [|Hz]; [done|]. cbn. intros tok [= <-].
  apply list_elem_of_lookup_2 in Es. split_and!; cbn; [by eapply slot_range|by eapply slot_range|done|]. pose proof (proj2 (Z.shiftr_nonneg v (tag_bits kind)) Hv). lia.
Qed.
End walk.

(** Handles are numbers. *)
Ltac ids := unfold TypeDefId, TypeRefId, AssemblyRefId, MethodId, MemberRefId in *.

(** Steps of a walk over rows. *)
Ltac a_table := split; [discriminate|reflexivity].
Ltac column k := eapply reads_bind; [eapply (column_reads _ ltac:(eassumption) _ _ k); [eassumption|reflexivity|reflexivity]|]; intros ? ?; cbv beta in *.

(** ** Decoded signatures *)

Section decoded.
Context (tables : ImageTables) (B : Bounds) (HD : type_def_rows tables = n_type_defs B) (HR : type_ref_rows tables = n_type_refs B).

Lemma scope_closed s : scope_ok tables s = true -> closed B s.
Proof using HD HR.
  intros H. unfold closed, parts, scope_parts. apply Forall_singleton. destruct s as [i|i]; cbn in *; rewrite !andb_true_iff, Z.leb_le, !Z.ltb_lt in H; lia.
Qed.

Lemma mods_closed ms : mods_ok tables ms = true -> closed B ms.
Proof using HD HR. intros H. apply closed_list, Forall_forall. intros m Hm. apply (scope_closed (modifier m)). unfold mods_ok in H. rewrite forallb_forall in H. apply H. by apply list_elem_of_In. Qed.

Lemma sig_closed t : sig_ok tables t = true -> closed B t.
Proof using HD HR.
  induction t as [p|k s|k s args IH|n|n|m IH|m r ss bs IH| |m IH|m IH| ] using TypeSig_nested_ind; cbn [sig_ok]; try (by constructor).
  - destruct k; [|done]. apply scope_closed.
  - destruct k; [|done]. intros [[Hs _]%andb_true_iff Ha]%andb_true_iff. apply Forall_app. split; [by apply scope_closed|].
    rewrite forallb_forall in Ha. clear -Ha IH HD HR. induction args as [|m args IHa]; [constructor|]. inversion IH as [|? ? Hm Hargs]; subst. cbn.
    destruct (andb_prop _ _ (Ha m (or_introl eq_refl))) as [H1 H2]. apply Forall_app. split; [apply Forall_app; split; [by apply mods_closed|by apply Hm]|].
    apply IHa; [done|]. intros x Hx. apply Ha. by right.
  - intros [H1 H2]%andb_true_iff. apply Forall_app. split; [by apply mods_closed|by apply IH].
  - rewrite !andb_true_iff. intros [[[[[[[H1 H2] _] _] _] _] _] _]. apply Forall_app. split; [by apply mods_closed|by apply IH].
  - intros [H1 H2]%andb_true_iff. apply Forall_app. split; [by apply mods_closed|by apply IH].
  - intros [H1 H2]%andb_true_iff. apply Forall_app. split; [by apply mods_closed|by apply IH].
Qed.

Lemma modified_closed m : modified_ok tables m = true -> closed B m.
Proof using HD HR. intros [H1 H2]%andb_true_iff. apply closed_modified. split; [by apply mods_closed|by apply sig_closed]. Qed.

(** What a decoding that starts at a good cursor gives is closed. *)
Definition closing {A} `{Parts A} (d : decoded A) : Prop := forall x c', d = Ok (x, c') -> cursor_ok c' /\ closed B x.

Lemma closing_decode c depth : cursor_ok c -> closing (decode c tables depth).
Proof using HD HR.
  intros Hc m c' E. destruct (sound_decode tables _ depth _ _ _ Hc E) as [[Hm _]%andb_true_iff [Hc' _]]. split; [done|by apply modified_closed].
Qed.

Lemma closing_times c n : cursor_ok c -> closing (read_times n (fun c => decode c tables 0) c).
Proof using HD HR.
  intros Hc xs c' E. destruct (sound_times _ _ _ n (sound_decode tables _ 0) _ _ _ Hc E) as [[Hx _]%andb_true_iff [Hc' _]]. split; [done|].
  apply closed_list, Forall_forall. intros m Hm. rewrite forallb_forall in Hx. apply modified_closed. apply list_elem_of_In, Hx, andb_true_iff in Hm. tauto.
Qed.

Lemma decode_type_closed b : blob_ok b -> closed B (decode_type b tables).
Proof using HD HR.
  intros [Hb Hl]. unfold decode_type. destruct (decode _ _ _) as [[m c']|] eqn:E; [|constructor]. cbn.
  by apply (closing_decode (Cursor_new b) 0 (proj1 (at_new b Hb Hl)) m c').
Qed.

Lemma need_u8 c : cursor_ok c -> forall b c', need (read_u8 c) = Ok (b, c') -> cursor_ok c'.
Proof. intros Hc b c' E%need_ok. by destruct (read_u8_sound _ _ _ Hc E) as [_ [? _]]. Qed.

Lemma need_u32 c : cursor_ok c -> forall n c', need (Cursor_read_compressed_u32 c) = Ok (n, c') -> cursor_ok c'.
Proof. intros Hc n c' E. by destruct (sound_u32 _ _ _ Hc E) as [_ [? _]]. Qed.

Lemma decode_field_closed b : blob_ok b -> closed B (decode_field_sig b tables).
Proof using HD HR.
  intros [Hb Hl]. unfold decode_field_sig. destruct (need _) as [[tag c]|] eqn:E; [|constructor]. cbn [rbind].
  apply need_u8 in E; [|by apply at_new]. destruct (negb _); [constructor|]. destruct (decode _ _ _) as [[m c']|] eqn:Em; [|constructor].
  by apply (closing_decode c 0 E m c').
Qed.

Lemma decode_property_closed b : blob_ok b -> closed B (decode_property_sig b tables).
Proof using HD HR.
  intros [Hb Hl]. unfold decode_property_sig. destruct (need _) as [[tag c]|] eqn:E; [|constructor]. cbn [rbind].
  apply need_u8 in E; [|by apply at_new]. destruct (negb _); [constructor|]. destruct (need _) as [[n c1]|] eqn:En; [|constructor]. cbn [rbind].
  apply need_u32 in En; [|done]. destruct (decode _ _ _) as [[m c']|] eqn:Em; [|constructor]. by apply (closing_decode c1 0 En m c').
Qed.

Lemma decode_index_params_closed b : blob_ok b -> closed B (decode_property_index_params b tables).
Proof using HD HR.
  intros [Hb Hl]. unfold decode_property_index_params. destruct (need _) as [[tag c]|] eqn:E; [|constructor]. cbn [rbind].
  apply need_u8 in E; [|by apply at_new]. destruct (negb _); [constructor|]. destruct (need _) as [[n c1]|] eqn:En; [|constructor]. cbn [rbind].
  apply need_u32 in En; [|done]. destruct (decode _ _ _) as [[m c2]|] eqn:Em; [|constructor]. cbn [rbind].
  destruct (closing_decode c1 0 En m c2 Em) as [H2 _]. destruct (read_times _ _ _) as [[ps c3]|] eqn:Ep; [|constructor]. by destruct (closing_times c2 _ H2 ps c3 Ep).
Qed.

Lemma closing_ret c : cursor_ok c -> closing (decode_ret_type c tables).
Proof using HD HR.
  intros Hc r c' E. unfold decode_ret_type, read_mods in E. destruct (read_mods_loop _ _ _ _ _) as [[ms c1]|] eqn:E1; [|done]. cbn [rbind] in E.
  destruct (sound_mods_loop _ _ _ _ _ _ _ Hc E1) as (new & -> & Hms & _ & [Hc1 _]). cbn [app] in *. apply mods_closed in Hms.
  assert (Hty : closing (let? (ty, c) := decode_element c1 tables (length new) in Ok (RetOf (Build_Modified new ty), c))).
  { intros x c2 Ex. destruct (decode_element _ _ _) as [[t c3]|] eqn:Et; [|done]. injection Ex as <- <-. unfold decode_element in Et.
    destruct (sound_element _ _ (sound_decode tables _) _ _ _ _ Hc1 Et) as [[Ht _]%andb_true_iff [Hc3 _]]. split; [done|].
    apply (closed_modified B (Build_Modified new t)). split; [done|by apply sig_closed]. }
  destruct (peek_u8 c1) as [b|]; [|by apply Hty]. destruct (b =? elem.VOID); [|by apply Hty]. injection E as <- <-. split; [|done].
  destruct (read_u8 c1) as [[x c2]|] eqn:Eu; [|done]. by destruct (read_u8_sound _ _ _ Hc1 Eu) as [_ [? _]].
Qed.

Lemma decode_method_closed b : blob_ok b -> closed B (decode_method_sig b tables).
Proof using HD HR.
  intros [Hb Hl]. unfold decode_method_sig. destruct (need _) as [[first c]|] eqn:E; [|constructor]. cbn [rbind].
  apply need_u8 in E; [|by apply at_new]. destruct (read_convention first c) as [[cc c1]|] eqn:Ec; [|constructor]. cbn [rbind].
  assert (H1 : cursor_ok c1).
  { unfold read_convention in Ec. cbv zeta in Ec. destruct (_ =? _); [by injection Ec as _ <-|]. destruct (_ =? _); [by injection Ec as _ <-|]. destruct (_ =? _); [|done].
    destruct (need _) as [[n c2]|] eqn:En; [|done]. injection Ec as _ <-. by eapply need_u32. }
  destruct (need _) as [[n c2]|] eqn:En; [|constructor]. cbn [rbind]. apply need_u32 in En; [|done].
  destruct (decode_ret_type c2 tables) as [[r c3]|] eqn:Er; [|constructor]. cbn [rbind]. destruct (closing_ret c2 En r c3 Er) as [H3 Hr].
  destruct (read_times _ _ _) as [[ps c4]|] eqn:Ep; [|constructor]. cbn [rbind]. destruct (closing_times c3 _ H3 ps c4 Ep) as [_ Hps].
  apply closed_ok, closed_decoded_sig. done.
Qed.

(** The token of a type, read from a column. *)
Lemma resolve_token_closed v : 0 <= v -> closed B (resolve_token v tables).
Proof using HD HR.
  intros Hv. unfold resolve_token. cbv zeta. destruct (Z.eqb_spec (Z.shiftr v 2) 0) as [|Hz]; [constructor|].
  pose proof (proj2 (Z.shiftr_nonneg v 2) Hv) as Hn.
  destruct (Z.land v 3 =? 0), (Z.land v 3 =? 1), (Z.ltb_spec (Z.shiftr v 2 - 1) (type_def_rows tables)), (Z.ltb_spec (Z.shiftr v 2 - 1) (type_ref_rows tables));
    cbn [andb]; first [apply closed_err|apply Forall_singleton; cbn; lia].
Qed.
End decoded.

(** ** Types and references *)

(** The bounds of an image are the row counts of its tables. *)
Record bounded (T : Tables) (B : Bounds) : Prop := {
  bd_defs : n_type_defs B = cnt T table.TYPE_DEF;
  bd_refs : n_type_refs B = cnt T table.TYPE_REF;
  bd_members : n_member_refs B = cnt T table.MEMBER_REF;
  bd_assemblies : n_assembly_refs B = cnt T table.ASSEMBLY_REF }.

Definition image_tables (T : Tables) : ImageTables := {| type_def_rows := cnt T table.TYPE_DEF; type_ref_rows := cnt T table.TYPE_REF |}.

Ltac a_row := eapply reads_bind; [eapply table_row; [eassumption|a_table|try lia]|]; intros ? [? ?]; cbv beta in *.
Ltac a_count := rewrite row_count_got by (assumption || a_table); cbn [mbind reading_bind].
Ltac a_name := eapply (reads_bind (fun _ => True)); [apply string_at_reads|]; intros ? _; cbv beta in *.
Ltac text k := eapply reads_bind; [eapply (string_reads _ ltac:(eassumption) _ _ k); [eassumption|reflexivity|reflexivity]|]; intros ? _; cbv beta in *.
Ltac bytes k := eapply reads_bind; [eapply (blob_reads _ ltac:(eassumption) _ _ k); [eassumption|reflexivity|reflexivity]|]; intros ? ?; cbv beta in *.
Ltac a_token := eapply reads_bind; [apply token_reads; assumption|]; cbv beta.
Ltac an_index := eapply reads_bind; [apply reads_checked_index|]; intros ? [? ?]; cbv beta in *.

Section refs.
Context (T : Tables) (HT : accepted T) (B : Bounds) (HB : bounded T B).
Local Notation it := (image_tables T).

Lemma typespec_blob_reads r : 1 <= r -> reads (fun o => forall b, o = Some b -> blob_ok b) (typespec_blob (md T) T r).
Proof using HT.
  intros Hr. unfold typespec_blob. eapply reads_bind; [by apply reads_sub_u32|]. intros i ->. cbv beta.
  eapply reads_bind; [apply reads_ok; apply table_row; [done|a_table|lia]|]. intros [R|] HR; [|done]. destruct (HR R eq_refl) as [HR' _]. cbv beta.
  column 0%nat. apply reads_ok, blob_at_ok. done.
Qed.

Lemma type_token_reads c : 0 <= c -> reads (closed B) (decode_type_def_or_ref (md T) T it c).
Proof using HT HB.
  intros Hc. unfold decode_type_def_or_ref. cbv zeta. destruct (_ =? TYPE_SPEC_TAG).
  - destruct (Z.eqb_spec (Z.shiftr c 2) 0) as [|Hz]; [apply closed_err|]. pose proof (proj2 (Z.shiftr_nonneg c 2) Hc).
    eapply reads_bind; [apply typespec_blob_reads; lia|]. intros [b|] Hb; [|apply closed_err]. cbn [reads mret reading_ret ok_or rbind].
    apply decode_type_closed; [by rewrite (bd_defs _ _ HB)|by rewrite (bd_refs _ _ HB)|by apply Hb].
  - cbn [reads mret reading_ret]. 
    pose proof (resolve_token_closed it B ltac:(by rewrite (bd_defs _ _ HB)) ltac:(by rewrite (bd_refs _ _ HB)) c Hc) as Hs.
    destruct (resolve_token c it) as [s|]; [|apply closed_err]. apply closed_modified. split; [apply closed_nil|done].
Qed.

Lemma ref_scope_reads c : 0 <= c -> reads (fun s => forall n, closed B {| r_name := n; r_scope := s |}) (resolve_ref_scope T c).
Proof using HT HB.
  intros Hc. unfold resolve_ref_scope. a_token. intros [tok|] Htok; [|constructor]. destruct (Htok tok eq_refl) as (Ht & _ & Hr).
  rewrite row_count_got by done. cbn [mbind reading_bind]. an_index. cbn [reads mret reading_ret]. intros n.
  unfold closed, parts, type_ref_parts. cbn [r_scope].
  repeat (match goal with |- context [if ?a =? ?b then _ else _] => destruct (Z.eqb_spec a b) as [E|_] end;
    [first [rewrite E in *; apply Forall_singleton; cbn; rewrite ?(bd_assemblies _ _ HB), ?(bd_refs _ _ HB); lia|constructor]|]). constructor.
Qed.

Lemma type_refs_reads : reads (fun l => Z.of_nat (length l) = cnt T table.TYPE_REF /\ closed B l) (read_type_refs (md T) T).
Proof using HT HB.
  unfold read_type_refs. a_count. eapply reads_mono; [apply (reads_collect_all (closed B))|].
  - intros i Hi%elem_of_indices. unfold read_type_ref. a_row. column 0%nat. eapply reads_bind; [by apply ref_scope_reads|]. intros s Hs. cbv beta in *.
    column 1%nat. a_name. column 2%nat. a_name. apply Hs.
  - intros l [Hl Hc]. split; [|by apply closed_list]. rewrite Hl. apply length_indices. pose proof (cnt_range T HT table.TYPE_REF ltac:(a_table)). lia.
Qed.

Lemma member_parent_reads c : 0 <= c -> reads (fun p => forall n s, closed B s -> closed B {| mr_name := n; mr_parent := p; mr_signature := s |}) (resolve_member_ref_parent T c).
Proof using HT HB.
  intros Hc. unfold resolve_member_ref_parent. a_token. intros [tok|] Htok; [|done]. destruct (Htok tok eq_refl) as (Ht & _ & Hr). cbn [ok_or_refuse mbind reading_bind].
  rewrite row_count_got by done. cbn [mbind reading_bind]. an_index.
  destruct (Z.eqb_spec (token_table tok) table.TYPE_DEF) as [E|_]; [|destruct (Z.eqb_spec (token_table tok) table.TYPE_REF) as [E|_]].
  - eapply reads_bind; [by apply reads_sub_u32|]. intros ? ->. cbn [reads mret reading_ret]. intros n s Hs. apply Forall_app. split; [|done]. rewrite E in *.
    apply Forall_singleton. cbn. rewrite (bd_defs _ _ HB). lia.
  - eapply reads_bind; [by apply reads_sub_u32|]. intros ? ->. cbn [reads mret reading_ret]. intros n s Hs. apply Forall_app. split; [|done]. rewrite E in *.
    apply Forall_singleton. cbn. rewrite (bd_refs _ _ HB). lia.
  - cbn [reads mret reading_ret]. intros n s Hs. apply Forall_app. split; [constructor|done].
Qed.

Lemma method_sig_closed b : blob_ok b -> closed B (decode_method_sig b it).
Proof using HB. intros Hb. apply decode_method_closed; [by rewrite (bd_defs _ _ HB)|by rewrite (bd_refs _ _ HB)|done]. Qed.

Lemma member_refs_reads : reads (fun l => Z.of_nat (length l) = cnt T table.MEMBER_REF /\ closed B l) (read_member_refs T it).
Proof using HT HB.
  unfold read_member_refs. a_count. eapply reads_mono; [apply (reads_collect_all (closed B))|].
  - intros i Hi%elem_of_indices. unfold read_member_ref. a_row. column 0%nat. eapply reads_bind; [by apply member_parent_reads|]. intros p Hp. cbv beta in *.
    text 1%nat. bytes 2%nat. apply Hp. by apply method_sig_closed.
  - intros l [Hl Hc]. split; [|by apply closed_list]. rewrite Hl. apply length_indices. pose proof (cnt_range T HT table.MEMBER_REF ltac:(a_table)). lia.
Qed.
End refs.

(** ** Nesting and interfaces *)

(** Every enclosing type lists the type it encloses. *)
Definition nesting_ok (count : Z) (st : list (option TypeDefId) * list (list TypeDefId)) : Prop :=
  Z.of_nat (length st.1) = count /\ Z.of_nat (length st.2) = count
  /\ Forall (Forall (fun i => 0 <= i < count)) st.2
  /\ forall c p, st.1 !! c = Some (Some p) -> 0 <= p /\ exists l, st.2 !! Z.to_nat p = Some l /\ Z.of_nat c ∈ l.

(** Lists of coded tokens, one for each type. *)
Definition tokens_ok (count : Z) (l : list (list Z)) : Prop := Z.of_nat (length l) = count /\ Forall (Forall (fun v => 0 <= v)) l.

Section nesting.
Context (T : Tables) (HT : accepted T) (count : Z) (Hcount : 0 <= count).

Lemma nesting_add st child parent : nesting_ok count st -> 0 <= child < count -> 0 <= parent < count ->
  nesting_ok count (alter (fun _ => Some parent) (Z.to_nat child) st.1, alter (fun l => l ++ [child]) (Z.to_nat parent) st.2).
Proof using.
  destruct st as [enc nest]. intros (H1 & H2 & H3 & H4) Hc Hp. unfold nesting_ok. cbn [fst snd] in *. rewrite !length_alter. split_and!; [done|done| |].
  - apply Forall_alter; [done|]. intros l Hl. apply Forall_app. split; [done|]. by apply Forall_singleton.
  - intros c p E. rewrite list_lookup_alter in E. destruct (decide (Z.to_nat child = c)) as [<-|Hne].
    + apply fmap_Some in E as (o & Ho & [= ->]). split; [lia|]. destruct (lookup_lt_is_Some_2 nest (Z.to_nat parent)) as [l Hl]; [lia|].
      exists (l ++ [child]). rewrite list_lookup_alter, decide_True, Hl by done. split; [done|]. rewrite Z2Nat.id by lia. apply elem_of_app. right. by left.
    + destruct (H4 c p E) as (Hp' & l & Hl & Hin). split; [done|]. rewrite list_lookup_alter. destruct (decide _) as [e|]; [rewrite e, Hl|by exists l].
      exists (l ++ [child]). split; [done|]. apply elem_of_app. by left.
Qed.

Lemma nesting_reads : reads (nesting_ok count) (read_nesting T count).
Proof using HT Hcount.
  unfold read_nesting. a_count. apply reads_for_each.
  - unfold nesting_ok. cbn [fst snd]. rewrite !length_replicate. split_and!; [lia|lia|by apply Forall_replicate|].
    intros c p [? _]%lookup_replicate. done.
  - intros [enc nest] i Hi%elem_of_indices Hst. a_row. column 0%nat. unfold typedef_index. an_index. column 1%nat. an_index.
    destruct Hst as (H1' & H2' & Hst). cbn [fst snd] in *. ids. eapply reads_bind; [apply reads_modify; lia|]. intros ? ->. cbv beta. eapply reads_bind; [apply reads_modify; lia|]. intros ? ->.
    apply (nesting_add (enc, nest)); [done|lia|lia].
Qed.

Lemma tokens_push l i v : tokens_ok count l -> 0 <= v -> tokens_ok count (alter (fun l => l ++ [v]) i l).
Proof using. intros [H1 H2] Hv. split; [by rewrite length_alter|]. apply Forall_alter; [done|]. intros x Hx. apply Forall_app. split; [done|]. by apply Forall_singleton. Qed.

Lemma interface_impls_reads : reads (tokens_ok count) (read_interface_impls T count).
Proof using HT Hcount.
  unfold read_interface_impls. a_count. apply reads_for_each.
  - split; [rewrite length_replicate; lia|by apply Forall_replicate].
  - intros l i Hi%elem_of_indices Hl. a_row. column 0%nat. unfold typedef_index. an_index. column 1%nat. destruct Hl as [Hlen Hl].
    eapply reads_mono; [apply reads_modify; lia|]. intros ? ->. by apply tokens_push.
Qed.
End nesting.

(** ** Runs of members *)

(** A list of starts that was validated against a table of [count] rows. *)
Record starts_ok (count : Z) (starts : list Z) : Prop := {
  st_bound : Forall (fun s => 1 <= s <= count + 1) starts;
  st_sorted : forall i a b, starts !! i = Some a -> starts !! S i = Some b -> a <= b;
  st_first : forall s, starts !! 0%nat = Some s -> s = 1 }.

Lemma valid_starts_from limit prev i starts : 1 <= prev -> valid_starts limit prev i starts = true ->
  Forall (fun s => prev <= s <= limit) starts /\ (forall i a b, starts !! i = Some a -> starts !! S i = Some b -> a <= b)
  /\ (i = 0%nat -> forall s, starts !! 0%nat = Some s -> s = 1).
Proof.
  revert prev i. induction starts as [|s starts IH]; intros prev i Hp; [done|]. cbn [valid_starts].
  destruct (Z.ltb_spec limit s) as [|Hl]; [done|]. destruct (Z.ltb_spec s prev) as [|Hs]; [done|]. cbn [orb].
  destruct (Nat.eqb i 0 && negb (s =? 1))%bool eqn:E; [done|]. intros (H1 & H2 & _)%IH; [|lia]. split_and!.
  - constructor; [lia|]. eapply Forall_impl; [exact H1|]. cbn. lia.
  - intros [|j] a b Ha Hb; [|by eapply H2]. cbn in Ha, Hb. injection Ha as <-. rewrite Forall_lookup in H1. apply H1 in Hb. lia.
  - intros -> s' [= <-]. cbn in E. by destruct (Z.eqb_spec s 1).
Qed.

Lemma validate_reads starts count : 0 <= count < u32_max -> reads (fun _ => starts_ok count starts) (validate_list_starts starts count).
Proof.
  intros Hc. unfold validate_list_starts. eapply reads_bind; [apply reads_add_u32; lia|]. intros ? ->. cbv beta.
  eapply reads_mono; [apply reads_unless|]. intros _ (H1 & H2 & H3)%valid_starts_from; [|lia]. split; [done|done|by apply H3].
Qed.

(** The end of the run [i]. *)
Definition run_end (count : Z) (starts : list Z) (i : nat) : Z := default (count + 1) (starts !! S i).

Lemma run_ordered count starts i s : starts_ok count starts -> starts !! i = Some s -> 1 <= s <= run_end count starts i /\ run_end count starts i <= count + 1.
Proof.
  intros [Hb Hs _] Hi. unfold run_end. rewrite Forall_lookup in Hb. pose proof (Hb _ _ Hi). destruct (starts !! S i) as [e|] eqn:E; cbn; [|lia].
  pose proof (Hb _ _ E). pose proof (Hs _ _ _ Hi E). lia.
Qed.

Definition run_sizes (count : Z) (starts : list Z) : list Z := imap (fun i s => run_end count starts i - s) starts.

Lemma run_range_reads count starts i : 0 <= count < u32_max -> starts_ok count starts -> 0 <= i < Z.of_nat (length starts) ->
  reads (fun r => starts !! Z.to_nat i = Some r.1 /\ r.2 = run_end count starts (Z.to_nat i)) (run_range starts i count).
Proof.
  intros Hc Hs Hi. unfold run_range. eapply reads_bind; [by apply reads_at_index|]. intros s Es. cbv beta.
  eapply reads_bind; [apply reads_add_u32; lia|]. intros ? ->. cbn. split; [done|]. unfold run_end. by replace (Z.to_nat (i + 1)) with (S (Z.to_nat i)) by lia.
Qed.

Lemma start_partition_spec p starts : 0 <= partition_point p starts <= Z.of_nat (length starts)
  /\ (forall i s, Z.of_nat i < partition_point p starts -> starts !! i = Some s -> p s = true)
  /\ (forall s, starts !! Z.to_nat (partition_point p starts) = Some s -> p s = false).
Proof.
  induction starts as [|x starts (H1 & H2 & H3)]; cbn [partition_point length]; [split_and!; [lia|lia|done..]|].
  destruct (p x) eqn:E; [|split_and!; [lia|lia|lia|by intros s [= <-]]]. split_and!; [lia|lia| |].
  - intros [|i] s Hi; cbn; [by intros [= <-]|]. apply H2. lia.
  - intros s. replace (Z.to_nat (1 + partition_point p starts)) with (S (Z.to_nat (partition_point p starts))) by lia. cbn. apply H3.
Qed.

Lemma method_owner_reads T B starts r : accepted T -> starts_ok (cnt T table.METHOD_DEF) starts -> n_methods B = run_sizes (cnt T table.METHOD_DEF) starts -> 0 <= r ->
  reads (fun '(owner, k) => link_in B (ToMethod owner k)) (method_owner starts r T).
Proof.
  intros HT Hs HB Hr. unfold method_owner. a_count. eapply reads_bind; [apply reads_unless|]. intros [] Hu. cbv beta zeta.
  apply negb_true_iff, orb_false_iff in Hu as [Hz%Z.eqb_neq Hc%Z.ltb_ge].
  destruct (start_partition_spec (fun start => start <=? r) starts) as (H1 & H2 & H3). set (p := partition_point _ starts) in *. cbv beta in *.
  eapply reads_bind; [apply reads_unless|]. intros [] Hp%Z.leb_le. cbv beta.
  eapply reads_bind; [apply reads_at_index; lia|]. intros s Es. cbv beta in *. pose proof (H2 (Z.to_nat (p - 1)) s ltac:(lia) Es) as Hle%Z.leb_le.
  eapply reads_bind; [by apply reads_sub_u32|]. intros ? ->. cbn. split; [lia|]. rewrite HB. unfold run_sizes. rewrite list_lookup_imap, Es. cbn.
  eexists. split; [done|]. unfold run_end. replace (S (Z.to_nat (p - 1))) with (Z.to_nat p) by lia.
  destruct (starts !! Z.to_nat p) as [e|] ; cbn; [pose proof (proj1 (Z.leb_gt _ _) (H3 _ eq_refl))|]; lia.
Qed.

(** ** The index of attributes *)

(** The attributes that are left are closed, and those under the keys that are kept
    are still there. *)
Record index_ok (B : Bounds) (keep : Z * Z -> Prop) (s0 s : CustomAttributeIndex) : Prop := {
  ix_closed : forall k l, s !! k = Some l -> closed B l;
  ix_kept : forall k, keep k -> s !! k = s0 !! k }.

Section index.
Context (T : Tables) (HT : accepted T) (B : Bounds) (HB : bounded T B) (starts : list Z).
Context (Hstarts : starts_ok (cnt T table.METHOD_DEF) starts) (HM : n_methods B = run_sizes (cnt T table.METHOD_DEF) starts).

Lemma attribute_ctor_reads c : 0 <= c -> reads (fun h => link_in B (ctor_link h)) (resolve_attribute_ctor T starts c).
Proof using HT HB Hstarts HM.
  intros Hc. unfold resolve_attribute_ctor. a_token. intros [tok|] Htok; [|done]. destruct (Htok tok eq_refl) as (Ht & _ & Hr). cbn [ok_or_refuse mbind reading_bind].
  destruct (_ =? table.METHOD_DEF).
  - eapply reads_bind; [eapply method_owner_reads; [done|exact Hstarts|exact HM|lia]|]. by intros [owner k].
  - destruct (_ =? table.MEMBER_REF); [|done]. a_count. an_index. cbn. rewrite (bd_members _ _ HB). lia.
Qed.

Lemma custom_attribute_reads i : 0 <= i -> reads (fun o => forall t r a, o = Some (t, r, a) -> closed B a) (read_custom_attribute (md T) T starts i).
Proof using HT HB Hstarts HM.
  intros Hi. unfold read_custom_attribute. a_row. column 0%nat. a_token. intros [tok|] Htok; [|done]. destruct (Htok tok eq_refl) as (Ht & _ & Hr).
  rewrite row_count_got by done. cbn [mbind reading_bind]. an_index. column 1%nat. eapply reads_bind; [by apply attribute_ctor_reads|]. intros h Hh. cbv beta in *.
  column 2%nat. eapply reads_bind; [by apply blob_at_ok|]. intros b _. cbn. intros t r x [= _ _ <-]. by apply Forall_singleton.
Qed.

Lemma push_closed (s : CustomAttributeIndex) k a : (forall k l, s !! k = Some l -> closed B l) -> closed B a ->
  forall k' l, push_attribute s k a !! k' = Some l -> closed B l.
Proof using.
  intros Hs Ha k' l. unfold push_attribute, CustomAttributeIndex in *. rewrite lookup_insert_Some. intros [[_ <-]|[_ H]]; [|by eapply Hs].
  apply closed_app; [destruct (s !! k) eqn:E; cbn; [by eapply Hs|apply closed_nil]|]. apply closed_list. by apply Forall_singleton.
Qed.

Lemma index_build_reads : reads (fun s => forall k l, s !! k = Some l -> closed B l) (CustomAttributeIndex_build (md T) T starts).
Proof using HT HB Hstarts HM.
  unfold CustomAttributeIndex_build. a_count. apply reads_for_each; [unfold CustomAttributeIndex; intros k l; by rewrite lookup_empty|].
  intros s i [Hi _]%elem_of_indices Hs. eapply reads_bind; [by apply custom_attribute_reads|]. intros [[[t r] a]|] Ha; [|done]. cbn. apply push_closed; [done|by eapply Ha].
Qed.
End index.

(** ** Draining *)

Section drains.
Context (B : Bounds) (keep : Z * Z -> Prop) (s0 : CustomAttributeIndex).

Definition drains {A} (Q : A -> Prop) (f : draining A) : Prop :=
  forall s, index_ok B keep s0 s -> reads (fun '(a, s') => Q a /\ index_ok B keep s0 s') (f s).

Lemma drains_ret {A} (Q : A -> Prop) a : Q a -> drains Q (mret a).
Proof. intros Ha s Hs. by split. Qed.

Lemma drains_bind {A C} (P : A -> Prop) (Q : C -> Prop) (f : draining A) (k : A -> draining C) :
  drains P f -> (forall a, P a -> drains Q (k a)) -> drains Q (f ≫= k).
Proof. intros Hf Hk s Hs. eapply reads_bind; [by apply Hf|]. intros [a s'] [Ha Hs']. by apply Hk. Qed.

Lemma drains_lift {A} (Q : A -> Prop) (m : reading A) : reads Q m -> drains Q (lift m).
Proof. intros Hm s Hs. eapply reads_bind; [exact Hm|]. intros a Ha. by split. Qed.

Lemma drains_lift_bind {A C} (P : A -> Prop) (Q : C -> Prop) (m : reading A) (k : A -> draining C) :
  reads P m -> (forall a, P a -> drains Q (k a)) -> drains Q (lift m ≫= k).
Proof. intros Hm Hk. eapply drains_bind; [by apply drains_lift|done]. Qed.

Lemma drains_take t r : ~ keep (t, r) -> drains (closed B) (take_attrs t r).
Proof.
  intros Hk s [Hc Hkept]. unfold take_attrs. cbn [reads]. split; [|split]; unfold CustomAttributeIndex in *.
  - destruct (s !! (t, r)) as [l|] eqn:E; cbn; [exact (Hc _ _ E)|apply closed_nil].
  - intros k l [_ H]%lookup_delete_Some. by eapply Hc.
  - intros k Hkk. rewrite lookup_delete_ne by (by intros <-). by apply Hkept.
Qed.

Lemma drains_drain {A C} (Q : A -> C -> Prop) (f : A -> draining C) l : (forall a, a ∈ l -> drains (Q a) (f a)) -> drains (Forall2 Q l) (drain f l).
Proof.
  induction l as [|a l IH]; intros H; cbn [drain]; [by apply drains_ret|]. eapply drains_bind; [apply H; by left|]. intros b Hb.
  eapply drains_bind; [apply IH; intros x Hx; apply H; by right|]. intros bs Hbs. apply drains_ret. by constructor.
Qed.

Lemma drains_mono {A} (P Q : A -> Prop) (f : draining A) : drains P f -> (forall a, P a -> Q a) -> drains Q f.
Proof. intros Hf HPQ s Hs. eapply reads_mono; [by apply Hf|]. intros [a s'] [Ha Hs']. split; [by apply HPQ|done]. Qed.

Lemma drains_drain_closed {A C} `{Parts C} (f : A -> draining C) l : (forall a, a ∈ l -> drains (closed B) (f a)) -> drains (closed B) (drain f l).
Proof.
  intros Hf. eapply drains_mono; [apply (drains_drain (fun _ => closed B)); exact Hf|]. intros bs Hbs. apply closed_list.
  eapply Forall2_Forall_r; [exact Hbs|]. by apply Forall_true.
Qed.
End drains.

Ltac lift_row := eapply drains_lift_bind; [eapply table_row; [eassumption|a_table|lia]|]; intros ? [? ?]; cbv beta in *.
Ltac lift_column k := eapply drains_lift_bind; [eapply (column_reads _ ltac:(eassumption) _ _ k); [eassumption|reflexivity|reflexivity]|]; intros ? ?; cbv beta in *.
Ltac lift_text k := eapply drains_lift_bind; [eapply (string_reads _ ltac:(eassumption) _ _ k); [eassumption|reflexivity|reflexivity]|]; intros ? _; cbv beta in *.
Ltac lift_bytes k := eapply drains_lift_bind; [eapply (blob_reads _ ltac:(eassumption) _ _ k); [eassumption|reflexivity|reflexivity]|]; intros ? ?; cbv beta in *.
Ltac lift_index := eapply drains_lift_bind; [by apply reads_sub_u32|]; intros ? ->; cbv beta.
Ltac lift_count := rewrite row_count_got by (assumption || a_table); cbn [lift mbind draining_bind reading_bind].

(** ** Members *)

(** Constraints are tokens; parameters are grouped by their owner. *)
Definition gp_ok (g : GpRow) : Prop := Forall (fun '(tok, _) => 0 <= tok) (gp_constraints g).
Definition owners_ok (types methods : Z) (o : list (list GpRow) * list (list GpRow)) : Prop :=
  (Z.of_nat (length o.1) = types /\ Forall (Forall gp_ok) o.1) /\ (Z.of_nat (length o.2) = methods /\ Forall (Forall gp_ok) o.2).

Section members.
Context (T : Tables) (HT : accepted T) (B : Bounds) (HB : bounded T B).
Context (keep : Z * Z -> Prop) (s0 : CustomAttributeIndex) (Hkeep : forall t r, keep (t, r) -> t = table.TYPE_DEF \/ t = table.ASSEMBLY).
Local Notation it := (image_tables T).
Local Notation drains := (drains B keep s0).

Lemma take_reads t r : t <> table.TYPE_DEF -> t <> table.ASSEMBLY -> drains (closed B) (take_attrs t r).
Proof using Hkeep. intros H1 H2. apply drains_take. intros [|]%Hkeep; done. Qed.

Lemma generic_param_reads gp : gp_ok gp -> drains (closed B) (build_generic_param (md T) T it gp).
Proof using HT HB Hkeep.
  intros Hgp. unfold build_generic_param. cbv zeta. eapply drains_bind; [apply drains_drain_closed|].
  - intros [tok crid] Hin. unfold gp_ok in Hgp. rewrite Forall_forall in Hgp. specialize (Hgp _ Hin). cbv beta iota in *.
    eapply drains_lift_bind; [by apply type_token_reads|]. intros ty Hty. eapply drains_bind; [by apply take_reads|]. intros l Hl. apply drains_ret, closed_constraint. done.
  - intros cs Hcs. eapply drains_bind; [by apply take_reads|]. intros l Hl. apply drains_ret, closed_generic_param. done.
Qed.

Lemma generic_params_reads rs : Forall gp_ok rs -> drains (closed B) (build_generic_params (md T) T it rs).
Proof using HT HB Hkeep.
  intros Hrs. apply drains_drain_closed. intros gp Hgp. apply generic_param_reads. rewrite Forall_forall in Hrs. apply Hrs. by rewrite sort_by_perm in Hgp.
Qed.

Lemma constraints_reads count : 0 <= count -> reads (fun l => Z.of_nat (length l) = count /\ Forall (Forall (fun '(tok, _) => 0 <= tok)) l) (read_constraints T count).
Proof using HT.
  intros Hc. unfold read_constraints. a_count. apply reads_for_each.
  - split; [rewrite length_replicate; lia|by apply Forall_replicate].
  - intros l i Hi%elem_of_indices [Hlen Hl]. a_row. column 0%nat. an_index. column 1%nat. eapply reads_mono; [apply reads_modify; lia|]. intros ? ->.
    split; [by rewrite length_alter|]. apply Forall_alter; [done|]. intros x Hx. apply Forall_app. split; [done|]. by apply Forall_singleton.
Qed.

Lemma gp_push n l i g : Z.of_nat (length l) = n /\ Forall (Forall gp_ok) l -> gp_ok g ->
  Z.of_nat (length (alter (fun l => l ++ [g]) i l)) = n /\ Forall (Forall gp_ok) (alter (fun l => l ++ [g]) i l).
Proof using.
  intros [Hl Hg] Hgp. split; [by rewrite length_alter|]. apply Forall_alter; [done|]. intros x Hx. apply Forall_app. split; [done|]. by apply Forall_singleton.
Qed.

Lemma place_reads cs types methods owners i : Z.of_nat (length cs) = cnt T table.GENERIC_PARAM -> Forall (Forall (fun '(tok, _) => 0 <= tok)) cs ->
  0 <= i < cnt T table.GENERIC_PARAM -> owners_ok types methods owners -> reads (owners_ok types methods) (place_generic_param T cs types methods owners i).
Proof using HT.
  intros Hlen Hcs Hi Ho. unfold place_generic_param. destruct owners as [trs mrs]. a_row. column 2%nat. a_token. intros [tok|] Htok; [|done]. destruct (Htok tok eq_refl) as (Ht & _ & Hr).
  column 0%nat. column 1%nat. text 3%nat. eapply reads_bind; [apply reads_at_index; lia|]. intros l Hl. cbv beta zeta in *.
  rewrite Forall_lookup in Hcs. specialize (Hcs _ _ Hl). destruct Ho as [[Ho1 Ho2] [Ho3 Ho4]]. cbn [fst snd] in *.
  destruct (_ =? table.TYPE_DEF); [|destruct (_ =? table.METHOD_DEF); [|done]].
  - unfold typedef_index. an_index. eapply reads_bind; [apply reads_modify; lia|]. intros ? ->. split; [by apply gp_push|done].
  - an_index. eapply reads_bind; [apply reads_modify; lia|]. intros ? ->. split; [done|by apply gp_push].
Qed.

Lemma read_generic_params_reads count : 0 <= count ->
  drains (fun g => (Z.of_nat (length (type_gps g)) = count /\ Forall (closed B) (type_gps g))
                   /\ Z.of_nat (length (method_gps g)) = cnt T table.METHOD_DEF /\ Forall (closed B) (method_gps g)) (read_generic_params (md T) T it count).
Proof using HT HB Hkeep.
  intros Hc. pose proof (cnt_range T HT table.GENERIC_PARAM ltac:(a_table)) as Hgp. pose proof (cnt_range T HT table.METHOD_DEF ltac:(a_table)) as Hmd.
  unfold read_generic_params. rewrite !row_count_got by (assumption || a_table).
  eapply (drains_lift_bind _ _ _ (fun n => n = cnt T table.GENERIC_PARAM)); [done|]. intros ? ->.
  eapply (drains_lift_bind _ _ _ (fun n => n = cnt T table.METHOD_DEF)); [done|]. intros ? ->.
  eapply drains_lift_bind; [apply constraints_reads; lia|]. intros cs [Hl Hcs]. cbv beta.
  eapply drains_lift_bind; [apply (reads_for_each (owners_ok count (cnt T table.METHOD_DEF)))|].
  - split; cbn; (split; [rewrite length_replicate; lia|by apply Forall_replicate]).
  - intros o i Hi%elem_of_indices Ho. by apply place_reads.
  - intros [trs mrs] [[H1 H2] [H3 H4]]. cbn [fst snd] in *. rewrite Forall_forall in H2, H4.
    eapply drains_bind; [apply (drains_drain _ _ _ (fun _ => closed B)); intros rs Hrs; apply generic_params_reads; by apply H2|]. intros tg Htg. cbv beta.
    eapply drains_bind; [apply (drains_drain _ _ _ (fun _ => closed B)); intros rs Hrs; apply generic_params_reads; by apply H4|]. intros mg Hmg. cbv beta.
    apply drains_ret. cbn. rewrite <- (Forall2_length _ _ _ Htg), <- (Forall2_length _ _ _ Hmg).
    split; (split; [done|eapply Forall2_Forall_r; [eassumption|by apply Forall_true]]).
Qed.

(** ** Lists and accessors *)

Lemma starts_reads t (col : nat) c cols : 0 <= t < 64 -> schema t = Some cols -> cols !! col = Some c ->
  reads (fun l => Z.of_nat (length l) = cnt T t) (read_starts T t (Z.of_nat col)).
Proof using HT.
  intros Ht Hs Hc. unfold read_starts. rewrite row_count_got by done. cbn [mbind reading_bind]. eapply reads_mono; [apply (reads_collect_all (fun _ => True))|].
  - intros i Hi%elem_of_indices. eapply reads_bind; [apply table_row; [done|done|lia]|]. intros R [HR _]. eapply reads_mono; [by eapply column_reads|done].
  - intros l [Hl _]. rewrite Hl. apply length_indices. pose proof (cnt_range T HT t Ht). lia.
Qed.

Lemma constants_reads parent : reads (fun _ => True) (read_constant_values T parent).
Proof using HT.
  unfold read_constant_values. a_count. apply reads_for_each; [done|]. intros map i Hi%elem_of_indices _. a_row. column 1%nat. a_token.
  intros [tok|] Htok; [|done]. destruct (Htok tok eq_refl) as (Ht & _ & Hr). rewrite row_count_got by done. cbn [mbind reading_bind]. an_index.
  destruct (_ =? parent); [|done]. column 0%nat. bytes 2%nat. done.
Qed.

Lemma semantics_reads : reads (fun _ => True) (read_method_semantics T).
Proof using HT.
  unfold read_method_semantics. rewrite !row_count_got by (assumption || a_table). cbn [mbind reading_bind]. apply reads_for_each; [done|]. intros sem i Hi%elem_of_indices _.
  a_row. column 0%nat. column 1%nat. an_index. column 2%nat. a_token. intros [tok|] Htok; [|done]. destruct (Htok tok eq_refl) as (Ht & _ & Hr).
  rewrite row_count_got by done. cbn [mbind reading_bind]. an_index. done.
Qed.

(** A range of members that a map gives to a type starts at a row. *)
Definition ranges_ok (count : Z) (l : list (option (Z * Z))) : Prop :=
  Z.of_nat (length l) = count /\ Forall (fun o => forall r, o = Some r -> 1 <= r.1) l.

Lemma map_ranges_reads count limit entries l : Forall (fun '(ti, start) => 0 <= ti < count /\ 1 <= start) entries -> ranges_ok count l ->
  reads (ranges_ok count) (map_ranges limit entries l).
Proof using.
  intros He. revert l. induction He as [|[ti start] entries [Hti Hst] _ IH]; intros l [Hl Hr]; [done|]. cbn [map_ranges].
  eapply reads_bind; [apply reads_modify; lia|]. intros ? ->. apply IH. split; [by rewrite length_alter|]. apply Forall_alter; [done|]. intros x _ r [= <-]. done.
Qed.

Lemma read_map_ranges_reads map_table member c0 c1 count : 0 <= map_table < 64 -> 0 <= member < 64 -> schema map_table = Some [c0; c1] -> 0 <= count ->
  reads (ranges_ok count) (read_map_ranges T map_table member count).
Proof using HT.
  intros Hm Hmem Hs Hc. pose proof (cnt_range T HT member Hmem). unfold read_map_ranges. rewrite !row_count_got by done. cbn [mbind reading_bind].
  eapply reads_bind; [apply (reads_collect_all (fun '(ti, start) => 0 <= ti < count /\ 1 <= start))|].
  - intros i Hi%elem_of_indices. eapply reads_bind; [apply table_row; [done|done|lia]|]. intros R [HR _]. cbv beta.
    eapply reads_bind; [by apply (column_reads _ HT map_table _ 0 c0 [c0; c1])|]. intros p Hp. cbv beta in *. unfold typedef_index. an_index.
    eapply reads_bind; [by apply (column_reads _ HT map_table _ 1 c1 [c0; c1])|]. intros start Hst. cbv beta in *.
    eapply (reads_bind (fun _ => True)); [destruct (start =? 0); [done|]; eapply reads_mono; [apply reads_add_u32; lia|done]|]. intros limit _.
    eapply reads_bind; [apply reads_unless|]. intros [] [Hz%Z.eqb_neq _]%negb_true_iff%orb_false_iff. cbn. lia.
  - intros entries [_ He]. cbv beta zeta. eapply (reads_bind (fun _ => True)); [destruct (is_empty _); [done|]; eapply reads_mono; [apply reads_add_u32; lia|done]|].
    intros limit _. apply map_ranges_reads; [by rewrite sort_by_perm|]. split; [rewrite length_replicate; lia|by apply Forall_replicate].
Qed.

Lemma accessor_in r k i : accessor_method_id r k = Some i -> 0 <= i < r.2 - r.1.
Proof using. unfold accessor_method_id. destruct (Z.leb_spec r.1 k); [|done]. destruct (Z.ltb_spec k r.2); [|done]. intros [= <-]. lia. Qed.

Lemma accessors_omap r (l : list Z) : Forall (fun i => 0 <= i < r.2 - r.1) (omap (fun o => o) (map (accessor_method_id r) l)).
Proof using.
  apply Forall_forall. intros i Hi%list_elem_of_omap. destruct Hi as (o & Ho & ->). apply list_elem_of_In, in_map_iff in Ho as (k & Hk & _). by eapply accessor_in.
Qed.

Lemma accessor_bind r (o : option Z) : Forall (fun i => 0 <= i < r.2 - r.1) (omap (fun o => o) [o ≫= accessor_method_id r]).
Proof using. destruct o as [k|]; cbn; [|done]. destruct (accessor_method_id r k) eqn:E; cbn; [|done]. apply Forall_singleton. by eapply accessor_in. Qed.
End members.

Lemma Forall_accessors (P : Z -> Prop) (o : option Z) l : Forall P (omap (fun o => o) (o :: l)) <-> Forall P (omap (fun o => o) [o]) /\ Forall P (omap (fun o => o) l).
Proof. cbn. destruct o; [|by split; [split|intros [_ ?]]]. by rewrite Forall_cons, Forall_singleton. Qed.

(** ** Building members *)

(** The context of parameters: validated starts, one for each method. *)
Record params_ok (T : Tables) (ctx : ParamCtx) : Prop := {
  pk_count : pc_count ctx = cnt T table.PARAM;
  pk_starts : starts_ok (pc_count ctx) (pc_starts ctx);
  pk_length : Z.of_nat (length (pc_starts ctx)) = cnt T table.METHOD_DEF }.

(** The members of a type whose methods are the rows [r.1 .. r.2]. *)
Record members_ok (B : Bounds) (r : Z * Z) (tm : TypeMembers) : Prop := {
  mk_closed : closed B tm;
  mk_tokens : map token (tm_methods tm) = map method_token (range r.1 r.2);
  mk_accessors : Forall (fun i => 0 <= i < r.2 - r.1) (flat_map property_accessors (tm_properties tm) ++ flat_map event_accessors (tm_events tm)) }.

Section build.
Context (T : Tables) (HT : accepted T) (B : Bounds) (HB : bounded T B).
Context (keep : Z * Z -> Prop) (s0 : CustomAttributeIndex) (Hkeep : forall t r, keep (t, r) -> t = table.TYPE_DEF \/ t = table.ASSEMBLY).
Local Notation it := (image_tables T).
Local Notation drains := (drains B keep s0).
Local Notation take_reads := (take_reads B keep s0 Hkeep).

(** Generic parameters of the methods that are left to build. *)
Definition gps_ok (gps : list (list GenericParam)) : Prop := Z.of_nat (length gps) = cnt T table.METHOD_DEF /\ Forall (closed B) gps.

Lemma param_rows_reads rids : Forall (fun r => 1 <= r) rids -> reads (fun _ => True) (read_param_rows T rids).
Proof using HT.
  intros Hr. rewrite Forall_forall in Hr. unfold read_param_rows. apply reads_for_each; [done|]. intros m r Hin%Hr _.
  eapply reads_bind; [by apply reads_sub_u32|]. intros ? ->. cbv beta. a_row. text 2%nat. column 1%nat. column 0%nat. done.
Qed.

Lemma params_reads ctx i by_seq tys : Forall (closed B) tys -> drains (closed B) (build_params ctx i by_seq tys).
Proof using Hkeep.
  intros Ht. revert i by_seq. induction Ht as [|ty tys Hty _ IH]; intros i by_seq; cbn [build_params]; [apply drains_ret, closed_nil|]. cbv zeta.
  eapply (drains_bind _ _ _ (closed B)).
  - unfold build_param. destruct (by_seq !! _) as [r|].
    + eapply drains_bind; [by apply take_reads|]. intros l Hl. apply drains_ret, closed_param. done.
    + apply drains_ret, closed_param. split; [done|apply closed_nil].
  - intros p Hp. eapply drains_bind; [apply IH|]. intros ps Hps. apply drains_ret. apply closed_list. constructor; [done|by apply closed_list].
Qed.

Lemma assemble_reads ctx i d : params_ok T ctx -> 0 <= i < cnt T table.METHOD_DEF -> closed B d -> drains (closed B) (assemble_method_sig T ctx i d).
Proof using HT Hkeep.
  intros [Hc Hs Hl] Hi [Hr Hp]%closed_decoded_sig. unfold assemble_method_sig. pose proof (cnt_range T HT table.PARAM ltac:(a_table)).
  eapply drains_lift_bind; [apply run_range_reads; [lia|done|lia]|]. intros [a b] [Ha Hb]. cbn [fst snd] in *. subst b.
  eapply drains_lift_bind; [apply param_rows_reads, Forall_forall; intros r [Hge _]%elem_of_range; destruct (run_ordered _ _ _ _ Hs Ha); lia|]. intros by_seq _. cbv beta.
  eapply (drains_bind _ _ _ (closed B)); [destruct (by_seq !! 0); [by apply take_reads|apply drains_ret, closed_nil]|]. intros ra Hra.
  eapply drains_bind; [apply params_reads; by apply closed_list|]. intros ps Hps. apply drains_ret, closed_method_sig. done.
Qed.

Lemma method_reads ctx gps r : params_ok T ctx -> gps_ok gps -> 1 <= r ->
  drains (fun '(m, gps') => closed B m /\ token m = method_token r /\ gps_ok gps') (build_method T it ctx gps r).
Proof using HT HB Hkeep.
  intros Hctx [Hl Hg] Hr. unfold build_method. lift_index. lift_row. lift_column 2%nat. lift_text 3%nat. lift_bytes 4%nat.
  eapply drains_lift_bind; [apply reads_at_index; lia|]. intros gp Hgp. cbv beta in *.
  eapply drains_lift_bind; [apply reads_modify; lia|]. intros ? ->. cbv beta.
  eapply (drains_bind _ _ _ (closed B)).
  - match goal with H : blob_ok ?b |- _ => pose proof (method_sig_closed T B HB b H) as Hd; destruct (decode_method_sig b it) as [d|] end; [|apply drains_ret, closed_err].
    eapply drains_bind; [by apply assemble_reads; [done|lia|]|]. intros sg Hsg. by apply drains_ret, closed_ok.
  - intros sg Hsg. eapply drains_bind; [by apply take_reads|]. intros l Hal. apply drains_ret. split_and!; [|done|].
    + apply closed_method. cbn. rewrite Forall_lookup in Hg. split_and!; [by eapply Hg|done|done|apply closed_nil|apply closed_nil].
    + split; [by rewrite length_alter|]. apply Forall_alter; [done|]. intros x _. apply closed_nil.
Qed.

Lemma methods_reads ctx gps rids : params_ok T ctx -> gps_ok gps -> Forall (fun r => 1 <= r) rids ->
  drains (fun '(ms, gps') => closed B ms /\ map token ms = map method_token rids /\ gps_ok gps') (build_methods T it ctx gps rids).
Proof using HT HB Hkeep.
  intros Hctx Hg Hr. revert gps Hg. induction Hr as [|r rids Hr _ IH]; intros gps Hg; cbn [build_methods].
  - apply drains_ret. split_and!; [apply closed_nil|done|done].
  - eapply drains_bind; [by apply method_reads|]. intros [x gps'] (Hx & Ht & Hg'). eapply drains_bind; [by apply IH|]. intros [xs gps''] (Hxs & Hts & Hg'').
    apply drains_ret. split_and!; [|cbn; congruence|done]. apply closed_list. constructor; [done|by apply closed_list].
Qed.

Lemma field_reads r : 1 <= r -> drains (closed B) (build_field T it r).
Proof using HT HB Hkeep.
  intros Hr. unfold build_field. lift_index. lift_row. lift_column 0%nat. lift_text 1%nat. lift_bytes 2%nat.
  eapply drains_bind; [by apply take_reads|]. intros l Hl. apply drains_ret, closed_field. split; [|done].
  apply decode_field_closed; [by rewrite (bd_defs _ _ HB)|by rewrite (bd_refs _ _ HB)|done].
Qed.

Lemma property_reads sem range r : 1 <= r ->
  drains (fun p => closed B p /\ Forall (fun i => 0 <= i < range.2 - range.1) (property_accessors p)) (build_property T it sem range r).
Proof using HT HB Hkeep.
  intros Hr. unfold build_property. lift_index. lift_row. lift_text 1%nat. lift_bytes 2%nat. cbv zeta.
  eapply drains_bind; [by apply take_reads|]. intros l Hl. apply drains_ret. split.
  - apply closed_property. split_and!; [| |done];
      [apply decode_property_closed|apply decode_index_params_closed]; first [done|by rewrite (bd_defs _ _ HB)|by rewrite (bd_refs _ _ HB)].
  - unfold property_accessors. cbn [getter setter p_other_accessors]. repeat (apply Forall_accessors; split; [apply accessor_bind|]).
    destruct (sem_properties sem !! r); cbn [default fmap option_fmap option_map]; [apply accessors_omap|constructor].
Qed.

Lemma event_reads sem range r : 1 <= r ->
  drains (fun e => closed B e /\ Forall (fun i => 0 <= i < range.2 - range.1) (event_accessors e)) (build_event (md T) T it sem range r).
Proof using HT HB Hkeep.
  intros Hr. unfold build_event. lift_index. lift_row. lift_text 1%nat. lift_column 2%nat. eapply drains_lift_bind; [by apply type_token_reads|]. intros ty Hty. cbv zeta.
  eapply drains_bind; [by apply take_reads|]. intros l Hl. apply drains_ret. split; [by apply closed_event|].
  unfold event_accessors. cbn [add remove raise e_other_accessors]. repeat (apply Forall_accessors; split; [apply accessor_bind|]).
  destruct (sem_events sem !! r); cbn [default fmap option_fmap option_map]; [apply accessors_omap|constructor].
Qed.

(** What the walk over the types is given. *)
Record tables_of_members_ok (starts : list Z) (mt : MemberTables) : Prop := {
  mt_starts : mt_method_starts mt = starts;
  mt_count : mt_method_count mt = cnt T table.METHOD_DEF;
  mt_fields : starts_ok (mt_field_count mt) (mt_field_starts mt);
  mt_fields_count : mt_field_count mt = cnt T table.FIELD;
  mt_fields_length : Z.of_nat (length (mt_field_starts mt)) = cnt T table.TYPE_DEF;
  mt_params_ok : params_ok T (mt_params mt);
  mt_props : ranges_ok (cnt T table.TYPE_DEF) (mt_prop_ranges mt);
  mt_events : ranges_ok (cnt T table.TYPE_DEF) (mt_event_ranges mt) }.

Lemma member_tables_reads starts : reads (tables_of_members_ok starts) (read_member_tables T starts (cnt T table.TYPE_DEF)).
Proof using HT.
  pose proof (cnt_range T HT table.FIELD ltac:(a_table)). pose proof (cnt_range T HT table.PARAM ltac:(a_table)).
  pose proof (cnt_range T HT table.TYPE_DEF ltac:(a_table)). unfold read_member_tables. rewrite !row_count_got by (assumption || a_table). cbn [mbind reading_bind].
  eapply reads_bind; [apply (starts_reads T HT table.TYPE_DEF 4 _ _ ltac:(a_table) eq_refl eq_refl)|]. intros fs Hfs. cbv beta in *.
  eapply reads_bind; [by apply validate_reads|]. intros [] Hf. cbv beta in *.
  eapply reads_bind; [apply (starts_reads T HT table.METHOD_DEF 5 _ _ ltac:(a_table) eq_refl eq_refl)|]. intros ps Hps. cbv beta in *.
  eapply reads_bind; [by apply validate_reads|]. intros [] Hp. cbv beta in *. eapply reads_bind; [by apply constants_reads|]. intros cs _. cbv beta.
  eapply reads_bind; [by apply semantics_reads|]. intros sem _. cbv beta.
  eapply reads_bind; [eapply (read_map_ranges_reads T HT table.PROPERTY_MAP); [a_table|a_table|reflexivity|lia]|]. intros pr Hpr. cbv beta in *.
  eapply reads_bind; [eapply (read_map_ranges_reads T HT table.EVENT_MAP); [a_table|a_table|reflexivity|lia]|]. intros er Her. cbv beta in *. split; [done..|by split|done|done].
Qed.

(** The rows of the methods of the type [i]. *)
Definition method_run (starts : list Z) (i : nat) : Z * Z := (default 0 (starts !! i), run_end (cnt T table.METHOD_DEF) starts i).

Lemma range_from_one a b : 1 <= a -> Forall (fun r => 1 <= r) (range a b).
Proof using. intros Ha. apply Forall_forall. intros r Hr%elem_of_range. lia. Qed.

Lemma optional_range_reads {C} (Q : C -> Prop) (f : Z -> draining C) (o : option (Z * Z)) : (forall r, o = Some r -> 1 <= r.1) ->
  (forall r, 1 <= r -> drains Q (f r)) -> drains (Forall Q) (match o with Some (a, b) => drain f (range a b) | None => mret [] end).
Proof using.
  intros Ho Hf. destruct o as [[a b]|]; [|by apply drains_ret]. specialize (Ho _ eq_refl). cbn in Ho.
  eapply drains_mono; [apply (drains_drain _ _ _ (fun _ => Q)); intros r Hr%elem_of_range; apply Hf; lia|]. intros l Hl.
  eapply Forall2_Forall_r; [exact Hl|]. by apply Forall_true.
Qed.

Context (starts : list Z) (Hstarts : starts_ok (cnt T table.METHOD_DEF) starts) (Hlen : Z.of_nat (length starts) = cnt T table.TYPE_DEF).

Lemma type_members_reads mt gps i : tables_of_members_ok starts mt -> gps_ok gps -> 0 <= i < cnt T table.TYPE_DEF ->
  drains (fun '(tm, gps') => members_ok B (method_run starts (Z.to_nat i)) tm /\ gps_ok gps') (build_type_members (md T) T it mt gps i).
Proof using HT HB Hkeep Hstarts Hlen.
  intros [Es Ec Hf Efc Hfl Hp [Hpl Hpr] [Hel Her]] Hg Hi. unfold build_type_members. rewrite Es, Ec.
  pose proof (cnt_range T HT table.METHOD_DEF ltac:(a_table)). pose proof (cnt_range T HT table.FIELD ltac:(a_table)).
  eapply drains_lift_bind; [apply run_range_reads; [lia|done|lia]|]. intros [a b] [Ha Hb]. cbn [fst snd] in *. subst b.
  assert (Erun : (a, run_end (cnt T table.METHOD_DEF) starts (Z.to_nat i)) = method_run starts (Z.to_nat i)) by (unfold method_run; by rewrite Ha).
  pose proof (run_ordered _ _ _ _ Hstarts Ha) as [Hrun _]. rewrite Erun.
  eapply drains_bind; [apply methods_reads; [done|done|apply range_from_one; lia]|]. intros [ms gps'] (Hms & Htok & Hg'). cbv beta iota.
  eapply drains_lift_bind; [apply run_range_reads; [lia|done|lia]|]. intros [fa fb] [Hfa Hfb]. cbn [fst snd] in *. pose proof (run_ordered _ _ _ _ Hf Hfa) as [Hfrun _].
  eapply drains_bind; [apply drains_drain_closed; intros r Hr%elem_of_range; apply field_reads; lia|]. intros fs Hfs. cbv beta in *.
  eapply drains_lift_bind; [apply reads_at_index; lia|]. intros pr Epr. cbv beta in *. rewrite Forall_lookup in Hpr, Her.
  eapply drains_bind; [apply optional_range_reads; [by eapply Hpr|]; intros r Hr; by apply (property_reads (mt_semantics mt) (method_run starts (Z.to_nat i)))|]. intros ps Hps. cbv beta in *.
  eapply drains_lift_bind; [apply reads_at_index; lia|]. intros er Eer. cbv beta in *.
  eapply drains_bind; [apply optional_range_reads; [by eapply Her|]; intros r Hr; by apply (event_reads (mt_semantics mt) (method_run starts (Z.to_nat i)))|]. intros es Hes. cbv beta in *.
  apply Forall_and in Hps as [Hps Hpa]. apply Forall_and in Hes as [Hes Hea].
  apply drains_ret. split; [|done]. split; cbn [tm_methods tm_fields tm_properties tm_events].
  - apply closed_members. split_and!; [done|done|by apply closed_list|by apply closed_list].
  - rewrite Htok, <- Erun. done.
  - apply Forall_app. split; apply Forall_flat_map; (eapply Forall_impl; [eassumption|done]).
Qed.

Lemma all_members_reads mt gps tis : tables_of_members_ok starts mt -> gps_ok gps -> Forall (fun i => 0 <= i < cnt T table.TYPE_DEF) tis ->
  drains (Forall2 (fun i => members_ok B (method_run starts (Z.to_nat i))) tis) (build_all_members (md T) T it mt gps tis).
Proof using HT HB Hkeep Hstarts Hlen.
  intros Hmt Hg Htis. revert gps Hg. induction Htis as [|i tis Hi _ IH]; intros gps Hg; cbn [build_all_members]; [by apply drains_ret|].
  eapply drains_bind; [by apply type_members_reads|]. intros [tm gps'] [Htm Hg']. eapply drains_bind; [by apply IH|]. intros tms Htms. apply drains_ret. by constructor.
Qed.
End build.
