(* ===== verification/MethodImplsThm.v ===== *)
(** * Explicit implementations: the pass is safe and keeps the members closed

    About [MethodImpls]: instantiation keeps signatures closed, the walk over the
    interfaces of a type and the comparisons of references read rows that are there
    or refuse, and what a row adds to a method is closed. *)

From stdpp Require Import gmap.
From S2P Require Import Prelude Order Cursor Signature SignatureThm Metadata Tables Manifest TablesThm MetadataThm ImageModel TypeDefs Members.
From S2P Require Import MethodImpls Image ImageInv MembersThm.
Local Open Scope Z_scope.

(** ** Instantiation *)

Section substitution.
Context (B : Bounds) (args : list ModifiedType) (Hargs : closed B args).

Lemma substitute_in_closed t : closed B t -> forall ms depth budget m b, closed B ms -> substitute_in args t ms depth budget = Some (m, b) -> closed B m.
Proof using Hargs.
  induction t as [p|k s|k s l IH|n|n|x IH|x r ss bs IH| |x IH|x IH| ] using TypeSig_nested_ind; intros Ht ms depth budget m b Hms; cbn [substitute_in];
    (destruct (Nat.leb _ _); [done|]); intros (bud & _ & E)%bind_Some.
  - injection E as <- _. by apply closed_modified.
  - injection E as <- _. by apply closed_modified.
  - apply Forall_app in Ht as [Hs Hl]. apply bind_Some in E as ([l' b'] & El & [= <- _]). apply closed_modified. split; [done|]. apply Forall_app. split; [done|]. cbn.
    revert l' b' El. clear -IH Hl. revert bud. induction l as [|x l IHl]; intros bud l' b'.
    + intros [= <- _]. constructor.
    + inversion IH as [|? ? Hx Hrest]; subst. cbn in Hl. apply Forall_app in Hl as [[Hm Hty]%Forall_app Hl].
      intros ([x' b1] & Ex & ([l1 b2] & El & [= <- _])%bind_Some)%bind_Some. cbn. apply Forall_app. split; [|by eapply IHl].
      assert (Hc : closed B x') by (eapply Hx; [exact Hty|exact Hm|exact Ex]). exact Hc.
  - apply bind_Some in E as (rep & Er & (b' & _ & [= <- _])%bind_Some). destruct (0 <=? n); [|done]. apply closed_list in Hargs. rewrite Forall_lookup in Hargs.
    apply Hargs, closed_modified in Er as [H1 H2]. apply closed_modified. split; [by apply closed_app|done].
  - injection E as <- _. by apply closed_modified.
  - apply bind_Some in E as ([x' b'] & Ex & [= <- _]). apply closed_modified. split; [done|]. apply Forall_app in Ht as [Hm Hty].
    assert (Hc : closed B x') by (eapply IH; [exact Hty|exact Hm|exact Ex]). exact Hc.
  - apply bind_Some in E as ([x' b'] & Ex & [= <- _]). apply closed_modified. split; [done|]. apply Forall_app in Ht as [Hm Hty].
    assert (Hc : closed B x') by (eapply IH; [exact Hty|exact Hm|exact Ex]). exact Hc.
  - injection E as <- _. by apply closed_modified.
  - apply bind_Some in E as ([x' b'] & Ex & [= <- _]). apply closed_modified. split; [done|]. apply Forall_app in Ht as [Hm Hty].
    assert (Hc : closed B x') by (eapply IH; [exact Hty|exact Hm|exact Ex]). exact Hc.
  - apply bind_Some in E as ([x' b'] & Ex & [= <- _]). apply closed_modified. split; [done|]. apply Forall_app in Ht as [Hm Hty].
    assert (Hc : closed B x') by (eapply IH; [exact Hty|exact Hm|exact Ex]). exact Hc.
  - injection E as <- _. by apply closed_modified.
Qed.
End substitution.

Definition frame_closed (B : Bounds) (o : option (list ModifiedType)) : Prop := forall args, o = Some args -> closed B args.

Lemma substitute_closed B m o x : frame_closed B o -> closed B m -> substitute_capped m o = Some x -> closed B x.
Proof.
  intros Ho Hm. unfold substitute_capped, substitute. destruct o as [args|]; [|by intros [= <-]]. apply closed_modified in Hm as [Hms Hty].
  intros ([x' b] & E & ->)%fmap_Some. by eapply (substitute_in_closed B args); [apply Ho| | |].
Qed.

Lemma in_module_head_closed B m d args : closed B m -> in_module_head m = Some (d, args) -> 0 <= d < n_type_defs B /\ closed B args.
Proof.
  intros [_ Ht]%closed_modified. unfold in_module_head. destruct (ty m) as [|k [i|]|k [i|] l| | | | | | |]; try done; intros [= <- <-].
  - split; [|apply closed_nil]. by apply (closed_link B (ToTypeDef i)).
  - apply Forall_app in Ht as [Ht Hl]. split; [|exact Hl]. by apply (closed_link B (ToTypeDef i)).
Qed.

(** ** The interfaces of a type *)

Definition frame_ok (B : Bounds) (f : Frame) : Prop := 0 <= f.1 < n_type_defs B /\ frame_closed B f.2.
Definition context_ok (B : Bounds) (ctx : ClassContext) : Prop := closed B (interfaces ctx) /\ closed B (external_ancestors ctx).

Section pass.
Context (T : Tables) (HT : accepted T) (B : Bounds) (HB : bounded T B).
Local Notation it := (image_tables T).

Lemma push_head_ok m worklist : closed B m -> Forall (frame_ok B) worklist ->
  Forall (frame_ok B) (match in_module_head m with Some (d, args) => (d, Some args) :: worklist | None => worklist end).
Proof using.
  intros Hm Hw. destruct (in_module_head m) as [[d args]|] eqn:E; [|done]. destruct (in_module_head_closed B m d args Hm E) as [Hd Ha].
  constructor; [|done]. split; [done|]. by intros ? [= <-].
Qed.

Lemma add_interface_reads o acc tok : frame_closed B o -> 0 <= tok -> closed B acc.1 /\ Forall (frame_ok B) acc.2 ->
  reads (fun acc => closed B acc.1 /\ Forall (frame_ok B) acc.2) (add_interface (md T) T it o acc tok).
Proof using HT HB.
  destruct acc as [found work]. intros Ho Ht [Hf Hw]. unfold add_interface. eapply reads_bind; [by apply type_token_reads|]. intros [m|e] Hm; [|done]. cbn [reads mret reading_ret].
  destruct (substitute_capped m o) as [x|] eqn:E; [|done]. destruct (existsb _ found); [done|]. apply substitute_closed with (B := B) in E; [|done|exact Hm].
  cbn [fst snd] in *. split; [|by apply push_head_ok]. apply closed_app; [done|]. apply closed_list. by apply Forall_singleton.
Qed.

Lemma add_base_reads t o ancestors work : frame_ok B (t, o) -> closed B ancestors -> Forall (frame_ok B) work ->
  reads (fun '(ancestors, work) => closed B ancestors /\ Forall (frame_ok B) work) (add_base (md T) T it t o ancestors work).
Proof using HT HB.
  intros [Ht Ho] Ha Hw. cbn [fst snd] in *. unfold add_base. a_row. column 3%nat. destruct (_ =? 0); [done|]. eapply reads_bind; [by apply type_token_reads|]. intros [m|e] Hm; [|done].
  cbn [reads mret reading_ret]. destruct (substitute_capped m o) as [x|] eqn:E; [|done]. apply substitute_closed with (B := B) in E; [|done|exact Hm].
  pose proof (push_head_ok x work E Hw) as Hp. destruct (in_module_head x) as [[d args]|]; [done|]. split; [|done]. apply closed_app; [done|]. apply closed_list. by apply Forall_singleton.
Qed.

Lemma next_frame_ok visited work f rest : Forall (frame_ok B) work -> next_frame visited work = Some (f, rest) -> frame_ok B f /\ Forall (frame_ok B) rest.
Proof using.
  induction work as [|g work IH]; intros Hw; cbn [next_frame]; [done|]. inversion Hw; subst. destruct (existsb _ _); [by apply IH|]. by intros [= <- <-].
Qed.

Lemma closure_reads impls room visited work ctx : Forall (Forall (fun v => 0 <= v)) impls -> Forall (frame_ok B) work -> context_ok B ctx ->
  reads (context_ok B) (closure (md T) T it impls room visited work ctx).
Proof using HT HB.
  intros Hi. revert visited work ctx. induction room as [|room IH]; intros visited work ctx Hw Hctx; cbn [closure];
    (destruct (next_frame visited work) as [[[t o] rest]|] eqn:E; [|done]); [done|]. destruct (next_frame_ok _ _ _ _ Hw E) as [Hf Hr]. cbv zeta.
  eapply reads_bind; [apply (reads_for_each (fun acc => closed B acc.1 /\ Forall (frame_ok B) acc.2))|].
  - split; [apply Hctx|done].
  - intros acc tok Htok Hacc. apply add_interface_reads; [apply Hf| |done].
    destruct Hf as [[Hge _] _]. cbn [fst] in Hge. rewrite (proj2 (Z.leb_le _ _)) in Htok by done. destruct (impls !! _) as [l|] eqn:El; [|by apply not_elem_of_nil in Htok]. cbn in Htok.
    rewrite Forall_lookup in Hi. specialize (Hi _ _ El). rewrite Forall_forall in Hi. by apply Hi.
  - intros [found work'] [Hfound Hwork]. cbn [fst snd] in *. eapply reads_bind; [apply add_base_reads; [done|apply Hctx|done]|].
    intros [anc work''] [Hanc Hwork']. cbv beta iota. apply IH; [done|by split].
Qed.

Lemma class_context_reads impls i : Forall (Forall (fun v => 0 <= v)) impls -> 0 <= i < n_type_defs B ->
  reads (context_ok B) (class_decl_context (md T) T it impls i).
Proof using HT HB.
  intros Hi Hn. unfold class_decl_context. apply closure_reads; [done| |split; apply closed_nil]. apply Forall_singleton. by split.
Qed.

(** ** Comparisons *)

Notation safe := (reads (fun _ => True)).

Lemma and_then_safe (a b : reading bool) : safe a -> safe b -> safe (and_then a b).
Proof using. intros Ha Hb. eapply reads_bind; [exact Ha|]. by intros [] _. Qed.

Lemma same_int_safe t R R' (col : nat) c cols : good_row T t R -> good_row T t R' -> schema t = Some cols -> cols !! col = Some c ->
  safe (x ← int R (Z.of_nat col); y ← int R' (Z.of_nat col); mret (x =? y)).
Proof using HT.
  intros H H' Hs Hc. eapply reads_bind; [by eapply column_reads|]. intros x _. eapply reads_bind; [by eapply (column_reads T HT t R')|]. done.
Qed.

Lemma same_string_safe t R R' (col : nat) c cols : good_row T t R -> good_row T t R' -> schema t = Some cols -> cols !! col = Some c ->
  safe (x ← string R (Z.of_nat col); y ← string R' (Z.of_nat col); mret (str_eqb x y)).
Proof using HT.
  intros H H' Hs Hc. eapply reads_bind; [by eapply string_reads|]. intros x _. eapply reads_bind; [by eapply (string_reads T HT t R')|]. done.
Qed.

Ltac same k :=
  first [eapply (same_int_safe _ _ _ k); [eassumption|eassumption|reflexivity|reflexivity]
        |eapply (same_string_safe _ _ _ k); [eassumption|eassumption|reflexivity|reflexivity]].

Lemma assembly_refs_safe a b : 0 <= a -> 0 <= b -> safe (assembly_refs_equivalent (md T) T a b).
Proof using HT.
  intros Ha Hb. unfold assembly_refs_equivalent. a_row. a_row. cbv zeta.
  repeat (apply and_then_safe; [first [same 0%nat|same 1%nat|same 2%nat|same 3%nat|same 6%nat|same 7%nat]|]).
  column 5%nat. eapply reads_bind; [by apply blob_at_ok|]. intros x _. column 5%nat. eapply reads_bind; [by apply blob_at_ok|]. done.
Qed.

Lemma typerefs_safe levels a b : 0 <= a -> 0 <= b -> safe (typerefs_within levels (md T) T a b).
Proof using HT.
  revert a b. induction levels as [|levels IH]; intros a b Ha Hb; cbn [typerefs_within]; (destruct (a =? b); [done|]); [done|].
  a_row. a_row. cbv zeta. apply and_then_safe; [same 1%nat|]. apply and_then_safe; [same 2%nat|]. column 0%nat. column 0%nat.
  unfold resolution_scopes_equivalent. destruct (_ =? _); [done|]. a_token. intros o1 H1'. a_token. intros o2 H2'.
  destruct o1 as [ta|]; [|done]. destruct o2 as [tb|]; [|done]. destruct (H1' ta eq_refl) as (_ & _ & Hta). destruct (H2' tb eq_refl) as (_ & _ & Htb).
  destruct (_ && _)%bool; [|destruct (_ && _)%bool; [|done]]; (eapply reads_bind; [by apply reads_sub_u32|]; intros ? ->; cbv beta; eapply reads_bind; [by apply reads_sub_u32|]; intros ? ->).
  - apply IH; lia.
  - apply assembly_refs_safe; lia.
Qed.

Lemma scopes_safe a b depth : closed B a -> closed B b -> safe (scopes_equivalent (md T) T a b depth).
Proof using HT.
  intros Ha Hb. destruct a as [x|x], b as [y|y]; try done. unfold scopes_equivalent, typerefs_equivalent.
  pose proof (proj1 (closed_link B (ToTypeRef x)) Ha) as Hx. pose proof (proj1 (closed_link B (ToTypeRef y)) Hb) as Hy. cbn in Hx, Hy. apply typerefs_safe; lia.
Qed.

Lemma mods_safe a b depth : closed B a -> closed B b -> safe (mods_equivalent (md T) T a b depth).
Proof using HT.
  intros Ha Hb. unfold mods_equivalent. destruct (negb _); [done|]. revert b Hb. induction a as [|x a IH]; intros [|y b] Hb; try done. cbn [mods_pairwise].
  destruct (negb _); [done|]. apply Forall_app in Ha as [Hx Ha]. apply Forall_app in Hb as [Hy Hb]. apply and_then_safe; [by apply scopes_safe|by apply IH].
Qed.

Lemma types_safe a : closed B a -> forall b depth, closed B b -> safe (types_equivalent (md T) T a b depth).
Proof using HT.
  induction a as [p|k s|k s l IH|n|n|x IH|x r ss bs IH| |x IH|x IH| ] using TypeSig_nested_ind; intros Ha b depth Hb; cbn [types_equivalent];
    (destruct (Nat.leb _ depth); [done|]); destruct b as [q|k' s'|k' s' l'|n'|n'|y|y r' ss' bs'|[y|]|y|]; try done.
  all: try (first [destruct (negb _); [done|]|idtac]; destruct (Nat.leb _ _); [done|]; apply Forall_app in Ha as [Hm Ht]; apply Forall_app in Hb as [Hm' Ht'];
    apply and_then_safe; [by apply mods_safe|by apply IH]).
  - by apply scopes_safe.
  - apply Forall_app in Ha as [Hs Hl]. apply Forall_app in Hb as [Hs' Hl']. destruct (negb _); [done|]. apply and_then_safe; [by apply scopes_safe|].
    clear Hs Hs'. revert l' Hl'. induction l as [|x l IHl]; intros [|y l'] Hl'; try done. inversion IH as [|? ? Hx Hrest]; subst.
    cbn in Hl, Hl'. apply Forall_app in Hl as [[Hm Ht]%Forall_app Hl]. apply Forall_app in Hl' as [[Hm' Ht']%Forall_app Hl'].
    apply and_then_safe; [|by apply IHl]. destruct (Nat.leb _ _); [done|]. apply and_then_safe; [by apply mods_safe|by apply Hx].
Qed.

Lemma sigs_safe a b depth : closed B a -> closed B b -> safe (sigs_equivalent (md T) T a b depth).
Proof using HT.
  intros [Ha Ha']%closed_modified [Hb Hb']%closed_modified. unfold sigs_equivalent. destruct (Nat.leb _ _); [done|].
  apply and_then_safe; [by apply mods_safe|by apply types_safe].
Qed.

Lemma any_safe l x : closed B l -> closed B x -> safe (any_equivalent (md T) T l x).
Proof using HT.
  intros Hl%closed_list Hx. induction Hl as [|a l Ha _ IH]; [done|]. cbn [any_equivalent]. eapply reads_bind; [by apply sigs_safe|]. by intros [] _.
Qed.

Lemma classify_safe ctx m : context_ok B ctx -> closed B m -> safe (classify_decl_parent (md T) T ctx m).
Proof using HT.
  intros [Hi He] Hm. unfold classify_decl_parent.
  assert (Hscope : forall scope, closed B scope -> safe (local_class ← (match scope with
                     | ScopeDefinition index => r ← row T table.TYPE_DEF index; flags ← int r 0; mret (negb (flag flags INTERFACE_FLAG))
                     | ScopeReference _ => mret false
                     end);
      if local_class : bool then mret NotAnImpl
      else
        implemented ← any_equivalent (md T) T (interfaces ctx) m;
        if implemented : bool then mret ImplementedInterface
        else match scope with
        | ScopeDefinition _ => mret NotAnImpl
        | ScopeReference _ =>
            ancestor ← any_equivalent (md T) T (external_ancestors ctx) m;
            mret (if ancestor : bool then AncestorClass else ExternalUnproven)
        end)).
  { intros scope Hs. eapply (reads_bind (fun _ => True)).
    - destruct scope as [i|i]; [|done]. pose proof (proj1 (closed_link B (ToTypeDef i)) Hs) as Hd. cbn in Hd. a_row. column 0%nat. done.
    - intros [] _; [done|]. eapply reads_bind; [by apply any_safe|]. intros [] _; [done|]. destruct scope; [done|]. eapply reads_bind; [by apply any_safe|]. done. }
  pose proof (proj2 (proj1 (closed_modified B m) Hm)) as Ht. destruct (ty m) as [|k s|k s l| | | | | | |]; try done; apply Hscope; [exact Ht|].
  by apply Forall_app in Ht as [Hs _].
Qed.

(** ** Declarations *)

Lemma method_sigs_safe a b : blob_ok a -> blob_ok b -> safe (method_sigs_equivalent (md T) T it a b).
Proof using HT HB.
  intros Ha%(method_sig_closed T B HB) Hb%(method_sig_closed T B HB). unfold method_sigs_equivalent.
  destruct (decode_method_sig a it) as [da|]; [|done]. destruct (decode_method_sig b it) as [db|]; [|done]. destruct (negb _); [done|].
  apply closed_decoded_sig in Ha as [Hra Hpa%closed_list]. apply closed_decoded_sig in Hb as [Hrb Hpb%closed_list]. apply and_then_safe.
  - unfold rets_equivalent. destruct (return_type da), (return_type db); try done; [by apply mods_safe|by apply sigs_safe].
  - clear -Hpa Hpb HT. revert Hpb. generalize (param_types db) as k. induction Hpa as [|x l Hx _ IH]; intros [|y k] Hk; try done. cbn [params_equivalent].
    inversion Hk; subst. apply and_then_safe; [by apply sigs_safe|by apply IH].
Qed.

Lemma find_method_safe name wanted start rids : blob_ok wanted -> Forall (fun r => 1 <= r) rids -> safe (find_method (md T) T it name wanted start rids).
Proof using HT HB.
  intros Hw Hr. induction Hr as [|r rids Hr _ IH]; [done|]. cbn [find_method]. eapply reads_bind; [by apply reads_sub_u32|]. intros ? ->. cbv beta.
  a_row. text 3%nat. destruct (negb _); [done|]. column 4%nat. eapply reads_bind; [by apply blob_at_ok|]. intros candidate Hc.
  eapply (reads_bind (fun _ => True)); [destruct (bool_decide _); [done|by apply method_sigs_safe]|]. by intros [] _.
Qed.

Context (starts : list Z) (Hstarts : starts_ok (cnt T table.METHOD_DEF) starts) (HM : n_methods B = run_sizes (cnt T table.METHOD_DEF) starts).

Lemma local_method_safe owner name sig : safe (local_method_by_name_and_sig (md T) T it starts owner name sig).
Proof using HT HB Hstarts.
  pose proof (cnt_range T HT table.METHOD_DEF ltac:(a_table)). unfold local_method_by_name_and_sig. destruct (_ <=? _); [|done]. destruct (starts !! _) as [start|] eqn:E; [|done].
  a_count. eapply reads_bind; [apply reads_add_u32; lia|]. intros ? ->. cbv beta zeta. eapply reads_bind; [by apply blob_at_ok|]. intros wanted Hw.
  apply find_method_safe; [done|]. apply range_from_one. pose proof (st_bound _ _ Hstarts) as Hb. rewrite Forall_lookup in Hb. apply Hb in E. lia.
Qed.

Lemma member_semantics_safe members parent name sig : 0 <= parent -> safe (member_ref_decl_semantics (md T) T it starts members parent name sig).
Proof using HT HB Hstarts.
  intros Hp. unfold member_ref_decl_semantics. eapply reads_bind; [by apply type_token_reads|]. intros [m|e] _; [|done]. cbn [rbind].
  destruct (ty m) as [|k [o|]|k [o|] l| | | | | | |]; try done; (eapply reads_bind; [apply local_method_safe|]; intros [i|] _; done).
Qed.

Lemma type_token_nonneg tbl r c : 0 <= r -> type_def_or_ref_coded tbl r = Some c -> 0 <= c.
Proof using.
  intros Hr. unfold type_def_or_ref_coded. pose proof (Z.mod_pos_bound (Z.shiftl r 2) 4294967296 ltac:(lia)) as Hm.
  repeat (destruct (_ =? _); [intros [= <-]; apply Z.lor_nonneg; lia|]). done.
Qed.

Definition decl_ok (d : ResolvedDecl) : Prop := 0 <= d_parent d /\ closed B (d_declaration d).

Lemma resolve_decl_reads members decl : 0 <= decl -> reads (fun o => forall d, o = Some d -> decl_ok d) (resolve_method_decl (md T) T it starts members decl).
Proof using HT HB Hstarts HM.
  intros Hd. unfold resolve_method_decl. a_token. intros [tok|] Htok; [|done]. destruct (Htok tok eq_refl) as (_ & _ & Hr). destruct (_ =? table.MEMBER_REF).
  - eapply reads_bind; [by apply reads_sub_u32|]. intros ? ->. cbv beta. a_row. text 1%nat. column 2%nat. bytes 2%nat. column 0%nat. a_token.
    intros [p|] Hp; [|done]. destruct (Hp p eq_refl) as (_ & _ & Hpr). destruct (type_def_or_ref_coded _ _) as [c|] eqn:Ec; [|done].
    apply type_token_nonneg in Ec; [|lia]. eapply reads_bind; [by apply member_semantics_safe|]. intros sem _. cbn. intros d [= <-]. split; [done|by apply method_sig_closed].
  - destruct (_ =? table.METHOD_DEF); [|done]. eapply reads_bind; [eapply method_owner_reads; [done|exact Hstarts|exact HM|lia]|]. intros [d k] Hdk.
    eapply reads_bind; [by apply reads_sub_u32|]. intros ? ->. cbv beta. a_row. text 3%nat. bytes 4%nat. destruct Hdk as (Hge & n & Hn & _).
    assert (Hlt : d < cnt T table.TYPE_DEF) by (rewrite <- (bd_defs _ _ HB); apply lookup_lt_Some in Hn; unfold n_type_defs; lia).
    pose proof (cnt_range T HT table.TYPE_DEF ltac:(a_table)). eapply reads_bind; [apply reads_add_u32; lia|]. intros ? ->. cbn [reads mret reading_ret].
    intros x (c & Ec & ->)%fmap_Some. apply type_token_nonneg in Ec; [|lia]. split; [done|by apply method_sig_closed].
Qed.

(** ** Rows of the pass *)

(** A change of a method that keeps its row and adds what is closed. *)
Definition keeps (f : Method -> Method) : Prop := forall m, closed B m -> closed B (f m) /\ token (f m) = token m.

Lemma with_impls_keeps added us other : closed B added -> closed B us -> keeps (with_impls added us other).
Proof using.
  intros Hi Hu m Hm. split; [|done]. apply closed_method in Hm as (H1 & H2 & H3 & H4 & H5). apply closed_method. cbn. split_and!; [done..|by apply closed_app|by apply closed_app].
Qed.

Lemma record_keeps verdict d m : decl_ok d -> closed B m -> keeps (record_impl verdict d m).
Proof using.
  intros [_ Hd] Hm x Hx. unfold record_impl, mark_method. destruct (_ || _)%bool; [apply with_impls_keeps; [apply closed_nil..|done]|].
  destruct verdict; [|done| |done]; apply with_impls_keeps; try done; try apply closed_nil.
  - apply closed_list, Forall_map, Forall_forall. intros sem _. by apply closed_impl.
  - apply closed_list, Forall_singleton. exact Hm.
Qed.

Lemma map_keeps (f : nat -> Method -> Method) l : (forall i, keeps (f i)) -> closed B l ->
  closed B (imap f l) /\ map token (imap f l) = map token l.
Proof using.
  intros Hf Hl%closed_list. revert f Hf. induction Hl as [|m l Hm _ IH]; intros f Hf; [split; [apply closed_nil|done]|]. rewrite imap_cons. cbn [map].
  destruct (Hf 0%nat m Hm) as [Hc Ht]. destruct (IH (f ∘ S) (fun i => Hf (S i))) as [Hcl Htl]. split; [|by rewrite Ht, Htl].
  apply closed_list. constructor; [done|by apply closed_list].
Qed.

Lemma alter_imap (f : Method -> Method) k l : alter f k l = imap (fun i => if decide (i = k) then f else (fun m => m)) l.
Proof using.
  apply list_eq. intros i. rewrite list_lookup_alter, list_lookup_imap. destruct (decide (k = i)) as [->|Hne].
  - rewrite decide_True by done. by destruct (l !! i).
  - rewrite decide_False by done. by destruct (l !! i).
Qed.

Lemma with_methods_ok r tm (f : nat -> Method -> Method) : (forall i, keeps (f i)) -> members_ok B r tm -> members_ok B r (with_methods (imap f) tm).
Proof using.
  intros Hf [(H1 & H2 & H3 & H4)%closed_members Ht Ha]. destruct (map_keeps f (tm_methods tm) Hf H1) as [Hc Etok]. split; [|by rewrite <- Ht|done].
  by apply closed_members.
Qed.

(** The members of every type, in the order of the types. *)
Definition out_ok (out : list TypeMembers) : Prop :=
  Forall2 (fun i => members_ok B (method_run T starts (Z.to_nat i))) (indices (cnt T table.TYPE_DEF)) out.

Lemma alter_out_ok out k (g : TypeMembers -> TypeMembers) : (forall r tm, members_ok B r tm -> members_ok B r (g tm)) -> out_ok out -> out_ok (alter g k out).
Proof using.
  intros Hg Ho. unfold out_ok in *. rewrite Forall2_lookup in *. intros i. specialize (Ho i). rewrite list_lookup_alter. destruct (decide (k = i)) as [->|_]; [|done].
  destruct Ho as [x y Hxy|]; cbn; constructor. by apply Hg.
Qed.

Lemma update_out_ok f ti mi out : keeps f -> out_ok out -> out_ok (update_method f ti mi out).
Proof using.
  intros Hf. apply alter_out_ok. intros r tm Htm. replace (with_methods (alter f (Z.to_nat mi)) tm) with (with_methods (imap (fun i => if decide (i = Z.to_nat mi) then f else (fun m => m))) tm)
    by (unfold with_methods; by rewrite alter_imap).
  apply with_methods_ok; [|done]. intros i. destruct (decide _); [done|]. by intros m Hm.
Qed.

Lemma mark_keeps : keeps mark_method.
Proof using. apply with_impls_keeps; apply closed_nil. Qed.

Lemma mark_out_ok ti mi out : out_ok out -> out_ok (update_method mark_method ti mi out).
Proof using. apply update_out_ok, mark_keeps. Qed.

Definition contexts_ok (expanded : gmap Z ClassContext) : Prop := map_Forall (fun _ => context_ok B) expanded.

Lemma apply_impl_reads impls acc i : Forall (Forall (fun v => 0 <= v)) impls -> 0 <= i -> out_ok acc.1 /\ contexts_ok acc.2 ->
  reads (fun acc => out_ok acc.1 /\ contexts_ok acc.2) (apply_method_impl (md T) T it starts impls acc i).
Proof using HT HB Hstarts HM.
  destruct acc as [out expanded]. intros Himpls Hi [Ho He]. cbn [fst snd] in *. unfold apply_method_impl. a_row. column 0%nat. a_count. an_index. column 1%nat. column 2%nat.
  a_token. intros [tok|] Htok; [|done]. destruct (Htok tok eq_refl) as (_ & _ & Hr). destruct (_ =? table.MEMBER_REF).
  - eapply reads_bind; [by apply reads_sub_u32|]. intros ? ->. cbv beta. a_row. text 1%nat. cbn. split; [|done]. apply alter_out_ok; [|done]. intros r tm Htm.
    match goal with |- members_ok B r (with_methods (map ?g) tm) => replace (with_methods (map g) tm) with (with_methods (imap (const g)) tm) by (unfold with_methods; by rewrite (imap_const g)) end.
    apply with_methods_ok; [|done]. intros j m Hm. cbn. destruct (str_eqb _ _); [by apply mark_keeps|done].
  - destruct (negb _); [done|]. eapply reads_bind; [eapply method_owner_reads; [done|exact Hstarts|exact HM|lia]|]. intros [ti mi] (Hge & n & Hn & _). cbv beta iota.
    destruct (negb _); [done|]. eapply reads_bind; [by apply resolve_decl_reads|]. intros [d|] Hd; [|by split; [apply mark_out_ok|]]. specialize (Hd d eq_refl).
    eapply reads_bind; [apply type_token_reads; [done|done|apply Hd]|]. intros [m|e] Hm; [|by split; [apply mark_out_ok|]].
    eapply (reads_bind (fun '(ctx, expanded) => context_ok B ctx /\ contexts_ok expanded)).
    + unfold memo_context. destruct (expanded !! ti) as [ctx|] eqn:Ec; [split; [by eapply He|done]|].
      eapply reads_bind; [apply class_context_reads; [done|apply lookup_lt_Some in Hn; unfold n_type_defs; lia]|]. intros ctx Hctx. cbn. split; [done|by apply map_Forall_insert_2].
    + intros [ctx expanded'] [Hctx He']. cbv beta iota. eapply reads_bind; [by apply classify_safe|]. intros verdict _. cbn [reads mret reading_ret].
      destruct verdict; cbn [fst snd]; (split; [|done]); first [by apply mark_out_ok|apply update_out_ok; [by apply record_keeps|done]].
Qed.

Lemma apply_impls_reads out : Z.of_nat (length starts) = cnt T table.TYPE_DEF -> out_ok out -> reads out_ok (apply_method_impls (md T) T it starts out).
Proof using HT HB Hstarts HM.
  intros Hlen Ho. unfold apply_method_impls. a_count. destruct (_ =? 0); [done|]. pose proof (cnt_range T HT table.TYPE_DEF ltac:(a_table)).
  eapply reads_bind; [apply (interface_impls_reads T HT); lia|]. intros impls [_ Hi]. cbv beta in *.
  eapply (reads_bind (fun acc => out_ok acc.1 /\ contexts_ok acc.2)); [apply reads_for_each|].
  - split; [done|apply map_Forall_empty].
  - intros acc i [Hge _]%elem_of_indices Hacc. by apply apply_impl_reads.
  - intros [out' ex] [Hout _]. exact Hout.
Qed.
End pass.

(** ** All members *)

Lemma read_members_reads T B keep s0 starts gps : accepted T -> bounded T B -> (forall t r, keep (t, r) -> t = table.TYPE_DEF \/ t = table.ASSEMBLY) ->
  starts_ok (cnt T table.METHOD_DEF) starts -> n_methods B = run_sizes (cnt T table.METHOD_DEF) starts -> Z.of_nat (length starts) = cnt T table.TYPE_DEF ->
  gps_ok T B gps ->
  drains B keep s0 (out_ok T B starts) (read_members (md T) T (image_tables T) starts gps (cnt T table.TYPE_DEF)).
Proof.
  intros HT HB Hkeep Hs HM Hl Hg. unfold read_members. eapply drains_lift_bind; [by apply member_tables_reads|]. intros mt Hmt.
  eapply drains_bind; [apply all_members_reads; [done|done|done|exact Hs|done|done|done|]|].
  - apply Forall_forall. by intros i Hi%elem_of_indices.
  - intros out Hout. apply drains_lift. by apply apply_impls_reads.
Qed.
