(* ===== verification/ImageThm.v ===== *)
(** * The whole reader: no file makes it panic, and images are closed

    About [Image]: reading a file ends with an image or with a structural error; in
    the image every handle is in range, the accessors of a type are its methods, the
    methods of the types are the rows of the method table in order, and the
    attributes of a type are the rows of the attribute table with that parent. *)

From stdpp Require Import gmap.
From S2P Require Import Prelude Order Cursor Signature SignatureThm Metadata TableFormat Tables Manifest TablesThm MetadataThm ImageModel TypeDefs Members.
From S2P Require Import MethodImpls Image ImageInv MembersThm MethodImplsThm Attributes AttributesThm.
Local Open Scope Z_scope.

(** ** Runs cover their table *)

Lemma range_seqZ a b : range a b = seqZ a (b - a).
Proof. unfold range, indices, seqZ. rewrite map_map. apply map_ext. intros i. lia. Qed.

Lemma indices_seqZ n : indices n = seqZ 0 n.
Proof. unfold indices, seqZ. apply map_ext. intros i. lia. Qed.

Lemma range_app a b c : a <= b <= c -> range a b ++ range b c = range a c.
Proof.
  intros H. rewrite !range_seqZ. replace (c - a) with ((b - a) + (c - b)) by lia. rewrite seqZ_app by lia. by replace (a + (b - a)) with b by lia.
Qed.

(** The runs of a list of starts are the rest of the table. *)
Lemma runs_concat count starts s : (forall i a, starts !! i = Some a -> 1 <= a <= run_end count starts i /\ run_end count starts i <= count + 1) -> head starts = Some s ->
  concat (imap (fun i a => range a (run_end count starts i)) starts) = range s (count + 1).
Proof.
  revert s. induction starts as [|x starts IH]; intros s Hs [= <-]. rewrite imap_cons. cbn [concat].
  destruct (Hs 0%nat x eq_refl) as [Hx Hx']. destruct starts as [|y starts].
  - cbn. by rewrite app_nil_r.
  - change (run_end count (x :: y :: starts) 0) with y in *.
    transitivity (range x y ++ concat (imap (fun i a => range a (run_end count (y :: starts) i)) (y :: starts))); [reflexivity|]. rewrite (IH y); [apply range_app; lia| |done].
    intros i a Hi. apply (Hs (S i) a Hi).
Qed.

(** ** The index is grouped by parent *)

Definition with_parent (k : Z * Z) (rows : list (option (Z * Z * RawAttribute))) : list RawAttribute :=
  omap (fun o => match o with Some (t, r, a) => if decide ((t, r) = k) then Some a else None | None => None end) rows.

Lemma index_grouped m T starts (l : list Z) (s s' : CustomAttributeIndex) :
  for_each (fun by_parent i =>
    a ← read_custom_attribute m T starts i;
    mret (match a with Some (t, r, a) => push_attribute by_parent (t, r) a | None => by_parent end)) s l = Got s' ->
  exists rows, collect (read_custom_attribute m T starts) l = Got rows
  /\ forall k, default [] (s' !! k) = default [] (s !! k) ++ with_parent k rows.
Proof.
  revert s. induction l as [|i l IH]; intros s.
  - intros [= <-]. exists []. split; [done|]. intros k. cbn. by rewrite app_nil_r.
  - cbn [for_each collect]. intros (s1 & (a & Ea & [= <-])%got_bind & E)%got_bind. rewrite Ea. cbn [mbind reading_bind]. apply IH in E as (rows & -> & Hrows).
    exists (a :: rows). split; [done|]. intros k. rewrite Hrows. destruct a as [[[t r] a]|]; [|done]. unfold push_attribute, CustomAttributeIndex in *. cbn.
    destruct (decide ((t, r) = k)) as [<-|Hne]; [rewrite lookup_insert_eq; cbn; by rewrite <- app_assoc|]. by rewrite lookup_insert_ne.
Qed.

(** ** Definitions *)

(** A step that takes nothing. *)
Lemma reads_still {A C} (P : A -> Prop) (Q : C * CustomAttributeIndex -> Prop) (f : draining A) (k : A -> draining C) s :
  reads (fun '(a, s') => s' = s /\ P a) (f s) -> (forall a, P a -> reads Q (k a s)) -> reads Q ((f ≫= k) s).
Proof. intros Hf Hk. eapply reads_bind; [exact Hf|]. intros [a s'] [-> Ha]. by apply Hk. Qed.

Lemma still_lift {A} (P : A -> Prop) (m : reading A) s : reads P m -> reads (fun '(a, s') => s' = s /\ P a) (lift m s).
Proof. intros Hm. eapply reads_bind; [exact Hm|]. done. Qed.

Ltac still := eapply reads_still; [apply still_lift|].
Ltac still_column k := still; [eapply (column_reads _ ltac:(eassumption) _ _ k); [eassumption|reflexivity|reflexivity]|]; intros ? ?; cbv beta in *.
Ltac still_name := eapply (reads_still (fun _ => True)); [apply still_lift, string_at_reads|]; intros ? _; cbv beta in *.

(** The attributes of the types from [i] on, and of the assembly. *)
Definition keep_from (i : Z) (k : Z * Z) : Prop := (k.1 = table.TYPE_DEF /\ i < k.2) \/ k.1 = table.ASSEMBLY.

Lemma take_def_ok B s0 i s : 0 <= i -> index_ok B (keep_from i) s0 s ->
  closed B (default [] (s0 !! (table.TYPE_DEF, i + 1))) /\ take_attrs table.TYPE_DEF (i + 1) s = Got (default [] (s0 !! (table.TYPE_DEF, i + 1)), delete (table.TYPE_DEF, i + 1) s)
  /\ index_ok B (keep_from (i + 1)) s0 (delete (table.TYPE_DEF, i + 1) s).
Proof.
  intros Hi [Hc Hk]. unfold take_attrs, CustomAttributeIndex in *. rewrite <- (Hk (table.TYPE_DEF, i + 1)) by (left; cbn; lia). split_and!; [|done|split].
  - destruct (s !! _) as [l|] eqn:E; cbn; [by eapply Hc|apply closed_nil].
  - unfold CustomAttributeIndex in *. intros k l [_ H]%lookup_delete_Some. by eapply Hc.
  - intros k Hkk. unfold CustomAttributeIndex in *. rewrite lookup_delete_ne; [apply Hk; destruct Hkk as [[? ?]|?]; [left; split; [done|lia]|by right]|].
    intros <-. destruct Hkk as [[_ ?]|?]; cbn in *; [lia|done].
Qed.

Section definitions.
Context (T : Tables) (HT : accepted T) (B : Bounds) (HB : bounded T B) (starts : list Z) (s0 : CustomAttributeIndex) (tp : TypeParts).
Local Notation it := (image_tables T).
Local Notation count := (cnt T table.TYPE_DEF).
Context (Hnest : nesting_ok count (tp_enclosing tp, tp_nested tp)) (Hifc : tokens_ok count (tp_interfaces tp)).
Context (Hgps : Z.of_nat (length (tp_gps tp)) = count /\ Forall (closed B) (tp_gps tp)) (Hmem : out_ok T B starts (tp_members tp)).

Record def_ok (i : Z) (d : TypeDef) : Prop := {
  df_closed : closed B d;
  df_tokens : map token (methods d) = map method_token (range (method_run T starts (Z.to_nat i)).1 (method_run T starts (Z.to_nat i)).2);
  df_accessors : Forall (fun k => 0 <= k < (method_run T starts (Z.to_nat i)).2 - (method_run T starts (Z.to_nat i)).1)
    (flat_map property_accessors (properties d) ++ flat_map event_accessors (events d));
  df_enclosing : tp_enclosing tp !! Z.to_nat i = Some (enclosing d);
  df_nested : tp_nested tp !! Z.to_nat i = Some (nested d);
  df_attributes : t_attributes d = default [] (s0 !! (table.TYPE_DEF, i + 1)) }.

Lemma enclosing_closed c o : tp_enclosing tp !! c = Some o -> closed B (ToTypeDef <$> o).
Proof using HB Hnest.
  intros Ho. destruct o as [p|]; [|apply closed_none]. destruct Hnest as (_ & Hl & _ & Hn). cbn [fst snd] in *. destruct (Hn c p Ho) as (Hp & l & Hl' & _).
  apply (closed_link B (ToTypeDef p)). cbn. rewrite (bd_defs _ _ HB). apply lookup_lt_Some in Hl'. lia.
Qed.

Lemma nested_closed c l : tp_nested tp !! c = Some l -> closed B (ToTypeDef <$> l).
Proof using HB Hnest.
  intros Hl. destruct Hnest as (_ & _ & Hb & _). cbn [snd] in Hb. rewrite Forall_lookup in Hb. apply Hb in Hl. apply closed_list, Forall_fmap. eapply Forall_impl; [exact Hl|].
  intros i Hi. apply (closed_link B (ToTypeDef i)). cbn. by rewrite (bd_defs _ _ HB).
Qed.

Lemma members_lookup i : 0 <= i < count -> exists tm, tp_members tp !! Z.to_nat i = Some tm /\ members_ok B (method_run T starts (Z.to_nat i)) tm.
Proof using Hmem.
  intros Hi. unfold out_ok in Hmem. rewrite Forall2_lookup in Hmem. specialize (Hmem (Z.to_nat i)).
  rewrite indices_seqZ, lookup_seqZ_lt in Hmem by lia. rewrite Z.add_0_l, Z2Nat.id in Hmem by lia. inversion Hmem; subst. eauto.
Qed.

Lemma type_def_reads i s : 0 <= i < count -> index_ok B (keep_from i) s0 s ->
  reads (fun '(d, s') => def_ok i d /\ index_ok B (keep_from (i + 1)) s0 s') (build_type_def (md T) T it tp i s).
Proof using HT HB Hnest Hifc Hgps Hmem.
  intros Hi Hs. destruct Hnest as (Hne & Hnn & _). cbn [fst snd] in *. destruct Hifc as [Hil Hif]. destruct Hgps as [Hgl Hg]. destruct (members_lookup i Hi) as (tm & Etm & [Hc Htok Hacc]).
  unfold build_type_def. still; [eapply table_row; [eassumption|a_table|lia]|]. intros R [HR _]. still_column 0%nat. still_column 1%nat. still_name. still_column 2%nat. still_name. still_column 3%nat.
  eapply (reads_still (closed B)); [destruct (_ =? 0); [split; [done|apply closed_none]|]; eapply reads_bind; [apply still_lift; by apply type_token_reads|]; by intros [sig s'] [-> Hsig]|].
  intros ext Hext. still; [apply reads_at_index; lia|]. intros toks Etoks. cbv beta in *. rewrite Forall_lookup in Hif. specialize (Hif _ _ Etoks). rewrite Forall_forall in Hif.
  still; [apply (reads_collect_all (closed B)); intros tok Htk; apply type_token_reads; [done|done|by apply Hif]|]. intros imps [_ Himps]. cbv beta in *.
  still; [apply reads_at_index; lia|]. intros gps Egps. cbv beta in *. rewrite Forall_lookup in Hg. specialize (Hg _ _ Egps).
  still; [apply reads_at_index; ids; lia|]. intros enc Eenc. cbv beta in *. still; [apply reads_at_index; ids; lia|]. intros nest Enest. cbv beta in *.
  still; [apply reads_at_index; apply lookup_lt_Some in Etm; lia|]. intros tm' Etm'. cbv beta in *. rewrite Etm in Etm'. injection Etm' as <-.
  destruct (take_def_ok B s0 i s ltac:(lia) Hs) as (Hattr & Etake & Hs'). eapply reads_bind; [rewrite Etake; exact (conj eq_refl eq_refl : (fun '(a, s') => a = _ /\ s' = _) (_, _))|].
  intros [attrs s'] [-> ->]. cbv beta iota. cbn [reads mret draining_ret]. split; [|exact Hs']. apply closed_members in Hc as (Hm & Hf & Hp & He).
  split; try done. apply closed_type_def. cbn. split_and!; [by eapply enclosing_closed|by eapply nested_closed|done|by apply closed_list|done..].
Qed.

Lemma type_defs_reads n i s : 0 <= i -> i + Z.of_nat n = count -> index_ok B (keep_from i) s0 s ->
  reads (fun '(ds, s') => Forall2 def_ok (seqZ i (Z.of_nat n)) ds /\ index_ok B (keep_from count) s0 s') (drain (build_type_def (md T) T it tp) (seqZ i (Z.of_nat n)) s).
Proof using HT HB Hnest Hifc Hgps Hmem.
  revert i s. induction n as [|n IH]; intros i s Hi Hn Hs.
  - cbn. split; [constructor|]. by replace count with i by lia.
  - rewrite seqZ_cons by lia. replace (Z.pred (Z.of_nat (S n))) with (Z.of_nat n) by lia. cbn [drain]. eapply reads_bind; [apply type_def_reads; [lia|exact Hs]|].
    intros [d s'] [Hd Hs']. cbv beta iota. eapply reads_bind; [apply (IH (Z.succ i)); [lia|lia|]; by replace (Z.succ i) with (i + 1) by lia|].
    intros [ds s''] [Hds Hs'']. cbn. split; [by constructor|done].
Qed.
End definitions.

(** ** All types *)

Definition bounds_for (T : Tables) (starts : list Z) : Bounds :=
  {| n_methods := run_sizes (cnt T table.METHOD_DEF) starts; n_type_refs := cnt T table.TYPE_REF; n_member_refs := cnt T table.MEMBER_REF;
     n_assembly_refs := cnt T table.ASSEMBLY_REF |}.

Lemma bounds_for_bounded T starts : Z.of_nat (length starts) = cnt T table.TYPE_DEF -> bounded T (bounds_for T starts).
Proof. intros H. split; try done. unfold n_type_defs, bounds_for, run_sizes. cbn. by rewrite length_imap. Qed.

(** What [read_types] returns, with the starts, the index and the nesting it read. *)
Record types_ok (T : Tables) (starts : list Z) (s0 : CustomAttributeIndex) (tp : TypeParts) (ts : Types) : Prop := {
  to_starts : read_method_starts T = Got starts;
  to_index : CustomAttributeIndex_build (md T) T starts = Got s0;
  to_starts_ok : starts_ok (cnt T table.METHOD_DEF) starts;
  to_length : Z.of_nat (length starts) = cnt T table.TYPE_DEF;
  to_nesting : nesting_ok (cnt T table.TYPE_DEF) (tp_enclosing tp, tp_nested tp);
  to_defs : Forall2 (def_ok T (bounds_for T starts) starts s0 tp) (indices (cnt T table.TYPE_DEF)) (ts_type_defs ts);
  to_top_level : ts_top_level ts = top_level_from 0 (tp_enclosing tp);
  to_type_refs : Z.of_nat (length (ts_type_refs ts)) = cnt T table.TYPE_REF /\ closed (bounds_for T starts) (ts_type_refs ts);
  to_member_refs : Z.of_nat (length (ts_member_refs ts)) = cnt T table.MEMBER_REF /\ closed (bounds_for T starts) (ts_member_refs ts);
  to_assembly : ts_assembly_attributes ts = default [] (s0 !! (table.ASSEMBLY, 1)) /\ closed (bounds_for T starts) (ts_assembly_attributes ts) }.

Lemma layout_reads T : accepted T -> reads (fun _ => True) (ensure_optimized_layout T).
Proof.
  intros HT. apply reads_for_each; [done|]. intros [] t Ht _. rewrite row_count_got; [|done|].
  - cbn [mbind reading_bind]. eapply reads_mono; [apply reads_unless|done].
  - revert t Ht. apply Forall_forall. repeat constructor; done.
Qed.

Lemma read_types_reads T : accepted T -> reads (fun ts => exists starts s0 tp, types_ok T starts s0 tp ts) (read_types (md T)).
Proof.
  intros HT. pose proof (acc_tables _ HT) as [_ HN]. pose proof (cnt_range T HT table.TYPE_DEF ltac:(a_table)) as Hd. pose proof (cnt_range T HT table.METHOD_DEF ltac:(a_table)) as Hm.
  unfold read_types. rewrite HN. cbn [mbind reading_bind]. eapply reads_bind; [by apply layout_reads|]. intros [] _. rewrite !row_count_got by (assumption || a_table).
  cbn [mbind reading_bind]. cbv zeta. change {| type_def_rows := cnt T table.TYPE_DEF; type_ref_rows := cnt T table.TYPE_REF |} with (image_tables T).
  pose proof (bounds_for_bounded T (replicate (Z.to_nat (cnt T table.TYPE_DEF)) 0) ltac:(rewrite length_replicate; lia)) as HB0.
  eapply reads_bind; [apply reads_self; by apply (type_refs_reads T HT _ HB0)|]. intros trs [Etrs [Htrs _]]. cbv beta.
  eapply reads_bind; [apply reads_self; by apply (member_refs_reads T HT _ HB0)|]. intros mrs [Emrs [Hmrs _]]. cbv beta.
  eapply reads_bind; [apply reads_self; exact (starts_reads T HT table.TYPE_DEF 5 _ _ ltac:(a_table) eq_refl eq_refl)|]. intros starts [Est Hlen]. cbv beta in *.
  eapply reads_bind; [by apply validate_reads|]. intros [] Hst. cbv beta in *. pose proof (bounds_for_bounded T starts Hlen) as HB. set (B := bounds_for T starts) in *.
  pose proof (reads_got _ _ _ (type_refs_reads T HT B HB) Etrs) as Htrs'. pose proof (reads_got _ _ _ (member_refs_reads T HT B HB) Emrs) as Hmrs'.
  eapply reads_bind; [apply reads_self; by apply (index_build_reads T HT B HB starts Hst eq_refl)|]. intros s0 [Es0 Hs0]. cbv beta in *.
  eapply reads_bind; [apply (nesting_reads T HT); lia|]. intros [enc nest] Hnest. cbv beta iota.
  eapply reads_bind; [apply (interface_impls_reads T HT); lia|]. intros ifc Hifc. cbv beta in *.
  assert (Hkeep : forall t r, keep_from 0 (t, r) -> t = table.TYPE_DEF \/ t = table.ASSEMBLY) by (intros t r [[? _]|?]; auto).
  eapply reads_bind; [apply (read_generic_params_reads T HT B HB (keep_from 0) s0 Hkeep); [lia|by split]|]. intros [gps s1] [[Htg Hmg] Hs1]. cbv beta iota.
  eapply reads_bind; [apply (read_members_reads T B (keep_from 0) s0 starts); [done..|exact Hs1]|]. intros [members s2] [Hmem Hs2]. cbv beta iota.
  set (tp := {| tp_enclosing := enc; tp_nested := nest; tp_interfaces := ifc; tp_gps := type_gps gps; tp_members := members |}).
  pose proof (type_defs_reads T HT B HB starts s0 tp Hnest Hifc Htg Hmem (Z.to_nat (cnt T table.TYPE_DEF)) 0 s2 ltac:(lia) ltac:(lia) Hs2) as Hdefs.
  rewrite Z2Nat.id in Hdefs by lia. rewrite <- indices_seqZ in Hdefs. eapply reads_bind; [exact Hdefs|]. intros [defs s3] [Hds [Hc3 Hk3]].
  cbv beta iota. unfold take_attrs. cbn [mbind reading_bind reads mret reading_ret].
  exists starts, s0, tp. split; try done. cbn [ts_assembly_attributes]. unfold CustomAttributeIndex in *. rewrite (Hk3 (table.ASSEMBLY, 1)) by (by right). split; [done|].
  destruct (s0 !! _) as [l|] eqn:E; cbn; [by eapply Hs0|apply closed_nil].
Qed.

(** ** Images *)

Lemma map_lookup {A C} (f : A -> C) l i : map f l !! i = f <$> l !! i.
Proof. apply list_lookup_fmap. Qed.

Lemma elem_of_top_level (l : list (option TypeDefId)) i k : k ∈ top_level_from i l <-> i <= k /\ l !! Z.to_nat (k - i) = Some None.
Proof.
  revert i. induction l as [|o l IH]; intros i; cbn [top_level_from]; [rewrite lookup_nil, elem_of_nil; naive_solver|]. rewrite elem_of_app, IH.
  destruct (decide (k = i)) as [->|Hne].
  - rewrite Z.sub_diag. destruct o; cbn; rewrite ?elem_of_nil, ?list_elem_of_singleton; split; intros; try (by left); try naive_solver lia. 
  - destruct (decide (i < k)) as [Hlt|Hge].
    + replace (Z.to_nat (k - i)) with (S (Z.to_nat (k - (i + 1)))) by lia. cbn. destruct o; rewrite ?elem_of_nil, ?list_elem_of_singleton; naive_solver lia.
    + destruct o; rewrite ?elem_of_nil, ?list_elem_of_singleton; naive_solver lia.
Qed.

Section image.
Context (T : Tables) (starts : list Z) (s0 : CustomAttributeIndex) (tp : TypeParts) (ts : Types) (Hts : types_ok T starts s0 tp ts).
Local Notation B := (bounds_for T starts).

Lemma defs_length : length (ts_type_defs ts) = length starts.
Proof using Hts.
  pose proof (to_length _ _ _ _ _ Hts). rewrite <- (Forall2_length _ _ _ (to_defs _ _ _ _ _ Hts)). pose proof (length_indices (cnt T table.TYPE_DEF)). lia.
Qed.

Lemma def_at i d : ts_type_defs ts !! i = Some d ->
  exists s, starts !! i = Some s /\ def_ok T B starts s0 tp (Z.of_nat i) d /\ method_run T starts i = (s, run_end (cnt T table.METHOD_DEF) starts i).
Proof using Hts.
  intros Hi. pose proof (lookup_lt_Some _ _ _ Hi) as Hlt. rewrite defs_length in Hlt. destruct (lookup_lt_is_Some_2 starts i Hlt) as [s Hs]. exists s.
  split_and!; [done| |unfold method_run; by rewrite Hs]. pose proof (to_defs _ _ _ _ _ Hts) as Hd. rewrite Forall2_lookup in Hd. specialize (Hd i). rewrite Hi in Hd.
  pose proof (to_length _ _ _ _ _ Hts). rewrite indices_seqZ, lookup_seqZ_lt in Hd by lia. rewrite Z.add_0_l in Hd. by inversion Hd.
Qed.

Lemma method_count i d s : ts_type_defs ts !! i = Some d -> starts !! i = Some s -> Z.of_nat (length (methods d)) = run_end (cnt T table.METHOD_DEF) starts i - s.
Proof using Hts.
  intros Hi Hs. destruct (def_at i d Hi) as (s' & Hs' & Hd & Er). rewrite Hs in Hs'. injection Hs' as <-. pose proof (df_tokens _ _ _ _ _ _ _ Hd) as Ht.
  rewrite Nat2Z.id, Er in Ht. cbn [fst snd] in Ht. apply (f_equal (@length Z)) in Ht. rewrite !length_map in Ht. rewrite Ht. apply length_range.
  by destruct (run_ordered _ _ _ _ (to_starts_ok _ _ _ _ _ Hts) Hs) as [[_ ?] _].
Qed.

Lemma method_counts : map (fun d => Z.of_nat (length (methods d))) (ts_type_defs ts) = run_sizes (cnt T table.METHOD_DEF) starts.
Proof using Hts.
  apply list_eq. intros i. unfold run_sizes. rewrite list_lookup_imap. rewrite map_lookup.
  destruct (ts_type_defs ts !! i) as [d|] eqn:Hi.
  - destruct (def_at i d Hi) as (s & Hs & _). rewrite Hs. cbn. f_equal. by apply method_count.
  - apply lookup_ge_None in Hi. rewrite defs_length in Hi. by rewrite (proj2 (lookup_ge_None _ _) Hi).
Qed.

Lemma all_tokens : exists n, concat (map (fun d => map token (methods d)) (ts_type_defs ts)) = map method_token (range 1 (n + 1)).
Proof using Hts.
  assert (E : map (fun d => map token (methods d)) (ts_type_defs ts) = map (map method_token) (imap (fun i a => range a (run_end (cnt T table.METHOD_DEF) starts i)) starts)).
  { apply list_eq. intros i. rewrite !map_lookup, list_lookup_imap. destruct (ts_type_defs ts !! i) as [d|] eqn:Hi.
    - destruct (def_at i d Hi) as (s & Hs & Hd & Er). rewrite Hs. cbn. f_equal. pose proof (df_tokens _ _ _ _ _ _ _ Hd) as Ht. rewrite Nat2Z.id, Er in Ht. exact Ht.
    - apply lookup_ge_None in Hi. rewrite defs_length in Hi. by rewrite (proj2 (lookup_ge_None _ _) Hi). }
  rewrite E, <- concat_map. pose proof (to_starts_ok _ _ _ _ _ Hts) as Hok. revert Hok. generalize (cnt T table.METHOD_DEF) as n. clear. generalize starts as l.
  intros [|s rest] n Hok; [by exists 0|]. exists n. rewrite (runs_concat _ (s :: rest) s); [|intros i a Hi; by apply run_ordered|done].
  by rewrite (st_first _ _ Hok s eq_refl).
Qed.

Lemma top_level_closed : closed B (ToTypeDef <$> ts_top_level ts).
Proof using Hts.
  rewrite (to_top_level _ _ _ _ _ Hts). destruct (to_nesting _ _ _ _ _ Hts) as [Hl _]. cbn [fst] in Hl. apply closed_list, Forall_fmap, Forall_forall.
  intros k [Hk He]%elem_of_top_level. apply lookup_lt_Some in He. apply (closed_link B (ToTypeDef k)). cbn.
  rewrite (bd_defs _ _ (bounds_for_bounded T starts (to_length _ _ _ _ _ Hts))). ids. lia.
Qed.

Lemma types_image_ok img : type_defs img = ts_type_defs ts -> top_level img = ts_top_level ts -> type_refs img = ts_type_refs ts -> member_refs img = ts_member_refs ts ->
  assembly_attributes img = ts_assembly_attributes ts -> Z.of_nat (length (references img)) = cnt T table.ASSEMBLY_REF -> bounds_of img = B /\ image_ok img.
Proof using Hts.
  intros E1 E2 E3 E4 E5 E6. destruct (to_type_refs _ _ _ _ _ Hts) as [Hr Hrc]. destruct (to_member_refs _ _ _ _ _ Hts) as [Hm Hmc].
  assert (EB : bounds_of img = B). { unfold bounds_of, bounds_for. by rewrite E1, E3, E4, E6, method_counts, Hr, Hm. }
  split; [done|]. split; rewrite ?EB, ?E1, ?E2.
  - apply closed_image. rewrite E1, E2, E3, E4, E5. split_and!; [apply (to_assembly _ _ _ _ _ Hts)| |apply top_level_closed|done|done].
    apply closed_list, Forall_lookup. intros i d Hi. destruct (def_at i d Hi) as (s & _ & Hd & _). apply Hd.
  - apply Forall_lookup. intros i d Hi. destruct (def_at i d Hi) as (s & Hs & Hd & Er). unfold accessors_in. rewrite (method_count i d s Hi Hs).
    pose proof (df_accessors _ _ _ _ _ _ _ Hd) as Ha. by rewrite Nat2Z.id, Er in Ha.
  - intros c d p Hc Hp. destruct (def_at c d Hc) as (s & _ & Hd & _). pose proof (df_enclosing _ _ _ _ _ _ _ Hd) as He. rewrite Nat2Z.id, Hp in He.
    destruct (to_nesting _ _ _ _ _ Hts) as (_ & Hl & _ & Hn). cbn [fst snd] in *. destruct (Hn c p He) as (Hp0 & l & Hl' & Hin).
    destruct (lookup_lt_is_Some_2 (ts_type_defs ts) (Z.to_nat p)) as [e Ee]; [rewrite defs_length; pose proof (to_length _ _ _ _ _ Hts); apply lookup_lt_Some in Hl'; ids; lia|].
    exists e. split; [done|]. destruct (def_at _ e Ee) as (s' & _ & Hd' & _). pose proof (df_nested _ _ _ _ _ _ _ Hd') as Hn'. rewrite Nat2Z.id, Hl' in Hn'. injection Hn' as <-. done.
  - intros i. rewrite (to_top_level _ _ _ _ _ Hts), elem_of_top_level, Z.sub_0_r. destruct (to_nesting _ _ _ _ _ Hts) as [Hl _]. cbn [fst] in Hl.
    pose proof (to_length _ _ _ _ _ Hts) as Hlen. split; intros [Hge H]; (split; [done|]).
    + destruct (lookup_lt_is_Some_2 (ts_type_defs ts) (Z.to_nat i)) as [d Hd]; [rewrite defs_length; apply lookup_lt_Some in H; ids; lia|]. exists d. split; [done|].
      destruct (def_at _ d Hd) as (s & _ & Hok & _). pose proof (df_enclosing _ _ _ _ _ _ _ Hok) as He. rewrite Nat2Z.id, H in He. by injection He as <-.
    + destruct H as (d & Hd & Hn). destruct (def_at _ d Hd) as (s & _ & Hok & _). pose proof (df_enclosing _ _ _ _ _ _ _ Hok) as He. by rewrite Nat2Z.id, Hn in He.
  - apply all_tokens.
Qed.
End image.

(** ** The whole file *)

(** What a file that was read gives. *)
Record parsed (bytes : list Z) (img : Image) (T : Tables) (starts : list Z) (s0 : CustomAttributeIndex) (tp : TypeParts) (ts : Types) : Prop := {
  pd_file : exists m, MetadataFile_read bytes = Got m /\ Tables_new m = Got T;
  pd_accepted : accepted T;
  pd_types : types_ok T starts s0 tp ts;
  pd_defs : type_defs img = ts_type_defs ts;
  pd_assembly : assembly_attributes img = ts_assembly_attributes ts;
  pd_ok : image_ok img }.

Lemma assembly_refs_reads T : accepted T -> reads (fun l => Z.of_nat (length l) = cnt T table.ASSEMBLY_REF) (read_assembly_refs T).
Proof.
  intros HT. unfold read_assembly_refs. a_count. eapply reads_mono; [apply (reads_collect_all (fun _ => True))|].
  - intros r Hr%indices_nonneg. apply read_assembly_ref_reads; [apply HT|done].
  - intros l [Hl _]. rewrite Hl. apply length_indices. pose proof (cnt_range T HT table.ASSEMBLY_REF ltac:(a_table)). lia.
Qed.

Lemma parse_reads bytes : in_memory bytes -> reads (fun img => exists T starts s0 tp ts, parsed bytes img T starts s0 tp ts) (parse bytes).
Proof.
  intros Hb. unfold parse. eapply reads_bind; [apply reads_self; by apply MetadataFile_read_reads|]. intros m [Em [Hwf _ _ Hblobs _ _ Hsmall]]. cbv beta.
  eapply reads_bind; [apply reads_self; by apply new_ok|]. intros T [ET HT]. cbv beta. destruct (new_widths _ _ ET) as [Emd _].
  assert (Hacc : accepted T) by (split; rewrite ?Emd; [done|done|by eapply in_memory_part]). destruct (manifest_reads T HT) as (H1 & _ & H3 & H4). rewrite Emd in H3.
  eapply reads_bind; [exact H1|]. intros a _. cbv beta. eapply reads_bind; [by apply assembly_refs_reads|]. intros refs Hrefs. cbv beta in *.
  eapply reads_bind; [exact H3|]. intros rs _. cbv beta. eapply reads_bind; [exact H4|]. intros fwd _. cbv beta.
  pose proof (read_types_reads T Hacc) as Ht. rewrite Emd in Ht. eapply reads_bind; [exact Ht|]. intros ts (starts & s0 & tp & Hts). cbn [reads mret reading_ret].
  exists T, starts, s0, tp, ts. split; [by exists m|done|done|done|done|]. by eapply types_image_ok.
Qed.

(** ** Attributes of an image *)

Lemma attribute_held {A} `{Parts A} B (x : A) a : closed B x -> a ∈ attributes x -> link_in B (ctor_link (ctor a)).
Proof.
  intros Hx (p & Hp & E)%list_elem_of_omap. destruct p as [a'|l]; [|done]. injection E as ->. unfold closed in Hx. rewrite Forall_forall in Hx. exact (Hx _ Hp).
Qed.

Lemma settles_index {A} (v : list A) i : 0 <= i < Z.of_nat (length v) -> settles (index_or_panic v i).
Proof.
  intros Hi. unfold index_or_panic. rewrite (proj2 (Z.leb_le _ _)) by lia. destruct (lookup_lt_is_Some_2 v (Z.to_nat i)) as [x ->]; [lia|done].
Qed.

Lemma index_decoded {A} (v : list A) i x : index_or_panic v i = Decoded x -> v !! Z.to_nat i = Some x.
Proof. unfold index_or_panic. destruct (_ <=? _); [|done]. destruct (v !! _); [|done]. by intros [= ->]. Qed.

Lemma index_at {A} (v : list A) i x : 0 <= i -> v !! Z.to_nat i = Some x -> index_or_panic v i = Decoded x.
Proof. intros Hi Hx. unfold index_or_panic. by rewrite (proj2 (Z.leb_le _ _)), Hx by lia. Qed.

Section attribute.
Context (img : Image) (Himg : image_ok img).
Local Notation B := (bounds_of img).

Lemma n_type_defs_of : n_type_defs B = Z.of_nat (length (type_defs img)).
Proof using. unfold n_type_defs, bounds_of. cbn. by rewrite length_map. Qed.

Lemma settles_scope s : closed B s -> settles (scope_type_name img s).
Proof using.
  intros Hs%Forall_inv. cbn in Hs. destruct s as [i|i]; cbn in *; (apply settles_bind; [apply settles_index|done]); [by rewrite <- n_type_defs_of|done].
Qed.

Lemma resolves_closed t : closed B t -> resolves (scope_type_name img) t.
Proof using.
  induction t using TypeSig_nested_ind; cbn [resolves]; try done; [apply settles_scope|]. intros [_ Ht]%Forall_app. by apply IHt.
Qed.

Lemma closed_def i d : type_defs img !! i = Some d -> closed B d.
Proof using Himg.
  intros Hi. pose proof (io_closed _ Himg) as Hc. apply closed_image in Hc as (_ & Hd%closed_list & _). rewrite Forall_lookup in Hd. by eapply Hd.
Qed.

Lemma closed_member_ref i r : member_refs img !! i = Some r -> closed B r.
Proof using Himg.
  intros Hi. pose proof (io_closed _ Himg) as Hc. apply closed_image in Hc as (_ & _ & _ & _ & Hd%closed_list). rewrite Forall_lookup in Hd. by eapply Hd.
Qed.

Lemma settles_owner raw : link_in B (ctor_link (ctor raw)) -> settles (attribute_owning_type img raw).
Proof using Himg.
  intros Hl. unfold attribute_owning_type. destruct (ctor raw) as [o k|id]; cbn in Hl.
  - destruct Hl as (Ho & n & Hn & _). apply settles_bind; [apply settles_index|done]. apply lookup_lt_Some in Hn. rewrite length_map in Hn. lia.
  - apply settles_bind; [by apply settles_index|]. intros mr Hmr%index_decoded. apply closed_member_ref, Forall_app in Hmr as [Hp _].
    destruct (mr_parent mr) as [i|i|]; [| |done]; apply Forall_inv in Hp; cbn in Hp; (apply settles_bind; [apply settles_index|done]); [by rewrite <- n_type_defs_of|done].
Qed.

Lemma settles_params c : link_in B (ctor_link c) -> settles (ctor_param_types img c)
  /\ forall tys, ctor_param_types img c = Decoded tys -> Forall (fun t => resolves (scope_type_name img) (ty t)) tys.
Proof using Himg.
  intros Hl. assert (Hres : forall tys, closed B tys -> Forall (fun t : ModifiedType => resolves (scope_type_name img) (ty t)) tys).
  { intros tys Ht%closed_list. eapply Forall_impl; [exact Ht|]. intros t [_ Hty]%closed_modified. by apply resolves_closed. }
  unfold ctor_param_types. destruct c as [o k|id]; cbn in Hl.
  - destruct Hl as (Ho & n & Hn & Hk). rewrite map_lookup in Hn. apply fmap_Some in Hn as (d & Hd & ->). 
    destruct (lookup_lt_is_Some_2 (methods d) (Z.to_nat k)) as [x Hx]; [lia|]. rewrite (index_at _ _ _ Ho Hd). cbn [mbind decoding_bind].
    rewrite (index_at _ k x) by (done || lia). cbn [mbind decoding_bind].
    pose proof (closed_def _ _ Hd) as Hc. apply closed_type_def in Hc as (_ & _ & _ & _ & _ & Hm%closed_list & _). rewrite Forall_lookup in Hm. apply Hm, closed_method in Hx as (_ & Hs & _).
    destruct (m_signature x) as [sg|e]; cbn; [|done]. split; [done|]. intros tys [= <-]. apply Hres. apply (closed_method_sig B sg) in Hs as (_ & _ & Hp%closed_list).
    apply closed_list, Forall_map. eapply Forall_impl; [exact Hp|]. by intros p [Hty _]%closed_param.
  - split.
    + apply settles_bind; [by apply settles_index|]. intros mr _. by destruct (mr_signature mr).
    + intros tys. destruct (index_or_panic (member_refs img) id) as [mr| |] eqn:E; [|done..]. cbn [mbind decoding_bind]. apply index_decoded, closed_member_ref, Forall_app in E as [_ Hs].
      destruct (mr_signature mr) as [sg|e]; [|done]. intros [= <-]. apply Hres. by apply (closed_decoded_sig B sg) in Hs as [_ Hs].
Qed.

Lemma decode_attribute_settles raw w : link_in B (ctor_link (ctor raw)) -> settles (decode_attribute img raw w).
Proof using Himg.
  intros Hl. unfold decode_attribute. apply settles_bind; [by apply settles_owner|]. intros owning _. destruct (settles_params _ Hl) as [Hs Ht].
  apply settles_bind; [done|]. intros tys Htys. apply settles_blob. by apply Ht.
Qed.
End attribute.

(** ** The owner of a method *)

(** With a type to start from, every row has an owner, and its local index is where
    the row is in the run of the owner. *)
Lemma method_owner_got T starts r : accepted T -> starts_ok (cnt T table.METHOD_DEF) starts -> starts <> [] -> 1 <= r <= cnt T table.METHOD_DEF ->
  exists o s, method_owner starts r T = Got (Z.of_nat o, r - s) /\ starts !! o = Some s /\ s <= r < run_end (cnt T table.METHOD_DEF) starts o.
Proof.
  intros HT Hs Hne Hr. unfold method_owner. a_count. rewrite (proj2 (Z.eqb_neq r 0)), (proj2 (Z.ltb_ge _ r)) by lia. cbn [orb negb refuse_unless mbind reading_bind]. cbv zeta.
  destruct (start_partition_spec (fun start => start <=? r) starts) as (H1 & H2 & H3). set (p := partition_point _ starts) in *. cbv beta in *.
  assert (Hp : 1 <= p).
  { destruct (decide (p = 0)) as [E|]; [|lia]. destruct starts as [|s rest]; [done|]. rewrite E in H3. pose proof (proj1 (Z.leb_gt _ _) (H3 s eq_refl)).
    rewrite (st_first _ _ Hs s eq_refl) in *. lia. }
  rewrite (proj2 (Z.leb_le 1 p)) by lia. cbn [refuse_unless mbind reading_bind]. destruct (lookup_lt_is_Some_2 starts (Z.to_nat (p - 1))) as [s Es]; [lia|].
  unfold at_index. rewrite (proj2 (Z.leb_le _ _)), Es by lia. cbn [or_panic mbind reading_bind]. pose proof (H2 (Z.to_nat (p - 1)) s ltac:(lia) Es) as Hle%Z.leb_le.
  unfold sub_u32. rewrite (proj2 (Z.ltb_ge _ _)) by lia. exists (Z.to_nat (p - 1)), s. split_and!; [cbn; do 2 f_equal; lia|done|done|].
  unfold run_end. replace (S (Z.to_nat (p - 1))) with (Z.to_nat p) by lia. destruct (starts !! Z.to_nat p) as [e|]; cbn; [|lia]. by apply Z.leb_gt, H3.
Qed.

(** ** Theorems *)

(** C24: No file makes the reader panic, and what it returns is coherent.  Whatever
    the bytes, parsing an assembly ends with an image or with a structural error.  In
    the image every handle leads to an entry, wherever it stands: type references in
    signatures, base types, interfaces and constraints, nesting, the parents of
    references, the constructors of attributes.  Accessors are methods of their own
    type; an enclosing type lists what it encloses; the top level is what nothing
    encloses; and the methods of all types, in order, are consecutive rows of the
    method table. *)
Theorem parse_safe bytes : in_memory bytes -> parse bytes <> Panicked /\ forall img, parse bytes = Got img -> image_ok img.
Proof.
  intros Hb. pose proof (parse_reads bytes Hb) as H. destruct (parse bytes) as [img| |]; [|done|done]. split; [done|]. intros ? [= <-].
  destruct H as (T & starts & s0 & tp & ts & Hp). by apply Hp.
Qed.

(** C25: Decoding the attributes of a parsed assembly never panics: for an attribute at
    any position of the image, whatever its blob and whatever enum widths are known,
    decoding gives the attribute or a decoding error.  The decoder indexes types,
    methods and references by the handles of the image without a check of its own. *)
Theorem decode_attribute_total bytes img raw w : in_memory bytes -> parse bytes = Got img -> raw ∈ attributes img ->
  decode_attribute img raw w <> AttrPanicked.
Proof.
  intros Hb E Hraw. destruct (reads_got _ _ _ (parse_reads bytes Hb) E) as (T & starts & s0 & tp & ts & [_ _ _ _ _ Hok]).
  apply decode_attribute_settles; [done|]. eapply attribute_held; [|exact Hraw]. apply Hok.
Qed.

(** C26: The attributes of each type definition, and of the assembly, are exactly the
    rows of the attribute table with that parent, in the order of the table, although
    the index they are taken from is drained by every other position before. *)
Theorem type_attributes_exact bytes img : in_memory bytes -> parse bytes = Got img ->
  exists m T starts n rows, MetadataFile_read bytes = Got m /\ Tables_new m = Got T /\ read_method_starts T = Got starts
  /\ row_count T table.CUSTOM_ATTRIBUTE = Got n /\ collect (read_custom_attribute m T starts) (indices n) = Got rows
  /\ (forall i d, type_defs img !! i = Some d -> t_attributes d = with_parent (table.TYPE_DEF, Z.of_nat i + 1) rows)
  /\ assembly_attributes img = with_parent (table.ASSEMBLY, 1) rows.
Proof.
  intros Hb E. destruct (reads_got _ _ _ (parse_reads bytes Hb) E) as (T & starts & s0 & tp & ts & [(m & Em & ET) _ Hts Ed Ea _]).
  destruct (new_widths _ _ ET) as [Emd _]. pose proof (to_index _ _ _ _ _ Hts) as Ei. unfold CustomAttributeIndex_build in Ei.
  apply got_bind in Ei as (n & En & Ei%index_grouped). destruct Ei as (rows & Erows & Hrows). rewrite Emd in Erows.
  exists m, T, starts, n, rows. split_and!; [done|done|apply Hts|done|done| |].
  - intros i d Hi. rewrite Ed in Hi. destruct (def_at _ _ _ _ _ Hts i d Hi) as (s & _ & Hd & _). by rewrite (df_attributes _ _ _ _ _ _ _ Hd), Hrows.
  - by rewrite Ea, (proj1 (to_assembly _ _ _ _ _ Hts)), Hrows.
Qed.

(** The owner of a method is found exactly.  If the assembly has a type, the search
    over the starts of the types finds for every row of the method table the type and
    the local index at which the image holds the method of that row. *)
Theorem method_owner_exact bytes img : in_memory bytes -> parse bytes = Got img -> type_defs img <> [] ->
  exists m T starts n, MetadataFile_read bytes = Got m /\ Tables_new m = Got T /\ read_method_starts T = Got starts /\ row_count T table.METHOD_DEF = Got n
  /\ forall r, 1 <= r <= n -> exists o k d x, method_owner starts r T = Got (o, k) /\ type_defs img !! Z.to_nat o = Some d
     /\ methods d !! Z.to_nat k = Some x /\ token x = method_token r.
Proof.
  intros Hb E Hne. destruct (reads_got _ _ _ (parse_reads bytes Hb) E) as (T & starts & s0 & tp & ts & [(m & Em & ET) HT Hts Ed _ _]).
  exists m, T, starts, (cnt T table.METHOD_DEF). split_and!; [done|done|apply Hts|by apply row_count_got; [|a_table]|]. intros r Hr.
  assert (Hs : starts <> []) by (intros Es; apply Hne; rewrite Ed; pose proof (defs_length _ _ _ _ _ Hts) as Hl; rewrite Es in Hl; by apply nil_length_inv).
  destruct (method_owner_got T starts r HT (to_starts_ok _ _ _ _ _ Hts) Hs Hr) as (o & s & Eo & Hos & Hrun). rewrite Ed.
  destruct (lookup_lt_is_Some_2 (ts_type_defs ts) o) as [d Hd]; [rewrite (defs_length _ _ _ _ _ Hts); by eapply lookup_lt_Some|].
  destruct (def_at _ _ _ _ _ Hts o d Hd) as (s' & Hs' & Hok & Er). rewrite Hos in Hs'. injection Hs' as <-. pose proof (df_tokens _ _ _ _ _ _ _ Hok) as Ht. rewrite Nat2Z.id, Er in Ht. cbn [fst snd] in Ht.
  apply (f_equal (fun l => l !! Z.to_nat (r - s))) in Ht. rewrite !map_lookup, range_seqZ, lookup_seqZ_lt in Ht by lia. apply fmap_Some in Ht as (x & Hx & Et).
  exists (Z.of_nat o), (r - s), d, x. rewrite Nat2Z.id. split_and!; [done|done|done|]. rewrite <- Et. f_equal. lia.
Qed.

(** ** A small assembly

    A module type, a type with a constructor and with an attribute on it, and a type
    nested in that one. *)
Definition small_rows : list (list (list Z)) :=
  replicate 2 [] ++ [[[0; 1; 0; 0; 1; 1]; [1; 10; 18; 0; 1; 1]; [2; 5; 0; 0; 1; 2]]] ++ replicate 3 [] ++ [[[0; 0; 0x1806; 12; 1; 1]]]
  ++ replicate 5 [] ++ [[[67; 10; 5]]] ++ replicate 28 [] ++ [[[3; 2]]] ++ replicate 22 [].
Definition small_tilde : list Z :=
  let valid := Z.shiftl 1 2 + Z.shiftl 1 6 + Z.shiftl 1 12 + Z.shiftl 1 41 in
  zeros 6 ++ [0] ++ [1] ++ le 8 valid ++ zeros 8 ++ le 4 3 ++ le 4 1 ++ le 4 1 ++ le 4 1
  ++ encode_tables {| wide_strings := false; wide_guid := false; wide_blob := false |} (counts small_rows) small_rows.
Definition small_assembly : list Z :=
  sample_image (sample_metadata ([0] ++ ascii_bytes (#"App") ++ [0] ++ ascii_bytes (#"Core") ++ [0] ++ ascii_bytes (#"C") ++ [0] ++ ascii_bytes (#".ctor") ++ [0] ++ ascii_bytes (#"N") ++ [0])
    [0; 3; 0x20; 0; 1; 4; 1; 0; 0; 0] (zeros 16) small_tilde).

Lemma small_assembly_in_memory : in_memory small_assembly.
Proof.
  split; [|by vm_compute]. apply (Forall_impl (fun b => (0 <=? b) && (b <? 256) = true)%bool).
  - apply forallb_Forall. by vm_compute.
  - intros b [?%Z.leb_le ?%Z.ltb_lt]%andb_prop. by split.
Qed.

Definition image_or (r : reading Image) (d : Image) : Image := match r with Got i => i | _ => d end.
Definition small_image : Image := Eval vm_compute in image_or (parse small_assembly)
  {| assembly := None; assembly_attributes := []; references := []; type_defs := []; top_level := []; type_refs := []; member_refs := []; resources := []; type_forwarders := [] |}.

Lemma small_image_parsed : parse small_assembly = Got small_image.
Proof. vm_compute. reflexivity. Qed.

Lemma parse_safe_witness : in_memory small_assembly /\ image_ok small_image.
Proof.
  split; [exact small_assembly_in_memory|]. exact (proj2 (parse_safe small_assembly small_assembly_in_memory) small_image small_image_parsed).
Defined.

Lemma decode_attribute_total_witness : attributes small_image = [{| ctor := HandleMethodDef 1 0; attr_blob := [1; 0; 0; 0] |}]
  /\ decode_attribute small_image {| ctor := HandleMethodDef 1 0; attr_blob := [1; 0; 0; 0] |} EnumWidths_new <> AttrPanicked.
Proof.
  assert (E : attributes small_image = [{| ctor := HandleMethodDef 1 0; attr_blob := [1; 0; 0; 0] |}]) by (vm_compute; reflexivity).
  split; [exact E|]. apply (decode_attribute_total small_assembly small_image _ EnumWidths_new small_assembly_in_memory small_image_parsed). rewrite E. by left.
Defined.

Lemma type_attributes_exact_witness : exists rows, with_parent (table.TYPE_DEF, 2) rows = [{| ctor := HandleMethodDef 1 0; attr_blob := [1; 0; 0; 0] |}].
Proof.
  destruct (type_attributes_exact small_assembly small_image small_assembly_in_memory small_image_parsed) as (m & T & starts & n & rows & _ & _ & _ & _ & _ & H & _).
  exists rows. symmetry. exact (H 1%nat _ eq_refl).
Defined.

Lemma method_owner_exact_witness : exists T starts o k, method_owner starts 1 T = Got (o, k)
  /\ exists d x, type_defs small_image !! Z.to_nat o = Some d /\ methods d !! Z.to_nat k = Some x /\ token x = 0x06000001.
Proof.
  destruct (method_owner_exact small_assembly small_image small_assembly_in_memory small_image_parsed ltac:(discriminate)) as (m & T & starts & n & Em & ET & _ & En & H).
  assert (Hn : n = 1).
  { assert (E : (m ← MetadataFile_read small_assembly; T ← Tables_new m; row_count T table.METHOD_DEF) = Got 1) by (vm_compute; reflexivity).
    rewrite Em in E. cbn [mbind reading_bind] in E. rewrite ET in E. cbn [mbind reading_bind] in E. rewrite En in E. injection E as E. exact E. }
  destruct (H 1 ltac:(lia)) as (o & k & d & x & H1 & H2 & H3 & H4). exists T, starts, o, k. split; [exact H1|]. exists d, x. exact (conj H2 (conj H3 H4)).
Defined.
