(* ===== verification/TargetFramework.v ===== *)
(** * Target frameworks ([crates/nuget/src/framework.rs])

    [NuGetFramework]: the short and long spellings of a target framework, their
    parsing and printing, the compatibility relation and the choice of the
    nearest candidate.

    A [[u32; 4]] version is a quadruple [Ver].  [parse_short] and
    [short_folder_name] call each other on shorter texts, and [is_compatible] and
    [get_nearest] call themselves on the members of portable frameworks: each is
    a body that takes its recursive calls as arguments ([.._with]) and a fixpoint
    over a bound on the dashes in the texts; [TargetFrameworkThm] shows that the
    functions satisfy the equations of the code.  Indices into [candidates] are
    kept beside the frameworks they name. *)

From S2P Require Import Prelude Order Encoding.

(** ** Identifiers and tables *)

Definition Ver : Type := N * N * N * N.
Definition zero : Ver := (0, 0, 0, 0)%N.
Definition parts (v : Ver) : list N := let '(a, b, c, d) := v in [a; b; c; d].
Definition major (v : Ver) : N := let '(a, _, _, _) := v in a.
Definition ver_cmp : Ver -> Ver -> comparison := cmp_on parts (list_cmp N.compare).
Definition ver_eqb : Ver -> Ver -> bool := cmp_eqb ver_cmp.
Definition ver_leb : Ver -> Ver -> bool := cmp_leb ver_cmp.
Definition ver_ltb : Ver -> Ver -> bool := cmp_ltb ver_cmp.
Definition is_zero (v : Ver) : bool := ver_eqb v zero.

Module id.
Definition NET_FRAMEWORK : str := #".NETFramework".
Definition NET_CORE_APP : str := #".NETCoreApp".
Definition NET_STANDARD : str := #".NETStandard".
Definition PORTABLE : str := #".NETPortable".
Definition DOTNET : str := #".NETPlatform".
Definition UAP : str := #"UAP".
Definition WINDOWS : str := #"Windows".
Definition WINRT : str := #"WinRT".
Definition WINDOWS_PHONE : str := #"WindowsPhone".
Definition WINDOWS_PHONE_APP : str := #"WindowsPhoneApp".
Definition SILVERLIGHT : str := #"Silverlight".
Definition MONO_ANDROID : str := #"MonoAndroid".
Definition MONO_TOUCH : str := #"MonoTouch".
Definition MONO_MAC : str := #"MonoMac".
Definition XAMARIN_IOS : str := #"Xamarin.iOS".
Definition XAMARIN_MAC : str := #"Xamarin.Mac".
Definition XAMARIN_TVOS : str := #"Xamarin.TVOS".
Definition XAMARIN_WATCHOS : str := #"Xamarin.WatchOS".
Definition DNX : str := #"DNX".
Definition DNXCORE : str := #"DNXCore".
Definition ASPNET : str := #"ASP.NET".
Definition ASPNETCORE : str := #"ASP.NETCore".
Definition NATIVE : str := #"native".
Definition NETCORE : str := #".NETCore".
Definition NETMF : str := #".NETMicroFramework".
Definition NETNANO : str := #".NETnanoFramework".
Definition TIZEN : str := #"Tizen".
Definition ANY : str := #"Any".
Definition AGNOSTIC : str := #"Agnostic".
Definition UNSUPPORTED : str := #"Unsupported".
End id.

Definition SHORT_ALIASES : list (str * str) := [
  (#"netframework", id.NET_FRAMEWORK);
  (#"netstandard", id.NET_STANDARD);
  (#"netcoreapp", id.NET_CORE_APP);
  (#"netcore", id.NETCORE);
  (#"netnano", id.NETNANO);
  (#"netmf", id.NETMF);
  (#"uap", id.UAP);
  (#"winrt", id.WINRT);
  (#"win", id.WINDOWS);
  (#"wpa", id.WINDOWS_PHONE_APP);
  (#"wp", id.WINDOWS_PHONE);
  (#"sl", id.SILVERLIGHT);
  (#"monoandroid", id.MONO_ANDROID);
  (#"monotouch", id.MONO_TOUCH);
  (#"monomac", id.MONO_MAC);
  (#"xamarinios", id.XAMARIN_IOS);
  (#"xamarin.ios", id.XAMARIN_IOS);
  (#"xamarinmac", id.XAMARIN_MAC);
  (#"xamarin.mac", id.XAMARIN_MAC);
  (#"xamarintvos", id.XAMARIN_TVOS);
  (#"xamarin.tvos", id.XAMARIN_TVOS);
  (#"xamarinwatchos", id.XAMARIN_WATCHOS);
  (#"xamarin.watchos", id.XAMARIN_WATCHOS);
  (#"dnxcore", id.DNXCORE);
  (#"dnx", id.DNX);
  (#"aspnetcore", id.ASPNETCORE);
  (#"aspnet", id.ASPNET);
  (#"dotnet", id.DOTNET);
  (#"native", id.NATIVE);
  (#"tizen", id.TIZEN);
  (#"any", id.ANY);
  (#"agnostic", id.AGNOSTIC);
  (#"unsupported", id.UNSUPPORTED)].

Definition PCL_PROFILES : list (N * list str) := [
  (2, [#"net40"; #"sl4"; #"win8"; #"wp7"]);
  (3, [#"net40"; #"sl4"]);
  (4, [#"net45"; #"sl4"; #"win8"; #"wp7"]);
  (5, [#"net40"; #"win8"]);
  (6, [#"net403"; #"win8"]);
  (7, [#"net45"; #"win8"]);
  (14, [#"net40"; #"sl5"]);
  (18, [#"net403"; #"sl4"]);
  (19, [#"net403"; #"sl5"]);
  (23, [#"net45"; #"sl4"]);
  (24, [#"net45"; #"sl5"]);
  (31, [#"win81"; #"wp81"]);
  (32, [#"win81"; #"wpa81"]);
  (36, [#"net40"; #"sl4"; #"win8"; #"wp8"]);
  (37, [#"net40"; #"sl5"; #"win8"]);
  (41, [#"net403"; #"sl4"; #"win8"]);
  (42, [#"net403"; #"sl5"; #"win8"]);
  (44, [#"net451"; #"win81"]);
  (46, [#"net45"; #"sl4"; #"win8"]);
  (47, [#"net45"; #"sl5"; #"win8"]);
  (49, [#"net45"; #"wp8"]);
  (78, [#"net45"; #"win8"; #"wp8"]);
  (84, [#"wp81"; #"wpa81"]);
  (88, [#"net40"; #"sl4"; #"win8"; #"wp75"]);
  (92, [#"net40"; #"win8"; #"wpa81"]);
  (95, [#"net403"; #"sl4"; #"win8"; #"wp7"]);
  (96, [#"net403"; #"sl4"; #"win8"; #"wp75"]);
  (102, [#"net403"; #"win8"; #"wpa81"]);
  (104, [#"net45"; #"sl4"; #"win8"; #"wp75"]);
  (111, [#"net45"; #"win8"; #"wpa81"]);
  (136, [#"net40"; #"sl5"; #"win8"; #"wp8"]);
  (143, [#"net403"; #"sl4"; #"win8"; #"wp8"]);
  (147, [#"net403"; #"sl5"; #"win8"; #"wp8"]);
  (151, [#"net451"; #"win81"; #"wpa81"]);
  (154, [#"net45"; #"sl4"; #"win8"; #"wp8"]);
  (157, [#"win81"; #"wp81"; #"wpa81"]);
  (158, [#"net45"; #"sl5"; #"win8"; #"wp8"]);
  (225, [#"net40"; #"sl5"; #"win8"; #"wpa81"]);
  (240, [#"net403"; #"sl5"; #"win8"; #"wpa81"]);
  (255, [#"net45"; #"sl5"; #"win8"; #"wpa81"]);
  (259, [#"net45"; #"win8"; #"wp8"; #"wpa81"]);
  (328, [#"net40"; #"sl5"; #"win8"; #"wp8"; #"wpa81"]);
  (336, [#"net403"; #"sl5"; #"win8"; #"wp8"; #"wpa81"]);
  (344, [#"net45"; #"sl5"; #"win8"; #"wp8"; #"wpa81"])]%N.

Definition CANONICAL_IDENTIFIERS : list str := [
  id.NET_FRAMEWORK; id.NET_CORE_APP; id.NET_STANDARD; id.PORTABLE; id.DOTNET; id.UAP; id.WINDOWS; id.WINRT; id.WINDOWS_PHONE; id.WINDOWS_PHONE_APP; id.SILVERLIGHT; id.MONO_ANDROID; id.MONO_TOUCH; id.MONO_MAC; id.XAMARIN_IOS; id.XAMARIN_MAC; id.XAMARIN_TVOS; id.XAMARIN_WATCHOS; id.DNX; id.DNXCORE; id.ASPNET; id.ASPNETCORE; id.NATIVE; id.NETCORE; id.NETMF; id.NETNANO; id.TIZEN; id.ANY; id.AGNOSTIC; id.UNSUPPORTED].

(** ** Data *)

Record NuGetFramework := {
  framework : str;
  version : Ver;
  platform : option (str * Ver);
  profile : option str }.

Inductive FrameworkParseError := Invalid.

Definition with_id (i : str) : NuGetFramework :=
  {| framework := i; version := zero; platform := None; profile := None |}.
Definition unsupported : NuGetFramework := with_id id.UNSUPPORTED.

Definition same_id (a b : str) : bool := eq_ignore_ascii_case a b.
Definition same_name (a b : NuGetFramework) : bool := same_id (framework a) (framework b).

Definition is_unsupported (f : NuGetFramework) : bool := same_id (framework f) id.UNSUPPORTED.
Definition is_any (f : NuGetFramework) : bool := same_id (framework f) id.ANY.
Definition is_specific_framework (f : NuGetFramework) : bool :=
  (negb (is_any f) && negb (is_unsupported f) && negb (same_id (framework f) id.AGNOSTIC))%bool.
Definition is_pcl (f : NuGetFramework) : bool := (same_id (framework f) id.PORTABLE && N.ltb (major (version f)) 5)%bool.
Definition is_resolver_project_framework (f : NuGetFramework) : bool :=
  (str_eqb (framework f) id.NET_FRAMEWORK || str_eqb (framework f) id.NET_CORE_APP || str_eqb (framework f) id.NET_STANDARD)%bool.
Definition dot_net_platform_empty_version : NuGetFramework := with_id id.DOTNET.
Definition unknown_identifier (name : str) : NuGetFramework := with_id name.

Definition option_eqb {A} (eq : A -> A -> bool) (a b : option A) : bool :=
  match a, b with None, None => true | Some a, Some b => eq a b | _, _ => false end.


(** [PartialEq]. *)
Definition framework_eqb (a b : NuGetFramework) : bool :=
  (same_id (framework a) (framework b) && ver_eqb (version a) (version b)
   && option_eqb (fun p q => same_id (fst p) (fst q) && ver_eqb (snd p) (snd q))%bool (platform a) (platform b)
   && option_eqb same_id (profile a) (profile b))%bool.

(** ** Versions *)

Definition fill (l : list N) : Ver := (nth 0 l 0, nth 1 l 0, nth 2 l 0, nth 3 l 0)%N.

(** The digits of a component, already known to be free of a sign. *)
Definition parse_version_part (t : str) : option N :=
  if (is_empty t || negb (forallb is_ascii_digit t) || Nat.ltb 10 (length t))%bool then None
  else v ← parse_unsigned u64_bound t; if N.ltb i32_max v then None else Some v.

Definition parse_long_version (text : str) : option Ver :=
  let parts := split (#c".") text in
  if Nat.ltb 4 (length parts) then None
  else fill <$> mapM (fun part => parse_version_part (strip_prefix_or (#c"+") (trim part))) parts.

Definition parse_dotted_version (text : str) : option Ver :=
  let parts := split (#c".") text in
  if Nat.ltb 4 (length parts) then None else fill <$> mapM parse_version_part parts.

Definition parse_short_version (text : str) : option Ver :=
  if is_empty text then Some zero
  else if contains_char (#c".") text then parse_dotted_version text
  else if negb (forallb is_ascii_digit text) then None
  else Some (fill (map digit_val (take 4 text))).

(** [while last > min && version[last - 1] == 0]. *)
Fixpoint last_part (version : list N) (min last : nat) : nat :=
  match last with
  | O => O
  | S l => if (Nat.ltb min last && N.eqb (nth l version 0%N) 0)%bool then last_part version min l else last
  end.
Definition shown_parts (v : Ver) (min : nat) : list N := take (last_part (parts v) min 4) (parts v).

Definition dotted (v : Ver) (min_parts : nat) : str := join (#".") (map show_N (shown_parts v min_parts)).

Definition concat_or_dotted (v : Ver) (min : nat) : str :=
  if existsb (N.ltb 9) (shown_parts v min) then dotted v 2 else concat (map show_N (shown_parts v min)).
Definition digit_concat (v : Ver) : str := concat_or_dotted v 2.
Definition tail1 (v : Ver) : str := if is_zero v then [] else concat_or_dotted v 1.
Definition tail2 (v : Ver) : str := if is_zero v then [] else digit_concat v.

Definition version_text (v : Ver) : str := join (#".") (map show_N (parts v)).
Definition version_string (f : NuGetFramework) : str := version_text (version f).
Definition platform_version (f : NuGetFramework) : Ver := match platform f with Some (_, v) => v | None => zero end.
Definition platform_version_string (f : NuGetFramework) : str := version_text (platform_version f).

(** ** Profiles *)

Definition canonical_profile (profile : str) : option str :=
  let low := lower profile in
  if str_eqb low (#"full") then None
  else if str_eqb low (#"client") then Some (#"Client")
  else if str_eqb low (#"cf") then Some (#"CompactFramework")
  else match strip_prefix (#"wp") low with
       | Some rest => Some (#"WindowsPhone" ++ rest)
       | None => Some profile
       end.

Definition profile_short (profile : str) : str :=
  if same_id profile (#"CompactFramework") then #"cf"
  else match strip_prefix (#"windowsphone") (lower profile) with
       | Some rest => #"wp" ++ rest
       | None => lower profile
       end.

Definition profile_number (profile : str) : option N :=
  n ← strip_prefix (#"profile") (lower profile); parse_unsigned u32_bound n.

Definition pcl_profile (n : N) : option (list str) := snd <$> find (fun p => N.eqb (fst p) n) PCL_PROFILES.

(** [sort] and [dedup] of texts: the byte order of UTF-8 is that of scalar values. *)
Definition str_cmp : str -> str -> comparison := list_cmp N.compare.
Fixpoint dedup (l : list str) : list str :=
  match l with
  | a :: l' =>
      match dedup l' with
      | b :: r => if str_eqb a b then b :: r else a :: b :: r
      | [] => [a]
      end
  | [] => []
  end.

(** The entry of [PCL_PROFILES] with these members, in order. *)
Fixpoint members_match (table members : list str) : bool :=
  match table, members with
  | [], [] => true
  | a :: table', b :: members' => (same_id a b && members_match table' members')%bool
  | _, _ => false
  end.
Definition matching_profile (members : list str) : option N :=
  fst <$> find (fun p => members_match (snd p) members) PCL_PROFILES.

(** ** Printing *)

(** [short_folder_name]; [render] is its recursive rendering of a member of a
    portable profile. *)
Definition short_folder_name_with (render : str -> str) (f : NuGetFramework) : option str :=
  let fw := framework f in
  let v := version f in
  let zero_or (s : str) := if is_zero v then [] else s in
  let base :=
    if same_id fw id.NET_FRAMEWORK then Some (if is_zero v then #"net" else #"net" ++ digit_concat v)
    else if same_id fw id.NET_CORE_APP then
      Some (if N.leb 5 (major v) then
              #"net" ++ dotted v 2 ++
              match platform f with
              | Some (p, pv) => #"-" ++ lower p ++ (if is_zero pv then [] else dotted pv 2)
              | None => []
              end
            else if is_zero v then #"netcoreapp"
            else #"netcoreapp" ++ dotted v 2)
    else if same_id fw id.NET_STANDARD then Some (if is_zero v then #"netstandard" else #"netstandard" ++ dotted v 2)
    else if same_id fw id.PORTABLE then
      let tail := zero_or (digit_concat v) in
      match profile f with
      | None | Some [] => if N.leb 5 (major v) then Some (#"portable" ++ tail) else None
      | Some p =>
          match profile_number p with
          | Some n =>
              if is_pcl f then
                match pcl_profile n with
                | Some members => Some (#"portable" ++ tail ++ #"-" ++ join (#"+") members)
                | None => None
                end
              else Some (#"portable" ++ tail ++ #"-" ++ lower p)
          | None =>
              let members := map render (split (#c"+") p) in
              let members := if is_pcl f then dedup (sort_by str_cmp members) else members in
              Some (#"portable" ++ tail ++ #"-" ++ join (#"+") members)
          end
      end
    else if same_id fw id.DOTNET then
      Some (if (is_zero v || (ver_eqb v (5, 0, 0, 0)%N && is_none (profile f)))%bool then #"dotnet"
            else #"dotnet" ++ digit_concat v)
    else if same_id fw id.UAP then Some (#"uap" ++ tail2 v)
    else if same_id fw id.WINDOWS then Some (#"win" ++ tail1 v)
    else if same_id fw id.WINRT then Some (#"winrt" ++ tail2 v)
    else if same_id fw id.WINDOWS_PHONE then Some (#"wp" ++ tail1 v)
    else if same_id fw id.WINDOWS_PHONE_APP then Some (#"wpa" ++ tail2 v)
    else if same_id fw id.SILVERLIGHT then Some (#"sl" ++ tail1 v)
    else if same_id fw id.MONO_ANDROID then Some (#"monoandroid" ++ tail2 v)
    else if same_id fw id.MONO_TOUCH then Some (#"monotouch" ++ tail2 v)
    else if same_id fw id.MONO_MAC then Some (#"monomac" ++ tail2 v)
    else if same_id fw id.XAMARIN_IOS then Some (#"xamarinios" ++ tail2 v)
    else if same_id fw id.XAMARIN_MAC then Some (#"xamarinmac" ++ tail2 v)
    else if same_id fw id.XAMARIN_TVOS then Some (#"xamarintvos" ++ tail2 v)
    else if same_id fw id.XAMARIN_WATCHOS then Some (#"xamarinwatchos" ++ tail2 v)
    else if same_id fw id.DNX then Some (#"dnx" ++ tail2 v)
    else if same_id fw id.DNXCORE then Some (#"dnxcore" ++ tail2 v)
    else if same_id fw id.ASPNET then Some (#"aspnet" ++ tail2 v)
    else if same_id fw id.ASPNETCORE then Some (#"aspnetcore" ++ tail2 v)
    else if same_id fw id.NATIVE then Some (#"native" ++ tail2 v)
    else if same_id fw id.NETCORE then Some (#"netcore" ++ tail2 v)
    else if same_id fw id.NETMF then Some (#"netmf" ++ tail2 v)
    else if same_id fw id.NETNANO then Some (#"netnano" ++ zero_or (dotted v 2))
    else if same_id fw id.TIZEN then Some (#"tizen" ++ tail2 v)
    else if same_id fw id.ANY then Some (#"any")
    else if same_id fw id.AGNOSTIC then Some (#"agnostic")
    else if same_id fw id.UNSUPPORTED then Some (#"unsupported")
    else
      let sanitized := List.filter is_ascii_alphanumeric (lower fw) in
      if is_empty sanitized then None else Some (sanitized ++ zero_or (digit_concat v)) in
  let net_core_platformed := (same_id fw id.NET_CORE_APP && N.leb 5 (major v))%bool in
  s ← base;
  Some (s ++
    match profile f with
    | Some p => if (negb (same_id fw id.PORTABLE) && negb net_core_platformed)%bool then #"-" ++ profile_short p else []
    | None => []
    end).

(** ** Parsing *)

Definition member_default_version (fw : str) : Ver :=
  if str_eqb fw id.WINDOWS then (8, 0, 0, 0)%N
  else if str_eqb fw id.WINDOWS_PHONE then (7, 0, 0, 0)%N
  else if str_eqb fw id.WINDOWS_PHONE_APP then (8, 1, 0, 0)%N
  else zero.

Definition default_version (fw : str) : Ver := if str_eqb fw id.DOTNET then (5, 0, 0, 0)%N else zero.

Definition set_version (f : NuGetFramework) (v : Ver) : NuGetFramework :=
  {| framework := framework f; version := v; platform := platform f; profile := profile f |}.
Definition set_id (f : NuGetFramework) (i : str) : NuGetFramework :=
  {| framework := i; version := version f; platform := platform f; profile := profile f |}.

(** The functions below take [parse_short] and [short_folder_name] as arguments. *)
Section parse.
Context (parse_short : str -> result NuGetFramework FrameworkParseError).
Context (short_folder_name : NuGetFramework -> option str).

(** One member of a portable list. *)
Definition portable_member (part : str) : result str FrameworkParseError :=
  let? f := parse_short part in
  match profile f with
  | Some _ => Err Invalid
  | None =>
      let f := if is_zero (version f) then set_version f (member_default_version (framework f)) else f in
      Ok (if is_unsupported f then #"unsupported" else default (#"unsupported") (short_folder_name f))
  end.

Definition parse_portable_with (v : Ver) (list : str) : result NuGetFramework FrameworkParseError :=
  if is_empty list then Ok unsupported
  else
    let pcl (p : str) := {| framework := id.PORTABLE; version := v; platform := None; profile := Some p |} in
    match profile_number list with
    | Some _ => Ok (pcl list)
    | None =>
        let? members := rmapM portable_member (List.filter (fun p => negb (is_empty p)) (split (#c"+") list)) in
        Ok (match matching_profile (dedup (sort_by str_cmp members)) with
            | Some number => pcl (#"Profile" ++ show_N number)
            | None => pcl list
            end)
    end.

(** What follows the version: a platform, or a profile. *)
Definition parse_suffix (input : str) (f : NuGetFramework) (suffix : str) : NuGetFramework :=
  let original := drop (length input - length suffix) input in
  if (str_eqb (framework f) id.NET_CORE_APP && N.leb 5 (major (version f)))%bool then
    let name := take_while is_ascii_alphabetic suffix in
    let pv_text := drop_while is_ascii_alphabetic suffix in
    if is_empty name then unsupported
    else
      let with_platform pv :=
        {| framework := framework f; version := version f; platform := Some (take (length name) original, pv); profile := None |} in
      if is_empty pv_text then with_platform zero
      else if existsb is_ascii_digit (take 1 pv_text) then
        match parse_dotted_version pv_text with Some pv => with_platform pv | None => unsupported end
      else unsupported
  else if (is_empty suffix
           || negb (forallb (fun b => is_ascii_alphanumeric b || N.eqb b (#c".") || N.eqb b (#c"-") || N.eqb b (#c"+"))%bool suffix))%bool
  then unsupported
  else {| framework := framework f; version := version f; platform := None; profile := canonical_profile original |}.

(** The identifier and version of a short name without portable prefix. *)
Definition parse_alias (alias text : str) (suffixed : bool) : option NuGetFramework :=
  let implied_net := (is_empty alias
    && existsb (str_eqb text) [#"20"; #"35"; #"40"; #"45"; #"2.0"; #"3.5"; #"4.0"; #"4.5"])%bool in
  if (is_empty alias && negb implied_net)%bool then None
  else if (str_eqb alias (#"net") || implied_net)%bool then
    v ← parse_short_version text;
    Some (set_version (with_id (if N.leb 5 (major v) then id.NET_CORE_APP else id.NET_FRAMEWORK)) v)
  else
    canonical ← match find (fun p => str_eqb (fst p) alias) SHORT_ALIASES with
                | Some (_, c) => Some c
                | None => find (fun c => same_id c alias) CANONICAL_IDENTIFIERS
                end;
    if ((str_eqb canonical id.ANY || str_eqb canonical id.AGNOSTIC || str_eqb canonical id.UNSUPPORTED)
        && (negb (is_empty text) || suffixed))%bool then None
    else
      v ← parse_short_version text;
      Some (set_version (with_id canonical) (if (is_empty text && negb suffixed)%bool then default_version canonical else v)).

Definition parse_short_with (input : str) : result NuGetFramework FrameworkParseError :=
  if (is_empty input || existsb is_whitespace input)%bool then Ok unsupported
  else
    let low := lower input in
    match (match strip_prefix (#"portable") low with Some r => Some r | None => strip_prefix (#"netportable") low end) with
    | Some rest =>
        let in_version c := (is_ascii_digit c || N.eqb c (#c"."))%bool in
        match strip_prefix (#"-") (drop_while in_version rest) with
        | Some list =>
            match parse_short_version (take_while in_version rest) with
            | Some v => parse_portable_with v (drop (length input - length list) input)
            | None => Ok unsupported
            end
        | None => Ok unsupported
        end
    | None =>
        let in_alias c := (is_ascii_alphabetic c || N.eqb c (#c"."))%bool in
        let alias := take_while in_alias low in
        let rest := drop_while in_alias low in
        let alias := if str_eqb alias (#".net") then #"net" else alias in
        let '(text, suffix) :=
          match split_once (#c"-") rest with Some (t, s) => (t, Some s) | None => (rest, None) end in
        Ok (match parse_alias alias text (match suffix with Some _ => true | None => false end) with
            | None => unsupported
            | Some f => match suffix with Some s => parse_suffix input f s | None => f end
            end)
    end.

(** One member of a profile, as [short_folder_name] prints it. *)
Definition render_member (part : str) : str :=
  match parse_short part with
  | Ok f => if is_unsupported f then #"unsupported" else default (#"unsupported") (short_folder_name f)
  | Err _ => #"unsupported"
  end.
End parse.

Fixpoint parse_short_up_to (n : nat) (input : str) : result NuGetFramework FrameworkParseError :=
  match n with
  | O => Ok unsupported
  | S n => parse_short_with (parse_short_up_to n) (short_folder_name_up_to n) input
  end
with short_folder_name_up_to (n : nat) (f : NuGetFramework) : option str :=
  match n with
  | O => None
  | S n => short_folder_name_with (render_member (parse_short_up_to n) (short_folder_name_up_to n)) f
  end.

(** A portable list and a profile follow a dash, so the number of dashes left
    bounds the recursion. *)
Definition dashes (s : str) : nat := count_char (#c"-") s.
Definition depth (f : NuGetFramework) : nat := match profile f with Some p => S (dashes p) | None => 0 end.

Definition parse_short (input : str) : result NuGetFramework FrameworkParseError :=
  parse_short_up_to (2 * dashes input + 2) input.
Definition short_folder_name (f : NuGetFramework) : option str :=
  short_folder_name_up_to (2 * depth f + 1) f.

Definition parse_portable : Ver -> str -> result NuGetFramework FrameworkParseError :=
  parse_portable_with parse_short short_folder_name.

Definition canonical_identifier (identifier : str) : str :=
  match find (fun c => same_id c identifier) CANONICAL_IDENTIFIERS with
  | Some c => c
  | None =>
      let low := lower identifier in
      if (str_eqb low (#"net") || str_eqb low (#".net"))%bool then id.NET_FRAMEWORK
      else if (str_eqb low (#"portable") || str_eqb low (#"netportable"))%bool then id.PORTABLE
      else match find (fun p => str_eqb (fst p) low) SHORT_ALIASES with
           | Some (_, c) => c
           | None => identifier
           end
  end.

(** The state of the loop of [parse_long]: identifier, version and profile. *)
Definition long_state : Type := option str * Ver * option str.

Definition parse_long_part (st : long_state) (raw : str) : result long_state FrameworkParseError :=
  let '(fw, v, prof) := st in
  let part := trim raw in
  if is_empty part then Ok st
  else
    match fw with
    | None => Ok (Some (canonical_identifier part), v, prof)
    | Some identifier =>
        match split_once (#c"=") part with
        | None => Ok st
        | Some (key, value) =>
            let key := lower key in
            if str_eqb key (#"version") then
              let? v' := ok_or (parse_long_version (strip_prefix_or (#c"v") value)) Invalid in
              Ok (fw, v', prof)
            else if str_eqb key (#"profile") then
              let value := trim value in
              if (str_eqb identifier id.PORTABLE && contains_char (#c"-") value)%bool then Err Invalid
              else Ok (fw, v, if is_empty value then prof else Some value)
            else Ok st
        end
    end.

Fixpoint parse_long_parts (raws : list str) (st : long_state) : result long_state FrameworkParseError :=
  match raws with
  | [] => Ok st
  | raw :: raws' => let? st := parse_long_part st raw in parse_long_parts raws' st
  end.

Definition parse_long (input : str) : result NuGetFramework FrameworkParseError :=
  let? (fw, v, prof) := parse_long_parts (split (#c",") input) (None, zero, None) in
  let? fw := ok_or fw Invalid in
  Ok {| framework := fw; version := v; platform := None; profile := prof |}.

Definition parse (input : str) : result NuGetFramework FrameworkParseError :=
  if contains_char (#c",") input then parse_long input else parse_short input.
Definition parse_folder (input : str) : result NuGetFramework FrameworkParseError :=
  if contains_char (#c",") input then Ok unsupported else parse_short input.


(** ** Compatibility *)

Record Mapping := {
  map_project : str;
  project_min : Ver;
  project_max_excl : option Ver;
  map_candidate : str;
  candidate_max : Ver }.
Definition NS : str := id.NET_STANDARD.
Definition m (project : str) (project_min : Ver) (candidate : str) (candidate_max : Ver) : Mapping :=
  {| map_project := project; project_min := project_min; project_max_excl := None;
     map_candidate := candidate; candidate_max := candidate_max |}.

Definition MAPPINGS : list Mapping := [
  m id.NET_CORE_APP (1, 0, 0, 0) NS (1, 6, 0, 0);
  m id.NET_CORE_APP (2, 0, 0, 0) NS (2, 0, 0, 0);
  m id.NET_CORE_APP (3, 0, 0, 0) NS (2, 1, 0, 0);
  m id.NET_FRAMEWORK (4, 5, 0, 0) NS (1, 1, 0, 0);
  m id.NET_FRAMEWORK (4, 5, 1, 0) NS (1, 2, 0, 0);
  m id.NET_FRAMEWORK (4, 6, 0, 0) NS (1, 3, 0, 0);
  m id.NET_FRAMEWORK (4, 6, 1, 0) NS (2, 0, 0, 0);
  m id.UAP (10, 0, 0, 0) NS (1, 4, 0, 0);
  m id.UAP (10, 0, 15064, 0) NS (2, 0, 0, 0);
  m id.MONO_ANDROID (0, 0, 0, 0) NS (2, 1, 0, 0);
  m id.MONO_TOUCH (0, 0, 0, 0) NS (2, 1, 0, 0);
  m id.MONO_MAC (0, 0, 0, 0) NS (2, 1, 0, 0);
  m id.XAMARIN_IOS (0, 0, 0, 0) NS (2, 1, 0, 0);
  m id.XAMARIN_MAC (0, 0, 0, 0) NS (2, 1, 0, 0);
  m id.XAMARIN_TVOS (0, 0, 0, 0) NS (2, 1, 0, 0);
  m id.XAMARIN_WATCHOS (0, 0, 0, 0) NS (2, 1, 0, 0);
  m id.TIZEN (0, 0, 0, 0) NS (1, 6, 0, 0);
  m id.TIZEN (4, 0, 0, 0) NS (2, 0, 0, 0);
  m id.TIZEN (6, 0, 0, 0) NS (2, 1, 0, 0);
  m id.WINDOWS (8, 0, 0, 0) NS (1, 1, 0, 0);
  m id.WINDOWS (8, 1, 0, 0) NS (1, 2, 0, 0);
  m id.WINDOWS_PHONE (8, 0, 0, 0) NS (1, 0, 0, 0);
  m id.WINDOWS_PHONE_APP (8, 1, 0, 0) NS (1, 2, 0, 0);
  m id.DNXCORE (5, 0, 0, 0) NS (1, 5, 0, 0);
  m id.NET_FRAMEWORK (4, 5, 0, 0) id.DOTNET (5, 2, 0, 0);
  m id.NET_FRAMEWORK (4, 5, 1, 0) id.DOTNET (5, 3, 0, 0);
  m id.NET_FRAMEWORK (4, 6, 0, 0) id.DOTNET (5, 4, 0, 0);
  m id.NET_FRAMEWORK (4, 6, 1, 0) id.DOTNET (5, 5, 0, 0);
  m id.NET_FRAMEWORK (4, 6, 2, 0) id.DOTNET (5, 6, 0, 0);
  m id.MONO_ANDROID (0, 0, 0, 0) id.DOTNET (5, 6, 0, 0);
  m id.MONO_TOUCH (0, 0, 0, 0) id.DOTNET (5, 6, 0, 0);
  m id.MONO_MAC (0, 0, 0, 0) id.DOTNET (5, 6, 0, 0);
  m id.XAMARIN_IOS (0, 0, 0, 0) id.DOTNET (5, 6, 0, 0);
  m id.XAMARIN_MAC (0, 0, 0, 0) id.DOTNET (5, 6, 0, 0);
  m id.XAMARIN_TVOS (0, 0, 0, 0) id.DOTNET (5, 6, 0, 0);
  m id.XAMARIN_WATCHOS (0, 0, 0, 0) id.DOTNET (5, 6, 0, 0);
  m id.UAP (10, 0, 0, 0) id.WINDOWS (8, 1, 0, 0);
  m id.UAP (10, 0, 0, 0) id.WINDOWS_PHONE_APP (8, 1, 0, 0);
  m id.UAP (10, 0, 0, 0) id.WINRT (4, 5, 0, 0);
  m id.UAP (10, 0, 0, 0) id.NETCORE (5, 0, 0, 0);
  m id.UAP (10, 0, 0, 0) id.DOTNET (5, 5, 0, 0);
  m id.WINDOWS (0, 0, 0, 0) NS (1, 1, 0, 0);
  m id.WINDOWS (0, 0, 0, 0) id.DOTNET (5, 2, 0, 0);
  m id.WINDOWS (8, 1, 0, 0) id.DOTNET (5, 3, 0, 0);
  m id.WINDOWS_PHONE (8, 0, 0, 0) id.DOTNET (5, 1, 0, 0);
  m id.WINDOWS_PHONE (8, 1, 0, 0) id.DOTNET (5, 3, 0, 0);
  m id.WINDOWS_PHONE_APP (8, 1, 0, 0) id.DOTNET (5, 3, 0, 0);
  m id.NETCORE (5, 0, 0, 0) NS (1, 4, 0, 0);
  m id.NETCORE (5, 0, 0, 0) id.DOTNET (5, 5, 0, 0);
  m id.NETCORE (5, 0, 0, 0) id.WINDOWS (8, 1, 0, 0);
  m id.DNXCORE (5, 0, 0, 0) id.DOTNET (5, 6, 0, 0)]%N.

Definition XAMARIN_PCL_PROFILES : list N := [5; 6; 7; 14; 19; 24; 37; 42; 44; 47; 49; 78; 92; 102; 111; 136; 147; 151; 158; 225; 255; 259; 328; 336; 344]%N.

Definition PCL_NETSTANDARD : list (N * Ver) := [
  (7, (1, 1, 0, 0));
  (31, (1, 0, 0, 0));
  (32, (1, 2, 0, 0));
  (44, (1, 2, 0, 0));
  (49, (1, 0, 0, 0));
  (78, (1, 0, 0, 0));
  (84, (1, 0, 0, 0));
  (111, (1, 1, 0, 0));
  (151, (1, 2, 0, 0));
  (157, (1, 0, 0, 0));
  (259, (1, 0, 0, 0))]%N.

(** The profiles that .NETFramework does not distinguish. *)
Definition plain_net_profile (f : NuGetFramework) : bool :=
  (same_id (framework f) id.NET_FRAMEWORK
   && match profile f with None => true | Some p => same_id p (#"Client") || same_id p (#"Full") end)%bool.

Definition profiles_match (project candidate : NuGetFramework) : bool :=
  if (plain_net_profile project && plain_net_profile candidate)%bool then true
  else option_eqb same_id (profile project) (profile candidate).

Definition pcl_members (candidate : NuGetFramework) : list NuGetFramework :=
  match profile candidate with
  | None => []
  | Some p =>
      let shorts := match profile_number p with Some n => pcl_profile n | None => Some (split (#c"+") p) end in
      match shorts with
      | None => []
      | Some shorts =>
          List.filter is_specific_framework
            (omap (fun s => match parse_folder s with Ok f => Some f | Err _ => None end) shorts)
      end
  end.

Definition pcl_profile_number (candidate : NuGetFramework) : option N :=
  p ← profile candidate;
  match profile_number p with
  | Some n => Some n
  | None =>
      let render part :=
        match parse_short part with
        | Ok f => if is_unsupported f then #"unsupported" else default [] (short_folder_name f)
        | Err _ => #"unsupported"
        end in
      matching_profile (dedup (sort_by str_cmp (map render (split (#c"+") p))))
  end.

Inductive Role := Project | Candidate.

Definition normalize (f : NuGetFramework) (role : Role) : NuGetFramework :=
  let fw := framework f in
  let v := version f in
  if (same_id fw id.NETCORE && ver_leb v (4, 5, 1, 0)%N)%bool then
    set_version (set_id f id.WINDOWS) (if ver_eqb v (4, 5, 1, 0)%N then (8, 1, 0, 0) else (8, 0, 0, 0))%N
  else if (same_id fw id.WINRT && (match role with Project => true | Candidate => false end || ver_leb v (4, 5, 0, 0)%N))%bool then
    set_version (set_id f id.WINDOWS) (8, 0, 0, 0)%N
  else if (same_id fw id.UAP && ver_ltb v (10, 0, 0, 0)%N)%bool then set_version f (10, 0, 0, 0)%N
  else if is_zero v then
    if same_id fw id.WINDOWS then set_version f (8, 0, 0, 0)%N
    else if same_id fw id.WINDOWS_PHONE then set_version f (7, 0, 0, 0)%N
    else if same_id fw id.WINDOWS_PHONE_APP then set_version f (8, 1, 0, 0)%N
    else f
  else f.

Definition translate (f : NuGetFramework) : NuGetFramework :=
  if same_id (framework f) id.DNX then set_id f id.NET_FRAMEWORK
  else if same_id (framework f) id.ASPNET then set_version (set_id f id.NET_FRAMEWORK) (4, 5, 0, 0)%N
  else if same_id (framework f) id.ASPNETCORE then set_version (set_id f id.DNXCORE) (5, 0, 0, 0)%N
  else f.

Definition platform_fallback (project : NuGetFramework) : option str :=
  '(name, _) ← platform project;
  if negb (same_id (framework project) id.NET_CORE_APP) then None
  else if (same_id name (#"android") && ver_leb (6, 0, 0, 0)%N (version project))%bool then Some id.MONO_ANDROID
  else if (same_id name (#"tizen") && ver_leb (6, 0, 0, 0)%N (version project))%bool then Some id.TIZEN
  else None.

Definition XAMARIN_FAMILY : list str :=
  [id.MONO_ANDROID; id.MONO_TOUCH; id.XAMARIN_IOS; id.XAMARIN_MAC; id.XAMARIN_TVOS; id.XAMARIN_WATCHOS].

(** The branch for candidates of the project's own identifier. *)
Definition same_identifier_compatible (project candidate : NuGetFramework) : bool :=
  if (same_id (framework project) id.WINDOWS && ver_leb (version candidate) (8, 0, 0, 0)%N
      && profiles_match project candidate)%bool then true
  else if (ver_ltb (version project) (version candidate) || negb (profiles_match project candidate))%bool then false
  else
    match platform project, platform candidate with
    | _, None => true
    | None, Some _ => false
    | Some (pn, pv), Some (cn, cv) => (same_id pn cn && ver_leb cv pv)%bool
    end.

(** One row of the table. *)
Definition mapping_applies (project candidate : NuGetFramework) (mapping : Mapping) : bool :=
  (same_id (framework project) (map_project mapping)
   && ver_leb (project_min mapping) (version project)
   && match project_max_excl mapping with Some max => ver_ltb (version project) max | None => true end
   && same_id (framework candidate) (map_candidate mapping)
   && ver_leb (version candidate) (candidate_max mapping))%bool.

(** The branch for a portable project and a candidate that is not. *)
Definition pcl_project_compatible (project candidate : NuGetFramework) : bool :=
  (same_id (framework candidate) id.NET_STANDARD
   && match p ← profile project; n ← profile_number p; find (fun e => N.eqb (fst e) n) PCL_NETSTANDARD with
      | Some (_, max) => ver_leb (version candidate) max
      | None => false
      end)%bool.

Section compatible.
Context (is_compatible : NuGetFramework -> NuGetFramework -> bool).

Definition members_compatible (pm cm : list NuGetFramework) : bool :=
  forallb (fun p => existsb (fun c => is_compatible p c) cm) pm.

(** The branch for a portable candidate. *)
Definition pcl_candidate_compatible (project candidate : NuGetFramework) (fallback : option str) : bool :=
  let members := pcl_members candidate in
  if is_empty members then false
  else if is_pcl project then
    let pm := pcl_members project in
    (negb (is_empty pm) && members_compatible pm members)%bool
  else if (existsb (fun x => same_id (framework project) x) XAMARIN_FAMILY
           || option_eqb str_eqb fallback (Some id.MONO_ANDROID))%bool then
    match pcl_profile_number candidate with Some n => existsb (N.eqb n) XAMARIN_PCL_PROFILES | None => false end
  else existsb (fun member => is_compatible project member) members.

(** From the translation of the project on. *)
Definition is_compatible_translated (project candidate : NuGetFramework) (fallback : option str) : bool :=
  if framework_eqb project candidate then true
  else if is_pcl candidate then pcl_candidate_compatible project candidate fallback
  else if same_name project candidate then same_identifier_compatible project candidate
  else if (is_some (platform candidate) || is_some (profile candidate))%bool then false
  else if is_pcl project then
    if is_pcl candidate then
      let pm := pcl_members project in
      let cm := pcl_members candidate in
      (negb (is_empty pm) && negb (is_empty cm) && members_compatible pm cm)%bool
    else pcl_project_compatible project candidate
  else if negb (is_none (profile project) || plain_net_profile project) then false
  else existsb (mapping_applies project candidate) MAPPINGS.

(** From the normalization of both sides on. *)
Definition is_compatible_normalized (project candidate : NuGetFramework) : bool :=
  if framework_eqb project candidate then true
  else if (same_name project candidate
           && existsb (str_eqb (lower (framework project))) [#"dnx"; #"dnxcore"; #"asp.net"; #"asp.netcore"])%bool then
    (ver_leb (version candidate) (version project) && profiles_match project candidate)%bool
  else if (same_id (framework project) id.DNX && same_id (framework candidate) id.ASPNET)%bool then true
  else if (same_id (framework project) id.DNXCORE && same_id (framework candidate) id.ASPNETCORE)%bool then true
  else
    let fallback := platform_fallback project in
    if match fallback with Some fb => same_id (framework candidate) fb | None => false end then true
    else is_compatible_translated (translate project) candidate fallback.

Definition is_compatible_with (project candidate : NuGetFramework) : bool :=
  if (is_any candidate || is_any project)%bool then true
  else if framework_eqb project candidate then true
  else if same_id (framework candidate) id.AGNOSTIC then is_specific_framework project
  else if (is_unsupported project || is_unsupported candidate)%bool then false
  else if (same_id (framework project) id.WINRT && same_id (framework candidate) id.WINRT)%bool then
    ver_leb (version candidate) (if is_zero (version project) then (4, 5, 0, 0)%N else version project)
  else is_compatible_normalized (normalize project Project) (normalize candidate Candidate).
End compatible.

Fixpoint is_compatible_up_to (n : nat) (project candidate : NuGetFramework) : bool :=
  match n with
  | O => false
  | S n => is_compatible_with (is_compatible_up_to n) project candidate
  end.

Definition is_compatible (project candidate : NuGetFramework) : bool :=
  is_compatible_up_to (depth candidate + 1) project candidate.

(** ** The nearest candidate *)

Definition full_eq (a b : NuGetFramework) : bool :=
  (negb (is_unsupported a) && negb (is_unsupported b) && framework_eqb a b)%bool.

Definition is_netcore50_and_up (f : NuGetFramework) : bool :=
  (same_id (framework f) id.NETCORE && N.leb 5 (major (version f)))%bool.
Definition is_net5_era (f : NuGetFramework) : bool :=
  (same_id (framework f) id.NET_CORE_APP && N.leb 5 (major (version f)))%bool.
Definition is_package_based (f : NuGetFramework) : bool :=
  (same_id (framework f) id.DNXCORE || same_id (framework f) id.DOTNET || same_id (framework f) id.NET_STANDARD
   || same_id (framework f) id.NET_CORE_APP || same_id (framework f) id.UAP || same_id (framework f) id.TIZEN
   || is_netcore50_and_up f)%bool.

(** *** Orders *)

Definition ci_cmp (a b : str) : comparison := str_cmp (lower a) (lower b).
Definition opt_ci_cmp : option str -> option str -> comparison := option_cmp ci_cmp.
Definition bool_cmp (a b : bool) : comparison :=
  match a, b with false, true => Lt | true, false => Gt | _, _ => Eq end.

Definition u32_max : N := (u32_bound - 1)%N.

Fixpoint precedence_in (table : list (str * N)) (fw : str) : N :=
  match table with
  | (i, p) :: table' => if same_id fw i then p else precedence_in table' fw
  | [] => u32_max
  end.
Definition non_package_based_precedence : str -> N :=
  precedence_in [(id.NET_FRAMEWORK, 0); (id.NETCORE, 1); (id.WINDOWS, 2); (id.WINDOWS_PHONE_APP, 3)]%N.
Definition package_based_precedence : str -> N :=
  precedence_in [(id.NET_CORE_APP, 0); (id.NET_STANDARD, 2); (id.DOTNET, 3)]%N.
Definition equivalent_precedence : str -> N :=
  precedence_in [(id.WINDOWS, 0); (id.NETCORE, 1); (id.WINRT, 2); (id.WINDOWS_PHONE, 3); (id.SILVERLIGHT, 4);
                 (id.DNXCORE, 5); (id.ASPNETCORE, 6); (id.DNX, 7); (id.ASPNET, 8)]%N.

Definition framework_precedence_compare (a b : NuGetFramework) : comparison :=
  let package_based f := (is_package_based f && negb (is_netcore50_and_up f))%bool in
  match bool_cmp (package_based a) (package_based b) with
  | Eq =>
      let precedence := if package_based a then package_based_precedence else non_package_based_precedence in
      N.compare (precedence (framework a)) (precedence (framework b))
  | ordering => ordering
  end.

Definition equivalent_compare (a b : NuGetFramework) : comparison :=
  N.compare (equivalent_precedence (framework a)) (equivalent_precedence (framework b)).

Definition nuget_framework_sort_compare (a b : NuGetFramework) : comparison :=
  if (is_any a && negb (is_any b))%bool then Lt
  else if (negb (is_any a) && is_any b)%bool then Gt
  else if (is_unsupported a && negb (is_unsupported b))%bool then Gt
  else if (negb (is_unsupported a) && is_unsupported b)%bool then Lt
  else
    then_cmp (ci_cmp (framework a) (framework b))
      (then_cmp (ver_cmp (version a) (version b))
        (then_cmp (opt_ci_cmp (profile a) (profile b))
          (then_cmp (opt_ci_cmp (fst <$> platform a) (fst <$> platform b))
            (ver_cmp (platform_version a) (platform_version b))))).

(** The FNV-1a hash of the texts of a framework, in upper case. *)
Definition to_ascii_uppercase (c : char) : char := if is_ascii_lower c then (c - 32)%N else c.
Definition hash_byte (hash byte : N) : N := (N.lxor hash byte * 0x100000001b3 mod u64_bound)%N.
Definition framework_hash (f : NuGetFramework) : N :=
  fold_left (fun hash part => hash_byte (fold_left hash_byte (encode_utf8 (map to_ascii_uppercase part)) hash) 0xff)
    [framework f; version_string f; default [] (profile f); default [] (fst <$> platform f); platform_version_string f]
    0xcbf29ce484222325%N.

Definition framework_display_for_sort (f : NuGetFramework) : str :=
  match short_folder_name f with
  | Some s => s
  | None => framework f ++ #"," ++ version_string f ++ #"," ++ default [] (profile f)
  end.

Definition final_compare (a b : NuGetFramework) : comparison :=
  then_cmp (framework_precedence_compare a b)
    (then_cmp (nuget_framework_sort_compare b a) (N.compare (framework_hash a) (framework_hash b))).

Definition reduce_core_compare (a b : NuGetFramework) : comparison :=
  then_cmp (ci_cmp (framework a) (framework b))
    (ci_cmp (framework_display_for_sort a) (framework_display_for_sort b)).

(** *** Candidates with their index *)

Definition entry : Type := nat * NuGetFramework.
Definition enumerate (candidates : list NuGetFramework) : list entry := combine (seq 0 (length candidates)) candidates.

(** [sort_by(|&a, &b| cmp(..).then(a.cmp(&b)))]. *)
Definition indexed_cmp (cmp : NuGetFramework -> NuGetFramework -> comparison) (a b : entry) : comparison :=
  then_cmp (cmp (snd a) (snd b)) (Nat.compare (fst a) (fst b)).

(** [if v.any(p) { v.retain(p) }]. *)
Definition retain_if_any {A} (p : A -> bool) (l : list A) : list A := if existsb p l then List.filter p l else l.

Fixpoint distinct_full (input output : list entry) : list entry :=
  match input with
  | [] => output
  | e :: input' =>
      distinct_full input'
        (if existsb (fun existing => full_eq (snd existing) (snd e)) output then output else output ++ [e])
  end.

(** The inner loop of [reduce_upwards]. *)
Fixpoint is_duplicate (i : entry) (input : list entry) (duplicate : bool) : bool :=
  match input with
  | [] => duplicate
  | j :: input' =>
      if Nat.eqb (fst i) (fst j) then is_duplicate i input' duplicate
      else
        let duplicate :=
          if is_compatible (snd j) (snd i) then
            let reverse_compatible := is_compatible (snd i) (snd j) in
            if (reverse_compatible && same_name (snd i) (snd j))%bool
            then (is_zero (version (snd i)) && negb (is_zero (version (snd j))))%bool
            else negb reverse_compatible
          else duplicate in
        if duplicate then true else is_duplicate i input' duplicate
  end.

Definition reduce_upwards (input : list entry) : list entry :=
  let input := distinct_full (retain_if_any (fun e => negb (is_any (snd e))) input) [] in
  sort_by (indexed_cmp reduce_core_compare) (List.filter (fun i => negb (is_duplicate i input false)) input).

(** *** Equivalent frameworks *)

Definition EQUIVALENT_NAMES : list (str * str) := [
  (#"uap", #"uap10.0"); (#"win", #"win8"); (#"win8", #"netcore45"); (#"netcore45", #"winrt45");
  (#"netcore", #"netcore45"); (#"winrt", #"winrt45"); (#"win81", #"netcore451"); (#"wp", #"wp7");
  (#"wp7", #"sl3-wp"); (#"wp71", #"sl4-wp71"); (#"wp8", #"sl8-wp"); (#"wp81", #"sl81-wp"); (#"wpa", #"wpa81");
  (#"tizen", #"tizen3"); (#"dnx", #"dnx45"); (#"dnxcore", #"dnxcore50"); (#"dotnet", #"dotnet50");
  (#"aspnet", #"aspnet50"); (#"aspnetcore", #"aspnetcore50"); (#"dnx45", #"aspnet50"); (#"dnxcore50", #"aspnetcore50")].

(** The [expect]s are on literals. *)
Definition equivalent_pairs (f : NuGetFramework) : list NuGetFramework :=
  concat (map (fun names =>
    let a := expect unsupported (parse_folder (fst names)) in
    let b := expect unsupported (parse_folder (snd names)) in
    (if full_eq f a then [b] else []) ++ (if full_eq f b then [a] else [])) EQUIVALENT_NAMES).

Definition equivalent_frameworks (a b : NuGetFramework) : bool :=
  (full_eq a b || existsb (fun equivalent => full_eq equivalent b) (equivalent_pairs a))%bool.

Definition equivalent_entry_cmp (a b : entry) : comparison :=
  then_cmp (equivalent_compare (snd a) (snd b))
    (then_cmp (nuget_framework_sort_compare (snd b) (snd a)) (Nat.compare (fst a) (fst b))).

Definition reduce_equivalent (frameworks : list NuGetFramework) : list NuGetFramework :=
  fold_left (fun output candidate =>
      if existsb (fun existing => full_eq existing candidate || equivalent_frameworks existing candidate)%bool output
      then output else output ++ [candidate])
    (map snd (sort_by equivalent_entry_cmp (enumerate frameworks))) [].

(** *** Portable candidates *)

Definition find_id (i : str) (members : list NuGetFramework) : option NuGetFramework :=
  find (fun f => same_id (framework f) i) members.

(** The members of [considering] that are below and above those of [current]. *)
Definition count_higher (current_members considering_members : list NuGetFramework) : N * N :=
  fold_left (fun '(current_highest, considering_highest) member =>
      match find_id (framework member) current_members with
      | Some current_member =>
          match ver_cmp (version member) (version current_member) with
          | Lt => (current_highest + 1, considering_highest)
          | Gt => (current_highest, considering_highest + 1)
          | Eq => (current_highest, considering_highest)
          end
      | None => (current_highest, considering_highest)
      end%N) considering_members (0, 0)%N.

Definition is_better_pcl (current considering : NuGetFramework) : bool :=
  let current_members := pcl_members current in
  let considering_members := pcl_members considering in
  match Nat.compare (length considering_members) (length current_members) with
  | Lt => true
  | Gt => false
  | Eq =>
      let '(current_highest, considering_highest) := count_higher current_members considering_members in
      match N.compare considering_highest current_highest with
      | Gt => true
      | Lt => false
      | Eq =>
          let by_name :=
            match ci_cmp (default [] (short_folder_name considering)) (default [] (short_folder_name current)) with
            | Lt => true
            | _ => false
            end in
          match find_id id.NET_FRAMEWORK current_members, find_id id.NET_FRAMEWORK considering_members with
          | Some current_net, Some considering_net =>
              match ver_cmp (version considering_net) (version current_net) with
              | Gt => true
              | Lt => false
              | Eq => by_name
              end
          | _, _ => by_name
          end
      end
  end.

Definition best_pcl (reduced : list entry) : option entry :=
  fold_left (fun current e =>
    match current with
    | Some c => if is_better_pcl (snd c) (snd e) then Some e else current
    | None => Some e
    end) reduced None.

Definition has_member (nearest_member : NuGetFramework) (e : entry) : bool :=
  existsb (fun member => full_eq member nearest_member) (pcl_members (snd e)).

(** *** The reducer *)

Section nearest.
Context (get_nearest : NuGetFramework -> list NuGetFramework -> option nat).

(** [get_nearest(..).map(|index| members[index].clone())]. *)
Definition nearest_member (project : NuGetFramework) (members : list NuGetFramework) : option NuGetFramework :=
  index ← get_nearest project members; members !! index.

Definition nearest_non_pcl_to_pcl (project : NuGetFramework) (reduced : list entry) : list entry :=
  match nearest_member project (concat (map (fun e => pcl_members (snd e)) reduced)) with
  | None => reduced
  | Some member => List.filter (has_member member) reduced
  end.

Definition distinct_members (reduced : list entry) : list NuGetFramework :=
  fold_left (fun all_members member =>
      if existsb (fun existing => full_eq existing member) all_members then all_members else all_members ++ [member])
    (concat (map (fun e => pcl_members (snd e)) reduced)) [].

Definition score_members (project : NuGetFramework) (reduced : list entry) : list (entry * N) :=
  let all_members := distinct_members reduced in
  fold_left (fun scores project_member =>
      match nearest_member project_member all_members with
      | None => scores
      | Some member => map (fun '(e, score) => (e, if has_member member e then score + 1 else score)%N) scores
      end)
    (reduce_equivalent (pcl_members project)) (map (fun e => (e, 0%N)) reduced).

Definition nearest_pcl_to_pcl (project : NuGetFramework) (reduced : list entry) : list entry :=
  let scores := score_members project reduced in
  match map snd scores with
  | [] => reduced
  | score :: rest =>
      let best_score := fold_left N.max rest score in
      map fst (List.filter (fun s => N.eqb (snd s) best_score) scores)
  end.

Definition longer_than_one {A} (l : list A) : bool := Nat.ltb 1 (length l).

(** Candidates of the project's own name, and on net6.0 and later with a platform
    the old platform frameworks. *)
Definition keep_same_name (project : NuGetFramework) (reduced : list entry) : list entry :=
  if (longer_than_one reduced && existsb (fun e => same_name (snd e) project) reduced)%bool then
    List.filter (fun e =>
      if (is_net5_era project && N.leb 6 (major (version project)) && is_some (platform project)
          && (same_id (framework (snd e)) id.MONO_ANDROID || same_id (framework (snd e)) id.TIZEN))%bool
      then true else same_name (snd e) project) reduced
  else reduced.

Definition keep_portable (project : NuGetFramework) (reduced : list entry) : list entry :=
  if longer_than_one reduced then
    let any_pcl := existsb (fun e => is_pcl (snd e)) reduced in
    let any_non_pcl := existsb (fun e => negb (is_pcl (snd e))) reduced in
    if (any_pcl && any_non_pcl)%bool then List.filter (fun e => negb (is_pcl (snd e))) reduced
    else if any_pcl then
      let reduced :=
        if is_pcl project then nearest_pcl_to_pcl project reduced else nearest_non_pcl_to_pcl project reduced in
      if longer_than_one reduced then
        match best_pcl reduced with Some best => [best] | None => reduced end
      else reduced
    else reduced
  else reduced.

Definition keep_non_package (project : NuGetFramework) (reduced : list entry) : list entry :=
  if (longer_than_one reduced && negb (is_package_based project)
      && existsb (fun e => is_package_based (snd e)) reduced
      && existsb (fun e => negb (is_package_based (snd e))) reduced)%bool
  then List.filter (fun e => negb (is_package_based (snd e))) reduced else reduced.

Definition keep_profile (project : NuGetFramework) (reduced : list entry) : list entry :=
  if (longer_than_one reduced && negb (existsb (fun e => is_pcl (snd e)) reduced))%bool then
    let reduced :=
      match profile project with
      | Some project_profile =>
          retain_if_any (fun e => same_name (snd e) project
            && match profile (snd e) with Some p => same_id p project_profile | None => false end)%bool reduced
      | None => reduced
      end in
    if (longer_than_one reduced && existsb (fun e => is_some (profile (snd e))) reduced
        && existsb (fun e => is_none (profile (snd e))) reduced)%bool
    then List.filter (fun e => is_none (profile (snd e))) reduced else reduced
  else reduced.

Definition max_ver (v w : Ver) : Ver := match ver_cmp v w with Gt => v | _ => w end.

Definition keep_platform (project : NuGetFramework) (reduced : list entry) : list entry :=
  if (longer_than_one reduced && is_some (platform project))%bool then
    let is_net6_era := (is_net5_era project && N.leb 6 (major (version project)))%bool in
    let has_modern_same_name :=
      existsb (fun e => same_name (snd e) project && N.leb 6 (major (version (snd e))))%bool reduced in
    let old_platform e := (same_id (framework (snd e)) id.MONO_ANDROID || same_id (framework (snd e)) id.TIZEN)%bool in
    if (negb is_net6_era || has_modern_same_name)%bool then
      match map (fun e => version (snd e)) (List.filter (fun e => same_name (snd e) project) reduced) with
      | [] => reduced
      | v :: vs =>
          let version' := fold_left max_ver vs v in
          List.filter (fun e => same_name (snd e) project && ver_eqb (version (snd e)) version')%bool reduced
      end
    else if (is_net6_era && existsb old_platform reduced)%bool then
      let pick_tizen := existsb (fun e => same_id (framework (snd e)) id.TIZEN) reduced in
      List.filter (fun e =>
        if pick_tizen then same_id (framework (snd e)) id.TIZEN else same_id (framework (snd e)) id.MONO_ANDROID) reduced
    else reduced
  else reduced.

(** The candidates, without the unsupported ones if there are others; and those
    of them the project is compatible with. *)
Definition possible_candidates (candidates : list NuGetFramework) : list entry :=
  retain_if_any (fun e => negb (is_unsupported (snd e))) (enumerate candidates).
Definition compatible_candidates (project : NuGetFramework) (candidates : list NuGetFramework) : list entry :=
  List.filter (fun e => is_compatible project (snd e)) (possible_candidates candidates).

Definition get_nearest_with (project : NuGetFramework) (candidates : list NuGetFramework) : option nat :=
  match find (fun e => full_eq project (snd e)) (possible_candidates candidates) with
  | Some e => Some (fst e)
  | None =>
      let compatible := compatible_candidates project candidates in
      if is_empty compatible then None
      else
        let reduced := reduce_upwards compatible in
        let reduced := keep_same_name project reduced in
        let reduced := keep_portable project reduced in
        let reduced := keep_non_package project reduced in
        let reduced := keep_profile project reduced in
        let reduced := keep_platform project reduced in
        match reduced with
        | [] => None
        | [e] => Some (fst e)
        | _ => fst <$> head (sort_by (indexed_cmp final_compare) reduced)
        end
  end.
End nearest.

Fixpoint get_nearest_up_to (n : nat) (project : NuGetFramework) (candidates : list NuGetFramework) : option nat :=
  match n with
  | O => None
  | S n => get_nearest_with (get_nearest_up_to n) project candidates
  end.

Definition get_nearest_reducer (project : NuGetFramework) (candidates : list NuGetFramework) : option nat :=
  get_nearest_up_to (list_max (map depth candidates) + 1) project candidates.

Definition get_nearest (project : NuGetFramework) (candidates : list NuGetFramework) : option nat :=
  if negb (is_specific_framework project) then None else get_nearest_reducer project candidates.

Example framework_parse_ex :
  parse (#"net8.0-Windows10.0.19041") =
    Ok {| framework := id.NET_CORE_APP; version := (8, 0, 0, 0); platform := Some (#"Windows", (10, 0, 19041, 0)); profile := None |}%N
  /\ parse (#".NETFramework, Version=v4.7.2,Profile=Client") =
    Ok {| framework := id.NET_FRAMEWORK; version := (4, 7, 2, 0); platform := None; profile := Some (#"Client") |}%N
  /\ parse (#"portable-net45+win0") =
    Ok {| framework := id.PORTABLE; version := zero; platform := None; profile := Some (#"Profile7") |}
  /\ parse (#"portable-net-40+sl5") = Err Invalid
  /\ parse (#"8.0") = Ok unsupported.
Proof. vm_compute. auto 10. Qed.

Example framework_show_ex :
  short_folder_name {| framework := id.PORTABLE; version := zero; platform := None; profile := Some (#"win81+net45+net45") |} = Some (#"portable-net45+win81")
  /\ short_folder_name {| framework := id.NET_FRAMEWORK; version := (4, 50, 0, 0); platform := None; profile := Some (#"CompactFramework") |}%N = Some (#"net4.50-cf").
Proof. vm_compute. auto 10. Qed.
Definition read (s : str) : NuGetFramework := expect unsupported (parse s).

Example framework_nearest_ex :
  get_nearest (read (#"net8.0")) (map read [#"netstandard2.0"; #"net6.0"; #"net472"; #"net9.0"]) = Some 1
  /\ get_nearest (read (#"net472")) (map read [#"netstandard2.1"; #"portable-net45+win8"; #"netstandard1.6"]) = Some 2
  /\ get_nearest (read (#"net45")) (map read [#"portable-net40+sl5"; #"portable-net45+win8"]) = Some 1
  /\ get_nearest (read (#"netstandard2.0")) (map read [#"net472"]) = None.
Proof. vm_compute. auto. Qed.

