(* ===== verification/TargetFrameworkThm.v ===== *)
(** * Properties of target frameworks

    About [TargetFramework]: the recursive functions satisfy the equations of
    the code, so the bounds on their recursion are enough. *)

From S2P Require Import Prelude Order Encoding TargetFramework.

(** ** Dashes *)

Lemma dashes_app a b : dashes (a ++ b) = dashes a + dashes b.
Proof. unfold dashes, count_char. by rewrite List.filter_app, length_app. Qed.

Lemma dashes_lower s : dashes (lower s) = dashes s.
Proof.
  induction s as [|c s IH]; [done|]. unfold dashes, count_char in *. cbn [lower map List.filter].
  assert (Hc : N.eqb (#c"-") (to_ascii_lowercase c) = N.eqb (#c"-") c).
  { apply eq_true_iff_eq. rewrite !N.eqb_eq. chars. unfold to_ascii_lowercase, is_ascii_upper.
    destruct (in_range 65 90 c) eqn:E; [|done]. apply in_range_spec in E. lia. }
  rewrite Hc. destruct (N.eqb (#c"-") c); cbn [length]; unfold lower in IH; by rewrite IH.
Qed.

Lemma dashes_piece sep s p : p ∈ split sep s -> dashes p <= dashes s.
Proof.
  revert p. induction s as [|c s IH]; intros p; cbn [split]; [intros ->%list_elem_of_singleton; lia|].
  assert (Hc : exists d, forall x, dashes (c :: x) = d + dashes x) by (exists (dashes [c]); intros x; apply (dashes_app [c])).
  destruct Hc as [d Hc]. assert (Hnil : dashes [] = 0) by done. destruct (N.eqb c sep).
  - intros [->|Hp]%elem_of_cons; [lia|]. rewrite Hc. apply IH in Hp. lia.
  - destruct (split sep s) as [|q qs] eqn:E; [intros ->%list_elem_of_singleton; rewrite !Hc; lia|].
    intros [->|Hp]%elem_of_cons.
    + rewrite !Hc. pose proof (IH q ltac:(left)). lia.
    + rewrite Hc. pose proof (IH p ltac:(by right)). lia.
Qed.

Lemma split_once_some sep s a b : split_once sep s = Some (a, b) -> s = a ++ sep :: b.
Proof.
  revert a b. induction s as [|c s IH]; intros a b; cbn [split_once]; [done|].
  destruct (N.eqb_spec c sep) as [->|_]; [by intros [= <- <-]|].
  destruct (split_once sep s) as [[a' b']|]; [|done]. intros [= <- <-]. by rewrite (IH a' b').
Qed.

Lemma drop_while_dashes p s : dashes (drop_while p s) <= dashes s.
Proof. destruct (drop_while_suffix p s) as (a & E & _). rewrite E at 2. rewrite dashes_app. lia. Qed.

(** The original spelling of what is left of a lowered text. *)
Lemma original_lower input rest : (exists pre, lower input = pre ++ rest) ->
  lower (drop (length input - length rest) input) = rest.
Proof.
  intros [pre E]. unfold lower. rewrite <- skipn_map. fold (lower input).
  assert (Hl : length input = length pre + length rest) by (rewrite <- lower_length, E; apply length_app).
  rewrite E, Hl. replace (length pre + length rest - length rest) with (length pre) by lia.
  apply drop_app_length.
Qed.

(** The list after the dash of a portable name. *)
Lemma portable_list input rest list :
  match strip_prefix (#"portable") (lower input) with Some r => Some r | None => strip_prefix (#"netportable") (lower input) end = Some rest ->
  strip_prefix (#"-") (drop_while (fun c => (is_ascii_digit c || N.eqb c (#c"."))%bool) rest) = Some list ->
  lower (drop (length input - length list) input) = list
  /\ dashes (drop (length input - length list) input) < dashes input.
Proof.
  intros Er El.
  assert (Hpre : exists pre, lower input = pre ++ rest).
  { destruct (strip_prefix (#"portable") (lower input)) eqn:E1; simplify_eq.
    - apply strip_prefix_some in E1. eauto.
    - apply strip_prefix_some in Er. eauto. }
  apply strip_prefix_some in El. destruct Hpre as [pre Hpre].
  destruct (drop_while_suffix (fun c => (is_ascii_digit c || N.eqb c (#c"."))%bool) rest) as (a & Ea & _).
  rewrite El in Ea. rewrite Ea in Hpre.
  assert (Hlow : lower (drop (length input - length list) input) = list).
  { apply original_lower. exists (pre ++ a ++ #"-"). rewrite Hpre. by rewrite <- !app_assoc. }
  split; [done|]. rewrite <- (dashes_lower (drop _ _)), Hlow.
  rewrite <- (dashes_lower input), Hpre, !dashes_app. change (dashes (#"-")) with 1. lia.
Qed.

(** ** The equations of the code *)

Section extensionality.
Context (P P' : str -> result NuGetFramework FrameworkParseError) (S S' : NuGetFramework -> option str).

(** [short_folder_name] only renders the members of its profile. *)
Lemma short_name_ext r r' f :
  (forall p part, profile f = Some p -> part ∈ split (#c"+") p -> r part = r' part) ->
  short_folder_name_with r f = short_folder_name_with r' f.
Proof.
  intros H. unfold short_folder_name_with. destruct (profile f) as [p|]; [|done].
  assert (E : map r (split (#c"+") p) = map r' (split (#c"+") p)) by (apply map_ext_in; intros x Hx; by eapply H, list_elem_of_In).
  by rewrite E.
Qed.

Hypothesis HS : forall f, profile f = None -> S f = S' f.

Lemma portable_member_ext part : P part = P' part -> portable_member P S part = portable_member P' S' part.
Proof.
  intros E. unfold portable_member. rewrite E. destruct (P' part) as [f|e]; [|done]. cbn [rbind].
  destruct (profile f) as [p|] eqn:Ef; [done|]. destruct (is_zero _); rewrite HS by done; done.
Qed.

Lemma rmapM_ext {A B E} (f g : A -> result B E) l : (forall a, a ∈ l -> f a = g a) -> rmapM f l = rmapM g l.
Proof.
  intros H. induction l as [|a l IH]; [done|]. cbn [rmapM]. rewrite (H a) by left. rewrite IH; [done|].
  intros b Hb. apply H. by right.
Qed.

Lemma parse_short_ext input : (forall part, dashes part < dashes input -> P part = P' part) ->
  parse_short_with P S input = parse_short_with P' S' input.
Proof.
  intros HP. unfold parse_short_with. destruct (_ || _)%bool; [done|].
  destruct (match strip_prefix (#"portable") (lower input) with Some r => Some r | None => strip_prefix (#"netportable") (lower input) end)
    as [rest|] eqn:Er; [|done].
  cbv zeta. destruct (strip_prefix (#"-") _) as [list|] eqn:El; [|done].
  destruct (portable_list input rest list Er El) as [_ Hd].
  destruct (parse_short_version _) as [v|]; [|done]. unfold parse_portable_with.
  destruct (is_empty _); [done|]. destruct (profile_number _); [done|].
  rewrite (rmapM_ext _ (portable_member P' S')); [done|]. intros part Hp. apply portable_member_ext, HP.
  apply list_elem_of_In, filter_In in Hp as [Hp _]. apply list_elem_of_In, dashes_piece in Hp. lia.
Qed.
End extensionality.

(** What a short name parses to has a profile with fewer dashes. *)
Lemma canonical_profile_dashes p q : canonical_profile p = Some q -> dashes q <= dashes p.
Proof.
  unfold canonical_profile.
  assert (Hc : dashes (#"Client") = 0 /\ dashes (#"CompactFramework") = 0 /\ dashes (#"WindowsPhone") = 0 /\ dashes (#"wp") = 0)
    by (by vm_compute). destruct Hc as (E1 & E2 & E3 & E4).
  repeat (destruct (str_eqb _ _); [intros <-%(inj Some) || done; lia|]).
  destruct (strip_prefix _ _) as [rest|] eqn:E; intros <-%(inj Some); [|done].
  apply strip_prefix_some in E. rewrite <- (dashes_lower p), E, !dashes_app. lia.
Qed.

Lemma parse_alias_profile a t s f : parse_alias a t s = Some f -> profile f = None /\ platform f = None.
Proof.
  unfold parse_alias. destruct (_ && _)%bool; [done|]. destruct (_ || _)%bool.
  - destruct (parse_short_version t); [|done]. by intros [= <-].
  - destruct (match find _ SHORT_ALIASES with Some _ => _ | None => _ end); [|done]. cbn [mbind option_bind].
    destruct (_ && _)%bool; [done|]. destruct (parse_short_version t); [|done]. by intros [= <-].
Qed.

Lemma parse_suffix_profile input f s p : profile f = None -> (exists pre, lower input = pre ++ s) ->
  profile (parse_suffix input f s) = Some p -> dashes p <= dashes s.
Proof.
  intros Hf Hpre. unfold parse_suffix. set (o := drop _ _).
  assert (Ho : dashes o = dashes s) by (unfold o; by rewrite <- (dashes_lower (drop _ _)), original_lower).
  destruct (_ && _)%bool.
  - destruct (is_empty _); [done|]. destruct (is_empty _); [done|]. destruct (existsb _ _); [|done].
    by destruct (parse_dotted_version _).
  - destruct (_ || _)%bool; [done|]. cbn. intros H%canonical_profile_dashes. lia.
Qed.

Lemma matching_profile_number ms n : matching_profile ms = Some n ->
  dashes (#"Profile" ++ show_N n) = 0 /\ profile_number (#"Profile" ++ show_N n) = Some n /\ exists t, pcl_profile n = Some t.
Proof.
  unfold matching_profile. destruct (find _ _) as [[k t]|] eqn:E; [|done]. intros [= <-].
  apply find_some in E as [E _]. cbn [fst].
  assert (H : forallb (fun e => Nat.eqb (dashes (#"Profile" ++ show_N (fst e))) 0
    && option_eqb N.eqb (profile_number (#"Profile" ++ show_N (fst e))) (Some (fst e))
    && is_some (pcl_profile (fst e)))%bool PCL_PROFILES = true) by (by vm_compute).
  rewrite forallb_forall in H. specialize (H _ E). cbn [fst] in H. rewrite !andb_true_iff in H.
  destruct H as [[H1 H2] H3]. split; [by apply Nat.eqb_eq|]. split.
  - destruct (profile_number _); [|done]. cbn in H2. apply N.eqb_eq in H2. congruence.
  - destruct (pcl_profile k); [eauto|done].
Qed.

Lemma parse_short_profile P S input f p : parse_short_with P S input = Ok f -> profile f = Some p ->
  dashes p < dashes input.
Proof.
  unfold parse_short_with. destruct (_ || _)%bool; [by intros [= <-]|].
  destruct (match strip_prefix (#"portable") (lower input) with Some r => Some r | None => strip_prefix (#"netportable") (lower input) end)
    as [rest|] eqn:Er.
  - cbv zeta. destruct (strip_prefix (#"-") _) as [list|] eqn:El; [|by intros [= <-]].
    destruct (portable_list input rest list Er El) as [Hlow Hd].
    destruct (parse_short_version _) as [v|]; [|by intros [= <-]]. unfold parse_portable_with.
    destruct (is_empty _); [by intros [= <-]|]. destruct (profile_number _); [intros [= <-] [= <-]; lia|].
    destruct (rmapM _ _) as [ms|]; [|done]. cbn [rbind].
    destruct (matching_profile _) as [n|] eqn:Em; intros <-%(inj Ok); cbn [profile]; intros <-%(inj Some); [|lia].
    apply matching_profile_number in Em as (-> & _). lia.
  - cbv zeta. destruct (split_once _ _) as [[t s]|] eqn:Es.
    + destruct (parse_alias _ _ _) as [g|] eqn:Eg; intros [= <-]; [|done].
      apply parse_alias_profile in Eg as [Eg _]. apply split_once_some in Es.
      destruct (drop_while_suffix (fun c => (is_ascii_alphabetic c || N.eqb c (#c"."))%bool) (lower input)) as (a & Ea & _).
      rewrite Es in Ea. intros Hp. apply parse_suffix_profile in Hp; [|done|].
      * rewrite <- (dashes_lower input), Ea, !dashes_app. change (#c"-" :: s) with (#"-" ++ s). rewrite dashes_app.
        change (dashes (#"-")) with 1. lia.
      * exists (a ++ t ++ #"-"). rewrite Ea. by rewrite <- !app_assoc.
    + destruct (parse_alias _ _ _) as [g|] eqn:Eg; intros [= <-]; [|done].
      apply parse_alias_profile in Eg as [-> _]. done.
Qed.

Lemma render_member_ext P P' S S' part : P part = P' part ->
  (forall f, P part = Ok f -> S f = S' f) -> render_member P S part = render_member P' S' part.
Proof.
  intros E H. unfold render_member. rewrite <- E. destruct (P part) as [f|]; [|done]. by rewrite H.
Qed.

(** More fuel than the dashes ask for changes nothing. *)
Lemma up_to_stable n : forall m,
  (forall s, 2 * dashes s + 2 <= n -> 2 * dashes s + 2 <= m -> parse_short_up_to n s = parse_short_up_to m s)
  /\ (forall f, 2 * depth f + 1 <= n -> 2 * depth f + 1 <= m -> short_folder_name_up_to n f = short_folder_name_up_to m f).
Proof.
  induction n as [|n IH]; intros m; (split; [intros s Hn Hm|intros f Hn Hm]); [lia..| |]; (destruct m as [|m]; [lia|]);
    destruct (IH m) as [IHp IHs].
  - cbn [parse_short_up_to]. apply parse_short_ext.
    + intros f Hf. apply IHs; unfold depth; rewrite Hf; lia.
    + intros part Hp. apply IHp; lia.
  - cbn [short_folder_name_up_to]. apply short_name_ext. intros p part Hf Hp. unfold depth in Hn, Hm. rewrite Hf in Hn, Hm.
    pose proof (dashes_piece _ _ _ Hp). apply render_member_ext; [apply IHp; lia|].
    intros g Hg. destruct n as [|n']; [lia|]. cbn [parse_short_up_to] in Hg.
    assert (Hd : 2 * depth g + 1 <= 2 * dashes p + 1).
    { unfold depth. destruct (profile g) as [q|] eqn:Eq; [|lia]. apply parse_short_profile with (p := q) in Hg; [lia|done]. }
    apply IHs; lia.
Qed.

Lemma parse_short_eq s : parse_short s = parse_short_with parse_short short_folder_name s.
Proof.
  unfold parse_short at 1. replace (2 * dashes s + 2) with (S (2 * dashes s + 1)) by lia. cbn [parse_short_up_to].
  apply parse_short_ext.
  - intros f Hf. apply up_to_stable; unfold depth; rewrite Hf; lia.
  - intros part Hp. apply up_to_stable; lia.
Qed.

Lemma parse_short_depth s f : parse_short s = Ok f -> depth f <= dashes s.
Proof.
  rewrite parse_short_eq. intros H. unfold depth. destruct (profile f) as [q|] eqn:E; [|lia].
  by apply (parse_short_profile _ _ _ _ q) in H.
Qed.

Lemma short_folder_name_eq f : short_folder_name f = short_folder_name_with (render_member parse_short short_folder_name) f.
Proof.
  unfold short_folder_name at 1. replace (2 * depth f + 1) with (S (2 * depth f)) by lia. cbn [short_folder_name_up_to].
  apply short_name_ext. intros p part Hf Hp. apply dashes_piece in Hp. unfold depth. rewrite Hf.
  assert (E : parse_short_up_to (2 * S (dashes p)) part = parse_short part) by (apply up_to_stable; lia).
  apply render_member_ext; [done|]. rewrite E. intros g Hg%parse_short_depth. apply up_to_stable; lia.
Qed.

(** ** Compatibility and its equation *)

Lemma normalize_profile f r : profile (normalize f r) = profile f.
Proof. unfold normalize. by repeat case_match. Qed.

Lemma translate_profile f : profile (translate f) = profile f.
Proof. unfold translate. by repeat case_match. Qed.

Lemma parse_folder_depth s f : parse_folder s = Ok f -> depth f <= dashes s.
Proof.
  unfold parse_folder. destruct (contains_char _ _); [intros [= <-]; cbn; lia|apply parse_short_depth].
Qed.

Lemma table_no_dashes n ms s : pcl_profile n = Some ms -> s ∈ ms -> dashes s = 0.
Proof.
  unfold pcl_profile. destruct (find _ _) as [[k t]|] eqn:E; [|done]. intros [= <-] Hs.
  apply find_some in E as [E _].
  assert (H : forallb (fun e => forallb (fun s => Nat.eqb (dashes s) 0) (snd e)) PCL_PROFILES = true) by (by vm_compute).
  rewrite forallb_forall in H. specialize (H _ E). rewrite forallb_forall in H. apply Nat.eqb_eq, H, list_elem_of_In, Hs.
Qed.

Lemma pcl_members_depth c f : f ∈ pcl_members c -> depth f < depth c.
Proof.
  unfold pcl_members, depth at 2. destruct (profile c) as [p|]; [|by intros ?%not_elem_of_nil].
  assert (Hs : forall ss, (forall s, s ∈ ss -> dashes s <= dashes p) ->
    f ∈ List.filter is_specific_framework (omap (fun s => match parse_folder s with Ok f => Some f | Err _ => None end) ss) ->
    depth f < S (dashes p)).
  { intros ss Hss Hf. apply list_elem_of_In, filter_In in Hf as [Hf _].
    apply list_elem_of_In, list_elem_of_omap in Hf as (s & Hin & Hf).
    destruct (parse_folder s) eqn:E; [|done]. injection Hf as ->. apply parse_folder_depth in E. specialize (Hss s Hin). lia. }
  destruct (profile_number p).
  - destruct (pcl_profile n) as [ms|] eqn:E; [|by intros ?%not_elem_of_nil]. apply Hs. intros s Hin.
    rewrite (table_no_dashes _ _ _ E Hin). lia.
  - apply Hs. intros s. apply dashes_piece.
Qed.

Lemma pcl_members_specific c f : f ∈ pcl_members c -> is_specific_framework f = true.
Proof.
  unfold pcl_members. destruct (profile c) as [p|]; [|by intros ?%not_elem_of_nil].
  destruct (match profile_number p with Some _ => _ | None => _ end); [|by intros ?%not_elem_of_nil].
  intros Hf. by apply list_elem_of_In, filter_In in Hf as [_ ?].
Qed.

Lemma pcl_members_profile c d : profile c = profile d -> pcl_members c = pcl_members d.
Proof. intros E. unfold pcl_members. by rewrite E. Qed.

Lemma existsb_ext_in {A} (f g : A -> bool) l : (forall a, a ∈ l -> f a = g a) -> existsb f l = existsb g l.
Proof.
  intros H. induction l as [|a l IH]; [done|]. cbn [existsb]. rewrite (H a) by left. rewrite IH; [done|].
  intros b Hb. apply H. by right.
Qed.

Lemma forallb_ext_in {A} (f g : A -> bool) l : (forall a, a ∈ l -> f a = g a) -> forallb f l = forallb g l.
Proof.
  intros H. induction l as [|a l IH]; [done|]. cbn [forallb]. rewrite (H a) by left. rewrite IH; [done|].
  intros b Hb. apply H. by right.
Qed.

Section compatible_ext.
Context (R R' : NuGetFramework -> NuGetFramework -> bool).

Lemma members_compatible_ext pm cm : (forall p c, c ∈ cm -> R p c = R' p c) ->
  members_compatible R pm cm = members_compatible R' pm cm.
Proof. intros H. apply forallb_ext_in. intros p _. apply existsb_ext_in. intros c Hc. by apply H. Qed.

Lemma is_compatible_ext project candidate : (forall p c, depth c < depth candidate -> R p c = R' p c) ->
  is_compatible_with R project candidate = is_compatible_with R' project candidate.
Proof.
  intros H. unfold is_compatible_with. repeat (destruct (_ : bool); [done|]).
  set (p := normalize project Project). set (c := normalize candidate Candidate).
  assert (Hm : forall p' m, m ∈ pcl_members c -> R p' m = R' p' m).
  { intros p' m' Hm. apply H. rewrite (pcl_members_profile c candidate) in Hm by apply normalize_profile.
    by apply pcl_members_depth. }
  unfold is_compatible_normalized. repeat (destruct (_ : bool); [done|]). cbv zeta.
  destruct (match platform_fallback p with Some _ => _ | None => _ end); [done|].
  unfold is_compatible_translated. destruct (framework_eqb _ c); [done|].
  assert (Hpcl : forall q fb, pcl_candidate_compatible R q c fb = pcl_candidate_compatible R' q c fb).
  { intros q fb. unfold pcl_candidate_compatible. rewrite (members_compatible_ext _ (pcl_members c)) by auto.
    rewrite (existsb_ext_in (R q) (R' q)) by auto. done. }
  rewrite Hpcl, (members_compatible_ext _ (pcl_members c)) by auto. done.
Qed.
End compatible_ext.

Lemma is_compatible_stable n : forall m p c, depth c < n -> depth c < m ->
  is_compatible_up_to n p c = is_compatible_up_to m p c.
Proof.
  induction n as [|n IH]; intros m p c Hn Hm; [lia|]. destruct m as [|m]; [lia|]. cbn [is_compatible_up_to].
  apply is_compatible_ext. intros p' c' Hc. apply IH; lia.
Qed.

Lemma is_compatible_eq p c : is_compatible p c = is_compatible_with is_compatible p c.
Proof.
  unfold is_compatible at 1. rewrite Nat.add_1_r. cbn [is_compatible_up_to]. apply is_compatible_ext. intros p' c' Hc.
  apply is_compatible_stable; lia.
Qed.

(** ** The reducer keeps candidates, and never drops the last one *)

(** [l'] holds some of the elements of [l], and some if [l] has any. *)
Definition narrows {A} (l' l : list A) : Prop := (forall e, e ∈ l' -> e ∈ l) /\ (l <> [] -> l' <> []).

#[export] Instance narrows_preorder {A} : PreOrder (@narrows A).
Proof. split; [by intros l|]. intros l1 l2 l3 [H1 H1'] [H2 H2']. split; auto. Qed.

Lemma narrows_filter {A} (p : A -> bool) l : existsb p l = true -> narrows (List.filter p l) l.
Proof.
  intros (x & Hx & Hp)%existsb_exists. split.
  - intros e He. by apply list_elem_of_In, filter_In in He as [?%list_elem_of_In _].
  - intros _ E. assert (H : In x (List.filter p l)) by (by apply filter_In). by rewrite E in H.
Qed.

Lemma narrows_retain {A} (p : A -> bool) l : narrows (retain_if_any p l) l.
Proof. unfold retain_if_any. destruct (existsb p l) eqn:E; [by apply narrows_filter|done]. Qed.

Lemma narrows_sort {A} (cmp : A -> A -> comparison) l : narrows (sort_by cmp l) l.
Proof.
  split; [intros e; by rewrite sort_by_perm|]. intros Hl E. apply Hl, Permutation_nil. rewrite <- E. apply sort_by_perm.
Qed.

#[export] Instance ver_cmp_total : TotalCmp ver_cmp.
Proof. unfold ver_cmp. apply _. Qed.

Lemma ver_cmp_eq v w : ver_cmp v w = Eq <-> v = w.
Proof.
  unfold ver_cmp, cmp_on. rewrite list_cmp_N_eq. destruct v as [[[a b] c] d], w as [[[a' b'] c'] d']. cbn. naive_solver.
Qed.

Lemma ver_eqb_spec v w : ver_eqb v w = true <-> v = w.
Proof. unfold ver_eqb. by rewrite cmp_eqb_spec, ver_cmp_eq. Qed.

Lemma framework_eqb_refl f : framework_eqb f f = true.
Proof.
  assert (Hs : forall s, same_id s s = true) by (intros s; by apply eq_ignore_ascii_case_spec).
  assert (Hv : forall v, ver_eqb v v = true) by (intros v; by apply ver_eqb_spec).
  unfold framework_eqb. rewrite Hs, Hv. destruct (platform f) as [[n pv]|], (profile f) as [p|]; cbn [option_eqb fst snd];
    rewrite ?Hs, ?Hv; done.
Qed.

Lemma specific_supported f : is_specific_framework f = true -> is_unsupported f = false.
Proof. unfold is_specific_framework. intros H. bool_hyps. done. Qed.

Lemma full_eq_refl f : is_unsupported f = false -> full_eq f f = true.
Proof. intros H. unfold full_eq. by rewrite H, framework_eqb_refl. Qed.

(** Entries that have their own framework among their members. *)
Lemma has_member_own member e : member ∈ pcl_members (snd e) -> has_member member e = true.
Proof.
  intros H. unfold has_member. apply existsb_exists. exists member. split; [by apply list_elem_of_In|].
  by apply full_eq_refl, specific_supported, (pcl_members_specific (snd e)).
Qed.

Lemma elem_of_concat_map {A B} (f : A -> list B) l b : b ∈ concat (map f l) <-> exists a, a ∈ l /\ b ∈ f a.
Proof.
  rewrite list_elem_of_In, in_concat. split.
  - intros (bs & Hbs & Hb). apply in_map_iff in Hbs as (a & <- & Ha). exists a. by rewrite !list_elem_of_In.
  - intros (a & Ha & Hb). exists (f a). rewrite in_map_iff, <- list_elem_of_In. split; [|done].
    exists a. by rewrite <- list_elem_of_In.
Qed.

Lemma fold_max_in (l : list N) a : fold_left N.max l a = a \/ fold_left N.max l a ∈ l.
Proof.
  revert a. induction l as [|b l IH]; intros a; cbn [fold_left]; [by left|].
  destruct (IH (N.max a b)) as [E|E]; [|right; by right]. rewrite E.
  destruct (N.max_spec a b) as [[_ ->]|[_ ->]]; [right; left|by left].
Qed.

Lemma fold_max_ver_in (l : list Ver) a : fold_left max_ver l a = a \/ fold_left max_ver l a ∈ l.
Proof.
  revert a. induction l as [|b l IH]; intros a; cbn [fold_left]; [by left|].
  destruct (IH (max_ver a b)) as [E|E]; [|right; by right]. rewrite E. unfold max_ver.
  destruct (ver_cmp a b); [right; left|right; left|by left].
Qed.

Section reducer.
Context (G : NuGetFramework -> list NuGetFramework -> option nat).

Lemma narrows_non_pcl_to_pcl project reduced : narrows (nearest_non_pcl_to_pcl G project reduced) reduced.
Proof.
  unfold nearest_non_pcl_to_pcl. destruct (nearest_member _ _ _) as [member|] eqn:E; [|done]. apply narrows_filter.
  unfold nearest_member in E. destruct (G _ _) as [n|]; [|done]. cbn in E. apply list_elem_of_lookup_2 in E.
  apply elem_of_concat_map in E as (e & He & Hm). apply existsb_exists. exists e. split; [by apply list_elem_of_In|].
  by apply has_member_own.
Qed.

Lemma score_members_fst project reduced : map fst (score_members G project reduced) = reduced.
Proof.
  unfold score_members. set (init := map _ reduced).
  assert (Hi : map fst init = reduced) by (unfold init; rewrite map_map; apply map_id). clearbody init. revert init Hi.
  induction (reduce_equivalent (pcl_members project)) as [|f fs IH]; intros init Hi; [done|]. cbn [fold_left]. apply IH.
  destruct (nearest_member _ _ _); [|done]. rewrite map_map, <- Hi. apply map_ext. by intros [e s].
Qed.

Lemma narrows_pcl_to_pcl project reduced : narrows (nearest_pcl_to_pcl G project reduced) reduced.
Proof.
  unfold nearest_pcl_to_pcl. pose proof (score_members_fst project reduced) as Hf.
  destruct (score_members G project reduced) as [|s ss] eqn:Es; [done|]. cbn [map]. cbv zeta. set (best := fold_left N.max _ _).
  rewrite <- Hf. assert (Hn : narrows (List.filter (fun s => N.eqb (snd s) best) (s :: ss)) (s :: ss)).
  { apply narrows_filter, existsb_exists. destruct (fold_max_in (map snd ss) (snd s)) as [E|E].
    - exists s. split; [by left|]. by apply N.eqb_eq.
    - apply list_elem_of_In, in_map_iff in E as (t & E & Ht). exists t. split; [by right|]. by apply N.eqb_eq. }
  destruct Hn as [H1 H2]. split.
  - intros e He. apply list_elem_of_In, in_map_iff in He as (t & <- & Ht%list_elem_of_In). apply H1 in Ht.
    apply list_elem_of_In, in_map. by apply list_elem_of_In.
  - intros _ E. apply map_eq_nil in E. by apply H2.
Qed.

Lemma best_pcl_in reduced e : best_pcl reduced = Some e -> e ∈ reduced.
Proof.
  unfold best_pcl. assert (H : forall l c, fold_left (fun current e => match current with
    | Some c => if is_better_pcl (snd c) (snd e) then Some e else current | None => Some e end) l c = Some e ->
    c = Some e \/ e ∈ l).
  { induction l as [|x l IH]; intros c; cbn [fold_left]; [by left|]. intros Hl. apply IH in Hl as [Hl|Hl]; [|right; by right].
    destruct c as [c|]; [|injection Hl as ->; right; left].
    destruct (is_better_pcl _ _); [injection Hl as ->; right; left|by left]. }
  intros Hb. apply H in Hb as [?|?]; [done|done].
Qed.

Lemma narrows_single {A} (e : A) l : e ∈ l -> narrows [e] l.
Proof. intros He. split; [by intros x ->%list_elem_of_singleton|done]. Qed.

Lemma narrows_portable project reduced : narrows (keep_portable G project reduced) reduced.
Proof.
  unfold keep_portable. destruct (longer_than_one reduced); [|done]. cbv zeta.
  destruct (_ && _)%bool eqn:Eb; [bool_hyps; by apply narrows_filter|].
  destruct (existsb (fun e => is_pcl (snd e)) reduced); [|done].
  set (r := if is_pcl project then _ else _).
  assert (Hr : narrows r reduced) by (unfold r; destruct (is_pcl project); [apply narrows_pcl_to_pcl|apply narrows_non_pcl_to_pcl]).
  destruct (longer_than_one r); [|done]. destruct (best_pcl r) as [b|] eqn:Eb2; [|done].
  etrans; [|exact Hr]. by apply narrows_single, best_pcl_in.
Qed.
End reducer.

Lemma narrows_same_name project reduced : narrows (keep_same_name project reduced) reduced.
Proof.
  unfold keep_same_name. destruct (_ && _)%bool eqn:E; [|done]. bool_hyps. apply narrows_filter.
  apply existsb_exists in H0 as (e & He & Hn). apply existsb_exists. exists e. split; [done|]. by destruct (_ && _)%bool.
Qed.

Lemma narrows_non_package project reduced : narrows (keep_non_package project reduced) reduced.
Proof. unfold keep_non_package. destruct (_ && _)%bool eqn:E; [|done]. bool_hyps. by apply narrows_filter. Qed.

Lemma narrows_profile project reduced : narrows (keep_profile project reduced) reduced.
Proof.
  unfold keep_profile. destruct (_ && _)%bool; [|done]. cbv zeta. set (r := match profile project with Some _ => _ | None => _ end).
  assert (Hr : narrows r reduced) by (unfold r; destruct (profile project); [apply narrows_retain|done]).
  destruct (_ && _)%bool eqn:E; [|done]. bool_hyps. etrans; [|exact Hr]. by apply narrows_filter.
Qed.

Lemma narrows_platform project reduced : narrows (keep_platform project reduced) reduced.
Proof.
  unfold keep_platform. destruct (_ && _)%bool; [|done]. cbv zeta. destruct (negb _ || _)%bool eqn:Em.
  - destruct (map _ (List.filter _ _)) as [|v vs] eqn:Ev; [done|]. apply narrows_filter. apply existsb_exists.
    assert (Hv : fold_left max_ver vs v ∈ v :: vs) by (destruct (fold_max_ver_in vs v) as [->|?]; [left|by right]).
    rewrite <- Ev in Hv. apply list_elem_of_In, in_map_iff in Hv as (e & Hv & He).
    apply filter_In in He as [He Hn]. exists e. split; [done|]. rewrite Hn, Hv. by apply ver_eqb_spec.
  - match goal with |- context [if ?b then _ else reduced] => destruct b eqn:Eo end; [|done]. bool_hyps. apply narrows_filter.
    destruct (existsb (fun e => same_id (framework (snd e)) id.TIZEN) reduced) eqn:Et; [done|].
    match goal with H : existsb _ reduced = true |- _ => apply existsb_exists in H as (e & He & Hor) end.
    apply existsb_exists. exists e. split; [done|]. apply orb_true_iff in Hor as [?|Ht]; [done|].
    assert (existsb (fun e => same_id (framework (snd e)) id.TIZEN) reduced = true); [|congruence].
    apply existsb_exists. by exists e.
Qed.

Lemma elem_of_enumerate cs i f : (i, f) ∈ enumerate cs <-> cs !! i = Some f.
Proof.
  unfold enumerate. assert (H : forall k, (i, f) ∈ combine (seq k (length cs)) cs <-> k <= i /\ cs !! (i - k) = Some f).
  { induction cs as [|c cs IH]; intros k; cbn [length seq combine].
    - rewrite elem_of_nil. naive_solver.
    - rewrite elem_of_cons, IH. split.
      + intros [[= -> ->]|[Hk Hl]]; [by rewrite Nat.sub_diag|]. split; [lia|].
        replace (i - k) with (S (i - S k)) by lia. done.
      + intros [Hk Hl]. destruct (decide (i = k)) as [->|Hne]; [left; rewrite Nat.sub_diag in Hl; by injection Hl as ->|].
        right. split; [lia|]. replace (i - k) with (S (i - S k)) in Hl by lia. done. }
  rewrite H, Nat.sub_0_r. split; [tauto|]. split; [lia|done].
Qed.

Lemma distinct_full_sub input output e : e ∈ distinct_full input output -> e ∈ input \/ e ∈ output.
Proof.
  revert output. induction input as [|x input IH]; intros output; cbn [distinct_full]; [by right|].
  intros H. apply IH in H as [H|H]; [left; by right|].
  destruct (existsb (fun existing => full_eq (snd existing) (snd x)) output); [by right|]. apply elem_of_app in H as [H| ->%list_elem_of_singleton]; [by right|left; left].
Qed.

Lemma reduce_upwards_sub input e : e ∈ reduce_upwards input -> e ∈ input.
Proof.
  unfold reduce_upwards. rewrite sort_by_perm. intros H. apply list_elem_of_In, filter_In in H as [H _].
  apply list_elem_of_In, distinct_full_sub in H as [H|H%not_elem_of_nil]; [by apply narrows_retain in H|done].
Qed.

(** What is left of the candidates before the last comparison. *)
Definition narrowed G project reduced : list entry :=
  keep_platform project (keep_profile project (keep_non_package project
    (keep_portable G project (keep_same_name project reduced)))).

Lemma narrows_narrowed G project reduced : narrows (narrowed G project reduced) reduced.
Proof.
  unfold narrowed. rewrite narrows_platform, narrows_profile, narrows_non_package, narrows_portable. apply narrows_same_name.
Qed.

Lemma first_of_sorted {A} (cmp : A -> A -> comparison) (l : list A) :
  l <> [] -> exists e, e ∈ l /\ match l with [] => None | [e] => Some e | _ => head (sort_by cmp l) end = Some e.
Proof.
  intros Hl. destruct l as [|a [|b l]]; [done|exists a; split; [left|done]|].
  destruct (narrows_sort cmp (a :: b :: l)) as [Hin Hne]. destruct (sort_by cmp (a :: b :: l)) as [|e r]; [by destruct Hne|].
  exists e. split; [apply Hin; left|done].
Qed.

(** The result, once an equal candidate is ruled out. *)
Lemma get_nearest_shape G project cs :
  let reduced := reduce_upwards (compatible_candidates project cs) in
  match find (fun e => full_eq project (snd e)) (possible_candidates cs) with
  | Some e => get_nearest_with G project cs = Some (fst e)
  | None =>
      if is_empty reduced then get_nearest_with G project cs = None
      else exists e, e ∈ reduced /\ get_nearest_with G project cs = Some (fst e)
  end.
Proof.
  intros reduced. unfold get_nearest_with. destruct (find _ _); [done|]. cbv zeta. fold reduced.
  fold (narrowed G project reduced). destruct (narrows_narrowed G project reduced) as [Hin Hne].
  assert (Hsub : forall e, e ∈ reduced -> e ∈ compatible_candidates project cs) by (intros e; apply reduce_upwards_sub).
  clearbody reduced. destruct reduced as [|x reduced]; cbn [is_empty].
  - destruct (is_empty (compatible_candidates project cs)); [done|].
    destruct (narrowed G project []) as [|x l]; [done|]. exfalso. apply (not_elem_of_nil x), Hin. left.
  - destruct (compatible_candidates project cs) as [|y l]; [destruct (not_elem_of_nil x); apply Hsub; left|]. cbn [is_empty].
    destruct (first_of_sorted (indexed_cmp final_compare) (narrowed G project (x :: reduced))) as (e & He & Ee).
    { by apply Hne. }
    exists e. split; [by apply Hin|]. destruct (narrowed G project (x :: reduced)) as [|a [|b l']]; [done|by injection Ee as ->|].
    by rewrite Ee.
Qed.

(** The same, with the candidates the first step left. *)
Lemma get_nearest_final G project cs :
  let reduced := keep_same_name project (reduce_upwards (compatible_candidates project cs)) in
  match find (fun e => full_eq project (snd e)) (possible_candidates cs) with
  | Some e => get_nearest_with G project cs = Some (fst e)
  | None => match get_nearest_with G project cs with Some n => exists e, e ∈ reduced /\ n = fst e | None => True end
  end.
Proof.
  intros reduced. unfold get_nearest_with. destruct (find _ _); [done|]. cbv zeta. fold reduced.
  destruct (is_empty _); [done|].
  set (final := keep_platform _ _). assert (Hin : forall e, e ∈ final -> e ∈ reduced).
  { intros e He. unfold final in He. by apply narrows_platform, narrows_profile, narrows_non_package, narrows_portable in He. }
  clearbody final. destruct final as [|a [|b l]]; [done|exists a; split; [apply Hin; left|done]|].
  destruct (narrows_sort (indexed_cmp final_compare) (a :: b :: l)) as [Hs _].
  destruct (sort_by _ _) as [|e r]; [done|]. exists e. split; [apply Hin, Hs; left|done].
Qed.

Lemma possible_in cs e : e ∈ possible_candidates cs -> cs !! fst e = Some (snd e).
Proof. destruct e as [i f]. intros He%narrows_retain. by apply elem_of_enumerate. Qed.

Lemma elem_of_compatible project cs e : e ∈ compatible_candidates project cs <->
  e ∈ possible_candidates cs /\ is_compatible project (snd e) = true.
Proof. unfold compatible_candidates. by rewrite !list_elem_of_In, filter_In. Qed.

Lemma equal_is_compatible p c : framework_eqb p c = true -> is_compatible p c = true.
Proof. intros H. rewrite is_compatible_eq. unfold is_compatible_with. destruct (_ || _)%bool; [done|]. by rewrite H. Qed.

Lemma get_nearest_with_sound G project cs n : get_nearest_with G project cs = Some n ->
  exists f, cs !! n = Some f /\ is_compatible project f = true.
Proof.
  intros H. pose proof (get_nearest_shape G project cs) as Hs. cbv zeta in Hs.
  destruct (find (fun e => full_eq project (snd e)) (possible_candidates cs)) as [e|] eqn:Ef.
  - rewrite Hs in H. injection H as <-. apply find_some in Ef as [He%list_elem_of_In Heq]. exists (snd e).
    split; [by apply possible_in|]. apply equal_is_compatible. unfold full_eq in Heq. by bool_hyps.
  - destruct (is_empty (reduce_upwards (compatible_candidates project cs))); [congruence|].
    destruct Hs as (e & He & Hs). rewrite Hs in H. injection H as <-.
    apply reduce_upwards_sub, elem_of_compatible in He as [He Hc]. exists (snd e). split; [by apply possible_in|done].
Qed.

(** ** The equation of the reducer *)

Section nearest_ext.
Context (G G' : NuGetFramework -> list NuGetFramework -> option nat) (bound : nat).
Hypothesis HG : forall p ms, Forall (fun m => depth m < bound) ms -> G p ms = G' p ms.

Lemma nearest_member_ext p ms : Forall (fun m => depth m < bound) ms -> nearest_member G p ms = nearest_member G' p ms.
Proof. intros H. unfold nearest_member. by rewrite HG. Qed.

Lemma members_bounded (reduced : list entry) : (forall e, e ∈ reduced -> depth (snd e) <= bound) ->
  Forall (fun m => depth m < bound) (concat (map (fun e => pcl_members (snd e)) reduced)).
Proof.
  intros H. apply Forall_forall. intros m' Hm. apply elem_of_concat_map in Hm as (e & He & Hm).
  apply pcl_members_depth in Hm. specialize (H e He). lia.
Qed.

Lemma distinct_members_sub (reduced : list entry) m' : m' ∈ distinct_members reduced -> m' ∈ concat (map (fun e => pcl_members (snd e)) reduced).
Proof.
  unfold distinct_members. set (l := concat _).
  assert (H : forall l out, m' ∈ fold_left (fun all_members member =>
      if existsb (fun existing => full_eq existing member) all_members then all_members else all_members ++ [member]) l out ->
      m' ∈ out \/ m' ∈ l).
  { clear l. induction l as [|x l IH]; intros out; cbn [fold_left]; [by left|]. intros Hm. apply IH in Hm as [Hm|Hm]; [|right; by right].
    destruct (existsb (fun existing => full_eq existing x) out); [by left|]. apply elem_of_app in Hm as [?| ->%list_elem_of_singleton]; [by left|right; left]. }
  intros Hm. apply H in Hm as [Hm%not_elem_of_nil|?]; [done|done].
Qed.

Lemma keep_portable_ext project (reduced : list entry) : (forall e, e ∈ reduced -> depth (snd e) <= bound) ->
  keep_portable G project reduced = keep_portable G' project reduced.
Proof.
  intros H. unfold keep_portable.
  assert (E1 : nearest_non_pcl_to_pcl G project reduced = nearest_non_pcl_to_pcl G' project reduced).
  { unfold nearest_non_pcl_to_pcl. by rewrite nearest_member_ext by (by apply members_bounded). }
  assert (E2 : nearest_pcl_to_pcl G project reduced = nearest_pcl_to_pcl G' project reduced).
  { unfold nearest_pcl_to_pcl. assert (score_members G project reduced = score_members G' project reduced) as ->; [|done].
    unfold score_members. set (init := map _ reduced). clearbody init. revert init.
    assert (Hb : Forall (fun m => depth m < bound) (distinct_members reduced)).
    { apply Forall_forall. intros m' Hm%distinct_members_sub. pose proof (members_bounded reduced H) as Hall.
      rewrite Forall_forall in Hall. by apply Hall. }
    induction (reduce_equivalent (pcl_members project)) as [|f fs IH]; intros init; [done|]. cbn [fold_left].
    rewrite nearest_member_ext by done. apply IH. }
  by rewrite E1, E2.
Qed.

Lemma get_nearest_ext project cs : Forall (fun c => depth c <= bound) cs ->
  get_nearest_with G project cs = get_nearest_with G' project cs.
Proof.
  intros H. unfold get_nearest_with. rewrite keep_portable_ext; [done|]. intros [i f] He.
  apply narrows_same_name in He. apply reduce_upwards_sub, elem_of_compatible in He as [He _].
  apply possible_in, list_elem_of_lookup_2 in He. rewrite Forall_forall in H. by apply H.
Qed.
End nearest_ext.

Lemma get_nearest_stable n : forall m p cs, Forall (fun c => depth c < n) cs -> Forall (fun c => depth c < m) cs ->
  get_nearest_up_to n p cs = get_nearest_up_to m p cs.
Proof.
  assert (Hnil : forall n p cs, Forall (fun c : NuGetFramework => depth c < 0) cs -> get_nearest_up_to n p cs = None).
  { intros [|n'] p cs H; [done|]. destruct H; [done|lia]. }
  induction n as [|n IH]; intros m p cs Hn Hm; [by rewrite !Hnil|]. destruct m as [|m]; [by rewrite !Hnil|].
  cbn [get_nearest_up_to]. apply (get_nearest_ext _ _ (Nat.min n m)).
  - intros p' ms Hms. apply IH; (eapply Forall_impl; [exact Hms|]; cbn; lia).
  - apply Forall_forall. intros c Hc. rewrite Forall_forall in Hn, Hm. specialize (Hn c Hc). specialize (Hm c Hc). lia.
Qed.

Lemma depth_le_max (cs : list NuGetFramework) : Forall (fun c => depth c <= list_max (map depth cs)) cs.
Proof.
  pose proof (proj1 (list_max_le (map depth cs) _) (Nat.le_refl _)) as H. by rewrite Forall_map in H.
Qed.

Lemma get_nearest_reducer_eq p cs : get_nearest_reducer p cs = get_nearest_with get_nearest_reducer p cs.
Proof.
  unfold get_nearest_reducer at 1. rewrite Nat.add_1_r. cbn [get_nearest_up_to].
  apply (get_nearest_ext _ _ (list_max (map depth cs))); [|apply depth_le_max].
  intros p' ms Hms. unfold get_nearest_reducer. apply get_nearest_stable; [done|].
  eapply Forall_impl; [apply depth_le_max|]. cbn. lia.
Qed.
