(* ===== verification/TargetFrameworkCompat.v ===== *)
(** * Compatibility and the nearest framework

    About [TargetFramework]: compatibility is reflexive and, for the frameworks
    the resolver supports, monotone in the version of the project; the nearest
    candidate is always compatible, and there is one whenever a candidate is
    compatible; the comparisons that order candidates are total orders. *)

From S2P Require Import Prelude Order Encoding TargetFramework TargetFrameworkThm.

(** ** Frameworks with a known identifier *)

Lemma same_id_lower a b : same_id a b = str_eqb (lower a) (lower b).
Proof. done. Qed.

Lemma same_id_spec a b : same_id a b = true <-> lower a = lower b.
Proof. apply eq_ignore_ascii_case_spec. Qed.

Lemma same_id_refl a : same_id a a = true.
Proof. by apply same_id_spec. Qed.

Lemma same_id_sym a b : same_id a b = same_id b a.
Proof. apply eq_true_iff_eq. rewrite !same_id_spec. naive_solver. Qed.

(** Decide every test of a known identifier: [H] gives one, as its lower-case
    text. *)
Ltac known_id H :=
  repeat match goal with
  | |- context [same_id ?f ?b] =>
      match type of H with lower f = ?l =>
        let v := eval vm_compute in (str_eqb l (lower b)) in
        replace (same_id f b) with v by (rewrite (same_id_lower f b), H; vm_compute; reflexivity)
      end
  end.

(** The frameworks without rules of their own: those of the projects the resolver
    supports, and those such a project can reach. *)
Definition live (f : NuGetFramework) : Prop :=
  lower (framework f) = lower id.NET_FRAMEWORK \/ lower (framework f) = lower id.NET_CORE_APP
  \/ lower (framework f) = lower id.NET_STANDARD \/ lower (framework f) = lower id.DOTNET
  \/ lower (framework f) = lower id.MONO_ANDROID \/ lower (framework f) = lower id.TIZEN.

Lemma resolver_project_live f : is_resolver_project_framework f = true -> live f.
Proof.
  unfold is_resolver_project_framework, live. rewrite !orb_true_iff, !str_eqb_eq. intros [[-> | ->]| ->]; auto.
Qed.

Lemma ver_leb_spec v w : ver_leb v w = true <-> ver_cmp v w <> Gt.
Proof. apply cmp_leb_spec. Qed.

Lemma ver_ltb_spec v w : ver_ltb v w = true <-> ver_cmp v w = Lt.
Proof. apply cmp_ltb_spec. Qed.

Lemma ver_leb_trans u v w : ver_leb u v = true -> ver_leb v w = true -> ver_leb u w = true.
Proof. rewrite !ver_leb_spec. apply (cmp_le_trans ver_cmp). Qed.

Lemma ver_leb_refl v : ver_leb v v = true.
Proof. apply ver_leb_spec. by rewrite (cmp_refl ver_cmp). Qed.

Lemma ver_ltb_leb u v : ver_ltb u v = negb (ver_leb v u).
Proof.
  unfold ver_ltb, ver_leb, cmp_ltb, cmp_leb. rewrite (cmp_opp ver_cmp u v). by destruct (ver_cmp u v).
Qed.

(** ** A project the resolver supports *)

Section live_project.
Context (p : NuGetFramework) (Hp : live p).

Lemma live_simple : is_any p = false /\ is_unsupported p = false /\ same_id (framework p) id.WINRT = false
  /\ same_id (framework p) id.AGNOSTIC = false /\ is_pcl p = false /\ same_id (framework p) id.WINDOWS = false
  /\ same_id (framework p) id.DNX = false /\ same_id (framework p) id.DNXCORE = false.
Proof. unfold is_any, is_unsupported, is_pcl. destruct Hp as [H|[H|[H|[H|[H|H]]]]]; known_id H; done. Qed.

Lemma live_normalize r : normalize p r = p.
Proof. unfold normalize. cbv zeta. destruct Hp as [H|[H|[H|[H|[H|H]]]]]; known_id H; cbn [andb]; by destruct (is_zero _). Qed.

Lemma live_translate : translate p = p.
Proof. unfold translate. destruct Hp as [H|[H|[H|[H|[H|H]]]]]; known_id H; done. Qed.

Lemma live_legacy : existsb (str_eqb (lower (framework p))) [#"dnx"; #"dnxcore"; #"asp.net"; #"asp.netcore"] = false.
Proof. destruct Hp as [H|[H|[H|[H|[H|H]]]]]; rewrite H; by vm_compute. Qed.

(** The compatibility of such a project, with the branches it cannot take left
    out. *)
Lemma live_compatible c : is_compatible p c =
  (is_any c || framework_eqb p c ||
   if same_id (framework c) id.AGNOSTIC then true
   else if is_unsupported c then false
   else
     let c := normalize c Candidate in
     framework_eqb p c
     || match platform_fallback p with Some fb => same_id (framework c) fb | None => false end
     || if is_pcl c then
          negb (is_empty (pcl_members c)) &&
          (if existsb (fun x => same_id (framework p) x) XAMARIN_FAMILY
              || option_eqb str_eqb (platform_fallback p) (Some id.MONO_ANDROID)
           then match pcl_profile_number c with Some n => existsb (N.eqb n) XAMARIN_PCL_PROFILES | None => false end
           else existsb (is_compatible p) (pcl_members c))
        else if same_name p c then same_identifier_compatible p c
        else negb (is_some (platform c) || is_some (profile c)) && (is_none (profile p) || plain_net_profile p)
             && existsb (mapping_applies p c) MAPPINGS)%bool.
Proof.
  destruct live_simple as (Ha & Hu & Hw & Hg & Hpcl & _ & Hd & Hdc).
  rewrite is_compatible_eq. unfold is_compatible_with. rewrite Ha, Hu, Hw, orb_false_r.
  destruct (is_any c); [done|]. destruct (framework_eqb p c); [done|]. cbn [orb andb].
  destruct (same_id (framework c) id.AGNOSTIC).
  { unfold is_specific_framework. by rewrite Ha, Hu, Hg. }
  destruct (is_unsupported c); [done|]. rewrite live_normalize. cbv zeta. set (c' := normalize c Candidate).
  unfold is_compatible_normalized. rewrite live_legacy, Hd, Hdc, andb_false_r. cbn [andb]. cbv zeta.
  destruct (framework_eqb p c') eqn:Eq; [done|]. cbn [orb].
  destruct (match platform_fallback p with Some _ => _ | None => _ end); [done|]. cbn [orb].
  rewrite live_translate. unfold is_compatible_translated. rewrite Eq, Hpcl. destruct (is_pcl c').
  { unfold pcl_candidate_compatible. rewrite Hpcl. by destruct (is_empty _). }
  destruct (same_name p c'); [done|]. destruct (_ || is_some _)%bool; [done|]. cbn [negb andb].
  by destruct (_ || plain_net_profile p)%bool.
Qed.
End live_project.

(** Normalization does not touch portable frameworks. *)
Lemma normalize_pcl c r : is_pcl (normalize c r) = true -> is_pcl c = true /\ normalize c r = c.
Proof.
  unfold normalize. cbv zeta.
  repeat match goal with |- context [if ?b then _ else _] => destruct b eqn:?; [|] end; try done;
    unfold is_pcl; cbn [set_version set_id framework version]; intros H; bool_hyps;
    repeat match goal with H : same_id _ _ = true |- _ => apply same_id_spec in H end; simplify_eq; exfalso;
    match goal with H1 : lower _ = lower id.PORTABLE |- _ => vm_compute in H1; discriminate H1 || idtac end;
    match goal with H1 : lower (framework c) = _, H2 : lower (framework c) = _ |- _ => rewrite H1 in H2; by vm_compute in H2 end.
Qed.

(** ** Newer projects accept more *)

Lemma mapping_no_ceiling : forallb (fun m => is_none (project_max_excl m)) MAPPINGS = true.
Proof. by vm_compute. Qed.

Section newer.
Context (p : NuGetFramework) (v : Ver).
Hypothesis Hp : live p.
Hypothesis Hv : ver_leb (version p) v = true.
Let q := set_version p v.

Lemma newer_mapping c : existsb (mapping_applies p c) MAPPINGS = true -> existsb (mapping_applies q c) MAPPINGS = true.
Proof.
  intros (row & Hin & H)%existsb_exists. apply existsb_exists. exists row. split; [done|].
  pose proof mapping_no_ceiling as Hn. rewrite forallb_forall in Hn. specialize (Hn _ Hin). unfold mapping_applies in *.
  bool_hyps. cbn [q set_version framework version]. destruct (project_max_excl row); [done|].
  rewrite !andb_true_iff. split_and!; [done| |done..]. by eapply ver_leb_trans.
Qed.

Lemma profiles_match_newer c : profiles_match q c = profiles_match p c.
Proof. done. Qed.

Lemma newer_same_identifier c : same_identifier_compatible p c = true -> same_identifier_compatible q c = true.
Proof.
  destruct (live_simple p Hp) as (_ & _ & _ & _ & _ & Hw & _). unfold same_identifier_compatible.
  rewrite profiles_match_newer. cbn [q set_version framework version platform]. rewrite Hw. cbn [andb].
  rewrite !ver_ltb_leb. destruct (ver_leb (version c) (version p)) eqn:E; [|done].
  by rewrite (ver_leb_trans _ _ _ E Hv).
Qed.

(** A candidate equal to the project has its identifier, version, profile and
    platform. *)
Lemma equal_same_identifier c : framework_eqb p c = true -> same_name p c = true /\ same_identifier_compatible p c = true.
Proof.
  destruct (live_simple p Hp) as (_ & _ & _ & _ & _ & Hw & _).
  unfold framework_eqb. intros H. bool_hyps. split; [done|]. unfold same_identifier_compatible. rewrite Hw. cbn [andb].
  match goal with H : ver_eqb _ _ = true |- _ => apply ver_eqb_spec in H as -> end.
  rewrite ver_ltb_leb, ver_leb_refl. cbn [negb orb].
  assert (profiles_match p c = true) as -> by (unfold profiles_match; by destruct (_ && _)%bool). cbn [negb].
  destruct (platform p) as [[n pv]|], (platform c) as [[n' cv]|]; try done. cbn in *. bool_hyps.
  match goal with H : ver_eqb _ _ = true |- _ => apply ver_eqb_spec in H as -> end.
  by rewrite ver_leb_refl, andb_true_r.
Qed.

Lemma newer_fallback fb : platform_fallback p = Some fb -> platform_fallback q = Some fb.
Proof.
  unfold platform_fallback. cbn [q set_version framework version platform]. destruct (platform p) as [[n pv]|]; [|done].
  cbn [mbind option_bind]. destruct (negb _); [done|].
  destruct (same_id n (#"android")) eqn:Ea; cbn [andb].
  - destruct (ver_leb (6, 0, 0, 0)%N (version p)) eqn:E6; [by rewrite (ver_leb_trans _ _ _ E6 Hv)|].
    destruct (same_id n (#"tizen")) eqn:Et; [|done]. exfalso. apply same_id_spec in Ea, Et. rewrite Ea in Et. by vm_compute in Et.
  - destruct (same_id n (#"tizen")); [|done]. cbn [andb].
    destruct (ver_leb (6, 0, 0, 0)%N (version p)) eqn:E6; [|done]. by rewrite (ver_leb_trans _ _ _ E6 Hv).
Qed.

Lemma live_newer : live q.
Proof. exact Hp. Qed.

(** What normalization leaves of a candidate with the project's identifier. *)
Lemma live_candidate c : same_name p c = true -> live c.
Proof. intros H%same_id_spec. unfold live in *. by rewrite <- H. Qed.

Lemma newer_equal c : framework_eqb p c = true -> is_compatible q c = true.
Proof.
  intros H. destruct (equal_same_identifier c H) as [Hn Hs]. pose proof (live_candidate c Hn) as Hc.
  destruct (live_simple c Hc) as (Ha & Hu & _ & Hg & Hpcl & _). rewrite (live_compatible q live_newer), Ha, Hg, Hu. cbn [orb].
  rewrite (live_normalize c Hc). cbv zeta. rewrite Hpcl.
  change (same_name q c) with (same_name p c). rewrite Hn, (newer_same_identifier c Hs), !orb_true_r. done.
Qed.

Lemma newer_compatible n c : depth c < n -> is_pcl c = false \/ platform_fallback q = platform_fallback p ->
  is_compatible p c = true -> is_compatible q c = true.
Proof.
  revert c. induction n as [|n IH]; intros c Hn Hfb; [lia|]. destruct (framework_eqb p c) eqn:Eeq; [by intros _; apply newer_equal|].
  rewrite (live_compatible p Hp), (live_compatible q live_newer), Eeq, orb_false_r.
  destruct (is_any c); [done|]. cbn [orb]. destruct (framework_eqb q c); [done|]. cbn [orb].
  destruct (same_id _ _); [done|]. destruct (is_unsupported c); [done|]. cbv zeta.
  assert (Hpcl : is_pcl (normalize c Candidate) = true -> is_pcl c = true /\ normalize c Candidate = c) by apply normalize_pcl.
  set (c' := normalize c Candidate) in *. destruct (framework_eqb p c') eqn:Eeq'.
  { destruct (equal_same_identifier c' Eeq') as [Hsn Hsi]. pose proof (live_candidate c' Hsn) as Hc.
    destruct (live_simple c' Hc) as (_ & _ & _ & _ & -> & _). change (same_name q c') with (same_name p c').
    rewrite Hsn, (newer_same_identifier c' Hsi), !orb_true_r. done. }
  cbn [orb]. destruct (framework_eqb q c'); [done|]. cbn [orb].
  destruct (match platform_fallback p with Some _ => _ | None => _ end) eqn:Ef.
  { destruct (platform_fallback p) as [fb|] eqn:Ep; [|done]. rewrite (newer_fallback fb Ep), Ef. done. }
  cbn [orb]. intros H. apply orb_true_iff. right. destruct (is_pcl c') eqn:Ec.
  - destruct (Hpcl eq_refl) as [Hcp ->]. destruct Hfb as [Hfb|Hfb]; [congruence|]. rewrite Hfb.
    bool_hyps. rewrite H. cbn [andb]. change (framework q) with (framework p).
    destruct (_ || option_eqb _ _ _)%bool; [done|].
    match goal with H : existsb _ _ = true |- _ => apply existsb_exists in H as (m' & Hm & Hc) end.
    apply existsb_exists. exists m'. split; [done|]. apply list_elem_of_In, pcl_members_depth in Hm. apply IH; [lia|by right|done].
  - change (same_name q c') with (same_name p c'). destruct (same_name p c'); [by apply newer_same_identifier|].
    change (profile q) with (profile p). change (plain_net_profile q) with (plain_net_profile p).
    rewrite !andb_true_iff in *. destruct H as [[H1 H2] H3]. split_and!; [done..|]. by apply newer_mapping.
Qed.
End newer.

(** ** Candidates that exclude others *)

(** How far up a framework is in the chains of compatibility, by its identifier
    in lower case. *)
Definition RANKS : list (str * nat) := [
  (lower id.ANY, 0); (lower id.AGNOSTIC, 0); (lower id.NET_STANDARD, 1); (lower id.DOTNET, 1);
  (lower id.MONO_ANDROID, 2); (lower id.TIZEN, 2); (lower id.NET_FRAMEWORK, 3); (lower id.NET_CORE_APP, 3)].
Definition rank_of (low : str) : option nat := snd <$> find (fun e => str_eqb (fst e) low) RANKS.
Definition rank (f : NuGetFramework) : option nat := rank_of (lower (framework f)).

(** Identifier, version, platform. *)
Definition key_cmp (a b : NuGetFramework) : comparison :=
  then_cmp (cmp_on rank (option_cmp Nat.compare) a b)
    (then_cmp (cmp_on version ver_cmp a b) (cmp_on (fun f => snd <$> platform f) (option_cmp ver_cmp) a b)).

#[export] Instance key_cmp_total : TotalCmp key_cmp.
Proof. apply (then_cmp_total _ (fun a b => then_cmp (cmp_on version ver_cmp a b) _)); apply _. Qed.

Lemma rank_cases f : is_some (rank f) = true ->
  lower (framework f) = lower id.ANY \/ lower (framework f) = lower id.AGNOSTIC \/ live f.
Proof.
  unfold rank, rank_of, live. destruct (find _ RANKS) as [[l r]|] eqn:E; [|done]. intros _.
  apply find_some in E as [Hin E]. cbn [fst] in E. apply str_eqb_eq in E as <-.
  cbn [RANKS In] in Hin. intuition (simplify_eq; auto 10).
Qed.

Lemma rank_low f : forall l r, lower (framework f) = l -> rank_of l = Some r -> rank f = Some r.
Proof. intros l r <- H. exact H. Qed.

Lemma framework_eqb_sym a b : framework_eqb a b = framework_eqb b a.
Proof.
  assert (Hv : forall v w, ver_eqb v w = ver_eqb w v) by (intros v w; apply eq_true_iff_eq; rewrite !ver_eqb_spec; naive_solver).
  unfold framework_eqb. rewrite (same_id_sym (framework a)), (Hv (version a)).
  destruct (platform a) as [[n v]|], (platform b) as [[n' v']|], (profile a) as [p|], (profile b) as [p'|];
    cbn [option_eqb fst snd]; rewrite ?(same_id_sym n), ?(Hv v), ?(same_id_sym p); done.
Qed.

Lemma framework_eqb_version a b : framework_eqb a b = true -> same_name a b = true /\ version a = version b.
Proof. unfold framework_eqb. intros H. bool_hyps. split; [done|by apply ver_eqb_spec]. Qed.

Lemma profiles_match_sym a b : profiles_match a b = profiles_match b a.
Proof.
  unfold profiles_match. rewrite (andb_comm (plain_net_profile a)). destruct (_ && _)%bool; [done|].
  destruct (profile a), (profile b); cbn [option_eqb]; [apply same_id_sym|done..].
Qed.

(** [j] excludes [i] in [reduce_upwards]. *)
Definition excludes (j i : NuGetFramework) : bool :=
  (is_compatible j i
   && if (is_compatible i j && same_name i j)%bool
      then is_zero (version i) && negb (is_zero (version j)) else negb (is_compatible i j))%bool.

Lemma is_duplicate_excludes i input :
  is_duplicate i input false = existsb (fun j => negb (Nat.eqb (fst i) (fst j)) && excludes (snd j) (snd i))%bool input.
Proof.
  induction input as [|j input IH]; [done|]. cbn [is_duplicate existsb]. unfold excludes in *.
  destruct (Nat.eqb (fst i) (fst j)); [done|]. cbn [negb andb].
  destruct (is_compatible (snd j) (snd i)); [|done]. cbn [andb].
  cbv zeta. destruct (is_compatible (snd i) (snd j) && _)%bool; [destruct (is_zero _ && _)%bool|destruct (negb _)];
    [done|exact IH|done|exact IH].
Qed.

Lemma any_compatible a b : is_any a = true -> is_compatible a b = true /\ is_compatible b a = true.
Proof. intros H. rewrite !is_compatible_eq. unfold is_compatible_with. by rewrite H, orb_true_r. Qed.

Lemma same_identifier_inv a b : live a -> same_identifier_compatible a b = true ->
  ver_leb (version b) (version a) = true /\ profiles_match a b = true /\
  match platform a, platform b with
  | _, None => True | None, Some _ => False | Some (n, v), Some (m, w) => same_id n m = true /\ ver_leb w v = true end.
Proof.
  intros Ha. destruct (live_simple a Ha) as (_ & _ & _ & _ & _ & Hw & _). unfold same_identifier_compatible.
  rewrite Hw, ver_ltb_leb. cbn [andb]. destruct (ver_leb (version b) (version a)); [|done].
  destruct (profiles_match a b); [|done]. cbn [negb orb].
  destruct (platform a) as [[n v]|], (platform b) as [[m' w]|]; try done. intros H. by bool_hyps.
Qed.

Lemma same_identifier_intro a b : live a -> ver_leb (version b) (version a) = true -> profiles_match a b = true ->
  match platform a, platform b with
  | _, None => True | None, Some _ => False | Some (n, v), Some (m, w) => same_id n m = true /\ ver_leb w v = true end ->
  same_identifier_compatible a b = true.
Proof.
  intros Ha Hv Hpm Hpl. destruct (live_simple a Ha) as (_ & _ & _ & _ & _ & Hw & _). unfold same_identifier_compatible.
  rewrite Hw, ver_ltb_leb, Hv, Hpm. cbn [andb negb orb].
  destruct (platform a) as [[n v]|], (platform b) as [[m' w]|]; try done. destruct Hpl as [-> ->]. done.
Qed.

(** Between frameworks without rules of their own and with one identifier. *)
Lemma same_name_compatible a b : live a -> same_name a b = true -> is_compatible a b = same_identifier_compatible a b.
Proof.
  intros Ha Hn. assert (Hb : live b) by (apply same_id_spec in Hn; unfold live in *; by rewrite <- Hn).
  destruct (live_simple b Hb) as (Hany & Hu & _ & Hg & Hpcl & _). rewrite (live_compatible a Ha), Hany, Hg, Hu. cbn [orb].
  rewrite (live_normalize b Hb). cbv zeta. rewrite Hpcl, Hn. destruct (framework_eqb a b) eqn:E.
  { symmetry. by apply equal_same_identifier. }
  cbn [orb]. destruct (platform_fallback a) as [fb|] eqn:Ef; [|done].
  destruct (same_id (framework b) fb) eqn:Eb; [|done]. exfalso. unfold platform_fallback in Ef.
  destruct (platform a) as [[n v]|]; [|done]. cbn [mbind option_bind] in Ef.
  destruct (same_id (framework a) id.NET_CORE_APP) eqn:Ec; [|done]. apply same_id_spec in Ec, Hn, Eb.
  cbn [negb] in Ef. destruct (_ && _)%bool; [|destruct (_ && _)%bool; [|done]]; injection Ef as <-;
    rewrite <- Hn, Ec in Eb; by vm_compute in Eb.
Qed.

Lemma mapping_ranks : forallb (fun m =>
  match rank_of (lower (map_candidate m)), rank_of (lower (map_project m)) with
  | Some c, Some p => Nat.ltb c p | _, _ => true end) MAPPINGS = true.
Proof. by vm_compute. Qed.

Lemma live_rank f : live f -> is_some (rank f) = true.
Proof. unfold rank. intros [H|[H|[H|[H|[H|H]]]]]; rewrite H; by vm_compute. Qed.

Lemma mapping_rank a b : live a -> live b -> existsb (mapping_applies a b) MAPPINGS = true ->
  option_cmp Nat.compare (rank b) (rank a) = Lt.
Proof.
  intros Ha%live_rank Hb%live_rank (row & Hin & H)%existsb_exists. unfold mapping_applies in H. bool_hyps.
  pose proof mapping_ranks as Hr. rewrite forallb_forall in Hr. specialize (Hr _ Hin). cbv beta in Hr.
  repeat match goal with H : same_id _ _ = true |- _ => apply same_id_spec in H; rewrite <- H in Hr end.
  fold (rank a) (rank b) in Hr. destruct (rank a), (rank b); try done. cbn. apply Nat.compare_lt_iff. by apply Nat.ltb_lt.
Qed.

(** Across identifiers, compatibility goes down. *)
Lemma other_name_rank a b : live a -> live b -> same_name a b = false -> is_compatible a b = true ->
  option_cmp Nat.compare (rank b) (rank a) = Lt.
Proof.
  intros Ha Hb Hn. destruct (live_simple b Hb) as (Hany & Hu & _ & Hg & Hpcl & _).
  rewrite (live_compatible a Ha), Hany, Hg, Hu. cbn [orb]. rewrite (live_normalize b Hb). cbv zeta. rewrite Hpcl, Hn.
  destruct (framework_eqb a b) eqn:E; [apply framework_eqb_version in E as [E _]; congruence|]. cbn [orb].
  destruct (platform_fallback a) as [fb|] eqn:Ef; [destruct (same_id (framework b) fb) eqn:Eb|]; cbn [orb].
  - intros _. unfold platform_fallback in Ef. destruct (platform a) as [[n v]|]; [|done]. cbn [mbind option_bind] in Ef.
    destruct (same_id (framework a) id.NET_CORE_APP) eqn:Ec; [|done]. cbn [negb] in Ef. apply same_id_spec in Ec, Eb.
    destruct (_ && _)%bool; [|destruct (_ && _)%bool; [|done]]; injection Ef as <-;
      unfold rank; rewrite Eb, Ec; by vm_compute.
  - intros H. bool_hyps. by eapply mapping_rank.
  - intros H. bool_hyps. by eapply mapping_rank.
Qed.

Lemma agnostic_compatible a b : lower (framework a) = lower id.AGNOSTIC -> is_some (rank b) = true -> is_any b = false ->
  is_compatible a b = true -> framework_eqb a b = true.
Proof.
  intros Ha Hb Hany. rewrite is_compatible_eq. unfold is_compatible_with. rewrite Hany.
  assert (is_any a = false) as -> by (unfold is_any; by known_id Ha). cbn [orb].
  destruct (framework_eqb a b) eqn:E; [done|]. destruct (rank_cases b Hb) as [H|[H|H]].
  - unfold is_any in Hany. rewrite same_id_lower, H in Hany. by vm_compute in Hany.
  - known_id H. unfold is_specific_framework. known_id Ha. by rewrite andb_false_r.
  - destruct (live_simple b H) as (_ & Hu & _ & -> & Hpcl & _). assert (is_unsupported a = false) as -> by (unfold is_unsupported; by known_id Ha).
    rewrite Hu. known_id Ha. cbn [orb andb]. rewrite (live_normalize b H).
    assert (normalize a Project = a) as -> by (unfold normalize; cbv zeta; known_id Ha; cbn [andb]; by destruct (is_zero _)).
    assert (Hn : same_name a b = false).
    { unfold same_name. rewrite same_id_lower, Ha. destruct H as [->|[->|[->|[->|[->| ->]]]]]; by vm_compute. }
    unfold is_compatible_normalized. rewrite E, Hn. known_id Ha. cbn [andb]. cbv zeta.
    assert (platform_fallback a = None) as ->.
    { unfold platform_fallback. destruct (platform a) as [[n v]|]; [|done]. cbn [mbind option_bind]. by known_id Ha. }
    assert (translate a = a) as -> by (unfold translate; by known_id Ha).
    unfold is_compatible_translated. rewrite E, Hpcl, Hn. assert (is_pcl a = false) as -> by (unfold is_pcl; by known_id Ha).
    destruct (_ || is_some _)%bool; [done|]. destruct (negb _); [done|]. intros (row & Hin & Hrow)%existsb_exists.
    exfalso. unfold mapping_applies in Hrow. bool_hyps.
    assert (Hno : forallb (fun m => negb (same_id id.AGNOSTIC (map_project m))) MAPPINGS = true) by (by vm_compute).
    rewrite forallb_forall in Hno. specialize (Hno _ Hin). cbv beta in Hno.
    match goal with H : same_id (framework a) _ = true |- _ => apply same_id_spec in H; rewrite Ha in H end.
    apply negb_true_iff in Hno. rewrite same_id_lower in Hno. match goal with H : lower id.AGNOSTIC = _ |- _ => rewrite H in Hno end.
    assert (forall s, str_eqb s s = true) as Hr by (intros s; by apply str_eqb_eq). by rewrite Hr in Hno.
Qed.

Lemma key_lt_rank a b : option_cmp Nat.compare (rank a) (rank b) = Lt -> key_cmp a b = Lt.
Proof. unfold key_cmp, cmp_on. by intros ->. Qed.

Lemma key_lt_version a b : same_name a b = true -> ver_cmp (version a) (version b) = Lt -> key_cmp a b = Lt.
Proof.
  intros Hn%same_id_spec Hv. unfold key_cmp, cmp_on, rank. rewrite Hn, (cmp_refl (option_cmp Nat.compare)), Hv. done.
Qed.

Lemma zero_version_lt a b : ver_leb (version a) (version b) = true -> is_zero (version a) = true -> is_zero (version b) = false ->
  ver_cmp (version a) (version b) = Lt.
Proof.
  intros Hle Ha Hb. apply ver_leb_spec in Hle. apply ver_eqb_spec in Ha. destruct (ver_cmp (version a) (version b)) eqn:E; [|done..].
  apply ver_cmp_eq in E. unfold is_zero in Hb. rewrite <- E, Ha in Hb. by vm_compute in Hb.
Qed.

Lemma zero_leb v : ver_leb zero v = true.
Proof.
  apply ver_leb_spec. destruct v as [[[a b] c] d]. unfold ver_cmp, cmp_on, zero. cbn [parts list_cmp].
  destruct a; cbn; [|done]. destruct b; cbn; [|done]. destruct c; cbn; [|done]. by destruct d.
Qed.

Lemma same_identifier_excludes i j : live j -> same_name j i = true -> excludes j i = true -> key_cmp i j = Lt.
Proof.
  intros Hj Hn. assert (Hi : live i) by (apply same_id_spec in Hn; unfold live in *; by rewrite <- Hn).
  assert (Hn' : same_name i j = true) by (unfold same_name in *; by rewrite same_id_sym).
  unfold excludes. rewrite !same_name_compatible, Hn', andb_true_r by done. intros H. bool_hyps.
  match goal with H : same_identifier_compatible j i = true |- _ => apply (same_identifier_inv j i Hj) in H as (Hv & Hpm & Hpl) end.
  destruct (same_identifier_compatible i j) eqn:Er.
  { bool_hyps. by apply key_lt_version, zero_version_lt. }
  destruct (ver_cmp (version i) (version j)) eqn:Ev; [|by apply key_lt_version|by apply ver_leb_spec in Hv].
  apply ver_cmp_eq in Ev. unfold key_cmp, cmp_on, rank. apply same_id_spec in Hn. rewrite Hn, (cmp_refl (option_cmp Nat.compare)).
  rewrite Ev, (cmp_refl ver_cmp). cbn [then_cmp].
  destruct (platform i) as [[n v]|] eqn:Ei, (platform j) as [[n' v']|] eqn:Ej; try done.
  - cbn. destruct Hpl as [Hnm Hle]. destruct (ver_cmp v v') eqn:E; [|done|by apply ver_leb_spec in Hle].
    exfalso. apply ver_cmp_eq in E as <-. rewrite same_identifier_intro in Er; [done|done|..].
    + rewrite Ev. apply ver_leb_refl.
    + by rewrite profiles_match_sym.
    + rewrite Ei, Ej. split; [by rewrite same_id_sym|apply ver_leb_refl].
  - exfalso. rewrite same_identifier_intro in Er; [done|done|..].
    + rewrite Ev. apply ver_leb_refl.
    + by rewrite profiles_match_sym.
    + by rewrite Ei, Ej.
Qed.

(** Exclusion respects the order of keys, so it has no cycles. *)
Lemma excludes_lt i j : is_some (rank i) = true -> is_some (rank j) = true -> excludes j i = true -> key_cmp i j = Lt.
Proof.
  intros Hi Hj He. assert (Hany : is_any i = true \/ is_any j = true -> key_cmp i j = Lt).
  { intros H. assert (Hc : is_compatible i j = true /\ is_compatible j i = true) by 
      (destruct H as [H|H]; [destruct (any_compatible i j H)|destruct (any_compatible j i H)]; done).
    destruct Hc as [E1 E2]. unfold excludes in He. rewrite E1, E2 in He. cbn [andb negb] in He.
    destruct (same_name i j) eqn:En; [|done]. bool_hyps. apply key_lt_version; [done|].
    apply zero_version_lt; [|done..]. match goal with H : is_zero (version i) = true |- _ => apply ver_eqb_spec in H as -> end.
    apply zero_leb. }
  destruct (is_any i) eqn:Ei; [auto|]. destruct (is_any j) eqn:Ej; [auto|].
  assert (Hc : is_compatible j i = true) by (unfold excludes in He; by bool_hyps).
  destruct (rank_cases j Hj) as [H|[H|H]].
  - unfold is_any in Ej. rewrite same_id_lower, H in Ej. by vm_compute in Ej.
  - exfalso. apply agnostic_compatible in Hc; [|done..]. pose proof Hc as Hc'. rewrite framework_eqb_sym in Hc'.
    unfold excludes in He. rewrite (equal_is_compatible _ _ Hc), (equal_is_compatible _ _ Hc') in He.
    apply framework_eqb_version in Hc' as [Hn Hv]. rewrite Hn, Hv in He. cbn in He. by destruct (is_zero _).
  - destruct (rank_cases i Hi) as [H'|[H'|H']].
    + unfold is_any in Ei. rewrite same_id_lower, H' in Ei. by vm_compute in Ei.
    + apply key_lt_rank. unfold rank. rewrite H'. destruct H as [->|[->|[->|[->|[->| ->]]]]]; by vm_compute.
    + destruct (same_name j i) eqn:En; [by apply same_identifier_excludes|].
      apply key_lt_rank. by apply other_name_rank.
Qed.

(** ** What a supported project can reach *)

Lemma normalize_framework c r : framework (normalize c r) = framework c \/ framework (normalize c r) = id.WINDOWS.
Proof. unfold normalize. cbv zeta. repeat case_match; auto. Qed.

Lemma normalize_rank c r : is_some (rank (normalize c r)) = true -> is_some (rank c) = true.
Proof.
  unfold rank. destruct (normalize_framework c r) as [->| ->]; [done|]. intros H. by vm_compute in H.
Qed.

Lemma mapping_closed : forallb (fun m =>
  is_none (rank_of (lower (map_project m))) || is_some (rank_of (lower (map_candidate m))))%bool MAPPINGS = true.
Proof. by vm_compute. Qed.

Lemma reached_rank p c : live p -> is_pcl c = false -> is_compatible p c = true -> is_some (rank c) = true.
Proof.
  intros Hp Hpcl. rewrite (live_compatible p Hp).
  assert (Hany : is_any c = true -> is_some (rank c) = true) by (unfold is_any, rank; intros ->%same_id_spec; by vm_compute).
  assert (Hname : forall d, same_name p d = true -> is_some (rank d) = true)
    by (intros d Hd; by apply live_rank, (live_candidate p Hp)).
  destruct (is_any c); [auto|]. cbn [orb].
  destruct (framework_eqb p c) eqn:E; [apply framework_eqb_version in E as [? _]; auto|]. cbn [orb].
  destruct (same_id (framework c) id.AGNOSTIC) eqn:Eg; [intros _; unfold rank; apply same_id_spec in Eg as ->; by vm_compute|].
  destruct (is_unsupported c); [done|]. cbv zeta. intros H. apply (normalize_rank c Candidate).
  destruct (is_pcl (normalize c Candidate)) eqn:Ec; [apply normalize_pcl in Ec as [? _]; congruence|].
  set (c' := normalize c Candidate) in *. apply orb_true_iff in H as [H|H]; [apply orb_true_iff in H as [H|H]|].
  - apply framework_eqb_version in H as [H _]. auto.
  - destruct (platform_fallback p) as [fb|] eqn:Ef; [|done]. apply same_id_spec in H. unfold rank. rewrite H.
    unfold platform_fallback in Ef. destruct (platform p) as [[n v]|]; [|done]. cbn [mbind option_bind] in Ef.
    repeat (destruct (_ : bool) in Ef; [first [done|injection Ef as <-; by vm_compute]|]). done.
  - destruct (same_name p c') eqn:En; [auto|]. bool_hyps.
    match goal with H : existsb _ _ = true |- _ => apply existsb_exists in H as (row & Hin & Hrow) end.
    unfold mapping_applies in Hrow. bool_hyps. pose proof mapping_closed as Hm. rewrite forallb_forall in Hm.
    specialize (Hm _ Hin). cbv beta in Hm. repeat match goal with H : same_id _ _ = true |- _ => apply same_id_spec in H end.
    pose proof (live_rank p Hp) as Hr. unfold rank in *.
    match goal with H : lower (framework p) = _ |- _ => rewrite H in Hr end.
    match goal with H : lower (framework c') = _ |- _ => rewrite H end.
    apply orb_true_iff in Hm as [Hm|Hm]; [|done]. unfold is_none in Hm. by rewrite Hr in Hm.
Qed.

(** ** A candidate nothing excludes *)

Lemma maximal_key (l : list entry) : l <> [] -> exists e, e ∈ l /\ forall e', e' ∈ l -> key_cmp (snd e) (snd e') <> Lt.
Proof.
  induction l as [|x l IH]; [done|]. intros _. destruct l as [|y l].
  - exists x. split; [left|]. intros e' ->%list_elem_of_singleton. apply (cmp_lt_irrefl key_cmp).
  - destruct IH as (e & He & Hmax); [done|]. destruct (key_cmp (snd e) (snd x)) eqn:E.
    + exists e. split; [by right|]. intros e' [->|He']%elem_of_cons; [congruence|auto].
    + exists x. split; [left|]. intros e' [->|He']%elem_of_cons; [apply (cmp_lt_irrefl key_cmp)|].
      intros Hlt. apply (Hmax e' He'). by eapply (cmp_lt_trans key_cmp).
    + exists e. split; [by right|]. intros e' [->|He']%elem_of_cons; [congruence|auto].
Qed.

Lemma elem_of_reduced input e : e ∈ reduce_upwards input <->
  let d := distinct_full (retain_if_any (fun e => negb (is_any (snd e))) input) [] in
  e ∈ d /\ forall j, j ∈ d -> fst e <> fst j -> excludes (snd j) (snd e) = false.
Proof.
  unfold reduce_upwards. rewrite sort_by_perm, list_elem_of_In, filter_In. cbv zeta. set (d := distinct_full _ _).
  rewrite is_duplicate_excludes, negb_true_iff, <- list_elem_of_In, <- not_true_iff_false, existsb_exists.
  apply and_iff_compat_l. split.
  - intros H j Hj Hne. apply not_true_iff_false. intros He. apply H. exists j. split; [by apply list_elem_of_In|].
    apply Nat.eqb_neq in Hne. by rewrite Hne, He.
  - intros H (j & Hj & He). bool_hyps. apply list_elem_of_In in Hj.
    rewrite (H j Hj) in *; [done|by apply Nat.eqb_neq].
Qed.

Lemma distinct_full_keeps input output e : e ∈ output -> e ∈ distinct_full input output.
Proof.
  revert output. induction input as [|x input IH]; intros output He; cbn [distinct_full]; [done|]. apply IH.
  destruct (existsb _ _); [done|]. apply elem_of_app. by left.
Qed.

(** Every candidate is kept, or an equal one is. *)
Lemma distinct_full_covers input output e : e ∈ input -> is_unsupported (snd e) = false ->
  exists e', e' ∈ distinct_full input output /\ framework_eqb (snd e') (snd e) = true.
Proof.
  revert output. induction input as [|x input IH]; intros output; [by intros ?%not_elem_of_nil|]. cbn [distinct_full].
  intros [->|He]%elem_of_cons Hu; [|by apply IH]. destruct (existsb _ _) eqn:Ex.
  - apply existsb_exists in Ex as (e' & Hin & Heq). exists e'. split; [by apply distinct_full_keeps, list_elem_of_In|].
    unfold full_eq in Heq. by bool_hyps.
  - exists x. split; [|apply framework_eqb_refl]. apply distinct_full_keeps, elem_of_app. right. left.
Qed.

(** ** The nearest framework *)

Lemma possible_supported cs e : e ∈ enumerate cs -> is_unsupported (snd e) = false -> e ∈ possible_candidates cs.
Proof.
  intros He Hu. unfold possible_candidates, retain_if_any. destruct (existsb _ _); [|done].
  apply list_elem_of_In, filter_In. split; [by apply list_elem_of_In|by rewrite Hu].
Qed.

Lemma live_specific p : live p -> is_specific_framework p = true.
Proof.
  intros Hp. destruct (live_simple p Hp) as (Ha & Hu & _ & Hg & _). unfold is_specific_framework. by rewrite Ha, Hu, Hg.
Qed.

Lemma live_unsupported p c : live p -> is_unsupported c = true -> is_compatible p c = false.
Proof.
  intros Hp Hu. rewrite (live_compatible p Hp), Hu. unfold is_unsupported in Hu. apply same_id_spec in Hu.
  assert (is_any c = false) as -> by (unfold is_any; by known_id Hu). known_id Hu.
  destruct (framework_eqb p c) eqn:E; [|done]. apply framework_eqb_version in E as [E%same_id_spec _].
  rewrite Hu in E. destruct Hp as [H|[H|[H|[H|[H|H]]]]]; rewrite H in E; by vm_compute in E.
Qed.

(** The frameworks [reduce_upwards] compares, for a supported project and
    candidates that are not portable. *)
Section compared.
Context (p : NuGetFramework) (cs : list NuGetFramework).
Hypothesis Hp : live p.
Hypothesis Hcs : forallb (fun c => negb (is_pcl c)) cs = true.
Let input := compatible_candidates p cs.
Let kept := distinct_full (retain_if_any (fun e => negb (is_any (snd e))) input) [].

Lemma kept_input e : e ∈ kept -> e ∈ input.
Proof. intros H. apply distinct_full_sub in H as [H|H%not_elem_of_nil]; [by apply narrows_retain in H|done]. Qed.

Lemma input_known e : e ∈ input -> is_some (rank (snd e)) = true /\ is_unsupported (snd e) = false /\ is_compatible p (snd e) = true.
Proof.
  intros He. apply elem_of_compatible in He as [He Hc]. apply possible_in, list_elem_of_lookup_2 in He.
  rewrite forallb_forall in Hcs. split_and!; [|destruct (is_unsupported _) eqn:Eu; [|done]|done].
  - apply (reached_rank p); [done| |done]. apply negb_true_iff, Hcs. by apply list_elem_of_In.
  - rewrite live_unsupported in Hc; done.
Qed.

(** The top of the candidates is never excluded. *)
Lemma maximal_reduced : input <> [] -> exists e, e ∈ reduce_upwards input /\ forall e', e' ∈ kept -> key_cmp (snd e) (snd e') <> Lt.
Proof.
  intros Hne. destruct (maximal_key kept) as (e & He & Hmax).
  { intros E. destruct (narrows_retain (fun e => negb (is_any (snd e))) input) as [Hin Hne'].
    unfold kept in E. destruct (retain_if_any (fun e => negb (is_any (snd e))) input) as [|x l]; [by apply Hne'|].
    destruct (distinct_full_covers (x :: l) [] x) as (x' & Hx & _); [left| |].
    - apply input_known, Hin. left.
    - rewrite E in Hx. by apply not_elem_of_nil in Hx. }
  exists e. split; [|done]. apply elem_of_reduced. fold kept. split; [done|]. intros j Hj _. apply not_true_iff_false. intros Hx.
  apply (Hmax j Hj), excludes_lt; [apply input_known, kept_input; done..|done].
Qed.
End compared.

(** The nearest framework is compatible.  Whatever the candidates, portable
    and unsupported ones included, [get_nearest] and the reducer answer with the
    index of a candidate, and the project is compatible with that candidate. *)
Theorem get_nearest_compatible project candidates n :
  get_nearest project candidates = Some n \/ get_nearest_reducer project candidates = Some n ->
  exists f, candidates !! n = Some f /\ is_compatible project f = true.
Proof.
  unfold get_nearest. rewrite get_nearest_reducer_eq. intros [H|H]; [|by apply get_nearest_with_sound in H].
  destruct (negb _); [done|]. by apply get_nearest_with_sound in H.
Qed.

(** The reducer finds something as soon as there is something to find. *)
Lemma no_nearest_incompatible project candidates :
  is_resolver_project_framework project = true -> forallb (fun c => negb (is_pcl c)) candidates = true ->
  get_nearest_reducer project candidates = None -> forall f, f ∈ candidates -> is_compatible project f = false.
Proof.
  intros Hp%resolver_project_live Hcs H f Hf. apply not_true_iff_false. intros Hc.
  rewrite get_nearest_reducer_eq in H.
  pose proof (get_nearest_shape get_nearest_reducer project candidates) as Hs. cbv zeta in Hs.
  destruct (find (fun e => full_eq project (snd e)) (possible_candidates candidates)); [congruence|].
  destruct (is_empty (reduce_upwards (compatible_candidates project candidates))) eqn:Ee; [|by destruct Hs as (e & _ & Hs); congruence].
  destruct (maximal_reduced project candidates Hp Hcs) as (e & He & _).
  - apply list_elem_of_lookup in Hf as [i Hi]. apply elem_of_enumerate in Hi.
    assert (Hin : (i, f) ∈ compatible_candidates project candidates).
    { apply elem_of_compatible. split; [|done]. apply possible_supported; [done|]. apply not_true_iff_false. intros Hu.
      cbn [snd] in Hu. by rewrite live_unsupported in Hc. }
    intros E. rewrite E in Hin. by apply not_elem_of_nil in Hin.
  - destruct (reduce_upwards _); [by apply not_elem_of_nil in He|done].
Qed.

Lemma same_id_trans a b c : same_id a b = true -> same_id b c = true -> same_id a c = true.
Proof. rewrite !same_id_spec. congruence. Qed.

Lemma plain_profile a b : same_name a b = true -> option_eqb same_id (profile a) (profile b) = true ->
  plain_net_profile a = plain_net_profile b.
Proof.
  intros Hn%same_id_spec Hq. unfold plain_net_profile. rewrite !same_id_lower, Hn.
  destruct (profile a) as [x|], (profile b) as [y|]; try done. apply same_id_spec in Hq. by rewrite !same_id_lower, Hq.
Qed.

Lemma profiles_match_trans p a b : same_name p a = true -> same_name p b = true ->
  profiles_match p a = true -> profiles_match p b = true -> profiles_match a b = true.
Proof.
  intros Ha Hb. unfold profiles_match. destruct (plain_net_profile p) eqn:Ep; cbn [andb].
  - assert (H : forall c, same_name p c = true ->
      (if plain_net_profile c then true else option_eqb same_id (profile p) (profile c)) = true -> plain_net_profile c = true).
    { intros c Hc. destruct (plain_net_profile c) eqn:Ec; [done|]. intros Hq. rewrite <- (plain_profile p c), Ep in Ec; done. }
    intros H1%H H2%H; [|done..]. by rewrite H1, H2.
  - intros H1 H2. destruct (_ && _)%bool; [done|]. destruct (profile p), (profile a), (profile b); try done. cbn in *.
    rewrite same_id_sym in H1. by eapply same_id_trans.
Qed.

Section highest.
Context (p : NuGetFramework) (cs : list NuGetFramework).
Hypothesis Hp : live p.
Hypothesis Hrank : rank p <> Some 0.
Hypothesis Hplat : platform p = None.
Hypothesis Hcs : forallb (fun c => negb (is_pcl c)) cs = true.
Let kept := distinct_full (retain_if_any (fun e => negb (is_any (snd e))) (compatible_candidates p cs)) [].

(** What is below the project in the chains of compatibility. *)
Lemma other_name_below e : e ∈ compatible_candidates p cs -> same_name p (snd e) = false ->
  option_cmp Nat.compare (rank (snd e)) (rank p) = Lt.
Proof.
  intros He Hn. destruct (input_known p cs Hp Hcs e He) as (Hk & _ & Hc).
  pose proof (live_rank p Hp) as Hr. destruct (rank_cases _ Hk) as [H|[H|H]]; [..|by apply other_name_rank].
  all: assert (Hz : rank (snd e) = Some 0) by (unfold rank; rewrite H; by vm_compute); rewrite Hz;
    destruct (rank p) as [[|k]|]; done.
Qed.

Lemma same_name_kept f : f ∈ cs -> is_compatible p f = true -> same_name p f = true ->
  exists e, e ∈ kept /\ same_name p (snd e) = true /\ version (snd e) = version f /\ is_compatible p (snd e) = true.
Proof.
  intros Hf Hc Hn. pose proof (live_candidate p Hp f Hn) as Hl. destruct (live_simple f Hl) as (Ha & Hu & _).
  apply list_elem_of_lookup in Hf as [i Hi]. apply elem_of_enumerate in Hi.
  assert (Hin : (i, f) ∈ retain_if_any (fun e => negb (is_any (snd e))) (compatible_candidates p cs)).
  { assert (Hin : (i, f) ∈ compatible_candidates p cs) by (apply elem_of_compatible; split; [by apply possible_supported|done]).
    unfold retain_if_any. destruct (existsb _ _); [|done]. apply list_elem_of_In, filter_In.
    split; [by apply list_elem_of_In|cbn; by rewrite Ha]. }
  destruct (distinct_full_covers _ [] (i, f) Hin Hu) as (e & He & Heq). exists e. fold kept in He.
  apply framework_eqb_version in Heq as [Hn' Hv]. split_and!; [done| |done|].
  - apply (same_id_trans _ (framework f)); [done|]. by rewrite same_id_sym.
  - by apply (input_known p cs Hp Hcs), kept_input.
Qed.

Lemma reduced_same_name f : f ∈ cs -> is_compatible p f = true -> same_name p f = true ->
  forall e, e ∈ keep_same_name p (reduce_upwards (compatible_candidates p cs)) -> same_name p (snd e) = true.
Proof.
  intros Hf Hc Hn e He. destruct (same_name_kept f Hf Hc Hn) as (f' & Hf' & Hn' & _ & _).
  destruct (maximal_reduced p cs Hp Hcs) as (top & Htop & Hmax).
  { pose proof (kept_input p cs f' Hf') as Hin. intros E. rewrite E in Hin. by apply not_elem_of_nil in Hin. }
  assert (Hsn : same_name p (snd top) = true).
  { apply not_false_iff_true. intros Hx. apply (Hmax f' Hf'), key_lt_rank.
    apply same_id_spec in Hn'. unfold rank at 2. rewrite <- Hn'. fold (rank p).
    apply other_name_below; [|done]. by apply reduce_upwards_sub. }
  assert (Hsym : forall d, same_name d p = same_name p d) by (intros d; apply same_id_sym).
  unfold keep_same_name in He. rewrite Hplat in He.
  destruct (longer_than_one (reduce_upwards (compatible_candidates p cs))) eqn:El; cbn [andb] in He.
  - assert (existsb (fun e => same_name (snd e) p) (reduce_upwards (compatible_candidates p cs)) = true) as Hx.
    { apply existsb_exists. exists top. split; [by apply list_elem_of_In|by rewrite Hsym]. }
    rewrite Hx in He. apply list_elem_of_In, filter_In in He as [_ He]. rewrite andb_false_r in He. cbn [andb] in He.
    by rewrite <- Hsym.
  - destruct (reduce_upwards (compatible_candidates p cs)) as [|a [|b l]]; [by apply not_elem_of_nil in He| |done].
    apply list_elem_of_singleton in He as ->. by apply list_elem_of_singleton in Htop as <-.
Qed.

Lemma no_platform_below f : is_compatible p f = true -> same_name p f = true ->
  platform f = None /\ profiles_match p f = true /\ ver_leb (version f) (version p) = true.
Proof.
  intros Hc Hn. rewrite same_name_compatible in Hc by done. apply (same_identifier_inv p f Hp) in Hc as (Hv & Hm & Hpl).
  rewrite Hplat in Hpl. destruct (platform f); [done|]. done.
Qed.

Lemma reduced_highest f e : f ∈ cs -> is_compatible p f = true -> same_name p f = true ->
  e ∈ reduce_upwards (compatible_candidates p cs) -> same_name p (snd e) = true -> ver_leb (version f) (version (snd e)) = true.
Proof.
  intros Hf Hc Hn He Hne. destruct (same_name_kept f Hf Hc Hn) as (f' & Hf' & Hn' & <- & Hc').
  apply elem_of_reduced in He as [He Hex]. destruct (decide (fst e = fst f')) as [Hi|Hi].
  { pose proof (kept_input p cs e He) as E1. pose proof (kept_input p cs f' Hf') as E2.
    apply elem_of_compatible in E1 as [E1%possible_in _], E2 as [E2%possible_in _]. rewrite Hi, E2 in E1.
    injection E1 as E1. rewrite E1. apply ver_leb_refl. }
  specialize (Hex f' Hf' Hi). apply not_false_iff_true. intros Hlt. apply not_true_iff_false in Hex. apply Hex.
  assert (Hce : is_compatible p (snd e) = true) by (by apply (input_known p cs Hp Hcs), kept_input).
  destruct (no_platform_below _ Hce Hne) as (Hpe & Hme & _). destruct (no_platform_below _ Hc' Hn') as (Hpf & Hmf & _).
  assert (Hle : live (snd e)) by (by apply (live_candidate p)). assert (Hlf : live (snd f')) by (by apply (live_candidate p)).
  assert (Hfe : same_name (snd f') (snd e) = true).
  { apply (same_id_trans _ (framework p)); [by rewrite same_id_sym|done]. }
  assert (Hef : same_name (snd e) (snd f') = true) by (unfold same_name; by rewrite same_id_sym).
  unfold excludes. rewrite !same_name_compatible by done.
  assert (same_identifier_compatible (snd f') (snd e) = true) as ->.
  { apply same_identifier_intro; [done| |by apply (profiles_match_trans p)|by rewrite Hpe, Hpf].
    pose proof (ver_ltb_leb (version (snd e)) (version (snd f'))) as Hl. rewrite Hlt in Hl. apply ver_ltb_spec in Hl.
    apply ver_leb_spec. congruence. }
  assert (same_identifier_compatible (snd e) (snd f') = false) as ->; [|done].
  apply not_true_iff_false. intros H. apply (same_identifier_inv _ _ Hle) in H as [H _]. congruence.
Qed.
End highest.

(** The nearest framework is the highest of the project's own.  For a project
    the resolver supports, without a platform, and candidates that are not
    portable: if a compatible candidate has the identifier of the project, then
    so has the chosen one, at a version that is not lower. *)
Theorem get_nearest_highest project candidates n f f' :
  is_resolver_project_framework project = true -> platform project = None ->
  forallb (fun c => negb (is_pcl c)) candidates = true ->
  get_nearest project candidates = Some n -> candidates !! n = Some f ->
  f' ∈ candidates -> is_compatible project f' = true -> same_name project f' = true ->
  same_name project f = true /\ ver_leb (version f') (version f) = true.
Proof.
  intros Hres Hplat Hcs H Hn Hf' Hc Hsn. pose proof (resolver_project_live _ Hres) as Hp.
  assert (Hr : rank project <> Some 0).
  { unfold is_resolver_project_framework in Hres. rewrite !orb_true_iff, !str_eqb_eq in Hres. unfold rank.
    destruct Hres as [[-> | ->]| ->]; by vm_compute. }
  unfold get_nearest in H. rewrite live_specific, get_nearest_reducer_eq in H by done. cbn [negb] in H.
  pose proof (get_nearest_final get_nearest_reducer project candidates) as Hs. cbv zeta in Hs.
  destruct (find (fun e => full_eq project (snd e)) (possible_candidates candidates)) as [e|] eqn:Ef.
  - rewrite Hs in H. injection H as <-. apply find_some in Ef as [He%list_elem_of_In Hq]. apply possible_in in He.
    rewrite Hn in He. injection He as ->. unfold full_eq in Hq. bool_hyps.
    match goal with H : framework_eqb _ _ = true |- _ => apply framework_eqb_version in H as [? <-] end.
    split; [done|]. by apply (no_platform_below project Hp Hplat f').
  - rewrite H in Hs. destruct Hs as (e & He & ->). pose proof He as He'. apply narrows_same_name, reduce_upwards_sub, elem_of_compatible in He' as [He' _].
    apply possible_in in He'. rewrite Hn in He'. injection He' as ->.
    assert (Hse : same_name project (snd e) = true) by (by apply (reduced_same_name project candidates Hp Hr Hplat Hcs f')).
    split; [done|]. apply narrows_same_name in He. by apply (reduced_highest project candidates Hp Hplat Hcs f').
Qed.

(** C23: There is a nearest framework exactly when there is a compatible one.
    For a project the resolver supports and candidates none of which is portable,
    [get_nearest] answers with the index of a candidate the project is compatible
    with and, where the project has no platform, of the highest of the project's
    own framework if one of those is compatible; and it answers [None] only when
    no candidate is compatible: the pairwise exclusion of [reduce_upwards] never
    excludes them all. *)
Theorem get_nearest_complete project candidates :
  is_resolver_project_framework project = true -> forallb (fun c => negb (is_pcl c)) candidates = true ->
  match get_nearest project candidates with
  | Some n =>
      exists f, candidates !! n = Some f /\ is_compatible project f = true
        /\ (platform project = None -> forall f', f' ∈ candidates -> is_compatible project f' = true ->
              same_name project f' = true -> same_name project f = true /\ ver_leb (version f') (version f) = true)
  | None => forall f, f ∈ candidates -> is_compatible project f = false
  end.
Proof.
  intros Hp Hcs. destruct (get_nearest project candidates) as [n|] eqn:H.
  - destruct (get_nearest_compatible project candidates n (or_introl H)) as (f & Hf & Hc). exists f.
    split_and!; [done..|]. intros Hplat f' Hf'. by apply (get_nearest_highest project candidates n).
  - apply no_nearest_incompatible; [done..|]. unfold get_nearest in H.
    by rewrite live_specific in H by (by apply resolver_project_live).
Qed.

(** ** The orders of candidates *)

Lemma flip_cmp_total {A} (cmp : A -> A -> comparison) : TotalCmp cmp -> TotalCmp (fun a b => cmp b a).
Proof.
  intros T. split.
  - intros a. apply (cmp_refl cmp).
  - intros a b. apply (cmp_opp cmp).
  - intros a b c H1 H2. by apply (cmp_le_trans cmp c b a).
Qed.

#[export] Instance bool_cmp_total : TotalCmp bool_cmp.
Proof. split; [by intros []|by intros [] []|by intros [] [] []]. Qed.

#[export] Instance ci_cmp_total : TotalCmp ci_cmp.
Proof. unfold ci_cmp. apply (cmp_on_total lower str_cmp). unfold str_cmp. apply _. Qed.

#[export] Instance opt_ci_cmp_total : TotalCmp opt_ci_cmp.
Proof. unfold opt_ci_cmp. apply _. Qed.

#[export] Instance indexed_cmp_total cmp : TotalCmp cmp -> TotalCmp (indexed_cmp cmp).
Proof. intros T. apply (then_cmp_total (cmp_on snd cmp) (cmp_on fst Nat.compare)); apply _. Qed.

#[export] Instance framework_precedence_compare_total : TotalCmp framework_precedence_compare.
Proof.
  set (pb := fun f => (is_package_based f && negb (is_netcore50_and_up f))%bool).
  set (prec := fun f => (if pb f then package_based_precedence else non_package_based_precedence) (framework f)).
  apply (TotalCmp_ext _ (fun a b => then_cmp (cmp_on pb bool_cmp a b) (cmp_on prec N.compare a b))); [|apply _].
  intros a b. unfold framework_precedence_compare, cmp_on, prec. cbv zeta. fold (pb a) (pb b). by destruct (pb a), (pb b).
Qed.

#[export] Instance nuget_framework_sort_compare_total : TotalCmp nuget_framework_sort_compare.
Proof.
  apply (TotalCmp_ext _ (fun a b => then_cmp (cmp_on (fun f => negb (is_any f)) bool_cmp a b)
    (then_cmp (cmp_on is_unsupported bool_cmp a b)
      (then_cmp (cmp_on framework ci_cmp a b)
        (then_cmp (cmp_on version ver_cmp a b)
          (then_cmp (cmp_on profile opt_ci_cmp a b)
            (then_cmp (cmp_on (fun f => fst <$> platform f) opt_ci_cmp a b)
              (cmp_on platform_version ver_cmp a b)))))))).
  - intros a b. unfold nuget_framework_sort_compare, cmp_on.
    destruct (is_any a), (is_any b), (is_unsupported a), (is_unsupported b); done.
  - repeat (apply then_cmp_total; [apply _|]). apply _.
Qed.

#[export] Instance final_compare_total : TotalCmp final_compare.
Proof.
  apply then_cmp_total; [apply _|]. apply then_cmp_total; [apply flip_cmp_total; apply _|].
  apply (cmp_on_total framework_hash N.compare). apply _.
Qed.

#[export] Instance reduce_core_compare_total : TotalCmp reduce_core_compare.
Proof.
  apply (then_cmp_total (cmp_on framework ci_cmp) (cmp_on framework_display_for_sort ci_cmp)); apply _.
Qed.

#[export] Instance equivalent_entry_cmp_total : TotalCmp equivalent_entry_cmp.
Proof.
  apply (then_cmp_total (cmp_on (fun e => equivalent_precedence (framework (snd e))) N.compare)
    (fun a b => then_cmp (nuget_framework_sort_compare (snd b) (snd a)) (Nat.compare (fst a) (fst b)))); [apply _|].
  apply (then_cmp_total (fun a b => nuget_framework_sort_compare (snd b) (snd a)) (cmp_on fst Nat.compare)); [|apply _].
  apply (flip_cmp_total (cmp_on snd nuget_framework_sort_compare)). apply _.
Qed.

(** The comparisons that sort candidates are total orders, although they mix
    precedence tables, flags, versions, optional texts and a hash, one of them
    reversed; and with the index as last key no two candidates tie.  So the sorts
    of the reducer cannot fail and their results are determined. *)
Theorem candidate_orders_total :
  (TotalCmp (indexed_cmp final_compare) /\ TotalCmp (indexed_cmp reduce_core_compare) /\ TotalCmp equivalent_entry_cmp)
  /\ forall a b : entry, fst a <> fst b ->
       indexed_cmp final_compare a b <> Eq /\ indexed_cmp reduce_core_compare a b <> Eq /\ equivalent_entry_cmp a b <> Eq.
Proof.
  split; [split_and!; apply _|]. intros a b Hne. assert (Hc : Nat.compare (fst a) (fst b) <> Eq) by (by rewrite Nat.compare_eq_iff).
  unfold indexed_cmp, equivalent_entry_cmp. split_and!.
  - by destruct (final_compare _ _).
  - by destruct (reduce_core_compare _ _).
  - destruct (equivalent_compare _ _); [|done..]. by destruct (nuget_framework_sort_compare _ _).
Qed.

(** A newer project accepts at least what an older one does.  Raising the
    version of a supported project framework keeps every compatible candidate,
    unless the candidate is portable and the new version is the first with the
    Xamarin fallback of its platform (from then on portable candidates are
    accepted by profile). *)
Theorem is_compatible_newer project v candidate :
  is_resolver_project_framework project = true -> ver_leb (version project) v = true ->
  is_pcl candidate = false \/ platform_fallback (set_version project v) = platform_fallback project ->
  is_compatible project candidate = true -> is_compatible (set_version project v) candidate = true.
Proof.
  intros Hp%resolver_project_live Hv Hfb. by apply (newer_compatible project v Hp Hv (S (depth candidate))); [lia|].
Qed.

(** The recursive functions end and are the functions of the code: with the
    fuel they are given (the dashes of the text, or of the profile) each satisfies
    the equation of its Rust definition, in which the recursive calls are to the
    function itself. *)
Theorem framework_recursion s f p c cs :
  parse_short s = parse_short_with parse_short short_folder_name s
  /\ short_folder_name f = short_folder_name_with (render_member parse_short short_folder_name) f
  /\ is_compatible p c = is_compatible_with is_compatible p c
  /\ get_nearest_reducer p cs = get_nearest_with get_nearest_reducer p cs.
Proof.
  split_and!; [apply parse_short_eq|apply short_folder_name_eq|apply is_compatible_eq|apply get_nearest_reducer_eq].
Qed.

(** ** Witnesses *)

Lemma get_nearest_compatible_witness : exists f,
  map read [#"portable-net40+sl5"; #"portable-net45+win8"] !! 1 = Some f /\ is_compatible (read (#"net45")) f = true.
Proof.
  apply (get_nearest_compatible (read (#"net45")) (map read [#"portable-net40+sl5"; #"portable-net45+win8"]) 1).
  left. vm_compute. reflexivity.
Defined.

Lemma get_nearest_complete_witness :
  is_compatible (read (#"netstandard2.0")) (read (#"net472")) = false
  /\ ver_leb (version (read (#"net5.0"))) (version (read (#"net6.0"))) = true.
Proof.
  split.
  - pose proof (get_nearest_complete (read (#"netstandard2.0")) (map read [#"net472"; #"netstandard2.1"])
      ltac:(vm_compute; reflexivity) ltac:(vm_compute; reflexivity)) as H.
    replace (get_nearest _ _) with (@None nat) in H by (vm_compute; reflexivity). apply H. left.
  - pose proof (get_nearest_complete (read (#"net8.0")) (map read [#"net5.0"; #"netstandard2.1"; #"net6.0"])
      ltac:(vm_compute; reflexivity) ltac:(vm_compute; reflexivity)) as H.
    replace (get_nearest _ _) with (Some 2) in H by (vm_compute; reflexivity).
    destruct H as (f & [= <-] & _ & H). apply H; [vm_compute; reflexivity|left|vm_compute; reflexivity..].
Defined.

Lemma get_nearest_highest_witness :
  same_name (read (#"net8.0")) (read (#"net6.0")) = true /\ ver_leb (version (read (#"net5.0"))) (version (read (#"net6.0"))) = true.
Proof.
  apply (get_nearest_highest (read (#"net8.0")) (map read [#"net5.0"; #"netstandard2.1"; #"net6.0"]) 2).
  - vm_compute. reflexivity.
  - vm_compute. reflexivity.
  - vm_compute. reflexivity.
  - vm_compute. reflexivity.
  - vm_compute. reflexivity.
  - left.
  - vm_compute. reflexivity.
  - vm_compute. reflexivity.
Defined.

Lemma candidate_orders_total_witness : indexed_cmp final_compare (0, unsupported) (1, unsupported) <> Eq.
Proof. apply candidate_orders_total. discriminate. Defined.

Lemma is_compatible_newer_witness :
  is_compatible (set_version (read (#"net472")) (4, 8, 0, 0)%N) (read (#"portable-net45+win8")) = true.
Proof.
  apply is_compatible_newer.
  - vm_compute. reflexivity.
  - vm_compute. reflexivity.
  - right. vm_compute. reflexivity.
  - vm_compute. reflexivity.
Defined.
