(* ===== verification/FrameworkGroups.v ===== *)
(** * The dependencies the resolver reads are for the project's framework

    Target frameworks as an instance of the interface [Framework] that the
    package model is written against, and what it gives the resolver: the
    dependencies of a package are those of a group that is compatible with the
    framework of the project. *)

From S2P Require Import Prelude Order Version Range Package Nuspec BTree Resolver ResolverEx.
From S2P Require TargetFramework TargetFrameworkThm TargetFrameworkCompat.
Import TargetFramework (NuGetFramework, is_compatible, is_pcl).

#[export, refine] Instance nuget_framework : Framework NuGetFramework := {
  FrameworkParseError := TargetFramework.FrameworkParseError;
  NuGetFramework_parse := TargetFramework.parse;
  any_framework := TargetFramework.with_id TargetFramework.id.ANY;
  get_nearest_reducer := TargetFramework.get_nearest_reducer;
  is_resolver_project_framework := TargetFramework.is_resolver_project_framework }.
Proof.
  - by vm_compute.
  - intros f cs n H. rewrite TargetFrameworkThm.get_nearest_reducer_eq in H.
    apply TargetFrameworkThm.get_nearest_with_sound in H as (g & Hg & _). by apply lookup_lt_Some in Hg.
Defined.

(** C38: The dependencies of a package fit the project.  What the resolver caches
    for a package is the dependencies of one group of its nuspec, whose target
    framework the project is compatible with; or there are none, because no group
    was chosen.  And if the project's framework is one the resolver supports and
    no group is for a portable framework, no group is chosen only when the project
    is compatible with none. *)
Theorem cached_dependencies_compatible {XmlError} {RE : ResolverEnv NuGetFramework XmlError} identity cached :
  read_entry identity = Some (Ok cached) ->
  let groups := dependency_groups (installed_nuspec (package cached)) in
  (exists g, g ∈ groups /\ cached_dependencies cached = dependencies g
     /\ is_compatible framework (group_target_framework g) = true)
  \/ (cached_dependencies cached = []
      /\ (TargetFramework.is_resolver_project_framework framework = true ->
          forallb (fun g => negb (is_pcl (group_target_framework g))) groups = true ->
          forall g, g ∈ groups -> is_compatible framework (group_target_framework g) = false)).
Proof.
  unfold read_entry. destruct (read_installed_package _ _ _) as [p|e]; [|done].
  unfold select_dependency_group, select_dependency_group_index. cbn [get_nearest_reducer nuget_framework].
  set (fs := map group_target_framework (dependency_groups (installed_nuspec p))).
  destruct (TargetFramework.get_nearest_reducer framework fs) as [n|] eqn:En.
  - pose proof En as Hs. rewrite TargetFrameworkThm.get_nearest_reducer_eq in Hs.
    apply TargetFrameworkThm.get_nearest_with_sound in Hs as (f & Hf & Hc).
    unfold fs in Hf. apply list_lookup_fmap_Some in Hf as (g & -> & Hg).
    cbv beta iota. rewrite Hg. cbn [fmap option_fmap option_map]. intros [= <-]. left. exists g. split_and!; [|done..].
    by eapply list_elem_of_lookup_2.
  - intros [= <-]. right. split; [done|]. cbn [package]. intros Hr Hp g Hg.
    apply (TargetFrameworkCompat.no_nearest_incompatible framework fs Hr); [|done|by apply list_elem_of_fmap_2].
    rewrite forallb_forall in *. intros f (g' & <- & Hg')%in_map_iff. by apply Hp.
Qed.

(** A package with a group for [netstandard2.0] and one for [net6.0]. *)
Definition two_groups : xml_node :=
  let group tfm dep := Element None (#"group") [(#"targetFramework", tfm)]
    [Element None (#"dependency") [(#"id", dep); (#"version", #"1.0.0")] []] in
  Element None (#"package") [] [Element None (#"metadata") [] [Element None (#"dependencies") []
    [group (#".NETStandard2.0") (#"Old"); group (#"net6.0") (#"New")]]].

Definition two_groups_env : ResolverEnv NuGetFramework unit := {|
  parse_xml := fun _ => Ok two_groups;
  env_fs := folder_fs [(#"A", #"1.0.0", [])];
  root := #"/g";
  framework := TargetFramework.read (#"net8.0") |}.

Definition package_a : PackageIdentity :=
  PackageIdentity_new (PackageId_new (#"A")) {| major := 1; minor := 0; patch := 0; revision := 0; release_labels := []; metadata := None |}.

Example two_groups_choice :
  match read_entry (H0:=two_groups_env) package_a with
  | Some (Ok cached) => map (fun d => as_str (dependency_id d)) (cached_dependencies cached)
  | _ => []
  end = [#"New"].
Proof. vm_compute. reflexivity. Qed.

Lemma cached_dependencies_compatible_witness :
  match read_entry (H0:=two_groups_env) package_a with
  | Some (Ok cached) =>
      exists g, g ∈ dependency_groups (installed_nuspec (package cached)) /\ cached_dependencies cached = dependencies g
        /\ is_compatible (TargetFramework.read (#"net8.0")) (group_target_framework g) = true
  | _ => False
  end.
Proof.
  pose proof two_groups_choice as Hc. destruct (read_entry (H0:=two_groups_env) package_a) as [[cached|e]|] eqn:E.
  - destruct (cached_dependencies_compatible (RE:=two_groups_env) package_a cached E) as [H|[H _]].
    + exact H.
    + rewrite H in Hc. discriminate Hc.
  - discriminate Hc.
  - discriminate Hc.
Defined.
